(* ===== verification/_CoqProject ===== *)
-Q . S2P
Prelude.v
Text.v
Model.v
Operations.v
Reader.v
ReaderFacts.v
Encoder.v
Layout.v
Converter.v
Typing.v
OperationFacts.v
ConverterFacts.v
Decode.v
DecodeFacts.v
Samples.v
Slots.v
FrameRoots.v
Wait.v
WaitFacts.v
WaitRuns.v
WaitNative.v
WaitSamples.v
Tasks.v
TaskInv.v
TaskRun.v
TaskOps.v
TaskResults.v
TaskWaits.v
TaskEvents.v
TaskCleanups.v
TaskCancel.v
TaskFinish.v
TaskPoll.v
TaskSchedule.v
TaskDrive.v
TaskCalls.v
TaskRuns.v
TaskBehaviour.v
TaskSamples.v
Guarantees.v
RuntimeGuarantees.v
TaskGuarantees.v
Nodes.v
Flow.v
Effects.v
RootSlots.v
RootFacts.v
Liveness.v
PlanLogic.v
LivenessFacts.v
LivenessGuarantees.v
Temporaries.v
Held.v
TemporaryFacts.v
SlotGuarantees.v
Memory.v
Arena.v
ArenaFacts.v
ObjectFacts.v
Heap.v
Reach.v
CollectInv.v
CollectVisit.v
CollectTrace.v
Collect.v
CollectStable.v
Allocate.v
HeapSamples.v
HeapGuarantees.v
SharedHeap.v
SharedInv.v
SharedRuns.v
SharedGuarantees.v
SharedAccess.v
AccessRuns.v
AccessGuarantees.v
Cleanup.v
Structured.v
CleanupFacts.v
CleanupGuarantees.v
