(* ===== verification/Prelude.v ===== *)
(** * Verification of the Loom native back end

    Loom programs are checked by the self-hosted front end, which prints a _checked program_ as
    text; [loom-native] ([src/compiler/src/]) reads that text, lowers it to LLVM, and links
    it with a runtime ([src/compiler/runtime/src/]) that owns the heap, the frames of
    suspended tasks, the waits for the operating system, and the task scheduler. This library
    models the parts of the two Rust crates that do not go through the LLVM bindings, as
    executable definitions that follow the source function by function, and proves what those
    parts promise each other.

    ** Conventions

    Rust code that can fail or abort is a function into [outcome] (this file): [Ok], [Err] for
    the [Result] of the decoder and for a [fault] of the runtime, [Panic] with the message of a panic, a [fatal] abort or a
    failed index, and [Stuck] when the fuel of a definition runs out. No theorem
    excuses [Stuck]: wherever fuel is used, the theorems show that the amount chosen is enough.
    [usize], [u64] and table indices are [N], with [checked_add] and [sub_checked] where the
    source can overflow; [i64] is [Z]; bytes are [Init.Byte.byte]; a [HashMap] is a [gmap],
    a [BTreeSet] and a [BTreeMap] are sorted lists without repetition ([oset_*], [pset_*]),
    a [Vec] is a list with [get], [index_or_panic] and [set_or_panic] for indexing. State that the source changes in
    place is passed through ([Reader], [IO] of [Wait], [Act] of [Tasks], [St] of [Effects]).

    ** The heap: [compiler/runtime/src/lib.rs], [pages.rs], [shared_heap.rs],
    [shared_access.rs], [mutex.rs], [worker_control.rs]

    The private heap of a thread works on raw memory, here a function from addresses to bytes
    ([Memory]). The operating system and the allocator are a class ([System]) whose laws say
    that what they give out is not in use; running out of memory is the one abort that the
    theorems of this part excuse ([runs]). The code of generated tracers is a class ([Code]):
    the offsets that it visits, as the value says; [CodeSpec] asks that they are aligned
    fields of the value and do not depend on the pointers in them. The list of root frames,
    which is threaded through the stack, is a list, and its root arrays are in memory.

    - [Arena], [ArenaFacts], [ObjectFacts]: pages, their bitmaps of base addresses, the table
      of large objects, and that together they are a finite map of disjoint blocks.
    - [Heap]: storage, root frames, tracers, [loom_rt_visit], [collect_roots],
      [allocate_storage] and the end of a heap. The work list has fuel for the number of
      objects and one more, enough because every object is pushed once; calls of tracers
      nest twice, a list and its elements, which are values.
    - [Reach]: what a collection is about, stated apart from it: the windows that tracers look
      at, reachability, and well-formed heaps. [CollectInv] is the invariant of tracing;
      [CollectVisit], [CollectTrace], [Collect] follow the collection from its
      parts to the whole.
      [CollectStable] proves that its result is a heap of the same kind, [Allocate] that an
      allocation keeps it one, and [HeapSamples] has a heap with a list that holds itself.
    - [HeapGuarantees] (C1 to C4): collections are exact and can be repeated, allocation is
      fresh, the object table is a map; and that a dropped heap leaves nothing.
    - [SharedHeap]: threads that attach to one heap and meet for a collection. The control
      mutex is held for whole turns, so that a turn is a function and an interleaving a
      sequence of turns ([step]); a thread may sleep between turns, and [notify_all] wakes
      all. The heap itself and its collector are a class ([Storage]).
      [SharedInv], [SharedRuns]: the invariant of the rendezvous, that every turn and every
      run keeps it, and what a collection sees.
    - [SharedGuarantees] (C5 to C7): registrations are exact, a collection stops the world,
      and nobody sleeps in vain.
    - [SharedAccess]: the locks of the program's mutexes and of access guards, by the address
      of the locked object: their flags, the two tables that lead to them, and what each thread
      holds. Turns are as in [SharedHeap]; [notify_one] wakes any one of the sleepers of a
      lock, and an attempt on a lock that does not wait may fail because another thread is at
      its mutex just then ([try_acquire]). Workers may be cancelled while they wait.
      [AccessRuns]: the invariant of the locks, for every turn and every run.
    - [AccessGuarantees] (C8 to C10): locks exclude, nobody sleeps at a free lock unless a
      worker is cancelled, and the run in which a cancelled worker takes a wake-up away.

    ** Faults and cleanup: [compiler/runtime/src/cleanup.rs], [worker_control.rs]

    A fault or a cancellation runs the registered cleanups while the stack still stands, and
    then unwinds to the innermost boundary. Generated code is a script ([Code]) of the
    operations that it calls, with a continuation wherever the answer matters; unwinding is a
    way to complete ([Completion]).

    - [Cleanup]: the chains and boundaries of a thread, and every operation of [cleanup.rs].
      The fuel bounds the nesting of calls and the length of the chains.
    - [Structured]: what the scripts mean, by recursion on them: an activation owns the
      cleanups that it has registered, they run last first when it completes abruptly, and
      then its caller goes on. [balanced] is the contract of generated code.
    - [CleanupFacts]: the simulation. A context is what an activation finds; a call meets its
      meaning in every context, and when it throws, what is left to do is an unwinding of the
      context. With it comes that enough fuel exists for every balanced script.
    - [CleanupGuarantees] (C11 to C13): boundaries restore threads, programs and workers end
      as they should, and the runs in which cancellation skips cleanup.

    ** The checked-program reader: [compiler/src/model.rs], [compiler/src/native_input.rs]

    - [Text]: what the reader uses of [str]: UTF-8 boundaries, decimal integers, floats.
    - [Model]: the program's data ([model.rs], the whole file).
    - [Operations]: operator and runtime operation names and signatures.
    - [Reader]: the cursor, the expression stream and every section, down to a raw program;
      the nesting limit of 512 is the source's, and fuel 514 exceeds it ([ReaderFacts]).
    - [Encoder]: the writer of the same stream ([artifact.loom]), for the round trip only.
    - [Layout]: the search for types that contain themselves; the fuel is the number of
      types.
    - [Converter], [Typing], [OperationFacts], [ConverterFacts]: the conversion of trees to
      typed programs, the typing rules, stated apart from the conversion, and that accepted
      trees obey them; the fuel is three units for each of the 513 levels of a tree.
    - [Decode], [DecodeFacts], [Samples]: [decode] as a whole, and streams to run it on.
    - [Guarantees] (C14 to C18): decoding never panics and always answers, accepted programs are
      well formed, reading inverts writing, and the parts' own theorems.

    ** The runtime: [compiler/runtime/src/frame_roots.rs], [wait.rs], [tasks*.rs]

    - [Slots]: generation-stamped identities, shared by the two tables below.
    - [FrameRoots]: the dense table of managed pointers that suspended tasks retain.
    - [Wait]: the reactor over a native poller. The poller is a class ([Poller]): its own
      state, and operations that may fail. [wait] lets the core's lock go before it polls and
      takes it again afterwards; a turn of its loop ([Turn]) says what other threads do in
      these gaps. [WaitFacts]: what each operation does, and what a wait and the other threads
      do together ([progresses]).
    - [WaitRuns]: every interleaving of the locked sections, those of a wait included, with the
      events that a wait has in hand; [wait_run] proves that a call of [wait] is such a run.
      [WaitNative]: the poller's documented behaviour ([PollerSpec]), its one-shot interests,
      and that the reactor and the poller agree. [WaitSamples] is a scripted poller.
    - [RuntimeGuarantees] (C19 to C26): the table implements a finite map, identities never
      come back, and what the reactor announces, refuses and undoes; a run in which a failing
      wait drops an event.
    - [Tasks]: the scheduler. Its owner ([Owner]) holds the core, the frame roots, the reactor
      and the world outside; an operation is an [Act]: it answers [Done] or is refused with
      [Invalid], which generated code turns into a fault. The generated code is a parameter,
      as are cleanup callbacks, which may move the frames ([Native]), blocking jobs and
      parallel jobs.
    - [TaskInv]: the invariant, in eight parts that speak about views of the task map; tasks
      that an operation is removing are doomed, and exempt from what they have lost.
      [TaskRun]: the program logic ([wp]) and the frame lemmas.
    - [TaskOps], [TaskResults], [TaskWaits], [TaskEvents]: the operations of generated code.
      [TaskCleanups], [TaskCancel]: cancellation; a subtree is walked with fuel
      twice the number of tasks, because every task is visited twice. [TaskFinish],
      [TaskPoll], [TaskSchedule], [TaskDrive]: the end of a resume, the delivery of events, the
      driver's decisions and giving up, and the resume that cancels a child.
    - [TaskCalls], [TaskRuns]: every call as one type, with its contract ([allowed]); the
      scheduler as a step relation; and [drive] and [task_run] over generated code, which is
      any script of calls, computations, collections and operations of other threads that
      keeps the contracts ([keeps_contract]). Other threads may do anything to the reactor
      but cancel, which only the scheduler does. The driver runs for as many turns as it has
      inputs; that generated code ends is not claimed.
    - [TaskBehaviour], [TaskSamples], [TaskGuarantees] (C27 to C34): the invariant over every
      call and every run, no lost wake-up, no deadlock, exact cancellation, delivery,
      selection in order of completion, results given once, cleanups in reverse order.

    The components meet where the program's do: task frames are entries of [FrameRoots], the
    external waits of tasks are registrations of [Wait], whose notifications [poll] delivers;
    the part [external_ok] of the scheduler's invariant says that they agree.

    ** The root slots of generated code: [compiler/src/codegen/llvm_gc.rs],
    [llvm_gc_liveness.rs]

    Values that the collector must find live in root slots. Three analyses of the checked
    program decide which, before any LLVM code is emitted; their tables are keyed by the
    addresses of expressions, statements and blocks, here by paths ([Nodes]).

    - [RootSlots]: the walks over trees, the allocating operations, the functions that may
      allocate, the managed types and the memoised question whether an expression may.
      [RootFacts], and the end of [TemporaryFacts]: what they answer. The fuel of the
      search for allocating functions is the number of callers plus one; that of [managed]
      the number of types, enough because [Layout] refuses types that contain themselves.
    - [Liveness]: the plan that says where the slot of a local is cleared and which locals a
      collecting operation restores; loops are searched for one round more than the body
      reads locals. [Flow] is control flow in general; [PlanLogic] states that of checked
      bodies, apart from the pass, and with [LivenessFacts] proves the pass exact.
    - [Temporaries]: the slots of results that are held across a collection. [Held] states on
      the tree alone what they should be; [TemporaryFacts] proves that the pass computes it.
    - [Effects]: the state monad of the last two passes and its weakest preconditions.
    - [LivenessGuarantees] (C35 to C38), [SlotGuarantees] (C39 to C40): plans are always
      made, cleared locals are dead, locals that are read are restored, allocation is
      predicted exactly, held results never share a slot, operands have one exactly when
      they must, and slots are given back where their operands are dropped.

    ** Not modelled

    The rest of code generation ([codegen/llvm*.rs]) emits LLVM through bindings that are not
    part of the repository: the stores into root slots, tracers and the lowering of root
    markers among it; of [llvm_gc.rs], the forwarders and match handoffs. Of [lib.rs], texts,
    the growth of buffers and lists, their views, files and processes are left out: they are
    pointer arithmetic over single objects, or host calls. Of [shared_heap.rs], poisoned
    mutexes and several shared heaps at a time; of [pages.rs], the trimming of mappings; of
    [tasks.rs], the [OWNER] thread-local, the null checks of [edit], socket leases and
    provider completions; of [tasks_parallel.rs], the submission of jobs, and, in the theorems
    only, the cancellation of a child whose job has completed, which resumes it at once. Of
    [cleanup.rs], the retries of [write] and the signal it ignores, and the C interface of
    [fault_abi.rs]; a worker that gives up a lock ends its turn in [SharedAccess]. The rest of the runtime is host I/O, thread pools and the binding of a TLS
    library. The front end and the standard library are
    written in Loom, not in Rust. *)

From stdpp Require Export base tactics numbers list option gmap strings.
From Stdlib Require Export Init.Byte.
From Stdlib Require Import Sorted.

Open Scope N_scope.

(** ** Outcomes of fallible Rust code *)

(** The result of running a fallible Rust function: [Ok v] and [Err msg] are the two
    constructors of [Result<_, String>]; [Panic why] is a Rust panic (slice index out of
    range, integer overflow under the checked profile, [unwrap] of [None], an explicit
    [unreachable!]); [Stuck] means that the fuel of a bounded recursion ran out. Every
    theorem of totality excludes the last two. *)
Inductive outcome (A : Type) : Type :=
  | Ok (v : A)
  | Err (msg : string)
  | Panic (why : string)
  | Stuck.
Arguments Ok {A} v.
Arguments Err {A} msg.
Arguments Panic {A} why.
Arguments Stuck {A}.

#[global] Instance outcome_ret : MRet outcome := @Ok.
#[global] Instance outcome_bind : MBind outcome := λ A B k m,
  match m with
  | Ok v => k v
  | Err e => Err e
  | Panic w => Panic w
  | Stuck => Stuck
  end.
#[global] Instance outcome_fmap : FMap outcome := λ A B f m, m ≫= λ v, Ok (f v).

(** [if cond { return Err(msg) }] *)
Definition fail_if (cond : bool) (msg : string) : outcome () :=
  if cond then Err msg else Ok tt.

(** [option.ok_or(msg)?] *)
Definition ok_or {A} (o : option A) (msg : string) : outcome A :=
  match o with Some v => Ok v | None => Err msg end.

(** An access that panics when the value is absent ([unwrap], [expect], indexing). *)
Definition or_panic {A} (o : option A) (why : string) : outcome A :=
  match o with Some v => Ok v | None => Panic why end.

(** [m] returns [Ok v] with [P v], or an ordinary error: it neither panics nor runs out
    of fuel. *)
Definition outcome_sat {A} (P : A → Prop) (m : outcome A) : Prop :=
  match m with
  | Ok v => P v
  | Err _ => True
  | Panic _ => False
  | Stuck => False
  end.

(** [m] is an ordinary Rust [Result]. *)
Definition returns {A} (m : outcome A) : Prop := outcome_sat (λ _, True) m.

(** ** Machine integers and indexing *)

(** [usize] and [u64] on the supported 64-bit hosts, and the bounds of [i64]. *)
Definition usize_max : N := 2 ^ 64 - 1.
Definition isize_max : N := 2 ^ 63 - 1.
Definition i64_min : Z := (- 2 ^ 63)%Z.
Definition i64_max : Z := (2 ^ 63 - 1)%Z.

(** [a.checked_add(b)] on [usize]/[u64]. *)
Definition checked_add (a b : N) : option N :=
  if a + b <=? usize_max then Some (a + b) else None.

(** [a + b] under overflow checks. *)
Definition add_checked (a b : N) : outcome N :=
  or_panic (checked_add a b) "attempt to add with overflow".

(** [a - b] under overflow checks. *)
Definition sub_checked (a b : N) : outcome N :=
  if b <=? a then Ok (a - b) else Panic "attempt to subtract with overflow".

Abbreviation lengthN l := (N.of_nat (length l)).

(** [values.get(index)] for a [usize] index: the length test comes first, so that a huge
    index is rejected without being converted to unary. *)
Definition get {A} (l : list A) (i : N) : option A :=
  if i <? lengthN l then l !! N.to_nat i else None.

(** [values[index]]: panics out of range. *)
Definition index_or_panic {A} (l : list A) (i : N) : outcome A :=
  or_panic (get l i) "index out of bounds".

(** [values[index] = v]: panics out of range. *)
Definition set_or_panic {A} (l : list A) (i : N) (v : A) : outcome (list A) :=
  if i <? lengthN l then Ok (<[N.to_nat i := v]> l) else Panic "index out of bounds".

(** ** Notations *)

Declare Scope loom_scope.
Delimit Scope loom_scope with loom.

(** The derived [PartialEq] of Rust as a test. *)
Notation "x =! y" := (bool_decide (x = y)) (at level 70) : loom_scope.
Notation "x <>! y" := (negb (bool_decide (x = y))) (at level 70) : loom_scope.
Open Scope loom_scope.

(** [option.map(f).transpose()] for a fallible [f]. *)
Definition transpose_map {A B} (f : A → outcome B) (o : option A) : outcome (option B) :=
  match o with Some v => Some <$> f v | None => Ok None end.

(** ** Ordered collections *)

(** [BTreeSet<u64>]: strictly increasing lists, so that [first] and iteration follow the
    key order the code relies on. *)
Fixpoint oset_insert (x : N) (l : list N) : list N :=
  match l with
  | [] => [x]
  | y :: l' =>
      if x <? y then x :: l
      else if y <? x then y :: oset_insert x l'
      else l
  end.

Definition oset_remove (x : N) (l : list N) : list N := filter (λ y, y ≠ x) l.

(** The derived order of the pairs that key [BTreeMap]s and [BTreeSet]s. *)
Definition before (a b : N * N) : bool := (a.1 <? b.1) || ((a.1 =? b.1) && (a.2 <? b.2)).

(** [BTreeSet<(u64, u64)>]: in the order of the pairs. *)
Fixpoint pset_insert (x : N * N) (l : list (N * N)) : list (N * N) :=
  match l with
  | [] => [x]
  | y :: l' => if before x y then x :: l else if before y x then y :: pset_insert x l' else l
  end.

Definition pset_remove (x : N * N) (l : list (N * N)) : list (N * N) := filter (λ y, y ≠ x) l.

(** [Vec::swap_remove] on an index known to be in range: the last element takes the
    place of the removed one. *)
Definition swap_remove {A} (l : list A) (i : nat) : list A :=
  match last l with
  | Some x => removelast (<[i := x]> l)
  | None => l
  end.

(** ** Outcome lemmas *)

Section outcome_lemmas.
Context {A B : Type}.
Implicit Types (m : outcome A) (k : A → outcome B).

Lemma sat_bind (P : A → Prop) (Q : B → Prop) m k :
  outcome_sat P m → (∀ v, m = Ok v → P v → outcome_sat Q (k v)) → outcome_sat Q (m ≫= k).
Proof. destruct m; simpl; naive_solver. Qed.

Lemma sat_mono (P Q : A → Prop) m :
  outcome_sat P m → (∀ v, m = Ok v → P v → Q v) → outcome_sat Q m.
Proof. destruct m; simpl; naive_solver. Qed.

Lemma sat_Ok (P : A → Prop) m v : outcome_sat P m → m = Ok v → P v.
Proof. intros H ->. exact H. Qed.

Lemma sat_and (P Q : A → Prop) m :
  outcome_sat P m → outcome_sat Q m → outcome_sat (λ v, P v ∧ Q v) m.
Proof. destruct m; simpl; auto. Qed.

Lemma sat_returns (P : A → Prop) m : outcome_sat P m → returns m.
Proof. intros H. by eapply sat_mono. Qed.

Lemma returns_sat (P : A → Prop) m :
  returns m → (∀ v, m = Ok v → P v) → outcome_sat P m.
Proof. destruct m; simpl; naive_solver. Qed.

Lemma bind_Ok_inv m k v : m ≫= k = Ok v → ∃ a, m = Ok a ∧ k a = Ok v.
Proof. destruct m; simpl; naive_solver. Qed.

Lemma ok_or_sat (P : A → Prop) (o : option A) msg :
  (∀ v, o = Some v → P v) → outcome_sat P (ok_or o msg).
Proof. destruct o; simpl; auto. Qed.

Lemma or_panic_sat (P : A → Prop) (o : option A) why :
  (∃ v, o = Some v ∧ P v) → outcome_sat P (or_panic o why).
Proof. intros (v & -> & Hv). exact Hv. Qed.

Lemma ok_or_Ok (o : option A) msg v : ok_or o msg = Ok v ↔ o = Some v.
Proof. destruct o; simpl; naive_solver. Qed.

Lemma or_panic_Ok (o : option A) why v : or_panic o why = Ok v ↔ o = Some v.
Proof. destruct o; simpl; naive_solver. Qed.

Lemma fmap_Ok_inv (f : A → B) m w : f <$> m = Ok w → ∃ v, m = Ok v ∧ w = f v.
Proof. destruct m; simpl; naive_solver. Qed.
End outcome_lemmas.

Lemma fail_if_Ok b msg u : fail_if b msg = Ok u ↔ b = false.
Proof. destruct b, u; simpl; naive_solver. Qed.

Lemma fail_if_sat (P : () → Prop) b msg :
  (b = false → P tt) → outcome_sat P (fail_if b msg).
Proof. destruct b; simpl; auto. Qed.

Section mapM_lemmas.
Context {A B : Type} (f : A → outcome B).

Lemma mapM_Ok l ys : mapM f l = Ok ys ↔ Forall2 (λ x y, f x = Ok y) l ys.
Proof.
  revert ys. induction l as [|x l IH]; intros ys; simpl.
  - split; [intros [= <-]; constructor | by inversion 1].
  - split.
    + intros (y & Hy & Hk)%bind_Ok_inv.
      apply bind_Ok_inv in Hk as (ys' & ?%IH & [= <-]). by constructor.
    + inversion 1 as [|?? ? ? Hy Hl]; subst.
      rewrite Hy. simpl. by apply IH in Hl as ->.
Qed.

Lemma mapM_sat (Q : A → B → Prop) l :
  (∀ x, x ∈ l → outcome_sat (Q x) (f x)) → outcome_sat (Forall2 Q l) (mapM f l).
Proof.
  induction l as [|x l IH]; simpl; intros Hf; [by constructor|].
  apply (sat_bind (Q x)); [apply Hf; left|]. intros y _ Hy.
  apply (sat_bind (Forall2 Q l)); [apply IH; intros z ?; apply Hf; by right|].
  intros ys _ Hys. by constructor.
Qed.

Lemma mapM_sat_Forall (Q : B → Prop) l :
  (∀ x, x ∈ l → outcome_sat Q (f x)) →
  outcome_sat (λ ys, Forall Q ys ∧ length ys = length l) (mapM f l).
Proof.
  intros Hf. eapply sat_mono; [apply (mapM_sat (λ _, Q)), Hf|].
  intros ys _ H. split.
  - eapply Forall_forall. intros y Hy. apply list_elem_of_lookup in Hy as [i Hi].
    by destruct (Forall2_lookup_r _ _ _ _ _ H Hi) as (x & _ & ?).
  - symmetry. by eapply Forall2_length.
Qed.
End mapM_lemmas.

(** ** Code without ordinary errors *)

(** Rust code whose result type is not [Result]: the only failures are panics. *)
Definition infallible {A} (m : outcome A) : Prop := ∀ e, m ≠ Err e.

Lemma infallible_Ok {A} (v : A) : infallible (Ok v).
Proof. by intros e. Qed.

Lemma infallible_Panic {A} w : infallible (@Panic A w).
Proof. by intros e. Qed.

Lemma infallible_bind {A B} (m : outcome A) (k : A → outcome B) :
  infallible m → (∀ v, infallible (k v)) → infallible (m ≫= k).
Proof. intros Hm Hk e. destruct m; simpl; try done; [apply Hk|]. intros [= ->]. by apply (Hm e). Qed.

Lemma infallible_or_panic {A} (o : option A) w : infallible (or_panic o w).
Proof. by destruct o. Qed.

Lemma infallible_index {A} (l : list A) i : infallible (index_or_panic l i).
Proof. apply infallible_or_panic. Qed.

Lemma infallible_set {A} (l : list A) i v : infallible (set_or_panic l i v).
Proof. unfold set_or_panic. by case_match. Qed.

Lemma infallible_if {A} (c : bool) (m1 m2 : outcome A) :
  infallible m1 → infallible m2 → infallible (if c then m1 else m2).
Proof. by destruct c. Qed.

Lemma sat_infallible {A} (P : A → Prop) (m : outcome A) :
  outcome_sat P m → infallible m → ∃ v, m = Ok v ∧ P v.
Proof. destruct m as [v|e| |]; simpl; intros HP Hm; try done; [by exists v|by destruct (Hm e)]. Qed.

Create HintDb infallible.
#[export] Hint Resolve infallible_Ok infallible_Panic infallible_bind infallible_or_panic
  infallible_index infallible_set infallible_if : infallible.

(** ** Indexing lemmas *)

Section get_lemmas.
Context {A : Type}.
Implicit Types l : list A.

Lemma get_Some l i v : get l i = Some v ↔ l !! N.to_nat i = Some v.
Proof.
  unfold get. destruct (N.ltb_spec i (lengthN l)); [done|].
  split; [done|]. intros ?%lookup_lt_Some. lia.
Qed.

Lemma get_Some_lt l i v : get l i = Some v → i < lengthN l.
Proof. rewrite get_Some. intros ?%lookup_lt_Some. lia. Qed.

Lemma get_lt l i : i < lengthN l → ∃ v, get l i = Some v.
Proof.
  intros H. destruct (lookup_lt_is_Some_2 l (N.to_nat i)) as [v Hv]; [lia|].
  exists v. by apply get_Some.
Qed.

Lemma get_is_Some l i : is_Some (get l i) ↔ i < lengthN l.
Proof.
  split; [intros [v ?]; by eapply get_Some_lt | intros ?%get_lt; naive_solver].
Qed.

Lemma get_elem_of l i v : get l i = Some v → v ∈ l.
Proof. rewrite get_Some. apply list_elem_of_lookup_2. Qed.

Lemma get_Forall (P : A → Prop) l i v : Forall P l → get l i = Some v → P v.
Proof. rewrite get_Some. intros HP Hv. by eapply Forall_lookup_1. Qed.

Lemma Forall_elem (P : A → Prop) l v : Forall P l → v ∈ l → P v.
Proof. intros H. apply (proj1 (Forall_forall P l) H). Qed.

Lemma get_app_l l k i v : get l i = Some v → get (l ++ k) i = Some v.
Proof. rewrite !get_Some. intros. by apply lookup_app_l_Some. Qed.

Lemma get_insert_eq l i v : i < lengthN l → get (<[N.to_nat i := v]> l) i = Some v.
Proof. intros. apply get_Some, list_lookup_insert_eq. lia. Qed.

Lemma get_insert_ne l i j v : i ≠ j → get (<[N.to_nat i := v]> l) j = get l j.
Proof.
  intros. unfold get. rewrite length_insert, list_lookup_insert_ne by lia. done.
Qed.

Lemma index_or_panic_sat (P : A → Prop) l i :
  i < lengthN l → (∀ v, get l i = Some v → P v) → outcome_sat P (index_or_panic l i).
Proof. intros Hi HP. apply or_panic_sat. destruct (get_lt l i Hi) as [v Hv]; eauto. Qed.

Lemma index_or_panic_lookup l i v : l !! N.to_nat i = Some v → index_or_panic l i = Ok v.
Proof. intros Hv%get_Some. unfold index_or_panic. by rewrite Hv. Qed.

Lemma set_or_panic_sat (P : list A → Prop) l i v :
  i < lengthN l → P (<[N.to_nat i := v]> l) → outcome_sat P (set_or_panic l i v).
Proof. intros Hi HP. unfold set_or_panic. apply N.ltb_lt in Hi. by rewrite Hi. Qed.

Lemma set_or_panic_Ok l i v l' :
  set_or_panic l i v = Ok l' ↔ i < lengthN l ∧ l' = <[N.to_nat i := v]> l.
Proof.
  unfold set_or_panic. destruct (N.ltb_spec i (lengthN l)).
  - split; [by intros [= <-] | by intros [_ ->]].
  - split; [done | intros [? _]; lia].
Qed.
End get_lemmas.

(** ** Swap-removal *)

Section swap_remove_lemmas.
Context {A : Type}.
Implicit Types l : list A.

Lemma swap_remove_snoc l x i :
  (i ≤ length l)%nat →
  swap_remove (l ++ [x]) i = if decide (i = length l) then l else <[i := x]> l.
Proof.
  intros Hi. unfold swap_remove. rewrite last_snoc. case_decide as Heq.
  - subst i. rewrite insert_app_r_alt by lia. rewrite Nat.sub_diag. simpl.
    apply removelast_last.
  - rewrite insert_app_l by lia. apply removelast_last.
Qed.

(** [swap_remove] on an index in range: one element less, the last one in the gap. *)
Lemma swap_remove_spec l (p : N) x y :
  get l p = Some x → get l (lengthN l - 1) = Some y →
  lengthN (swap_remove l (N.to_nat p)) = lengthN l - 1 ∧
  ∀ q, get (swap_remove l (N.to_nat p)) q =
    if decide (q < lengthN l - 1) then if decide (q = p) then Some y else get l q else None.
Proof.
  intros Hp Hy. apply get_Some_lt in Hp as Hlt.
  destruct (exists_last (l := l)) as (l' & z & ->); [by intros ->; simpl in Hlt; lia|].
  rewrite length_app in *. simpl in *.
  replace (N.of_nat (length l' + 1) - 1) with (lengthN l') in * by lia.
  apply get_Some in Hy. rewrite Nat2N.id, lookup_app_r, Nat.sub_diag in Hy by lia.
  injection Hy as ->. rewrite swap_remove_snoc by lia.
  assert (∀ q, q < lengthN l' → get (l' ++ [y]) q = get l' q) as Hinit.
  { intros q Hq. unfold get. rewrite length_app. simpl.
    destruct (N.ltb_spec q (lengthN l')); [|lia].
    destruct (N.ltb_spec q (N.of_nat (length l' + 1))); [|lia]. apply lookup_app_l. lia. }
  assert (∀ q, ¬ q < lengthN l' → get l' q = None) as Hout.
  { intros q Hq. unfold get. destruct (N.ltb_spec q (lengthN l')); [lia|done]. }
  case_decide as Hpl.
  - split; [done|]. intros q. case_decide; [|by apply Hout].
    rewrite decide_False by lia. by rewrite Hinit.
  - rewrite length_insert. split; [done|]. intros q. case_decide as Hq.
    + rewrite Hinit by exact Hq. case_decide as Hqp.
      * subst q. apply get_insert_eq. exact Hq.
      * by apply get_insert_ne.
    + unfold get. rewrite length_insert. destruct (N.ltb_spec q (lengthN l')); [lia|done].
Qed.
End swap_remove_lemmas.

(** ** Ordered-set lemmas *)

Lemma before_spec a b : before a b = true ↔ a.1 < b.1 ∨ (a.1 = b.1 ∧ a.2 < b.2).
Proof. unfold before. rewrite orb_true_iff, andb_true_iff, !N.ltb_lt, N.eqb_eq. done. Qed.

Lemma before_false a b : before a b = false → before b a = false → a = b.
Proof.
  rewrite <-!not_true_iff_false, !before_spec. destruct a as [x y], b as [x' y']. simpl.
  intros. f_equal; lia.
Qed.

Lemma before_trans a b c : before a b = true → before b c = true → before a c = true.
Proof. rewrite !before_spec. lia. Qed.

Lemma before_irrefl a : before a a = false.
Proof. apply not_true_iff_false. rewrite before_spec. lia. Qed.

Lemma pset_insert_elem x y l : y ∈ pset_insert x l ↔ y = x ∨ y ∈ l.
Proof.
  induction l as [|z l IH]; simpl.
  - rewrite list_elem_of_singleton, elem_of_nil. tauto.
  - destruct (before x z) eqn:H1; [rewrite !elem_of_cons; tauto|].
    destruct (before z x) eqn:H2; rewrite !elem_of_cons; [rewrite IH; tauto|].
    rewrite (before_false x z H1 H2). tauto.
Qed.

Lemma pset_remove_elem x y l : y ∈ pset_remove x l ↔ y ≠ x ∧ y ∈ l.
Proof. unfold pset_remove. by rewrite list_elem_of_filter. Qed.

Abbreviation pair_order := (λ x y : N * N, before x y = true).

Lemma pset_insert_sorted x l :
  StronglySorted pair_order l → StronglySorted pair_order (pset_insert x l).
Proof.
  induction 1 as [|z l Hl IH Hz]; simpl; [by repeat constructor|].
  destruct (before x z) eqn:H1.
  - constructor; [by constructor|]. constructor; [done|].
    eapply Forall_impl; [exact Hz|]. intros y Hy. by eapply before_trans.
  - destruct (before z x) eqn:H2; [|by constructor].
    constructor; [done|]. apply Forall_forall. intros y [->|Hy]%pset_insert_elem; [done|].
    by eapply Forall_forall in Hz.
Qed.

Lemma pset_remove_sorted x l :
  StronglySorted pair_order l → StronglySorted pair_order (pset_remove x l).
Proof.
  unfold pset_remove. induction 1 as [|z l Hl IH Hz]; [constructor|].
  rewrite filter_cons. case_decide; [|done]. constructor; [done|].
  apply Forall_forall. intros y [_ Hy]%list_elem_of_filter. by eapply Forall_forall in Hz.
Qed.

Lemma pset_sorted_NoDup l : StronglySorted pair_order l → NoDup l.
Proof.
  induction 1 as [|z l Hl IH Hz]; constructor; [|done].
  intros Hin. eapply Forall_forall in Hz; [|exact Hin]. by rewrite before_irrefl in Hz.
Qed.


Lemma oset_insert_elem x y l : y ∈ oset_insert x l ↔ y = x ∨ y ∈ l.
Proof.
  induction l as [|z l IH]; simpl.
  - rewrite list_elem_of_singleton, elem_of_nil. tauto.
  - destruct (N.ltb_spec x z); [rewrite !elem_of_cons; tauto|].
    destruct (N.ltb_spec z x); rewrite !elem_of_cons; [rewrite IH; tauto|].
    assert (x = z) as -> by lia. tauto.
Qed.

Lemma oset_remove_absent x l : x ∉ l → oset_remove x l = l.
Proof.
  unfold oset_remove. induction l as [|y l IH]; [done|]. intros [Hy Hl]%not_elem_of_cons.
  rewrite filter_cons, decide_True by congruence. f_equal. by apply IH.
Qed.

Lemma oset_remove_head x l : x ∉ l → oset_remove x (x :: l) = l.
Proof.
  intros Hx. unfold oset_remove. rewrite filter_cons, decide_False by tauto. by apply oset_remove_absent.
Qed.

Lemma oset_remove_elem x y l : y ∈ oset_remove x l ↔ y ≠ x ∧ y ∈ l.
Proof. unfold oset_remove. by rewrite list_elem_of_filter. Qed.

Lemma oset_insert_sorted x l :
  StronglySorted N.lt l → StronglySorted N.lt (oset_insert x l).
Proof.
  induction 1 as [|z l Hl IH Hz]; simpl; [by repeat constructor|].
  destruct (N.ltb_spec x z).
  - constructor; [by constructor|]. constructor; [done|].
    eapply Forall_impl; [exact Hz|]. simpl. lia.
  - destruct (N.ltb_spec z x); [|by constructor].
    constructor; [done|]. apply Forall_forall. intros y [->|Hy]%oset_insert_elem; [done|].
    by eapply Forall_forall in Hz.
Qed.

Lemma oset_remove_sorted x l :
  StronglySorted N.lt l → StronglySorted N.lt (oset_remove x l).
Proof.
  induction 1 as [|z l Hl IH Hz]; simpl; [by constructor|].
  unfold oset_remove in *. rewrite filter_cons. case_decide; [|done].
  constructor; [done|]. apply Forall_forall. intros y [_ Hy]%list_elem_of_filter.
  by eapply Forall_forall in Hz.
Qed.

Lemma oset_sorted_NoDup l : StronglySorted N.lt l → NoDup l.
Proof.
  induction 1 as [|z l Hl IH Hz]; constructor; [|done].
  intros Hin. eapply Forall_forall in Hz; [|exact Hin]. lia.
Qed.

(** ** Filters *)

Section filter_lemmas.
Context {A : Type} (P : A → Prop) `{∀ x, Decision (P x)}.

Lemma filter_all (l : list A) : (∀ x, x ∈ l → P x) → filter P l = l.
Proof.
  induction l as [|x l IH]; intros Hl; [done|]. rewrite filter_cons, decide_True by (apply Hl; left).
  f_equal. apply IH. intros y ?. apply Hl. by right.
Qed.

Lemma filter_none (l : list A) : (∀ x, x ∈ l → ¬ P x) → filter P l = [].
Proof.
  induction l as [|x l IH]; intros Hl; [done|]. rewrite filter_cons, decide_False by (apply Hl; left).
  apply IH. intros y ?. apply Hl. by right.
Qed.
End filter_lemmas.

(** ** Automation *)

(** Lemmas of the form [outcome_sat P (operation …)], one per operation. *)
Create HintDb outcome.
#[export] Hint Resolve sat_returns : outcome.

(** One step through a monadic body: tests, lookups, panicking accesses and calls whose
    specification is in the [outcome] hint database. *)
Ltac sat_step :=
  lazymatch goal with
  | |- outcome_sat _ (fail_if ?b _ ≫= _) =>
      eapply sat_bind; [apply (fail_if_sat (λ _, b = false)); intros ?; assumption|];
      let H := fresh "H" in intros ? _ H; cbv beta in H
  | |- outcome_sat _ (ok_or ?o _ ≫= _) =>
      eapply sat_bind; [apply (ok_or_sat (λ v, o = Some v)); intros ? ?; assumption|];
      let H := fresh "H" in intros ? _ H; cbv beta in H
  | |- outcome_sat _ (_ ≫= _) =>
      eapply sat_bind; [solve [eauto with outcome]|];
      let H := fresh "H" in intros ? ? H; cbv beta in H
  | |- outcome_sat _ (fail_if _ _) => apply fail_if_sat; intros ?
  | |- outcome_sat _ (ok_or _ _) => apply ok_or_sat; intros ? ?
  | |- outcome_sat _ (Err _) => exact I
  | |- outcome_sat _ (match ?x with _ => _ end) => destruct x eqn:?
  | |- outcome_sat _ (Ok _) => simpl
  end.

(** Turn boolean tests in the context into arithmetic and logical facts. *)
Ltac bool_facts :=
  repeat match goal with
  | H : (_ || _)%bool = false |- _ => apply orb_false_iff in H; destruct H
  | H : (_ && _)%bool = true |- _ => apply andb_true_iff in H; destruct H
  | H : negb _ = false |- _ => apply negb_false_iff in H
  | H : negb _ = true |- _ => apply negb_true_iff in H
  | H : bool_decide _ = true |- _ => apply bool_decide_eq_true in H
  | H : bool_decide _ = false |- _ => apply bool_decide_eq_false in H
  | H : (_ <? _) = true |- _ => apply N.ltb_lt in H
  | H : (_ <? _) = false |- _ => apply N.ltb_ge in H
  | H : (_ <=? _) = true |- _ => apply N.leb_le in H
  | H : (_ <=? _) = false |- _ => apply N.leb_gt in H
  | H : (_ =? _) = true |- _ => apply N.eqb_eq in H
  | H : (_ =? _) = false |- _ => apply N.eqb_neq in H
  end.

(** Split an equation [m ≫= k = Ok v] into the equations of its steps. *)
Ltac outcome_inv :=
  repeat match goal with
  | H : (_ ≫= _) = Ok _ |- _ =>
      apply bind_Ok_inv in H; destruct H as (? & ? & ?)
  | H : fail_if _ _ = Ok _ |- _ => apply fail_if_Ok in H
  | H : ok_or _ _ = Ok _ |- _ => apply ok_or_Ok in H
  | H : or_panic _ _ = Ok _ |- _ => apply or_panic_Ok in H
  | H : Ok _ = Ok _ |- _ => injection H; clear H; intros; subst
  | H : mret _ = Ok _ |- _ => injection H; clear H; intros; subst
  | H : Err _ = Ok _ |- _ => discriminate H
  | H : Panic _ = Ok _ |- _ => discriminate H
  | H : Stuck = Ok _ |- _ => discriminate H
  end.
