(* ===== verification/Text.v ===== *)
(** Byte strings as the Rust side sees them: UTF-8 validity and character boundaries of
    [str], the decimal syntax of [i64] ([str::parse], [to_string]) and the IEEE binary64
    reading of decimal literals ([str::parse::<f64>]). These are facts of the Rust
    standard library that the checked-IR reader and the runtime rely on. *)

From S2P Require Import Prelude.

Abbreviation bytes := (list byte).

#[global] Instance byte_eq_dec : EqDecision byte := Byte.byte_eq_dec.

(** ASCII literals. *)
Definition b (s : string) : bytes := String.list_byte_of_string s.
Definition nl : byte := x0a.

Definition code (c : byte) : N := Byte.to_N c.
Definition in_range (lo hi : N) (c : byte) : bool := (lo <=? code c) && (code c <=? hi).

Module Utf8.

(** A continuation byte: [(byte as i8) < -0x40]. *)
Definition is_cont (c : byte) : bool := in_range 128 191 c.

(** The second byte allowed after a given three- or four-byte lead. *)
Definition second_ok (lead second : byte) : bool :=
  match code lead with
  | 224 => in_range 160 191 second
  | 237 => in_range 128 159 second
  | 240 => in_range 144 191 second
  | 244 => in_range 128 143 second
  | _ => is_cont second
  end.

(** [std::str::from_utf8(s).is_ok()]: the well-formed byte sequences of Unicode. *)
Fixpoint valid (s : bytes) : bool :=
  match s with
  | [] => true
  | c :: s1 =>
      if code c <? 128 then valid s1
      else if in_range 194 223 c then
        match s1 with c1 :: s2 => is_cont c1 && valid s2 | _ => false end
      else if in_range 224 239 c then
        match s1 with
        | c1 :: c2 :: s3 => second_ok c c1 && is_cont c2 && valid s3
        | _ => false
        end
      else if in_range 240 244 c then
        match s1 with
        | c1 :: c2 :: c3 :: s4 =>
            second_ok c c1 && is_cont c2 && is_cont c3 && valid s4
        | _ => false
        end
      else false
  end.

(** [s.is_char_boundary(i)] *)
Definition is_char_boundary (s : bytes) (i : N) : bool :=
  if i =? 0 then true
  else match get s i with
       | Some c => negb (is_cont c)
       | None => i =? lengthN s
       end.

End Utf8.

Module Decimal.

Definition digit_value (c : byte) : option Z :=
  if in_range 48 57 c then Some (Z.of_N (code c) - 48)%Z else None.

(** The value of a nonempty digit string continuing [acc]. *)
Fixpoint digits_value (acc : Z) (s : bytes) : option Z :=
  match s with
  | [] => Some acc
  | c :: s' => match digit_value c with
               | Some d => digits_value (acc * 10 + d)%Z s'
               | None => None
               end
  end.

Definition in_i64 (z : Z) : bool := (i64_min <=? z)%Z && (z <=? i64_max)%Z.

(** [s.parse::<i64>().ok()]: an optional sign, at least one digit, and a value in range. *)
Definition parse_i64 (s : bytes) : option Z :=
  let value :=
    match s with
    | [] => None
    | x2b :: [] => None
    | x2d :: [] => None
    | x2b :: ds => digits_value 0 ds
    | x2d :: ds => Z.opp <$> digits_value 0 ds
    | _ => digits_value 0 s
    end in
  v ← value; if in_i64 v then Some v else None.

Definition digit (z : Z) : byte :=
  default x30 (Byte.of_N (48 + Z.to_N z)).

(** The decimal digits of a nonnegative integer, most significant first. *)
Fixpoint digits (fuel : nat) (z : Z) : bytes :=
  match fuel with
  | O => []
  | S fuel =>
      if (z <? 10)%Z then [digit z]
      else digits fuel (z / 10)%Z ++ [digit (z mod 10)%Z]
  end.

(** [i64::to_string]; twenty digits are enough for every 64-bit magnitude. *)
Definition to_text (z : Z) : bytes :=
  if (z <? 0)%Z then x2d :: digits 20 (- z) else digits 20 z.

End Decimal.

Module F64.

(** Binary64 values as their 64-bit patterns. *)
Definition infinity : Z := 2047 * 2 ^ 52.
Definition nan : Z := 2047 * 2 ^ 52 + 2 ^ 51.
Definition sign_bit : Z := 2 ^ 63.

(** The positive rational [num/den] rounded to the nearest binary64, ties to even:
    [e] is the floor of its binary logarithm, [q] the exponent of the last bit kept. *)
Definition of_rational (num den : Z) : Z :=
  (let e0 := Z.log2 num - Z.log2 den in
   let e := if num * 2 ^ Z.max 0 (- e0) <? den * 2 ^ Z.max 0 e0 then e0 - 1 else e0 in
   let q := Z.max (e - 52) (-1074) in
   let n := if q <=? 0 then num * 2 ^ (- q) else num in
   let d := if q <=? 0 then den else den * 2 ^ q in
   let f := n / d in
   let r := n mod d in
   let f := if (d <? 2 * r) || ((2 * r =? d) && Z.odd f) then f + 1 else f in
   Z.min infinity ((q + 1074) * 2 ^ 52 + f))%Z.

(** [mantissa * 10 ^ exponent], where [digits] bounds the decimal length of [mantissa];
    magnitudes far outside the binary64 range are decided without the power. *)
Definition of_decimal (mantissa : Z) (digits exponent : Z) : Z :=
  (if mantissa =? 0 then 0
   else if exponent + digits <? -400 then 0
   else if 400 <? exponent then infinity
   else if exponent <? 0 then of_rational mantissa (10 ^ (- exponent))
   else of_rational (mantissa * 10 ^ exponent) 1)%Z.

Definition lower (c : byte) : byte :=
  if in_range 65 90 c then default c (Byte.of_N (code c + 32)) else c.

(** Leading digits of [s]: their value continuing [acc], their number and the rest. *)
Fixpoint take_digits (acc : Z) (count : Z) (s : bytes) : Z * Z * bytes :=
  match s with
  | c :: s' =>
      match Decimal.digit_value c with
      | Some d => take_digits (acc * 10 + d)%Z (count + 1)%Z s'
      | None => (acc, count, s)
      end
  | [] => (acc, count, s)
  end.

(** The exponent part: empty, or [e]/[E], an optional sign and at least one digit. *)
Definition parse_exponent (s : bytes) : option Z :=
  match s with
  | [] => Some 0%Z
  | c :: s =>
      if decide (lower c = x65) then
        let '(sign, s) := match s with
                          | x2d :: s => ((-1)%Z, s)
                          | x2b :: s => (1%Z, s)
                          | _ => (1%Z, s)
                          end in
        match take_digits 0 0 s with
        | (v, n, []) => if (n =? 0)%Z then None else Some (sign * v)%Z
        | _ => None
        end
      else None
  end.

(** A decimal number without its sign: digits, an optional point and digits with at least
    one digit in all, then the exponent. *)
Definition parse_decimal (s : bytes) : option Z :=
  let '(int, n_int, s) := take_digits 0 0 s in
  let '(mantissa, n_all, s) := match s with
                               | x2e :: s => take_digits int n_int s
                               | _ => (int, n_int, s)
                               end in
  if (n_all =? 0)%Z then None
  else e ← parse_exponent s; Some (of_decimal mantissa n_all (e - (n_all - n_int)))%Z.

Definition parse_unsigned (s : bytes) : option Z :=
  let word := lower <$> s in
  if decide (word = b "inf" ∨ word = b "infinity") then Some infinity
  else if decide (word = b "nan") then Some nan
  else parse_decimal s.

(** [s.parse::<f64>().ok()], as the bit pattern of the value. *)
Definition parse (s : bytes) : option Z :=
  match s with
  | x2d :: s => Z.add sign_bit <$> parse_unsigned s
  | x2b :: s => parse_unsigned s
  | _ => parse_unsigned s
  end.

End F64.

(** ** Examples *)

Example f64_1_25 : F64.parse (b "1.25") = Some 0x3FF4000000000000%Z.
Proof. vm_compute. reflexivity. Qed.
Example f64_neg0 : F64.parse (b "-0.0") = Some F64.sign_bit.
Proof. vm_compute. reflexivity. Qed.
Example f64_huge : F64.parse (b "1e9999") = Some F64.infinity.
Proof. vm_compute. reflexivity. Qed.
Example f64_tiny : F64.parse (b "-1e-9999") = Some F64.sign_bit.
Proof. vm_compute. reflexivity. Qed.
Example f64_tenth : F64.parse (b "0.1") = Some 0x3FB999999999999A%Z.
Proof. vm_compute. reflexivity. Qed.
Example f64_max : F64.parse (b "1.7976931348623157e308") = Some 0x7FEFFFFFFFFFFFFF%Z.
Proof. vm_compute. reflexivity. Qed.
Example f64_subnormal : F64.parse (b "5e-324") = Some 1%Z.
Proof. vm_compute. reflexivity. Qed.
Example f64_reject : (F64.parse <$> [b ""; b "."; b "xxxx"; b "1e"; b "+"; b "1 "]) = [None; None; None; None; None; None].
Proof. vm_compute. reflexivity. Qed.

(** ** UTF-8 lemmas *)

Module Utf8Facts.
Import Utf8.

(** The text starts at a character: it is empty or its first byte is not a
    continuation byte. *)
Definition starts_char (s : bytes) : Prop :=
  match s with [] => True | c :: _ => is_cont c = false end.

Lemma in_range_true lo hi c : in_range lo hi c = true ↔ lo ≤ code c ∧ code c ≤ hi.
Proof. unfold in_range. by rewrite andb_true_iff, !N.leb_le. Qed.

Lemma in_range_false lo hi c : in_range lo hi c = false ↔ code c < lo ∨ hi < code c.
Proof. unfold in_range. by rewrite andb_false_iff, !N.leb_gt. Qed.

Lemma is_cont_ascii c : code c < 128 → is_cont c = false.
Proof. intros. apply in_range_false. by left. Qed.

Lemma second_ok_cont lead c : second_ok lead c = true → is_cont c = true.
Proof.
  unfold second_ok, is_cont.
  repeat case_match; rewrite ?in_range_true; lia.
Qed.

Lemma valid_starts_char s : valid s = true → starts_char s.
Proof.
  destruct s as [|c s]; simpl; [done|].
  destruct (N.ltb_spec (code c) 128); [by rewrite is_cont_ascii|].
  unfold is_cont. intros H'. apply in_range_false. right. revert H'.
  destruct (in_range 194 223 c) eqn:E1; [apply in_range_true in E1; lia|].
  destruct (in_range 224 239 c) eqn:E2; [apply in_range_true in E2; lia|].
  destruct (in_range 240 244 c) eqn:E3; [apply in_range_true in E3; lia|done].
Qed.

(** A continuation byte is never the first byte of a remainder that starts a character. *)
Local Ltac no_cont :=
  repeat match goal with
  | H : (_ && _)%bool = true |- _ => apply andb_true_iff in H; destruct H
  | H : second_ok _ _ = true |- _ => apply second_ok_cont in H
  end; congruence.

Lemma valid_split p s :
  valid (p ++ s) = true → starts_char s → valid p = true ∧ valid s = true.
Proof.
  remember (length p) as n eqn:Hn.
  revert p Hn. induction (lt_wf n) as [n _ IH]. intros p -> Hv Hs.
  destruct p as [|c p]; [done|]. simpl in Hv |- *.
  destruct (code c <? 128) eqn:?; [by eapply (IH (length p)); [simpl; lia|..]|].
  destruct (in_range 194 223 c) eqn:?.
  { destruct p as [|c1 p]; simpl in Hv.
    - destruct s; [done|simpl in Hs; no_cont].
    - apply andb_true_iff in Hv as [-> Hv]. by eapply (IH (length p)); [simpl; lia|..]. }
  destruct (in_range 224 239 c) eqn:?.
  { destruct p as [|c1 [|c2 p]]; simpl in Hv.
    - destruct s as [|? [|??]]; [done..|simpl in Hs; no_cont].
    - destruct s as [|? ?]; [done|simpl in Hs; no_cont].
    - apply andb_true_iff in Hv as [-> Hv]. by eapply (IH (length p)); [simpl; lia|..]. }
  destruct (in_range 240 244 c) eqn:?; [|done].
  destruct p as [|c1 [|c2 [|c3 p]]]; simpl in Hv.
  - destruct s as [|? [|? [|??]]]; [done..|simpl in Hs; no_cont].
  - destruct s as [|? [|??]]; [done..|simpl in Hs; no_cont].
  - destruct s as [|? ?]; [done|simpl in Hs; no_cont].
  - apply andb_true_iff in Hv as [-> Hv]. by eapply (IH (length p)); [simpl; lia|..].
Qed.

Lemma valid_app s1 s2 : valid s1 = true → valid s2 = true → valid (s1 ++ s2) = true.
Proof.
  intros H1 H2. remember (length s1) as n eqn:Hn.
  revert s1 Hn H1. induction (lt_wf n) as [n _ IH]. intros s1 -> H1.
  destruct s1 as [|c s1]; [done|]. simpl in H1 |- *.
  destruct (code c <? 128); [by apply (IH (length s1)); [simpl; lia|..]|].
  destruct (in_range 194 223 c).
  { destruct s1 as [|c1 s1]; [done|]. simpl.
    apply andb_true_iff in H1 as [-> H1]. by apply (IH (length s1)); [simpl; lia|..]. }
  destruct (in_range 224 239 c).
  { destruct s1 as [|c1 [|c2 s1]]; [done..|]. simpl.
    apply andb_true_iff in H1 as [-> H1]. by apply (IH (length s1)); [simpl; lia|..]. }
  destruct (in_range 240 244 c); [|done].
  destruct s1 as [|c1 [|c2 [|c3 s1]]]; [done..|]. simpl.
  apply andb_true_iff in H1 as [-> H1]. by apply (IH (length s1)); [simpl; lia|..].
Qed.

Lemma valid_ascii s : Forall (λ c, code c < 128) s → valid s = true.
Proof.
  induction 1 as [|c s Hc _ IH]; simpl; [done|]. by apply N.ltb_lt in Hc as ->.
Qed.

(** Past the start, boundaries are the offsets at which the remaining text starts a
    character. *)
Lemma boundary_starts_char p s :
  p ≠ [] → is_char_boundary (p ++ s) (lengthN p) = true ↔ starts_char s.
Proof.
  intros Hp. unfold is_char_boundary.
  destruct (N.eqb_spec (lengthN p) 0); [destruct p; [done|simpl in *; lia]|].
  assert (get (p ++ s) (lengthN p) = head s) as ->.
  { unfold get. rewrite length_app. destruct s as [|c s]; simpl.
    - destruct (N.ltb_spec (lengthN p) (N.of_nat (length p + 0))); [lia|done].
    - destruct (N.ltb_spec (lengthN p) (N.of_nat (length p + S (length s)))); [|lia].
      rewrite Nat2N.id. by apply list_lookup_middle. }
  destruct s as [|c s]; simpl.
  - rewrite length_app. simpl. rewrite Nat.add_0_r, N.eqb_refl. tauto.
  - by rewrite negb_true_iff.
Qed.

Lemma starts_char_boundary p s :
  starts_char s → is_char_boundary (p ++ s) (lengthN p) = true.
Proof. destruct p; [done|]. by apply boundary_starts_char. Qed.

End Utf8Facts.

(** ** Decimal lemmas *)

Module DecimalFacts.
Import Decimal.

Lemma digits_value_app acc s1 s2 :
  digits_value acc (s1 ++ s2) = digits_value acc s1 ≫= λ v, digits_value v s2.
Proof.
  revert acc. induction s1 as [|c s1 IH]; intros acc; simpl; [done|].
  destruct (digit_value c); [apply IH|done].
Qed.

Lemma digit_spec d :
  (0 ≤ d < 10)%Z → digit_value (digit d) = Some d ∧ code (digit d) < 58 ∧ 48 ≤ code (digit d).
Proof.
  intros Hd.
  assert (d = 0 ∨ d = 1 ∨ d = 2 ∨ d = 3 ∨ d = 4 ∨ d = 5 ∨ d = 6 ∨ d = 7 ∨ d = 8 ∨ d = 9)%Z
    as Hcases by lia.
  destruct_or! Hcases; subst d; split_and!; (reflexivity || discriminate).
Qed.

Lemma digits_spec fuel z :
  (0 ≤ z < 10 ^ Z.of_nat fuel)%Z → (0 < fuel)%nat →
  digits_value 0 (digits fuel z) = Some z ∧ digits fuel z ≠ [] ∧
  Forall (λ c, code c < 58 ∧ 48 ≤ code c) (digits fuel z).
Proof.
  revert z. induction fuel as [|fuel IH]; intros z Hz Hf; [lia|]. simpl.
  destruct (Z.ltb_spec z 10).
  - destruct (digit_spec z) as (Hv & Hc); [lia|]. simpl. rewrite Hv. simpl.
    split; [done|]. split; [done|]. by constructor.
  - rewrite Nat2Z.inj_succ, Z.pow_succ_r in Hz by lia.
    assert (0 < fuel)%nat as Hf' by (destruct fuel; simpl in *; lia).
    destruct (IH (z / 10)%Z) as (Hv & Hne & Hall); [|done|].
    { split; [apply Z.div_pos; lia|apply Z.div_lt_upper_bound; lia]. }
    destruct (digit_spec (z mod 10)) as (Hd & Hc); [apply Z.mod_pos_bound; lia|].
    split.
    + rewrite digits_value_app, Hv. cbn [mbind option_bind digits_value].
      rewrite Hd. f_equal. pose proof (Z.div_mod z 10). lia.
    + split; [by destruct (digits fuel (z / 10)%Z)|].
      apply Forall_app. split; [done|]. by constructor.
Qed.

(** Strings that start with a digit are read without a sign. *)
Lemma parse_i64_digits s :
  s ≠ [] → Forall (λ c, code c < 58 ∧ 48 ≤ code c) s →
  parse_i64 s = v ← digits_value 0 s; if in_i64 v then Some v else None.
Proof.
  destruct s as [|c s]; [done|]. intros _ [[? ?] _]%Forall_cons.
  destruct c; try done; vm_compute in H, H0; congruence.
Qed.

Lemma parse_i64_neg s :
  s ≠ [] →
  parse_i64 (x2d :: s) =
    v ← digits_value 0 s; if in_i64 (- v) then Some (- v)%Z else None.
Proof. destruct s as [|c s]; [done|]. unfold parse_i64. by destruct (digits_value 0 _). Qed.

Lemma parse_to_text z : in_i64 z = true → parse_i64 (to_text z) = Some z.
Proof.
  intros Hz. pose proof Hz as [H1%Z.leb_le H2%Z.leb_le]%andb_true_iff.
  unfold i64_min, i64_max in *. unfold to_text. destruct (Z.ltb_spec z 0).
  - destruct (digits_spec 20 (- z)) as (Hv & Hne & Hall); [lia|lia|].
    rewrite parse_i64_neg, Hv by done. cbn [mbind option_bind].
    by rewrite Z.opp_involutive, Hz.
  - destruct (digits_spec 20 z) as (Hv & Hne & Hall); [lia|lia|].
    rewrite parse_i64_digits, Hv by done. cbn [mbind option_bind]. by rewrite Hz.
Qed.

(** The printed form is ASCII and holds no line feed. *)
Lemma to_text_chars z :
  in_i64 z = true → Forall (λ c, code c < 128 ∧ c ≠ nl) (to_text z).
Proof.
  intros [H1%Z.leb_le H2%Z.leb_le]%andb_true_iff.
  unfold i64_min, i64_max in *. unfold to_text.
  assert (∀ l, Forall (λ c, code c < 58 ∧ 48 ≤ code c) l →
               Forall (λ c, code c < 128 ∧ c ≠ nl) l) as Himp.
  { intros l Hl. eapply Forall_impl; [exact Hl|]. simpl. intros c [? ?]. split; [lia|].
    intros ->. vm_compute in H0. congruence. }
  destruct (Z.ltb_spec z 0).
  - constructor; [by vm_compute|]. apply Himp, digits_spec; lia.
  - apply Himp, digits_spec; lia.
Qed.

Lemma to_text_valid z : in_i64 z = true → Utf8.valid (to_text z) = true.
Proof.
  intros Hz. apply Utf8Facts.valid_ascii.
  eapply Forall_impl; [by apply to_text_chars|]. by intros c [? _].
Qed.

Lemma parse_i64_range s z : parse_i64 s = Some z → in_i64 z = true.
Proof.
  unfold parse_i64. intros (v & _ & H)%bind_Some. by destruct (in_i64 v) eqn:?; simplify_eq.
Qed.

End DecimalFacts.
