(* ===== verification/Model.v ===== *)
(** The checked native IR of [compiler/src/model.rs]: layout types, operators, private
    runtime operations, and the program that native code generation consumes. Table
    indices ([usize]) are [N]; the 64-bit patterns of floats are [Z]. *)

From S2P Require Import Prelude Text.

(** Layout types. [List], [Function], [Dyn] and [Data] carry indices into the tables of
    the program; [Param] is [Type::Parameter]. *)
Module Ty.
Inductive Ty : Type :=
  | Int
  | Float
  | Bool
  | Text
  | Bytes
  | List (id : N)
  | Dyn (id : N)
  | Function (id : N)
  | Unit
  | Data (id : N)
  | Param (id : N).

#[export] Instance Ty_eq_dec : EqDecision Ty.
Proof. solve_decision. Defined.
End Ty.

Module Unary.
Inductive Unary : Type := Neg | Not | BitNot.

#[export] Instance Unary_eq_dec : EqDecision Unary.
Proof. solve_decision. Defined.
End Unary.

Module Binary.
Inductive Binary : Type :=
  | Add | Sub | Mul | Div | Rem | Eq | Ne | Lt | Le | Gt | Ge | And | Or
  | BitAnd | BitOr | BitXor | Shl | Shr.

#[export] Instance Binary_eq_dec : EqDecision Binary.
Proof. solve_decision. Defined.
End Binary.

(** Irreducible private standard-library operations. *)
Module Primitive.
Inductive Primitive : Type :=
  | FloatFromInt | FloatToInt | FloatParse | FloatFormat | TextLen | TextByte
  | TextConcat | TextEqual | TextSlice | UnicodeAlphabetic | UnicodeAlphanumeric
  | UnicodeWhitespace | ArgCount | ArgText | ProcessRun | ProcessRunInput
  | ProcessCaptureConfigured | ProcessCaptureInputConfigured | EnvGet | Exit | BytesNew
  | BytesLen | BytesGet | BytesPush | BytesSet | BytesUtf8 | BytesTextCopy | ListNew
  | ListNewCapacity | ListLen | ListGet | ListPush | ListSet | ListPop | ListRetainRange
  | CleanupEach | Open | Create | Read | Write | WriteBytes | Close | SocketListen
  | SocketBindDatagram | SocketConnectDatagram | SocketDatagramBroadcast
  | SocketMembershipV4 | SocketMembershipV6 | SocketMulticastV4 | SocketMulticastV6
  | SocketConnect | SocketConnectStatus | SocketAccept | SocketRead | SocketWriteBytes
  | SocketReceiveFrom | SocketSendTo | SocketSendDatagram | SocketClose | SocketLocalPort
  | SocketAddress | SocketSetNodelay | SocketSetKeepalive | SocketBuffer
  | SocketShutdownWrite | SocketAbort | TlsClient | TlsServer | TlsReceive | TlsRead
  | TlsWrite | TlsOutput | TlsStatus | TlsShutdown | TlsRelease | TlsProtocol
  | TlsPeerCertificate | TlsGeneration | TlsNotify | DirectoryRead | PathKind
  | PathCanonical | DirectoryCreate | PathRename | FileRemove | DirectoryRemove
  | PathEntryKind | TaskCreate | TaskAdopt | TaskReturn | TaskCleanupPush
  | TaskResultCleanupPush | TaskCleanupPop | TaskAwait | TaskObserve | TaskWaitNext
  | TaskNextResult | TaskNextTerminalResult | TaskNextTerminalIndex
  | TaskNextTerminalFailure | TaskStatus | TaskFailure | TaskCancelBegin | TaskDrain
  | FaultText | TaskResult | TaskResultCase | TaskRelease | TaskRun | TaskWaitTimer
  | TaskWaitSocket | TaskWaitTls | TaskWaitFileRead | TaskWaitWorker | TaskWorkerResult
  | TaskWaitFileWrite | TaskWaitFileWriteBytes | TaskFileResult | TaskBytesResult
  | TaskWaitResolve | TaskWaitProcessCapture | TaskProcessCaptureResult
  | TaskWaitFileOpen | TaskWaitFileClose | TaskFileOpenResult | FileAbort | MonotonicNs
  | MutexLock | MutexUnlock.
(** The constructors in declaration order, and the position of each. *)
Definition all : list Primitive :=
  [
    FloatFromInt; FloatToInt; FloatParse; FloatFormat; TextLen; TextByte; TextConcat;
    TextEqual; TextSlice; UnicodeAlphabetic; UnicodeAlphanumeric; UnicodeWhitespace;
    ArgCount; ArgText; ProcessRun; ProcessRunInput; ProcessCaptureConfigured;
    ProcessCaptureInputConfigured; EnvGet; Exit; BytesNew; BytesLen; BytesGet; BytesPush;
    BytesSet; BytesUtf8; BytesTextCopy; ListNew; ListNewCapacity; ListLen; ListGet;
    ListPush; ListSet; ListPop; ListRetainRange; CleanupEach; Open; Create; Read; Write;
    WriteBytes; Close; SocketListen; SocketBindDatagram; SocketConnectDatagram;
    SocketDatagramBroadcast; SocketMembershipV4; SocketMembershipV6; SocketMulticastV4;
    SocketMulticastV6; SocketConnect; SocketConnectStatus; SocketAccept; SocketRead;
    SocketWriteBytes; SocketReceiveFrom; SocketSendTo; SocketSendDatagram; SocketClose;
    SocketLocalPort; SocketAddress; SocketSetNodelay; SocketSetKeepalive; SocketBuffer;
    SocketShutdownWrite; SocketAbort; TlsClient; TlsServer; TlsReceive; TlsRead;
    TlsWrite; TlsOutput; TlsStatus; TlsShutdown; TlsRelease; TlsProtocol;
    TlsPeerCertificate; TlsGeneration; TlsNotify; DirectoryRead; PathKind; PathCanonical;
    DirectoryCreate; PathRename; FileRemove; DirectoryRemove; PathEntryKind; TaskCreate;
    TaskAdopt; TaskReturn; TaskCleanupPush; TaskResultCleanupPush; TaskCleanupPop;
    TaskAwait; TaskObserve; TaskWaitNext; TaskNextResult; TaskNextTerminalResult;
    TaskNextTerminalIndex; TaskNextTerminalFailure; TaskStatus; TaskFailure;
    TaskCancelBegin; TaskDrain; FaultText; TaskResult; TaskResultCase; TaskRelease;
    TaskRun; TaskWaitTimer; TaskWaitSocket; TaskWaitTls; TaskWaitFileRead;
    TaskWaitWorker; TaskWorkerResult; TaskWaitFileWrite; TaskWaitFileWriteBytes;
    TaskFileResult; TaskBytesResult; TaskWaitResolve; TaskWaitProcessCapture;
    TaskProcessCaptureResult; TaskWaitFileOpen; TaskWaitFileClose; TaskFileOpenResult;
    FileAbort; MonotonicNs; MutexLock; MutexUnlock
  ].

Definition position (p : Primitive) : N :=
  match p with
  | FloatFromInt => 0 | FloatToInt => 1 | FloatParse => 2 | FloatFormat => 3
  | TextLen => 4 | TextByte => 5 | TextConcat => 6 | TextEqual => 7 | TextSlice => 8
  | UnicodeAlphabetic => 9 | UnicodeAlphanumeric => 10 | UnicodeWhitespace => 11
  | ArgCount => 12 | ArgText => 13 | ProcessRun => 14 | ProcessRunInput => 15
  | ProcessCaptureConfigured => 16 | ProcessCaptureInputConfigured => 17 | EnvGet => 18
  | Exit => 19 | BytesNew => 20 | BytesLen => 21 | BytesGet => 22 | BytesPush => 23
  | BytesSet => 24 | BytesUtf8 => 25 | BytesTextCopy => 26 | ListNew => 27
  | ListNewCapacity => 28 | ListLen => 29 | ListGet => 30 | ListPush => 31
  | ListSet => 32 | ListPop => 33 | ListRetainRange => 34 | CleanupEach => 35
  | Open => 36 | Create => 37 | Read => 38 | Write => 39 | WriteBytes => 40 | Close => 41
  | SocketListen => 42 | SocketBindDatagram => 43 | SocketConnectDatagram => 44
  | SocketDatagramBroadcast => 45 | SocketMembershipV4 => 46 | SocketMembershipV6 => 47
  | SocketMulticastV4 => 48 | SocketMulticastV6 => 49 | SocketConnect => 50
  | SocketConnectStatus => 51 | SocketAccept => 52 | SocketRead => 53
  | SocketWriteBytes => 54 | SocketReceiveFrom => 55 | SocketSendTo => 56
  | SocketSendDatagram => 57 | SocketClose => 58 | SocketLocalPort => 59
  | SocketAddress => 60 | SocketSetNodelay => 61 | SocketSetKeepalive => 62
  | SocketBuffer => 63 | SocketShutdownWrite => 64 | SocketAbort => 65 | TlsClient => 66
  | TlsServer => 67 | TlsReceive => 68 | TlsRead => 69 | TlsWrite => 70 | TlsOutput => 71
  | TlsStatus => 72 | TlsShutdown => 73 | TlsRelease => 74 | TlsProtocol => 75
  | TlsPeerCertificate => 76 | TlsGeneration => 77 | TlsNotify => 78
  | DirectoryRead => 79 | PathKind => 80 | PathCanonical => 81 | DirectoryCreate => 82
  | PathRename => 83 | FileRemove => 84 | DirectoryRemove => 85 | PathEntryKind => 86
  | TaskCreate => 87 | TaskAdopt => 88 | TaskReturn => 89 | TaskCleanupPush => 90
  | TaskResultCleanupPush => 91 | TaskCleanupPop => 92 | TaskAwait => 93
  | TaskObserve => 94 | TaskWaitNext => 95 | TaskNextResult => 96
  | TaskNextTerminalResult => 97 | TaskNextTerminalIndex => 98
  | TaskNextTerminalFailure => 99 | TaskStatus => 100 | TaskFailure => 101
  | TaskCancelBegin => 102 | TaskDrain => 103 | FaultText => 104 | TaskResult => 105
  | TaskResultCase => 106 | TaskRelease => 107 | TaskRun => 108 | TaskWaitTimer => 109
  | TaskWaitSocket => 110 | TaskWaitTls => 111 | TaskWaitFileRead => 112
  | TaskWaitWorker => 113 | TaskWorkerResult => 114 | TaskWaitFileWrite => 115
  | TaskWaitFileWriteBytes => 116 | TaskFileResult => 117 | TaskBytesResult => 118
  | TaskWaitResolve => 119 | TaskWaitProcessCapture => 120
  | TaskProcessCaptureResult => 121 | TaskWaitFileOpen => 122 | TaskWaitFileClose => 123
  | TaskFileOpenResult => 124 | FileAbort => 125 | MonotonicNs => 126 | MutexLock => 127
  | MutexUnlock => 128
  end.

Lemma all_position p : all !! N.to_nat (position p) = Some p.
Proof. by destruct p. Qed.

#[export] Instance Primitive_eq_dec : EqDecision Primitive.
Proof.
  refine (λ p q, match decide (position p = position q) with
                 | left H => left _ | right H => right _ end).
  - abstract (apply (inj Some); rewrite <-!all_position; by rewrite H).
  - abstract (intros ->; by apply H).
Defined.
End Primitive.

Record Span := mkSpan { span_start : N; span_end : N }.

#[export] Instance Span_eq_dec : EqDecision Span.
Proof. solve_decision. Defined.

(** The checked program ([mod checked]). *)
Module C.

Record Signature := mkSignature { sig_params : list Ty.Ty; sig_result : Ty.Ty }.

(** Method signatures exclude the erased receiver. *)
Record Interface := mkInterface { methods : list Signature }.

(** Absent slots are unreferenced by the selected closed-world program. *)
Record Witness := mkWitness {
  w_interface : N;
  w_concrete : Ty.Ty;
  w_methods : list (option N);
}.

Inductive DataKind : Type :=
  | Record (fields : list (bytes * Ty.Ty))
  | Enum (variants : list (bytes * list Ty.Ty))
  | Refined (base : Ty.Ty)
  | Task (result : Ty.Ty)
  | Frame (fields : list (bytes * Ty.Ty)).

Record Data := mkData { d_name : bytes; d_kind : DataKind }.

(** Expressions, blocks and statements. *)
Inductive Expr : Type := mkExpr (e_kind : ExprKind) (e_ty : Ty.Ty) (e_span : Span)
with ExprKind : Type :=
  | Int (value : Z)
  | Float (bits : Z)
  | Bool (value : bool)
  | Text (value : bytes)
  | Bytes (value : list N)
  | PrimitiveOp (operation : Primitive.Primitive) (arguments : list Expr)
  | Coerce (value : Expr)
  | Local (local : N)
  | UnaryOp (operation : Unary.Unary) (value : Expr)
  | BinaryOp (operation : Binary.Binary) (left right : Expr)
  | Call (function : N) (arguments : list Expr)
  | FunctionRef (function : N)
  | Closure (function : N) (environment : Expr)
  | IndirectCall (callee : Expr) (arguments : list Expr)
  | DynBox (witness : N) (value : Expr)
  | DynCall (receiver : Expr) (slot : N) (arguments : list Expr)
  | RecordNew (fields : list (N * Expr))
  | FrameNew (fields : list (N * Expr))
  | FrameStore (frame : Expr) (field : N) (value : Expr)
  | ListNew (values : list Expr)
  | Field (value : Expr) (field : N)
  | Variant (variant : N) (fields : list Expr)
  | Match (value : Expr) (arms : list MatchArm)
  | BlockExpr (body : Block)
  | If (condition : Expr) (then_body : Block) (else_body : option Block)
with Block : Type :=
  | mkBlock (statements : list Stmt) (tail : option Expr) (falls_through : bool)
with Stmt : Type := mkStmt (s_kind : StmtKind) (s_span : Span)
with StmtKind : Type :=
  | Let (local : N) (value : Expr)
  | Assign (local : N) (value : Expr)
  | Return (value : option Expr)
  | Assert (condition : Expr) (message : bytes)
  | Discard (value : Expr)
  | ExprStmt (value : Expr)
  | While (condition : Expr) (body : Block)
  | Break
  | Continue
  | Defer (id : N) (body : Block)
  | Cleanup (id : N) (body : Block)
with MatchArm : Type :=
  | mkArm (variant : option N) (bindings : list (option N)) (whole : option N)
      (body : Block).

Definition e_kind '(mkExpr kind _ _) : ExprKind := kind.
Definition e_ty '(mkExpr _ ty _) : Ty.Ty := ty.
Definition falls_through '(mkBlock _ _ falls) : bool := falls.

Record Function := mkFunction {
  f_name : bytes;
  f_params : list Ty.Ty;
  f_result : Ty.Ty;
  f_locals : list Ty.Ty;
  f_requires : list Expr;
  f_body : Block;
  f_span : Span;
}.

(** Optional static diagnostics keyed by function and span. *)
Record SourcePosition := mkSourcePosition { file : N; line : N; column : N }.

Record SourceMap := mkSourceMap {
  paths : list bytes;
  sites : gmap (N * (N * N)) SourcePosition;
}.

Record Program := mkProgram {
  types : list Data;
  lists : list Ty.Ty;
  functions : list Function;
  function_types : list Signature;
  interfaces : list Interface;
  witnesses : list Witness;
  entry : option N;
  tests : list N;
  test_names : list bytes;
  target_inputs : list (bytes * bytes);
  source_locations : SourceMap;
  exports : list N;
}.

End C.

Export (hints) Ty Unary Binary Primitive.
