(* ===== verification/Operations.v ===== *)
(** Operator and private-operation names of [compiler/src/native_input.rs]: [binary],
    [primitive], [primitive_arity], and the fixed operand signatures that [expr] requires
    of runtime operations. *)

From S2P Require Import Prelude Text Model.

(** [match value { "…" => …, _ => return Err(msg) }] over a table of literals. *)
Fixpoint lookup_name {A} (table : list (string * A)) (value : bytes) : option A :=
  match table with
  | [] => None
  | (name, v) :: table => if decide (value = b name) then Some v else lookup_name table value
  end.

Definition unary_names : list (string * Unary.Unary) :=
  [("-", Unary.Neg); ("!", Unary.Not); ("~", Unary.BitNot)]%string.

Definition binary_names : list (string * Binary.Binary) :=
  [("+", Binary.Add); ("-", Binary.Sub); ("*", Binary.Mul); ("/", Binary.Div);
   ("%", Binary.Rem); ("==", Binary.Eq); ("!=", Binary.Ne); ("<", Binary.Lt);
   ("<=", Binary.Le); (">", Binary.Gt); (">=", Binary.Ge); ("&&", Binary.And);
   ("||", Binary.Or); ("&", Binary.BitAnd); ("|", Binary.BitOr); ("^", Binary.BitXor);
   ("<<", Binary.Shl); (">>", Binary.Shr)]%string.

Definition unary (value : bytes) : outcome Unary.Unary :=
  ok_or (lookup_name unary_names value) "unknown checked unary operation".

Definition binary (value : bytes) : outcome Binary.Binary :=
  ok_or (lookup_name binary_names value) "unknown checked binary operation".

Definition primitive_names : list (string * Primitive.Primitive) :=
  [
    ("float_from_int", Primitive.FloatFromInt); ("float_to_int", Primitive.FloatToInt);
    ("float_parse", Primitive.FloatParse); ("float_format", Primitive.FloatFormat);
    ("text_len", Primitive.TextLen); ("text_byte", Primitive.TextByte);
    ("text_concat", Primitive.TextConcat); ("text_equal", Primitive.TextEqual);
    ("text_slice", Primitive.TextSlice);
    ("unicode_alphabetic", Primitive.UnicodeAlphabetic);
    ("unicode_alphanumeric", Primitive.UnicodeAlphanumeric);
    ("unicode_whitespace", Primitive.UnicodeWhitespace); ("arg_count", Primitive.ArgCount);
    ("arg_text", Primitive.ArgText); ("exit", Primitive.Exit);
    ("process_run", Primitive.ProcessRun);
    ("process_run_input", Primitive.ProcessRunInput);
    ("process_capture_configured", Primitive.ProcessCaptureConfigured);
    ("process_capture_input_configured", Primitive.ProcessCaptureInputConfigured);
    ("env_get", Primitive.EnvGet); ("bytes_new", Primitive.BytesNew);
    ("bytes_len", Primitive.BytesLen); ("bytes_get", Primitive.BytesGet);
    ("bytes_push", Primitive.BytesPush); ("bytes_set", Primitive.BytesSet);
    ("bytes_utf8", Primitive.BytesUtf8); ("bytes_text_copy", Primitive.BytesTextCopy);
    ("list_new", Primitive.ListNew); ("list_new_capacity", Primitive.ListNewCapacity);
    ("list_len", Primitive.ListLen); ("list_get", Primitive.ListGet);
    ("list_push", Primitive.ListPush); ("list_set", Primitive.ListSet);
    ("list_pop", Primitive.ListPop); ("list_retain_range", Primitive.ListRetainRange);
    ("open", Primitive.Open); ("create", Primitive.Create); ("read", Primitive.Read);
    ("write", Primitive.Write); ("write_bytes", Primitive.WriteBytes);
    ("close", Primitive.Close); ("socket_listen", Primitive.SocketListen);
    ("socket_bind_datagram", Primitive.SocketBindDatagram);
    ("socket_connect_datagram", Primitive.SocketConnectDatagram);
    ("socket_datagram_broadcast", Primitive.SocketDatagramBroadcast);
    ("socket_membership_v4", Primitive.SocketMembershipV4);
    ("socket_membership_v6", Primitive.SocketMembershipV6);
    ("socket_multicast_v4", Primitive.SocketMulticastV4);
    ("socket_multicast_v6", Primitive.SocketMulticastV6);
    ("socket_connect", Primitive.SocketConnect);
    ("socket_connect_status", Primitive.SocketConnectStatus);
    ("socket_accept", Primitive.SocketAccept); ("socket_read", Primitive.SocketRead);
    ("socket_write_bytes", Primitive.SocketWriteBytes);
    ("socket_receive_from", Primitive.SocketReceiveFrom);
    ("socket_send_to", Primitive.SocketSendTo);
    ("socket_send_datagram", Primitive.SocketSendDatagram);
    ("socket_close", Primitive.SocketClose);
    ("socket_local_port", Primitive.SocketLocalPort);
    ("socket_address", Primitive.SocketAddress);
    ("socket_set_nodelay", Primitive.SocketSetNodelay);
    ("socket_set_keepalive", Primitive.SocketSetKeepalive);
    ("socket_buffer", Primitive.SocketBuffer);
    ("socket_shutdown_write", Primitive.SocketShutdownWrite);
    ("socket_abort", Primitive.SocketAbort); ("tls_client", Primitive.TlsClient);
    ("tls_server", Primitive.TlsServer); ("tls_receive", Primitive.TlsReceive);
    ("tls_read", Primitive.TlsRead); ("tls_write", Primitive.TlsWrite);
    ("tls_output", Primitive.TlsOutput); ("tls_status", Primitive.TlsStatus);
    ("tls_shutdown", Primitive.TlsShutdown); ("tls_release", Primitive.TlsRelease);
    ("tls_protocol", Primitive.TlsProtocol);
    ("tls_peer_certificate", Primitive.TlsPeerCertificate);
    ("tls_generation", Primitive.TlsGeneration); ("tls_notify", Primitive.TlsNotify);
    ("directory_read", Primitive.DirectoryRead); ("path_kind", Primitive.PathKind);
    ("path_canonical", Primitive.PathCanonical);
    ("directory_create", Primitive.DirectoryCreate); ("path_rename", Primitive.PathRename);
    ("file_remove", Primitive.FileRemove); ("directory_remove", Primitive.DirectoryRemove);
    ("path_entry_kind", Primitive.PathEntryKind); ("task_create", Primitive.TaskCreate);
    ("task_adopt", Primitive.TaskAdopt); ("task_return", Primitive.TaskReturn);
    ("task_cleanup_push", Primitive.TaskCleanupPush);
    ("task_result_cleanup_push", Primitive.TaskResultCleanupPush);
    ("task_cleanup_pop", Primitive.TaskCleanupPop); ("task_await", Primitive.TaskAwait);
    ("task_observe", Primitive.TaskObserve); ("task_wait_next", Primitive.TaskWaitNext);
    ("task_next_result", Primitive.TaskNextResult);
    ("task_next_terminal_result", Primitive.TaskNextTerminalResult);
    ("task_next_terminal_index", Primitive.TaskNextTerminalIndex);
    ("task_next_terminal_failure", Primitive.TaskNextTerminalFailure);
    ("task_status", Primitive.TaskStatus); ("task_failure", Primitive.TaskFailure);
    ("task_cancel_begin", Primitive.TaskCancelBegin); ("task_drain", Primitive.TaskDrain);
    ("fault_text", Primitive.FaultText); ("task_result", Primitive.TaskResult);
    ("task_result_case", Primitive.TaskResultCase);
    ("task_release", Primitive.TaskRelease); ("task_run", Primitive.TaskRun);
    ("task_wait_timer", Primitive.TaskWaitTimer);
    ("task_wait_socket", Primitive.TaskWaitSocket);
    ("task_wait_tls", Primitive.TaskWaitTls);
    ("task_wait_file_read", Primitive.TaskWaitFileRead);
    ("task_wait_worker", Primitive.TaskWaitWorker);
    ("task_worker_result", Primitive.TaskWorkerResult);
    ("task_wait_file_write", Primitive.TaskWaitFileWrite);
    ("task_wait_file_write_bytes", Primitive.TaskWaitFileWriteBytes);
    ("task_file_result", Primitive.TaskFileResult);
    ("task_bytes_result", Primitive.TaskBytesResult);
    ("task_wait_resolve", Primitive.TaskWaitResolve);
    ("task_wait_process_capture", Primitive.TaskWaitProcessCapture);
    ("task_process_capture_result", Primitive.TaskProcessCaptureResult);
    ("task_wait_file_open", Primitive.TaskWaitFileOpen);
    ("task_wait_file_close", Primitive.TaskWaitFileClose);
    ("task_file_open_result", Primitive.TaskFileOpenResult);
    ("file_abort", Primitive.FileAbort); ("clock_monotonic_ns", Primitive.MonotonicNs);
    ("mutex_lock", Primitive.MutexLock); ("mutex_unlock", Primitive.MutexUnlock);
    ("cleanup_each", Primitive.CleanupEach)
  ]%string.

Definition primitive (value : bytes) : outcome Primitive.Primitive :=
  ok_or (lookup_name primitive_names value) "unknown private checked runtime operation".

(** The number of operands of each private operation. *)
Definition primitive_arity (operation : Primitive.Primitive) : N :=
  match operation with
  | Primitive.ArgCount | Primitive.BytesNew | Primitive.ListNew | Primitive.MonotonicNs
  | Primitive.TaskFileResult | Primitive.TaskFileOpenResult | Primitive.TaskWaitNext
  | Primitive.TaskNextResult | Primitive.TaskNextTerminalResult
  | Primitive.TaskNextTerminalIndex | Primitive.TaskNextTerminalFailure => 0
  | Primitive.FloatFromInt | Primitive.FloatToInt | Primitive.FloatParse
  | Primitive.FloatFormat | Primitive.TextLen | Primitive.UnicodeAlphabetic
  | Primitive.UnicodeAlphanumeric | Primitive.UnicodeWhitespace | Primitive.ArgText
  | Primitive.Exit | Primitive.ProcessRun | Primitive.BytesLen | Primitive.BytesUtf8
  | Primitive.BytesTextCopy | Primitive.ListLen | Primitive.ListNewCapacity
  | Primitive.ListPop | Primitive.Open | Primitive.Create | Primitive.Close
  | Primitive.SocketListen | Primitive.SocketBindDatagram
  | Primitive.SocketConnectDatagram | Primitive.SocketConnect
  | Primitive.SocketConnectStatus | Primitive.SocketAccept | Primitive.SocketClose
  | Primitive.SocketLocalPort | Primitive.SocketShutdownWrite | Primitive.SocketAbort
  | Primitive.TlsStatus | Primitive.TlsShutdown | Primitive.TlsRelease
  | Primitive.TlsProtocol | Primitive.TlsGeneration | Primitive.TlsNotify
  | Primitive.PathKind | Primitive.DirectoryCreate | Primitive.FileRemove
  | Primitive.DirectoryRemove | Primitive.PathEntryKind | Primitive.TaskAwait
  | Primitive.TaskReturn | Primitive.TaskCleanupPop | Primitive.TaskResultCleanupPush
  | Primitive.TaskResult | Primitive.TaskResultCase | Primitive.TaskWorkerResult
  | Primitive.TaskRelease | Primitive.TaskStatus | Primitive.TaskFailure
  | Primitive.TaskCancelBegin | Primitive.FaultText | Primitive.TaskRun
  | Primitive.MutexLock | Primitive.MutexUnlock => 1
  | Primitive.TaskWaitTimer | Primitive.TaskBytesResult | Primitive.TaskWaitFileClose
  | Primitive.FileAbort => 1
  | Primitive.TextByte | Primitive.TextConcat | Primitive.TextEqual
  | Primitive.ProcessRunInput | Primitive.BytesGet | Primitive.BytesPush
  | Primitive.ListGet | Primitive.ListPush | Primitive.DirectoryRead
  | Primitive.PathCanonical | Primitive.EnvGet | Primitive.TaskAdopt
  | Primitive.TaskObserve | Primitive.TaskDrain | Primitive.TaskCleanupPush
  | Primitive.TaskWaitFileRead | Primitive.TaskWaitWorker | Primitive.TaskWaitResolve
  | Primitive.TaskWaitFileOpen | Primitive.TaskWaitSocket | Primitive.TaskWaitTls
  | Primitive.PathRename => 2
  | Primitive.SocketAddress | Primitive.SocketSetNodelay
  | Primitive.SocketDatagramBroadcast => 2
  | Primitive.TlsOutput | Primitive.TlsPeerCertificate => 2
  | Primitive.TextSlice | Primitive.BytesSet | Primitive.ListSet | Primitive.Read
  | Primitive.Write | Primitive.WriteBytes | Primitive.SocketRead
  | Primitive.SocketBuffer | Primitive.SocketSendDatagram | Primitive.TlsRead
  | Primitive.TlsReceive | Primitive.TaskWaitFileWrite | Primitive.TaskWaitFileWriteBytes
  | Primitive.TaskCreate | Primitive.TaskProcessCaptureResult | Primitive.CleanupEach => 3
  | Primitive.ListRetainRange | Primitive.SocketWriteBytes | Primitive.SocketReceiveFrom
  | Primitive.SocketSendTo => 4
  | Primitive.TlsWrite => 4
  | Primitive.SocketMembershipV4 | Primitive.SocketMembershipV6 => 4
  | Primitive.SocketMulticastV4 | Primitive.SocketMulticastV6 => 4
  | Primitive.TlsClient => 6
  | Primitive.TlsServer => 5
  | Primitive.ProcessCaptureConfigured | Primitive.TaskWaitProcessCapture => 6
  | Primitive.ProcessCaptureInputConfigured => 7
  | Primitive.SocketSetKeepalive => 5
  end.

(** The fixed operand and result types of byte, socket, TLS and path operations; the
    other operations have none here. *)
Definition runtime_signature (operation : Primitive.Primitive)
    : option (list Ty.Ty * Ty.Ty) :=
  match operation with
  | Primitive.BytesGet => Some ([Ty.Bytes; Ty.Int], Ty.Int)
  | Primitive.BytesSet => Some ([Ty.Bytes; Ty.Int; Ty.Int], Ty.Unit)
  | Primitive.WriteBytes => Some ([Ty.Int; Ty.Bytes; Ty.Int], Ty.Int)
  | Primitive.SocketListen | Primitive.SocketConnect | Primitive.SocketConnectDatagram
  | Primitive.SocketBindDatagram => Some ([Ty.Text], Ty.Int)
  | Primitive.SocketAccept | Primitive.SocketConnectStatus | Primitive.SocketClose
  | Primitive.SocketShutdownWrite | Primitive.SocketAbort | Primitive.TlsStatus
  | Primitive.TlsShutdown | Primitive.TlsRelease | Primitive.TlsGeneration
  | Primitive.TlsNotify | Primitive.SocketLocalPort => Some ([Ty.Int], Ty.Int)
  | Primitive.TlsProtocol => Some ([Ty.Int], Ty.Text)
  | Primitive.TlsOutput | Primitive.TlsPeerCertificate => Some ([Ty.Int; Ty.Bytes], Ty.Int)
  | Primitive.SocketAddress => Some ([Ty.Int; Ty.Int], Ty.Text)
  | Primitive.SocketSetNodelay | Primitive.SocketDatagramBroadcast =>
      Some ([Ty.Int; Ty.Int], Ty.Int)
  | Primitive.SocketBuffer => Some ([Ty.Int; Ty.Int; Ty.Int], Ty.Int)
  | Primitive.SocketMembershipV4 => Some ([Ty.Int; Ty.Text; Ty.Text; Ty.Int], Ty.Int)
  | Primitive.SocketMembershipV6 => Some ([Ty.Int; Ty.Text; Ty.Int; Ty.Int], Ty.Int)
  | Primitive.SocketMulticastV4 => Some ([Ty.Int; Ty.Text; Ty.Int; Ty.Int], Ty.Int)
  | Primitive.SocketMulticastV6 => Some ([Ty.Int; Ty.Int; Ty.Int; Ty.Int], Ty.Int)
  | Primitive.SocketSetKeepalive => Some ([Ty.Int; Ty.Int; Ty.Int; Ty.Int; Ty.Int], Ty.Int)
  | Primitive.SocketRead | Primitive.TlsRead | Primitive.TlsReceive =>
      Some ([Ty.Int; Ty.Bytes; Ty.Int], Ty.Int)
  | Primitive.SocketWriteBytes | Primitive.TlsWrite =>
      Some ([Ty.Int; Ty.Bytes; Ty.Int; Ty.Int], Ty.Int)
  | Primitive.SocketReceiveFrom => Some ([Ty.Int; Ty.Bytes; Ty.Int; Ty.Bytes], Ty.Int)
  | Primitive.SocketSendDatagram => Some ([Ty.Int; Ty.Bytes; Ty.Int], Ty.Int)
  | Primitive.SocketSendTo => Some ([Ty.Int; Ty.Bytes; Ty.Int; Ty.Text], Ty.Int)
  | Primitive.DirectoryCreate | Primitive.FileRemove | Primitive.DirectoryRemove
  | Primitive.PathEntryKind => Some ([Ty.Text], Ty.Int)
  | Primitive.PathRename => Some ([Ty.Text; Ty.Text], Ty.Int)
  | Primitive.EnvGet => Some ([Ty.Text; Ty.Bytes], Ty.Int)
  | Primitive.MutexUnlock => Some ([Ty.Int], Ty.Bool)
  | _ => None
  end.

(** ** The name tables *)

Lemma lookup_name_Some {A} (table : list (string * A)) value v :
  lookup_name table value = Some v → ∃ name, value = b name ∧ (name, v) ∈ table.
Proof.
  induction table as [|[name w] table IH]; simpl; [discriminate|].
  case_decide as Hd; [intros [= <-]; exists name; split; [exact Hd|left]|].
  intros (name' & ? & ?)%IH. exists name'. split; [assumption|by right].
Qed.

Lemma b_inj s t : b s = b t → s = t.
Proof.
  intros H. rewrite <-(String.string_of_list_byte_of_string s), <-(String.string_of_list_byte_of_string t).
  unfold b in H. by rewrite H.
Qed.

(** With distinct literals the first match is the only one. *)
Lemma lookup_name_elem {A} (table : list (string * A)) name v :
  NoDup table.*1 → (name, v) ∈ table → lookup_name table (b name) = Some v.
Proof.
  induction table as [|[name' w] table IH]; simpl; [by intros _ ?%elem_of_nil|].
  intros [Hn Hd]%NoDup_cons [Heq|Hin]%elem_of_cons.
  - injection Heq as <- <-. by rewrite decide_True.
  - rewrite decide_False; [by apply IH|]. intros ->%b_inj. apply Hn.
    by apply (list_elem_of_fmap_2 fst) in Hin.
Qed.

Lemma primitive_names_NoDup : NoDup primitive_names.*1 ∧ NoDup primitive_names.*2.
Proof. split; apply (bool_decide_unpack _); vm_compute; exact I. Qed.

Lemma primitive_names_complete operation : operation ∈ primitive_names.*2.
Proof. apply (bool_decide_unpack _). destruct operation; vm_compute; exact I. Qed.

(** The reserved name of an operation: the inverse of [primitive]. *)
Fixpoint name_in {A} `{EqDecision A} (table : list (string * A)) (v : A) : option string :=
  match table with
  | [] => None
  | (name, w) :: table => if decide (v = w) then Some name else name_in table v
  end.

Lemma name_in_Some {A} `{EqDecision A} (table : list (string * A)) v :
  v ∈ table.*2 → ∃ name, name_in table v = Some name ∧ (name, v) ∈ table.
Proof.
  induction table as [|[name w] table IH]; simpl; [by intros ?%elem_of_nil|].
  intros Hin. case_decide as Hd; [subst; exists name; split; [reflexivity|left]|].
  apply elem_of_cons in Hin as [->|Hin]; [done|].
  destruct (IH Hin) as (name' & ? & ?). exists name'. split; [assumption|by right].
Qed.

Lemma name_in_unique {A} `{EqDecision A} (table : list (string * A)) name v :
  NoDup table.*2 → (name, v) ∈ table → name_in table v = Some name.
Proof.
  induction table as [|[name' w] table IH]; simpl; [by intros _ ?%elem_of_nil|].
  intros [Hn Hd]%NoDup_cons [Heq|Hin]%elem_of_cons.
  - injection Heq as <- <-. by rewrite decide_True.
  - rewrite decide_False; [by apply IH|]. intros ->. apply Hn.
    by apply (list_elem_of_fmap_2 snd) in Hin.
Qed.
