(* ===== verification/Reader.v ===== *)
(** The checked-IR stream reader of [compiler/src/native_input.rs]: the [Reader] cursor,
    its integer, string, sequence and span fields, the raw expression tree with its
    nesting limit, and the first half of [decode], which reads one program (types,
    functions, entry, tests, exports and the optional feature sections) before any
    reference is resolved. *)

From S2P Require Import Prelude Text Model.

Set Warnings "-register-all".

(** ** The reader monad *)

Record Reader := mkReader { text : bytes; offset : N }.

(** A method of [&mut Reader]. *)
Definition reads (A : Type) : Type := Reader → outcome (A * Reader).

#[global] Instance reads_ret : MRet reads := λ A v r, Ok (v, r).
#[global] Instance reads_bind : MBind reads := λ A B k m r,
  match m r with
  | Ok (v, r') => k v r'
  | Err e => Err e
  | Panic w => Panic w
  | Stuck => Stuck
  end.

(** A [Result] that does not touch the reader. *)
Definition lift {A} (m : outcome A) : reads A := λ r, v ← m; Ok (v, r).

(** ** Fields *)

(** [text[start..]]: panics unless [start] is a character boundary. *)
Definition slice_from (s : bytes) (start : N) : outcome bytes :=
  if (start <=? lengthN s) && Utf8.is_char_boundary s start
  then Ok (drop (N.to_nat start) s)
  else Panic "byte index is not a char boundary".

(** [text[start..stop]] *)
Definition slice (s : bytes) (start stop : N) : outcome bytes :=
  if (start <=? stop) && (stop <=? lengthN s) &&
     Utf8.is_char_boundary s start && Utf8.is_char_boundary s stop
  then Ok (take (N.to_nat (stop - start)) (drop (N.to_nat start) s))
  else Panic "byte index is not a char boundary".

(** [text.get(start..stop)] *)
Definition get_range (s : bytes) (start stop : N) : option bytes :=
  if (start <=? stop) && (stop <=? lengthN s) &&
     Utf8.is_char_boundary s start && Utf8.is_char_boundary s stop
  then Some (take (N.to_nat (stop - start)) (drop (N.to_nat start) s))
  else None.

(** [s.find('\n')] *)
Fixpoint find_nl (s : bytes) : option N :=
  match s with
  | [] => None
  | c :: s' => if decide (c = nl) then Some 0 else N.succ <$> find_nl s'
  end.

Definition integer : reads Z := λ r,
  rest ← slice_from (text r) (offset r);
  at_ ← ok_or (find_nl rest) "truncated checked-IR integer";
  stop ← add_checked (offset r) at_;
  digits ← slice (text r) (offset r) stop;
  value ← ok_or (Decimal.parse_i64 digits) "invalid checked-IR integer";
  next ← add_checked stop 1;
  Ok (value, mkReader (text r) next).

(** The free function [index]: [usize::try_from] on a 64-bit host. *)
Definition index (value : Z) : outcome N :=
  if (value <? 0)%Z then Err "negative checked-IR index" else Ok (Z.to_N value).

Definition optional (value : Z) : outcome (option N) :=
  if (value =? -1)%Z then Ok None else Some <$> index value.

(** The method [Reader::index]. *)
Definition read_index : reads N := v ← integer; lift (index v).

Definition read_optional : reads (option N) := v ← integer; lift (optional v).

(** The field of [len] bytes at the cursor. *)
Definition take_field (len : N) : reads bytes := λ r,
  stop ← ok_or (checked_add (offset r) len) "text length overflow";
  value ← ok_or (get_range (text r) (offset r) stop) "truncated or invalid UTF-8 field";
  Ok (value, mkReader (text r) stop).

Definition read_string : reads bytes := len ← read_index; take_field len.

(** [(0..count).map(|_| item(self)).collect()] *)
Fixpoint repeat_read {A} (count : nat) (item : reads A) : reads (list A) :=
  match count with
  | O => mret []
  | S count => x ← item; xs ← repeat_read count item; mret (x :: xs)
  end.

(** The bytes still unread. *)
Definition remaining : reads N := λ r,
  left ← sub_checked (lengthN (text r)) (offset r); Ok (left, r).

Definition sequence {A} (item : reads A) : reads (list A) :=
  count ← read_index;
  left ← remaining;
  if left <? count then lift (Err "truncated checked-IR sequence")
  else repeat_read (N.to_nat count) item.

Definition span : reads Span :=
  start ← read_index;
  stop ← read_index;
  if stop <? start then lift (Err "reversed checked-IR span")
  else mret (mkSpan start stop).

(** ** The raw program *)

Module Raw.

Record Data := mkData {
  d_tag : N;
  d_symbol : Z;
  d_element : N;
  d_params : list N;
  d_fields : list (bytes * N);
  d_variants : list (bytes * list N);
}.

Inductive Expr : Type := mkExpr {
  e_tag : N;
  e_ty : N;
  e_span : Span;
  e_text : bytes;
  e_index : Z;
  e_falls : bool;
  e_children : list Expr;
  e_arms : list Arm;
}
with Arm : Type := mkArm {
  a_variant : option N;
  a_bindings : list (option N);
  a_whole : option N;
  a_body : list Expr;
}.

Record Function := mkFunction {
  f_symbol : Z;
  f_span : Span;
  f_params : list N;
  f_result : N;
  f_locals : list N;
  f_preconditions : list Expr;
  f_body : Expr;
}.

(** Methods of an interface are parameter types and a result type. *)
Definition Interface : Type := list (list N * N).
Definition Witness : Type := N * N * list (option N).

(** What [decode] has read once the stream is exhausted. *)
Record Program := mkProgram {
  data : list Data;
  functions : list Function;
  entry : option N;
  tests : list N;
  exports : list N;
  interfaces : list Interface;
  witnesses : list Witness;
  test_names : list bytes;
  target_inputs : list (bytes * bytes);
  source_locations : C.SourceMap;
}.

End Raw.

(** [falls]: the fallthrough flag of an expression. *)
Definition read_falls : reads bool :=
  v ← integer;
  if (v =? 0)%Z then mret false
  else if (v =? 1)%Z then mret true
  else lift (Err "invalid checked-IR fallthrough flag").

(** One match arm, given the reader of nested expressions. *)
Definition read_arm (expression : reads Raw.Expr) : reads Raw.Arm :=
  variant ← read_optional;
  bindings ← sequence read_optional;
  whole ← read_optional;
  body ← sequence expression;
  mret (Raw.mkArm variant bindings whole body).

(** [Reader::expression]; [fuel] bounds the recursion, whose depth the code limits. *)
Fixpoint expression_fuel (fuel : nat) (depth : N) : reads Raw.Expr :=
  match fuel with
  | O => lift Stuck
  | S fuel =>
      if 512 <? depth then
        lift (Err "checked-IR nesting exceeds the native bridge limit")
      else
        tag ← read_index;
        ty ← read_index;
        sp ← span;
        txt ← read_string;
        idx ← integer;
        falls ← read_falls;
        children ← sequence (expression_fuel fuel (depth + 1));
        arms ← sequence (read_arm (expression_fuel fuel (depth + 1)));
        mret (Raw.mkExpr tag ty sp txt idx falls children arms)
  end.

(** Depths 0 to 513 are entered at most, the last one only to be refused. *)
Definition expression (depth : N) : reads Raw.Expr := expression_fuel 514 depth.

(** ** Sections of the stream *)

(** [at]: a reference that must be in bounds. *)
Definition at_ {A} (values : list A) (i : N) : outcome A :=
  ok_or (get values i) "checked-IR reference is out of bounds".

Definition read_named_type : reads (bytes * N) :=
  name ← read_string; ty ← read_index; mret (name, ty).

Definition read_variant : reads (bytes * list N) :=
  name ← read_string; fields ← sequence read_index; mret (name, fields).

(** One type: the payload depends on the tag. *)
Definition read_data : reads Raw.Data :=
  tag ← read_index;
  symbol ← integer;
  params ← (if tag =? 12 then sequence read_index else mret []);
  element ← (if (tag =? 6) || (tag =? 9) || (tag =? 12) || (tag =? 13)
             then read_index else mret 0);
  fields ← (if (tag =? 7) || (tag =? 14) then sequence read_named_type else mret []);
  variants ← (if tag =? 8 then sequence read_variant else mret []);
  mret (Raw.mkData tag symbol element params fields variants).

Definition read_function : reads Raw.Function :=
  symbol ← integer;
  sp ← span;
  params ← sequence read_index;
  result ← read_index;
  locals ← sequence read_index;
  preconditions ← sequence (expression 0);
  body ← expression 0;
  mret (Raw.mkFunction symbol sp params result locals preconditions body).

(** Feature 1: interfaces and witnesses. *)
Definition read_interface : reads Raw.Interface :=
  sequence (params ← sequence read_index; result ← read_index; mret (params, result)).

Definition read_witness : reads Raw.Witness :=
  interface ← read_index;
  concrete ← read_index;
  slots ← sequence read_optional;
  mret (interface, concrete, slots).

(** Feature 3: observed target properties, each allowed name at most once. *)
Definition read_target_input : reads (bytes * bytes) :=
  name ← read_string; value ← read_string; mret (name, value).

Definition target_property (name : bytes) : bool :=
  bool_decide (name = b "os" ∨ name = b "arch" ∨ name = b "pointer_width" ∨ name = b "endian").

Fixpoint check_target_names (seen : list bytes) (inputs : list (bytes * bytes)) : outcome () :=
  match inputs with
  | [] => Ok tt
  | (name, _) :: inputs =>
      fail_if (negb (target_property name) || bool_decide (name ∈ seen))
        "invalid or duplicate checked target property" ;;
      check_target_names (name :: seen) inputs
  end.

(** Feature 4: source positions, grouped by function. *)
Definition Site : Type := Span * N * N.
Definition Group : Type := N * N * list Site.

Definition read_site : reads Site :=
  sp ← span; line ← read_index; column ← read_index; mret (sp, line, column).

Definition read_group : reads Group :=
  function ← read_index;
  file ← read_index;
  sites ← sequence read_site;
  mret (function, file, sites).

Abbreviation Sites := (gmap (N * (N * N)) C.SourcePosition).

Definition site_key (function : N) (sp : Span) : N * (N * N) :=
  (function, (span_start sp, span_end sp)).

Fixpoint insert_sites (function file : N) (group : list Site) (sites : Sites) : outcome Sites :=
  match group with
  | [] => Ok sites
  | (sp, line, column) :: group =>
      fail_if ((line =? 0) || (column =? 0) ||
               bool_decide (is_Some (sites !! site_key function sp)))
        "invalid or duplicate checked source location" ;;
      insert_sites function file group
        (<[site_key function sp := C.mkSourcePosition file line column]> sites)
  end.

Fixpoint insert_groups (functions : list Raw.Function) (paths : list bytes)
    (seen : list N) (groups : list Group) (sites : Sites) : outcome Sites :=
  match groups with
  | [] => Ok sites
  | (function, file, group) :: groups =>
      at_ functions function ;;
      at_ paths file ;;
      fail_if (bool_decide (function ∈ seen)) "duplicate checked source function" ;;
      sites ← insert_sites function file group sites;
      insert_groups functions paths (function :: seen) groups sites
  end.

(** The state of the feature loop: the optional sections and the flags already seen. *)
Record Tail := mkTail {
  t_interfaces : list Raw.Interface;
  t_witnesses : list Raw.Witness;
  t_test_names : list bytes;
  t_target_inputs : list (bytes * bytes);
  t_locations : C.SourceMap;
  t_seen : list bool;
}.

Definition empty_tail : Tail :=
  mkTail [] [] [] [] (C.mkSourceMap [] ∅) [false; false; false; false].

(** The payload of one feature section, by its tag. *)
Definition read_section (functions : list Raw.Function) (tag : N) (t : Tail) : reads Tail :=
  let '(mkTail interfaces witnesses test_names target_inputs locations seen) := t in
  if tag =? 1 then
    interfaces ← sequence read_interface;
    witnesses ← sequence read_witness;
    mret (mkTail interfaces witnesses test_names target_inputs locations seen)
  else if tag =? 2 then
    test_names ← sequence read_string;
    mret (mkTail interfaces witnesses test_names target_inputs locations seen)
  else if tag =? 3 then
    target_inputs ← sequence read_target_input;
    lift (check_target_names [] target_inputs) ;;
    mret (mkTail interfaces witnesses test_names target_inputs locations seen)
  else
    paths ← sequence read_string;
    groups ← sequence read_group;
    sites ← lift (insert_groups functions paths [] groups (C.sites locations));
    mret (mkTail interfaces witnesses test_names target_inputs (C.mkSourceMap paths sites) seen).

(** One iteration of the loop over feature sections. *)
Definition read_feature (functions : list Raw.Function) (t : Tail) : reads Tail :=
  tag ← read_index;
  if (1 <=? tag) && (tag <=? 4) then
    seen ← lift (index_or_panic (t_seen t) (tag - 1));
    if seen : bool then lift (Err "duplicate checked-IR feature tag")
    else
      flags ← lift (set_or_panic (t_seen t) (tag - 1) true);
      read_section functions tag
        (mkTail (t_interfaces t) (t_witnesses t) (t_test_names t) (t_target_inputs t)
           (t_locations t) flags)
  else lift (Err "unknown checked-IR feature tag").

(** [while reader.offset != text.len()] *)
Fixpoint read_features (fuel : nat) (functions : list Raw.Function) (t : Tail) : reads Tail :=
  λ r,
    if offset r =? lengthN (text r) then Ok (t, r)
    else match fuel with
         | O => Stuck
         | S fuel => (t ← read_feature functions t; read_features fuel functions t) r
         end.

(** The sections in stream order. A fifth feature section can only be a duplicate. *)
Definition read_program : reads Raw.Program :=
  data ← sequence read_data;
  functions ← sequence read_function;
  entry ← read_optional;
  tests ← sequence read_index;
  exports ← sequence read_index;
  t ← read_features 5 functions empty_tail;
  if negb (length (t_test_names t) =? 0)%nat &&
     negb (length (t_test_names t) =? length tests)%nat
  then lift (Err "checked test-name count mismatch")
  else mret (Raw.mkProgram data functions entry tests exports (t_interfaces t)
               (t_witnesses t) (t_test_names t) (t_target_inputs t) (t_locations t)).

(** [text.strip_prefix(prefix)] *)
Fixpoint strip_prefix (prefix s : bytes) : option bytes :=
  match prefix, s with
  | [], _ => Some s
  | p :: prefix, c :: s => if decide (p = c) then strip_prefix prefix s else None
  | _ :: _, [] => None
  end.

Definition header : bytes := b "loom-checked-1" ++ [nl].

(** The first half of [decode]: the whole stream, before references are resolved. *)
Definition read_stream (s : bytes) : outcome Raw.Program :=
  body ← ok_or (strip_prefix header s) "expected loom-checked-1 header";
  '(p, _) ← read_program (mkReader body 0);
  Ok p.
