(* ===== verification/ReaderFacts.v ===== *)
(** The reader of the checked-IR stream never panics and never runs out of fuel on a Rust
    [&str], keeps its cursor on a character boundary inside the text, and yields trees no
    deeper than the nesting limit, with ordered spans, UTF-8 text and in-range indices. *)

From S2P Require Import Prelude Text Model Reader.
Import Utf8Facts DecimalFacts.

(** ** Specifications *)

(** The cursor splits the text at a point where the rest is still UTF-8. The length bound
    is the one Rust guarantees for every allocation. *)
Definition reader_ok (r : Reader) : Prop :=
  ∃ before rest,
    text r = before ++ rest ∧ offset r = lengthN before ∧ Utf8.valid rest = true ∧
    lengthN (text r) ≤ isize_max.

(** From a good cursor, [m] fails with an ordinary error or moves the cursor forward in
    the same text and yields a value with [P]. *)
Definition reads_sat {A} (P : A → Prop) (m : reads A) : Prop :=
  ∀ r, reader_ok r →
    outcome_sat (λ '(v, r'), reader_ok r' ∧ text r' = text r ∧ offset r ≤ offset r' ∧ P v)
      (m r).

(** Values an [i64] line can carry. *)
Definition index_wf (n : N) : Prop := n ≤ isize_max.
Definition optional_wf (o : option N) : Prop := from_option index_wf True o.
Definition text_wf (s : bytes) : Prop := Utf8.valid s = true.
Definition symbol_wf (z : Z) : Prop := Decimal.in_i64 z = true.
Definition span_wf (sp : Span) : Prop :=
  span_start sp ≤ span_end sp ∧ index_wf (span_end sp).

(** Raw trees of at most [n] levels, with the field invariants of the reader. *)
Fixpoint expr_wf (n : nat) (e : Raw.Expr) : Prop :=
  match n with
  | O => False
  | S n =>
      index_wf (Raw.e_tag e) ∧ index_wf (Raw.e_ty e) ∧ span_wf (Raw.e_span e) ∧
      text_wf (Raw.e_text e) ∧ symbol_wf (Raw.e_index e) ∧
      Forall (expr_wf n) (Raw.e_children e) ∧
      Forall (λ a, optional_wf (Raw.a_variant a) ∧ Forall optional_wf (Raw.a_bindings a) ∧
                   optional_wf (Raw.a_whole a) ∧ Forall (expr_wf n) (Raw.a_body a))
        (Raw.e_arms e)
  end.

Lemma expr_wf_S n e : expr_wf n e → expr_wf (S n) e.
Proof.
  revert e. induction n as [|n IH]; intros e; [by intros []|].
  intros (? & ? & ? & ? & ? & Hc & Ha). cbn [expr_wf]. split_and!; try assumption.
  - eapply Forall_impl; [exact Hc|]. intros x Hx. by apply IH in Hx.
  - eapply Forall_impl; [exact Ha|]. intros a (? & ? & ? & Hb). split_and!; try assumption.
    eapply Forall_impl; [exact Hb|]. intros x Hx. by apply IH in Hx.
Qed.

Definition named_type_wf (f : bytes * N) : Prop := text_wf f.1 ∧ index_wf f.2.
Definition variant_wf (v : bytes * list N) : Prop := text_wf v.1 ∧ Forall index_wf v.2.

(** A type record carries exactly the payload its tag calls for. *)
Definition data_wf (d : Raw.Data) : Prop :=
  let tag := Raw.d_tag d in
  index_wf tag ∧ symbol_wf (Raw.d_symbol d) ∧
  Forall index_wf (Raw.d_params d) ∧ (tag ≠ 12 → Raw.d_params d = []) ∧
  index_wf (Raw.d_element d) ∧
  (tag ≠ 6 → tag ≠ 9 → tag ≠ 12 → tag ≠ 13 → Raw.d_element d = 0) ∧
  Forall named_type_wf (Raw.d_fields d) ∧ (tag ≠ 7 → tag ≠ 14 → Raw.d_fields d = []) ∧
  Forall variant_wf (Raw.d_variants d) ∧ (tag ≠ 8 → Raw.d_variants d = []).

Definition function_wf (f : Raw.Function) : Prop :=
  symbol_wf (Raw.f_symbol f) ∧ span_wf (Raw.f_span f) ∧ Forall index_wf (Raw.f_params f) ∧
  index_wf (Raw.f_result f) ∧ Forall index_wf (Raw.f_locals f) ∧
  Forall (expr_wf 513) (Raw.f_preconditions f) ∧ expr_wf 513 (Raw.f_body f).

Definition interface_wf (i : Raw.Interface) : Prop :=
  Forall (λ m, Forall index_wf m.1 ∧ index_wf m.2) i.

Definition witness_wf (w : Raw.Witness) : Prop :=
  index_wf w.1.1 ∧ index_wf w.1.2 ∧ Forall optional_wf w.2.

Definition input_wf (i : bytes * bytes) : Prop := text_wf i.1 ∧ text_wf i.2.

Definition site_wf (s : Site) : Prop := span_wf s.1.1 ∧ index_wf s.1.2 ∧ index_wf s.2.
Definition group_wf (g : Group) : Prop :=
  index_wf g.1.1 ∧ index_wf g.1.2 ∧ Forall site_wf g.2.

(** Every recorded source position names a decoded function and path, with one-based
    coordinates. *)
Definition sites_wf (functions : list Raw.Function) (paths : list bytes) (sites : Sites) : Prop :=
  ∀ k pos, sites !! k = Some pos →
    k.1 < lengthN functions ∧ C.file pos < lengthN paths ∧ 0 < C.line pos ∧ 0 < C.column pos.

(** The optional sections. *)
Definition features_wf (functions : list Raw.Function) (interfaces : list Raw.Interface)
    (witnesses : list Raw.Witness) (test_names : list bytes)
    (target_inputs : list (bytes * bytes)) (locations : C.SourceMap) : Prop :=
  Forall interface_wf interfaces ∧ Forall witness_wf witnesses ∧
  Forall text_wf test_names ∧
  Forall input_wf target_inputs ∧ NoDup target_inputs.*1 ∧
  Forall (λ i, target_property i.1 = true) target_inputs ∧
  Forall text_wf (C.paths locations) ∧
  sites_wf functions (C.paths locations) (C.sites locations).

Definition tail_wf (functions : list Raw.Function) (t : Tail) : Prop :=
  length (t_seen t) = 4%nat ∧
  (t_seen t !! 3%nat = Some false → C.sites (t_locations t) = ∅) ∧
  features_wf functions (t_interfaces t) (t_witnesses t) (t_test_names t)
    (t_target_inputs t) (t_locations t).

Definition program_wf (p : Raw.Program) : Prop :=
  Forall data_wf (Raw.data p) ∧
  Forall function_wf (Raw.functions p) ∧
  optional_wf (Raw.entry p) ∧ Forall index_wf (Raw.tests p) ∧
  Forall index_wf (Raw.exports p) ∧
  (Raw.test_names p = [] ∨ length (Raw.test_names p) = length (Raw.tests p)) ∧
  features_wf (Raw.functions p) (Raw.interfaces p) (Raw.witnesses p) (Raw.test_names p)
    (Raw.target_inputs p) (Raw.source_locations p).

(** ** Combinators *)

Create HintDb reads.

Lemma reads_ret_sat {A} (P : A → Prop) v : P v → reads_sat P (mret v).
Proof. intros HP r Hr. simpl. auto with lia. Qed.

Lemma reads_bind_eq {A B} (m : reads A) (k : A → reads B) r :
  (m ≫= k) r = ('(v, r') ← m r; k v r').
Proof. unfold mbind, reads_bind. by destruct (m r) as [[]| | |]. Qed.

Lemma reads_bind_sat {A B} (P : A → Prop) (Q : B → Prop) (m : reads A) (k : A → reads B) :
  reads_sat P m → (∀ v, P v → reads_sat Q (k v)) → reads_sat Q (m ≫= k).
Proof.
  intros Hm Hk r Hr. rewrite reads_bind_eq. eapply sat_bind; [by apply Hm|].
  intros [v r'] _ (Hr' & Ht & Ho & Hv).
  eapply sat_mono; [by apply (Hk v Hv)|]. intros [w r''] _ (? & ? & ? & ?).
  split_and!; [done|congruence|lia|done].
Qed.

Lemma reads_mono {A} (P Q : A → Prop) (m : reads A) :
  reads_sat P m → (∀ v, P v → Q v) → reads_sat Q m.
Proof.
  intros Hm HPQ r Hr. eapply sat_mono; [by apply Hm|]. intros [v r'] _ (?&?&?&?). auto.
Qed.

Lemma reads_lift_sat {A} (P : A → Prop) (m : outcome A) :
  outcome_sat P m → reads_sat P (lift m).
Proof.
  intros Hm r Hr. unfold lift. destruct m; simpl in *; auto with lia.
Qed.

Lemma reads_err_sat {A} (P : A → Prop) msg : reads_sat P (lift (Err msg)).
Proof. by apply reads_lift_sat. Qed.

#[export] Hint Resolve reads_ret_sat reads_lift_sat reads_err_sat : reads.

(** ** Fields *)

Lemma slice_from_ok p rest :
  starts_char rest → slice_from (p ++ rest) (lengthN p) = Ok rest.
Proof.
  intros Hs. unfold slice_from. rewrite starts_char_boundary by done.
  rewrite length_app, Nat2N.id, drop_app_length.
  by destruct (N.leb_spec (lengthN p) (N.of_nat (length p + length rest))); [|lia].
Qed.

Lemma find_nl_spec s i :
  find_nl s = Some i → ∃ s1 s2, s = s1 ++ nl :: s2 ∧ i = lengthN s1.
Proof.
  revert i. induction s as [|c s IH]; intros i; simpl; [done|].
  case_decide as Hc; [intros [= <-]; subst c; by exists [], s|].
  intros (j & Hj & ->)%fmap_Some. destruct (IH j Hj) as (s1 & s2 & -> & ->).
  exists (c :: s1), s2. split; [done|]. simpl. lia.
Qed.

Lemma add_checked_sat (P : N → Prop) x y :
  x + y ≤ usize_max → P (x + y) → outcome_sat P (add_checked x y).
Proof.
  intros Hle HP. unfold add_checked, checked_add. apply N.leb_le in Hle. by rewrite Hle.
Qed.

(** A successful slice between two points of the text. *)
Lemma slice_ok p s1 s2 :
  starts_char (s1 ++ s2) → starts_char s2 →
  slice (p ++ s1 ++ s2) (lengthN p) (lengthN p + lengthN s1) = Ok s1 ∧
  get_range (p ++ s1 ++ s2) (lengthN p) (lengthN p + lengthN s1) = Some s1.
Proof.
  intros H1 H2. unfold slice, get_range.
  rewrite (starts_char_boundary p (s1 ++ s2)) by done.
  replace (Utf8.is_char_boundary _ (lengthN p + lengthN s1)) with true; last first.
  { rewrite app_assoc. symmetry.
    replace (lengthN p + lengthN s1) with (lengthN (p ++ s1)) by (rewrite length_app; lia).
    by apply starts_char_boundary. }
  rewrite !length_app.
  destruct (N.leb_spec (lengthN p) (lengthN p + lengthN s1)); [|lia].
  destruct (N.leb_spec (lengthN p + lengthN s1)
              (N.of_nat (length p + (length s1 + length s2)))); [|lia].
  cbn [andb].
  replace (N.to_nat (lengthN p + lengthN s1 - lengthN p)) with (length s1) by lia.
  by rewrite Nat2N.id, drop_app_length, take_app_length.
Qed.

(** The cursor after consuming [s1] of the remaining text. *)
Lemma reader_ok_advance p s1 s2 :
  Utf8.valid s2 = true → lengthN (p ++ s1 ++ s2) ≤ isize_max →
  reader_ok (mkReader (p ++ s1 ++ s2) (lengthN p + lengthN s1)).
Proof.
  intros. exists (p ++ s1), s2. simpl. rewrite <-app_assoc, (length_app p s1).
  split_and!; [done|lia|done|done].
Qed.

Lemma starts_char_nl s : starts_char (nl :: s).
Proof. done. Qed.

Lemma integer_sat : reads_sat symbol_wf integer.
Proof.
  intros [t o] (p & rest & Ht & Ho & Hv & Hm). simpl in *. subst t o.
  unfold integer. cbn [text offset].
  rewrite slice_from_ok by by apply valid_starts_char. cbn [mbind outcome_bind].
  sat_step. apply find_nl_spec in H as (s1 & s2 & -> & ->).
  pose proof Hm as Hl. rewrite !length_app in Hl. simpl in Hl.
  unfold isize_max in Hl.
  eapply sat_bind; [apply (add_checked_sat (λ v, v = lengthN p + lengthN s1));
                    [unfold usize_max; lia|done]|].
  intros ? _ ->.
  destruct (slice_ok p s1 (nl :: s2)) as [-> _];
    [by apply valid_starts_char|apply starts_char_nl|]. cbn [mbind outcome_bind].
  sat_step. apply parse_i64_range in H.
  eapply sat_bind; [apply (add_checked_sat (λ v, v = lengthN p + lengthN s1 + 1));
                    [unfold usize_max; lia|done]|].
  intros ? _ ->. simpl. split_and!; [|done|lia|done].
  apply valid_split in Hv as [_ Hv]; [|apply starts_char_nl].
  replace (s1 ++ nl :: s2) with ((s1 ++ [nl]) ++ s2) by by rewrite <-app_assoc.
  replace (lengthN p + lengthN s1 + 1) with (lengthN p + lengthN (s1 ++ [nl]))
    by (rewrite length_app; simpl; lia).
  apply reader_ok_advance; [done|]. by rewrite <-app_assoc.
Qed.

Lemma index_sat z : outcome_sat (λ n, z = Z.of_N n) (index z).
Proof. unfold index. destruct (Z.ltb_spec z 0); simpl; [done|lia]. Qed.

Lemma read_index_sat : reads_sat index_wf read_index.
Proof.
  unfold read_index. eapply reads_bind_sat; [apply integer_sat|]. intros z Hz.
  apply reads_lift_sat. eapply sat_mono; [apply index_sat|]. simpl. intros n _ ->.
  unfold symbol_wf, Decimal.in_i64, index_wf, i64_max, isize_max in *. bool_facts. lia.
Qed.

Lemma read_optional_sat : reads_sat optional_wf read_optional.
Proof.
  unfold read_optional. eapply reads_bind_sat; [apply integer_sat|]. intros z Hz.
  apply reads_lift_sat. unfold optional. destruct (z =? -1)%Z; simpl; [done|].
  eapply sat_bind; [apply index_sat|]. simpl. intros n _ ->.
  unfold symbol_wf, Decimal.in_i64, index_wf, i64_max, isize_max in *. bool_facts. lia.
Qed.

Lemma get_range_split p rest n v :
  Utf8.valid rest = true →
  get_range (p ++ rest) (lengthN p) (lengthN p + n) = Some v →
  ∃ s2, rest = v ++ s2 ∧ n = lengthN v ∧ Utf8.valid v = true ∧ Utf8.valid s2 = true.
Proof.
  intros Hv. unfold get_range.
  destruct (_ && _) eqn:Hc; [|done]. bool_facts. intros [= <-].
  rewrite Nat2N.id, drop_app_length in *.
  replace (N.to_nat (lengthN p + n - lengthN p)) with (N.to_nat n) by lia.
  rewrite length_app in *.
  assert (lengthN (take (N.to_nat n) rest) = n) as Hn by (rewrite length_take; lia).
  exists (drop (N.to_nat n) rest). rewrite take_drop.
  split; [done|]. split; [done|].
  rewrite <-(take_drop (N.to_nat n) rest) in Hv. apply valid_split in Hv; [done|].
  destruct (decide (p ++ take (N.to_nat n) rest = [])) as [[-> Hnil]%app_nil|Hne].
  { apply valid_starts_char. by rewrite Hnil in Hv. }
  apply (boundary_starts_char _ _ Hne). rewrite <-app_assoc, take_drop.
  rewrite length_app, Nat2N.inj_add, Hn. done.
Qed.

Lemma take_field_sat n :
  reads_sat text_wf (take_field n).
Proof.
  intros [t o] (p & rest & Ht & Ho & Hv & Hm). simpl in *. subst t o.
  unfold take_field. cbn [text offset]. sat_step.
  unfold checked_add in H. destruct (_ <=? _); simplify_eq.
  sat_step. apply get_range_split in H as (s2 & -> & -> & Hv1 & Hv2); [|done]. simpl.
  split_and!; [|done|lia|done]. by apply reader_ok_advance.
Qed.

Lemma read_string_sat : reads_sat text_wf read_string.
Proof. eapply reads_bind_sat; [apply read_index_sat|]. intros. apply take_field_sat. Qed.

#[export] Hint Resolve integer_sat read_index_sat read_optional_sat read_string_sat : reads.

Lemma repeat_read_sat {A} (P : A → Prop) n (item : reads A) :
  reads_sat P item → reads_sat (Forall P) (repeat_read n item).
Proof.
  intros Hi. induction n as [|n IH]; simpl; [by apply reads_ret_sat|].
  eapply reads_bind_sat; [done|]. intros x Hx.
  eapply reads_bind_sat; [done|]. intros xs Hxs. apply reads_ret_sat. by constructor.
Qed.

Lemma remaining_sat : reads_sat (λ _, True) remaining.
Proof.
  intros [t o] (p & rest & Ht & Ho & Hv & Hm). simpl in *. subst t o.
  unfold remaining, sub_checked. cbn [text offset]. rewrite length_app.
  destruct (N.leb_spec (lengthN p) (N.of_nat (length p + length rest))); [|lia].
  simpl. split_and!; [by exists p, rest|done|lia|done].
Qed.

Lemma sequence_sat {A} (P : A → Prop) (item : reads A) :
  reads_sat P item → reads_sat (Forall P) (sequence item).
Proof.
  intros Hi. unfold sequence. eapply reads_bind_sat; [apply read_index_sat|]. intros n _.
  eapply reads_bind_sat; [apply remaining_sat|]. intros left _.
  destruct (left <? n); [apply reads_err_sat|]. by apply repeat_read_sat.
Qed.

Lemma span_sat : reads_sat span_wf span.
Proof.
  unfold span. eapply reads_bind_sat; [apply read_index_sat|]. intros start _.
  eapply reads_bind_sat; [apply read_index_sat|]. intros stop Hs.
  destruct (N.ltb_spec stop start); [apply reads_err_sat|]. by apply reads_ret_sat.
Qed.

Lemma read_falls_sat : reads_sat (λ _, True) read_falls.
Proof.
  unfold read_falls. eapply reads_bind_sat; [apply integer_sat|]. intros z _.
  destruct (z =? 0)%Z; [by apply reads_ret_sat|].
  destruct (z =? 1)%Z; [by apply reads_ret_sat|apply reads_err_sat].
Qed.

#[export] Hint Resolve sequence_sat span_sat read_falls_sat : reads.

(** One bind of a reader whose first step is covered by the database. *)
Ltac reads_step :=
  lazymatch goal with
  | |- reads_sat _ (_ ≫= _) =>
      eapply reads_bind_sat; [solve [eauto with reads]|];
      let H := fresh "H" in intros ? H; cbv beta in H
  | |- reads_sat _ (mret _) => apply reads_ret_sat
  end.

Lemma read_arm_sat (P : Raw.Expr → Prop) (item : reads Raw.Expr) :
  reads_sat P item →
  reads_sat (λ a, optional_wf (Raw.a_variant a) ∧ Forall optional_wf (Raw.a_bindings a) ∧
                  optional_wf (Raw.a_whole a) ∧ Forall P (Raw.a_body a)) (read_arm item).
Proof. intros Hi. unfold read_arm. repeat reads_step. by split_and!. Qed.

(** Enough fuel for the nesting limit is enough fuel. *)
Lemma expression_fuel_sat fuel depth :
  depth ≤ 513 → 514 ≤ N.of_nat fuel + depth →
  reads_sat (expr_wf (N.to_nat (513 - depth))) (expression_fuel fuel depth).
Proof.
  revert depth. induction fuel as [|fuel IH]; intros depth Hd Hf; [lia|].
  cbn [expression_fuel].
  destruct (N.ltb_spec 512 depth); [apply reads_err_sat|].
  assert (reads_sat (expr_wf (N.to_nat (513 - (depth + 1))))
            (expression_fuel fuel (depth + 1))) as Hsub by (apply IH; lia).
  replace (N.to_nat (513 - depth)) with (S (N.to_nat (513 - (depth + 1)))) by lia.
  pose proof (read_arm_sat _ _ Hsub) as Harm.
  repeat reads_step. simpl. by split_and!.
Qed.

Lemma expression_sat : reads_sat (expr_wf 513) (expression 0).
Proof. by apply (expression_fuel_sat 514 0). Qed.

#[export] Hint Resolve expression_sat : reads.

(** ** Sections of the stream *)

Lemma read_named_type_sat : reads_sat named_type_wf read_named_type.
Proof. unfold read_named_type. repeat reads_step. by split. Qed.

Lemma read_variant_sat : reads_sat variant_wf read_variant.
Proof. unfold read_variant. repeat reads_step. by split. Qed.

#[export] Hint Resolve read_named_type_sat read_variant_sat : reads.

(** An optional field: read when the tag calls for it, a default otherwise. *)
Lemma reads_when_sat {A} (P : A → Prop) (c : bool) (m : reads A) (v : A) :
  reads_sat P m → P v →
  reads_sat (λ w, P w ∧ (c = false → w = v)) (if c then m else mret v).
Proof.
  intros. destruct c; [by eapply reads_mono|by apply reads_ret_sat].
Qed.

Lemma read_data_sat : reads_sat data_wf read_data.
Proof.
  unfold read_data. reads_step. rename v into tag. reads_step.
  eapply reads_bind_sat;
    [apply (reads_when_sat (Forall index_wf)); [eauto with reads|constructor]|].
  intros params [Hp Hp0].
  eapply reads_bind_sat; [apply (reads_when_sat index_wf); [eauto with reads|done]|].
  intros element [He He0].
  eapply reads_bind_sat;
    [apply (reads_when_sat (Forall named_type_wf)); [eauto with reads|constructor]|].
  intros fields [Hf Hf0].
  eapply reads_bind_sat;
    [apply (reads_when_sat (Forall variant_wf)); [eauto with reads|constructor]|].
  intros variants [Hv Hv0]. apply reads_ret_sat.
  unfold data_wf. cbn [Raw.d_tag Raw.d_symbol Raw.d_params Raw.d_element Raw.d_fields
    Raw.d_variants]. split_and!; try done; intros;
  [apply Hp0|apply He0|apply Hf0|apply Hv0];
  rewrite ?orb_false_iff, ?N.eqb_neq; auto.
Qed.

Lemma read_function_sat : reads_sat function_wf read_function.
Proof. unfold read_function. repeat reads_step. by split_and!. Qed.

Lemma read_interface_sat : reads_sat interface_wf read_interface.
Proof. apply sequence_sat. repeat reads_step. by split. Qed.

Lemma read_witness_sat : reads_sat witness_wf read_witness.
Proof. unfold read_witness. repeat reads_step. by split_and!. Qed.

Lemma read_target_input_sat : reads_sat input_wf read_target_input.
Proof. unfold read_target_input. repeat reads_step. by split. Qed.

Lemma read_site_sat : reads_sat site_wf read_site.
Proof. unfold read_site. repeat reads_step. by split_and!. Qed.
#[export] Hint Resolve read_site_sat : reads.

Lemma read_group_sat : reads_sat group_wf read_group.
Proof. unfold read_group. repeat reads_step. by split_and!. Qed.

#[export] Hint Resolve read_data_sat read_function_sat read_interface_sat read_witness_sat
  read_target_input_sat read_group_sat : reads.

Lemma check_target_names_sat seen inputs :
  outcome_sat (λ _, NoDup inputs.*1 ∧ (∀ x, x ∈ inputs.*1 → x ∉ seen) ∧
                    Forall (λ i, target_property i.1 = true) inputs)
    (check_target_names seen inputs).
Proof.
  revert seen. induction inputs as [|[name value] inputs IH]; intros seen; simpl.
  { split_and!; [constructor|by intros ? ?%elem_of_nil|constructor]. }
  sat_step. bool_facts. eapply sat_mono; [apply IH|].
  intros _ _ (Hnd & Hfresh & Hall). split_and!.
  - constructor; [|done]. intros Hin. apply (Hfresh _ Hin). by left.
  - intros x [->|Hin]%elem_of_cons; [done|]. intros Hs. apply (Hfresh _ Hin). by right.
  - by constructor.
Qed.

Lemma insert_sites_sat functions paths f file group sites :
  f < lengthN functions → file < lengthN paths → sites_wf functions paths sites →
  outcome_sat (sites_wf functions paths) (insert_sites f file group sites).
Proof.
  intros Hf Hp. revert sites. induction group as [|[[sp line] column] group IH];
    intros sites Hs; simpl; [done|].
  sat_step. bool_facts. apply IH. intros k pos.
  rewrite lookup_insert. case_decide as Hk; [|by apply Hs].
  intros [= <-]. subst k. simpl. split_and!; [done|done|lia|lia].
Qed.

Lemma insert_groups_sat functions paths seen groups sites :
  sites_wf functions paths sites →
  outcome_sat (sites_wf functions paths) (insert_groups functions paths seen groups sites).
Proof.
  revert seen sites. induction groups as [|[[f file] group] groups IH];
    intros seen sites Hs; simpl; [done|]. unfold at_.
  repeat sat_step.
  eapply sat_bind; [apply (insert_sites_sat functions paths); [..|exact Hs]|].
  - by eapply get_Some_lt.
  - by eapply get_Some_lt.
  - intros sites' _ Hs'. by apply IH.
Qed.

(** ** The feature loop *)

Definition unseen (t : Tail) : nat := length (filter (λ f, f = false) (t_seen t)).

(** A section keeps the flags; the source-position section starts from an empty table. *)
Lemma read_section_sat functions tag t :
  tail_wf functions t → (tag = 4 → C.sites (t_locations t) = ∅) →
  (tag = 4 → t_seen t !! 3%nat = Some true) → 1 ≤ tag ≤ 4 →
  reads_sat (λ t', tail_wf functions t' ∧ t_seen t' = t_seen t) (read_section functions tag t).
Proof.
  destruct t as [ifs ws names inputs locs seen].
  intros (Hlen & Hseen & Hi & Hw & Hn & Hin & Hnd & Hok & Hpaths & Hsites) Hempty H4 Htag.
  cbn [t_interfaces t_witnesses t_test_names t_target_inputs t_locations t_seen] in *.
  unfold read_section.
  destruct (N.eqb_spec tag 1); [repeat reads_step; by split_and!|].
  destruct (N.eqb_spec tag 2); [repeat reads_step; by split_and!|].
  destruct (N.eqb_spec tag 3).
  - reads_step. eapply reads_bind_sat; [apply reads_lift_sat, check_target_names_sat|].
    intros _ (Hnd' & _ & Hok'). apply reads_ret_sat. by split_and!.
  - assert (tag = 4) as -> by lia. rewrite Hempty by done.
    do 2 reads_step. eapply reads_bind_sat.
    { apply reads_lift_sat, insert_groups_sat. by intros ? ? ?%lookup_empty_Some. }
    intros sites Hs. apply reads_ret_sat. split; [|done]. split_and!; try done.
    simpl. by rewrite H4.
Qed.

Lemma unseen_flag (l : list bool) i :
  l !! i = Some false →
  (length (filter (λ f, f = false) (<[i := true]> l)) < length (filter (λ f, f = false) l))%nat.
Proof.
  revert i. induction l as [|f l IH]; intros [|i]; simpl; [done..| |].
  - intros [= ->]. rewrite !filter_cons. simpl. lia.
  - intros Hi. specialize (IH i Hi). rewrite !filter_cons. destruct f; simpl; lia.
Qed.

Lemma read_feature_sat functions t :
  tail_wf functions t →
  reads_sat (λ t', tail_wf functions t' ∧ (unseen t' < unseen t)%nat) (read_feature functions t).
Proof.
  intros Ht. pose proof Ht as (Hlen & Hseen & Hfeat).
  unfold read_feature. reads_step. rename v into tag.
  destruct (_ && _) eqn:Htag; [|apply reads_err_sat]. bool_facts.
  eapply reads_bind_sat.
  { apply reads_lift_sat, (index_or_panic_sat (λ f, get (t_seen t) (tag - 1) = Some f));
      [rewrite Hlen; lia|done]. }
  intros f Hf. destruct f; [apply reads_err_sat|]. rewrite get_Some in Hf.
  eapply reads_bind_sat.
  { apply reads_lift_sat, (set_or_panic_sat
      (λ l, l = <[N.to_nat (tag - 1) := true]> (t_seen t))); [rewrite Hlen; lia|done]. }
  intros flags ->.
  assert (tag = 4 → N.to_nat (tag - 1) = 3%nat) as H3 by lia.
  eapply reads_mono; [apply read_section_sat|]; simpl.
  - split; [by rewrite <-Hlen; apply length_insert|]. split; [|done]. simpl.
    rewrite list_lookup_insert. case_decide; [done|]. exact Hseen.
  - intros ->. by apply Hseen.
  - intros ->. apply list_lookup_insert_eq. rewrite Hlen. simpl. lia.
  - done.
  - intros t' [Hwf Hs]. split; [done|]. unfold unseen. rewrite Hs. by apply unseen_flag.
Qed.

Lemma read_features_sat functions fuel t :
  tail_wf functions t → (unseen t < fuel)%nat →
  reads_sat (tail_wf functions) (read_features fuel functions t).
Proof.
  revert t. induction fuel as [|fuel IH]; intros t Ht Hf; [lia|].
  intros r Hr. cbn [read_features].
  destruct (offset r =? lengthN (text r)); [simpl; auto with lia|].
  revert r Hr. eapply reads_bind_sat; [by apply read_feature_sat|].
  intros t' [Ht' Hlt]. apply IH; [done|lia].
Qed.

Lemma empty_tail_wf functions : tail_wf functions empty_tail.
Proof. unfold tail_wf, features_wf. split_and!; try done; by constructor. Qed.

Lemma read_program_sat : reads_sat program_wf read_program.
Proof.
  unfold read_program. do 5 reads_step.
  eapply reads_bind_sat;
    [apply (read_features_sat v0); [apply empty_tail_wf|unfold unseen; simpl; lia]|].
  intros t (_ & _ & Hfeat).
  destruct (_ && _) eqn:Hn; [apply reads_err_sat|]. apply reads_ret_sat.
  split_and!; try done. simpl.
  apply andb_false_iff in Hn as [Hn|Hn]; bool_facts; apply Nat.eqb_eq in Hn;
    [left; by apply nil_length_inv|by right].
Qed.

(** ** The stream *)

Lemma strip_prefix_Some p s s' : strip_prefix p s = Some s' ↔ s = p ++ s'.
Proof.
  revert s. induction p as [|c p IH]; intros s; simpl; [split; congruence|].
  destruct s as [|c' s]; [done|]. case_decide; subst; [rewrite IH|]; split; congruence.
Qed.

Lemma reader_ok_start s : Utf8.valid s = true → lengthN s ≤ isize_max → reader_ok (mkReader s 0).
Proof. intros. by exists [], s. Qed.

(** The stream reader on a Rust [&str]. *)
Lemma read_stream_sat s :
  Utf8.valid s = true → lengthN s ≤ isize_max →
  outcome_sat program_wf (read_stream s).
Proof.
  intros Hv Hl. unfold read_stream. sat_step. apply strip_prefix_Some in H as ->.
  apply valid_split in Hv as [_ Hv]; last first.
  { revert Hv. generalize v. intros v'. unfold header. rewrite <-app_assoc. simpl.
    intros Hv. by apply valid_starts_char. }
  eapply sat_bind.
  { apply read_program_sat, reader_ok_start; [done|]. rewrite length_app in Hl. lia. }
  intros [p r] _ (_ & _ & _ & Hp). exact Hp.
Qed.
