(* ===== verification/Encoder.v ===== *)
(** The writer of the checked-IR stream ([compiler/loom/artifact/artifact.loom]) over the
    raw program, and the round trip: what it writes for a well-formed program is exactly
    what [Reader.read_stream] reads back. *)

From S2P Require Import Prelude Text Model Reader ReaderFacts.
Import Utf8Facts DecimalFacts.

(** ** Fields *)

Definition enc_integer (z : Z) : bytes := Decimal.to_text z ++ [nl].
Definition enc_index (n : N) : bytes := enc_integer (Z.of_N n).
Definition enc_text (s : bytes) : bytes := enc_index (lengthN s) ++ s.
Definition enc_list {A} (enc : A → bytes) (l : list A) : bytes :=
  enc_index (lengthN l) ++ concat (map enc l).
(** Absent bindings, variants, methods and entries are written as -1. *)
Definition enc_optional (o : option N) : bytes :=
  match o with Some n => enc_index n | None => enc_integer (-1) end.
Definition enc_span (sp : Span) : bytes := enc_index (span_start sp) ++ enc_index (span_end sp).
Definition enc_bool (v : bool) : bytes := enc_integer (if v then 1 else 0).

(** ** Sections *)

Definition enc_named_type (f : bytes * N) : bytes := enc_text f.1 ++ enc_index f.2.
Definition enc_variant (v : bytes * list N) : bytes := enc_text v.1 ++ enc_list enc_index v.2.

Definition enc_data (d : Raw.Data) : bytes :=
  let tag := Raw.d_tag d in
  enc_index tag ++ enc_integer (Raw.d_symbol d) ++
  (if tag =? 12 then enc_list enc_index (Raw.d_params d) else []) ++
  (if (tag =? 6) || (tag =? 9) || (tag =? 12) || (tag =? 13)
   then enc_index (Raw.d_element d) else []) ++
  (if (tag =? 7) || (tag =? 14) then enc_list enc_named_type (Raw.d_fields d) else []) ++
  (if tag =? 8 then enc_list enc_variant (Raw.d_variants d) else []).

Fixpoint enc_expr (e : Raw.Expr) : bytes :=
  match e with
  | Raw.mkExpr tag ty sp txt idx falls children arms =>
      enc_index tag ++ enc_index ty ++ enc_span sp ++ enc_text txt ++ enc_integer idx ++
      enc_bool falls ++ enc_list enc_expr children ++
      enc_list (λ a, match a with
                     | Raw.mkArm variant bindings whole body =>
                         enc_optional variant ++ enc_list enc_optional bindings ++
                         enc_optional whole ++ enc_list enc_expr body
                     end) arms
  end.

Definition enc_arm (a : Raw.Arm) : bytes :=
  enc_optional (Raw.a_variant a) ++ enc_list enc_optional (Raw.a_bindings a) ++
  enc_optional (Raw.a_whole a) ++ enc_list enc_expr (Raw.a_body a).

Definition enc_function (f : Raw.Function) : bytes :=
  enc_integer (Raw.f_symbol f) ++ enc_span (Raw.f_span f) ++
  enc_list enc_index (Raw.f_params f) ++ enc_index (Raw.f_result f) ++
  enc_list enc_index (Raw.f_locals f) ++ enc_list enc_expr (Raw.f_preconditions f) ++
  enc_expr (Raw.f_body f).

Definition enc_interface (i : Raw.Interface) : bytes :=
  enc_list (λ m : list N * N, enc_list enc_index m.1 ++ enc_index m.2) i.
Definition enc_witness (w : Raw.Witness) : bytes :=
  enc_index w.1.1 ++ enc_index w.1.2 ++ enc_list enc_optional w.2.
Definition enc_input (i : bytes * bytes) : bytes := enc_text i.1 ++ enc_text i.2.

Definition enc_site (s : Site) : bytes := enc_span s.1.1 ++ enc_index s.1.2 ++ enc_index s.2.
Definition enc_group (g : Group) : bytes :=
  enc_index g.1.1 ++ enc_index g.1.2 ++ enc_list enc_site g.2.

Definition is_nil {A} (l : list A) : bool := match l with [] => true | _ => false end.

(** The optional sections, written when they have content and in this order. *)
Definition enc_features (p : Raw.Program) (groups : list Group) : bytes :=
  (if is_nil (Raw.interfaces p) && is_nil (Raw.witnesses p) then []
   else enc_index 1 ++ enc_list enc_interface (Raw.interfaces p) ++
        enc_list enc_witness (Raw.witnesses p)) ++
  (if is_nil (Raw.test_names p) then []
   else enc_index 2 ++ enc_list enc_text (Raw.test_names p)) ++
  (if is_nil (Raw.target_inputs p) then []
   else enc_index 3 ++ enc_list enc_input (Raw.target_inputs p)) ++
  (if is_nil groups then []
   else enc_index 4 ++ enc_list enc_text (C.paths (Raw.source_locations p)) ++
        enc_list enc_group groups).

(** [encode]: the header, the mandatory sections, then the features. The source positions
    are written from the per-function groups they were collected in. *)
Definition encode (p : Raw.Program) (groups : list Group) : bytes :=
  header ++ enc_list enc_data (Raw.data p) ++ enc_list enc_function (Raw.functions p) ++
  enc_optional (Raw.entry p) ++ enc_list enc_index (Raw.tests p) ++
  enc_list enc_index (Raw.exports p) ++ enc_features p groups.

(** The groups a program's source positions come from. *)
Definition groups_of (p : Raw.Program) (groups : list Group) : Prop :=
  Forall group_wf groups ∧ (groups = [] → C.paths (Raw.source_locations p) = []) ∧
  insert_groups (Raw.functions p) (C.paths (Raw.source_locations p)) [] groups ∅ =
    Ok (C.sites (Raw.source_locations p)).

(** ** Emission *)

(** Wherever the bytes [e] stand in a text, [m] consumes exactly them and yields [v]. *)
Definition emits {A} (m : reads A) (e : bytes) (v : A) : Prop :=
  ∀ p s, starts_char s → lengthN (p ++ e ++ s) ≤ isize_max →
    starts_char (e ++ s) ∧
    m (mkReader (p ++ e ++ s) (lengthN p)) =
      Ok (v, mkReader (p ++ e ++ s) (lengthN p + lengthN e)).

Create HintDb emits.

Lemma emits_ret {A} (v : A) : emits (mret v) [] v.
Proof. intros p s Hs Hl. simpl. rewrite N.add_0_r. done. Qed.

Lemma emits_bind {A B} (m : reads A) (k : A → reads B) e1 e2 v w :
  emits m e1 v → emits (k v) e2 w → emits (m ≫= k) (e1 ++ e2) w.
Proof.
  intros Hm Hk p s Hs Hl. rewrite <-app_assoc in *.
  destruct (Hk (p ++ e1) s Hs) as [Hc2 Hk2]; [by rewrite <-app_assoc|].
  destruct (Hm p (e2 ++ s) Hc2 Hl) as [Hc1 Hm1]. split; [done|].
  rewrite reads_bind_eq, Hm1. cbn [mbind outcome_bind].
  rewrite <-app_assoc in Hk2. rewrite length_app, Nat2N.inj_add in Hk2.
  rewrite Hk2. do 3 f_equal. rewrite length_app. lia.
Qed.

Lemma emits_lift {A B} (m : outcome A) (k : A → reads B) v e w :
  m = Ok v → emits (k v) e w → emits (lift m ≫= k) e w.
Proof. intros -> Hk. apply (emits_bind _ _ [] e v w); [apply emits_ret|done]. Qed.

Lemma emits_nil_r {A} (m : reads A) e v : emits m (e ++ []) v → emits m e v.
Proof. by rewrite app_nil_r. Qed.

Lemma emits_integer z : symbol_wf z → emits integer (enc_integer z) z.
Proof.
  intros Hz p s Hs Hl. unfold enc_integer in *. rewrite <-app_assoc in *. simpl in *.
  pose proof (to_text_chars z Hz) as Hch. set (t := Decimal.to_text z) in *.
  assert (starts_char (t ++ nl :: s)) as Hst.
  { destruct t as [|c t]; [done|]. apply Forall_cons in Hch as [[Hc _] _].
    by apply is_cont_ascii. }
  split; [done|]. unfold integer. cbn [text offset].
  rewrite slice_from_ok by done. cbn [mbind outcome_bind].
  assert (find_nl (t ++ nl :: s) = Some (lengthN t)) as ->.
  { clear -Hch. induction t as [|c t IH]; simpl; [done|].
    apply Forall_cons in Hch as [[_ Hc] Hch]. rewrite decide_False by done.
    rewrite IH by done. simpl. f_equal. lia. }
  cbn [ok_or mbind outcome_bind]. rewrite !length_app in Hl. simpl in Hl.
  unfold isize_max, add_checked, checked_add, usize_max in *.
  destruct (N.leb_spec (lengthN p + lengthN t) (2 ^ 64 - 1)); [|lia].
  cbn [or_panic mbind outcome_bind].
  destruct (slice_ok p t (nl :: s)) as [-> _]; [done..|].
  cbn [mbind outcome_bind]. unfold t. rewrite parse_to_text by done. fold t.
  cbn [ok_or mbind outcome_bind].
  destruct (N.leb_spec (lengthN p + lengthN t + 1) (2 ^ 64 - 1)); [|lia].
  cbn [or_panic mbind outcome_bind]. do 3 f_equal. rewrite length_app. simpl. lia.
Qed.

Lemma index_symbol n : index_wf n → symbol_wf (Z.of_N n).
Proof.
  unfold index_wf, symbol_wf, isize_max, Decimal.in_i64, i64_min, i64_max. intros.
  apply andb_true_iff. rewrite !Z.leb_le. lia.
Qed.

Lemma emits_index n : index_wf n → emits read_index (enc_index n) n.
Proof.
  intros Hn. apply emits_nil_r. eapply emits_bind; [by apply emits_integer, index_symbol|].
  intros p s Hs Hl. split; [done|]. unfold lift, index.
  destruct (Z.ltb_spec (Z.of_N n) 0); [lia|]. cbn [mbind outcome_bind].
  by rewrite N2Z.id, N.add_0_r.
Qed.

Lemma emits_optional o : optional_wf o → emits read_optional (enc_optional o) o.
Proof.
  intros Ho. apply emits_nil_r. unfold read_optional.
  destruct o as [n|]; cbn [enc_optional].
  - eapply emits_bind; [by apply emits_integer, index_symbol|].
    intros p s Hs Hl. split; [done|]. unfold lift, optional, index.
    destruct (Z.eqb_spec (Z.of_N n) (-1)); [lia|].
    destruct (Z.ltb_spec (Z.of_N n) 0); [lia|]. simpl. by rewrite N2Z.id, N.add_0_r.
  - eapply emits_bind; [by apply emits_integer|]. intros p s Hs Hl.
    split; [done|]. simpl. by rewrite N.add_0_r.
Qed.

Lemma emits_text t : text_wf t → emits read_string (enc_text t) t.
Proof.
  intros Ht p s Hs Hl.
  assert (index_wf (lengthN t)) as Hn.
  { unfold index_wf, enc_text in *. rewrite !length_app in Hl. lia. }
  assert (starts_char (t ++ s)) as Hts.
  { destruct t as [|c t]; [done|]. by apply valid_starts_char in Ht. }
  unfold enc_text in *. rewrite <-app_assoc in *.
  destruct (emits_index _ Hn p (t ++ s) Hts Hl) as [Hc Hi]. split; [done|].
  unfold read_string. rewrite reads_bind_eq, Hi. cbn [mbind outcome_bind].
  unfold take_field, checked_add. cbn [text offset].
  rewrite !length_app in Hl. unfold isize_max, usize_max in *.
  destruct (N.leb_spec (lengthN p + lengthN (enc_index (lengthN t)) + lengthN t)
              (2 ^ 64 - 1)); [|lia].
  cbn [ok_or mbind outcome_bind].
  destruct (slice_ok (p ++ enc_index (lengthN t)) t s Hts Hs) as [_ Hg].
  rewrite length_app, Nat2N.inj_add, <-app_assoc in Hg. rewrite Hg.
  cbn [ok_or mbind outcome_bind]. do 3 f_equal. rewrite length_app. lia.
Qed.

(** ** Sequences *)

(** Items whose encoding is never empty, as every item of the format is. *)
Definition emits1 {A} (m : reads A) (e : bytes) (v : A) : Prop := emits m e v ∧ e ≠ [].

Lemma enc_integer_ne z : enc_integer z ≠ [].
Proof. unfold enc_integer. by destruct (Decimal.to_text z). Qed.

Lemma enc_integer_app_ne z e : enc_integer z ++ e ≠ [].
Proof. intros [H _]%app_nil. by apply enc_integer_ne in H. Qed.

Lemma enc_optional_app_ne o e : enc_optional o ++ e ≠ [].
Proof. destruct o; apply enc_integer_app_ne. Qed.

#[export] Hint Resolve enc_integer_ne enc_integer_app_ne enc_optional_app_ne : emits.

Lemma concat_length {A} (enc : A → bytes) (l : list A) :
  (∀ x, x ∈ l → enc x ≠ []) → lengthN l ≤ lengthN (concat (map enc l)).
Proof.
  intros Hne. induction l as [|x l IH]; simpl; [done|].
  rewrite length_app. assert (enc x ≠ []) by (apply Hne; left).
  destruct (enc x) eqn:?; [done|]. simpl.
  assert (lengthN l ≤ lengthN (concat (map enc l))) by (apply IH; intros; apply Hne; by right).
  lia.
Qed.

Lemma emits_repeat {A} (item : reads A) (enc : A → bytes) (l : list A) :
  (∀ x, x ∈ l → emits item (enc x) x) →
  emits (repeat_read (length l) item) (concat (map enc l)) l.
Proof.
  induction l as [|x l IH]; intros Hitem; simpl; [apply emits_ret|].
  eapply emits_bind; [apply Hitem; left|]. apply emits_nil_r.
  eapply emits_bind; [apply IH; intros; apply Hitem; by right|]. apply emits_ret.
Qed.

Lemma emits_sequence {A} (item : reads A) (enc : A → bytes) (l : list A) :
  (∀ x, x ∈ l → emits1 item (enc x) x) → emits (sequence item) (enc_list enc l) l.
Proof.
  intros Hitem p s Hs Hl.
  assert (lengthN l ≤ lengthN (concat (map enc l))) as Hlen.
  { apply concat_length. intros x Hx. by apply Hitem. }
  revert p s Hs Hl. unfold enc_list, sequence.
  intros p s Hs Hl.
  assert (emits (n ← read_index; left ← remaining;
                 if left <? n then lift (Err "truncated checked-IR sequence")
                 else repeat_read (N.to_nat n) item)
            (enc_index (lengthN l) ++ concat (map enc l)) l) as He; [|by apply He].
  eapply emits_bind.
  { apply emits_index. unfold index_wf. rewrite !length_app in Hl. lia. }
  intros q r Hr Hq. rewrite reads_bind_eq. unfold remaining, sub_checked. cbn [text offset].
  pose proof Hq as Hq'. rewrite !length_app in Hq'.
  destruct (N.leb_spec (lengthN q) (lengthN (q ++ concat (map enc l) ++ r)));
    [|rewrite !length_app in *; lia].
  cbn [mbind outcome_bind].
  destruct (N.ltb_spec (lengthN (q ++ concat (map enc l) ++ r) - lengthN q) (lengthN l));
    [rewrite !length_app in *; lia|].
  rewrite Nat2N.id. apply emits_repeat; [|done..]. intros x Hx. by apply Hitem.
Qed.

Lemma emits_span sp : span_wf sp → emits span (enc_span sp) sp.
Proof.
  intros [Hle Hw]. unfold span, enc_span. unfold index_wf in Hw.
  eapply emits_bind; [apply emits_index; unfold index_wf; lia|]. apply emits_nil_r.
  eapply emits_bind; [by apply emits_index|].
  destruct (N.ltb_spec (span_end sp) (span_start sp)); [lia|].
  destruct sp. apply emits_ret.
Qed.

Lemma emits_bool v : emits read_falls (enc_bool v) v.
Proof.
  unfold read_falls, enc_bool. apply emits_nil_r. destruct v;
    (eapply emits_bind; [by apply emits_integer|apply emits_ret]).
Qed.

(** Reading optional payloads that the tag does not call for yields the default. *)
Lemma emits_when {A} (c : bool) (m : reads A) e v d :
  emits m e v → (c = false → v = d) →
  emits (if c then m else mret d) (if c then e else []) v.
Proof. intros Hm Hd. destruct c; [done|]. rewrite Hd by done. apply emits_ret. Qed.

Lemma Forall_emits {A} (P : A → Prop) (item : reads A) (enc : A → bytes) l :
  (∀ x, P x → emits1 item (enc x) x) → Forall P l → emits (sequence item) (enc_list enc l) l.
Proof.
  intros Hitem HP. apply emits_sequence. intros x Hx. apply Hitem.
  by eapply Forall_forall in HP.
Qed.

Lemma emits1_index n : index_wf n → emits1 read_index (enc_index n) n.
Proof. split; [by apply emits_index|apply enc_integer_ne]. Qed.

Lemma emits1_optional o : optional_wf o → emits1 read_optional (enc_optional o) o.
Proof. split; [by apply emits_optional|]. destruct o; apply enc_integer_ne. Qed.

Lemma emits1_text t : text_wf t → emits1 read_string (enc_text t) t.
Proof. split; [by apply emits_text|apply enc_integer_app_ne]. Qed.

Lemma emits_indices l : Forall index_wf l → emits (sequence read_index) (enc_list enc_index l) l.
Proof. apply Forall_emits, emits1_index. Qed.

Lemma emits_optionals l :
  Forall optional_wf l → emits (sequence read_optional) (enc_list enc_optional l) l.
Proof. apply Forall_emits, emits1_optional. Qed.

Lemma emits_texts l :
  Forall text_wf l → emits (sequence read_string) (enc_list enc_text l) l.
Proof. apply Forall_emits, emits1_text. Qed.

#[export] Hint Resolve emits_integer emits_index emits_optional emits_text emits_span
  emits_bool emits_indices emits_optionals emits_texts : emits.

(** Emit the fields of a record one after the other. *)
Ltac emits_fields :=
  repeat (first [ apply emits_ret
                | eapply emits_bind; [solve [eauto with emits]|]
                | apply emits_nil_r; eapply emits_bind; [solve [eauto with emits]|] ]).

(** ** Expressions *)

Lemma enc_expr_eq e :
  enc_expr e =
    enc_index (Raw.e_tag e) ++ enc_index (Raw.e_ty e) ++ enc_span (Raw.e_span e) ++
    enc_text (Raw.e_text e) ++ enc_integer (Raw.e_index e) ++ enc_bool (Raw.e_falls e) ++
    enc_list enc_expr (Raw.e_children e) ++ enc_list enc_arm (Raw.e_arms e).
Proof.
  destruct e as [tag ty sp txt idx falls children arms]. simpl. do 7 f_equal.
  unfold enc_list. do 2 f_equal. apply map_ext. by intros [].
Qed.

Lemma enc_expr_ne e : enc_expr e ≠ [].
Proof. rewrite enc_expr_eq. apply enc_integer_app_ne. Qed.

Lemma emits_expression_fuel n fuel depth e :
  expr_wf n e → (n ≤ fuel)%nat → N.of_nat n + depth ≤ 513 →
  emits (expression_fuel fuel depth) (enc_expr e) e.
Proof.
  revert fuel depth e. induction n as [|n IH]; intros fuel depth e He Hf Hd; [done|].
  destruct fuel as [|fuel]; [lia|]. cbn [expression_fuel].
  destruct (N.ltb_spec 512 depth); [lia|].
  destruct He as (Htag & Hty & Hsp & Htxt & Hidx & Hch & Harms).
  assert (∀ x, expr_wf n x → emits1 (expression_fuel fuel (depth + 1)) (enc_expr x) x)
    as Hsub.
  { intros x Hx. split; [|apply enc_expr_ne]. apply IH; [done|lia|lia]. }
  assert (∀ l, Forall (expr_wf n) l →
            emits (sequence (expression_fuel fuel (depth + 1))) (enc_list enc_expr l) l)
    as Hlist by (intros l; by apply Forall_emits).
  assert (emits (sequence (read_arm (expression_fuel fuel (depth + 1))))
            (enc_list enc_arm (Raw.e_arms e)) (Raw.e_arms e)) as Harms'.
  { eapply Forall_emits; [|exact Harms]. intros a (? & ? & ? & Hb).
    split; [|apply enc_optional_app_ne]. unfold read_arm, enc_arm.
    emits_fields. destruct a. apply emits_ret. }
  rewrite enc_expr_eq. emits_fields. destruct e. apply emits_ret.
Qed.

Lemma emits1_expression e : expr_wf 513 e → emits1 (expression 0) (enc_expr e) e.
Proof.
  intros He. split; [|apply enc_expr_ne]. unfold expression.
  apply (emits_expression_fuel 513); [done|lia|lia].
Qed.

Lemma emits_expression e : expr_wf 513 e → emits (expression 0) (enc_expr e) e.
Proof. apply emits1_expression. Qed.

Lemma emits_expressions l :
  Forall (expr_wf 513) l → emits (sequence (expression 0)) (enc_list enc_expr l) l.
Proof. apply Forall_emits, emits1_expression. Qed.

#[export] Hint Resolve emits_expression emits_expressions : emits.

(** ** Types, functions and features *)

Lemma emits1_named_type f : named_type_wf f → emits1 read_named_type (enc_named_type f) f.
Proof.
  destruct f as [name ty]. intros [Hn Ht]. split.
  - unfold read_named_type, enc_named_type. simpl in *. emits_fields.
  - unfold enc_named_type, enc_text. rewrite <-app_assoc. apply enc_integer_app_ne.
Qed.

Lemma emits1_variant v : variant_wf v → emits1 read_variant (enc_variant v) v.
Proof.
  destruct v as [name fields]. intros [Hn Hf]. split.
  - unfold read_variant, enc_variant. simpl in *. emits_fields.
  - unfold enc_variant, enc_text. rewrite <-app_assoc. apply enc_integer_app_ne.
Qed.

Lemma emits_named_types l :
  Forall named_type_wf l → emits (sequence read_named_type) (enc_list enc_named_type l) l.
Proof. apply Forall_emits, emits1_named_type. Qed.

Lemma emits_variants l :
  Forall variant_wf l → emits (sequence read_variant) (enc_list enc_variant l) l.
Proof. apply Forall_emits, emits1_variant. Qed.

#[export] Hint Resolve emits_named_types emits_variants : emits.

Lemma emits1_data d : data_wf d → emits1 read_data (enc_data d) d.
Proof.
  intros (Ht & Hs & Hp & Hp0 & He & He0 & Hf & Hf0 & Hv & Hv0).
  split; [|apply enc_integer_app_ne]. unfold read_data, enc_data. do 2 (emits_fields).
  eapply emits_bind.
  { apply emits_when; [by apply emits_indices|]. intros ?. bool_facts. auto. }
  eapply emits_bind.
  { apply emits_when; [by apply emits_index|]. intros ?. bool_facts. auto. }
  eapply emits_bind.
  { apply emits_when; [by apply emits_named_types|]. intros ?. bool_facts. auto. }
  apply emits_nil_r. eapply emits_bind.
  { apply emits_when; [by apply emits_variants|]. intros ?. bool_facts. auto. }
  destruct d. apply emits_ret.
Qed.

Lemma emits1_function f : function_wf f → emits1 read_function (enc_function f) f.
Proof.
  intros (? & ? & ? & ? & ? & ? & ?). split; [|apply enc_integer_app_ne].
  unfold read_function, enc_function. emits_fields. destruct f. apply emits_ret.
Qed.

Lemma enc_list_ne {A} (enc : A → bytes) l : enc_list enc l ≠ [].
Proof. apply enc_integer_app_ne. Qed.

Lemma emits1_interface i : interface_wf i → emits1 read_interface (enc_interface i) i.
Proof.
  intros Hi. split; [|apply enc_list_ne]. eapply Forall_emits; [|exact Hi].
  intros [params result] [Hp Hr]. split.
  - simpl in *. emits_fields.
  - simpl. intros [H _]%app_nil. by apply enc_list_ne in H.
Qed.

Lemma emits1_witness w : witness_wf w → emits1 read_witness (enc_witness w) w.
Proof.
  destruct w as [[i c] slots]. intros (Hi & Hc & Hs). split; [|apply enc_integer_app_ne].
  unfold read_witness, enc_witness. simpl in *. emits_fields.
Qed.

Lemma emits1_input i : input_wf i → emits1 read_target_input (enc_input i) i.
Proof.
  destruct i as [name value]. intros [Hn Hv]. split.
  - unfold read_target_input, enc_input. simpl in *. emits_fields.
  - unfold enc_input, enc_text. rewrite <-app_assoc. apply enc_integer_app_ne.
Qed.

Lemma enc_span_app_ne sp e : enc_span sp ++ e ≠ [].
Proof. unfold enc_span. rewrite <-app_assoc. apply enc_integer_app_ne. Qed.

Lemma emits1_site s : site_wf s → emits1 read_site (enc_site s) s.
Proof.
  destruct s as [[sp line] column]. intros (Hs & Hl & Hc). split; [|apply enc_span_app_ne].
  unfold read_site, enc_site. simpl in *. emits_fields.
Qed.

Lemma emits_sites l : Forall site_wf l → emits (sequence read_site) (enc_list enc_site l) l.
Proof. apply Forall_emits, emits1_site. Qed.
#[export] Hint Resolve emits_sites : emits.

Lemma emits1_group g : group_wf g → emits1 read_group (enc_group g) g.
Proof.
  destruct g as [[f file] sites]. intros (Hf & Hp & Hs). split; [|apply enc_integer_app_ne].
  unfold read_group, enc_group. simpl in *. emits_fields.
Qed.

(** ** The feature loop *)

(** At the end of the text, [m] consumes exactly [e] and yields [v]. *)
Definition finishes {A} (m : reads A) (e : bytes) (v : A) : Prop :=
  ∀ p, lengthN (p ++ e) ≤ isize_max →
    starts_char e ∧
    m (mkReader (p ++ e) (lengthN p)) = Ok (v, mkReader (p ++ e) (lengthN (p ++ e))).

Lemma finishes_bind {A B} (m : reads A) (k : A → reads B) e1 e2 v w :
  emits m e1 v → finishes (k v) e2 w → finishes (m ≫= k) (e1 ++ e2) w.
Proof.
  intros He1 He2 p Hl.
  destruct (He2 (p ++ e1)) as [Hc2 Hr2]; [by rewrite <-app_assoc|].
  destruct (He1 p e2 Hc2 Hl) as [Hc1 Hr1]. split; [done|].
  rewrite reads_bind_eq, Hr1. cbn [mbind outcome_bind].
  rewrite <-app_assoc, (length_app p e1), Nat2N.inj_add in Hr2. exact Hr2.
Qed.

Lemma finishes_then {A B} (m : reads A) (k : A → reads B) e v w :
  finishes m e v → (∀ r, k v r = Ok (w, r)) → finishes (m ≫= k) e w.
Proof.
  intros He Hk p Hl. destruct (He p Hl) as [Hc Hr]. split; [done|].
  rewrite reads_bind_eq, Hr. cbn [mbind outcome_bind]. apply Hk.
Qed.

Abbreviation ends functions fuel t e t' := (finishes (read_features fuel functions t) e t').

Lemma read_features_more fuel functions t r x :
  read_features fuel functions t r = Ok x → read_features (S fuel) functions t r = Ok x.
Proof.
  revert t r. induction fuel as [|fuel IH]; intros t r; cbn [read_features];
    destruct (offset r =? lengthN (text r)); try done.
  rewrite !reads_bind_eq. intros ([t' r'] & -> & Hr)%bind_Ok_inv.
  cbn [mbind outcome_bind]. by apply IH.
Qed.

Lemma ends_nil functions fuel t : ends functions fuel t [] t.
Proof.
  intros p Hl. split; [done|]. rewrite app_nil_r.
  destruct fuel; cbn [read_features text offset]; by rewrite N.eqb_refl.
Qed.

Lemma ends_nil_r functions fuel t e t' :
  ends functions fuel t (e ++ []) t' → ends functions fuel t e t'.
Proof. by rewrite app_nil_r. Qed.

Lemma ends_cons functions fuel t t1 t2 e1 e2 :
  emits1 (read_feature functions t) e1 t1 → ends functions fuel t1 e2 t2 →
  ends functions (S fuel) t (e1 ++ e2) t2.
Proof.
  intros [He1 Hne] He2 p Hl.
  destruct (finishes_bind _ (read_features fuel functions) _ _ _ _ He1 He2 p Hl) as [Hc Hr].
  split; [done|]. cbn [read_features text offset].
  destruct (N.eqb_spec (lengthN p) (lengthN (p ++ e1 ++ e2))) as [Heq|_]; [|done].
  destruct e1; [done|]. rewrite !length_app in Heq. simpl in Heq. lia.
Qed.

Lemma ends_opt functions fuel (c : bool) t t1 t2 e1 e2 :
  (c = false → emits1 (read_feature functions t) e1 t1) → (c = true → t1 = t) →
  ends functions fuel t1 e2 t2 →
  ends functions (S fuel) t ((if c then [] else e1) ++ e2) t2.
Proof.
  intros He1 Ht He2. destruct c; [|eapply ends_cons; eauto].
  rewrite Ht in He2 by done. intros p Hl. destruct (He2 p Hl) as [? ?].
  split; [done|]. by apply read_features_more.
Qed.

Lemma emits_feature functions tag ifs ws names inputs locs seen t' payload :
  1 ≤ tag ≤ 4 → get seen (tag - 1) = Some false →
  emits (read_section functions tag
           (mkTail ifs ws names inputs locs (<[N.to_nat (tag - 1) := true]> seen))) payload t' →
  emits1 (read_feature functions (mkTail ifs ws names inputs locs seen))
    (enc_index tag ++ payload) t'.
Proof.
  intros Htag Hget Hsec. split; [|apply enc_integer_app_ne]. unfold read_feature.
  eapply emits_bind; [apply emits_index; unfold index_wf, isize_max; lia|].
  replace ((1 <=? tag) && (tag <=? 4)) with true
    by (symmetry; apply andb_true_iff; rewrite !N.leb_le; lia).
  cbn [t_seen t_interfaces t_witnesses t_test_names t_target_inputs t_locations].
  eapply emits_lift; [unfold index_or_panic; by rewrite Hget|].
  eapply emits_lift; [|exact Hsec].
  apply set_or_panic_Ok. split; [by eapply get_Some_lt|done].
Qed.

#[export] Hint Resolve emits1_interface emits1_witness emits1_input emits1_group emits1_data
  emits1_function : emits.
#[export] Hint Extern 2 (emits (sequence _) (enc_list _ ?l) _) =>
  match goal with
  | H : Forall ?P l |- _ =>
      eapply (Forall_emits P); [|exact H]; solve [eauto with emits]
  end : emits.

(** A target table accepted once is accepted again. *)
Lemma check_target_names_ok seen inputs :
  NoDup inputs.*1 → (∀ x, x ∈ inputs.*1 → x ∉ seen) →
  Forall (λ i, target_property i.1 = true) inputs →
  check_target_names seen inputs = Ok tt.
Proof.
  revert seen. induction inputs as [|[name value] inputs IH]; intros seen Hnd Hfresh Hall;
    [done|].
  cbn [fmap list_fmap check_target_names fst] in *. apply NoDup_cons in Hnd as [Hn Hnd].
  apply Forall_cons in Hall as [Hname Hall]. simpl in Hname. rewrite Hname.
  rewrite bool_decide_eq_false_2 by (apply Hfresh; left). simpl. apply IH; [done| |done].
  intros x Hx [->|Hs]%elem_of_cons; [done|]. eapply Hfresh; [by right|done].
Qed.

Definition program_tail (p : Raw.Program) (groups : list Group) : Tail :=
  mkTail (Raw.interfaces p) (Raw.witnesses p) (Raw.test_names p) (Raw.target_inputs p)
    (Raw.source_locations p)
    [negb (is_nil (Raw.interfaces p) && is_nil (Raw.witnesses p));
     negb (is_nil (Raw.test_names p)); negb (is_nil (Raw.target_inputs p));
     negb (is_nil groups)].

Lemma is_nil_true {A} (l : list A) : is_nil l = true → l = [].
Proof. by destruct l. Qed.

Lemma ends_features p groups :
  features_wf (Raw.functions p) (Raw.interfaces p) (Raw.witnesses p) (Raw.test_names p)
    (Raw.target_inputs p) (Raw.source_locations p) →
  groups_of p groups →
  ends (Raw.functions p) 5 empty_tail (enc_features p groups) (program_tail p groups).
Proof.
  intros (Hi & Hw & Hn & Hin & Hnd & Hok & Hpaths & _) (Hg & Hgnil & Hins).
  unfold enc_features, program_tail, empty_tail.
  set (fs := Raw.functions p) in *.
  set (c1 := is_nil (Raw.interfaces p) && is_nil (Raw.witnesses p)).
  set (c2 := is_nil (Raw.test_names p)). set (c3 := is_nil (Raw.target_inputs p)).
  set (c4 := is_nil groups).
  eapply (ends_opt _ _ _ _ (mkTail (Raw.interfaces p) (Raw.witnesses p) [] []
            (C.mkSourceMap [] ∅) [negb c1; false; false; false])).
  { intros Hc. rewrite Hc. apply emits_feature; [lia|done|].
    unfold read_section. simpl. emits_fields. }
  { intros Hc. rewrite Hc. by apply andb_true_iff in Hc as [->%is_nil_true ->%is_nil_true]. }
  eapply (ends_opt _ _ _ _ (mkTail (Raw.interfaces p) (Raw.witnesses p) (Raw.test_names p) []
            (C.mkSourceMap [] ∅) [negb c1; negb c2; false; false])).
  { intros Hc. rewrite Hc. apply emits_feature; [lia|done|].
    unfold read_section. simpl. emits_fields. }
  { intros Hc. rewrite Hc. by apply is_nil_true in Hc as ->. }
  eapply (ends_opt _ _ _ _ (mkTail (Raw.interfaces p) (Raw.witnesses p) (Raw.test_names p)
            (Raw.target_inputs p) (C.mkSourceMap [] ∅) [negb c1; negb c2; negb c3; false])).
  { intros Hc. rewrite Hc. apply emits_feature; [lia|done|].
    unfold read_section. simpl. apply emits_nil_r.
    eapply emits_bind; [solve [eauto with emits]|].
    eapply emits_lift; [|apply emits_ret].
    apply check_target_names_ok; [done|by intros ? ? ?%elem_of_nil|done]. }
  { intros Hc. rewrite Hc. by apply is_nil_true in Hc as ->. }
  apply ends_nil_r.
  eapply ends_opt; [| |apply ends_nil].
  { intros Hc. rewrite Hc. apply emits_feature; [lia|done|].
    unfold read_section. simpl.
    eapply emits_bind; [solve [eauto with emits]|]. apply emits_nil_r.
    eapply emits_bind; [solve [eauto with emits]|].
    eapply emits_lift; [exact Hins|].
    replace (Raw.source_locations p) with
      (C.mkSourceMap (C.paths (Raw.source_locations p)) (C.sites (Raw.source_locations p)))
      at 3 by by destruct (Raw.source_locations p).
    apply emits_ret. }
  { intros Hc. rewrite Hc. apply is_nil_true in Hc as ->. simpl in Hins. injection Hins as Hsites.
    specialize (Hgnil eq_refl). destruct (Raw.source_locations p). simpl in *. by subst. }
Qed.

(** ** The stream *)

Lemma finishes_program p groups :
  program_wf p → groups_of p groups →
  finishes read_program
    (enc_list enc_data (Raw.data p) ++ enc_list enc_function (Raw.functions p) ++
     enc_optional (Raw.entry p) ++ enc_list enc_index (Raw.tests p) ++
     enc_list enc_index (Raw.exports p) ++ enc_features p groups) p.
Proof.
  intros (Hd & Hf & He & Ht & Hx & Hnames & Hfeat) Hg. unfold read_program.
  do 5 (eapply finishes_bind; [solve [eauto with emits]|]).
  eapply finishes_then; [by apply ends_features|]. intros r. cbn [program_tail t_test_names].
  replace (negb (length (Raw.test_names p) =? 0)%nat &&
           negb (length (Raw.test_names p) =? length (Raw.tests p))%nat) with false.
  { by destruct p. }
  destruct Hnames as [-> | ->]; [done|]. by rewrite Nat.eqb_refl, andb_false_r.
Qed.

Lemma read_stream_encode p groups :
  program_wf p → groups_of p groups → lengthN (encode p groups) ≤ isize_max →
  read_stream (encode p groups) = Ok p.
Proof.
  intros Hp Hg Hl. unfold read_stream, encode in *.
  assert (∀ e, strip_prefix header (header ++ e) = Some e) as ->
    by (intros e; by apply strip_prefix_Some).
  cbn [ok_or mbind outcome_bind]. rewrite length_app in Hl.
  destruct (finishes_program p groups Hp Hg []) as [_ Hr]; [simpl; lia|].
  cbn [app length] in Hr. change (N.of_nat 0) with 0 in Hr. by rewrite Hr.
Qed.
