(* ===== verification/Layout.v ===== *)
(** The by-value layout check of [compiler/src/native_input.rs] ([layout] and its driver
    loop in [decode]): a depth-first search over the data table with the usual three
    colours. It terminates and never indexes out of range, it accepts only tables in which
    no value contains itself by value, and it reports a recursive layout only for tables
    in which one does. *)

From S2P Require Import Prelude Text Model.

(** ** The check *)

Definition recursive_layout : string := "recursive by-value checked-IR layout".
Definition refined_layout : string :=
  "native refined layout needs Int, Bool, Float, Text, Bytes, a record/tuple, an enum or a List".

(** Marks of the search: 0 unvisited, 1 on the current path, 2 finished. *)
Abbreviation marks := (list N).

(** [for ty in tys { layout(program, ty, state)?; }] *)
Fixpoint each (visit : Ty.Ty → marks → outcome marks) (tys : list Ty.Ty) (state : marks)
    : outcome marks :=
  match tys with
  | [] => Ok state
  | ty :: tys => state ← visit ty state; each visit tys state
  end.

(** The bases a refined type may have. *)
Definition check_refined (types : list C.Data) (base : Ty.Ty) : outcome () :=
  inline_data ← (match base with
                 | Ty.Data base_id =>
                     d ← index_or_panic types base_id;
                     Ok (match C.d_kind d with C.Record _ | C.Enum _ => true | _ => false end)
                 | _ => Ok false
                 end);
  let scalar := match base with
                | Ty.Int | Ty.Bool | Ty.Float | Ty.Text | Ty.Bytes | Ty.List _ => true
                | _ => false
                end in
  fail_if (negb scalar && negb inline_data) refined_layout.

Fixpoint layout (fuel : nat) (types : list C.Data) (ty : Ty.Ty) (state : marks)
    : outcome marks :=
  match ty with
  | Ty.Data id =>
      mark ← index_or_panic state id;
      if mark =? 2 then Ok state
      else if mark =? 1 then Err recursive_layout
      else match fuel with
           | O => Stuck
           | S fuel =>
               state ← set_or_panic state id 1;
               d ← index_or_panic types id;
               state ← (match C.d_kind d with
                        | C.Task _ | C.Frame _ => Ok state
                        | C.Record fields => each (layout fuel types) fields.*2 state
                        | C.Enum variants =>
                            each (λ ty, layout fuel types ty)
                              (concat variants.*2) state
                        | C.Refined base =>
                            check_refined types base ;; layout fuel types base state
                        end);
               set_or_panic state id 2
           end
  | _ => Ok state
  end.

(** The types a frame mentions are checked too, though the frame itself is a pointer. *)
Definition frame_types (d : C.Data) : list Ty.Ty :=
  match C.d_kind d with C.Frame fields => fields.*2 | _ => [] end.

(** The loop over [0..program.types.len()]; one mark per type bounds the depth. *)
Fixpoint check_from (types : list C.Data) (id : N) (rest : list C.Data) (state : marks)
    : outcome marks :=
  match rest with
  | [] => Ok state
  | d :: rest =>
      state ← layout (length types) types (Ty.Data id) state;
      state ← each (layout (length types) types) (frame_types d) state;
      check_from types (id + 1) rest state
  end.

Definition check_layouts (types : list C.Data) : outcome marks :=
  check_from types 0 types (replicate (length types) 0).

(** ** Specification *)

(** The types stored inside a value of this kind. Tasks and frames are references. *)
Definition inline_types (k : C.DataKind) : list Ty.Ty :=
  match k with
  | C.Record fields => fields.*2
  | C.Enum variants => concat variants.*2
  | C.Refined base => [base]
  | C.Task _ | C.Frame _ => []
  end.

Definition contains (types : list C.Data) (a c : N) : Prop :=
  ∃ d, get types a = Some d ∧ Ty.Data c ∈ inline_types (C.d_kind d).

(** A data type whose values have a finite by-value layout. *)
Definition finite_data (types : list C.Data) (id : N) : Prop :=
  Acc (λ c a, contains types a c) id.

Definition finite_type (types : list C.Data) (ty : Ty.Ty) : Prop :=
  match ty with Ty.Data id => finite_data types id | _ => True end.

(** References into the data table are in range. *)
Definition data_ref_ok (types : list C.Data) (ty : Ty.Ty) : Prop :=
  match ty with Ty.Data id => id < lengthN types | _ => True end.

Definition data_refs_ok (types : list C.Data) : Prop :=
  Forall (λ d, Forall (data_ref_ok types) (inline_types (C.d_kind d)) ∧
               Forall (data_ref_ok types) (frame_types d)) types.

(** ** Marks *)

(** Between entering and leaving a call only unvisited marks change, to finished. *)
Definition evolves : marks → marks → Prop := Forall2 (λ a c, c = a ∨ (a = 0 ∧ c = 2)).

Definition white (state : marks) : nat := length (filter (λ m, m = 0) state).

Definition marks_ok (types : list C.Data) (state : marks) : Prop :=
  length state = length types ∧ Forall (λ m, m ≤ 2) state ∧
  ∀ id, get state id = Some 2 → finite_data types id.

Definition on_path (state : marks) (id : N) : Prop := get state id = Some 1.

Section marks.
Context (types : list C.Data).

Lemma evolves_refl s : evolves s s.
Proof. induction s; constructor; auto. Qed.

Lemma evolves_trans s1 s2 s3 : evolves s1 s2 → evolves s2 s3 → evolves s1 s3.
Proof.
  intros H. revert s3. induction H as [|a c s1 s2 Hac _ IH]; intros s3 H3;
    inversion H3 as [|? d ? ? Hcd]; subst; constructor; [|by apply IH].
  destruct Hac as [->|[-> ->]], Hcd as [->|[? ->]]; auto.
Qed.

Lemma evolves_white s s' : evolves s s' → (white s' ≤ white s)%nat.
Proof.
  induction 1 as [|a c s s' Hac _ IH]; [done|]. unfold white in *. rewrite !filter_cons.
  destruct Hac as [->|[-> ->]]; [case_decide; simpl; lia|]. simpl. lia.
Qed.

Lemma evolves_on_path s s' id : evolves s s' → on_path s' id → on_path s id.
Proof.
  intros He. unfold on_path. rewrite !get_Some. intros H.
  destruct (Forall2_lookup_r _ _ _ _ _ He H) as (a & Ha & [<-|[-> ?]]); done.
Qed.

Lemma evolves_finished s s' id : evolves s s' → get s id = Some 2 → get s' id = Some 2.
Proof.
  intros He. rewrite !get_Some. intros H.
  destruct (Forall2_lookup_l _ _ _ _ _ He H) as (a & Ha & [->|[? ?]]); done.
Qed.

Lemma white_visit s id :
  get s id = Some 0 → (white (<[N.to_nat id := 1%N]> s) < white s)%nat.
Proof.
  rewrite get_Some. generalize (N.to_nat id). clear id. unfold white.
  induction s as [|m s IH]; intros [|i]; simpl; [done..| |].
  - intros [= ->]. rewrite !filter_cons. simpl. lia.
  - intros Hi. specialize (IH i Hi). rewrite !filter_cons. case_decide; simpl; lia.
Qed.

(** Leaving the node that was entered as [id]. *)
Lemma evolves_leave s s' id :
  get s id = Some 0 → evolves (<[N.to_nat id := 1]> s) s' →
  evolves s (<[N.to_nat id := 2]> s').
Proof.
  rewrite get_Some. intros Hid He. apply Forall2_lookup. intros i.
  assert (length s' = length s) as Hlen.
  { rewrite <-(Forall2_length _ _ _ He). apply length_insert. }
  apply lookup_lt_Some in Hid as Hlt.
  rewrite list_lookup_insert. case_decide as Hc.
  - destruct Hc as [<- _]. rewrite Hid. constructor. auto.
  - assert (N.to_nat id ≠ i ∨ (length s' ≤ i)%nat) as [Hne|Hge]
      by (destruct (decide (N.to_nat id = i)); [right|left]; [|done]; subst; lia).
    + apply (Forall2_lookup _ _ _) with (i := i) in He.
      by rewrite list_lookup_insert_ne in He.
    + rewrite !lookup_ge_None_2 by lia. constructor.
Qed.

Lemma marks_visit s id :
  marks_ok types s → marks_ok types (<[N.to_nat id := 1]> s).
Proof.
  intros (Hl & Hle & Hf). split_and!.
  - by rewrite length_insert.
  - by apply Forall_insert.
  - intros c. rewrite get_Some, list_lookup_insert. case_decide; [done|].
    rewrite <-get_Some. apply Hf.
Qed.

Lemma marks_leave s id :
  marks_ok types s → finite_data types id → marks_ok types (<[N.to_nat id := 2]> s).
Proof.
  intros (Hl & Hle & Hf) Hid. split_and!.
  - by rewrite length_insert.
  - by apply Forall_insert.
  - intros c. rewrite get_Some, list_lookup_insert. case_decide as Hc.
    + intros _. by replace c with id by lia.
    + rewrite <-get_Some. apply Hf.
Qed.
End marks.

(** ** Soundness and termination *)

Definition visit_post (types : list C.Data) (s : marks) (P : Prop) (s' : marks) : Prop :=
  evolves s s' ∧ marks_ok types s' ∧ P.

Lemma each_sat types visit tys s n :
  (∀ ty s, ty ∈ tys → marks_ok types s → (white s ≤ n)%nat →
     outcome_sat (visit_post types s (finite_type types ty)) (visit ty s)) →
  marks_ok types s → (white s ≤ n)%nat →
  outcome_sat (visit_post types s (Forall (finite_type types) tys)) (each visit tys s).
Proof.
  revert s. induction tys as [|ty tys IH]; intros s Hvisit Hs Hn; simpl.
  { split_and!; [apply evolves_refl|done|constructor]. }
  eapply sat_bind; [apply Hvisit; [left|done..]|]. intros s1 _ (He1 & Hs1 & Hty).
  eapply sat_mono; [apply IH|].
  - intros. apply Hvisit; [by right|done..].
  - done.
  - apply evolves_white in He1. lia.
  - intros s2 _ (He2 & Hs2 & Htys). split_and!; [by eapply evolves_trans|done|by constructor].
Qed.

Lemma check_refined_sat types base :
  data_ref_ok types base → outcome_sat (λ _, True) (check_refined types base).
Proof.
  intros Hb. unfold check_refined. eapply sat_bind with (P := λ _, True).
  - destruct base; simpl; try done. eapply sat_bind; [apply index_or_panic_sat with (P := λ _, True); done|].
    done.
  - intros inl _ _. by sat_step.
Qed.

(** One mark per type is enough fuel, no index is out of range, and an accepted type has a
    finite by-value layout. *)
Lemma layout_sat fuel types ty s :
  data_refs_ok types → data_ref_ok types ty → marks_ok types s → (white s ≤ fuel)%nat →
  outcome_sat (visit_post types s (finite_type types ty)) (layout fuel types ty s).
Proof.
  intros Hrefs. revert ty s. induction fuel as [|fuel IH]; intros ty s Hty Hs Hw;
    pose proof Hs as (Hlen & Hle & Hfin);
    destruct ty as [| | | | | | | | |id|]; cbn [layout]; try (by split_and!; [apply evolves_refl|..]);
    simpl in Hty;
    (eapply sat_bind; [apply (index_or_panic_sat (λ m, get s id = Some m)); [lia|done]|]);
    intros m _ Hm;
    (destruct (N.eqb_spec m 2) as [->|Hm2];
       [by split_and!; [apply evolves_refl|..|by apply Hfin]|]);
    (destruct (N.eqb_spec m 1) as [->|Hm1]; [exact I|]);
    pose proof (get_Forall _ _ _ _ Hle Hm) as Hm3; simpl in Hm3;
    assert (m = 0) as -> by lia; apply white_visit in Hm as Hwhite; [lia|].
  eapply sat_bind;
    [apply (set_or_panic_sat (λ s1, s1 = <[N.to_nat id := 1]> s)); [lia|done]|].
  intros s1 _ ->.
  eapply sat_bind; [by apply (index_or_panic_sat (λ d, get types id = Some d))|].
  intros d _ Hd. cbv beta in Hd.
  pose proof (get_Forall _ _ _ _ Hrefs Hd) as [Hin _].
  eapply sat_bind with (P := visit_post types (<[N.to_nat id := 1]> s)
    (Forall (finite_type types) (inline_types (C.d_kind d)))).
  - apply marks_visit with (id := id) in Hs as Hs1.
    assert (∀ tys, Forall (data_ref_ok types) tys →
      outcome_sat (visit_post types (<[N.to_nat id:=1]> s) (Forall (finite_type types) tys))
        (each (layout fuel types) tys (<[N.to_nat id:=1]> s))) as Heach.
    { intros tys Htys. apply each_sat with (n := fuel); [|done|lia].
      intros ty s2 Hin2 ? ?. apply IH; [|done..]. by eapply Forall_forall in Htys. }
    destruct (C.d_kind d) as [fields|variants|base|res|fields]; simpl in Hin |- *;
      [by apply Heach|by apply Heach| |by split_and!; [apply evolves_refl|..]..].
    apply Forall_cons in Hin as [Hb _].
    eapply sat_bind; [by apply check_refined_sat|]. intros _ _ _.
    eapply sat_mono; [apply IH; [done..|lia]|]. intros s2 _ (? & ? & ?).
    split_and!; [done..|]. by constructor.
  - intros s2 _ (He & Hs2 & Hch).
    assert (finite_data types id) as Hid.
    { constructor. intros c (d' & Hd' & Hc). rewrite Hd in Hd'. injection Hd' as <-.
      by apply (proj1 (Forall_forall _ _) Hch (Ty.Data c)). }
    apply set_or_panic_sat.
    { apply Forall2_length in He. rewrite length_insert in He. lia. }
    split_and!; [by eapply evolves_leave|by apply marks_leave|done].
Qed.

(** ** Completeness: only cycles are refused *)

Definition reaches (types : list C.Data) : N → N → Prop := rtc (contains types).

Lemma finite_acyclic (types : list C.Data) (id c : N) :
  finite_data types id → contains types id c → ¬ reaches types c id.
Proof.
  intros Hf. revert c. induction Hf as [id _ IH]. intros c Hc Hr.
  inversion Hr as [|? d ? Hd Hr']; subst; [by apply (IH id Hc id)|].
  apply (IH c Hc d Hd). eapply rtc_r; [exact Hr'|exact Hc].
Qed.

(** No type on the current path can be reached from [ty]. *)
Definition avoids (types : list C.Data) (s : marks) (ty : Ty.Ty) : Prop :=
  match ty with
  | Ty.Data id => ∀ g, on_path s g → ¬ reaches types id g
  | _ => True
  end.

Definition no_cycle {A} (m : outcome A) : Prop := m ≠ Err recursive_layout.

Lemma no_cycle_bind {A B} (m : outcome A) (k : A → outcome B) :
  no_cycle m → (∀ v, m = Ok v → no_cycle (k v)) → no_cycle (m ≫= k).
Proof.
  unfold no_cycle. destruct m; simpl; try done; [intros _ H; by apply H|].
  intros H _ [= ->]. by apply H.
Qed.

Lemma each_no_cycle (types : list C.Data) visit tys s :
  (∀ ty s', ty ∈ tys → evolves s s' → marks_ok types s' →
     no_cycle (visit ty s') ∧
     outcome_sat (visit_post types s' (finite_type types ty)) (visit ty s')) →
  marks_ok types s → no_cycle (each visit tys s).
Proof.
  revert s. induction tys as [|ty tys IH]; intros s Hv Hs; simpl; [done|].
  destruct (Hv ty s) as [Hnc Hsat]; [left|apply evolves_refl|done|].
  apply no_cycle_bind; [done|]. intros s1 Hs1. rewrite Hs1 in Hsat.
  destruct Hsat as (He1 & Hok1 & _). apply IH; [|done].
  intros ty' s' ? ? ?. apply Hv; [by right|by eapply evolves_trans|done].
Qed.

Lemma check_refined_no_cycle (types : list C.Data) base : no_cycle (check_refined types base).
Proof.
  unfold check_refined. destruct base; simpl; try done.
  unfold index_or_panic. destruct (get types id) as [d|]; simpl; [|done].
  by destruct (C.d_kind d).
Qed.

Section layout_no_cycle.
Context (types : list C.Data) (Hrefs : data_refs_ok types).

(** What the recursive calls below a node may assume. *)
Let visits (fuel : nat) : Prop := ∀ ty s,
  data_ref_ok types ty → marks_ok types s → (white s ≤ fuel)%nat →
  finite_type types ty → avoids types s ty → no_cycle (layout fuel types ty s).

(** The types inside the node [id] being entered do not lead back to the path. *)
Lemma child_avoids id d s s' ty :
  get types id = Some d → ty ∈ inline_types (C.d_kind d) →
  finite_data types id → avoids types s (Ty.Data id) →
  evolves (<[N.to_nat id := 1]> s) s' →
  finite_type types ty ∧ avoids types s' ty.
Proof.
  intros Hd Hty Hfin Hav He.
  destruct ty as [| | | | | | | | |c|]; try (split; exact I).
  assert (contains types id c) as Hc by (exists d; split; assumption).
  split; [by apply (Acc_inv Hfin)|]. intros g Hg Hr.
  apply (evolves_on_path _ _ _ He) in Hg. unfold on_path in Hg.
  rewrite get_Some, list_lookup_insert in Hg. case_decide as Heq.
  - replace g with id in Hr by lia. by eapply finite_acyclic.
  - apply (Hav g); [by apply get_Some|]. by eapply rtc_l.
Qed.

Lemma node_no_cycle fuel id s :
  visits fuel → get s id = Some 0 → marks_ok types s → (white s ≤ S fuel)%nat →
  finite_data types id → avoids types s (Ty.Data id) →
  no_cycle (layout (S fuel) types (Ty.Data id) s).
Proof.
  intros IH Hm Hs Hw Hfin Hav. cbn [layout]. unfold index_or_panic.
  rewrite Hm. cbn [or_panic mbind outcome_bind N.eqb].
  apply white_visit in Hm as Hwhite. apply marks_visit with (id := id) in Hs as Hs1.
  rewrite (proj2 (set_or_panic_Ok s id 1 _) (conj (get_Some_lt _ _ _ Hm) eq_refl)).
  cbn [mbind outcome_bind].
  destruct (get types id) as [d|] eqn:Hd; simpl; [|done].
  pose proof (get_Forall _ _ _ _ Hrefs Hd) as [Hin _].
  assert (∀ ty s', ty ∈ inline_types (C.d_kind d) → evolves (<[N.to_nat id := 1]> s) s' →
    marks_ok types s' →
    no_cycle (layout fuel types ty s') ∧
    outcome_sat (visit_post types s' (finite_type types ty)) (layout fuel types ty s'))
    as Hchild.
  { intros ty s' Hty He Hs'.
    assert (data_ref_ok types ty) by by eapply Forall_forall in Hin.
    assert (white s' ≤ fuel)%nat by (apply evolves_white in He; lia).
    destruct (child_avoids id d s s' ty) as [? ?]; [done..|].
    split; [by apply IH|by apply layout_sat]. }
  apply no_cycle_bind.
  - destruct (C.d_kind d) as [fields|variants|base|res|fields]; simpl in Hchild |- *;
      try done; [by eapply each_no_cycle..|].
    apply no_cycle_bind; [apply check_refined_no_cycle|]. intros _ _.
    apply Hchild; [left|apply evolves_refl|done].
  - intros s2 _. unfold set_or_panic. by destruct (id <? lengthN s2).
Qed.

Lemma layout_no_cycle fuel : visits fuel.
Proof.
  induction fuel as [|fuel IH]; intros ty s Hty Hs Hw Hfin Hav;
    destruct ty as [| | | | | | | | |id|]; try (intros H; discriminate H);
    pose proof Hs as (Hlen & Hle & _); simpl in Hty;
    (destruct (get_lt s id) as [m Hm]; [lia|]);
    pose proof (get_Forall _ _ _ _ Hle Hm) as Hm3; simpl in Hm3;
    (assert (m ≠ 1) by (intros ->; apply (Hav id Hm), rtc_refl));
    (destruct (decide (m = 2)) as [->|];
     [cbn [layout]; unfold index_or_panic; by rewrite Hm|]);
    assert (m = 0) as -> by lia.
  - apply white_visit in Hm. lia.
  - by apply node_no_cycle.
Qed.
End layout_no_cycle.

(** ** The driver loop *)

Lemma get_replicate_0 n id : get (replicate n 0) id = Some 2 → False.
Proof. rewrite get_Some. intros [? _]%lookup_replicate. done. Qed.

Lemma marks_ok_start types : marks_ok types (replicate (length types) 0).
Proof.
  split_and!.
  - apply length_replicate.
  - by apply Forall_replicate.
  - by intros id ?%get_replicate_0.
Qed.

Lemma white_le (types : list C.Data) s : marks_ok types s → (white s ≤ length types)%nat.
Proof. intros (<- & _). apply length_filter. Qed.

Lemma check_from_sat types before rest s :
  data_refs_ok types → types = before ++ rest → marks_ok types s →
  outcome_sat
    (visit_post types s (∀ id, lengthN before ≤ id → id < lengthN types → finite_data types id))
    (check_from types (lengthN before) rest s).
Proof.
  intros Hrefs. revert before s. induction rest as [|d rest IH]; intros before s Heq Hs; simpl.
  { split_and!; [apply evolves_refl|done|]. intros id.
    rewrite Heq, length_app. simpl. lia. }
  assert (lengthN before < lengthN types) as Hid.
  { rewrite Heq, length_app. simpl. lia. }
  eapply sat_bind; [apply layout_sat; [done|done|done|by apply white_le]|].
  intros s1 _ (He1 & Hs1 & Hfin1).
  eapply sat_bind.
  { apply each_sat with (types := types) (n := length types); [|done|by apply white_le].
    intros ty s' Hty Hs' Hw. apply layout_sat; [done| |done..].
    assert (d ∈ types) as Hd by (rewrite Heq, elem_of_app; right; left).
    eapply Forall_forall in Hrefs as [_ Hf]; [|exact Hd]. by eapply Forall_forall in Hf. }
  intros s2 _ (He2 & Hs2 & _).
  replace (lengthN before + 1) with (lengthN (before ++ [d])) by (rewrite length_app; simpl; lia).
  eapply sat_mono; [apply IH; [by rewrite <-app_assoc|done]|].
  intros s3 _ (He3 & Hs3 & Hfin3). split_and!; [|done|].
  - eapply evolves_trans; [exact He1|]. by eapply evolves_trans.
  - intros id H1 H2. rewrite length_app in Hfin3. simpl in Hfin3.
    destruct (decide (id = lengthN before)) as [->|]; [done|]. apply Hfin3; lia.
Qed.

Lemma check_layouts_sat types :
  data_refs_ok types →
  outcome_sat (λ _, ∀ id, id < lengthN types → finite_data types id) (check_layouts types).
Proof.
  intros Hrefs. eapply sat_mono; [apply (check_from_sat types []); [done..|apply marks_ok_start]|].
  intros s _ (_ & _ & Hfin) id Hid. apply Hfin; [simpl; lia|done].
Qed.

(** The driver starts every search with an empty path. *)
Definition no_path (s : marks) : Prop := ∀ id, ¬ on_path s id.

Lemma no_path_evolves s s' : no_path s → evolves s s' → no_path s'.
Proof. intros Hs He id Hid. by apply (Hs id), (evolves_on_path s s'). Qed.

Lemma no_path_avoids types s ty : no_path s → avoids types s ty.
Proof. intros Hs. destruct ty; try done. intros g Hg. by apply Hs in Hg. Qed.

Lemma all_finite types ty :
  (∀ id, id < lengthN types → finite_data types id) → data_ref_ok types ty →
  finite_type types ty.
Proof. intros Hfin. destruct ty; try (intros _; exact I). apply Hfin. Qed.

Lemma check_from_no_cycle types before rest s :
  data_refs_ok types → types = before ++ rest → marks_ok types s → no_path s →
  (∀ id, id < lengthN types → finite_data types id) →
  no_cycle (check_from types (lengthN before) rest s).
Proof.
  intros Hrefs. revert before s.
  induction rest as [|d rest IH]; intros before s Heq Hs Hp Hfin; simpl; [done|].
  assert (lengthN before < lengthN types) as Hid by (rewrite Heq, length_app; simpl; lia).
  assert (∀ ty s, data_ref_ok types ty → marks_ok types s → no_path s →
    no_cycle (layout (length types) types ty s) ∧
    outcome_sat (visit_post types s (finite_type types ty)) (layout (length types) types ty s))
    as Hvisit.
  { intros ty s' Hty Hs' Hp'. split.
    - apply layout_no_cycle; try assumption; [by apply white_le| |by apply no_path_avoids].
      by apply all_finite.
    - apply layout_sat; try assumption. by apply white_le. }
  destruct (Hvisit (Ty.Data (lengthN before)) s) as [Hnc Hsat]; try assumption.
  apply no_cycle_bind; [exact Hnc|]. intros s1 Hs1. rewrite Hs1 in Hsat.
  destruct Hsat as (He1 & Hok1 & _). pose proof (no_path_evolves _ _ Hp He1) as Hp1.
  assert (∀ ty s', ty ∈ frame_types d → evolves s1 s' → marks_ok types s' →
    no_cycle (layout (length types) types ty s') ∧
    outcome_sat (visit_post types s' (finite_type types ty)) (layout (length types) types ty s'))
    as Hframe.
  { intros ty s' Hty He Hs'. apply Hvisit; [|done|by eapply no_path_evolves].
    assert (d ∈ types) as Hd by (rewrite Heq, elem_of_app; right; left).
    eapply Forall_forall in Hrefs as [_ Hf]; [|exact Hd]. by eapply Forall_forall in Hf. }
  apply no_cycle_bind; [by eapply each_no_cycle|]. intros s2 Hs2.
  pose proof (each_sat types (layout (length types) types) (frame_types d) s1 (length types))
    as Hsat2. rewrite Hs2 in Hsat2. destruct Hsat2 as (He2 & Hok2 & _).
  { intros ty s' Hty Hs' _. apply layout_sat; [done| |done|by apply white_le].
    assert (d ∈ types) as Hd by (rewrite Heq, elem_of_app; right; left).
    eapply Forall_forall in Hrefs as [_ Hf]; [|exact Hd]. by eapply Forall_forall in Hf. }
  { done. } { by apply white_le. }
  replace (lengthN before + 1) with (lengthN (before ++ [d])) by (rewrite length_app; simpl; lia).
  apply IH; [by rewrite <-app_assoc|done|by eapply no_path_evolves|done].
Qed.

Lemma check_layouts_no_cycle types :
  data_refs_ok types → (∀ id, id < lengthN types → finite_data types id) →
  no_cycle (check_layouts types).
Proof.
  intros Hrefs Hfin.
  apply (check_from_no_cycle types []); [done|done|apply marks_ok_start| |done].
  intros id. unfold on_path. rewrite get_Some. by intros [? _]%lookup_replicate.
Qed.
