(* ===== verification/Converter.v ===== *)
(** The [Converter] of [compiler/src/native_input.rs]: it resolves every reference of a
    raw expression tree against the program tables and rejects trees whose layout types
    disagree. One definition per [expr] arm, in the order of the source. *)

From S2P Require Import Prelude Text Model Reader Operations.

Record Converter := mkConverter {
  program : C.Program;
  types : list Ty.Ty;
  functions : list Raw.Function;
  source : Raw.Function;
  loop_depth : N;
}.

(** [Self { loop_depth: depth, ..*self }] *)
Definition with_loop_depth (self : Converter) (depth : N) : Converter :=
  mkConverter (program self) (types self) (functions self) (source self) depth.

(** ** Lookups *)

Definition ty (self : Converter) (id : N) : outcome Ty.Ty := at_ (types self) id.

Definition local (self : Converter) (id : Z) : outcome N :=
  id ← index id; at_ (Raw.f_locals (source self)) id;; Ok id.

Definition child (node : Raw.Expr) (id count : N) : outcome Raw.Expr :=
  fail_if (lengthN (Raw.e_children node) <>! count) "wrong checked-IR node arity" ;;
  at_ (Raw.e_children node) id.

(** [&self.program.types[id].kind] *)
Definition kind_of (self : Converter) (id : N) : outcome C.DataKind :=
  C.d_kind <$> index_or_panic (C.types (program self)) id.

Definition record (self : Converter) (t : Ty.Ty) : outcome (list (bytes * Ty.Ty)) :=
  match t with
  | Ty.Data id =>
      k ← kind_of self id;
      match k with
      | C.Record fields => Ok fields
      | _ => Err "checked field requires a record layout"
      end
  | _ => Err "checked field requires a record layout"
  end.

Definition frame (self : Converter) (t : Ty.Ty) : outcome (list (bytes * Ty.Ty)) :=
  match t with
  | Ty.Data id =>
      k ← kind_of self id;
      match k with
      | C.Frame fields => Ok fields
      | _ => Err "checked frame operation requires a generated frame"
      end
  | _ => Err "checked frame operation requires a generated frame"
  end.

Definition coroutine_frame (self : Converter) (t : Ty.Ty) : outcome (list (bytes * Ty.Ty)) :=
  fields ← frame self t;
  if lengthN fields <? 2
  then Err "checked coroutine frame requires a result prefix and Int state"
  else
    state ← index_or_panic fields 1;
    fail_if (state.2 <>! Ty.Int)
      "checked coroutine frame requires a result prefix and Int state" ;;
    Ok fields.

Definition task_result (self : Converter) (t : Ty.Ty) : outcome Ty.Ty :=
  match t with
  | Ty.Data id =>
      k ← kind_of self id;
      match k with
      | C.Task result => Ok result
      | _ => Err "checked task operation requires a Task type"
      end
  | _ => Err "checked task operation requires a Task type"
  end.

Definition variant (self : Converter) (t : Ty.Ty) (variant : N) : outcome (list Ty.Ty) :=
  match t with
  | Ty.Data id =>
      k ← kind_of self id;
      match k with
      | C.Enum variants => snd <$> at_ variants variant
      | _ => Err "checked variant requires an enum layout"
      end
  | _ => Err "checked variant requires an enum layout"
  end.

(** [matches!(ty, Type::List(id) if self.program.lists[id] == element)] *)
Definition list_of (self : Converter) (t element : Ty.Ty) : outcome bool :=
  match t with
  | Ty.List id => l ← index_or_panic (C.lists (program self)) id; Ok (l =! element)
  | _ => Ok false
  end.

Definition is_list (t : Ty.Ty) : bool :=
  match t with Ty.List _ => true | _ => false end.

(** [let Type::Function(id) = ty else { return Err(msg) }] and the signature it names. *)
Definition function_type (self : Converter) (t : Ty.Ty) (msg : string)
    : outcome C.Signature :=
  match t with
  | Ty.Function id => index_or_panic (C.function_types (program self)) id
  | _ => Err msg
  end.

(** [arguments[i].ty] *)
Definition arg (arguments : list C.Expr) (i : N) : outcome Ty.Ty :=
  C.e_ty <$> index_or_panic arguments i.

(** ** Task operations ([task_operation]), one definition per arm *)

Section task_operation.
Context (self : Converter) (arguments : list C.Expr) (result : Ty.Ty).

Let a := arg arguments.

Definition check_task_drain : outcome () :=
  handle ← a 0; task_result self handle ;;
  cancel ← a 1;
  fail_if ((cancel <>! Ty.Bool) || (result <>! Ty.Unit))
    "checked task drain signature mismatch".

Definition check_fault_text : outcome () :=
  message ← a 0;
  fail_if ((message <>! Ty.Text) || (result <>! Ty.Unit)) "checked fault signature mismatch".

Definition check_task_observe : outcome () :=
  handle ← a 0; task_result self handle ;;
  index ← a 1;
  fail_if ((index <>! Ty.Int) || (result <>! handle))
    "checked task observation must preserve its typed handle".

(** [TaskWaitNext], [TaskNextResult], [TaskNextTerminalResult], [TaskNextTerminalIndex]
    and [TaskNextTerminalFailure]. *)
Definition check_task_next (operation : Primitive.Primitive) : outcome () :=
  let expected :=
    if operation =! Primitive.TaskWaitNext then Ty.Bool
    else if operation =! Primitive.TaskNextTerminalFailure then Ty.Text
    else Ty.Int in
  fail_if (result <>! expected) "checked task observation result type mismatch".

Definition check_task_wait_resolve : outcome () :=
  host ← a 0; port ← a 1;
  fail_if ((host <>! Ty.Text) || (port <>! Ty.Int) || (result <>! Ty.Bool))
    "checked resolve wait signature mismatch".

Definition check_task_wait_process_capture : outcome () :=
  args ← a 0; args_ok ← list_of self args Ty.Text;
  input ← a 1; cwd ← a 2; timeout ← a 3;
  env ← a 4; env_ok ← list_of self env Ty.Text;
  limit ← a 5;
  fail_if (negb args_ok || (input <>! Ty.Bytes) || (cwd <>! Ty.Text) ||
           (timeout <>! Ty.Int) || negb env_ok || (limit <>! Ty.Int) ||
           (result <>! Ty.Bool))
    "checked process wait signature mismatch".

Definition check_task_process_capture_result : outcome () :=
  fail_if (existsb (λ argument, C.e_ty argument <>! Ty.Bytes) arguments ||
           (result <>! Ty.Int))
    "checked process result signature mismatch".

Definition check_task_wait_file_open : outcome () :=
  path ← a 0; create ← a 1;
  fail_if ((path <>! Ty.Text) || (create <>! Ty.Bool) || (result <>! Ty.Bool))
    "checked file open wait signature mismatch".

(** [TaskWaitFileClose] and [FileAbort]. *)
Definition check_file_close (operation : Primitive.Primitive) : outcome () :=
  let expected := if operation =! Primitive.FileAbort then Ty.Int else Ty.Bool in
  file ← a 0;
  fail_if ((file <>! Ty.Int) || (result <>! expected))
    "checked file close signature mismatch".

Definition check_task_file_open_result : outcome () :=
  fail_if (result <>! Ty.Int) "checked file open result requires Int".

Definition check_task_wait_worker : outcome () :=
  fr ← a 0;
  match fr with
  | Ty.Data id =>
      k ← kind_of self id;
      match k with
      | C.Frame _ =>
          callback ← a 1;
          signature ← function_type self callback "worker requires a callback";
          fail_if ((result <>! Ty.Bool) || (C.sig_params signature <>! [fr]) ||
                   (C.sig_result signature <>! Ty.Unit))
            "checked worker callback signature mismatch"
      | _ => Err "worker needs a frame"
      end
  | _ => Err "worker needs a frame"
  end.

Definition check_task_worker_result : outcome () :=
  fr ← a 0;
  match fr with
  | Ty.Data id =>
      k ← kind_of self id;
      match k with
      | C.Frame fields =>
          fail_if ((snd <$> head fields) <>! Some result) "checked worker result mismatch"
      | _ => Err "worker needs a frame"
      end
  | _ => Err "worker needs a frame"
  end.

Definition check_task_wait_file_read : outcome () :=
  fail_if (existsb (λ argument, C.e_ty argument <>! Ty.Int) arguments ||
           (result <>! Ty.Bool))
    "checked file read wait signature mismatch".

(** [TaskWaitFileWrite] and [TaskWaitFileWriteBytes]. *)
Definition check_task_wait_file_write (operation : Primitive.Primitive) : outcome () :=
  let input := if operation =! Primitive.TaskWaitFileWrite then Ty.Text else Ty.Bytes in
  file ← a 0; value ← a 1; start ← a 2;
  fail_if ((file <>! Ty.Int) || (value <>! input) || (start <>! Ty.Int) ||
           (result <>! Ty.Bool))
    "checked file write wait signature mismatch".

Definition check_task_file_result : outcome () :=
  fail_if (result <>! Ty.Int) "checked file result requires Int".

Definition check_task_bytes_result : outcome () :=
  target ← a 0;
  fail_if ((target <>! Ty.Bytes) || (result <>! Ty.Int))
    "checked worker bytes result requires Bytes and returns Int".

Definition check_task_wait_timer : outcome () :=
  deadline ← a 0;
  fail_if ((deadline <>! Ty.Int) || (result <>! Ty.Bool))
    "checked timer wait requires an Int deadline and Bool readiness".

(** [TaskWaitSocket] and [TaskWaitTls]. *)
Definition check_task_wait_socket : outcome () :=
  fail_if (existsb (λ argument, C.e_ty argument <>! Ty.Int) arguments ||
           (result <>! Ty.Bool))
    "checked readiness wait requires two Ints and Bool readiness".

Definition check_monotonic_ns : outcome () :=
  fail_if (result <>! Ty.Int) "checked monotonic clock requires an Int result".

Definition check_task_create : outcome () :=
  fr ← a 0; fields ← coroutine_frame self fr;
  resume ← a 1;
  signature ← function_type self resume "checked task resume requires a function pointer";
  first ← index_or_panic fields 0;
  logical ← task_result self result;
  name ← a 2;
  fail_if ((first.2 <>! logical) || (C.sig_params signature <>! [fr]) ||
           (C.sig_result signature <>! Ty.Int) || (name <>! Ty.Text))
    "checked task constructor/resume signature mismatch".

Definition check_task_adopt : outcome () :=
  parent ← a 0; task_result self parent ;;
  child ← a 1; task_result self child ;;
  fail_if (result <>! Ty.Unit) "checked task adoption requires an empty result".

Definition check_task_cleanup_push : outcome () :=
  callback ← a 1;
  signature ← function_type self callback "checked task cleanup requires a function pointer";
  id ← a 0;
  fail_if ((id <>! Ty.Int) || (result <>! Ty.Unit) ||
           (length (C.sig_params signature) <>! 1%nat) ||
           (C.sig_result signature <>! Ty.Unit))
    "checked task cleanup signature mismatch" ;;
  parameter ← index_or_panic (C.sig_params signature) 0;
  coroutine_frame self parameter ;; Ok tt.

Definition check_task_cleanup_pop : outcome () :=
  id ← a 0;
  fail_if ((id <>! Ty.Int) || (result <>! Ty.Unit))
    "checked task cleanup pop requires an Int identity".

Definition check_task_result_cleanup_push : outcome () :=
  callback ← a 0;
  signature ← function_type self callback
                "checked task result cleanup requires a function pointer";
  fail_if ((result <>! Ty.Unit) || (length (C.sig_params signature) <>! 1%nat) ||
           (C.sig_result signature <>! Ty.Unit))
    "checked task result cleanup signature mismatch" ;;
  parameter ← index_or_panic (C.sig_params signature) 0;
  coroutine_frame self parameter ;; Ok tt.

Definition check_task_return : outcome () :=
  handle ← a 0; task_result self handle ;;
  fail_if (result <>! handle) "checked task return must preserve its handle type".

(** [TaskAwait], [TaskResult], [TaskResultCase], [TaskRelease], [TaskStatus],
    [TaskFailure] and [TaskCancelBegin]. *)
Definition task_outcome (operation : Primitive.Primitive) (logical : Ty.Ty) : Ty.Ty :=
  match operation with
  | Primitive.TaskAwait => Ty.Bool
  | Primitive.TaskRelease | Primitive.TaskCancelBegin => Ty.Unit
  | Primitive.TaskStatus | Primitive.TaskResultCase => Ty.Int
  | Primitive.TaskFailure => Ty.Text
  | _ => logical
  end.

Definition is_enum (t : Ty.Ty) : outcome bool :=
  match t with
  | Ty.Data id =>
      k ← kind_of self id;
      Ok (match k with C.Enum _ => true | _ => false end)
  | _ => Ok false
  end.

Definition check_task_outcome (operation : Primitive.Primitive) : outcome () :=
  handle ← a 0; logical ← task_result self handle;
  case_ok ← (if operation =! Primitive.TaskResultCase then is_enum logical else Ok true);
  fail_if (negb case_ok) "checked task case requires an enum result" ;;
  fail_if (result <>! task_outcome operation logical) "checked task result type mismatch".

Definition check_task_run : outcome () :=
  entry ← a 0;
  signature ← function_type self entry "checked task entry requires a constructor pointer";
  fail_if ((length (C.sig_params signature) <>! 0%nat) || (result <>! Ty.Unit))
    "checked task entry signature mismatch" ;;
  logical ← task_result self (C.sig_result signature);
  fail_if (logical <>! Ty.Unit) "checked task entry signature mismatch".
End task_operation.

Definition task_operation (self : Converter) (operation : Primitive.Primitive)
    (arguments : list C.Expr) (result : Ty.Ty) : outcome () :=
  match operation with
  | Primitive.TaskDrain => check_task_drain self arguments result
  | Primitive.FaultText => check_fault_text arguments result
  | Primitive.TaskObserve => check_task_observe self arguments result
  | Primitive.TaskWaitNext | Primitive.TaskNextResult | Primitive.TaskNextTerminalResult
  | Primitive.TaskNextTerminalIndex | Primitive.TaskNextTerminalFailure =>
      check_task_next result operation
  | Primitive.TaskWaitResolve => check_task_wait_resolve arguments result
  | Primitive.TaskWaitProcessCapture => check_task_wait_process_capture self arguments result
  | Primitive.TaskProcessCaptureResult => check_task_process_capture_result arguments result
  | Primitive.TaskWaitFileOpen => check_task_wait_file_open arguments result
  | Primitive.TaskWaitFileClose | Primitive.FileAbort =>
      check_file_close arguments result operation
  | Primitive.TaskFileOpenResult => check_task_file_open_result result
  | Primitive.TaskWaitWorker => check_task_wait_worker self arguments result
  | Primitive.TaskWorkerResult => check_task_worker_result self arguments result
  | Primitive.TaskWaitFileRead => check_task_wait_file_read arguments result
  | Primitive.TaskWaitFileWrite | Primitive.TaskWaitFileWriteBytes =>
      check_task_wait_file_write arguments result operation
  | Primitive.TaskFileResult => check_task_file_result result
  | Primitive.TaskBytesResult => check_task_bytes_result arguments result
  | Primitive.TaskWaitTimer => check_task_wait_timer arguments result
  | Primitive.TaskWaitSocket | Primitive.TaskWaitTls => check_task_wait_socket arguments result
  | Primitive.MonotonicNs => check_monotonic_ns result
  | Primitive.TaskCreate => check_task_create self arguments result
  | Primitive.TaskAdopt => check_task_adopt self arguments result
  | Primitive.TaskCleanupPush => check_task_cleanup_push self arguments result
  | Primitive.TaskCleanupPop => check_task_cleanup_pop arguments result
  | Primitive.TaskResultCleanupPush => check_task_result_cleanup_push self arguments result
  | Primitive.TaskReturn => check_task_return self arguments result
  | Primitive.TaskAwait | Primitive.TaskResult | Primitive.TaskResultCase
  | Primitive.TaskRelease | Primitive.TaskStatus | Primitive.TaskFailure
  | Primitive.TaskCancelBegin => check_task_outcome self arguments result operation
  | Primitive.TaskRun => check_task_run self arguments result
  | _ => Ok tt
  end.

(** ** Runtime operations: the further checks of arm 7 *)

Section runtime_operation.
Context (self : Converter) (arguments : list C.Expr) (t : Ty.Ty).

Let a := arg arguments.

Definition check_cleanup_each : outcome () :=
  list ← a 0; step ← a 2;
  fail_if ((t <>! Ty.Unit) || negb (is_list list) || (step <>! Ty.Int))
    "collection cleanup requires List, callback and step count" ;;
  callee ← index_or_panic arguments 1;
  match C.e_kind callee with
  | C.FunctionRef target =>
      callback ← at_ (functions self) target;
      let parameter i := (id ← index_or_panic (Raw.f_params callback) i; ty self id) in
      let mismatch := "collection cleanup callback signature mismatch" in
      fail_if (lengthN (Raw.f_params callback) <>! 3) mismatch ;;
      p0 ← parameter 0; fail_if (p0 <>! list) mismatch ;;
      p1 ← parameter 1; fail_if (p1 <>! Ty.Int) mismatch ;;
      p2 ← parameter 2; fail_if (p2 <>! Ty.Int) mismatch ;;
      result ← ty self (Raw.f_result callback); fail_if (result <>! Ty.Unit) mismatch
  | _ => Err "collection cleanup requires a direct checked callback"
  end.

Definition check_list_new_capacity : outcome () :=
  capacity ← a 0;
  fail_if (negb (is_list t) || (capacity <>! Ty.Int))
    "list capacity allocation requires Int and returns List".

Definition check_mutex_lock : outcome () :=
  identity ← a 0; ints ← list_of self identity Ty.Int;
  fail_if ((t <>! Ty.Int) || negb ints)
    "mutex acquisition requires List[Int] identity and Int token".

Definition check_list_pop : outcome () :=
  list ← a 0; ok ← list_of self list t;
  fail_if (negb ok) "checked list pop type mismatch".

Definition check_list_retain_range : outcome () :=
  list ← a 0; target ← a 1; from ← a 2; count ← a 3;
  nested ← list_of self target list;
  fail_if (negb (is_list list) || (t <>! Ty.Unit) || (from <>! Ty.Int) ||
           (count <>! Ty.Int) || negb nested)
    "list retained range type mismatch".

(** [ProcessCaptureConfigured] ([input] = 0) and [ProcessCaptureInputConfigured] (1). *)
Definition check_process_capture (input : N) : outcome () :=
  args ← a 0; args_ok ← list_of self args Ty.Text;
  stdin ← (if input =? 1 then a 1 else Ok Ty.Bytes);
  cwd ← a (1 + input); timeout ← a (2 + input);
  env ← a (3 + input); env_ok ← list_of self env Ty.Text;
  out ← a (4 + input); err ← a (5 + input);
  fail_if ((t <>! Ty.Int) || negb args_ok || (stdin <>! Ty.Bytes) || (cwd <>! Ty.Text) ||
           (timeout <>! Ty.Int) || negb env_ok || (out <>! Ty.Bytes) || (err <>! Ty.Bytes))
    "checked process capture type mismatch".

Definition check_tls_client : outcome () :=
  name ← a 0; roots ← a 1; limit ← a 2; cert ← a 3; key ← a 4;
  alpn ← a 5; alpn_ok ← list_of self alpn Ty.Text;
  fail_if (negb ((name =! Ty.Text) && (roots =! Ty.Bytes) && (limit =! Ty.Int) &&
                 (cert =! Ty.Bytes) && (key =! Ty.Bytes) && alpn_ok) || (t <>! Ty.Int))
    "checked TLS configuration type mismatch".

Definition check_tls_server : outcome () :=
  cert ← a 0; key ← a 1; roots ← a 2; limit ← a 3;
  alpn ← a 4; alpn_ok ← list_of self alpn Ty.Text;
  fail_if (negb ((cert =! Ty.Bytes) && (key =! Ty.Bytes) && (roots =! Ty.Bytes) &&
                 (limit =! Ty.Int) && alpn_ok) || (t <>! Ty.Int))
    "checked TLS configuration type mismatch".

(** The sequence of [if operation == …] tests between [task_operation] and the
    signature table; they exclude each other. *)
Definition runtime_checks (operation : Primitive.Primitive) : outcome () :=
  match operation with
  | Primitive.CleanupEach => check_cleanup_each
  | Primitive.ListNewCapacity => check_list_new_capacity
  | Primitive.MutexLock => check_mutex_lock
  | Primitive.ListPop => check_list_pop
  | Primitive.ListRetainRange => check_list_retain_range
  | Primitive.ProcessCaptureConfigured => check_process_capture 0
  | Primitive.ProcessCaptureInputConfigured => check_process_capture 1
  | Primitive.TlsClient => check_tls_client
  | Primitive.TlsServer => check_tls_server
  | _ => Ok tt
  end.

Definition check_signature (operation : Primitive.Primitive) : outcome () :=
  match runtime_signature operation with
  | Some (params, result) =>
      fail_if ((t <>! result) || ((C.e_ty <$> arguments) <>! params))
        "checked runtime operation type mismatch"
  | None => Ok tt
  end.
End runtime_operation.

(** All checks of arm 7 on the converted operands, in order. *)
Definition operation_checks (self : Converter) (arguments : list C.Expr) (t : Ty.Ty)
    (operation : Primitive.Primitive) : outcome () :=
  task_operation self operation arguments t ;;
  runtime_checks self arguments t operation ;;
  check_signature arguments t operation.

(** ** Literals *)

(** [b'0'..=b'9' => digit - b'0', b'a'..=b'f' => digit - b'a' + 10] *)
Definition nibble (c : byte) : outcome N :=
  if in_range 48 57 c then Ok (code c - 48)
  else if in_range 97 102 c then Ok (code c - 97 + 10)
  else Err "invalid checked byte literal".

(** [digits.chunks_exact(2).map(|pair| nibble(pair[0]) << 4 | nibble(pair[1]))] *)
Fixpoint byte_pairs (digits : bytes) : outcome (list N) :=
  match digits with
  | hi :: lo :: digits =>
      hi ← nibble hi; lo ← nibble lo;
      rest ← byte_pairs digits;
      Ok (N.lor (N.shiftl hi 4) lo :: rest)
  | _ => Ok []
  end.

Definition byte_literal (digits : bytes) : outcome (list N) :=
  fail_if (negb (Nat.even (length digits))) "invalid checked byte literal" ;;
  byte_pairs digits.

(** The [Debug] form of a layout type, which one message prints. *)
Definition debug_ty (t : Ty.Ty) : string :=
  let with_id name id :=
    (name ++ "(" ++ String.string_of_list_byte (Decimal.to_text (Z.of_N id)) ++ ")")%string in
  match t with
  | Ty.Int => "Int" | Ty.Float => "Float" | Ty.Bool => "Bool" | Ty.Text => "Text"
  | Ty.Bytes => "Bytes" | Ty.Unit => "Unit"
  | Ty.List id => with_id "List" id
  | Ty.Dyn id => with_id "Dyn" id
  | Ty.Function id => with_id "Function" id
  | Ty.Data id => with_id "Data" id
  | Ty.Param id => with_id "Parameter" id
  end%string.

Definition store_mismatch (field : N) (expected found : Ty.Ty) : string :=
  ("checked frame store type mismatch: field " ++
   String.string_of_list_byte (Decimal.to_text (Z.of_N field)) ++
   ", expected " ++ debug_ty expected ++ ", found " ++ debug_ty found)%string.

(** ** The arms of [expr] *)

Definition bitwise (operation : Binary.Binary) : bool :=
  match operation with
  | Binary.BitAnd | Binary.BitOr | Binary.BitXor | Binary.Shl | Binary.Shr => true
  | _ => false
  end.

(** Tags of statements that yield no value ([12..=17 | 26 | 27 | 29 | 30]). *)
Definition statement_tag (tag : N) : bool :=
  ((12 <=? tag) && (tag <=? 17)) || (tag =? 26) || (tag =? 27) || (tag =? 29) || (tag =? 30).

Section arms.
Context (expr : Converter → Raw.Expr → outcome C.Expr).
Context (block : Converter → Raw.Expr → outcome C.Block).
Context (self : Converter) (node : Raw.Expr) (t : Ty.Ty).

Let tables := program self.

Definition exprs (nodes : list Raw.Expr) : outcome (list C.Expr) := mapM (expr self) nodes.

(** [self.expr(self.child(node, id, count)?)?] *)
Definition child_expr (id count : N) : outcome C.Expr :=
  node ← child node id count; expr self node.

Definition int_arm : outcome C.ExprKind :=
  v ← ok_or (Decimal.parse_i64 (Raw.e_text node)) "invalid checked Int literal";
  Ok (C.Int v).

Definition float_arm : outcome C.ExprKind :=
  v ← ok_or (F64.parse (Raw.e_text node)) "invalid checked Float literal";
  Ok (C.Float v).

Definition bool_arm : outcome C.ExprKind :=
  if Raw.e_text node =! b "true" then Ok (C.Bool true)
  else if Raw.e_text node =! b "false" then Ok (C.Bool false)
  else Err "invalid checked Bool literal".

Definition text_arm : outcome C.ExprKind := Ok (C.Text (Raw.e_text node)).

Definition bytes_arm : outcome C.ExprKind :=
  fail_if ((t <>! Ty.Bytes) || negb (length (Raw.e_children node) =? 0)%nat ||
           negb (Raw.e_falls node))
    "checked byte literal requires a childless Bytes value" ;;
  value ← byte_literal (Raw.e_text node);
  Ok (C.Bytes value).

Definition local_arm : outcome C.ExprKind :=
  id ← local self (Raw.e_index node); Ok (C.Local id).

Definition unary_arm : outcome C.ExprKind :=
  operation ← unary (Raw.e_text node);
  value ← child_expr 0 1;
  fail_if ((operation =! Unary.BitNot) && ((t <>! Ty.Int) || (C.e_ty value <>! Ty.Int)))
    "checked bitwise operations require Int operands and result" ;;
  Ok (C.UnaryOp operation value).

Definition binary_arm : outcome C.ExprKind :=
  operation ← binary (Raw.e_text node);
  left ← child_expr 0 2;
  right ← child_expr 1 2;
  fail_if (bitwise operation && ((t <>! Ty.Int) || (C.e_ty left <>! Ty.Int) ||
                                 (C.e_ty right <>! Ty.Int)))
    "checked bitwise operations require Int operands and result" ;;
  Ok (C.BinaryOp operation left right).

Definition call_arm : outcome C.ExprKind :=
  id ← index (Raw.e_index node);
  function ← at_ (functions self) id;
  fail_if (length (Raw.f_params function) <>! length (Raw.e_children node))
    "checked call arity mismatch" ;;
  arguments ← exprs (Raw.e_children node);
  Ok (C.Call id arguments).

Definition cell_get_arm : outcome C.ExprKind :=
  value ← child_expr 0 1;
  fields ← frame self (C.e_ty value);
  fail_if (match fields with [(_, field)] => field <>! t | _ => true end)
    "checked cell load type mismatch" ;;
  Ok (C.Field value 0).

Definition primitive_arm : outcome C.ExprKind :=
  operation ← primitive (Raw.e_text node);
  fail_if (lengthN (Raw.e_children node) <>! primitive_arity operation)
    "checked runtime operation arity mismatch" ;;
  arguments ← exprs (Raw.e_children node);
  operation_checks self arguments t operation ;;
  Ok (C.PrimitiveOp operation arguments).

(** The loops of arms 8 and 31 over indexed field wrappers; [seen] has one flag per
    field. *)
Fixpoint record_fields (fields : list (bytes * Ty.Ty)) (seen : list bool)
    (nodes : list Raw.Expr) : outcome (list (N * C.Expr)) :=
  match nodes with
  | [] => Ok []
  | field :: nodes =>
      fail_if (negb (Raw.e_tag field =? 9))
        "record children must be indexed field wrappers" ;;
      id ← index (Raw.e_index field);
      at_ fields id ;;
      used ← index_or_panic seen id;
      fail_if used "duplicate checked record field" ;;
      seen ← set_or_panic seen id true;
      inner ← child field 0 1;
      value ← expr self inner;
      values ← record_fields fields seen nodes;
      Ok ((id, value) :: values)
  end.

Fixpoint frame_fields (fields : list (bytes * Ty.Ty)) (seen : list bool)
    (nodes : list Raw.Expr) : outcome (list (N * C.Expr)) :=
  match nodes with
  | [] => Ok []
  | field :: nodes =>
      fail_if (negb (Raw.e_tag field =? 9)) "frame initializers require indexed wrappers" ;;
      id ← index (Raw.e_index field);
      expected ← snd <$> at_ fields id;
      inner ← child field 0 1;
      value ← expr self inner;
      used ← index_or_panic seen id;
      fail_if (used || (C.e_ty value <>! expected))
        "duplicate or mistyped frame initializer" ;;
      seen ← set_or_panic seen id true;
      values ← frame_fields fields seen nodes;
      Ok ((id, value) :: values)
  end.

Definition record_arm : outcome C.ExprKind :=
  fields ← record self t;
  fail_if (length fields <>! length (Raw.e_children node))
    "checked record initializer count mismatch" ;;
  values ← record_fields fields (replicate (length fields) false) (Raw.e_children node);
  Ok (C.RecordNew values).

Definition list_arm : outcome C.ExprKind :=
  match t with
  | Ty.List id =>
      element ← index_or_panic (C.lists tables) id;
      values ← exprs (Raw.e_children node);
      fail_if (existsb (λ value, C.e_ty value <>! element) values)
        "checked list literal element type mismatch" ;;
      Ok (C.ListNew values)
  | _ => Err "checked list literal requires a list type"
  end.

Definition frame_new_arm : outcome C.ExprKind :=
  fail_if (Raw.e_text node =! b "opaque environment")
    "opaque captured environment escaped identity staging" ;;
  fields ← frame self t;
  values ← frame_fields fields (replicate (length fields) false) (Raw.e_children node);
  Ok (C.FrameNew values).

(** The test and the message both look the field up, so a missing frame or field is
    reported first whatever [t] is. *)
Definition frame_store_arm : outcome C.ExprKind :=
  target ← child_expr 0 2;
  value ← child_expr 1 2;
  field ← index (Raw.e_index node);
  fields ← frame self (C.e_ty target);
  expected ← snd <$> at_ fields field;
  fail_if ((t <>! Ty.Unit) || (C.e_ty value <>! expected))
    (store_mismatch field expected (C.e_ty value)) ;;
  Ok (C.FrameStore target field value).

(** [self.record(ty).or_else(|_| self.frame(ty))] *)
Definition record_or_frame (t : Ty.Ty) : outcome (list (bytes * Ty.Ty)) :=
  match record self t with
  | Err _ => frame self t
  | m => m
  end.

Definition field_arm : outcome C.ExprKind :=
  value ← child_expr 0 1;
  id ← index (Raw.e_index node);
  fields ← record_or_frame (C.e_ty value);
  field ← snd <$> at_ fields id;
  fail_if (field <>! t) "checked field type mismatch" ;;
  Ok (C.Field value id).

Definition variant_arm : outcome C.ExprKind :=
  id ← index (Raw.e_index node);
  payload ← variant self t id;
  fail_if (length payload <>! length (Raw.e_children node))
    "checked variant payload count mismatch" ;;
  fields ← exprs (Raw.e_children node);
  Ok (C.Variant id fields).

Definition block_arm : outcome C.ExprKind := body ← block self node; Ok (C.BlockExpr body).

Definition if_arm : outcome C.ExprKind :=
  let count := lengthN (Raw.e_children node) in
  fail_if (negb ((2 <=? count) && (count <=? 3))) "checked if needs two or three children" ;;
  condition ← index_or_panic (Raw.e_children node) 0;
  condition ← expr self condition;
  then_body ← index_or_panic (Raw.e_children node) 1;
  then_body ← block self then_body;
  else_body ← transpose_map (block self) (get (Raw.e_children node) 2);
  Ok (C.If condition then_body else_body).

(** [arm.bindings.iter().chain([&arm.whole]).flatten()] *)
Definition arm_locals (arm : Raw.Arm) : list N :=
  omap id (Raw.a_bindings arm ++ [Raw.a_whole arm]).

Definition match_one (matched : Ty.Ty) (arm : Raw.Arm) : outcome C.MatchArm :=
  match Raw.a_variant arm with
  | Some id =>
      payload ← variant self matched id;
      fail_if (length payload <>! length (Raw.a_bindings arm))
        "checked match binding count mismatch"
  | None => Ok tt
  end ;;
  mapM (at_ (Raw.f_locals (source self))) (arm_locals arm) ;;
  fail_if (negb (length (Raw.a_body arm) =? 1)%nat) "checked match arm needs one block" ;;
  body ← index_or_panic (Raw.a_body arm) 0;
  body ← block self body;
  Ok (C.mkArm (Raw.a_variant arm) (Raw.a_bindings arm) (Raw.a_whole arm) body).

Definition match_arm : outcome C.ExprKind :=
  value ← child_expr 0 1;
  arms ← mapM (match_one (C.e_ty value)) (Raw.e_arms node);
  Ok (C.Match value arms).

Definition coerce_arm : outcome C.ExprKind :=
  value ← child_expr 0 1; Ok (C.Coerce value).

Definition dyn_box_arm : outcome C.ExprKind :=
  witness ← index (Raw.e_index node);
  table ← at_ (C.witnesses tables) witness;
  value ← child_expr 0 1;
  fail_if ((t <>! Ty.Dyn (C.w_interface table)) || (C.e_ty value <>! C.w_concrete table))
    "checked dyn construction type mismatch" ;;
  Ok (C.DynBox witness value).

(** [&node.children[1..]] *)
Definition tail_children : outcome (list Raw.Expr) :=
  match Raw.e_children node with
  | [] => Panic "range start index 1 out of range for slice of length 0"
  | _ :: nodes => Ok nodes
  end.

Definition dyn_call_arm : outcome C.ExprKind :=
  receiver ← at_ (Raw.e_children node) 0;
  receiver ← expr self receiver;
  match C.e_ty receiver with
  | Ty.Dyn interface =>
      slot ← index (Raw.e_index node);
      interface ← at_ (C.interfaces tables) interface;
      method ← at_ (C.methods interface) slot;
      fail_if ((lengthN (C.sig_params method) + 1 <>! lengthN (Raw.e_children node)) ||
               (t <>! C.sig_result method))
        "checked dyn call signature mismatch" ;;
      nodes ← tail_children;
      arguments ← exprs nodes;
      fail_if ((C.e_ty <$> arguments) <>! C.sig_params method)
        "checked dyn call argument type mismatch" ;;
      Ok (C.DynCall receiver slot arguments)
  | _ => Err "checked dyn call requires an erased receiver"
  end.

Definition function_arm : outcome C.ExprKind :=
  match t with
  | Ty.Function signature =>
      fail_if (1 <? lengthN (Raw.e_children node))
        "checked function reference has at most one environment" ;;
      environment ← transpose_map (expr self) (head (Raw.e_children node));
      match environment with
      | Some environment => frame self (C.e_ty environment) ;; Ok tt
      | None => Ok tt
      end ;;
      target ← index (Raw.e_index node);
      function ← at_ (functions self) target;
      signature ← at_ (C.function_types tables) signature;
      params ← mapM (ty self) (Raw.f_params function);
      let expected := option_list (C.e_ty <$> environment) ++ C.sig_params signature in
      fail_if (params <>! expected) "checked function reference signature mismatch" ;;
      result ← ty self (Raw.f_result function);
      fail_if (result <>! C.sig_result signature)
        "checked function reference signature mismatch" ;;
      Ok (match environment with
          | Some environment => C.Closure target environment
          | None => C.FunctionRef target
          end)
  | _ => Err "checked function reference requires a function type"
  end.

Definition indirect_arm : outcome C.ExprKind :=
  fail_if (Raw.e_index node <>! (-1)%Z)
    "checked indirect call has no direct function ID" ;;
  callee ← at_ (Raw.e_children node) 0;
  callee ← expr self callee;
  match C.e_ty callee with
  | Ty.Function signature =>
      signature ← at_ (C.function_types tables) signature;
      nodes ← tail_children;
      arguments ← exprs nodes;
      fail_if ((t <>! C.sig_result signature) ||
               ((C.e_ty <$> arguments) <>! C.sig_params signature))
        "checked indirect call signature mismatch" ;;
      Ok (C.IndirectCall callee arguments)
  | _ => Err "checked indirect call requires a function value"
  end.

(** Environment projection: a function value is a pair whose first field is the
    environment. [params[1..]] follows the test of [params.first()]. *)
Definition environment_arm : outcome C.ExprKind :=
  frame self t ;;
  value ← child_expr 0 1;
  match C.e_ty value with
  | Ty.Function signature =>
      id ← index (Raw.e_index node);
      target ← at_ (functions self) id;
      signature ← at_ (C.function_types tables) signature;
      params ← mapM (ty self) (Raw.f_params target);
      fail_if ((head params <>! Some t) || (tail params <>! C.sig_params signature))
        "checked environment projection signature mismatch" ;;
      result ← ty self (Raw.f_result target);
      fail_if (result <>! C.sig_result signature)
        "checked environment projection signature mismatch" ;;
      Ok (C.Field value 0)
  | _ => Err "checked environment projection requires a function value"
  end.

(** [match node.tag] of [expr]. *)
Definition expr_kind : outcome C.ExprKind :=
  match Raw.e_tag node with
  | 0 => int_arm
  | 1 => bool_arm
  | 2 => text_arm
  | 3 => local_arm
  | 4 => unary_arm
  | 5 => binary_arm
  | 6 => call_arm
  | 7 => if Raw.e_text node =! b "cell_get" then cell_get_arm else primitive_arm
  | 8 => record_arm
  | 9 => field_arm
  | 10 => variant_arm
  | 11 => block_arm
  | 18 => if_arm
  | 19 => match_arm
  | 20 => coerce_arm
  | 21 => float_arm
  | 22 => dyn_box_arm
  | 23 => dyn_call_arm
  | 24 => function_arm
  | 25 => indirect_arm
  | 28 => list_arm
  | 31 => frame_new_arm
  | 32 => frame_store_arm
  | 33 => bytes_arm
  | 34 => environment_arm
  | _ => Err "unknown or misplaced checked expression tag"
  end.
End arms.

(** ** Blocks and statements *)

Section statements.
Context (expr : Converter → Raw.Expr → outcome C.Expr).
Context (block : Converter → Raw.Expr → outcome C.Block).
Context (statement : Converter → Raw.Expr → outcome C.Stmt).
Context (self : Converter).

(** The loop over the children: the last one is the tail unless it is a statement. *)
Fixpoint block_items (nodes : list Raw.Expr) : outcome (list C.Stmt * option C.Expr) :=
  match nodes with
  | [] => Ok ([], None)
  | child :: nodes =>
      if (length nodes =? 0)%nat && negb (statement_tag (Raw.e_tag child))
      then tail ← expr self child; Ok ([], Some tail)
      else
        s ← statement self child;
        '(statements, tail) ← block_items nodes;
        Ok (s :: statements, tail)
  end.

Definition block_body (node : Raw.Expr) : outcome C.Block :=
  fail_if (negb (Raw.e_tag node =? 11)) "expected a checked block" ;;
  '(statements, tail) ← block_items (Raw.e_children node);
  Ok (C.mkBlock statements tail (Raw.e_falls node)).

Context (node : Raw.Expr).

(** Tags 12 and 13. *)
Definition storage_statement : outcome C.StmtKind :=
  target ← local self (Raw.e_index node);
  value ← child_expr expr self node 0 1;
  slot ← index_or_panic (Raw.f_locals (source self)) target;
  slot ← ty self slot;
  fail_if (C.e_ty value <>! slot) "checked local storage type mismatch" ;;
  Ok (if Raw.e_tag node =? 12 then C.Let target value else C.Assign target value).

Definition return_statement : outcome C.StmtKind :=
  fail_if (1 <? lengthN (Raw.e_children node))
    "return accepts at most one checked value" ;;
  value ← transpose_map (expr self) (head (Raw.e_children node));
  Ok (C.Return value).

Definition while_statement : outcome C.StmtKind :=
  condition ← child_expr expr self node 0 2;
  depth ← add_checked (loop_depth self) 1;
  body ← child node 1 2;
  body ← block (with_loop_depth self depth) body;
  Ok (C.While condition body).

(** Tags 26 and 27. *)
Definition loop_statement : outcome C.StmtKind :=
  fail_if (loop_depth self =? 0) "checked loop control requires an enclosing loop body" ;;
  t ← ty self (Raw.e_ty node);
  fail_if ((t <>! Ty.Unit) || Raw.e_falls node ||
           negb (length (Raw.e_children node) =? 0)%nat ||
           negb (length (Raw.e_arms node) =? 0)%nat)
    "invalid checked loop control" ;;
  Ok (if Raw.e_tag node =? 26 then C.Break else C.Continue).

(** Tags 29 and 30. *)
Definition cleanup_statement : outcome C.StmtKind :=
  t ← ty self (Raw.e_ty node);
  fail_if ((t <>! Ty.Unit) || negb (length (Raw.e_arms node) =? 0)%nat)
    "invalid checked cleanup marker" ;;
  id ← index (Raw.e_index node);
  inner ← child node 0 1;
  u ← ty self (Raw.e_ty inner);
  fail_if (u <>! Ty.Unit) "checked cleanup body must return no value" ;;
  body ← block (with_loop_depth self 0) inner;
  if Raw.e_tag node =? 29
  then
    fail_if (negb (Raw.e_falls node)) "cleanup registration must fall through" ;;
    Ok (C.Defer id body)
  else
    fail_if (Raw.e_falls node <>! C.falls_through body) "cleanup fallthrough mismatch" ;;
    Ok (C.Cleanup id body).

Definition statement_kind : outcome C.StmtKind :=
  match Raw.e_tag node with
  | 12 | 13 => storage_statement
  | 14 => return_statement
  | 15 => condition ← child_expr expr self node 0 1; Ok (C.Assert condition (Raw.e_text node))
  | 16 => value ← child_expr expr self node 0 1; Ok (C.Discard value)
  | 17 => while_statement
  | 26 | 27 => loop_statement
  | 29 | 30 => cleanup_statement
  | _ => value ← expr self node; Ok (C.ExprStmt value)
  end.
End statements.

(** ** The mutual recursion *)

(** A node is visited at most three times (as a statement, as an expression and as a
    block) before one of its children is, so three units of fuel per tree level are
    enough. *)
Fixpoint expr (fuel : nat) (self : Converter) (node : Raw.Expr) : outcome C.Expr :=
  match fuel with
  | O => Stuck
  | S fuel =>
      t ← ty self (Raw.e_ty node);
      fail_if (negb (Raw.e_tag node =? 19) && negb (length (Raw.e_arms node) =? 0)%nat)
        "only match nodes have checked arms" ;;
      kind ← expr_kind (expr fuel) (block fuel) self node t;
      Ok (C.mkExpr kind t (Raw.e_span node))
  end
with block (fuel : nat) (self : Converter) (node : Raw.Expr) : outcome C.Block :=
  match fuel with
  | O => Stuck
  | S fuel => block_body (expr fuel) (statement fuel) self node
  end
with statement (fuel : nat) (self : Converter) (node : Raw.Expr) : outcome C.Stmt :=
  match fuel with
  | O => Stuck
  | S fuel =>
      kind ← statement_kind (expr fuel) (block fuel) self node;
      Ok (C.mkStmt kind (Raw.e_span node))
  end.
