(* ===== verification/Typing.v ===== *)
(** The layout typing rules that a converted program obeys: what [compiler/src/
    native_input.rs] promises to native code generation. Every index is in range of the
    table it refers to, and the checked layout types agree wherever the converter tests
    them. The rules are stated without reference to the conversion code. *)

From S2P Require Import Prelude Text Model Operations.

(** ** Types and tables *)

(** The type only refers to existing table entries. *)
Definition type_ok (p : C.Program) (t : Ty.Ty) : Prop :=
  match t with
  | Ty.List id => id < lengthN (C.lists p)
  | Ty.Dyn id => id < lengthN (C.interfaces p)
  | Ty.Function id => id < lengthN (C.function_types p)
  | Ty.Data id => id < lengthN (C.types p)
  | _ => True
  end.

Definition signature_ok (p : C.Program) (s : C.Signature) : Prop :=
  Forall (type_ok p) (C.sig_params s) ∧ type_ok p (C.sig_result s).

(** The types a data declaration mentions. *)
Definition kind_types (k : C.DataKind) : list Ty.Ty :=
  match k with
  | C.Record fields | C.Frame fields => fields.*2
  | C.Enum variants => concat variants.*2
  | C.Refined base => [base]
  | C.Task result => [result]
  end.

Definition data_ok (p : C.Program) (d : C.Data) : Prop :=
  Forall (type_ok p) (kind_types (C.d_kind d)).

Definition interface_ok (p : C.Program) (i : C.Interface) : Prop :=
  Forall (signature_ok p) (C.methods i).

(** A witness boxes a value with a runtime layout, and fills the slots of an existing
    interface. *)
Definition boxable (t : Ty.Ty) : bool :=
  match t with Ty.Param _ | Ty.Unit => false | _ => true end.

Definition witness_ok (p : C.Program) (w : C.Witness) : Prop :=
  ∃ i, get (C.interfaces p) (C.w_interface w) = Some i ∧
       type_ok p (C.w_concrete w) ∧ boxable (C.w_concrete w) = true ∧
       length (C.w_methods w) = length (C.methods i).

(** The type tables are closed under reference. *)
Record tables_ok (p : C.Program) : Prop := {
  lists_closed : Forall (type_ok p) (C.lists p);
  types_closed : Forall (data_ok p) (C.types p);
  function_types_closed : Forall (signature_ok p) (C.function_types p);
  interfaces_closed : Forall (interface_ok p) (C.interfaces p);
  witnesses_closed : Forall (witness_ok p) (C.witnesses p);
}.

(** ** Layout views *)

Definition data_view {A} (view : C.DataKind → option A) (p : C.Program) (t : Ty.Ty)
    : option A :=
  match t with
  | Ty.Data id => d ← get (C.types p) id; view (C.d_kind d)
  | _ => None
  end.

Definition record_of : C.Program → Ty.Ty → option (list (bytes * Ty.Ty)) :=
  data_view (λ k, match k with C.Record fields => Some fields | _ => None end).
Definition frame_of : C.Program → Ty.Ty → option (list (bytes * Ty.Ty)) :=
  data_view (λ k, match k with C.Frame fields => Some fields | _ => None end).
Definition enum_of : C.Program → Ty.Ty → option (list (bytes * list Ty.Ty)) :=
  data_view (λ k, match k with C.Enum variants => Some variants | _ => None end).
Definition task_of : C.Program → Ty.Ty → option Ty.Ty :=
  data_view (λ k, match k with C.Task result => Some result | _ => None end).

Definition element_of (p : C.Program) (t : Ty.Ty) : option Ty.Ty :=
  match t with Ty.List id => get (C.lists p) id | _ => None end.
Definition signature_of (p : C.Program) (t : Ty.Ty) : option C.Signature :=
  match t with Ty.Function id => get (C.function_types p) id | _ => None end.

(** A coroutine frame: a result slot, then an [Int] state. *)
Definition coroutine_of (p : C.Program) (t : Ty.Ty) : option (list (bytes * Ty.Ty)) :=
  fields ← frame_of p t;
  match fields with
  | _ :: (_, Ty.Int) :: _ => Some fields
  | _ => None
  end.

(** ** Runtime operations *)

(** [signature target s]: the checked function [target] has the mapped signature [s]. *)
Section operation_rule.
Context (p : C.Program) (signature : N → C.Signature → Prop).

(** A callback taking one coroutine frame and returning nothing. *)
Definition cleanup_callback (t : Ty.Ty) : Prop :=
  ∃ fr, signature_of p t = Some (C.mkSignature [fr] Ty.Unit) ∧ is_Some (coroutine_of p fr).

Definition task_rule (operation : Primitive.Primitive) (args : list Ty.Ty) (result : Ty.Ty)
    : Prop :=
  match operation with
  | Primitive.TaskDrain =>
      ∃ h, args = [h; Ty.Bool] ∧ is_Some (task_of p h) ∧ result = Ty.Unit
  | Primitive.FaultText => args = [Ty.Text] ∧ result = Ty.Unit
  | Primitive.TaskObserve =>
      ∃ h, args = [h; Ty.Int] ∧ is_Some (task_of p h) ∧ result = h
  | Primitive.TaskWaitNext => result = Ty.Bool
  | Primitive.TaskNextResult | Primitive.TaskNextTerminalResult
  | Primitive.TaskNextTerminalIndex => result = Ty.Int
  | Primitive.TaskNextTerminalFailure => result = Ty.Text
  | Primitive.TaskWaitResolve => args = [Ty.Text; Ty.Int] ∧ result = Ty.Bool
  | Primitive.TaskWaitProcessCapture =>
      ∃ l1 l2, args = [l1; Ty.Bytes; Ty.Text; Ty.Int; l2; Ty.Int] ∧
        element_of p l1 = Some Ty.Text ∧ element_of p l2 = Some Ty.Text ∧ result = Ty.Bool
  | Primitive.TaskProcessCaptureResult =>
      args = [Ty.Bytes; Ty.Bytes; Ty.Bytes] ∧ result = Ty.Int
  | Primitive.TaskWaitFileOpen => args = [Ty.Text; Ty.Bool] ∧ result = Ty.Bool
  | Primitive.TaskWaitFileClose => args = [Ty.Int] ∧ result = Ty.Bool
  | Primitive.FileAbort => args = [Ty.Int] ∧ result = Ty.Int
  | Primitive.TaskFileOpenResult | Primitive.TaskFileResult | Primitive.MonotonicNs =>
      result = Ty.Int
  | Primitive.TaskWaitWorker =>
      ∃ fr f, args = [fr; f] ∧ is_Some (frame_of p fr) ∧
        signature_of p f = Some (C.mkSignature [fr] Ty.Unit) ∧ result = Ty.Bool
  | Primitive.TaskWorkerResult =>
      ∃ fr name fields, args = [fr] ∧ frame_of p fr = Some ((name, result) :: fields)
  | Primitive.TaskWaitFileRead | Primitive.TaskWaitSocket | Primitive.TaskWaitTls =>
      args = [Ty.Int; Ty.Int] ∧ result = Ty.Bool
  | Primitive.TaskWaitFileWrite => args = [Ty.Int; Ty.Text; Ty.Int] ∧ result = Ty.Bool
  | Primitive.TaskWaitFileWriteBytes =>
      args = [Ty.Int; Ty.Bytes; Ty.Int] ∧ result = Ty.Bool
  | Primitive.TaskBytesResult => args = [Ty.Bytes] ∧ result = Ty.Int
  | Primitive.TaskWaitTimer => args = [Ty.Int] ∧ result = Ty.Bool
  | Primitive.TaskCreate =>
      ∃ fr f name logical fields, args = [fr; f; Ty.Text] ∧
        coroutine_of p fr = Some ((name, logical) :: fields) ∧
        task_of p result = Some logical ∧
        signature_of p f = Some (C.mkSignature [fr] Ty.Int)
  | Primitive.TaskAdopt =>
      ∃ h c, args = [h; c] ∧ is_Some (task_of p h) ∧ is_Some (task_of p c) ∧
        result = Ty.Unit
  | Primitive.TaskCleanupPush =>
      ∃ f, args = [Ty.Int; f] ∧ cleanup_callback f ∧ result = Ty.Unit
  | Primitive.TaskCleanupPop => args = [Ty.Int] ∧ result = Ty.Unit
  | Primitive.TaskResultCleanupPush =>
      ∃ f, args = [f] ∧ cleanup_callback f ∧ result = Ty.Unit
  | Primitive.TaskReturn => args = [result] ∧ is_Some (task_of p result)
  | Primitive.TaskAwait => ∃ h, args = [h] ∧ is_Some (task_of p h) ∧ result = Ty.Bool
  | Primitive.TaskResult => ∃ h, args = [h] ∧ task_of p h = Some result
  | Primitive.TaskResultCase =>
      ∃ h r, args = [h] ∧ task_of p h = Some r ∧ is_Some (enum_of p r) ∧ result = Ty.Int
  | Primitive.TaskStatus => ∃ h, args = [h] ∧ is_Some (task_of p h) ∧ result = Ty.Int
  | Primitive.TaskFailure => ∃ h, args = [h] ∧ is_Some (task_of p h) ∧ result = Ty.Text
  | Primitive.TaskRelease | Primitive.TaskCancelBegin =>
      ∃ h, args = [h] ∧ is_Some (task_of p h) ∧ result = Ty.Unit
  | Primitive.TaskRun =>
      ∃ f h, args = [f] ∧ signature_of p f = Some (C.mkSignature [] h) ∧
        task_of p h = Some Ty.Unit ∧ result = Ty.Unit
  | _ => True
  end.

Definition is_list_type (t : Ty.Ty) : Prop := ∃ id, t = Ty.List id.

Definition list_rule (operation : Primitive.Primitive) (args : list Ty.Ty) (result : Ty.Ty)
    : Prop :=
  match operation with
  | Primitive.ListNewCapacity => args = [Ty.Int] ∧ is_list_type result
  | Primitive.MutexLock =>
      ∃ l, args = [l] ∧ element_of p l = Some Ty.Int ∧ result = Ty.Int
  | Primitive.ListPop => ∃ l, args = [l] ∧ element_of p l = Some result
  | Primitive.ListRetainRange =>
      ∃ l target, args = [l; target; Ty.Int; Ty.Int] ∧ is_list_type l ∧
        element_of p target = Some l ∧ result = Ty.Unit
  | Primitive.ProcessCaptureConfigured =>
      ∃ l1 l2, args = [l1; Ty.Text; Ty.Int; l2; Ty.Bytes; Ty.Bytes] ∧
        element_of p l1 = Some Ty.Text ∧ element_of p l2 = Some Ty.Text ∧ result = Ty.Int
  | Primitive.ProcessCaptureInputConfigured =>
      ∃ l1 l2, args = [l1; Ty.Bytes; Ty.Text; Ty.Int; l2; Ty.Bytes; Ty.Bytes] ∧
        element_of p l1 = Some Ty.Text ∧ element_of p l2 = Some Ty.Text ∧ result = Ty.Int
  | Primitive.TlsClient =>
      ∃ l, args = [Ty.Text; Ty.Bytes; Ty.Int; Ty.Bytes; Ty.Bytes; l] ∧
        element_of p l = Some Ty.Text ∧ result = Ty.Int
  | Primitive.TlsServer =>
      ∃ l, args = [Ty.Bytes; Ty.Bytes; Ty.Bytes; Ty.Int; l] ∧
        element_of p l = Some Ty.Text ∧ result = Ty.Int
  | _ => True
  end.

(** [cleanup_each] needs a direct callback on a list handle, an index and a count. *)
Definition each_rule (operation : Primitive.Primitive) (arguments : list C.Expr)
    (result : Ty.Ty) : Prop :=
  operation = Primitive.CleanupEach →
  ∃ list callback step target, arguments = [list; callback; step] ∧
    is_list_type (C.e_ty list) ∧ C.e_ty step = Ty.Int ∧ result = Ty.Unit ∧
    C.e_kind callback = C.FunctionRef target ∧
    signature target (C.mkSignature [C.e_ty list; Ty.Int; Ty.Int] Ty.Unit).

Definition signature_rule (operation : Primitive.Primitive) (args : list Ty.Ty)
    (result : Ty.Ty) : Prop :=
  ∀ s, runtime_signature operation = Some s → s = (args, result).

(** A well-typed application of a runtime operation. *)
Definition operation_rule (operation : Primitive.Primitive) (arguments : list C.Expr)
    (result : Ty.Ty) : Prop :=
  let args := C.e_ty <$> arguments in
  lengthN arguments = primitive_arity operation ∧
  task_rule operation args result ∧ list_rule operation args result ∧
  each_rule operation arguments result ∧ signature_rule operation args result.
End operation_rule.

(** ** Expressions *)

(** What expressions of one function may refer to. *)
Record Env := mkEnv {
  tables : C.Program;
  arity : N → nat → Prop;
  signature : N → C.Signature → Prop;
  locals : list Ty.Ty;
}.

Definition local_ok (E : Env) (l : N) : Prop := l < lengthN (locals E).

(** Field initialisers name distinct fields of the layout. *)
Definition fields_distinct (fields : list (bytes * Ty.Ty)) (values : list (N * C.Expr)) : Prop :=
  NoDup values.*1 ∧ Forall (λ id, id < lengthN fields) values.*1.

Definition bitwise_op (operation : Binary.Binary) : Prop :=
  operation ∈ [Binary.BitAnd; Binary.BitOr; Binary.BitXor; Binary.Shl; Binary.Shr].

Section rules.
Context (E : Env).

Let p := tables E.

(** [loop]: whether a loop body encloses the expression within its cleanup body. *)
Inductive expr_ok (loop : bool) : C.Expr → Prop :=
  | ok_expr kind t sp :
      type_ok p t → kind_ok loop t kind → expr_ok loop (C.mkExpr kind t sp)

with kind_ok (loop : bool) : Ty.Ty → C.ExprKind → Prop :=
  | ok_int t v : Decimal.in_i64 v = true → kind_ok loop t (C.Int v)
  | ok_float t v : kind_ok loop t (C.Float v)
  | ok_bool t v : kind_ok loop t (C.Bool v)
  | ok_text t v : kind_ok loop t (C.Text v)
  | ok_bytes v : Forall (λ c, c < 256) v → kind_ok loop Ty.Bytes (C.Bytes v)
  | ok_primitive t operation arguments :
      Forall (expr_ok loop) arguments →
      operation_rule p (signature E) operation arguments t →
      kind_ok loop t (C.PrimitiveOp operation arguments)
  | ok_coerce t v : expr_ok loop v → kind_ok loop t (C.Coerce v)
  | ok_local t l : local_ok E l → kind_ok loop t (C.Local l)
  | ok_unary t operation v :
      expr_ok loop v → (operation = Unary.BitNot → t = Ty.Int ∧ C.e_ty v = Ty.Int) →
      kind_ok loop t (C.UnaryOp operation v)
  | ok_binary t operation x y :
      expr_ok loop x → expr_ok loop y →
      (bitwise_op operation → t = Ty.Int ∧ C.e_ty x = Ty.Int ∧ C.e_ty y = Ty.Int) →
      kind_ok loop t (C.BinaryOp operation x y)
  | ok_call t f arguments :
      Forall (expr_ok loop) arguments → arity E f (length arguments) →
      kind_ok loop t (C.Call f arguments)
  | ok_function_ref t s f :
      signature_of p t = Some s → signature E f s → kind_ok loop t (C.FunctionRef f)
  | ok_closure t s f environment :
      expr_ok loop environment → is_Some (frame_of p (C.e_ty environment)) →
      signature_of p t = Some s →
      signature E f (C.mkSignature (C.e_ty environment :: C.sig_params s) (C.sig_result s)) →
      kind_ok loop t (C.Closure f environment)
  | ok_indirect t callee arguments :
      expr_ok loop callee → Forall (expr_ok loop) arguments →
      signature_of p (C.e_ty callee) = Some (C.mkSignature (C.e_ty <$> arguments) t) →
      kind_ok loop t (C.IndirectCall callee arguments)
  | ok_dyn_box w table v :
      get (C.witnesses p) w = Some table → expr_ok loop v →
      C.e_ty v = C.w_concrete table →
      kind_ok loop (Ty.Dyn (C.w_interface table)) (C.DynBox w v)
  | ok_dyn_call t receiver id interface slot arguments :
      expr_ok loop receiver → Forall (expr_ok loop) arguments →
      C.e_ty receiver = Ty.Dyn id → get (C.interfaces p) id = Some interface →
      get (C.methods interface) slot = Some (C.mkSignature (C.e_ty <$> arguments) t) →
      kind_ok loop t (C.DynCall receiver slot arguments)
  | ok_record t fields values :
      record_of p t = Some fields → fields_distinct fields values →
      length values = length fields → Forall (λ v, expr_ok loop v.2) values →
      kind_ok loop t (C.RecordNew values)
  | ok_frame_new t fields values :
      frame_of p t = Some fields → fields_distinct fields values →
      Forall (λ v, expr_ok loop v.2) values →
      Forall (λ v, snd <$> get fields v.1 = Some (C.e_ty v.2)) values →
      kind_ok loop t (C.FrameNew values)
  | ok_frame_store fr fields field v :
      expr_ok loop fr → expr_ok loop v → frame_of p (C.e_ty fr) = Some fields →
      snd <$> get fields field = Some (C.e_ty v) →
      kind_ok loop Ty.Unit (C.FrameStore fr field v)
  | ok_list t values element :
      element_of p t = Some element → Forall (expr_ok loop) values →
      Forall (λ v, C.e_ty v = element) values →
      kind_ok loop t (C.ListNew values)
  | ok_field t v fields field :
      expr_ok loop v →
      (record_of p (C.e_ty v) = Some fields ∨ frame_of p (C.e_ty v) = Some fields) →
      snd <$> get fields field = Some t →
      kind_ok loop t (C.Field v field)
  | ok_environment t v s f :
      expr_ok loop v → is_Some (frame_of p t) → signature_of p (C.e_ty v) = Some s →
      signature E f (C.mkSignature (t :: C.sig_params s) (C.sig_result s)) →
      kind_ok loop t (C.Field v 0)
  | ok_variant t variants id payload values :
      enum_of p t = Some variants → snd <$> get variants id = Some payload →
      length values = length payload → Forall (expr_ok loop) values →
      kind_ok loop t (C.Variant id values)
  | ok_match t v arms :
      expr_ok loop v → Forall (arm_ok loop (C.e_ty v)) arms →
      kind_ok loop t (C.Match v arms)
  | ok_block t body : block_ok loop body → kind_ok loop t (C.BlockExpr body)
  | ok_if t condition then_body else_body :
      expr_ok loop condition → block_ok loop then_body →
      (∀ body, else_body = Some body → block_ok loop body) →
      kind_ok loop t (C.If condition then_body else_body)

with arm_ok (loop : bool) : Ty.Ty → C.MatchArm → Prop :=
  | ok_arm t variant bindings whole body :
      (∀ id, variant = Some id → ∃ variants payload,
         enum_of p t = Some variants ∧ snd <$> get variants id = Some payload ∧
         length payload = length bindings) →
      (∀ l, Some l ∈ whole :: bindings → local_ok E l) →
      block_ok loop body →
      arm_ok loop t (C.mkArm variant bindings whole body)

with block_ok (loop : bool) : C.Block → Prop :=
  | ok_statements statements tail falls :
      Forall (statement_ok loop) statements →
      (∀ v, tail = Some v → expr_ok loop v) →
      block_ok loop (C.mkBlock statements tail falls)

with statement_ok (loop : bool) : C.Stmt → Prop :=
  | ok_statement kind sp : stmt_kind_ok loop kind → statement_ok loop (C.mkStmt kind sp)

with stmt_kind_ok (loop : bool) : C.StmtKind → Prop :=
  | ok_let l v :
      expr_ok loop v → get (locals E) l = Some (C.e_ty v) → stmt_kind_ok loop (C.Let l v)
  | ok_assign l v :
      expr_ok loop v → get (locals E) l = Some (C.e_ty v) →
      stmt_kind_ok loop (C.Assign l v)
  | ok_return v : (∀ e, v = Some e → expr_ok loop e) → stmt_kind_ok loop (C.Return v)
  | ok_assert v message : expr_ok loop v → stmt_kind_ok loop (C.Assert v message)
  | ok_discard v : expr_ok loop v → stmt_kind_ok loop (C.Discard v)
  | ok_expr_stmt v : expr_ok loop v → stmt_kind_ok loop (C.ExprStmt v)
  | ok_while condition body :
      expr_ok loop condition → block_ok true body →
      stmt_kind_ok loop (C.While condition body)
  | ok_break : loop = true → stmt_kind_ok loop C.Break
  | ok_continue : loop = true → stmt_kind_ok loop C.Continue
  | ok_defer id body : block_ok false body → stmt_kind_ok loop (C.Defer id body)
  | ok_cleanup id body : block_ok false body → stmt_kind_ok loop (C.Cleanup id body).
End rules.
