(* ===== verification/OperationFacts.v ===== *)
(** The operand checks of runtime operations decide the typing rules of [Typing]: they
    accept exactly the well-typed applications, and refuse the others with an ordinary
    error. *)

From S2P Require Import Prelude Text Model Reader Operations Converter Typing.

(** ** Deciding a proposition with a fallible check *)

(** [m] returns without a panic, with [Ok] exactly when [P] holds. *)
Definition decides {A} (m : outcome A) (P : Prop) : Prop :=
  match m with
  | Ok _ => P
  | Err _ => ¬ P
  | Panic _ | Stuck => False
  end.

Lemma decides_fail_if (c : bool) msg (P : Prop) :
  (c = false ↔ P) → decides (fail_if c msg) P.
Proof. destruct c; simpl; intros [H1 H2]; [intros HP; by apply H2 in HP|by apply H1]. Qed.

Lemma decides_iff {A} (m : outcome A) (P Q : Prop) : (P ↔ Q) → decides m P → decides m Q.
Proof. intros HPQ. destruct m; simpl; tauto. Qed.

Lemma decides_bind {A B} (m : outcome A) (k : A → outcome B) (P Q : Prop) :
  decides m P → (∀ v, m = Ok v → decides (k v) Q) → decides (m ≫= k) (P ∧ Q).
Proof.
  destruct m as [v| | |]; simpl; intros HP Hk; try tauto.
  specialize (Hk v eq_refl). destruct (k v); simpl in *; tauto.
Qed.

Lemma decides_bind_ok_or {A B} (o : option A) msg (k : A → outcome B) (P : Prop) :
  (∀ v, o = Some v → decides (k v) P) → (o = None → ¬ P) →
  decides (ok_or o msg ≫= k) P.
Proof. destruct o; simpl; auto. Qed.

Lemma decides_fail_if_bind {B} (c : bool) msg (k : () → outcome B) (P : Prop) :
  (c = false → decides (k tt) P) → (c = true → ¬ P) → decides (fail_if c msg ≫= k) P.
Proof. destruct c; simpl; auto. Qed.

Lemma decides_Ok {A} (m : outcome A) (P : Prop) v : decides m P → m = Ok v → P.
Proof. by intros H ->. Qed.

Lemma decides_sat {A} (m : outcome A) (P : Prop) : decides m P → outcome_sat (λ _, P) m.
Proof. by destruct m. Qed.

(** ** Lookups on existing types *)

Section lookups.
Context (self : Converter).
Local Abbreviation p := (program self).

Lemma kind_of_eq id :
  type_ok p (Ty.Data id) →
  ∃ d, get (C.types p) id = Some d ∧ kind_of self id = Ok (C.d_kind d).
Proof.
  intros [d Hd]%get_lt. exists d. split; [exact Hd|].
  unfold kind_of, index_or_panic.  by rewrite Hd.
Qed.

(** A view of the data table that the code takes with an error otherwise. *)
Local Ltac view t :=
  let d := fresh "d" in let Hd := fresh in let Hk := fresh in
  intros Ht; destruct t; try reflexivity;
  destruct (kind_of_eq _ Ht) as (d & Hd & Hk);
  cbn -[get]; rewrite Hk; unfold data_view; rewrite Hd; simpl;
  destruct (C.d_kind d); reflexivity.

Lemma record_eq t :
  type_ok p t →
  record self t = ok_or (record_of p t) "checked field requires a record layout".
Proof. view t. Qed.

Lemma frame_eq t :
  type_ok p t →
  frame self t = ok_or (frame_of p t) "checked frame operation requires a generated frame".
Proof. view t. Qed.

Lemma task_result_eq t :
  type_ok p t →
  task_result self t = ok_or (task_of p t) "checked task operation requires a Task type".
Proof. view t. Qed.

Lemma variant_eq t id :
  type_ok p t →
  variant self t id =
    variants ← ok_or (enum_of p t) "checked variant requires an enum layout";
    snd <$> at_ variants id.
Proof. view t. Qed.

Lemma is_enum_eq t : type_ok p t → is_enum self t = Ok (bool_decide (is_Some (enum_of p t))).
Proof. view t. Qed.

Lemma list_of_eq t e :
  type_ok p t → list_of self t e = Ok (bool_decide (element_of p t = Some e)).
Proof.
  destruct t; try reflexivity. intros [l Hl]%get_lt. simpl.
  unfold index_or_panic.  rewrite Hl. simpl. f_equal. apply bool_decide_ext.
  split; [by intros ->|by intros [= ->]].
Qed.

Lemma function_type_eq t msg :
  type_ok p t → function_type self t msg = ok_or (signature_of p t) msg.
Proof.
  destruct t; try reflexivity. intros [s Hs]%get_lt. simpl.
  unfold index_or_panic.  by rewrite Hs.
Qed.

Lemma coroutine_frame_spec t :
  type_ok p t →
  match coroutine_of p t with
  | Some fields => coroutine_frame self t = Ok fields
  | None => ∃ e, coroutine_frame self t = Err e
  end.
Proof.
  intros Ht. unfold coroutine_frame, coroutine_of. rewrite frame_eq by exact Ht.
  destruct (frame_of p t) as [[|f [|[n s] fields]]|]; [by eexists..| |by eexists].
  cbn [ok_or mbind outcome_bind option_bind].
  replace (lengthN (f :: (n, s) :: fields) <? 2) with false
    by (symmetry; apply N.ltb_ge; simpl; lia).
  rewrite (index_or_panic_lookup _ 1 (n, s)) by reflexivity.
  destruct s; simpl; (reflexivity || by eexists).
Qed.

Lemma decides_coroutine_frame {B} t (k : list (bytes * Ty.Ty) → outcome B) (P : Prop) :
  type_ok p t →
  (∀ fields, coroutine_of p t = Some fields → decides (k fields) P) →
  (coroutine_of p t = None → ¬ P) →
  decides (coroutine_frame self t ≫= k) P.
Proof.
  intros Ht Hk Hn. pose proof (coroutine_frame_spec t Ht) as Hc.
  destruct (coroutine_of p t) as [fields|]; [rewrite Hc; by apply Hk|].
  destruct Hc as [e ->]. by apply Hn.
Qed.
End lookups.

(** ** Closed tables *)

Section closed.
Context (p : C.Program) (Hp : tables_ok p).

Lemma data_view_ok {A} (view : C.DataKind → option A) (P : A → Prop) t v :
  (∀ k, Forall (type_ok p) (kind_types k) → ∀ v, view k = Some v → P v) →
  data_view view p t = Some v → P v.
Proof.
  intros HP. destruct t; simpl; try discriminate.
  destruct (get (C.types p) id) as [d|] eqn:Hd; simpl; [|discriminate].
  apply HP. exact (get_Forall _ _ _ _ (types_closed p Hp) Hd).
Qed.

Lemma task_of_ok t r : task_of p t = Some r → type_ok p r.
Proof.
  apply data_view_ok. intros [] Hk ? [= <-]. by apply Forall_cons in Hk as [? _].
Qed.

Lemma record_of_ok t fields : record_of p t = Some fields → Forall (type_ok p) fields.*2.
Proof.
  apply (data_view_ok _ (λ fields, Forall (type_ok p) fields.*2)).
  by intros [] Hk ? [= <-].
Qed.

Lemma frame_of_ok t fields : frame_of p t = Some fields → Forall (type_ok p) fields.*2.
Proof.
  apply (data_view_ok _ (λ fields, Forall (type_ok p) fields.*2)).
  by intros [] Hk ? [= <-].
Qed.

Lemma signature_of_ok t s : signature_of p t = Some s → signature_ok p s.
Proof.
  destruct t; simpl; try discriminate. intros Hs.
  exact (get_Forall _ _ _ _ (function_types_closed p Hp) Hs).
Qed.

Lemma signature_param_ok t s u :
  signature_of p t = Some s → C.sig_params s = [u] → type_ok p u.
Proof. intros [Hs _]%signature_of_ok Hu. rewrite Hu in Hs. by apply Forall_cons in Hs as [? _]. Qed.

Lemma signature_result_ok t s : signature_of p t = Some s → type_ok p (C.sig_result s).
Proof. by intros [_ Hs]%signature_of_ok. Qed.
End closed.

(** ** Operand lists of known length *)

Ltac known_arguments H :=
  repeat match type of H with
  | context [length ?l] =>
      is_var l;
      let x := fresh "x" in let l' := fresh "l" in
      destruct l as [|x l']; cbn [length] in H; try (exfalso; lia)
  end;
  clear H;
  repeat match goal with
  | HF : Forall _ (_ :: _) |- _ =>
      apply Forall_cons in HF; let H' := fresh HF in destruct HF as [H' HF]
  | HF : Forall _ [] |- _ => clear HF
  end;
  unfold arg; simpl.

Lemma is_list_true t : is_list t = true ↔ is_list_type t.
Proof.
  unfold is_list_type. destruct t; simpl; split; try discriminate; try (intros [? ?]; discriminate);
    eauto.
Qed.

(** Equations between operand lists and between signatures. *)
Ltac rule_facts :=
  repeat match goal with
  | H : _ ∧ _ |- _ => destruct H
  | H : ∃ _, _ |- _ => destruct H
  | H : is_Some _ |- _ => destruct H
  | H : (_ || _)%bool = false |- _ => apply orb_false_iff in H
  | H : negb _ = false |- _ => apply negb_false_iff in H
  | H : (_ && _)%bool = true |- _ => apply andb_true_iff in H
  | H : bool_decide _ = true |- _ => apply bool_decide_eq_true in H
  | H : is_list _ = true |- _ => apply is_list_true in H
  | H : [] = _ :: _ |- _ => discriminate H
  | H : _ :: _ = [] |- _ => discriminate H
  | H : _ :: _ = _ :: _ |- _ => injection H; clear H; intros
  | H : Some _ = Some _ |- _ => injection H; clear H; intros
  | H : C.mkSignature _ _ = C.mkSignature _ _ |- _ => injection H; clear H; intros
  | H : ?x = ?x |- _ => clear H
  | H : ?x = _ |- _ => is_var x; subst x
  | H : _ = ?x |- _ => is_var x; subst x
  end.

(** Goals that list the conditions of a rule. *)
Ltac rule_goal :=
  repeat match goal with
  | |- ∃ _, _ => eexists
  | |- _ ∧ _ => split
  | |- is_Some _ => eexists
  end;
  try first [reflexivity | eassumption | congruence].

Ltac op_iff :=
  split;
  [ intros; rule_facts; rule_goal
  | intros; rule_facts;
    rewrite ?orb_false_iff, ?negb_false_iff, ?andb_true_iff, ?bool_decide_eq_true, ?is_list_true;
    split_and?; first [assumption | congruence] ].

Ltac op_absurd := intros ? ?; unfold cleanup_callback in *; rule_facts; congruence.

(** Replace operand expressions by their types. *)
Ltac forget_exprs :=
  repeat match goal with
  | |- context [C.e_ty ?x] => is_var x;
      let t := fresh "t" in generalize dependent (C.e_ty x); intros t; intros
  end.

Ltac op_step :=
  lazymatch goal with
  | |- decides (task_result _ _ ≫= _) _ => rewrite task_result_eq by eauto with closed
  | |- decides (function_type _ _ _ ≫= _) _ => rewrite function_type_eq by eauto with closed
  | |- decides (list_of _ _ _ ≫= _) _ => rewrite list_of_eq by eauto with closed; simpl
  | |- decides (coroutine_frame _ _ ≫= _) _ =>
      apply decides_coroutine_frame; [eauto with closed|intros ? ?|op_absurd]
  | |- decides (ok_or _ _ ≫= _) _ => apply decides_bind_ok_or; [intros ? ?|op_absurd]
  | |- decides (fail_if _ _) _ => apply decides_fail_if; op_iff
  end.

Ltac op_decide H := known_arguments H; forget_exprs; repeat op_step.

Create HintDb checks.
#[export] Hint Unfold
  check_task_drain check_fault_text check_task_observe check_task_next
  check_task_wait_resolve check_task_wait_process_capture
  check_task_process_capture_result check_task_wait_file_open check_file_close
  check_task_file_open_result check_task_wait_worker check_task_worker_result
  check_task_wait_file_read check_task_wait_file_write check_task_file_result
  check_task_bytes_result check_task_wait_timer check_task_wait_socket
  check_monotonic_ns check_task_create check_task_adopt check_task_cleanup_push
  check_task_cleanup_pop check_task_result_cleanup_push check_task_return task_outcome
  check_task_outcome check_task_run check_list_new_capacity check_mutex_lock
  check_list_pop check_list_retain_range check_process_capture check_tls_client
  check_tls_server : checks.

Create HintDb closed.
#[export] Hint Resolve task_of_ok signature_param_ok signature_result_ok : closed.

Section task_operations.
Context (self : Converter) (arguments : list C.Expr) (result : Ty.Ty).
Local Abbreviation p := (program self).
Context (Hp : tables_ok p) (Hresult : type_ok p result)
        (Hargs : Forall (λ e, type_ok p (C.e_ty e)) arguments).

Local Abbreviation rule operation := (task_rule p operation (C.e_ty <$> arguments) result).

(** The [let … else] of the worker operations. *)
Lemma decides_frame {B} t (k : list (bytes * Ty.Ty) → outcome B) msg1 msg2 (P : Prop) :
  type_ok p t →
  (∀ fields, frame_of p t = Some fields → decides (k fields) P) →
  (frame_of p t = None → ¬ P) →
  decides
    match t with
    | Ty.Data id =>
        kind ← kind_of self id;
        match kind with C.Frame fields => k fields | _ => Err msg1 end
    | _ => Err msg2
    end P.
Proof.
  intros Ht Hk Hn. destruct t; try (by apply Hn).
  destruct (kind_of_eq self id Ht) as (d & Hd & Hkind). rewrite Hkind. simpl in Hk, Hn.
  rewrite Hd in Hk, Hn. simpl in *.
  destruct (C.d_kind d); simpl in *; [by apply Hn..|by apply Hk].
Qed.

Lemma coroutine_of_cons t fields :
  coroutine_of p t = Some fields → ∃ n r rest, fields = (n, r) :: rest.
Proof.
  unfold coroutine_of. destruct (frame_of p t) as [[|[n r] [|[? []] ?]]|]; simpl; try discriminate.
  intros [= <-]. by eexists _, _, _.
Qed.

Lemma check_task_create_decides :
  lengthN arguments = 3 →
  decides (check_task_create self arguments result) (rule Primitive.TaskCreate).
Proof.
  unfold check_task_create. intros H. op_decide H.
  rename select (coroutine_of p _ = _) into Hc.
  destruct (coroutine_of_cons _ _ Hc) as (n & r & rest & ->).
  destruct v as [params res]. simpl. repeat op_step.
Qed.

(** The callback's only parameter is checked last. *)
Lemma callback_tail_decides t s :
  signature_of p t = Some s → length (C.sig_params s) = 1%nat → C.sig_result s = Ty.Unit →
  decides
    (parameter ← index_or_panic (C.sig_params s) 0; coroutine_frame self parameter ;; Ok tt)
    (cleanup_callback p t).
Proof.
  intros Hs. destruct s as [[|u [|]] res]; try discriminate. simpl. intros _ ->.
  unfold cleanup_callback. rewrite Hs.
  apply decides_coroutine_frame; [eauto with closed|intros; simpl; rule_goal|op_absurd].
Qed.

Lemma cleanup_callback_shape t s :
  signature_of p t = Some s → cleanup_callback p t →
  length (C.sig_params s) = 1%nat ∧ C.sig_result s = Ty.Unit.
Proof. intros Hs (fr & Hfr & _). rewrite Hs in Hfr. by injection Hfr as ->. Qed.

Lemma check_task_cleanup_push_decides :
  lengthN arguments = 2 →
  decides (check_task_cleanup_push self arguments result) (rule Primitive.TaskCleanupPush).
Proof.
  unfold check_task_cleanup_push. intros H. op_decide H.
  apply decides_fail_if_bind; intros Hc.
  - rule_facts. eapply decides_iff; [|by eapply callback_tail_decides].
    split; intros; rule_facts; rule_goal.
  - intros (f & Hf & Hcb & ->). rule_facts.
    eapply cleanup_callback_shape in Hcb as [Hl Hr]; [|eassumption].
    rewrite Hl, Hr in Hc. discriminate.
Qed.

Lemma check_task_result_cleanup_push_decides :
  lengthN arguments = 1 →
  decides (check_task_result_cleanup_push self arguments result)
    (rule Primitive.TaskResultCleanupPush).
Proof.
  unfold check_task_result_cleanup_push. intros H. op_decide H.
  apply decides_fail_if_bind; intros Hc.
  - rule_facts. eapply decides_iff; [|by eapply callback_tail_decides].
    split; intros; rule_facts; rule_goal.
  - intros (f & Hf & Hcb & ->). rule_facts.
    eapply cleanup_callback_shape in Hcb as [Hl Hr]; [|eassumption].
    rewrite Hl, Hr in Hc. discriminate.
Qed.

Lemma check_task_result_case_decides :
  lengthN arguments = 1 →
  decides (check_task_outcome self arguments result Primitive.TaskResultCase)
    (rule Primitive.TaskResultCase).
Proof.
  unfold check_task_outcome. intros H. op_decide H.
  rewrite is_enum_eq by eauto with closed. simpl.
  apply decides_fail_if_bind; intros Hc.
  - rule_facts. op_step.
  - intros (h & r & ? & ? & ? & ?). apply negb_true_iff, bool_decide_eq_false in Hc.
    rule_facts. apply Hc. simplify_eq. by eexists.
Qed.

Lemma check_task_run_decides :
  lengthN arguments = 1 →
  decides (check_task_run self arguments result) (rule Primitive.TaskRun).
Proof.
  unfold check_task_run. intros H. op_decide H.
  apply decides_fail_if_bind; intros Hc.
  - pose proof (signature_result_ok _ Hp _ _ H).
    destruct v as [[|] res]; [|discriminate]. simpl in *. rule_facts. repeat op_step.
  - intros (f & h & ? & Hs & ? & ->). rule_facts. rewrite Hs in H. injection H as <-.
    discriminate Hc.
Qed.

Lemma check_task_wait_worker_decides :
  lengthN arguments = 2 →
  decides (check_task_wait_worker self arguments result) (rule Primitive.TaskWaitWorker).
Proof.
  unfold check_task_wait_worker. intros H. op_decide H.
  apply decides_frame; [assumption|intros fields Hf|op_absurd].
  do 2 op_step. destruct v as [params res]. simpl. op_step.
Qed.

Lemma check_task_worker_result_decides :
  lengthN arguments = 1 →
  decides (check_task_worker_result self arguments result)
    (rule Primitive.TaskWorkerResult).
Proof.
  unfold check_task_worker_result. intros H. op_decide H.
  apply decides_frame; [assumption|intros fields Hf|op_absurd].
  destruct fields as [|[n r] fields]; simpl; [intros (? & ? & ? & ? & ?); rule_facts; congruence|].
  apply decides_fail_if. op_iff.
Qed.

(** Every arm of [task_operation]. *)
Lemma task_operation_decides operation :
  lengthN arguments = primitive_arity operation →
  decides (task_operation self operation arguments result) (rule operation).
Proof.
  destruct operation; try (intros _; exact I);
    try first
      [ exact check_task_create_decides | exact check_task_cleanup_push_decides
      | exact check_task_result_cleanup_push_decides
      | exact check_task_result_case_decides | exact check_task_run_decides
      | exact check_task_wait_worker_decides | exact check_task_worker_result_decides ];
    cbn [task_operation task_rule primitive_arity]; autounfold with checks; simpl;
    intros H; op_decide H.
Qed.
End task_operations.

(** ** The other runtime operations *)

(** The signature of a function of the stream under the type map, when it has one. *)
Definition raw_signature (self : Converter) (id : N) : option C.Signature :=
  f ← get (functions self) id;
  params ← mapM (get (types self)) (Raw.f_params f);
  result ← get (types self) (Raw.f_result f);
  Some (C.mkSignature params result).

Section runtime_operations.
Context (self : Converter) (arguments : list C.Expr) (result : Ty.Ty).
Local Abbreviation p := (program self).
Context (Hp : tables_ok p) (Hresult : type_ok p result)
        (Hargs : Forall (λ e, type_ok p (C.e_ty e)) arguments).

Local Abbreviation signature_is := (λ id s, raw_signature self id = Some s).

Lemma check_list_operation_decides operation :
  operation ≠ Primitive.CleanupEach →
  lengthN arguments = primitive_arity operation →
  decides (runtime_checks self arguments result operation)
    (list_rule p operation (C.e_ty <$> arguments) result).
Proof.
  destruct operation; try (intros _ _; exact I); try (intros Hne; by destruct Hne); intros _;
    cbn [runtime_checks list_rule primitive_arity]; autounfold with checks; simpl; intros H;
    op_decide H.
Qed.

Lemma raw_signature_Some id s :
  raw_signature self id = Some s ↔
  ∃ f, get (functions self) id = Some f ∧
       Forall2 (λ i t, get (types self) i = Some t) (Raw.f_params f) (C.sig_params s) ∧
       get (types self) (Raw.f_result f) = Some (C.sig_result s).
Proof.
  unfold raw_signature. split.
  - intros (f & Hf & (params & Hps & (r & Hr & [= <-])%bind_Some)%bind_Some)%bind_Some.
    exists f. split_and!; [exact Hf|by apply mapM_Some|exact Hr].
  - intros (f & -> & Hps & Hr). destruct s as [params r]. simpl in *.
    apply mapM_Some in Hps. rewrite Hps. simpl. by rewrite Hr.
Qed.

(** One comparison of an optional type with the expected one. *)
Lemma decides_expect {B} (o : option Ty.Ty) t msg msg' (k : () → outcome B) (P : Prop) :
  (o = Some t → decides (k tt) P) →
  decides (u ← ok_or o msg; fail_if (u <>! t) msg' ≫= k) (o = Some t ∧ P).
Proof.
  intros Hk. apply decides_bind_ok_or; [intros u ->|intros ->; intros [? _]; congruence].
  apply decides_fail_if_bind; intros H.
  - apply negb_false_iff, bool_decide_eq_true in H as ->.
    apply (decides_iff _ P); [tauto|by apply Hk].
  - apply negb_true_iff, bool_decide_eq_false in H. intros [? _]. congruence.
Qed.

Lemma signature_components f a c d target list :
  get (functions self) target = Some f → Raw.f_params f = [a; c; d] →
  (∃ f, get (functions self) target = Some f ∧
        Forall2 (λ i t, get (types self) i = Some t) (Raw.f_params f) [list; Ty.Int; Ty.Int] ∧
        get (types self) (Raw.f_result f) = Some Ty.Unit) ↔
  get (types self) a = Some list ∧ get (types self) c = Some Ty.Int ∧
  get (types self) d = Some Ty.Int ∧ get (types self) (Raw.f_result f) = Some Ty.Unit.
Proof.
  intros Hf Hps. split.
  - intros (f' & Hf' & Hall & Hr). replace f' with f in * by congruence.
    rewrite Hps, !Forall2_cons in Hall. tauto.
  - intros (? & ? & ? & ?). exists f. rewrite Hps. split_and!; [assumption| |assumption].
    repeat constructor; assumption.
Qed.

(** The callback's signature, compared component by component. *)
Lemma callback_signature_decides target list msg :
  decides
    (callback ← at_ (functions self) target;
     let parameter i := (id ← index_or_panic (Raw.f_params callback) i; ty self id) in
     fail_if (lengthN (Raw.f_params callback) <>! 3) msg ;;
     p0 ← parameter 0; fail_if (p0 <>! list) msg ;;
     p1 ← parameter 1; fail_if (p1 <>! Ty.Int) msg ;;
     p2 ← parameter 2; fail_if (p2 <>! Ty.Int) msg ;;
     result ← ty self (Raw.f_result callback); fail_if (result <>! Ty.Unit) msg)
    (raw_signature self target = Some (C.mkSignature [list; Ty.Int; Ty.Int] Ty.Unit)).
Proof.
  unfold ty, at_. apply (decides_iff _ _ _ (iff_sym (raw_signature_Some _ _))).
  apply decides_bind_ok_or; [intros f Hf|intros ? (? & ? & _); congruence].
  cbv zeta. simpl C.sig_params. simpl C.sig_result.
  apply decides_fail_if_bind; intros Hlen.
  - apply negb_false_iff, bool_decide_eq_true in Hlen.
    destruct (Raw.f_params f) as [|a [|c [|d [|e rest]]]] eqn:Hparams;
      cbn [length] in Hlen; try (exfalso; lia). simpl.
    eapply decides_iff; [symmetry; apply (signature_components f a c d); assumption|].
    repeat (apply decides_expect; intros _). apply decides_bind_ok_or.
    + intros r Hr. apply decides_fail_if. rewrite negb_false_iff, bool_decide_eq_true.
      split; congruence.
    + intros Hn ?. congruence.
  - intros (f' & Hf' & Hps & _). replace f' with f in Hps by congruence.
    apply Forall2_length in Hps. apply negb_true_iff, bool_decide_eq_false in Hlen.
    apply Hlen. rewrite Hps. reflexivity.
Qed.

Lemma check_cleanup_each_decides :
  lengthN arguments = 3 →
  decides (check_cleanup_each self arguments result)
    (each_rule signature_is Primitive.CleanupEach arguments result).
Proof.
  intros H. unfold check_cleanup_each, each_rule. known_arguments H.
  apply decides_fail_if_bind; intros Hc.
  - rule_facts. destruct (C.e_kind x0) eqn:Hk;
      try (intros Hr; destruct (Hr eq_refl) as (? & ? & ? & ? & Heq & _ & _ & _ & Hk' & _);
           injection Heq as <- <- <-; congruence).
    eapply decides_iff; [|apply callback_signature_decides].
    split.
    + intros Hs _. by eexists _, _, _, _.
    + intros Hr. destruct (Hr eq_refl) as (? & ? & ? & ? & Heq & _ & _ & _ & Hk' & Hs).
      injection Heq as <- <- <-. rewrite Hk in Hk'. by injection Hk' as <-.
  - intros Hr. destruct (Hr eq_refl) as (? & ? & ? & ? & Heq & Hl & Hs & -> & _).
    injection Heq as <- <- <-. apply is_list_true in Hl.
    by rewrite Hl, Hs in Hc.
Qed.

Lemma check_signature_decides operation :
  decides (check_signature arguments result operation)
    (signature_rule operation (C.e_ty <$> arguments) result).
Proof.
  unfold check_signature, signature_rule.
  destruct (runtime_signature operation) as [[params r]|]; [|by intros ?].
  apply decides_fail_if. rewrite orb_false_iff, !negb_false_iff, !bool_decide_eq_true. split.
  - intros [-> ->] s [= <-]. reflexivity.
  - intros Hs. specialize (Hs _ eq_refl). injection Hs as <- <-. split; reflexivity.
Qed.

Lemma runtime_checks_decides operation :
  lengthN arguments = primitive_arity operation →
  decides (runtime_checks self arguments result operation)
    (list_rule p operation (C.e_ty <$> arguments) result ∧
     each_rule signature_is operation arguments result).
Proof.
  intros Hn. destruct (decide (operation = Primitive.CleanupEach)) as [->|Hne].
  - eapply decides_iff; [|by apply check_cleanup_each_decides]. simpl. tauto.
  - eapply decides_iff; [|by apply check_list_operation_decides]. unfold each_rule. tauto.
Qed.

(** The three groups of checks of arm 7, in order. *)
Lemma operation_checks_decide operation :
  lengthN arguments = primitive_arity operation →
  decides (operation_checks self arguments result operation)
    (operation_rule p signature_is operation arguments result).
Proof.
  intros Hn.
  eapply decides_iff; [|apply decides_bind;
    [by apply (task_operation_decides self arguments result)|intros _ _; apply decides_bind;
      [by apply runtime_checks_decides|intros _ _; apply check_signature_decides]]].
  unfold operation_rule. tauto.
Qed.
End runtime_operations.
