(* ===== verification/ConverterFacts.v ===== *)
(** The converter never panics and never runs out of fuel on trees of bounded depth, and
    every program tree it returns obeys the rules of [Typing]. *)

From S2P Require Import Prelude Text Model Reader ReaderFacts Operations Converter Typing OperationFacts.

(** ** The converter's tables *)

(** [self] works for the environment [E]: its type map only yields existing types, and
    [E] knows the signatures and locals of the stream's functions. *)
Record cv_ok (E : Env) (self : Converter) : Prop := {
  cv_program : program self = tables E;
  cv_tables : tables_ok (tables E);
  cv_types : Forall (type_ok (tables E)) (types self);
  cv_locals : Forall2 (λ i t, get (types self) i = Some t)
                (Raw.f_locals (source self)) (locals E);
  cv_arity : ∀ id f, get (functions self) id = Some f → arity E id (length (Raw.f_params f));
  cv_signature : ∀ id s, raw_signature self id = Some s → signature E id s;
}.

Lemma cv_ok_loop_depth E self d : cv_ok E self → cv_ok E (with_loop_depth self d).
Proof. intros []. by constructor. Qed.

Definition in_loop (self : Converter) : bool := negb (loop_depth self =? 0).

Lemma expr_ok_type E loop e : expr_ok E loop e → type_ok (tables E) (C.e_ty e).
Proof. by inversion 1. Qed.

Lemma exprs_ok_types E loop es :
  Forall (expr_ok E loop) es → Forall (λ e, type_ok (tables E) (C.e_ty e)) es.
Proof. intros H. eapply Forall_impl; [exact H|]. apply expr_ok_type. Qed.

Lemma at_sat {A} (l : list A) i : outcome_sat (λ v, get l i = Some v) (at_ l i).
Proof. by apply ok_or_sat. Qed.

Lemma at_fmap_sat {A B} (f : A → B) (l : list A) i :
  outcome_sat (λ v, f <$> get l i = Some v) (f <$> at_ l i).
Proof.
  unfold at_. destruct (get l i) eqn:H; simpl; [reflexivity|exact I].
Qed.

#[export] Hint Resolve at_sat at_fmap_sat index_sat : outcome.

Lemma mapM_get_sat (l : list N) (ts : list Ty.Ty) (m : N → outcome Ty.Ty) :
  (∀ i, outcome_sat (λ t, get ts i = Some t) (m i)) →
  outcome_sat (Forall2 (λ i t, get ts i = Some t) l) (mapM m l).
Proof. intros H. apply mapM_sat. intros i _. apply H. Qed.

Lemma elem_of_arm_locals arm l :
  Some l ∈ Raw.a_whole arm :: Raw.a_bindings arm → l ∈ arm_locals arm.
Proof.
  intros H. unfold arm_locals. apply list_elem_of_omap. exists (Some l). split; [|reflexivity].
  rewrite elem_of_app, list_elem_of_singleton. apply elem_of_cons in H. tauto.
Qed.

(** ** Children *)

Section nodes.
Context (E : Env) (self : Converter) (Hcv : cv_ok E self) (n : nat).
Context (expr : Converter → Raw.Expr → outcome C.Expr).
Context (block : Converter → Raw.Expr → outcome C.Block).
Let loop := in_loop self.
Context (Hexpr : ∀ e, expr_wf n e → outcome_sat (expr_ok E loop) (expr self e)).
Context (Hblock : ∀ e, expr_wf n e → outcome_sat (block_ok E loop) (block self e)).
Context (node : Raw.Expr) (Hchildren : Forall (expr_wf n) (Raw.e_children node)).
Context (Harms : Forall (λ a, Forall (expr_wf n) (Raw.a_body a)) (Raw.e_arms node)).
Context (t : Ty.Ty) (Ht : type_ok (tables E) t).

Lemma self_type_ok u : type_ok (tables E) u → type_ok (program self) u.
Proof. by rewrite (cv_program E self Hcv). Qed.

Lemma self_tables_ok : tables_ok (program self).
Proof. rewrite (cv_program E self Hcv). apply (cv_tables E self Hcv). Qed.

Lemma ty_sat i :
  outcome_sat (λ u, get (types self) i = Some u ∧ type_ok (tables E) u) (ty self i).
Proof.
  eapply sat_mono; [apply at_sat|]. intros u _ Hu. split; [exact Hu|].
  exact (get_Forall _ _ _ _ (cv_types E self Hcv) Hu).
Qed.

Lemma local_sat i : outcome_sat (λ l, local_ok E l) (local self i).
Proof.
  unfold local. eapply sat_bind; [apply index_sat|]. intros l _ _.
  eapply sat_bind; [apply at_sat|]. intros u _ Hu%get_Some_lt. simpl. unfold local_ok.
  by rewrite (Forall2_length _ _ _ (cv_locals E self Hcv)) in Hu.
Qed.

Lemma child_sat nd i count :
  Forall (expr_wf n) (Raw.e_children nd) →
  outcome_sat (λ e, expr_wf n e ∧ get (Raw.e_children nd) i = Some e) (child nd i count).
Proof.
  intros Hnd. unfold child. sat_step. apply ok_or_sat. intros e He. split; [|exact He].
  exact (get_Forall _ _ _ _ Hnd He).
Qed.

Lemma child_expr_sat i count :
  outcome_sat (expr_ok E loop) (child_expr expr self node i count).
Proof.
  unfold child_expr. eapply sat_bind; [by apply child_sat|]. intros e _ [He _]. by apply Hexpr.
Qed.

(** The child of an indexed field wrapper. *)
Lemma wrapped_sat nd :
  expr_wf n nd → outcome_sat (expr_ok E loop) (inner ← child nd 0 1; expr self inner).
Proof.
  intros Hnd. eapply sat_bind; [apply child_sat|intros e _ [He _]; by apply Hexpr].
  apply expr_wf_S in Hnd. by destruct Hnd as (_ & _ & _ & _ & _ & Hc & _).
Qed.

Lemma sat_wrapped {B} (Q : B → Prop) nd (k : C.Expr → outcome B) :
  expr_wf n nd → (∀ v, expr_ok E loop v → outcome_sat Q (k v)) →
  outcome_sat Q (inner ← child nd 0 1; value ← expr self inner; k value).
Proof.
  intros Hnd Hk. pose proof (wrapped_sat nd Hnd) as Hw.
  destruct (child nd 0 1); simpl in *; try assumption.
  destruct (expr self v); simpl in *; try assumption. by apply Hk.
Qed.

Lemma exprs_sat nodes :
  Forall (expr_wf n) nodes →
  outcome_sat (λ es, Forall (expr_ok E loop) es ∧ length es = length nodes)
    (exprs expr self nodes).
Proof.
  intros Hn. apply mapM_sat_Forall. intros e He. apply Hexpr.
  by eapply Forall_forall in Hn.
Qed.

Lemma record_sat u :
  type_ok (tables E) u →
  outcome_sat (λ fields, record_of (tables E) u = Some fields) (record self u).
Proof.
  intros Hu%self_type_ok. rewrite record_eq by exact Hu.
  rewrite (cv_program E self Hcv). by apply ok_or_sat.
Qed.

Lemma frame_sat u :
  type_ok (tables E) u →
  outcome_sat (λ fields, frame_of (tables E) u = Some fields) (frame self u).
Proof.
  intros Hu%self_type_ok. rewrite frame_eq by exact Hu.
  rewrite (cv_program E self Hcv). by apply ok_or_sat.
Qed.

Lemma record_or_frame_sat u :
  type_ok (tables E) u →
  outcome_sat (λ fields, record_of (tables E) u = Some fields ∨
                         frame_of (tables E) u = Some fields) (record_or_frame self u).
Proof.
  intros Hu. unfold record_or_frame. pose proof (record_sat u Hu) as Hr.
  destruct (record self u); simpl in *; try contradiction; [by left|].
  eapply sat_mono; [by apply frame_sat|]. auto.
Qed.

Lemma variant_sat u i :
  type_ok (tables E) u →
  outcome_sat (λ payload, ∃ variants, enum_of (tables E) u = Some variants ∧
                                      snd <$> get variants i = Some payload)
    (variant self u i).
Proof.
  intros Hu%self_type_ok. rewrite variant_eq by exact Hu. sat_step.
  eapply sat_mono; [apply at_fmap_sat|]. intros payload _ Hp. exists v.
  rewrite <-(cv_program E self Hcv). split; assumption.
Qed.

Lemma function_types_sat u s :
  get (C.function_types (program self)) u = Some s →
  signature_of (tables E) (Ty.Function u) = Some s.
Proof. by rewrite (cv_program E self Hcv). Qed.

Local Hint Resolve child_expr_sat child_sat record_sat frame_sat record_or_frame_sat
  variant_sat local_sat ty_sat expr_ok_type : outcome.

Local Abbreviation arm_sat m := (outcome_sat (kind_ok E loop t) m).

Lemma int_arm_sat : arm_sat (int_arm node).
Proof. unfold int_arm. sat_step. constructor. by eapply DecimalFacts.parse_i64_range. Qed.

Lemma float_arm_sat : arm_sat (float_arm node).
Proof. unfold float_arm. sat_step. constructor. Qed.

Lemma bool_arm_sat : arm_sat (bool_arm node).
Proof. unfold bool_arm. repeat sat_step; constructor. Qed.

Lemma nibble_sat c : outcome_sat (λ v, v < 16) (nibble c).
Proof.
  unfold nibble, in_range. repeat sat_step; bool_facts; lia.
Qed.

Lemma nibbles_byte hi lo : hi < 16 → lo < 16 → N.lor (N.shiftl hi 4) lo < 256.
Proof.
  intros Hhi Hlo.
  assert (hi = 0 ∨ 0 < hi) as [->|Hpos] by lia; [rewrite N.shiftl_0_l, N.lor_0_l; lia|].
  apply N.log2_lt_pow2 with (b := 8).
  - assert (N.lor (N.shiftl hi 4) lo ≠ 0); [|lia].
    rewrite N.lor_eq_0_iff, N.shiftl_eq_0_iff. lia.
  - rewrite N.log2_lor, N.log2_shiftl by lia.
    assert (N.log2 hi < 4) by (apply N.log2_lt_pow2; simpl; lia).
    destruct (decide (lo = 0)) as [->|]; [simpl; lia|].
    assert (N.log2 lo < 4) by (apply N.log2_lt_pow2; simpl; lia). lia.
Qed.

Lemma byte_pairs_sat s : outcome_sat (Forall (λ c, c < 256)) (byte_pairs s).
Proof.
  induction s as [s IH] using (induction_ltof1 _ length). unfold ltof in IH.
  destruct s as [|hi [|lo s]]; simpl; [constructor..|].
  eapply sat_bind; [apply nibble_sat|]. intros h _ Hh.
  eapply sat_bind; [apply nibble_sat|]. intros l _ Hl.
  eapply sat_bind; [apply IH; simpl; lia|]. intros rest _ Hrest.
  constructor; [by apply nibbles_byte|exact Hrest].
Qed.

Lemma bytes_arm_sat : arm_sat (bytes_arm node t).
Proof.
  unfold bytes_arm, byte_literal. sat_step. bool_facts. subst t.
  eapply sat_bind with (P := Forall (λ c, c < 256)); [|intros; by constructor].
  sat_step. apply byte_pairs_sat.
Qed.

Lemma local_arm_sat : arm_sat (local_arm self node).
Proof. unfold local_arm. sat_step. by constructor. Qed.

Lemma unary_arm_sat : arm_sat (unary_arm expr self node t).
Proof.
  unfold unary_arm, unary. repeat sat_step. constructor; [assumption|].
  rename select (_ && _ = false)%bool into Hb. intros ->.
  rewrite bool_decide_true in Hb by reflexivity. simpl in Hb. bool_facts. auto.
Qed.

Lemma bitwise_true operation : bitwise_op operation → bitwise operation = true.
Proof.
  unfold bitwise_op. intros H.
  repeat (apply elem_of_cons in H as [->|H]; [reflexivity|]). by apply elem_of_nil in H.
Qed.

Lemma binary_arm_sat : arm_sat (binary_arm expr self node t).
Proof.
  unfold binary_arm, binary. repeat sat_step. constructor; [assumption..|].
  rename select (_ && _ = false)%bool into Hb. intros Hop%bitwise_true.
  rewrite Hop in Hb. simpl in Hb. bool_facts. auto.
Qed.

Lemma call_arm_sat : arm_sat (call_arm expr self node).
Proof.
  unfold call_arm. eapply sat_bind; [apply index_sat|]. intros f _ _.
  eapply sat_bind; [apply at_sat|]. intros fn _ Hf. sat_step. bool_facts.
  eapply sat_bind; [by apply exprs_sat|]. intros es _ [Hes Hl].
  constructor; [exact Hes|]. rewrite Hl. rename select (length (Raw.f_params _) = _) into Hlen.
  rewrite <-Hlen. by apply (cv_arity E self Hcv).
Qed.

Lemma cell_get_arm_sat : arm_sat (cell_get_arm expr self node t).
Proof.
  unfold cell_get_arm. eapply sat_bind; [apply child_expr_sat|]. intros v _ Hv.
  eapply sat_bind; [apply frame_sat, (expr_ok_type _ _ _ Hv)|]. intros fields _ Hf.
  sat_step. destruct fields as [|[name u] [|]]; try discriminate. bool_facts. subst u.
  eapply ok_field; [exact Hv|right; exact Hf|reflexivity].
Qed.

Lemma operation_rule_mono operation arguments (S1 S2 : N → C.Signature → Prop) p :
  (∀ id s, S1 id s → S2 id s) →
  operation_rule p S1 operation arguments t → operation_rule p S2 operation arguments t.
Proof.
  intros HS (? & ? & ? & He & ?). split_and!; try assumption.
  intros Hop. destruct (He Hop) as (l & c & s & target & ? & ? & ? & ? & ? & ?).
  exists l, c, s, target. split_and!; auto.
Qed.

Lemma primitive_arm_sat : arm_sat (primitive_arm expr self node t).
Proof.
  unfold primitive_arm, primitive. sat_step. sat_step. bool_facts.
  eapply sat_bind; [by apply exprs_sat|]. intros es _ [Hes Hl].
  rename select (lengthN _ = primitive_arity _) into Harity. rewrite <-Hl in Harity.
  pose proof (operation_checks_decide self es t self_tables_ok (self_type_ok t Ht)) as Hd.
  rewrite (cv_program E self Hcv) in Hd.
  specialize (Hd (exprs_ok_types E loop es Hes) _ Harity).
  eapply sat_bind; [exact (decides_sat _ _ Hd)|]. intros u _ Hrule. cbv beta in Hrule.
  constructor; [exact Hes|]. eapply operation_rule_mono; [|exact Hrule].
  apply (cv_signature E self Hcv).
Qed.

(** Each flag of [seen] tells whether its field has been initialised. *)
Definition seen_ok (fields : list (bytes * Ty.Ty)) (seen : list bool) (ids : list N) : Prop :=
  length seen = length fields ∧ NoDup ids ∧
  Forall (λ i, i < lengthN fields ∧ get seen i = Some false) ids.

Lemma seen_ok_step fields seen i ids :
  i < lengthN fields → get seen i = Some false →
  seen_ok fields (<[N.to_nat i := true]> seen) ids → seen_ok fields seen (i :: ids).
Proof.
  intros Hi Hs (Hl & Hd & Hids). rewrite length_insert in Hl.
  assert (i < lengthN seen) as Hi' by (by eapply get_Some_lt).
  split_and!; [exact Hl|constructor; [|exact Hd]|constructor; [split; assumption|]].
  - intros Hin. eapply Forall_forall in Hids as [_ Hf]; [|exact Hin].
    by rewrite get_insert_eq in Hf.
  - eapply Forall_impl; [exact Hids|]. intros j [Hj Hf]. split; [exact Hj|].
    destruct (decide (i = j)) as [->|Hne]; [by rewrite get_insert_eq in Hf|].
    by rewrite get_insert_ne in Hf.
Qed.

Lemma seen_ok_start fields ids :
  seen_ok fields (replicate (length fields) false) ids →
  NoDup ids ∧ Forall (λ i, i < lengthN fields) ids.
Proof.
  intros (_ & Hd & Hids). split; [exact Hd|]. eapply Forall_impl; [exact Hids|].
  intros i [Hi _]. exact Hi.
Qed.

Lemma record_fields_sat fields seen nodes :
  length seen = length fields → Forall (expr_wf n) nodes →
  outcome_sat (λ values, seen_ok fields seen values.*1 ∧ length values = length nodes ∧
                         Forall (λ v, expr_ok E loop v.2) values)
    (record_fields expr self fields seen nodes).
Proof.
  intros Hl Hn. revert seen Hl. induction Hn as [|f nodes Hf Hn IH]; intros seen Hl; simpl.
  { split_and!; [split_and!; [exact Hl|constructor..]|reflexivity|constructor]. }
  sat_step. eapply sat_bind; [apply index_sat|]. intros i _ _.
  eapply sat_bind; [apply at_sat|]. intros field _ Hfield%get_Some_lt.
  eapply sat_bind; [apply (index_or_panic_sat (λ u, get seen i = Some u)); [lia|auto]|].
  intros used _ Hused. cbv beta in Hused. sat_step. subst used.
  eapply sat_bind; [apply (set_or_panic_sat (λ s, s = <[N.to_nat i := true]> seen)); [lia|done]|].
  intros seen' _ ->.
  eapply sat_wrapped; [exact Hf|]. intros value Hvalue.
  eapply sat_bind; [apply IH; by rewrite length_insert|]. intros values _ (Hs & Hlen & Hvs).
  split_and!; [by apply seen_ok_step|simpl; by f_equal|by constructor].
Qed.

Lemma frame_fields_sat fields seen nodes :
  length seen = length fields → Forall (expr_wf n) nodes →
  outcome_sat (λ values, seen_ok fields seen values.*1 ∧
                         Forall (λ v, expr_ok E loop v.2) values ∧
                         Forall (λ v, snd <$> get fields v.1 = Some (C.e_ty v.2)) values)
    (frame_fields expr self fields seen nodes).
Proof.
  intros Hl Hn. revert seen Hl. induction Hn as [|f nodes Hf Hn IH]; intros seen Hl; simpl.
  { split_and!; [split_and!; [exact Hl|constructor..]|constructor..]. }
  sat_step. eapply sat_bind; [apply index_sat|]. intros i _ _.
  eapply sat_bind; [apply at_fmap_sat|]. intros u _ Hu.
  assert (i < lengthN fields) as Hi.
  { destruct (get fields i) eqn:Hg; [by eapply get_Some_lt|discriminate]. }
  eapply sat_wrapped; [exact Hf|]. intros value Hvalue.
  eapply sat_bind; [apply (index_or_panic_sat (λ u, get seen i = Some u)); [lia|auto]|].
  intros used _ Hused. cbv beta in Hused. sat_step. bool_facts. subst used u.
  eapply sat_bind; [apply (set_or_panic_sat (λ s, s = <[N.to_nat i := true]> seen)); [lia|done]|].
  intros seen' _ ->.
  eapply sat_bind; [apply IH; by rewrite length_insert|]. intros values _ (Hs & Hvs & Hts).
  split_and!; [by apply seen_ok_step|by constructor|by constructor].
Qed.

Lemma record_arm_sat : arm_sat (record_arm expr self node t).
Proof.
  unfold record_arm. eapply sat_bind; [by apply record_sat|]. intros fields _ Hf. sat_step.
  bool_facts. eapply sat_bind; [by apply record_fields_sat; [apply length_replicate|]|].
  intros values _ (Hs%seen_ok_start & Hl & Hvs).
  eapply ok_record; [exact Hf|exact Hs|congruence|exact Hvs].
Qed.

Lemma frame_new_arm_sat : arm_sat (frame_new_arm expr self node t).
Proof.
  unfold frame_new_arm. sat_step. eapply sat_bind; [by apply frame_sat|]. intros fields _ Hf.
  eapply sat_bind; [by apply frame_fields_sat; [apply length_replicate|]|].
  intros values _ (Hs%seen_ok_start & Hvs & Hts).
  eapply ok_frame_new; [exact Hf|exact Hs|exact Hvs|exact Hts].
Qed.

Lemma existsb_type (es : list C.Expr) u :
  existsb (λ value, C.e_ty value <>! u) es = false → Forall (λ v, C.e_ty v = u) es.
Proof.
  induction es as [|e es IH]; simpl; [constructor|]. intros H. bool_facts. constructor; auto.
Qed.

Lemma list_arm_sat : arm_sat (list_arm expr self node t).
Proof.
  unfold list_arm. destruct t as [| | | | |id| | | | |] eqn:Heq; try exact I. rewrite <-Heq.
  subst t. simpl in Ht.
  rewrite (cv_program E self Hcv).
  eapply sat_bind; [by apply (index_or_panic_sat (λ u, get (C.lists (tables E)) id = Some u))|].
  intros u _ Hu. eapply sat_bind; [by apply exprs_sat|]. intros es _ [Hes _]. sat_step.
  eapply ok_list; [exact Hu|exact Hes|by apply existsb_type].
Qed.

Lemma frame_store_arm_sat : arm_sat (frame_store_arm expr self node t).
Proof.
  unfold frame_store_arm. eapply sat_bind; [apply child_expr_sat|]. intros fr _ Hfr.
  eapply sat_bind; [apply child_expr_sat|]. intros v _ Hv.
  eapply sat_bind; [apply index_sat|]. intros i _ _.
  eapply sat_bind; [apply frame_sat, (expr_ok_type _ _ _ Hfr)|]. intros fields _ Hf.
  eapply sat_bind; [apply at_fmap_sat|]. intros u _ Hu. sat_step. bool_facts. subst.
  eapply ok_frame_store; [exact Hfr|exact Hv|exact Hf|exact Hu].
Qed.

Lemma field_arm_sat : arm_sat (field_arm expr self node t).
Proof.
  unfold field_arm. eapply sat_bind; [apply child_expr_sat|]. intros v _ Hv.
  eapply sat_bind; [apply index_sat|]. intros i _ _.
  eapply sat_bind; [apply record_or_frame_sat, (expr_ok_type _ _ _ Hv)|]. intros fields _ Hf.
  eapply sat_bind; [apply at_fmap_sat|]. intros u _ Hu. sat_step. bool_facts. subst.
  eapply ok_field; [exact Hv|exact Hf|exact Hu].
Qed.

Lemma variant_arm_sat : arm_sat (variant_arm expr self node t).
Proof.
  unfold variant_arm. eapply sat_bind; [apply index_sat|]. intros i _ _.
  eapply sat_bind; [by apply variant_sat|]. intros payload _ (variants & Hv & Hp). sat_step.
  bool_facts. eapply sat_bind; [by apply exprs_sat|]. intros es _ [Hes Hl].
  eapply ok_variant; [exact Hv|exact Hp|congruence|exact Hes].
Qed.

Lemma block_arm_sat :
  outcome_sat (block_ok E loop) (block self node) → arm_sat (block_arm block self node).
Proof.
  intros Hb. unfold block_arm. eapply sat_bind; [exact Hb|]. intros body _ Hbody.
  by constructor.
Qed.

Lemma transpose_sat {A B} (f : A → outcome B) (P : B → Prop) o :
  (∀ a, o = Some a → outcome_sat P (f a)) →
  outcome_sat (λ r, ∀ b, r = Some b → P b) (transpose_map f o).
Proof.
  intros Hf. destruct o as [a|]; simpl; [|by intros]. specialize (Hf a eq_refl).
  destruct (f a); simpl in *; try assumption. by intros ? [= <-].
Qed.

Lemma get_child i e : get (Raw.e_children node) i = Some e → expr_wf n e.
Proof. intros He. exact (get_Forall _ _ _ _ Hchildren He). Qed.

Lemma if_arm_sat : arm_sat (if_arm expr block self node).
Proof.
  unfold if_arm. cbv zeta. sat_step. bool_facts.
  eapply sat_bind; [apply (index_or_panic_sat (expr_wf n)); [lia|apply get_child]|].
  intros c _ Hc. eapply sat_bind; [by apply Hexpr|]. intros condition _ Hcond.
  eapply sat_bind; [apply (index_or_panic_sat (expr_wf n)); [lia|apply get_child]|].
  intros b _ Hb. eapply sat_bind; [by apply Hblock|]. intros then_body _ Hthen.
  eapply sat_bind; [apply transpose_sat; intros a Ha; by eapply Hblock, get_child|].
  intros else_body _ Helse. by constructor.
Qed.

Lemma match_one_sat u arm :
  type_ok (tables E) u → Forall (expr_wf n) (Raw.a_body arm) →
  outcome_sat (arm_ok E loop u) (match_one block self u arm).
Proof.
  intros Hu Hbody. unfold match_one.
  eapply sat_bind with (P := λ _, ∀ id, Raw.a_variant arm = Some id → ∃ variants payload,
    enum_of (tables E) u = Some variants ∧ snd <$> get variants id = Some payload ∧
    length payload = length (Raw.a_bindings arm)).
  { destruct (Raw.a_variant arm) as [id|]; [|by intros].
    eapply sat_bind; [by apply variant_sat|]. intros payload _ (variants & Hv & Hp). sat_step.
    bool_facts. intros id' [= <-]. by exists variants, payload. }
  intros _ _ Hvariant.
  eapply sat_bind; [apply (mapM_sat _ (λ i _, local_ok E i)); intros i _|].
  { eapply sat_mono; [apply at_sat|]. intros x _ Hx%get_Some_lt.
    unfold local_ok. by rewrite <-(Forall2_length _ _ _ (cv_locals E self Hcv)). }
  intros slots _ Hslots. sat_step.
  destruct (Raw.a_body arm) as [|e [|]]; try discriminate. apply Forall_cons in Hbody as [He _].
  simpl. eapply sat_bind; [by apply Hblock|]. intros body _ Hb.
  constructor; [exact Hvariant| |exact Hb].
  intros l Hl. apply elem_of_arm_locals in Hl.
  apply list_elem_of_lookup in Hl as [j Hj].
  by destruct (Forall2_lookup_l _ _ _ _ _ Hslots Hj) as (? & _ & ?).
Qed.

Lemma match_arm_sat : arm_sat (match_arm expr block self node).
Proof.
  unfold match_arm. eapply sat_bind; [apply child_expr_sat|]. intros v _ Hv.
  eapply sat_bind; [apply (mapM_sat_Forall _ (arm_ok E loop (C.e_ty v)))|].
  { intros arm Harm. apply match_one_sat; [exact (expr_ok_type _ _ _ Hv)|].
    by eapply Forall_forall in Harms. }
  intros arms _ [Has _]. by constructor.
Qed.

Lemma coerce_arm_sat : arm_sat (coerce_arm expr self node).
Proof.
  unfold coerce_arm. eapply sat_bind; [apply child_expr_sat|]. intros v _ Hv. by constructor.
Qed.

Lemma dyn_box_arm_sat : arm_sat (dyn_box_arm expr self node t).
Proof.
  unfold dyn_box_arm. eapply sat_bind; [apply index_sat|]. intros w _ _.
  eapply sat_bind; [apply at_sat|]. intros table _ Hw. cbv beta in Hw.
  rewrite (cv_program E self Hcv) in Hw.
  eapply sat_bind; [apply child_expr_sat|]. intros v _ Hv. sat_step. bool_facts. subst t.
  eapply ok_dyn_box; [exact Hw|exact Hv|assumption].
Qed.

Lemma tail_children_sat e :
  get (Raw.e_children node) 0 = Some e → outcome_sat (Forall (expr_wf n)) (tail_children node).
Proof.
  unfold tail_children. destruct (Raw.e_children node) as [|c nodes]; [discriminate|].
  intros _. by apply Forall_cons in Hchildren as [_ ?].
Qed.

Lemma first_child_sat :
  outcome_sat (λ e, expr_wf n e ∧ get (Raw.e_children node) 0 = Some e)
    (at_ (Raw.e_children node) 0).
Proof.
  eapply sat_mono; [apply at_sat|]. intros e _ He. split; [exact (get_child _ _ He)|exact He].
Qed.

Lemma dyn_call_arm_sat : arm_sat (dyn_call_arm expr self node t).
Proof.
  unfold dyn_call_arm. eapply sat_bind; [apply first_child_sat|]. intros c _ [Hc Hfirst].
  eapply sat_bind; [by apply Hexpr|]. intros receiver _ Hr.
  destruct (C.e_ty receiver) as [| | | | | |id| | | |] eqn:Hty; try exact I.
  eapply sat_bind; [apply index_sat|]. intros slot _ _.
  eapply sat_bind; [apply at_sat|]. intros interface _ Hi. cbv beta in Hi.
  rewrite (cv_program E self Hcv) in Hi.
  eapply sat_bind; [apply at_sat|]. intros [params result] _ Hm. cbv beta in Hm. sat_step.
  eapply sat_bind; [by eapply tail_children_sat|]. intros nodes _ Hnodes.
  eapply sat_bind; [by apply exprs_sat|]. intros es _ [Hes _]. sat_step.
  bool_facts. simpl in *. subst.
  eapply ok_dyn_call; [exact Hr|exact Hes|exact Hty|exact Hi|exact Hm].
Qed.

Lemma indirect_arm_sat : arm_sat (indirect_arm expr self node t).
Proof.
  unfold indirect_arm. sat_step. eapply sat_bind; [apply first_child_sat|].
  intros c _ [Hc Hfirst]. eapply sat_bind; [by apply Hexpr|]. intros callee _ Hcallee.
  destruct (C.e_ty callee) as [| | | | | | |id| | |] eqn:Hty; try exact I.
  eapply sat_bind; [apply at_sat|]. intros [params result] _ Hs%function_types_sat.
  eapply sat_bind; [by eapply tail_children_sat|]. intros nodes _ Hnodes.
  eapply sat_bind; [by apply exprs_sat|]. intros es _ [Hes _]. sat_step.
  bool_facts. simpl in *. subst.
  eapply ok_indirect; [exact Hcallee|exact Hes|]. rewrite Hty. exact Hs.
Qed.

Lemma params_sat l :
  outcome_sat (Forall2 (λ i u, get (types self) i = Some u) l) (mapM (ty self) l).
Proof. apply mapM_get_sat. intros i. apply at_sat. Qed.

(** A function of the stream whose parameters and result have been mapped. *)
Lemma signature_found id f params u :
  get (functions self) id = Some f →
  Forall2 (λ i u, get (types self) i = Some u) (Raw.f_params f) params →
  get (types self) (Raw.f_result f) = Some u →
  signature E id (C.mkSignature params u).
Proof.
  intros Hf Hps Hr. apply (cv_signature E self Hcv), raw_signature_Some.
  exists f. split_and!; assumption.
Qed.

Lemma function_arm_sat : arm_sat (function_arm expr self node t).
Proof.
  unfold function_arm. destruct t as [| | | | | | |id| | |] eqn:Heq; try exact I. rewrite <-Heq.
  sat_step.
  eapply sat_bind.
  { apply (transpose_sat _ (expr_ok E loop)). intros e He. apply Hexpr, (get_child 0).
    destruct (Raw.e_children node); [discriminate|]. by injection He as <-. }
  intros environment _ Henv.
  eapply sat_bind with
    (P := λ _, ∀ e, environment = Some e → is_Some (frame_of (tables E) (C.e_ty e))).
  { destruct environment as [e|]; [|by intros].
    eapply sat_bind; [apply frame_sat, (expr_ok_type _ _ _ (Henv e eq_refl))|].
    intros fields _ Hf. intros ? [= <-]. exists fields. exact Hf. }
  intros _ _ Hframe. eapply sat_bind; [apply index_sat|]. intros target _ _.
  eapply sat_bind; [apply at_sat|]. intros f _ Hf.
  eapply sat_bind; [apply at_sat|]. intros [params result] _ Hs%function_types_sat.
  eapply sat_bind; [apply params_sat|]. intros ps _ Hps. cbv zeta. sat_step.
  eapply sat_bind; [apply at_sat|]. intros u _ Hu. sat_step. bool_facts. simpl in *. subst.
  pose proof (signature_found _ _ _ _ Hf Hps Hu) as Hsig.
  destruct environment as [e|]; simpl in *.
  - eapply ok_closure; [by apply Henv|by apply Hframe|exact Hs|exact Hsig].
  - eapply ok_function_ref; [exact Hs|exact Hsig].
Qed.

Lemma environment_arm_sat : arm_sat (environment_arm expr self node t).
Proof.
  unfold environment_arm. eapply sat_bind; [by apply frame_sat|]. intros fields _ Hfields.
  eapply sat_bind; [apply child_expr_sat|]. intros v _ Hv.
  destruct (C.e_ty v) as [| | | | | | |id| | |] eqn:Hty; try exact I.
  eapply sat_bind; [apply index_sat|]. intros target _ _.
  eapply sat_bind; [apply at_sat|]. intros f _ Hf.
  eapply sat_bind; [apply at_sat|]. intros [params result] _ Hs%function_types_sat.
  eapply sat_bind; [apply params_sat|]. intros ps _ Hps. sat_step.
  eapply sat_bind; [apply at_sat|]. intros u _ Hu. sat_step. bool_facts. simpl in *. subst.
  pose proof (signature_found _ _ _ _ Hf Hps Hu) as Hsig.
  destruct ps as [|p0 ps]; [discriminate|]. simpl in *. simplify_eq.
  eapply ok_environment; [exact Hv|exists fields; exact Hfields|rewrite Hty; exact Hs|exact Hsig].
Qed.

(** Every arm of [expr]. *)
Lemma expr_kind_sat :
  outcome_sat (block_ok E loop) (block self node) →
  arm_sat (expr_kind expr block self node t).
Proof.
  intros Hb. unfold expr_kind.
  destruct (Raw.e_tag node) as [|tag]; [apply int_arm_sat|].
  repeat (destruct tag as [tag|tag|]; try exact I);
    first
      [ apply bool_arm_sat | (simpl; constructor) | apply local_arm_sat | apply unary_arm_sat
      | apply binary_arm_sat | apply call_arm_sat | apply record_arm_sat
      | apply field_arm_sat | apply variant_arm_sat | by apply block_arm_sat
      | apply if_arm_sat | apply match_arm_sat | apply coerce_arm_sat
      | apply float_arm_sat | apply dyn_box_arm_sat | apply dyn_call_arm_sat
      | apply function_arm_sat | apply indirect_arm_sat | apply list_arm_sat
      | apply frame_new_arm_sat | apply frame_store_arm_sat | apply bytes_arm_sat
      | apply environment_arm_sat
      | (destruct (Raw.e_text node =! b "cell_get");
         [apply cell_get_arm_sat|apply primitive_arm_sat]) ].
Qed.
End nodes.

(** ** Statements *)

Section statements.
Context (E : Env) (self : Converter) (Hcv : cv_ok E self) (n : nat).
Context (expr : Converter → Raw.Expr → outcome C.Expr).
Context (block : Converter → Raw.Expr → outcome C.Block).
Context (statement : Converter → Raw.Expr → outcome C.Stmt).
Let loop := in_loop self.
Context (Hexpr : ∀ e, expr_wf n e → outcome_sat (expr_ok E loop) (expr self e)).
Context (Hblock : ∀ d e, expr_wf n e → d ≤ loop_depth self + 1 →
  outcome_sat (block_ok E (negb (d =? 0))) (block (with_loop_depth self d) e)).
Context (Hstatement : ∀ e, expr_wf n e → outcome_sat (statement_ok E loop) (statement self e)).
Context (Hdepth : loop_depth self + 1 ≤ usize_max).
Context (node : Raw.Expr) (Hchildren : Forall (expr_wf n) (Raw.e_children node)).

Lemma block_items_sat nodes :
  Forall (expr_wf n) nodes →
  outcome_sat (λ '(statements, tail), Forall (statement_ok E loop) statements ∧
                                      ∀ v, tail = Some v → expr_ok E loop v)
    (block_items expr statement self nodes).
Proof.
  induction 1 as [|e nodes He Hn IH]; simpl; [split; [constructor|by intros]|]. sat_step.
  - eapply sat_bind; [by apply Hexpr|]. intros v _ Hv. split; [constructor|].
    by intros ? [= <-].
  - eapply sat_bind; [by apply Hstatement|]. intros s _ Hs.
    eapply sat_bind; [exact IH|]. intros [ss tail] _ [Hss Htail].
    split; [by constructor|exact Htail].
Qed.

Lemma block_body_sat : outcome_sat (block_ok E loop) (block_body expr statement self node).
Proof.
  unfold block_body. sat_step. eapply sat_bind; [by apply block_items_sat|].
  intros [ss tail] _ [Hss Htail]. by constructor.
Qed.

Local Abbreviation stmt_sat m := (outcome_sat (stmt_kind_ok E loop) m).

Lemma only_child_sat i count :
  outcome_sat (expr_ok E loop) (child_expr expr self node i count).
Proof. by apply (child_expr_sat E self n). Qed.

Lemma storage_statement_sat : stmt_sat (storage_statement expr self node).
Proof.
  unfold storage_statement. eapply sat_bind; [by apply (local_sat E self Hcv)|].
  intros l _ Hl. eapply sat_bind; [apply only_child_sat|]. intros v _ Hv.
  pose proof (cv_locals E self Hcv) as Hlocals.
  eapply sat_bind; [apply (index_or_panic_sat (λ i, get (Raw.f_locals (source self)) l = Some i));
    [rewrite (Forall2_length _ _ _ Hlocals); exact Hl|done]|].
  intros i _ Hi. eapply sat_bind; [by apply (ty_sat E self Hcv)|]. intros u _ [Hu _]. sat_step.
  bool_facts. subst u. apply get_Some in Hi.
  destruct (Forall2_lookup_l _ _ _ _ _ Hlocals Hi) as (u & Hlu & Hu').
  assert (get (locals E) l = Some (C.e_ty v)) by (apply get_Some; congruence).
  destruct (Raw.e_tag node =? 12); by constructor.
Qed.

Lemma return_statement_sat : stmt_sat (return_statement expr self node).
Proof.
  unfold return_statement. sat_step. eapply sat_bind.
  { apply (transpose_sat _ (expr_ok E loop)). intros e He. apply Hexpr.
    apply (get_child n node Hchildren 0). destruct (Raw.e_children node); [discriminate|].
    by injection He as <-. }
  intros value _ Hvalue. by constructor.
Qed.

Lemma while_statement_sat : stmt_sat (while_statement expr block self node).
Proof.
  unfold while_statement. eapply sat_bind; [apply only_child_sat|]. intros c _ Hc.
  eapply sat_bind; [apply (add_checked_sat (λ d, d = loop_depth self + 1)); [exact Hdepth|done]|].
  intros d _ ->. eapply sat_bind; [by apply child_sat|]. intros e _ [He _].
  eapply sat_bind; [apply Hblock; [exact He|lia]|]. intros body _ Hb.
  constructor; [exact Hc|].
  by replace (negb (loop_depth self + 1 =? 0)) with true in Hb
    by (symmetry; apply negb_true_iff, N.eqb_neq; lia).
Qed.

Lemma loop_statement_sat : stmt_sat (loop_statement self node).
Proof.
  unfold loop_statement. sat_step. eapply sat_bind; [by apply (ty_sat E self Hcv)|].
  intros u _ _. sat_step.
  assert (loop = true) by (unfold loop, in_loop; by apply negb_true_iff).
  destruct (Raw.e_tag node =? 26); by constructor.
Qed.

Lemma cleanup_statement_sat : stmt_sat (cleanup_statement block self node).
Proof.
  unfold cleanup_statement. eapply sat_bind; [by apply (ty_sat E self Hcv)|]. intros u _ _.
  sat_step. eapply sat_bind; [apply index_sat|]. intros i _ _.
  eapply sat_bind; [by apply child_sat|]. intros e _ [He _].
  eapply sat_bind; [by apply (ty_sat E self Hcv)|]. intros w _ _. sat_step.
  eapply sat_bind; [apply Hblock; [exact He|lia]|]. intros body _ Hb.
  destruct (Raw.e_tag node =? 29); sat_step; by constructor.
Qed.

Lemma statement_kind_sat :
  outcome_sat (expr_ok E loop) (expr self node) →
  stmt_sat (statement_kind expr block self node).
Proof.
  intros He. unfold statement_kind.
  assert (stmt_sat (value ← expr self node; Ok (C.ExprStmt value))) as Hdefault.
  { eapply sat_bind; [exact He|]. intros v _ Hv. by constructor. }
  assert (∀ k, (∀ v, expr_ok E loop v → stmt_kind_ok E loop (k v)) →
    stmt_sat (v ← child_expr expr self node 0 1; Ok (k v))) as Hchild.
  { intros k Hk. eapply sat_bind; [apply only_child_sat|]. intros v _ Hv. by apply Hk. }
  destruct (Raw.e_tag node) as [|tag]; [exact Hdefault|].
  repeat (destruct tag as [tag|tag|]; try exact Hdefault);
    first
      [ apply storage_statement_sat | apply return_statement_sat
      | (apply Hchild; intros; by constructor)
      | apply while_statement_sat | apply loop_statement_sat | apply cleanup_statement_sat ].
Qed.
End statements.

(** ** The mutual recursion *)

Definition converts (E : Env) (fuel : nat) : Prop := ∀ n self node,
  cv_ok E self → loop_depth self + N.of_nat n ≤ usize_max → expr_wf n node →
  ((3 * n ≤ fuel + 1)%nat → outcome_sat (expr_ok E (in_loop self)) (expr fuel self node)) ∧
  ((3 * n ≤ fuel + 2)%nat → outcome_sat (block_ok E (in_loop self)) (block fuel self node)) ∧
  ((3 * n ≤ fuel)%nat → outcome_sat (statement_ok E (in_loop self)) (statement fuel self node)).

Section step.
Context (E : Env) (fuel : nat) (IH : converts E fuel).
Context (m : nat) (self : Converter) (node : Raw.Expr).
Context (Hcv : cv_ok E self) (Hdepth : loop_depth self + N.of_nat (S m) ≤ usize_max).
Context (Hnode : expr_wf (S m) node).

Lemma children_wf : Forall (expr_wf m) (Raw.e_children node).
Proof. by destruct Hnode as (_ & _ & _ & _ & _ & ? & _). Qed.

Lemma arms_wf : Forall (λ a, Forall (expr_wf m) (Raw.a_body a)) (Raw.e_arms node).
Proof.
  destruct Hnode as (_ & _ & _ & _ & _ & _ & H). eapply Forall_impl; [exact H|].
  by intros a (_ & _ & _ & ?).
Qed.

Lemma child_converts d e :
  (3 * S m ≤ fuel + 3)%nat → expr_wf m e → d ≤ loop_depth self + 1 →
  outcome_sat (expr_ok E (negb (d =? 0))) (expr fuel (with_loop_depth self d) e) ∧
  outcome_sat (block_ok E (negb (d =? 0))) (block fuel (with_loop_depth self d) e) ∧
  outcome_sat (statement_ok E (negb (d =? 0))) (statement fuel (with_loop_depth self d) e).
Proof.
  intros Hfuel He Hd.
  destruct (IH m (with_loop_depth self d) e) as (H1 & H2 & H3);
    [by apply cv_ok_loop_depth|simpl; lia|exact He|].
  split_and!; [apply H1; lia|apply H2; lia|apply H3; lia].
Qed.

Lemma same_depth : with_loop_depth self (loop_depth self) = self.
Proof. by destruct self. Qed.

Lemma child_converts_same e :
  (3 * S m ≤ fuel + 3)%nat → expr_wf m e →
  outcome_sat (expr_ok E (in_loop self)) (expr fuel self e) ∧
  outcome_sat (block_ok E (in_loop self)) (block fuel self e) ∧
  outcome_sat (statement_ok E (in_loop self)) (statement fuel self e).
Proof.
  intros Hfuel He. pose proof (child_converts (loop_depth self) e Hfuel He) as H.
  rewrite same_depth in H. apply H. lia.
Qed.

Lemma expr_step :
  (3 * S m ≤ S fuel + 1)%nat → outcome_sat (expr_ok E (in_loop self)) (expr (S fuel) self node).
Proof.
  intros Hfuel. cbn [expr]. eapply sat_bind; [by apply (ty_sat E self Hcv)|].
  intros t _ [_ Ht]. sat_step.
  eapply sat_bind.
  - apply (expr_kind_sat E self Hcv m).
    + intros e He. apply child_converts_same; [lia|exact He].
    + intros e He. apply child_converts_same; [lia|exact He].
    + apply children_wf.
    + apply arms_wf.
    + exact Ht.
    + apply (IH (S m) self node); [assumption..|lia].
  - intros kind _ Hkind. by constructor.
Qed.

Lemma block_step :
  (3 * S m ≤ S fuel + 2)%nat →
  outcome_sat (block_ok E (in_loop self)) (block (S fuel) self node).
Proof.
  intros Hfuel. cbn [block]. apply (block_body_sat E self m).
  - intros e He. apply child_converts_same; [lia|exact He].
  - intros e He. apply child_converts_same; [lia|exact He].
  - apply children_wf.
Qed.

Lemma statement_step :
  (3 * S m ≤ S fuel)%nat →
  outcome_sat (statement_ok E (in_loop self)) (statement (S fuel) self node).
Proof.
  intros Hfuel. cbn [statement]. eapply sat_bind.
  - apply (statement_kind_sat E self Hcv m).
    + intros e He. apply child_converts_same; [lia|exact He].
    + intros d e He Hd. apply child_converts; [lia|exact He|exact Hd].
    + lia.
    + apply children_wf.
    + apply (IH (S m) self node); [assumption..|lia].
  - intros kind _ Hkind. by constructor.
Qed.
End step.

(** Three units of fuel per tree level. *)
Lemma converts_all E fuel : converts E fuel.
Proof.
  induction fuel as [|fuel IH]; intros n self node Hcv Hdepth Hnode;
    (destruct n as [|m]; [destruct Hnode|]).
  - split_and!; intros; lia.
  - split_and!; intros; [by eapply expr_step|by eapply block_step|by eapply statement_step].
Qed.

(** A converted expression has the mapped type of its node. *)
Lemma expr_Ok_type fuel self node e :
  expr fuel self node = Ok e → get (types self) (Raw.e_ty node) = Some (C.e_ty e).
Proof.
  destruct fuel as [|fuel]; [discriminate|]. cbn [expr]. intros H. outcome_inv.
  unfold ty, at_ in *. outcome_inv. simpl. assumption.
Qed.

(** Entry points: a function body starts outside every loop. *)
Section entry.
Context (E : Env) (n fuel : nat) (self : Converter) (node : Raw.Expr).
Context (Hcv : cv_ok E self) (Hloop : loop_depth self = 0).
Context (Hn : N.of_nat n ≤ usize_max) (Hfuel : (3 * n ≤ fuel)%nat) (Hnode : expr_wf n node).

Lemma entry_converts :
  outcome_sat (expr_ok E false) (expr fuel self node) ∧
  outcome_sat (block_ok E false) (block fuel self node).
Proof.
  destruct (converts_all E fuel n self node Hcv) as (He & Hb & _);
    [rewrite Hloop; lia|exact Hnode|].
  unfold in_loop in *. rewrite Hloop in *. split; [apply He; lia|apply Hb; lia].
Qed.
End entry.
