(* ===== verification/Decode.v ===== *)
(** The second half of [decode] in [compiler/src/native_input.rs]: from the raw sections
    of a stream to the checked program. Types are declared first, so that declarations may
    refer to each other, then interfaces, witnesses and type bodies are resolved, the
    by-value layouts are checked, and every function is converted. *)

From S2P Require Import Prelude Text Model Reader Layout Converter.

(** ** Program updates *)

Definition set_types (p : C.Program) types : C.Program :=
  C.mkProgram types (C.lists p) (C.functions p) (C.function_types p) (C.interfaces p)
    (C.witnesses p) (C.entry p) (C.tests p) (C.test_names p) (C.target_inputs p)
    (C.source_locations p) (C.exports p).
Definition set_lists (p : C.Program) lists : C.Program :=
  C.mkProgram (C.types p) lists (C.functions p) (C.function_types p) (C.interfaces p)
    (C.witnesses p) (C.entry p) (C.tests p) (C.test_names p) (C.target_inputs p)
    (C.source_locations p) (C.exports p).
Definition set_functions (p : C.Program) functions : C.Program :=
  C.mkProgram (C.types p) (C.lists p) functions (C.function_types p) (C.interfaces p)
    (C.witnesses p) (C.entry p) (C.tests p) (C.test_names p) (C.target_inputs p)
    (C.source_locations p) (C.exports p).
Definition set_function_types (p : C.Program) function_types : C.Program :=
  C.mkProgram (C.types p) (C.lists p) (C.functions p) function_types (C.interfaces p)
    (C.witnesses p) (C.entry p) (C.tests p) (C.test_names p) (C.target_inputs p)
    (C.source_locations p) (C.exports p).
Definition set_interfaces (p : C.Program) interfaces : C.Program :=
  C.mkProgram (C.types p) (C.lists p) (C.functions p) (C.function_types p) interfaces
    (C.witnesses p) (C.entry p) (C.tests p) (C.test_names p) (C.target_inputs p)
    (C.source_locations p) (C.exports p).
Definition set_witnesses (p : C.Program) witnesses : C.Program :=
  C.mkProgram (C.types p) (C.lists p) (C.functions p) (C.function_types p) (C.interfaces p)
    witnesses (C.entry p) (C.tests p) (C.test_names p) (C.target_inputs p)
    (C.source_locations p) (C.exports p).

(** ** Type declarations *)

Definition empty_program (raw : Raw.Program) : C.Program :=
  C.mkProgram [] [] [] [] [] [] (Raw.entry raw) (Raw.tests raw) (Raw.test_names raw)
    (Raw.target_inputs raw) (Raw.source_locations raw) (Raw.exports raw).

Definition decimal (z : Z) : bytes := Decimal.to_text z.

(** [format!("source.{what}.{symbol}.{id}")] *)
Definition source_name (what : string) (symbol : Z) (id : N) : bytes :=
  b "source." ++ b what ++ b "." ++ decimal symbol ++ b "." ++ decimal (Z.of_N id).

(** Tags of types with an entry in the data table. *)
Definition data_tag (tag : N) : bool :=
  ((7 <=? tag) && (tag <=? 9)) || (tag =? 13) || (tag =? 14).

(** The match in the loop over [data.iter().enumerate()]. *)
Definition declare_type (interfaces : list Raw.Interface) (id : N) (data : Raw.Data)
    (p : C.Program) : outcome (Ty.Ty * C.Program) :=
  let tag := Raw.d_tag data in
  if data_tag tag then
    let target := lengthN (C.types p) in
    Ok (Ty.Data target,
        set_types p (C.types p ++
          [C.mkData (source_name "type" (Raw.d_symbol data) id) (C.Record [])]))
  else
    match tag with
    | 0 => Ok (Ty.Unit, p)
    | 1 => Ok (Ty.Int, p)
    | 2 => Ok (Ty.Bool, p)
    | 3 => Ok (Ty.Text, p)
    | 4 => Ok (Ty.Bytes, p)
    | 10 => Ok (Ty.Float, p)
    | 11 =>
        interface ← index (Raw.d_symbol data);
        at_ interfaces interface ;;
        Ok (Ty.Dyn interface, p)
    | 12 =>
        fail_if (Raw.d_symbol data <>! (-1)%Z)
          "checked function types have no declaration symbol" ;;
        let id := lengthN (C.function_types p) in
        Ok (Ty.Function id,
            set_function_types p (C.function_types p ++ [C.mkSignature [] Ty.Unit]))
    | 5 => symbol ← index (Raw.d_symbol data); Ok (Ty.Param symbol, p)
    | 6 =>
        let id := lengthN (C.lists p) in
        Ok (Ty.List id, set_lists p (C.lists p ++ [Ty.Unit]))
    | _ => Err "unknown checked-IR type tag"
    end.

Fixpoint declare_types (interfaces : list Raw.Interface) (id : N) (data : list Raw.Data)
    (p : C.Program) : outcome (list Ty.Ty * C.Program) :=
  match data with
  | [] => Ok ([], p)
  | d :: data =>
      '(t, p) ← declare_type interfaces id d p;
      '(ts, p) ← declare_types interfaces (id + 1) data p;
      Ok (t :: ts, p)
  end.

(** ** Interfaces and witnesses *)

(** [let map = |id| at(&types, id).copied();] *)
Definition map (types : list Ty.Ty) (id : N) : outcome Ty.Ty := at_ types id.

Definition map_signature (types : list Ty.Ty) (m : list N * N) : outcome C.Signature :=
  params ← mapM (map types) m.1;
  result ← map types m.2;
  Ok (C.mkSignature params result).

Definition map_interface (types : list Ty.Ty) (i : Raw.Interface) : outcome C.Interface :=
  C.mkInterface <$> mapM (map_signature types) i.

Definition no_payload (t : Ty.Ty) : bool :=
  match t with Ty.Param _ | Ty.Unit => true | _ => false end.

(** One filled slot of a witness. [params[1..]] follows the test of [params.first()]. *)
Definition check_slot (types : list Ty.Ty) (functions : list Raw.Function) (concrete : Ty.Ty)
    (target : option N) (method : C.Signature) : outcome () :=
  match target with
  | None => Ok tt
  | Some target =>
      f ← at_ functions target;
      params ← mapM (map types) (Raw.f_params f);
      fail_if ((head params <>! Some concrete) || (tail params <>! C.sig_params method))
        "checked witness method signature mismatch" ;;
      result ← map types (Raw.f_result f);
      fail_if (result <>! C.sig_result method) "checked witness method signature mismatch"
  end.

(** [for (target, method) in methods.iter().zip(&shape.methods)] *)
Fixpoint check_slots (types : list Ty.Ty) (functions : list Raw.Function) (concrete : Ty.Ty)
    (slots : list (option N)) (methods : list C.Signature) : outcome () :=
  match slots, methods with
  | target :: slots, method :: methods =>
      check_slot types functions concrete target method ;;
      check_slots types functions concrete slots methods
  | _, _ => Ok tt
  end.

Definition resolve_witness (types : list Ty.Ty) (functions : list Raw.Function)
    (p : C.Program) (w : Raw.Witness) : outcome C.Witness :=
  let '(interface, concrete, methods) := w in
  shape ← at_ (C.interfaces p) interface;
  concrete ← map types concrete;
  fail_if (no_payload concrete) "checked witness requires a runtime value type" ;;
  fail_if (length methods <>! length (C.methods shape))
    "checked witness method count mismatch" ;;
  check_slots types functions concrete methods (C.methods shape) ;;
  Ok (C.mkWitness interface concrete methods).

(** ** Type bodies *)

Definition map_field (types : list Ty.Ty) (field : bytes * N) : outcome (bytes * Ty.Ty) :=
  t ← map types field.2; Ok (field.1, t).

Definition map_variant (types : list Ty.Ty) (variant : bytes * list N)
    : outcome (bytes * list Ty.Ty) :=
  ts ← mapM (map types) variant.2; Ok (variant.1, ts).

Definition data_kind (types : list Ty.Ty) (data : Raw.Data) : outcome C.DataKind :=
  match Raw.d_tag data with
  | 7 => C.Record <$> mapM (map_field types) (Raw.d_fields data)
  | 8 => C.Enum <$> mapM (map_variant types) (Raw.d_variants data)
  | 9 => C.Refined <$> map types (Raw.d_element data)
  | 13 => C.Task <$> map types (Raw.d_element data)
  | 14 => C.Frame <$> mapM (map_field types) (Raw.d_fields data)
  | _ => Panic "internal error: entered unreachable code"
  end.

(** One iteration of [for (data, mapped) in data.iter().zip(&types)]. *)
Definition fill_type (types : list Ty.Ty) (data : Raw.Data) (mapped : Ty.Ty)
    (p : C.Program) : outcome C.Program :=
  match mapped with
  | Ty.List id =>
      element ← map types (Raw.d_element data);
      set_lists p <$> set_or_panic (C.lists p) id element
  | Ty.Function id =>
      params ← mapM (map types) (Raw.d_params data);
      result ← map types (Raw.d_element data);
      set_function_types p <$>
        set_or_panic (C.function_types p) id (C.mkSignature params result)
  | Ty.Data id =>
      kind ← data_kind types data;
      old ← index_or_panic (C.types p) id;
      set_types p <$> set_or_panic (C.types p) id (C.mkData (C.d_name old) kind)
  | _ => Ok p
  end.

Fixpoint fill_types (types : list Ty.Ty) (pairs : list (Raw.Data * Ty.Ty)) (p : C.Program)
    : outcome C.Program :=
  match pairs with
  | [] => Ok p
  | (data, mapped) :: pairs =>
      p ← fill_type types data mapped p; fill_types types pairs p
  end.

(** ** Functions *)

(** Trees of the stream have at most 513 levels, and the converter needs three units of
    fuel per level. *)
Definition conversion_fuel : nat := 3 * 513.

(** [locals.starts_with(&params)] *)
Definition starts_with (locals params : list Ty.Ty) : bool :=
  take (length params) locals =! params.

Definition check_precondition (types : list Ty.Ty) (self : Converter) (e : Raw.Expr)
    : outcome C.Expr :=
  t ← map types (Raw.e_ty e);
  fail_if (t <>! Ty.Bool) "precondition must be a Bool value" ;;
  expr conversion_fuel self e.

Definition convert_function (types : list Ty.Ty) (functions : list Raw.Function)
    (p : C.Program) (id : N) (source : Raw.Function) : outcome C.Function :=
  let converter := mkConverter p types functions source 0 in
  params ← mapM (map types) (Raw.f_params source);
  locals ← mapM (map types) (Raw.f_locals source);
  fail_if (negb (starts_with locals params))
    "checked parameters must occupy leading local slots" ;;
  requires ← mapM (check_precondition types converter) (Raw.f_preconditions source);
  body ← block conversion_fuel converter (Raw.f_body source);
  result ← map types (Raw.f_result source);
  Ok (C.mkFunction (source_name "fn" (Raw.f_symbol source) id) params result locals
        requires body (Raw.f_span source)).

(** The loop over [functions.iter().enumerate()]. The converter never reads the functions
    pushed so far, so they are collected and stored at the end. *)
Fixpoint convert_functions (types : list Ty.Ty) (functions : list Raw.Function)
    (p : C.Program) (id : N) (sources : list Raw.Function) : outcome (list C.Function) :=
  match sources with
  | [] => Ok []
  | source :: sources =>
      f ← convert_function types functions p id source;
      fs ← convert_functions types functions p (id + 1) sources;
      Ok (f :: fs)
  end.

(** [entry.iter().chain(&tests).chain(&exports)] *)
Definition roots (p : C.Program) : list N :=
  option_list (C.entry p) ++ C.tests p ++ C.exports p.

Definition resolve (raw : Raw.Program) : outcome C.Program :=
  let functions := Raw.functions raw in
  '(types, p) ← declare_types (Raw.interfaces raw) 0 (Raw.data raw) (empty_program raw);
  interfaces ← mapM (map_interface types) (Raw.interfaces raw);
  let p := set_interfaces p interfaces in
  witnesses ← mapM (resolve_witness types functions p) (Raw.witnesses raw);
  let p := set_witnesses p witnesses in
  p ← fill_types types (zip (Raw.data raw) types) p;
  check_layouts (C.types p) ;;
  converted ← convert_functions types functions p 0 functions;
  let p := set_functions p converted in
  mapM (at_ (C.functions p)) (roots p) ;;
  Ok p.

Definition decode (text : bytes) : outcome C.Program :=
  raw ← read_stream text; resolve raw.
