(* ===== verification/DecodeFacts.v ===== *)
(** [decode] never panics on a UTF-8 text, and what it returns is a well-formed program:
    closed type tables without recursive by-value layouts, typed witnesses, functions that
    obey the rules of [Typing], and roots that exist. *)

From S2P Require Import Prelude Text Model Reader ReaderFacts Layout Operations Converter Typing OperationFacts ConverterFacts Decode.

(** ** Specification *)

(** The environment of a function of [p]. The bodies of the other functions are not part
    of it, so the tables are those of [p] without its functions. *)
Definition env_of (p : C.Program) (f : C.Function) : Env :=
  mkEnv (set_functions p [])
    (λ id n, ∃ g, get (C.functions p) id = Some g ∧ length (C.f_params g) = n)
    (λ id s, ∃ g, get (C.functions p) id = Some g ∧
                  s = C.mkSignature (C.f_params g) (C.f_result g))
    (C.f_locals f).

Record function_ok (E : Env) (f : C.Function) : Prop := {
  locals_typed : Forall (type_ok (tables E)) (C.f_locals f);
  params_leading : C.f_params f `prefix_of` C.f_locals f;
  result_typed : type_ok (tables E) (C.f_result f);
  requires_ok : Forall (λ e, expr_ok E false e ∧ C.e_ty e = Ty.Bool) (C.f_requires f);
  body_ok : block_ok E false (C.f_body f);
}.

(** Each filled slot of a witness is a function whose signature is the method's, with the
    concrete receiver first. *)
Definition slots_ok (signature : N → C.Signature → Prop) (p : C.Program) (w : C.Witness)
    : Prop :=
  ∀ i slot target method,
    get (C.interfaces p) (C.w_interface w) = Some i →
    C.w_methods w !! slot = Some (Some target) → C.methods i !! slot = Some method →
    signature target (C.mkSignature (C.w_concrete w :: C.sig_params method)
                        (C.sig_result method)).

Record program_ok (p : C.Program) : Prop := {
  program_tables : tables_ok p;
  program_finite : ∀ id, id < lengthN (C.types p) → finite_data (C.types p) id;
  program_witnesses : Forall (slots_ok (λ id s, ∃ g, get (C.functions p) id = Some g ∧
      s = C.mkSignature (C.f_params g) (C.f_result g)) p) (C.witnesses p);
  program_functions : Forall (λ f, function_ok (env_of p f) f) (C.functions p);
  program_roots : Forall (λ id, id < lengthN (C.functions p)) (roots p);
}.

(** ** Programs with tables of the same sizes *)

Definition same_shape (p q : C.Program) : Prop :=
  length (C.lists p) = length (C.lists q) ∧ length (C.types p) = length (C.types q) ∧
  length (C.function_types p) = length (C.function_types q) ∧
  length (C.interfaces p) = length (C.interfaces q).

#[export] Instance same_shape_equivalence : Equivalence same_shape.
Proof.
  split.
  - intros p. by split_and!.
  - intros p q (? & ? & ? & ?). by split_and!.
  - intros p q r (? & ? & ? & ?) (? & ? & ? & ?). split_and!; congruence.
Qed.

#[export] Instance type_ok_proper : Proper (same_shape ==> eq ==> iff) type_ok.
Proof.
  intros p q (H1 & H2 & H3 & H4) t ? <-. destruct t; simpl; rewrite ?H1, ?H2, ?H3, ?H4; done.
Qed.

Lemma Forall_type_ok_shape p q l :
  same_shape p q → Forall (type_ok p) l → Forall (type_ok q) l.
Proof.
  intros Hs Hl. eapply Forall_impl; [exact Hl|]. intros t Ht. by rewrite <-Hs.
Qed.

Lemma signature_ok_shape p q s : same_shape p q → signature_ok p s → signature_ok q s.
Proof.
  intros Hs [Hps Hr]. split; [by eapply Forall_type_ok_shape|by rewrite <-Hs].
Qed.

#[export] Instance signature_ok_proper : Proper (same_shape ==> eq ==> iff) signature_ok.
Proof.
  intros p q Hs s ? <-. split; apply signature_ok_shape; [exact Hs|by symmetry].
Qed.

Lemma data_ok_shape p q d : same_shape p q → data_ok p d → data_ok q d.
Proof. intros Hs. by apply Forall_type_ok_shape. Qed.

Lemma interface_ok_shape p q i : same_shape p q → interface_ok p i → interface_ok q i.
Proof.
  intros Hs Hi. eapply Forall_impl; [exact Hi|]. intros s. by apply signature_ok_shape.
Qed.

Lemma witness_ok_shape p q w :
  same_shape p q → C.interfaces q = C.interfaces p → witness_ok p w → witness_ok q w.
Proof.
  intros Hs Hi (i & Hw & Hc & Hb & Hl). exists i. rewrite Hi. split_and!; try assumption.
  by rewrite <-Hs.
Qed.

(** Closed tables stay closed when each table is closed in a program of the same shape. *)
Lemma tables_ok_shape p q :
  same_shape p q → C.interfaces q = C.interfaces p → C.witnesses q = C.witnesses p →
  Forall (type_ok p) (C.lists q) → Forall (data_ok p) (C.types q) →
  Forall (signature_ok p) (C.function_types q) →
  tables_ok p → tables_ok q.
Proof.
  intros Hs Hi Hw Hl Ht Hf [_ _ _ Hint Hwit]. split.
  - by eapply Forall_type_ok_shape.
  - eapply Forall_impl; [exact Ht|]. intros d. by apply data_ok_shape.
  - eapply Forall_impl; [exact Hf|]. intros s. by apply signature_ok_shape.
  - rewrite Hi. eapply Forall_impl; [exact Hint|]. intros i. by apply interface_ok_shape.
  - rewrite Hw. eapply Forall_impl; [exact Hwit|]. intros w. by apply witness_ok_shape.
Qed.

(** ** Declarations *)

(** A declared type refers to the tables built so far and to one of [n] interfaces, and
    only declarations with a data tag have an entry in the data table. *)
Definition declared (n : nat) (p : C.Program) (data : Raw.Data) (t : Ty.Ty) : Prop :=
  match t with
  | Ty.Dyn id => id < N.of_nat n
  | Ty.Data _ => type_ok p t ∧ data_tag (Raw.d_tag data) = true
  | _ => type_ok p t
  end.

(** Every entry is still a placeholder. *)
Definition plain (p : C.Program) : Prop :=
  Forall (λ t, t = Ty.Unit) (C.lists p) ∧
  Forall (λ d, C.d_kind d = C.Record []) (C.types p) ∧
  Forall (λ s, s = C.mkSignature [] Ty.Unit) (C.function_types p) ∧
  C.interfaces p = [] ∧ C.witnesses p = [] ∧ C.functions p = [].

Definition grows (p q : C.Program) : Prop :=
  (length (C.lists p) ≤ length (C.lists q))%nat ∧
  (length (C.types p) ≤ length (C.types q))%nat ∧
  (length (C.function_types p) ≤ length (C.function_types q))%nat.

Lemma declared_grows n p q d t : grows p q → plain p → declared n p d t → declared n q d t.
Proof.
  intros (? & ? & ?) (_ & _ & _ & Hi & _). destruct t; simpl; try done; lia || (intros []; split; [lia|done]).
Qed.

Lemma length_snoc {A} (l : list A) x : lengthN l < lengthN (l ++ [x]).
Proof. rewrite length_app. simpl. lia. Qed.

Section push.
Context (p : C.Program) (Hp : plain p).

Lemma push_data name :
  let q := set_types p (C.types p ++ [C.mkData name (C.Record [])]) in plain q ∧ grows p q.
Proof.
  destruct Hp as (? & ? & ? & ? & ? & ?). unfold plain, grows. simpl. rewrite length_app.
  split_and!; try assumption; try lia. apply Forall_app; by repeat constructor.
Qed.

Lemma push_list :
  let q := set_lists p (C.lists p ++ [Ty.Unit]) in plain q ∧ grows p q.
Proof.
  destruct Hp as (? & ? & ? & ? & ? & ?). unfold plain, grows. simpl. rewrite length_app.
  split_and!; try assumption; try lia. apply Forall_app; by repeat constructor.
Qed.

Lemma push_function_type :
  let q := set_function_types p (C.function_types p ++ [C.mkSignature [] Ty.Unit]) in
  plain q ∧ grows p q.
Proof.
  destruct Hp as (? & ? & ? & ? & ? & ?). unfold plain, grows. simpl. rewrite length_app.
  split_and!; try assumption; try lia. apply Forall_app; by repeat constructor.
Qed.
End push.

Lemma grows_refl p : grows p p.
Proof. unfold grows. lia. Qed.

Lemma grows_trans p q r : grows p q → grows q r → grows p r.
Proof. unfold grows. lia. Qed.

Lemma declare_type_sat interfaces id d p :
  plain p →
  outcome_sat (λ '(t, q), plain q ∧ grows p q ∧ declared (length interfaces) q d t)
    (declare_type interfaces id d p).
Proof.
  intros Hp. unfold declare_type. cbv zeta.
  destruct (data_tag (Raw.d_tag d)) eqn:Htag.
  { destruct (push_data p Hp (source_name "type" (Raw.d_symbol d) id)) as [Hq Hg].
    refine (conj Hq (conj Hg (conj (length_snoc _ _) Htag))). }
  destruct (Raw.d_tag d) as [|tag] eqn:Hd; [exact (conj Hp (conj (grows_refl p) I))|].
  repeat (destruct tag as [tag|tag|];
          try exact I; try exact (conj Hp (conj (grows_refl p) I))).
  - eapply sat_bind; [apply index_sat|]. intros i _ _.
    eapply sat_bind; [apply at_sat|]. intros x _ Hx%get_Some_lt.
    exact (conj Hp (conj (grows_refl p) Hx)).
  - eapply sat_bind; [apply index_sat|]. intros i _ _.
    exact (conj Hp (conj (grows_refl p) I)).
  - destruct (push_list p Hp) as [Hq Hg]. exact (conj Hq (conj Hg (length_snoc _ _))).
  - sat_step. destruct (push_function_type p Hp) as [Hq Hg].
    exact (conj Hq (conj Hg (length_snoc _ _))).
Qed.

Lemma declare_types_sat interfaces id data p :
  plain p →
  outcome_sat (λ '(ts, q), plain q ∧ grows p q ∧ Forall2 (declared (length interfaces) q) data ts)
    (declare_types interfaces id data p).
Proof.
  revert id p. induction data as [|d data IH]; intros id p Hp; simpl.
  { refine (conj Hp (conj (grows_refl p) _)). constructor. }
  eapply sat_bind; [by apply declare_type_sat|]. intros [t q] _ (Hq & Hg & Ht).
  eapply sat_bind; [by apply IH|]. intros [ts r] _ (Hr & Hg' & Hts).
  refine (conj Hr (conj (grows_trans _ _ _ Hg Hg') _)). constructor; [|exact Hts].
  by apply (declared_grows _ q).
Qed.

(** ** References through the type map *)

(** The type map yields existing types only. *)
Abbreviation types_ok p types := (Forall (type_ok p) types).

(** A signature assembled from mapped types. *)
Definition signature_from (types : list Ty.Ty) (s : C.Signature) : Prop :=
  Forall (λ t, t ∈ types) (C.sig_params s) ∧ C.sig_result s ∈ types.

Lemma signature_from_ok p types s : types_ok p types → signature_from types s → signature_ok p s.
Proof.
  intros Ht [Hps Hr]. split; [|exact (Forall_elem _ _ _ Ht Hr)].
  eapply Forall_impl; [exact Hps|]. intros t Hin. exact (Forall_elem _ _ _ Ht Hin).
Qed.

Lemma map_in_sat types id : outcome_sat (λ t, t ∈ types) (map types id).
Proof. eapply sat_mono; [apply at_sat|]. intros t _ Ht. exact (get_elem_of _ _ _ Ht). Qed.

Lemma mapM_map_in_sat types l : outcome_sat (Forall (λ t, t ∈ types)) (mapM (map types) l).
Proof.
  eapply sat_mono; [apply (mapM_sat_Forall _ (λ t, t ∈ types))|by intros ? _ [? _]].
  intros i _. apply map_in_sat.
Qed.

Lemma map_signature_sat types m : outcome_sat (signature_from types) (map_signature types m).
Proof.
  unfold map_signature. eapply sat_bind; [apply mapM_map_in_sat|]. intros ps _ Hps.
  eapply sat_bind; [apply map_in_sat|]. intros r _ Hr. split; assumption.
Qed.

Lemma sat_fmap {A B} (f : A → B) (m : outcome A) (P : B → Prop) :
  outcome_sat (λ v, P (f v)) m → outcome_sat P (f <$> m).
Proof. by destruct m. Qed.

Lemma map_interfaces_sat types interfaces :
  outcome_sat (λ ifs, Forall (λ i, Forall (signature_from types) (C.methods i)) ifs ∧
                      length ifs = length interfaces)
    (mapM (map_interface types) interfaces).
Proof.
  apply mapM_sat_Forall. intros i _. unfold map_interface. apply sat_fmap.
  eapply sat_mono; [apply (mapM_sat_Forall _ (signature_from types)); intros; apply map_signature_sat|].
  by intros ? _ [? _].
Qed.

(** [signature] holds of the mapped signatures of the stream's functions. *)
Definition signatures_agree (types : list Ty.Ty) (functions : list Raw.Function)
    (signature : N → C.Signature → Prop) : Prop :=
  ∀ id f params result,
    get functions id = Some f →
    Forall2 (λ i t, get types i = Some t) (Raw.f_params f) params →
    get types (Raw.f_result f) = Some result →
    signature id (C.mkSignature params result).

Section witnesses.
Context (types : list Ty.Ty) (functions : list Raw.Function) (p : C.Program).
Context (signature : N → C.Signature → Prop).
Context (Hagree : signatures_agree types functions signature) (Htypes : types_ok p types).

Lemma check_slot_sat concrete target method :
  outcome_sat (λ _, ∀ id, target = Some id →
      signature id (C.mkSignature (concrete :: C.sig_params method) (C.sig_result method)))
    (check_slot types functions concrete target method).
Proof.
  destruct target as [id|]; simpl; [|by intros].
  eapply sat_bind; [apply at_sat|]. intros f _ Hf.
  eapply sat_bind; [apply (mapM_get_sat _ types); intros; apply at_sat|]. intros ps _ Hps. sat_step.
  eapply sat_bind; [apply at_sat|]. intros r _ Hr. sat_step. intros ? [= <-]. bool_facts.
  destruct ps as [|c ps]; [discriminate|]. simpl in *. simplify_eq.
  by apply (Hagree _ _ _ _ Hf Hps).
Qed.

Lemma check_slots_sat concrete slots methods :
  outcome_sat (λ _, ∀ i id method, slots !! i = Some (Some id) → methods !! i = Some method →
      signature id (C.mkSignature (concrete :: C.sig_params method) (C.sig_result method)))
    (check_slots types functions concrete slots methods).
Proof.
  revert methods. induction slots as [|s slots IH]; intros methods; [by intros []|].
  destruct methods as [|m methods]; simpl; [by intros []|].
  eapply sat_bind; [apply check_slot_sat|]. intros u1 _ Hs.
  eapply sat_mono; [apply IH|]. intros u2 _ Hslots [|i] id method; simpl.
  - intros Hi Hm. simplify_eq. by apply Hs.
  - apply Hslots.
Qed.

Lemma boxable_payload t : no_payload t = false → boxable t = true.
Proof. by destruct t. Qed.

Lemma resolve_witness_sat w :
  outcome_sat (λ w, witness_ok p w ∧ slots_ok signature p w)
    (resolve_witness types functions p w).
Proof.
  destruct w as [[interface concrete] methods]. simpl.
  eapply sat_bind; [apply at_sat|]. intros i _ Hi. cbv beta in Hi.
  eapply sat_bind; [apply map_in_sat|]. intros c _ Hc. sat_step. sat_step.
  eapply sat_bind; [apply check_slots_sat|]. intros u _ Hslots. bool_facts. split.
  - exists i. simpl. split_and!; [exact Hi| |by apply boxable_payload|assumption].
    by eapply Forall_forall in Htypes.
  - intros i' slot target method Hi' Ht Hm. simpl in *. rewrite Hi in Hi'.
    injection Hi' as <-. by eapply Hslots.
Qed.
End witnesses.

(** ** Type bodies *)

Definition fillable (p : C.Program) (data : Raw.Data) (t : Ty.Ty) : Prop :=
  type_ok p t ∧ ∀ id, t = Ty.Data id → data_tag (Raw.d_tag data) = true.

Lemma map_fields_sat types fields :
  outcome_sat (λ fs, Forall (λ t, t ∈ types) fs.*2) (mapM (map_field types) fields).
Proof.
  eapply sat_mono; [apply (mapM_sat_Forall _ (λ f, f.2 ∈ types))|].
  - intros f _. unfold map_field. eapply sat_bind; [apply map_in_sat|]. by intros t _ Ht.
  - intros fs _ [Hfs _]. by apply Forall_fmap.
Qed.

Lemma map_variants_sat types variants :
  outcome_sat (λ vs, Forall (λ t, t ∈ types) (concat vs.*2)) (mapM (map_variant types) variants).
Proof.
  eapply sat_mono; [apply (mapM_sat_Forall _ (λ v, Forall (λ t, t ∈ types) v.2))|].
  - intros v _. unfold map_variant. eapply sat_bind; [apply mapM_map_in_sat|]. by intros ts _ Hts.
  - intros vs _ [Hvs _]. apply Forall_concat, Forall_fmap. exact Hvs.
Qed.

Lemma data_kind_sat types d :
  data_tag (Raw.d_tag d) = true →
  outcome_sat (λ k, Forall (λ t, t ∈ types) (kind_types k)) (data_kind types d).
Proof.
  unfold data_tag, data_kind. intros Htag.
  assert (Raw.d_tag d = 7 ∨ Raw.d_tag d = 8 ∨ Raw.d_tag d = 9 ∨ Raw.d_tag d = 13 ∨
          Raw.d_tag d = 14) as [-> | [-> | [-> | [-> | ->]]]].
  { rewrite !orb_true_iff, andb_true_iff, !N.leb_le, !N.eqb_eq in Htag. lia. }
  - apply sat_fmap, map_fields_sat.
  - apply sat_fmap, map_variants_sat.
  - apply sat_fmap. eapply sat_mono; [apply map_in_sat|]. intros t _ Ht. by repeat constructor.
  - apply sat_fmap. eapply sat_mono; [apply map_in_sat|]. intros t _ Ht. by repeat constructor.
  - apply sat_fmap, map_fields_sat.
Qed.

Definition filled (p q : C.Program) : Prop :=
  same_shape p q ∧ C.interfaces q = C.interfaces p ∧ C.witnesses q = C.witnesses p ∧
  C.functions q = C.functions p ∧ tables_ok q.

Lemma fill_type_sat types d t p :
  tables_ok p → types_ok p types → fillable p d t →
  outcome_sat (filled p) (fill_type types d t p).
Proof.
  intros Hp Htypes [Ht Htag]. pose proof Hp as [Hl Hd Hf _ _].
  assert (∀ u, u ∈ types → type_ok p u) as Hin by (intros u; by apply Forall_elem).
  destruct t as [| | | | |id| |id| |id|];
    try (exact (conj (reflexivity p) (conj eq_refl (conj eq_refl (conj eq_refl Hp))))); simpl in Ht |- *.
  - eapply sat_bind; [apply map_in_sat|]. intros u _ Hu. apply sat_fmap.
    apply set_or_panic_sat; [exact Ht|].
    assert (same_shape p (set_lists p (<[N.to_nat id := u]> (C.lists p)))) as Hs
      by (split_and!; simpl; rewrite ?length_insert; done).
    refine (conj Hs (conj eq_refl (conj eq_refl (conj eq_refl _)))).
    eapply (tables_ok_shape p); try done. simpl. apply Forall_insert; auto.
  - eapply sat_bind; [apply mapM_map_in_sat|]. intros ps _ Hps.
    eapply sat_bind; [apply map_in_sat|]. intros r _ Hr. apply sat_fmap.
    apply set_or_panic_sat; [exact Ht|].
    assert (same_shape p (set_function_types p
      (<[N.to_nat id := C.mkSignature ps r]> (C.function_types p)))) as Hs
      by (split_and!; simpl; rewrite ?length_insert; done).
    refine (conj Hs (conj eq_refl (conj eq_refl (conj eq_refl _)))).
    eapply (tables_ok_shape p); try done. simpl. apply Forall_insert; [exact Hf|].
    apply (signature_from_ok p types); [exact Htypes|by split].
  - eapply sat_bind; [by apply data_kind_sat, (Htag id)|]. intros k _ Hk.
    eapply sat_bind; [by apply (index_or_panic_sat (λ _, True))|]. intros old _ _.
    apply sat_fmap. apply set_or_panic_sat; [exact Ht|].
    assert (same_shape p (set_types p
      (<[N.to_nat id := C.mkData (C.d_name old) k]> (C.types p)))) as Hs
      by (split_and!; simpl; rewrite ?length_insert; done).
    refine (conj Hs (conj eq_refl (conj eq_refl (conj eq_refl _)))).
    eapply (tables_ok_shape p); try done. simpl. apply Forall_insert; [exact Hd|].
    eapply Forall_impl; [exact Hk|]. exact Hin.
Qed.

Lemma fill_types_sat types pairs p :
  tables_ok p → types_ok p types → Forall (λ '(d, t), fillable p d t) pairs →
  outcome_sat (filled p) (fill_types types pairs p).
Proof.
  revert p. induction pairs as [|[d t] pairs IH]; intros p Hp Htypes Hpairs; simpl.
  { exact (conj (reflexivity p) (conj eq_refl (conj eq_refl (conj eq_refl Hp)))). }
  apply Forall_cons in Hpairs as [Ht Hpairs].
  eapply sat_bind; [by apply fill_type_sat|]. intros q _ (Hs & Hi & Hw & Hfn & Hq).
  eapply sat_mono; [apply IH; [exact Hq|by eapply Forall_type_ok_shape|]|].
  - eapply Forall_impl; [exact Hpairs|]. intros [d' t'] [Hok Htag]. split; [by rewrite <-Hs|exact Htag].
  - intros r _ (Hs' & Hi' & Hw' & Hfn' & Hr).
    split_and!; [by etrans|congruence|congruence|congruence|exact Hr].
Qed.

(** ** Layouts *)

Lemma type_ok_data_ref p t : type_ok p t → data_ref_ok (C.types p) t.
Proof. by destruct t. Qed.

Lemma tables_data_refs p : tables_ok p → data_refs_ok (C.types p).
Proof.
  intros Hp. eapply Forall_impl; [exact (types_closed p Hp)|]. intros d Hd.
  assert (Forall (data_ref_ok (C.types p)) (kind_types (C.d_kind d))) as Hk.
  { eapply Forall_impl; [exact Hd|]. apply type_ok_data_ref. }
  unfold frame_types. destruct (C.d_kind d); simpl in *; split; (exact Hk || constructor).
Qed.

(** ** Functions *)

Section functions.
Context (types : list Ty.Ty) (functions : list Raw.Function) (p : C.Program).
Context (arity : N → nat → Prop) (signature : N → C.Signature → Prop).
Context (Hp : tables_ok p) (Htypes : types_ok p types).
Context (Harity : ∀ id f, get functions id = Some f → arity id (length (Raw.f_params f))).
Context (Hagree : signatures_agree types functions signature).

Lemma starts_with_prefix ls ps : starts_with ls ps = true → ps `prefix_of` ls.
Proof.
  unfold starts_with. intros H%bool_decide_eq_true. exists (drop (length ps) ls).
  by rewrite <-H at 1; rewrite take_drop.
Qed.

Lemma converter_ok source ls :
  Forall2 (λ i t, get types i = Some t) (Raw.f_locals source) ls →
  cv_ok (mkEnv p arity signature ls) (mkConverter p types functions source 0).
Proof.
  intros Hls. constructor; simpl; try assumption; [reflexivity|].
  intros id s (f & Hf & Hps & Hr)%raw_signature_Some. simpl in *.
  destruct s as [ps r]. by eapply Hagree.
Qed.

Lemma tree_converts source ls e :
  Forall2 (λ i t, get types i = Some t) (Raw.f_locals source) ls → expr_wf 513%nat e →
  outcome_sat (expr_ok (mkEnv p arity signature ls) false)
    (expr conversion_fuel (mkConverter p types functions source 0) e) ∧
  outcome_sat (block_ok (mkEnv p arity signature ls) false)
    (block conversion_fuel (mkConverter p types functions source 0) e).
Proof.
  intros Hls He. apply (entry_converts _ 513).
  - by apply converter_ok.
  - reflexivity.
  - by vm_compute.
  - apply Nat.leb_le. by vm_compute.
  - exact He.
Qed.

Lemma precondition_sat source ls e :
  Forall2 (λ i t, get types i = Some t) (Raw.f_locals source) ls → expr_wf 513%nat e →
  outcome_sat (λ v, expr_ok (mkEnv p arity signature ls) false v ∧ C.e_ty v = Ty.Bool)
    (check_precondition types (mkConverter p types functions source 0) e).
Proof.
  intros Hls He. unfold check_precondition.
  eapply sat_bind; [apply at_sat|]. intros t _ Ht. cbv beta in Ht. sat_step. bool_facts. subst t.
  eapply sat_mono; [exact (proj1 (tree_converts source ls e Hls He))|].
  intros v' Hv' Hok. split; [exact Hok|].
  apply expr_Ok_type in Hv'. simpl in Hv'. congruence.
Qed.

Lemma convert_function_sat id source :
  function_wf source →
  outcome_sat (λ f, function_ok (mkEnv p arity signature (C.f_locals f)) f)
    (convert_function types functions p id source).
Proof.
  intros (_ & _ & _ & _ & _ & Hpre & Hbody). unfold convert_function. cbv zeta.
  eapply sat_bind; [apply mapM_map_in_sat|]. intros ps _ Hps.
  eapply sat_bind; [apply sat_and; [apply mapM_map_in_sat|apply (mapM_get_sat _ types); intros; apply at_sat]|].
  intros ls _ [Hls_in Hls]. sat_step. bool_facts.
  eapply sat_bind.
  { apply mapM_sat_Forall. intros e He. apply (precondition_sat source ls); [exact Hls|].
    exact (Forall_elem _ _ _ Hpre He). }
  intros requires _ [Hreq _].
  eapply sat_bind.
  { exact (proj2 (tree_converts source ls _ Hls Hbody)). }
  intros body _ Hb. eapply sat_bind; [apply map_in_sat|]. intros r _ Hr.
  assert (∀ u, u ∈ types → type_ok p u) as Hin by (intros u; by apply Forall_elem).
  constructor; simpl.
  - eapply Forall_impl; [exact Hls_in|]. exact Hin.
  - by apply starts_with_prefix.
  - by apply Hin.
  - exact Hreq.
  - exact Hb.
Qed.

Lemma convert_functions_sat id sources :
  Forall function_wf sources →
  outcome_sat (Forall (λ f, function_ok (mkEnv p arity signature (C.f_locals f)) f))
    (convert_functions types functions p id sources).
Proof.
  intros Hs. revert id. induction Hs as [|s sources Hs _ IH]; intros id; simpl; [constructor|].
  eapply sat_bind; [by apply convert_function_sat|]. intros f _ Hf.
  eapply sat_bind; [apply IH|]. intros fs _ Hfs. by constructor.
Qed.
End functions.

(** What an accepted function declares. *)
Lemma convert_function_header types functions p id source f :
  convert_function types functions p id source = Ok f →
  mapM (map types) (Raw.f_params source) = Ok (C.f_params f) ∧
  map types (Raw.f_result source) = Ok (C.f_result f).
Proof.
  unfold convert_function. cbv zeta. intros H. outcome_inv. simpl. split; assumption.
Qed.

Lemma convert_functions_headers types functions p id sources fs :
  convert_functions types functions p id sources = Ok fs →
  Forall2 (λ s f, mapM (map types) (Raw.f_params s) = Ok (C.f_params f) ∧
                  map types (Raw.f_result s) = Ok (C.f_result f)) sources fs.
Proof.
  revert id fs. induction sources as [|s sources IH]; intros id fs H; simpl in H; outcome_inv;
    constructor; [by eapply convert_function_header|by eapply IH].
Qed.

(** The converted functions have the mapped signatures of the stream's functions. *)
Lemma converted_signatures types functions p fs :
  convert_functions types functions p 0 functions = Ok fs →
  signatures_agree types functions
    (λ id s, ∃ g, get fs id = Some g ∧ s = C.mkSignature (C.f_params g) (C.f_result g)).
Proof.
  intros H%convert_functions_headers id f params result Hf Hps Hr.
  apply get_Some in Hf. destruct (Forall2_lookup_l _ _ _ _ _ H Hf) as (g & Hg & Hgp & Hgr).
  exists g. split; [by apply get_Some|].
  unfold map, at_ in Hgr. rewrite Hr in Hgr. injection Hgr as <-. f_equal.
  apply mapM_Ok in Hgp. clear -Hps Hgp. revert Hps.
  generalize dependent params. induction Hgp as [|i t ids ts Hi _ IH]; intros params Hps;
    inversion Hps; subst; [reflexivity|].
  unfold map, at_ in Hi. rewrite H1 in Hi. injection Hi as <-. f_equal. by apply IH.
Qed.

Lemma converted_arities types functions p fs :
  convert_functions types functions p 0 functions = Ok fs →
  ∀ id f, get functions id = Some f →
    ∃ g, get fs id = Some g ∧ length (C.f_params g) = length (Raw.f_params f).
Proof.
  intros H%convert_functions_headers id f Hf. apply get_Some in Hf.
  destruct (Forall2_lookup_l _ _ _ _ _ H Hf) as (g & Hg & Hgp & _).
  exists g. split; [by apply get_Some|]. apply mapM_Ok in Hgp.
  symmetry. by eapply Forall2_length.
Qed.

(** ** The whole of [decode] *)

Lemma tables_ok_functions p fs : tables_ok p → tables_ok (set_functions p fs).
Proof. intros []. by constructor. Qed.

Lemma set_functions_nil q fs : C.functions q = [] → set_functions (set_functions q fs) [] = q.
Proof. destruct q. unfold set_functions. simpl. by intros ->. Qed.

Lemma roots_in_range {A} (l : list A) ids checked :
  mapM (at_ l) ids = Ok checked → Forall (λ id, id < lengthN l) ids.
Proof.
  intros H%mapM_Ok. induction H as [|id v ids vs Hid _ IH]; constructor; [|exact IH].
  apply ok_or_Ok in Hid. by eapply get_Some_lt.
Qed.

(** The tables after the declarations, the interfaces and the witnesses. *)
Section resolve.
Context (raw : Raw.Program) (Hraw : program_wf raw).
Let functions := Raw.functions raw.

Lemma declared_tables types p ifs ws :
  plain p → Forall2 (declared (length (Raw.interfaces raw)) p) (Raw.data raw) types →
  Forall (λ i, Forall (signature_from types) (C.methods i)) ifs →
  length ifs = length (Raw.interfaces raw) →
  let q := set_interfaces p ifs in
  Forall (witness_ok q) ws →
  let r := set_witnesses q ws in
  tables_ok r ∧ types_ok r types ∧
  Forall (λ '(d, t), fillable r d t) (zip (Raw.data raw) types).
Proof.
  intros (Hl & Hd & Hf & _) Hdecl Hifs Hlen q Hws r.
  assert (Forall2 (fillable r) (Raw.data raw) types) as Hfill.
  { eapply Forall2_impl; [exact Hdecl|]. intros d t Ht. split.
    - destruct t; simpl in *; try done; [by rewrite Hlen|by destruct Ht].
    - intros id ->. by destruct Ht. }
  assert (types_ok r types) as Htypes.
  { eapply Forall2_Forall_r; [exact Hfill|]. apply Forall_forall. by intros d _ t [? _]. }
  split_and!; [split|exact Htypes|].
  - eapply Forall_impl; [exact Hl|]. by intros ? ->.
  - eapply Forall_impl; [exact Hd|]. intros d Hk. unfold data_ok. rewrite Hk. constructor.
  - eapply Forall_impl; [exact Hf|]. intros ? ->. by split; [constructor|].
  - eapply Forall_impl; [exact Hifs|]. intros i Hi. eapply Forall_impl; [exact Hi|].
    intros s. by apply signature_from_ok.
  - eapply Forall_impl; [exact Hws|]. intros w. by apply witness_ok_shape.
  - clear -Hfill. induction Hfill; simpl; constructor; assumption.
Qed.

Lemma witness_types types p ifs :
  Forall2 (declared (length (Raw.interfaces raw)) p) (Raw.data raw) types →
  length ifs = length (Raw.interfaces raw) →
  types_ok (set_interfaces p ifs) types.
Proof.
  intros Hdecl Hlen. eapply Forall2_Forall_r; [exact Hdecl|]. apply Forall_forall.
  intros d _ t Ht. destruct t; simpl in *; try done; [by rewrite Hlen|by destruct Ht].
Qed.

Lemma resolve_sat : outcome_sat program_ok (resolve raw).
Proof.
  unfold resolve. cbv zeta. fold functions.
  eapply sat_bind; [apply declare_types_sat; by repeat constructor|].
  intros [types p] _ (Hplain & _ & Hdecl).
  eapply sat_bind; [apply map_interfaces_sat|]. intros ifs _ [Hifs Hlen].
  pose proof (witness_types types p ifs Hdecl Hlen) as Hwt.
  assert (∀ S, signatures_agree types functions S →
    outcome_sat (λ ws, Forall (λ w, witness_ok (set_interfaces p ifs) w ∧
                                    slots_ok S (set_interfaces p ifs) w) ws ∧
                       length ws = length (Raw.witnesses raw))
      (mapM (resolve_witness types functions (set_interfaces p ifs)) (Raw.witnesses raw)))
    as Hwitnesses.
  { intros S HS. apply mapM_sat_Forall. intros w _. by apply resolve_witness_sat. }
  eapply sat_bind; [by apply (Hwitnesses (λ _ _, True))|]. intros ws Hws [Hwok _].
  assert (Forall (witness_ok (set_interfaces p ifs)) ws) as Hwok'
    by (eapply Forall_impl; [exact Hwok|]; by intros w [? _]).
  destruct (declared_tables types p ifs ws Hplain Hdecl Hifs Hlen Hwok') as (Htab & Htypes & Hfill).
  eapply sat_bind; [by apply fill_types_sat|].
  intros q _ (Hshape & Hqi & Hqw & Hqf & Hq). simpl in Hqi, Hqw, Hqf.
  assert (types_ok q types) as Hqt by (by eapply Forall_type_ok_shape).
  eapply sat_bind; [apply check_layouts_sat, tables_data_refs, Hq|]. intros marks _ Hfinite.
  cbv beta in Hfinite. pose proof Hraw as (_ & Hfuns & _).
  eapply sat_bind; [by apply (convert_functions_sat types functions q (λ _ _, True) (λ _ _, True))|].
  intros fs Hfs _.
  eapply sat_bind; [apply (mapM_sat_Forall _ (λ _, True)); intros; by eapply sat_mono; [apply at_sat|]|].
  intros checked Hroots _. change (program_ok (set_functions q fs)).
  pose proof (converted_signatures _ _ _ _ Hfs) as Hsigs.
  destruct Hplain as (_ & _ & _ & _ & _ & Hnil).
  assert (set_functions (set_functions q fs) [] = q) as Henv
    by (apply set_functions_nil; by rewrite Hqf, Hnil).
  constructor.
  - by apply tables_ok_functions.
  - exact Hfinite.
  - simpl. rewrite Hqw. pose proof (sat_Ok _ _ _ (Hwitnesses _ Hsigs) Hws) as [Hslots _].
    eapply Forall_impl; [exact Hslots|]. intros w [_ Hw] i slot target method Hi.
    simpl in Hi. rewrite Hqi in Hi. by apply Hw.
  - unfold env_of. rewrite Henv. simpl.
    refine (sat_Ok _ _ _ (convert_functions_sat types functions q _ _ Hq Hqt _ Hsigs 0 _ Hfuns) Hfs).
    intros id f Hf. exact (converted_arities _ _ _ _ Hfs id f Hf).
  - by eapply roots_in_range.
Qed.
End resolve.

Lemma decoded_ok s p :
  Utf8.valid s = true → lengthN s ≤ isize_max → decode s = Ok p → program_ok p.
Proof.
  intros Hs Hl Hp. unfold decode in Hp. apply bind_Ok_inv in Hp as (raw & Hread & Hp).
  exact (sat_Ok _ _ _ (resolve_sat raw (sat_Ok _ _ _ (read_stream_sat s Hs Hl) Hread)) Hp).
Qed.
