(* ===== verification/Samples.v ===== *)
(** Concrete streams, after the unit tests of [compiler/src/native_input.rs]: the node
    writer of the tests, an asserting program with every optional section, and streams the
    decoder must refuse. The witnesses of [Guarantees] evaluate on them. *)

From S2P Require Import Prelude Text Model Reader Decode.

Definition line (z : Z) : bytes := Decimal.to_text z ++ [nl].
Definition lines (zs : list Z) : bytes := concat (line <$> zs).
Definition sized (s : string) : bytes := line (Z.of_nat (length (b s))) ++ b s.

(** [fn node(tag, ty, text, index, children)] of the tests. *)
Definition node (tag ty : Z) (text : string) (index : Z) (children : list bytes) : bytes :=
  lines [tag; ty; 0; 0]%Z ++ sized text ++ lines [index; 1; Z.of_nat (length children)]%Z ++
  concat children ++ line 0.

Definition message : string := "helpers.loom:3:5: assertion failed".

(** [diagnostic_payloads_are_optional_and_features_are_unique] *)
Definition assertion_body : bytes :=
  node 11 0 "" (-1) [node 15 0 message (-1) [node 1 1 "false" (-1) []]].

Definition prefix : bytes :=
  b "loom-checked-1" ++ [nl] ++ lines [2; 0; -1; 2; -1; 1; 0; 0; 0; 0; 0; 0; 0]%Z ++
  assertion_body ++ lines [-1; 1; 0; 0]%Z.

Definition names : bytes := lines [2; 1]%Z ++ sized "package.test".
Definition dynamic : bytes := lines [1; 0; 0]%Z.
Definition target : bytes := lines [3; 1]%Z ++ sized "os" ++ sized "linux".
Definition site_paths : bytes := line 1 ++ sized "helpers.loom".
Definition locations : bytes := line 4 ++ site_paths ++ lines [1; 0; 0; 1; 0; 0; 2; 3]%Z.

Definition accepted (text : bytes) : bool :=
  match decode text with Ok _ => true | _ => false end.

Definition refused (text : bytes) (msg : string) : bool :=
  match decode text with Err e => e =! msg | _ => false end.

Example tails_accepted :
  forallb (λ tail, accepted (prefix ++ tail))
    [[]; line 2 ++ line 0; names; names ++ dynamic; dynamic ++ names; names ++ target;
     locations; locations ++ names ++ target] = true.
Proof. vm_compute. reflexivity. Qed.

Example tails_refused :
  forallb (λ '(tail, msg), refused (prefix ++ tail) msg)
    [(names ++ names, "duplicate checked-IR feature tag");
     (dynamic ++ dynamic, "duplicate checked-IR feature tag");
     (line 5, "unknown checked-IR feature tag");
     (target ++ target, "duplicate checked-IR feature tag");
     (locations ++ locations, "duplicate checked-IR feature tag");
     (line 4 ++ site_paths ++ lines [2; 0; 0; 0; 0; 0; 0]%Z, "duplicate checked source function");
     (line 4 ++ site_paths ++ lines [1; 0; 0; 2; 0; 0; 2; 3; 0; 0; 2; 3]%Z,
      "invalid or duplicate checked source location");
     (line 4 ++ site_paths ++ lines [1; 0; 0; 1; 0; 0; 0; 3]%Z,
      "invalid or duplicate checked source location");
     (line 4 ++ site_paths ++ lines [1; 0; 0; 1; 2; 1; 2; 3]%Z, "reversed checked-IR span");
     (lines [2; 2]%Z ++ sized "a" ++ sized "b", "checked test-name count mismatch")] = true.
Proof. vm_compute. reflexivity. Qed.

(** The decoded program keeps the assertion and its message. *)
Definition first_statement (text : bytes) : option C.StmtKind :=
  match decode text with
  | Ok p =>
      f ← head (C.functions p);
      let 'C.mkBlock statements _ _ := C.f_body f in
      s ← head statements;
      let 'C.mkStmt kind _ := s in Some kind
  | _ => None
  end.

Example assertion_kept :
  first_statement prefix =
  Some (C.Assert (C.mkExpr (C.Bool false) Ty.Bool (mkSpan 0 0)) (b message)).
Proof. vm_compute. reflexivity. Qed.

(** [cleanup_markers_preserve_identity_and_require_one_unit_body] *)
Definition cleanup_stream (markers : list bytes) : bytes :=
  b "loom-checked-1" ++ [nl] ++ lines [1; 0; -1; 1; 0; 0; 0; 0; 0; 0; 0]%Z ++
  node 11 0 "" (-1) markers ++ lines [-1; 0; 1; 0]%Z.

Definition empty_body : bytes := node 11 0 "" (-1) [].

Example cleanup_markers :
  accepted (cleanup_stream [node 29 0 "" 7 [empty_body]; node 30 0 "" 7 [empty_body]]) &&
  forallb (λ tag,
    refused (cleanup_stream [node tag 0 "" 7 []]) "wrong checked-IR node arity" &&
    refused (cleanup_stream [node tag 0 "" (-1) [empty_body]]) "negative checked-IR index")
    [29; 30]%Z = true.
Proof. vm_compute. reflexivity. Qed.

(** A record that contains itself by value, and one behind a list. *)
Definition record_stream (fields : bytes) : bytes :=
  b "loom-checked-1" ++ [nl] ++ line 2 ++ lines [7; 0]%Z ++ fields ++ lines [6; -1; 0]%Z ++
  lines [0; -1; 0; 0]%Z.

Example recursive_record :
  refused (record_stream (line 1 ++ sized "next" ++ line 0))
    "recursive by-value checked-IR layout" &&
  accepted (record_stream (line 1 ++ sized "next" ++ line 1)) = true.
Proof. vm_compute. reflexivity. Qed.
