(* ===== verification/Slots.v ===== *)
(** Generation-stamped slot tables: the representation that the frame roots, the wait
    registrations and the tasks of [compiler/runtime/src] share. An identity is a slot
    index and the generation the slot had when it was filled; a freed slot is reused with
    the next generation, so that identities of earlier occupants are recognised as stale. *)

From S2P Require Import Prelude.

Record Id := mkId { key : N; generation : N }.

#[export] Instance Id_eq_dec : EqDecision Id.
Proof. solve_decision. Defined.
#[export] Instance Id_countable : Countable Id.
Proof.
  refine (inj_countable' (λ i, (key i, generation i)) (λ '(k, g), mkId k g) _). by intros [].
Defined.

Record Slot (A : Type) := mkSlot { slot_generation : N; payload : option A }.
Arguments mkSlot {A} _ _.
Arguments slot_generation {A} _.
Arguments payload {A} _.

(** [slots] is the vector; [free] lists the free indices, the last of the vector first. *)
Record Table (A : Type) := mkTable { slots : list (Slot A); free : list N }.
Arguments mkTable {A} _ _.
Arguments slots {A} _.
Arguments free {A} _.

Definition empty {A} : Table A := mkTable [] [].

Section operations.
Context {A : Type}.
Implicit Types t : Table A.

(** The occupant an identity names, unless the identity is stale. *)
Definition occupant t (id : Id) : option A :=
  s ← get (slots t) (key id);
  if slot_generation s =? generation id then payload s else None.

(** The slot an insertion uses, and the generation it gets ([None]: exhausted). *)
Definition next_index t : N := default (lengthN (slots t)) (head (free t)).

Definition next_generation t : option N :=
  checked_add (from_option slot_generation 0 (get (slots t) (next_index t))) 1.

Definition fill t (index : N) (s : Slot A) : Table A :=
  if index =? lengthN (slots t)
  then mkTable (slots t ++ [s]) (free t)
  else mkTable (<[N.to_nat index := s]> (slots t)) (tail (free t)).

Definition allocate t (a : A) : option (Id * Table A) :=
  g ← next_generation t;
  Some (mkId (next_index t) g, fill t (next_index t) (mkSlot g (Some a))).

(** [slots[i].payload = o], keeping the generation. *)
Definition set_payload t (i : N) (o : option A) : outcome (Table A) :=
  s ← index_or_panic (slots t) i;
  slots' ← set_or_panic (slots t) i (mkSlot (slot_generation s) o);
  Ok (mkTable slots' (free t)).

(** Empty a slot and make its index available. *)
Definition release t (i : N) : outcome (Table A) :=
  t ← set_payload t i None;
  Ok (mkTable (slots t) (i :: free t)).

(** ** Invariant *)

Definition table_ok t : Prop :=
  NoDup (free t) ∧
  (∀ i, i ∈ free t ↔ ∃ s, get (slots t) i = Some s ∧ payload s = None) ∧
  Forall (λ s, slot_generation s ≤ usize_max) (slots t).

(** The identity was handed out by this table at some point. *)
Definition issued t (id : Id) : Prop :=
  ∃ s, get (slots t) (key id) = Some s ∧ generation id ≤ slot_generation s.

(** The identity was handed out and its occupant is gone. *)
Definition stale t (id : Id) : Prop := issued t id ∧ occupant t id = None.
End operations.

Lemma empty_ok {A} : table_ok (@empty A).
Proof.
  split_and!; [constructor| |constructor]. intros i. simpl. split; [by intros ?%elem_of_nil|].
  intros (s & Hs & _). apply get_Some in Hs. by rewrite lookup_nil in Hs.
Qed.

Section facts.
Context {A : Type}.
Implicit Types t : Table A.

Lemma occupant_Some t id a :
  occupant t id = Some a ↔ get (slots t) (key id) = Some (mkSlot (generation id) (Some a)).
Proof.
  unfold occupant. destruct (get (slots t) (key id)) as [[g o]|]; simpl; [|by split].
  destruct (N.eqb_spec g (generation id)) as [->|]; split; intros H; simplify_eq; done.
Qed.

Lemma occupant_issued t id a : occupant t id = Some a → issued t id.
Proof. intros H%occupant_Some. eexists. split; [exact H|]. simpl. lia. Qed.

(** The index chosen is either free or the next new one. *)
Lemma next_index_spec t :
  table_ok t →
  (free t = [] ∧ next_index t = lengthN (slots t)) ∨
  (∃ rest s, free t = next_index t :: rest ∧ get (slots t) (next_index t) = Some s ∧
             payload s = None).
Proof.
  intros (_ & Hfree & _). unfold next_index. destruct (free t) as [|i rest] eqn:Hf; [by left|].
  right. destruct (proj1 (Hfree i)) as (s & Hs & Hp); [left|]. by exists rest, s.
Qed.

(** What an allocation does to the slots. *)
Lemma fill_get t s j :
  table_ok t →
  get (slots (fill t (next_index t) s)) j =
    if decide (j = next_index t) then Some s else get (slots t) j.
Proof.
  intros Ht. unfold fill. destruct (next_index_spec t Ht) as [[_ Hi]|(rest & s0 & _ & Hs & _)].
  - rewrite Hi, N.eqb_refl. simpl. case_decide as Hj.
    + subst j. apply get_Some. rewrite Nat2N.id, lookup_app_r by lia.
      by rewrite Nat.sub_diag.
    + unfold get. rewrite length_app. simpl.
      destruct (N.ltb_spec j (lengthN (slots t))) as [Hlt|Hge].
      * destruct (N.ltb_spec j (N.of_nat (length (slots t) + 1))); [|lia].
        apply lookup_app_l. lia.
      * destruct (N.ltb_spec j (N.of_nat (length (slots t) + 1))); [lia|done].
  - apply get_Some_lt in Hs as Hlt.
    destruct (N.eqb_spec (next_index t) (lengthN (slots t))); [lia|]. simpl. case_decide.
    + subst j. by apply get_insert_eq.
    + by apply get_insert_ne.
Qed.

Lemma fill_free t s :
  table_ok t → free (fill t (next_index t) s) = tail (free t).
Proof.
  intros Ht. unfold fill. destruct (next_index_spec t Ht) as [[Hf Hi]|(rest & s0 & Hf & Hs & _)].
  - by rewrite Hi, N.eqb_refl, Hf.
  - apply get_Some_lt in Hs.
    destruct (N.eqb_spec (next_index t) (lengthN (slots t))); [lia|done].
Qed.

Lemma get_app_elem (l : list (Slot A)) s : s ∈ l ↔ ∃ i, get l i = Some s.
Proof.
  split; [|intros [i Hi]; by eapply get_elem_of].
  intros [i Hi]%list_elem_of_lookup. exists (N.of_nat i). apply get_Some. by rewrite Nat2N.id.
Qed.

Lemma Forall_get (P : Slot A → Prop) l : Forall P l ↔ ∀ i s, get l i = Some s → P s.
Proof.
  rewrite Forall_forall. split.
  - intros H i s Hs. apply H, get_app_elem. by exists i.
  - intros H s [i Hs]%get_app_elem. by eapply H.
Qed.

Lemma fill_ok t g a :
  table_ok t → g ≤ usize_max → table_ok (fill t (next_index t) (mkSlot g (Some a))).
Proof.
  intros Ht Hg. pose proof Ht as (Hnd & Hfree & Hgen). unfold table_ok.
  rewrite fill_free by exact Ht. split_and!.
  - destruct (free t); [constructor|]. by apply NoDup_cons in Hnd as [_ ?].
  - intros i. rewrite fill_get by exact Ht.
    destruct (next_index_spec t Ht) as [[Hf Hi]|(rest & s0 & Hf & Hs & Hp)]; rewrite Hf; simpl.
    + split; [by intros ?%elem_of_nil|]. case_decide; [by intros (s & [= <-] & ?)|].
      intros Hin%Hfree. by rewrite Hf in Hin.
    + rewrite Hf in Hnd, Hfree. apply NoDup_cons in Hnd as [Hni _]. case_decide.
      * subst i. split; [done|by intros (s & [= <-] & ?)].
      * rewrite <-Hfree, elem_of_cons. tauto.
  - apply Forall_get. intros i s. rewrite fill_get by exact Ht.
    case_decide; [by intros [= <-]|]. intros Hs. exact (get_Forall _ _ _ _ Hgen Hs).
Qed.

Lemma next_generation_bound t g : next_generation t = Some g → g ≤ usize_max.
Proof.
  unfold next_generation, checked_add. case_match; [|done]. intros [= <-].
  by apply N.leb_le.
Qed.

(** The generation of the chosen slot grows by one. *)
Lemma next_generation_spec t g :
  next_generation t = Some g →
  ∀ s, get (slots t) (next_index t) = Some s → g = slot_generation s + 1.
Proof.
  unfold next_generation, checked_add. intros H s Hs. rewrite Hs in H. simpl in H.
  case_match; [|done]. by injection H as <-.
Qed.

Lemma allocate_spec t a id t' :
  table_ok t → allocate t a = Some (id, t') →
  table_ok t' ∧ ¬ issued t id ∧ issued t' id ∧
  (∀ j, occupant t' j = if decide (j = id) then Some a else occupant t j) ∧
  (∀ j, issued t j → issued t' j).
Proof.
  intros Ht. unfold allocate. destruct (next_generation t) as [g|] eqn:Hg; [|done].
  intros [= <- <-]. pose proof (next_generation_spec t g Hg) as Hnext.
  pose proof (fill_get t (mkSlot g (Some a)) (next_index t) Ht) as Hnew.
  rewrite decide_True in Hnew by done. split_and!.
  - apply fill_ok; [exact Ht|by eapply next_generation_bound].
  - intros (s & Hs & Hle). simpl in *. apply Hnext in Hs. lia.
  - exists (mkSlot g (Some a)). simpl. split; [exact Hnew|lia].
  - intros [k h]. unfold occupant. simpl. rewrite fill_get by exact Ht.
    destruct (decide (k = next_index t)) as [->|Hk]; simpl.
    + destruct (N.eqb_spec g h) as [<-|Hne]; [by rewrite decide_True|].
      rewrite decide_False by congruence.
      destruct (next_index_spec t Ht) as [[_ Hi]|(rest & s & _ & Hs & Hp)].
      * destruct (get (slots t) (next_index t)) as [s|] eqn:Hs; [|done].
        apply get_Some_lt in Hs. lia.
      * rewrite Hs. simpl. rewrite Hp. by case_match.
    + rewrite decide_False by congruence. done.
  - intros j (s & Hs & Hle). unfold issued. rewrite fill_get by exact Ht.
    case_decide as Hk; [|by exists s]. exists (mkSlot g (Some a)). split; [done|].
    simpl. rewrite Hk in Hs. apply Hnext in Hs. lia.
Qed.

(** An allocation fails only when the generations of the chosen slot are exhausted. *)
Lemma allocate_None t a :
  table_ok t → allocate t a = None →
  ∃ s, get (slots t) (next_index t) = Some s ∧ slot_generation s = usize_max.
Proof.
  intros (_ & _ & Hgen). unfold allocate.
  destruct (next_generation t) as [g|] eqn:Hg; [done|]. intros _.
  unfold next_generation, checked_add in Hg.
  destruct (_ <=? _) eqn:Hle in Hg; [done|]. apply N.leb_gt in Hle.
  destruct (get (slots t) (next_index t)) as [s|] eqn:Hs; simpl in Hle.
  - exists s. split; [done|]. pose proof (get_Forall _ _ _ _ Hgen Hs). simpl in *. lia.
  - unfold usize_max in Hle. lia.
Qed.

Lemma set_payload_sat t i o :
  i < lengthN (slots t) →
  outcome_sat (λ t', free t' = free t ∧ ∃ s, get (slots t) i = Some s ∧
    slots t' = <[N.to_nat i := mkSlot (slot_generation s) o]> (slots t)) (set_payload t i o).
Proof.
  intros Hi. unfold set_payload.
  eapply sat_bind; [by apply (index_or_panic_sat (λ s, get (slots t) i = Some s))|].
  intros s _ Hs. eapply sat_bind; [by apply (set_or_panic_sat
    (λ l, l = <[N.to_nat i := mkSlot (slot_generation s) o]> (slots t)))|].
  intros l _ ->. simpl. split; [done|]. by exists s.
Qed.

Lemma get_insert (l : list (Slot A)) i j s :
  i < lengthN l →
  get (<[N.to_nat i := s]> l) j = if decide (j = i) then Some s else get l j.
Proof.
  intros Hi. case_decide as Hj; [subst; by apply get_insert_eq|by apply get_insert_ne].
Qed.

(** Changing one slot changes the lookups of that slot only. *)
Lemma occupant_set_payload t t' i o s :
  get (slots t) i = Some s →
  slots t' = <[N.to_nat i := mkSlot (slot_generation s) o]> (slots t) →
  ∀ id, occupant t' id =
    if decide (key id = i) then if slot_generation s =? generation id then o else None
    else occupant t id.
Proof.
  intros Hs Hslots id. unfold occupant. rewrite Hslots.
  rewrite get_insert by (by eapply get_Some_lt).
  by case_decide.
Qed.

Lemma issued_set_payload t t' i o s :
  get (slots t) i = Some s →
  slots t' = <[N.to_nat i := mkSlot (slot_generation s) o]> (slots t) →
  ∀ id, issued t' id ↔ issued t id.
Proof.
  intros Hs Hslots id. unfold issued. rewrite Hslots, get_insert by (by eapply get_Some_lt).
  case_decide as Hk; [|done]. rewrite Hk, Hs. split.
  - intros (s' & [= <-] & ?). by exists s.
  - intros (s' & [= <-] & ?). by eexists.
Qed.

(** Releasing the slot of a live identity. *)
Lemma release_sat t id a :
  table_ok t → occupant t id = Some a →
  outcome_sat (λ t', table_ok t' ∧
    (∀ j, occupant t' j = if decide (j = id) then None else occupant t j) ∧
    (∀ j, issued t' j ↔ issued t j)) (release t (key id)).
Proof.
  intros Ht Hid. pose proof Ht as (Hnd & Hfree & Hgen). apply occupant_Some in Hid.
  apply get_Some_lt in Hid as Hlt. unfold release.
  eapply sat_bind; [by apply set_payload_sat|].
  intros t' _ (Hf & s & Hs & Hslots). rewrite Hid in Hs. injection Hs as <-. simpl in Hslots.
  split_and!.
  - unfold table_ok. simpl. rewrite Hf, Hslots. split_and!.
    + constructor; [|exact Hnd]. rewrite Hfree. intros (s & Hs & Hp). rewrite Hid in Hs.
      by injection Hs as <-.
    + intros i. rewrite get_insert by exact Hlt. rewrite elem_of_cons, Hfree. case_decide.
      * subst. split; [|by left]. intros _. by eexists.
      * split; [|by right]. by intros [?|?].
    + by apply Forall_insert; [|apply (get_Forall _ _ _ _ Hgen Hid)].
  - intros j. change (occupant (mkTable (slots t') (key id :: free t')) j) with (occupant t' j).
    rewrite (occupant_set_payload t t' _ _ _ Hid Hslots). simpl.
    destruct j as [k g], id as [k' g']. simpl in *. case_decide as Hk.
    + subst k. destruct (N.eqb_spec g' g) as [->|]; [by rewrite decide_True|].
      rewrite decide_False by congruence. unfold occupant. simpl. rewrite Hid. simpl.
      destruct (N.eqb_spec g' g); done.
    + rewrite decide_False by congruence. done.
  - intros j. exact (issued_set_payload t t' _ _ _ Hid Hslots j).
Qed.

(** Changing the occupant of a live slot. *)
Lemma update_sat t id a a' :
  table_ok t → occupant t id = Some a →
  outcome_sat (λ t', table_ok t' ∧
    (∀ j, occupant t' j = if decide (j = id) then Some a' else occupant t j) ∧
    (∀ j, issued t' j ↔ issued t j)) (set_payload t (key id) (Some a')).
Proof.
  intros (Hnd & Hfree & Hgen) Hid. apply occupant_Some in Hid. apply get_Some_lt in Hid as Hlt.
  eapply sat_mono; [by apply set_payload_sat|].
  intros t' _ (Hf & s & Hs & Hslots). rewrite Hid in Hs. injection Hs as <-. simpl in Hslots.
  split_and!.
  - unfold table_ok. rewrite Hf, Hslots. split_and!; [exact Hnd| |].
    + intros i. rewrite get_insert by exact Hlt. rewrite Hfree. case_decide; [|done].
      subst. rewrite Hid. split; [by intros (s & [= <-] & ?)|by intros (s & [= <-] & ?)].
    + by apply Forall_insert; [|apply (get_Forall _ _ _ _ Hgen Hid)].
  - intros j. rewrite (occupant_set_payload t t' _ _ _ Hid Hslots). simpl.
    destruct j as [k g], id as [k' g']. simpl in *. case_decide as Hk.
    + subst k. destruct (N.eqb_spec g' g) as [->|]; [by rewrite decide_True|].
      rewrite decide_False by congruence. unfold occupant. simpl. rewrite Hid. simpl.
      destruct (N.eqb_spec g' g); done.
    + rewrite decide_False by congruence. done.
  - intros j. exact (issued_set_payload t t' _ _ _ Hid Hslots j).
Qed.

Lemma set_payload_infallible t i o : infallible (set_payload t i o).
Proof. unfold set_payload. eauto with infallible. Qed.

Lemma release_infallible t i : infallible (release t i).
Proof. unfold release. apply infallible_bind; [apply set_payload_infallible|eauto with infallible]. Qed.

(** Two live identities of one slot are equal. *)
Lemma occupant_key_inj t i j a c :
  occupant t i = Some a → occupant t j = Some c → key i = key j → i = j.
Proof.
  intros Hi%occupant_Some Hj%occupant_Some Hk. rewrite Hk, Hj in Hi.
  destruct i, j. simpl in *. congruence.
Qed.
End facts.

#[export] Hint Resolve set_payload_infallible release_infallible : infallible.
