(* ===== verification/FrameRoots.v ===== *)
(** The frame roots of [compiler/runtime/src/frame_roots.rs]: managed pointers retained for
    the scope of one owner, named by generation-stamped identities. The active pointers are
    kept in a dense vector, so that tracing visits nothing else; removal moves the last
    pointer into the gap. Pointers are addresses ([N]). *)

From S2P Require Import Prelude Slots.

Record Entry := mkEntry { slot : N; pointer : N }.

(** [Store]: [table] is [slots] and [free], each slot holding a position in [active]. *)
Record Store := mkStore { active : list Entry; table : Table N }.

Definition default_store : Store := mkStore [] empty.

(** [outside_tracing]: [fatal] while the heap is collecting. *)
Definition outside_tracing (collecting : bool) : outcome () :=
  if collecting then Panic "frame roots cannot change during GC tracing" else Ok tt.

Definition position (store : Store) (id : Id) : option N := occupant (table store) id.

Definition insert (collecting : bool) (store : Store) (ptr : N) : outcome (Id * Store) :=
  outside_tracing collecting ;;
  '(id, table) ← or_panic (allocate (table store) (lengthN (active store)))
                   "frame root generation exhausted";
  Ok (id, mkStore (active store ++ [mkEntry (key id) ptr]) table).

Definition get_root (store : Store) (id : Id) : outcome (option N) :=
  match position store id with
  | None => Ok None
  | Some p => e ← index_or_panic (active store) p; Ok (Some (pointer e))
  end.

Definition replace (collecting : bool) (store : Store) (id : Id) (ptr : N)
    : outcome (bool * Store) :=
  outside_tracing collecting ;;
  match position store id with
  | None => Ok (false, store)
  | Some p =>
      e ← index_or_panic (active store) p;
      active ← set_or_panic (active store) p (mkEntry (slot e) ptr);
      Ok (true, mkStore active (table store))
  end.

(** [Vec::swap_remove]: panics out of range. *)
Definition swap_remove_or_panic (l : list Entry) (p : N) : outcome (Entry * list Entry) :=
  e ← index_or_panic l p; Ok (e, swap_remove l (N.to_nat p)).

Definition remove (collecting : bool) (store : Store) (id : Id) : outcome (bool * Store) :=
  outside_tracing collecting ;;
  match position store id with
  | None => Ok (false, store)
  | Some p =>
      '(removed, active) ← swap_remove_or_panic (active store) p;
      table ← (if p <? lengthN active
               then moved ← index_or_panic active p;
                    set_payload (table store) (slot moved) (Some p)
               else Ok (table store));
      table ← release table (slot removed);
      Ok (true, mkStore active table)
  end.

(** [trace]: every retained pointer is rewritten by the collector's [visit], which may
    change the collector's own state [H]. *)
Section trace.
Context {H : Type} (visit : H → N → H * N).

Fixpoint trace_entries (h : H) (entries : list Entry) : H * list Entry :=
  match entries with
  | [] => (h, [])
  | e :: entries =>
      let '(h, ptr) := visit h (pointer e) in
      let '(h, entries) := trace_entries h entries in
      (h, mkEntry (slot e) ptr :: entries)
  end.

Definition trace (h : H) (store : Store) : H * Store :=
  let '(h, active) := trace_entries h (active store) in (h, mkStore active (table store)).
End trace.

(** ** Invariant and abstraction *)

(** Entries and occupied slots point at each other. *)
Definition store_ok (store : Store) : Prop :=
  table_ok (table store) ∧
  (∀ p e, get (active store) p = Some e →
     ∃ id, key id = slot e ∧ position store id = Some p) ∧
  (∀ id p, position store id = Some p →
     ∃ e, get (active store) p = Some e ∧ slot e = key id).

(** The pointer an identity retains. *)
Definition root (store : Store) (id : Id) : option N :=
  p ← position store id; pointer <$> get (active store) p.

(** The abstract owner scope: a finite map from live identities to pointers. *)
Definition represents (store : Store) (m : gmap Id N) : Prop :=
  store_ok store ∧ ∀ id, m !! id = root store id.

Definition store_issued (store : Store) (id : Id) : Prop := issued (table store) id.

(** ** Correctness of the operations *)

Lemma default_store_ok : store_ok default_store.
Proof.
  split_and!; [apply empty_ok| |].
  - intros p e H. apply get_Some in H. simpl in H. by rewrite lookup_nil in H.
  - intros id p H. apply occupant_Some, get_Some in H. simpl in H. by rewrite lookup_nil in H.
Qed.

Section operations.
Context (store : Store) (Hstore : store_ok store).

Lemma store_table_ok : table_ok (table store).
Proof. apply Hstore. Qed.

Lemma position_root id p : position store id = Some p → is_Some (root store id).
Proof.
  intros Hp. destruct Hstore as (_ & _ & Hs). destruct (Hs id p Hp) as (e & He & _).
  unfold root. rewrite Hp. simpl. rewrite He. by eexists.
Qed.

Lemma position_inj i j p : position store i = Some p → position store j = Some p → i = j.
Proof.
  intros Hi Hj. destruct Hstore as (_ & _ & Hs).
  destruct (Hs i p Hi) as (e & He & Hki), (Hs j p Hj) as (e' & He' & Hkj).
  eapply occupant_key_inj; [exact Hi|exact Hj|]. congruence.
Qed.

Lemma get_root_spec id : get_root store id = Ok (root store id).
Proof.
  unfold get_root, root. destruct (position store id) as [p|] eqn:Hp; [|done].
  destruct (position_root id p Hp) as [x Hx]. unfold root in Hx. rewrite Hp in Hx. simpl in *.
  unfold index_or_panic. destruct (get (active store) p); [done|discriminate].
Qed.

Lemma get_snoc (l : list Entry) e p :
  get (l ++ [e]) p = if decide (p = lengthN l) then Some e else get l p.
Proof.
  case_decide as Hp.
  - subst. apply get_Some. rewrite Nat2N.id, lookup_app_r, Nat.sub_diag by lia. done.
  - unfold get. rewrite length_app. simpl.
    destruct (N.ltb_spec p (lengthN l)), (N.ltb_spec p (N.of_nat (length l + 1)));
      try lia; [apply lookup_app_l; lia|done].
Qed.

Lemma insert_spec ptr id store' :
  insert false store ptr = Ok (id, store') →
  store_ok store' ∧ ¬ store_issued store id ∧
  (∀ j, root store' j = if decide (j = id) then Some ptr else root store j) ∧
  (∀ j, store_issued store j → store_issued store' j).
Proof.
  unfold insert. simpl. destruct (allocate _ _) as [[id' t]|] eqn:Halloc; [|done].
  intros [= -> <-].
  destruct (allocate_spec _ _ _ _ store_table_ok Halloc) as (Ht & Hni & _ & Hocc & Hiss).
  destruct Hstore as (_ & Hact & Hslot).
  split_and!; [split_and!; [exact Ht| |]|exact Hni| |exact Hiss].
  - intros p e. simpl. rewrite get_snoc. unfold position. simpl. case_decide as Hp.
    + intros [= <-]. exists id. rewrite Hocc, decide_True by done. simpl. by subst.
    + intros He. destruct (Hact p e He) as (j & Hk & Hj). exists j. rewrite Hocc.
      rewrite decide_False; [done|]. intros ->. apply Hni. by eapply occupant_issued.
  - intros j p. unfold position. simpl. rewrite Hocc, get_snoc. case_decide as Hj.
    + intros [= <-]. rewrite decide_True by done. subst. by eexists.
    + intros Hp. destruct (Hslot j p Hp) as (e & He & Hk). exists e.
      apply get_Some_lt in He as Hlt. by rewrite decide_False by lia.
  - intros j. unfold root, position. simpl. rewrite Hocc. case_decide as Hj; simpl.
    + rewrite get_snoc, decide_True by done. done.
    + destruct (occupant (table store) j) as [p|] eqn:Hp; [|done]. simpl.
      destruct (Hslot j p Hp) as (e & He & _). apply get_Some_lt in He as Hlt.
      rewrite get_snoc, decide_False by lia. done.
Qed.

Lemma replace_spec id ptr :
  match root store id with
  | None => replace false store id ptr = Ok (false, store)
  | Some _ => ∃ store', replace false store id ptr = Ok (true, store') ∧ store_ok store' ∧
      (∀ j, root store' j = if decide (j = id) then Some ptr else root store j) ∧
      (∀ j, store_issued store' j ↔ store_issued store j)
  end.
Proof.
  unfold replace. simpl. destruct (position store id) as [p|] eqn:Hp.
  2: { unfold root. by rewrite Hp. }
  destruct (position_root id p Hp) as [x Hx]. rewrite Hx.
  destruct Hstore as (_ & Hact & Hslot). destruct (Hslot id p Hp) as (e & He & Hk).
  apply get_Some_lt in He as Hlt. unfold index_or_panic. rewrite He. simpl.
  rewrite (proj2 (set_or_panic_Ok (active store) p _ _) (conj Hlt eq_refl)). simpl.
  eexists. split; [done|]. split_and!; [split_and!; [exact store_table_ok| |]| |done].
  - intros q e'. simpl. unfold position. simpl.
    destruct (decide (p = q)) as [->|Hne].
    + rewrite get_insert_eq by done. intros [= <-]. simpl. by apply Hact.
    + rewrite get_insert_ne by done. apply Hact.
  - intros j q. unfold position. simpl. intros Hj. destruct (Hslot j q Hj) as (e' & He' & Hk').
    destruct (decide (p = q)) as [->|Hne].
    + rewrite get_insert_eq by done. eexists. split; [done|]. simpl. congruence.
    + rewrite get_insert_ne by done. by exists e'.
  - intros j. unfold root. change (position (mkStore _ (table store)) j) with (position store j).
    case_decide as Hj; simpl.
    + subst j. rewrite Hp. simpl. by rewrite get_insert_eq.
    + destruct (position store j) as [q|] eqn:Hq; [|done]. simpl.
      rewrite get_insert_ne; [done|]. intros <-. apply Hj. by eapply position_inj.
Qed.

(** The slot that [remove] moves the last entry's position from and to. *)
Lemma remove_moved id p last_entry :
  position store id = Some p → get (active store) (lengthN (active store) - 1) = Some last_entry →
  let active' := swap_remove (active store) (N.to_nat p) in
  lengthN active' = lengthN (active store) - 1 →
  outcome_sat (λ t, table_ok t ∧
      (∀ j, occupant t j =
         if decide (position store j = Some (lengthN (active store) - 1))
         then Some p else position store j) ∧
      (∀ j, issued t j ↔ store_issued store j))
    (if p <? lengthN active'
     then moved ← index_or_panic active' p; set_payload (table store) (slot moved) (Some p)
     else Ok (table store)).
Proof.
  intros Hp Hlast active' Hlen. destruct Hstore as (_ & Hact & Hslot).
  destruct (Hslot id p Hp) as (e & He & Hk). apply get_Some_lt in He as Hlt.
  destruct (swap_remove_spec _ p _ _ He Hlast) as [_ Hget]. fold active' in Hget.
  destruct (N.ltb_spec p (lengthN active')) as [Hlt'|Hge].
  - eapply sat_bind; [by apply (index_or_panic_sat (λ m, get active' p = Some m))|].
    intros m _ Hm. cbv beta in Hm. rewrite Hget, !decide_True in Hm by lia. injection Hm as <-.
    destruct (Hact _ _ Hlast) as (j & Hkj & Hj). rewrite <-Hkj.
    eapply sat_mono; [by eapply (update_sat (table store) j); [exact store_table_ok|exact Hj]|].
    intros t _ (Ht & Hocc & Hiss). split_and!; [exact Ht| |exact Hiss].
    intros i. rewrite Hocc. case_decide as Hij; case_decide as Hpos; try done.
    + by subst.
    + destruct Hij. by eapply position_inj.
  - split_and!; [exact store_table_ok| |done]. intros j. case_decide as Hpos; [|done].
    unfold position in Hpos. rewrite Hpos. f_equal. lia.
Qed.

Lemma remove_spec id :
  match root store id with
  | None => remove false store id = Ok (false, store)
  | Some _ => outcome_sat (λ '(removed, store'), removed = true ∧ store_ok store' ∧
      (∀ j, root store' j = if decide (j = id) then None else root store j) ∧
      (∀ j, store_issued store' j ↔ store_issued store j)) (remove false store id)
  end.
Proof.
  unfold remove. simpl. destruct (position store id) as [p|] eqn:Hp.
  2: { unfold root. by rewrite Hp. }
  destruct (position_root id p Hp) as [x Hx]. rewrite Hx. clear x Hx.
  pose proof Hstore as (_ & Hact & Hslot). destruct (Hslot id p Hp) as (e & He & Hk).
  apply get_Some_lt in He as Hlt. unfold swap_remove_or_panic.
  rewrite (index_or_panic_lookup _ p e) by (by apply get_Some). simpl.
  destruct (get_lt (active store) (lengthN (active store) - 1)) as [z Hz]; [lia|].
  destruct (swap_remove_spec _ p _ _ He Hz) as [Hlen Hget].
  eapply sat_bind; [by apply (remove_moved id p z Hp Hz)|]. intros t _ (Ht & Hocc & Hiss).
  assert (occupant t id = Some p) as Hid.
  { rewrite Hocc, Hp. case_decide; [done|done]. }
  rewrite Hk. eapply sat_bind; [by eapply release_sat|].
  intros t' _ (Ht' & Hocc' & Hiss'). simpl.
  set (active' := swap_remove (active store) (N.to_nat p)) in *.
  (* Positions after the removal. *)
  assert (∀ j, position (mkStore active' t') j =
    if decide (j = id) then None
    else if decide (position store j = Some (lengthN (active store) - 1)) then Some p
    else position store j) as Hpos.
  { intros j. unfold position at 1. simpl. by rewrite Hocc', Hocc. }
  assert (∀ j q, j ≠ id → position store j = Some q → q ≠ p) as Hother.
  { intros j q Hj Hq ->. apply Hj. by eapply position_inj. }
  split_and!; [done| | |].
  - split_and!; [exact Ht'| |].
    + intros q e' Hq. simpl in Hq. rewrite Hget in Hq.
      destruct (decide (q < _)) as [Hqlt|]; [|done].
      destruct (decide (q = p)) as [->|Hqp].
      * injection Hq as <-. destruct (Hact _ _ Hz) as (j & Hkj & Hj). exists j.
        split; [exact Hkj|]. rewrite Hpos, decide_False; [by rewrite decide_True|].
        intros ->. rewrite Hp in Hj. injection Hj as ->. lia.
      * destruct (Hact _ _ Hq) as (j & Hkj & Hj). exists j. split; [exact Hkj|].
        rewrite Hpos, decide_False; [rewrite decide_False; [done|]|].
        -- rewrite Hj. intros [= ->]. lia.
        -- intros ->. rewrite Hp in Hj. by injection Hj as ->.
    + intros j q. rewrite Hpos. simpl. case_decide as Hj; [done|]. rewrite Hget.
      case_decide as Hl.
      * intros [= <-]. destruct (Hslot _ _ Hl) as (e' & He' & Hk'). rewrite Hz in He'.
        injection He' as <-. exists z. split; [|exact Hk'].
        rewrite !decide_True; try done.
        assert (p ≠ lengthN (active store) - 1); [|lia].
        intros Heq. apply (Hother j _ Hj Hl). congruence.
      * intros Hq. destruct (Hslot _ _ Hq) as (e' & He' & Hk'). exists e'. split; [|exact Hk'].
        apply get_Some_lt in He' as Hqlt.
        rewrite decide_True, decide_False; [done|by eapply Hother|].
        assert (q ≠ lengthN (active store) - 1) by (intros ->; done). lia.
  - intros j. unfold root at 1. rewrite Hpos. case_decide as Hj; [done|].
    unfold root. case_decide as Hl; simpl.
    + rewrite Hl. simpl. rewrite Hz. simpl. rewrite Hget.
      assert (p ≠ lengthN (active store) - 1).
      { intros Heq. apply (Hother j _ Hj Hl). congruence. }
      by rewrite !decide_True by (done || lia).
    + destruct (position store j) as [q|] eqn:Hq; [|done]. simpl. rewrite Hget.
      destruct (Hslot _ _ Hq) as (e' & He' & _). apply get_Some_lt in He' as Hqlt.
      assert (q ≠ lengthN (active store) - 1) by (intros ->; done).
      rewrite decide_True by lia. rewrite decide_False; [done|]. by eapply Hother.
  - intros j. unfold store_issued. simpl. by rewrite Hiss', Hiss.
Qed.
End operations.

Lemma remove_infallible store id : infallible (remove false store id).
Proof.
  unfold remove, swap_remove_or_panic. simpl. destruct (position store id); [|apply infallible_Ok].
  repeat (apply infallible_bind; [eauto with infallible|intros]).
  all: try (destruct v as [? ?]; repeat (apply infallible_bind; [|intros])); eauto with infallible.
Qed.

(** ** Tracing *)

Section trace_facts.
Context {H : Type} (visit : H → N → H * N).

(** Each retained pointer is visited once, and nothing else about the entries changes. *)
Lemma trace_entries_spec h entries :
  Forall2 (λ e e', slot e' = slot e ∧ ∃ h1, (visit h1 (pointer e)).2 = pointer e') entries
    (trace_entries visit h entries).2.
Proof.
  revert h. induction entries as [|e entries IH]; intros h; simpl; [constructor|].
  destruct (visit h (pointer e)) as [h1 ptr] eqn:Hv.
  specialize (IH h1). destruct (trace_entries visit h1 entries) as [h2 rest]. simpl in *.
  constructor; [|exact IH]. split; [done|]. exists h. by rewrite Hv.
Qed.

Lemma Forall2_get {A B} (P : A → B → Prop) l l' i :
  Forall2 P l l' →
  match get l i, get l' i with
  | Some x, Some y => P x y
  | None, None => True
  | _, _ => False
  end.
Proof.
  intros Hl. pose proof (Forall2_length _ _ _ Hl) as Hlen.
  destruct (get l i) as [x|] eqn:Hx.
  - apply get_Some in Hx. destruct (Forall2_lookup_l _ _ _ _ _ Hl Hx) as (y & Hy & HP).
    apply get_Some in Hy. by rewrite Hy.
  - destruct (get l' i) as [y|] eqn:Hy; [|done]. apply get_Some_lt in Hy.
    destruct (get_lt l i) as [x Hx']; [lia|]. congruence.
Qed.

Lemma trace_spec h store :
  store_ok store →
  store_ok (trace visit h store).2 ∧
  (∀ j, store_issued (trace visit h store).2 j ↔ store_issued store j) ∧
  ∀ j, match root store j, root (trace visit h store).2 j with
       | Some ptr, Some ptr' => ∃ h1, (visit h1 ptr).2 = ptr'
       | None, None => True
       | _, _ => False
       end.
Proof.
  intros (Ht & Hact & Hslot). unfold trace.
  pose proof (trace_entries_spec h (active store)) as He.
  destruct (trace_entries visit h (active store)) as [h' entries]. simpl in *.
  pose proof (λ i, Forall2_get _ _ _ i He) as Hget. split_and!; [split_and!; [exact Ht| |]|done|].
  - intros p e Hp. simpl in Hp. specialize (Hget p). rewrite Hp in Hget.
    destruct (get (active store) p) as [e0|] eqn:He0; [|done].
    destruct Hget as [Hs _]. rewrite Hs. by apply Hact.
  - intros id p Hp. destruct (Hslot id p Hp) as (e & He0 & Hk). specialize (Hget p).
    rewrite He0 in Hget. simpl. destruct (get entries p) as [e'|]; [|done].
    exists e'. split; [done|]. destruct Hget as [Hs _]. congruence.
  - intros j. unfold root. change (position (mkStore entries (table store)) j) with (position store j).
    destruct (position store j) as [p|] eqn:Hp; [|done]. simpl. specialize (Hget p).
    destruct (get (active store) p), (get entries p); simpl; try done. by destruct Hget.
Qed.
End trace_facts.

(** ** The owner scope as a transition system *)

Inductive step : Store → Store → Prop :=
  | step_insert store ptr id store' :
      insert false store ptr = Ok (id, store') → step store store'
  | step_replace store id ptr replaced store' :
      replace false store id ptr = Ok (replaced, store') → step store store'
  | step_remove store id removed store' :
      remove false store id = Ok (removed, store') → step store store'
  | step_trace {H} (visit : H → N → H * N) h store :
      step store (trace visit h store).2.

(** What every step preserves about an identity that was handed out. *)
Lemma step_preserves store store' :
  step store store' → store_ok store →
  store_ok store' ∧
  ∀ id, store_issued store id →
    store_issued store' id ∧ (root store id = None → root store' id = None).
Proof.
  intros Hstep Hok. destruct Hstep as [store ptr id store' H|store i ptr r store' H|store i r store' H|].
  - destruct (insert_spec store Hok ptr id store' H) as (Hok' & Hni & Hroot & Hiss).
    split; [exact Hok'|]. intros j Hj. split; [by apply Hiss|]. rewrite Hroot.
    case_decide; [by subst|done].
  - pose proof (replace_spec store Hok i ptr) as Hr. destruct (root store i) as [x|] eqn:Hx.
    + destruct Hr as (s & Hs & Hok' & Hroot & Hiss). rewrite Hs in H. injection H as _ <-.
      split; [exact Hok'|]. intros j Hj. split; [by apply Hiss|]. rewrite Hroot.
      case_decide; [|done]. subst. by rewrite Hx.
    + rewrite Hr in H. injection H as _ <-. by split.
  - pose proof (remove_spec store Hok i) as Hr. destruct (root store i) as [x|] eqn:Hx.
    + rewrite H in Hr. destruct Hr as (_ & Hok' & Hroot & Hiss).
      split; [exact Hok'|]. intros j Hj. split; [by apply Hiss|]. rewrite Hroot. by case_decide.
    + rewrite Hr in H. injection H as _ <-. by split.
  - destruct (trace_spec visit h store Hok) as (Hok' & Hiss & Hroot).
    split; [exact Hok'|]. intros j Hj. split; [by apply Hiss|]. intros Hn. specialize (Hroot j).
    rewrite Hn in Hroot. by destruct (root _ j).
Qed.

Lemma steps_preserve store store' :
  rtc step store store' → store_ok store →
  store_ok store' ∧
  ∀ id, store_issued store id →
    store_issued store' id ∧ (root store id = None → root store' id = None).
Proof.
  induction 1 as [store|store s1 store' Hs _ IH]; intros Hok; [by split|].
  destruct (step_preserves _ _ Hs Hok) as [Hok1 H1]. destruct (IH Hok1) as [Hok2 H2].
  split; [exact Hok2|]. intros id Hid. destruct (H1 id Hid) as [Hi Hn].
  destruct (H2 id Hi) as [Hi' Hn']. split; [exact Hi'|]. auto.
Qed.

(** ** Refinement of a finite map *)

Lemma represents_default : represents default_store ∅.
Proof.
  split; [apply default_store_ok|]. intros id. rewrite lookup_empty.
  unfold root, position, occupant, get. simpl. destruct (N.ltb_spec (key id) (N.of_nat 0)); [lia|reflexivity].
Qed.

Lemma insert_represents store m ptr id store' :
  represents store m → insert false store ptr = Ok (id, store') →
  m !! id = None ∧ represents store' (<[id := ptr]> m).
Proof.
  intros [Hok Hm] H. destruct (insert_spec store Hok ptr id store' H) as (Hok' & Hni & Hroot & _).
  split.
  - rewrite Hm. destruct (root store id) as [x|] eqn:Hx; [|done]. destruct Hni.
    unfold root in Hx. destruct (position store id) as [p|] eqn:Hp; [|done].
    by eapply occupant_issued.
  - split; [exact Hok'|]. intros j. rewrite Hroot. case_decide as Hj.
    + subst. apply lookup_insert_eq.
    + rewrite lookup_insert_ne by done. apply Hm.
Qed.

Lemma replace_represents store m id ptr :
  represents store m →
  ∃ store', replace false store id ptr = Ok (bool_decide (is_Some (m !! id)), store') ∧
    represents store' (if decide (is_Some (m !! id)) then <[id := ptr]> m else m).
Proof.
  intros [Hok Hm]. pose proof (replace_spec store Hok id ptr) as Hr.
  rewrite <-Hm in Hr. destruct (m !! id) as [x|] eqn:Hx.
  - destruct Hr as (store' & Hs & Hok' & Hroot & _). exists store'.
    rewrite bool_decide_true, decide_True by by eexists. split; [exact Hs|].
    split; [exact Hok'|]. intros j. rewrite Hroot. case_decide as Hj.
    + subst. apply lookup_insert_eq.
    + rewrite lookup_insert_ne by done. apply Hm.
  - exists store. rewrite bool_decide_false, decide_False by by intros []. by split.
Qed.

Lemma remove_represents store m id :
  represents store m →
  ∃ store', remove false store id = Ok (bool_decide (is_Some (m !! id)), store') ∧
    represents store' (delete id m).
Proof.
  intros [Hok Hm]. pose proof (remove_spec store Hok id) as Hr.
  rewrite <-Hm in Hr. destruct (m !! id) as [x|] eqn:Hx.
  - rewrite bool_decide_true by by eexists.
    destruct (sat_infallible _ _ Hr (remove_infallible store id))
      as ([b store'] & Hrem & -> & Hok' & Hroot & _).
    exists store'. split; [exact Hrem|]. split; [exact Hok'|].
    intros j. rewrite Hroot. case_decide as Hj.
    + subst. apply lookup_delete_eq.
    + rewrite lookup_delete_ne by done. apply Hm.
  - exists store. rewrite bool_decide_false by by intros []. split; [exact Hr|].
    split; [exact Hok|]. intros j. destruct (decide (j = id)) as [->|].
    + by rewrite lookup_delete_eq, <-Hm.
    + by rewrite lookup_delete_ne.
Qed.

(** ** Tracing as a map over the represented pointers *)

Section trace_map.
Context (store : Store) (m : gmap Id N) (Hrep : represents store m).

(** The live identity of an entry. *)
Definition entry_id (e : Entry) : Id :=
  mkId (slot e) (from_option slot_generation 0 (get (slots (table store)) (slot e))).

Lemma entry_position p e : get (active store) p = Some e → position store (entry_id e) = Some p.
Proof.
  intros He. destruct Hrep as [(_ & Hact & _) _]. destruct (Hact p e He) as (id & Hk & Hp).
  pose proof Hp as Hs. unfold position in Hs. apply occupant_Some in Hs.
  unfold entry_id. rewrite <-Hk, Hs. simpl. by destruct id.
Qed.

(** The entries are the graph of the map, each pair once. *)
Lemma entries_map : (λ e, (entry_id e, pointer e)) <$> active store ≡ₚ map_to_list m.
Proof.
  destruct Hrep as [Hok Hm]. pose proof Hok as (_ & Hact & Hslot). apply NoDup_Permutation.
  - apply NoDup_fmap_2_strong; [|apply NoDup_alt].
    + intros e e' [i Hi]%list_elem_of_lookup [j Hj]%list_elem_of_lookup [= Heq _].
      assert (get (active store) (N.of_nat i) = Some e) as Ei by (apply get_Some; by rewrite Nat2N.id).
      assert (get (active store) (N.of_nat j) = Some e') as Ej by (apply get_Some; by rewrite Nat2N.id).
      assert (entry_id e = entry_id e') as Hid by (unfold entry_id; by rewrite Heq).
      pose proof (entry_position _ _ Ei) as Pi. rewrite Hid in Pi.
      pose proof (entry_position _ _ Ej) as Pj. congruence.
    + intros i j e Hi Hj.
      assert (get (active store) (N.of_nat i) = Some e) as Ei by (apply get_Some; by rewrite Nat2N.id).
      assert (get (active store) (N.of_nat j) = Some e) as Ej by (apply get_Some; by rewrite Nat2N.id).
      pose proof (entry_position _ _ Ei) as Pi. pose proof (entry_position _ _ Ej) as Pj.
      rewrite Pi in Pj. injection Pj. lia.
  - apply NoDup_map_to_list.
  - intros [id ptr]. rewrite elem_of_map_to_list, Hm, list_elem_of_fmap. unfold root. split.
    + intros (e & [= -> ->] & [i Hi]%list_elem_of_lookup).
      assert (get (active store) (N.of_nat i) = Some e) as Ei by (apply get_Some; by rewrite Nat2N.id).
      rewrite (entry_position _ _ Ei). simpl. by rewrite Ei.
    + intros Hr. destruct (position store id) as [p|] eqn:Hp; [|done]. simpl in Hr.
      destruct (get (active store) p) as [e|] eqn:He; [|done]. injection Hr as <-.
      exists e. split; [|by eapply get_elem_of]. f_equal.
      eapply (position_inj store Hok); [exact Hp|by apply entry_position].
Qed.

(** A recording visitor sees every retained pointer once, whatever it moves them to. *)
Lemma trace_record (f : N → N) log entries :
  trace_entries (λ l ptr, (l ++ [ptr], f ptr)) log entries =
    (log ++ (pointer <$> entries), (λ e, mkEntry (slot e) (f (pointer e))) <$> entries).
Proof.
  revert log. induction entries as [|e entries IH]; intros log; simpl; [by rewrite app_nil_r|].
  rewrite IH. by rewrite <-app_assoc.
Qed.

Lemma trace_represents (f : N → N) :
  let '(log, store') := trace (λ l ptr, (l ++ [ptr], f ptr)) [] store in
  log ≡ₚ (map_to_list m).*2 ∧ represents store' (f <$> m).
Proof.
  destruct Hrep as [Hok Hm].
  pose proof (trace_spec (λ (l : list N) ptr, (l ++ [ptr], f ptr)) [] store Hok) as (Hok' & _ & Hroot).
  unfold trace in *. rewrite trace_record in *. simpl in *. split.
  - rewrite <-entries_map, <-list_fmap_compose. done.
  - split; [exact Hok'|]. intros id. specialize (Hroot id). rewrite lookup_fmap, Hm.
    destruct (root store id), (root _ id); simpl; try done. by destruct Hroot as [_ ->].
Qed.
End trace_map.
