(* ===== verification/Wait.v ===== *)
(** The wait reactor of [compiler/runtime/src/wait.rs]: one-shot registrations of timers,
    descriptor readiness and external completions. The operating-system poller is a
    parameter of the model: its operations change its own state and may fail. What runs
    under the lock of the reactor's core in one piece is one definition. [notify_completion]
    and [wait] let the lock go in between: the first is a locked part and a wake-up, and the
    second takes what the other threads do in its gaps as an input. *)

From S2P Require Import Prelude Slots.

(** ** Data *)

Definition KIND_TIMER : N := 1.
Definition KIND_READINESS : N := 2.
Definition KIND_COMPLETION : N := 3.
Definition READABLE : N := 1.
Definition WRITABLE : N := 2.
Definition TIMER : N := 4.
Definition COMPLETION : N := 8.
Definition ERROR : N := 16.

Record WaitSource := mkSource { kind : N; interests : N; handle : N; deadline_ns : N }.

(** [Registration] is the slot identity. *)
Abbreviation Registration := Id.

Record ReadyNotification := mkReady {
  registration : Registration; ready_owner : N; events : N; os_error : Z }.

Record Active := mkActive { source : WaitSource; owner : N }.

Record Handle := mkHandle {
  event_key : N; read : option Registration; write : option Registration }.

Definition default_handle : Handle := mkHandle 0 None None.

(** [BTreeMap<(u64, u64), Registration>]: in the order of the keys. *)
Abbreviation Timers := (list (N * N * Registration)).

Record Core := mkCore {
  table : Table Active;
  timers : Timers;
  handles : gmap N Handle;
  poll_keys : gmap N N;
  next_poll_key : N;
  ready : list ReadyNotification }.

Definition default_core : Core := mkCore empty [] ∅ ∅ 0 [].

Definition with_table t c := mkCore t (timers c) (handles c) (poll_keys c) (next_poll_key c) (ready c).
Definition with_timers ts c := mkCore (table c) ts (handles c) (poll_keys c) (next_poll_key c) (ready c).
Definition with_poll_key n c := mkCore (table c) (timers c) (handles c) (poll_keys c) n (ready c).
Definition with_handles h k c := mkCore (table c) (timers c) h k (next_poll_key c) (ready c).
Definition with_ready r c := mkCore (table c) (timers c) (handles c) (poll_keys c) (next_poll_key c) r.

Fixpoint timer_insert (k : N * N) (r : Registration) (ts : Timers) : Timers :=
  match ts with
  | [] => [(k, r)]
  | (k', r') :: rest =>
      if before k k' then (k, r) :: ts
      else if before k' k then (k', r') :: timer_insert k r rest
      else (k, r) :: rest
  end.

Definition timer_remove (k : N * N) (ts : Timers) : Timers := filter (λ e, e.1 ≠ k) ts.

(** ** [io::Result] *)

Inductive ErrorKind := NotFound | InvalidInput | AlreadyExists | Other.
#[export] Instance ErrorKind_eq_dec : EqDecision ErrorKind.
Proof. solve_decision. Defined.

Record IoError := mkError { error_kind : ErrorKind; message : string }.

Inductive result (A : Type) := Success (v : A) | Failure (e : IoError).
Arguments Success {A} v.
Arguments Failure {A} e.

(** ** The poller *)

(** The event an interest is registered for ([Event::new(..).with_interrupt()]). *)
Record Interest := mkInterest { interest_key : N; reads : bool; writes : bool }.

(** A delivered event: [interrupt] and [error] are [is_interrupt()] and [is_err()]. *)
Record Event := mkEvent {
  key : N; readable : bool; writable : bool; interrupt : bool; error : option bool }.

(** The operations of the [polling] crate the reactor uses, with the poller's state [P]. *)
Class Poller (P : Type) := {
  poll_notify : P → P * option IoError;
  poll_add : N → Interest → P → P * option IoError;
  poll_modify : N → Interest → P → P * option IoError;
  poll_delete : N → P → P * option IoError;
  poll_wait : option N → P → P * result (list Event) }.

Record Reactor (P : Type) := mkReactor { poller : P; core : Core }.
Arguments mkReactor {P} poller core.
Arguments poller {P} r.
Arguments core {P} r.

(** Code over the locked reactor: it keeps its effects when it fails, and may panic. *)
Definition IO (P A : Type) : Type := Reactor P → outcome (result A * Reactor P).

#[export] Instance io_ret P : MRet (IO P) := λ A v s, Ok (Success v, s).
#[export] Instance io_bind P : MBind (IO P) := λ A B k m s,
  '(r, s) ← m s;
  match r with Success v => k v s | Failure e => Ok (Failure e, s) end.

Section io.
Context {P : Type}.

Definition fail {A} (e : IoError) : IO P A := λ s, Ok (Failure e, s).
Definition gets {A} (f : Core → A) : IO P A := λ s, Ok (Success (f (core s)), s).
Definition modify (f : Core → Core) : IO P () :=
  λ s, Ok (Success tt, mkReactor (poller s) (f (core s))).

(** A step of the core that may panic but has no ordinary error. *)
Definition on_core {A} (f : Core → outcome (A * Core)) : IO P A := λ s,
  '(v, c) ← f (core s); Ok (Success v, mkReactor (poller s) c).

(** A call of the poller, and the same call with its result inspected. *)
Definition polled (f : P → P * option IoError) : IO P () := λ s,
  let '(p, e) := f (poller s) in
  Ok (from_option Failure (Success tt) e, mkReactor p (core s)).

Definition attempt {A} (m : IO P A) : IO P (result A) := λ s,
  '(r, s) ← m s; Ok (Success r, s).

Definition fatal {A} (why : string) : IO P A := λ _, Panic why.
End io.

(** ** The core *)

Definition active (c : Core) (r : Registration) : option Active := occupant (table c) r.

Definition insert (s : WaitSource) (owner : N) (c : Core) : result Registration * Core :=
  match allocate (table c) (mkActive s owner) with
  | None => (Failure (mkError Other "wait registration generation exhausted"), c)
  | Some (r, t) => (Success r, with_table t c)
  end.

Definition remove (r : Registration) (c : Core) : outcome (Active * Core) :=
  s ← index_or_panic (slots (table c)) (Slots.key r);
  a ← or_panic (payload s) "called `Option::unwrap()` on a `None` value";
  t ← release (table c) (Slots.key r);
  Ok (a, with_table t c).

Definition finish (r : Registration) (ev : N) (os_error : Z) (c : Core) : outcome (() * Core) :=
  '(a, c) ← remove r c;
  Ok (tt, with_ready (ready c ++ [mkReady r (owner a) ev os_error]) c).

(** The loop of [fire_timers], over the timers that are left. *)
Fixpoint fire_loop (now : N) (ts : Timers) (c : Core) : outcome (() * Core) :=
  match ts with
  | [] => Ok (tt, c)
  | (deadline, _, r) :: rest =>
      if now <? deadline then Ok (tt, c)
      else
        '(_, c) ← finish r TIMER 0 (with_timers rest c);
        fire_loop now rest c
  end.

Definition fire_timers (now : N) (c : Core) : outcome (() * Core) := fire_loop now (timers c) c.

Definition poll_key (c : Core) : result N * Core :=
  match (k ← checked_add (next_poll_key c) 1; if k =? usize_max then None else Some k) with
  | None => (Failure (mkError Other "wait polling identities exhausted"), c)
  | Some k => (Success k, with_poll_key k c)
  end.

(** ** The reactor *)

Section reactor.
Context {P : Type} `{Poller P} (linux : bool).

(** A core operation with an ordinary error. *)
Definition core_result {A} (f : Core → result A * Core) : IO P A := λ s,
  let '(r, c) := f (core s) in Ok (r, mkReactor (poller s) c).

(** [native_source] on Unix: the handle must be a descriptor. *)
Definition native_source (h : N) : IO P N :=
  if h <=? 2 ^ 31 - 1 then mret h
  else fail (mkError InvalidInput "invalid native descriptor").

Definition interest_of (hd : Handle) : Interest :=
  mkInterest (event_key hd) (bool_decide (is_Some (read hd))) (bool_decide (is_Some (write hd))).

Definition unused (hd : Handle) : bool := bool_decide (read hd = None) && bool_decide (write hd = None).

(** The recovery of [update_handle] after a failed poller call: remove what is left of the
    interest, then restore the old one. *)
Definition clean_up (native : N) : IO P () :=
  r ← attempt (polled (poll_delete native));
  match r with
  | Failure e =>
      if decide (error_kind e = NotFound) then mret tt
      else fatal "failed to clean up wait registration"
  | Success _ => mret tt
  end.

Definition add_back (native : N) (previous : option Handle) : IO P () :=
  match previous with
  | None => mret tt
  | Some previous =>
      r ← attempt (polled (poll_add native (interest_of previous)));
      match r with
      | Failure _ => fatal "failed to restore wait registration"
      | Success _ => mret tt
      end
  end.

Definition restore_interest (native : N) (previous : option Handle) : IO P () :=
  clean_up native ;; add_back native previous.

(** The commit of [update_handle]. *)
Definition commit_handle (h : N) (previous : option Handle) (next : Handle) (c : Core) : Core :=
  let keys := from_option (λ hd, delete (event_key hd) (poll_keys c)) (poll_keys c) previous in
  if unused next then with_handles (delete h (handles c)) keys c
  else with_handles (<[h := next]> (handles c)) (<[event_key next := h]> keys) c.

(** The errors of [native_source] and [poll_key] return at once; the poller's errors go to
    the recovery. *)
Definition update_handle (h : N) (next : Handle) : IO P () :=
  previous ← gets (λ c, handles c !! h);
  native ← native_source h;
  next ← (if unused next then mret next
          else k ← core_result poll_key; mret (mkHandle k (read next) (write next)));
  updated ← attempt (polled (
    if unused next then poll_delete native
    else match previous with
         | Some _ => poll_modify native (interest_of next)
         | None => poll_add native (interest_of next)
         end));
  match updated with
  | Failure e =>
      if linux && bool_decide (previous = None) then fail e
      else restore_interest native previous ;; fail e
  | Success _ => modify (commit_handle h previous next)
  end.

Definition invalid (why : string) : IoError := mkError InvalidInput why.

(** [interests & bit != 0] *)
Definition has (i bit : N) : bool := negb (N.land i bit =? 0).

Definition valid_source (s : WaitSource) : bool :=
  if (kind s =? KIND_TIMER) || (kind s =? KIND_COMPLETION) then interests s =? 0
  else (kind s =? KIND_READINESS) && negb (interests s =? 0)
       && (N.ldiff (interests s) (N.lor READABLE WRITABLE) =? 0).

Definition overlaps (s : WaitSource) (hd : Handle) : bool :=
  (has (interests s) READABLE && bool_decide (is_Some (read hd)))
  || (has (interests s) WRITABLE && bool_decide (is_Some (write hd))).

Definition handle_or_default (h : N) (c : Core) : Handle := default default_handle (handles c !! h).

(** [core.handles[&h]] *)
Definition handle_at (h : N) (c : Core) : outcome (Handle * Core) :=
  hd ← or_panic (handles c !! h) "no entry found for key"; Ok (hd, c).

Definition add_interests (s : WaitSource) (r : Registration) (hd : Handle) : Handle :=
  mkHandle (event_key hd)
    (if has (interests s) READABLE then Some r else read hd)
    (if has (interests s) WRITABLE then Some r else write hd).

Definition clear (r : Registration) (hd : Handle) : Handle :=
  mkHandle (event_key hd) (if read hd =! Some r then None else read hd)
    (if write hd =! Some r then None else write hd).

Definition register (s : WaitSource) (owner : N) : IO P Registration :=
  if negb (valid_source s) then fail (invalid "invalid wait source")
  else
    overlap ← gets (λ c, (kind s =? KIND_READINESS)
                          && overlaps s (handle_or_default (handle s) c));
    if (overlap : bool) then fail (mkError AlreadyExists "overlapping readiness registration")
    else
      polled poll_notify ;;
      r ← core_result (insert s owner);
      (if kind s =? KIND_READINESS then
         hd ← gets (handle_or_default (handle s));
         updated ← attempt (update_handle (handle s) (add_interests s r hd));
         match updated with
         | Failure e => on_core (remove r) ;; fail e
         | Success _ => mret tt
         end
       else if kind s =? KIND_TIMER then
         modify (λ c, with_timers (timer_insert (deadline_ns s, Slots.key r) r (timers c)) c)
       else mret tt) ;;
      mret r.

Definition cancel (r : Registration) : IO P bool :=
  found ← gets (λ c, active c r);
  match found with
  | None => mret false
  | Some a =>
      polled poll_notify ;;
      (if kind (source a) =? KIND_READINESS then
         hd ← on_core (handle_at (handle (source a)));
         update_handle (handle (source a)) (clear r hd)
       else if kind (source a) =? KIND_TIMER then
         modify (λ c, with_timers (timer_remove (deadline_ns (source a), Slots.key r) (timers c)) c)
       else mret tt) ;;
      on_core (remove r) ;;
      mret true
  end.

(** The registrations of a handle's two directions: one interested in both comes once. *)
Definition pair_list (first second : option Registration) : list Registration :=
  option_list first ++
  from_option (λ r, if first =! Some r then [] else [r]) [] second.

(** [f] on each of them, in that order. *)
Definition finish_pair (first second : option Registration) (f : Registration → IO P ())
    : IO P () :=
  foldr (λ r rest, f r ;; rest) (mret tt) (pair_list first second).

Definition revoke_readiness (h : N) : IO P () :=
  found ← gets (λ c, handles c !! h);
  match found with
  | None => mret tt
  | Some hd =>
      polled poll_notify ;;
      update_handle h default_handle ;;
      finish_pair (read hd) (write hd) (λ r, on_core (finish r ERROR 0))
  end.

(** [notify_completion] until it drops the lock. *)
Definition complete (r : Registration) (ev : N) (os_error : Z) : IO P bool :=
  if (ev =? 0)
     || negb (N.ldiff ev (N.lor (N.lor (N.lor READABLE WRITABLE) COMPLETION) ERROR) =? 0)
  then fail (invalid "invalid completion events")
  else
    found ← gets (λ c, active c r);
    match found with
    | None => mret false
    | Some a =>
        if negb (kind (source a) =? KIND_COMPLETION)
        then fail (invalid "not a completion registration")
        else
          on_core (finish r (N.lor ev (if os_error =! 0%Z then 0 else ERROR)) os_error) ;;
          mret true
    end.

Definition notify_completion (r : Registration) (ev : N) (os_error : Z) : IO P bool :=
  completed ← complete r ev os_error;
  if (completed : bool) then polled poll_notify ;; mret true else mret false.

Definition event_bits (e : Event) : N :=
  N.lor (N.lor (if readable e then READABLE else 0) (if writable e then WRITABLE else 0))
    (if interrupt e || (error e =! Some true) then ERROR else 0).

(** The registrations an event completes, and the handle that is left. *)
Definition completed_by (ev : N) (hd : Handle) : option Registration * option Registration * Handle :=
  let first := if has ev (N.lor READABLE ERROR) then read hd else None in
  let read' := if has ev (N.lor READABLE ERROR) then None else read hd in
  let second := if has ev (N.lor WRITABLE ERROR) then write hd else None in
  let write' := if has ev (N.lor WRITABLE ERROR) then None else write hd in
  let hd' := mkHandle (event_key hd) read' write' in
  (first, second,
    match (match first with Some r => Some r | None => second end) with
    | Some r => clear r hd'
    | None => hd'
    end).

(** [core.active(r).unwrap()], and the notification with the interests of the source. *)
Definition finish_events (ev : N) (r : Registration) (c : Core) : outcome (() * Core) :=
  a ← or_panic (active c r) "called `Option::unwrap()` on a `None` value";
  finish r (N.land ev (N.lor (interests (source a)) ERROR)) 0 c.

Definition readiness (e : Event) : IO P () :=
  found ← gets (λ c, poll_keys c !! key e);
  match found with
  | None => mret tt
  | Some h =>
      hd ← on_core (handle_at h);
      let '(first, second, hd') := completed_by (event_bits e) hd in
      update_handle h hd' ;;
      finish_pair first second (λ r, on_core (finish_events (event_bits e) r))
  end.

(** ** Other threads *)

(** What another thread does to the reactor between two sections of a wait: an operation, or
    one of the two parts of [notify_completion]. *)
Inductive Operation :=
  | Register (s : WaitSource) (owner : N)
  | Cancel (r : Registration)
  | Revoke (h : N)
  | Complete (r : Registration) (ev : N) (os_error : Z)
  | Wake.

(** Its effect; the result goes to that thread. *)
Definition operate (op : Operation) : IO P () :=
  match op with
  | Register s owner => attempt (register s owner) ;; mret tt
  | Cancel r => attempt (cancel r) ;; mret tt
  | Revoke h => attempt (revoke_readiness h) ;; mret tt
  | Complete r ev os_error => attempt (complete r ev os_error) ;; mret tt
  | Wake => attempt (polled poll_notify) ;; mret tt
  end.

Definition meanwhile : list Operation → IO P () :=
  foldr (λ op rest, operate op ;; rest) (mret tt).

(** ** [wait] *)

(** One iteration of the loop: the clock readings it makes, the time that remains of the
    caller's timeout, and whether that timeout has expired after the poller returned; and
    what the other threads do before it takes the lock, while the poller blocks, up to the
    moment at which it collects its events, and before the lock is taken again. *)
Record Turn := mkTurn {
  entering : list Operation; now : N; remaining : option N;
  blocking : list Operation; returning : list Operation; later : N; expired : bool }.

(** A turn in which no other thread does anything. *)
Definition alone (now : N) (remaining : option N) (later : N) (expired : bool) : Turn :=
  mkTurn [] now remaining [] [] later expired.

Definition wait_for (t : Turn) (c : Core) : option N :=
  let timer := (λ e : N * N * Registration, e.1.1 - now t) <$> head (timers c) in
  match remaining t, timer with
  | Some a, Some b => Some (a `min` b)
  | Some a, None => Some a
  | None, other => other
  end.

Definition poll_events (timeout : option N) : IO P (list Event) := λ s,
  let '(p, r) := poll_wait timeout (poller s) in Ok (r, mkReactor p (core s)).

Definition each_event : list Event → IO P () :=
  foldr (λ e rest, readiness e ;; rest) (mret tt).

(** The loop over the turns it takes; [None] when it still waits after the last of them. *)
Fixpoint wait_loop (turns : list Turn) : IO P (option N) :=
  match turns with
  | [] => mret None
  | t :: turns =>
      meanwhile (entering t) ;;
      on_core (fire_timers (now t)) ;;
      n ← gets (λ c, lengthN (ready c));
      if negb (n =? 0) then mret (Some n)
      else
        timeout ← gets (wait_for t);
        meanwhile (blocking t) ;;
        events ← poll_events timeout;
        meanwhile (returning t) ;;
        each_event events ;;
        on_core (fire_timers (later t)) ;;
        n ← gets (λ c, lengthN (ready c));
        if negb (n =? 0) then mret (Some n)
        else if bool_decide (is_Some (remaining t)) && expired t then mret (Some 0)
        else wait_loop turns
  end.

(** [too_large]: the deadline is not representable. *)
Definition wait (first_now : N) (too_large : bool) (turns : list Turn) : IO P (option N) :=
  on_core (fire_timers first_now) ;;
  n ← gets (λ c, lengthN (ready c));
  if negb (n =? 0) then mret (Some n)
  else if too_large then fail (invalid "wait timeout is too large")
  else wait_loop turns.

Definition pop_ready : IO P (option ReadyNotification) :=
  n ← gets (λ c, head (ready c));
  modify (λ c, with_ready (tail (ready c)) c) ;;
  mret n.
End reactor.
