(* ===== verification/WaitFacts.v ===== *)
(** Facts about the wait reactor of [Wait]: the invariant that ties the timers, the handles
    and the poll keys to the active registrations, and what every operation does to the
    registrations and to the ready queue, whatever the poller answers. *)

From S2P Require Import Prelude Slots Wait.
From Stdlib Require Import Sorted.

(** ** Timer maps *)

Abbreviation timer_order := (λ e e' : N * N * Registration, before e.1 e'.1 = true).

Lemma timer_insert_elem k r ts e :
  (∀ r', (k, r') ∉ ts) → e ∈ timer_insert k r ts ↔ e = (k, r) ∨ e ∈ ts.
Proof.
  induction ts as [|[k' r'] ts IH]; simpl; intros Hk.
  - rewrite list_elem_of_singleton, elem_of_nil. tauto.
  - destruct (before k k') eqn:H1; [rewrite !elem_of_cons; tauto|].
    destruct (before k' k) eqn:H2.
    + rewrite !elem_of_cons, IH; [tauto|]. intros r0 Hin. apply (Hk r0). by right.
    + destruct (Hk r'). rewrite (before_false k k' H1 H2). left.
Qed.

Lemma timer_insert_sorted k r ts :
  (∀ r', (k, r') ∉ ts) →
  StronglySorted timer_order ts → StronglySorted timer_order (timer_insert k r ts).
Proof.
  intros Hk Hts. induction Hts as [|[k' r'] ts Hts IH Hall]; simpl; [by repeat constructor|].
  assert (∀ r0, (k, r0) ∉ ts) as Hk' by (intros r0 Hin; apply (Hk r0); by right).
  destruct (before k k') eqn:H1.
  - constructor; [by constructor|]. constructor; [done|]. eapply Forall_impl; [exact Hall|].
    intros e He. by eapply before_trans.
  - destruct (before k' k) eqn:H2; [|destruct (Hk r'); rewrite (before_false k k' H1 H2); left].
    constructor; [by apply IH|]. apply Forall_forall.
    intros e [->|He]%timer_insert_elem; [done| |done]. exact (Forall_elem _ _ _ Hall He).
Qed.

Lemma timer_remove_elem k ts e : e ∈ timer_remove k ts ↔ e.1 ≠ k ∧ e ∈ ts.
Proof. unfold timer_remove. by rewrite list_elem_of_filter. Qed.

Lemma timer_remove_sorted k ts :
  StronglySorted timer_order ts → StronglySorted timer_order (timer_remove k ts).
Proof.
  unfold timer_remove. induction 1 as [|e ts Hts IH Hall]; [constructor|].
  rewrite filter_cons. case_decide; [|done]. constructor; [done|].
  apply Forall_forall. intros x [_ Hx]%list_elem_of_filter. exact (Forall_elem _ _ _ Hall Hx).
Qed.

(** ** Invariant *)

Definition slot_of (bit : N) (hd : Handle) : option Registration :=
  if bit =? READABLE then read hd else write hd.

Definition direction (bit : N) : Prop := bit = READABLE ∨ bit = WRITABLE.

Definition waits_on (a : Active) (h bit : N) : Prop :=
  kind (source a) = KIND_READINESS ∧ handle (source a) = h ∧ has (interests (source a)) bit = true.

(** The secondary indices of the core, [timers], [handles] and [poll_keys], against the
    registrations [A] they stand for. *)
Record links (A : Registration → option Active) (c : Core) : Prop := {
  timers_sorted : StronglySorted timer_order (timers c);
  timers_linked : ∀ d k r, (d, k, r) ∈ timers c ↔
    k = Slots.key r ∧
    ∃ a, A r = Some a ∧ kind (source a) = KIND_TIMER ∧ deadline_ns (source a) = d;
  handles_linked : ∀ h hd bit r, handles c !! h = Some hd → direction bit →
    slot_of bit hd = Some r ↔ ∃ a, A r = Some a ∧ waits_on a h bit;
  handles_used : ∀ h hd, handles c !! h = Some hd → unused hd = false;
  handles_exist : ∀ r a, A r = Some a → kind (source a) = KIND_READINESS →
    is_Some (handles c !! handle (source a));
  keys_linked : ∀ k h, poll_keys c !! k = Some h ↔
    ∃ hd, handles c !! h = Some hd ∧ event_key hd = k;
  keys_bounded : ∀ h hd, handles c !! h = Some hd → event_key hd ≤ next_poll_key c;
  sources_valid : ∀ r a, A r = Some a → valid_source (source a) = true }.

Definition issued_by (c : Core) (r : Registration) : Prop := issued (table c) r.

(** No registration is announced twice, and none that is announced is still active. *)
Definition ready_ok (c : Core) : Prop :=
  NoDup (registration <$> ready c) ∧
  ∀ r, r ∈ registration <$> ready c → stale (table c) r.

(** In the middle of an operation the indices may already have dropped registrations that
    the operation is about to finish: [A] says which ones they still hold. *)
Definition core_inv (A : Registration → option Active) (c : Core) : Prop :=
  table_ok (table c) ∧ links A c ∧ ready_ok c.

Definition core_ok (c : Core) : Prop := core_inv (active c) c.

(** [A] with one registration changed, or removed. *)
Definition upd (r : Registration) (o : option Active) (A : Registration → option Active)
    (j : Registration) : option Active :=
  if decide (j = r) then o else A j.

Abbreviation without r := (upd r None).

Lemma links_ext A A' c c' :
  (∀ r, A r = A' r) → timers c = timers c' → handles c = handles c' →
  poll_keys c = poll_keys c' → next_poll_key c = next_poll_key c' →
  links A c → links A' c'.
Proof.
  intros HA Ht Hh Hk Hn [H1 H2 H3 H4 H5 H6 H7 H8].
  split; rewrite <-?Ht, <-?Hh, <-?Hk, <-?Hn; try done.
  - intros d k r. rewrite H2. by setoid_rewrite HA.
  - intros h hd bit r Hh' Hbit. rewrite H3 by done. by setoid_rewrite HA.
  - intros r a. rewrite <-HA. apply H5.
  - intros r a. rewrite <-HA. apply H8.
Qed.

Lemma core_inv_ext A A' c : (∀ r, A r = A' r) → core_inv A c → core_inv A' c.
Proof. intros HA (Ht & Hl & Hr). split_and!; [done| |done]. by eapply links_ext. Qed.

Lemma default_core_ok : core_ok default_core.
Proof.
  assert (∀ r, active default_core r = None) as Hn.
  { intros r. unfold active, occupant, get. simpl. destruct (N.ltb_spec (Slots.key r) (N.of_nat 0)); [lia|done]. }
  split_and!; [apply empty_ok| |].
  - split; simpl; try (intros ? ?; by rewrite ?Hn); try done.
    + constructor.
    + intros d k r. rewrite Hn, elem_of_nil. split; [done|]. by intros (_ & a & ? & _).
    + intros k h. rewrite lookup_empty. split; [done|]. intros (hd & Hhd & _).
      by rewrite lookup_empty in Hhd.
  - split; simpl; [constructor|]. by intros r ?%elem_of_nil.
Qed.

(** ** Removal *)

Lemma core_remove_spec c r a :
  table_ok (table c) → active c r = Some a →
  ∃ t, remove r c = Ok (a, with_table t c) ∧ table_ok t ∧
    (∀ j, occupant t j = without r (active c) j) ∧ (∀ j, issued t j ↔ issued_by c j).
Proof.
  intros Ht Ha. pose proof Ha as Ho. unfold active in Ho. apply occupant_Some in Ho.
  unfold remove, index_or_panic. rewrite Ho. simpl.
  destruct (sat_infallible _ _ (release_sat _ _ _ Ht Ha) (release_infallible _ _))
    as (t & -> & Hrel). by exists t.
Qed.

Lemma finish_spec A c r a ev err :
  core_inv A c → active c r = Some a → A r = None →
  ∃ c', finish r ev err c = Ok (tt, c') ∧ core_inv A c' ∧
    (∀ j, active c' j = without r (active c) j) ∧ (∀ j, issued_by c' j ↔ issued_by c j) ∧
    ready c' = ready c ++ [mkReady r (owner a) ev err] ∧
    timers c' = timers c ∧ handles c' = handles c.
Proof.
  intros (Ht & Hl & Hnd & Hst) Ha HA. destruct (core_remove_spec c r a Ht Ha) as (t & Hrem & Ht' & Hocc & Hiss).
  unfold finish. rewrite Hrem. simpl. eexists. split; [done|].
  refine (conj _ (conj Hocc (conj Hiss (conj _ (conj _ _))))); try done.
  refine (conj Ht' (conj _ _)); [by apply (links_ext A A c)|]. unfold ready_ok. simpl. rewrite fmap_app. simpl. split.
  - apply NoDup_app. split_and!; [done| |by apply NoDup_singleton].
    intros j Hj ->%list_elem_of_singleton. destruct (Hst r Hj) as [_ Hn]. unfold active in Ha. congruence.
  - intros j [Hj| ->%list_elem_of_singleton]%elem_of_app.
    + destruct (Hst j Hj) as [Hi Hn]. split; [by apply Hiss|]. rewrite Hocc. unfold upd.
      case_decide; [done|exact Hn].
    + split; [apply Hiss; by eapply occupant_issued|]. rewrite Hocc. unfold upd.
      by rewrite decide_True.
Qed.

(** ** Changes of the indices *)

Lemma waits_on_kind a h bit : waits_on a h bit → kind (source a) = KIND_READINESS.
Proof. by intros [? _]. Qed.

Section index_changes.
Context (A : Registration → option Active) (c : Core) (HA : links A c).

(** Changing a registration that is neither a timer nor a readiness wait. *)
Lemma links_upd r o ts :
  StronglySorted timer_order ts →
  (∀ d k j, (d, k, j) ∈ ts ↔ k = Slots.key j ∧
     ∃ a, upd r o A j = Some a ∧ kind (source a) = KIND_TIMER ∧ deadline_ns (source a) = d) →
  (∀ a, A r = Some a → kind (source a) ≠ KIND_READINESS) →
  (∀ a, o = Some a → kind (source a) ≠ KIND_READINESS ∧ valid_source (source a) = true) →
  links (upd r o A) (with_timers ts c).
Proof.
  intros Hts Hin Hold Hnew. destruct HA as [H1 H2 H3 H4 H5 H6 H7 H8].
  assert (∀ j h bit, (∃ a, upd r o A j = Some a ∧ waits_on a h bit) ↔
                     (∃ a, A j = Some a ∧ waits_on a h bit)) as Hsame.
  { intros j h bit. unfold upd. case_decide as Hj; [|done]. subst j. split; intros (a & Ha & Hw).
    - destruct (Hnew a Ha) as [Hk _]. by destruct Hk; eapply waits_on_kind.
    - destruct (Hold a Ha). by eapply waits_on_kind. }
  split; simpl; try done.
  - intros h hd bit j Hh Hbit. rewrite Hsame. by apply H3.
  - intros j a. unfold upd. case_decide; [|by apply H5]. intros Ha Hk. by destruct (Hnew a Ha).
  - intros j a. unfold upd. case_decide; [|by apply H8]. intros Ha. by destruct (Hnew a Ha).
Qed.

Lemma links_timer r a ts :
  A r = Some a → kind (source a) = KIND_TIMER → StronglySorted timer_order ts →
  (∀ e, e ∈ ts ↔ e.2 ≠ r ∧ e ∈ timers c) → links (without r A) (with_timers ts c).
Proof.
  intros Ha Hk Hts Hin. apply (links_upd r None); [done| | |done].
  - intros d k j. rewrite Hin. simpl. rewrite (timers_linked _ _ HA). unfold upd.
    case_decide; [|tauto]. split; [tauto|]. by intros (_ & a' & ? & _).
  - intros a' Ha'. rewrite Ha in Ha'. injection Ha' as <-. by rewrite Hk.
Qed.

(** The head of [timers] has no other entry. *)
Lemma links_pop d k r rest :
  timers c = (d, k, r) :: rest →
  (∃ a, A r = Some a) ∧ links (without r A) (with_timers rest c).
Proof.
  intros Hts. pose proof (timers_sorted _ _ HA) as Hsort. rewrite Hts in Hsort.
  apply StronglySorted_inv in Hsort as [Hsort Hall].
  assert ((d, k, r) ∈ timers c) as Hin by (rewrite Hts; left).
  apply (timers_linked _ _ HA) in Hin as (-> & a & Ha & Hk & Hd).
  split; [by exists a|]. apply (links_timer r a); [done|done|done|].
  intros [[d' k'] r']. rewrite Hts, elem_of_cons. simpl. split; [|by intros [Hne [[= -> -> ->]|?]]].
  intros Hin. split; [|by right]. intros ->.
  assert ((d', k', r) ∈ timers c) as Hin' by (rewrite Hts; by right).
  apply (timers_linked _ _ HA) in Hin' as (-> & a' & Ha' & _ & Hd'). rewrite Ha in Ha'.
  injection Ha' as <-. subst d'. pose proof (Forall_elem _ _ _ Hall Hin) as Hb. simpl in Hb.
  rewrite Hd, before_irrefl in Hb. done.
Qed.

Lemma links_completion r a :
  A r = Some a → kind (source a) = KIND_COMPLETION → links (without r A) c.
Proof.
  intros Ha Hk. apply (links_ext (upd r None A) _ (with_timers (timers c) c)); try done.
  apply links_upd; [apply HA| | |done].
  - intros d k j. rewrite (timers_linked _ _ HA). unfold upd. case_decide as Hj; [|done]. subst j.
    rewrite Ha. split; intros (_ & a' & [= <-] & Hk' & _). by rewrite Hk in Hk'.
  - intros a' Ha'. rewrite Ha in Ha'. injection Ha' as <-. by rewrite Hk.
Qed.

Lemma links_add_completion r a :
  A r = None → kind (source a) = KIND_COMPLETION → valid_source (source a) = true →
  links (upd r (Some a) A) c.
Proof.
  intros Ha Hk Hv. apply (links_ext (upd r (Some a) A) _ (with_timers (timers c) c)); try done.
  apply links_upd; [apply HA| |by rewrite Ha|by intros ? [= <-]; rewrite Hk].
  intros d k j. rewrite (timers_linked _ _ HA). unfold upd. case_decide as Hj; [|done]. subst j.
  rewrite Ha. split; intros (_ & a' & [= <-] & Hk' & _). by rewrite Hk in Hk'.
Qed.

Lemma links_add_timer r a :
  A r = None → kind (source a) = KIND_TIMER → valid_source (source a) = true →
  (∀ j, is_Some (A j) → Slots.key j ≠ Slots.key r) →
  links (upd r (Some a) A)
    (with_timers (timer_insert (deadline_ns (source a), Slots.key r) r (timers c)) c).
Proof.
  intros Ha Hk Hv Hkeys.
  assert (∀ j, (deadline_ns (source a), Slots.key r, j) ∉ timers c) as Hfresh.
  { intros j (Hj & b & Hb & _)%(timers_linked _ _ HA). by apply (Hkeys j); [eexists|]. }
  apply links_upd; [by apply timer_insert_sorted; [|apply HA]| |by rewrite Ha|by intros ? [= <-]; rewrite Hk].
  intros d k j. rewrite timer_insert_elem by exact Hfresh. rewrite (timers_linked _ _ HA).
  unfold upd. case_decide as Hj.
  - subst j. rewrite Ha. split.
    + intros [[= -> ->]|(_ & b & ? & _)]; [|done]. by split; [|exists a].
    + intros (-> & b & [= <-] & _ & <-). by left.
  - split; [|by right]. intros [[= _ _ ?]|?]; done.
Qed.

(** The poll keys that are left when a handle's own is deleted name the other handles. *)
Lemma keys_left h k h' :
  from_option (λ hd, delete (event_key hd) (poll_keys c)) (poll_keys c) (handles c !! h) !! k
    = Some h' ↔
  h' ≠ h ∧ ∃ hd, handles c !! h' = Some hd ∧ event_key hd = k.
Proof.
  pose proof (keys_linked _ _ HA) as H6. destruct (handles c !! h) as [hd|] eqn:Hh; simpl.
  - rewrite lookup_delete_Some, H6. split.
    + intros [Hne (hd' & Hhd' & Hk)]. split; [|by exists hd']. intros ->. by simplify_eq.
    + intros [Hne (hd' & Hhd' & Hk)]. split; [|by exists hd']. intros Heq.
      assert (poll_keys c !! k = Some h) as E1 by (apply H6; by exists hd).
      assert (poll_keys c !! k = Some h') as E2 by (apply H6; by exists hd'). congruence.
  - rewrite H6. split; [|by intros [_ ?]]. intros (hd' & Hhd' & Hk). split; [|by exists hd'].
    intros ->. congruence.
Qed.

(** [commit_handle]: the new handle holds the readiness waits that [A'] has on it. *)
Lemma links_commit A' h next n :
  (∀ r a, ¬ (kind (source a) = KIND_READINESS ∧ handle (source a) = h) →
     A r = Some a ↔ A' r = Some a) →
  (∀ r a, A' r = Some a → valid_source (source a) = true) →
  (∀ bit r, direction bit → slot_of bit next = Some r ↔ ∃ a, A' r = Some a ∧ waits_on a h bit) →
  (∀ r a, A' r = Some a → kind (source a) = KIND_READINESS → handle (source a) = h →
     unused next = false) →
  next_poll_key c ≤ n →
  (unused next = false → event_key next = n ∧ next_poll_key c < n) →
  links A' (commit_handle h (handles c !! h) next (with_poll_key n c)).
Proof.
  intros Hsame Hvalid Hslots Hused Hn Hnext. destruct HA as [H1 H2 H3 H4 H5 H6 H7 H8].
  set (keys := from_option (λ hd, delete (event_key hd) (poll_keys c)) (poll_keys c) (handles c !! h)).
  pose proof (keys_left h : ∀ k h', keys !! k = Some h' ↔ _) as Hkeys.
  set (hs := if unused next then delete h (handles c) else <[h := next]> (handles c)).
  assert (∀ h', h' ≠ h → hs !! h' = handles c !! h') as Hother.
  { intros h' Hne. subst hs. case_match; [by apply lookup_delete_ne|by apply lookup_insert_ne]. }
  assert (∀ hd, hs !! h = Some hd → hd = next ∧ unused next = false) as Hhere.
  { intros hd. subst hs. case_match; [by rewrite lookup_delete_eq|].
    by rewrite lookup_insert_eq; intros [= <-]. }
  assert (∀ c', timers c' = timers c → handles c' = hs → next_poll_key c' = n →
     (∀ k h', poll_keys c' !! k = Some h' ↔ ∃ hd, hs !! h' = Some hd ∧ event_key hd = k) →
     links A' c') as Hgoal.
  { intros c' Et Eh En Ek. split; rewrite ?Et, ?Eh, ?En; try done.
    - intros d k r. rewrite H2. split; intros (-> & a & Ha & Hk & Hd);
        (split; [done|]; exists a; split; [|done]; apply Hsame; [by rewrite Hk; intros []|done]).
    - intros h' hd bit r Hh' Hbit. destruct (decide (h' = h)) as [->|Hne].
      + destruct (Hhere hd Hh') as [-> _]. by apply Hslots.
      + rewrite Hother in Hh' by done. rewrite (H3 h' hd bit r Hh' Hbit).
        split; intros (a & Ha & Hw); exists a; (split; [|done]; apply Hsame; [|done]);
          intros [_ E]; destruct Hw as (_ & E' & _); congruence.
    - intros h' hd Hh'. destruct (decide (h' = h)) as [->|Hne]; [by destruct (Hhere hd Hh') as [-> ?]|].
      rewrite Hother in Hh' by done. by eapply H4.
    - intros r a Ha Hk. destruct (decide (handle (source a) = h)) as [Heq|Hne].
      + pose proof (Hused r a Ha Hk Heq) as Hu. subst hs. rewrite Hu, Heq, lookup_insert_eq. by eexists.
      + rewrite Hother by done. eapply H5; [|done]. apply Hsame; [|done]. by intros [_ ?].
    - intros h' hd Hh'. destruct (decide (h' = h)) as [->|Hne].
      + destruct (Hhere hd Hh') as [-> Hu]. destruct (Hnext Hu) as [-> _]. lia.
      + rewrite Hother in Hh' by done. pose proof (H7 h' hd Hh'). lia. }
  unfold commit_handle. simpl. fold keys. subst hs. destruct (unused next) eqn:Hu.
  - apply Hgoal; try done. intros k h'. simpl. rewrite Hkeys. split.
    + intros (Hne & hd & Hhd & Hk). exists hd. by rewrite lookup_delete_ne.
    + intros (hd & Hhd & Hk). apply lookup_delete_Some in Hhd as [Hne Hhd]. split; [done|by exists hd].
  - destruct (Hnext eq_refl) as [Hev Hlt]. apply Hgoal; try done. intros k h'. simpl.
    destruct (decide (k = event_key next)) as [->|Hk].
    + rewrite lookup_insert_eq. split.
      * intros [= <-]. exists next. by rewrite lookup_insert_eq.
      * intros (hd & Hhd & He). destruct (decide (h' = h)) as [->|Hne]; [done|].
        rewrite lookup_insert_ne in Hhd by done. pose proof (H7 _ _ Hhd). lia.
    + rewrite lookup_insert_ne by done. rewrite Hkeys. split.
      * intros (Hne & hd & Hhd & He). exists hd. by rewrite lookup_insert_ne.
      * intros (hd & Hhd & He). destruct (decide (h' = h)) as [->|Hne].
        { rewrite lookup_insert_eq in Hhd. by injection Hhd as <-. }
        rewrite lookup_insert_ne in Hhd by done. split; [done|by exists hd].
Qed.
End index_changes.

(** ** Running the reactor *)

(** The two panics the code keeps: a failed clean-up of native interests aborts. *)
Definition cleanup_failure (why : string) : Prop :=
  why = "failed to clean up wait registration" ∨ why = "failed to restore wait registration".

(** [m] ends with an [io::Result] that satisfies [Q], or in one of those two. *)
Definition wp {P A} (m : IO P A) (Q : result A → Reactor P → Prop) (s : Reactor P) : Prop :=
  match m s with
  | Ok (r, s') => Q r s'
  | Panic why => cleanup_failure why
  | _ => False
  end.

Section wp_rules.
Context {P : Type} {A B : Type}.
Implicit Types (s : Reactor P) (Q : result A → Reactor P → Prop).

Lemma io_wp_mono (m : IO P A) Q Q' s : wp m Q s → (∀ r s', Q r s' → Q' r s') → wp m Q' s.
Proof. unfold wp. destruct (m s) as [[r s']| | |]; auto. Qed.

Lemma io_wp_bind (m : IO P B) (k : B → IO P A) Q s :
  wp m (λ r s', match r with Success v => wp (k v) Q s' | Failure e => Q (Failure e) s' end) s →
  wp (m ≫= k) Q s.
Proof.
  unfold wp. unfold mbind at 1. unfold io_bind. destruct (m s) as [[[v|e] s']| | |]; done.
Qed.

Lemma io_wp_gets (f : Core → B) (k : B → IO P A) Q s :
  wp (k (f (core s))) Q s → wp (gets f ≫= k) Q s.
Proof. done. Qed.

Lemma wp_attempt (m : IO P A) (Q : result (result A) → Reactor P → Prop) s :
  wp m (λ r, Q (Success r)) s → wp (attempt m) Q s.
Proof. unfold wp, attempt. by destruct (m s) as [[r s']| | |]. Qed.

Lemma wp_on_core (f : Core → outcome (A * Core)) Q s v c :
  f (core s) = Ok (v, c) → Q (Success v) (mkReactor (poller s) c) → wp (on_core f) Q s.
Proof. intros Hf HQ. unfold wp, on_core. by rewrite Hf. Qed.

Lemma wp_polled (f : P → P * option IoError) (Q : result () → Reactor P → Prop) s :
  (∀ p e, f (poller s) = (p, e) →
     Q (match e with None => Success tt | Some e => Failure e end) (mkReactor p (core s))) →
  wp (polled f) Q s.
Proof.
  intros HQ. unfold wp, polled. destruct (f (poller s)) as [p e] eqn:Hf.
  specialize (HQ p e eq_refl). by destruct e.
Qed.
End wp_rules.

Lemma links_poll_key A c n : links A c → next_poll_key c ≤ n → links A (with_poll_key n c).
Proof.
  intros [H1 H2 H3 H4 H5 H6 H7 H8] Hn. split; try done. intros h hd Hh. simpl.
  pose proof (H7 h hd Hh). lia.
Qed.

Lemma core_ok_poll_key c n : core_ok c → next_poll_key c ≤ n → core_ok (with_poll_key n c).
Proof. intros (Ht & Hl & Hr) Hn. refine (conj Ht (conj _ Hr)). by apply links_poll_key. Qed.

Section reactor_facts.
Context {P : Type} `{Poller P} (linux : bool).
Implicit Types (s : Reactor P).

(** [update_handle] commits the new handle under a fresh key, or leaves the core as it was. *)
Definition updated (h : N) (next : Handle) (c c' : Core) (r : result ()) : Prop :=
  ∃ n, next_poll_key c ≤ n ∧
    match r with
    | Success _ =>
        let k := if unused next then event_key next else n in
        (unused next = false → next_poll_key c < n) ∧
        c' = commit_handle h (handles c !! h) (mkHandle k (read next) (write next))
               (with_poll_key n c)
    | Failure _ => c' = with_poll_key n c
    end.

Lemma restore_interest_wp native previous s (Q : result () → Reactor P → Prop) :
  (∀ p, Q (Success tt) (mkReactor p (core s))) → wp (restore_interest native previous) Q s.
Proof.
  intros HQ. unfold restore_interest, clean_up. apply io_wp_bind, io_wp_bind, wp_attempt, wp_polled.
  intros p e _.
  assert (∀ s', core s' = core s → wp (add_back native previous) Q s') as Hrest.
  { intros s' Hs'. unfold add_back. destruct previous as [hd|].
    - apply io_wp_bind, wp_attempt, wp_polled. intros p' [e'|] _; [by right|]. rewrite Hs'. apply HQ.
    - destruct s' as [p' c']. simpl in Hs'. subst c'. apply HQ. }
  destruct e as [e|]; [case_decide; [|by left]|]; by apply Hrest.
Qed.

Lemma poll_key_spec c :
  match poll_key c with
  | (Success k, c') => k = next_poll_key c + 1 ∧ c' = with_poll_key k c
  | (Failure _, c') => c' = c
  end.
Proof.
  unfold poll_key, checked_add. destruct (_ <=? _); [|done]. simpl.
  by destruct (_ =? _).
Qed.

Lemma with_poll_key_id c : with_poll_key (next_poll_key c) c = c.
Proof. by destruct c. Qed.

Lemma update_handle_wp h next s :
  wp (update_handle linux h next) (λ r s', updated h next (core s) (core s') r) s.
Proof.
  set (Q := λ (r : result ()) (s' : Reactor P), updated h next (core s) (core s') r).
  assert (∀ e s', core s' = core s → Q (Failure e) s') as Hsame.
  { intros e s' Hs'. exists (next_poll_key (core s)). rewrite with_poll_key_id, Hs'. split; [lia|done]. }
  unfold update_handle. apply io_wp_bind. simpl. apply io_wp_bind. unfold native_source.
  destruct (h <=? 2 ^ 31 - 1); [|by apply Hsame]. apply io_wp_bind.
  (* After the key is chosen. *)
  assert (∀ n next', next_poll_key (core s) ≤ n →
    (unused next = false → next_poll_key (core s) < n) →
    next' = mkHandle (if unused next then event_key next else n) (read next) (write next) →
    ∀ p, let s1 := mkReactor p (with_poll_key n (core s)) in
    wp (updated ← attempt (polled (
          if unused next' then poll_delete h
          else match handles (core s) !! h with
               | Some _ => poll_modify h (interest_of next')
               | None => poll_add h (interest_of next')
               end));
        match updated with
        | Failure e =>
            if linux && bool_decide (handles (core s) !! h = None) then fail e
            else restore_interest h (handles (core s) !! h) ;; fail e
        | Success _ => modify (commit_handle h (handles (core s) !! h) next')
        end) Q s1) as Hmain.
  { intros n next' Hn Hlt -> p s1. apply io_wp_bind, wp_attempt, wp_polled. intros p' e _.
    assert (∀ e' p2, Q (Failure e') (mkReactor p2 (with_poll_key n (core s)))) as Hfail
      by (intros e' p2; exists n; done).
    destruct e as [e|].
    - destruct (linux && _); [apply Hfail|]. apply io_wp_bind, restore_interest_wp. intros p2.
      apply Hfail.
    - exists n. done. }
  destruct (unused next) eqn:Hu.
  - assert (next = mkHandle (event_key next) (read next) (write next)) as Heta by by destruct next.
    pose proof (Hmain (next_poll_key (core s)) next (N.le_refl _) ltac:(done) Heta (poller s)) as Hm.
    simpl in Hm. rewrite with_poll_key_id in Hm. by destruct s.
  - apply io_wp_bind. unfold wp, core_result. pose proof (poll_key_spec (core s)) as Hk.
    destruct (poll_key (core s)) as [[k|e] c'].
    + destruct Hk as [-> ->].
      apply (Hmain (next_poll_key (core s) + 1)); [lia|intros _; lia|done].
    + subst c'. by apply Hsame.
Qed.
End reactor_facts.

(** ** Effects of the operations *)

(** The notifications [new] have been announced, each to the owner of its registration. *)
Record finished (c c' : Core) (new : list ReadyNotification) : Prop := {
  fin_active : ∀ j, active c' j = if decide (j ∈ registration <$> new) then None else active c j;
  fin_issued : ∀ j, issued_by c j → issued_by c' j;
  fin_ready : ready c' = ready c ++ new;
  fin_owner : ∀ n, n ∈ new → ∃ a, active c (registration n) = Some a ∧ ready_owner n = owner a }.

(** Nothing a client can see has changed; identities and poll keys may have been used up. *)
Record unchanged (c c' : Core) : Prop := {
  un_active : ∀ j, active c' j = active c j;
  un_issued : ∀ j, issued_by c j → issued_by c' j;
  un_timers : timers c' = timers c;
  un_handles : handles c' = handles c;
  un_keys : poll_keys c' = poll_keys c;
  un_ready : ready c' = ready c }.

Lemma unchanged_refl c : unchanged c c.
Proof. by split. Qed.

Lemma unchanged_poll_key c n : unchanged c (with_poll_key n c).
Proof. by split. Qed.

Lemma finished_nil c c' :
  (∀ j, active c' j = active c j) → (∀ j, issued_by c j → issued_by c' j) →
  ready c' = ready c → finished c c' [].
Proof.
  intros Ha Hi Hr. split; [done|done|by rewrite Hr, app_nil_r|by intros n ?%elem_of_nil].
Qed.

Lemma finished_cons c c1 c' r a n new :
  active c r = Some a → registration n = r → ready_owner n = owner a →
  (∀ j, active c1 j = without r (active c) j) → (∀ j, issued_by c1 j ↔ issued_by c j) →
  ready c1 = ready c ++ [n] → finished c1 c' new → finished c c' (n :: new).
Proof.
  intros Ha <- Ho Hact Hiss Hready [F1 F2 F3 F4]. split.
  - intros j. rewrite F1, Hact. unfold upd. simpl. destruct (decide (j = registration n)) as [->|Hj].
    + rewrite (decide_True (P := registration n ∈ _ :: _)) by left. by case_decide.
    + destruct (decide (j ∈ registration <$> new)).
      * by rewrite decide_True by by right.
      * rewrite decide_False; [done|]. by intros [?|?]%elem_of_cons.
  - intros j Hj. by apply F2, Hiss.
  - by rewrite F3, Hready, <-app_assoc.
  - intros m [->|Hm]%elem_of_cons; [by exists a|].
    destruct (F4 m Hm) as (b & Hb & Hob). rewrite Hact in Hb. unfold upd in Hb.
    case_decide; [done|]. by exists b.
Qed.

(** ** Timers *)

Lemma fire_loop_spec limit ts c :
  core_ok c → timers c = ts →
  ∃ c' new, fire_loop limit ts c = Ok (tt, c') ∧ core_ok c' ∧ finished c c' new ∧
    (∀ n, n ∈ new → events n = TIMER ∧ os_error n = 0%Z) ∧
    (registration <$> new) = (filter (λ e, e.1.1 ≤ limit) ts).*2 ∧
    timers c' = filter (λ e, limit < e.1.1) ts ∧ handles c' = handles c.
Proof.
  revert c. induction ts as [|[[d k] r] ts IH]; intros c Hok Hts; simpl.
  { exists c, []. refine (conj eq_refl (conj Hok (conj _ (conj _ (conj eq_refl (conj Hts eq_refl)))))).
    - by apply finished_nil.
    - by intros n ?%elem_of_nil. }
  pose proof Hok as (Ht & Hl & Hr).
  pose proof (timers_sorted _ _ Hl) as Hsort. rewrite Hts in Hsort.
  apply StronglySorted_inv in Hsort as [_ Hall].
  destruct (N.ltb_spec limit d) as [Hlt|Hge].
  - exists c, []. rewrite !filter_cons, decide_False, decide_True by (simpl; lia).
    assert (∀ e, e ∈ ts → limit < e.1.1) as Hlate.
    { intros e He. pose proof (Forall_elem _ _ _ Hall He) as Hb. apply before_spec in Hb. simpl in Hb. lia. }
    refine (conj eq_refl (conj Hok (conj _ (conj _ (conj _ (conj _ eq_refl)))))).
    + by apply finished_nil.
    + by intros n ?%elem_of_nil.
    + rewrite filter_none; [done|]. intros e He. pose proof (Hlate e He). lia.
    + by rewrite filter_all.
  - destruct (links_pop _ _ Hl d k r ts Hts) as [[a Ha] Hl'].
    destruct (finish_spec (without r (active c)) (with_timers ts c) r a TIMER 0)
      as (c1 & -> & Hinv & Hact & Hiss & Hready & Ht1 & Hh1).
    { by refine (conj Ht (conj Hl' Hr)). }
    { done. }
    { unfold upd. by rewrite decide_True. }
    simpl. assert (core_ok c1) as Hok1 by (eapply core_inv_ext; [|exact Hinv]; intros j; by rewrite Hact).
    destruct (IH c1 Hok1 Ht1) as (c' & new & -> & Hok' & Hfin & Hev & Hreg & Htim & Hh).
    exists c', (mkReady r (owner a) TIMER 0 :: new).
    rewrite !filter_cons, decide_True, decide_False by (simpl; lia).
    refine (conj eq_refl (conj Hok' (conj _ (conj _ (conj _ (conj Htim _)))))).
    + by eapply finished_cons.
    + intros n [->|Hn]%elem_of_cons; [done|by apply Hev].
    + by rewrite !fmap_cons, Hreg.
    + by rewrite Hh, Hh1.
Qed.

(** ** Handles *)

Lemma direction_cases (Q : N → Prop) : (∀ bit, direction bit → Q bit) ↔ Q READABLE ∧ Q WRITABLE.
Proof.
  split; [intros HQ; split; apply HQ; [by left|by right]|]. by intros [HR HW] bit [-> | ->].
Qed.

Lemma unused_slots hd : unused hd = false ↔ ∃ bit r, direction bit ∧ slot_of bit hd = Some r.
Proof.
  unfold unused. rewrite andb_false_iff, !bool_decide_eq_false. split.
  - intros [Hn|Hn].
    + destruct (read hd) as [r|] eqn:Hr; [|done]. exists READABLE, r. split; [by left|exact Hr].
    + destruct (write hd) as [r|] eqn:Hr; [|done]. exists WRITABLE, r. split; [by right|exact Hr].
  - intros (bit & r & [-> | ->] & Hs); unfold slot_of in Hs; simpl in Hs; rewrite Hs; [by left|by right].
Qed.

(** A valid readiness source is interested in some direction. *)
Lemma valid_readiness src :
  valid_source src = true → kind src = KIND_READINESS →
  ∃ bit, direction bit ∧ has (interests src) bit = true.
Proof.
  unfold valid_source. intros Hv Hk. rewrite Hk in Hv. simpl in Hv. bool_facts.
  set (i := interests src) in *. change (N.lor READABLE WRITABLE) with 3 in H0.
  assert (N.land i 3 = i) as Hi.
  { apply N.bits_inj. intros n. pose proof (f_equal (λ x, N.testbit x n) H0) as Hb. cbv beta in Hb.
    rewrite N.ldiff_spec, N.bits_0 in Hb. rewrite N.land_spec.
    destruct (N.testbit i n), (N.testbit 3 n); done. }
  assert (i < 4) as Hlt.
  { rewrite <-Hi. change 3 with (N.ones 2). rewrite N.land_ones. apply N.mod_lt. done. }
  unfold has. destruct (decide (i = 2)) as [->|].
  - exists WRITABLE. split; [by right|done].
  - exists READABLE. split; [by left|]. assert (i = 1 ∨ i = 3) as [-> | ->] by lia; done.
Qed.

Lemma valid_kind src :
  valid_source src = true → kind src ≠ KIND_READINESS → kind src ≠ KIND_TIMER →
  kind src = KIND_COMPLETION.
Proof.
  unfold valid_source. intros Hv Hr Ht. apply N.eqb_neq in Hr, Ht. rewrite Ht, Hr in Hv. simpl in Hv.
  destruct (N.eqb_spec (kind src) KIND_COMPLETION); [done|]. done.
Qed.

Section handle_changes.
Context (A : Registration → option Active) (c : Core) (HA : links A c).

Lemma slot_default h bit r :
  direction bit →
  slot_of bit (handle_or_default h c) = Some r ↔ ∃ a, A r = Some a ∧ waits_on a h bit.
Proof.
  intros Hbit. unfold handle_or_default. destruct (handles c !! h) as [hd|] eqn:Hh; simpl.
  - by apply (handles_linked _ _ HA).
  - split; [by destruct Hbit as [-> | ->]|]. intros (a & Ha & Hk & <- & _).
    destruct (handles_exist _ _ HA r a Ha Hk). congruence.
Qed.

Lemma updated_key h next c' v :
  updated h next c c' (Success v) →
  ∃ n, next_poll_key c ≤ n ∧
    c' = commit_handle h (handles c !! h) (mkHandle (if unused next then event_key next else n)
           (read next) (write next)) (with_poll_key n c) ∧
    (unused next = false → next_poll_key c < n).
Proof. intros (n & Hn & Hlt & ->). by exists n. Qed.

(** The committed handle has the directions of [next]. *)
Lemma links_updated A' h next c' v :
  (∀ r a, ¬ (kind (source a) = KIND_READINESS ∧ handle (source a) = h) →
     A r = Some a ↔ A' r = Some a) →
  (∀ r a, A' r = Some a → valid_source (source a) = true) →
  (∀ bit r, direction bit → slot_of bit next = Some r ↔ ∃ a, A' r = Some a ∧ waits_on a h bit) →
  updated h next c c' (Success v) → links A' c'.
Proof.
  intros Hsame Hv Hslots (n & Hn & -> & Hlt)%updated_key.
  assert (∀ k bit, slot_of bit (mkHandle k (read next) (write next)) = slot_of bit next) as Hs by done.
  apply (links_commit A c HA); try done.
  - intros r a Ha Hk Hh. destruct (valid_readiness _ (Hv r a Ha) Hk) as (bit & Hbit & Hhas).
    apply unused_slots. exists bit, r. split; [done|]. rewrite Hs. apply Hslots; [done|]. by exists a.
  - intros Hu. change (unused next = false) in Hu. rewrite Hu. simpl. by split; [|apply Hlt].
Qed.

(** Dropping the registrations [D] from the handle of [h]. *)
Lemma links_drop (D : list Registration) h hd next c' v :
  handles c !! h = Some hd →
  (∀ r, r ∈ D → ∃ bit, direction bit ∧ slot_of bit hd = Some r) →
  (∀ bit r, direction bit → slot_of bit next = Some r ↔ slot_of bit hd = Some r ∧ r ∉ D) →
  updated h next c c' (Success v) →
  links (λ j, if decide (j ∈ D) then None else A j) c'.
Proof.
  intros Hh HD Hnext Hup.
  assert (∀ r, r ∈ D → ∃ a, A r = Some a ∧ kind (source a) = KIND_READINESS ∧ handle (source a) = h)
    as HDA.
  { intros r Hr. destruct (HD r Hr) as (bit & Hbit & Hs).
    apply (handles_linked _ _ HA h hd bit r Hh Hbit) in Hs as (a & Ha & Hk & Hhd & _). by exists a. }
  eapply links_updated; [| | |exact Hup].
  - intros r a Hn. case_decide as Hr; [|done]. split; [|done]. intros Ha.
    destruct (HDA r Hr) as (a' & Ha' & Hk). destruct Hn. congruence.
  - intros r a. case_decide; [done|]. apply (sources_valid _ _ HA).
  - intros bit r Hbit. rewrite Hnext, (handles_linked _ _ HA h hd bit r Hh Hbit) by done.
    case_decide; [|tauto]. split; [by intros [_ ?]|]. by intros (a & ? & _).
Qed.

(** A new readiness registration. *)
Lemma links_add_readiness r a c' v :
  A r = None → kind (source a) = KIND_READINESS → valid_source (source a) = true →
  overlaps (source a) (handle_or_default (handle (source a)) c) = false →
  updated (handle (source a))
    (add_interests (source a) r (handle_or_default (handle (source a)) c)) c c' (Success v) →
  links (upd r (Some a) A) c'.
Proof.
  intros Hr Hk Hv Hover Hup. set (h := handle (source a)) in *. eapply links_updated; [| | |exact Hup].
  - intros j b Hn. unfold upd. case_decide as Hj; [|done]. subst j. rewrite Hr. split; [done|].
    intros [= <-]. by destruct Hn.
  - intros j b. unfold upd. case_decide; [by intros [= <-]|]. apply (sources_valid _ _ HA).
  - intros bit j Hbit.
    assert (slot_of bit (add_interests (source a) r (handle_or_default h c)) =
      if has (interests (source a)) bit then Some r else slot_of bit (handle_or_default h c)) as ->
      by by destruct Hbit as [-> | ->].
    assert (has (interests (source a)) bit = true → slot_of bit (handle_or_default h c) = None) as Hfree.
    { intros Hhas. unfold overlaps in Hover. apply orb_false_iff in Hover as [HR HW].
      destruct Hbit as [-> | ->]; [rewrite Hhas in HR|rewrite Hhas in HW]; simpl in *; bool_facts;
        unfold slot_of; simpl; by apply eq_None_not_Some. }
    pose proof (slot_default h bit j Hbit) as Hslot. unfold upd. destruct (decide (j = r)) as [->|Hj].
    + split.
      * destruct (has _ bit) eqn:Hhas; [intros _; by exists a|].
        intros (b & Hb & _)%Hslot. congruence.
      * intros (b & [= <-] & _ & _ & ->). done.
    + split.
      * destruct (has _ bit) eqn:Hhas; [congruence|]. by intros ?%Hslot.
      * intros Hb. apply Hslot in Hb as Hb'. destruct (has _ bit) eqn:Hhas; [|done].
        rewrite Hfree in Hb' by done. done.
Qed.
End handle_changes.

(** What [commit_handle] leaves alone. *)
Lemma updated_frame h next c c' r :
  updated h next c c' r →
  table c' = table c ∧ timers c' = timers c ∧ ready c' = ready c.
Proof.
  intros (n & _ & Hr). destruct r as [v|e]; [destruct Hr as [_ ->]|by subst].
  unfold commit_handle. by case_match.
Qed.

Lemma core_inv_updated A A' h next c c' r :
  core_inv A c → updated h next c c' r → links A' c' → core_inv A' c'.
Proof.
  intros (Ht & _ & Hr) Hup Hl. destruct (updated_frame _ _ _ _ _ Hup) as (E1 & E2 & E3).
  refine (conj _ (conj Hl _)); [by rewrite E1|]. unfold ready_ok. by rewrite E1, E3.
Qed.

(** ** The operations keep the invariant *)

Section operations.
Context {P : Type} `{Poller P} (linux : bool).
Implicit Types (s : Reactor P).

(** Finishing the registrations [D] that the indices no longer hold. *)
Lemma finish_each_wp (f : Registration → Core → outcome (() * Core)) (ev : Active → N)
    (D : list Registration) A s :
  (∀ r c a, active c r = Some a → f r c = finish r (ev a) 0 c) →
  NoDup D → core_inv A (core s) →
  (∀ r, r ∈ D → is_Some (active (core s) r)) →
  (∀ r, A r = if decide (r ∈ D) then None else active (core s) r) →
  wp (foldr (λ r rest, on_core (f r) ;; rest) (mret tt) D)
    (λ r s', r = Success tt ∧ core_ok (core s') ∧ ∃ new, finished (core s) (core s') new ∧
       registration <$> new = D ∧
       ∀ n, n ∈ new → ∃ a, active (core s) (registration n) = Some a ∧ events n = ev a ∧
         os_error n = 0%Z) s.
Proof.
  intros Hf. revert s A. induction D as [|r D IH]; intros s A Hnd Hinv HD HA; simpl.
  - refine (conj eq_refl (conj _ _)); [by eapply core_inv_ext|]. exists [].
    refine (conj _ (conj eq_refl _)); [by apply finished_nil|by intros n ?%elem_of_nil].
  - apply NoDup_cons in Hnd as [Hr Hnd]. destruct (HD r ltac:(left)) as [a Ha].
    assert (A r = None) as HAr by (rewrite HA, decide_True by left; done).
    destruct (finish_spec A (core s) r a (ev a) 0 Hinv Ha HAr)
      as (c1 & Hfin & Hinv1 & Hact & Hiss & Hready & _ & _).
    apply io_wp_bind. eapply wp_on_core; [by rewrite (Hf r _ a Ha)|].
    eapply io_wp_mono; [apply (IH (mkReactor (poller s) c1) A); [done|exact Hinv1| |]|]; simpl.
    + intros j Hj. rewrite Hact. unfold upd. rewrite decide_False by (by intros ->).
      apply HD. by right.
    + intros j. rewrite Hact, HA. unfold upd. destruct (decide (j = r)) as [->|Hj].
      * rewrite decide_True by left. by case_decide.
      * destruct (decide (j ∈ D)); [by rewrite decide_True by by right|].
        rewrite decide_False; [done|]. by intros [?|?]%elem_of_cons.
    + intros res s' (-> & Hok & new & Hnew & Hregs & Hev). refine (conj eq_refl (conj Hok _)).
      exists (mkReady r (owner a) (ev a) 0 :: new). refine (conj _ (conj _ _)).
      * by eapply finished_cons.
      * by rewrite fmap_cons, Hregs.
      * intros n [->|Hn]%elem_of_cons; [by exists a|].
        destruct (Hev n Hn) as (b & Hb & Hn'). exists b. split; [|done].
        rewrite Hact in Hb. unfold upd in Hb. by case_decide.
Qed.

Lemma pair_list_elem first second r :
  r ∈ pair_list first second ↔ first = Some r ∨ second = Some r.
Proof.
  unfold pair_list. destruct first as [f|], second as [w|]; simpl; try case_bool_decide;
    rewrite ?elem_of_cons, ?elem_of_nil; intuition congruence.
Qed.

Lemma pair_list_NoDup first second : NoDup (pair_list first second).
Proof.
  unfold pair_list. destruct first as [r|], second as [w|]; simpl;
    repeat (case_bool_decide || constructor); try done; try by apply not_elem_of_nil.
  all: try (intros ?%list_elem_of_singleton; congruence).
Qed.

(** ** [register] *)

(** The table after an insertion, before the indices are changed. *)
Lemma insert_inv c src own r t :
  core_ok c → allocate (table c) (mkActive src own) = Some (r, t) →
  core_inv (active c) (with_table t c) ∧ ¬ issued_by c r ∧ active c r = None ∧
  (∀ j, active (with_table t c) j = upd r (Some (mkActive src own)) (active c) j) ∧
  (∀ j, issued_by c j → issued t j) ∧
  (∀ j, is_Some (active c j) → Slots.key j ≠ Slots.key r).
Proof.
  intros (Ht & Hl & Hnd & Hst) Hall.
  destruct (allocate_spec _ _ _ _ Ht Hall) as (Ht' & Hni & Hi & Hocc & Hmono).
  assert (active c r = None) as Hnone.
  { destruct (active c r) eqn:E; [|done]. destruct Hni. by eapply occupant_issued. }
  refine (conj _ (conj Hni (conj Hnone (conj Hocc (conj Hmono _))))).
  - refine (conj Ht' (conj _ (conj Hnd _))); [by apply (links_ext (active c) _ c)|].
    intros j Hj. destruct (Hst j Hj) as [Hji Hjn]. split; [by apply Hmono|].
    simpl. rewrite Hocc. case_decide; [by subst|exact Hjn].
  - intros j [b Hb] Hkey. assert (j ≠ r) as Hne by (intros ->; congruence). apply Hne.
    apply (occupant_key_inj t j r b (mkActive src own)); [|by rewrite Hocc, decide_True|exact Hkey].
    rewrite Hocc. by rewrite decide_False.
Qed.

(** Undoing an insertion. *)
Lemma register_undo c src own r t n :
  core_ok c → allocate (table c) (mkActive src own) = Some (r, t) → next_poll_key c ≤ n →
  ∃ c', remove r (with_poll_key n (with_table t c)) = Ok (mkActive src own, c') ∧
    core_ok c' ∧ unchanged c c'.
Proof.
  intros Hok Hall Hn. set (c1 := with_poll_key n (with_table t c)).
  destruct (insert_inv _ _ _ _ _ Hok Hall) as ((Ht & _) & _ & Hnone & Hact & Hmono & _).
  destruct (core_remove_spec c1 r (mkActive src own)) as (t' & Hrem & Ht' & Hocc & Hiss); [exact Ht| |].
  { change (active (with_table t c) r = Some (mkActive src own)). rewrite Hact. unfold upd.
    by rewrite decide_True. }
  assert (∀ j, occupant t' j = active c j) as Hback.
  { intros j. rewrite Hocc. unfold upd. case_decide as Hj; [by subst|].
    change (active (with_table t c) j = active c j). rewrite Hact. unfold upd. by rewrite decide_False. }
  assert (∀ j, issued_by c j → issued t' j) as Hmono' by (intros j Hj; by apply Hiss, Hmono).
  exists (with_table t' c1). destruct Hok as (_ & Hl & Hnd & Hst).
  refine (conj Hrem (conj (conj Ht' (conj _ (conj Hnd _))) _)); [| |by split].
  - apply (links_ext (active c) _ (with_poll_key n c)); try done; [by intros j; rewrite <-Hback|].
    by apply links_poll_key.
  - intros j Hj. destruct (Hst j Hj) as [Hji Hjn]. split; [by apply Hmono'|]. simpl. by rewrite Hback.
Qed.

Lemma register_wp src own s :
  core_ok (core s) →
  wp (register linux src own) (λ r s', core_ok (core s') ∧
    match r with
    | Success r => ¬ issued_by (core s) r ∧
        (∀ j, active (core s') j = upd r (Some (mkActive src own)) (active (core s)) j) ∧
        (∀ j, issued_by (core s) j → issued_by (core s') j) ∧ ready (core s') = ready (core s)
    | Failure _ => unchanged (core s) (core s')
    end) s.
Proof.
  intros Hok. unfold register.
  destruct (valid_source src) eqn:Hv; simpl; [|by split; [|apply unchanged_refl]].
  apply io_wp_gets. destruct (_ && overlaps _ _) eqn:Hover; [by split; [|apply unchanged_refl]|].
  apply io_wp_bind, wp_polled. intros p [e|] _; [by split; [|apply unchanged_refl]|].
  apply io_wp_bind. unfold wp at 1, core_result, insert. simpl.
  destruct (allocate _ _) as [[r t]|] eqn:Hall; [|by split; [|apply unchanged_refl]].
  destruct (insert_inv _ _ _ _ _ Hok Hall) as (Hinv & Hni & Hnone & Hact & Hmono & Hkeys).
  set (a := mkActive src own) in *. set (c1 := with_table t (core s)) in *.
  pose proof Hinv as (_ & Hl & _).
  (* The end of the operation, once the indices hold the new registration. *)
  assert (∀ p' c', table c' = t → ready c' = ready c1 → core_inv (upd r (Some a) (active (core s))) c' →
    wp (mret r : IO P Registration) (λ r s', core_ok (core s') ∧
      match r with
      | Success r => ¬ issued_by (core s) r ∧
          (∀ j, active (core s') j = upd r (Some a) (active (core s)) j) ∧
          (∀ j, issued_by (core s) j → issued_by (core s') j) ∧ ready (core s') = ready (core s)
      | Failure _ => unchanged (core s) (core s')
      end) (mkReactor p' c')) as Hend.
  { intros p' c' Htab Hready Hinv'.
    assert (∀ j, active c' j = upd r (Some a) (active (core s)) j) as Hact'
      by (intros j; rewrite <-Hact; unfold active; by rewrite Htab).
    split; [by eapply core_inv_ext; [|exact Hinv']|]. simpl.
    refine (conj Hni (conj Hact' (conj _ Hready))). intros j Hj. unfold issued_by.
    rewrite Htab. by apply Hmono. }
  apply io_wp_bind. destruct (N.eqb_spec (kind src) KIND_READINESS) as [Hk|Hk].
  - simpl in Hover. apply io_wp_gets, io_wp_bind, wp_attempt.
    eapply io_wp_mono; [apply update_handle_wp|]. simpl. intros [u|e] [p' c'] Hup; simpl in *.
    + destruct (updated_frame _ _ _ _ _ Hup) as (E1 & _ & E3). apply Hend; [done|done|].
      eapply core_inv_updated; [exact Hinv|exact Hup|]. by eapply (links_add_readiness _ c1 Hl r a).
    + destruct Hup as (n & Hn & ->). apply io_wp_bind.
      destruct (register_undo _ _ _ _ _ n Hok Hall Hn) as (c' & Hrem & Hok' & Hun).
      by eapply wp_on_core.
  - destruct (N.eqb_spec (kind src) KIND_TIMER) as [Hk'|Hk'].
    + apply Hend; [done|done|]. destruct Hinv as (Ht' & _ & Hr). refine (conj Ht' (conj _ Hr)).
      by apply (links_add_timer _ c1 Hl r a).
    + apply Hend; [done|done|]. destruct Hinv as (Ht' & _ & Hr). refine (conj Ht' (conj _ Hr)).
      apply (links_add_completion _ c1 Hl r a); [done|by apply valid_kind|done].
Qed.

(** ** [cancel] *)

Lemma remove_inv A c r a :
  core_inv A c → active c r = Some a → A r = None →
  ∃ c', remove r c = Ok (a, c') ∧ core_inv A c' ∧
    (∀ j, active c' j = without r (active c) j) ∧ (∀ j, issued_by c' j ↔ issued_by c j) ∧
    ready c' = ready c.
Proof.
  intros (Ht & Hl & Hnd & Hst) Ha HA.
  destruct (core_remove_spec c r a Ht Ha) as (t & Hrem & Ht' & Hocc & Hiss).
  exists (with_table t c). refine (conj Hrem (conj _ (conj Hocc (conj Hiss eq_refl)))).
  refine (conj Ht' (conj _ (conj Hnd _))); [by apply (links_ext A A c)|].
  intros j Hj. destruct (Hst j Hj) as [Hi Hn]. split; [by apply Hiss|]. simpl.
  rewrite Hocc. unfold upd. by case_decide.
Qed.

Lemma clear_slots r hd bit j :
  slot_of bit (clear r hd) = Some j ↔ slot_of bit hd = Some j ∧ j ∉ [r].
Proof.
  rewrite list_elem_of_singleton. unfold slot_of, clear. simpl.
  destruct (bit =? READABLE); case_bool_decide as E; rewrite ?E; intuition congruence.
Qed.

Lemma unchanged_with_poll_key c c' r (h : N) next :
  updated h next c c' r → ∀ e, r = Failure e → unchanged c c'.
Proof. intros (n & _ & Hr) e ->. subst c'. apply unchanged_poll_key. Qed.

(** The timer of a registration is the only entry under its key. *)
Lemma timer_remove_linked c r a e :
  core_ok c → active c r = Some a → kind (source a) = KIND_TIMER →
  e ∈ timer_remove (deadline_ns (source a), Slots.key r) (timers c) ↔ e.2 ≠ r ∧ e ∈ timers c.
Proof.
  intros (_ & Hl & _) Ha Hk. rewrite timer_remove_elem. destruct e as [[d k] j]. simpl.
  split; intros [Hne Hin]; (split; [|done]); apply (timers_linked _ _ Hl) in Hin as (-> & b & Hb & _ & Hd).
  - intros ->. apply Hne. rewrite Ha in Hb. injection Hb as <-. congruence.
  - intros [= _ Hkey]. apply Hne. by eapply occupant_key_inj.
Qed.

(** What a cancellation does. *)
Definition cancelled (r : Registration) (c c' : Core) (res : result bool) : Prop :=
  core_ok c' ∧
  match res with
  | Success b => b = bool_decide (is_Some (active c r)) ∧
      (∀ j, active c' j = without r (active c) j) ∧
      (∀ j, issued_by c' j ↔ issued_by c j) ∧ ready c' = ready c
  | Failure _ => unchanged c c'
  end.

(** The end of the operation, once the indices have dropped the registration. *)
Lemma cancel_end r a c p c' :
  active c r = Some a → table c' = table c → ready c' = ready c →
  core_inv (without r (active c)) c' →
  wp (on_core (remove r) ;; mret true : IO P bool) (λ res s', cancelled r c (core s') res)
    (mkReactor p c').
Proof.
  intros Ha Et Er Hinv. apply io_wp_bind.
  assert (∀ j, active c' j = active c j) as Hsame by (intros j; unfold active; by rewrite Et).
  destruct (remove_inv _ c' r a Hinv) as (c2 & Hrem & Hinv2 & Hact & Hiss & Hready);
    [by rewrite Hsame|unfold upd; by rewrite decide_True|].
  assert (∀ j, active c2 j = without r (active c) j) as Hact2
    by (intros j; rewrite Hact; unfold upd; by rewrite Hsame).
  eapply wp_on_core; [exact Hrem|].
  split; [by eapply core_inv_ext; [|exact Hinv2]|]. rewrite bool_decide_true by by eexists.
  refine (conj eq_refl (conj Hact2 (conj _ _))); [|by simpl; rewrite Hready].
  intros j. simpl. rewrite Hiss. unfold issued_by. by rewrite Et.
Qed.

Lemma cancel_wp r s :
  core_ok (core s) → wp (cancel linux r) (λ res s', cancelled r (core s) (core s') res) s.
Proof.
  intros Hok. pose proof Hok as (Ht & Hl & Hr). unfold cancel. apply io_wp_gets.
  destruct (active (core s) r) as [a|] eqn:Ha.
  2: { refine (conj Hok (conj _ (conj _ (conj (λ j, iff_refl _) eq_refl)))).
       - rewrite bool_decide_false; [done|]. rewrite Ha. by intros [].
       - intros j. unfold upd. case_decide; [by subst|done]. }
  apply io_wp_bind, wp_polled. intros p [e|] _; [by split; [|apply unchanged_refl]|].
  apply io_wp_bind. destruct (N.eqb_spec (kind (source a)) KIND_READINESS) as [Hk|Hk].
  - apply io_wp_bind. destruct (handles_exist _ _ Hl r a Ha Hk) as [hd Hhd].
    eapply wp_on_core; [unfold handle_at; simpl; by rewrite Hhd|]. simpl.
    eapply io_wp_mono; [apply update_handle_wp|]. simpl. intros [u|e] [p' c'] Hup; simpl in *.
    + destruct (updated_frame _ _ _ _ _ Hup) as (E1 & _ & E3). apply (cancel_end r a); [done..|].
      eapply core_inv_updated; [exact Hok|exact Hup|].
      apply (links_ext (λ j, if decide (j ∈ [r]) then None else active (core s) j) _ c'); try done.
      { intros j. unfold upd. destruct (decide (j = r)) as [->|Hj]; [by rewrite decide_True by left|].
        rewrite decide_False; [done|]. by intros ?%list_elem_of_singleton. }
      eapply (links_drop _ _ Hl [r]); [exact Hhd| |intros; apply clear_slots|exact Hup].
      intros j ->%list_elem_of_singleton.
      destruct (valid_readiness _ (sources_valid _ _ Hl r a Ha) Hk) as (bit & Hbit & Hhas).
      exists bit. split; [done|]. apply (handles_linked _ _ Hl _ _ _ _ Hhd Hbit). by exists a.
    + destruct Hup as (n & Hn & ->). split; [by apply core_ok_poll_key|apply unchanged_poll_key].
  - destruct (N.eqb_spec (kind (source a)) KIND_TIMER) as [Hk'|Hk'];
      (apply (cancel_end r a); [done..|]); refine (conj Ht (conj _ Hr)).
    + apply (links_timer _ _ Hl r a); [done|done|apply timer_remove_sorted, Hl|].
      intros e. by apply timer_remove_linked.
    + eapply links_completion; [exact Hl|exact Ha|].
      apply valid_kind; [by eapply (sources_valid _ _ Hl)|done|done].
Qed.

(** ** [revoke_readiness] and [readiness] *)

(** Updating a handle and finishing the registrations it drops. *)
Lemma retire_wp (f : Registration → Core → outcome (() * Core)) (ev : Active → N)
    h hd next first second s :
  (∀ r c a, active c r = Some a → f r c = finish r (ev a) 0 c) →
  core_ok (core s) → handles (core s) !! h = Some hd →
  (∀ r, r ∈ pair_list first second → ∃ bit, direction bit ∧ slot_of bit hd = Some r) →
  (∀ bit r, direction bit →
     slot_of bit next = Some r ↔ slot_of bit hd = Some r ∧ r ∉ pair_list first second) →
  wp (update_handle linux h next ;; finish_pair first second (λ r, on_core (f r)))
    (λ res s', core_ok (core s') ∧
       match res with
       | Success _ => ∃ new, finished (core s) (core s') new ∧
           registration <$> new = pair_list first second ∧
           ∀ n, n ∈ new → ∃ a, active (core s) (registration n) = Some a ∧
             events n = ev a ∧ os_error n = 0%Z
       | Failure _ => unchanged (core s) (core s')
       end) s.
Proof.
  intros Hf Hok Hhd HD Hnext. pose proof Hok as (Ht & Hl & Hr).
  apply io_wp_bind. eapply io_wp_mono; [apply update_handle_wp|]. simpl. intros [u|e] [p c'] Hup; simpl in *.
  2: { destruct Hup as (n & Hn & ->). split; [by apply core_ok_poll_key|apply unchanged_poll_key]. }
  destruct (updated_frame _ _ _ _ _ Hup) as (E1 & _ & E3).
  assert (∀ j, active c' j = active (core s) j) as Hsame by (intros j; unfold active; by rewrite E1).
  eapply io_wp_mono.
  - eapply (finish_each_wp f ev (pair_list first second)
      (λ j, if decide (j ∈ pair_list first second) then None else active (core s) j));
      [done|apply pair_list_NoDup| | |]; simpl.
    + eapply core_inv_updated; [exact Hok|exact Hup|]. by eapply links_drop.
    + intros r Hr'. destruct (HD r Hr') as (bit & Hbit & Hs). rewrite Hsame.
      apply (handles_linked _ _ Hl _ _ _ _ Hhd Hbit) in Hs as (a & Ha & _). by exists a.
    + intros r. by rewrite Hsame.
  - simpl. intros res s' (-> & Hok' & new & [F1 F2 F3 F4] & Hregs & Hev).
    refine (conj Hok' _). exists new. refine (conj _ (conj Hregs _)).
    + split.
      * intros j. by rewrite F1, Hsame.
      * intros j Hj. apply F2. unfold issued_by. by rewrite E1.
      * by rewrite F3, E3.
      * intros n Hn. destruct (F4 n Hn) as (a & Ha & Ho). exists a. by rewrite <-Hsame.
    + intros n Hn. destruct (Hev n Hn) as (a & Ha & Ho). exists a. by rewrite <-Hsame.
Qed.

Lemma revoke_readiness_wp h s :
  core_ok (core s) →
  wp (revoke_readiness linux h) (λ res s', core_ok (core s') ∧
    match res with
    | Success _ => ∃ new, finished (core s) (core s') new ∧
        (∀ r, r ∈ registration <$> new ↔
           ∃ a, active (core s) r = Some a ∧ kind (source a) = KIND_READINESS ∧
             handle (source a) = h) ∧
        ∀ n, n ∈ new → events n = ERROR ∧ os_error n = 0%Z
    | Failure _ => unchanged (core s) (core s')
    end) s.
Proof.
  intros Hok. pose proof Hok as (Ht & Hl & Hr). unfold revoke_readiness. apply io_wp_gets.
  destruct (handles (core s) !! h) as [hd|] eqn:Hhd.
  2: { refine (conj Hok _). exists []. refine (conj _ (conj _ _)); [by apply finished_nil| |].
       - intros r. split; [by intros ?%elem_of_nil|]. intros (a & Ha & Hk & <-).
         destruct (handles_exist _ _ Hl r a Ha Hk). congruence.
       - by intros n ?%elem_of_nil. }
  apply io_wp_bind, wp_polled. intros p [e|] _; [by split; [|apply unchanged_refl]|].
  assert (∀ r, r ∈ pair_list (read hd) (write hd) ↔ ∃ bit, direction bit ∧ slot_of bit hd = Some r)
    as Hpair.
  { intros r. rewrite pair_list_elem. split.
    - intros [Hs|Hs]; [exists READABLE|exists WRITABLE]; (split; [first [by left|by right]|exact Hs]).
    - intros (bit & [-> | ->] & Hs); [by left|by right]. }
  eapply io_wp_mono; [eapply (retire_wp (λ r, finish r ERROR 0) (λ _, ERROR) h hd); [done|exact Hok|exact Hhd| |]|].
  - intros r. apply Hpair.
  - intros bit r Hbit. split; [by destruct Hbit as [-> | ->]|]. intros [Hs Hn]. destruct Hn.
    apply Hpair. by exists bit.
  - simpl. intros [u|e] s' [Hok' Hres]; [|by split]. refine (conj Hok' _).
    destruct Hres as (new & Hfin & Hregs & Hev). exists new. refine (conj Hfin (conj _ _)).
    + intros r. rewrite Hregs, Hpair. split.
      * intros (bit & Hbit & (a & Ha & Hk & Hh & _)%(handles_linked _ _ Hl _ _ _ _ Hhd Hbit)). by exists a.
      * intros (a & Ha & Hk & Hh).
        destruct (valid_readiness _ (sources_valid _ _ Hl r a Ha) Hk) as (bit & Hbit & Hhas).
        exists bit. split; [done|]. apply (handles_linked _ _ Hl _ _ _ _ Hhd Hbit). by exists a.
    + intros n Hn. by destruct (Hev n Hn) as (a & _ & ?).
Qed.

(** The handle an event leaves has lost exactly the registrations the event completes. *)
Lemma completed_by_spec ev hd first second hd' :
  completed_by ev hd = (first, second, hd') →
  (∀ r, r ∈ pair_list first second → ∃ bit, direction bit ∧ slot_of bit hd = Some r) ∧
  (∀ bit r, direction bit →
     slot_of bit hd' = Some r ↔ slot_of bit hd = Some r ∧ r ∉ pair_list first second).
Proof.
  unfold completed_by. intros [= <- <- <-].
  destruct hd as [k rd wr]. simpl. split.
  - intros r Hr. apply pair_list_elem in Hr as [Hr|Hr]; case_match; try done;
      [exists READABLE|exists WRITABLE]; (split; [first [by left|by right]|done]).
  - intros bit r Hbit. rewrite pair_list_elem.
    assert (slot_of READABLE (mkHandle k rd wr) = rd ∧ slot_of WRITABLE (mkHandle k rd wr) = wr)
      as [HR HW] by done.
    destruct (has ev (N.lor READABLE ERROR)), (has ev (N.lor WRITABLE ERROR)), rd as [x|], wr as [y|];
      simpl; try (unfold clear; simpl; repeat case_bool_decide);
      destruct Hbit as [-> | ->]; unfold slot_of; simpl; intuition congruence.
Qed.

(** The registrations that an event completes. *)
Definition event_targets (e : Event) (c : Core) : list Registration :=
  match h ← poll_keys c !! key e; handles c !! h with
  | Some hd => let '(first, second, _) := completed_by (event_bits e) hd in pair_list first second
  | None => []
  end.

Lemma readiness_wp e s :
  core_ok (core s) →
  wp (readiness linux e) (λ res s', core_ok (core s') ∧
    match res with
    | Success _ => ∃ new, finished (core s) (core s') new ∧
        registration <$> new = event_targets e (core s) ∧
        ∀ n, n ∈ new → ∃ a, active (core s) (registration n) = Some a ∧
          events n = N.land (event_bits e) (N.lor (interests (source a)) ERROR) ∧ os_error n = 0%Z
    | Failure _ => unchanged (core s) (core s')
    end) s.
Proof.
  intros Hok. pose proof Hok as (Ht & Hl & Hr). unfold readiness, event_targets. apply io_wp_gets.
  destruct (poll_keys (core s) !! key e) as [h|] eqn:Hkey; simpl.
  2: { refine (conj Hok _). exists []. refine (conj _ (conj eq_refl _)); [by apply finished_nil|].
       by intros n ?%elem_of_nil. }
  apply (keys_linked _ _ Hl) in Hkey as (hd & Hhd & _). apply io_wp_bind.
  eapply wp_on_core; [unfold handle_at; by rewrite Hhd|]. rewrite Hhd. cbv iota beta.
  destruct (completed_by (event_bits e) hd) as [[first second] hd'] eqn:Hc.
  destruct (completed_by_spec _ _ _ _ _ Hc) as [HD Hnext].
  destruct s as [p c]. eapply (retire_wp (finish_events (event_bits e))
    (λ a, N.land (event_bits e) (N.lor (interests (source a)) ERROR))); try done.
  - intros r c' a Ha. unfold finish_events. by rewrite Ha.
  - by injection Hc as <- <- <-.
  - by injection Hc as <- <- <-.
Qed.

(** ** [notify_completion] *)

Lemma complete_wp r ev os s :
  core_ok (core s) →
  wp (complete r ev os) (λ res s', core_ok (core s') ∧
    (unchanged (core s) (core s') ∨
     ∃ a n, active (core s) r = Some a ∧ kind (source a) = KIND_COMPLETION ∧ registration n = r ∧
       finished (core s) (core s') [n]) ∧
    (res = Success false → active (core s) r = None) ∧
    (res = Success true → is_Some (active (core s) r) ∧ active (core s') r = None)) s.
Proof.
  intros Hok. pose proof Hok as (Ht & Hl & Hr). unfold complete.
  destruct (_ || _); [by refine (conj Hok (conj (or_introl (unchanged_refl _)) (conj _ _)))|].
  apply io_wp_gets. destruct (active (core s) r) as [a|] eqn:Ha.
  2: { by refine (conj Hok (conj (or_introl (unchanged_refl _)) (conj _ _))). }
  destruct (N.eqb_spec (kind (source a)) KIND_COMPLETION) as [Hk|Hk]; simpl.
  2: { by refine (conj Hok (conj (or_introl (unchanged_refl _)) (conj _ _))). }
  apply io_wp_bind.
  destruct (finish_spec (without r (active (core s))) (core s) r a
      (N.lor ev (if os =! 0%Z then 0 else ERROR)) os)
    as (c' & Hfin & Hinv & Hact & Hiss & Hready & _); [|exact Ha|by unfold upd; rewrite decide_True|].
  { refine (conj Ht (conj _ Hr)). by eapply links_completion. }
  eapply wp_on_core; [exact Hfin|].
  set (n := mkReady r (owner a) (N.lor ev (if os =! 0%Z then 0 else ERROR)) os) in *.
  assert (core_ok c') as Hok' by (by eapply core_inv_ext; [|exact Hinv]; intros j; rewrite Hact).
  assert (finished (core s) c' [n]) as Hone.
  { eapply (finished_cons _ c' c' r a n []); try done. by apply finished_nil. }
  assert (active c' r = None) as Hgone by (rewrite Hact; unfold upd; by rewrite decide_True).
  refine (conj Hok' (conj _ (conj _ _))); [by right; exists a, n|done|].
  intros _. split; [by eexists|done].
Qed.

Lemma notify_completion_wp r ev os s :
  core_ok (core s) →
  wp (notify_completion r ev os) (λ res s', core_ok (core s') ∧
    (unchanged (core s) (core s') ∨
     ∃ a n, active (core s) r = Some a ∧ kind (source a) = KIND_COMPLETION ∧ registration n = r ∧
       finished (core s) (core s') [n]) ∧
    (res = Success false → active (core s) r = None) ∧
    (res = Success true → is_Some (active (core s) r) ∧ active (core s') r = None)) s.
Proof.
  intros Hok. apply io_wp_bind. eapply io_wp_mono; [by apply complete_wp|]. simpl.
  intros [[]|e] s' (Hok' & Hc & Hf & Ht); [|by refine (conj Hok' (conj Hc (conj Hf _)))|done].
  apply io_wp_bind, wp_polled. by intros p [e|] _; refine (conj Hok' (conj Hc (conj _ _))).
Qed.

(** ** [wait] and [pop_ready] *)

Lemma finished_trans c c1 c2 new new' :
  finished c c1 new → finished c1 c2 new' → finished c c2 (new ++ new').
Proof.
  intros [F1 F2 F3 F4] [G1 G2 G3 G4]. split.
  - intros j. rewrite G1, F1, fmap_app.
    destruct (decide (j ∈ registration <$> new)) as [Hj|Hj].
    + rewrite (decide_True (P := j ∈ _ ++ _)) by (apply elem_of_app; by left). by case_decide.
    + destruct (decide (j ∈ registration <$> new')) as [Hj'|Hj'].
      * by rewrite decide_True by (apply elem_of_app; by right).
      * rewrite decide_False; [done|]. by intros [?|?]%elem_of_app.
  - intros j Hj. by apply G2, F2.
  - by rewrite G3, F3, app_assoc.
  - intros n [Hn|Hn]%elem_of_app; [by apply F4|]. destruct (G4 n Hn) as (a & Ha & Ho).
    rewrite F1 in Ha. case_decide; [done|]. by exists a.
Qed.

Lemma unchanged_finished c c' : unchanged c c' → finished c c' [].
Proof. intros [U1 U2 _ _ _ U6]. by apply finished_nil. Qed.

(** Timers and events only ever finish registrations. *)
Definition settles (c c' : Core) : Prop := core_ok c' ∧ ∃ new, finished c c' new.

Lemma settles_refl c : core_ok c → settles c c.
Proof. intros Hok. split; [exact Hok|]. exists []. by apply finished_nil. Qed.

Lemma settles_trans c c1 c2 : settles c c1 → settles c1 c2 → settles c c2.
Proof.
  intros [_ [new Hn]] [Hok [new' Hn']]. split; [exact Hok|]. exists (new ++ new').
  by eapply finished_trans.
Qed.

Lemma fire_timers_settles limit c :
  core_ok c → ∃ c', fire_timers limit c = Ok (tt, c') ∧ settles c c'.
Proof.
  intros Hok. destruct (fire_loop_spec limit (timers c) c Hok eq_refl)
    as (c' & new & Hf & Hok' & Hfin & _). exists c'. split; [exact Hf|]. split; [exact Hok'|].
  by exists new.
Qed.

Lemma each_event_wp evs s :
  core_ok (core s) → wp (each_event linux evs) (λ _ s', settles (core s) (core s')) s.
Proof.
  revert s. induction evs as [|e evs IH]; intros s Hok; simpl; [by apply settles_refl|].
  apply io_wp_bind. eapply io_wp_mono; [by apply readiness_wp|]. simpl. intros [u|err] s' [Hok' Hres].
  - destruct Hres as (new & Hfin & _). eapply io_wp_mono; [by apply IH|]. simpl.
    intros _ s2 Hs. eapply settles_trans; [|exact Hs]. split; [exact Hok'|by exists new].
  - split; [exact Hok'|]. exists []. by apply unchanged_finished.
Qed.

(** *** Other threads *)

(** What operations do to a core that cancel no more than [gone]: the ready queue grows, and
    a registration stays as it was until it is announced to its owner. *)
Record progresses (gone : list Registration) (c c' : Core) : Prop := {
  progresses_ok : core_ok c';
  progresses_ready : ∃ new, ready c' = ready c ++ new;
  progresses_active r a : active c r = Some a → r ∉ gone → active c' r = Some a ∨
    ∃ n, n ∈ ready c' ∧ registration n = r ∧ ready_owner n = owner a }.

Lemma progresses_refl gone c : core_ok c → progresses gone c c.
Proof. intros Hok. split; [done| |by left]. exists []. by rewrite app_nil_r. Qed.

Lemma progresses_trans g g' c c1 c2 :
  progresses g c c1 → progresses g' c1 c2 → progresses (g ++ g') c c2.
Proof.
  intros [_ [new R1] A1] [Hok [new' R2] A2]. split; [exact Hok| |].
  - exists (new ++ new'). by rewrite R2, R1, app_assoc.
  - intros r a Ha [Hg Hg']%not_elem_of_app. destruct (A1 r a Ha Hg) as [Ha1|(n & Hn & Hr)].
    + by apply A2.
    + right. exists n. split; [|exact Hr]. rewrite R2. apply elem_of_app. by left.
Qed.

Lemma progresses_mono g g' c c' : g ⊆ g' → progresses g c c' → progresses g' c c'.
Proof. intros Hg [Hok Hr Ha]. split; [done..|]. intros r a Hra Hn. apply Ha; [done|]. by intros ?%Hg. Qed.

Lemma settles_progresses g c c' : settles c c' → progresses g c c'.
Proof.
  intros [Hok [new [F1 _ F3 F4]]]. split; [exact Hok|by exists new|]. intros r a Ha _.
  destruct (decide (r ∈ registration <$> new)) as [Hr|Hr]; [right|left; by rewrite F1, decide_False].
  apply list_elem_of_fmap in Hr as (n & -> & Hn). exists n. rewrite F3, elem_of_app. split; [by right|].
  split; [done|]. destruct (F4 n Hn) as (a' & Ha' & ->). congruence.
Qed.

Lemma unchanged_progresses g c c' : core_ok c' → unchanged c c' → progresses g c c'.
Proof. intros Hok Hun. apply settles_progresses. split; [exact Hok|]. exists []. by apply unchanged_finished. Qed.

(** The registrations that operations of other threads cancel. *)
Definition cancels : list Operation → list Registration :=
  omap (λ op, match op with Cancel r => Some r | _ => None end).

Lemma wp_attempted {A} (m : IO P A) (Q : Reactor P → Prop) s :
  wp m (λ _, Q) s → wp (attempt m ;; mret tt) (λ _, Q) s.
Proof. intros Hm. apply io_wp_bind. unfold wp, attempt in *. by destruct (m s) as [[r s']| | |]. Qed.

Lemma operate_wp op s :
  core_ok (core s) → wp (operate linux op) (λ _ s', progresses (cancels [op]) (core s) (core s')) s.
Proof.
  intros Hok. destruct op as [src own|r|h|r ev os|]; apply wp_attempted.
  - eapply io_wp_mono; [by apply register_wp|]. simpl. intros [r|e] s' [Hok' Hr]; [|by apply unchanged_progresses].
    destruct Hr as (Hni & Hact & _ & Hready). split; [exact Hok'|exists []; by rewrite app_nil_r|].
    intros j a Ha _. left. rewrite Hact. unfold upd. rewrite decide_False; [done|]. intros ->.
    by apply Hni, (occupant_issued _ _ _ Ha).
  - eapply io_wp_mono; [by apply cancel_wp|]. simpl. intros [b|e] s' [Hok' Hr]; [|by apply unchanged_progresses].
    destruct Hr as (_ & Hact & _ & Hready). split; [exact Hok'|exists []; by rewrite app_nil_r|].
    intros j a Ha Hj. left. rewrite Hact. unfold upd. rewrite decide_False; [done|]. intros ->.
    apply Hj. by left.
  - eapply io_wp_mono; [by apply revoke_readiness_wp|]. simpl.
    intros [u|e] s' [Hok' Hr]; [|by apply unchanged_progresses]. destruct Hr as (new & Hfin & _).
    apply settles_progresses. split; [exact Hok'|by exists new].
  - eapply io_wp_mono; [by apply complete_wp|]. simpl. intros _ s' (Hok' & [Hun|Hfin] & _).
    + by apply unchanged_progresses.
    + destruct Hfin as (a & n & _ & _ & _ & Hfin). apply settles_progresses. split; [exact Hok'|by exists [n]].
  - apply wp_polled. intros p e _. by apply progresses_refl.
Qed.

Lemma meanwhile_wp ops s :
  core_ok (core s) → wp (meanwhile linux ops) (λ _ s', progresses (cancels ops) (core s) (core s')) s.
Proof.
  revert s. induction ops as [|op ops IH]; intros s Hok; simpl; [by apply progresses_refl|].
  apply io_wp_bind. eapply io_wp_mono; [by apply operate_wp|]. simpl. intros [u|e] s1 H1.
  - eapply io_wp_mono; [apply IH, H1|]. simpl. intros _ s2 H2.
    change (progresses (cancels ([op] ++ ops)) (core s) (core s2)). unfold cancels. rewrite omap_app.
    by eapply progresses_trans.
  - eapply progresses_mono; [|exact H1]. change (cancels [op] ⊆ cancels ([op] ++ ops)). unfold cancels.
    rewrite omap_app. set_solver.
Qed.

(** *** The loop *)

(** The operations of the other threads during a turn, and what a wait of some turns may see
    cancelled. *)
Definition others (t : Turn) : list Operation := entering t ++ blocking t ++ returning t.
Definition cancelled_in (turns : list Turn) : list Registration := cancels (turns ≫= others).

Definition times_out (turns : list Turn) : bool :=
  existsb (λ t, bool_decide (is_Some (remaining t)) && expired t) turns.

(** What [wait] returns: the length of the ready queue, or 0 when the timeout has expired. *)
Definition waited (turns : list Turn) (c c' : Core) (res : result (option N)) : Prop :=
  progresses (cancelled_in turns) c c' ∧ ∀ n, res = Success (Some n) →
    n = lengthN (ready c') ∧ (n = 0 → times_out turns = true).

Lemma cancelled_in_cons t turns :
  cancelled_in (t :: turns) =
    cancels (entering t) ++ cancels (blocking t) ++ cancels (returning t) ++ cancelled_in turns.
Proof. unfold cancelled_in, cancels, others. simpl. by rewrite !omap_app, <-!app_assoc. Qed.

Lemma wait_loop_wp turns s :
  core_ok (core s) →
  wp (wait_loop linux turns) (λ res s', waited turns (core s) (core s') res) s.
Proof.
  revert s. induction turns as [|t turns IH]; intros s Hok; cbn [wait_loop].
  { by split; [apply progresses_refl|]. }
  unfold waited. rewrite cancelled_in_cons. set (c := core s).
  set (g1 := cancels (entering t)). set (g2 := cancels (blocking t)). set (g3 := cancels (returning t)).
  assert (∀ g c', g ⊆ g1 ++ g2 ++ g3 ++ cancelled_in turns → progresses g c c' → ∀ res : result (option N),
    (∀ n, res = Success (Some n) → n = lengthN (ready c') ∧ (n = 0 → times_out (t :: turns) = true)) →
    progresses (g1 ++ g2 ++ g3 ++ cancelled_in turns) c c' ∧ ∀ n, res = Success (Some n) →
      n = lengthN (ready c') ∧ (n = 0 → times_out (t :: turns) = true)) as Hend.
  { intros g c' Hg Hev res Hn. split; [by eapply progresses_mono|exact Hn]. }
  apply io_wp_bind. eapply io_wp_mono; [by apply meanwhile_wp|]. fold c g1.
  intros [u|e] s1 H1; [|apply (Hend g1); [set_solver|done|done]].
  destruct (fire_timers_settles (now t) (core s1) (progresses_ok _ _ _ H1)) as (c2 & Hf2 & Hs2).
  assert (progresses g1 c c2) as H2.
  { rewrite <-(app_nil_r g1). eapply progresses_trans; [exact H1|by apply settles_progresses]. }
  apply io_wp_bind. eapply wp_on_core; [exact Hf2|]. apply io_wp_gets. cbn [core].
  destruct (N.eqb_spec (lengthN (ready c2)) 0) as [H0|H0]; cbn [negb].
  2: { apply (Hend g1); [set_solver|done|]. intros n [= <-]. by split. }
  apply io_wp_gets, io_wp_bind. eapply io_wp_mono; [apply meanwhile_wp, H2|]. fold g2. cbn [core].
  intros [u2|e] s3 H3; (eapply (progresses_trans g1 g2) in H3; [|exact H2]);
    [|apply (Hend (g1 ++ g2)); [set_solver|done|done]].
  apply io_wp_bind. unfold wp at 1, poll_events. destruct (poll_wait _ _) as [p [evs|e]];
    [|apply (Hend (g1 ++ g2)); [set_solver|done|done]].
  apply io_wp_bind. eapply io_wp_mono; [apply meanwhile_wp, H3|]. fold g3. cbn [core].
  intros [u3|e] s4 H4; (eapply (progresses_trans _ g3) in H4; [|exact H3]); rewrite <-app_assoc in H4;
    [|apply (Hend (g1 ++ g2 ++ g3)); [set_solver|done|done]].
  apply io_wp_bind. eapply io_wp_mono; [apply each_event_wp, H4|]. simpl. intros res s5 H5.
  apply (settles_progresses []) in H5. eapply progresses_trans in H5; [|exact H4]. rewrite app_nil_r in H5.
  destruct res as [u5|e]; [|apply (Hend (g1 ++ g2 ++ g3)); [set_solver|done|done]].
  destruct (fire_timers_settles (later t) (core s5) (progresses_ok _ _ _ H5)) as (c6 & Hf6 & Hs6).
  apply (settles_progresses []) in Hs6. eapply progresses_trans in Hs6; [|exact H5]. rewrite app_nil_r in Hs6.
  apply io_wp_bind. eapply wp_on_core; [exact Hf6|]. apply io_wp_gets. cbn [core].
  destruct (N.eqb_spec (lengthN (ready c6)) 0) as [H6|H6]; cbn [negb].
  2: { apply (Hend (g1 ++ g2 ++ g3)); [set_solver|done|]. intros n [= <-]. by split. }
  simpl times_out in *. destruct (bool_decide (is_Some (remaining t)) && expired t) eqn:Hx; cbn [orb] in *.
  - apply (Hend (g1 ++ g2 ++ g3)); [set_solver|done|]. intros n [= <-]. simpl. by rewrite H6.
  - eapply io_wp_mono; [apply IH, Hs6|]. simpl. intros res s' [H7 Hn].
    eapply progresses_trans in H7; [|exact Hs6]. rewrite <-!app_assoc in H7. by split.
Qed.

Lemma wait_wp first_now too_large turns s :
  core_ok (core s) →
  wp (wait linux first_now too_large turns) (λ res s', waited turns (core s) (core s') res) s.
Proof.
  intros Hok. unfold wait.
  destruct (fire_timers_settles first_now (core s) Hok) as (c1 & Hf1 & Hs1).
  pose proof (settles_progresses (cancelled_in turns) _ _ Hs1) as He1.
  apply io_wp_bind. eapply wp_on_core; [exact Hf1|]. apply io_wp_gets. cbn [core].
  destruct (N.eqb_spec (lengthN (ready c1)) 0) as [H0|H0]; simpl.
  - destruct too_large; [by split|].
    eapply io_wp_mono; [apply (wait_loop_wp turns (mkReactor (poller s) c1)), Hs1|].
    simpl. intros res s' [H2 Hn]. split; [|exact Hn].
    apply (settles_progresses []) in Hs1. by apply (progresses_trans _ _ _ _ _ Hs1 H2).
  - split; [exact He1|]. intros n [= <-]. by split.
Qed.

Lemma pop_ready_wp s :
  core_ok (core s) →
  wp pop_ready (λ res s', core_ok (core s') ∧ res = Success (head (ready (core s))) ∧
    ready (core s') = tail (ready (core s)) ∧ table (core s') = table (core s)) s.
Proof.
  intros (Ht & Hl & Hnd & Hst). unfold pop_ready. apply io_wp_gets. unfold wp. simpl.
  refine (conj (conj Ht (conj _ _)) (conj eq_refl (conj eq_refl eq_refl)));
    [by apply (links_ext (active (core s)) _ (core s))|].
  destruct (ready (core s)) as [|n ns] eqn:Hr; simpl in *; [done|].
  unfold ready_ok. simpl. apply NoDup_cons in Hnd as [_ Hnd]. split; [exact Hnd|].
  intros r Hr'. apply Hst. by right.
Qed.
End operations.
