(* ===== verification/WaitRuns.v ===== *)
(** Runs of the wait reactor: every interleaving of the operations and of the sections of a
    wait, each of which runs under the lock of the core, with the notifications that have
    been handed out; a call of [wait] is such a run. *)

From S2P Require Import Prelude Slots Wait WaitFacts.

(** ** Histories *)

(** A reactor, and the events that a running wait has taken from the poller and has not
    handled yet; the events that failing waits have dropped, the notifications popped so far,
    and the owner of every registration. *)
Record History (P : Type) := mkHistory {
  reactor : Reactor P; buffer : option (list Event);
  dropped : list Event; popped : list ReadyNotification; owners : gmap Registration N }.
Arguments mkHistory {P} reactor buffer dropped popped owners.
Arguments reactor {P} h.
Arguments buffer {P} h.
Arguments dropped {P} h.
Arguments popped {P} h.
Arguments owners {P} h.

Section runs.
Context {P : Type} `{Poller P} (linux : bool).
Implicit Types (s : Reactor P) (h : History P).

(** [h] with another reactor. *)
Definition at_reactor s h : History P :=
  mkHistory s (buffer h) (dropped h) (popped h) (owners h).

(** The last section of a turn of [wait], and the events that it leaves when handling one of
    them fails. *)
Definition handle_events (evs : list Event) (later : N) : IO P () :=
  each_event linux evs ;; on_core (fire_timers later).

Fixpoint unhandled (evs : list Event) s : list Event :=
  match evs with
  | [] => []
  | e :: rest =>
      match readiness linux e s with
      | Ok (Success _, s) => unhandled rest s
      | _ => evs
      end
  end.

Inductive step : History P → History P → Prop :=
  | step_register h src own r s :
      register linux src own (reactor h) = Ok (Success r, s) →
      step h (mkHistory s (buffer h) (dropped h) (popped h) (<[r := own]> (owners h)))
  | step_register_failed h src own e s :
      register linux src own (reactor h) = Ok (Failure e, s) → step h (at_reactor s h)
  | step_cancel h r res s : cancel linux r (reactor h) = Ok (res, s) → step h (at_reactor s h)
  | step_revoke h handle res s :
      revoke_readiness linux handle (reactor h) = Ok (res, s) → step h (at_reactor s h)
  | step_complete h r ev os res s :
      complete r ev os (reactor h) = Ok (res, s) → step h (at_reactor s h)
  | step_notify h res s :
      polled poll_notify (reactor h) = Ok (res, s) → step h (at_reactor s h)
  | step_fire h now res s :
      on_core (fire_timers now) (reactor h) = Ok (res, s) → step h (at_reactor s h)
  | step_poll h timeout evs s :
      buffer h = None → poll_events timeout (reactor h) = Ok (Success evs, s) →
      step h (mkHistory s (Some evs) (dropped h) (popped h) (owners h))
  | step_poll_failed h timeout e s :
      buffer h = None → poll_events timeout (reactor h) = Ok (Failure e, s) → step h (at_reactor s h)
  | step_handle h evs later res s :
      buffer h = Some evs → handle_events evs later (reactor h) = Ok (res, s) →
      step h (mkHistory s None (dropped h ++ unhandled evs (reactor h)) (popped h) (owners h))
  | step_pop h n s :
      pop_ready (reactor h) = Ok (Success n, s) →
      step h (mkHistory s (buffer h) (dropped h) (popped h ++ option_list n) (owners h)).

(** The parts of a computation that returns, taken apart. *)
Lemma polled_Ok (f : P → P * option IoError) s r s' :
  polled f s = Ok (r, s') →
  s' = mkReactor (f (poller s)).1 (core s) ∧
  match r with Success _ => (f (poller s)).2 = None | Failure e => (f (poller s)).2 = Some e end.
Proof.
  unfold polled. destruct (f (poller s)) as [p e]. intros [= <- <-]. by destruct e.
Qed.

Lemma bind_io_Ok {A B} (m : IO P A) (k : A → IO P B) s r s' :
  (m ≫= k) s = Ok (r, s') →
  ∃ ra s1, m s = Ok (ra, s1) ∧
    match ra with Success v => k v s1 = Ok (r, s') | Failure e => r = Failure e ∧ s' = s1 end.
Proof.
  unfold mbind, io_bind. destruct (m s) as [[ra s1]| | |]; simpl; try done.
  intros Hr. exists ra, s1. split; [done|]. destruct ra; [done|]. by injection Hr as <- <-.
Qed.

Lemma attempt_Ok {A} (m : IO P A) s r s' :
  attempt m s = Ok (r, s') → ∃ v, r = Success v ∧ m s = Ok (v, s').
Proof.
  unfold attempt. destruct (m s) as [[v s1]| | |]; simpl; try done. intros [= <- <-]. by exists v.
Qed.

(** Every notification that the reactor has produced. *)
Definition announced h : list ReadyNotification := popped h ++ ready (core (reactor h)).

Record history_ok h : Prop := {
  history_core : core_ok (core (reactor h));
  history_once : NoDup (registration <$> announced h);
  history_stale : ∀ n, n ∈ announced h → stale (table (core (reactor h))) (registration n);
  history_active : ∀ r a, active (core (reactor h)) r = Some a → owners h !! r = Some (owner a);
  history_owner : ∀ n, n ∈ announced h → owners h !! registration n = Some (ready_owner n) }.

(** What a run keeps of an earlier moment: identities stay used up, and a registration that
    was over is announced only if it already had been. *)
Record later_than h h' : Prop := {
  later_issued : ∀ r, issued_by (core (reactor h)) r → issued_by (core (reactor h')) r;
  later_stale : ∀ r, stale (table (core (reactor h))) r → active (core (reactor h')) r = None;
  later_announced : ∀ r, stale (table (core (reactor h))) r →
    r ∈ registration <$> announced h' → r ∈ registration <$> announced h }.

Lemma wp_Ok {A} (m : IO P A) Q s r s' : wp m Q s → m s = Ok (r, s') → Q r s'.
Proof. intros HQ Hm. unfold wp in HQ. by rewrite Hm in HQ. Qed.

(** Operations that only finish registrations. *)
Lemma finished_history h s b l new :
  history_ok h → core_ok (core s) → finished (core (reactor h)) (core s) new →
  history_ok (mkHistory s b l (popped h) (owners h)) ∧ later_than h (mkHistory s b l (popped h) (owners h)).
Proof.
  intros [H1 H2 H3 H4 H5] Hok [F1 F2 F3 F4].
  assert (announced (mkHistory s b l (popped h) (owners h)) = announced h ++ new) as Hann.
  { unfold announced. simpl. by rewrite F3, app_assoc. }
  assert (∀ n, n ∈ new → is_Some (active (core (reactor h)) (registration n))) as Hnew.
  { intros n Hn. destruct (F4 n Hn) as (a & Ha & _). by exists a. }
  assert (∀ r, stale (table (core (reactor h))) r → r ∉ registration <$> new) as Hfresh.
  { intros r [_ Hr] (n & -> & Hn)%list_elem_of_fmap. destruct (Hnew n Hn) as [a Ha].
    unfold active in Ha. congruence. }
  assert (NoDup (registration <$> new)) as Hnd.
  { destruct Hok as (_ & _ & Hnd & _). rewrite F3, fmap_app in Hnd. by apply NoDup_app in Hnd as (_ & _ & ?). }
  assert (∀ r, stale (table (core (reactor h))) r → active (core s) r = None) as Hgone.
  { intros r Hr. rewrite F1, decide_False by by apply Hfresh. apply Hr. }
  split; split; rewrite ?Hann; simpl; try done.
  - rewrite fmap_app. apply NoDup_app. refine (conj H2 (conj _ Hnd)).
    intros r (n & -> & Hn)%list_elem_of_fmap. apply Hfresh, H3, Hn.
  - intros n [Hn|Hn]%elem_of_app.
    + split; [apply F2; by destruct (H3 n Hn)|by apply Hgone, H3].
    + destruct (F4 n Hn) as (a & Ha & _). split.
      * apply F2. by eapply occupant_issued.
      * change (active (core s) (registration n) = None). rewrite F1, decide_True; [done|].
        by apply list_elem_of_fmap_2.
  - intros r a Ha. apply H4. rewrite F1 in Ha. by case_decide.
  - intros n [Hn|Hn]%elem_of_app; [by apply H5|].
    destruct (F4 n Hn) as (a & Ha & ->). by apply H4.
  - intros r Hr. rewrite fmap_app. intros [?|?]%elem_of_app; [done|]. by destruct (Hfresh r Hr).
Qed.

(** A cancellation finishes nothing. *)
Lemma cancelled_history h r s b l res :
  history_ok h → cancelled r (core (reactor h)) (core s) res →
  history_ok (mkHistory s b l (popped h) (owners h)) ∧ later_than h (mkHistory s b l (popped h) (owners h)).
Proof.
  intros Hh [Hok Hres]. destruct res as [ok|e]; [|by eapply finished_history, unchanged_finished].
  destruct Hres as (_ & Hact & Hiss & Hready). destruct Hh as [H1 H2 H3 H4 H5].
  assert (announced (mkHistory s b l (popped h) (owners h)) = announced h) as Hann
    by (unfold announced; simpl; by rewrite Hready).
  assert (∀ j, stale (table (core (reactor h))) j → active (core s) j = None) as Hgone.
  { intros j [_ Hj]. rewrite Hact. unfold upd. by case_decide. }
  split; split; rewrite ?Hann; simpl; try done.
  - intros n Hn. destruct (H3 n Hn). split; [by apply Hiss|by apply Hgone].
  - intros j a. rewrite Hact. unfold upd. case_decide; [done|]. apply H4.
  - intros j Hj. by apply Hiss.
Qed.

Lemma registered_history h src own r s b l :
  history_ok h → core_ok (core s) → ¬ issued_by (core (reactor h)) r →
  (∀ j, active (core s) j = upd r (Some (mkActive src own)) (active (core (reactor h))) j) →
  (∀ j, issued_by (core (reactor h)) j → issued_by (core s) j) →
  ready (core s) = ready (core (reactor h)) →
  let h' := mkHistory s b l (popped h) (<[r := own]> (owners h)) in
  history_ok h' ∧ later_than h h'.
Proof.
  intros [H1 H2 H3 H4 H5] Hok Hni Hact Hiss Hready h'.
  assert (announced h' = announced h) as Hann by (unfold announced, h'; simpl; by rewrite Hready).
  assert (∀ j, stale (table (core (reactor h))) j → j ≠ r ∧ active (core s) j = None) as Hgone.
  { intros j [Hi Hj]. assert (j ≠ r) by (by intros ->). split; [done|].
    rewrite Hact. unfold upd. by rewrite decide_False. }
  split; split; rewrite ?Hann; simpl; try done.
  - intros n Hn. pose proof (H3 n Hn) as Hst. split; [by apply Hiss, Hst|by apply Hgone].
  - intros j a. rewrite Hact. unfold upd. case_decide as Hj.
    + intros [= <-]. subst j. apply lookup_insert_eq.
    + intros Ha. rewrite lookup_insert_ne by done. by apply H4.
  - intros n Hn. rewrite lookup_insert_ne; [by apply H5|].
    intros ->. by destruct (Hgone _ (H3 n Hn)).
  - intros j Hj. by apply Hgone.
Qed.

Lemma popped_history h n s b l :
  history_ok h → core_ok (core s) → n = head (ready (core (reactor h))) →
  ready (core s) = tail (ready (core (reactor h))) → table (core s) = table (core (reactor h)) →
  let h' := mkHistory s b l (popped h ++ option_list n) (owners h) in
  history_ok h' ∧ later_than h h'.
Proof.
  intros [H1 H2 H3 H4 H5] Hok -> Hready Htab h'.
  assert (announced h' = announced h) as Hann.
  { unfold announced, h'. simpl. rewrite Hready, <-app_assoc. f_equal.
    by destruct (ready (core (reactor h))). }
  assert (∀ j, active (core s) j = active (core (reactor h)) j) as Hact
    by (intros j; unfold active; by rewrite Htab).
  split; split; rewrite ?Hann; simpl; rewrite ?Htab; try done.
  - intros j a. rewrite Hact. apply H4.
  - unfold issued_by. by rewrite Htab.
  - intros j [_ Hj]. by rewrite Hact.
Qed.

(** A part of a wait. *)
Lemma settled_history h s b l :
  history_ok h → settles (core (reactor h)) (core s) →
  let h' := mkHistory s b l (popped h) (owners h) in history_ok h' ∧ later_than h h'.
Proof. intros Hh [Hok [new Hfin]]. by eapply finished_history. Qed.

Lemma unchanged_history h s b l :
  history_ok h → core_ok (core s) → unchanged (core (reactor h)) (core s) →
  let h' := mkHistory s b l (popped h) (owners h) in history_ok h' ∧ later_than h h'.
Proof. intros Hh Hok Hun. by eapply finished_history, unchanged_finished. Qed.

Lemma handle_events_wp evs later s :
  core_ok (core s) → wp (handle_events evs later) (λ _ s', settles (core s) (core s')) s.
Proof.
  intros Hok. apply io_wp_bind. eapply io_wp_mono; [by apply each_event_wp|]. simpl.
  intros [u|e] s1 Hs1; [|done].
  destruct (fire_timers_settles later (core s1) (proj1 Hs1)) as (c & Hf & Hs).
  eapply wp_on_core; [exact Hf|]. by eapply settles_trans.
Qed.

Lemma step_history h h' : step h h' → history_ok h → history_ok h' ∧ later_than h h'.
Proof.
  intros Hstep Hh. pose proof (history_core _ Hh) as Hok.
  destruct Hstep as [h src own r s Hs|h src own e s Hs|h r res s Hs|h hd res s Hs|h r ev os res s Hs
    |h res s Hs|h now res s Hs|h timeout evs s Hb Hs|h timeout e s Hb Hs|h evs later res s Hb Hs|h n s Hs].
  - pose proof (wp_Ok _ _ _ _ _ (register_wp linux src own _ Hok) Hs) as (Hok' & Hni & Hact & Hiss & Hready).
    by eapply registered_history.
  - pose proof (wp_Ok _ _ _ _ _ (register_wp linux src own _ Hok) Hs) as [Hok' Hun].
    by apply unchanged_history.
  - pose proof (wp_Ok _ _ _ _ _ (cancel_wp linux r _ Hok) Hs) as Hc.
    cbv beta in Hc. by eapply cancelled_history.
  - pose proof (wp_Ok _ _ _ _ _ (revoke_readiness_wp linux hd _ Hok) Hs) as [Hok' Hres].
    destruct res as [u|e]; [destruct Hres as (new & Hfin & _); by eapply finished_history|].
    by apply unchanged_history.
  - pose proof (wp_Ok _ _ _ _ _ (complete_wp r ev os _ Hok) Hs) as (Hok' & [Hun|Hfin] & _).
    + by apply unchanged_history.
    + destruct Hfin as (a & n & _ & _ & _ & Hfin). by eapply finished_history.
  - unfold polled in Hs. destruct (poll_notify _) as [p e]. injection Hs as _ <-.
    by apply settled_history, settles_refl.
  - destruct (fire_timers_settles now _ Hok) as (c & Hf & Hset). unfold on_core in Hs.
    rewrite Hf in Hs. injection Hs as _ <-. by apply settled_history.
  - unfold poll_events in Hs. destruct (poll_wait _ _) as [p r]. injection Hs as _ <-.
    by apply settled_history, settles_refl.
  - unfold poll_events in Hs. destruct (poll_wait _ _) as [p r]. injection Hs as _ <-.
    by apply settled_history, settles_refl.
  - pose proof (wp_Ok _ _ _ _ _ (handle_events_wp evs later _ Hok) Hs) as Hset. by apply settled_history.
  - pose proof (wp_Ok _ _ _ _ _ (pop_ready_wp _ Hok) Hs) as (Hok' & [= ->] & Hready & Htab).
    by apply popped_history.
Qed.

Lemma later_refl h : later_than h h.
Proof. split; [done| |done]. by intros r [_ ?]. Qed.

Lemma later_trans h1 h2 h3 : later_than h1 h2 → later_than h2 h3 → later_than h1 h3.
Proof.
  intros [A1 A2 A3] [B1 B2 B3].
  assert (∀ r, stale (table (core (reactor h1))) r → stale (table (core (reactor h2))) r) as Hst.
  { intros r Hr. split; [by apply A1, Hr|by apply A2]. }
  split; auto.
Qed.

Lemma steps_history h h' : rtc step h h' → history_ok h → history_ok h' ∧ later_than h h'.
Proof.
  induction 1 as [h|h h1 h' Hs _ IH]; intros Hh; [split; [done|apply later_refl]|].
  destruct (step_history _ _ Hs Hh) as [Hh1 Hl1]. destruct (IH Hh1) as [Hh' Hl'].
  split; [exact Hh'|]. by eapply later_trans.
Qed.

(** A new reactor. *)
Definition new_history (p : P) : History P := mkHistory (mkReactor p default_core) None [] [] ∅.

Lemma new_history_ok p : history_ok (new_history p).
Proof.
  assert (∀ r, active default_core r = None) as Hn.
  { intros r. unfold active, occupant, get. simpl.
    destruct (N.ltb_spec (Slots.key r) (N.of_nat 0)); [lia|done]. }
  split; simpl; [apply default_core_ok|constructor| | |].
  - by intros n ?%elem_of_nil.
  - intros r a. by rewrite Hn.
  - by intros n ?%elem_of_nil.
Qed.

(** ** A call of [wait] is a run *)

(** The run from [h] to [h'] ends with the reactor [s], outside a wait, and pops nothing. *)
Definition runs_to h s h' : Prop :=
  rtc step h h' ∧ reactor h' = s ∧ buffer h' = buffer h ∧ popped h' = popped h.

Lemma runs_to_trans h s1 h1 s h' : runs_to h s1 h1 → runs_to h1 s h' → runs_to h s h'.
Proof. intros (R1 & _ & B1 & P1) (R2 & E2 & B2 & P2). split; [by etrans|]. split; [done|]. split; congruence. Qed.

Lemma step_runs h s h' :
  step h h' → reactor h' = s → buffer h' = buffer h → popped h' = popped h → runs_to h s h'.
Proof. intros Hs. repeat split; [by apply rtc_once|done..]. Qed.

Lemma operate_run op h r s :
  operate linux op (reactor h) = Ok (r, s) → r = Success tt ∧ ∃ h', runs_to h s h'.
Proof.
  intros Hop. assert (∃ A (m : IO P A) v, (attempt m ;; mret tt) (reactor h) = Ok (r, s) ∧
    m (reactor h) = Ok (v, s) ∧ (m (reactor h) = Ok (v, s) → ∃ h', runs_to h s h'))
    as (A & m & v & Ha & Hm & Hrun).
  { destruct op as [src own|i|hd|i ev os|]; simpl in Hop; pose proof Hop as Hop';
      apply bind_io_Ok in Hop' as (ra & s1 & (v & -> & Hm)%attempt_Ok & [= _ ->]);
      eexists _, _, v; (split; [exact Hop|]); (split; [exact Hm|]); intros _.
    - destruct v as [i|e]; eexists.
      + eapply step_runs; [by eapply step_register|done..].
      + eapply step_runs; [by eapply step_register_failed|done..].
    - eexists. eapply step_runs; [by eapply step_cancel|done..].
    - eexists. eapply step_runs; [by eapply step_revoke|done..].
    - eexists. eapply step_runs; [by eapply step_complete|done..].
    - eexists. eapply step_runs; [by eapply step_notify|done..]. }
  split; [|by apply Hrun].
  by apply bind_io_Ok in Ha as (ra & s1 & (v' & -> & _)%attempt_Ok & [= <- _]).
Qed.

Lemma meanwhile_run ops h r s :
  meanwhile linux ops (reactor h) = Ok (r, s) → r = Success tt ∧ ∃ h', runs_to h s h'.
Proof.
  revert h. induction ops as [|op ops IH]; intros h; simpl.
  { intros [= <- <-]. split; [done|]. by exists h. }
  intros (ra & s1 & (-> & h1 & Hr1)%operate_run & Hr)%bind_io_Ok.
  destruct Hr1 as (R1 & E1 & B1 & P1). rewrite <-E1 in Hr. destruct (IH _ Hr) as (-> & h2 & Hr2).
  split; [done|]. exists h2. by eapply runs_to_trans.
Qed.

Lemma fire_run now h r s :
  on_core (fire_timers now) (reactor h) = Ok (r, s) → ∃ h', runs_to h s h'.
Proof. intros Hf. eexists. eapply step_runs; [by eapply step_fire|done..]. Qed.

(** The events of a poll, handled after what other threads do. *)
Lemma poll_run timeout ops evs later h s1 u s2 r s :
  buffer h = None → poll_events timeout (reactor h) = Ok (Success evs, s1) →
  meanwhile linux ops s1 = Ok (u, s2) → handle_events evs later s2 = Ok (r, s) →
  ∃ h', runs_to h s h'.
Proof.
  intros Hb Hp Hm Hh. pose proof (step_poll h timeout evs s1 Hb Hp) as Hs1.
  change s1 with (reactor (mkHistory s1 (Some evs) (dropped h) (popped h) (owners h))) in Hm.
  apply meanwhile_run in Hm as (_ & h2 & R2 & E2 & B2 & P2). rewrite <-E2 in Hh.
  pose proof (step_handle h2 evs later r s B2 Hh) as Hs3. eexists. split.
  - eapply rtc_l; [exact Hs1|]. eapply rtc_r; [exact R2|exact Hs3].
  - split; [done|]. split; [by rewrite Hb|]. exact P2.
Qed.

Lemma wait_loop_run turns h r s :
  buffer h = None → wait_loop linux turns (reactor h) = Ok (r, s) → ∃ h', runs_to h s h'.
Proof.
  revert h. induction turns as [|t turns IH]; intros h Hb; cbn [wait_loop].
  { intros [= <- <-]. by exists h. }
  intros (r1 & s1 & (-> & h1 & Hr1)%meanwhile_run & Hr)%bind_io_Ok. pose proof Hr1 as (_ & <- & Hb1 & _).
  apply bind_io_Ok in Hr as (r2 & s2 & Hf & Hr). pose proof Hf as (h2 & Hr2)%fire_run.
  pose proof (runs_to_trans _ _ _ _ _ Hr1 Hr2) as H2. pose proof H2 as (_ & <- & Hb2 & _).
  destruct r2 as [u2|e]; [|destruct Hr as [_ ->]; by exists h2].
  apply bind_io_Ok in Hr as (r3 & s3 & [= <- <-] & Hr).
  destruct (negb _); [injection Hr as _ <-; by exists h2|].
  apply bind_io_Ok in Hr as (r4 & s4 & [= <- <-] & Hr).
  apply bind_io_Ok in Hr as (r5 & s5 & (-> & h5 & Hr5)%meanwhile_run & Hr).
  pose proof (runs_to_trans _ _ _ _ _ H2 Hr5) as H5. pose proof H5 as (_ & <- & Hb5 & _). rewrite Hb in Hb5.
  apply bind_io_Ok in Hr as (r6 & s6 & Hp & Hr). destruct r6 as [evs|e].
  2: { destruct Hr as [_ ->]. eexists. eapply runs_to_trans; [exact H5|].
       eapply step_runs; [by eapply step_poll_failed|done..]. }
  apply bind_io_Ok in Hr as (r7 & s7 & Hm & Hr).
  assert (r7 = Success tt) as ->.
  { change s6 with (reactor (at_reactor s6 h5)) in Hm. by apply meanwhile_run in Hm as [-> _]. }
  apply bind_io_Ok in Hr as (r8 & s8 & He & Hr).
  assert (∀ r9 s9, handle_events evs (later t) s7 = Ok (r9, s9) → ∃ h', runs_to h s9 h') as Hend.
  { intros r9 s9 Hh. destruct (poll_run _ _ _ _ _ _ _ _ _ _ Hb5 Hp Hm Hh) as [h9 H9].
    exists h9. by eapply runs_to_trans. }
  destruct r8 as [u8|e].
  2: { destruct Hr as [-> ->]. apply (Hend (Failure e)). unfold handle_events, mbind, io_bind. by rewrite He. }
  apply bind_io_Ok in Hr as (r9 & s9 & Hf9 & Hr). destruct (Hend r9 s9) as [h9 H9].
  { unfold handle_events, mbind, io_bind. by rewrite He. }
  pose proof H9 as (_ & <- & Hb9 & _). destruct r9 as [u9|e]; [|destruct Hr as [_ ->]; by exists h9].
  apply bind_io_Ok in Hr as (r10 & s10 & [= <- <-] & Hr).
  destruct (negb _); [injection Hr as _ <-; by exists h9|].
  destruct (_ && _); [injection Hr as _ <-; by exists h9|].
  destruct (IH h9 ltac:(congruence) Hr) as [h10 H10]. exists h10. exact (runs_to_trans _ _ _ _ _ H9 H10).
Qed.

(** A call of [wait] with whatever the other threads do meanwhile. *)
Lemma wait_run first_now too_large turns h r s :
  buffer h = None → wait linux first_now too_large turns (reactor h) = Ok (r, s) → ∃ h', runs_to h s h'.
Proof.
  intros Hb (r1 & s1 & Hf & Hr)%bind_io_Ok. pose proof Hf as (h1 & H1)%fire_run.
  pose proof H1 as (_ & <- & Hb1 & _). destruct r1 as [u|e]; [|destruct Hr as [_ ->]; by exists h1].
  apply bind_io_Ok in Hr as (r2 & s2 & [= <- <-] & Hr).
  destruct (negb _); [injection Hr as _ <-; by exists h1|].
  destruct too_large; [injection Hr as _ <-; by exists h1|].
  destruct (wait_loop_run turns h1 r s ltac:(congruence) Hr) as [h2 H2].
  exists h2. exact (runs_to_trans _ _ _ _ _ H1 H2).
Qed.
End runs.
