(* ===== verification/WaitNative.v ===== *)
(** The wait reactor against the native poller, whose interests are one-shot: under the
    documented behaviour of the polling operations, the poller knows exactly the sources of
    the reactor's handles, under their keys, and is armed for exactly their directions, through
    every failure and recovery; except that a handle whose event was taken from the poller may
    be disarmed until the event is handled. *)

From S2P Require Import Prelude Slots Wait WaitFacts WaitRuns.

(** [i'] is [i], some of its directions disarmed. *)
Definition disarmed (i' i : Interest) : Prop :=
  interest_key i' = interest_key i ∧ (reads i' = true → reads i = true) ∧
  (writes i' = true → writes i = true).

(** What a wait that reports events with the keys [ks] leaves of an interest: an event is
    delivered once, and disarms the interest that it was delivered for. *)
Definition one_shot (ks : list N) (before after : option Interest) : Prop :=
  match before, after with
  | None, None => True
  | Some i, Some i' => disarmed i' i ∧ (interest_key i ∉ ks → i' = i)
  | _, _ => False
  end.

(** The interests that were last set for the native sources, and how the operations of the
    [polling] crate change them, in the mode that [add] and [modify] set up. A failed call
    says nothing about the source it was made for, except that deleting reports a source that
    is not registered as [NotFound], and that adding is atomic on Linux. *)
Class PollerSpec (P : Type) `{Poller P} (linux : bool) := {
  native : P → gmap N Interest;
  notify_native p : native (poll_notify p).1 = native p;
  wait_native timeout p evs h : (poll_wait timeout p).2 = Success evs →
    one_shot (key <$> evs) (native p !! h) (native (poll_wait timeout p).1 !! h);
  wait_failed timeout p e : (poll_wait timeout p).2 = Failure e →
    native (poll_wait timeout p).1 = native p;
  add_native h i p : (poll_add h i p).2 = None → native (poll_add h i p).1 = <[h := i]> (native p);
  modify_native h i p :
    (poll_modify h i p).2 = None → native (poll_modify h i p).1 = <[h := i]> (native p);
  delete_native h p : (poll_delete h p).2 = None → native (poll_delete h p).1 = delete h (native p);
  delete_not_found h p e : (poll_delete h p).2 = Some e → error_kind e = NotFound →
    native (poll_delete h p).1 !! h = None;
  delete_absent h p : native p !! h = None → native (poll_delete h p).1 !! h = None;
  add_atomic h i p : linux = true → is_Some (poll_add h i p).2 → native p !! h = None →
    native (poll_add h i p).1 !! h = None;
  add_other h i p h' : h' ≠ h → native (poll_add h i p).1 !! h' = native p !! h';
  modify_other h i p h' : h' ≠ h → native (poll_modify h i p).1 !! h' = native p !! h';
  delete_other h p h' : h' ≠ h → native (poll_delete h p).1 !! h' = native p !! h' }.

Section native.
Context {P : Type} `{Poller P} (linux : bool) `{!PollerSpec P linux}.
Implicit Types (s : Reactor P).

(** The poller knows the source of a handle, and is armed for it unless the key of the handle
    is among the excepted ones. *)
Definition armed_at (exc : list N) (hd : option Handle) (i : option Interest) : Prop :=
  match hd, i with
  | None, None => True
  | Some hd, Some i => disarmed i (interest_of hd) ∧ (event_key hd ∉ exc → i = interest_of hd)
  | _, _ => False
  end.

Definition armed (exc : list N) (p : P) (hs : gmap N Handle) : Prop :=
  ∀ h, armed_at exc (hs !! h) (native p !! h).

Definition synced (exc : list N) s : Prop := armed exc (poller s) (handles (core s)).

Lemma armed_exact exc hd : armed_at exc hd (interest_of <$> hd).
Proof. by destruct hd. Qed.

Lemma armed_mono exc exc' hd i : exc ⊆ exc' → armed_at exc hd i → armed_at exc' hd i.
Proof.
  intros Hsub. destruct hd as [hd|], i as [i|]; simpl; try done. intros [Hd He].
  split; [exact Hd|]. intros Hn. apply He. by intros ?%Hsub.
Qed.

(** A poll that delivers events excepts their handles. *)
Lemma armed_polled exc ks hd i i' :
  armed_at exc hd i → one_shot ks i i' → armed_at (exc ++ ks) hd i'.
Proof.
  destruct hd as [hd|], i as [i|], i' as [i'|]; simpl; try done.
  intros [(K & R & W) He] [(K' & R' & W') He']. split.
  - split; [congruence|]. split; auto.
  - intros [Hn Hn']%not_elem_of_app. rewrite <-(He Hn). apply He'. by rewrite K.
Qed.

(** Agreement away from one handle. *)
Definition agrees_off (h : N) (p p' : P) : Prop := ∀ h', h' ≠ h → native p' !! h' = native p !! h'.

Lemma armed_off exc h p p' hs :
  armed exc p hs → agrees_off h p p' → native p' !! h = interest_of <$> hs !! h → armed exc p' hs.
Proof.
  intros Hp Hoff Hh h'. destruct (decide (h' = h)) as [->|Hne]; [|rewrite Hoff by done; apply Hp].
  rewrite Hh. apply armed_exact.
Qed.

(** The operations that keep the poller and the handles in agreement. *)
Definition keeps {A} (m : IO P A) : Prop :=
  ∀ exc s r s', synced exc s → m s = Ok (r, s') → synced exc s'.

Lemma keeps_ret {A} (v : A) : keeps (mret v).
Proof. by intros exc s r s' Hs [= _ <-]. Qed.

Lemma keeps_fail {A} e : keeps (fail e : IO P A).
Proof. by intros exc s r s' Hs [= _ <-]. Qed.

Lemma keeps_gets {A} (f : Core → A) : keeps (gets f).
Proof. by intros exc s r s' Hs [= _ <-]. Qed.

Lemma keeps_bind {A B} (m : IO P A) (k : A → IO P B) :
  keeps m → (∀ v, keeps (k v)) → keeps (m ≫= k).
Proof.
  intros Hm Hk exc s r s' Hs. unfold mbind, io_bind.
  destruct (m s) as [[[v|e] s1]| | |] eqn:E; simpl; try done.
  - intros Hr. eapply Hk; [|exact Hr]. by eapply Hm.
  - intros [= _ <-]. by eapply Hm.
Qed.

Lemma keeps_attempt {A} (m : IO P A) : keeps m → keeps (attempt m).
Proof.
  intros Hm exc s r s' Hs. unfold attempt. destruct (m s) as [[v s1]| | |] eqn:E; simpl; try done.
  intros [= _ <-]. by eapply Hm.
Qed.

Lemma keeps_modify f : (∀ c, handles (f c) = handles c) → keeps (modify f : IO P ()).
Proof. intros Hf exc s r s' Hs [= _ <-]. intros h. simpl. rewrite Hf. apply Hs. Qed.

Lemma keeps_on_core {A} (f : Core → outcome (A * Core)) :
  (∀ c v c', f c = Ok (v, c') → handles c' = handles c) → keeps (on_core f).
Proof.
  intros Hf exc s r s' Hs. unfold on_core. destruct (f (core s)) as [[v c]| | |] eqn:E; simpl; try done.
  intros [= _ <-] h. simpl. rewrite (Hf _ _ _ E). apply Hs.
Qed.

Lemma keeps_core_result {A} (f : Core → result A * Core) :
  (∀ c, handles (f c).2 = handles c) → keeps (core_result f).
Proof.
  intros Hf exc s r s' Hs. unfold core_result. specialize (Hf (core s)).
  destruct (f (core s)) as [v c]. intros [= _ <-] h. simpl in *. rewrite Hf. apply Hs.
Qed.

Lemma keeps_notify : keeps (polled poll_notify).
Proof.
  intros exc s r s' Hs. unfold polled. pose proof (notify_native (poller s)) as Hn.
  destruct (poll_notify (poller s)) as [p e]. intros [= _ <-] h. simpl in *. rewrite Hn. apply Hs.
Qed.

(** Polling excepts the handles of the events that it delivers. *)
Lemma poll_events_synced timeout exc s r s' :
  synced exc s → poll_events timeout s = Ok (r, s') →
  core s' = core s ∧
  match r with Success evs => synced (exc ++ (key <$> evs)) s' | Failure _ => synced exc s' end.
Proof.
  intros Hs. unfold poll_events. pose proof (wait_native timeout (poller s)) as Hn.
  pose proof (wait_failed timeout (poller s)) as Hf.
  destruct (poll_wait timeout (poller s)) as [p e]. intros [= <- <-]. split; [done|].
  simpl in *. destruct e as [evs|e].
  - intros h. eapply armed_polled; [apply Hs|by apply Hn].
  - unfold synced. simpl. intros h. rewrite (Hf e eq_refl). apply Hs.
Qed.

Lemma keeps_if {A} (b : bool) (m m' : IO P A) : keeps m → keeps m' → keeps (if b then m else m').
Proof. by destruct b. Qed.

Lemma keeps_foldr {A} (f : A → IO P ()) l :
  (∀ x, keeps (f x)) → keeps (foldr (λ x rest, f x ;; rest) (mret tt) l).
Proof.
  intros Hf. induction l as [|x l IH]; simpl; [apply keeps_ret|]. by apply keeps_bind.
Qed.

(** ** The core operations leave the handles alone *)

Lemma insert_handles src own c : handles (insert src own c).2 = handles c.
Proof. unfold insert. by destruct (allocate _ _) as [[r t]|]. Qed.

Lemma remove_handles r c a c' : remove r c = Ok (a, c') → handles c' = handles c.
Proof. unfold remove. intros Hr. outcome_inv. by simplify_eq. Qed.

Lemma finish_handles r ev os c u c' : finish r ev os c = Ok (u, c') → handles c' = handles c.
Proof.
  unfold finish. intros ([a c1] & Hrem & Hf)%bind_Ok_inv. injection Hf as _ <-.
  simpl. by eapply remove_handles.
Qed.

Lemma finish_events_handles ev r c u c' :
  finish_events ev r c = Ok (u, c') → handles c' = handles c.
Proof. unfold finish_events. intros (a & _ & Hf)%bind_Ok_inv. by eapply finish_handles. Qed.

Lemma fire_timers_handles limit c u c' : fire_timers limit c = Ok (u, c') → handles c' = handles c.
Proof.
  unfold fire_timers. generalize (timers c). intros ts. revert c.
  induction ts as [|[[d k] r] ts IH]; intros c; simpl; [by intros [= _ <-]|].
  destruct (limit <? d); [by intros [= _ <-]|].
  intros ([u1 c1] & Hfin & Hrest)%bind_Ok_inv. rewrite (IH _ Hrest).
  by apply finish_handles in Hfin.
Qed.

Lemma handle_at_handles h c hd c' : handle_at h c = Ok (hd, c') → handles c' = handles c.
Proof. unfold handle_at. by intros (x & _ & [= _ <-])%bind_Ok_inv. Qed.
(** ** [update_handle] *)

(** Cleaning up leaves no interest in the handle. *)
Lemma clean_up_native h s r s' :
  clean_up h s = Ok (r, s') →
  r = Success tt ∧ core s' = core s ∧ native (poller s') !! h = None ∧
  agrees_off h (poller s) (poller s').
Proof.
  intros (ra & s1 & (v & -> & [-> Hv]%polled_Ok)%attempt_Ok & Hr)%bind_io_Ok.
  assert (agrees_off h (poller s) (poll_delete h (poller s)).1) as Hoff
    by (intros h' Hne; by apply delete_other).
  destruct v as [u|e].
  - injection Hr as <- <-. refine (conj eq_refl (conj eq_refl (conj _ Hoff))). simpl.
    rewrite delete_native by done. apply lookup_delete_eq.
  - destruct (decide (error_kind e = NotFound)) as [He|]; [|done]. injection Hr as <- <-.
    refine (conj eq_refl (conj eq_refl (conj _ Hoff))). by eapply delete_not_found.
Qed.

Lemma add_back_native h previous s r s' :
  native (poller s) !! h = None → add_back h previous s = Ok (r, s') →
  core s' = core s ∧ native (poller s') !! h = interest_of <$> previous ∧
  agrees_off h (poller s) (poller s').
Proof.
  intros Hn. destruct previous as [hd|]; simpl; [|by intros [= _ <-]].
  intros (ra & s1 & (v & -> & [-> Hv]%polled_Ok)%attempt_Ok & Hr)%bind_io_Ok.
  destruct v as [u|e]; [|done]. injection Hr as _ <-. refine (conj eq_refl (conj _ _)); simpl.
  - rewrite add_native by done. apply lookup_insert_eq.
  - intros h' Hne. by apply add_other.
Qed.

(** After the recovery the poller is armed for the old interest again. *)
Lemma restore_keeps exc h p s r s' :
  armed exc p (handles (core s)) → agrees_off h p (poller s) →
  restore_interest h (handles (core s) !! h) s = Ok (r, s') → core s' = core s ∧ synced exc s'.
Proof.
  intros Hp Hoff (ra & s1 & (-> & E1 & Hn & Hoff1)%clean_up_native & Hr)%bind_io_Ok.
  apply add_back_native in Hr as (E2 & Hh & Hoff2); [|exact Hn].
  split; [by rewrite E2|]. unfold synced. rewrite E2, E1. eapply armed_off; [exact Hp| |exact Hh].
  intros h' Hne. by rewrite Hoff2, Hoff1, Hoff.
Qed.

(** An update of a handle that succeeds arms the poller for it, and leaves the others. *)
Definition rearmed exc h (c : Core) (r : result ()) s' : Prop :=
  synced exc s' ∧ (r = Success tt →
    native (poller s') !! h = interest_of <$> handles (core s') !! h ∧
    ∀ h', h' ≠ h → handles (core s') !! h' = handles c !! h').

Lemma committed_rearmed exc h next p p' c :
  armed exc p (handles c) → agrees_off h p p' →
  native p' !! h = (if unused next then None else Some (interest_of next)) →
  rearmed exc h c (Success tt) (mkReactor p' (commit_handle h (handles c !! h) next c)).
Proof.
  intros Hp Hoff Hn. unfold rearmed, synced, commit_handle.
  assert (∀ hs, native p' !! h = interest_of <$> hs !! h →
    (∀ h', h' ≠ h → hs !! h' = handles c !! h') → armed exc p' hs) as Harm.
  { intros hs Hh Ho h'. destruct (decide (h' = h)) as [->|Hne]; [rewrite Hh; apply armed_exact|].
    rewrite Ho, Hoff by done. apply Hp. }
  destruct (unused next); cbn [poller core handles with_handles].
  - assert (native p' !! h = interest_of <$> delete h (handles c) !! h) as Hh
      by by rewrite lookup_delete_eq.
    assert (∀ h', h' ≠ h → delete h (handles c) !! h' = handles c !! h') as Ho
      by (intros h' Hne; by rewrite lookup_delete_ne).
    split; [by apply Harm|by intros _].
  - assert (native p' !! h = interest_of <$> <[h := next]> (handles c) !! h) as Hh
      by by rewrite lookup_insert_eq.
    assert (∀ h', h' ≠ h → <[h := next]> (handles c) !! h' = handles c !! h') as Ho
      by (intros h' Hne; by rewrite lookup_insert_ne).
    split; [by apply Harm|by intros _].
Qed.

(** The poller call of [update_handle] and its commit. *)
Lemma poll_update_keeps exc h next p c r s' :
  armed exc p (handles c) →
  (updated ← attempt (polled (
     if unused next then poll_delete h
     else match handles c !! h with
          | Some _ => poll_modify h (interest_of next)
          | None => poll_add h (interest_of next)
          end));
   match updated with
   | Failure e =>
       if linux && bool_decide (handles c !! h = None) then fail e
       else restore_interest h (handles c !! h) ;; fail e
   | Success _ => modify (commit_handle h (handles c !! h) next)
   end) (mkReactor p c) = Ok (r, s') → rearmed exc h c r s'.
Proof.
  intros Hp (ra & s1 & (v & -> & [-> Hv]%polled_Ok)%attempt_Ok & Hr)%bind_io_Ok.
  simpl in Hr, Hv. set (f := if unused next then poll_delete h else _) in *.
  assert (agrees_off h p (f p).1) as Hoff.
  { intros h' Hne. subst f. destruct (unused next); [by apply delete_other|].
    destruct (handles c !! h); [by apply modify_other|by apply add_other]. }
  destruct v as [u|e].
  - injection Hr as <- <-. apply (committed_rearmed exc h next p); [exact Hp|exact Hoff|].
    simpl. subst f. destruct (unused next).
    + rewrite delete_native by done. apply lookup_delete_eq.
    + destruct (handles c !! h); [rewrite modify_native by done|rewrite add_native by done];
        apply lookup_insert_eq.
  - destruct (linux && _) eqn:Hl.
    + injection Hr as <- <-. split; [|done]. apply andb_true_iff in Hl as [Hl Hn%bool_decide_eq_true].
      eapply armed_off; [exact Hp|exact Hoff|]. simpl. rewrite Hn. simpl.
      assert (native p !! h = None) as Hnone.
      { pose proof (Hp h) as Hh. rewrite Hn in Hh. by destruct (native p !! h). }
      subst f. rewrite Hn in *. destruct (unused next); [by apply delete_absent|].
      apply add_atomic; [done|rewrite Hv; by eexists|done].
    + apply bind_io_Ok in Hr as (rb & s2 & Hres & Hr).
      apply (restore_keeps exc h p) in Hres as [_ Hs]; [|exact Hp|exact Hoff].
      destruct rb; [injection Hr as <- <-|destruct Hr as [-> ->]]; by split.
Qed.

Lemma update_handle_rearmed exc h next s r s' :
  synced exc s → update_handle linux h next s = Ok (r, s') → rearmed exc h (core s) r s'.
Proof.
  intros Hs. assert (∀ e s1, s1 = s → rearmed exc h (core s) (Failure e) s1) as Hfail
    by (intros e s1 ->; by split).
  unfold update_handle. intros (r1 & s1 & [= <- <-] & (r2 & s2 & Hn & Hr)%bind_io_Ok)%bind_io_Ok.
  unfold native_source in Hn.
  destruct (h <=? _); [|injection Hn as <- <-; destruct Hr as [-> ->]; by apply Hfail].
  injection Hn as <- <-. apply bind_io_Ok in Hr as (r3 & s3 & Hk & Hr).
  destruct (unused next) eqn:Hu; [injection Hk as <- <-|].
  - destruct s as [p c]. rewrite Hu in Hr. eapply (poll_update_keeps exc h next p c); [exact Hs|].
    rewrite Hu. exact Hr.
  - apply bind_io_Ok in Hk as (r4 & s4 & Hk & Hr4). unfold core_result in Hk.
    pose proof (poll_key_spec (core s)) as Hkey. destruct (poll_key (core s)) as [[k|e] c'].
    + injection Hk as <- <-. destruct Hkey as [-> ->]. injection Hr4 as <- <-.
      apply (poll_update_keeps exc h _ (poller s) (with_poll_key _ (core s)) r s' Hs Hr).
    + injection Hk as <- <-. destruct Hr4 as [-> ->]. destruct Hr as [-> ->]. subst c'.
      apply Hfail. by destruct s.
Qed.

Lemma update_handle_keeps h next : keeps (update_handle linux h next).
Proof. intros exc s r s' Hs Hu. by apply (update_handle_rearmed _ _ _ _ _ _ Hs Hu). Qed.

(** ** Every operation keeps the agreement *)

Lemma keeps_finish_pair first second f : (∀ r, keeps (f r)) → keeps (finish_pair first second f).
Proof. intros Hf. by apply keeps_foldr. Qed.

Lemma keeps_match_option {A B} (o : option A) (m : IO P B) (k : A → IO P B) :
  keeps m → (∀ v, keeps (k v)) → keeps (match o with Some v => k v | None => m end).
Proof. by destruct o. Qed.

Lemma keeps_match_result {A} (o : result ()) (k : () → IO P A) (m : IoError → IO P A) :
  (∀ v, keeps (k v)) → (∀ e, keeps (m e)) →
  keeps (match o with Success v => k v | Failure e => m e end).
Proof. by destruct o. Qed.

Lemma keeps_fire limit : keeps (on_core (fire_timers limit)).
Proof. apply keeps_on_core. intros c v c'. apply fire_timers_handles. Qed.

Lemma keeps_finish r ev os : keeps (on_core (finish r ev os)).
Proof. apply keeps_on_core. intros c v c'. apply finish_handles. Qed.

Lemma keeps_finish_events ev r : keeps (on_core (finish_events ev r)).
Proof. apply keeps_on_core. intros c v c'. apply finish_events_handles. Qed.

Lemma keeps_remove r : keeps (on_core (remove r)).
Proof. apply keeps_on_core. intros c v c'. apply remove_handles. Qed.

Lemma keeps_handle_at h : keeps (on_core (handle_at h)).
Proof. apply keeps_on_core. intros c v c'. apply handle_at_handles. Qed.

Lemma keeps_insert src own : keeps (core_result (insert src own)).
Proof. apply keeps_core_result. intros c. apply insert_handles. Qed.
End native.

Create HintDb keeps.
#[export] Hint Resolve keeps_ret keeps_fail keeps_gets keeps_attempt keeps_notify
  keeps_fire keeps_finish keeps_finish_events keeps_remove keeps_handle_at
  keeps_insert update_handle_keeps : keeps.

(** One step through the body of an operation. *)
Ltac keeps_step :=
  lazymatch goal with
  | |- keeps _ (_ ≫= _) => apply keeps_bind; [|intros ?]
  | |- keeps _ (if _ then _ else _) => apply keeps_if
  | |- keeps _ (match _ with Some _ => _ | None => _ end) => apply keeps_match_option; [|intros ?]
  | |- keeps _ (match _ with Success _ => _ | Failure _ => _ end) =>
      apply keeps_match_result; intros ?
  | |- keeps _ (finish_pair _ _ _) => apply keeps_finish_pair; intros ?
  | |- keeps _ (attempt _) => apply keeps_attempt
  | |- keeps _ (modify _) => by apply keeps_modify
  | |- keeps _ _ => solve [eauto with keeps]
  end.

Section operations.
Context {P : Type} `{Poller P} (linux : bool) `{!PollerSpec P linux}.

Lemma register_keeps src own : keeps linux (register linux src own).
Proof. unfold register. repeat keeps_step. Qed.

Lemma cancel_keeps r : keeps linux (cancel linux r).
Proof. unfold cancel. repeat keeps_step. Qed.

Lemma revoke_readiness_keeps h : keeps linux (revoke_readiness linux h).
Proof. unfold revoke_readiness. repeat keeps_step. Qed.

Lemma complete_keeps r ev os : keeps linux (complete r ev os).
Proof. unfold complete. repeat keeps_step. Qed.

Lemma notify_completion_keeps r ev os : keeps linux (notify_completion r ev os).
Proof.
  unfold notify_completion. apply keeps_bind; [apply complete_keeps|]. intros []; repeat keeps_step.
Qed.

Lemma pop_ready_keeps : keeps linux pop_ready.
Proof. unfold pop_ready. repeat keeps_step. Qed.

(** ** Delivered events *)

(** Completing registrations changes neither the poller nor the handles. *)
Lemma finish_pair_native ev first second (s s' : Reactor P) (r : result ()) :
  finish_pair first second (λ r, on_core (finish_events ev r)) s = Ok (r, s') →
  r = Success tt ∧ poller s' = poller s ∧ handles (core s') = handles (core s).
Proof.
  unfold finish_pair. generalize (pair_list first second). intros l. revert s.
  induction l as [|i l IH]; intros s; simpl; [by intros [= <- <-]|].
  intros (ra & s1 & Hf & Hr)%bind_io_Ok. unfold on_core in Hf.
  destruct (finish_events ev i (core s)) as [[u c]| | |] eqn:E; simplify_eq/=.
  destruct (IH _ Hr) as (-> & -> & ->). apply finish_events_handles in E. by split.
Qed.

(** Handling an event arms the poller for the handle that it was delivered for, if there still
    is one under its key. *)
Lemma readiness_rearmed e exc s r s' :
  core_ok (core s) → synced linux (key e :: exc) s → readiness linux e s = Ok (r, s') →
  match r with Success _ => synced linux exc s' | Failure _ => synced linux (key e :: exc) s' end.
Proof.
  intros (_ & Hl & _) Hs. unfold readiness. intros (r1 & s1 & [= <- <-] & Hr)%bind_io_Ok.
  assert (∀ h hd, handles (core s) !! h = Some hd → event_key hd = key e →
    poll_keys (core s) !! key e = Some h) as Hkey.
  { intros h hd Hh Hk. apply (keys_linked _ _ Hl). by exists hd. }
  assert (∀ hd i, armed_at (key e :: exc) (Some hd) i → event_key hd ≠ key e →
    armed_at exc (Some hd) i) as Hdrop.
  { intros hd [i|]; simpl; [|done]. intros [Hd He] Hne. split; [done|]. intros Hn. apply He. set_solver. }
  destruct (poll_keys (core s) !! key e) as [h|] eqn:Hp.
  - apply bind_io_Ok in Hr as (r2 & s2 & Hat & Hr). unfold on_core, handle_at in Hat.
    destruct (handles (core s) !! h) as [hd|] eqn:Hh; [|done]. injection Hat as <- <-.
    destruct (completed_by _ _) as [[first second] hd'].
    apply bind_io_Ok in Hr as (r3 & s3 & Hu & Hr).
    assert (mkReactor (poller s) (core s) = s) as Heta by by destruct s. rewrite Heta in Hu.
    destruct (update_handle_rearmed _ _ h hd' _ _ _ Hs Hu) as [Hs3 Hdone].
    destruct r3 as [[]|err]; [|by destruct Hr as [-> ->]].
    destruct (Hdone eq_refl) as [Hat Hoff]. apply finish_pair_native in Hr as (-> & Ep & Eh).
    intros h'. rewrite Ep, Eh. destruct (decide (h' = h)) as [->|Hne].
    { rewrite Hat. apply armed_exact. }
    pose proof (Hs3 h') as Ha. rewrite Hoff in * by done.
    destruct (handles _ !! h') as [hd2|] eqn:Hh2; [|done]. apply Hdrop; [exact Ha|].
    intros Hk. pose proof (Hkey h' hd2 Hh2 Hk). congruence.
  - injection Hr as <- <-. intros h'. pose proof (Hs h') as Ha.
    destruct (handles _ !! h') as [hd2|] eqn:Hh2; [|done]. apply Hdrop; [exact Ha|].
    intros Hk. pose proof (Hkey h' hd2 Hh2 Hk). congruence.
Qed.

(** What is left of a batch of events stays excepted. *)
Lemma each_event_rearmed evs exc s r s' :
  core_ok (core s) → synced linux (exc ++ (key <$> evs)) s → each_event linux evs s = Ok (r, s') →
  synced linux (exc ++ (key <$> unhandled linux evs s)) s'.
Proof.
  revert s. induction evs as [|e evs IH]; intros s Hok Hs; simpl; [by intros [= <- <-]|].
  intros (ra & s1 & He & Hr)%bind_io_Ok. rewrite He.
  assert (synced linux (key e :: exc ++ (key <$> evs)) s) as Hs1.
  { intros h. eapply armed_mono; [|apply Hs]. set_solver. }
  pose proof (readiness_rearmed _ _ _ _ _ Hok Hs1 He) as Hd.
  pose proof (wp_Ok _ _ _ _ _ (readiness_wp linux e s Hok) He) as [Hok1 _].
  destruct ra as [u|err]; [by apply IH|]. destruct Hr as [-> ->].
  intros h. eapply armed_mono; [|apply Hd]. set_solver.
Qed.

Lemma handle_events_rearmed evs later exc s r s' :
  core_ok (core s) → synced linux (exc ++ (key <$> evs)) s → handle_events linux evs later s = Ok (r, s') →
  synced linux (exc ++ (key <$> unhandled linux evs s)) s'.
Proof.
  intros Hok Hs (ra & s1 & He & Hr)%bind_io_Ok.
  pose proof (each_event_rearmed _ _ _ _ _ Hok Hs He) as Hs1.
  destruct ra as [u|err]; [|by destruct Hr as [_ ->]]. eapply keeps_fire; [exact Hs1|exact Hr].
Qed.

(** A wait that handles its events drops none. *)
Lemma unhandled_success evs s u s' :
  each_event linux evs s = Ok (Success u, s') → unhandled linux evs s = [].
Proof.
  revert s. induction evs as [|e evs IH]; intros s; simpl; [done|].
  intros (ra & s1 & He & Hr)%bind_io_Ok. rewrite He. destruct ra; [by apply IH|by destruct Hr].
Qed.

(** The events that were taken from the poller and have not been handled: those of a wait that
    is about to handle them, and those that a failing wait has dropped. *)
Definition in_flight (h : History P) : list N :=
  key <$> (dropped h ++ default [] (buffer h)).

Lemma step_synced h h' :
  step linux h h' → history_ok h → synced linux (in_flight h) (reactor h) →
  synced linux (in_flight h') (reactor h').
Proof.
  intros Hstep Hh Hs. pose proof (history_core _ Hh) as Hok. unfold in_flight in *.
  destruct Hstep as [h src own r s E|h src own e s E|h r res s E|h hd res s E|h r ev os res s E
    |h res s E|h now res s E|h timeout evs s Hb E|h timeout e s Hb E|h evs later res s Hb E|h n s E]; simpl.
  - by eapply register_keeps.
  - by eapply register_keeps.
  - by eapply cancel_keeps.
  - by eapply revoke_readiness_keeps.
  - by eapply complete_keeps.
  - by eapply keeps_notify.
  - by eapply keeps_fire.
  - rewrite Hb, app_nil_r in Hs. rewrite fmap_app.
    by apply (poll_events_synced linux timeout _ _ _ _ Hs E).
  - by apply (poll_events_synced linux timeout _ _ _ _ Hs E).
  - rewrite Hb, fmap_app in Hs. rewrite app_nil_r, fmap_app. by eapply handle_events_rearmed.
  - by eapply pop_ready_keeps.
Qed.

Lemma steps_synced h h' :
  rtc (step linux) h h' → history_ok h → synced linux (in_flight h) (reactor h) →
  synced linux (in_flight h') (reactor h').
Proof.
  induction 1 as [|h h1 h' Hs _ IH]; intros Hh Hsy; [done|].
  apply IH; [by apply (step_history linux _ _ Hs Hh)|by eapply step_synced].
Qed.
End operations.
