(* ===== verification/WaitSamples.v ===== *)
(** A concrete poller for the wait reactor: it keeps the interests in a map, reports the
    events it was given, and fails as a script says. *)

From S2P Require Import Prelude Slots Wait WaitFacts WaitRuns WaitNative.

(** [script]: whether each of the coming calls fails; calls beyond it succeed. *)
Record Scripted := mkScripted {
  registered : gmap N Interest; script : list bool; delivered : list Event }.

Definition next_call (p : Scripted) (error : IoError) (done : gmap N Interest)
    : Scripted * option IoError :=
  if from_option id false (head (script p))
  then (mkScripted (registered p) (tail (script p)) (delivered p), Some error)
  else (mkScripted done (tail (script p)) (delivered p), None).

Definition refused : IoError := mkError Other "refused".

(** The interests that a delivery leaves. *)
Definition disarm (ks : list N) : gmap N Interest → gmap N Interest :=
  fmap (λ i, if bool_decide (interest_key i ∈ ks) then mkInterest (interest_key i) false false else i).

#[export] Instance scripted_poller : Poller Scripted := {|
  poll_notify p := next_call p refused (registered p);
  poll_add h i p := next_call p refused (<[h := i]> (registered p));
  poll_modify h i p := next_call p refused (<[h := i]> (registered p));
  poll_delete h p :=
    match registered p !! h with
    | None => (p, Some (mkError NotFound "no such source"))
    | Some _ => next_call p refused (delete h (registered p))
    end;
  poll_wait _ p :=
    (mkScripted (disarm (key <$> delivered p) (registered p)) (script p) [], Success (delivered p)) |}.

Lemma next_call_ok p e done :
  (next_call p e done).2 = None → registered (next_call p e done).1 = done.
Proof. unfold next_call. by case_match. Qed.

Lemma next_call_failed p e done :
  is_Some (next_call p e done).2 → registered (next_call p e done).1 = registered p.
Proof. unfold next_call. case_match; [done|]. by intros []. Qed.

Lemma next_call_other p e done h :
  done !! h = registered p !! h → registered (next_call p e done).1 !! h = registered p !! h.
Proof. unfold next_call. by case_match. Qed.

#[export] Instance scripted_spec linux : PollerSpec Scripted linux.
Proof.
  apply (Build_PollerSpec _ _ _ registered).
  - intros p. simpl. unfold next_call. by case_match.
  - intros timeout p evs h. simpl. intros [= <-]. unfold disarm. rewrite lookup_fmap.
    destruct (registered p !! h) as [i|]; simpl; [|done].
    case_bool_decide as Hk; by repeat split.
  - done.
  - intros h i p. apply next_call_ok.
  - intros h i p. apply next_call_ok.
  - intros h p. simpl. destruct (registered p !! h); [apply next_call_ok|done].
  - intros h p e. simpl. destruct (registered p !! h) eqn:Hh; [|done].
    unfold next_call. case_match; [|done]. intros [= <-]. done.
  - intros h p Hh. simpl. by rewrite Hh.
  - intros h i p _ Hf Hh. simpl. by rewrite next_call_failed.
  - intros h i p h' Hne. apply next_call_other. by rewrite lookup_insert_ne.
  - intros h i p h' Hne. apply next_call_other. by rewrite lookup_insert_ne.
  - intros h p h' Hne. simpl. destruct (registered p !! h); [|done].
    apply next_call_other. by rewrite lookup_delete_ne.
Defined.

(** The reactor after a computation that succeeds. *)
Definition state_after {A} (m : IO Scripted A) (s : Reactor Scripted) : Reactor Scripted :=
  match m s with Ok (_, s') => s' | _ => s end.

Definition fresh (script : list bool) (events : list Event) : Reactor Scripted :=
  mkReactor (mkScripted ∅ script events) default_core.

Definition timer_source (deadline : N) : WaitSource := mkSource KIND_TIMER 0 0 deadline.
Definition read_source (h : N) : WaitSource := mkSource KIND_READINESS READABLE h 0.
Definition both_source (h : N) : WaitSource :=
  mkSource KIND_READINESS (N.lor READABLE WRITABLE) h 0.
Definition completion_source : WaitSource := mkSource KIND_COMPLETION 0 0 0.

(** ** Runs that mirror the unit tests of the reactor *)

(** A timer that is due is announced by [wait] without entering the poller. *)
Example timer_fires :
  match (register true (timer_source 5) 7 ;; wait true 5 false []) (fresh [] []) with
  | Ok (Success n, s) => n = Some 1 ∧ ready (core s) = [mkReady (mkId 0 1) 7 TIMER 0]
  | _ => False
  end.
Proof. vm_compute. by split. Qed.

(** A readable event completes the registration, rearms nothing and removes the interest. *)
Example readiness_fires :
  let turn := alone 0 None 0 false in
  let event := mkEvent 1 true false false None in
  match (register true (read_source 3) 7 ;; wait true 0 false [turn]) (fresh [] [event]) with
  | Ok (Success n, s) =>
      n = Some 1 ∧ ready (core s) = [mkReady (mkId 0 1) 7 READABLE 0] ∧
      handles (core s) = ∅ ∧ registered (poller s) = ∅
  | _ => False
  end.
Proof. vm_compute. by repeat split. Qed.

(** A second registration of the same direction is refused. *)
Example overlap_refused :
  match (register true (read_source 3) 7 ;; register true (both_source 3) 8) (fresh [] []) with
  | Ok (Failure e, s) => error_kind e = AlreadyExists
  | _ => False
  end.
Proof. vm_compute. reflexivity. Qed.

(** When the poller refuses to add the interest, the registration is undone. *)
Example failed_add_is_undone :
  match register true (read_source 3) 7 (fresh [false; true] []) with
  | Ok (Failure e, s) => e = refused ∧ active (core s) (mkId 0 1) = None ∧ handles (core s) = ∅
  | _ => False
  end.
Proof. vm_compute. by repeat split. Qed.

(** When it refuses to change the interest, the old interest is restored. *)
Example failed_cancel_is_restored :
  match (register true (read_source 3) 7 ;; cancel true (mkId 0 1))
          (fresh [false; false; false; true; false; false] []) with
  | Ok (Failure e, s) =>
      is_Some (active (core s) (mkId 0 1)) ∧ registered (poller s) !! 3 = Some (mkInterest 1 true false)
  | _ => False
  end.
Proof. vm_compute. split; [by eexists|done]. Qed.
