(* ===== verification/Tasks.v ===== *)
(** The task scheduler of [compiler/runtime/src/tasks.rs], with the observation groups of
    [tasks_observation.rs] and the outcomes of [tasks_outcomes.rs]: a tree of hot tasks under
    one root, a queue of runnable tasks, and the operations that generated code calls from
    the task that is being resumed. Task frames are frame roots, external waits are
    registrations of the wait reactor. The code that generated functions and worker jobs run
    is a parameter. The submission of parallel computations, socket leases and native
    providers are left out. *)

From S2P Require Import Prelude Text Slots.
From S2P Require FrameRoots Wait.

(** ** Data *)

Record OwnedFault := mkFault { message : bytes; test_name : option bytes }.

Record TaskCleanup := mkCleanup { site : Z; callback : N }.

Inductive State :=
  | Queued
  | Running
  | Waiting (child : N)
  | Observing
  | ExternalWaiting
  | Completed (order : N)
  | Faulted (failure : OwnedFault) (order : N)
  | Cancelled (order : N).

Definition terminal_order (s : State) : option N :=
  match s with
  | Completed order | Faulted _ order | Cancelled order => Some order
  | _ => None
  end.

Record ExternalWait := mkExternal {
  wait_source : Wait.WaitSource;
  registration : Id;
  wait_ready : option Wait.ReadyNotification }.

Record Observation := mkObservation {
  members : gmap N Z;
  group_ready : list (N * N);
  selected_fault : option N;
  selected_index : option Z }.

Definition default_observation : Observation := mkObservation ∅ [] None None.

(** [operation] identifies the blocking job of the task, [computation] its parallel job. *)
Record Task := mkTask {
  frame : Id;
  resume : N;
  parent_of : option N;
  children : list N;
  returned : N;
  returned_to_parent : bool;
  result_extracted : bool;
  cleanups : list TaskCleanup;
  waiter : option N;
  observation : option Observation;
  state : State;
  external : option ExternalWait;
  operation : option N;
  computation : option N;
  creation : bytes }.

Record Core := mkCore {
  tasks : gmap N Task;
  ready : list N;
  current : option N;
  root : option N;
  next : N;
  pending : N }.

Definition default_core : Core := mkCore ∅ [] None None 0 0.

(** ** Updates of one field *)

Definition with_tasks ts c := mkCore ts (ready c) (current c) (root c) (next c) (pending c).
Definition with_ready r c := mkCore (tasks c) r (current c) (root c) (next c) (pending c).
Definition with_current i c := mkCore (tasks c) (ready c) i (root c) (next c) (pending c).
Definition with_root r c := mkCore (tasks c) (ready c) (current c) r (next c) (pending c).
Definition with_next n c := mkCore (tasks c) (ready c) (current c) (root c) n (pending c).
Definition with_pending n c := mkCore (tasks c) (ready c) (current c) (root c) (next c) n.

(** The fields of a task that the tree is made of, and the others, changed one at a time. *)
Definition set_parent p t := mkTask (frame t) (resume t) p (children t) (returned t)
  (returned_to_parent t) (result_extracted t) (cleanups t) (waiter t) (observation t) (state t)
  (external t) (operation t) (computation t) (creation t).
Definition set_children l t := mkTask (frame t) (resume t) (parent_of t) l (returned t)
  (returned_to_parent t) (result_extracted t) (cleanups t) (waiter t) (observation t) (state t)
  (external t) (operation t) (computation t) (creation t).
Definition set_returned n t := mkTask (frame t) (resume t) (parent_of t) (children t) n
  (returned_to_parent t) (result_extracted t) (cleanups t) (waiter t) (observation t) (state t)
  (external t) (operation t) (computation t) (creation t).
Definition set_returned_to_parent b t := mkTask (frame t) (resume t) (parent_of t) (children t)
  (returned t) b (result_extracted t) (cleanups t) (waiter t) (observation t) (state t)
  (external t) (operation t) (computation t) (creation t).
Definition set_result_extracted b t := mkTask (frame t) (resume t) (parent_of t) (children t)
  (returned t) (returned_to_parent t) b (cleanups t) (waiter t) (observation t) (state t)
  (external t) (operation t) (computation t) (creation t).
Definition set_cleanups l t := mkTask (frame t) (resume t) (parent_of t) (children t) (returned t)
  (returned_to_parent t) (result_extracted t) l (waiter t) (observation t) (state t)
  (external t) (operation t) (computation t) (creation t).
Definition set_waiter w t := mkTask (frame t) (resume t) (parent_of t) (children t) (returned t)
  (returned_to_parent t) (result_extracted t) (cleanups t) w (observation t) (state t)
  (external t) (operation t) (computation t) (creation t).
Definition set_observation o t := mkTask (frame t) (resume t) (parent_of t) (children t) (returned t)
  (returned_to_parent t) (result_extracted t) (cleanups t) (waiter t) o (state t)
  (external t) (operation t) (computation t) (creation t).
Definition set_state s t := mkTask (frame t) (resume t) (parent_of t) (children t) (returned t)
  (returned_to_parent t) (result_extracted t) (cleanups t) (waiter t) (observation t) s
  (external t) (operation t) (computation t) (creation t).
Definition set_external e t := mkTask (frame t) (resume t) (parent_of t) (children t) (returned t)
  (returned_to_parent t) (result_extracted t) (cleanups t) (waiter t) (observation t) (state t)
  e (operation t) (computation t) (creation t).
Definition set_operation o t := mkTask (frame t) (resume t) (parent_of t) (children t) (returned t)
  (returned_to_parent t) (result_extracted t) (cleanups t) (waiter t) (observation t) (state t)
  (external t) o (computation t) (creation t).
Definition set_computation j t := mkTask (frame t) (resume t) (parent_of t) (children t) (returned t)
  (returned_to_parent t) (result_extracted t) (cleanups t) (waiter t) (observation t) (state t)
  (external t) (operation t) j (creation t).

Definition running (t : Task) : bool := match state t with Running => true | _ => false end.
Definition terminal (t : Task) : bool := bool_decide (is_Some (terminal_order (state t))).

(** ** The owner *)

(** What the scheduler calls and does not define: a generated cleanup on its frame, with the
    relocation that the collections during the call apply to the frame roots, the cancellation
    of a blocking job, that of a parallel job with the fault the job ended with, and the
    question whether a parallel job completed before it saw a cancellation. *)
Class Native (W : Type) := {
  run_cleanup : N → N → W → W * (N → N) * option OwnedFault;
  cancel_and_drain : N → W → W;
  drain_computation : N → W → W * option OwnedFault;
  complete_before_cancel : N → W → W * bool }.

Record Owner (P W : Type) := mkOwner {
  core : Core; roots : FrameRoots.Store; reactor : Wait.Reactor P; world : W }.
Arguments mkOwner {P W} core roots reactor world.
Arguments core {P W} o.
Arguments roots {P W} o.
Arguments reactor {P W} o.
Arguments world {P W} o.

(** [Result<A, &'static str>] of the operations: [Invalid] is raised as a fault in the
    generated code, with the effects that came before it. *)
Inductive answer (A : Type) := Done (v : A) | Invalid (why : string).
Arguments Done {A} v.
Arguments Invalid {A} why.

Definition Act (P W A : Type) : Type := Owner P W → outcome (answer A * Owner P W).

#[export] Instance act_ret P W : MRet (Act P W) := λ A v o, Ok (Done v, o).
#[export] Instance act_bind P W : MBind (Act P W) := λ A B k m o,
  '(r, o) ← m o;
  match r with Done v => k v o | Invalid why => Ok (Invalid why, o) end.

Section acts.
Context {P W : Type}.

Definition reject {A} (why : string) : Act P W A := λ o, Ok (Invalid why, o).
Definition fatal {A} (why : string) : Act P W A := λ _, Panic why.
Definition stuck {A} : Act P W A := λ _, Stuck.
Definition gets {A} (f : Core → A) : Act P W A := λ o, Ok (Done (f (core o)), o).
Definition modify (f : Core → Core) : Act P W () :=
  λ o, Ok (Done tt, mkOwner (f (core o)) (roots o) (reactor o) (world o)).

(** [if cond { return Err(why) }] *)
Definition reject_if (cond : bool) (why : string) : Act P W () :=
  if cond then reject why else mret tt.

(** [assert!(cond)] *)
Definition assert (cond : bool) : Act P W () :=
  if cond then mret tt else fatal "assertion failed".

(** [o.ok_or(why)?] and [o.expect(why)] *)
Definition or_reject {A} (x : option A) (why : string) : Act P W A :=
  match x with Some v => mret v | None => reject why end.
Definition expect {A} (x : option A) (why : string) : Act P W A :=
  match x with Some v => mret v | None => fatal why end.

(** A call of the frame roots, outside collection, and of the reactor. *)
Definition on_roots {A} (f : FrameRoots.Store → outcome (A * FrameRoots.Store)) : Act P W A := λ o,
  '(v, s) ← f (roots o); Ok (Done v, mkOwner (core o) s (reactor o) (world o)).
Definition on_reactor {A} (m : Wait.IO P A) : Act P W (Wait.result A) := λ o,
  '(v, r) ← m (reactor o); Ok (Done v, mkOwner (core o) (roots o) r (world o)).

(** A step of the code outside the scheduler. *)
Definition on_world {A} (f : W → W * A) : Act P W A := λ o,
  let '(w, v) := f (world o) in Ok (Done v, mkOwner (core o) (roots o) (reactor o) w).

(** [core.tasks[&id]], and a change of that entry through [get_mut(&id).unwrap()]. *)
Definition task (id : N) : Act P W Task :=
  t ← gets (λ c, tasks c !! id); expect t "no entry found for key".
Definition put (id : N) (t : Task) : Act P W () := modify (λ c, with_tasks (<[id := t]> (tasks c)) c).
Definition update (id : N) (f : Task → Task) : Act P W () := t ← task id; put id (f t).

(** [core.current.ok_or(why)?] *)
Definition current_or (why : string) : Act P W N := i ← gets current; or_reject i why.

(** The pointer that a live frame retains. *)
Definition frame_pointer (id : Id) (why : string) : Act P W N :=
  p ← on_roots (λ s, v ← FrameRoots.get_root s id; Ok (v, s)); expect p why.

(** [assert!(self.roots().remove(frame))] *)
Definition drop_frame (id : Id) : Act P W () :=
  removed ← on_roots (λ s, FrameRoots.remove false s id); assert removed.
End acts.

Definition push_ready (id : N) (c : Core) : Core := with_ready (ready c ++ [id]) c.
Definition push_ready_front (id : N) (c : Core) : Core := with_ready (id :: ready c) c.

(** ** Observation groups *)

Section observation.
Context {P W : Type}.

Definition contains (c : Core) (parent child : N) : outcome bool :=
  t ← or_panic (tasks c !! parent) "no entry found for key";
  Ok (match observation t with
      | Some group => bool_decide (is_Some (members group !! child))
      | None => false
      end).

(** The group without a child that is going away. *)
Definition forget (child : N) (order : option N) (g : Observation) : Observation :=
  mkObservation (delete child (members g))
    (match order with Some o => pset_remove (o, child) (group_ready g) | None => group_ready g end)
    (if selected_fault g =! Some child then None else selected_fault g)
    (selected_index g).

Definition observation_remove (child : N) : Act P W () :=
  t ← task child;
  match parent_of t with
  | None => mret tt
  | Some p => update p (λ tp, set_observation (forget child (terminal_order (state t)) <$> observation tp) tp)
  end.

(** [group.ready.insert(x)] under [assert!]. *)
Definition announce (x : N * N) (g : Observation) : Act P W Observation :=
  assert (bool_decide (x ∉ group_ready g)) ;;
  mret (mkObservation (members g) (pset_insert x (group_ready g)) (selected_fault g) (selected_index g)).

(** [completed]: [false] for a child that its parent does not observe. *)
Definition observation_completed (parent child : N) : Act P W bool :=
  t ← task child;
  let faulted := match state t with Faulted _ _ => true | _ => false end in
  order ← expect (terminal_order (state t)) "terminal child";
  tp ← task parent;
  match observation tp with
  | Some group =>
      if bool_decide (is_Some (members group !! child)) then
        group ← announce (order, child) group;
        (match state tp with
         | Observing =>
             put parent (set_state Queued (set_observation (Some group) tp)) ;;
             modify (if faulted then push_ready_front parent else push_ready parent)
         | _ => put parent (set_observation (Some group) tp)
         end) ;;
        mret true
      else mret false
  | None => mret false
  end.
End observation.

(** ** Cancellation and cleanup *)

Definition append_creation (failure : OwnedFault) (creation : bytes) : OwnedFault :=
  match creation with
  | [] => failure
  | _ => mkFault (message failure ++ x0a :: creation) (test_name failure)
  end.

Section cancellation.
Context {P W : Type} `{Wait.Poller P} `{Native W} (linux : bool).

Definition cancel_operation (id : N) : Act P W (option OwnedFault) :=
  t ← task id;
  update id (set_operation None) ;;
  (match operation t with
   | Some job => on_world (λ w, (cancel_and_drain job w, tt))
   | None => mret tt
   end) ;;
  t ← task id;
  update id (set_computation None) ;;
  match computation t with
  | Some job => on_world (drain_computation job)
  | None => mret None
  end.

(** [if first.is_none() { first = failure }] *)
Definition first_fault (first failure : option OwnedFault) : option OwnedFault :=
  match first with Some _ => first | None => failure end.

(** [core.pending -= 1] *)
Definition finish_pending : Act P W () := λ o,
  n ← sub_checked (pending (core o)) 1;
  Ok (Done tt, mkOwner (with_pending n (core o)) (roots o) (reactor o) (world o)).

Definition cancel_wait (id : N) : Act P W () :=
  t ← task id;
  update id (set_external None) ;;
  match external t with
  | None => mret tt
  | Some w =>
      match wait_ready w with
      | Some _ => mret tt
      | None =>
          r ← on_reactor (Wait.cancel linux (registration w));
          match r with
          | Wait.Failure _ => fatal "failed to cancel task wait"
          | Wait.Success _ => finish_pending
          end
      end
  end.

(** The generated callback on the frame's pointer, under [catch_fault]. *)
Definition call_cleanup (callback ptr : N) : Act P W (option OwnedFault) := λ o,
  let '(w, move, failure) := run_cleanup callback ptr (world o) in
  let '(_, s) := FrameRoots.trace (λ (_ : ()) p, (tt, move p)) tt (roots o) in
  Ok (Done failure, mkOwner (core o) s (reactor o) w).

(** [Vec::pop] *)
Definition pop {A} (l : list A) : option (A * list A) :=
  match last l with Some x => Some (x, removelast l) | None => None end.

(** The loop of [drain_cleanups]; every turn pops one cleanup. *)
Fixpoint drain_loop (fuel : nat) (id : N) (first : option OwnedFault) : Act P W (option OwnedFault) :=
  match fuel with
  | O => stuck
  | S fuel =>
      t ← gets (λ c, tasks c !! id);
      t ← expect t "live task cleanup";
      match pop (cleanups t) with
      | None => mret first
      | Some (cleanup, rest) =>
          put id (set_cleanups rest t) ;;
          ptr ← frame_pointer (frame t) "rooted task cleanup frame";
          previous ← gets current;
          modify (with_current None) ;;
          outcome ← call_cleanup (callback cleanup) ptr;
          modify (with_current previous) ;;
          drain_loop fuel id
            (match first, outcome with
             | None, Some failure => Some (append_creation failure (creation t))
             | _, _ => first
             end)
      end
  end.

Definition drain_cleanups (id : N) (first : option OwnedFault) : Act P W (option OwnedFault) :=
  t ← gets (λ c, tasks c !! id);
  t ← expect t "live task cleanup";
  drain_loop (S (length (cleanups t))) id first.

(** The second visit of a task in [cancel_tree], when its children are gone. *)
Definition retire (id : N) (first : option OwnedFault) : Act P W (option OwnedFault) :=
  cancel_wait id ;;
  failure ← cancel_operation id;
  first ← drain_cleanups id (first_fault first failure);
  observation_remove id ;;
  t ← gets (λ c, tasks c !! id);
  t ← expect t "live cancelled task";
  modify (λ c, with_tasks (delete id (tasks c)) c) ;;
  (match parent_of t with
   | None => mret tt
   | Some p =>
       tp ← gets (λ c, tasks c !! p);
       tp ← expect tp "live task parent";
       put p (set_children (oset_remove id (children tp)) tp)
   end) ;;
  drop_frame (frame t) ;;
  mret first.

(** The loop of [cancel_tree] over its stack, the top first. *)
Fixpoint cancel_loop (fuel : nat) (stack : list (N * bool)) (first : option OwnedFault)
    : Act P W (option OwnedFault) :=
  match stack with
  | [] => mret first
  | (id, expanded) :: stack =>
      match fuel with
      | O => stuck
      | S fuel =>
          if (expanded : bool) then first ← retire id first; cancel_loop fuel stack first
          else
            t ← gets (λ c, tasks c !! id);
            t ← expect t "live cancelled task";
            cancel_loop fuel (rev ((λ c, (c, false)) <$> children t) ++ (id, true) :: stack) first
      end
  end.

(** Every task is visited twice. *)
Definition cancel_tree (id : N) (first : option OwnedFault) : Act P W (option OwnedFault) := λ o,
  cancel_loop (2 * size (tasks (core o))) [(id, false)] first o.

(** One turn per remaining child. *)
Fixpoint descendants_loop (fuel : nat) (id : N) (first : option OwnedFault)
    : Act P W (option OwnedFault) :=
  t ← task id;
  match head (children t) with
  | None => mret first
  | Some child =>
      match fuel with
      | O => stuck
      | S fuel => first ← cancel_tree child first; descendants_loop fuel id first
      end
  end.

Definition cancel_descendants (id : N) (first : option OwnedFault) : Act P W (option OwnedFault) := λ o,
  descendants_loop (size (tasks (core o))) id first o.

(** ** Resuming *)

Definition next_stamp : Act P W N :=
  n ← gets (λ c, checked_add (next c) 1);
  n ← expect n "task identities exhausted";
  modify (with_next n) ;; mret n.

(** [None] is [Ok(())]. *)
Definition validate_return (id : N) (status : Z) : Act P W (option string) :=
  t ← task id;
  let children_done := lengthN (children t) =? returned t in
  let waiting := match external t with Some w => bool_decide (wait_ready w = None) | None => false end in
  mret (
    if (status =! 0)%Z then
      if running t && children_done && bool_decide (external t = None)
         && bool_decide (operation t = None) && forallb (λ c, (site c =! -1)%Z) (cleanups t)
      then None
      else Some "task completed with outstanding children or wait"
    else if (status =! 1)%Z then
      match state t with
      | Waiting _ | Observing =>
          if bool_decide (external t = None) && (returned t =? 0) then None
          else Some "invalid task resume state"
      | ExternalWaiting =>
          if (returned t =? 0) && waiting then None else Some "invalid task resume state"
      | _ => Some "invalid task resume state"
      end
    else Some "invalid task resume state").

(** The outcome of a resume: its status, or the fault it ended with. *)
Inductive Resumed := Status (status : Z) | Failed (failure : OwnedFault).

(** Waking the waiter of a task that has become terminal. *)
Definition wake_waiter (id : N) : Act P W () :=
  t ← task id;
  let priority := match state t with Faulted _ _ => true | _ => false end in
  match waiter t with
  | None => mret tt
  | Some parent =>
      observed ← observation_completed parent id;
      if (observed : bool) then mret tt
      else
        tp ← gets (λ c, tasks c !! parent);
        tp ← expect tp "live task waiter";
        match state tp with
        | Waiting child =>
            if child =? id then
              put parent (set_state Queued tp) ;;
              modify (if priority then push_ready_front parent else push_ready parent)
            else fatal "invalid task waiter state"
        | _ => fatal "invalid task waiter state"
        end
  end.

Definition finish_resume (id : N) (outcome : Resumed) : Act P W () :=
  modify (with_current None) ;;
  match outcome with
  | Failed failure =>
      first ← drain_cleanups id (Some failure);
      failure ← expect first "called `Option::unwrap()` on a `None` value";
      order ← next_stamp;
      update id (λ t, set_state (Faulted (append_creation failure (creation t)) order) t) ;;
      wake_waiter id
  | Status status =>
      if (status =! 0)%Z then
        order ← next_stamp;
        update id (set_state (Completed order)) ;;
        wake_waiter id
      else if (status =! 1)%Z then mret tt
      else fatal "unchecked task resume state"
  end.

(** The hook that runs before the stack of a faulting resume unwinds. *)
Definition before_resume_fault : Act P W () :=
  id ← gets current;
  id ← expect id "faulting task activation";
  cancel_descendants id None ;;
  cancel_wait id ;;
  cancel_operation id ;;
  mret tt.

(** The end of [resume_task], when the generated resume has returned [status] or faulted; an
    invalid status is a fault of the resume with the fixed message. *)
Definition end_resume (id : N) (outcome : Resumed) (invalid : string → OwnedFault) : Act P W () :=
  match outcome with
  | Status status =>
      verdict ← validate_return id status;
      match verdict with
      | None => finish_resume id (Status status)
      | Some why => before_resume_fault ;; finish_resume id (Failed (invalid why))
      end
  | Failed failure => before_resume_fault ;; finish_resume id (Failed failure)
  end.

(** ** Driving *)

(** The queue from the first identity that still names a task. *)
Fixpoint dequeue (ts : gmap N Task) (queue : list N) : option (N * list N) :=
  match queue with
  | [] => None
  | id :: queue => if bool_decide (is_Some (ts !! id)) then Some (id, queue) else dequeue ts queue
  end.

(** What [drive] does next: finish with the root, resume a task, or block in [poll]. *)
Inductive Next := Finish (failure : option OwnedFault) | Resume (id : N) (frame : Id) (resume : N) | Block.

Definition schedule (root : N) : Act P W Next :=
  t ← task root;
  let finished :=
    match state t with
    | Completed _ => Some None
    | Faulted failure _ => Some (Some failure)
    | _ => None
    end in
  match finished with
  | Some failure =>
      modify (λ c, with_tasks (delete root (tasks c)) c) ;;
      c ← gets id;
      assert (bool_decide (children t = []) && bool_decide (tasks c = ∅) && (pending c =? 0)) ;;
      drop_frame (frame t) ;;
      modify (λ c, with_ready [] (with_root None c)) ;;
      mret (Finish failure)
  | None =>
      c ← gets id;
      match dequeue (tasks c) (ready c) with
      | Some (i, queue) =>
          modify (with_ready queue) ;;
          t ← task i;
          match state t with
          | Queued =>
              put i (set_state Running t) ;;
              modify (with_current (Some i)) ;;
              mret (Resume i (frame t) (resume t))
          | _ => fatal "invalid ready task state"
          end
      | None =>
          modify (with_ready []) ;;
          if pending c =? 0 then fatal "task wait has no runnable dependency" else mret Block
      end
  end.

(** One notification of [poll]. *)
Definition deliver (n : Wait.ReadyNotification) : Act P W () :=
  let id := Wait.ready_owner n in
  t ← gets (λ c, tasks c !! id);
  match t with
  | None => mret tt
  | Some t =>
      match external t with
      | None => mret tt
      | Some w =>
          if (match state t with ExternalWaiting => false | _ => true end)
             || (registration w <>! Wait.registration n) || bool_decide (is_Some (wait_ready w))
          then mret tt
          else
            put id (set_state Queued
              (set_external (Some (mkExternal (wait_source w) (registration w) (Some n))) t)) ;;
            finish_pending ;;
            modify (push_ready id)
      end
  end.

Fixpoint deliver_loop (fuel : nat) : Act P W () :=
  match fuel with
  | O => stuck
  | S fuel =>
      n ← on_reactor Wait.pop_ready;
      match n with
      | Wait.Success (Some n) => deliver n ;; deliver_loop fuel
      | _ => mret tt
      end
  end.

(** The loop of [poll] empties the ready queue of the reactor. What a worker publishes during
    the loop is taken as published behind it; the next [poll] finds it. *)
Definition deliver_all : Act P W () := λ o,
  deliver_loop (S (length (Wait.ready (Wait.core (reactor o))))) o.

(** [poll], with the clock readings and the turns of the reactor's wait, which say what other
    threads do to the reactor in its gaps; the result is that
    of the wait, and [Some 0] when there is nothing to wait for. *)
Definition poll (now : N) (turns : list Wait.Turn) : Act P W (Wait.result (option N)) :=
  c ← gets id;
  if pending c =? 0 then mret (Wait.Success (Some 0))
  else
    r ← on_reactor (Wait.wait linux now false turns);
    match r with
    | Wait.Success (Some n) => deliver_all ;; mret r
    | _ => mret r
    end.

(** The end of the owner when its wait failed; the fault is that of the wait. *)
Definition abandon (root : N) (failure : OwnedFault) : Act P W OwnedFault :=
  first ← cancel_tree root (Some failure);
  modify (λ c, with_ready [] (with_root None c)) ;;
  expect first "called `Option::unwrap()` on a `None` value".

(** ** The whole program *)

(** The generated code: the resume functions by their identity, on the frame's pointer. The
    message of a fault, and that of a wait which failed, are made outside. *)
Section program.
Context (generated : N → N → Act P W Resumed).
Context (fault_of : string → OwnedFault) (wait_fault : Wait.IoError → OwnedFault).

(** [catch_fault]: an operation that the scheduler refuses is a fault of the code. *)
Definition catch_fault {A} (m : Act P W (A + OwnedFault)) : Act P W (A + OwnedFault) := λ o,
  '(r, o) ← m o;
  Ok (Done (match r with Done v => v | Invalid why => inr (fault_of why) end), o).

Definition resume_task (id : N) (frame : Id) (resume : N) : Act P W () :=
  ptr ← frame_pointer frame "rooted task frame";
  r ← catch_fault (r ← generated resume ptr; mret (inl r));
  end_resume id (match r with inl outcome => outcome | inr failure => Failed failure end) fault_of.

(** [complete_before_cancel] of the parallel computations: a job that completed before it saw
    the cancellation keeps its outcome, and the task is resumed to take it. *)
Definition parallel_complete_before_cancel (id : N) : Act P W bool :=
  t ← task id;
  match computation t with
  | None => mret false
  | Some job =>
      complete ← on_world (complete_before_cancel job);
      if negb complete then mret false
      else
        parent ← gets current;
        modify (with_current (Some id)) ;;
        modify (λ c, with_ready (filter (λ queued, queued ≠ id) (ready c)) c) ;;
        t ← task id;
        put id (set_waiter None (set_state Running t)) ;;
        resume_task id (frame t) (resume t) ;;
        modify (with_current parent) ;;
        update id (set_waiter (waiter t)) ;;
        t ← task id;
        if terminal t then mret true else fatal "worker completion wrapper suspended"
  end.

(** [drive]: every turn polls without blocking, and resumes one task or polls again. The clock
    and the turns of the waits are inputs; [None] is the answer when they are used up. *)
Fixpoint drive (inputs : list ((N * list Wait.Turn) * (N * list Wait.Turn))) (root : N)
    : Act P W (option (option OwnedFault)) :=
  match inputs with
  | [] => mret None
  | ((now, turns), (later, blocked)) :: inputs =>
      r ← poll now turns;
      match r with
      | Wait.Failure e => failure ← abandon root (wait_fault e); mret (Some (Some failure))
      | Wait.Success None => mret None
      | Wait.Success (Some _) =>
          next ← schedule root;
          match next with
          | Finish failure => mret (Some failure)
          | Resume id frame resume => resume_task id frame resume ;; drive inputs root
          | Block =>
              r ← poll later blocked;
              match r with
              | Wait.Failure e => failure ← abandon root (wait_fault e); mret (Some (Some failure))
              | Wait.Success None => mret None
              | Wait.Success (Some _) => drive inputs root
              end
          end
      end
  end.

(** [task_run] on a fresh owner: the constructor makes the root, and the root is driven. *)
Definition task_run (constructor : Act P W (N + OwnedFault))
    (inputs : list ((N * list Wait.Turn) * (N * list Wait.Turn))) : Act P W (option (option OwnedFault)) :=
  made ← catch_fault (
    made ← constructor;
    match made with
    | inl id =>
        root_ ← gets root;
        reject_if (root_ <>! Some id) "async entry constructor returned a different task" ;;
        mret (inl id)
    | inr failure => mret (inr failure)
    end);
  match made with
  | inl id => drive inputs id
  | inr failure =>
      root_ ← gets root;
      modify (with_root None) ;;
      first ← match root_ with
              | Some id => cancel_tree id (Some failure)
              | None => mret (Some failure)
              end;
      modify (with_ready []) ;;
      failure ← expect first "called `Option::unwrap()` on a `None` value";
      mret (Some (Some failure))
  end.
End program.
End cancellation.

(** ** The operations of generated code *)

(** [parent]: the task being resumed, if [child] is one of its children. *)
Definition parent {P W} (child : N) : Act P W N :=
  p ← current_or "task operation outside a resume";
  t ← gets (λ c, tasks c !! child);
  t ← or_reject t "task already consumed";
  reject_if (parent_of t <>! Some p) "task belongs to another parent" ;;
  mret p.

Section operations.
Context {P W : Type} `{Wait.Poller P} `{Native W} (linux : bool).

Definition loom_rt_task_cleanup_push (site : Z) (callback : N) : Act P W () :=
  id ← current_or "task cleanup outside a resume";
  t ← task id;
  reject_if ((site <? 0)%Z || negb (running t)) "invalid task cleanup registration" ;;
  put id (set_cleanups (cleanups t ++ [mkCleanup site callback]) t).

Definition loom_rt_task_result_cleanup_push (callback : N) : Act P W () :=
  id ← current_or "task result cleanup outside a resume";
  t ← task id;
  reject_if (negb (running t)) "invalid task result cleanup registration" ;;
  put id (set_cleanups (cleanups t ++ [mkCleanup (-1) callback]) t).

(** [iter().rposition(|cleanup| cleanup.site == site)], removed from the vector. *)
Fixpoint remove_last_site (site_ : Z) (l : list TaskCleanup) : option (list TaskCleanup) :=
  match l with
  | [] => None
  | c :: l =>
      match remove_last_site site_ l with
      | Some l => Some (c :: l)
      | None => if bool_decide (site c = site_) then Some l else None
      end
  end.

Definition loom_rt_task_cleanup_pop (site : Z) : Act P W () :=
  id ← current_or "task cleanup outside a resume";
  t ← task id;
  reject_if ((site <? 0)%Z || negb (running t)) "invalid task cleanup registration order" ;;
  rest ← or_reject (remove_last_site site (cleanups t)) "invalid task cleanup registration order";
  put id (set_cleanups rest t).

(** Moving a child, with its subtree, to another parent. *)
Definition reparent (child previous next : N) : Act P W () :=
  tp ← task previous;
  put previous (set_children (oset_remove child (children tp)) tp) ;;
  assert (bool_decide (child ∈ children tp)) ;;
  tn ← task next;
  put next (set_children (oset_insert child (children tn)) tn) ;;
  assert (bool_decide (child ∉ children tn)) ;;
  update child (λ t, set_returned_to_parent false (set_parent (Some next) t)).

Definition loom_rt_task_adopt (callee child : N) : Act P W () :=
  current ← parent callee;
  _ ← parent child;
  t ← task current;
  reject_if (negb (running t) || bool_decide (is_Some (external t)))
    "task transfer requires a running caller" ;;
  reject_if (callee =? child) "task cannot adopt itself" ;;
  tc ← task callee;
  tx ← task child;
  reject_if (negb (match state tc with Queued => true | _ => false end)
             || bool_decide (is_Some (waiter tc)) || bool_decide (is_Some (waiter tx))
             || returned_to_parent tx)
    "task adoption requires a queued callee and unawaited child" ;;
  reparent child current callee.

Definition loom_rt_task_return (child : N) : Act P W N :=
  current ← parent child;
  t ← task current;
  reject_if (bool_decide (parent_of t = None)) "async entry cannot return a Task" ;;
  reject_if (negb (running t) || bool_decide (is_Some (external t)))
    "task return requires a running producer" ;;
  tx ← task child;
  reject_if (returned_to_parent tx || bool_decide (is_Some (waiter tx)))
    "task return requires a distinct unawaited child" ;;
  put child (set_returned_to_parent true tx) ;;
  update current (λ t, set_returned (returned t + 1) t) ;;
  mret child.

Definition loom_rt_task_create (ptr resume : N) (creation : bytes) : Act P W N :=
  parent ← gets current;
  root_ ← gets root;
  (match parent with
   | Some p =>
       t ← task p;
       reject_if (negb (running t)) "task created after a pending await"
   | None =>
       reject_if (bool_decide (is_Some root_)) "async entry constructor must create one root task"
   end) ;;
  id ← next_stamp;
  frame ← on_roots (λ s, FrameRoots.insert false s ptr);
  put id (mkTask frame resume parent [] 0 false false [] None None Queued None None None creation) ;;
  (match parent with
   | Some p => update p (λ t, set_children (oset_insert id (children t)) t)
   | None => modify (with_root (Some id))
   end) ;;
  modify (push_ready id) ;;
  mret id.

Definition loom_rt_task_await (child : N) : Act P W bool :=
  parent ← parent child;
  c ← gets id;
  observed ← (λ o, r ← contains c parent child; Ok (Done r, o));
  reject_if observed "select an observed task before awaiting it" ;;
  tp ← task parent;
  reject_if (bool_decide (is_Some (external tp))) "task already has an external wait" ;;
  reject_if (negb (match state tp with
                   | Running => true
                   | Waiting i => i =? child
                   | _ => false
                   end))
    "task already awaits another child" ;;
  t ← task child;
  reject_if (returned_to_parent t) "cannot await a returned task before extraction" ;;
  reject_if (match waiter t with Some w => negb (w =? parent) | None => false end)
    "task already has a waiter" ;;
  let ready := terminal t in
  put child (set_waiter (Some parent) t) ;;
  (if ready then mret tt else update parent (set_state (Waiting child))) ;;
  mret ready.

Definition loom_rt_task_peek_result (child : N) : Act P W N :=
  parent ← parent child;
  t ← task child;
  reject_if (waiter t <>! Some parent) "task result requires await" ;;
  reject_if (result_extracted t) "task result already extracted" ;;
  reject_if (negb (match state t with Completed _ => true | _ => false end))
    "task result is not completed" ;;
  frame_pointer (frame t) "rooted task result".

(** The loop of [task_result] that hands the returned children to the consumer. *)
Fixpoint hand_over (fuel : nat) (child parent : N) : Act P W () :=
  t ← task child;
  match head (children t) with
  | None => mret tt
  | Some returned =>
      match fuel with
      | O => stuck
      | S fuel =>
          r ← task returned;
          reject_if ((parent_of r <>! Some child) || bool_decide (is_Some (waiter r))
                     || negb (returned_to_parent r))
            "task result is not an unawaited child" ;;
          reparent returned child parent ;;
          hand_over fuel child parent
      end
  end.

(** The frame of a completed task, or the fault of a faulted one to raise again. *)
Definition loom_rt_task_result (child : N) : Act P W (N + OwnedFault) :=
  parent ← parent child;
  t ← task child;
  reject_if (waiter t <>! Some parent) "task result requires await" ;;
  match state t with
  | Completed _ =>
      reject_if (result_extracted t) "task result already extracted" ;;
      (if negb (returned t =? 0) then
         reject_if (negb (lengthN (children t) =? returned t)) "task result already extracted" ;;
         hand_over (length (children t)) child parent
       else mret tt) ;;
      update child (λ t, set_cleanups [] (set_result_extracted true t)) ;;
      ptr ← frame_pointer (frame t) "rooted task result";
      mret (inl ptr)
  | Faulted failure _ => mret (inr failure)
  | _ => reject "task result is not ready"
  end.

Definition loom_rt_task_release (child : N) : Act P W () :=
  parent ← parent child;
  t ← task child;
  reject_if ((waiter t <>! Some parent) || negb (terminal t))
    "task release requires a terminal awaited result" ;;
  reject_if (negb (bool_decide (children t = []))) "task release requires extracting its Task result" ;;
  reject_if (negb (bool_decide (cleanups t = [])))
    "task release requires extracting its resource result" ;;
  modify (λ c, with_tasks (delete child (tasks c)) c) ;;
  update parent (λ tp, set_children (oset_remove child (children tp)) tp) ;;
  drop_frame (frame t).

(** *** External waits *)

Definition same_source (a b : Wait.WaitSource) : bool :=
  (Wait.kind a =? Wait.kind b) && (Wait.interests a =? Wait.interests b)
  && (Wait.handle a =? Wait.handle b) && (Wait.deadline_ns a =? Wait.deadline_ns b).

(** [wait_source] without a socket lease; the error is that of the reactor. *)
Definition task_wait_source (src : Wait.WaitSource)
    : Act P W (Wait.result (option Wait.ReadyNotification)) :=
  id ← current_or "task wait outside a resume";
  t ← task id;
  reject_if (negb (running t || match state t with ExternalWaiting => true | _ => false end))
    "task already awaits a child" ;;
  match external t with
  | Some w =>
      reject_if (negb (same_source (wait_source w) src)) "task already has another external wait" ;;
      (match wait_ready w with
       | Some _ => put id (set_state Running (set_external None t))
       | None => mret tt
       end) ;;
      mret (Wait.Success (wait_ready w))
  | None =>
      r ← on_reactor (Wait.register linux src id);
      match r with
      | Wait.Success reg =>
          put id (set_state ExternalWaiting (set_external (Some (mkExternal src reg None)) t)) ;;
          modify (λ c, with_pending (pending c + 1) c) ;;
          mret (Wait.Success None)
      | Wait.Failure e => mret (Wait.Failure e)
      end
  end.

Definition loom_rt_task_wait_timer (deadline : Z) : Act P W (Wait.result bool) :=
  reject_if (deadline <? 0)%Z "timer deadline must not be negative" ;;
  r ← task_wait_source (Wait.mkSource Wait.KIND_TIMER 0 0 (Z.to_N deadline));
  match r with
  | Wait.Success n => mret (Wait.Success (bool_decide (is_Some n)))
  | Wait.Failure e => mret (Wait.Failure e)
  end.

(** *** Observation *)

Definition loom_rt_task_observe (child : N) (index : Z) : Act P W N :=
  parent ← parent child;
  tp ← task parent;
  reject_if ((index <? 0)%Z || negb (running tp))
    "task observation requires a running parent and nonnegative index" ;;
  t ← task child;
  reject_if (returned_to_parent t || bool_decide (is_Some (waiter t)))
    "task observation requires an unawaited child" ;;
  put child (set_waiter (Some parent) t) ;;
  tp ← task parent;
  let group := default default_observation (observation tp) in
  assert (bool_decide (members group !! child = None)) ;;
  let group := mkObservation (<[child := index]> (members group)) (group_ready group)
                 (selected_fault group) (selected_index group) in
  group ← match terminal_order (state t) with
          | Some order => announce (order, child) group
          | None => mret group
          end;
  put parent (set_observation (Some group) tp) ;;
  mret child.

Definition loom_rt_task_wait_next : Act P W bool :=
  id ← current_or "task observation outside a resume";
  t ← task id;
  reject_if (negb (running t || match state t with Observing => true | _ => false end)
             || bool_decide (is_Some (external t)))
    "task already has another wait" ;;
  group ← or_reject (observation t) "no observed tasks";
  reject_if (bool_decide (members group = ∅)) "no observed tasks" ;;
  let ready := negb (bool_decide (group_ready group = [])) in
  put id (set_state (if ready then Running else Observing) t) ;;
  mret ready.

(** Taking the first notification of the group of [t]. *)
Definition select (t : Task) (why : string) (index_of : Z → option Z)
    : Act P W (N * Z * Observation) :=
  group ← or_reject (observation t) "no observed tasks";
  '(_, child) ← or_reject (head (group_ready group)) why;
  index ← expect (members group !! child) "registered completion";
  mret (child, index,
    mkObservation (delete child (members group)) (tail (group_ready group)) None (index_of index)).

Definition loom_rt_task_next_result : Act P W Z :=
  id ← current_or "task observation outside a resume";
  t ← task id;
  reject_if (negb (running t)) "task observation result is not ready" ;;
  '(child, index, group) ← select t "task observation result is not ready" (λ _, None);
  put id (set_observation (Some group) t) ;;
  update child (set_waiter None) ;;
  mret index.

Definition loom_rt_task_next_terminal_result : Act P W Z :=
  id ← current_or "task observation outside a resume";
  t ← task id;
  reject_if (negb (running t)) "task terminal result is not ready" ;;
  '(child, index, group) ← select t "task terminal result is not ready" Some;
  put id (set_observation (Some group) t) ;;
  tc ← task child;
  status ← match state tc with
           | Completed _ => mret 0%Z
           | Faulted _ _ =>
               put id (set_observation (Some (mkObservation (members group) (group_ready group)
                 (Some child) (selected_index group))) t) ;;
               mret 1%Z
           | Cancelled _ => mret 2%Z
           | _ => fatal "registered terminal completion"
           end;
  update child (set_waiter None) ;;
  mret status.

Definition loom_rt_task_next_terminal_index : Act P W Z :=
  id ← current_or "task observation outside a resume";
  t ← task id;
  reject_if (negb (running t)) "task terminal index is not ready" ;;
  index ← or_reject (group ← observation t; selected_index group) "task terminal index is not ready";
  put id (set_observation
    ((λ g, mkObservation (members g) (group_ready g) (selected_fault g) None) <$> observation t) t) ;;
  mret index.

Definition failure_bytes (failure : OwnedFault) : bytes :=
  match test_name failure with
  | Some name => b "FAIL " ++ name ++ [x0a]
  | None => []
  end ++ message failure.

(** The bytes of the text that the operation makes. *)
Definition loom_rt_task_next_terminal_failure : Act P W bytes :=
  id ← current_or "task observation outside a resume";
  t ← task id;
  reject_if (negb (running t)) "task fault data requires a running observer" ;;
  group ← or_reject (observation t) "no observed tasks";
  child ← or_reject (selected_fault group) "no selected observed fault";
  put id (set_observation (Some (mkObservation (members group) (group_ready group) None
    (selected_index group))) t) ;;
  tc ← task child;
  match state tc with
  | Faulted failure _ => mret (failure_bytes failure)
  | _ => reject "selected observed task is not faulted"
  end.

(** *** Outcomes *)

(** The fault to raise, unless it is suppressed. *)
Definition loom_rt_task_drain (child : N) (suppress : Z) : Act P W (option OwnedFault) :=
  current ← parent child;
  t ← task current;
  tc ← task child;
  reject_if (negb (running t) || returned_to_parent tc)
    "task drain requires a running parent and its unconsumed child" ;;
  failure ← cancel_tree linux child None;
  mret (if (suppress =! 0)%Z then failure else None).

Definition awaited (child : N) : Act P W Task :=
  current ← parent child;
  t ← task child;
  reject_if ((waiter t <>! Some current) || negb (terminal t))
    "task outcome requires a terminal awaited child" ;;
  mret t.

Definition loom_rt_task_status (child : N) : Act P W Z :=
  t ← awaited child;
  match state t with
  | Completed _ => mret 0%Z
  | Faulted _ _ => mret 1%Z
  | Cancelled _ => mret 2%Z
  | _ => fatal "internal error: entered unreachable code"
  end.

Definition loom_rt_task_failure (child : N) : Act P W bytes :=
  t ← awaited child;
  match state t with
  | Faulted failure _ => mret (failure_bytes failure)
  | _ => reject "task fault data requires a faulted child"
  end.

Definition loom_rt_task_cancel_begin (generated : N → N → Act P W Resumed)
    (fault_of : string → OwnedFault) (child : N) : Act P W () :=
  current ← parent child;
  caller ← task current;
  t ← task child;
  reject_if (negb (running caller) || bool_decide (is_Some (external caller)) || returned_to_parent t
             || match waiter t with Some w => negb (w =? current) | None => false end)
    "task cancellation requires a running parent and its unconsumed child" ;;
  observation_remove child ;;
  update child (set_waiter (Some current)) ;;
  if terminal t then mret tt
  else
  complete ← parallel_complete_before_cancel linux generated fault_of child;
  if (complete : bool) then mret tt
  else
    first ← cancel_descendants linux child None;
    cancel_wait linux child ;;
    failure ← cancel_operation child;
    first ← drain_cleanups child (first_fault first failure);
    order ← next_stamp;
    update child (set_state (match first with
                             | Some failure => Faulted failure order
                             | None => Cancelled order
                             end)).
End operations.
