(* ===== verification/TaskInv.v ===== *)
(** The tree of tasks: parents and children name each other, and every chain of parents
    ends. The facts that bound traversals of the tree: a task is not its own ancestor, and
    there is induction from the children to the parent. *)

From S2P Require Import Prelude Text Slots Tasks.
From S2P Require FrameRoots Wait WaitFacts.
From Stdlib Require Import Sorted.

(** The two views of the tree. *)
Definition par (ts : gmap N Task) (x : N) : option N := t ← ts !! x; parent_of t.
Definition kids (ts : gmap N Task) (p : N) : list N := from_option children [] (ts !! p).

(** [Reach ts x]: the chain of parents of [x] ends. *)
Inductive Reach (ts : gmap N Task) (x : N) : Prop :=
  | reach_root : par ts x = None → Reach ts x
  | reach_child p : par ts x = Some p → Reach ts p → Reach ts x.

(** [Above ts a x]: [a] is a proper ancestor of [x]. *)
Inductive Above (ts : gmap N Task) (a x : N) : Prop :=
  | above_parent : par ts x = Some a → Above ts a x
  | above_step p : par ts x = Some p → Above ts a p → Above ts a x.

Record tree_ok (ts : gmap N Task) : Prop := {
  tree_links p x : x ∈ kids ts p ↔ par ts x = Some p;
  tree_sorted p : StronglySorted N.lt (kids ts p);
  tree_reach x : Reach ts x }.

(** ** Ancestors *)

Section ancestors.
Context (ts : gmap N Task).
Implicit Types (a p x : N).

Lemma above_inv a x p : par ts x = Some p → Above ts a x → a = p ∨ Above ts a p.
Proof. intros Hp Ha. destruct Ha as [Ha|q Hq Ha]; simplify_eq; [by left|by right]. Qed.

Lemma above_root a x : par ts x = None → ¬ Above ts a x.
Proof. intros Hp Ha. destruct Ha; simplify_eq. Qed.

Lemma above_trans a x y : Above ts a x → Above ts x y → Above ts a y.
Proof. intros Ha. induction 1 as [y Hp|y p Hp _ IH]; by eapply above_step. Qed.

(** A chain that ends does not go round. *)
Lemma above_irrefl x : Reach ts x → ¬ Above ts x x.
Proof.
  induction 1 as [x Hp|x p Hp _ IH]; intros Ha; [by eapply above_root|]. apply IH.
  destruct (above_inv _ _ _ Hp Ha) as [->|Ha']; [by apply above_parent|].
  eapply above_trans; [by apply above_parent|exact Ha'].
Qed.

(** *** Depth *)

Inductive Depth : nat → N → Prop :=
  | depth_root x : par ts x = None → Depth 0 x
  | depth_child n x p : par ts x = Some p → Depth n p → Depth (S n) x.

Lemma reach_depth x : Reach ts x → ∃ n, Depth n x.
Proof. induction 1 as [x Hp|x p Hp _ [n IH]]; eexists; by econstructor. Qed.

Lemma depth_fun n m x : Depth n x → Depth m x → n = m.
Proof.
  intros Hn. revert m. induction Hn as [x Hp|n x p Hp _ IH]; intros m Hm;
    inversion Hm; simplify_eq; [done|]. f_equal. auto.
Qed.

Lemma depth_bound :
  (∀ x, Reach ts x) → ∃ bound, ∀ x n, Depth n x → (n ≤ bound)%nat.
Proof.
  intros Hreach.
  assert (∀ l : list N, ∃ bound, ∀ x n, x ∈ l → Depth n x → (n ≤ bound)%nat) as Hlist.
  { induction l as [|y l [bound Hb]].
    - exists 0%nat. by intros x n ?%elem_of_nil.
    - destruct (reach_depth y (Hreach y)) as [d Hd]. exists (Nat.max d bound).
      intros x n [->|Hx]%elem_of_cons Hn.
      + pose proof (depth_fun _ _ _ Hd Hn). lia.
      + specialize (Hb _ _ Hx Hn). lia. }
  destruct (Hlist (elements (dom ts))) as [bound Hb]. exists bound. intros x n Hn.
  inversion Hn as [|m y p Hp]; subst; [lia|]. apply (Hb x); [|done].
  apply elem_of_elements, elem_of_dom. unfold par in Hp. by destruct (ts !! x).
Qed.
End ancestors.

Section facts.
Context (ts : gmap N Task) (Hok : tree_ok ts).

(** Induction from the children to the parent. *)
Lemma tree_induction (Q : N → Prop) : (∀ x, (∀ y, y ∈ kids ts x → Q y) → Q x) → ∀ x, Q x.
Proof.
  intros Hstep. destruct (depth_bound ts (tree_reach _ Hok)) as [bound Hb].
  assert (∀ k x n, (bound - n < k)%nat → Depth ts n x → Q x) as Hall.
  { induction k as [|k IH]; intros x n Hk Hn; [lia|].
    apply Hstep. intros y Hy. apply (tree_links _ Hok) in Hy.
    assert (Depth ts (S n) y) as Hdy by by econstructor.
    pose proof (Hb _ _ Hdy). apply (IH y (S n)); [lia|done]. }
  intros x. destruct (reach_depth ts x (tree_reach _ Hok x)) as [n Hn].
  by apply (Hall (S (bound - n)) x n); [lia|].
Qed.

Lemma kids_live p x : x ∈ kids ts p → is_Some (ts !! x) ∧ is_Some (ts !! p).
Proof.
  intros Hx. split; [|unfold kids in Hx; destruct (ts !! p); [by eexists|by apply elem_of_nil in Hx]].
  apply (tree_links _ Hok) in Hx. unfold par in Hx. destruct (ts !! x); [by eexists|done].
Qed.

Lemma not_own_parent x : par ts x ≠ Some x.
Proof. intros Hx. apply (above_irrefl ts x (tree_reach _ Hok x)). by apply above_parent. Qed.

Lemma tree_kids_NoDup p : NoDup (kids ts p).
Proof. apply oset_sorted_NoDup, (tree_sorted _ Hok). Qed.
End facts.

(** ** Heights *)

Fixpoint height_le (ts : gmap N Task) (n : nat) (x : N) : Prop :=
  ∀ y, y ∈ kids ts x → match n with O => False | S n => height_le ts n y end.

Lemma height_mono ts n m x : (n ≤ m)%nat → height_le ts n x → height_le ts m x.
Proof.
  revert m x. induction n as [|n IH]; intros m x Hm Hn.
  - destruct m; intros y Hy; by destruct (Hn y Hy).
  - destruct m as [|m]; [lia|]. intros y Hy. apply IH; [lia|]. by apply (Hn y).
Qed.

Lemma tree_height ts x : tree_ok ts → ∃ n, height_le ts n x.
Proof.
  intros Hok. revert x. apply (tree_induction ts Hok). intros x IH.
  assert (∀ l : list N, (∀ y, y ∈ l → ∃ n, height_le ts n y) → ∃ n, ∀ y, y ∈ l → height_le ts n y)
    as Hmax.
  { induction l as [|z l IHl]; intros Hl; [exists 0%nat; by intros y ?%elem_of_nil|].
    destruct IHl as [n Hn]; [intros y Hy; apply Hl; by right|].
    destruct (Hl z) as [m Hm]; [left|]. exists (Nat.max n m).
    intros y [->|Hy]%elem_of_cons.
    - eapply height_mono; [|exact Hm]. lia.
    - eapply height_mono; [|exact (Hn y Hy)]. lia. }
  destruct (Hmax (kids ts x) IH) as [n Hn]. exists (S n). exact Hn.
Qed.

(** [ts'] has lost tasks of [ts]; what is left has kept its place. *)
Record pruned (ts ts' : gmap N Task) : Prop := {
  pruned_par x : is_Some (ts' !! x) → par ts' x = par ts x;
  pruned_live x : is_Some (ts' !! x) → is_Some (ts !! x);
  pruned_kids p x : x ∈ kids ts' p → x ∈ kids ts p }.

Lemma pruned_refl ts : pruned ts ts.
Proof. by split. Qed.

Lemma pruned_trans ts ts1 ts2 : pruned ts ts1 → pruned ts1 ts2 → pruned ts ts2.
Proof.
  intros [A1 A2 A3] [B1 B2 B3]. split; [|auto|auto]. intros x Hx. rewrite B1, A1; auto.
Qed.

Lemma pruned_height ts ts' n x : pruned ts ts' → height_le ts n x → height_le ts' n x.
Proof.
  intros Hp. revert x. induction n as [|n IH]; intros x Hn y Hy;
    apply (pruned_kids _ _ Hp) in Hy; [by destruct (Hn y Hy)|]. apply IH. by apply (Hn y).
Qed.

Lemma par_live ts x p : par ts x = Some p → is_Some (ts !! x).
Proof. unfold par. destruct (ts !! x); [by eexists|done]. Qed.

Lemma pruned_above ts ts' a x : pruned ts ts' → Above ts' a x → Above ts a x.
Proof.
  intros Hp. induction 1 as [x Hx|x p Hx _ IH]; pose proof (par_live _ _ _ Hx) as Hl;
    rewrite (pruned_par _ _ Hp) in Hx by exact Hl; [by apply above_parent|by eapply above_step].
Qed.

(** ** Changes of the tree *)

(** Only the places in the tree matter. *)
Lemma tree_ext ts ts' :
  (∀ x, par ts' x = par ts x) → (∀ p, kids ts' p = kids ts p) → tree_ok ts → tree_ok ts'.
Proof.
  intros Hpar Hkids [H1 H2 H3]. split.
  - intros p x. by rewrite Hpar, Hkids.
  - intros p. by rewrite Hkids.
  - intros x. specialize (H3 x). induction H3 as [x Hx|x p Hx _ IH];
      [by apply reach_root; rewrite Hpar|]. eapply reach_child; [by rewrite Hpar|exact IH].
Qed.

Section changes.
Context (ts ts' : gmap N Task) (Hok : tree_ok ts).

(** A new leaf below [p]. *)
Lemma tree_add x p :
  ts !! x = None → is_Some (ts !! p) →
  (∀ y, par ts' y = if decide (y = x) then Some p else par ts y) →
  (∀ q, kids ts' q = if decide (q = p) then oset_insert x (kids ts p) else kids ts q) →
  tree_ok ts'.
Proof.
  intros Hx Hp Hpar Hkids. assert (par ts x = None) as Hnone by (unfold par; by rewrite Hx).
  assert (kids ts x = []) as Hleaf by (unfold kids; by rewrite Hx).
  split.
  - intros q y. rewrite Hpar, Hkids. pose proof (tree_links _ Hok q y) as Hl.
    repeat case_decide; subst; rewrite ?oset_insert_elem; naive_solver.
  - intros q. rewrite Hkids. case_decide; [apply oset_insert_sorted|]; apply (tree_sorted _ Hok).
  - assert (∀ y, Reach ts y → y ≠ x → Reach ts' y) as Hreach.
    { induction 1 as [y Hy|y q Hy Hq IH]; intros Hne.
      - apply reach_root. by rewrite Hpar, decide_False.
      - eapply reach_child; [by rewrite Hpar, decide_False|]. apply IH. intros ->.
        apply (tree_links _ Hok) in Hy. rewrite Hleaf in Hy. by apply elem_of_nil in Hy. }
    intros y. destruct (decide (y = x)) as [->|Hne]; [|by apply Hreach, Hne; apply (tree_reach _ Hok)].
    eapply reach_child; [by rewrite Hpar, decide_True|]. apply Hreach; [apply (tree_reach _ Hok)|].
    intros ->. by rewrite Hx in Hp.
Qed.

(** Removing a leaf. *)
Lemma tree_remove x :
  kids ts x = [] →
  (∀ y, par ts' y = if decide (y = x) then None else par ts y) →
  (∀ q, kids ts' q = oset_remove x (kids ts q)) →
  tree_ok ts'.
Proof.
  intros Hleaf Hpar Hkids. split.
  - intros q y. rewrite Hpar, Hkids, oset_remove_elem. pose proof (tree_links _ Hok q y) as Hl.
    case_decide; naive_solver.
  - intros q. rewrite Hkids. apply oset_remove_sorted, (tree_sorted _ Hok).
  - intros y. pose proof (tree_reach _ Hok y) as Hy. induction Hy as [y Hy|y p Hy _ IH].
    + apply reach_root. rewrite Hpar. by case_decide.
    + destruct (decide (y = x)) as [->|Hne]; [apply reach_root; by rewrite Hpar, decide_True|].
      eapply reach_child; [by rewrite Hpar, decide_False|exact IH].
Qed.

(** Moving [x], with its subtree, from [p] to [q], which is outside of it. *)
Lemma tree_move x p q :
  par ts x = Some p → q ≠ x → ¬ Above ts x q → p ≠ q →
  (∀ y, par ts' y = if decide (y = x) then Some q else par ts y) →
  (∀ z, kids ts' z = if decide (z = q) then oset_insert x (kids ts q)
                     else if decide (z = p) then oset_remove x (kids ts p) else kids ts z) →
  tree_ok ts'.
Proof.
  intros Hx Hqx Hnot Hpq Hpar Hkids. split.
  - intros z y. rewrite Hpar, Hkids. pose proof (tree_links _ Hok z y) as Hl.
    repeat case_decide; subst; rewrite ?oset_insert_elem, ?oset_remove_elem; naive_solver.
  - intros z. rewrite Hkids. repeat case_decide;
      [apply oset_insert_sorted|apply oset_remove_sorted|]; apply (tree_sorted _ Hok).
  - (* First the tasks outside the subtree, then those inside. *)
    assert (∀ y, Reach ts y → y ≠ x → ¬ Above ts x y → Reach ts' y) as Hout.
    { induction 1 as [y Hy|y r Hy _ IH]; intros Hne Hab.
      - apply reach_root. by rewrite Hpar, decide_False.
      - eapply reach_child; [by rewrite Hpar, decide_False|]. apply IH.
        + intros ->. apply Hab. by apply above_parent.
        + intros Ha. apply Hab. by eapply above_step. }
    assert (Reach ts' x) as Hhere.
    { eapply reach_child; [by rewrite Hpar, decide_True|]. by apply Hout; [apply (tree_reach _ Hok)|..]. }
    intros y. pose proof (tree_reach _ Hok y) as Hy. induction Hy as [y Hy|y r Hy _ IH].
    + destruct (decide (y = x)) as [->|Hne]; [done|]. apply reach_root. by rewrite Hpar, decide_False.
    + destruct (decide (y = x)) as [->|Hne]; [done|].
      eapply reach_child; [by rewrite Hpar, decide_False|exact IH].
Qed.
End changes.

(** The invariant of the scheduler, in parts that each speak about a few views of the task
    map: the tree, the waits and observations, the run queue, the returned children, the
    external waits and the frames. A task in [D] is doomed: the operation under way is
    removing or ending it, and it may have broken what binds it to its children. *)

(** ** Views *)

Definition st (ts : gmap N Task) (x : N) : option State := state <$> ts !! x.
Definition ord (ts : gmap N Task) (x : N) : option N := s ← st ts x; terminal_order s.
Definition wt (ts : gmap N Task) (x : N) : option N := t ← ts !! x; waiter t.
Definition group (ts : gmap N Task) (x : N) : Observation :=
  default default_observation (t ← ts !! x; observation t).
Definition mems (ts : gmap N Task) (p : N) : gmap N Z := members (group ts p).
Definition grp (ts : gmap N Task) (p : N) : list (N * N) := group_ready (group ts p).
Definition flag (ts : gmap N Task) (x : N) : bool := from_option returned_to_parent false (ts !! x).
Definition ret (ts : gmap N Task) (x : N) : N := from_option returned 0 (ts !! x).
Definition extr (ts : gmap N Task) (x : N) : bool := from_option result_extracted false (ts !! x).
Definition ext (ts : gmap N Task) (x : N) : option ExternalWait := t ← ts !! x; external t.
Definition live (ts : gmap N Task) (x : N) : Prop := is_Some (ts !! x).

(** An external wait that has not been notified. *)
Definition pends (t : Task) : bool :=
  match external t with Some w => bool_decide (wait_ready w = None) | None => false end.

(** The views of a task that is in the map. *)
Lemma views_at ts x t :
  ts !! x = Some t →
  st ts x = Some (state t) ∧ wt ts x = waiter t ∧ par ts x = parent_of t ∧ kids ts x = children t ∧
  group ts x = default default_observation (observation t) ∧ flag ts x = returned_to_parent t ∧
  ret ts x = returned t ∧ extr ts x = result_extracted t ∧ ext ts x = external t ∧ live ts x.
Proof.
  intros Ht. unfold st, wt, par, kids, group, flag, ret, extr, ext, live. rewrite Ht. simpl.
  split_and!; try done.
Qed.

(** How the views change with the map. *)
Section view_changes.
Context (ts : gmap N Task) (i : N) (t : Task) (x : N).

Lemma st_insert : st (<[i := t]> ts) x = if decide (x = i) then Some (state t) else st ts x.
Proof. unfold st. rewrite lookup_insert. repeat case_decide; congruence || done. Qed.
Lemma wt_insert : wt (<[i := t]> ts) x = if decide (x = i) then waiter t else wt ts x.
Proof. unfold wt. rewrite lookup_insert. repeat case_decide; congruence || done. Qed.
Lemma par_insert : par (<[i := t]> ts) x = if decide (x = i) then parent_of t else par ts x.
Proof. unfold par. rewrite lookup_insert. repeat case_decide; congruence || done. Qed.
Lemma kids_insert : kids (<[i := t]> ts) x = if decide (x = i) then children t else kids ts x.
Proof. unfold kids. rewrite lookup_insert. repeat case_decide; congruence || done. Qed.
Lemma group_insert :
  group (<[i := t]> ts) x =
    if decide (x = i) then default default_observation (observation t) else group ts x.
Proof. unfold group. rewrite lookup_insert. repeat case_decide; congruence || done. Qed.
Lemma flag_insert : flag (<[i := t]> ts) x = if decide (x = i) then returned_to_parent t else flag ts x.
Proof. unfold flag. rewrite lookup_insert. repeat case_decide; congruence || done. Qed.
Lemma ret_insert : ret (<[i := t]> ts) x = if decide (x = i) then returned t else ret ts x.
Proof. unfold ret. rewrite lookup_insert. repeat case_decide; congruence || done. Qed.
Lemma extr_insert : extr (<[i := t]> ts) x = if decide (x = i) then result_extracted t else extr ts x.
Proof. unfold extr. rewrite lookup_insert. repeat case_decide; congruence || done. Qed.
Lemma ext_insert : ext (<[i := t]> ts) x = if decide (x = i) then external t else ext ts x.
Proof. unfold ext. rewrite lookup_insert. repeat case_decide; congruence || done. Qed.
Lemma live_insert : live (<[i := t]> ts) x ↔ x = i ∨ live ts x.
Proof.
  unfold live. rewrite lookup_insert. case_decide as Hx; [|naive_solver].
  split; [by left|]. by eexists.
Qed.
Lemma st_delete : st (delete i ts) x = if decide (x = i) then None else st ts x.
Proof. unfold st. rewrite lookup_delete. repeat case_decide; congruence || done. Qed.
Lemma wt_delete : wt (delete i ts) x = if decide (x = i) then None else wt ts x.
Proof. unfold wt. rewrite lookup_delete. repeat case_decide; congruence || done. Qed.
Lemma par_delete : par (delete i ts) x = if decide (x = i) then None else par ts x.
Proof. unfold par. rewrite lookup_delete. repeat case_decide; congruence || done. Qed.
Lemma kids_delete : kids (delete i ts) x = if decide (x = i) then [] else kids ts x.
Proof. unfold kids. rewrite lookup_delete. repeat case_decide; congruence || done. Qed.
Lemma group_delete :
  group (delete i ts) x = if decide (x = i) then default_observation else group ts x.
Proof. unfold group. rewrite lookup_delete. repeat case_decide; congruence || done. Qed.
Lemma flag_delete : flag (delete i ts) x = if decide (x = i) then false else flag ts x.
Proof. unfold flag. rewrite lookup_delete. repeat case_decide; congruence || done. Qed.
Lemma ret_delete : ret (delete i ts) x = if decide (x = i) then 0 else ret ts x.
Proof. unfold ret. rewrite lookup_delete. repeat case_decide; congruence || done. Qed.
Lemma extr_delete : extr (delete i ts) x = if decide (x = i) then false else extr ts x.
Proof. unfold extr. rewrite lookup_delete. repeat case_decide; congruence || done. Qed.
Lemma ext_delete : ext (delete i ts) x = if decide (x = i) then None else ext ts x.
Proof. unfold ext. rewrite lookup_delete. repeat case_decide; congruence || done. Qed.
Lemma live_delete : live (delete i ts) x ↔ x ≠ i ∧ live ts x.
Proof.
  unfold live. rewrite lookup_delete. case_decide as Hx; [|naive_solver].
  split; [by intros []|]. by intros [? _].
Qed.
Lemma ord_insert :
  ord (<[i := t]> ts) x = if decide (x = i) then terminal_order (state t) else ord ts x.
Proof. unfold ord. rewrite st_insert. by case_decide. Qed.
Lemma ord_delete : ord (delete i ts) x = if decide (x = i) then None else ord ts x.
Proof. unfold ord. rewrite st_delete. by case_decide. Qed.
Lemma mems_insert :
  mems (<[i := t]> ts) x =
    if decide (x = i) then members (default default_observation (observation t)) else mems ts x.
Proof. unfold mems. rewrite group_insert. by case_decide. Qed.
Lemma mems_delete : mems (delete i ts) x = if decide (x = i) then ∅ else mems ts x.
Proof. unfold mems. rewrite group_delete. by case_decide. Qed.
Lemma grp_insert :
  grp (<[i := t]> ts) x =
    if decide (x = i) then group_ready (default default_observation (observation t)) else grp ts x.
Proof. unfold grp. rewrite group_insert. by case_decide. Qed.
Lemma grp_delete : grp (delete i ts) x = if decide (x = i) then [] else grp ts x.
Proof. unfold grp. rewrite group_delete. by case_decide. Qed.
End view_changes.

Create Rewrite HintDb views.
#[export] Hint Rewrite st_insert wt_insert par_insert kids_insert group_insert flag_insert
  ret_insert extr_insert ext_insert ord_insert mems_insert grp_insert st_delete wt_delete
  par_delete kids_delete group_delete flag_delete ret_delete extr_delete ext_delete ord_delete
  mems_delete grp_delete : views.

(** ** The parts of the invariant *)

Section invariant.
Context (D : gset N).

Record wait_ok (ts : gmap N Task) : Prop := {
  wait_parent x p : wt ts x = Some p → par ts x = Some p;
  wait_awaited x p : wt ts x = Some p → x ∉ D → p ∉ D → ord ts x = None →
    is_Some (mems ts p !! x) ∨ st ts p = Some (Waiting x);
  wait_waiting p x : st ts p = Some (Waiting x) → p ∉ D →
    wt ts x = Some p ∧ ord ts x = None ∧ mems ts p !! x = None;
  wait_members p x : is_Some (mems ts p !! x) → wt ts x = Some p;
  wait_group p o x : (o, x) ∈ grp ts p ↔ is_Some (mems ts p !! x) ∧ ord ts x = Some o;
  wait_sorted p : StronglySorted pair_order (grp ts p);
  wait_observing p : st ts p = Some Observing → p ∉ D → mems ts p ≠ ∅ ∧ grp ts p = [];
  wait_flag x : flag ts x = true → wt ts x = None ∧ ∃ p, par ts x = Some p }.

(** A task that was cancelled while it was queued, and that its canceller still holds. *)
Definition zombie (c : Core) (x : N) : Prop :=
  is_Some (ord (tasks c) x) ∧
  ∃ p, wt (tasks c) x = Some p ∧ current c = Some p ∧ mems (tasks c) p !! x = None.

Definition active_state (s : option State) : Prop :=
  match s with
  | Some Running | Some (Waiting _) | Some Observing | Some ExternalWaiting => True
  | _ => False
  end.

Record queue_ok (c : Core) : Prop := {
  queue_nodup : NoDup (ready c);
  queue_queued x : st (tasks c) x = Some Queued → x ∈ ready c;
  queue_ready x : x ∈ ready c → live (tasks c) x → x ∉ D → st (tasks c) x = Some Queued ∨ zombie c x;
  queue_running x : st (tasks c) x = Some Running → x ∉ D → current c = Some x;
  queue_current x : current c = Some x → x ∉ D → active_state (st (tasks c) x);
  queue_bound x : x ∈ ready c → x ≤ next c }.

Definition completed (ts : gmap N Task) (x : N) : Prop := ∃ o, st ts x = Some (Completed o).

(** The number of returned children still counts. *)
Definition counted (ts : gmap N Task) (x : N) : Prop :=
  live ts x ∧ (ord ts x = None ∨ (completed ts x ∧ extr ts x = false)).

Definition flagged (ts : gmap N Task) (l : list N) : list N := filter (λ y, flag ts y = true) l.

Record done_ok (ts : gmap N Task) : Prop := {
  done_count x : counted ts x → x ∉ D → ret ts x = lengthN (flagged ts (kids ts x));
  done_completed x y : completed ts x → y ∈ kids ts x → flag ts y = true;
  done_extracted x : extr ts x = true → completed ts x ∧ (x ∉ D → kids ts x = []);
  done_failed x : is_Some (ord ts x) → ¬ completed ts x → kids ts x = [];
  done_root x : par ts x = None → ret ts x = 0;
  done_cancelled x n : st ts x = Some (Cancelled n) → ∃ p, par ts x = Some p }.

Record ids_ok (c : Core) : Prop := {
  ids_live x : live (tasks c) x → x ≤ next c;
  ids_order x o : ord (tasks c) x = Some o → o ≤ next c;
  ids_unique x y o : ord (tasks c) x = Some o → ord (tasks c) y = Some o → x = y }.

(** The registration of a wait that is pending is active in the reactor, or announced. *)
Definition registered {P} (r : Wait.Reactor P) (reg : Id) (x : N) : Prop :=
  (∃ a, Wait.active (Wait.core r) reg = Some a ∧ Wait.owner a = x) ∨
  (∃ n, n ∈ Wait.ready (Wait.core r) ∧ Wait.registration n = reg ∧ Wait.ready_owner n = x).

Record external_ok {P} (c : Core) (r : Wait.Reactor P) : Prop := {
  external_waiting x : st (tasks c) x = Some ExternalWaiting → x ∉ D →
    ∃ w, ext (tasks c) x = Some w ∧ wait_ready w = None;
  external_state x w : ext (tasks c) x = Some w → wait_ready w = None → x ∉ D →
    st (tasks c) x = Some ExternalWaiting;
  external_count : pending c = N.of_nat (size (filter (λ e, pends e.2 = true) (tasks c)));
  external_registered x w : ext (tasks c) x = Some w → wait_ready w = None →
    registered r (registration w) x;
  external_reactor : WaitFacts.core_ok (Wait.core r) }.

(** The root is the only task without a parent. *)
Record root_ok (c : Core) : Prop := {
  root_only x : live (tasks c) x → par (tasks c) x = None → x ∉ D → root c = Some x;
  root_live x : root c = Some x → x ∉ D → live (tasks c) x ∧ par (tasks c) x = None }.

Definition frames_ok (ts : gmap N Task) (s : FrameRoots.Store) : Prop :=
  ∃ m, FrameRoots.represents s m ∧
    (∀ x t, ts !! x = Some t → is_Some (m !! frame t)) ∧
    (∀ x y t u, ts !! x = Some t → ts !! y = Some u → frame t = frame u → x = y).

End invariant.

(** [E] is the doomed set of the counts of returned children. *)
Record invs (D E : gset N) {P W} (o : Owner P W) : Prop := {
  inv_tree : tree_ok (tasks (core o));
  inv_wait : wait_ok D (tasks (core o));
  inv_queue : queue_ok D (core o);
  inv_done : done_ok E (tasks (core o));
  inv_ids : ids_ok (core o);
  inv_external : external_ok D (core o) (reactor o);
  inv_frames : frames_ok (tasks (core o)) (roots o);
  inv_root : root_ok D (core o) }.

Notation inv D := (invs D D).

(** What the code that has just returned must not have left behind: a child that it has
    cancelled and not yet released. *)
Definition released {P W} (o : Owner P W) : Prop :=
  ∀ y, y ∈ ready (core o) → live (tasks (core o)) y → ord (tasks (core o)) y = None.

(** ** Doomed tasks *)

Lemma done_mono D D' ts : D ⊆ D' → done_ok D ts → done_ok D' ts.
Proof.
  intros Hsub [E1 E2 E3 E4 E5 E6].
  assert (∀ x, x ∉ D' → x ∉ D) as Hn by (intros x Hx HD; apply Hx, Hsub, HD).
  split; try done; [by auto|]. intros x Hx. split; [by apply E3|]. intros ?. by apply E3, Hn.
Qed.

Lemma inv_mono {P W} D D' (o : Owner P W) : D ⊆ D' → inv D o → inv D' o.
Proof.
  intros Hsub [Ht [W1 W2 W3 W4 W5 W6 W7 W8] [Q1 Q2 Q3 Q4 Q5 Q6] Hd Hi [X1 X2 X3 X4 X5] Hf [R1 R2]].
  assert (∀ x, x ∉ D' → x ∉ D) as Hn by (intros x Hx HD; apply Hx, Hsub, HD).
  split; [done|split|split|by eapply done_mono|done|split|done|split]; try done.
  all: intros; eauto.
Qed.
