(* ===== verification/TaskRun.v ===== *)
(** Reasoning about the scheduler's actions: the weakest precondition of a run that must not
    panic, its rules, and the tactic that goes through the body of an operation. *)

From S2P Require Import Prelude Text Slots Tasks TaskInv.
From S2P Require FrameRoots Wait WaitFacts.
From Stdlib Require Import Sorted.

(** The panics the code keeps: exhausted counters, and native waits that cannot be undone. *)
Definition permitted (why : string) : Prop :=
  WaitFacts.cleanup_failure why ∨ why = "failed to cancel task wait" ∨
  why = "task identities exhausted" ∨ why = "frame root generation exhausted".

(** [m] ends with an answer that satisfies [Q], or in one of those. *)
Definition wp {P W A} (m : Act P W A) (Q : answer A → Owner P W → Prop) (o : Owner P W) : Prop :=
  match m o with
  | Ok (r, o') => Q r o'
  | Panic why => permitted why
  | _ => False
  end.

(** [o] with another task map. *)
Definition on_tasks {P W} (f : gmap N Task → gmap N Task) (o : Owner P W) : Owner P W :=
  mkOwner (with_tasks (f (tasks (core o))) (core o)) (roots o) (reactor o) (world o).
Definition on_core {P W} (f : Core → Core) (o : Owner P W) : Owner P W :=
  mkOwner (f (core o)) (roots o) (reactor o) (world o).

Section rules.
Context {P W : Type} {A B : Type}.
Implicit Types (o : Owner P W) (Q : answer A → Owner P W → Prop).

Lemma wp_mono (m : Act P W A) Q Q' o : wp m Q o → (∀ r o', Q r o' → Q' r o') → wp m Q' o.
Proof. unfold wp. destruct (m o) as [[r o']| | |]; auto. Qed.

Lemma wp_bind (m : Act P W B) (k : B → Act P W A) Q o :
  wp m (λ r o', match r with Done v => wp (k v) Q o' | Invalid why => Q (Invalid why) o' end) o →
  wp (m ≫= k) Q o.
Proof. unfold wp, mbind, act_bind. by destruct (m o) as [[[v|why] o']| | |]. Qed.

Lemma wp_ret (v : A) Q o : Q (Done v) o → wp (mret v) Q o.
Proof. done. Qed.

Lemma wp_gets (f : Core → A) Q o : Q (Done (f (core o))) o → wp (gets f) Q o.
Proof. done. Qed.

Lemma wp_reject why Q o : Q (Invalid why) o → wp (reject why) Q o.
Proof. done. Qed.

Lemma wp_or_reject (x : option A) why Q o :
  match x with Some v => Q (Done v) o | None => Q (Invalid why) o end → wp (or_reject x why) Q o.
Proof. by destruct x. Qed.

Lemma wp_expect (x : option A) why Q o v : x = Some v → Q (Done v) o → wp (expect x why) Q o.
Proof. by intros ->. Qed.
End rules.

Section unit_rules.
Context {P W : Type}.
Implicit Types (o : Owner P W) (Q : answer () → Owner P W → Prop).

Lemma wp_modify (f : Core → Core) Q o : Q (Done tt) (on_core f o) → wp (modify f) Q o.
Proof. done. Qed.

Lemma wp_reject_if c why Q o :
  (c = true → Q (Invalid why) o) → (c = false → Q (Done tt) o) → wp (reject_if c why) Q o.
Proof. destruct c; unfold wp; simpl; auto. Qed.

Lemma wp_assert c Q o : c = true → Q (Done tt) o → wp (assert c) Q o.
Proof. by intros ->. Qed.

Lemma wp_task id t (Q : answer Task → Owner P W → Prop) o :
  tasks (core o) !! id = Some t → Q (Done t) o → wp (task id) Q o.
Proof.
  intros Ht HQ. unfold task. apply wp_bind, wp_gets. rewrite Ht. exact HQ.
Qed.

Lemma wp_put id t Q o : Q (Done tt) (on_tasks (insert id t) o) → wp (put id t) Q o.
Proof. done. Qed.

Lemma wp_update id f t Q o :
  tasks (core o) !! id = Some t → Q (Done tt) (on_tasks (insert id (f t)) o) → wp (update id f) Q o.
Proof. intros Ht HQ. unfold update. apply wp_bind. by eapply wp_task. Qed.

Lemma wp_on_world {A} f (Q : answer A → Owner P W → Prop) o :
  (∀ v w, Q (Done v) (mkOwner (core o) (roots o) (reactor o) w)) → wp (on_world f) Q o.
Proof. intros HQ. unfold wp, on_world. destruct (f (world o)) as [w v]. apply HQ. Qed.
End unit_rules.

(** The task that is being resumed is in the map. *)
Lemma current_live {P W} D (o : Owner P W) x :
  inv D o → current (core o) = Some x → x ∉ D → ∃ t, tasks (core o) !! x = Some t.
Proof.
  intros Hi Hc Hx. pose proof (queue_current _ _ (inv_queue _ _ _ Hi) x Hc Hx) as Ha.
  unfold st in Ha. destruct (tasks (core o) !! x) as [t|]; [by eexists|done].
Qed.

Lemma wp_current_or {P W} why (Q : answer N → Owner P W → Prop) o :
  (current (core o) = None → Q (Invalid why) o) →
  (∀ i, current (core o) = Some i → Q (Done i) o) → wp (current_or why) Q o.
Proof.
  intros Hn Hs. unfold current_or. apply wp_bind, wp_gets. apply wp_or_reject.
  destruct (current (core o)); auto.
Qed.

(** [parent child]: the current task and its child. *)
Lemma wp_parent {P W} D x (Q : answer N → Owner P W → Prop) (o : Owner P W) :
  inv D o → (∀ p, current (core o) = Some p → p ∉ D) →
  (∀ why, Q (Invalid why) o) →
  (∀ p t tp, current (core o) = Some p → tasks (core o) !! x = Some t → parent_of t = Some p →
     tasks (core o) !! p = Some tp → p ≠ x → x ∈ children tp → Q (Done p) o) →
  wp (parent x) Q o.
Proof.
  intros Hi HD Hn Hs. unfold parent. apply wp_bind, wp_current_or; [by auto|]. intros p Hp.
  apply wp_bind, wp_gets, wp_bind, wp_or_reject.
  destruct (tasks (core o) !! x) as [t|] eqn:Ht; [|by auto].
  apply wp_bind, wp_reject_if; [by auto|]. intros Heq. bool_facts. apply wp_ret.
  destruct (current_live _ _ _ Hi Hp (HD p Hp)) as [tp Htp].
  pose proof (inv_tree _ _ _ Hi) as Htree.
  assert (par (tasks (core o)) x = Some p) as Hpar by (unfold par; rewrite Ht; exact Heq).
  apply (Hs p t tp); try done.
  - intros ->. by apply (not_own_parent _ Htree x).
  - apply (tree_links _ Htree) in Hpar. unfold kids in Hpar. by rewrite Htp in Hpar.
Qed.

(** ** Frames *)

Section frames.
Context {P W : Type}.
Implicit Types o : Owner P W.

Lemma wp_frame_pointer x t why (Q : answer N → Owner P W → Prop) o :
  frames_ok (tasks (core o)) (roots o) → tasks (core o) !! x = Some t →
  (∀ ptr, Q (Done ptr) o) → wp (frame_pointer (frame t) why) Q o.
Proof.
  intros (m & [Hok Hm] & Hlive & _) Ht HQ. unfold frame_pointer. apply wp_bind.
  unfold wp, on_roots. rewrite (FrameRoots.get_root_spec _ Hok). simpl.
  destruct (Hlive x t Ht) as [ptr Hptr]. rewrite Hm in Hptr. rewrite Hptr.
  destruct o. apply HQ.
Qed.

(** A task goes, and its frame with it. *)
Lemma wp_drop_frame ts x t (Q : answer () → Owner P W → Prop) o :
  frames_ok ts (roots o) → ts !! x = Some t →
  (∀ y t', tasks (core o) !! y = Some t' → y ≠ x ∧ ∃ u, ts !! y = Some u ∧ frame u = frame t') →
  (∀ s, frames_ok (tasks (core o)) s → Q (Done tt) (mkOwner (core o) s (reactor o) (world o))) →
  wp (drop_frame (frame t)) Q o.
Proof.
  intros (m & Hrep & Hlive & Hinj) Ht Hdel HQ. unfold drop_frame. apply wp_bind.
  destruct (FrameRoots.remove_represents _ _ (frame t) Hrep) as (s & Hrem & Hrep').
  rewrite bool_decide_true in Hrem by by eapply Hlive.
  unfold wp, on_roots. rewrite Hrem. simpl. apply HQ. exists (delete (frame t) m).
  split; [exact Hrep'|]. split.
  - intros y u' Hu'. destruct (Hdel _ _ Hu') as (Hne & u & Hu & <-).
    rewrite lookup_delete_ne; [by eapply Hlive|]. intros Hf. apply Hne. by eapply (Hinj y x u t).
  - intros y z u' v' Hu' Hv' Hf. destruct (Hdel _ _ Hu') as (_ & u & Hu & E1).
    destruct (Hdel _ _ Hv') as (_ & v & Hv & E2). apply (Hinj y z u v); congruence.
Qed.

(** A new task with a new frame. *)
Lemma wp_insert_frame ts ptr (Q : answer Id → Owner P W → Prop) o :
  frames_ok ts (roots o) →
  (∀ fr s, (∀ x t, ts !! x = None → frame t = fr → frames_ok (<[x := t]> ts) s) →
     Q (Done fr) (mkOwner (core o) s (reactor o) (world o))) →
  wp (on_roots (λ s, FrameRoots.insert false s ptr)) Q o.
Proof.
  intros (m & Hrep & Hlive & Hinj) HQ. unfold wp, on_roots.
  destruct (FrameRoots.insert false (roots o) ptr) as [[fr s]| | |] eqn:Hins; simpl.
  - destruct (FrameRoots.insert_represents _ _ _ _ _ Hrep Hins) as [Hnone Hrep'].
    apply HQ. intros x t Hx <-. exists (<[frame t := ptr]> m). split; [exact Hrep'|].
    assert (∀ y u, ts !! y = Some u → frame u ≠ frame t) as Hne.
    { intros y u Hu Heq. destruct (Hlive y u Hu) as [p Hp]. rewrite Heq in Hp. congruence. }
    split.
    + intros y u. rewrite lookup_insert_Some. intros [[<- <-]|[_ Hu]]; [by rewrite lookup_insert_eq|].
      rewrite lookup_insert_ne by (intros E; by apply (Hne y u)). by eapply Hlive.
    + intros y z u v. rewrite !lookup_insert_Some.
      intros [[<- <-]|[_ Hu]] [[<- <-]|[_ Hv]] Heq; [done| | |by eapply Hinj].
      * by destruct (Hne z v).
      * by destruct (Hne y u).
  - unfold FrameRoots.insert in Hins. simpl in Hins. by destruct (allocate _ _) as [[? ?]|].
  - unfold FrameRoots.insert in Hins. simpl in Hins.
    destruct (allocate _ _) as [[? ?]|]; [done|]. injection Hins as <-. by right; right; right.
  - unfold FrameRoots.insert in Hins. simpl in Hins. by destruct (allocate _ _) as [[? ?]|].
Qed.

(** The collections during a call of generated code move the frames. *)
Lemma frames_ok_trace ts (f : N → N) s :
  frames_ok ts s → frames_ok ts (FrameRoots.trace (λ (_ : ()) p, (tt, f p)) tt s).2.
Proof.
  intros (m & [Hok Hm] & Hlive & Hinj).
  destruct (FrameRoots.trace_spec (λ (_ : ()) p, (tt, f p)) tt s Hok) as (Hok' & _ & Hroot).
  exists (f <$> m). split; [|split; [|exact Hinj]].
  - split; [exact Hok'|]. intros id. specialize (Hroot id). rewrite lookup_fmap, Hm.
    destruct (FrameRoots.root s id), (FrameRoots.root _ id); simpl; try done. by destruct Hroot as [_ <-].
  - intros x t Ht. rewrite lookup_fmap. destruct (Hlive x t Ht) as [p ->]. by eexists.
Qed.

Lemma frames_ok_ext ts ts' s :
  (∀ x t', ts' !! x = Some t' → ∃ t, ts !! x = Some t ∧ frame t = frame t') →
  frames_ok ts s → frames_ok ts' s.
Proof.
  intros Hext (m & Hrep & Hlive & Hinj). exists m. split; [exact Hrep|]. split.
  - intros x t' Ht'. destruct (Hext x t' Ht') as (t & Ht & <-). by eapply Hlive.
  - intros x y t' u' Ht' Hu' Heq. destruct (Hext x t' Ht') as (t & Ht & E1).
    destruct (Hext y u' Hu') as (u & Hu & E2). apply (Hinj x y t u); congruence.
Qed.

Lemma same_frames (ts : gmap N Task) x t t' :
  ts !! x = Some t → frame t' = frame t →
  ∀ y u, <[x := t']> ts !! y = Some u → ∃ v, ts !! y = Some v ∧ frame v = frame u.
Proof. intros Ht Hf y u. rewrite lookup_insert_Some. intros [[<- <-]|[_ Hu]]; [by exists t|by exists u]. Qed.

Lemma frames_ok_insert ts x t t' s :
  ts !! x = Some t → frame t' = frame t → frames_ok ts s → frames_ok (<[x := t']> ts) s.
Proof.
  intros Ht Hf. apply frames_ok_ext. by eapply same_frames.
Qed.
End frames.

Lemma running_state t : running t = true → state t = Running.
Proof. unfold running. by destruct (state t). Qed.

Lemma queued_state s : match s with Queued => true | _ => false end = true → s = Queued.
Proof. by destruct s. Qed.

Lemma completed_state s : match s with Completed _ => true | _ => false end = true → ∃ n, s = Completed n.
Proof. destruct s; try done. by eexists. Qed.

Lemma terminal_state t : terminal t = true → is_Some (terminal_order (state t)).
Proof. apply bool_decide_eq_true. Qed.

Lemma not_terminal_state t : terminal t = false → terminal_order (state t) = None.
Proof. unfold terminal. rewrite bool_decide_eq_false. apply eq_None_not_Some. Qed.

Lemma wp_next_stamp {P W} (Q : answer N → Owner P W → Prop) o :
  (∀ n, n = next (core o) + 1 → Q (Done n) (on_core (with_next n) o)) → wp next_stamp Q o.
Proof.
  intros HQ. unfold next_stamp. apply wp_bind, wp_gets, wp_bind. unfold checked_add.
  case_match; [|by right; right; left]. apply wp_bind, wp_modify, wp_ret. by apply HQ.
Qed.

Lemma wp_announce {P W} x g (Q : answer Observation → Owner P W → Prop) o :
  x ∉ group_ready g →
  Q (Done (mkObservation (members g) (pset_insert x (group_ready g)) (selected_fault g)
             (selected_index g))) o →
  wp (announce x g) Q o.
Proof.
  intros Hx HQ. unfold announce. apply wp_bind, wp_assert; [by apply bool_decide_eq_true|].
  by apply wp_ret.
Qed.

(** What the guards of an operation say, as facts of the context. *)
Ltac task_facts :=
  bool_facts;
  repeat match goal with
  | H : ¬ is_Some _ |- _ => apply eq_None_not_Some in H
  | H : running _ = true |- _ => apply running_state in H
  | H : terminal _ = true |- _ => apply terminal_state in H
  | H : terminal _ = false |- _ => apply not_terminal_state in H
  | H : _ = true |- _ => first [apply queued_state in H|apply completed_state in H as [? H]]
  end.

(** A task of a changed map. *)
Ltac at_task :=
  simpl; rewrite ?lookup_insert_ne, ?lookup_delete_ne by congruence;
  first [eassumption|apply lookup_insert_eq|reflexivity].

(** One step through the body of an operation. *)
Ltac act :=
  lazymatch goal with
  | |- wp (_ ≫= _) _ _ => apply wp_bind
  | |- wp (mret _) _ _ => apply wp_ret
  | |- wp (gets _) _ _ => apply wp_gets
  | |- wp (reject _) _ _ => apply wp_reject
  | |- wp (reject_if _ _) _ _ => apply wp_reject_if; [intros _|intros ?]
  | |- wp (put _ _) _ _ => apply wp_put
  | |- wp (modify _) _ _ => apply wp_modify
  | |- wp (task _) _ _ => eapply wp_task; [at_task|]
  | |- wp (update _ _) _ _ => eapply wp_update; [at_task|]
  | |- wp (on_world _) _ _ => apply wp_on_world; intros ? ?
  | |- wp (expect _ _) _ _ => eapply wp_expect; [eassumption|]
  end.

(** Each part of the scheduler's invariant depends on its views only; changes of a task that
    touch no view, or only those of one part, keep the rest. *)

Lemma live_st ts x : live ts x ↔ is_Some (st ts x).
Proof. unfold live, st. by rewrite fmap_is_Some. Qed.

Section parts.
Context (D : gset N) (ts ts' : gmap N Task).

Lemma ord_ext x : st ts' x = st ts x → ord ts' x = ord ts x.
Proof. unfold ord. by intros ->. Qed.

(** What the waits depend on: of the states, who waits for whom and who has ended. *)
Lemma wait_views :
  (∀ x p, par ts x = Some p → par ts' x = Some p) → (∀ x, wt ts' x = wt ts x) →
  (∀ x, ord ts' x = ord ts x) → (∀ p x, st ts' p = Some (Waiting x) ↔ st ts p = Some (Waiting x)) →
  (∀ p, st ts' p = Some Observing ↔ st ts p = Some Observing) →
  (∀ x, mems ts' x = mems ts x) → (∀ x, grp ts' x = grp ts x) →
  (∀ x, flag ts' x = true → wt ts x = None ∧ ∃ p, par ts x = Some p) →
  wait_ok D ts → wait_ok D ts'.
Proof.
  intros E1 E2 E3 E4 E5 E6 E7 E8 [W1 W2 W3 W4 W5 W6 W7 W8].
  split.
  - intros x p. rewrite E2. auto.
  - intros x p. rewrite E2, E3, E4, E6. apply W2.
  - intros p x. rewrite E2, E3, E4, E6. apply W3.
  - intros p x. rewrite E2, E6. apply W4.
  - intros p o x. rewrite E7, E3, E6. apply W5.
  - intros p. rewrite E7. apply W6.
  - intros p. rewrite E5, E6, E7. apply W7.
  - intros x Hx. destruct (E8 x Hx) as [? [p Hp]]. rewrite E2. eauto.
Qed.

(** Only the marks of the returned children differ. *)
Lemma wait_flags :
  (∀ x, par ts' x = par ts x) → (∀ x, wt ts' x = wt ts x) → (∀ x, st ts' x = st ts x) →
  (∀ x, mems ts' x = mems ts x) → (∀ x, grp ts' x = grp ts x) →
  (∀ x, flag ts' x = true → wt ts x = None ∧ ∃ p, par ts x = Some p) →
  wait_ok D ts → wait_ok D ts'.
Proof.
  intros E1 E2 E3 E4 E5 E6. apply wait_views; try done.
  - intros x p. by rewrite E1.
  - intros x. by apply ord_ext.
  - intros p x. by rewrite E3.
  - intros p. by rewrite E3.
Qed.

Lemma wait_ext :
  (∀ x, par ts' x = par ts x) → (∀ x, wt ts' x = wt ts x) → (∀ x, st ts' x = st ts x) →
  (∀ x, mems ts' x = mems ts x) → (∀ x, grp ts' x = grp ts x) → (∀ x, flag ts' x = flag ts x) →
  wait_ok D ts → wait_ok D ts'.
Proof.
  intros E1 E2 E3 E4 E5 E6 Hok. apply wait_flags; try done. intros x. rewrite E6. apply Hok.
Qed.

Lemma completed_ext x : st ts' x = st ts x → completed ts' x ↔ completed ts x.
Proof. unfold completed. by intros ->. Qed.

Lemma counted_ext x : st ts' x = st ts x → extr ts' x = extr ts x → counted ts' x ↔ counted ts x.
Proof.
  intros E1 E2. unfold counted. by rewrite !live_st, E1, (ord_ext _ E1), (completed_ext _ E1), E2.
Qed.

Lemma flagged_ext l : (∀ x, x ∈ l → flag ts' x = flag ts x) → flagged ts' l = flagged ts l.
Proof.
  unfold flagged. induction l as [|y l IH]; intros E; [done|]. rewrite !filter_cons.
  rewrite E by left. rewrite IH by (intros; apply E; by right). done.
Qed.
End parts.

Lemma done_ext D ts ts' :
  (∀ x, par ts' x = par ts x) → (∀ x, kids ts' x = kids ts x) → (∀ x, st ts' x = st ts x) →
  (∀ x, flag ts' x = flag ts x) → (∀ x, ret ts' x = ret ts x) → (∀ x, extr ts' x = extr ts x) →
  done_ok D ts → done_ok D ts'.
Proof.
  intros E1 E2 E3 E4 E5 E6 [X1 X2 X3 X4 X5 X6].
  assert (∀ x, completed ts' x ↔ completed ts x) as E7 by (intros; by apply completed_ext).
  assert (∀ x, ord ts' x = ord ts x) as E8 by (intros; by apply ord_ext).
  split.
  - intros x Hc. rewrite E5, E2, (flagged_ext ts ts') by auto. apply X1. by apply (counted_ext ts ts').
  - intros x y. rewrite E7, E2, E4. apply X2.
  - intros x. rewrite E6, E7, E2. apply X3.
  - intros x. rewrite E8, E7, E2. apply X4.
  - intros x. rewrite E1, E5. apply X5.
  - intros x n. rewrite E3, E1. apply X6.
Qed.

(** Only who waits for whom differs. *)
Lemma queue_waits D c c' :
  (∀ x, st (tasks c') x = st (tasks c) x) → (∀ x, zombie c x → zombie c' x) →
  ready c' = ready c → current c' = current c → next c' = next c → queue_ok D c → queue_ok D c'.
Proof.
  intros E1 E2 E3 E4 E5 [Q1 Q2 Q3 Q4 Q5 Q6]. split; rewrite ?E3, ?E4, ?E5; try done.
  - intros x. rewrite E1. apply Q2.
  - intros x Hx. rewrite live_st, E1, <-live_st. intros Hl HD.
    destruct (Q3 x Hx Hl HD) as [?|?]; [by left|right; auto].
  - intros x. rewrite E1. apply Q4.
  - intros x Hc HD. rewrite E1. by apply Q5.
Qed.

Lemma queue_ext D c c' :
  (∀ x, st (tasks c') x = st (tasks c) x) → (∀ x, wt (tasks c') x = wt (tasks c) x) →
  (∀ x, mems (tasks c') x = mems (tasks c) x) → ready c' = ready c →
  current c' = current c → next c' = next c → queue_ok D c → queue_ok D c'.
Proof.
  intros E1 E2 E3 E4 E5 E6. apply queue_waits; try done. intros x (Ho & p & Hw & Hc & Hm). split.
  - by rewrite (ord_ext _ _ _ (E1 x)).
  - exists p. by rewrite E2, E5, E3.
Qed.

Lemma ids_ext c c' :
  (∀ x, st (tasks c') x = st (tasks c) x) → next c ≤ next c' → ids_ok c → ids_ok c'.
Proof.
  intros E1 E2 [I1 I2 I3].
  assert (∀ x, ord (tasks c') x = ord (tasks c) x) as E3 by (intros; by apply ord_ext).
  split.
  - intros x. rewrite live_st, E1, <-live_st. intros Hx. specialize (I1 x Hx). lia.
  - intros x o. rewrite E3. intros Hx. specialize (I2 x o Hx). lia.
  - intros x y o. rewrite !E3. apply I3.
Qed.

Lemma root_ext D c c' :
  (∀ x, st (tasks c') x = st (tasks c) x) → (∀ x, par (tasks c') x = par (tasks c) x) →
  root c' = root c → root_ok D c → root_ok D c'.
Proof.
  intros E1 E2 E3 [R1 R2]. split; intros x; rewrite live_st, E1, <-live_st, E2, E3; auto.
Qed.

(** ** Pending waits *)

Definition pend_at (ts : gmap N Task) (x : N) : Prop :=
  ∃ w, ext ts x = Some w ∧ wait_ready w = None.

Definition pend_set (ts : gmap N Task) : gset N := dom (filter (λ e, pends e.2 = true) ts).

Lemma pend_set_elem ts x : x ∈ pend_set ts ↔ pend_at ts x.
Proof.
  unfold pend_set, pend_at, ext. rewrite elem_of_dom. unfold is_Some.
  setoid_rewrite map_lookup_filter_Some. simpl. unfold pends. split.
  - intros (t & Ht & Hp). rewrite Ht. simpl. destruct (external t) as [w|]; [|done].
    exists w. by apply bool_decide_eq_true in Hp.
  - intros (w & Hw & Hn). destruct (ts !! x) as [t|]; [|done]. simpl in Hw. exists t.
    rewrite Hw. split; [done|]. by apply bool_decide_eq_true.
Qed.

Lemma pend_count ts : size (filter (λ e, pends e.2 = true) ts) = size (pend_set ts).
Proof. unfold pend_set. by rewrite size_dom. Qed.

Lemma pend_count_ext ts ts' :
  (∀ x, pend_at ts' x ↔ pend_at ts x) →
  size (filter (λ e, pends e.2 = true) ts') = size (filter (λ e, pends e.2 = true) ts).
Proof.
  intros E. rewrite !pend_count. f_equal. apply set_eq. intros x. by rewrite !pend_set_elem.
Qed.

Lemma pend_count_add ts ts' x :
  ¬ pend_at ts x → (∀ y, pend_at ts' y ↔ y = x ∨ pend_at ts y) →
  size (filter (λ e, pends e.2 = true) ts') = S (size (filter (λ e, pends e.2 = true) ts)).
Proof.
  intros Hx E. rewrite !pend_count.
  assert (pend_set ts' = {[x]} ∪ pend_set ts) as ->.
  { apply set_eq. intros y. by rewrite elem_of_union, elem_of_singleton, !pend_set_elem. }
  rewrite size_union; [by rewrite size_singleton|].
  intros y ->%elem_of_singleton Hy. by apply Hx, pend_set_elem.
Qed.

Lemma pend_count_remove ts ts' x :
  pend_at ts x → (∀ y, pend_at ts' y ↔ y ≠ x ∧ pend_at ts y) →
  size (filter (λ e, pends e.2 = true) ts) = S (size (filter (λ e, pends e.2 = true) ts')).
Proof.
  intros Hx E. apply (pend_count_add _ _ x).
  - intros [? _]%E. done.
  - intros y. rewrite E. destruct (decide (y = x)); naive_solver.
Qed.

Lemma external_ext {P} D c c' (r : Wait.Reactor P) :
  (∀ x, st (tasks c') x = st (tasks c) x) → (∀ x, ext (tasks c') x = ext (tasks c) x) →
  pending c' = pending c → external_ok D c r → external_ok D c' r.
Proof.
  intros E1 E2 E3 [X1 X2 X3 X4 X5]. split.
  - intros x. rewrite E1, E2. apply X1.
  - intros x w. rewrite E1, E2. apply X2.
  - rewrite E3, X3. f_equal. symmetry. apply pend_count_ext. intros x. unfold pend_at. by rewrite E2.
  - intros x w. rewrite E2. apply X4.
  - done.
Qed.

(** The views of a task in the map, as equations of the context. *)
Ltac view_facts H :=
  let V := fresh "V" in pose proof (views_at _ _ _ H) as V;
  destruct V as (?V & ?V & ?V & ?V & ?V & ?V & ?V & ?V & ?V & ?V).

(** A view of a changed map, from the equations of [view_facts]. *)
Ltac same_view :=
  intros; repeat match goal with ts := _ : gmap N Task |- _ => subst ts end;
  simpl; unfold mems, grp; autorewrite with views; simpl; repeat case_decide; subst; simpl; congruence.

(** The parts of the invariant that a change leaves alone. *)
Ltac same_part :=
  first
    [ by eapply tree_ext; [..|eassumption]; same_view
    | by eapply wait_ext; [..|eassumption]; same_view
    | by eapply queue_ext; [..|eassumption]; first [same_view|reflexivity]
    | by eapply done_ext; [..|eassumption]; same_view
    | by eapply ids_ext; [..|eassumption]; first [same_view|simpl; lia]
    | by eapply external_ext; [..|eassumption]; first [same_view|reflexivity]
    | by eapply root_ext; [..|eassumption]; first [same_view|reflexivity]
    | by repeat (eapply frames_ok_insert; [at_task|reflexivity|]); eassumption ].

(** The views of a changed map in all of the context, by cases. *)
Ltac view_cases :=
  unfold live in *; autorewrite with views in *; simpl in *; repeat case_decide; subst; simplify_eq.

(** ** Changes that touch no view *)

Section inert.
Context {P W : Type} (D E : gset N) (o : Owner P W) (Hi : invs D E o).

Lemma inv_inert x t t' :
  tasks (core o) !! x = Some t →
  frame t' = frame t → parent_of t' = parent_of t → children t' = children t →
  returned t' = returned t → returned_to_parent t' = returned_to_parent t →
  result_extracted t' = result_extracted t → waiter t' = waiter t →
  observation t' = observation t → state t' = state t → external t' = external t →
  invs D E (on_tasks (insert x t') o).
Proof.
  intros Ht E1 E2 E3 E4 E5 E6 E7 E8 E9 E10. view_facts Ht.
  destruct Hi as [I1 I2 I3 I4 I5 I6 I7 I8]. split; simpl; try same_part.
  by eapply frames_ok_insert.
Qed.
End inert.

(** Ends a goal of the invariant for a change that touches no view. *)
Ltac inert := eapply inv_inert; [eassumption|eassumption|reflexivity..].

(** The operation ends with the invariant, whatever its answer. *)
Definition keeps {P W A} (m : Act P W A) : Prop := ∀ o, inv ∅ o → wp m (λ _ o', inv ∅ o') o.
