(* ===== verification/TaskOps.v ===== *)
(** The operations of generated code keep the invariant of the scheduler, part one: the
    operations on cleanups, on the tree and on results. *)

From S2P Require Import Prelude Text Slots Tasks TaskInv TaskRun.
From S2P Require FrameRoots Wait WaitFacts.
From Stdlib Require Import Sorted.


(** ** Moving a task to another parent *)

(** [ts'] is [ts] with [x] moved from [p] to [q]. *)
Record moved (ts ts' : gmap N Task) (x p q : N) : Prop := {
  moved_par y : par ts' y = if decide (y = x) then Some q else par ts y;
  moved_kids z : kids ts' z = if decide (z = q) then oset_insert x (kids ts q)
                              else if decide (z = p) then oset_remove x (kids ts p) else kids ts z;
  moved_flag y : flag ts' y = if decide (y = x) then false else flag ts y;
  moved_st y : st ts' y = st ts y;
  moved_wt y : wt ts' y = wt ts y;
  moved_group y : group ts' y = group ts y;
  moved_ret y : ret ts' y = ret ts y;
  moved_extr y : extr ts' y = extr ts y;
  moved_ext y : ext ts' y = ext ts y;
  moved_frame y t' : ts' !! y = Some t' → ∃ t, ts !! y = Some t ∧ frame t = frame t' }.

Lemma reparent_wp {P W} x p q (Q : answer () → Owner P W → Prop) (o : Owner P W) :
  tree_ok (tasks (core o)) → par (tasks (core o)) x = Some p → q ≠ x → q ≠ p →
  live (tasks (core o)) q → x ∉ kids (tasks (core o)) q →
  (∀ ts', moved (tasks (core o)) ts' x p q → Q (Done tt) (on_tasks (λ _, ts') o)) →
  wp (reparent x p q) Q o.
Proof.
  intros Htree Hpar Hqx Hqp [tq Htq] Hxq HQ. unfold reparent.
  pose proof Hpar as Hin. apply (tree_links _ Htree) in Hin.
  destruct (kids_live _ Htree _ _ Hin) as [[tx Htx] [tp Htp]].
  assert (x ≠ p) as Hxp by (intros ->; by apply (not_own_parent _ Htree p)).
  destruct (views_at _ _ _ Htp) as (_ & _ & _ & Vp & _). rewrite Vp in Hin.
  destruct (views_at _ _ _ Htq) as (_ & _ & _ & Vq & _). rewrite Vq in Hxq.
  act. act. act. act. act. apply wp_assert; [by apply bool_decide_eq_true|].
  act. eapply wp_task; [simpl; rewrite lookup_insert_ne by congruence; exact Htq|].
  act. act. act. apply wp_assert; [by apply bool_decide_eq_true|].
  eapply wp_update; [simpl; rewrite !lookup_insert_ne by congruence; exact Htx|].
  apply (HQ (<[x := _]> (<[q := _]> (<[p := _]> (tasks (core o)))))).
  destruct (views_at _ _ _ Htx) as (V1 & V2 & V3 & V4 & V5 & V6 & V7 & V8 & V9 & V10).
  destruct (views_at _ _ _ Htp) as (P1 & P2 & P3 & P4 & P5 & P6 & P7 & P8 & P9 & P10).
  destruct (views_at _ _ _ Htq) as (Q1 & Q2 & Q3 & Q4 & Q5 & Q6 & Q7 & Q8 & Q9 & Q10).
  split; try (intros y; autorewrite with views; simpl; repeat case_decide; subst; congruence).
  intros y t'. rewrite !lookup_insert_Some. intros [[<- <-]|[_ [[<- <-]|[_ [[<- <-]|[_ Ht]]]]]].
  - by exists tx.
  - by exists tq.
  - by exists tp.
  - by exists t'.
Qed.

Lemma flagged_insert ts x l : flag ts x = false → flagged ts (oset_insert x l) = flagged ts l.
Proof.
  intros Hx. unfold flagged.
  induction l as [|y l IH]; simpl; [by rewrite filter_cons, decide_False by congruence|].
  destruct (x <? y); [by rewrite filter_cons, decide_False by congruence|].
  destruct (y <? x); [|done]. rewrite !filter_cons, IH. done.
Qed.

Lemma flagged_remove ts x l : flag ts x = false → flagged ts (oset_remove x l) = flagged ts l.
Proof.
  intros Hx. unfold flagged, oset_remove. induction l as [|y l IH]; [done|].
  rewrite filter_cons. destruct (decide (y ≠ x)) as [Hy|Hy].
  - rewrite !filter_cons, IH. done.
  - assert (y = x) as -> by (by destruct (decide (y = x))). rewrite filter_cons, decide_False by congruence.
    exact IH.
Qed.

(** Marking one member of a list. *)
Lemma flagged_mark ts ts' x l :
  NoDup l → x ∈ l → flag ts x = false → (∀ y, flag ts' y = if decide (y = x) then true else flag ts y) →
  lengthN (flagged ts' l) = lengthN (flagged ts l) + 1.
Proof.
  intros Hnd Hx Hold Hnew. unfold flagged. induction Hnd as [|y l Hy Hnd IH]; [by apply elem_of_nil in Hx|].
  rewrite !filter_cons, Hnew. destruct (decide (y = x)) as [->|Hne].
  - rewrite decide_True, decide_False by congruence. simpl.
    fold (flagged ts' l). rewrite (flagged_ext ts ts'); [unfold flagged; lia|].
    intros z Hz. rewrite Hnew, decide_False; [done|]. by intros ->.
  - apply elem_of_cons in Hx as [->|Hx]; [done|]. specialize (IH Hx).
    destruct (decide (flag ts y = true)); simpl; lia.
Qed.

(** Marking [x] for its parent [p]. *)
Lemma done_marked D ts ts' x p :
  tree_ok ts → par ts x = Some p → flag ts x = false → ord ts p = None → is_Some (par ts p) →
  (∀ y, par ts' y = par ts y) → (∀ y, kids ts' y = kids ts y) → (∀ y, st ts' y = st ts y) →
  (∀ y, extr ts' y = extr ts y) → (∀ y, flag ts' y = if decide (y = x) then true else flag ts y) →
  (∀ y, ret ts' y = if decide (y = p) then ret ts p + 1 else ret ts y) →
  done_ok D ts → done_ok D ts'.
Proof.
  intros Htree Hx Hf Hp Hpp E1 E2 E3 E4 E5 E6 [X1 X2 X3 X4 X5 X6].
  assert (∀ y, completed ts' y ↔ completed ts y) as E7 by (intros; by apply completed_ext).
  assert (∀ y, ord ts' y = ord ts y) as E8 by (intros; by apply ord_ext).
  split.
  - intros y Hc HD.
    assert (ret ts y = lengthN (flagged ts (kids ts y))) as Hy.
    { apply X1; [|done]. by apply (counted_ext ts ts'). }
    rewrite E6, E2. case_decide as Hyp; [subst y|].
    + rewrite Hy. symmetry. apply (flagged_mark ts ts' x); try done; [by apply tree_kids_NoDup|].
      by apply (tree_links _ Htree).
    + rewrite Hy. do 2 f_equal. symmetry. apply flagged_ext. intros z Hz. rewrite E5, decide_False; [done|].
      intros ->. apply (tree_links _ Htree) in Hz. congruence.
  - intros y z. rewrite E7, E2, E5. intros Hy Hz. case_decide; [done|]. by eapply X2.
  - intros y. rewrite E4, E7, E2. apply X3.
  - intros y. rewrite E8, E7, E2. apply X4.
  - intros y. rewrite E1, E6. case_decide; [|apply X5]. subst. intros Hn. rewrite Hn in Hpp. by destruct Hpp.
  - intros y n. rewrite E3, E1. apply X6.
Qed.

Section moves.
Context (D : gset N) (ts ts' : gmap N Task) (x p q : N).
Context (I1 : tree_ok ts) (M : moved ts ts' x p q) (Hpar : par ts x = Some p) (Hqx : q ≠ x) (Hqp : q ≠ p).

Lemma moved_ord y : ord ts' y = ord ts y.
Proof. apply ord_ext, (moved_st _ _ _ _ _ M). Qed.

Lemma moved_mems y : mems ts' y = mems ts y.
Proof. unfold mems. by rewrite (moved_group _ _ _ _ _ M). Qed.

Lemma moved_grp y : grp ts' y = grp ts y.
Proof. unfold grp. by rewrite (moved_group _ _ _ _ _ M). Qed.

Lemma moved_completed y : completed ts' y ↔ completed ts y.
Proof. apply completed_ext, (moved_st _ _ _ _ _ M). Qed.

(** The number of returned children is unaffected when [x] is not one of them. *)
Lemma moved_flagged y :
  (y = p → flag ts x = false) → flagged ts' (kids ts' y) = flagged ts (kids ts y).
Proof.
  intros Hp. destruct M as [_ M2 M3 _ _ _ _ _ _ _].
  assert (∀ l, x ∉ l → flagged ts' l = flagged ts l) as Hout.
  { intros l Hl. apply flagged_ext. intros z Hz. rewrite M3, decide_False; [done|]. by intros ->. }
  assert (flag ts' x = false) as Hx' by (by rewrite M3, decide_True).
  rewrite M2. case_decide as Hyq; [subst y|case_decide as Hyp; [subst y|]].
  - rewrite flagged_insert by exact Hx'. apply Hout. rewrite (tree_links _ I1). congruence.
  - rewrite flagged_remove by exact Hx'. apply flagged_ext. intros z _. rewrite M3.
    case_decide; [subst; by symmetry; apply Hp|done].
  - apply Hout. rewrite (tree_links _ I1). congruence.
Qed.

Lemma done_moved :
  (p ∈ D ∨ flag ts x = false) → ord ts q = None → done_ok D ts → done_ok D ts'.
Proof.
  intros Hflag Hq [X1 X2 X3 X4 X5 X6].
  assert (∀ y, completed ts y → y ≠ q) as Hnq.
  { intros y [n Hy] ->. unfold ord in Hq. by rewrite Hy in Hq. }
  pose proof M as [M1 M2 M3 M4 _ _ M7 M8 _ _]. split.
  - intros y Hc HD. rewrite M7, moved_flagged.
    + apply X1; [|done]. by apply (counted_ext ts ts').
    + intros ->. by destruct Hflag.
  - intros y z. rewrite moved_completed, M2, M3. intros Hy Hz. rewrite decide_False in Hz by auto.
    destruct (decide (y = p)) as [->|Hyp].
    + apply oset_remove_elem in Hz as [Hzx Hz]. rewrite decide_False by done. by eapply X2.
    + destruct (decide (z = x)) as [->|]; [|by eapply X2]. apply (tree_links _ I1) in Hz. congruence.
  - intros y. rewrite M8, moved_completed, M2. intros Hy. destruct (X3 y Hy) as [Hc Hk].
    split; [exact Hc|]. intros HD. specialize (Hk HD). rewrite decide_False by auto.
    case_decide; [|done]. subst y. by rewrite Hk.
  - intros y. rewrite moved_ord, moved_completed, M2. intros Ho Hc.
    case_decide; [subst; by destruct Ho; congruence|].
    specialize (X4 y Ho Hc). case_decide; [|done]. subst y. by rewrite X4.
  - intros y. rewrite M1, M7. case_decide; [done|]. apply X5.
  - intros y n. rewrite M4, M1. case_decide; [by eexists|]. apply X6.
Qed.

Lemma wait_moved : wt ts x = None → wait_ok D ts → wait_ok D ts'.
Proof.
  intros Hwt [W1 W2 W3 W4 W5 W6 W7 W8]. pose proof M as [M1 _ M3 M4 M5 _ _ _ _ _]. split.
  - intros y r. rewrite M5, M1. intros Hy. case_decide; [congruence|]. by apply W1.
  - intros y r. rewrite M5, moved_ord, moved_mems, M4. apply W2.
  - intros r y. rewrite M4, M5, moved_ord, moved_mems. apply W3.
  - intros r y. rewrite moved_mems, M5. apply W4.
  - intros r n y. rewrite moved_grp, moved_mems, moved_ord. apply W5.
  - intros r. rewrite moved_grp. apply W6.
  - intros r. rewrite M4, moved_mems, moved_grp. apply W7.
  - intros y. rewrite M3, M5, M1. case_decide; [done|]. apply W8.
Qed.
End moves.

(** Moving a task that nobody waits for. *)
Lemma inv_moved {P W} D E (o : Owner P W) ts' x p q :
  invs D E o → moved (tasks (core o)) ts' x p q →
  par (tasks (core o)) x = Some p → q ≠ x → q ≠ p → ¬ Above (tasks (core o)) x q →
  wt (tasks (core o)) x = None → (p ∈ E ∨ flag (tasks (core o)) x = false) →
  ord (tasks (core o)) q = None → invs D E (on_tasks (λ _, ts') o).
Proof.
  intros [I1 I2 I3 I4 I5 I6 I7 I8] M Hpar Hqx Hqp Hab Hwt Hflag Hq.
  pose proof M as [M1 M2 M3 M4 M5 M6 M7 M8 M9 M10]. split; simpl.
  - by eapply (tree_move (tasks (core o))).
  - by eapply wait_moved.
  - eapply queue_ext; try done. intros y. by eapply (moved_mems (tasks (core o))).
  - by eapply (done_moved E (tasks (core o)) ts').
  - by eapply ids_ext.
  - by eapply external_ext.
  - by eapply frames_ok_ext.
  - destruct I8 as [R1 R2]. split; simpl; intros y; rewrite live_st, M4, <-live_st, M1.
    + case_decide; [done|]. apply R1.
    + intros Hy HD. destruct (R2 y Hy HD). case_decide; [congruence|done].
Qed.

(** A task is not above its sibling or its parent. *)
Lemma not_above_parent ts x p : tree_ok ts → par ts x = Some p → ¬ Above ts x p.
Proof.
  intros Hok Hx Ha. apply (above_irrefl ts x (tree_reach _ Hok x)). by eapply above_step.
Qed.

Lemma not_above_sibling ts x y p :
  tree_ok ts → par ts x = Some p → par ts y = Some p → y ≠ x → ¬ Above ts x y.
Proof.
  intros Hok Hx Hy Hne Ha. destruct (above_inv _ _ _ _ Hy Ha) as [->|Ha'].
  - exact (not_own_parent _ Hok _ Hx).
  - exact (not_above_parent _ _ _ Hok Hx Ha').
Qed.

(** ** A new task *)

(** [ts'] is [ts] with a queued task [n] below [up]. *)
Record created (ts ts' : gmap N Task) (n : N) (up : option N) : Prop := {
  created_par y : par ts' y = if decide (y = n) then up else par ts y;
  created_kids q : kids ts' q = if decide (up = Some q) then oset_insert n (kids ts q) else kids ts q;
  created_st y : st ts' y = if decide (y = n) then Some Queued else st ts y;
  created_wt y : wt ts' y = wt ts y;
  created_group y : group ts' y = group ts y;
  created_flag y : flag ts' y = flag ts y;
  created_ret y : ret ts' y = ret ts y;
  created_extr y : extr ts' y = extr ts y;
  created_ext y : ext ts' y = ext ts y }.

Section creation.
Context (ts ts' : gmap N Task) (n : N) (up : option N).
Context (C : created ts ts' n up) (Hn : ts !! n = None).
Context (Hup : ∀ p, up = Some p → st ts p = Some Running).

Lemma created_none : st ts n = None ∧ par ts n = None ∧ kids ts n = [] ∧ flag ts n = false ∧
  extr ts n = false ∧ ret ts n = 0 ∧ wt ts n = None ∧ ext ts n = None ∧ group ts n = default_observation.
Proof.
  unfold st, par, kids, flag, extr, ret, wt, ext, group. rewrite Hn. simpl. split_and!; reflexivity.
Qed.

Lemma created_ord y : ord ts' y = ord ts y.
Proof.
  unfold ord. rewrite (created_st _ _ _ _ C). case_decide; [subst|done].
  by rewrite (proj1 created_none).
Qed.

Lemma created_completed y : completed ts' y ↔ completed ts y.
Proof.
  unfold completed. rewrite (created_st _ _ _ _ C). case_decide; [subst|done].
  rewrite (proj1 created_none). split; by intros [? ?].
Qed.

Lemma created_tree : tree_ok ts → tree_ok ts'.
Proof.
  intros Hok. pose proof created_none as (_ & Hp & _). destruct up as [p|] eqn:E.
  - eapply (tree_add ts ts' Hok n p); [done| | |].
    + apply live_st. rewrite (Hup p) by done. by eexists.
    + intros y. apply (created_par _ _ _ _ C).
    + intros q. rewrite (created_kids _ _ _ _ C). repeat case_decide; congruence.
  - eapply tree_ext; [| |exact Hok].
    + intros y. rewrite (created_par _ _ _ _ C). case_decide; congruence.
    + intros q. rewrite (created_kids _ _ _ _ C). by rewrite decide_False.
Qed.

Lemma created_wait D : wait_ok D ts → wait_ok D ts'.
Proof.
  pose proof created_none as (Hs & Hp & _ & Hf & _). destruct C as [C1 C2 C3 C4 C5 C6 _ _ _].
  intros Hok. apply (wait_views D ts); try done.
  - intros x p Hx. rewrite C1, decide_False; congruence.
  - intros x. apply created_ord.
  - intros p x. rewrite C3. case_decide; [|done]. subst. by rewrite Hs.
  - intros p. rewrite C3. case_decide; [|done]. subst. by rewrite Hs.
  - intros x. unfold mems. by rewrite C5.
  - intros x. unfold grp. by rewrite C5.
  - intros x. rewrite C6. apply Hok.
Qed.

Lemma created_done D : tree_ok ts → done_ok D ts → done_ok D ts'.
Proof.
  intros Htree. pose proof created_none as (Hs & Hp & Hk & Hf & He & Hr & _).
  pose proof C as [C1 C2 C3 _ _ C6 C7 C8 _]. intros [X1 X2 X3 X4 X5 X6].
  assert (∀ y, up = Some y → ord ts y = None ∧ ¬ completed ts y) as Hno.
  { intros y Hy. unfold ord, completed. rewrite (Hup y Hy). split; [done|]. by intros [? ?]. }
  assert (∀ l, flagged ts' l = flagged ts l) as Hfl by (intros; by apply flagged_ext).
  assert (∀ y, flagged ts' (kids ts' y) = flagged ts (kids ts y)) as Hfk.
  { intros y. rewrite Hfl, C2. case_decide; [|done]. by apply flagged_insert. }
  split.
  - intros y Hc HD. rewrite C7, Hfk. destruct (decide (y = n)) as [->|Hne].
    + by rewrite Hr, Hk.
    + apply X1; [|done]. apply (counted_ext ts ts'); [|by rewrite C8|done].
      by rewrite C3, decide_False.
  - intros y z. rewrite created_completed, C2, C6. intros Hy. case_decide; [by apply Hno in Hy|]. by apply X2.
  - intros y. rewrite C8, created_completed, C2. intros Hy. destruct (X3 y Hy). case_decide; [|done].
    exfalso. by eapply Hno.
  - intros y. rewrite created_ord, created_completed, C2. intros Ho. case_decide; [|by apply X4].
    destruct (Hno y) as [E _]; [done|]. rewrite E in Ho. by destruct Ho.
  - intros y. rewrite C1, C7. case_decide; [subst; by rewrite Hr|]. apply X5.
  - intros y k. rewrite C3, C1. case_decide; [done|]. apply X6.
Qed.
End creation.

Section operations.
Context {P W : Type} `{Wait.Poller P} `{Native W}.
Implicit Types o : Owner P W.

Local Notation keeps m := (@TaskRun.keeps P W _ m).

(** ** Cleanups *)

Lemma cleanup_push_keeps site callback : keeps (loom_rt_task_cleanup_push site callback).
Proof.
  intros o Hi. unfold loom_rt_task_cleanup_push. act. apply wp_current_or; [done|]. intros i Hc.
  destruct (current_live _ _ _ Hi Hc ltac:(set_solver)) as [t Ht]. do 2 act. act. act; [done|].
  act. inert.
Qed.

Lemma result_cleanup_push_keeps callback : keeps (loom_rt_task_result_cleanup_push callback).
Proof.
  intros o Hi. unfold loom_rt_task_result_cleanup_push. act. apply wp_current_or; [done|]. intros i Hc.
  destruct (current_live _ _ _ Hi Hc ltac:(set_solver)) as [t Ht]. do 2 act. act. act; [done|].
  act. inert.
Qed.

Lemma cleanup_pop_keeps site : keeps (loom_rt_task_cleanup_pop site).
Proof.
  intros o Hi. unfold loom_rt_task_cleanup_pop. act. apply wp_current_or; [done|]. intros i Hc.
  destruct (current_live _ _ _ Hi Hc ltac:(set_solver)) as [t Ht]. do 2 act. act. act; [done|].
  act. apply wp_or_reject. destruct (remove_last_site _ _); [|done]. act. inert.
Qed.

Lemma peek_result_keeps x : keeps (loom_rt_task_peek_result x).
Proof.
  intros o Hi. unfold loom_rt_task_peek_result. act. eapply wp_parent; [exact Hi|set_solver|done|].
  intros p t tp Hp Ht Hpar Htp Hne Hin. act. act. act. act; [done|]. act. act; [done|]. act. act; [done|].
  by eapply wp_frame_pointer; [apply Hi|exact Ht|].
Qed.

Lemma adopt_keeps callee x : keeps (loom_rt_task_adopt callee x).
Proof.
  intros o Hi. unfold loom_rt_task_adopt. act. eapply wp_parent; [exact Hi|set_solver|done|].
  intros p tc tp Hp Htc Hparc Htp Hnec Hinc. act.
  eapply wp_parent; [exact Hi|set_solver|done|]. intros p' tx tp' Hp' Htx Hparx Htp' Hnex Hinx.
  rewrite Hp in Hp'. injection Hp' as <-. rewrite Htp in Htp'. injection Htp' as <-.
  act. act. act. act; [done|]. act. act; [done|]. act. act. act. act. act. act; [done|]. task_facts.
  pose proof (inv_tree _ _ _ Hi) as Htree.
  destruct (views_at _ _ _ Htx) as (_ & Vw & Vp & _ & _ & Vf & _).
  destruct (views_at _ _ _ Htc) as (Cs & _ & Cp & _ & _ & _ & _ & _ & _ & Cl).
  assert (par (tasks (core o)) x = Some p) as Hpx by congruence.
  assert (callee ≠ x) as Hne by done.
  apply reparent_wp; [exact Htree|exact Hpx|done|done|exact Cl| |].
  { rewrite (tree_links _ Htree). congruence. }
  intros ts' M. eapply inv_moved; try done.
  - eapply not_above_sibling; [exact Htree|exact Hpx| |done]. congruence.
  - by rewrite Vw.
  - right. by rewrite Vf.
  - unfold ord. rewrite Cs. simpl. by destruct (state tc).
Qed.

(** Marking a child as returned. *)
Lemma return_keeps x : keeps (loom_rt_task_return x).
Proof.
  intros o Hi. unfold loom_rt_task_return. act. eapply wp_parent; [exact Hi|set_solver|done|].
  intros p t tp Hp Ht Hpar Htp Hne Hin.
  act. act. act. act; [done|]. act. act; [done|]. act. act. act. act; [done|]. task_facts.
  do 5 act.
  view_facts Ht. view_facts Htp.
  destruct Hi as [I1 I2 I3 I4 I5 I6 I7 I8]. split; simpl; try same_part.
  - eapply wait_flags; [..|eassumption]; try same_view. intros y. autorewrite with views. simpl.
    intros Hy. repeat case_decide; subst; [by apply I2; congruence| |by apply I2].
    split; [|exists p]; congruence.
  - eapply (done_marked ∅ (tasks (core o)) _ x p); try same_view; try done; try congruence.
    + unfold ord. rewrite V9, H2. done.
    + rewrite V11. by destruct (parent_of tp).
Qed.
(** A new task, below the current one or as the root. *)
Lemma inv_created o n up ts' s :
  inv ∅ o → n = next (core o) + 1 → created (tasks (core o)) ts' n up →
  up = current (core o) → (∀ p, up = Some p → st (tasks (core o)) p = Some Running) →
  (up = None → root (core o) = None) → frames_ok ts' s →
  inv ∅ (mkOwner (mkCore ts' (ready (core o) ++ [n]) (current (core o))
           (match up with Some _ => root (core o) | None => Some n end) n (pending (core o)))
         s (reactor o) (world o)).
Proof.
  intros [I1 I2 I3 I4 I5 I6 I7 I8] Hn C Hup Hrun Hroot Hfr.
  assert (tasks (core o) !! n = None) as Hnone.
  { apply eq_None_not_Some. intros Hl. apply (ids_live _ I5) in Hl. lia. }
  pose proof (created_none _ _ Hnone) as (Hs & Hp & Hk & Hf & He & Hr & Hw & Hx & _).
  pose proof (created_ord _ _ _ _ C Hnone) as Hord.
  pose proof C as [C1 C2 C3 C4 C5 C6 C7 C8 C9].
  split; simpl; try done.
  - by eapply created_tree.
  - by eapply created_wait.
  - destruct I3 as [Q1 Q2 Q3 Q4 Q5 Q6].
    assert (n ∉ ready (core o)) as Hq by (intros Hq; apply Q6 in Hq; lia). split; simpl.
    + apply NoDup_app. split; [done|]. split; [|apply NoDup_singleton].
      intros y Hy ->%list_elem_of_singleton. done.
    + intros y. rewrite C3, elem_of_app, list_elem_of_singleton. case_decide; [by right|]. left. auto.
    + intros y. rewrite elem_of_app, list_elem_of_singleton, live_st, C3. unfold zombie. simpl.
      rewrite C4, Hord. unfold mems. setoid_rewrite C5. case_decide; [by left|].
      intros [Hy|?] Hl HD; [|done]. apply Q3; [done|by apply live_st|done].
    + intros y. rewrite C3. case_decide; [done|]. apply Q4.
    + intros y Hy HD. rewrite C3. case_decide; [subst y|by apply Q5].
      specialize (Q5 n Hy HD). by rewrite Hs in Q5.
    + intros y. rewrite elem_of_app, list_elem_of_singleton. intros [Hy%Q6| ->]; lia.
  - by eapply created_done.
  - destruct I5 as [J1 J2 J3]. split; simpl.
    + intros y. rewrite live_st, C3. case_decide; [subst; lia|]. intros Hy%live_st%J1. lia.
    + intros y k. rewrite Hord. intros Hy%J2. lia.
    + intros y z k. rewrite !Hord. apply J3.
  - destruct I6 as [X1 X2 X3 X4 X5]. split; simpl.
    + intros y. rewrite C3, C9. case_decide; [done|]. apply X1.
    + intros y w. rewrite C3, C9. case_decide; [subst; congruence|]. apply X2.
    + rewrite X3. f_equal. symmetry. apply pend_count_ext. intros y. unfold pend_at. by rewrite C9.
    + intros y w. rewrite C9. apply X4.
    + done.
  - destruct I8 as [R1 R2]. split; simpl; intros y; rewrite live_st, C3, C1.
    + case_decide; [subst y; by intros _ ->|]. intros Hy%live_st Hpy HyD.
      destruct up; [by apply R1|]. specialize (R1 y Hy Hpy HyD). rewrite (Hroot eq_refl) in R1. done.
    + destruct up as [p|].
      * intros Hy HD. destruct (R2 y Hy HD) as [Hl Hpy]. case_decide; [|split; [by apply live_st|done]].
        subst y. unfold live in Hl. rewrite Hnone in Hl. by destruct Hl.
      * intros [= <-] _. rewrite !decide_True by done. by split; [eexists|].
Qed.

Lemma fresh_id o n : inv ∅ o → n = next (core o) + 1 → tasks (core o) !! n = None.
Proof.
  intros Hi Hn. apply eq_None_not_Some. intros Hl. apply (ids_live _ (inv_ids _ _ _ Hi)) in Hl. lia.
Qed.

Lemma create_keeps ptr res label : keeps (loom_rt_task_create ptr res label).
Proof.
  intros o Hi. unfold loom_rt_task_create. do 4 act.
  destruct (current (core o)) as [p|] eqn:Hc.
  - destruct (current_live _ _ _ Hi Hc ltac:(set_solver)) as [t Ht]. do 3 act. act; [done|]. task_facts.
    act. apply wp_next_stamp. intros n Hn. act.
    eapply wp_insert_frame; [apply Hi|]. intros fr s Hfr. do 3 act.
    pose proof (fresh_id _ _ Hi Hn) as Hnone. assert (p ≠ n) as Hne by congruence.
    do 4 act. view_facts Ht.
    pose proof (created_none _ _ Hnone) as (Hs & Hp & Hk & Hf & He & Hr & Hw & Hx & Hg).
    refine (inv_created o n (Some p) _ s Hi Hn _ (eq_sym Hc) _ _ _); try done.
    + split; same_view.
    + intros ? [= <-]. congruence.
    + simpl. eapply frames_ok_insert; [by at_task|done|]. by apply Hfr.
  - act. act; [done|]. task_facts. act. apply wp_next_stamp. intros n Hn. act.
    eapply wp_insert_frame; [apply Hi|]. intros fr s Hfr. do 6 act.
    pose proof (fresh_id _ _ Hi Hn) as Hnone.
    pose proof (created_none _ _ Hnone) as (Hs & Hp & Hk & Hf & He & Hr & Hw & Hx & Hg).
    refine (inv_created o n None _ s Hi Hn _ (eq_sym Hc) _ _ _); try done.
    + split; same_view.
    + simpl. by apply Hfr.
Qed.
End operations.
