(* ===== verification/TaskResults.v ===== *)
(** Taking a task out of the tree, when it has no children and no wait left, and giving out
    its result. *)

From S2P Require Import Prelude Text Slots Tasks TaskInv TaskRun TaskOps.
From S2P Require FrameRoots Wait WaitFacts.
From Stdlib Require Import Sorted.

(** [ts'] is [ts] without [x]. *)
Record removed (ts ts' : gmap N Task) (x : N) : Prop := {
  removed_par y : par ts' y = if decide (y = x) then None else par ts y;
  removed_kids q : kids ts' q = oset_remove x (kids ts q);
  removed_st y : st ts' y = if decide (y = x) then None else st ts y;
  removed_wt y : wt ts' y = if decide (y = x) then None else wt ts y;
  removed_group y : group ts' y = if decide (y = x) then default_observation else group ts y;
  removed_flag y : flag ts' y = if decide (y = x) then false else flag ts y;
  removed_ret y : ret ts' y = if decide (y = x) then 0 else ret ts y;
  removed_extr y : extr ts' y = if decide (y = x) then false else extr ts y;
  removed_ext y : ext ts' y = if decide (y = x) then None else ext ts y }.

(** The map without a leaf, its parent's set of children being updated. *)
Lemma removed_delete ts x t :
  tree_ok ts → ts !! x = Some t → parent_of t = None → children t = [] → removed ts (delete x ts) x.
Proof.
  intros Htree Ht Hp Hk. view_facts Ht. split; try same_view.
  intros q. autorewrite with views. case_decide; [subst; by rewrite V2, Hk|].
  rewrite oset_remove_absent; [done|]. rewrite (tree_links _ Htree). congruence.
Qed.

Lemma removed_child ts x t p tp :
  tree_ok ts → ts !! x = Some t → parent_of t = Some p → children t = [] → ts !! p = Some tp →
  removed ts (<[p := set_children (oset_remove x (children tp)) tp]> (delete x ts)) x.
Proof.
  intros Htree Ht Hp Hk Htp. view_facts Ht. view_facts Htp.
  assert (p ≠ x) as Hne by (intros ->; apply (not_own_parent _ Htree x); congruence).
  split; try same_view.
  intros q. autorewrite with views. simpl. repeat case_decide; subst; [by rewrite V12|by rewrite V2, Hk|].
  rewrite oset_remove_absent; [done|]. rewrite (tree_links _ Htree). congruence.
Qed.

Section removal.
Context (ts ts' : gmap N Task) (x : N) (R : removed ts ts' x) (Htree : tree_ok ts).
Context (Hleaf : kids ts x = []) (D D' : gset N) (Hsub : D ⊆ {[x]} ∪ D').

Lemma removed_ord y : ord ts' y = if decide (y = x) then None else ord ts y.
Proof. unfold ord. rewrite (removed_st _ _ _ R). by case_decide. Qed.

Lemma removed_mems y : mems ts' y = if decide (y = x) then ∅ else mems ts y.
Proof. unfold mems. rewrite (removed_group _ _ _ R). by case_decide. Qed.

Lemma removed_grp y : grp ts' y = if decide (y = x) then [] else grp ts y.
Proof. unfold grp. rewrite (removed_group _ _ _ R). by case_decide. Qed.

Lemma removed_completed y : completed ts' y ↔ y ≠ x ∧ completed ts y.
Proof.
  unfold completed. rewrite (removed_st _ _ _ R). case_decide; [|naive_solver].
  split; [by intros [? ?]|by intros [? _]].
Qed.

Lemma removed_doom y : y ∉ D' → y ≠ x → y ∉ D.
Proof. intros Hy Hne HD. apply Hsub in HD. set_solver. Qed.

Lemma removed_tree : tree_ok ts'.
Proof. eapply (tree_remove ts ts' Htree x Hleaf); apply R. Qed.

Lemma removed_wait :
  (∀ q, mems ts q !! x = None) → (∀ p, p ≠ x → st ts p = Some (Waiting x) → p ∈ D') →
  wait_ok D ts → wait_ok D' ts'.
Proof.
  intros Hmem Hwaiting [W1 W2 W3 W4 W5 W6 W7 W8]. pose proof R as [R1 _ R3 R4 _ R6 _ _ _].
  assert (∀ y p, wt ts y = Some p → p ≠ x) as Hno.
  { intros y p Hy%W1 ->. apply (tree_links _ Htree) in Hy. rewrite Hleaf in Hy. by apply elem_of_nil in Hy. }
  split.
  - intros y p. rewrite R4, R1. case_decide; [done|]. apply W1.
  - intros y p. rewrite R4, removed_ord, removed_mems, R3. case_decide; [done|]. intros Hy HD HD' Ho.
    rewrite !decide_False by eauto. apply W2; eauto using removed_doom.
  - intros p y. rewrite R3, R4, removed_ord, removed_mems. case_decide as Hp; [done|]. intros Hy HD.
    assert (y ≠ x) as Hne by (intros ->; by apply HD, (Hwaiting p)). rewrite !decide_False by done.
    apply W3; eauto using removed_doom.
  - intros p y. rewrite removed_mems, R4. case_decide; [by intros []|]. intros Hy.
    rewrite decide_False; [by apply W4|]. intros ->. rewrite Hmem in Hy. by destruct Hy.
  - intros p k y. rewrite removed_grp, removed_mems, removed_ord. case_decide as Hp.
    + rewrite elem_of_nil, lookup_empty. split; [done|]. by intros [[] _].
    + rewrite W5. case_decide; [|done]. subst. rewrite Hmem. split; by intros [[] ?].
  - intros p. rewrite removed_grp. case_decide; [constructor|apply W6].
  - intros p. rewrite R3, removed_mems, removed_grp. case_decide; [done|].
    intros Hp HD. apply W7; eauto using removed_doom.
  - intros y. rewrite R6, R4, R1. case_decide; [done|]. apply W8.
Qed.

Lemma removed_done :
  (∀ p, par ts x = Some p → p ∈ D' ∨ flag ts x = false) → done_ok D ts → done_ok D' ts'.
Proof.
  intros Hcount [X1 X2 X3 X4 X5 X6]. pose proof R as [R1 R2 R3 _ _ R6 R7 R8 _].
  assert (∀ l, x ∉ l → flagged ts' l = flagged ts l) as Hfl.
  { intros l Hl. apply flagged_ext. intros z Hz. rewrite R6, decide_False; [done|]. by intros ->. }
  split.
  - intros y Hc HD. destruct (decide (y = x)) as [->|Hne].
    { destruct Hc as [Hl _]. rewrite live_st, R3, decide_True in Hl by done. by destruct Hl. }
    rewrite R7, decide_False, R2 by done.
    rewrite X1; [|apply (counted_ext ts ts'); [by rewrite R3, decide_False|by rewrite R8, decide_False|done]
                 |by apply removed_doom].
    do 2 f_equal. rewrite Hfl by (rewrite oset_remove_elem; by intros [? _]).
    destruct (decide (x ∈ kids ts y)) as [Hin|Hout]; [|by rewrite oset_remove_absent].
    symmetry. apply flagged_remove. apply (tree_links _ Htree) in Hin. by destruct (Hcount y Hin).
  - intros y z. rewrite removed_completed, R2, oset_remove_elem, R6. intros [Hne Hy] [Hz Hin].
    rewrite decide_False by done. by eapply X2.
  - intros y. rewrite R8, removed_completed, R2. case_decide; [done|]. intros Hy.
    destruct (X3 y Hy) as [Hc Hk]. split; [done|]. intros HD. by rewrite Hk by by apply removed_doom.
  - intros y. rewrite removed_ord, removed_completed, R2. case_decide; [by intros []|]. intros Ho Hc.
    rewrite X4; [done|done|]. intros Hc'. by apply Hc.
  - intros y. rewrite R1, R7. case_decide; [done|apply X5].
  - intros y k. rewrite R3, R1. case_decide; [done|]. apply X6.
Qed.
End removal.

(** The invariant without a leaf that nobody observes or waits for. *)
Lemma inv_removed {P W} D D' E E' (o : Owner P W) ts' x s :
  invs D E o → removed (tasks (core o)) ts' x → kids (tasks (core o)) x = [] →
  D ⊆ {[x]} ∪ D' → E ⊆ {[x]} ∪ E' →
  (∀ q, mems (tasks (core o)) q !! x = None) →
  (∀ p, p ≠ x → st (tasks (core o)) p = Some (Waiting x) → p ∈ D') →
  (∀ p, par (tasks (core o)) x = Some p → p ∈ E' ∨ flag (tasks (core o)) x = false) →
  current (core o) ≠ Some x → (root (core o) = Some x → x ∈ D') → ¬ pend_at (tasks (core o)) x →
  frames_ok ts' s →
  invs D' E' (mkOwner (with_tasks ts' (core o)) s (reactor o) (world o)).
Proof.
  intros [I1 I2 I3 I4 I5 I6 I7 I8] R Hleaf HD HE Hmem Hwaiting Hcount Hcur Hroot Hpend Hfr.
  pose proof R as [R1 R2 R3 R4 _ _ _ _ R9]. pose proof (removed_ord _ _ _ R) as Hord.
  assert (∀ y, live ts' y ↔ y ≠ x ∧ live (tasks (core o)) y) as Hlive.
  { intros y. rewrite !live_st, R3. case_decide; [|naive_solver]. split; [by intros []|by intros [? _]]. }
  split; simpl; try done.
  - by eapply removed_tree.
  - by eapply (removed_wait (tasks (core o)) ts' x R I1 Hleaf D).
  - destruct I3 as [Q1 Q2 Q3 Q4 Q5 Q6]. split; simpl; try done.
    + intros y. rewrite R3. case_decide; [done|]. apply Q2.
    + intros y Hy [Hne Hl]%Hlive HyD. rewrite R3, decide_False by done.
      destruct (Q3 y Hy Hl) as [?|(Ho & p & Hw & Hc & Hm)]; [by eapply removed_doom|by left|right].
      split; simpl; [by rewrite Hord, decide_False|]. exists p. rewrite R4, decide_False by done.
      rewrite (removed_mems _ _ _ R), decide_False by congruence. done.
    + intros y. rewrite R3. case_decide; [done|]. intros Hy HyD. apply Q4; [done|by eapply removed_doom].
    + intros y Hy HyD. rewrite R3, decide_False by congruence. apply Q5; [done|].
      eapply removed_doom; [done..|congruence].
  - by eapply (removed_done (tasks (core o)) ts' x R I1 Hleaf E).
  - destruct I5 as [J1 J2 J3]. split; simpl.
    + intros y [_ Hl]%Hlive. by apply J1.
    + intros y k. rewrite Hord. case_decide; [done|]. apply J2.
    + intros y z k. rewrite !Hord. repeat case_decide; try done. apply J3.
  - destruct I6 as [X1 X2 X3 X4 X5]. split; simpl; try done.
    + intros y. rewrite R3, R9. case_decide; [done|]. intros Hy HyD. apply X1; [done|by eapply removed_doom].
    + intros y w. rewrite R3, R9. case_decide; [done|]. intros Hy Hr HyD.
      apply (X2 y w); [done..|by eapply removed_doom].
    + rewrite X3. f_equal. symmetry. apply pend_count_ext. intros y. unfold pend_at. rewrite R9.
      case_decide; [subst|done]. split; [by intros (? & ? & _)|]. done.
    + intros y w. rewrite R9. case_decide; [done|]. apply X4.
  - destruct I8 as [T1 T2]. split; simpl.
    + intros y [Hne Hl]%Hlive. rewrite R1, decide_False by done. intros Hpy HyD.
      apply T1; [done..|by eapply removed_doom].
    + intros y Hy HyD. assert (y ≠ x) as Hne by (intros ->; auto).
      rewrite Hlive, R1, decide_False by done. destruct (T2 y Hy); [by eapply removed_doom|]. done.
Qed.

(** The end of a removal: the frame goes with its task. *)
Lemma wp_removed {P W} D D' E E' (o : Owner P W) ts' x t (Q : answer () → Owner P W → Prop) :
  invs D E o → tasks (core o) !! x = Some t → removed (tasks (core o)) ts' x →
  (∀ y t', ts' !! y = Some t' → y ≠ x ∧ ∃ u, tasks (core o) !! y = Some u ∧ frame u = frame t') →
  kids (tasks (core o)) x = [] → D ⊆ {[x]} ∪ D' → E ⊆ {[x]} ∪ E' →
  (∀ q, mems (tasks (core o)) q !! x = None) →
  (∀ p, p ≠ x → st (tasks (core o)) p = Some (Waiting x) → p ∈ D') →
  (∀ p, par (tasks (core o)) x = Some p → p ∈ E' ∨ flag (tasks (core o)) x = false) →
  current (core o) ≠ Some x → (root (core o) = Some x → x ∈ D') → ¬ pend_at (tasks (core o)) x →
  (∀ s, invs D' E' (mkOwner (with_tasks ts' (core o)) s (reactor o) (world o)) →
    Q (Done tt) (mkOwner (with_tasks ts' (core o)) s (reactor o) (world o))) →
  wp (drop_frame (frame t)) Q (mkOwner (with_tasks ts' (core o)) (roots o) (reactor o) (world o)).
Proof.
  intros Hi Ht R Hfr Hk HD HE Hm Hw Hc Hcur Hroot Hp HQ.
  eapply (wp_drop_frame (tasks (core o)) x t); [apply Hi|done|exact Hfr|]. intros s Hs.
  apply HQ. by eapply inv_removed.
Qed.

(** Extracting the result of a completed task, and releasing a finished one, keep the
    invariant of the scheduler. *)

(** The task being resumed has not ended. *)
Lemma current_active {P W} E (o : Owner P W) p :
  invs ∅ E o → current (core o) = Some p → ord (tasks (core o)) p = None ∧ live (tasks (core o)) p.
Proof.
  intros Hi Hc. pose proof (queue_current _ _ (inv_queue _ _ _ Hi) p Hc ltac:(set_solver)) as Ha.
  unfold ord, live. unfold st in *. destruct (tasks (core o) !! p) as [t|]; [|done]. simpl in *.
  destruct (state t); try done; (split; [done|by eexists]).
Qed.

(** The children of a completed task are returned, and nobody waits for them. *)
Lemma returned_child {P W} E (o : Owner P W) x y :
  invs ∅ E o → completed (tasks (core o)) x → y ∈ kids (tasks (core o)) x →
  flag (tasks (core o)) y = true ∧ wt (tasks (core o)) y = None ∧ par (tasks (core o)) y = Some x.
Proof.
  intros Hi Hx Hy. pose proof (done_completed _ _ (inv_done _ _ _ Hi) _ _ Hx Hy) as Hf.
  split; [done|]. split; [by apply (wait_flag _ _ (inv_wait _ _ _ Hi))|].
  by apply (tree_links _ (inv_tree _ _ _ Hi)).
Qed.

Section results.
Context {P W : Type} `{Wait.Poller P} `{Native W}.
Implicit Types o : Owner P W.

(** The children that a completed task returns go to its consumer one by one. *)
Lemma hand_over_wp n x p t (Q : answer () → Owner P W → Prop) o :
  invs ∅ {[x]} o → current (core o) = Some p → par (tasks (core o)) x = Some p →
  tasks (core o) !! x = Some t → completed (tasks (core o)) x → (length (children t) ≤ n)%nat →
  (∀ o' t', invs ∅ {[x]} o' → tasks (core o') !! x = Some t' → children t' = [] →
     frame t' = frame t → state t' = state t → waiter t' = waiter t → current (core o') = current (core o) →
     (∀ y, par (tasks (core o')) y = if decide (y ∈ children t) then Some p else par (tasks (core o)) y) → Q (Done tt) o') →
  wp (hand_over n x p) Q o.
Proof.
  revert t o. induction n as [|n IH]; intros t o Hi Hc Hx Ht Hdone Hn HQ; cbn [hand_over].
  - act. act. destruct (children t) as [|y l] eqn:El; [|simpl in Hn; lia]. cbn [head]. act.
    by eapply HQ.
  - act. act. destruct (children t) as [|y l] eqn:El; cbn [head].
    { act. by eapply HQ. }
    view_facts Ht. assert (y ∈ kids (tasks (core o)) x) as Hy by (rewrite V2, El; left).
    destruct (returned_child _ _ _ _ Hi Hdone Hy) as (Hf & Hw & Hp).
    destruct (kids_live _ (inv_tree _ _ _ Hi) _ _ Hy) as [[r Hr] _]. view_facts Hr.
    act. act. act. apply wp_reject_if.
    { intros Hbad. exfalso. rewrite V11 in Hp. rewrite V10 in Hw. rewrite V14 in Hf.
      by rewrite Hp, Hw, Hf, bool_decide_true in Hbad. }
    intros _. act. pose proof (inv_tree _ _ _ Hi) as Htree.
    destruct (current_active _ _ _ Hi Hc) as [Hop Hlp].
    assert (p ≠ x) as Hpx by (intros ->; by apply (not_own_parent _ Htree x)).
    assert (p ≠ y) as Hpy.
    { intros ->. eapply not_above_parent; [exact Htree|exact Hp|]. by apply above_parent. }
    apply reparent_wp; [exact Htree|exact Hp|done|done|exact Hlp| |].
    { rewrite (tree_links _ Htree). congruence. }
    intros ts' M. pose proof M as [M1 M2 M3 M4 M5 M6 M7 M8 M9 M10].
    assert (live ts' x) as [t' Ht'] by (rewrite live_st, M4, <-live_st; done).
    destruct (M10 _ _ Ht') as (t0 & Ht0 & Hfr). rewrite Ht in Ht0. injection Ht0 as <-.
    destruct (views_at _ _ _ Ht') as (S' & U' & _ & K' & _).
    assert (children t' = l) as El'.
    { rewrite <-K', M2, decide_False, decide_True, V2, El by congruence.
      pose proof (tree_kids_NoDup _ Htree x) as Hnd. rewrite V2, El in Hnd.
      apply NoDup_cons in Hnd as [Hyl _]. by apply oset_remove_head. }
    assert (state t' = state t) as Es by (rewrite M4 in S'; congruence).
    apply (IH t'); simpl; try done.
    + eapply inv_moved; try done; [|left; set_solver]. intros Ha.
      eapply (not_above_parent _ x p Htree Hx). eapply above_trans; [by apply above_parent|exact Ha].
    + by rewrite M1, decide_False by congruence.
    + by apply (moved_completed _ _ _ _ _ M).
    + rewrite El'. simpl in Hn. lia.
    + intros o' t'' Hi' Ht'' Hk Hf'' Hs'' Hw'' Hc'' Hpar. rewrite M5 in U'. apply (HQ o' t''); try congruence. intros z. rewrite Hpar, El'. simpl.
      rewrite M1. destruct (decide (z = y)) as [->|Hz].
      * rewrite (decide_True (P := y ∈ y :: l)) by left. by case_decide.
      * destruct (decide (z ∈ l)), (decide (z ∈ y :: l)) as [Hin|Hin]; try done; [destruct Hin; by right|].
        by apply elem_of_cons in Hin as [?|?].
Qed.

(** An extracted result: its task no longer holds children or cleanups. *)
Lemma inv_extracted o x t :
  invs ∅ {[x]} o → tasks (core o) !! x = Some t → completed (tasks (core o)) x → children t = [] →
  inv ∅ (on_tasks (insert x (set_cleanups [] (set_result_extracted true t))) o).
Proof.
  intros [I1 I2 I3 I4 I5 I6 I7 I8] Ht Hdone Hk. view_facts Ht. split; simpl; try same_part.
  set (ts' := <[x := _]> _).
  assert (∀ y, extr ts' y = if decide (y = x) then true else extr (tasks (core o)) y) as E by same_view.
  assert (∀ y, st ts' y = st (tasks (core o)) y) as Es by same_view.
  assert (∀ y, kids ts' y = kids (tasks (core o)) y) as Ek by same_view.
  assert (∀ y, flag ts' y = flag (tasks (core o)) y) as Ef by same_view.
  assert (∀ y, ret ts' y = ret (tasks (core o)) y) as Er by same_view.
  assert (∀ y, par ts' y = par (tasks (core o)) y) as Ep by same_view.
  assert (∀ y, completed ts' y ↔ completed (tasks (core o)) y) as Ec by (intros; by apply completed_ext).
  destruct I4 as [X1 X2 X3 X4 X5 X6]. split.
  - intros y Hc _. destruct (decide (y = x)) as [->|Hne].
    + destruct Hc as [_ [Ho|[_ He]]]; [|by rewrite E, decide_True in He].
      destruct Hdone as [n Hn]. rewrite (ord_ext _ _ _ (Es x)) in Ho. unfold ord in Ho. by rewrite Hn in Ho.
    + rewrite Er, Ek, (flagged_ext (tasks (core o))) by done. apply X1; [|set_solver].
      apply (counted_ext (tasks (core o)) ts'); [done|by rewrite E, decide_False|done].
  - intros y z. rewrite Ec, Ek, Ef. apply X2.
  - intros y. rewrite E, Ec, Ek. case_decide; [subst; by rewrite V2|].
    intros Hy. destruct (X3 y Hy) as [? Hkids]. split; [done|]. intros _. apply Hkids. set_solver.
  - intros y. rewrite (ord_ext _ _ _ (Es y)), Ec, Ek. apply X4.
  - intros y. rewrite Ep, Er. apply X5.
  - intros y k. rewrite Es, Ep. apply X6.
Qed.

(** A completed task that returns no children has none. *)
Lemma returned_none o x :
  inv ∅ o → completed (tasks (core o)) x → live (tasks (core o)) x → extr (tasks (core o)) x = false →
  ret (tasks (core o)) x = 0 → kids (tasks (core o)) x = [].
Proof.
  intros Hi Hdone Hl He Hr.
  assert (counted (tasks (core o)) x) as Hc by (split; [done|by right]).
  pose proof (done_count _ _ (inv_done _ _ _ Hi) x Hc ltac:(set_solver)) as Hn. rewrite Hr in Hn.
  destruct (kids (tasks (core o)) x) as [|y l] eqn:Ek; [done|]. exfalso.
  assert (flag (tasks (core o)) y = true) as Hf.
  { eapply (done_completed _ _ (inv_done _ _ _ Hi)); [exact Hdone|]. rewrite Ek. left. }
  unfold flagged in Hn. rewrite filter_cons, decide_True in Hn by done. simpl in Hn. lia.
Qed.

Local Notation keeps m := (@TaskRun.keeps P W _ m).

(** What a consumer gets of [x]: its result once, with the children that the result names; or
    its fault, again and again. A refused call changes nothing. *)
Definition consumed x (r : answer (N + OwnedFault)) o o' : Prop :=
  match r with
  | Done (inl _) => ∃ p, current (core o) = Some p ∧ par (tasks (core o)) x = Some p ∧ completed (tasks (core o)) x ∧
      extr (tasks (core o)) x = false ∧ extr (tasks (core o')) x = true ∧ kids (tasks (core o')) x = [] ∧
      wt (tasks (core o')) x = Some p ∧ current (core o') = Some p ∧ completed (tasks (core o')) x ∧
      ∀ y, par (tasks (core o')) y = if decide (y ∈ kids (tasks (core o)) x) then Some p else par (tasks (core o)) y
  | Done (inr f) => (∃ n, st (tasks (core o)) x = Some (Faulted f n)) ∧ o' = o
  | Invalid _ => o' = o
  end.

Lemma result_wp x o : inv ∅ o → wp (loom_rt_task_result x) (λ r o', inv ∅ o' ∧ consumed x r o o') o.
Proof.
  intros Hi. unfold loom_rt_task_result. act. eapply wp_parent; [exact Hi|set_solver|by split|].
  intros p t tp Hp Ht Hpar Htp Hne Hin. act. act. act. act; [done|]. view_facts Ht.
  destruct (state t) as [| | | | |n|f n|n] eqn:Es; try by split.
  2: { act. split; [done|]. split; [by exists n|done]. }
  act. act; [done|]. task_facts.
  assert (completed (tasks (core o)) x) as Hdone by (exists n; congruence).
  assert (∀ o' t', invs ∅ {[x]} o' → tasks (core o') !! x = Some t' → children t' = [] →
     frame t' = frame t → state t' = state t → waiter t' = waiter t → current (core o') = current (core o) →
     (∀ y, par (tasks (core o')) y = if decide (y ∈ children t) then Some p else par (tasks (core o)) y) →
     wp (update x (λ t, set_cleanups [] (set_result_extracted true t)) ;;
         ptr ← frame_pointer (frame t) "rooted task result"; mret (inl ptr))
       (λ r o', inv ∅ o' ∧ consumed x r o o') o') as Hend.
  { intros o' t' Hi' Ht' Hk Hf Hs Hw' Hc' Hp'. do 2 act.
    assert (inv ∅ (on_tasks (insert x (set_cleanups [] (set_result_extracted true t'))) o')) as Hinv.
    { eapply inv_extracted; try done. exists n. unfold st. rewrite Ht'. simpl. congruence. }
    act. rewrite <-Hf.
    eapply (wp_frame_pointer x (set_cleanups [] (set_result_extracted true t'))); [apply Hinv| |].
    - apply lookup_insert_eq.
    - intros ptr. act. split; [done|]. exists p. split; [done|]. split; [congruence|].
      split; [done|]. split; [congruence|].
      destruct (views_at _ _ _ Ht') as (_ & _ & E & _). unfold completed. cbn.
      rewrite extr_insert, kids_insert, wt_insert, st_insert, !decide_True by done. split; [done|]. split; [done|].
      split; [cbn; congruence|]. split; [congruence|]. split; [exists n; cbn; congruence|].
      intros y. rewrite par_insert. rewrite V2, <-Hp'. case_decide; [subst|done]. by rewrite E. }
  assert (invs ∅ {[x]} o) as Hi'.
  { destruct Hi as [? ? ? ? ? ? ? ?]. split; try done. by eapply done_mono; [|eassumption]. }
  act. destruct (N.eqb_spec (returned t) 0) as [Hr|Hr]; cbn [negb].
  - assert (children t = []) as Hk by (rewrite <-V2; apply returned_none; try done; congruence).
    act. apply (Hend o t); try done. intros y. rewrite Hk. by rewrite decide_False by apply not_elem_of_nil.
  - act. act; [done|]. eapply hand_over_wp; [exact Hi'|exact Hp|congruence|exact Ht|done|done|]. exact Hend.
Qed.

Lemma result_keeps x : keeps (loom_rt_task_result x).
Proof. intros o Hi. eapply wp_mono; [by apply result_wp|]. by intros r o' [? _]. Qed.

(** A release comes after the selection of an observed task. *)
Lemma release_keeps x o :
  inv ∅ o → (∀ p, current (core o) = Some p → mems (tasks (core o)) p !! x = None) →
  wp (loom_rt_task_release x) (λ _ o', inv ∅ o') o.
Proof.
  intros Hi Hsel. unfold loom_rt_task_release. act. eapply wp_parent; [exact Hi|set_solver|done|].
  intros p t tp Hp Ht Hpar Htp Hne Hin. act. act. act. act; [done|]. act. act; [done|]. act. act; [done|].
  task_facts. do 3 act. eapply wp_update; [at_task|].
  view_facts Ht. view_facts Htp. pose proof (inv_tree _ _ _ Hi) as Htree.
  assert (par (tasks (core o)) x = Some p) as Hpx by congruence.
  assert (wt (tasks (core o)) x = Some p) as Hwx by congruence.
  assert (is_Some (ord (tasks (core o)) x)) as [k Hk] by (unfold ord; by rewrite V).
  assert (∀ q, mems (tasks (core o)) q !! x = None) as Hmem.
  { intros q. apply eq_None_not_Some. intros Hq. pose proof Hq as Hq'.
    apply (wait_members _ _ (inv_wait _ _ _ Hi)) in Hq'. rewrite Hwx in Hq'. injection Hq' as <-.
    rewrite Hsel in Hq by done. by destruct Hq. }
  eapply (wp_removed ∅ ∅ ∅ ∅ o _ x t);
    [exact Hi|exact Ht|by eapply removed_child| | |apply empty_subseteq|apply empty_subseteq|exact Hmem|..].
  - intros y t'. simpl. rewrite lookup_insert_Some, lookup_delete_Some.
    intros [[<- <-]|[_ [Hy Hyt]]]; [split; [done|]; by exists tp|]. split; [done|]. by exists t'.
  - congruence.
  - intros q _ Hq. apply (wait_waiting _ _ (inv_wait _ _ _ Hi)) in Hq; [|set_solver]. naive_solver.
  - intros q _. right. destruct (flag (tasks (core o)) x) eqn:Hf; [|done].
    apply (wait_flag _ _ (inv_wait _ _ _ Hi)) in Hf as [Hf _]. congruence.
  - congruence.
  - intros Hr. destruct (root_live _ _ (inv_root _ _ _ Hi) x Hr ltac:(set_solver)). congruence.
  - intros (w & Hw & Hn). apply (external_state _ _ _ (inv_external _ _ _ Hi)) in Hw; [|done|set_solver].
    unfold ord in Hk. by rewrite Hw in Hk.
  - done.
Qed.
End results.
