(* ===== verification/TaskWaits.v ===== *)
(** The operations that make a task wait - for a child, for the observed children, for an
    event outside - and those that take the notifications, keep the invariant. *)

From S2P Require Import Prelude Text Slots Tasks TaskInv TaskRun TaskOps TaskResults.
From S2P Require FrameRoots Wait WaitFacts.
From Stdlib Require Import Sorted.

(** ** A task that changes its state without ending *)

(** [ts'] is [ts] with [x] in state [s]; what it waits for may have changed too. *)
Record stated (ts ts' : gmap N Task) (x : N) (s : State) : Prop := {
  stated_st y : st ts' y = if decide (y = x) then Some s else st ts y;
  stated_par y : par ts' y = par ts y;
  stated_kids y : kids ts' y = kids ts y;
  stated_flag y : flag ts' y = flag ts y;
  stated_ret y : ret ts' y = ret ts y;
  stated_extr y : extr ts' y = extr ts y }.

Section states.
Context (ts ts' : gmap N Task) (x : N) (s s' : State) (S : stated ts ts' x s').
Context (Hs : st ts x = Some s) (Ho : terminal_order s = None) (Ho' : terminal_order s' = None).

Lemma stated_ord y : ord ts' y = ord ts y.
Proof. unfold ord. rewrite (stated_st _ _ _ _ S). case_decide; [subst|done]. rewrite Hs. simpl. congruence. Qed.

Lemma stated_completed y : completed ts' y ↔ completed ts y.
Proof.
  unfold completed. rewrite (stated_st _ _ _ _ S). case_decide; [subst|done]. rewrite Hs.
  split; intros [k [= ->]]; done.
Qed.

Lemma stated_live y : live ts' y ↔ live ts y.
Proof.
  rewrite !live_st, (stated_st _ _ _ _ S). case_decide; [subst|done]. rewrite Hs. split; by eexists.
Qed.

Lemma stated_wait D :
  (∀ y, wt ts' y = wt ts y) → (∀ y, group ts' y = group ts y) →
  (∀ c, s ≠ Waiting c) → (∀ c, s' ≠ Waiting c) →
  (s' = Observing → mems ts x ≠ ∅ ∧ grp ts x = []) → wait_ok D ts → wait_ok D ts'.
Proof.
  intros S4 S5 Hw Hw' Hobs [W1 W2 W3 W4 W5 W6 W7 W8]. pose proof S as [S1 S2 _ S6 _ _].
  assert (∀ y, mems ts' y = mems ts y) as stated_mems by (intros; unfold mems; by rewrite S5).
  assert (∀ y, grp ts' y = grp ts y) as stated_grp by (intros; unfold grp; by rewrite S5). split.
  - intros y p. rewrite S4, S2. apply W1.
  - intros y p. rewrite S4, stated_ord, stated_mems, S1. intros Hy HD HD' Hn.
    destruct (W2 y p Hy HD HD' Hn) as [?|Hp]; [by left|]. case_decide; [subst|by right].
    rewrite Hs in Hp. injection Hp as Hp. by destruct (Hw y).
  - intros p y. rewrite S1, S4, stated_ord, stated_mems. case_decide; [|apply W3].
    intros [= Hp]. by destruct (Hw' y).
  - intros p y. rewrite stated_mems, S4. apply W4.
  - intros p k y. rewrite stated_grp, stated_mems, stated_ord. apply W5.
  - intros p. rewrite stated_grp. apply W6.
  - intros p. rewrite S1, stated_mems, stated_grp. case_decide; [|apply W7]. subst. intros [= ->] _. by apply Hobs.
  - intros y. rewrite S6, S4, S2. apply W8.
Qed.

Lemma stated_done E : done_ok E ts → done_ok E ts'.
Proof.
  intros [X1 X2 X3 X4 X5 X6]. pose proof S as [S1 S2 S3 S6 S7 S8]. split.
  - intros y. unfold counted. rewrite stated_live, stated_ord, stated_completed, S8, S7, S3.
    rewrite (flagged_ext ts ts') by done. apply X1.
  - intros y z. rewrite stated_completed, S3, S6. apply X2.
  - intros y. rewrite S8, stated_completed, S3. apply X3.
  - intros y. rewrite stated_ord, stated_completed, S3. apply X4.
  - intros y. rewrite S2, S7. apply X5.
  - intros y k. rewrite S1, S2. case_decide; [intros [= ->]; done|]. apply X6.
Qed.

Lemma stated_ids c c' :
  tasks c = ts → tasks c' = ts' → next c ≤ next c' → ids_ok c → ids_ok c'.
Proof.
  intros E1 E2 Hn [J1 J2 J3]. split; rewrite E1, E2 in *.
  - intros y. rewrite stated_live. intros Hy%J1. lia.
  - intros y k. rewrite stated_ord. intros Hy%J2. lia.
  - intros y z k. rewrite !stated_ord. apply J3.
Qed.

Lemma stated_root D c c' :
  tasks c = ts → tasks c' = ts' → root c' = root c → root_ok D c → root_ok D c'.
Proof.
  intros E1 E2 Hr [R1 R2]. split; rewrite E2, Hr; rewrite E1 in *; intros y;
    rewrite stated_live, (stated_par _ _ _ _ S); auto.
Qed.
End states.

(** A change of state in the whole scheduler; the queue and the external waits are left. *)
Lemma inv_stated {P W} D E (o : Owner P W) ts' q cur n (r : Wait.Reactor P) s s' x :
  invs D E o → stated (tasks (core o)) ts' x s' → st (tasks (core o)) x = Some s →
  (∀ y, wt ts' y = wt (tasks (core o)) y) → (∀ y, group ts' y = group (tasks (core o)) y) →
  terminal_order s = None → terminal_order s' = None →
  (∀ c, s ≠ Waiting c) → (∀ c, s' ≠ Waiting c) →
  (s' = Observing → mems (tasks (core o)) x ≠ ∅ ∧ grp (tasks (core o)) x = []) →
  let c' := mkCore ts' q cur (root (core o)) (next (core o)) n in
  queue_ok D c' → external_ok D c' r →
  (∀ y t', ts' !! y = Some t' → ∃ t, tasks (core o) !! y = Some t ∧ frame t = frame t') →
  invs D E (mkOwner c' (roots o) r (world o)).
Proof.
  intros [I1 I2 I3 I4 I5 I6 I7 I8] S Hs Hwt Hgr Ho Ho' Hw Hw' Hobs c' Hq Hx Hfr. split; simpl; try done.
  - eapply tree_ext; [..|exact I1]; apply S.
  - by eapply (stated_wait _ _ x s s').
  - by eapply (stated_done _ _ x s s').
  - by eapply (stated_ids _ _ x s s' S Hs Ho Ho' (core o)).
  - by eapply frames_ok_ext.
  - by eapply (stated_root _ _ x s s' S Hs D (core o)).
Qed.

(** The task being resumed is not in the queue. *)
Lemma current_not_ready {P W} E (o : Owner P W) x :
  invs ∅ E o → current (core o) = Some x → x ∉ ready (core o).
Proof.
  intros Hi Hc Hx. destruct (current_active _ _ _ Hi Hc) as [Hn Hl].
  pose proof (inv_queue _ _ _ Hi) as [_ _ Q3 _ Q5 _]. specialize (Q5 x Hc ltac:(set_solver)).
  destruct (Q3 x Hx Hl ltac:(set_solver)) as [Hs|[[k Ho] _]]; [by rewrite Hs in Q5|congruence].
Qed.

(** It stays the one being resumed. *)
Lemma queue_current_stated {P W} E (o : Owner P W) x ts' s' n :
  invs ∅ E o → current (core o) = Some x → stated (tasks (core o)) ts' x s' →
  active_state (Some s') →
  let c' := mkCore ts' (ready (core o)) (current (core o)) (root (core o)) (next (core o)) n in
  (∀ y, zombie (core o) y → zombie c' y) → queue_ok ∅ c'.
Proof.
  intros Hi Hc S Ha c' Hz. pose proof (current_not_ready _ _ _ Hi Hc) as Hx. pose proof (stated_st _ _ _ _ S) as S1.
  destruct (inv_queue _ _ _ Hi) as [Q1 Q2 Q3 Q4 Q5 Q6]. split; simpl; try done.
  - intros y. rewrite S1. case_decide; [|apply Q2]. intros [= ->]. done.
  - intros y Hy. rewrite live_st, S1. case_decide; [by subst|]. intros Hly%live_st HD.
    destruct (Q3 y Hy Hly HD) as [?|?]; [by left|right; by apply Hz].
  - intros y. rewrite S1. case_decide; [by subst|apply Q4].
  - intros y Hy HD. rewrite S1. case_decide; [done|by apply Q5].
Qed.

(** A task that was cancelled while it was queued stays one. *)
Lemma zombie_waits c c' x :
  (∀ y, ord (tasks c') y = ord (tasks c) y) → current c' = current c →
  (∀ p, wt (tasks c) x = Some p → wt (tasks c') x = Some p) →
  (∀ p, mems (tasks c) p !! x = None → mems (tasks c') p !! x = None) → zombie c x → zombie c' x.
Proof.
  intros E1 E2 E3 E4 (Ho & p & Hw & Hc & Hm). split; [by rewrite E1|]. exists p. rewrite E2. auto.
Qed.

Lemma zombie_put c c' x t t' y :
  tasks c !! x = Some t → tasks c' = <[x := t']> (tasks c) → waiter t' = waiter t →
  observation t' = observation t → terminal_order (state t') = terminal_order (state t) →
  current c' = current c → zombie c y → zombie c' y.
Proof.
  intros Ht Ets Ew Eo Es Ec. view_facts Ht. apply zombie_waits; [|done|..]; rewrite Ets.
  - intros z. autorewrite with views. case_decide; [subst|done]. unfold ord. by rewrite V, Es.
  - intros p. autorewrite with views. case_decide; [subst|done]. by rewrite Ew, V0.
  - intros p. autorewrite with views. case_decide; [subst|done]. unfold mems. by rewrite Eo, V3.
Qed.

(** Its external wait is untouched when it goes between running and observing. *)
Lemma external_stated {P W} E (o : Owner P W) x ts' s s' q cur :
  invs ∅ E o → stated (tasks (core o)) ts' x s' → st (tasks (core o)) x = Some s →
  (∀ y, ext ts' y = ext (tasks (core o)) y) → s ≠ ExternalWaiting → s' ≠ ExternalWaiting →
  external_ok ∅ (mkCore ts' q cur (root (core o)) (next (core o)) (pending (core o))) (reactor o).
Proof.
  intros Hi S Hs Hx Hne Hne'. destruct (inv_external _ _ _ Hi) as [X1 X2 X3 X4 X5]. split; simpl; try done.
  - intros y. rewrite (stated_st _ _ _ _ S), Hx. case_decide; [congruence|apply X1].
  - intros y w. rewrite (stated_st _ _ _ _ S), Hx. intros Hy Hr HD. case_decide; [|by eapply X2].
    subst. specialize (X2 x w Hy Hr HD). congruence.
  - rewrite X3. f_equal. symmetry. apply pend_count_ext. intros y. unfold pend_at. by rewrite Hx.
  - intros y w. rewrite Hx. apply X4.
Qed.

Section waits.
Context {P W : Type} `{Wait.Poller P} `{Native W}.
Implicit Types o : Owner P W.

Local Notation keeps m := (@TaskRun.keeps P W _ m).

(** ** Observation *)

Lemma wait_next_keeps : keeps loom_rt_task_wait_next.
Proof.
  intros o Hi. unfold loom_rt_task_wait_next. act. apply wp_current_or; [done|]. intros x Hc.
  destruct (current_live _ _ _ Hi Hc ltac:(set_solver)) as [t Ht]. view_facts Ht. do 3 act.
  act; [done|]. task_facts. act. apply wp_or_reject.
  destruct (observation t) as [g|] eqn:Eo; [|done]. act. act; [done|]. task_facts. act. act. act.
  set (s' := if negb (bool_decide (group_ready g = [])) then Running else Observing).
  assert (active_state (Some s')) as Ha by (unfold s'; by case_bool_decide).
  assert (state t = Running ∨ state t = Observing) as Hs.
  { unfold running in *. destruct (state t); try done; by auto. }
  assert (stated (tasks (core o)) (<[x := set_state s' t]> (tasks (core o))) x s') as S.
  { split; try same_view. }
  refine (inv_stated ∅ ∅ o _ _ _ (pending (core o)) (reactor o) (state t) s' x Hi S V _ _ _ _ _ _ _ _ _ _).
  - same_view.
  - same_view.
  - by destruct Hs as [-> | ->].
  - unfold s'. by case_bool_decide.
  - intros c. by destruct Hs as [-> | ->].
  - intros c. unfold s'. by case_bool_decide.
  - unfold s', mems, grp. rewrite V3. simpl. by case_bool_decide.
  - eapply queue_current_stated; try done. intros y.
    eapply zombie_put; try done. destruct Hs as [-> | ->]; unfold s'; simpl; by case_bool_decide.
  - eapply external_stated; try done; [same_view|by destruct Hs as [-> | ->]|].
    unfold s'. by case_bool_decide.
  - by eapply same_frames.
Qed.

(** Observing a child: it gets a waiter and becomes a member of the group, and an ended one
    is announced at once. *)
Record observed (ts ts' : gmap N Task) (x p : N) (index : Z) : Prop := {
  observed_par y : par ts' y = par ts y;
  observed_kids y : kids ts' y = kids ts y;
  observed_st y : st ts' y = st ts y;
  observed_wt y : wt ts' y = if decide (y = x) then Some p else wt ts y;
  observed_mems q : mems ts' q = if decide (q = p) then <[x := index]> (mems ts p) else mems ts q;
  observed_grp q : grp ts' q = if decide (q = p) then
      match ord ts x with Some k => pset_insert (k, x) (grp ts p) | None => grp ts p end
    else grp ts q;
  observed_flag y : flag ts' y = flag ts y }.

Lemma wait_observed ts ts' x p index :
  observed ts ts' x p index → par ts x = Some p → wt ts x = None → flag ts x = false →
  st ts p = Some Running → wait_ok ∅ ts → wait_ok ∅ ts'.
Proof.
  intros [O1 _ O3 O4 O5 O6 O7] Hpar Hwt Hf Hrun [W1 W2 W3 W4 W5 W6 W7 W8].
  assert (∀ y, ord ts' y = ord ts y) as Ho by (intros; by apply ord_ext).
  assert (mems ts p !! x = None) as Hm.
  { apply eq_None_not_Some. intros Hin%W4. congruence. }
  split.
  - intros y q. rewrite O4, O1. case_decide; [naive_solver|apply W1].
  - intros y q. rewrite O4, Ho, O5, O3. case_decide as Hy; [subst y|].
    + intros [= <-] _ _ _. left. rewrite decide_True, lookup_insert_eq by done. by eexists.
    + intros Hw HD HD' Hn. destruct (W2 y q Hw HD HD' Hn) as [Hin|Hst]; [left|by right].
      case_decide; [|done]. subst. by rewrite lookup_insert_ne.
  - intros q y Hq HD. rewrite O3 in Hq. destruct (W3 q y Hq HD) as (Hw & Hn & Hin).
    rewrite O4, Ho, O5. assert (q ≠ p) as Hqp by congruence. rewrite !(decide_False (P := q = p)) by done.
    case_decide; [congruence|done].
  - intros q y. rewrite O5, O4. repeat case_decide; subst; try done.
    + rewrite lookup_insert_ne by done. apply W4.
    + intros Hin%W4. congruence.
    + apply W4.
  - intros q k y. rewrite O6, O5, Ho. case_decide as Hq; [subst q|apply W5].
    rewrite lookup_insert_is_Some'. destruct (ord ts x) as [n|] eqn:Hx.
    + rewrite pset_insert_elem, W5. split.
      * intros [[= -> ->]|[Hin Hk]]; [split; [by left|done]|split; [by right|done]].
      * intros [[<-|Hin] Hk]; [left; congruence|by right].
    + rewrite W5. split; [intros [? ?]; split; [by right|done]|]. intros [[<-|?] ?]; [congruence|done].
  - intros q. rewrite O6. case_decide; [|apply W6]. case_match; [|apply W6]. apply pset_insert_sorted, W6.
  - intros q. rewrite O3, O5, O6. intros Hq HD. rewrite !decide_False by congruence. by apply W7.
  - intros y. rewrite O7, O4, O1. case_decide; [congruence|apply W8].
Qed.

Lemma observe_keeps x index : keeps (loom_rt_task_observe x index).
Proof.
  intros o Hi. unfold loom_rt_task_observe. act. eapply wp_parent; [exact Hi|set_solver|done|].
  intros p t tp Hp Ht Hpar Htp Hne Hin. act. act. act. act; [done|]. act. act. act. act; [done|]. task_facts.
  act. act. act. act. act.
  view_facts Ht. view_facts Htp. pose proof (inv_wait _ _ _ Hi) as Hw.
  assert (mems (tasks (core o)) p !! x = None) as Hm.
  { apply eq_None_not_Some. intros Hm%(wait_members _ _ Hw). congruence. }
  assert (∀ k, (k, x) ∉ grp (tasks (core o)) p) as Hg.
  { intros k [Hg _]%(wait_group _ _ Hw). rewrite Hm in Hg. by destruct Hg. }
  unfold mems, grp in Hm, Hg. rewrite V13 in Hm, Hg.
  apply wp_assert; [by apply bool_decide_eq_true|]. act.
  set (g := default default_observation (observation tp)) in *.
  assert (∀ g', members g' = <[x := index]> (members g) →
    group_ready g' = match terminal_order (state t) with
                     | Some k => pset_insert (k, x) (group_ready g) | None => group_ready g end →
    inv ∅ (on_tasks (insert p (set_observation (Some g') tp)) (on_tasks (insert x (set_waiter (Some p) t)) o)))
    as Hend.
  { intros g' Hmem Hgrp.
    assert (observed (tasks (core o)) (<[p := set_observation (Some g') tp]>
              (<[x := set_waiter (Some p) t]> (tasks (core o)))) x p index) as O.
    { split; try same_view.
      intros q. autorewrite with views. simpl. repeat case_decide; subst; try done.
      - unfold grp, ord. by rewrite V13, V.
      - unfold grp. by rewrite V3. }
    destruct Hi as [I1 I2 I3 I4 I5 I6 I7 I8]. split; simpl; try same_part.
    - eapply wait_observed; try done; congruence.
    - eapply queue_waits; [..|exact I3]; try done; [same_view|]. intros y Hz.
      assert (y ≠ x) as Hyx by (intros ->; destruct Hz as (_ & q & Hq & _); congruence).
      revert Hz. apply zombie_waits; simpl; try done.
      + intros z. apply ord_ext, O.
      + intros q. by rewrite (observed_wt _ _ _ _ _ O), decide_False.
      + intros q. rewrite (observed_mems _ _ _ _ _ O). case_decide; [subst|done]. by rewrite lookup_insert_ne. }
  destruct (terminal_order (state t)) as [k|] eqn:Ek.
  - apply wp_announce; [apply Hg|]. act. act. act. by apply Hend.
  - act. act. act. act. by apply Hend.
Qed.

(** ** Waiting for a child *)

(** [ts'] is [ts] with [p] as the waiter of [x], and in state [s]. *)
Lemma wait_awaiting ts ts' x p s :
  stated ts ts' p s → par ts x = Some p → (wt ts x = None ∨ wt ts x = Some p) → mems ts p !! x = None →
  flag ts x = false → st ts p = Some Running ∨ st ts p = Some (Waiting x) →
  s = (match ord ts x with Some _ => Running | None => Waiting x end) →
  (∀ y, wt ts' y = if decide (y = x) then Some p else wt ts y) → (∀ y, group ts' y = group ts y) →
  wait_ok ∅ ts → wait_ok ∅ ts'.
Proof.
  intros S Hpar Hwt Hm Hf Hrun Hs S4 S5 [W1 W2 W3 W4 W5 W6 W7 W8]. pose proof S as [S1 S2 _ S6 _ _].
  assert (∀ y, mems ts' y = mems ts y) as Em by (intros; unfold mems; by rewrite S5).
  assert (∀ y, grp ts' y = grp ts y) as Eg by (intros; unfold grp; by rewrite S5).
  assert (∀ y, ord ts' y = ord ts y) as Eo.
  { intros y. unfold ord at 1. rewrite S1. case_decide; [subst y|done]. unfold ord at 1.
    destruct Hrun as [-> | ->]; subst s; by destruct (ord ts x). }
  split.
  - intros y q. rewrite S4, S2. case_decide; [naive_solver|apply W1].
  - intros y q. rewrite S4, Eo, Em, S1. case_decide as Hy; [subst y|].
    + intros [= <-] _ _ Hn. rewrite Hn in Hs. right. by rewrite decide_True, Hs.
    + intros Hw HD HD' Hn. destruct (W2 y q Hw HD HD' Hn) as [?|Hq]; [by left|].
      case_decide; [subst q|by right]. destruct Hrun; congruence.
  - intros q y. rewrite S1, S4, Eo, Em. case_decide as Hq; [subst q|].
    + intros [= Hy] _. rewrite Hy in Hs. destruct (ord ts x) eqn:Hx; [done|]. injection Hs as ->.
      by rewrite decide_True.
    + intros Hy HD. destruct (W3 q y Hy HD) as (Hw & Hn & Hin).
      rewrite decide_False; [done|]. intros ->. destruct Hwt; congruence.
  - intros q y. rewrite Em, S4. intros Hin. case_decide; [subst y|by apply W4]. pose proof (W4 _ _ Hin) as Hq.
    destruct Hwt; [congruence|]. assert (q = p) as -> by congruence. rewrite Hm in Hin. by destruct Hin.
  - intros q k y. rewrite Eg, Em, Eo. apply W5.
  - intros q. rewrite Eg. apply W6.
  - intros q. rewrite S1, Em, Eg. case_decide; [|apply W7]. subst s. by destruct (ord ts x).
  - intros y. rewrite S6, S4, S2. case_decide; [congruence|apply W8].
Qed.

Lemma wp_contains c p x tp (Q : answer bool → Owner P W → Prop) o :
  tasks c !! p = Some tp → Q (Done (bool_decide (is_Some (mems (tasks c) p !! x)))) o →
  wp (λ o, r ← contains c p x; Ok (Done r, o)) Q o.
Proof.
  intros Hp HQ. unfold wp, contains. rewrite Hp. simpl. unfold mems, group in HQ. rewrite Hp in HQ. simpl in HQ.
  destruct (observation tp) as [g|]; [exact HQ|]. simpl in HQ. by rewrite lookup_empty, bool_decide_false in HQ by by intros [].
Qed.

Lemma await_keeps x : keeps (loom_rt_task_await x).
Proof.
  intros o Hi. unfold loom_rt_task_await. act. eapply wp_parent; [exact Hi|set_solver|done|].
  intros p t tp Hp Ht Hpar Htp Hne Hin. do 2 act. act. eapply wp_contains; [exact Htp|].
  act. act; [done|]. do 3 act. act; [done|]. act. act; [done|]. act. act. act. act; [done|]. act. act; [done|].
  do 3 act. task_facts. view_facts Ht. view_facts Htp. pose proof (inv_wait _ _ _ Hi) as Hw.
  assert (state tp = Running ∨ state tp = Waiting x) as Hs.
  { destruct (state tp); try done; [by left|]. right. f_equal. by apply N.eqb_eq. }
  assert (waiter t = None ∨ waiter t = Some p) as Hwt.
  { destruct (waiter t); [|by left]. right. task_facts. congruence. }
  set (s := match ord (tasks (core o)) x with Some _ => Running | None => Waiting x end).
  assert (∀ ts', stated (tasks (core o)) ts' p s →
    (∀ y, wt ts' y = if decide (y = x) then Some p else wt (tasks (core o)) y) →
    (∀ y, group ts' y = group (tasks (core o)) y) → (∀ y, ext ts' y = ext (tasks (core o)) y) →
    (∀ y t', ts' !! y = Some t' → ∃ t, tasks (core o) !! y = Some t ∧ frame t = frame t') →
    inv ∅ (on_tasks (λ _, ts') o)) as Hend.
  { intros ts' S Ew Eg Ex Ef.
    assert (terminal_order (state tp) = None) as Hn1 by (by destruct Hs as [-> | ->]).
    assert (terminal_order s = None) as Hn2 by (unfold s; by destruct (ord (tasks (core o)) x)).
    pose proof Hi as [I1 I2 I3 I4 I5 I6 I7 I8]. split; simpl.
    - eapply tree_ext; [..|exact I1]; apply S.
    - eapply (wait_awaiting (tasks (core o)) ts' x p s); [exact S|congruence|by rewrite V0|assumption|congruence|
        |reflexivity|exact Ew|exact Eg|exact I2].
      rewrite V9. by destruct Hs as [-> | ->]; [left|right].
    - eapply (queue_current_stated ∅ o p); try done; [unfold s; by destruct (ord (tasks (core o)) x)|].
      intros y. apply zombie_waits; simpl; try done.
      + eapply stated_ord; [exact S|exact V9|done|done].
      + intros q Hq. rewrite Ew. case_decide; [subst|done]. destruct Hwt; congruence.
      + intros q. unfold mems. by rewrite Eg.
    - by eapply (stated_done _ _ p (state tp) s).
    - by eapply (stated_ids _ _ p (state tp) s S V9 Hn1 Hn2 (core o)).
    - eapply external_stated; try done; [by destruct Hs as [-> | ->]|]. unfold s. by destruct (ord (tasks (core o)) x).
    - by eapply frames_ok_ext.
    - by eapply (stated_root _ _ p (state tp) s S V9 ∅ (core o)). }
  assert (ord (tasks (core o)) x = terminal_order (state t)) as Eo by (unfold ord; by rewrite V).
  destruct (terminal t) eqn:Hterm; task_facts.
  - act. act. rewrite <-Eo in Hterm. destruct Hterm as [k Ek].
    apply (Hend (<[x := set_waiter (Some p) t]> (tasks (core o)))); [|same_view..|by eapply same_frames].
    assert (state tp = Running) as Hr.
    { destruct Hs as [|Hs]; [done|]. rewrite Hs in V9. apply (wait_waiting _ _ Hw) in V9; [|set_solver].
      destruct V9 as (_ & E & _). congruence. }
    assert (s = Running) as Es by (unfold s; by rewrite ?Ek). clearbody s. split; same_view.
  - eapply wp_update; [at_task|]. act.
    apply (Hend (<[p := set_state (Waiting x) tp]> (<[x := set_waiter (Some p) t]> (tasks (core o)))));
      [|same_view..|].
    + rewrite <-Eo in Hterm. unfold s. rewrite Hterm. split; same_view.
    + intros y u Hu. eapply same_frames in Hu as (v & Hv & <-); [|by at_task|done].
      by eapply same_frames in Hv.
Qed.
End waits.
