(* ===== verification/TaskEvents.v ===== *)
(** Taking the notifications of observed children, and waiting for events outside the
    scheduler, keep its invariant. *)

From S2P Require Import Prelude Text Slots Tasks TaskInv TaskRun TaskOps TaskResults TaskWaits.
From S2P Require FrameRoots Wait WaitFacts.
From Stdlib Require Import Sorted.

(** ** Selection *)

(** [ts'] is [ts] after the first notification of [p], of its child [c], has been taken. *)
Record selected (ts ts' : gmap N Task) (p c : N) (rest : list (N * N)) : Prop := {
  selected_par y : par ts' y = par ts y;
  selected_kids y : kids ts' y = kids ts y;
  selected_st y : st ts' y = st ts y;
  selected_wt y : wt ts' y = if decide (y = c) then None else wt ts y;
  selected_mems q : mems ts' q = if decide (q = p) then delete c (mems ts p) else mems ts q;
  selected_grp q : grp ts' q = if decide (q = p) then rest else grp ts q;
  selected_flag y : flag ts' y = flag ts y }.

Lemma wait_selected ts ts' p c k rest :
  selected ts ts' p c rest → grp ts p = (k, c) :: rest → st ts p = Some Running →
  wait_ok ∅ ts → wait_ok ∅ ts'.
Proof.
  intros [S1 _ S3 S4 S5 S6 S7] Hg Hrun [W1 W2 W3 W4 W5 W6 W7 W8].
  assert (∀ y, ord ts' y = ord ts y) as Ho by (intros; by apply ord_ext).
  assert (is_Some (mems ts p !! c) ∧ ord ts c = Some k) as [Hc Hk] by (apply W5; rewrite Hg; left).
  pose proof (W4 _ _ Hc) as Hwc. pose proof (pset_sorted_NoDup _ (W6 p)) as Hnd. rewrite Hg in Hnd.
  apply NoDup_cons in Hnd as [Hnot _].
  split.
  - intros y q. rewrite S4, S1. case_decide; [done|apply W1].
  - intros y q. rewrite S4, Ho, S5, S3. case_decide; [done|]. intros Hw HD HD' Hn.
    destruct (W2 y q Hw HD HD' Hn) as [?|?]; [left|by right]. case_decide; [subst|done].
    by rewrite lookup_delete_ne.
  - intros q y. rewrite S3, S4, Ho, S5. intros Hq HD. destruct (W3 q y Hq HD) as (Hw & Hn & Hm).
    assert (y ≠ c) as Hy by congruence. rewrite decide_False by done. split; [done|]. split; [done|].
    case_decide; [subst|done]. by rewrite lookup_delete_ne.
  - intros q y. rewrite S5, S4. destruct (decide (y = c)) as [->|Hy].
    + case_decide; [rewrite lookup_delete_eq; by intros []|]. intros Hin%W4. congruence.
    + case_decide; [subst; rewrite lookup_delete_ne by done|]; apply W4.
  - intros q n y. rewrite S6, S5, Ho. case_decide; [subst|apply W5]. specialize (W5 p n y). rewrite Hg in W5.
    rewrite elem_of_cons in W5. rewrite lookup_delete_is_Some. destruct (decide (c = y)) as [<-|Hy].
    + split; [|by intros [[] _]]. intros Hin. destruct (proj1 W5) as [_ Hn]; [by right|].
      assert (n = k) as -> by congruence. done.
    + split; [intros Hin; destruct (proj1 W5); [by right|done]|].
      intros [[_ Hin] Hn]. destruct (proj2 W5) as [E|?]; [done|congruence|done].
  - intros q. rewrite S6. case_decide; [subst|apply W6]. specialize (W6 p). rewrite Hg in W6. by inversion W6.
  - intros q. rewrite S3, S5, S6. intros Hq HD. rewrite !decide_False by congruence. by apply W7.
  - intros y. rewrite S7, S4, S1. intros Hf. destruct (W8 y Hf). by case_decide.
Qed.

(** ** Registrations of the reactor *)

Section registrations.
Context {P : Type} (r r' : Wait.Reactor P).

Lemma registered_unchanged reg x :
  WaitFacts.unchanged (Wait.core r) (Wait.core r') → registered r reg x → registered r' reg x.
Proof.
  intros [U1 _ _ _ _ U6] [(a & Ha & Ho)|(n & Hn & Hr)]; [left; exists a; by rewrite U1|right; exists n; by rewrite U6].
Qed.

(** What other threads and a wait of the reactor do announces a registration with its owner. *)
Lemma registered_progresses reg x :
  WaitFacts.progresses [] (Wait.core r) (Wait.core r') → registered r reg x → registered r' reg x.
Proof.
  intros [_ [new Hnew] Ha] [(a & Har & Ho)|(n & Hn & Hr)].
  - destruct (Ha reg a Har) as [?|(n & Hn & Hr & Hown)]; [by intros ?%elem_of_nil| |].
    + left. by exists a.
    + right. exists n. split; [done|]. split; [done|congruence].
  - right. exists n. by rewrite Hnew, elem_of_app; eauto.
Qed.

Lemma registered_register reg a reg' x :
  ¬ WaitFacts.issued_by (Wait.core r) reg →
  (∀ j, Wait.active (Wait.core r') j = WaitFacts.upd reg (Some a) (Wait.active (Wait.core r)) j) →
  Wait.ready (Wait.core r') = Wait.ready (Wait.core r) → registered r reg' x → registered r' reg' x.
Proof.
  intros Hni Hact Hready [(b & Hb & Ho)|(n & Hn & Hr)]; [left; exists b|right; exists n; by rewrite Hready].
  rewrite Hact. unfold WaitFacts.upd. rewrite decide_False; [done|]. intros ->. apply Hni.
  by eapply occupant_issued.
Qed.

(** The cancelled registration is that of another owner. *)
Lemma registered_cancelled reg b reg' x y :
  WaitFacts.core_ok (Wait.core r) → WaitFacts.cancelled reg (Wait.core r) (Wait.core r') (Wait.Success b) →
  registered r reg y → x ≠ y → registered r reg' x → registered r' reg' x.
Proof.
  intros (_ & _ & _ & Hst) (_ & _ & Hact & _ & Hready) Hy Hne [(a & Ha & Ho)|(n & Hn & Hr)];
    [left; exists a|right; exists n; by rewrite Hready].
  rewrite Hact. unfold WaitFacts.upd. rewrite decide_False; [done|]. intros ->.
  destruct Hy as [(a' & Ha' & Ho')|(n & Hn & <- & _)]; [congruence|].
  destruct (Hst (Wait.registration n)) as [_ Hnone]; [by apply list_elem_of_fmap_2|].
  unfold Wait.active in Ha. congruence.
Qed.
End registrations.

Lemma wp_on_reactor {P W A} (m : Wait.IO P A) (Qr : Wait.result A → Wait.Reactor P → Prop)
    (Q : answer (Wait.result A) → Owner P W → Prop) o :
  WaitFacts.wp m Qr (reactor o) →
  (∀ r s, Qr r s → Q (Done r) (mkOwner (core o) (roots o) s (world o))) → wp (on_reactor m) Q o.
Proof.
  unfold wp, WaitFacts.wp, on_reactor. intros Hm HQ. destruct (m (reactor o)) as [[r s]| | |]; simpl; try done.
  - by apply HQ.
  - by left.
Qed.

Section events.
Context {P W : Type} `{Wait.Poller P} `{Native W} (linux : bool).
Implicit Types o : Owner P W.

Local Notation keeps m := (@TaskRun.keeps P W _ m).

Lemma wp_select o p t why f (Q : answer (N * Z * Observation) → Owner P W → Prop) :
  inv ∅ o → tasks (core o) !! p = Some t → (∀ why, Q (Invalid why) o) →
  (∀ k c index g rest, observation t = Some g → group_ready g = (k, c) :: rest → members g !! c = Some index →
     Q (Done (c, index, mkObservation (delete c (members g)) rest None (f index))) o) →
  wp (select t why f) Q o.
Proof.
  intros Hi Ht Hno HQ. unfold select. act. apply wp_or_reject.
  destruct (observation t) as [g|] eqn:Eo; [|apply Hno]. act. apply wp_or_reject.
  destruct (group_ready g) as [|[k c] rest] eqn:Eg; [apply Hno|]. cbn [head]. act. view_facts Ht.
  assert ((k, c) ∈ grp (tasks (core o)) p) as Hin.
  { unfold grp. rewrite V3, Eo. simpl. rewrite Eg. left. }
  apply (wait_group _ _ (inv_wait _ _ _ Hi)) in Hin as [[index Hm] _].
  unfold mems in Hm. rewrite V3, Eo in Hm. simpl in Hm.
  eapply wp_expect; [exact Hm|]. act. cbn [tail]. by eapply HQ.
Qed.

(** The end of a selection by the running task. *)
Lemma inv_selected o p c k t g rest g' :
  inv ∅ o → current (core o) = Some p → tasks (core o) !! p = Some t → state t = Running →
  observation t = Some g → group_ready g = (k, c) :: rest →
  members g' = delete c (members g) → group_ready g' = rest →
  ∃ tc, tasks (core o) !! c = Some tc ∧ c ≠ p ∧ terminal_order (state tc) = Some k ∧
    inv ∅ (on_tasks (insert c (set_waiter None tc)) (on_tasks (insert p (set_observation (Some g') t)) o)).
Proof.
  intros Hi Hp Ht Hs Eo Eg Em Er. pose proof (inv_wait _ _ _ Hi) as Hw. view_facts Ht.
  assert (grp (tasks (core o)) p = (k, c) :: rest) as Hg by (unfold grp; by rewrite V3, Eo; simpl).
  assert (is_Some (mems (tasks (core o)) p !! c) ∧ ord (tasks (core o)) c = Some k) as [Hc Hk]
    by (apply (wait_group _ _ Hw); rewrite Hg; left).
  pose proof (wait_members _ _ Hw _ _ Hc) as Hwc. pose proof (wait_parent _ _ Hw _ _ Hwc) as Hpc.
  assert (c ≠ p) as Hne by (intros ->; by apply (not_own_parent _ (inv_tree _ _ _ Hi) p)).
  assert (is_Some (tasks (core o) !! c)) as [tc Htc] by by eapply par_live.
  exists tc. view_facts Htc. split; [done|]. split; [done|].
  split; [unfold ord in Hk; by rewrite V9 in Hk|].
  set (ts' := <[c := set_waiter None tc]> (<[p := set_observation (Some g') t]> (tasks (core o)))).
  assert (selected (tasks (core o)) ts' p c rest) as S.
  { split; try same_view; intros q; unfold ts'; autorewrite with views; simpl; repeat case_decide; subst; try done.
    all: unfold mems, grp; by rewrite ?V3, ?V13, ?Eo, ?Em. }
  destruct Hi as [I1 I2 I3 I4 I5 I6 I7 I8]. split; simpl; fold ts'; try same_part.
  - eapply wait_selected; try done. congruence.
  - eapply queue_waits; [..|exact I3]; try done; [same_view|]. intros y Hz.
    assert (y ≠ c) as Hyc.
    { intros ->. destruct Hz as (_ & q & Hq & _ & Hm). assert (q = p) as -> by congruence.
      rewrite Hm in Hc. by destruct Hc. }
    revert Hz. apply zombie_waits; simpl; try done.
    + intros z. apply ord_ext, S.
    + intros q. fold ts'. by rewrite (selected_wt _ _ _ _ _ S), decide_False.
    + intros q. fold ts'. rewrite (selected_mems _ _ _ _ _ S). case_decide; [subst|done]. by rewrite lookup_delete_ne.
Qed.

Lemma next_result_keeps : keeps loom_rt_task_next_result.
Proof.
  intros o Hi. unfold loom_rt_task_next_result. act. apply wp_current_or; [done|]. intros p Hp.
  destruct (current_live _ _ _ Hi Hp ltac:(set_solver)) as [t Ht]. do 3 act. act; [done|]. task_facts.
  act. eapply wp_select; [exact Hi|exact Ht|done|]. intros k c index g rest Eo Eg _. do 3 act.
  destruct (inv_selected o p c k t g rest (mkObservation (delete c (members g)) rest None None) Hi Hp Ht)
    as (tc & Htc & Hne & _ & Hinv); try done.
  eapply wp_update; [at_task|]. by act.
Qed.

Lemma next_terminal_result_keeps : keeps loom_rt_task_next_terminal_result.
Proof.
  intros o Hi. unfold loom_rt_task_next_terminal_result. act. apply wp_current_or; [done|]. intros p Hp.
  destruct (current_live _ _ _ Hi Hp ltac:(set_solver)) as [t Ht]. do 3 act. act; [done|]. task_facts.
  act. eapply wp_select; [exact Hi|exact Ht|done|]. intros k c index g rest Eo Eg _. do 3 act.
  assert (∀ f n, ∃ tc, tasks (core o) !! c = Some tc ∧ c ≠ p ∧ terminal_order (state tc) = Some k ∧
    inv ∅ (on_tasks (insert c (set_waiter None tc))
      (on_tasks (insert p (set_observation (Some (mkObservation (delete c (members g)) rest f n)) t)) o))) as Hsel.
  { intros f n. by eapply inv_selected. }
  destruct (Hsel None (Some index)) as (tc & Htc & Hne & Hk & Hinv).
  act. act. destruct (state tc) eqn:Es; try done; act; repeat act.
  - exact Hinv.
  - destruct (Hsel (Some c) (Some index)) as (tc' & Htc' & _ & _ & Hinv').
    rewrite Htc in Htc'. injection Htc' as <-. unfold on_tasks in *. simpl in *.
    by rewrite insert_insert_eq.
  - exact Hinv.
Qed.

(** The selected outcome touches nothing that the invariant speaks about. *)
Lemma inv_observation o p t g g' :
  inv ∅ o → tasks (core o) !! p = Some t → observation t = Some g → members g' = members g →
  group_ready g' = group_ready g → inv ∅ (on_tasks (insert p (set_observation (Some g') t)) o).
Proof.
  intros [I1 I2 I3 I4 I5 I6 I7 I8] Ht Eo Em Eg. view_facts Ht.
  assert (∀ q, mems (<[p := set_observation (Some g') t]> (tasks (core o))) q = mems (tasks (core o)) q) as E1.
  { intros q. autorewrite with views. simpl. case_decide; [subst|done]. unfold mems. by rewrite V3, Eo. }
  assert (∀ q, grp (<[p := set_observation (Some g') t]> (tasks (core o))) q = grp (tasks (core o)) q) as E2.
  { intros q. autorewrite with views. simpl. case_decide; [subst|done]. unfold grp. by rewrite V3, Eo. }
  split; simpl; try same_part.
  - eapply wait_ext; [..|exact I2]; try done; same_view.
  - eapply queue_ext; [..|exact I3]; try done; same_view.
Qed.

Lemma next_terminal_index_keeps : keeps loom_rt_task_next_terminal_index.
Proof.
  intros o Hi. unfold loom_rt_task_next_terminal_index. act. apply wp_current_or; [done|]. intros p Hp.
  destruct (current_live _ _ _ Hi Hp ltac:(set_solver)) as [t Ht]. do 3 act. act; [done|]. task_facts.
  act. apply wp_or_reject. destruct (observation t) as [g|] eqn:Eo; [|done]. simpl.
  destruct (selected_index g); [|done]. do 3 act. by eapply inv_observation.
Qed.

(** The diagnostic is read while the selected child is still held. *)
Lemma next_terminal_failure_keeps o :
  inv ∅ o →
  (∀ p c, current (core o) = Some p → selected_fault (group (tasks (core o)) p) = Some c →
     live (tasks (core o)) c) →
  wp loom_rt_task_next_terminal_failure (λ _ o', inv ∅ o') o.
Proof.
  intros Hi Hheld. unfold loom_rt_task_next_terminal_failure. act. apply wp_current_or; [done|]. intros p Hp.
  destruct (current_live _ _ _ Hi Hp ltac:(set_solver)) as [t Ht]. do 3 act. act; [done|]. task_facts.
  act. apply wp_or_reject. destruct (observation t) as [g|] eqn:Eo; [|done].
  act. apply wp_or_reject. destruct (selected_fault g) as [c|] eqn:Ec; [|done]. view_facts Ht.
  destruct (Hheld p c Hp) as [tc Htc]; [rewrite V3, Eo; exact Ec|].
  assert (inv ∅ (on_tasks (insert p (set_observation (Some (mkObservation (members g) (group_ready g) None
    (selected_index g))) t)) o)) as Hinv by by eapply inv_observation.
  do 3 act. destruct (decide (c = p)) as [->|Hne].
  - eapply wp_task; [apply lookup_insert_eq|]. simpl. rewrite H1. by act.
  - eapply wp_task; [at_task|]. destruct (state tc); by act.
Qed.

(** ** Inspection *)

Lemma wp_awaited o x (Q : answer Task → Owner P W → Prop) :
  inv ∅ o → (∀ why, Q (Invalid why) o) →
  (∀ t, tasks (core o) !! x = Some t → is_Some (terminal_order (state t)) → Q (Done t) o) →
  wp (awaited x) Q o.
Proof.
  intros Hi Hno HQ. unfold awaited. act. eapply wp_parent; [exact Hi|set_solver|done|].
  intros p t tp Hp Ht Hpar Htp Hne Hin. act. act. act. act; [done|]. task_facts. act. by apply HQ.
Qed.

Lemma status_keeps x : keeps (loom_rt_task_status x).
Proof.
  intros o Hi. unfold loom_rt_task_status. act. apply wp_awaited; [done..|]. intros t Ht [k Hk].
  destruct (state t); done || by act.
Qed.

Lemma failure_keeps x : keeps (loom_rt_task_failure x).
Proof.
  intros o Hi. unfold loom_rt_task_failure. act. apply wp_awaited; [done..|]. intros t Ht _.
  destruct (state t); by act.
Qed.

(** ** External waits *)

Lemma wait_source_keeps src : keeps (task_wait_source linux src).
Proof.
  intros o Hi. unfold task_wait_source. act. apply wp_current_or; [done|]. intros x Hc.
  destruct (current_live _ _ _ Hi Hc ltac:(set_solver)) as [t Ht]. view_facts Ht. do 3 act.
  act; [done|]. assert (state t = Running ∨ state t = ExternalWaiting) as Hs.
  { unfold running in *. destruct (state t); try done; by auto. }
  assert (terminal_order (state t) = None) as Hn by (by destruct Hs as [-> | ->]).
  assert (∀ c, state t ≠ Waiting c) as Hnw by (intros c; by destruct Hs as [-> | ->]).
  pose proof (inv_external _ _ _ Hi) as [X1 X2 X3 X4 X5].
  assert (∀ s e (r : Wait.Reactor P) n, terminal_order s = None → active_state (Some s) → (∀ c, s ≠ Waiting c) → s ≠ Observing →
    let ts' := <[x := set_state s (set_external e t)]> (tasks (core o)) in
    let c' := mkCore ts' (ready (core o)) (current (core o)) (root (core o)) (next (core o)) n in
    external_ok ∅ c' r → inv ∅ (mkOwner c' (roots o) r (world o))) as Hput.
  { intros s e r n Hns Ha Hw Ho ts' c' Hx.
    assert (stated (tasks (core o)) ts' x s) as S by (split; same_view).
    refine (inv_stated ∅ ∅ o _ _ _ n r (state t) s x Hi S V _ _ Hn Hns Hnw Hw _ _ Hx _).
    - same_view.
    - same_view.
    - by intros ->.
    - eapply queue_current_stated; try done. intros y. eapply zombie_put; try done. simpl. congruence.
    - by eapply same_frames. }
  destruct (external t) as [w|] eqn:Ew.
  - act. act; [done|]. destruct (wait_ready w) as [n|] eqn:Er; [|by do 3 act].
    do 3 act. apply (Hput Running None (reactor o) (pending (core o))); try done.
    assert (state t = Running) as Hrun.
    { destruct Hs as [|Hs]; [done|]. destruct (X1 x) as (w' & Hw' & Hr'); [congruence|set_solver|congruence]. }
    split; simpl; try done.
    + intros y. rewrite st_insert, ext_insert. case_decide; [done|]. apply X1.
    + intros y v. rewrite st_insert, ext_insert. case_decide; [done|]. apply X2.
    + rewrite X3. f_equal. symmetry. apply pend_count_ext. intros y. unfold pend_at. rewrite ext_insert.
      case_decide; [subst|done]. rewrite V7. split; [by intros (? & ? & _)|]. intros (v & [= <-] & Hv). congruence.
    + intros y v. rewrite ext_insert. case_decide; [done|]. apply X4.
  - assert (¬ pend_at (tasks (core o)) x) as Hnp by (intros (v & Hv & _); congruence).
    act. eapply wp_on_reactor; [by apply WaitFacts.register_wp|]. intros [reg|e] s [Hok Hpost].
    + destruct Hpost as (Hni & Hact & Hiss & Hready). do 5 act.
      apply (Hput ExternalWaiting (Some (mkExternal src reg None)) s (pending (core o) + 1)); try done.
      split; simpl; try done.
      * intros y. rewrite st_insert, ext_insert. case_decide; [by eexists|apply X1].
      * intros y v. rewrite st_insert, ext_insert. case_decide; [done|]. apply X2.
      * rewrite X3. symmetry. rewrite (pend_count_add (tasks (core o)) _ x); [lia|done|]. intros y. unfold pend_at.
        rewrite ext_insert. case_decide; [subst|naive_solver]. split; [by left|]. by eexists.
      * intros y v. rewrite ext_insert. simpl. case_decide; [subst|].
        -- intros [= <-] _. left. eexists. rewrite Hact. unfold WaitFacts.upd. by rewrite decide_True.
        -- intros Hv Hr. eapply registered_register; eauto.
    + act. destruct Hi as [I1 I2 I3 I4 I5 I6 I7 I8]. split; simpl; try done. split; simpl; try done.
      intros y v Hv Hr. eapply registered_unchanged; eauto.
Qed.

Lemma wait_timer_keeps deadline : keeps (loom_rt_task_wait_timer linux deadline).
Proof.
  intros o Hi. unfold loom_rt_task_wait_timer. act. act; [done|]. act.
  eapply wp_mono; [by apply wait_source_keeps|]. intros [[n|e]|why] o' Hi'; [by act|by act|done].
Qed.
End events.
