(* ===== verification/TaskCleanups.v ===== *)
(** The parts of a cancellation: retiring the wait and the blocking job of a task, draining
    its cleanups, and taking it out of its parent's observation group. *)

From S2P Require Import Prelude Text Slots Tasks TaskInv TaskRun TaskOps TaskWaits TaskEvents.
From S2P Require FrameRoots Wait WaitFacts.
From Stdlib Require Import Sorted.

(** [ts'] is [ts] where nobody observes [x]. *)
Record forgot (ts ts' : gmap N Task) (x : N) : Prop := {
  forgot_par y : par ts' y = par ts y;
  forgot_kids y : kids ts' y = kids ts y;
  forgot_st y : st ts' y = st ts y;
  forgot_wt y : wt ts' y = wt ts y;
  forgot_flag y : flag ts' y = flag ts y;
  forgot_ret y : ret ts' y = ret ts y;
  forgot_extr y : extr ts' y = extr ts y;
  forgot_ext y : ext ts' y = ext ts y;
  forgot_mems q y : mems ts' q !! y = if decide (y = x) then None else mems ts q !! y;
  forgot_grp q k y : (k, y) ∈ grp ts' q ↔ y ≠ x ∧ (k, y) ∈ grp ts q;
  forgot_sorted q : StronglySorted pair_order (grp ts' q);
  forgot_frame y t' : ts' !! y = Some t' →
    ∃ t, ts !! y = Some t ∧ t' = set_observation (observation t') t }.

(** Nothing to forget when nobody observes it. *)
Lemma forgot_refl D ts x :
  wait_ok D ts → (∀ q, mems ts q !! x = None) → forgot ts ts x.
Proof.
  intros [_ _ _ _ W5 W6 _ _] Hm. split; try done.
  - intros q y. case_decide; [by subst|done].
  - intros q k y. split; [|by intros [_ ?]]. intros Hin. split; [|done]. intros ->.
    apply W5 in Hin as [Hin _]. rewrite Hm in Hin. by destruct Hin.
  - intros y t Ht. exists t. split; [done|]. by destruct t.
Qed.

Lemma wait_forgot D ts ts' x :
  forgot ts ts' x → (x ∈ D ∨ is_Some (ord ts x) ∨ wt ts x = None) →
  (∀ p, par ts x = Some p → p ∈ D ∨ st ts p = Some Running) →
  wait_ok D ts → wait_ok D ts'.
Proof.
  intros [F1 _ F3 F4 F5 _ _ _ F9 F10 F11 _] Hx Hp [W1 W2 W3 W4 W5 W6 W7 W8].
  assert (∀ y, ord ts' y = ord ts y) as Ho by (intros; by apply ord_ext).
  assert (∀ q, is_Some (mems ts q !! x) → par ts x = Some q) as Hpar by (intros q Hq; by apply W1, W4).
  split.
  - intros y q. rewrite F4, F1. apply W1.
  - intros y q. rewrite F4, Ho, F3, F9. intros Hw HD HD' Hn.
    destruct (W2 y q Hw HD HD' Hn) as [?|?]; [|by right]. case_decide; [subst|by left].
    destruct Hx as [?|[[k Hk]|?]]; congruence.
  - intros q y. rewrite F3, F4, Ho, F9. intros Hq HD. destruct (W3 q y Hq HD) as (? & ? & ?).
    by case_decide.
  - intros q y. rewrite F9, F4. case_decide; [by intros []|apply W4].
  - intros q k y. rewrite F10, F9, Ho, W5. case_decide; [split; [by intros [? _]|by intros [[] _]]|]. naive_solver.
  - done.
  - intros q. rewrite F3. intros Hq HD. destruct (W7 q Hq HD) as [Hm Hg].
    assert (mems ts q !! x = None) as Hno.
    { apply eq_None_not_Some. intros Hin%Hpar. destruct (Hp q Hin); [done|congruence]. }
    split.
    + intros He. apply Hm, map_eq. intros y. rewrite lookup_empty. specialize (F9 q y).
      rewrite He, lookup_empty in F9. case_decide; [by subst|done].
    + destruct (grp ts' q) as [|[k y] l] eqn:Eg; [done|]. exfalso.
      assert ((k, y) ∈ grp ts' q) as Hin by (rewrite Eg; left). apply F10 in Hin as [_ Hin]. rewrite Hg in Hin.
      by apply elem_of_nil in Hin.
  - intros y. rewrite F5, F4, F1. apply W8.
Qed.

Lemma inv_forgot {P W} D E (o : Owner P W) ts' x :
  invs D E o → forgot (tasks (core o)) ts' x →
  (x ∈ D ∨ is_Some (ord (tasks (core o)) x) ∨ wt (tasks (core o)) x = None) →
  (∀ p, par (tasks (core o)) x = Some p → p ∈ D ∨ st (tasks (core o)) p = Some Running) →
  invs D E (on_tasks (λ _, ts') o).
Proof.
  intros [I1 I2 I3 I4 I5 I6 I7 I8] F Hx Hp. pose proof F as [F1 F2 F3 F4 F5 F6 F7 F8 F9 F10 F11 F12].
  split; simpl.
  - by eapply tree_ext.
  - by eapply wait_forgot.
  - eapply queue_waits; [..|exact I3]; try done. intros y. apply zombie_waits; simpl; try done.
    + intros z. by apply ord_ext.
    + intros q. by rewrite F4.
    + intros q. rewrite F9. by case_decide.
  - by eapply done_ext.
  - by eapply ids_ext.
  - by eapply external_ext.
  - eapply frames_ok_ext; [|exact I7]. intros y t' Ht'. destruct (F12 y t' Ht') as (t & Ht & ->). by exists t.
  - by eapply root_ext.
Qed.

Lemma forget_members x k (g : option Observation) :
  members (default default_observation (forget x k <$> g)) = delete x (members (default default_observation g)).
Proof. destruct g; simpl; [done|]. by rewrite delete_empty. Qed.

Lemma forget_ready x k (g : option Observation) :
  group_ready (default default_observation (forget x k <$> g)) =
  match k with
  | Some n => pset_remove (n, x) (group_ready (default default_observation g))
  | None => group_ready (default default_observation g)
  end.
Proof. destruct g, k; done. Qed.

Section cleanups.
Context {P W : Type} `{Wait.Poller P} `{Native W} (linux : bool).
Implicit Types o : Owner P W.

(** A doomed task loses its external wait. *)
Lemma wp_cancel_wait D E x t (Q : answer () → Owner P W → Prop) o :
  invs D E o → x ∈ D → tasks (core o) !! x = Some t →
  (∀ n r, let o' := mkOwner (mkCore (<[x := set_external None t]> (tasks (core o))) (ready (core o))
            (current (core o)) (root (core o)) (next (core o)) n) (roots o) r (world o) in
     invs D E o' → Q (Done tt) o') →
  wp (cancel_wait linux x) Q o.
Proof.
  intros Hi Hx Ht HQ. unfold cancel_wait. act. act. act. act. view_facts Ht.
  assert (∀ n (r : Wait.Reactor P),
    let ts' := <[x := set_external None t]> (tasks (core o)) in
    n = N.of_nat (size (filter (λ e, pends e.2 = true) ts')) →
    (∀ y w, y ≠ x → ext (tasks (core o)) y = Some w → wait_ready w = None → registered r (registration w) y) →
    WaitFacts.core_ok (Wait.core r) →
    Q (Done tt) (mkOwner (mkCore ts' (ready (core o)) (current (core o)) (root (core o)) (next (core o)) n)
                   (roots o) r (world o))) as Hend.
  { intros n r ts' Hn Hreg Hok. apply HQ. destruct Hi as [I1 I2 I3 I4 I5 I6 I7 I8].
    split; simpl; try same_part. destruct I6 as [X1 X2 _ _ _]. split; simpl; try done.
    - intros y. rewrite st_insert, ext_insert. case_decide; [by subst|]. apply X1.
    - intros y w. rewrite st_insert, ext_insert. case_decide; [done|]. apply X2.
    - intros y w. rewrite ext_insert. case_decide; [done|]. by apply Hreg. }
  destruct (inv_external _ _ _ Hi) as [X1 X2 X3 X4 X5].
  assert (∀ y, pend_at (<[x := set_external None t]> (tasks (core o))) y ↔ y ≠ x ∧ pend_at (tasks (core o)) y) as Hpend.
  { intros y. unfold pend_at. rewrite ext_insert. case_decide; [subst|naive_solver].
    split; [by intros (? & ? & _)|by intros [? _]]. }
  assert (¬ pend_at (tasks (core o)) x → Q (Done tt) (mkOwner (mkCore (<[x := set_external None t]> (tasks (core o)))
    (ready (core o)) (current (core o)) (root (core o)) (next (core o)) (pending (core o))) (roots o) (reactor o) (world o)))
    as Hnone.
  { intros Hnp. apply Hend; [|intros y w _; apply X4|done]. rewrite X3. f_equal. symmetry.
    apply pend_count_ext. intros y. rewrite Hpend. split; [by intros [_ ?]|]. intros Hy. split; [|done]. by intros ->. }
  destruct (external t) as [w|] eqn:Ew.
  - destruct (wait_ready w) as [n|] eqn:Er.
    + act. apply Hnone. intros (w' & Hw' & Hr'). congruence.
    + act. assert (pend_at (tasks (core o)) x) as Hp by (exists w; split; [congruence|done]).
      eapply wp_on_reactor; [by apply WaitFacts.cancel_wp|]. intros [b|e] r Hcan; [|by right; left].
      unfold finish_pending, wp. cbn [core with_pending pending with_tasks].
      pose proof (pend_count_remove _ _ x Hp Hpend) as Hcount.
      assert (1 ≤ pending (core o)) as Hle by lia.
      unfold sub_checked. simpl. rewrite (proj2 (N.leb_le _ _) Hle). simpl.
      apply Hend; [lia| |apply Hcan]. intros y v Hne Hv Hr.
      eapply registered_cancelled; [exact X5|exact Hcan|eapply (X4 x w); [congruence|done]|done|by eapply X4].
  - act. apply Hnone. intros (w' & Hw' & _). congruence.
Qed.

(** The code outside the scheduler, and its collections, are not part of the invariant. *)
Lemma inv_world D E o (w : W) : invs D E o → invs D E (mkOwner (core o) (roots o) (reactor o) w).
Proof. by intros [? ? ? ? ? ? ? ?]. Qed.

Lemma inv_roots D E o s : invs D E o → frames_ok (tasks (core o)) s → invs D E (mkOwner (core o) s (reactor o) (world o)).
Proof. by intros [? ? ? ? ? ? ? ?]. Qed.

(** What [cancel_operation] leaves of the task. *)
Definition detached (t : Task) : Task := set_computation None (set_operation None t).

Lemma wp_cancel_operation D E x t (Q : answer (option OwnedFault) → Owner P W → Prop) o :
  invs D E o → tasks (core o) !! x = Some t →
  (∀ f (w : W), let o' := mkOwner (with_tasks (<[x := detached t]> (tasks (core o))) (core o))
          (roots o) (reactor o) w in invs D E o' → Q (Done f) o') →
  wp (cancel_operation x) Q o.
Proof.
  intros Hi Ht HQ. unfold cancel_operation. do 4 act. act.
  assert (invs D E (on_tasks (insert x (detached t)) o)) as Hinv by inert.
  assert (∀ (w : W), wp (t ← task x; update x (set_computation None) ;;
    match computation t with Some job => on_world (drain_computation job) | None => mret None end) Q
    (mkOwner (core (on_tasks (insert x (set_operation None t)) o)) (roots o) (reactor o) w)) as Hrest.
  { intros w. act. eapply wp_task; [apply lookup_insert_eq|]. act. eapply wp_update; [apply lookup_insert_eq|].
    cbn [computation set_operation]. unfold on_tasks. cbn. rewrite insert_insert_eq.
    destruct (computation t); act; apply HQ; by apply (inv_world _ _ (on_tasks _ o)). }
  destruct (operation t); act; [apply Hrest|destruct o; apply Hrest].
Qed.

Lemma pop_None {A} (l : list A) : pop l = None → l = [].
Proof. destruct l as [|x l] using rev_ind; [done|]. unfold pop. by rewrite last_snoc. Qed.

Lemma pop_Some {A} (l : list A) x rest : pop l = Some (x, rest) → l = rest ++ [x].
Proof.
  destruct l as [|y l] using rev_ind; [done|]. unfold pop. rewrite last_snoc, removelast_last. congruence.
Qed.

Lemma set_cleanups_id t : cleanups t = [] → set_cleanups [] t = t.
Proof. destruct t. simpl. by intros ->. Qed.

(** The loop of [drain_cleanups] ends when the cleanups of the task are used up. *)
Lemma drain_loop_wp D E n x t first (Q : answer (option OwnedFault) → Owner P W → Prop) o :
  invs D E o → tasks (core o) !! x = Some t → (length (cleanups t) < n)%nat →
  (∀ first' s (w : W), (first ≠ None → first' ≠ None) →
     let o' := mkOwner (with_tasks (<[x := set_cleanups [] t]> (tasks (core o))) (core o)) s (reactor o) w in
     invs D E o' → Q (Done first') o') →
  wp (drain_loop n x first) Q o.
Proof.
  revert t first o. induction n as [|n IH]; intros t first o Hi Ht Hn HQ; [lia|]. cbn [drain_loop].
  do 2 act. act. eapply wp_expect; [exact Ht|]. destruct (pop (cleanups t)) as [[c rest]|] eqn:Ep.
  - apply pop_Some in Ep. do 2 act.
    assert (invs D E (on_tasks (insert x (set_cleanups rest t)) o)) as Hinv by inert.
    act. eapply (wp_frame_pointer x (set_cleanups rest t)); [apply Hinv|apply lookup_insert_eq|].
    intros ptr. do 4 act. apply wp_bind. unfold wp at 1, call_cleanup. cbn [roots on_core on_tasks world core reactor].
    destruct (run_cleanup (callback c) ptr (world o)) as [[w move] failure].
    destruct (FrameRoots.trace (λ (_ : ()) p, (tt, move p)) tt (roots o)) as [h s] eqn:Etr.
    do 2 act.
    set (o1 := mkOwner (with_tasks (<[x := set_cleanups rest t]> (tasks (core o))) (core o)) s (reactor o) w).
    assert (invs D E o1) as Hi1.
    { apply (inv_world _ _ (mkOwner (core o1) s (reactor o) (world o))).
      apply (inv_roots _ _ (on_tasks (insert x (set_cleanups rest t)) o)); [exact Hinv|].
      pose proof (frames_ok_trace (tasks (core o1)) move (roots o)) as Hf. rewrite Etr in Hf. apply Hf, Hinv. }
    apply (IH (set_cleanups rest t) _ o1); [exact Hi1|apply lookup_insert_eq| |].
    + rewrite Ep, length_app in Hn. simpl in *. lia.
    + intros first' s' w' Hfirst o' Hinv'. subst o' o1. simpl in Hinv'. rewrite insert_insert_eq in Hinv'.
      unfold with_tasks in *. simpl in *. rewrite insert_insert_eq. apply HQ; [|exact Hinv'].
      intros Hne. apply Hfirst. by destruct first, failure.
  - apply pop_None in Ep. act. specialize (HQ first (roots o) (world o) (λ H, H)). revert HQ.
    rewrite set_cleanups_id, insert_id by done. destruct o as [[] ? ? ?]. simpl. intros HQ. by apply HQ.
Qed.

Lemma wp_drain D E x t first (Q : answer (option OwnedFault) → Owner P W → Prop) o :
  invs D E o → tasks (core o) !! x = Some t →
  (∀ first' s (w : W), (first ≠ None → first' ≠ None) →
     let o' := mkOwner (with_tasks (<[x := set_cleanups [] t]> (tasks (core o))) (core o)) s (reactor o) w in
     invs D E o' → Q (Done first') o') →
  wp (drain_cleanups x first) Q o.
Proof.
  intros Hi Ht HQ. unfold drain_cleanups. do 2 act. act. eapply wp_expect; [exact Ht|].
  eapply drain_loop_wp; [exact Hi|exact Ht|lia|exact HQ].
Qed.

Lemma wp_observation_remove D E x t (Q : answer () → Owner P W → Prop) o :
  invs D E o → tasks (core o) !! x = Some t →
  (∀ ts', forgot (tasks (core o)) ts' x → Q (Done tt) (on_tasks (λ _, ts') o)) →
  wp (observation_remove x) Q o.
Proof.
  intros Hi Ht HQ. unfold observation_remove. do 2 act.
  pose proof (inv_wait _ _ _ Hi) as Hw. pose proof (inv_tree _ _ _ Hi) as Htree. view_facts Ht.
  assert (∀ q, is_Some (mems (tasks (core o)) q !! x) → parent_of t = Some q) as Hpar.
  { intros q Hq. rewrite <-V1. by apply (wait_parent _ _ Hw), (wait_members _ _ Hw). }
  destruct (parent_of t) as [p|] eqn:Ep.
  - assert (x ∈ kids (tasks (core o)) p) as Hin by by apply (tree_links _ Htree).
    destruct (kids_live _ Htree _ _ Hin) as [_ [tp Htp]]. eapply wp_update; [exact Htp|].
    apply (HQ (<[p := _]> (tasks (core o)))). view_facts Htp.
    assert (∀ q, q ≠ p → mems (tasks (core o)) q !! x = None) as Hother.
    { intros q Hq. apply eq_None_not_Some. intros Hm%Hpar. congruence. }
    assert (∀ q n, (n, x) ∈ grp (tasks (core o)) q → terminal_order (state t) = Some n ∧ q = p) as Hgx.
    { intros q n [Hm Hn]%(wait_group _ _ Hw). unfold ord in Hn. rewrite V in Hn. split; [done|].
      apply Hpar in Hm. congruence. }
    split; try same_view.
    + intros q y. autorewrite with views. simpl. rewrite forget_members. case_decide; [subst q|].
      * unfold mems at 1. rewrite V13, lookup_delete. repeat case_decide; subst; done.
      * case_decide; [subst|done]. by apply Hother.
    + intros q n y. autorewrite with views. simpl. rewrite forget_ready. case_decide; [subst q|].
      * unfold grp. rewrite V13. destruct (terminal_order (state t)) as [k|] eqn:Ek.
        -- rewrite pset_remove_elem. split; [|intros [? ?]; split; [congruence|done]].
           intros [Hne Hy]. split; [|done]. intros ->. destruct (Hgx p n) as [[= ->] _]; [|done].
           unfold grp. by rewrite V13.
        -- split; [|by intros [_ ?]]. intros Hy. split; [|done]. intros ->.
           destruct (Hgx p n) as [? _]; [unfold grp; by rewrite V13|done].
      * split; [|by intros [_ ?]]. intros Hy. split; [|done]. intros ->. by destruct (Hgx q n Hy).
    + intros q. autorewrite with views. simpl. rewrite forget_ready. case_decide; [subst q|apply Hw].
      pose proof (wait_sorted _ _ Hw p) as Hs. unfold grp in Hs. rewrite V13 in Hs.
      case_match; [by apply pset_remove_sorted|done].
    + intros y t'. rewrite lookup_insert_Some. intros [[<- <-]|[_ Hy]]; [by exists tp|].
      exists t'. split; [done|]. by destruct t'.
  - act. destruct o as [[ts q c r n pe] s rc w]. apply (HQ ts). eapply forgot_refl; [exact Hw|].
    intros q'. apply eq_None_not_Some. intros Hm%Hpar. done.
Qed.
End cleanups.
