(* ===== verification/TaskCancel.v ===== *)
(** Cancellation of a subtree: it ends, it removes exactly the subtree, children before
    parents, and it leaves every other task as it was. *)

From S2P Require Import Prelude Text Slots Tasks TaskInv TaskRun TaskOps TaskResults TaskWaits TaskEvents TaskCleanups.
From S2P Require FrameRoots Wait WaitFacts.
From Stdlib Require Import Sorted.

(** What a cancellation leaves: tasks that have lost children and observations at most. *)
Record survives {P W} (o o' : Owner P W) : Prop := {
  sv_task x t' : tasks (core o') !! x = Some t' →
    ∃ t, tasks (core o) !! x = Some t ∧ t' = set_children (children t') (set_observation (observation t') t);
  sv_kids p x : x ∈ kids (tasks (core o')) p → x ∈ kids (tasks (core o)) p;
  sv_mems p x : live (tasks (core o')) p → live (tasks (core o')) x →
    mems (tasks (core o')) p !! x = mems (tasks (core o)) p !! x;
  sv_ready : ready (core o') = ready (core o);
  sv_current : current (core o') = current (core o);
  sv_root : root (core o') = root (core o);
  sv_next : next (core o') = next (core o) }.

Section survival.
Context {P W : Type}.
Implicit Types o : Owner P W.

Lemma survives_refl o : survives o o.
Proof. split; try done. intros x t Ht. exists t. split; [done|]. by destruct t. Qed.

Lemma survives_live o o' x : survives o o' → live (tasks (core o')) x → live (tasks (core o)) x.
Proof. intros S [t' Ht']. destruct (sv_task _ _ S x t' Ht') as (t & Ht & _). by exists t. Qed.

Lemma survives_trans o o1 o2 : survives o o1 → survives o1 o2 → survives o o2.
Proof.
  intros A B. split.
  - intros x t2 Ht2. destruct (sv_task _ _ B x t2 Ht2) as (t1 & Ht1 & E2).
    destruct (sv_task _ _ A x t1 Ht1) as (t & Ht & E1). exists t. split; [done|]. rewrite E2, E1. done.
  - intros p x Hx. by apply A, B.
  - intros p x Hp Hx. rewrite (sv_mems _ _ B) by done. apply A; by eapply survives_live.
  - by rewrite (sv_ready _ _ B), (sv_ready _ _ A).
  - by rewrite (sv_current _ _ B), (sv_current _ _ A).
  - by rewrite (sv_root _ _ B), (sv_root _ _ A).
  - by rewrite (sv_next _ _ B), (sv_next _ _ A).
Qed.

Section views.
Context (o o' : Owner P W) (S : survives o o') (x : N) (Hx : live (tasks (core o')) x).

Lemma survives_views :
  st (tasks (core o')) x = st (tasks (core o)) x ∧ par (tasks (core o')) x = par (tasks (core o)) x ∧
  wt (tasks (core o')) x = wt (tasks (core o)) x ∧ flag (tasks (core o')) x = flag (tasks (core o)) x ∧
  ret (tasks (core o')) x = ret (tasks (core o)) x ∧ extr (tasks (core o')) x = extr (tasks (core o)) x ∧
  ext (tasks (core o')) x = ext (tasks (core o)) x.
Proof.
  destruct Hx as [t' Ht']. destruct (sv_task _ _ S x t' Ht') as (t & Ht & E).
  view_facts Ht. view_facts Ht'. rewrite V9, V10, V11, V14, V15, V16, V17, E. simpl. split_and!; done.
Qed.
End views.

Lemma survives_pruned o o' : survives o o' → pruned (tasks (core o)) (tasks (core o')).
Proof.
  intros S. split.
  - intros x Hx. by destruct (survives_views _ _ S x Hx) as (_ & ? & _).
  - intros x Hx. by eapply survives_live.
  - apply S.
Qed.
End survival.

(** Ancestors of a task that is left are left. *)
Lemma pruned_above_back ts ts' a x :
  tree_ok ts' → pruned ts ts' → live ts' x → Above ts a x → Above ts' a x.
Proof.
  intros Hok Hp Hx Ha. revert Hx. induction Ha as [x Hpar|x p Hpar _ IH]; intros Hx.
  - apply above_parent. by rewrite (pruned_par _ _ Hp).
  - rewrite <-(pruned_par _ _ Hp) in Hpar by done. eapply above_step; [exact Hpar|]. apply IH.
    apply (tree_links _ Hok) in Hpar. by destruct (kids_live _ Hok _ _ Hpar).
Qed.

(** Somebody with descendants has children. *)
Lemma above_kids ts a x : tree_ok ts → Above ts a x → kids ts a ≠ [].
Proof.
  intros Hok Ha. induction Ha as [x Hp|x p Hp _ IH]; [|done]. apply (tree_links _ Hok) in Hp.
  intros E. rewrite E in Hp. by apply elem_of_nil in Hp.
Qed.

Lemma above_live ts a x : tree_ok ts → Above ts a x → live ts a.
Proof.
  intros Hok Ha. induction Ha as [x Hp|x p Hp _ IH]; [|done]. apply (tree_links _ Hok) in Hp.
  by destruct (kids_live _ Hok _ _ Hp).
Qed.

Definition subtree (ts : gmap N Task) (y x : N) : Prop := x = y ∨ Above ts y x.

Section cancel.
Context {P W : Type} `{Wait.Poller P} `{Native W} (linux : bool).
Implicit Types o : Owner P W.

(** The parent of a task that is going away allows for it. *)
Definition detachable (D : gset N) o (y : N) : Prop :=
  ∀ p, par (tasks (core o)) y = Some p →
    p ∈ D ∨ (flag (tasks (core o)) y = false ∧ st (tasks (core o)) p = Some Running).

Lemma detachable_survives D o o' y :
  tree_ok (tasks (core o')) → survives o o' → live (tasks (core o')) y → detachable D o y → detachable D o' y.
Proof.
  intros Htree S Hy Hd p Hp. destruct (survives_views _ _ S y Hy) as (_ & Ep & _ & Ef & _).
  assert (live (tasks (core o')) p) as Hl.
  { apply (tree_links _ Htree) in Hp. by destruct (kids_live _ Htree _ _ Hp). }
  destruct (survives_views _ _ S p Hl) as (Es & _). rewrite Ef, Es. apply Hd. congruence.
Qed.

(** [o'] is [o] when [y] has lost its waits, its job, its cleanups and its observer. *)
Record readied o o' (y : N) : Prop := {
  rd_task x u' : x ≠ y → tasks (core o') !! x = Some u' →
    ∃ u, tasks (core o) !! x = Some u ∧ u' = set_observation (observation u') u;
  rd_live x : live (tasks (core o')) x ↔ live (tasks (core o)) x;
  rd_par x : par (tasks (core o')) x = par (tasks (core o)) x;
  rd_kids x : kids (tasks (core o')) x = kids (tasks (core o)) x;
  rd_st x : st (tasks (core o')) x = st (tasks (core o)) x;
  rd_flag x : flag (tasks (core o')) x = flag (tasks (core o)) x;
  rd_wt x : wt (tasks (core o')) x = wt (tasks (core o)) x;
  rd_ext : ext (tasks (core o')) y = None;
  rd_mems q x : mems (tasks (core o')) q !! x = if decide (x = y) then None else mems (tasks (core o)) q !! x;
  rd_ready : ready (core o') = ready (core o);
  rd_current : current (core o') = current (core o);
  rd_root : root (core o') = root (core o);
  rd_next : next (core o') = next (core o) }.

Lemma wp_readied {A} D y first (k : option OwnedFault → Act P W A) Q o :
  inv D o → y ∈ D → live (tasks (core o)) y → detachable D o y →
  (∀ first' o', (first ≠ None → first' ≠ None) → inv D o' → readied o o' y → wp (k first') Q o') →
  wp (cancel_wait linux y ;; failure ← cancel_operation y;
      first' ← drain_cleanups y (first_fault first failure); observation_remove y ;; k first') Q o.
Proof.
  intros Hi HyD [t Ht] Hdet HQ. view_facts Ht.
  act. eapply wp_cancel_wait; [exact Hi|exact HyD|exact Ht|]. intros n r o1 Hi1.
  act. eapply wp_cancel_operation; [exact Hi1|apply lookup_insert_eq|]. intros f w o2 Hi2.
  act. eapply wp_drain; [exact Hi2|apply lookup_insert_eq|]. intros first' s w' Hfirst o3 Hi3.
  act. eapply wp_observation_remove; [exact Hi3|apply lookup_insert_eq|]. intros ts' F.
  set (t3 := set_cleanups [] (detached (set_external None t))).
  assert (tasks (core o3) = <[y := t3]> (tasks (core o))) as E3.
  { subst o3 o2 o1. simpl. rewrite insert_insert_eq. apply insert_insert_eq. }
  rewrite E3 in F. pose proof F as [F1 F2 F3 F4 F5 F6 F7 F8 F9 F10 F11 F12]. apply HQ; [by destruct first; auto| |split; simpl; try done].
  - assert (∀ p, par (tasks (core o3)) y = Some p → p ∈ D ∨ st (tasks (core o3)) p = Some Running) as Hd3;
      [|apply (inv_forgot _ _ o3 ts' y Hi3); [by rewrite <-E3 in F|by left|exact Hd3]]. rewrite E3. intros p.
    autorewrite with views. simpl. case_decide; [|congruence]. intros Hp.
    destruct (Hdet p) as [?|[_ ?]]; [congruence|by left|right]. case_decide; congruence.
  - intros x u' Hne Hu'. destruct (F12 x u' Hu') as (u & Hu & Eu). rewrite lookup_insert_ne in Hu by done. by exists u.
  - intros x. rewrite !live_st, F3. autorewrite with views. case_decide; [subst|done]. simpl. by rewrite V.
  - intros x. rewrite F1. same_view.
  - intros x. rewrite F2. same_view.
  - intros x. rewrite F3. same_view.
  - intros x. rewrite F5. same_view.
  - intros x. rewrite F4. same_view.
  - rewrite F8. autorewrite with views. by rewrite decide_True.
  - intros q x. rewrite F9. case_decide; [done|]. autorewrite with views. case_decide; [subst|done].
    unfold mems. by rewrite V3.
Qed.

(** Retiring a task without children. *)
Lemma retire_task_wp D y first (Q : answer (option OwnedFault) → Owner P W → Prop) o :
  inv ({[y]} ∪ D) o → live (tasks (core o)) y → kids (tasks (core o)) y = [] →
  current (core o) ≠ Some y → (root (core o) = Some y → y ∈ D) → detachable D o y →
  (∀ first' o', (first ≠ None → first' ≠ None) → inv D o' → survives o o' →
     (∀ x, live (tasks (core o')) x ↔ live (tasks (core o)) x ∧ x ≠ y) →
     Q (Done first') o') →
  wp (retire linux y first) Q o.
Proof.
  intros Hi Hl Hleaf Hcur Hroot Hdet HQ. unfold retire.
  apply (wp_readied ({[y]} ∪ D)); [exact Hi|set_solver|exact Hl| |].
  { intros p Hp. destruct (Hdet p Hp); [left; set_solver|by right]. }
  intros first' o' Hfirst Hi' R. pose proof R as [R1 R2 R3 R4 R5 R6 R7 R8 R9 R10 R11 R12 R13].
  assert (live (tasks (core o')) y) as [t Ht] by by apply R2.
  pose proof (inv_tree _ _ _ Hi') as Htree. pose proof (inv_wait _ _ _ Hi) as Hw.
  assert (∀ ts, removed (tasks (core o')) ts y →
    (∀ x u', ts !! x = Some u' → x ≠ y ∧ ∃ u, tasks (core o') !! x = Some u ∧ u' = set_children (children u') u) →
    wp (drop_frame (frame t) ;; mret first') Q
      (mkOwner (with_tasks ts (core o')) (roots o') (reactor o') (world o'))) as Hend.
  { intros ts Hrem Hts. act.
    assert (∀ x, live ts x ↔ live (tasks (core o)) x ∧ x ≠ y) as Hlive.
    { intros x. rewrite <-R2, !live_st, (removed_st _ _ _ Hrem). case_decide; naive_solver. }
    apply (wp_removed ({[y]} ∪ D) D ({[y]} ∪ D) D o' ts y t _ Hi' Ht Hrem); [|by rewrite R4|done|done|..].
    - intros x u' Hu'. destruct (Hts x u' Hu') as (Hne & u & Hu & ->). split; [done|]. by exists u.
    - intros q. by rewrite R9, decide_True.
    - intros p Hne. rewrite R5. intros Hp. destruct (decide (p ∈ D)) as [|HD]; [done|].
      destruct (wait_waiting _ _ Hw p y Hp ltac:(set_solver)) as (Hwy & _ & _).
      apply (wait_parent _ _ Hw) in Hwy. destruct (Hdet p Hwy) as [|[_ Hs]]; [done|congruence].
    - intros p. rewrite R3, R6. intros Hp. destruct (Hdet p Hp) as [|[? _]]; [by left|by right].
    - by rewrite R11.
    - by rewrite R12.
    - intros (w & Hx & _). congruence.
    - intros s Hinv. act. apply HQ; [done|exact Hinv| |exact Hlive]. split; simpl; try done.
      + intros x u' Hu'. destruct (Hts x u' Hu') as (Hne & v & Hv & E).
        destruct (R1 x v Hne Hv) as (u & Hu & E'). exists u. split; [done|]. rewrite E, E'. done.
      + intros p x. rewrite (removed_kids _ _ _ Hrem), oset_remove_elem, R4. by intros [_ ?].
      + intros p x Hp%Hlive Hx%Hlive. rewrite (removed_mems _ _ _ Hrem), decide_False by tauto.
        by rewrite R9, decide_False by tauto. }
  do 2 act. act. eapply wp_expect; [exact Ht|]. do 3 act.
  assert (children t = []) as Hk.
  { destruct (views_at _ _ _ Ht) as (_ & _ & _ & <- & _). by rewrite R4. }
  destruct (parent_of t) as [p|] eqn:Ep.
  - assert (par (tasks (core o')) y = Some p) as Hp by (unfold par; by rewrite Ht).
    assert (p ≠ y) as Hne by (intros ->; by apply (not_own_parent _ Htree y)).
    pose proof Hp as Hin. apply (tree_links _ Htree) in Hin.
    destruct (kids_live _ Htree _ _ Hin) as [_ [tp Htp]].
    do 2 act. act. eapply wp_expect; [at_task|]. act.
    apply (Hend (<[p := set_children (oset_remove y (children tp)) tp]> (delete y (tasks (core o'))))).
    + by eapply removed_child.
    + intros x u'. rewrite lookup_insert_Some, lookup_delete_Some.
      intros [[<- <-]|[_ [Hx Hu]]]; [split; [done|]; by exists tp|]. split; [done|]. exists u'.
      split; [done|]. by destruct u'.
  - act. apply (Hend (delete y (tasks (core o')))); [by eapply removed_delete|].
    intros x u'. rewrite lookup_delete_Some. intros [Hx Hu]. split; [done|]. exists u'.
    split; [done|]. by destruct u'.
Qed.

Lemma size_removed (ts ts' : gmap N Task) y :
  live ts y → (∀ x, live ts' x ↔ live ts x ∧ x ≠ y) → size ts = S (size ts').
Proof.
  intros Hy Hl. rewrite <-(size_dom (D := gset N) ts), <-(size_dom (D := gset N) ts').
  assert (dom ts = {[y]} ∪ dom ts') as ->.
  { apply set_eq. intros x. rewrite elem_of_union, elem_of_singleton, !elem_of_dom.
    unfold live in *. rewrite Hl. destruct (decide (x = y)) as [->|]; naive_solver. }
  rewrite size_union, size_singleton; [done|]. intros x ->%elem_of_singleton Hx%elem_of_dom.
  by apply Hl in Hx as [_ ?].
Qed.

(** The tasks that the loop has expanded are the ancestors of the one on top of its stack. *)
Lemma expanded_size (ts : gmap N Task) (E : gset N) y :
  tree_ok ts → live ts y → (∀ z, z ∈ E → Above ts z y) →
  size ({[y]} ∪ E) = S (size E) ∧ (S (size E) ≤ size ts)%nat.
Proof.
  intros Hok Hy HE. assert (size ({[y]} ∪ E) = S (size E)) as Hsize.
  { rewrite size_union, size_singleton; [done|]. intros z ->%elem_of_singleton Hz.
    by apply (above_irrefl ts y (tree_reach _ Hok y)), HE. }
  split; [exact Hsize|]. rewrite <-Hsize, <-(size_dom (D := gset N) ts). apply subseteq_size.
  intros z [->%elem_of_singleton|Hz]%elem_of_union; apply elem_of_dom; [exact Hy|].
  exact (above_live _ _ _ Hok (HE z Hz)).
Qed.

(** The result of cancelling the tasks below [y]: those are gone, the others are left. *)
Record pruned_below D y o o' : Prop := {
  pb_inv : inv D o';
  pb_survives : survives o o';
  pb_below x : live (tasks (core o)) x → ¬ live (tasks (core o')) x → Above (tasks (core o)) y x }.

(** The result of cancelling [y]. *)
Record cancelled D y o o' : Prop := {
  cn_inv : inv D o';
  cn_survives : survives o o';
  cn_gone x : live (tasks (core o)) x → ¬ live (tasks (core o')) x → subtree (tasks (core o)) y x;
  cn_kept x : live (tasks (core o')) x → ¬ subtree (tasks (core o)) y x }.

Lemma pruned_below_refl D y o : inv D o → pruned_below D y o o.
Proof. intros Hi. split; [done|apply survives_refl|]. intros x Hx Hn. done. Qed.

(** The first child is cancelled, then the others. *)
Lemma pruned_below_step D y c o o1 o2 :
  par (tasks (core o)) c = Some y → cancelled D c o o1 → pruned_below D y o1 o2 → pruned_below D y o o2.
Proof.
  intros Hc [_ S1 B1 _] [I2 S2 B2]. split; [done|by eapply survives_trans|].
  intros x Hx Hn. destruct (decide (live (tasks (core o1)) x)) as [Hx1|Hx1].
  - eapply pruned_above; [by apply survives_pruned|]. by apply B2.
  - destruct (B1 x Hx Hx1) as [->|Ha]; [by apply above_parent|].
    eapply above_trans; [by apply above_parent|exact Ha].
Qed.

(** What the loop needs to cancel [y], with [E] for the tasks that it has expanded. *)
Record cancellable D (E : gset N) y (n fuel : nat) o : Prop := {
  cc_inv : inv D o;
  cc_live : live (tasks (core o)) y;
  cc_height : height_le (tasks (core o)) n y;
  cc_current c : current (core o) = Some c → ¬ subtree (tasks (core o)) y c;
  cc_root : root (core o) = Some y → y ∈ D;
  cc_detachable : detachable D o y;
  cc_expanded z : z ∈ E → Above (tasks (core o)) z y;
  cc_fuel : (2 * size (tasks (core o)) ≤ fuel + size E)%nat }.

Definition ends_cancel D (E : gset N) y o (first : option OwnedFault) (k : nat → option OwnedFault → Owner P W → Prop) : Prop :=
  ∀ first' fuel' o', (first ≠ None → first' ≠ None) → cancelled D y o o' →
    (2 * size (tasks (core o')) ≤ fuel' + size E)%nat → k fuel' first' o'.

(** The children on the stack, one after the other. *)
Lemma cancel_children D E y n stack (Q : answer (option OwnedFault) → Owner P W → Prop) :
  (∀ c fuel stack first o, cancellable ({[y]} ∪ D) ({[y]} ∪ E) c n fuel o →
     ends_cancel ({[y]} ∪ D) ({[y]} ∪ E) c o first
       (λ fuel' first' o', wp (cancel_loop linux fuel' stack first') Q o') →
     wp (cancel_loop linux fuel ((c, false) :: stack) first) Q o) →
  ∀ l fuel first o, inv ({[y]} ∪ D) o → live (tasks (core o)) y → NoDup l →
  (∀ c, c ∈ kids (tasks (core o)) y ↔ c ∈ l) → (∀ c, c ∈ l → height_le (tasks (core o)) n c) →
  (∀ c, current (core o) = Some c → ¬ subtree (tasks (core o)) y c) →
  (∀ z, z ∈ E → Above (tasks (core o)) z y) → (2 * size (tasks (core o)) ≤ fuel + size ({[y]} ∪ E))%nat →
  (∀ first' fuel' o', (first ≠ None → first' ≠ None) → pruned_below ({[y]} ∪ D) y o o' →
     live (tasks (core o')) y → kids (tasks (core o')) y = [] →
     (2 * size (tasks (core o')) ≤ fuel' + size ({[y]} ∪ E))%nat →
     wp (cancel_loop linux fuel' stack first') Q o') →
  wp (cancel_loop linux fuel (((λ c, (c, false)) <$> l) ++ stack) first) Q o.
Proof.
  intros IH l. induction l as [|c l IHl]; intros fuel first o Hi Hy Hnd Hkids Hh Hcur HE Hfuel HQ.
  - apply HQ; try done; [by apply pruned_below_refl|].
    destruct (kids (tasks (core o)) y) as [|c k] eqn:Ek; [done|]. exfalso.
    assert (c ∈ []) as Hc by (apply Hkids; left). by apply elem_of_nil in Hc.
  - pose proof (inv_tree _ _ _ Hi) as Htree. apply NoDup_cons in Hnd as [Hc Hnd].
    assert (c ∈ kids (tasks (core o)) y) as Hin by (apply Hkids; left).
    assert (par (tasks (core o)) c = Some y) as Hpar by by apply (tree_links _ Htree).
    assert (live (tasks (core o)) c) as Hlc by by destruct (kids_live _ Htree _ _ Hin).
    apply IH.
    + split; try done.
      * apply Hh. left.
      * intros a Ha Hsub. apply (Hcur a Ha). right. destruct Hsub as [->|Hsub]; [by apply above_parent|].
        eapply above_trans; [by apply above_parent|exact Hsub].
      * intros Hr. destruct (decide (c ∈ {[y]} ∪ D)) as [|Hno]; [done|]. exfalso.
        destruct (root_live _ _ (inv_root _ _ _ Hi) c Hr Hno) as [_ Hroot]. congruence.
      * intros p Hp. left. assert (p = y) as -> by congruence. set_solver.
      * intros z [->%elem_of_singleton|Hz]%elem_of_union; [by apply above_parent|].
        eapply above_trans; [by apply HE|by apply above_parent].
    + intros first' fuel' o' Hfirst Hcan Hfuel'. pose proof Hcan as [Hi' Hs Hgone Hkept].
      pose proof (inv_tree _ _ _ Hi') as Htree'. pose proof (survives_pruned _ _ Hs) as Hp.
      assert (live (tasks (core o')) y) as Hy'.
      { destruct (decide (live (tasks (core o')) y)) as [|Hn]; [done|]. exfalso.
        destruct (Hgone y Hy Hn) as [->|Ha]; [by apply (not_own_parent _ Htree c)|].
        by apply (not_above_parent _ _ _ Htree Hpar). }
      assert (∀ x, x ∈ kids (tasks (core o')) y ↔ x ∈ l) as Hkids'.
      { intros x. split.
        - intros Hx. pose proof Hx as Hx'. apply (sv_kids _ _ Hs), Hkids, elem_of_cons in Hx as [->|?]; [|done].
          destruct (kids_live _ Htree' _ _ Hx') as [Hx _]. apply Hkept in Hx. exfalso. apply Hx. by left.
        - intros Hx. assert (x ∈ kids (tasks (core o)) y) as Hk by (apply Hkids; by right).
          destruct (kids_live _ Htree _ _ Hk) as [Hlx _]. apply (tree_links _ Htree) in Hk.
          apply (tree_links _ Htree'). rewrite (pruned_par _ _ Hp); [done|].
          destruct (decide (live (tasks (core o')) x)) as [|Hn]; [done|]. exfalso.
          destruct (Hgone x Hlx Hn) as [->|Ha]; [done|].
          eapply not_above_sibling; [exact Htree|exact Hpar|exact Hk| |exact Ha]. by intros ->. }
      apply IHl; try done.
      * intros x Hx. eapply pruned_height; [exact Hp|]. apply Hh. by right.
      * rewrite (sv_current _ _ Hs). intros a Ha Hsub. apply (Hcur a Ha).
        destruct Hsub as [->|Hsub]; [by left|right]. by eapply pruned_above.
      * intros z Hz. eapply pruned_above_back; [done|exact Hp|done|by apply HE].
      * intros first2 fuel2 o2 Hf2 Hb Hl2 Hk2 Hfuel2. apply HQ; try done; [by auto|].
        by apply (pruned_below_step _ y c o o').
Qed.

(** The second visit of [y], when its children are gone. *)
Lemma cancel_last D E y fuel stack first o o1 (Q : answer (option OwnedFault) → Owner P W → Prop) :
  inv D o → live (tasks (core o)) y → (∀ c, current (core o) = Some c → ¬ subtree (tasks (core o)) y c) →
  (root (core o) = Some y → y ∈ D) → detachable D o y → (∀ z, z ∈ E → Above (tasks (core o)) z y) →
  pruned_below ({[y]} ∪ D) y o o1 → live (tasks (core o1)) y → kids (tasks (core o1)) y = [] →
  (2 * size (tasks (core o1)) ≤ fuel + size ({[y]} ∪ E))%nat →
  ends_cancel D E y o first (λ fuel' first' o', wp (cancel_loop linux fuel' stack first') Q o') →
  ∀ first', (first ≠ None → first' ≠ None) → wp (cancel_loop linux fuel ((y, true) :: stack) first') Q o1.
Proof.
  intros Hi Hy Hcur Hroot Hdet HE [Hi1 Hs Hb] Hy1 Hk1 Hfuel HQ first' Hfirst.
  pose proof (inv_tree _ _ _ Hi1) as Htree1. pose proof (survives_pruned _ _ Hs) as Hp.
  destruct (expanded_size (tasks (core o1)) E y Htree1 Hy1) as [Hsize Hle].
  { intros z Hz. eapply pruned_above_back; [done|exact Hp|done|by apply HE]. }
  destruct fuel as [|fuel]; [lia|]. cbn [cancel_loop]. act. eapply (retire_task_wp D); try done.
  - rewrite (sv_current _ _ Hs). intros Hc. apply (Hcur y Hc). by left.
  - by rewrite (sv_root _ _ Hs).
  - by eapply detachable_survives.
  - intros first2 o2 Hf2 Hi2 Hs2 Hlive2. apply HQ; [by auto| |].
    + assert (survives o o2) as Hs02 by by eapply survives_trans.
      split; try done.
      * intros x Hx Hn. destruct (decide (x = y)) as [->|Hne]; [by left|right].
        apply Hb; [done|]. intros Hx1. apply Hn, Hlive2. done.
      * intros x Hx. pose proof Hx as [Hx1 Hne]%Hlive2. intros [?|Ha]; [done|].
        apply (above_kids (tasks (core o1)) y x Htree1); [|exact Hk1].
        by eapply pruned_above_back.
    + pose proof (size_removed _ _ y Hy1 Hlive2). lia.
Qed.

(** The loop cancels the subtree on top of its stack. *)
Lemma cancel_loop_wp n : ∀ D E y fuel stack first (Q : answer (option OwnedFault) → Owner P W → Prop) o,
  cancellable D E y n fuel o →
  ends_cancel D E y o first (λ fuel' first' o', wp (cancel_loop linux fuel' stack first') Q o') →
  wp (cancel_loop linux fuel ((y, false) :: stack) first) Q o.
Proof.
  induction n as [|n IH]; intros D E y fuel stack first Q o [Hi [t Ht] Hh Hcur Hroot Hdet HE Hfuel] HQ.
  all: pose proof (inv_tree _ _ _ Hi) as Htree; assert (live (tasks (core o)) y) as Hy by by exists t.
  all: destruct (expanded_size (tasks (core o)) E y Htree Hy HE) as [Hsize Hle].
  all: destruct fuel as [|fuel]; [lia|]; cbn [cancel_loop]; view_facts Ht.
  all: do 2 act; act; eapply wp_expect; [exact Ht|]; rewrite <-map_rev.
  all: assert (inv ({[y]} ∪ D) o) as Hi' by (eapply inv_mono; [|exact Hi]; set_solver).
  - assert (children t = []) as Ek.
    { destruct (children t) as [|c l]; [done|]. destruct (Hh c). rewrite V2. left. }
    rewrite Ek. simpl. rewrite Ek in V2.
    eapply (cancel_last D E y fuel stack first o o); try done; [by apply pruned_below_refl|]. lia.
  - eapply (cancel_children D E y n ((y, true) :: stack)); try done.
    + intros c fuel' stack' first' o' Hc HQ'. by eapply IH.
    + rewrite <-Permutation_rev, <-V2. by apply tree_kids_NoDup.
    + intros c. by rewrite V2, <-Permutation_rev.
    + intros c Hc. apply (Hh c). by rewrite V2, Permutation_rev.
    + lia.
    + intros first' fuel' o' Hfirst Hb Hy' Hk Hfuel'.
      by eapply (cancel_last D E y fuel' stack first o o').
Qed.

(** [cancel_tree] removes the subtree of [y] and keeps the rest. *)
Lemma cancel_tree_wp D y first (Q : answer (option OwnedFault) → Owner P W → Prop) o :
  inv D o → live (tasks (core o)) y → (∀ c, current (core o) = Some c → ¬ subtree (tasks (core o)) y c) →
  (root (core o) = Some y → y ∈ D) → detachable D o y →
  (∀ first' o', (first ≠ None → first' ≠ None) → cancelled D y o o' → Q (Done first') o') →
  wp (cancel_tree linux y first) Q o.
Proof.
  intros Hi Hy Hcur Hroot Hdet HQ. destruct (tree_height (tasks (core o)) y (inv_tree _ _ _ Hi)) as [n Hn].
  unfold cancel_tree.
  apply (cancel_loop_wp n D ∅ y (2 * size (tasks (core o))) [] first Q o).
  - split; try done. rewrite size_empty. lia.
  - intros first' fuel' o' Hfirst Hc _. destruct fuel'; apply wp_ret; by apply HQ.
Qed.

(** The loop of [cancel_descendants] on a doomed task. *)
Lemma descendants_loop_wp D n : ∀ y first (Q : answer (option OwnedFault) → Owner P W → Prop) o,
  inv D o → y ∈ D → live (tasks (core o)) y → (∀ c, current (core o) = Some c → ¬ Above (tasks (core o)) y c) →
  (size (tasks (core o)) ≤ n)%nat →
  (∀ first' o', (first ≠ None → first' ≠ None) → pruned_below D y o o' → live (tasks (core o')) y →
     kids (tasks (core o')) y = [] → Q (Done first') o') →
  wp (descendants_loop linux n y first) Q o.
Proof.
  induction n as [|n IH]; intros y first Q o Hi HyD Hy Hcur Hn HQ; pose proof Hy as [t Ht]; cbn [descendants_loop].
  - exfalso. assert (tasks (core o) = ∅) as He by (apply map_size_empty_inv; lia). by rewrite He, lookup_empty in Ht.
  - do 2 act. view_facts Ht. pose proof (inv_tree _ _ _ Hi) as Htree.
    destruct (children t) as [|c l] eqn:Ek; cbn [head].
    + act. apply HQ; try done. by apply pruned_below_refl.
    + assert (c ∈ kids (tasks (core o)) y) as Hin by (rewrite V2; left).
      assert (par (tasks (core o)) c = Some y) as Hpar by by apply (tree_links _ Htree).
      destruct (kids_live _ Htree _ _ Hin) as [Hlc _].
      act. apply (cancel_tree_wp D); try done.
      * intros a Ha Hsub. apply (Hcur a Ha). destruct Hsub as [->|Hsub]; [by apply above_parent|].
        eapply above_trans; [by apply above_parent|exact Hsub].
      * intros Hr. destruct (decide (c ∈ D)) as [|Hno]; [done|]. exfalso.
        destruct (root_live _ _ (inv_root _ _ _ Hi) c Hr Hno). congruence.
      * intros p Hp. left. congruence.
      * intros first' o' Hfirst Hcan. pose proof Hcan as [Hi' Hs Hgone Hkept].
        pose proof (survives_pruned _ _ Hs) as Hp.
        apply IH; try done.
        -- destruct (decide (live (tasks (core o')) y)) as [|Hno]; [done|]. exfalso.
           destruct (Hgone y Hy Hno) as [->|Ha]; [by apply (not_own_parent _ Htree c)|].
           by apply (not_above_parent _ _ _ Htree Hpar).
        -- rewrite (sv_current _ _ Hs). intros a Ha Hsub. apply (Hcur a Ha). by eapply pruned_above.
        -- assert (size (tasks (core o')) < size (tasks (core o)))%nat; [|lia].
           rewrite <-!(size_dom (D := gset N)). apply subset_size. split.
           ++ intros x Hx%elem_of_dom. apply elem_of_dom. by eapply survives_live.
           ++ intros Hsub. assert (c ∈ dom (tasks (core o'))) as Hc%elem_of_dom by (by apply Hsub, elem_of_dom).
              apply (Hkept c Hc). by left.
        -- intros first2 o2 Hf2 Hb Hl2 Hk2. apply HQ; try done; [by auto|]. by eapply pruned_below_step.
Qed.

Lemma cancel_descendants_wp D y first (Q : answer (option OwnedFault) → Owner P W → Prop) o :
  inv D o → y ∈ D → live (tasks (core o)) y → (∀ c, current (core o) = Some c → ¬ Above (tasks (core o)) y c) →
  (∀ first' o', (first ≠ None → first' ≠ None) → pruned_below D y o o' → live (tasks (core o')) y →
     kids (tasks (core o')) y = [] → Q (Done first') o') →
  wp (cancel_descendants linux y first) Q o.
Proof. intros. unfold cancel_descendants. by apply (descendants_loop_wp D (size (tasks (core o))) y first Q o). Qed.

(** [loom_rt_task_drain] retires the subtree of a child. *)
Lemma drain_keeps x suppress o :
  inv ∅ o → wp (loom_rt_task_drain linux x suppress)
    (λ r o', inv ∅ o' ∧ (∀ f, r = Done f → cancelled ∅ x o o')) o.
Proof.
  intros Hi. unfold loom_rt_task_drain. act. eapply wp_parent; [exact Hi|set_solver|by split|].
  intros p t tp Hp Ht Hpar Htp Hne Hin. act. act. act. act. act. apply wp_reject_if; [by intros _|].
  intros Hg. task_facts. view_facts Ht. view_facts Htp. act.
  assert (par (tasks (core o)) x = Some p) as Hpx by congruence. pose proof (inv_tree _ _ _ Hi) as Htree.
  apply (cancel_tree_wp ∅); [exact Hi|exact V8| | | |].
  - intros c Hc [->|Ha]; [congruence|]. assert (c = p) as -> by congruence.
    by apply (not_above_parent _ _ _ Htree Hpx).
  - intros Hr. destruct (root_live _ _ (inv_root _ _ _ Hi) x Hr ltac:(set_solver)). congruence.
  - intros q Hq. right. assert (q = p) as -> by congruence. split; congruence.
  - intros first' o' _ Hcan. act. split; [apply Hcan|]. by intros f _.
Qed.
End cancel.
