(* ===== verification/TaskFinish.v ===== *)
(** The end of a task: it completes, faults or is cancelled, its observer is notified, and a
    waiter goes back to the queue. *)

From S2P Require Import Prelude Text Slots Tasks TaskInv TaskRun TaskOps TaskResults TaskWaits TaskEvents TaskCleanups TaskCancel.
From S2P Require FrameRoots Wait WaitFacts.
From Stdlib Require Import Sorted.

(** [ts'] is [ts] where [x] has ended in state [s] with the stamp [n]; [w] is the waiter that
    has been woken. *)
Record ended (ts ts' : gmap N Task) (x : N) (s : State) (n : N) (w : option N) : Prop := {
  ended_order : terminal_order s = Some n;
  ended_par y : par ts' y = par ts y;
  ended_kids y : kids ts' y = kids ts y;
  ended_st y : st ts' y = if decide (y = x) then Some s
                          else if decide (w = Some y) then Some Queued else st ts y;
  ended_wt y : wt ts' y = wt ts y;
  ended_mems q : mems ts' q = mems ts q;
  ended_grp q : grp ts' q = if decide (is_Some (mems ts q !! x)) then pset_insert (n, x) (grp ts q) else grp ts q;
  ended_flag y : flag ts' y = flag ts y;
  ended_ret y : ret ts' y = ret ts y;
  ended_extr y : extr ts' y = extr ts y;
  ended_ext y : ext ts' y = ext ts y;
  ended_frame y t' : ts' !! y = Some t' → ∃ t, ts !! y = Some t ∧ frame t = frame t' }.

(** Who is woken: whoever waits for [x] alone, and an observer of [x] that sleeps. *)
Record wakes (ts : gmap N Task) (x : N) (w : option N) : Prop := {
  wakes_who p : w = Some p → wt ts x = Some p ∧
    ((st ts p = Some (Waiting x) ∧ mems ts p !! x = None) ∨ (st ts p = Some Observing ∧ is_Some (mems ts p !! x)));
  wakes_waiting q : q ≠ x → st ts q = Some (Waiting x) → w = Some q;
  wakes_observing q : q ≠ x → st ts q = Some Observing → is_Some (mems ts q !! x) → w = Some q }.

Section ends.
Context (ts ts' : gmap N Task) (x : N) (s : State) (n : N) (w : option N).
Context (E : ended ts ts' x s n w) (K : wakes ts x w).
Context (Htree : tree_ok ts) (Hwait : wait_ok {[x]} ts) (Hlive : live ts x) (Hopen : ord ts x = None).

Lemma woken_other p : w = Some p → p ≠ x.
Proof.
  intros Hp ->. destruct (wakes_who _ _ _ K x Hp) as [Hw _]. apply (wait_parent _ _ Hwait) in Hw.
  by apply (not_own_parent _ Htree x).
Qed.

(** The states of the woken task, before and after. *)
Lemma woken_state p : w = Some p → (st ts p = Some (Waiting x) ∨ st ts p = Some Observing) ∧ st ts' p = Some Queued.
Proof.
  intros Hp. split.
  - destruct (wakes_who _ _ _ K p Hp) as [_ [[? _]|[? _]]]; auto.
  - rewrite (ended_st _ _ _ _ _ _ E), decide_False, decide_True; auto using woken_other.
Qed.

Lemma ended_ord y : ord ts' y = if decide (y = x) then Some n else ord ts y.
Proof.
  unfold ord at 1. rewrite (ended_st _ _ _ _ _ _ E). case_decide; [apply E|]. case_decide as Hp; [|done].
  destruct (woken_state y Hp) as [Hs _]. unfold ord. by destruct Hs as [-> | ->].
Qed.

Lemma ended_live y : live ts' y ↔ live ts y.
Proof.
  rewrite !live_st, (ended_st _ _ _ _ _ _ E). case_decide; [subst|case_decide as Hp].
  - apply live_st in Hlive. split; [done|]. by eexists.
  - destruct (woken_state y Hp) as [Hs _]. split; [|by eexists]. intros _. by destruct Hs as [-> | ->]; eexists.
  - done.
Qed.

Lemma ended_completed y : y ≠ x → completed ts' y ↔ completed ts y.
Proof.
  intros Hne. unfold completed. rewrite (ended_st _ _ _ _ _ _ E), decide_False by done.
  case_decide as Hp; [|done]. destruct (woken_state y Hp) as [Hs _].
  split; intros [k Hk]; destruct Hs; congruence.
Qed.

Lemma ended_wait : (∀ y, wt ts y ≠ Some x) → wait_ok ∅ ts'.
Proof.
  intros Hno. destruct Hwait as [W1 W2 W3 W4 W5 W6 W7 W8]. pose proof E as [_ E1 _ E3 E4 E5 E6 E7 _ _ _ _].
  split.
  - intros y q. rewrite E4, E1. apply W1.
  - intros y q. rewrite E4, ended_ord, E5, E3. intros Hw _ _ Hn. case_decide as Hy; [done|].
    assert (q ≠ x) as Hq by (intros ->; by destruct (Hno y)). rewrite decide_False by done.
    destruct (W2 y q Hw ltac:(set_solver) ltac:(set_solver) Hn) as [?|Hs]; [by left|].
    case_decide as Hp; [|by right]. destruct (woken_state q Hp) as [[?|?] _]; congruence.
  - intros q y. rewrite E3, E4, ended_ord, E5. intros Hq _. case_decide as Hqx.
    { injection Hq as Hq. pose proof (ended_order _ _ _ _ _ _ E) as Ho. by rewrite Hq in Ho. }
    case_decide as Hp; [done|]. destruct (W3 q y Hq ltac:(set_solver)) as (? & ? & ?).
    rewrite decide_False; [done|]. intros ->. by apply Hp, K.
  - intros q y. rewrite E5, E4. apply W4.
  - intros q k y. rewrite E6, E5, ended_ord. case_decide as Hm.
    + rewrite pset_insert_elem, W5. case_decide; [subst|].
      * split; [intros [[= ->]|[_ Hk]]; [done|congruence]|]. intros [_ [= ->]]. by left.
      * split; [intros [[= -> ->]|?]; done|]. by right.
    + rewrite W5. case_decide; [subst|done]. split; by intros [? _].
  - intros q. rewrite E6. case_decide; [apply pset_insert_sorted|]; apply W6.
  - intros q. rewrite E3, E5, E6. intros Hq _. case_decide as Hqx.
    { injection Hq as Hq. pose proof (ended_order _ _ _ _ _ _ E) as Ho. by rewrite Hq in Ho. }
    case_decide as Hp; [done|]. destruct (W7 q Hq ltac:(set_solver)) as [? ?]. split; [done|].
    rewrite decide_False; [done|]. intros Hm. by apply Hp, (wakes_observing _ _ _ K).
  - intros y. rewrite E7, E4, E1. apply W8.
Qed.

Lemma ended_done :
  (∀ k, s = Completed k → (∀ y, y ∈ kids ts x → flag ts y = true) ∧ ret ts x = lengthN (flagged ts (kids ts x))) →
  ((∀ k, s ≠ Completed k) → kids ts x = []) →
  (∀ k, s = Cancelled k → ∃ p, par ts x = Some p) → done_ok {[x]} ts → done_ok ∅ ts'.
Proof.
  intros Hc Hf Hcan [X1 X2 X3 X4 X5 X6]. pose proof E as [_ E1 E2 E3 _ _ _ E7 E8 E9 _ _].
  assert (∀ l, flagged ts' l = flagged ts l) as Hfl by (intros; by apply flagged_ext).
  assert (completed ts' x → ∃ k, s = Completed k) as Hcx.
  { intros [k Hk]. rewrite E3, decide_True in Hk by done. exists k. congruence. }
  assert (¬ completed ts x) as Hnc by (intros [k Hk]; unfold ord in Hopen; by rewrite Hk in Hopen).
  split.
  - intros y [Hl Hy] _. rewrite E8, Hfl, E2. destruct (decide (y = x)) as [->|Hne].
    + destruct Hy as [Ho|[[k Hk]%Hcx _]]; [by rewrite ended_ord, decide_True in Ho|]. by apply (Hc k).
    + apply X1; [|set_solver]. unfold counted. rewrite <-ended_live, <-ended_completed by done.
      rewrite ended_ord, decide_False, E9 in Hy by done. by split.
  - intros y z. rewrite E2, E7. intros Hy Hz. destruct (decide (y = x)) as [->|Hne].
    + destruct (Hcx Hy) as [k Hk]. by apply (Hc k).
    + apply ended_completed in Hy; [|done]. by eapply X2.
  - intros y. rewrite E9, E2. intros Hy. destruct (X3 y Hy) as [Hcy Hk].
    assert (y ≠ x) as Hne by (by intros ->). rewrite ended_completed by done. split; [done|].
    intros _. apply Hk. set_solver.
  - intros y. rewrite ended_ord, E2. intros Ho Hcy. destruct (decide (y = x)) as [->|Hne].
    + apply Hf. intros k ->. apply Hcy. exists k. by rewrite E3, decide_True.
    + apply X4; [done|]. by rewrite <-ended_completed.
  - intros y. rewrite E1, E8. apply X5.
  - intros y k. rewrite E3, E1. case_decide; [intros [= ->]; subst; by apply (Hcan k)|]. case_decide; [done|apply X6].
Qed.
End ends.

(** The end of [x] in the whole scheduler: [q] is the new queue, with the woken task in it. *)
Lemma inv_ended {P W} (o : Owner P W) ts' x s n w q cur :
  inv {[x]} o → ended (tasks (core o)) ts' x s n w → wakes (tasks (core o)) x w →
  live (tasks (core o)) x → ord (tasks (core o)) x = None → (∀ y, wt (tasks (core o)) y ≠ Some x) →
  (∀ k, s = Completed k → (∀ y, y ∈ kids (tasks (core o)) x → flag (tasks (core o)) y = true) ∧
     ret (tasks (core o)) x = lengthN (flagged (tasks (core o)) (kids (tasks (core o)) x))) →
  ((∀ k, s ≠ Completed k) → kids (tasks (core o)) x = []) →
  (∀ k, s = Cancelled k → ∃ p, par (tasks (core o)) x = Some p) →
  n = next (core o) + 1 → ¬ pend_at (tasks (core o)) x →
  (root (core o) = Some x ↔ par (tasks (core o)) x = None) →
  let c' := mkCore ts' q cur (root (core o)) n (pending (core o)) in
  NoDup q → (∀ y, y ∈ q ↔ y ∈ ready (core o) ∨ w = Some y) →
  (∀ y, y ∈ ready (core o) → y = x ∨ zombie (core o) y → zombie c' y) →
  (cur = current (core o) ∨ current (core o) = Some x ∧ cur = None) → cur ≠ Some x →
  (∀ p, w = Some p → cur ≠ Some p) →
  inv ∅ (mkOwner c' (roots o) (reactor o) (world o)).
Proof.
  intros [I1 I2 I3 I4 I5 I6 I7 I8] E K Hl Ho Hno Hc Hf Hcan Hn Hnp Hroot c' Hnd Hq Hz Hcur Hcx Hcw.
  pose proof E as [_ E1 E2 E3 E4 E5 E6 E7 E8 E9 E10 E11].
  pose proof (ended_ord _ _ _ _ _ _ E K I1 I2) as Eo. pose proof (ended_live _ _ _ _ _ _ E K I1 I2 Hl) as El.
  pose proof (woken_state _ _ _ _ _ _ E K I1 I2) as Ew.
  split; simpl.
  - by eapply tree_ext.
  - by eapply (ended_wait (tasks (core o)) ts' x s n w).
  - destruct I3 as [Q1 Q2 Q3 Q4 Q5 Q6]. split; simpl; try done.
    + intros y. rewrite E3, Hq. case_decide; [intros [= ->]; by destruct E|]. case_decide; [by right|].
      intros Hy. left. by apply Q2.
    + intros y Hy Hly _. apply El in Hly. rewrite E3. destruct (decide (y = x)) as [->|Hne].
      { right. apply Hq in Hy as [Hy|Hy]; [by apply Hz; [|left]|]. by destruct (woken_other _ _ _ K I1 I2 x Hy). }
      case_decide as Hp; [by left|]. apply Hq in Hy as [Hy|?]; [|done].
      destruct (Q3 y Hy Hly ltac:(set_solver)) as [?|?]; [by left|right]. apply Hz; auto.
    + intros y. rewrite E3. case_decide as Hyx; [intros [= ->]; by destruct E|]. case_decide; [done|].
      intros Hy. specialize (Q4 y Hy ltac:(set_solver)). destruct Hcur as [->|[Hcur _]]; congruence.
    + intros y Hy _. rewrite E3, decide_False by congruence.
      rewrite decide_False by (intros Hp; by apply (Hcw y)).
      apply Q5; [destruct Hcur as [<-|[_ ?]]; congruence|]. intros ->%elem_of_singleton. done.
    + intros y [Hy%Q6|Hy]%Hq; [lia|]. destruct (wakes_who _ _ _ K y Hy) as [_ Hs].
      assert (live (tasks (core o)) y) as Hly%(ids_live _ I5); [|lia].
      apply live_st. destruct Hs as [[-> _]|[-> _]]; by eexists.
  - by eapply (ended_done (tasks (core o)) ts' x s n w).
  - destruct I5 as [J1 J2 J3]. split; simpl.
    + intros y Hy%El%J1. lia.
    + intros y k. rewrite Eo. case_decide; [intros [= <-]; lia|]. intros Hk%J2. lia.
    + intros y z k. rewrite !Eo. repeat case_decide; subst; try done.
      * intros [= <-] Hz'%J2. lia.
      * intros Hy%J2 [= <-]. lia.
      * apply J3.
  - destruct I6 as [X1 X2 X3 X4 X5]. split; simpl; try done.
    + intros y. rewrite E3, E10. case_decide; [intros [= ->]; by destruct E|]. case_decide; [done|].
      intros Hy _. apply X1; [done|set_solver].
    + intros y v. rewrite E10, E3. intros Hy Hr _. case_decide; [subst; destruct Hnp; by exists v|].
      specialize (X2 y v Hy Hr ltac:(set_solver)). case_decide as Hp; [|done].
      destruct (Ew y Hp) as [[?|?] _]; congruence.
    + rewrite X3. f_equal. symmetry. apply pend_count_ext. intros y. unfold pend_at. by rewrite E10.
    + intros y v. rewrite E10. apply X4.
  - by eapply frames_ok_ext.
  - destruct I8 as [R1 R2]. split; simpl; intros y; rewrite El, E1.
    { intros Hy Hpy _. destruct (decide (y = x)) as [->|]; [by apply Hroot|]. apply R1; [done..|set_solver]. }
    intros Hy _. destruct (decide (y = x)) as [->|]; [split; [done|by apply Hroot]|]. apply R2; [done|set_solver].
Qed.

(** The end of a resume and of a cancellation: what a faulting task drops before its stack
    unwinds, who is woken when a task has ended, and that the invariant holds again. *)

(** [o'] is [o] when the task [x] has no descendants and no external wait left. *)
Record quiet {P W} (x : N) (o o' : Owner P W) : Prop := {
  quiet_inv : inv {[x]} o';
  quiet_live : live (tasks (core o')) x;
  quiet_kids : kids (tasks (core o')) x = [];
  quiet_ext : ext (tasks (core o')) x = None;
  quiet_st y : live (tasks (core o')) y → st (tasks (core o')) y = st (tasks (core o)) y;
  quiet_wt y : live (tasks (core o')) y → wt (tasks (core o')) y = wt (tasks (core o)) y;
  quiet_par y : live (tasks (core o')) y → par (tasks (core o')) y = par (tasks (core o)) y;
  quiet_mems p y : live (tasks (core o')) p → live (tasks (core o')) y →
    mems (tasks (core o')) p !! y = mems (tasks (core o)) p !! y;
  quiet_ready : ready (core o') = ready (core o);
  quiet_current : current (core o') = current (core o);
  quiet_root : root (core o') = root (core o);
  quiet_next : next (core o') = next (core o);
  quiet_below y : live (tasks (core o)) y → ¬ live (tasks (core o')) y → Above (tasks (core o)) x y }.

Section quieting.
Context {P W : Type} `{Wait.Poller P} `{Native W} (linux : bool).
Implicit Types o : Owner P W.

Lemma quiet_from x o o1 o2 t :
  pruned_below {[x]} x o o1 → kids (tasks (core o1)) x = [] → tasks (core o1) !! x = Some t →
  inv {[x]} o2 → tasks (core o2) = <[x := detached (set_external None t)]> (tasks (core o1)) →
  ready (core o2) = ready (core o1) → current (core o2) = current (core o1) →
  root (core o2) = root (core o1) → next (core o2) = next (core o1) → quiet x o o2.
Proof.
  intros [_ S B] Hk Ht Hi Ets Er Ec Ero En. view_facts Ht.
  assert (∀ y, live (tasks (core o2)) y ↔ live (tasks (core o1)) y) as El.
  { intros y. rewrite Ets, live_insert. split; [by intros [->|?]|by right]. }
  split; rewrite ?Er, ?Ec, ?Ero, ?En; try apply S; try done.
  - rewrite Ets, live_insert. by left.
  - rewrite Ets. same_view.
  - rewrite Ets. autorewrite with views. by rewrite decide_True.
  - intros y Hy%El. destruct (survives_views _ _ S y Hy) as (<- & _). rewrite Ets. same_view.
  - intros y Hy%El. destruct (survives_views _ _ S y Hy) as (_ & _ & <- & _). rewrite Ets. same_view.
  - intros y Hy%El. destruct (survives_views _ _ S y Hy) as (_ & <- & _). rewrite Ets. same_view.
  - intros p y Hp%El Hy%El. rewrite <-(sv_mems _ _ S p y Hp Hy), Ets. autorewrite with views.
    case_decide; [subst|done]. unfold mems. by rewrite V3.
  - intros y Hy Hn. apply B; [done|]. intros Hy1. by apply Hn, El.
Qed.

(** The hook that runs before the stack of a faulting resume unwinds. *)
Lemma before_resume_fault_wp x (Q : answer () → Owner P W → Prop) o :
  inv {[x]} o → live (tasks (core o)) x → current (core o) = Some x →
  (∀ o', quiet x o o' → Q (Done tt) o') → wp (before_resume_fault linux) Q o.
Proof.
  intros Hi Hl Hc HQ. unfold before_resume_fault. do 2 act. act. eapply wp_expect; [exact Hc|].
  act. apply (cancel_descendants_wp linux {[x]}); [exact Hi|set_solver|exact Hl| |].
  { intros c Hc'. assert (c = x) as -> by congruence. apply (above_irrefl _ _ (tree_reach _ (inv_tree _ _ _ Hi) x)). }
  intros first o1 _ Hb [t Ht] Hk. pose proof (pb_inv _ _ _ _ Hb) as Hi1.
  act. eapply wp_cancel_wait; [exact Hi1|set_solver|exact Ht|]. intros n r o2 Hi2.
  act. eapply wp_cancel_operation; [exact Hi2|apply lookup_insert_eq|]. intros f w o3 Hi3. act.
  apply HQ. eapply quiet_from; [exact Hb|exact Hk|exact Ht|exact Hi3| |done..].
  simpl. apply insert_insert_eq.
Qed.
End quieting.

(** ** Waking *)

Section waking.
Context {P W : Type} `{Wait.Poller P} `{Native W}.
Implicit Types o : Owner P W.

(** What is known of a task [x] that is about to end in state [s] with the stamp [n]. *)
Record ending x t s n o : Prop := {
  en_inv : inv {[x]} o;
  en_task : tasks (core o) !! x = Some t;
  en_open : terminal_order (state t) = None;
  en_current : current (core o) = None;
  en_ready : x ∉ ready (core o);
  en_state : terminal_order s = Some n;
  en_stamp : n = next (core o) + 1;
  en_waits y : wt (tasks (core o)) y ≠ Some x;
  en_completed k : s = Completed k →
    (∀ y, y ∈ kids (tasks (core o)) x → flag (tasks (core o)) y = true) ∧
    ret (tasks (core o)) x = lengthN (flagged (tasks (core o)) (kids (tasks (core o)) x));
  en_failed : (∀ k, s ≠ Completed k) → kids (tasks (core o)) x = [];
  en_cancelled k : s ≠ Cancelled k;
  en_pending : ¬ pend_at (tasks (core o)) x;
  en_root : root (core o) = Some x ↔ par (tasks (core o)) x = None;
  en_waiter p : waiter t = Some p →
    is_Some (mems (tasks (core o)) p !! x) ∨ (mems (tasks (core o)) p !! x = None ∧ st (tasks (core o)) p = Some (Waiting x)) }.

Lemma ending_inv x t s n w q ts' o :
  ending x t s n o → ended (tasks (core o)) ts' x s n w → wakes (tasks (core o)) x w →
  NoDup q → (∀ y, y ∈ q ↔ y ∈ ready (core o) ∨ w = Some y) →
  inv ∅ (mkOwner (mkCore ts' q (current (core o)) (root (core o)) n (pending (core o))) (roots o) (reactor o) (world o)).
Proof.
  intros [] E K Hnd Hq. view_facts en_task0.
  eapply inv_ended; try done.
  - unfold ord. rewrite V. exact en_open0.
  - intros k ->. by destruct (en_cancelled0 k).
  - intros y Hy [->|(_ & p & _ & Hc & _)]; [done|congruence].
  - by left.
  - congruence.
  - congruence.
Qed.

(** The state with the ended task, before its waiter is woken. *)
Definition at_end x t s n o : Owner P W := on_tasks (insert x (set_state s t)) (on_core (with_next n) o).

(** Both ends of the queue. *)
Lemma push_spec (priority : bool) p c :
  let q := ready (if priority then push_ready_front p c else push_ready p c) in
  p ∉ ready c → NoDup (ready c) → NoDup q ∧ ∀ y, y ∈ q ↔ y ∈ ready c ∨ Some p = Some y.
Proof.
  intros q Hp Hnd. unfold q. destruct priority; simpl; split.
  - by apply NoDup_cons.
  - intros y. rewrite elem_of_cons. naive_solver.
  - apply NoDup_app. split; [done|]. split; [|apply NoDup_singleton]. intros y Hy ->%list_elem_of_singleton. done.
  - intros y. rewrite elem_of_app, list_elem_of_singleton. naive_solver.
Qed.

(** A waiter that sleeps is not in the queue. *)
Lemma sleeper_not_ready x t s n p o :
  ending x t s n o → p ≠ x → ord (tasks (core o)) p = None → st (tasks (core o)) p ≠ Some Queued →
  live (tasks (core o)) p → p ∉ ready (core o).
Proof.
  intros G Hne Ho Hs Hl Hp.
  destruct (queue_ready _ _ (inv_queue _ _ _ (en_inv _ _ _ _ _ G)) p Hp Hl ltac:(set_solver)) as [?|[[k Hk] _]];
    congruence.
Qed.

(** An observer gets a notification; one that sleeps goes to the queue. *)
Lemma wake_observed x t s n p tp g (Q : answer () → Owner P W → Prop) o :
  ending x t s n o → waiter t = Some p → tasks (core o) !! p = Some tp → p ≠ x →
  observation tp = Some g → is_Some (members g !! x) →
  (∀ o', inv ∅ o' → current (core o') = None → Q (Done tt) o') →
  wp (wake_waiter x) Q (at_end x t s n o).
Proof.
  intros G Ew Htp Hne Eg Hm HQ. pose proof G as [Hi Ht Hopen Hcur Hready Hs Hn Hno Hcom Hfail Hcan Hpend Hroot Hwaiter].
  pose proof (inv_wait _ _ _ Hi) as Hw. view_facts Ht. view_facts Htp.
  assert ((n, x) ∉ group_ready g) as Hg.
  { intros Hin. assert ((n, x) ∈ grp (tasks (core o)) p) as Hin' by (unfold grp; by rewrite V13, Eg).
    apply (wait_group _ _ Hw) in Hin' as [_ Ho]. unfold ord in Ho. rewrite V in Ho. simpl in Ho. congruence. }
  assert (∀ q, is_Some (mems (tasks (core o)) q !! x) → q = p) as Hq.
  { intros q Hq%(wait_members _ _ Hw). congruence. }
  assert (is_Some (mems (tasks (core o)) p !! x)) as Hmp by (unfold mems; by rewrite V13, Eg).
  set (g' := mkObservation (members g) (pset_insert (n, x) (group_ready g)) (selected_fault g) (selected_index g)).
  unfold wake_waiter, at_end. act. eapply wp_task; [apply lookup_insert_eq|]. cbn [state set_state waiter].
  rewrite Ew. act. unfold observation_completed. act. eapply wp_task; [apply lookup_insert_eq|]. cbn [state set_state].
  act. eapply wp_expect; [exact Hs|]. act. eapply wp_task; [at_task|]. rewrite Eg, (bool_decide_true (is_Some _)) by done.
  act. apply wp_announce; [exact Hg|]. fold g'.
  set (ts s' := <[p := set_state s' (set_observation (Some g') tp)]> (<[x := set_state s t]> (tasks (core o)))).
  assert (∀ w s', (w = Some p ∧ s' = Queued) ∨ (w = None ∧ s' = state tp) →
    ended (tasks (core o)) (ts s') x s n w) as He.
  { intros w s' Hws. split; try done; try (intros y; destruct Hws as [[-> ->]|[-> ->]]; unfold ts; same_view).
    - intros q. unfold ts. unfold mems. autorewrite with views. simpl. repeat case_decide; subst; simpl.
      all: rewrite ?V13, ?V3, ?Eg; done.
    - intros q. unfold ts, grp. autorewrite with views. simpl. destruct (decide (q = p)) as [->|Hqp].
      + rewrite (decide_True (P := is_Some _)) by done. by rewrite V13, Eg.
      + rewrite (decide_False (P := is_Some _)) by (intros Hin; by apply Hqp, Hq).
        case_decide; [subst; by rewrite V3|done].
    - intros y u Hu. eapply same_frames in Hu as (v & Hv & <-); [|by at_task|done]. by eapply same_frames in Hv. }
  assert (∀ q, q ≠ x → st (tasks (core o)) q ≠ Some (Waiting x)) as Hnw.
  { intros q Hqx Hqs. apply (wait_waiting _ _ Hw) in Hqs as (Hwx & _ & Hnm); [|set_solver].
    assert (q = p) as -> by congruence. rewrite Hnm in Hmp. by destruct Hmp. }
  assert (state tp ≠ Observing → inv ∅ (on_tasks (insert p (set_observation (Some g') tp)) (at_end x t s n o))) as Hstay.
  { intros Hno'. refine (ending_inv x t s n None (ready (core o)) (ts (state tp)) o G (He None _ _) _ _ _).
    - by right.
    - split; [done| |].
      + intros q Hqx Hqs. by destruct (Hnw q Hqx).
      + intros q _ Hqs ->%Hq. congruence.
    - apply (inv_queue _ _ _ Hi).
    - intros y. split; [by left|]. by intros [?|?]. }
  destruct (state tp) eqn:Es; try (do 4 act; apply HQ; [by apply Hstay|done]).
  do 6 act. apply HQ; [|by case_match].
  destruct (push_spec (match s with Faulted _ _ => true | _ => false end) p (core o)) as [Hnd Hin].
  - eapply sleeper_not_ready; [exact G|done| |congruence|exact V18]. unfold ord. by rewrite V9.
  - apply (inv_queue _ _ _ Hi).
  - assert (inv ∅ (mkOwner (mkCore (ts Queued) (ready (if match s with Faulted _ _ => true | _ => false end
      then push_ready_front p (core o) else push_ready p (core o))) (current (core o)) (root (core o)) n (pending (core o)))
      (roots o) (reactor o) (world o))) as Hinv; [|by destruct s].
    eapply ending_inv; [exact G|apply (He (Some p) Queued); by left| |exact Hnd|exact Hin].
    split.
    + intros q [= <-]. split; [congruence|]. by right.
    + intros q Hqx Hqs. by destruct (Hnw q Hqx).
    + intros q _ _ ->%Hq. done.
Qed.

(** A task that waits for [x] alone goes to the queue. *)
Lemma wake_awaiting x t s n p tp (Q : answer () → Owner P W → Prop) o :
  ending x t s n o → waiter t = Some p → tasks (core o) !! p = Some tp → p ≠ x →
  mems (tasks (core o)) p !! x = None → state tp = Waiting x →
  (∀ o', inv ∅ o' → current (core o') = None → Q (Done tt) o') →
  wp (wake_waiter x) Q (at_end x t s n o).
Proof.
  intros G Ew Htp Hne Hm Es HQ. pose proof G as [Hi Ht Hopen Hcur Hready Hs Hn Hno Hcom Hfail Hcan Hpend Hroot Hwaiter].
  pose proof (inv_wait _ _ _ Hi) as Hw. view_facts Ht. view_facts Htp.
  assert (∀ q, mems (tasks (core o)) q !! x = None) as Hnm.
  { intros q. apply eq_None_not_Some. intros Hq. pose proof (wait_members _ _ Hw _ _ Hq) as Hqw.
    assert (q = p) as -> by congruence. rewrite Hm in Hq. by destruct Hq. }
  unfold wake_waiter, at_end. act. eapply wp_task; [apply lookup_insert_eq|]. cbn [state set_state waiter].
  rewrite Ew. act. unfold observation_completed. act. eapply wp_task; [apply lookup_insert_eq|]. cbn [state set_state].
  act. eapply wp_expect; [exact Hs|]. act. eapply wp_task; [at_task|].
  assert (∀ g, observation tp = Some g → bool_decide (is_Some (members g !! x)) = false) as Hg.
  { intros g Eg. apply bool_decide_eq_false. unfold mems in Hm. rewrite V13, Eg in Hm. simpl in Hm. rewrite Hm. by intros []. }
  set (ts' := <[p := set_state Queued tp]> (<[x := set_state s t]> (tasks (core o)))).
  assert (wp (tp ← gets (λ c, tasks c !! p); tp ← expect tp "live task waiter";
    match state tp with
    | Waiting child =>
        if child =? x then
          put p (set_state Queued tp) ;;
          modify (if match s with Faulted _ _ => true | _ => false end then push_ready_front p else push_ready p)
        else fatal "invalid task waiter state"
    | _ => fatal "invalid task waiter state"
    end) Q (at_end x t s n o)) as Hend.
  { do 2 act. act. eapply wp_expect; [at_task|]. rewrite Es, N.eqb_refl. do 3 act. apply HQ; [|by destruct s].
    destruct (push_spec (match s with Faulted _ _ => true | _ => false end) p (core o)) as [Hnd Hin].
    - eapply sleeper_not_ready; [exact G|done| |congruence|exact V18]. unfold ord. by rewrite V9, Es.
    - apply (inv_queue _ _ _ Hi).
    - assert (inv ∅ (mkOwner (mkCore ts' (ready (if match s with Faulted _ _ => true | _ => false end
        then push_ready_front p (core o) else push_ready p (core o))) (current (core o)) (root (core o)) n (pending (core o)))
        (roots o) (reactor o) (world o))) as Hinv; [|by destruct s].
      eapply ending_inv; [exact G| | |exact Hnd|exact Hin].
      + split; try done; try same_view.
        * intros q. unfold ts'. rewrite decide_False by (rewrite Hnm; by intros []). same_view.
        * intros y u Hu. eapply same_frames in Hu as (v & Hv & <-); [|by at_task|done]. by eapply same_frames in Hv.
      + split.
        * intros q [= <-]. split; [congruence|]. left. split; [congruence|done].
        * intros q Hqx Hqs. apply (wait_waiting _ _ Hw) in Hqs as (Hwx & _); [congruence|set_solver].
        * intros q _ _ Hq. rewrite Hnm in Hq. by destruct Hq. }
  destruct (observation tp) as [g|] eqn:Eg; [rewrite (Hg g eq_refl)|]; act; exact Hend.
Qed.

(** Whoever waits for a task that has just ended is woken. *)
Lemma wake_wp x t s n (Q : answer () → Owner P W → Prop) o :
  ending x t s n o → (∀ o', inv ∅ o' → current (core o') = None → Q (Done tt) o') →
  wp (wake_waiter x) Q (at_end x t s n o).
Proof.
  intros G HQ. pose proof G as [Hi Ht Hopen Hcur Hready Hs Hn Hno Hcom Hfail Hcan Hpend Hroot Hwaiter].
  pose proof (inv_wait _ _ _ Hi) as Hw. pose proof (inv_tree _ _ _ Hi) as Htree. view_facts Ht.
  destruct (waiter t) as [p|] eqn:Ew.
  - pose proof (wait_parent _ _ Hw x p V0) as Hp.
    assert (p ≠ x) as Hne by (intros ->; by apply (not_own_parent _ Htree x)).
    pose proof Hp as Hin. apply (tree_links _ Htree) in Hin. destruct (kids_live _ Htree _ _ Hin) as [_ [tp Htp]].
    view_facts Htp. destruct (Hwaiter p eq_refl) as [Hm|[Hm Hst]].
    + assert (∃ g, observation tp = Some g ∧ is_Some (members g !! x)) as (g & Eg & Hg).
      { unfold mems in Hm. rewrite V13 in Hm. destruct (observation tp) as [g|]; [by exists g|].
        simpl in Hm. rewrite lookup_empty in Hm. by destruct Hm. }
      by eapply wake_observed.
    + eapply wake_awaiting; try done. congruence.
  - unfold wake_waiter, at_end. act. eapply wp_task; [apply lookup_insert_eq|]. cbn [state set_state waiter].
    rewrite Ew. act. apply HQ; [|done].
    assert (∀ q, mems (tasks (core o)) q !! x = None) as Hnm.
    { intros q. apply eq_None_not_Some. intros Hq%(wait_members _ _ Hw). congruence. }
    eapply (ending_inv x t s n None (ready (core o)) _ o G).
    + split; try same_view; try done.
      * intros q. simpl. rewrite decide_False by (rewrite Hnm; by intros []). same_view.
      * by eapply same_frames.
    + split; try done.
      * intros q Hne Hq. apply (wait_waiting _ _ Hw) in Hq as (Hq & _); [congruence|set_solver].
      * intros q _ _ Hq. rewrite Hnm in Hq. by destruct Hq.
    + apply (inv_queue _ _ _ Hi).
    + intros y. split; [by left|]. by intros [?|?].
Qed.
End waking.
