(* ===== verification/TaskPoll.v ===== *)
(** [poll]: the wait of the reactor, and the delivery of the events that it has announced to
    the tasks that wait for them. *)

From S2P Require Import Prelude Text Slots Tasks TaskInv TaskRun TaskOps TaskResults TaskWaits TaskEvents.
From S2P Require FrameRoots Wait WaitFacts.
From Stdlib Require Import Sorted.

(** The notification is that of the pending wait of [x]. *)
Definition takes (c : Core) (n : Wait.ReadyNotification) (x : N) : Prop :=
  Wait.ready_owner n = x ∧ ∃ w, ext (tasks c) x = Some w ∧ wait_ready w = None ∧
    registration w = Wait.registration n.

(** The delivery of [ns]: the tasks that wait for one of them are queued behind the others,
    with the notification; no other task changes. *)
Record delivered (ns : list Wait.ReadyNotification) (c c' : Core) : Prop := {
  delivered_taken n x : n ∈ ns → takes c n x →
    st (tasks c') x = Some Queued ∧
    ∃ n' w, n' ∈ ns ∧ takes c n' x ∧ ext (tasks c') x = Some w ∧ wait_ready w = Some n';
  delivered_other x : (∀ n, n ∈ ns → ¬ takes c n x) → tasks c' !! x = tasks c !! x;
  delivered_queue : ∃ q, ready c' = ready c ++ q ∧ ∀ x, x ∈ q ↔ ∃ n, n ∈ ns ∧ takes c n x;
  delivered_current : current c' = current c;
  delivered_root : root c' = root c;
  delivered_next : next c' = next c }.

Lemma delivered_nil c : delivered [] c c.
Proof.
  split; try done; [by intros n x ?%elem_of_nil|]. exists []. rewrite app_nil_r. split; [done|].
  intros x. split; [by intros ?%elem_of_nil|]. by intros (n & ?%elem_of_nil & _).
Qed.

Lemma takes_ext c c' n x : tasks c' !! x = tasks c !! x → takes c' n x ↔ takes c n x.
Proof. intros E. unfold takes, ext. by rewrite E. Qed.

Lemma delivered_cons n ns c c1 c' :
  delivered [n] c c1 → delivered ns c1 c' → delivered (n :: ns) c c'.
Proof.
  intros [A1 A2 (q & A3 & Aq) A4 A5 A6] [B1 B2 (q' & B3 & Bq) B4 B5 B6].
  assert (∀ x, takes c n x ∨ ¬ takes c n x) as Hdec.
  { intros x. unfold takes. destruct (ext (tasks c) x) as [w|]; [|by right; intros (_ & w & ? & _)].
    destruct (decide (Wait.ready_owner n = x)), (decide (wait_ready w = None)),
      (decide (registration w = Wait.registration n)); try (right; by intros (? & v & [= <-] & ? & ?)).
    left. eauto. }
  assert (∀ m x, takes c n x → ¬ takes c1 m x) as Hgone.
  { intros m x Hx (_ & w & Hw & Hn & _). destruct (A1 n x ltac:(left) Hx) as (_ & n' & w' & _ & _ & Hw' & Hs). congruence. }
  assert (∀ x, ¬ takes c n x → tasks c1 !! x = tasks c !! x) as Hkept.
  { intros x Hx. apply A2. by intros m ->%list_elem_of_singleton. }
  split; try congruence.
  - intros m x Hm Hx. destruct (Hdec x) as [Hn|Hn].
    + destruct (A1 n x ltac:(left) Hn) as (Hs & n' & w & ->%list_elem_of_singleton & _ & Hw & Hr).
      assert (tasks c' !! x = tasks c1 !! x) as E by (apply B2; auto).
      unfold st, ext in *. rewrite E. split; [done|]. exists n, w. split; [left|done].
    + apply elem_of_cons in Hm as [->|Hm]; [done|].
      assert (∀ l, takes c1 l x ↔ takes c l x) as E by (intros l; by apply takes_ext, Hkept).
      destruct (B1 m x Hm) as (Hs & n' & w & Hn' & Ht & Hw & Hr); [by apply E|].
      split; [done|]. exists n', w. split; [by right|]. split; [by apply E|done].
  - intros x Hx. assert (¬ takes c n x) as Hn by (apply Hx; left). rewrite B2; [by apply Hkept|].
    intros m Hm. rewrite takes_ext by by apply Hkept. apply Hx. by right.
  - exists (q ++ q'). split; [by rewrite B3, A3, app_assoc|]. intros x.
    assert (¬ takes c n x → ∀ m, takes c1 m x ↔ takes c m x) as Hsame
      by (intros Hx m; by apply takes_ext, Hkept).
    rewrite elem_of_app, Aq, Bq. split.
    + intros [(m & ->%list_elem_of_singleton & Hm)|(m & Hm & Hx)]; [exists n; by split; [left|]|].
      destruct (Hdec x) as [Hn|Hn]; [by destruct (Hgone m x Hn)|].
      exists m. split; [by right|]. by apply Hsame.
    + intros (m & [->|Hm]%elem_of_cons & Hx); [left; exists n; by split; [left|]|].
      destruct (Hdec x) as [Hn|Hn]; [left; exists n; by split; [left|]|].
      right. exists m. split; [done|]. by apply Hsame.
Qed.

Section polling.
Context {P W : Type} `{Wait.Poller P} `{Native W} (linux : bool).
Implicit Types o : Owner P W.

Lemma wp_finish_pending (Q : answer () → Owner P W → Prop) o :
  1 ≤ pending (core o) → Q (Done tt) (on_core (with_pending (pending (core o) - 1)) o) → wp finish_pending Q o.
Proof. intros Hle HQ. unfold finish_pending, wp, sub_checked. by rewrite (proj2 (N.leb_le _ _) Hle). Qed.

(** A notification that no task waits for is dropped. *)
Lemma inv_popped o n (r : Wait.Reactor P) :
  inv ∅ o → WaitFacts.core_ok (Wait.core r) →
  (∀ reg x, registered (reactor o) reg x → registered r reg x ∨ (Wait.registration n = reg ∧ Wait.ready_owner n = x)) →
  (∀ x, ¬ takes (core o) n x) → inv ∅ (mkOwner (core o) (roots o) r (world o)).
Proof.
  intros [I1 I2 I3 I4 I5 [X1 X2 X3 X4 X5] I7 I8] Hr Hreg Hno. split; try done. split; try done. cbn.
  intros x w Hw Hn. destruct (Hreg _ _ (X4 x w Hw Hn)) as [?|[? ?]]; [done|]. destruct (Hno x). split; eauto.
Qed.

(** The task that waits for the notification is queued behind the others. *)
Lemma inv_delivered o n (r : Wait.Reactor P) x t w k :
  inv ∅ o → current (core o) = None → WaitFacts.core_ok (Wait.core r) →
  (∀ reg y, registered (reactor o) reg y → registered r reg y ∨ (Wait.registration n = reg ∧ Wait.ready_owner n = y)) →
  tasks (core o) !! x = Some t → x = Wait.ready_owner n → external t = Some w → wait_ready w = None →
  state t = ExternalWaiting → k + 1 = pending (core o) →
  let t' := set_state Queued (set_external (Some (mkExternal (wait_source w) (registration w) (Some n))) t) in
  inv ∅ (mkOwner (mkCore (<[x := t']> (tasks (core o))) (ready (core o) ++ [x]) (current (core o)) (root (core o))
    (next (core o)) k) (roots o) r (world o)).
Proof.
  intros Hi Hc Hr Hreg Ht Hx Hw Hn Hs Hk t'. view_facts Ht.
  assert (stated (tasks (core o)) (<[x := t']> (tasks (core o))) x Queued) as S by (split; same_view).
  destruct (inv_external _ _ _ Hi) as [X1 X2 X3 X4 X5].
  destruct (inv_queue _ _ _ Hi) as [Q1 Q2 Q3 Q4 Q5 Q6].
  refine (inv_stated ∅ ∅ o _ _ _ _ r ExternalWaiting Queued x Hi S _ _ _ _ _ _ _ _ _ _ _); try done;
    [congruence|same_view|same_view|..].
  - assert (x ∉ ready (core o)) as Hout.
    { intros Hin. destruct (Q3 x Hin ltac:(by exists t) ltac:(set_solver)) as [?|(_ & p & _ & Hp & _)]; congruence. }
    split; simpl.
    + apply NoDup_app. split; [done|]. split; [|by apply NoDup_singleton]. by intros y Hy ->%list_elem_of_singleton.
    + intros y. rewrite st_insert, elem_of_app, list_elem_of_singleton. case_decide; [by right|]. left. by apply Q2.
    + intros y Hy Hl _. rewrite live_insert in Hl. rewrite st_insert. case_decide; [by left|].
      apply elem_of_app in Hy as [Hy|?%list_elem_of_singleton]; [|done]. destruct Hl as [?|Hl]; [done|].
      destruct (Q3 y Hy Hl ltac:(set_solver)) as [?|(_ & p & _ & Hp & _)]; [by left|congruence].
    + intros y. rewrite st_insert. case_decide; [done|apply Q4].
    + intros y. rewrite Hc. done.
    + intros y Hy. apply elem_of_app in Hy as [Hy| ->%list_elem_of_singleton]; [by apply Q6|].
      apply (ids_live _ (inv_ids _ _ _ Hi)). by exists t.
  - assert (∀ y, ext (<[x := t']> (tasks (core o))) y =
      if decide (y = x) then Some (mkExternal (wait_source w) (registration w) (Some n)) else ext (tasks (core o)) y) as E
      by same_view.
    split; simpl; try done.
    + intros y. rewrite st_insert, E. case_decide; [done|apply X1].
    + intros y v. rewrite st_insert, E. case_decide; [by intros [= <-]|apply X2].
    + assert (pend_at (tasks (core o)) x) as Hp by (exists w; split; [congruence|done]).
      assert (∀ y, pend_at (<[x := t']> (tasks (core o))) y ↔ y ≠ x ∧ pend_at (tasks (core o)) y) as Hpend.
      { intros y. unfold pend_at. rewrite E. case_decide; [|by split; [|intros [_ ?]]].
        split; [by intros (v & [= <-] & ?)|by intros [? _]]. }
      pose proof (pend_count_remove _ _ x Hp Hpend). lia.
    + intros y v. rewrite E. case_decide; [by intros [= <-]|]. intros Hv Hvn.
      destruct (Hreg _ _ (X4 y v Hv Hvn)) as [?|[_ ?]]; [done|congruence].
  - by eapply same_frames.
Qed.

Lemma deliver_wp o n (r : Wait.Reactor P) :
  inv ∅ o → current (core o) = None → WaitFacts.core_ok (Wait.core r) →
  (∀ reg x, registered (reactor o) reg x → registered r reg x ∨ (Wait.registration n = reg ∧ Wait.ready_owner n = x)) →
  wp (deliver n) (λ res o', res = Done tt ∧ inv ∅ o' ∧ reactor o' = r ∧ delivered [n] (core o) (core o'))
    (mkOwner (core o) (roots o) r (world o)).
Proof.
  intros Hi Hc Hr Hreg. unfold deliver. act. act. cbn [core].
  assert ((∀ x, ¬ takes (core o) n x) → inv ∅ (mkOwner (core o) (roots o) r (world o)) ∧ r = r ∧
    delivered [n] (core o) (core o)) as Hdrop.
  { intros Hno. split; [by eapply inv_popped|]. split; [done|].
    assert (∀ m x, m ∈ [n] → ¬ takes (core o) m x) as Hnone by (intros m x ->%list_elem_of_singleton; apply Hno).
    split; try done.
    - intros m x Hm Hx. by destruct (Hnone m x).
    - exists []. rewrite app_nil_r. split; [done|]. intros x. split; [by intros ?%elem_of_nil|].
      intros (m & Hm & Hx). by destruct (Hnone m x). }
  destruct (tasks (core o) !! Wait.ready_owner n) as [t|] eqn:Ht.
  2: { act. split; [done|]. apply Hdrop. intros x (<- & w & Hw & _). unfold ext in Hw. by rewrite Ht in Hw. }
  view_facts Ht. destruct (external t) as [w|] eqn:Ew.
  2: { act. split; [done|]. apply Hdrop. intros x (<- & w & Hw & _). congruence. }
  match goal with |- wp (if ?g then _ else _) _ _ => destruct g eqn:Eg end.
  { act. split; [done|]. apply Hdrop. intros x (<- & v & Hv & Hn & Hrg). assert (v = w) as -> by congruence.
    apply orb_true_iff in Eg as [[Eg|Eg]%orb_true_iff|Eg]; bool_facts; [|done|by rewrite Hn in Eg; destruct Eg].
    assert (st (tasks (core o)) (Wait.ready_owner n) = Some ExternalWaiting) as Hs
      by (eapply external_state; [apply Hi|done|done|set_solver]).
    rewrite V in Hs. injection Hs as Hs. by rewrite Hs in Eg. }
  task_facts. set (x := Wait.ready_owner n) in *.
  assert (state t = ExternalWaiting) as Hs by by destruct (state t).
  assert (1 ≤ pending (core o)) as Hle.
  { destruct (inv_external _ _ _ Hi) as [_ _ X3 _ _]. rewrite X3, pend_count.
    assert (x ∈ pend_set (tasks (core o))) as Hin by (apply pend_set_elem; by exists w).
    destruct (size (pend_set (tasks (core o)))) eqn:Hz; [|lia]. apply size_empty_inv in Hz. rewrite Hz in Hin. by apply elem_of_empty in Hin. }
  do 3 act. eapply wp_finish_pending; [exact Hle|]. act. split; [done|].
  split; [apply (inv_delivered o n r x t w _ Hi Hc Hr Hreg Ht eq_refl Ew); [done..|cbn; lia]|].
  split; [done|]. split; try done.
  - intros m y ->%list_elem_of_singleton Hy. assert (y = x) as -> by (symmetry; apply Hy). cbn.
    rewrite st_insert, ext_insert, !decide_True by done. split; [done|].
    eexists n, _. split; [left|]. split; [exact Hy|]. done.
  - intros y Hy. cbn. rewrite lookup_insert_ne; [done|]. intros <-. apply (Hy n); [left|].
    split; [done|]. exists w. split; [congruence|done].
  - exists [x]. split; [done|]. intros y. rewrite list_elem_of_singleton. split.
    + intros ->. exists n. split; [left|]. split; [done|]. exists w. split; [congruence|done].
    + intros (m & ->%list_elem_of_singleton & Hy). symmetry. apply Hy.
Qed.

(** The loop takes all of the notifications of the reactor. *)
Lemma deliver_loop_wp fuel o :
  inv ∅ o → current (core o) = None → (length (Wait.ready (Wait.core (reactor o))) < fuel)%nat →
  wp (deliver_loop fuel) (λ res o', res = Done tt ∧ inv ∅ o' ∧ Wait.ready (Wait.core (reactor o')) = [] ∧
    delivered (Wait.ready (Wait.core (reactor o))) (core o) (core o')) o.
Proof.
  revert o. induction fuel as [|fuel IH]; intros o Hi Hc Hlen; [lia|]. cbn [deliver_loop]. act.
  eapply wp_on_reactor; [apply WaitFacts.pop_ready_wp, Hi|]. intros res r (Hr & -> & Etail & Etab).
  assert (∀ n, head (Wait.ready (Wait.core (reactor o))) = Some n → ∀ reg x, registered (reactor o) reg x →
    registered r reg x ∨ (Wait.registration n = reg ∧ Wait.ready_owner n = x)) as Hreg.
  { intros n Hn reg x [(a & Ha & Ho)|(m & Hm & Hmr)].
    - left. left. exists a. unfold Wait.active in *. by rewrite Etab.
    - destruct (Wait.ready (Wait.core (reactor o))) as [|n0 ns]; [done|]. injection Hn as ->.
      apply elem_of_cons in Hm as [->|Hm]; [by right|]. left. right. exists m. by rewrite Etail. }
  destruct (Wait.ready (Wait.core (reactor o))) as [|n ns] eqn:En; cbn [head].
  - act. split; [done|]. split; [|by split; [|apply delivered_nil]]. destruct Hi as [I1 I2 I3 I4 I5 [X1 X2 X3 X4 X5] I7 I8].
    split; try done. split; try done. cbn. intros x w Hw Hn.
    destruct (X4 x w Hw Hn) as [(a & Ha & Ho)|(m & Hm & _)].
    + left. exists a. unfold Wait.active in *. by rewrite Etab.
    + rewrite En in Hm. by apply elem_of_nil in Hm.
  - act. eapply wp_mono; [by eapply deliver_wp; [..|apply Hreg]|]. intros ? o1 (-> & Hi1 & <- & Hd1).
    cbn [tail] in Etail. eapply wp_mono; [apply IH; [done|by rewrite (delivered_current _ _ _ Hd1)|]|].
    { rewrite Etail. simpl in Hlen. lia. }
    intros ? o2 (-> & Hi2 & He & Hd2). split; [done|]. split; [done|]. split; [done|].
    rewrite Etail in Hd2. by eapply delivered_cons.
Qed.

Lemma deliver_all_wp o :
  inv ∅ o → current (core o) = None →
  wp deliver_all (λ res o', res = Done tt ∧ inv ∅ o' ∧ Wait.ready (Wait.core (reactor o')) = [] ∧
    delivered (Wait.ready (Wait.core (reactor o))) (core o) (core o')) o.
Proof. intros Hi Hc. unfold deliver_all. apply deliver_loop_wp; try done. lia. Qed.

(** What a wait of the reactor leaves of the owner. *)
Lemma inv_progresses o (r : Wait.Reactor P) :
  inv ∅ o → WaitFacts.progresses [] (Wait.core (reactor o)) (Wait.core r) →
  inv ∅ (mkOwner (core o) (roots o) r (world o)).
Proof.
  intros [I1 I2 I3 I4 I5 [X1 X2 X3 X4 X5] I7 I8] Hev. split; try done. split; try done; [|apply Hev].
  intros x w Hw Hwn. eapply registered_progresses; [exact Hev|by apply X4].
Qed.

Lemma wp_returned {A} (m : Wait.IO P A) (Q : Wait.result A → Wait.Reactor P → Prop) r :
  WaitFacts.wp m Q r → WaitFacts.wp m (λ v r', Q v r' ∧ m r = Ok (v, r')) r.
Proof. unfold WaitFacts.wp. by destruct (m r) as [[v r']| | |]. Qed.

(** [poll], while other threads register, complete and revoke: when it waited, exactly the
    notifications in the reactor after the wait have been delivered. *)
Definition polled_from now turns o o' (n : N) : Prop :=
  (pending (core o) = 0 ∧ n = 0 ∧ o' = o) ∨
  ∃ r, pending (core o) ≠ 0 ∧
    Wait.wait linux now false turns (reactor o) = Ok (Wait.Success (Some n), r) ∧
    lengthN (Wait.ready (Wait.core r)) = n ∧ Wait.ready (Wait.core (reactor o')) = [] ∧
    delivered (Wait.ready (Wait.core r)) (core o) (core o').

Lemma poll_wp now turns o :
  inv ∅ o → current (core o) = None → WaitFacts.cancelled_in turns = [] →
  wp (poll linux now turns) (λ res o', ∃ r, res = Done r ∧ inv ∅ o' ∧ current (core o') = None ∧
    root (core o') = root (core o) ∧
    match r with
    | Wait.Success (Some n) => polled_from now turns o o' n
    | _ => core o' = core o
    end) o.
Proof.
  intros Hi Hc Hno. unfold poll. do 2 act. cbn [id]. destruct (N.eqb_spec (pending (core o)) 0) as [Hp|Hp].
  { act. eexists. do 4 (split; [done|]). by left. }
  act. eapply wp_on_reactor; [by apply wp_returned, WaitFacts.wait_wp, Hi|]. intros res r [[Hev Hn] Hw].
  rewrite Hno in Hev. pose proof (inv_progresses o r Hi Hev) as Hi1.
  destruct res as [[n|]|e]; [|act; by eexists..].
  act. eapply wp_mono; [by apply deliver_all_wp|]. intros ? o2 (-> & Hi2 & He & Hd). act.
  eexists. split; [done|]. split; [done|].
  split; [by rewrite (delivered_current _ _ _ Hd)|]. split; [by rewrite (delivered_root _ _ _ Hd)|].
  right. exists r. by destruct (Hn n eq_refl) as [-> _].
Qed.
End polling.
