(* ===== verification/TaskSchedule.v ===== *)
(** What [drive] does between two resumes: it ends with the root, resumes a queued task, or
    sleeps for an external event. It never finds itself without any of them. *)

From S2P Require Import Prelude Text Slots Tasks TaskInv TaskRun TaskOps TaskResults TaskWaits TaskEvents TaskCleanups TaskCancel TaskFinish.
From S2P Require FrameRoots Wait WaitFacts.
From Stdlib Require Import Sorted.

(** ** The root *)

Lemma root_above {P W} E (o : Owner P W) r y :
  invs ∅ E o → root (core o) = Some r → live (tasks (core o)) y → y = r ∨ Above (tasks (core o)) r y.
Proof.
  intros Hi Hr. pose proof (inv_tree _ _ _ Hi) as Htree. pose proof (tree_reach _ Htree y) as Hy.
  induction Hy as [y Hp|y p Hp _ IH]; intros Hl.
  - left. pose proof (root_only _ _ (inv_root _ _ _ Hi) y Hl Hp ltac:(set_solver)). congruence.
  - right. assert (live (tasks (core o)) p) as Hlp.
    { apply (tree_links _ Htree) in Hp. by destruct (kids_live _ Htree _ _ Hp). }
    destruct (IH Hlp) as [->|Ha]; [by apply above_parent|by eapply above_step].
Qed.

(** A scheduler without tasks. *)
Lemma inv_no_tasks {P W} (c : Core) s (r : Wait.Reactor P) (w : W) :
  tasks c = ∅ → ready c = [] → root c = None → current c = None → pending c = 0 →
  WaitFacts.core_ok (Wait.core r) → frames_ok ∅ s → inv ∅ (mkOwner c s r w).
Proof.
  intros Et Er Ero Ec Ep Hr Hs.
  assert (∀ x, (∅ : gmap N Task) !! x = None) as Hn by (intros; apply lookup_empty).
  split; simpl; rewrite ?Et; try done.
  - split; [intros p x; unfold kids, par; rewrite !lookup_empty; simpl; by rewrite elem_of_nil| |].
    + intros p. unfold kids. rewrite lookup_empty. constructor.
    + intros x. apply reach_root. unfold par. by rewrite lookup_empty.
  - split; intros *; unfold wt, st, mems, grp, group, flag, ord, par; rewrite ?lookup_empty; simpl;
      try done; try (by intros []); [|constructor].
    rewrite elem_of_nil. split; [done|]. by intros [[] _].
  - split; rewrite ?Et, ?Er, ?Ec; intros *; unfold st; rewrite ?lookup_empty; try done; try apply NoDup_nil_2;
      by intros ?%elem_of_nil.
  - split; intros *; unfold counted, live, completed, st, ret, extr, ord, kids, flag, par;
      rewrite ?lookup_empty; simpl; try done; try (by intros []); by intros [[] _].
  - split; rewrite ?Et; intros *; unfold live, ord, st; rewrite ?lookup_empty; simpl; try done; by intros [].
  - split; rewrite ?Et, ?Ep; intros *; unfold st, ext; rewrite ?lookup_empty; simpl; try done.
  - split; rewrite ?Et, ?Ero; intros *; unfold live; rewrite ?lookup_empty; try done; by intros [].
Qed.

(** ** Progress *)

(** When nothing is queued or pending, every task has ended: a waiting task waits for one of
    its children, and an observing one for those that have not been announced. *)
Lemma all_ended {P W} (o : Owner P W) :
  inv ∅ o → current (core o) = None → (∀ y, y ∈ ready (core o) → ¬ live (tasks (core o)) y) →
  pending (core o) = 0 → ∀ x, live (tasks (core o)) x → is_Some (ord (tasks (core o)) x).
Proof.
  intros Hi Hc Hq Hp. pose proof (inv_tree _ _ _ Hi) as Htree. pose proof (inv_wait _ _ _ Hi) as Hw.
  pose proof (inv_queue _ _ _ Hi) as HQ. pose proof (inv_external _ _ _ Hi) as [X1 X2 X3 _ _].
  assert (∀ y p, wt (tasks (core o)) y = Some p → y ∈ kids (tasks (core o)) p) as Hkid.
  { intros y p Hy%(wait_parent _ _ Hw). by apply (tree_links _ Htree). }
  intros x. induction x as [x IH] using (tree_induction _ Htree). intros [t Ht]. view_facts Ht.
  assert (∀ y, wt (tasks (core o)) y = Some x → is_Some (ord (tasks (core o)) y)) as Hchild.
  { intros y Hy%Hkid. apply (IH y Hy). by destruct (kids_live _ Htree _ _ Hy). }
  destruct (state t) eqn:Es; try (unfold ord; rewrite V; simpl; by eexists).
  - exfalso. apply (Hq x); [by apply (queue_queued _ _ HQ)|by exists t].
  - exfalso. apply (queue_running _ _ HQ) in V; [congruence|set_solver].
  - exfalso. apply (wait_waiting _ _ Hw) in V as (Hy & Ho & _); [|set_solver].
    destruct (Hchild _ Hy) as [k Hk]. congruence.
  - exfalso. apply (wait_observing _ _ Hw) in V as [Hm Hg]; [|set_solver].
    apply map_choose in Hm as (y & i & Hy).
    assert (is_Some (mems (tasks (core o)) x !! y)) as Hin by by exists i.
    destruct (Hchild y (wait_members _ _ Hw _ _ Hin)) as [k Hk].
    assert ((k, y) ∈ grp (tasks (core o)) x) as Hky by by apply (wait_group _ _ Hw).
    rewrite Hg in Hky. by apply elem_of_nil in Hky.
  - exfalso. destruct (X1 x V ltac:(set_solver)) as (w & Hx & Hr).
    rewrite pend_count, Hp in X3. assert (x ∈ pend_set (tasks (core o))) as Hin by (apply pend_set_elem; by exists w).
    assert (pend_set (tasks (core o)) = ∅) as He by (apply leibniz_equiv, size_empty_iff; lia).
    rewrite He in Hin. by apply elem_of_empty in Hin.
Qed.

(** ** The queue *)

Lemma dequeue_Some ts q i rest :
  dequeue ts q = Some (i, rest) →
  live ts i ∧ ∃ dead, q = dead ++ i :: rest ∧ ∀ y, y ∈ dead → ¬ live ts y.
Proof.
  induction q as [|j q IH]; [done|]. simpl. case_bool_decide as Hj.
  - intros [= <- <-]. split; [done|]. exists []. split; [done|]. by intros y ?%elem_of_nil.
  - intros Hd. destruct (IH Hd) as (Hi & dead & -> & Hdead). split; [done|]. exists (j :: dead).
    split; [done|]. intros y [->|Hy]%elem_of_cons; auto.
Qed.

Lemma dequeue_None ts q : dequeue ts q = None → ∀ y, y ∈ q → ¬ live ts y.
Proof.
  induction q as [|j q IH]; [by intros _ y ?%elem_of_nil|]. simpl. case_bool_decide as Hj; [done|].
  intros Hd y [->|Hy]%elem_of_cons; auto.
Qed.

Section schedule.
Context {P W : Type} `{Wait.Poller P} `{Native W} (linux : bool).
Implicit Types o : Owner P W.

(** What the scheduler has decided, and the state it leaves. *)
Definition scheduled r (res : answer Next) o : Prop :=
  inv ∅ o ∧
  match res with
  | Done (Finish _) => tasks (core o) = ∅ ∧ root (core o) = None ∧ current (core o) = None
  | Done (Resume i fr re) => current (core o) = Some i ∧ root (core o) = Some r ∧ released o ∧
      ∃ t, tasks (core o) !! i = Some t ∧ state t = Running ∧ frame t = fr ∧ Tasks.resume t = re
  | Done Block => current (core o) = None ∧ 0 < pending (core o) ∧ root (core o) = Some r
  | Invalid _ => False
  end.

(** The root has ended: nothing else is left. *)
Lemma finished_alone r t o :
  inv ∅ o → root (core o) = Some r → tasks (core o) !! r = Some t →
  is_Some (ord (tasks (core o)) r) → children t = [] ∧ tasks (core o) = {[r := t]} ∧ pending (core o) = 0.
Proof.
  intros Hi Hr Ht [n Hn]. view_facts Ht. pose proof (inv_tree _ _ _ Hi) as Htree.
  destruct (root_live _ _ (inv_root _ _ _ Hi) r Hr ltac:(set_solver)) as [_ Hp].
  pose proof (inv_done _ _ _ Hi) as [D1 D2 D3 D4 D5 _].
  assert (kids (tasks (core o)) r = []) as Hk.
  { assert (completed (tasks (core o)) r ∨ ¬ completed (tasks (core o)) r) as [Hc|Hc].
    { unfold completed. rewrite V. destruct (state t); try (right; by intros [? ?]). left. by eexists. }
    - destruct (extr (tasks (core o)) r) eqn:He; [by apply D3; [|set_solver]|].
      eapply returned_none; [exact Hi|exact Hc|exact V8|exact He|by apply D5].
    - apply D4; [by exists n|done]. }
  assert (tasks (core o) = {[r := t]}) as Ets.
  { apply map_eq. intros y. destruct (decide (y = r)) as [->|Hne]; [by rewrite lookup_singleton_eq|].
    rewrite lookup_singleton_ne by done. apply eq_None_not_Some. intros Hy.
    destruct (root_above _ _ r y Hi Hr Hy) as [?|Ha]; [done|]. by apply (above_kids _ _ _ Htree Ha). }
  split; [congruence|]. split; [exact Ets|].
  destruct (inv_external _ _ _ Hi) as [_ X2 X3 _ _]. rewrite X3, pend_count.
  assert (pend_set (tasks (core o)) = ∅) as ->; [|by rewrite size_empty].
  apply set_eq. intros y. rewrite pend_set_elem, elem_of_empty. split; [|done]. intros (w & Hw & Hr').
  pose proof (X2 y w Hw Hr' ltac:(set_solver)) as Hst.
  assert (y = r) as ->; [|unfold ord in Hn; by rewrite Hst in Hn].
  destruct (decide (y = r)) as [|Hne]; [done|]. unfold st in Hst. rewrite Ets, lookup_singleton_ne in Hst by done. done.
Qed.

(** The next queued task starts to run. *)
Lemma inv_start i t q dead o :
  inv ∅ o → current (core o) = None → tasks (core o) !! i = Some t → state t = Queued →
  ready (core o) = dead ++ i :: q → (∀ y, y ∈ dead → ¬ live (tasks (core o)) y) →
  inv ∅ (mkOwner (mkCore (<[i := set_state Running t]> (tasks (core o))) q (Some i) (root (core o)) (next (core o))
    (pending (core o))) (roots o) (reactor o) (world o)).
Proof.
  intros Hi Hc Ht Hs Hq Hdead. view_facts Ht.
  assert (stated (tasks (core o)) (<[i := set_state Running t]> (tasks (core o))) i Running) as S by (split; same_view).
  refine (inv_stated ∅ ∅ o _ _ _ _ (reactor o) Queued Running i Hi S _ _ _ _ _ _ _ _ _ _ _); try done.
  - congruence.
  - same_view.
  - same_view.
  - destruct (inv_queue _ _ _ Hi) as [Q1 Q2 Q3 Q4 Q5 Q6]. rewrite Hq in *.
    apply NoDup_app in Q1 as (_ & _ & [Hiq Hnd]%NoDup_cons).
    assert (∀ y, y ∈ q → y ∈ dead ++ i :: q) as Hin by (intros y Hy; apply elem_of_app; right; by right).
    split; simpl; try done.
    + intros y. rewrite st_insert. case_decide; [done|]. intros Hy. specialize (Q2 y Hy).
      apply elem_of_app in Q2 as [Hy'|[?|?]%elem_of_cons]; [|done|done]. destruct (Hdead y Hy').
      apply live_st. rewrite Hy. by eexists.
    + intros y Hy Hl _. assert (y ≠ i) as Hne by (by intros ->). apply live_insert in Hl as [|Hl]; [done|].
      rewrite st_insert, decide_False by done.
      destruct (Q3 y (Hin y Hy) Hl ltac:(set_solver)) as [?|(_ & p & _ & Hp & _)]; [by left|congruence].
    + intros y. rewrite st_insert. case_decide; [by subst|]. intros Hy. specialize (Q4 y Hy ltac:(set_solver)). congruence.
    + intros y [= <-] _. rewrite st_insert, decide_True by done. done.
    + intros y Hy. by apply Q6, Hin.
  - eapply (external_stated _ _ _ _ Queued); [exact Hi|exact S|congruence|same_view|done|done].
  - by eapply same_frames.
Qed.

Lemma schedule_keeps r o :
  inv ∅ o → current (core o) = None → root (core o) = Some r → wp (schedule r) (scheduled r) o.
Proof.
  intros Hi Hc Hr. destruct (root_live _ _ (inv_root _ _ _ Hi) r Hr ltac:(set_solver)) as [[t Ht] Hp].
  view_facts Ht. unfold schedule. act. act.
  set (finished := match state t with Completed _ => Some None | Faulted failure _ => Some (Some failure) | _ => None end).
  destruct finished as [failure|] eqn:Ef.
  - assert (is_Some (ord (tasks (core o)) r)) as Ho.
    { unfold ord. rewrite V. simpl. unfold finished in Ef. destruct (state t); try done; by eexists. }
    destruct (finished_alone r t o Hi Hr Ht Ho) as (Hk & Ets & Hpend).
    do 4 act. act. apply wp_assert.
    { cbn. rewrite Ets, delete_singleton_eq, Hk, Hpend. by rewrite !bool_decide_true. }
    act. eapply (wp_drop_frame (tasks (core o)) r t); [apply Hi|done| |].
    { cbn. intros y t'. rewrite lookup_delete_Some. intros [Hy Hyt]. split; [done|]. by exists t'. }
    intros s Hs. do 3 act. cbn in Hs. rewrite Ets, delete_singleton_eq in Hs.
    split; [|split; [cbn; by rewrite Ets, delete_singleton_eq|done]].
    apply inv_no_tasks; cbn; try done; [by rewrite Ets, delete_singleton_eq|apply (inv_external _ _ _ Hi)].
  - do 2 act. destruct (dequeue (tasks (core o)) (ready (core o))) as [[i q]|] eqn:Ed; cbn [id]; rewrite Ed.
    + apply dequeue_Some in Ed as ([ti Hti] & dead & Hq & Hdead). view_facts Hti.
      assert (state ti = Queued) as Hs.
      { assert (i ∈ ready (core o)) as Hin by (rewrite Hq; apply elem_of_app; right; by left).
        destruct (queue_ready _ _ (inv_queue _ _ _ Hi) i Hin V18 ltac:(set_solver)) as [?|(_ & p & _ & Hp' & _)]; congruence. }
      do 4 act. rewrite Hs. do 5 act. split; [exact (inv_start i ti q dead o Hi Hc Hti Hs Hq Hdead)|]. split; [done|]. split; [done|].
      split.
      { intros y Hy Hl. cbn in Hy, Hl |- *. unfold ord. rewrite st_insert. rewrite live_insert in Hl.
        case_decide as Hyi; [done|]. destruct Hl as [?|Hl]; [done|].
        assert (y ∈ ready (core o)) as Hin by (rewrite Hq; apply elem_of_app; right; by right).
        destruct (queue_ready _ _ (inv_queue _ _ _ Hi) y Hin Hl ltac:(set_solver)) as [->|(_ & p & _ & Hp' & _)];
          [done|congruence]. }
      exists (set_state Running ti). split; [apply lookup_insert_eq|done].
    + pose proof (dequeue_None _ _ Ed) as Hdead. do 2 act.
      assert (pending (core o) ≠ 0) as Hpend.
      { intros H0'. destruct (all_ended o Hi Hc Hdead H0' r V8) as [n Hn]. unfold ord in Hn. rewrite V in Hn. simpl in Hn.
        unfold finished in Ef. destruct (state t) eqn:Es; try done.
        apply (done_cancelled _ _ (inv_done _ _ _ Hi)) in V as [p Hpar]. congruence. }
      cbn. destruct (N.eqb_spec (pending (core o)) 0) as [|_]; [done|]. apply wp_ret.
      split; [|split; [done|split; [cbn; lia|done]]].
      destruct Hi as [I1 I2 I3 I4 I5 I6 I7 I8]. split; try done.
      * destruct I3 as [Q1 Q2 Q3 Q4 Q5 Q6]. split; cbn; try done; [constructor|..|by intros y ?%elem_of_nil].
        -- intros y Hy. destruct (Hdead y (Q2 y Hy)). apply live_st. rewrite Hy. by eexists.
        -- by intros y ?%elem_of_nil.
      * destruct I5. by split.
      * destruct I6. by split.
      * destruct I8. by split.
Qed.
End schedule.

(** What is left of an owner that gives up: its wait has failed, or its constructor has. *)

(** An owner that has nothing left. *)
Record emptied {P W} (o : Owner P W) : Prop := {
  em_inv : inv ∅ o;
  em_tasks : tasks (core o) = ∅;
  em_root : root (core o) = None;
  em_current : current (core o) = None;
  em_pending : pending (core o) = 0 }.

Section abandoning.
Context {P W : Type} `{Wait.Poller P} `{Native W} (linux : bool).
Implicit Types o : Owner P W.

Lemma inv_emptied o :
  tasks (core o) = ∅ → ready (core o) = [] → root (core o) = None → current (core o) = None →
  pending (core o) = 0 → WaitFacts.core_ok (Wait.core (reactor o)) → frames_ok ∅ (roots o) → emptied o.
Proof.
  destruct o as [c s r w]. cbn. intros Et Er Ero Ec Ep Hr Hf. split; cbn; try done. by apply inv_no_tasks.
Qed.

(** The cancellation of the whole tree. *)
Lemma cancel_all_wp r f (Q : answer (option OwnedFault) → Owner P W → Prop) o :
  inv {[r]} o → live (tasks (core o)) r → par (tasks (core o)) r = None → current (core o) = None →
  (∀ y, live (tasks (core o)) y → subtree (tasks (core o)) r y) →
  (∀ g o', tasks (core o') = ∅ → current (core o') = None → root (core o') = root (core o) →
     pending (core o') = 0 → WaitFacts.core_ok (Wait.core (reactor o')) → frames_ok ∅ (roots o') →
     Q (Done (Some g)) o') →
  wp (cancel_tree linux r (Some f)) Q o.
Proof.
  intros Hi Hl Hp Hc Hall HQ. apply (cancel_tree_wp linux {[r]}); [done|done|congruence|set_solver| |].
  { intros p Hpar. congruence. }
  intros first o1 Hfirst [Hi1 S Hgone Hkept]. destruct first as [g|]; [|by destruct (Hfirst ltac:(done))].
  assert (tasks (core o1) = ∅) as He.
  { apply map_eq. intros y. rewrite lookup_empty. apply eq_None_not_Some. intros Hy.
    apply (Hkept y); [done|]. apply Hall. by eapply survives_live. }
  apply HQ; try done.
  - by rewrite (sv_current _ _ S).
  - by rewrite (sv_root _ _ S).
  - destruct (inv_external _ _ _ Hi1) as [_ _ -> _ _]. by rewrite He.
  - apply Hi1.
  - pose proof (inv_frames _ _ _ Hi1) as Hf. by rewrite He in Hf.
Qed.

(** [wait_failure] leaves nothing behind, and has a fault to report. *)
Lemma abandon_wp r f o :
  inv ∅ o → current (core o) = None → root (core o) = Some r →
  wp (abandon linux r f) (λ res o', ∃ g, res = Done g ∧ emptied o') o.
Proof.
  intros Hi Hc Hr. destruct (root_live _ _ (inv_root _ _ _ Hi) r Hr ltac:(set_solver)) as [Hl Hp].
  unfold abandon. act. apply cancel_all_wp; [by eapply inv_mono; [|exact Hi]|done..| |].
  { intros y Hy. by apply (root_above _ _ r y Hi Hr Hy). }
  intros g o1 Et Ec Ero Ep Hco Hf. do 2 act. eapply wp_expect; [done|]. exists g. split; [done|]. by apply inv_emptied.
Qed.
End abandoning.
