(* ===== verification/TaskDrive.v ===== *)
(** A whole resume, from the run queue to the end of the generated call, keeps the invariant:
    [finish_resume] and [end_resume]. *)

From S2P Require Import Prelude Text Slots Tasks TaskInv TaskRun TaskOps TaskResults TaskWaits TaskEvents TaskCleanups TaskCancel TaskFinish.
From S2P Require FrameRoots Wait WaitFacts.
From Stdlib Require Import Sorted.

(** A filter that keeps as many elements keeps them all. *)
Lemma filter_length_all {A} (R : A → Prop) `{∀ x, Decision (R x)} l :
  length (filter R l) = length l → ∀ x, x ∈ l → R x.
Proof.
  induction l as [|y l IH]; [by intros _ x ?%elem_of_nil|]. rewrite filter_cons.
  pose proof (length_filter R l) as Hle. case_decide; simpl; [|lia].
  intros Hl x [->|Hx]%elem_of_cons; [done|]. apply IH; [lia|done].
Qed.

Section drive.
Context {P W : Type} `{Wait.Poller P} `{Native W} (linux : bool).
Implicit Types o : Owner P W.

(** Leaving the resume of [x]: nobody else has cancelled a queued child. *)
Lemma inv_leave D o x :
  inv D o → D ⊆ {[x]} → current (core o) = Some x → (x ∈ D ∨ st (tasks (core o)) x ≠ Some Running) →
  (∀ y, y ∈ ready (core o) → wt (tasks (core o)) y = Some x → ord (tasks (core o)) y = None) →
  inv D (on_core (with_current None) o).
Proof.
  intros [I1 I2 I3 I4 I5 I6 I7 I8] HD Hc Hx Hz. split; simpl; try done.
  - destruct I3 as [Q1 Q2 Q3 Q4 Q5 Q6]. split; simpl; try done.
    + intros y Hy Hl HyD. destruct (Q3 y Hy Hl HyD) as [?|(Ho & p & Hw & Hp & _)]; [by left|].
      assert (p = x) as -> by congruence. rewrite (Hz y Hy Hw) in Ho. by destruct Ho.
    + intros y Hy HyD. specialize (Q4 y Hy HyD). assert (y = x) as -> by congruence. by destruct Hx.
  - destruct I5. by split.
  - destruct I6. by split.
  - destruct I8. by split.
Qed.

(** The root is the task without a parent. *)
Lemma root_parentless E o x :
  invs ∅ E o → live (tasks (core o)) x → root (core o) = Some x ↔ par (tasks (core o)) x = None.
Proof.
  intros Hi Hl. pose proof (inv_root _ _ _ Hi) as [R1 R2]. split.
  - intros Hr. by apply (R2 x Hr).
  - intros Hp. by apply (R1 x Hl Hp).
Qed.

(** A task without children that waits for nothing outside can end with a fault. *)
Lemma ending_failed x t f n o :
  inv {[x]} o → tasks (core o) !! x = Some t → terminal_order (state t) = None → current (core o) = None →
  x ∉ ready (core o) → kids (tasks (core o)) x = [] → ext (tasks (core o)) x = None →
  (root (core o) = Some x ↔ par (tasks (core o)) x = None) →
  (∀ p, waiter t = Some p → is_Some (mems (tasks (core o)) p !! x) ∨
     (mems (tasks (core o)) p !! x = None ∧ st (tasks (core o)) p = Some (Waiting x))) →
  n = next (core o) + 1 → ending x t (Faulted f n) n o.
Proof.
  intros Hi Ht Ho Hc Hr Hk He Hroot Hw Hn. split; try done.
  - intros y Hy%(wait_parent _ _ (inv_wait _ _ _ Hi))%(tree_links _ (inv_tree _ _ _ Hi)). rewrite Hk in Hy.
    by apply elem_of_nil in Hy.
  - intros (w & Hx & _). congruence.
Qed.

Lemma waiter_facts E o x p :
  invs ∅ E o → wt (tasks (core o)) x = Some p → ord (tasks (core o)) x = None →
  is_Some (mems (tasks (core o)) p !! x) ∨
  (mems (tasks (core o)) p !! x = None ∧ st (tasks (core o)) p = Some (Waiting x)).
Proof.
  intros Hi Hw Ho. pose proof (inv_wait _ _ _ Hi) as HW.
  destruct (wait_awaited _ _ HW x p Hw ltac:(set_solver) ltac:(set_solver) Ho) as [Hm|Hs]; [by left|right].
  split; [|done]. by apply (wait_waiting _ _ HW) in Hs as (_ & _ & ?); [|set_solver].
Qed.

(** The end of a resume that faults. *)
Lemma finish_failed_wp x f (Q : answer () → Owner P W → Prop) o o0 :
  inv ∅ o0 → current (core o0) = Some x → quiet x o0 o →
  (∀ o', inv ∅ o' → current (core o') = None → Q (Done tt) o') →
  wp (finish_resume x (Failed f)) Q o.
Proof.
  intros Hi0 Hc0 G HQ. pose proof G as [Hi [t Ht] Hk He Gst Gwt Gpar Gm Gr Gc Gro Gn _].
  destruct (current_active _ _ _ Hi0 Hc0) as [Ho0 _]. pose proof (inv_tree _ _ _ Hi) as Htree.
  assert (current (core o) = Some x) as Hc by congruence.
  assert (live (tasks (core o)) x) as Hl by by exists t.
  view_facts Ht. unfold finish_resume. do 2 act.
  assert (inv {[x]} (on_core (with_current None) o)) as Hi1.
  { eapply inv_leave; [exact Hi|done|exact Hc|left; set_solver|]. intros y _ Hy.
    apply (wait_parent _ _ (inv_wait _ _ _ Hi)), (tree_links _ Htree) in Hy. rewrite Hk in Hy. by apply elem_of_nil in Hy. }
  act. eapply wp_drain; [exact Hi1|exact Ht|]. intros first s w Hfirst o2 Hi2.
  destruct first as [failure|]; [|by destruct (Hfirst ltac:(done))].
  act. eapply wp_expect; [done|]. act. apply wp_next_stamp. intros n Hn.
  act. eapply wp_update; [apply lookup_insert_eq|].
  apply (wake_wp x (set_cleanups [] t) (Faulted (append_creation failure (creation t)) n) n Q o2); [|exact HQ].
  assert (∀ q, mems (<[x := set_cleanups [] t]> (tasks (core o))) q = mems (tasks (core o)) q) as Em by same_view.
  assert (∀ q, st (<[x := set_cleanups [] t]> (tasks (core o))) q = st (tasks (core o)) q) as Es by same_view.
  apply ending_failed; simpl; try done.
  - apply lookup_insert_eq.
  - assert (ord (tasks (core o)) x = None) as Ho by (rewrite (ord_ext (tasks (core o0))); auto).
    unfold ord in Ho. by rewrite V in Ho.
  - rewrite Gr. by eapply current_not_ready.
  - rewrite kids_insert, decide_True by done. simpl. congruence.
  - rewrite ext_insert, decide_True by done. simpl. congruence.
  - rewrite par_insert, decide_True, Gro by done. simpl. rewrite <-V1, Gpar by done.
    eapply root_parentless; [exact Hi0|]. by destruct (current_live _ _ _ Hi0 Hc0 ltac:(set_solver)) as [t0 Ht0]; exists t0.
  - intros p Hp. rewrite Em, Es.
    assert (wt (tasks (core o)) x = Some p) as Hwx by congruence.
    assert (live (tasks (core o)) p) as Hlp.
    { apply (wait_parent _ _ (inv_wait _ _ _ Hi)), (tree_links _ Htree) in Hwx. by destruct (kids_live _ Htree _ _ Hwx). }
    rewrite Gwt in Hwx by done. rewrite Gm, Gst by done. by eapply waiter_facts.
Qed.

(** The end of a resume that completes. *)
Lemma finish_completed_wp x t (Q : answer () → Owner P W → Prop) o :
  inv ∅ o → current (core o) = Some x → tasks (core o) !! x = Some t → state t = Running →
  lengthN (children t) = returned t → external t = None →
  (∀ o', inv ∅ o' → current (core o') = None → Q (Done tt) o') →
  wp (finish_resume x (Status 0)) Q o.
Proof.
  intros Hi Hc Ht Hs Hlen He HQ. view_facts Ht.
  pose proof (inv_tree _ _ _ Hi) as Htree. pose proof (inv_wait _ _ _ Hi) as Hw.
  assert (ord (tasks (core o)) x = None) as Ho by (unfold ord; by rewrite V, Hs).
  assert (ret (tasks (core o)) x = lengthN (flagged (tasks (core o)) (kids (tasks (core o)) x))) as Hret.
  { apply (done_count _ _ (inv_done _ _ _ Hi)); [split; [done|by left]|set_solver]. }
  assert (∀ y, y ∈ kids (tasks (core o)) x → flag (tasks (core o)) y = true) as Hall.
  { apply (filter_length_all (λ y, flag (tasks (core o)) y = true)). unfold flagged in Hret.
    rewrite V2 in *. rewrite V5 in Hret. lia. }
  assert (∀ y, wt (tasks (core o)) y ≠ Some x) as Hno.
  { intros y Hy. pose proof (wait_parent _ _ Hw _ _ Hy) as Hp. apply (tree_links _ Htree), Hall in Hp.
    apply (wait_flag _ _ Hw) in Hp as [? _]. congruence. }
  assert (inv {[x]} (on_core (with_current None) o)) as Hi1.
  { eapply (inv_leave {[x]} o x); [by eapply inv_mono; [|exact Hi]|done|done|left; set_solver|].
    intros y _ Hy. by destruct (Hno y). }
  unfold finish_resume. do 2 act. rewrite bool_decide_true by done. act. apply wp_next_stamp. intros n Hn.
  act. eapply wp_update; [at_task|].
  apply (wake_wp x t (Completed n) n Q (on_core (with_current None) o)); [|exact HQ].
  split; simpl; try done.
  - by rewrite Hs.
  - by eapply current_not_ready.
  - intros Hbad. by destruct (Hbad n).
  - intros (w & Hx & _). congruence.
  - eapply root_parentless; [exact Hi|by exists t].
  - intros p Hp. eapply waiter_facts; [exact Hi|congruence|exact Ho].
Qed.

(** The end of a resume that waits. *)
Lemma finish_waiting_wp x t (Q : answer () → Owner P W → Prop) o :
  inv ∅ o → current (core o) = Some x → tasks (core o) !! x = Some t → state t ≠ Running → released o →
  (∀ o', inv ∅ o' → current (core o') = None → Q (Done tt) o') →
  wp (finish_resume x (Status 1)) Q o.
Proof.
  intros Hi Hc Ht Hs Hz HQ. view_facts Ht. unfold finish_resume. do 2 act.
  rewrite bool_decide_false, bool_decide_true by done. act. apply HQ; [|done].
  eapply (inv_leave ∅ o x); [exact Hi|set_solver|exact Hc|right; congruence|]. intros y Hy Hwy.
  apply Hz; [exact Hy|]. apply (wait_parent _ _ (inv_wait _ _ _ Hi)) in Hwy. by eapply par_live.
Qed.

(** The end of any resume: it never gets stuck, and the invariant holds again. *)
Lemma end_resume_keeps x outcome invalid o :
  inv ∅ o → current (core o) = Some x → (outcome = Status 1 → released o) →
  wp (end_resume linux x outcome invalid)
    (λ r o', r = Done tt ∧ inv ∅ o' ∧ current (core o') = None) o.
Proof.
  intros Hi Hc Hz. destruct (current_live _ _ _ Hi Hc ltac:(set_solver)) as [t Ht].
  assert (∀ f, wp (before_resume_fault linux ;; finish_resume x (Failed f))
    (λ r o', r = Done tt ∧ inv ∅ o' ∧ current (core o') = None) o) as Hfail.
  { intros f. act. apply (before_resume_fault_wp linux x); [by eapply inv_mono; [|exact Hi]|by exists t|done|].
    intros o1 G. by eapply finish_failed_wp. }
  unfold end_resume. destruct outcome as [status|f]; [|apply Hfail].
  act. unfold validate_return. do 3 act.
  destruct (decide (status = 0%Z)) as [->|Hn0].
  - rewrite (bool_decide_true (0%Z = 0%Z)) by done.
    match goal with |- context [if ?b then None else Some _] => destruct b eqn:Hok; [|apply Hfail] end. task_facts.
    by eapply finish_completed_wp.
  - rewrite (bool_decide_false (status = 0%Z)) by done.
    destruct (decide (status = 1%Z)) as [->|Hn1]; [|rewrite bool_decide_false by done; apply Hfail].
    rewrite bool_decide_true by done.
    destruct (state t) eqn:Es; try apply Hfail;
      match goal with |- context [if ?b then None else Some _] => destruct b; [|apply Hfail] end;
      (eapply finish_waiting_wp; try done; [congruence|by apply Hz]).
Qed.
End drive.

(** The first half of a cancellation by the parent: the child is taken out of its group, its
    descendants, wait, job and cleanups go, and it ends as cancelled or with a fault. *)

Section beginning.
Context {P W : Type} `{Wait.Poller P} `{Native W} (linux : bool).
Implicit Types o : Owner P W.

(** The canceller becomes the waiter of a child that nobody observes. *)
Lemma inv_waiter D o x p t :
  inv D o → tasks (core o) !! x = Some t → parent_of t = Some p → returned_to_parent t = false →
  st (tasks (core o)) p = Some Running → (∀ q, mems (tasks (core o)) q !! x = None) →
  x ∈ D ∨ is_Some (ord (tasks (core o)) x) → current (core o) = Some p →
  inv D (on_tasks (insert x (set_waiter (Some p) t)) o).
Proof.
  intros [I1 I2 I3 I4 I5 I6 I7 I8] Ht Hp Hf Hs Hm Hx Hc. view_facts Ht. split; simpl; try same_part.
  - destruct I2 as [W1 W2 W3 W4 W5 W6 W7 W8].
    assert (∀ y, wt (<[x := set_waiter (Some p) t]> (tasks (core o))) y =
      if decide (y = x) then Some p else wt (tasks (core o)) y) as E1 by same_view.
    assert (∀ y, st (<[x := set_waiter (Some p) t]> (tasks (core o))) y = st (tasks (core o)) y) as E2 by same_view.
    assert (∀ y, ord (<[x := set_waiter (Some p) t]> (tasks (core o))) y = ord (tasks (core o)) y) as E3
      by (intros; by apply ord_ext).
    assert (∀ y, mems (<[x := set_waiter (Some p) t]> (tasks (core o))) y = mems (tasks (core o)) y) as E4 by same_view.
    assert (∀ y, grp (<[x := set_waiter (Some p) t]> (tasks (core o))) y = grp (tasks (core o)) y) as E5 by same_view.
    assert (∀ y, par (<[x := set_waiter (Some p) t]> (tasks (core o))) y = par (tasks (core o)) y) as E6 by same_view.
    assert (∀ y, flag (<[x := set_waiter (Some p) t]> (tasks (core o))) y = flag (tasks (core o)) y) as E7 by same_view.
    split.
    + intros y q. rewrite E1, E6. case_decide; [congruence|apply W1].
    + intros y q. rewrite E1, E3, E4, E2. case_decide as Hy; [|apply W2]. subst y. intros [= <-] HD _ Hn.
      destruct Hx as [?|[k Hk]]; congruence.
    + intros q y. rewrite E2, E1, E3, E4. intros Hq HD. destruct (W3 q y Hq HD) as (Hw & ? & ?).
      case_decide; [|done]. subst y. apply W1 in Hw. congruence.
    + intros q y. rewrite E4, E1. case_decide; [subst; rewrite Hm; by intros []|apply W4].
    + intros q k y. rewrite E5, E4, E3. apply W5.
    + intros q. rewrite E5. apply W6.
    + intros q. rewrite E2, E4, E5. apply W7.
    + intros y. rewrite E7, E1, E6. intros Hy. case_decide; [congruence|by apply W8].
  - eapply queue_waits; [..|exact I3]; try done; [same_view|]. intros y.
    apply zombie_waits; simpl; try done.
    + intros z. apply ord_ext. same_view.
    + intros q Hq. rewrite wt_insert. case_decide; [|done]. subst. simpl.
      apply (wait_parent _ _ I2) in Hq. congruence.
    + intros q. unfold mems. rewrite group_insert. case_decide; [subst; simpl|done]. by rewrite V3.
Qed.

(** A child that nobody observes, and that waits for nothing, ends; its canceller goes on. *)
Lemma inv_cancelled o x p t s n :
  inv {[x]} o → tasks (core o) !! x = Some t → waiter t = Some p → ord (tasks (core o)) x = None →
  current (core o) = Some p → st (tasks (core o)) p = Some Running → kids (tasks (core o)) x = [] →
  ext (tasks (core o)) x = None → (∀ q, mems (tasks (core o)) q !! x = None) →
  root (core o) ≠ Some x → n = next (core o) + 1 →
  (s = Cancelled n ∨ ∃ f, s = Faulted f n) →
  inv ∅ (on_tasks (insert x (set_state s t)) (on_core (with_next n) o)).
Proof.
  intros Hi Ht Hw Ho Hc Hs Hk He Hm Hroot Hn Hend. view_facts Ht.
  pose proof (inv_wait _ _ _ Hi) as HW. pose proof (inv_tree _ _ _ Hi) as Htree.
  assert (par (tasks (core o)) x = Some p) as Hp by (apply (wait_parent _ _ HW); congruence).
  assert (p ≠ x) as Hne by (intros ->; by apply (not_own_parent _ Htree x)).
  assert (∀ q, st (tasks (core o)) q = Some (Waiting x) → q ≠ x → False) as Hnw.
  { intros q Hq Hqx. destruct (wait_waiting _ _ HW q x Hq ltac:(set_solver)) as (Hwx & _). congruence. }
  refine (inv_ended o (<[x := set_state s t]> (tasks (core o))) x s n None (ready (core o)) (current (core o)) Hi
    _ _ V8 Ho _ _ (λ _, Hk) _ Hn _ _ _ _ _ _ _ _).
  - split; try same_view; [by destruct Hend as [->|[f ->]]| |].
    + intros q. rewrite decide_False by (rewrite Hm; by intros []). same_view.
    + by eapply same_frames.
  - split; [done| |].
    + intros q Hqx Hq. by destruct (Hnw q Hq Hqx).
    + intros q _ _ Hq. rewrite Hm in Hq. by destruct Hq.
  - intros y Hy%(wait_parent _ _ HW)%(tree_links _ Htree). rewrite Hk in Hy. by apply elem_of_nil in Hy.
  - intros k ->. by destruct Hend as [?|[f ?]].
  - intros k _. by exists p.
  - intros (w & Hx & _). congruence.
  - split; [done|congruence].
  - apply (inv_queue _ _ _ Hi).
  - intros y. split; [by left|]. by intros [?|?].
  - intros y _ [->|(Hyo & q & Hq & Hcq & Hmq)].
    + split; simpl; [|exists p; split; [same_view|split; [done|]]].
      * unfold ord. rewrite st_insert, decide_True by done. simpl. by destruct Hend as [->|[f ->]]; eexists.
      * rewrite mems_insert. case_decide; [done|apply Hm].
    + split; simpl; [|exists q; split; [same_view|split; [done|]]].
      * unfold ord in *. rewrite st_insert. case_decide; [|done]. simpl. by destruct Hend as [->|[f ->]]; eexists.
      * rewrite mems_insert. case_decide; [|done]. subst q. unfold mems in Hmq. by rewrite V3 in Hmq.
  - by left.
  - congruence.
  - done.
Qed.

(** The parallel job of the child, if it has one, has not completed. *)
Definition incomplete o (x : N) : Prop :=
  ∀ t job, tasks (core o) !! x = Some t → computation t = Some job → (complete_before_cancel job (world o)).2 = false.

Lemma wp_incomplete generated fault_of x t (Q : answer bool → Owner P W → Prop) o :
  tasks (core o) !! x = Some t →
  (∀ job, computation t = Some job → (complete_before_cancel job (world o)).2 = false) →
  (∀ w, Q (Done false) (mkOwner (core o) (roots o) (reactor o) w)) →
  wp (parallel_complete_before_cancel linux generated fault_of x) Q o.
Proof.
  intros Ht Hjob HQ. unfold parallel_complete_before_cancel. act. act.
  destruct (computation t) as [job|]; [|act; by destruct o].
  specialize (Hjob job eq_refl). apply wp_bind. unfold wp at 1, on_world.
  destruct (complete_before_cancel job (world o)) as [w b]. simpl in Hjob. subst b. apply HQ.
Qed.

(** The rest of the cancellation, when the child is doomed and its canceller waits for it. *)
Lemma cancel_child_wp x p (Q : answer () → Owner P W → Prop) o :
  inv {[x]} o → wt (tasks (core o)) x = Some p → ord (tasks (core o)) x = None → current (core o) = Some p →
  st (tasks (core o)) p = Some Running → (∀ q, mems (tasks (core o)) q !! x = None) → root (core o) ≠ Some x →
  (∀ o', inv ∅ o' → current (core o') = Some p → root (core o') = root (core o) →
     is_Some (ord (tasks (core o')) x) → Q (Done tt) o') →
  wp (first ← cancel_descendants linux x None;
      cancel_wait linux x ;;
      failure ← cancel_operation x;
      first ← drain_cleanups x (first_fault first failure);
      order ← next_stamp;
      update x (set_state (match first with
                           | Some failure => Faulted failure order
                           | None => Cancelled order
                           end))) Q o.
Proof.
  intros Hi Hw Ho Hc Hs Hm Hroot HQ. pose proof (inv_wait _ _ _ Hi) as HW. pose proof (inv_tree _ _ _ Hi) as Htree.
  pose proof (wait_parent _ _ HW _ _ Hw) as Hp. assert (p ≠ x) as Hne by (intros ->; by apply (not_own_parent _ Htree x)).
  assert (live (tasks (core o)) x) as Hl by by eapply par_live.
  act. apply (cancel_descendants_wp linux {[x]}); [exact Hi|set_solver|exact Hl| |].
  { intros c Hc' Ha. assert (c = p) as -> by congruence. by apply (not_above_parent _ _ _ Htree Hp). }
  intros first o1 _ Hb [t1 Ht1] Hk. pose proof (pb_inv _ _ _ _ Hb) as Hi1.
  act. eapply wp_cancel_wait; [exact Hi1|set_solver|exact Ht1|]. intros n r o2 Hi2.
  act. eapply wp_cancel_operation; [exact Hi2|apply lookup_insert_eq|]. intros f w o3 Hi3.
  assert (quiet x o o3) as [Gi [t3 Ht3] Gk Ge Gst Gwt Gpar Gm Gr Gc Gro Gn _].
  { eapply quiet_from; [exact Hb|exact Hk|exact Ht1|exact Hi3| |done..]. simpl. apply insert_insert_eq. }
  clearbody o3. view_facts Ht3.
  assert (live (tasks (core o3)) p) as Hlp.
  { assert (par (tasks (core o3)) x = Some p) as Hp3 by by rewrite Gpar.
    apply (tree_links _ (inv_tree _ _ _ Gi)) in Hp3. by destruct (kids_live _ (inv_tree _ _ _ Gi) _ _ Hp3). }
  act. eapply wp_drain; [exact Hi3|exact Ht3|]. intros first' s w' _ o4 Hi4.
  act. apply wp_next_stamp. intros m Em. eapply wp_update; [apply lookup_insert_eq|].
  set (s' := match first' with Some failure => Faulted failure m | None => Cancelled m end).
  assert (∀ q, mems (tasks (core o4)) q !! x = None) as Hm4.
  { intros q. apply eq_None_not_Some. intros Hq. pose proof (wait_members _ _ (inv_wait _ _ _ Hi4) _ _ Hq) as Hwq.
    assert (q = p) as ->.
    { subst o4. cbn in Hwq. rewrite wt_insert, decide_True in Hwq by done. cbn in Hwq.
      specialize (Gwt x V8). congruence. }
    subst o4. cbn in Hq. rewrite mems_insert, decide_False in Hq by done. rewrite Gm, Hm in Hq by done. by destruct Hq. }
  apply HQ.
  - apply (inv_cancelled o4 x p (set_cleanups [] t3) s' m); try done.
    + apply lookup_insert_eq.
    + cbn. rewrite <-V0, Gwt by done. done.
    + unfold ord. cbn. rewrite st_insert, decide_True by done. unfold ord in Ho. by rewrite <-Gst, V in Ho by done.
    + cbn. congruence.
    + cbn. rewrite st_insert, decide_False by done. by rewrite Gst.
    + cbn. rewrite kids_insert, decide_True by done. cbn. congruence.
    + cbn. rewrite ext_insert, decide_True by done. cbn. congruence.
    + cbn. congruence.
    + subst s'. destruct first'; [right; by eexists|by left].
  - cbn. congruence.
  - cbn. congruence.
  - cbn. unfold ord. rewrite st_insert, decide_True by done. subst s'. cbn. destruct first'; by eexists.
Qed.

(** The child has ended when the call returns, unless its job completed in time. *)
Lemma cancel_begin_keeps generated fault_of x o :
  inv ∅ o → incomplete o x →
  wp (loom_rt_task_cancel_begin linux generated fault_of x)
    (λ r o', inv ∅ o' ∧ current (core o') = current (core o) ∧ root (core o') = root (core o) ∧
       (r = Done tt → is_Some (ord (tasks (core o')) x))) o.
Proof.
  intros Hi Hjob. unfold loom_rt_task_cancel_begin. act. eapply wp_parent; [exact Hi|set_solver|by split|].
  intros p t tp Hp Ht Hpar Htp Hne Hin. act. act. act. act. act. apply wp_reject_if; [by intros _|].
  intros Hg. task_facts. view_facts Ht. view_facts Htp. act.
  eapply wp_observation_remove; [exact Hi|exact Ht|]. intros ts' F.
  assert (∃ t', ts' !! x = Some t') as [t' Ht'].
  { assert (is_Some (ts' !! x)) as [t' ?]; [|by exists t']. apply live_st. rewrite (forgot_st _ _ _ F), V. by eexists. }
  destruct (forgot_frame _ _ _ F _ _ Ht') as (t0 & Ht0 & Et'). assert (t0 = t) as -> by congruence.
  assert (st (tasks (core o)) p = Some Running) as Hrun by congruence.
  assert (∀ D, ∅ ⊆ D → x ∈ D ∨ is_Some (ord (tasks (core o)) x) →
    inv D (on_tasks (insert x (set_waiter (Some p) t')) (on_tasks (λ _, ts') o))) as Hinv.
  { intros D HD Hx. apply inv_waiter; try done.
    - eapply inv_forgot; [by eapply inv_mono; [|exact Hi]|done|destruct Hx; auto|]. intros q Hq. right. congruence.
    - rewrite Et'. done.
    - rewrite Et'. done.
    - cbn. by rewrite (forgot_st _ _ _ F).
    - intros q. cbn. rewrite (forgot_mems _ _ _ F). by rewrite decide_True.
    - cbn. rewrite (ord_ext (tasks (core o))); [done|apply F]. }
  act. eapply wp_update; [exact Ht'|].
  assert (ord (tasks (core o)) x = terminal_order (state t)) as Eo by (unfold ord; by rewrite V).
  assert (ord (<[x := set_waiter (Some p) t']> ts') x = terminal_order (state t)) as Eo'.
  { unfold ord. rewrite st_insert, decide_True by done. by rewrite Et'. }
  destruct (terminal t) eqn:Hterm; task_facts.
  - act. split; [apply Hinv; [done|right; congruence]|]. do 2 (split; [done|]). intros _. cbn. by rewrite Eo'.
  - act. eapply wp_incomplete; [apply lookup_insert_eq| |].
    { intros job Hc. cbn in Hc. rewrite Et' in Hc. exact (Hjob t job Ht Hc). }
    intros w. specialize (Hinv {[x]} ltac:(set_solver) ltac:(left; set_solver)).
    apply (cancel_child_wp x p); cbn.
    + exact (inv_world _ _ _ w Hinv).
    + rewrite wt_insert, decide_True by done. done.
    + congruence.
    + done.
    + rewrite st_insert, decide_False by done. by rewrite (forgot_st _ _ _ F).
    + intros q. rewrite mems_insert. case_decide; [subst q|by rewrite (forgot_mems _ _ _ F), decide_True].
      pose proof (forgot_mems _ _ _ F x x) as E. rewrite decide_True in E by done.
      destruct (views_at _ _ _ Ht') as (_ & _ & _ & _ & Eg & _). unfold mems in E. rewrite Eg in E. exact E.
    + intros Hr. destruct (root_live _ _ (inv_root _ _ _ Hi) x Hr ltac:(set_solver)). congruence.
    + intros o' Hi' Hc' Hr' Ho'. split; [done|]. split; [congruence|by split].
Qed.
End beginning.
