(* ===== verification/TaskCalls.v ===== *)
(** What the scheduler's actions leave alone: the task being resumed, and the root. *)

From S2P Require Import Prelude Text Slots Tasks TaskInv TaskRun TaskOps TaskResults TaskWaits TaskEvents TaskCancel TaskDrive.
From S2P Require FrameRoots Wait WaitFacts.

(** A part of the scheduler that is neither its tasks, nor its queue, nor a counter. *)
Class Steady {X} (π : Core → X) : Prop := {
  steady_tasks ts c : π (with_tasks ts c) = π c;
  steady_ready q c : π (with_ready q c) = π c;
  steady_next n c : π (with_next n c) = π c;
  steady_pending n c : π (with_pending n c) = π c }.

#[export] Instance current_steady : Steady current.
Proof. by split. Qed.
#[export] Instance root_steady : Steady root.
Proof. by split. Qed.

Section steady.
Context {P W X : Type} (π : Core → X) `{!Steady π}.

(** [m] leaves [π] alone. *)
Definition steady {A} (m : Act P W A) : Prop :=
  ∀ o r o', m o = Ok (r, o') → π (core o') = π (core o).

Context {A B : Type}.

Lemma steady_bind (m : Act P W A) (k : A → Act P W B) :
  steady m → (∀ v, steady (k v)) → steady (m ≫= k).
Proof.
  intros Hm Hk o r o' E. unfold mbind, act_bind in E.
  destruct (m o) as [[[v|why] o1]| | |] eqn:Em; simpl in E; try done.
  - rewrite (Hk _ _ _ _ E). by eapply Hm.
  - injection E as <- <-. by eapply Hm.
Qed.

Lemma steady_ret (v : A) : steady (mret v).
Proof. by intros o r o' [= <- <-]. Qed.
Lemma steady_reject why : steady (@reject P W A why).
Proof. by intros o r o' [= <- <-]. Qed.
Lemma steady_fatal why : steady (@fatal P W A why).
Proof. by intros o r o' ?. Qed.
Lemma steady_stuck : steady (@stuck P W A).
Proof. by intros o r o' ?. Qed.
Lemma steady_gets (f : Core → A) : steady (gets f).
Proof. by intros o r o' [= <- <-]. Qed.
Lemma steady_modify f : (∀ c, π (f c) = π c) → steady (modify f).
Proof. intros Hf o r o' [= <- <-]. apply Hf. Qed.
Lemma steady_on_roots (f : FrameRoots.Store → outcome (A * FrameRoots.Store)) : steady (on_roots f).
Proof. intros o r o' E. unfold on_roots in E. destruct (f (roots o)) as [[v s]| | |]; try done. by injection E as <- <-. Qed.
Lemma steady_on_reactor (m : Wait.IO P A) : steady (on_reactor m).
Proof. intros o r o' E. unfold on_reactor in E. destruct (m (reactor o)) as [[v s]| | |]; try done. by injection E as <- <-. Qed.
Lemma steady_on_world (f : W → W * A) : steady (on_world f).
Proof. intros o r o' E. unfold on_world in E. destruct (f (world o)). by injection E as <- <-. Qed.
Lemma steady_finish_pending : steady finish_pending.
Proof.
  intros o r o' E. unfold finish_pending in E. destruct (sub_checked _ _); try done. injection E as <- <-. apply steady_pending.
Qed.
Lemma steady_pure (m : outcome A) : steady (λ o, r ← m; Ok (Done r, o)).
Proof. intros o r o' E. destruct m; try done. by injection E as <- <-. Qed.
End steady.

(** One step through the body of an action. *)
Ltac steady_step :=
  lazymatch goal with
  | |- steady _ (_ ≫= _) => apply steady_bind; [|intros ?]
  | |- steady _ (mret _) => apply steady_ret
  | |- steady _ (reject _) => apply steady_reject
  | |- steady _ (fatal _) => apply steady_fatal
  | |- steady _ stuck => apply steady_stuck
  | |- steady _ (gets _) => apply steady_gets
  | |- steady _ (modify _) => apply steady_modify; try (intros ?;
      repeat match goal with |- context [if ?b then _ else _] => destruct b end; first [apply steady_tasks|apply steady_ready
      |apply steady_next|apply steady_pending|reflexivity])
  | |- steady _ (on_roots _) => apply steady_on_roots
  | |- steady _ (on_reactor _) => apply steady_on_reactor
  | |- steady _ (on_world _) => apply steady_on_world
  | |- steady _ finish_pending => apply steady_finish_pending
  | |- steady _ (reject_if ?c _) => unfold reject_if
  | |- steady _ (assert ?c) => unfold assert
  | |- steady _ (or_reject _ _) => unfold or_reject
  | |- steady _ (expect _ _) => unfold expect
  | |- steady _ (task _) => unfold task
  | |- steady _ (put _ _) => unfold put
  | |- steady _ (update _ _) => unfold update
  | |- steady _ (current_or _) => unfold current_or
  | |- steady _ (frame_pointer _ _) => unfold frame_pointer
  | |- steady _ (drop_frame _) => unfold drop_frame
  | |- steady _ next_stamp => unfold next_stamp
  | |- steady _ (parent _) => unfold parent
  | |- steady _ (match ?x with _ => _ end) => destruct x
  | |- steady _ (let '_ := ?x in _) => destruct x
  end.

Ltac steady_run := repeat (first [assumption|steady_step|solve [eauto with steady]]).

Create HintDb steady.

Section actions.
Context {P W X : Type} (π : Core → X) `{!Steady π} `{Wait.Poller P} `{Native W} (linux : bool).
Local Notation steady m := (@steady P W X π _ m).

Lemma steady_announce x g : steady (announce x g).
Proof. unfold announce. steady_run. Qed.
Hint Resolve steady_announce : steady.

Lemma steady_observation_remove x : steady (observation_remove x).
Proof. unfold observation_remove. steady_run. Qed.

Lemma steady_completed p x : steady (observation_completed p x).
Proof. unfold observation_completed. steady_run. Qed.

Lemma steady_cancel_operation x : steady (cancel_operation x).
Proof. unfold cancel_operation. steady_run. Qed.

Lemma steady_cancel_wait x : steady (cancel_wait linux x).
Proof. unfold cancel_wait. steady_run. Qed.

(** A cleanup runs while no task is being resumed; the task that was is restored. *)
Lemma steady_cleanup {A} callback ptr (k : option OwnedFault → Act P W A) :
  (∀ v, steady (k v)) →
  steady (previous ← gets current; modify (with_current None) ;; outcome ← call_cleanup callback ptr;
          modify (with_current previous) ;; k outcome).
Proof.
  intros Hk o r o' E. unfold mbind, act_bind, gets, modify, call_cleanup in E. cbn in E.
  destruct (run_cleanup callback ptr (world o)) as [[w move] f].
  destruct (FrameRoots.trace (λ (_ : ()) p, (tt, move p)) tt (roots o)) as [h s]. cbn in E.
  rewrite (Hk _ _ _ _ E). cbn. by destruct (core o).
Qed.

Lemma steady_drain x first : steady (drain_cleanups x first).
Proof.
  unfold drain_cleanups. steady_run. generalize (S (length (cleanups v0))). intros n. revert first.
  induction n as [|n IH]; intros first; simpl; repeat first [apply IH|apply steady_cleanup; intros ?|steady_step].
Qed.
Hint Resolve steady_observation_remove steady_completed steady_cancel_operation steady_cancel_wait steady_drain : steady.

Lemma steady_cancel_loop n : ∀ l first, steady (cancel_loop linux n l first).
Proof.
  induction n as [|n IH]; intros [|[y b] l] first; simpl; repeat first [apply IH|steady_step].
  unfold retire. steady_run.
Qed.

Lemma steady_cancel_tree x first : steady (cancel_tree linux x first).
Proof. intros o r o' E. exact (steady_cancel_loop _ _ _ _ _ _ E). Qed.
Hint Resolve steady_cancel_tree : steady.

Lemma steady_descendants_loop n x : ∀ first, steady (descendants_loop linux n x first).
Proof. induction n as [|n IH]; intros first; simpl; repeat first [apply IH|apply steady_cancel_tree|steady_step]. Qed.

Lemma steady_cancel_descendants x first : steady (cancel_descendants linux x first).
Proof. intros o r o' E. exact (steady_descendants_loop _ _ _ _ _ _ E). Qed.
Hint Resolve steady_cancel_descendants : steady.

Lemma steady_wake x : steady (wake_waiter x).
Proof. unfold wake_waiter. steady_run. Qed.
Hint Resolve steady_wake : steady.

Lemma steady_reparent x p q : steady (reparent x p q).
Proof. unfold reparent. steady_run. Qed.
Hint Resolve steady_reparent : steady.

Lemma steady_hand_over n x p : steady (hand_over n x p).
Proof. induction n as [|n IH]; simpl; repeat first [apply IH|apply steady_reparent|steady_step]. Qed.

Lemma steady_result x : steady (loom_rt_task_result x).
Proof.
  unfold loom_rt_task_result. repeat first [apply steady_hand_over|steady_step].
Qed.

Lemma steady_select t why f : steady (select t why f).
Proof. unfold select. steady_run. Qed.
Hint Resolve steady_select : steady.

Lemma steady_wait_source src : steady (task_wait_source linux src).
Proof. unfold task_wait_source. steady_run. Qed.
Hint Resolve steady_wait_source : steady.
End actions.

#[export] Hint Resolve steady_observation_remove steady_completed steady_cancel_operation steady_cancel_wait
  steady_drain steady_cancel_tree steady_cancel_descendants steady_wake steady_reparent steady_result
  steady_select steady_wait_source steady_announce steady_pure : steady.

(** The calls of generated code, as one type, with what the code must respect; each of them
    keeps the invariant and returns to the task that made it. *)

Inductive Call :=
  | CleanupPush (site : Z) (callback : N)
  | ResultCleanupPush (callback : N)
  | CleanupPop (site : Z)
  | Adopt (callee child : N)
  | Return (child : N)
  | Create (ptr resume : N) (creation : bytes)
  | Await (child : N)
  | PeekResult (child : N)
  | Result (child : N)
  | Release (child : N)
  | WaitSource (source : Wait.WaitSource)
  | WaitTimer (deadline : Z)
  | Observe (child : N) (index : Z)
  | WaitNext
  | NextResult
  | NextTerminalResult
  | NextTerminalIndex
  | NextTerminalFailure
  | Drain (child : N) (suppress : Z)
  | TaskStatus (child : N)
  | TaskFailure (child : N)
  | CancelBegin (child : N).

Section calls.
Context {P W : Type} `{Wait.Poller P} `{Native W} (linux : bool).
Context (generated : N → N → Act P W Resumed) (fault_of : string → OwnedFault).
Implicit Types o : Owner P W.

(** The effect of a call; what it returns to the code is dropped. *)
Definition perform (c : Call) : Act P W () :=
  match c with
  | CleanupPush site callback => loom_rt_task_cleanup_push site callback
  | ResultCleanupPush callback => loom_rt_task_result_cleanup_push callback
  | CleanupPop site => loom_rt_task_cleanup_pop site
  | Adopt callee child => loom_rt_task_adopt callee child
  | Return child => loom_rt_task_return child ;; mret tt
  | Create ptr resume creation => loom_rt_task_create ptr resume creation ;; mret tt
  | Await child => loom_rt_task_await child ;; mret tt
  | PeekResult child => loom_rt_task_peek_result child ;; mret tt
  | Result child => loom_rt_task_result child ;; mret tt
  | Release child => loom_rt_task_release child
  | WaitSource source => task_wait_source linux source ;; mret tt
  | WaitTimer deadline => loom_rt_task_wait_timer linux deadline ;; mret tt
  | Observe child index => loom_rt_task_observe child index ;; mret tt
  | WaitNext => loom_rt_task_wait_next ;; mret tt
  | NextResult => loom_rt_task_next_result ;; mret tt
  | NextTerminalResult => loom_rt_task_next_terminal_result ;; mret tt
  | NextTerminalIndex => loom_rt_task_next_terminal_index ;; mret tt
  | NextTerminalFailure => loom_rt_task_next_terminal_failure ;; mret tt
  | Drain child suppress => loom_rt_task_drain linux child suppress ;; mret tt
  | TaskStatus child => loom_rt_task_status child ;; mret tt
  | TaskFailure child => loom_rt_task_failure child ;; mret tt
  | CancelBegin child => loom_rt_task_cancel_begin linux generated fault_of child
  end.

(** What the scheduler trusts the code with: an observed child is selected before it is
    released, and the diagnostic of a selected child is read before it is released; without
    that a call panics. The last case is a limit of the theorems, not of the source: a child
    whose worker's job completed in time is not cancelled, since its code would be resumed
    inside the call, while the task that makes the call is running as well. *)
Definition allowed o (c : Call) : Prop :=
  match c with
  | Release x => ∀ p, current (core o) = Some p → mems (tasks (core o)) p !! x = None
  | NextTerminalFailure => ∀ p x, current (core o) = Some p →
      selected_fault (group (tasks (core o)) p) = Some x → live (tasks (core o)) x
  | CancelBegin x => incomplete o x
  | _ => True
  end.

Lemma wp_ignore {A} (m : Act P W A) (Q : Owner P W → Prop) o :
  wp m (λ _ o', Q o') o → wp (m ;; mret tt) (λ _ o', Q o') o.
Proof. intros Hm. apply wp_bind. eapply wp_mono; [exact Hm|]. by intros [v|why] o'. Qed.

Lemma call_keeps c o : inv ∅ o → allowed o c → wp (perform c) (λ _ o', inv ∅ o') o.
Proof.
  intros Hi Ha. destruct c; simpl in *; try apply wp_ignore.
  - by apply cleanup_push_keeps.
  - by apply result_cleanup_push_keeps.
  - by apply cleanup_pop_keeps.
  - by apply adopt_keeps.
  - by apply return_keeps.
  - by apply create_keeps.
  - by apply await_keeps.
  - by apply peek_result_keeps.
  - by apply result_keeps.
  - by apply release_keeps.
  - by apply wait_source_keeps.
  - by apply wait_timer_keeps.
  - by apply observe_keeps.
  - by apply wait_next_keeps.
  - by apply next_result_keeps.
  - by apply next_terminal_result_keeps.
  - by apply next_terminal_index_keeps.
  - by apply next_terminal_failure_keeps.
  - eapply wp_mono; [by apply drain_keeps|]. by intros r o' [? _].
  - by apply status_keeps.
  - by apply failure_keeps.
  - eapply wp_mono; [by apply cancel_begin_keeps|]. by intros r o' [? _].
Qed.

(** A part that neither a call nor its answer touches. *)
Lemma call_steady {X} (π : Core → X) `{!Steady π} c :
  match c with Create _ _ _ | CancelBegin _ => True | _ => steady π (perform c) end.
Proof.
  destruct c; simpl; try done;
    unfold loom_rt_task_cleanup_push, loom_rt_task_result_cleanup_push, loom_rt_task_cleanup_pop,
      loom_rt_task_adopt, loom_rt_task_return, loom_rt_task_await, loom_rt_task_peek_result,
      loom_rt_task_release, loom_rt_task_wait_timer, loom_rt_task_observe, loom_rt_task_wait_next,
      loom_rt_task_next_result, loom_rt_task_next_terminal_result, loom_rt_task_next_terminal_index,
      loom_rt_task_next_terminal_failure, loom_rt_task_drain, loom_rt_task_status, loom_rt_task_failure, awaited;
    steady_run.
Qed.

Lemma steady_create ptr res label : steady current (@loom_rt_task_create P W ptr res label).
Proof. unfold loom_rt_task_create. steady_run. Qed.

(** Only a constructor, which no task runs, makes a root. *)
Lemma create_root ptr res label o p r o' :
  current (core o) = Some p → loom_rt_task_create ptr res label o = Ok (r, o') → root (core o') = root (core o).
Proof.
  intros Hc E. unfold loom_rt_task_create in E.
  match type of E with (gets current ≫= ?k) o = _ => assert (steady root (k (Some p))) as Hs by steady_run;
    change (k (current (core o)) o = Ok (r, o')) in E end.
  rewrite Hc in E. by apply Hs in E.
Qed.

(** A call returns to the task that made it, with the same root. *)
Definition returns_to o o' : Prop :=
  current (core o') = current (core o) ∧ (current (core o) ≠ None → root (core o') = root (core o)).

Lemma call_returns c o : inv ∅ o → allowed o c → wp (perform c) (λ _ o', inv ∅ o' ∧ returns_to o o') o.
Proof.
  intros Hi Ha. pose proof (call_keeps c o Hi Ha) as Hk. unfold wp in *.
  destruct (perform c o) as [[r o']| | |] eqn:E; try done. split; [done|].
  pose proof (call_steady current c) as Hc. pose proof (call_steady root c) as Hr.
  destruct c; try (split; [by eapply Hc|intros _; by eapply Hr]).
  - simpl in E. unfold mbind, act_bind in E.
    destruct (loom_rt_task_create ptr resume creation o) as [[v o1]| | |] eqn:Em; try done.
    assert (o1 = o') as <- by (simpl in E; destruct v; by injection E as _ <-).
    split; [by eapply steady_create|]. destruct (current (core o)) as [p|] eqn:Ep; [intros _|done].
    by eapply create_root.
  - pose proof (cancel_begin_keeps linux generated fault_of child o Hi Ha) as Hb. unfold wp in Hb. simpl in E.
    rewrite E in Hb. by destruct Hb as (_ & ? & ? & _).
Qed.
End calls.
