(* ===== verification/TaskRuns.v ===== *)
(** The scheduler as a step relation, and its driver: every state that the steps reach from a
    fresh owner satisfies the invariant, no step panics, and a root that was driven to its end
    leaves nothing. *)

From S2P Require Import Prelude Text Slots Tasks TaskInv TaskRun TaskOps TaskResults TaskWaits TaskEvents TaskCleanups TaskCancel TaskFinish TaskDrive TaskSchedule TaskPoll TaskCalls.
From S2P Require FrameRoots Wait WaitFacts.

Section runs.
Context {P W : Type} `{Wait.Poller P} `{Native W} (linux : bool).
Context (generated : N → N → Act P W Resumed) (fault_of : string → OwnedFault) (wait_fault : Wait.IoError → OwnedFault).
Implicit Types o : Owner P W.

(** *** Actions *)

(** What happens to an owner while generated code runs: the code calls the scheduler, or
    computes on what is outside of it; a collection moves the frames; and other threads use the
    reactor. *)
Inductive Action :=
  | Make (c : Call)
  | Compute (f : W → W)
  | Relocate (move : N → N)
  | Others (ops : list Wait.Operation).

Definition act_on (a : Action) : Act P W () :=
  match a with
  | Make c => perform linux generated fault_of c
  | Compute f => on_world (λ w, (f w, tt))
  | Relocate move => on_roots (λ s, Ok (tt, (FrameRoots.trace (λ (_ : ()) p, (tt, move p)) tt s).2))
  | Others ops => on_reactor (Wait.meanwhile linux ops) ;; mret tt
  end.

(** The contracts: that of the call, and that the waits of the tasks are theirs: other threads
    register, complete and revoke, and nobody but [cancel_wait] cancels. *)
Definition permitted o (a : Action) : Prop :=
  match a with
  | Make c => allowed o c
  | Others ops => WaitFacts.cancels ops = []
  | _ => True
  end.

Lemma action_keeps a o : inv ∅ o → permitted o a → wp (act_on a) (λ _ o', inv ∅ o' ∧ returns_to o o') o.
Proof.
  intros Hi Ha. destruct a as [c|f|move|ops]; simpl in *.
  - by apply call_returns.
  - destruct Hi as [I1 I2 I3 I4 I5 I6 I7 I8]. by split.
  - pose proof (frames_ok_trace (tasks (core o)) move (roots o) (inv_frames _ _ _ Hi)) as Hf.
    destruct Hi as [I1 I2 I3 I4 I5 I6 I7 I8]. by split.
  - act. eapply wp_on_reactor; [by apply WaitFacts.meanwhile_wp, Hi|]. intros res r Hev.
    rewrite Ha in Hev. act. split; [by apply inv_progresses|by split].
Qed.

(** *** Steps *)

(** What can happen to an owner: an action while the code of a task or a constructor runs; that
    code returns or faults; the driver polls, decides, or gives up. *)
Inductive step : Owner P W → Owner P W → Prop :=
  | step_act a o r o' : permitted o a → act_on a o = Ok (r, o') → step o o'
  | step_end x outcome o r o' :
      current (core o) = Some x → (outcome = Status 1 → released o) →
      end_resume linux x outcome fault_of o = Ok (r, o') → step o o'
  | step_poll now turns o r o' :
      current (core o) = None → WaitFacts.cancelled_in turns = [] →
      poll linux now turns o = Ok (r, o') → step o o'
  | step_schedule x o r o' :
      current (core o) = None → root (core o) = Some x → schedule x o = Ok (r, o') → step o o'
  | step_abandon x f o r o' :
      current (core o) = None → root (core o) = Some x → abandon linux x f o = Ok (r, o') → step o o'.

(** A fresh owner over a fresh reactor. *)
Record fresh o : Prop := {
  fresh_core : core o = default_core;
  fresh_roots : roots o = FrameRoots.default_store;
  fresh_reactor : WaitFacts.core_ok (Wait.core (reactor o)) }.

Lemma fresh_inv o : fresh o → inv ∅ o.
Proof.
  destruct o as [c s r w]. intros [Ec Es Hr]. simpl in *. subst c s. apply inv_no_tasks; try done.
  exists ∅. split; [apply FrameRoots.represents_default|]. split; intros *; by rewrite lookup_empty.
Qed.

Lemma step_inv o o' : inv ∅ o → step o o' → inv ∅ o'.
Proof.
  intros Hi Hs. revert Hi.
  destruct Hs as [a o1 r o2 Ha E|x out o1 r o2 Hc Hz E|now turns o1 r o2 Hc Hn E|x o1 r o2 Hc Hr E|x f o1 r o2 Hc Hr E]; intros Hi.
  - pose proof (action_keeps a o1 Hi Ha) as Hw. unfold wp in Hw. rewrite E in Hw. apply Hw.
  - pose proof (end_resume_keeps linux x out fault_of o1 Hi Hc Hz) as Hw. unfold wp in Hw. rewrite E in Hw. apply Hw.
  - pose proof (poll_wp linux now turns o1 Hi Hc Hn) as Hw. unfold wp in Hw. rewrite E in Hw. by destruct Hw as (? & _ & ? & _).
  - pose proof (schedule_keeps x o1 Hi Hc Hr) as Hw. unfold wp in Hw. rewrite E in Hw. apply Hw.
  - pose proof (abandon_wp linux x f o1 Hi Hc Hr) as Hw. unfold wp in Hw. rewrite E in Hw. destruct Hw as (g & _ & Hw). apply Hw.
Qed.

Lemma reachable_inv o o' : fresh o → rtc step o o' → inv ∅ o'.
Proof.
  intros Hf Hs. apply fresh_inv in Hf. induction Hs as [o|o o1 o2 Hs _ IH]; [done|]. by eapply IH, step_inv.
Qed.

(** ** The driver *)

(** The generated code ends in the task that it was resumed for, with the invariant, and it
    keeps the contract of a suspension. *)
Definition well_behaved : Prop := ∀ resume ptr o x, inv ∅ o → current (core o) = Some x → released o →
  wp (generated resume ptr) (λ r o', inv ∅ o' ∧ returns_to o o' ∧ (r = Done (Status 1) → released o')) o.

Lemma wp_catch_fault {A} (m : Act P W (A + OwnedFault)) (Q : answer (A + OwnedFault) → Owner P W → Prop) o :
  wp m (λ r o', Q (Done (match r with Done v => v | Invalid why => inr (fault_of why) end)) o') o →
  wp (catch_fault fault_of m) Q o.
Proof. unfold wp, catch_fault. by destruct (m o) as [[r o1]| | |]. Qed.

Lemma steady_end_resume {X} (π : Core → X) `{!Steady π} x outcome :
  (∀ i c, π (with_current i c) = π c) → steady π (@end_resume P W _ _ linux x outcome fault_of).
Proof.
  intros Hw. unfold end_resume, before_resume_fault, validate_return, finish_resume. destruct outcome; steady_run; apply Hw.
Qed.

Lemma resume_task_wp x t o :
  well_behaved → inv ∅ o → current (core o) = Some x → released o → tasks (core o) !! x = Some t →
  wp (resume_task linux generated fault_of x (frame t) (resume t))
    (λ r o', r = Done tt ∧ inv ∅ o' ∧ current (core o') = None ∧ root (core o') = root (core o)) o.
Proof.
  intros Hg Hi Hc Hrel Ht. unfold resume_task. act. eapply wp_frame_pointer; [apply Hi|exact Ht|]. intros ptr.
  assert (∀ out o1, inv ∅ o1 → returns_to o o1 → (out = Status 1 → released o1) →
    wp (end_resume linux x out fault_of)
      (λ r o', r = Done tt ∧ inv ∅ o' ∧ current (core o') = None ∧ root (core o') = root (core o)) o1) as Hend.
  { intros out o1 Hi1 [Hc1 Hr1] Hz. rewrite Hc in Hc1.
    pose proof (end_resume_keeps linux x out fault_of o1 Hi1 Hc1 Hz) as Hk. unfold wp in *.
    destruct (end_resume linux x out fault_of o1) as [[r o2]| | |] eqn:E; try done.
    destruct Hk as (? & ? & ?). split; [done|]. split; [done|]. split; [done|].
    rewrite (steady_end_resume root x out (λ _ _, eq_refl) _ _ _ E). apply Hr1. by rewrite Hc. }
  act. apply wp_catch_fault. act. eapply wp_mono; [by apply (Hg (resume t) ptr o x)|].
  intros [out|why] o1 (Hi1 & Hr1 & Hz).
  - act. apply (Hend out); [done|done|]. intros ->. by apply Hz.
  - by apply Hend.
Qed.

(** What [drive] returns: the inputs are used up, or the owner is empty. *)
Definition driven r (res : answer (option (option OwnedFault))) o : Prop :=
  match res with
  | Done None => inv ∅ o ∧ current (core o) = None ∧ root (core o) = Some r
  | Done (Some _) => emptied o
  | Invalid _ => False
  end.

(** The inputs of the driver: the clock and the turns of its two waits, which the tasks' waits
    survive. *)
Definition uncancelled (inputs : list ((N * list Wait.Turn) * (N * list Wait.Turn))) : Prop :=
  Forall (λ i, WaitFacts.cancelled_in i.1.2 = [] ∧ WaitFacts.cancelled_in i.2.2 = []) inputs.

Lemma drive_wp inputs r o :
  well_behaved → uncancelled inputs → inv ∅ o → current (core o) = None → root (core o) = Some r →
  wp (drive linux generated fault_of wait_fault inputs r) (driven r) o.
Proof.
  intros Hg Hun. revert o. induction Hun as [|[[now turns] [later blocked]] inputs [Hn1 Hn2] _ IH]; intros o Hi Hc Hr; [done|].
  cbn [drive]. act. eapply wp_mono; [by apply poll_wp|]. intros ? o1 (res & -> & Hi1 & Hc1 & Hr1 & _). rewrite Hr in Hr1.
  assert (∀ e o1, inv ∅ o1 → current (core o1) = None → root (core o1) = Some r →
    wp (failure ← abandon linux r (wait_fault e); mret (Some (Some failure))) (driven r) o1) as Hab.
  { intros e o2 Hi2 Hc2 Hr2. act. eapply wp_mono; [by apply abandon_wp|]. intros ? o3 (g & -> & Hem). by act. }
  destruct res as [[n|]|e]; [|by act|by apply Hab].
  act. eapply wp_mono; [by apply schedule_keeps|]. intros res o2 [Hi2 Hs].
  destruct res as [[f|x fr res|]|why]; [| | |done].
  - act. destruct Hs as (Et & Er & Ec). split; try done.
    destruct (inv_external _ _ _ Hi2) as [_ _ -> _ _]. by rewrite Et.
  - destruct Hs as (Hc2 & Hr2 & Hrel & t & Ht & _ & <- & <-). act. eapply wp_mono; [by apply resume_task_wp|].
    intros ? o3 (-> & Hi3 & Hc3 & Hr3). apply IH; congruence.
  - destruct Hs as (Hc2 & _ & Hr2). act. eapply wp_mono; [by apply poll_wp|].
    intros ? o3 (res & -> & Hi3 & Hc3 & Hr3 & _). rewrite Hr2 in Hr3.
    destruct res as [[m|]|e]; [by apply IH|by act|by apply Hab].
Qed.
(** The constructor makes the root, and no code of a task runs. *)
Definition constructs (constructor : Act P W (N + OwnedFault)) : Prop := ∀ o,
  fresh o → wp constructor (λ _ o', inv ∅ o' ∧ current (core o') = None) o.

(** A task has a root above it. *)
Lemma some_root o y : inv ∅ o → live (tasks (core o)) y → is_Some (root (core o)).
Proof.
  intros Hi Hy. pose proof (inv_tree _ _ _ Hi) as Htree. pose proof (tree_reach _ Htree y) as Hr.
  induction Hr as [y Hp|y p Hp _ IH].
  - exists y. by eapply root_parentless.
  - apply IH. apply (tree_links _ Htree) in Hp. by destruct (kids_live _ Htree _ _ Hp).
Qed.

(** The owner whose constructor has failed cancels what it had made. *)
Lemma give_up_wp f o :
  inv ∅ o → current (core o) = None →
  wp (root_ ← gets root;
      modify (with_root None) ;;
      first ← match root_ with Some id => cancel_tree linux id (Some f) | None => mret (Some f) end;
      modify (with_ready []) ;;
      failure ← expect first "called `Option::unwrap()` on a `None` value";
      mret (Some (Some failure))) (λ res o', ∃ g, res = Done (Some (Some g)) ∧ emptied o') o.
Proof.
  intros Hi Hc. do 4 act. act. destruct (root (core o)) as [r|] eqn:Hr.
  - destruct (root_live _ _ (inv_root _ _ _ Hi) r Hr ltac:(set_solver)) as [Hl Hp].
    apply cancel_all_wp; [|done|done|done| |].
    + destruct (inv_mono ∅ {[r]} o ltac:(set_solver) Hi) as [I1 I2 I3 I4 I5 I6 I7 [R1 R2]]. split; try done.
      * destruct I3. by split.
      * destruct I5. by split.
      * destruct I6. by split.
      * split; simpl; [|done]. intros y Hy Hpy HD. specialize (R1 y Hy Hpy HD). set_solver.
    + intros y Hy. by apply (root_above _ _ r y Hi Hr Hy).
    + intros g o1 Et Ec Ero Ep Hco Hf. do 2 act. act. eapply wp_expect; [done|]. act. exists g.
      split; [done|]. by apply inv_emptied.
  - assert (tasks (core o) = ∅) as Et.
    { apply map_eq. intros y. rewrite lookup_empty. apply eq_None_not_Some. intros Hy.
      destruct (some_root o y Hi Hy). congruence. }
    act. do 2 act. act. eapply wp_expect; [done|]. act. exists f. split; [done|]. apply inv_emptied; try done.
    + cbn. destruct (inv_external _ _ _ Hi) as [_ _ -> _ _]. by rewrite Et.
    + apply Hi.
    + pose proof (inv_frames _ _ _ Hi) as Hf. by rewrite Et in Hf.
Qed.

Lemma task_run_wp constructor inputs o :
  well_behaved → uncancelled inputs → constructs constructor → fresh o →
  wp (task_run linux generated fault_of wait_fault constructor inputs) (λ res o',
    match res with
    | Done None => inv ∅ o' ∧ current (core o') = None
    | Done (Some _) => emptied o'
    | Invalid _ => False
    end) o.
Proof.
  intros Hg Hun Hmade Hf. unfold task_run. act. apply wp_catch_fault. act.
  eapply wp_mono; [by apply Hmade|]. intros res o1 [Hi1 Hc1].
  assert (∀ f, wp (root_ ← gets root;
      modify (with_root None) ;;
      first ← match root_ with Some id => cancel_tree linux id (Some f) | None => mret (Some f) end;
      modify (with_ready []) ;;
      failure ← expect first "called `Option::unwrap()` on a `None` value";
      mret (Some (Some failure))) (λ res o',
    match res with
    | Done None => inv ∅ o' ∧ current (core o') = None
    | Done (Some _) => emptied o'
    | Invalid _ => False
    end) o1) as Hgive.
  { intros f. eapply wp_mono; [by apply give_up_wp|]. by intros ? o2 (g & -> & ?). }
  destruct res as [[r|f]|why]; [| |by apply Hgive].
  - do 2 act. act. apply wp_reject_if; [intros _; by apply Hgive|]. intros Hr. bool_facts. act.
    eapply wp_mono; [by apply drive_wp|]. intros [[f|]|why] o2 Hd; try done. destruct Hd as (? & ? & _). by split.
  - act. by apply Hgive.
Qed.
End runs.

(** ** Generated code as scripts *)

(** Everything here is deterministic, so that what a resume of generated code does is a function
    of the owner it finds, its own memory in the world included: the actions, and the outcome
    unless the scheduler refuses one of the calls, which is a fault. [nested] is the code that a
    cancellation would resume, which the contract of the calls excludes. *)
Section scripts.
Context {P W : Type} `{Wait.Poller P} `{Native W} (linux : bool).
Context (nested : N → N → Act P W Resumed) (fault_of : string → OwnedFault).
Implicit Types o : Owner P W.

Fixpoint run_script (l : list (Action (W := W))) : Act P W () :=
  match l with
  | [] => mret tt
  | a :: l => act_on linux nested fault_of a ;; run_script l
  end.

Definition scripted {A} (code : Owner P W → list (Action (W := W)) * A) : Act P W A := λ o,
  (run_script (code o).1 ;; mret (code o).2) o.

(** Every action of the script respects its contract where it happens, and the script ends as
    it should. *)
Fixpoint keeps_contract (l : list (Action (W := W))) (ends : Owner P W → Prop) o : Prop :=
  match l with
  | [] => ends o
  | a :: l => permitted o a ∧
      ∀ o', act_on linux nested fault_of a o = Ok (Done tt, o') → keeps_contract l ends o'
  end.

Lemma returns_to_trans o o1 o2 : returns_to o o1 → returns_to o1 o2 → returns_to o o2.
Proof. intros [C1 R1] [C2 R2]. split; [congruence|]. intros Hc. rewrite R2, R1; congruence. Qed.

Lemma returns_to_refl o : returns_to o o.
Proof. by split. Qed.

Lemma run_script_wp l ends o :
  inv ∅ o → keeps_contract l ends o →
  wp (run_script l) (λ r o', inv ∅ o' ∧ returns_to o o' ∧ (r = Done tt → ends o')) o.
Proof.
  revert o. induction l as [|a l IH]; intros o Hi Hk; simpl in *.
  { apply wp_ret. split; [done|]. by split; [apply returns_to_refl|]. }
  destruct Hk as [Ha Hk]. apply wp_bind.
  pose proof (action_keeps linux nested fault_of a o Hi Ha) as Hw. unfold wp in *.
  destruct (act_on linux nested fault_of a o) as [[r o1]| | |] eqn:E; try done. destruct Hw as [Hi1 Hr1].
  destruct r as [[]|why]; [|by split; [|split]]. specialize (IH o1 Hi1 (Hk _ eq_refl)).
  destruct (run_script l o1) as [[r o2]| | |]; try done. destruct IH as (Hi2 & Hr2 & He).
  split; [done|]. split; [by eapply returns_to_trans|done].
Qed.

Lemma scripted_wp {A} (code : Owner P W → list (Action (W := W)) * A) ends o :
  inv ∅ o → keeps_contract (code o).1 ends o →
  wp (scripted code) (λ r o', inv ∅ o' ∧ returns_to o o' ∧ ∀ v, r = Done v → v = (code o).2 ∧ ends o') o.
Proof.
  intros Hi Hk. change (wp (run_script (code o).1 ;; mret (code o).2)
    (λ r o', inv ∅ o' ∧ returns_to o o' ∧ ∀ v, r = Done v → v = (code o).2 ∧ ends o') o).
  apply wp_bind. eapply wp_mono; [by apply run_script_wp|].
  intros [[]|why] o' (Hi' & Hr & He); [apply wp_ret|]; (split; [done|]); (split; [done|]); [|done].
  intros v [= <-]. split; [done|]. by apply He.
Qed.

Lemma scripted_well_behaved (code : N → N → Owner P W → list (Action (W := W)) * Resumed) :
  (∀ resume ptr o x, inv ∅ o → current (core o) = Some x → released o →
    keeps_contract (code resume ptr o).1 (λ o', (code resume ptr o).2 = Status 1 → released o') o) →
  well_behaved (λ resume ptr, scripted (code resume ptr)).
Proof.
  intros Hcode resume ptr o x Hi Hc Hrel. specialize (Hcode resume ptr o x Hi Hc Hrel).
  eapply wp_mono; [by apply scripted_wp|]. intros r o' (Hi' & Hr & He). split; [done|]. split; [done|].
  intros E. destruct (He _ E) as [Ev Hrel']. by apply Hrel'.
Qed.

Lemma scripted_constructs (make : Owner P W → list (Action (W := W)) * (N + OwnedFault)) :
  (∀ o, fresh o → keeps_contract (make o).1 (λ _, True) o) → constructs (scripted make).
Proof.
  intros Hmake o Hf. eapply wp_mono; [apply scripted_wp; [by apply fresh_inv|by apply Hmake]|].
  intros r o' (Hi & [Hc _] & _). split; [done|]. by rewrite Hc, (fresh_core _ Hf).
Qed.

(** A contract of a script of actions which are permitted anywhere. *)
Definition free (a : Action (W := W)) : Prop := ∀ o, permitted o a.

Lemma free_contract l ends o :
  Forall free l → (∀ o', run_script l o = Ok (Done tt, o') → ends o') → keeps_contract l ends o.
Proof.
  intros Hl. revert o. induction Hl as [|a l Ha _ IH]; intros o He; simpl in *; [by apply He|].
  split; [apply Ha|]. intros o1 E. apply IH. intros o' Ho'. apply He.
  unfold mbind, act_bind. by rewrite E.
Qed.
End scripts.
