(* ===== verification/TaskBehaviour.v ===== *)
(** What the operations do, beyond keeping the invariant: who wakes a sleeping task, which
    notification is taken first, what a consumer gets of a result, and in which order the
    cleanups of a task run. *)

From S2P Require Import Prelude Text Slots Tasks TaskInv TaskRun TaskOps TaskResults TaskWaits TaskEvents TaskCleanups.
From S2P Require FrameRoots Wait WaitFacts.
From Stdlib Require Import Sorted.

Section behaviour.
Context {P W : Type} `{Wait.Poller P} `{Native W}.
Implicit Types o : Owner P W.

(** Every task that does not run has something that makes it run. *)
Definition wakeable o (x : N) : Prop :=
  match st (tasks (core o)) x with
  | Some Queued => x ∈ ready (core o)
  | Some Running => current (core o) = Some x
  | Some (Waiting y) => par (tasks (core o)) y = Some x ∧ wt (tasks (core o)) y = Some x ∧
      live (tasks (core o)) y ∧ ord (tasks (core o)) y = None
  | Some Observing => (∃ y, is_Some (mems (tasks (core o)) x !! y)) ∧
      ∀ y, is_Some (mems (tasks (core o)) x !! y) → par (tasks (core o)) y = Some x ∧ ord (tasks (core o)) y = None
  | Some ExternalWaiting => ∃ w, ext (tasks (core o)) x = Some w ∧ registered (reactor o) (registration w) x
  | _ => True
  end.

Lemma inv_wakeable o x : inv ∅ o → wakeable o x.
Proof.
  intros Hi. unfold wakeable. destruct (st (tasks (core o)) x) as [s|] eqn:Hs; [|done].
  pose proof (inv_wait _ _ _ Hi) as Hw. destruct s as [| |y| | |n|f n|n]; try done.
  - by apply (inv_queue _ _ _ Hi).
  - eapply queue_running; [apply Hi|done|set_solver].
  - apply (wait_waiting _ _ Hw) in Hs as (Hy & Ho & _); [|set_solver]. pose proof (wait_parent _ _ Hw _ _ Hy) as Hp.
    split; [done|]. split; [done|]. split; [by eapply par_live|done].
  - apply (wait_observing _ _ Hw) in Hs as [Hm Hg]; [|set_solver]. split.
    + apply map_choose in Hm as (y & i & Hy). exists y. by eexists.
    + intros y Hy. split; [by apply (wait_parent _ _ Hw), (wait_members _ _ Hw)|].
      destruct (ord (tasks (core o)) y) as [n|] eqn:Ho; [|done].
      assert ((n, y) ∈ grp (tasks (core o)) x) as Hin by by apply (wait_group _ _ Hw). rewrite Hg in Hin.
      by apply elem_of_nil in Hin.
  - destruct (inv_external _ _ _ Hi) as [X1 _ _ X4 _]. destruct (X1 x Hs ltac:(set_solver)) as (w & Hx & Hr).
    exists w. split; [done|]. by apply X4.
Qed.

(** The member of the group of [p] that ended first. *)
Definition first_ended (ts : gmap N Task) (p x : N) (k : N) : Prop :=
  is_Some (mems ts p !! x) ∧ ord ts x = Some k ∧
  ∀ y n, is_Some (mems ts p !! y) → ord ts y = Some n → k ≤ n.

Lemma first_ended_head D ts p k x rest : wait_ok D ts → grp ts p = (k, x) :: rest → first_ended ts p x k.
Proof.
  intros Hw Hg. pose proof (wait_sorted _ _ Hw p) as Hs. rewrite Hg in Hs. apply StronglySorted_inv in Hs as [_ Hs].
  assert (is_Some (mems ts p !! x) ∧ ord ts x = Some k) as [Hm Ho] by (apply (wait_group _ _ Hw); rewrite Hg; left).
  split; [done|]. split; [done|]. intros y n Hy Hn.
  assert ((n, y) ∈ grp ts p) as Hin by by apply (wait_group _ _ Hw). rewrite Hg in Hin.
  apply elem_of_cons in Hin as [[= -> ->]|Hin]; [lia|].
  rewrite Stdlib.Lists.List.Forall_forall in Hs. specialize (Hs (n, y)).
  rewrite <-list_elem_of_In in Hs. specialize (Hs Hin). apply before_spec in Hs. simpl in Hs. lia.
Qed.

Lemma next_result_selects o :
  inv ∅ o → wp loom_rt_task_next_result (λ r o', ∀ index, r = Done index →
    ∃ p x k, current (core o) = Some p ∧ mems (tasks (core o)) p !! x = Some index ∧
      first_ended (tasks (core o)) p x k ∧ mems (tasks (core o')) p = delete x (mems (tasks (core o)) p) ∧
      wt (tasks (core o')) x = None) o.
Proof.
  intros Hi. unfold loom_rt_task_next_result. act. apply wp_current_or; [done|]. intros p Hp.
  destruct (current_live _ _ _ Hi Hp ltac:(set_solver)) as [t Ht]. do 3 act. act; [done|]. task_facts.
  act. eapply wp_select; [exact Hi|exact Ht|done|]. intros k c index g rest Eo Eg Hm. do 3 act.
  destruct (inv_selected o p c k t g rest (mkObservation (delete c (members g)) rest None None) Hi Hp Ht)
    as (tc & Htc & Hne & _ & Hinv); try done.
  eapply wp_update; [at_task|]. act. intros i [= <-]. view_facts Ht.
  exists p, c, k. split; [done|].
  split; [unfold mems; by rewrite V3, Eo|]. split.
  - eapply first_ended_head; [apply Hi|]. unfold grp. by rewrite V3, Eo.
  - cbn. rewrite mems_insert, decide_False, mems_insert, decide_True by done. split; [unfold mems; by rewrite V3, Eo|].
    by rewrite wt_insert, decide_True.
Qed.
End behaviour.

Lemma bind_Done {P W A B} (m : Act P W A) (k : A → Act P W B) o v o' :
  m o = Ok (Done v, o') → (m ≫= k) o = k v o'.
Proof. intros E. unfold mbind, act_bind. by rewrite E. Qed.

(** A result that has been extracted is not given again. *)
Lemma result_twice {P W} x p (o : Owner P W) :
  current (core o) = Some p → par (tasks (core o)) x = Some p → wt (tasks (core o)) x = Some p →
  completed (tasks (core o)) x → extr (tasks (core o)) x = true →
  loom_rt_task_result x o = Ok (Invalid "task result already extracted", o).
Proof.
  intros Hc Hp Hw [n Hs] He. unfold st in Hs. destruct (tasks (core o) !! x) as [t|] eqn:Ht; [|done].
  injection Hs as Hs. view_facts Ht. rewrite V0 in Hw. rewrite V1 in Hp. rewrite V6 in He.
  assert (parent x o = Ok (Done p, o)) as Hpar.
  { unfold parent. rewrite (bind_Done _ _ o p o).
    2: { unfold current_or. rewrite (bind_Done _ _ o (Some p) o); [done|]. unfold gets. by rewrite Hc. }
    rewrite (bind_Done _ _ o (Some t) o) by (unfold gets; by rewrite Ht). rewrite (bind_Done _ _ o t o) by done.
    rewrite Hp, bool_decide_true by done. done. }
  unfold loom_rt_task_result. rewrite (bind_Done _ _ o p o Hpar).
  rewrite (bind_Done _ _ o t o) by (unfold task; rewrite (bind_Done _ _ o (Some t) o); [done|unfold gets; by rewrite Ht]).
  rewrite Hw, bool_decide_true by done. rewrite Hs, He. done.
Qed.

(** ** Cleanups *)

Section cleanup_order.
Context {P W : Type} `{Wait.Poller P} `{Native W}.
Implicit Types o : Owner P W.

(** The cleanups [cs] of the task [t], one after the other: each runs on the pointer that the
    frame has by then, and the first fault is kept. *)
Fixpoint run_in_order (t : Task) (cs : list TaskCleanup) (s : FrameRoots.Store) (w : W) (first : option OwnedFault)
    : option OwnedFault * FrameRoots.Store * W :=
  match cs with
  | [] => (first, s, w)
  | c :: cs =>
      let '(w, move, failure) := run_cleanup (callback c) (default 0 (FrameRoots.root s (frame t))) w in
      run_in_order t cs (FrameRoots.trace (λ (_ : ()) p, (tt, move p)) tt s).2 w
        (match first, failure with
         | None, Some failure => Some (append_creation failure (creation t))
         | _, _ => first
         end)
  end.

Lemma frame_pointer_root x t why o :
  frames_ok (tasks (core o)) (roots o) → tasks (core o) !! x = Some t →
  frame_pointer (frame t) why o = Ok (Done (default 0 (FrameRoots.root (roots o) (frame t))), o).
Proof.
  intros (m & [Hok Hm] & Hlive & _) Ht. unfold frame_pointer.
  destruct (Hlive x t Ht) as [ptr Hptr]. rewrite Hm in Hptr.
  rewrite (bind_Done _ _ _ (Some ptr) o); [by rewrite Hptr|].
  unfold on_roots. rewrite (FrameRoots.get_root_spec _ Hok), Hptr. by destruct o.
Qed.

(** The loop of [drain_cleanups] runs them from the youngest to the oldest. *)
Lemma drain_loop_in_order n : ∀ x t first o,
  frames_ok (tasks (core o)) (roots o) → tasks (core o) !! x = Some t → (length (cleanups t) < n)%nat →
  drain_loop n x first o =
    let '(first, s, w) := run_in_order t (rev (cleanups t)) (roots o) (world o) first in
    Ok (Done first, mkOwner (with_tasks (<[x := set_cleanups [] t]> (tasks (core o))) (core o)) s (reactor o) w).
Proof.
  induction n as [|n IH]; intros x t first o Hf Ht Hn; [lia|]. cbn [drain_loop].
  rewrite (bind_Done _ _ _ (Some t) o) by (unfold gets; by rewrite Ht).
  rewrite (bind_Done _ _ _ t o) by done.
  destruct (pop (cleanups t)) as [[c rest]|] eqn:Ep.
  - apply pop_Some in Ep. rewrite Ep, rev_app_distr. cbn [rev app run_in_order].
    set (o1 := on_tasks (insert x (set_cleanups rest t)) o).
    rewrite (bind_Done _ _ _ tt o1) by done.
    assert (frames_ok (tasks (core o1)) (roots o1)) as Hf1 by by eapply frames_ok_insert.
    rewrite (bind_Done _ _ o1 _ _ (frame_pointer_root x (set_cleanups rest t) _ o1 Hf1 (lookup_insert_eq _ _ _))).
    rewrite (bind_Done _ _ _ (current (core o)) o1) by done.
    rewrite (bind_Done _ _ _ tt (on_core (with_current None) o1)) by done.
    destruct (run_cleanup (callback c) (default 0 (FrameRoots.root (roots o) (frame t))) (world o))
      as [[w move] failure] eqn:Ec.
    set (s := (FrameRoots.trace (λ (_ : ()) p, (tt, move p)) tt (roots o)).2).
    rewrite (bind_Done _ _ _ failure (mkOwner (with_current None (core o1)) s (reactor o) w)).
    2: { unfold call_cleanup, s. cbn. cbn in Ec. rewrite Ec. by destruct (FrameRoots.trace _ _ _). }
    set (o2 := mkOwner (core o1) s (reactor o) w).
    rewrite (bind_Done _ _ _ tt o2) by (unfold o2, modify; cbn; by destruct (core o)).
    rewrite (IH x (set_cleanups rest t) _ o2).
    + change (creation (set_cleanups rest t)) with (creation t). cbn [roots world o2 cleanups set_cleanups].
      assert (∀ cs s w f, run_in_order (set_cleanups rest t) cs s w f = run_in_order t cs s w f) as E.
      { clear. induction cs as [|c' cs IHc]; intros s w f; simpl; [done|].
        destruct (run_cleanup _ _ _) as [[? ?] ?]. apply IHc. }
      rewrite E. destruct (run_in_order t (rev rest) s w _) as [[f' s'] w']. cbn. by rewrite insert_insert_eq.
    + by apply frames_ok_trace.
    + apply lookup_insert_eq.
    + rewrite Ep, length_app in Hn. simpl in *. lia.
  - apply pop_None in Ep. rewrite Ep. simpl. rewrite set_cleanups_id, insert_id by done. by destruct o as [[] ? ? ?].
Qed.

Lemma drain_in_order x t first o :
  frames_ok (tasks (core o)) (roots o) → tasks (core o) !! x = Some t →
  drain_cleanups x first o =
    let '(first, s, w) := run_in_order t (rev (cleanups t)) (roots o) (world o) first in
    Ok (Done first, mkOwner (with_tasks (<[x := set_cleanups [] t]> (tasks (core o))) (core o)) s (reactor o) w).
Proof.
  intros Hf Ht. unfold drain_cleanups. rewrite (bind_Done _ _ _ (Some t) o) by (unfold gets; by rewrite Ht).
  rewrite (bind_Done _ _ _ t o) by done. apply drain_loop_in_order; [done|done|lia].
Qed.
End cleanup_order.
