(* ===== verification/TaskSamples.v ===== *)
(** Concrete owners for the task scheduler: a reactor over the scripted poller, generated code
    that only logs the callbacks it runs, and a few runs. *)

From S2P Require Import Prelude Text Slots Tasks TaskInv TaskRun TaskDrive TaskCalls TaskRuns.
From S2P Require FrameRoots Wait WaitFacts WaitSamples.

#[export] Existing Instance WaitSamples.scripted_poller.

Definition cleanup_fault : OwnedFault := mkFault [x41] None.

(** Callback 9 faults; a cancelled job is logged as 100 more. Nothing moves. *)
#[export] Instance log_native : Native (list N) := {|
  run_cleanup callback _ log := (log ++ [callback], id, if callback =? 9 then Some cleanup_fault else None);
  cancel_and_drain job log := log ++ [100 + job];
  drain_computation job log := (log ++ [200 + job], None);
  complete_before_cancel _ log := (log, false) |}.

Notation Sample := (Owner WaitSamples.Scripted (list N)).

Definition fresh_owner : Sample := mkOwner default_core FrameRoots.default_store (WaitSamples.fresh [] []) [].

Lemma fresh_owner_ok : fresh fresh_owner.
Proof. split; [done|done|apply WaitFacts.default_core_ok]. Qed.

(** Code that returns at once. *)
Definition idle (resume ptr : N) : Act WaitSamples.Scripted (list N) Resumed := mret (Status 0).
Definition plain_fault (why : string) : OwnedFault := mkFault [] None.

(** The owner after an action that succeeds. *)
Definition after {A} (m : Act WaitSamples.Scripted (list N) A) (o : Sample) : Sample :=
  match m o with Ok (_, o') => o' | _ => o end.

Definition call (c : Call) : Sample → Sample := after (perform true idle plain_fault c).


(** The root is task 1; it runs, and has made the tasks 2, 3 and 4, of which 2 adopts 3. *)
Definition made : Sample := Eval vm_compute in call (Create 10 100 []) fresh_owner.
Definition started : Sample := Eval vm_compute in after (schedule 1) made.
Definition with_two : Sample := Eval vm_compute in call (Create 20 200 []) started.
Definition with_three : Sample := Eval vm_compute in call (Create 30 300 []) with_two.
Definition with_four : Sample := Eval vm_compute in call (Create 40 400 []) with_three.
Definition adopted : Sample := Eval vm_compute in call (Adopt 2 3) with_four.
Definition guarded : Sample := Eval vm_compute in call (CleanupPush 0 7) adopted.
Definition watching : Sample := Eval vm_compute in call (Observe 4 5) guarded.

(** One step whose result is the next sample. *)
Ltac sample_call c := apply (step_act true idle plain_fault (Make c) _ (Done tt)); [exact I|vm_compute; reflexivity].

Lemma watching_reachable : rtc (step true idle plain_fault) fresh_owner watching.
Proof.
  apply (rtc_l _ _ made); [sample_call (Create 10 100 [])|].
  apply (rtc_l _ _ started); [eapply (step_schedule true idle plain_fault 1); vm_compute; reflexivity|].
  apply (rtc_l _ _ with_two); [sample_call (Create 20 200 [])|].
  apply (rtc_l _ _ with_three); [sample_call (Create 30 300 [])|].
  apply (rtc_l _ _ with_four); [sample_call (Create 40 400 [])|].
  apply (rtc_l _ _ adopted); [sample_call (Adopt 2 3)|].
  apply (rtc_l _ _ guarded); [sample_call (CleanupPush 0 7)|].
  apply (rtc_l _ _ watching); [sample_call (Observe 4 5)|]. apply rtc_refl.
Qed.

Lemma watching_inv : inv ∅ watching.
Proof. eapply (reachable_inv true idle plain_fault); [apply fresh_owner_ok|exact watching_reachable]. Qed.

(** The end of the resume of [x]. *)
Definition ends (x : N) (outcome : Resumed) : Sample → Sample := after (end_resume true x outcome plain_fault).

Ltac sample_end x out :=
  apply (step_end true idle plain_fault x out _ (Done tt)); [reflexivity|try discriminate|vm_compute; reflexivity].
Ltac sample_schedule x := eapply (step_schedule true idle plain_fault x); vm_compute; reflexivity.

(** No task of a sample has ended while it is queued. *)
Ltac sample_released :=
  intros _ y Hy _; vm_compute in Hy;
  repeat (apply elem_of_cons in Hy as [->|Hy]; [reflexivity|]); by apply elem_of_nil in Hy.

(** The root waits for a timer. *)
Definition timing : Sample := Eval vm_compute in call (WaitTimer 5) started.
Definition sleeping : Sample := Eval vm_compute in ends 1 (Status 1) timing.

Lemma started_reachable : rtc (step true idle plain_fault) fresh_owner started.
Proof.
  apply (rtc_l _ _ made); [sample_call (Create 10 100 [])|].
  apply rtc_once. sample_schedule 1.
Qed.

Lemma sleeping_inv : inv ∅ sleeping.
Proof.
  eapply (reachable_inv true idle plain_fault); [apply fresh_owner_ok|].
  apply (rtc_r _ timing); [eapply rtc_r; [exact started_reachable|sample_call (WaitTimer 5)]|].
  sample_end 1 (Status 1). sample_released.
Qed.

(** The root observes the tasks 2 and 3, which complete; 3 first. *)
Definition observing2 : Sample := Eval vm_compute in call (Observe 2 5) with_three.
Definition observing3 : Sample := Eval vm_compute in call (Observe 3 6) observing2.
Definition dozing : Sample := Eval vm_compute in ends 1 (Status 1) (call WaitNext observing3).
Definition resumed2 : Sample := Eval vm_compute in after (schedule 1) dozing.
Definition blocked2 : Sample := Eval vm_compute in ends 2 (Status 1) (call (WaitTimer 5) resumed2).
Definition resumed3 : Sample := Eval vm_compute in after (schedule 1) blocked2.
Definition completed3 : Sample := Eval vm_compute in ends 3 (Status 0) resumed3.
Definition selecting : Sample := Eval vm_compute in after (schedule 1) completed3.

Lemma with_three_reachable : rtc (step true idle plain_fault) fresh_owner with_three.
Proof.
  eapply rtc_r; [eapply rtc_r; [exact started_reachable|]|].
  - sample_call (Create 20 200 []).
  - sample_call (Create 30 300 []).
Qed.

Lemma selecting_inv : inv ∅ selecting.
Proof.
  eapply (reachable_inv true idle plain_fault); [apply fresh_owner_ok|].
  etransitivity; [exact with_three_reachable|].
  apply (rtc_l _ _ observing2); [sample_call (Observe 2 5)|].
  apply (rtc_l _ _ observing3); [sample_call (Observe 3 6)|].
  eapply rtc_l; [sample_call WaitNext|].
  apply (rtc_l _ _ dozing); [sample_end 1 (Status 1); sample_released|].
  apply (rtc_l _ _ resumed2); [sample_schedule 1|].
  eapply rtc_l; [sample_call (WaitTimer 5)|].
  apply (rtc_l _ _ blocked2); [sample_end 2 (Status 1); sample_released|].
  apply (rtc_l _ _ resumed3); [sample_schedule 1|].
  apply (rtc_l _ _ completed3); [sample_end 3 (Status 0)|].
  apply rtc_once. sample_schedule 1.
Qed.

(** The root awaits task 2, which has returned its child 3. *)
Definition awaiting : Sample := Eval vm_compute in ends 1 (Status 1) (call (Await 2) with_two).
Definition producing : Sample := Eval vm_compute in call (Return 3) (call (Create 30 300 []) (after (schedule 1) awaiting)).
Definition produced : Sample := Eval vm_compute in ends 2 (Status 0) producing.
Definition finished3 : Sample := Eval vm_compute in ends 3 (Status 0) (after (schedule 1) produced).
Definition consuming : Sample := Eval vm_compute in after (schedule 1) finished3.

Lemma consuming_inv : inv ∅ consuming.
Proof.
  eapply (reachable_inv true idle plain_fault); [apply fresh_owner_ok|].
  etransitivity; [exact started_reachable|].
  apply (rtc_l _ _ with_two); [sample_call (Create 20 200 [])|].
  eapply rtc_l; [sample_call (Await 2)|].
  apply (rtc_l _ _ awaiting); [sample_end 1 (Status 1); sample_released|].
  eapply rtc_l; [sample_schedule 1|].
  eapply rtc_l; [sample_call (Create 30 300 [])|].
  apply (rtc_l _ _ producing); [sample_call (Return 3)|].
  apply (rtc_l _ _ produced); [sample_end 2 (Status 0)|].
  eapply rtc_l; [sample_schedule 1|].
  apply (rtc_l _ _ finished3); [sample_end 3 (Status 0)|].
  apply rtc_once. sample_schedule 1.
Qed.

(** The root has three cleanups; the second to be registered faults. *)
Definition task_of (x : N) (o : Sample) : Task :=
  default (mkTask (mkId 0 0) 0 None [] 0 false false [] None None Queued None None None []) (tasks (core o) !! x).
Definition armed : Sample := Eval vm_compute in
  call (CleanupPush 2 8) (call (CleanupPush 1 9) (call (CleanupPush 0 7) started)).

Lemma armed_inv : inv ∅ armed.
Proof.
  eapply (reachable_inv true idle plain_fault); [apply fresh_owner_ok|].
  etransitivity; [exact started_reachable|].
  eapply rtc_l; [sample_call (CleanupPush 0 7)|].
  eapply rtc_l; [sample_call (CleanupPush 1 9)|].
  apply rtc_once. sample_call (CleanupPush 2 8).
Qed.

(** *** A release that comes too early *)

(** The root observes task 2, which has completed; it releases the task before it takes the
    notification, and then asks for it. *)
Definition observing1 : Sample := Eval vm_compute in
  ends 1 (Status 1) (call WaitNext (call (Observe 2 5) with_two)).
Definition announced : Sample := Eval vm_compute in
  after (schedule 1) (ends 2 (Status 0) (after (schedule 1) observing1)).

(** *** A script that makes calls *)

(** The owner in which a script ends, if the scheduler carries all of it out; and code that
    suspends only where its contract lets it. *)
Definition end_of (l : list (Action (W := list N))) (o : Sample) : option Sample :=
  match run_script true idle plain_fault l o with Ok (Done _, o') => Some o' | _ => None end.

Definition released_b (o : Sample) : bool :=
  forallb (λ y, bool_decide (ord (tasks (core o)) y = None)) (ready (core o)).

Definition suspend (l : list (Action (W := list N))) (o : Sample) : list (Action (W := list N)) * Resumed :=
  if from_option released_b true (end_of l o) then (l, Status 1) else ([], Status 0).

(** The root makes task 2 and awaits it; it takes the result when it is resumed. Task 2 waits for
    a timer; then it logs 77. A worker's wake-up and a collection come in between. *)
Definition code_of (resume ptr : N) (o : Sample) : list (Action (W := list N)) * Resumed :=
  if resume =? 100 then
    match tasks (core o) !! 2 with
    | None => suspend [Make (Create 20 200 []); Make (CleanupPush 0 7); Others [Wait.Wake]; Make (Await 2)] o
    | Some _ => ([Make (Await 2); Make (Result 2); Make (Drain 2 0); Make (CleanupPop 0)], Status 0)
    end
  else
    match ext (tasks (core o)) 2 with
    | Some (mkExternal _ _ (Some _)) =>
        ([Make (WaitTimer 5); Compute (λ log, log ++ [77]); Relocate (λ ptr, ptr + 1)], Status 0)
    | _ => suspend [Make (WaitTimer 5)] o
    end.

Definition root_maker (o : Sample) : list (Action (W := list N)) * (N + OwnedFault) :=
  ([Make (Create 10 100 [])], inl 1).

Lemma released_b_spec o : released_b o = true → released o.
Proof.
  intros Hb y Hy _. unfold released_b in Hb. rewrite forallb_forall in Hb.
  specialize (Hb y (proj1 (list_elem_of_In _ _) Hy)). by apply bool_decide_eq_true in Hb.
Qed.

Lemma suspend_contract l o :
  Forall (free (P := WaitSamples.Scripted)) l → keeps_contract true idle plain_fault (suspend l o).1
    (λ o', (suspend l o).2 = Status 1 → released o') o.
Proof.
  intros Hl. unfold suspend. destruct (from_option released_b true (end_of l o)) eqn:E; [|done].
  apply free_contract; [done|]. intros o' Hr _. apply released_b_spec.
  simpl in Hr. unfold end_of in E. by rewrite Hr in E.
Qed.

Lemma code_of_contract re ptr o :
  keeps_contract true idle plain_fault (code_of re ptr o).1 (λ o', (code_of re ptr o).2 = Status 1 → released o') o.
Proof.
  unfold code_of. destruct (re =? 100).
  - destruct (tasks (core o) !! 2); [apply free_contract; [|done]|apply suspend_contract];
      repeat constructor; by intros ?.
  - destruct (ext (tasks (core o)) 2) as [[? ? [n|]]|];
      [apply free_contract; [|done]|apply suspend_contract..]; repeat constructor; by intros ?.
Qed.

Lemma root_maker_contract o : keeps_contract true idle plain_fault (root_maker o).1 (λ _, True) o.
Proof. apply free_contract; [|done]. repeat constructor; by intros ?. Qed.

(** A turn of the driver: a poll that does not block, and one that blocks until the clock is 9. *)
Definition turn_inputs : (N * list Wait.Turn) * (N * list Wait.Turn) :=
  ((0, [Wait.alone 0 (Some 0) 0 true]), (0, [Wait.mkTurn [Wait.Wake] 0 None [] [Wait.Wake] 9 false])).
