(* ===== verification/Guarantees.v ===== *)
(** What [compiler/src/native_input.rs] guarantees, as theorems over the library: the
    stream reader, the by-value layout check, the converter and [decode] as a whole. Each
    theorem with hypotheses is followed by an instance on a stream of [Samples]. *)

From S2P Require Import Prelude Text Model Reader ReaderFacts Encoder Layout Operations Converter Typing OperationFacts ConverterFacts Decode DecodeFacts Samples.

(** ** [decode] *)

(** C14: On any UTF-8 text that fits in memory [decode] returns a program or an ordinary
    error: no slice, index, arithmetic or [unreachable!] panic, and its recursion ends. *)
Theorem decode_returns s :
  Utf8.valid s = true → lengthN s ≤ isize_max → returns (decode s).
Proof.
  intros Hs Hl. unfold decode. eapply sat_bind; [by apply read_stream_sat|].
  intros raw _ Hraw. exact (sat_returns _ _ (resolve_sat raw Hraw)).
Qed.

Lemma decode_returns_witness : returns (decode (prefix ++ locations ++ names ++ target)).
Proof. apply decode_returns; [vm_compute; reflexivity|vm_compute; discriminate]. Defined.

(** C15: Every program that [decode] accepts is well formed: closed type tables without
    recursive by-value layouts, witness slots and function references with the expected
    signatures, typed locals, loop control only inside loops, and existing roots. *)
Theorem decode_well_formed s p :
  Utf8.valid s = true → lengthN s ≤ isize_max → decode s = Ok p → program_ok p.
Proof. apply decoded_ok. Qed.

(** The value of a decoded sample. *)
Definition decoded (s : bytes) : C.Program :=
  match decode s with
  | Ok p => p
  | _ => C.mkProgram [] [] [] [] [] [] None [] [] [] (C.mkSourceMap [] ∅) []
  end.

Lemma decode_well_formed_witness :
  program_ok (decoded (cleanup_stream [node 29 0 "" 7 [empty_body]])) ∧
  length (C.functions (decoded (cleanup_stream [node 29 0 "" 7 [empty_body]]))) = 1%nat.
Proof.
  split; [|vm_compute; reflexivity].
  apply (decode_well_formed (cleanup_stream [node 29 0 "" 7 [empty_body]]));
    [vm_compute; reflexivity|vm_compute; discriminate|vm_compute; reflexivity].
Defined.

(** ** The stream *)

(** C16: Reading the encoder's output gives the program back: every section, every tree and
    every source position. *)
Theorem read_encode p groups :
  program_wf p → groups_of p groups → lengthN (encode p groups) ≤ isize_max →
  read_stream (encode p groups) = Ok p.
Proof. apply read_stream_encode. Qed.

Definition sample_text : bytes := prefix ++ locations ++ names ++ target.

Definition sample_raw : Raw.Program :=
  match read_stream sample_text with
  | Ok raw => raw
  | _ => Raw.mkProgram [] [] None [] [] [] [] [] [] (C.mkSourceMap [] ∅)
  end.

Lemma read_encode_witness :
  read_stream (encode sample_raw [(0, 0, [(mkSpan 0 0, 2, 3)])]) = Ok sample_raw ∧
  length (Raw.functions sample_raw) = 1%nat.
Proof.
  split; [|vm_compute; reflexivity]. apply read_encode.
  - apply (sat_Ok program_wf (read_stream sample_text)); [|vm_compute; reflexivity].
    apply read_stream_sat; [vm_compute; reflexivity|vm_compute; discriminate].
  - split; [|split; [discriminate|vm_compute; reflexivity]].
    repeat constructor; vm_compute; discriminate.
  - vm_compute. discriminate.
Defined.

(** The reader never panics, keeps its cursor on character boundaries, and yields raw
    programs whose trees have at most 513 levels, whose spans are ordered, whose text is
    UTF-8 and whose source positions name existing functions and paths. *)
Theorem read_stream_well_formed s :
  Utf8.valid s = true → lengthN s ≤ isize_max → outcome_sat program_wf (read_stream s).
Proof. apply read_stream_sat. Qed.

Lemma read_stream_well_formed_witness : outcome_sat program_wf (read_stream sample_text).
Proof.
  apply read_stream_well_formed; [vm_compute; reflexivity|vm_compute; discriminate].
Defined.

(** ** Layouts *)

(** C17: The layout check terminates without an index out of range, and the tables it
    accepts have no value that contains itself by value. *)
Theorem check_layouts_finite types :
  data_refs_ok types →
  outcome_sat (λ _, ∀ id, id < lengthN types → finite_data types id) (check_layouts types).
Proof. apply check_layouts_sat. Qed.

(** The layout check reports a recursive layout only for tables that have one. *)
Theorem check_layouts_recursive types :
  data_refs_ok types → check_layouts types = Err recursive_layout →
  ¬ ∀ id, id < lengthN types → finite_data types id.
Proof. intros Hrefs Herr Hfin. exact (check_layouts_no_cycle types Hrefs Hfin Herr). Qed.

(** A pair that holds a box twice, and a list node that holds itself. *)
Definition shared_types : list C.Data :=
  [C.mkData (b "box") (C.Record [(b "value", Ty.Int)]);
   C.mkData (b "pair") (C.Record [(b "left", Ty.Data 0); (b "right", Ty.Data 0)])].
Definition recursive_types : list C.Data :=
  [C.mkData (b "node") (C.Record [(b "value", Ty.Int); (b "next", Ty.Data 0)])].

Lemma check_layouts_finite_witness :
  outcome_sat (λ _, ∀ id, id < 2 → finite_data shared_types id) (check_layouts shared_types) ∧
  check_layouts shared_types = Ok [2; 2].
Proof.
  split; [|vm_compute; reflexivity]. apply (check_layouts_finite shared_types).
  repeat constructor; vm_compute; reflexivity.
Defined.

Lemma check_layouts_recursive_witness :
  ¬ ∀ id, id < 1 → finite_data recursive_types id.
Proof.
  apply (check_layouts_recursive recursive_types); [|vm_compute; reflexivity].
  repeat constructor; vm_compute; reflexivity.
Defined.

(** ** Operations *)

(** For operands with existing types the checks on a runtime operation accept exactly
    the applications that the typing rules allow, and refuse the others with an error. *)
Theorem operation_checks_exact self arguments result operation :
  tables_ok (program self) → type_ok (program self) result →
  Forall (λ e, type_ok (program self) (C.e_ty e)) arguments →
  lengthN arguments = primitive_arity operation →
  (operation_checks self arguments result operation = Ok tt ↔
   operation_rule (program self) (λ id s, raw_signature self id = Some s) operation
     arguments result) ∧
  returns (operation_checks self arguments result operation).
Proof.
  intros Hp Hr Ha Hn.
  pose proof (operation_checks_decide self arguments result Hp Hr Ha operation Hn) as Hd.
  destruct (operation_checks self arguments result operation) as [[]| | |]; simpl in Hd.
  - done.
  - split; [|exact I]. split; [discriminate|]. intros H. by destruct Hd.
  - destruct Hd.
  - destruct Hd.
Qed.

Definition task_program : C.Program :=
  C.mkProgram [C.mkData (b "task") (C.Task Ty.Int)] [Ty.Text] [] [] [] [] None [] [] []
    (C.mkSourceMap [] ∅) [].
Definition task_converter : Converter :=
  mkConverter task_program [Ty.Data 0] []
    (Raw.mkFunction 0 (mkSpan 0 0) [] 0 [] [] (Raw.mkExpr 11 0 (mkSpan 0 0) [] 0 true [] []))
    0.
Definition operand (t : Ty.Ty) : C.Expr := C.mkExpr (C.Local 0) t (mkSpan 0 0).

Lemma operation_checks_exact_witness :
  operation_rule task_program (λ id s, raw_signature task_converter id = Some s)
    Primitive.TaskResult [operand (Ty.Data 0)] Ty.Int ∧
  ¬ operation_rule task_program (λ id s, raw_signature task_converter id = Some s)
      Primitive.TaskResult [operand (Ty.Data 0)] Ty.Text.
Proof.
  assert (tables_ok task_program) by (split; repeat constructor; vm_compute; reflexivity).
  assert (Forall (λ e, type_ok task_program (C.e_ty e)) [operand (Ty.Data 0)])
    by (repeat constructor; vm_compute; reflexivity).
  split.
  - apply (operation_checks_exact task_converter [operand (Ty.Data 0)] Ty.Int
             Primitive.TaskResult); [assumption|exact I|assumption|reflexivity|].
    vm_compute. reflexivity.
  - intros Hrule.
    apply (operation_checks_exact task_converter [operand (Ty.Data 0)] Ty.Text
             Primitive.TaskResult) in Hrule; [|assumption|exact I|assumption|reflexivity].
    vm_compute in Hrule. discriminate.
Defined.

(** The reserved names of runtime operations are a bijection: every operation has
    exactly one name that [primitive] resolves to it. *)
Theorem primitive_names_bijective operation :
  ∃ name, primitive (b name) = Ok operation ∧
    ∀ value, primitive value = Ok operation → value = b name.
Proof.
  destruct primitive_names_NoDup as [Hnames Hops].
  destruct (name_in_Some primitive_names operation (primitive_names_complete operation))
    as (name & Hname & Hin).
  exists name. unfold primitive. split.
  - by apply ok_or_Ok, lookup_name_elem.
  - intros value Hv%ok_or_Ok. apply lookup_name_Some in Hv as (name' & -> & Hin').
    apply (name_in_unique _ _ _ Hops) in Hin'. congruence.
Qed.

(** ** Expressions *)

(** C18: On a tree of at most [n] levels, [3 * n] units of fuel are enough: the converter
    ends without a panic, and an accepted block obeys the typing rules of its function. *)
Theorem block_converts E n fuel self node :
  cv_ok E self → loop_depth self = 0 → N.of_nat n ≤ usize_max → (3 * n ≤ fuel)%nat →
  expr_wf n node → outcome_sat (block_ok E false) (block fuel self node).
Proof. intros. by apply (entry_converts E n). Qed.

Definition sample_block : Raw.Expr :=
  Raw.mkExpr 11 0 (mkSpan 0 0) [] 0 true
    [Raw.mkExpr 3 0 (mkSpan 0 1) [] 0 true [] []] [].
Definition sample_self : Converter :=
  mkConverter task_program [Ty.Data 0] []
    (Raw.mkFunction 0 (mkSpan 0 0) [0] 0 [0] [] sample_block) 0.
Definition sample_env : Env := mkEnv task_program (λ _ _, False) (λ _ _, False) [Ty.Data 0].

Lemma block_converts_witness :
  outcome_sat (block_ok sample_env false) (block 6 sample_self sample_block) ∧
  block 6 sample_self sample_block =
    Ok (C.mkBlock [] (Some (C.mkExpr (C.Local 0) (Ty.Data 0) (mkSpan 0 1))) true).
Proof.
  split; [|vm_compute; reflexivity].
  apply (block_converts sample_env 2).
  - constructor; simpl.
    + reflexivity.
    + split; repeat constructor; vm_compute; reflexivity.
    + repeat constructor; vm_compute; reflexivity.
    + repeat constructor.
    + intros id f Hf. apply get_Some in Hf. rewrite lookup_nil in Hf. discriminate.
    + intros id s Hs. apply raw_signature_Some in Hs as (f & Hf & _).
      apply get_Some in Hf. simpl in Hf. rewrite lookup_nil in Hf. discriminate.
  - reflexivity.
  - vm_compute. discriminate.
  - lia.
  - repeat (split || constructor); vm_compute; (reflexivity || discriminate).
Defined.
