(* ===== verification/RuntimeGuarantees.v ===== *)
(** What the runtime's root table and wait reactor guarantee, as theorems over the library:
    [compiler/runtime/src/frame_roots.rs] and [compiler/runtime/src/wait.rs]. Each theorem
    with hypotheses is followed by an instance on concrete states. *)

From S2P Require Import Prelude Slots FrameRoots.
From S2P Require Wait WaitFacts WaitRuns WaitNative WaitSamples.

(** ** Frame roots *)

(** C19: The dense root table is a finite map from identities to pointers: looking up,
    inserting under a new identity, replacing and removing do to the table what they do to
    the map, removal keeps every other root although it moves one, and the operations panic
    only when the generations of the chosen slot are exhausted. *)
Theorem frame_roots_map store m :
  represents store m →
  (∀ id, get_root store id = Ok (m !! id)) ∧
  (∀ ptr, (∃ id store', insert false store ptr = Ok (id, store') ∧ m !! id = None ∧
             represents store' (<[id := ptr]> m)) ∨
          (∃ s, get (slots (table store)) (next_index (table store)) = Some s ∧
             slot_generation s = usize_max)) ∧
  (∀ id ptr, ∃ store', replace false store id ptr = Ok (bool_decide (is_Some (m !! id)), store') ∧
     represents store' (if decide (is_Some (m !! id)) then <[id := ptr]> m else m)) ∧
  (∀ id, ∃ store', remove false store id = Ok (bool_decide (is_Some (m !! id)), store') ∧
     represents store' (delete id m)).
Proof.
  intros Hrep. pose proof Hrep as [Hok Hm]. refine (conj _ (conj _ (conj _ _))).
  - intros id. by rewrite Hm, get_root_spec.
  - intros ptr. destruct (allocate (table store) (lengthN (active store))) as [[id t]|] eqn:Ha.
    + left. assert (insert false store ptr = Ok (id, mkStore (active store ++ [mkEntry (key id) ptr]) t))
        as Hins by (unfold insert; simpl; by rewrite Ha).
      destruct (insert_represents _ _ _ _ _ Hrep Hins) as [Hn Hrep'].
      exists id. eexists. by split_and!.
    + right. by eapply allocate_None; [apply Hok|].
  - intros id ptr. by apply replace_represents.
  - intros id. by apply remove_represents.
Qed.

(** Two roots, of which the first is removed. *)
Definition two_roots : Store :=
  match ('(_, s) ← insert false default_store 10; '(_, s) ← insert false s 20; Ok s) with
  | Ok s => s
  | _ => default_store
  end.

Definition one_root : Store :=
  match remove false two_roots (mkId 0 1) with Ok (_, s) => s | _ => default_store end.

Lemma frame_roots_map_witness :
  represents default_store ∅ ∧ get_root default_store (mkId 0 1) = Ok None ∧
  get_root one_root (mkId 1 1) = Ok (Some 20) ∧ get_root one_root (mkId 0 1) = Ok None.
Proof.
  split; [exact represents_default|]. split; [|vm_compute; by split].
  exact (proj1 (frame_roots_map default_store ∅ represents_default) (mkId 0 1)).
Defined.

(** C20: A stale identity never comes to life again: whatever is inserted, replaced,
    removed or traced afterwards, an identity whose root is gone retains no pointer, so that
    a holder of an old identity cannot reach the pointer of a later one. *)
Theorem frame_roots_stale store store' id :
  store_ok store → rtc step store store' → store_issued store id → root store id = None →
  get_root store' id = Ok None ∧ ∃ s, replace false store' id 0 = Ok (false, s).
Proof.
  intros Hok Hsteps Hid Hn. destruct (steps_preserve _ _ Hsteps Hok) as [Hok' Hpres].
  destruct (Hpres id Hid) as [_ Hn']. specialize (Hn' Hn). split.
  - by rewrite get_root_spec, Hn'.
  - pose proof (replace_spec store' Hok' id 0) as Hr. rewrite Hn' in Hr. by eexists.
Qed.

(** [one_root] is reachable, and knows the identity it has given up. *)
Lemma one_root_ok : store_ok one_root ∧ store_issued one_root (mkId 0 1).
Proof.
  destruct (insert false default_store 10) as [[i s1]| | |] eqn:E1; try done.
  destruct (insert false s1 20) as [[j s2]| | |] eqn:E2; [|by vm_compute in E1; simplify_eq..].
  assert (rtc step default_store s2) as Hsteps.
  { eapply rtc_l; [by eapply step_insert|]. eapply rtc_l; [by eapply step_insert|]. done. }
  assert (s2 = two_roots) as -> by (unfold two_roots; rewrite E1; simpl; by rewrite E2).
  destruct (remove false two_roots (mkId 0 1)) as [[b s3]| | |] eqn:E3; try done.
  assert (s3 = one_root) as -> by (unfold one_root; by rewrite E3).
  split.
  - eapply steps_preserve; [eapply rtc_r; [exact Hsteps|by eapply step_remove]|apply default_store_ok].
  - vm_compute. eexists. split; [reflexivity|discriminate].
Qed.

Lemma frame_roots_stale_witness :
  ∃ id' s, insert false one_root 30 = Ok (id', s) ∧ get_root s (mkId 0 1) = Ok None ∧
    get_root s (mkId 0 2) = Ok (Some 30).
Proof.
  destruct (insert false one_root 30) as [[id' s]| | |] eqn:E; [|by vm_compute in E..].
  exists id', s. refine (conj eq_refl (conj _ _)).
  - refine (proj1 (frame_roots_stale one_root s (mkId 0 1) (proj1 one_root_ok) _ (proj2 one_root_ok) _)).
    + eapply rtc_l; [by eapply step_insert|]. apply rtc_refl.
    + vm_compute. reflexivity.
  - vm_compute in E. injection E as <- <-. vm_compute. reflexivity.
Defined.

(** Tracing visits every retained pointer exactly once, and afterwards every identity
    retains what the collector moved its pointer to. *)
Theorem frame_roots_trace store m (f : N → N) :
  represents store m →
  let '(log, store') := trace (λ l ptr, (l ++ [ptr], f ptr)) [] store in
  log ≡ₚ (map_to_list m).*2 ∧ represents store' (f <$> m).
Proof. intros Hrep. exact (trace_represents store m Hrep f). Qed.

(** The map of the two roots. *)
Lemma two_roots_represents :
  represents two_roots (<[mkId 1 1 := 20]> (<[mkId 0 1 := 10]> ∅)).
Proof.
  assert (insert false default_store 10 =
    Ok (mkId 0 1, mkStore [mkEntry 0 10] (mkTable [mkSlot 1 (Some 0)] []))) as H1 by reflexivity.
  destruct (insert_represents _ _ _ _ _ represents_default H1) as [_ R1].
  by destruct (insert_represents _ _ 20 (mkId 1 1) two_roots R1 eq_refl).
Qed.

Lemma frame_roots_trace_witness :
  let '(log, store') := trace (λ l ptr, (l ++ [ptr], ptr + 1)) [] two_roots in
  log = [10; 20] ∧ represents store' ((λ ptr, ptr + 1) <$> <[mkId 1 1 := 20]> (<[mkId 0 1 := 10]> ∅)).
Proof.
  pose proof (frame_roots_trace two_roots _ (λ p, p + 1) two_roots_represents) as Hw.
  change (trace (λ l ptr, (l ++ [ptr], ptr + 1)) [] two_roots)
    with ([10; 20], mkStore [mkEntry 0 11; mkEntry 1 21] (table two_roots)) in *.
  split; [reflexivity|]. exact (proj2 Hw).
Defined.

(** ** The wait reactor *)

Module Reactor.
Import Wait WaitFacts WaitRuns WaitNative WaitSamples.

(** C21: Every operation of the reactor keeps the invariant that ties timers, handles and
    poll keys to the active registrations, whatever the poller answers; none of the map
    accesses and unwraps in them can fail, so that the only panics are the two aborts after
    a native interest could neither be cleaned up nor restored. *)
Theorem operations_keep_invariant {P} `{Poller P} linux (s : Reactor P) :
  core_ok (core s) →
  (∀ src own, wp (register linux src own) (λ _ s', core_ok (core s')) s) ∧
  (∀ r, wp (cancel linux r) (λ _ s', core_ok (core s')) s) ∧
  (∀ h, wp (revoke_readiness linux h) (λ _ s', core_ok (core s')) s) ∧
  (∀ r ev os, wp (notify_completion r ev os) (λ _ s', core_ok (core s')) s) ∧
  (∀ e, wp (readiness linux e) (λ _ s', core_ok (core s')) s) ∧
  (∀ now large turns, wp (wait linux now large turns) (λ _ s', core_ok (core s')) s) ∧
  wp pop_ready (λ _ s', core_ok (core s')) s.
Proof.
  intros Hok. split_and!; intros; (eapply io_wp_mono;
    [by first [apply register_wp|apply cancel_wp|apply revoke_readiness_wp
              |apply notify_completion_wp|apply readiness_wp|apply wait_wp|apply pop_ready_wp]|]).
  all: intros res s' Hpost; simpl in Hpost; try apply Hpost; by destruct Hpost as [[? _ _] _].
Qed.

(** A reactor with a timer, a readiness and a completion registration. *)
Definition busy1 : Reactor Scripted := state_after (register true (timer_source 5) 1) (fresh [] []).
Definition busy2 : Reactor Scripted := state_after (register true (both_source 3) 2) busy1.
Definition busy : Reactor Scripted := state_after (register true completion_source 3) busy2.

Definition busy_history : History Scripted :=
  mkHistory busy None [] [] (<[mkId 2 1 := 3]> (<[mkId 1 1 := 2]> (<[mkId 0 1 := 1]> ∅))).

(** One registration that succeeds. *)
Ltac register_step src own r s :=
  lazymatch goal with
  | |- step true ?h _ =>
      let E := fresh in
      pose proof (step_register true h src own r s) as E; cbn [owners popped buffer dropped] in E;
      apply E; vm_compute; reflexivity
  end.

Lemma busy_reachable : rtc (step true) (new_history (mkScripted ∅ [] [])) busy_history.
Proof.
  apply (rtc_l _ _ (mkHistory busy1 None [] [] (<[mkId 0 1 := 1]> ∅)));
    [register_step (timer_source 5) 1 (mkId 0 1) busy1|].
  apply (rtc_l _ _ (mkHistory busy2 None [] [] (<[mkId 1 1 := 2]> (<[mkId 0 1 := 1]> ∅))));
    [register_step (both_source 3) 2 (mkId 1 1) busy2|].
  apply rtc_once. register_step completion_source 3 (mkId 2 1) busy.
Qed.

Lemma busy_ok : history_ok busy_history.
Proof. eapply steps_history; [exact busy_reachable|apply new_history_ok]. Qed.

Lemma operations_keep_invariant_witness :
  wp (revoke_readiness true 3) (λ _ s', core_ok (core s')) busy ∧
  lengthN (ready (core (state_after (revoke_readiness true 3) busy))) = 1.
Proof.
  split; [|vm_compute; reflexivity].
  exact (proj1 (proj2 (proj2 (operations_keep_invariant true busy (history_core _ busy_ok)))) 3).
Defined.

(** C22: Over every run of a new reactor each registration is announced at most once, only
    when it is no longer active, and to the owner that registered it. *)
Theorem announced_once {P} `{Poller P} linux (p : P) h :
  rtc (step linux) (new_history p) h →
  NoDup (registration <$> announced h) ∧
  ∀ n, n ∈ announced h →
    active (core (reactor h)) (registration n) = None ∧
    owners h !! registration n = Some (ready_owner n).
Proof.
  intros Hsteps. destruct (steps_history _ _ _ Hsteps (new_history_ok p)) as [[_ H2 H3 _ H5] _].
  split; [exact H2|]. intros n Hn. split; [by apply H3|by apply H5].
Qed.

(** [busy] with its timer announced. *)
Definition fired_history : History Scripted :=
  mkHistory (state_after (wait true 9 false []) busy) None [] [] (owners busy_history).

Lemma announced_once_witness :
  NoDup (registration <$> announced fired_history) ∧
  announced fired_history = [mkReady (mkId 0 1) 1 TIMER 0].
Proof.
  split; [|vm_compute; reflexivity].
  refine (proj1 (announced_once true (mkScripted ∅ [] []) fired_history _)).
  eapply rtc_r; [exact busy_reachable|].
  apply (step_fire true busy_history 9 (Success tt)). vm_compute. reflexivity.
Defined.

(** C23: A cancellation that reports [true] is final: in no later run is the registration
    announced, not even by an event or a timer that was due when it was cancelled. *)
Theorem cancelled_never_announced {P} `{Poller P} linux (h h' : History P) r s :
  history_ok h → cancel linux r (reactor h) = Ok (Success true, s) →
  rtc (step linux) (at_reactor s h) h' →
  (r ∉ registration <$> announced h') ∧ active (core (reactor h')) r = None.
Proof.
  intros Hh Hc Hsteps. pose proof (history_core _ Hh) as Hok.
  pose proof (wp_Ok _ _ _ _ _ (cancel_wp linux r _ Hok) Hc) as Hcan. cbv beta in Hcan.
  destruct (cancelled_history _ _ _ (buffer h) (dropped h) _ Hh Hcan) as [Hh1 Hl1].
  destruct Hcan as (_ & Hb & Hact & Hiss & _). symmetry in Hb. apply bool_decide_eq_true in Hb as [a Ha].
  assert (stale (table (core s)) r) as Hst.
  { split; [apply Hiss; by eapply occupant_issued|].
    change (active (core s) r = None). rewrite Hact. unfold upd. by rewrite decide_True. }
  destruct (steps_history _ _ _ Hsteps Hh1) as [_ [_ Hgone Hann]]. split; [|by apply Hgone].
  intros Hr. apply Hann in Hr; [|exact Hst].
  assert (r ∈ registration <$> announced h) as Hold.
  { unfold announced in *. simpl in Hr.
    destruct (wp_Ok _ _ _ _ _ (cancel_wp linux r _ Hok) Hc) as (_ & _ & _ & _ & Hready).
    by rewrite Hready in Hr. }
  apply list_elem_of_fmap in Hold as (n & -> & Hn). destruct (history_stale _ Hh n Hn) as [_ Hnone].
  unfold active in Ha. congruence.
Qed.

(** [busy] with its timer cancelled, and then past its deadline. *)
Definition cancelled_timer : Reactor Scripted := state_after (cancel true (mkId 0 1)) busy.

Lemma cancelled_never_announced_witness :
  mkId 0 1 ∉ (registration <$> announced
    (mkHistory (state_after (on_core (fire_timers 9)) cancelled_timer) None [] [] (owners busy_history))).
Proof.
  refine (proj1 (cancelled_never_announced true busy_history _ (mkId 0 1) cancelled_timer busy_ok _ _)).
  - vm_compute. reflexivity.
  - apply rtc_once.
    apply (step_fire true (mkHistory cancelled_timer None [] [] (owners busy_history)) 9 (Success tt)).
    vm_compute. reflexivity.
Defined.

(** C24: A failed operation commits nothing: when registering, cancelling, revoking or
    handling an event fails, the active registrations, the timers, the handles, the poll
    keys and the ready queue are what they were. *)
Theorem failed_operations_commit_nothing {P} `{Poller P} linux (s s' : Reactor P) e :
  core_ok (core s) →
  (∃ src own, register linux src own s = Ok (Failure e, s')) ∨
  (∃ r, cancel linux r s = Ok (Failure e, s')) ∨
  (∃ h, revoke_readiness linux h s = Ok (Failure e, s')) ∨
  (∃ ev, readiness linux ev s = Ok (Failure e, s')) →
  unchanged (core s) (core s').
Proof.
  intros Hok [(src & own & Hr)|[(r & Hr)|[(h & Hr)|(ev & Hr)]]].
  - apply (wp_Ok _ _ _ _ _ (register_wp linux src own s Hok) Hr).
  - apply (wp_Ok _ _ _ _ _ (cancel_wp linux r s Hok) Hr).
  - apply (wp_Ok _ _ _ _ _ (revoke_readiness_wp linux h s Hok) Hr).
  - apply (wp_Ok _ _ _ _ _ (readiness_wp linux ev s Hok) Hr).
Qed.

(** The poller refuses the change of interest that registering the other direction needs. *)
Definition refusing : Reactor Scripted :=
  mkReactor (mkScripted (registered (poller busy)) [false; true; false; false] []) (core busy).

Lemma failed_operations_commit_nothing_witness :
  unchanged (core refusing) (core (state_after (register true (read_source 4) 9) refusing)) ∧
  core_ok (core refusing).
Proof.
  split; [|exact (history_core _ busy_ok)].
  apply (failed_operations_commit_nothing true refusing _ refused (history_core _ busy_ok)).
  left. exists (read_source 4), 9. vm_compute. reflexivity.
Defined.

(** C25: Under the documented behaviour of a one-shot poller, over every run and through
    partial failures and recoveries, the poller knows exactly the sources of the reactor's
    handles. It holds the key of the handle and no direction that the handle does not wait
    for, and it is armed for all of them unless an event with this key was taken from the
    poller and not handled: a wait is about to handle it, or has failed before it came to it.
    As long as there is no such event, the native interests are those of the handles. *)
Theorem native_interests_agree {P} `{Poller P} linux `{!PollerSpec P linux} (p : P) h :
  native p = ∅ → rtc (step linux) (new_history p) h →
  (∀ x, handles (core (reactor h)) !! x = None → native (poller (reactor h)) !! x = None) ∧
  (∀ x hd, handles (core (reactor h)) !! x = Some hd → ∃ i,
    native (poller (reactor h)) !! x = Some i ∧ disarmed i (interest_of hd) ∧
    (event_key hd ∉ in_flight h → i = interest_of hd)) ∧
  (buffer h = None → dropped h = [] →
    ∀ x, native (poller (reactor h)) !! x = interest_of <$> handles (core (reactor h)) !! x).
Proof.
  intros Hp Hsteps. assert (synced linux (in_flight h) (reactor h)) as Hs.
  { eapply (steps_synced linux); [exact Hsteps|apply new_history_ok|]. intros x. simpl.
    by rewrite Hp, !lookup_empty. }
  split; [|split].
  - intros x Hx. specialize (Hs x). rewrite Hx in Hs. by destruct (native _ !! x).
  - intros x hd Hx. specialize (Hs x). rewrite Hx in Hs. destruct (native _ !! x) as [i|]; [|done].
    by exists i.
  - intros Hb Hd x. specialize (Hs x). unfold in_flight in Hs. rewrite Hb, Hd in Hs.
    destruct (handles _ !! x), (native _ !! x); simpl in *; try done. f_equal. apply Hs. set_solver.
Qed.

Lemma native_interests_agree_witness :
  registered (poller busy) !! 3 = interest_of <$> handles (core busy) !! 3 ∧
  registered (poller busy) !! 3 = Some (mkInterest 1 true true).
Proof.
  split; [|vm_compute; reflexivity].
  exact (proj2 (proj2 (native_interests_agree true (mkScripted ∅ [] []) busy_history eq_refl busy_reachable))
    eq_refl eq_refl 3).
Defined.

(** The exception is real. Two sources are readable; the poller reports both, and refuses the
    change of interest for the first. The wait fails, the first is armed again, and the second
    stays disarmed although the reactor still waits for it: nothing will wake it. *)
Definition watched : Reactor Scripted :=
  state_after (register true (read_source 3) 1 ;; register true (read_source 4) 2)
    (fresh [false; false; false; false; true]
       [mkEvent 1 true false false None; mkEvent 2 true false false None]).

Theorem failed_wait_strands_an_event :
  match wait true 0 false [alone 0 None 0 false] watched with
  | Ok (Failure e, s) =>
      e = refused ∧ is_Some (active (core s) (mkId 1 1)) ∧
      registered (poller s) !! 3 = Some (mkInterest 1 true false) ∧
      handles (core s) !! 4 = Some (mkHandle 2 (Some (mkId 1 1)) None) ∧
      registered (poller s) !! 4 = Some (mkInterest 2 false false) ∧ delivered (poller s) = []
  | _ => False
  end.
Proof. vm_compute. split_and!; try reflexivity. by eexists. Qed.

(** C26: [wait] announces every timer that is due, in the order of the deadlines, before it
    enters the poller, and leaves the others. *)
Theorem due_timers_announced {P} `{Poller P} linux (s : Reactor P) now large turns d k r :
  core_ok (core s) → (d, k, r) ∈ timers (core s) → d ≤ now →
  ∃ n s' new, wait linux now large turns s = Ok (Success (Some n), s') ∧ poller s' = poller s ∧
    n = lengthN (ready (core s')) ∧ ready (core s') = ready (core s) ++ new ∧
    (registration <$> new) = (filter (λ e, e.1.1 ≤ now) (timers (core s))).*2 ∧
    r ∈ registration <$> new ∧ (∀ m, m ∈ new → events m = TIMER ∧ os_error m = 0%Z) ∧
    timers (core s') = filter (λ e, now < e.1.1) (timers (core s)).
Proof.
  intros Hok Hin Hd.
  destruct (fire_loop_spec now (timers (core s)) (core s) Hok eq_refl)
    as (c' & new & Hf & _ & [_ _ Hready _] & Hev & Hregs & Htim & _).
  assert (r ∈ registration <$> new) as Hr.
  { rewrite Hregs. apply list_elem_of_fmap. exists (d, k, r). split; [done|].
    by apply list_elem_of_filter. }
  exists (lengthN (ready c')), (mkReactor (poller s) c'), new.
  refine (conj _ (conj eq_refl (conj eq_refl (conj Hready (conj Hregs (conj Hr (conj Hev Htim))))))).
  unfold wait, on_core, gets, mbind, io_bind, fire_timers. rewrite Hf. simpl.
  destruct (N.eqb_spec (lengthN (ready c')) 0) as [H0|]; [|done].
  rewrite Hready, length_app in H0. destruct new; [by apply elem_of_nil in Hr|]. simpl in H0. lia.
Qed.

Lemma due_timers_announced_witness :
  ∃ n s', wait true 9 false [] busy = Ok (Success (Some n), s') ∧
    mkId 0 1 ∈ registration <$> ready (core s').
Proof.
  destruct (due_timers_announced true busy 9 false [] 5 0 (mkId 0 1) (history_core _ busy_ok))
    as (n & s' & new & Hw & _ & _ & Hready & _ & Hr & _).
  - vm_compute. left.
  - discriminate.
  - exists n, s'. split; [exact Hw|]. rewrite Hready, fmap_app. apply elem_of_app. by right.
Defined.

(** Two active registrations never wait for the same direction of one native source,
    over every run: overlapping registrations are refused. *)
Theorem readiness_exclusive {P} `{Poller P} linux (p : P) h r r' a a' hd bit :
  rtc (step linux) (new_history p) h → direction bit →
  active (core (reactor h)) r = Some a → waits_on a hd bit →
  active (core (reactor h)) r' = Some a' → waits_on a' hd bit → r = r'.
Proof.
  intros Hsteps Hbit Ha Hw Ha' Hw'.
  destruct (steps_history _ _ _ Hsteps (new_history_ok p)) as [[(_ & Hl & _) _ _ _ _] _].
  pose proof Hw as (Hk & Hh & _). destruct (handles_exist _ _ Hl r a Ha Hk) as [hv Hhv].
  rewrite Hh in Hhv. pose proof (handles_linked _ _ Hl hd hv bit) as Hslot.
  assert (slot_of bit hv = Some r) as E1 by (apply Hslot; eauto).
  assert (slot_of bit hv = Some r') as E2 by (apply Hslot; eauto). congruence.
Qed.

Lemma readiness_exclusive_witness :
  active (core busy) (mkId 1 1) = Some (mkActive (both_source 3) 2) ∧
  mkId 1 1 = mkId (1 + 0) 1.
Proof.
  split; [reflexivity|].
  apply (readiness_exclusive true (mkScripted ∅ [] []) busy_history (mkId 1 1) (mkId (1 + 0) 1)
    (mkActive (both_source 3) 2) (mkActive (both_source 3) 2) 3 READABLE busy_reachable);
    [by left|reflexivity|by repeat split|reflexivity|by repeat split].
Defined.
End Reactor.
