(* ===== verification/TaskGuarantees.v ===== *)
(** What the task scheduler guarantees, as theorems over the library:
    [compiler/runtime/src/tasks.rs], [tasks_observation.rs] and [tasks_outcomes.rs]. Each
    theorem with hypotheses is followed by an instance on a concrete owner. *)

From S2P Require Import Prelude Text Slots Tasks TaskInv TaskRun TaskOps TaskResults TaskCleanups TaskCancel TaskDrive TaskSchedule TaskPoll TaskCalls TaskRuns TaskBehaviour TaskSamples.
From S2P Require FrameRoots Wait WaitFacts WaitSamples.

(** C27: A call of generated code that respects its contract keeps the scheduler consistent.
    Nineteen of the twenty-two kinds of calls have no contract: whatever their arguments are,
    they are carried out or refused. The contract of [allowed] restricts the other three:
    [loom_rt_task_release] is not called for a child that is still observed,
    [loom_rt_task_next_terminal_failure] only as long as the selected child is there, and
    [loom_rt_task_cancel_begin] not for a child whose parallel job has completed: the source
    then resumes the child inside the cancellation ([tasks_parallel.rs]), which
    [parallel_complete_before_cancel] models and this theorem leaves out.
    [release_of_observed] below shows that the first of them is needed. Under the contract a
    call ends without a panic other than an exhausted counter or a native wait that cannot be
    undone, leaves the task tree, the queue, the waits, the observation groups, the counters,
    the external waits and the frame roots consistent, and returns to the task that made it,
    under the same root. *)
Theorem calls_keep_invariant {P W} `{Wait.Poller P} `{Native W} linux generated fault_of (c : Call) (o : Owner P W) :
  inv ∅ o → allowed o c → wp (perform linux generated fault_of c) (λ _ o', inv ∅ o' ∧ returns_to o o') o.
Proof. apply call_returns. Qed.

Lemma calls_keep_invariant_witness :
  ∃ o', perform true idle plain_fault (Drain 2 0) watching = Ok (Done tt, o') ∧ inv ∅ o' ∧ returns_to watching o'.
Proof.
  pose proof (calls_keep_invariant true idle plain_fault (Drain 2 0) watching watching_inv I) as Hw. unfold wp in Hw.
  destruct (perform true idle plain_fault (Drain 2 0) watching) as [[r o']| | |] eqn:E;
    [|vm_compute in E; discriminate..].
  exists o'. split; [|exact Hw]. f_equal. f_equal. vm_compute in E. congruence.
Defined.

(** C28: Nobody sleeps for ever. In every state that the steps of the scheduler reach from a
    fresh owner, a queued task is in the queue, a task that waits for a child is the waiter of
    a child of its own that has not ended, a task that sleeps over its group observes at
    least one child and none of them has ended, and a task that waits for an event has a
    registration that the reactor still holds or has announced. *)
Theorem sleepers_have_wakers {P W} `{Wait.Poller P} `{Native W} linux generated fault_of (o o' : Owner P W) x :
  fresh o → rtc (step linux generated fault_of) o o' → wakeable o' x.
Proof. intros Hf Hs. by eapply inv_wakeable, reachable_inv. Qed.

Lemma sleepers_have_wakers_witness :
  rtc (step true idle plain_fault) fresh_owner watching ∧ wakeable watching 2.
Proof.
  split; [exact watching_reachable|].
  exact (sleepers_have_wakers true idle plain_fault fresh_owner watching 2 fresh_owner_ok watching_reachable).
Defined.

(** C29: The driver never deadlocks. Between two resumes of any reachable state, [drive] finds
    that the root has ended, when nothing else is left, or a queued task to run, or a pending
    wait to sleep for; it never finds a tree of tasks that wait for each other. *)
Theorem schedule_progress {P W} `{Wait.Poller P} `{Native W} linux generated fault_of (o o' : Owner P W) r :
  fresh o → rtc (step linux generated fault_of) o o' → current (core o') = None → root (core o') = Some r →
  wp (schedule r) (λ res o2, ∃ next, res = Done next ∧ scheduled r res o2) o'.
Proof.
  intros Hf Hs Hc Hr. eapply wp_mono; [apply schedule_keeps; [by eapply reachable_inv|done|done]|].
  intros [next|why] o2 Ho; [by exists next|by destruct Ho].
Qed.

Lemma made_reachable : rtc (step true idle plain_fault) fresh_owner made.
Proof. apply rtc_once. sample_call (Create 10 100 []). Qed.

Lemma schedule_progress_witness :
  ∃ o2, schedule 1 made = Ok (Done (Resume 1 (mkId 0 1) 100), o2) ∧ scheduled 1 (Done (Resume 1 (mkId 0 1) 100)) o2.
Proof.
  pose proof (schedule_progress true idle plain_fault fresh_owner made 1 fresh_owner_ok made_reachable
    eq_refl eq_refl) as Hw.
  unfold wp in Hw. destruct (schedule 1 made) as [[r o2]| | |] eqn:E; [|vm_compute in E; discriminate..].
  destruct Hw as (next & -> & Hs). exists o2. assert (next = Resume 1 (mkId 0 1) 100) as -> by (vm_compute in E; congruence).
  by split.
Defined.

(** C30: A run that ends leaves nothing behind. The generated code and the constructor are any
    scripts of calls, computations, collections and operations of other threads that respect
    the contracts of [permitted], where each of them happens, and that suspend only after they
    have released the children they cancelled. Then [task_run] neither gets stuck nor panics
    beyond the permitted panics. When it returns, no task, no root and no pending wait is left,
    whether the root has completed or faulted, a wait has failed, or the constructor has; and
    when its inputs are used up before, the owner is consistent. That it returns is not
    claimed: the code may go on for ever. *)
Theorem run_leaves_nothing {P W} `{Wait.Poller P} `{Native W} linux nested fault_of wait_fault
    (code : N → N → Owner P W → list Action * Resumed) (make : Owner P W → list Action * (N + OwnedFault))
    inputs (o : Owner P W) :
  (∀ resume ptr o x, inv ∅ o → current (core o) = Some x → released o →
    keeps_contract linux nested fault_of (code resume ptr o).1
      (λ o', (code resume ptr o).2 = Status 1 → released o') o) →
  (∀ o, fresh o → keeps_contract linux nested fault_of (make o).1 (λ _, True) o) →
  uncancelled inputs → fresh o →
  wp (task_run linux (λ resume ptr, scripted linux nested fault_of (code resume ptr)) fault_of wait_fault
       (scripted linux nested fault_of make) inputs) (λ res o',
    match res with
    | Done None => inv ∅ o' ∧ current (core o') = None
    | Done (Some _) => emptied o'
    | Invalid _ => False
    end) o.
Proof.
  intros Hcode Hmake Hin Hf. apply task_run_wp; try done; [by apply scripted_well_behaved|by apply scripted_constructs].
Qed.

(** The run of the sample script: the root makes a child, which sleeps until a timer fires. *)
Lemma run_leaves_nothing_witness :
  ∃ o', task_run true (λ resume ptr, scripted true idle plain_fault (code_of resume ptr)) plain_fault
      (λ _, cleanup_fault) (scripted true idle plain_fault root_maker) (replicate 6 turn_inputs) fresh_owner
    = Ok (Done (Some None), o') ∧ world o' = [77] ∧ emptied o'.
Proof.
  pose proof (run_leaves_nothing true idle plain_fault (λ _, cleanup_fault) code_of root_maker
    (replicate 6 turn_inputs) fresh_owner (λ re ptr o _ _ _ _, code_of_contract re ptr o)
    (λ o _, root_maker_contract o)) as Hw.
  assert (uncancelled (replicate 6 turn_inputs)) as Hin by by repeat constructor.
  specialize (Hw Hin fresh_owner_ok).
  unfold wp in Hw. destruct (task_run _ _ _ _ _ _ _) as [[r o']| | |] eqn:E; [|vm_compute in E; discriminate..].
  assert (r = Done (Some None) ∧ world o' = [77]) as [-> Ew] by (vm_compute in E; injection E as <- <-; by split).
  exists o'. split; [reflexivity|]. split; [exact Ew|exact Hw].
Defined.

(** C31: Retiring a child removes exactly its subtree. [loom_rt_task_drain], which ends whatever
    the subtree waits for and runs its cleanups, leaves every other task as it was, up to the
    children and observations that are gone, and the queue, the root and the task being
    resumed untouched. *)
Theorem drain_removes_subtree {P W} `{Wait.Poller P} `{Native W} linux x suppress (o : Owner P W) :
  inv ∅ o →
  wp (loom_rt_task_drain linux x suppress) (λ r o', ∀ f, r = Done f →
    (∀ y, live (tasks (core o')) y ↔ live (tasks (core o)) y ∧ ¬ subtree (tasks (core o)) x y) ∧
    (∀ y t', tasks (core o') !! y = Some t' → ∃ t, tasks (core o) !! y = Some t ∧
       t' = set_children (children t') (set_observation (observation t') t)) ∧
    ready (core o') = ready (core o) ∧ root (core o') = root (core o) ∧ current (core o') = current (core o)) o.
Proof.
  intros Hi. eapply wp_mono; [by apply drain_keeps|]. intros r o' [_ Hf] f Hr. destruct (Hf f Hr) as [_ S Hgone Hkept].
  split; [|split; [apply S|split; [apply S|split; apply S]]]. intros y. split.
  - intros Hy. split; [by eapply survives_live|by apply Hkept].
  - intros [Hy Hn]. destruct (decide (is_Some (tasks (core o') !! y))) as [|Hno]; [done|]. by destruct Hn; apply Hgone.
Qed.

Lemma drain_removes_subtree_witness :
  ∃ o', loom_rt_task_drain true 2 0 watching = Ok (Done None, o') ∧ ¬ live (tasks (core o')) 3 ∧ live (tasks (core o')) 4.
Proof.
  pose proof (drain_removes_subtree true 2 0 watching watching_inv) as Hw. unfold wp in Hw.
  destruct (loom_rt_task_drain true 2 0 watching) as [[r o']| | |] eqn:E; [|vm_compute in E; discriminate..].
  assert (r = Done None) as -> by (vm_compute in E; congruence).
  destruct (Hw None eq_refl) as (Hl & _). exists o'. split; [done|]. rewrite !Hl. split.
  - intros [_ Hn]. apply Hn. right. by apply above_parent.
  - split; [vm_compute; by eexists|]. intros [E4|Ha]; [done|].
    inversion Ha as [Hp|p Hp Ha']; [vm_compute in Hp; discriminate|].
    assert (p = 1) as -> by (vm_compute in Hp; congruence).
    inversion Ha' as [Hq|q Hq _]; vm_compute in Hq; discriminate.
Defined.

(** C32: What the reactor announces reaches the tasks that wait for it, and nobody else. When
    [poll] returns a number, either nothing was pending and nothing has happened, or the wait of
    the reactor has returned it: exactly the notifications that this wait has left in the
    reactor are taken from it, every task whose pending registration is among them is queued
    behind the others with that notification, in particular its events and its error code, and
    no other task has changed. Other threads may register, complete and revoke while the
    reactor waits, but not cancel. *)
Theorem poll_delivers {P W} `{Wait.Poller P} `{Native W} linux now turns (o : Owner P W) :
  inv ∅ o → current (core o) = None → WaitFacts.cancelled_in turns = [] →
  wp (poll linux now turns) (λ res o', ∃ r, res = Done r ∧ inv ∅ o' ∧
    match r with
    | Wait.Success (Some n) =>
        (pending (core o) = 0 ∧ n = 0 ∧ o' = o) ∨
        ∃ r', pending (core o) ≠ 0 ∧
          Wait.wait linux now false turns (reactor o) = Ok (Wait.Success (Some n), r') ∧
          lengthN (Wait.ready (Wait.core r')) = n ∧ Wait.ready (Wait.core (reactor o')) = [] ∧
          delivered (Wait.ready (Wait.core r')) (core o) (core o')
    | _ => core o' = core o
    end) o.
Proof.
  intros Hi Hc Hn. eapply wp_mono; [by apply poll_wp|]. intros res o' (r & -> & ? & _ & _ & ?). by exists r.
Qed.

Lemma poll_delivers_witness :
  ∃ o', poll true 10 [] sleeping = Ok (Done (Wait.Success (Some 1)), o') ∧ ready (core o') = [1] ∧
    ∃ r' : Wait.Reactor WaitSamples.Scripted, Wait.ready (Wait.core r') = [Wait.mkReady (mkId 0 1) 1 Wait.TIMER 0] ∧
      delivered (Wait.ready (Wait.core r')) (core sleeping) (core o').
Proof.
  pose proof (poll_delivers true 10 [] sleeping sleeping_inv eq_refl eq_refl) as Hw. unfold wp in Hw.
  destruct (poll true 10 [] sleeping) as [[r o']| | |] eqn:E; [|vm_compute in E; discriminate..].
  destruct Hw as (r' & -> & Hi & Hd). exists o'.
  assert (r' = Wait.Success (Some 1) ∧ ready (core o') = [1]) as [-> Hr]
    by (vm_compute in E; injection E as <- <-; by split).
  split; [done|]. split; [exact Hr|]. destruct Hd as [(_ & ? & _)|(r2 & _ & Hwait & _ & _ & Hd)]; [done|].
  exists r2. split; [|exact Hd]. vm_compute in Hwait. injection Hwait as <-. reflexivity.
Defined.

(** The next result is that of the observed child that ended first. *)
Theorem selection_in_order {P W} `{Wait.Poller P} `{Native W} (o : Owner P W) :
  inv ∅ o →
  wp loom_rt_task_next_result (λ r o', ∀ index, r = Done index →
    ∃ p x k, current (core o) = Some p ∧ mems (tasks (core o)) p !! x = Some index ∧
      first_ended (tasks (core o)) p x k ∧ mems (tasks (core o')) p = delete x (mems (tasks (core o)) p) ∧
      wt (tasks (core o')) x = None) o.
Proof. apply next_result_selects. Qed.

Lemma selection_in_order_witness :
  ∃ o', loom_rt_task_next_result selecting = Ok (Done 6%Z, o') ∧
    ∃ x k, first_ended (tasks (core selecting)) 1 x k ∧ wt (tasks (core o')) x = None.
Proof.
  pose proof (selection_in_order selecting selecting_inv) as Hw. unfold wp in Hw.
  destruct (loom_rt_task_next_result selecting) as [[r o']| | |] eqn:E; [|vm_compute in E; discriminate..].
  assert (r = Done 6%Z) as -> by (vm_compute in E; congruence).
  destruct (Hw 6%Z eq_refl) as (p & x & k & Hp & _ & Hf & _ & Hx). exists o'. split; [done|]. exists x, k.
  assert (p = 1) as -> by (vm_compute in Hp; congruence). by split.
Defined.

(** C33: A consumer gets a result once, and with it every child that the result names: they
    become children of the consumer, the finished task keeps none, and a second extraction is
    refused. A refused extraction changes nothing, and the fault of a failed child can be
    asked for again. *)
Theorem result_hands_over {P W} `{Wait.Poller P} `{Native W} x (o : Owner P W) :
  inv ∅ o →
  wp (loom_rt_task_result x) (λ r o', consumed x r o o' ∧
    ∀ ptr, r = Done (inl ptr) → loom_rt_task_result x o' = Ok (Invalid "task result already extracted", o')) o.
Proof.
  intros Hi. eapply wp_mono; [by apply result_wp|]. intros r o' [Hi' Hc]. split; [done|]. intros ptr ->.
  destruct Hc as (p & Hp & Hx & _ & _ & Hex & Hk & Hw & Hp' & Hdone & Hpar). apply (result_twice x p); try done.
  rewrite Hpar. case_decide; [|done]. congruence.
Qed.

Lemma result_hands_over_witness :
  ∃ o' ptr, loom_rt_task_result 2 consuming = Ok (Done (inl ptr), o') ∧
    par (tasks (core consuming)) 3 = Some 2 ∧ par (tasks (core o')) 3 = Some 1 ∧
    loom_rt_task_result 2 o' = Ok (Invalid "task result already extracted", o').
Proof.
  pose proof (result_hands_over 2 consuming consuming_inv) as Hw. unfold wp in Hw.
  destruct (loom_rt_task_result 2 consuming) as [[r o']| | |] eqn:E; [|vm_compute in E; discriminate..].
  assert (r = Done (inl 20)) as -> by (vm_compute in E; congruence).
  destruct Hw as [(p & Hp & _ & _ & _ & _ & _ & _ & _ & _ & Hpar) Htwice]. exists o', 20.
  split; [done|]. split; [by vm_compute|]. split; [|by apply (Htwice 20)].
  rewrite Hpar, decide_True by (vm_compute; left). vm_compute in Hp. congruence.
Defined.

(** C34: The cleanups of a task run from the youngest to the oldest, each of them once, on the
    pointer that the task's frame has by then, however the collections in between move it;
    all of them run, whatever faults, and the first fault is the one that is kept. *)
Theorem cleanups_in_order {P W} `{Wait.Poller P} `{Native W} x t first (o : Owner P W) :
  inv ∅ o → tasks (core o) !! x = Some t →
  drain_cleanups x first o =
    let '(first, s, w) := run_in_order t (rev (cleanups t)) (roots o) (world o) first in
    Ok (Done first, mkOwner (with_tasks (<[x := set_cleanups [] t]> (tasks (core o))) (core o)) s (reactor o) w).
Proof. intros Hi. apply drain_in_order, Hi. Qed.

Lemma cleanups_in_order_witness :
  ∃ t o', tasks (core armed) !! 1 = Some t ∧ drain_cleanups 1 None armed = Ok (Done (Some cleanup_fault), o') ∧
    world o' = [8; 9; 7].
Proof.
  destruct (tasks (core armed) !! 1) as [t|] eqn:Ht; [|vm_compute in Ht; discriminate].
  pose proof (cleanups_in_order 1 t None armed armed_inv Ht) as Hw. exists t.
  assert (t = task_of 1 armed) as -> by (unfold task_of; by rewrite Ht).
  eexists. split; [done|]. rewrite Hw. split; vm_compute; reflexivity.
Defined.

(** A cancelled child has ended when [loom_rt_task_cancel_begin] returns, whether it was
    cancelled, had ended before, or faulted in its cleanups, and the call returns to the
    canceller; a parallel job of the child must not have completed in the meantime. *)
Theorem cancelled_child_ends {P W} `{Wait.Poller P} `{Native W} linux generated fault_of x (o : Owner P W) :
  inv ∅ o → incomplete o x →
  wp (loom_rt_task_cancel_begin linux generated fault_of x)
    (λ r o', inv ∅ o' ∧ current (core o') = current (core o) ∧ root (core o') = root (core o) ∧
       (r = Done tt → is_Some (ord (tasks (core o')) x))) o.
Proof. apply cancel_begin_keeps. Qed.

Lemma cancelled_child_ends_witness :
  ∃ o', loom_rt_task_cancel_begin true idle plain_fault 2 watching = Ok (Done tt, o') ∧
    is_Some (ord (tasks (core o')) 2).
Proof.
  assert (incomplete watching 2) as Hin by by intros t job _ _.
  pose proof (cancelled_child_ends true idle plain_fault 2 watching watching_inv Hin) as Hw. unfold wp in Hw.
  destruct (loom_rt_task_cancel_begin true idle plain_fault 2 watching) as [[r o']| | |] eqn:E;
    [|vm_compute in E; discriminate..].
  assert (r = Done tt) as -> by (vm_compute in E; congruence). exists o'. split; [done|]. by apply Hw.
Defined.

(** The test of [loom_rt_task_release] for an awaited child is passed by an observed one:
    a child whose completion has been announced but not yet taken can be released, and the
    next selection of its parent then looks for a task that is gone. The first contract of
    [allowed] is therefore needed. *)
Theorem release_of_observed :
  ∃ o', perform true idle plain_fault (Release 2) announced = Ok (Done tt, o') ∧
    perform true idle plain_fault NextResult o' = Panic "no entry found for key".
Proof. eexists. split; vm_compute; reflexivity. Qed.
