(* ===== verification/Nodes.v ===== *)
(** Addresses of the nodes of a checked program. The passes of [compiler/src/codegen/] key
    their tables by [*const checked::Expr], [*const checked::Stmt] and [*const
    checked::Block]: a node is told from an equal node elsewhere by its place. Here the place
    of a node is its path from the root of the tree, the last step first. The root is a body, or
    a function with its guards. *)

From S2P Require Import Prelude Model.

Inductive Node : Type :=
  | NExpr (e : C.Expr)
  | NBlock (b : C.Block)
  | NStmt (s : C.Stmt)
  | NFunction (f : C.Function).

(** The steps from a node to one of its descendants, the last one first. *)
Abbreviation Path := (list nat).

Definition arm_body '(C.mkArm _ _ _ body) : C.Block := body.

Definition expr_children (e : C.Expr) : list Node :=
  match C.e_kind e with
  | C.Int _ | C.Float _ | C.Bool _ | C.Text _ | C.Bytes _ | C.Local _ | C.FunctionRef _ => []
  | C.Coerce value | C.UnaryOp _ value | C.Closure _ value | C.DynBox _ value
  | C.Field value _ => [NExpr value]
  | C.BinaryOp _ lhs rhs => [NExpr lhs; NExpr rhs]
  | C.PrimitiveOp _ values | C.Call _ values | C.ListNew values | C.Variant _ values =>
      NExpr <$> values
  | C.IndirectCall receiver values | C.DynCall receiver _ values =>
      NExpr receiver :: (NExpr <$> values)
  | C.RecordNew fields | C.FrameNew fields => NExpr <$> fields.*2
  | C.FrameStore frame _ value => [NExpr frame; NExpr value]
  | C.Match value arms => NExpr value :: (NBlock <$> (arm_body <$> arms))
  | C.BlockExpr body => [NBlock body]
  | C.If condition then_body else_body =>
      NExpr condition :: NBlock then_body ::
      match else_body with Some body => [NBlock body] | None => [] end
  end.

Definition stmt_children (s : C.Stmt) : list Node :=
  let '(C.mkStmt kind _) := s in
  match kind with
  | C.Let _ value | C.Assign _ value | C.Return (Some value) | C.Assert value _
  | C.Discard value | C.ExprStmt value => [NExpr value]
  | C.While condition body => [NExpr condition; NBlock body]
  | C.Defer _ body | C.Cleanup _ body => [NBlock body]
  | C.Return None | C.Break | C.Continue => []
  end.

Definition block_children (b : C.Block) : list Node :=
  let '(C.mkBlock statements tail _) := b in
  (NStmt <$> statements) ++ match tail with Some e => [NExpr e] | None => [] end.

Definition children (n : Node) : list Node :=
  match n with
  | NExpr e => expr_children e
  | NBlock b => block_children b
  | NStmt s => stmt_children s
  | NFunction f => (NExpr <$> C.f_requires f) ++ [NBlock (C.f_body f)]
  end.

(** The node at an address. *)
Fixpoint node_at (root : Node) (p : Path) : option Node :=
  match p with
  | [] => Some root
  | i :: p => n ← node_at root p; children n !! i
  end.

(** ** Induction over trees *)

Section induction.
Context (P : Node → Prop) (step : ∀ n, Forall P (children n) → P n).

Lemma Forall_nodes {A} (f : A → Node) l : (∀ x, P (f x)) → Forall P (f <$> l).
Proof using Type. intros Hf. induction l; constructor; auto. Qed.

Fixpoint expr_all (e : C.Expr) : P (NExpr e)
with block_all (b : C.Block) : P (NBlock b)
with stmt_all (s : C.Stmt) : P (NStmt s).
Proof using step.
  - apply step. destruct e as [kind ty span]. destruct kind; simpl; unfold expr_children; simpl;
      repeat constructor; try apply expr_all; try apply block_all.
    all: try (match goal with
              | l : list C.Expr |- _ => induction l; constructor; auto
              | l : list (_ * _) |- _ => induction l as [|[??]]; constructor; auto
              | l : list C.MatchArm |- _ => induction l as [|[????]]; constructor; auto
              end).
    + destruct else_body; repeat constructor. apply block_all.
  - apply step. destruct b as [statements tail falls]. simpl. apply Forall_app. split.
    + clear - stmt_all. induction statements; constructor; auto.
    + destruct tail; repeat constructor. apply expr_all.
  - apply step. destruct s as [kind span]. destruct kind; simpl; repeat constructor;
      try apply expr_all; try apply block_all.
    destruct value; repeat constructor. apply expr_all.
Qed.

Lemma node_ind n : P n.
Proof using step.
  destruct n; [apply expr_all|apply block_all|apply stmt_all|apply step].
  apply Forall_app. split; [|repeat constructor; apply block_all].
  apply Forall_nodes. apply expr_all.
Qed.
End induction.

(** ** Addresses *)

Lemma node_at_child root p n i c :
  node_at root p = Some n → children n !! i = Some c → node_at root (i :: p) = Some c.
Proof. intros Hp Hi. simpl. by rewrite Hp. Qed.

(** [p] lies below [q], or is [q]. *)
Abbreviation below q p := (q `suffix_of` p).

Lemma below_child i (p : Path) : below p (i :: p).
Proof. by exists [i]. Qed.

Lemma below_step i (p q : Path) : below (i :: p) q → below p q ∧ p ≠ q.
Proof.
  intros [k ->]. split; [exists (k ++ [i]); by rewrite <-(assoc_L (++))|].
  intros H%(f_equal length). rewrite length_app in H. simpl in H. lia.
Qed.

Lemma below_siblings i j (p q : Path) : below (i :: p) q → below (j :: p) q → i = j.
Proof.
  intros [k1 ->] [k2 H]. apply app_inj_2 in H as [_ [= ?]]; [done|reflexivity].
Qed.

Lemma below_trans (p q r : Path) : below p q → below q r → below p r.
Proof. intros. by etrans. Qed.
