(* ===== verification/Flow.v ===== *)
(** Control flow of structured code, and what liveness means on it. A [flow] says in which
    order code may read and write variables and pass program points; its runs are the traces
    that leave it normally, by a break, by a continue or by a return. A variable is demanded
    before a flow when some run may read it before writing it, or may leave with it wanted by
    what comes next. The lemmas compute the demanded sets of compound flows from those of
    their parts, and show that facts recorded at points survive composition. *)

From S2P Require Import Prelude.

Abbreviation Live := (gset N).

Inductive exit : Type := Normal | Broke | Continued | Returned.

#[export] Instance exit_eq_dec : EqDecision exit.
Proof. solve_decision. Defined.

Section flow.
Context {Point : Type}.

Inductive event : Type :=
  | Used (x : N)
  | Defined (x : N)
  | Passed (p : Point).

Inductive flow : Type :=
  | Nop
  | Use (x : N)
  | Def (x : N)
  | At (p : Point)
  | Seq (a b : flow)
  | Alt (a b : flow)
  | Loop (test body : flow)
  | Leave (e : exit).

Inductive run : flow → list event → exit → Prop :=
  | run_nop : run Nop [] Normal
  | run_use x : run (Use x) [Used x] Normal
  | run_def x : run (Def x) [Defined x] Normal
  | run_at p : run (At p) [Passed p] Normal
  | run_seq a b t1 t2 e : run a t1 Normal → run b t2 e → run (Seq a b) (t1 ++ t2) e
  | run_seq_exit a b t e : run a t e → e ≠ Normal → run (Seq a b) t e
  | run_alt_l a b t e : run a t e → run (Alt a b) t e
  | run_alt_r a b t e : run b t e → run (Alt a b) t e
  | run_loop_exit c b t e : run c t e → e ≠ Normal → run (Loop c b) t e
  | run_loop_done c b t : run c t Normal → run (Loop c b) t Normal
  | run_loop_break c b t1 t2 :
      run c t1 Normal → run b t2 Broke → run (Loop c b) (t1 ++ t2) Normal
  | run_loop_return c b t1 t2 :
      run c t1 Normal → run b t2 Returned → run (Loop c b) (t1 ++ t2) Returned
  | run_loop_next c b t1 t2 t3 e e' :
      run c t1 Normal → run b t2 e → e = Normal ∨ e = Continued → run (Loop c b) t3 e' →
      run (Loop c b) (t1 ++ t2 ++ t3) e'
  | run_leave e : run (Leave e) [] e.

(** [x] is read in [t] before it is written, or it is not written and [wanted] holds. *)
Fixpoint exposes (x : N) (t : list event) (wanted : Prop) : Prop :=
  match t with
  | [] => wanted
  | Used y :: t => x = y ∨ exposes x t wanted
  | Defined y :: t => x ≠ y ∧ exposes x t wanted
  | Passed _ :: t => exposes x t wanted
  end.

Definition demanded (x : N) (f : flow) (ex : exit → Live) : Prop :=
  ∃ t e, run f t e ∧ exposes x t (x ∈ ex e).

(** [L] is what is live before [f], when [ex] is what is live at each exit. *)
Definition is_live (f : flow) (ex : exit → Live) (L : Live) : Prop :=
  ∀ x, x ∈ L ↔ demanded x f ex.

(** What is live at the exits: at the end, and, inside a loop, after and before the loop. *)
Definition exits (live : Live) (targets : option (Live * Live)) (e : exit) : Live :=
  match e with
  | Normal => live
  | Broke => match targets with Some (after, _) => after | None => ∅ end
  | Continued => match targets with Some (_, head) => head | None => ∅ end
  | Returned => ∅
  end.

(** No variable that [bad] excludes at a point is demanded from there on. *)
Definition safe (bad : Point → N → Prop) (f : flow) (ex : exit → Live) : Prop :=
  ∀ t1 p t2 e x, run f (t1 ++ Passed p :: t2) e → bad p x → ¬ exposes x t2 (x ∈ ex e).

Fixpoint uses (f : flow) : Live :=
  match f with
  | Use x => {[x]}
  | Seq a b | Alt a b | Loop a b => uses a ∪ uses b
  | Nop | Def _ | At _ | Leave _ => ∅
  end.

Fixpoint points (f : flow) : list Point :=
  match f with
  | At p => [p]
  | Seq a b | Alt a b | Loop a b => points a ++ points b
  | Nop | Use _ | Def _ | Leave _ => []
  end.

(** ** Traces *)

Lemma exposes_app x t1 t2 W : exposes x (t1 ++ t2) W ↔ exposes x t1 (exposes x t2 W).
Proof. induction t1 as [|[] t1 IH]; simpl; rewrite ?IH; done. Qed.


Lemma exposes_mono x t (W W' : Prop) : (W → W') → exposes x t W → exposes x t W'.
Proof. induction t as [|[] t IH]; simpl; tauto. Qed.

Lemma exposes_inv x t W : exposes x t W → Used x ∈ t ∨ W.
Proof.
  induction t as [|[y|y|p] t IH]; simpl; [auto|intros [->|H]|intros [_ H]|intros H];
    [left; left| | |]; destruct (IH H); auto; left; by right.
Qed.

Lemma split_trace (t1 t2 a b : list event) y :
  t1 ++ y :: t2 = a ++ b →
  (∃ k, a = t1 ++ y :: k ∧ t2 = k ++ b) ∨ (∃ k, t1 = a ++ k ∧ b = k ++ y :: t2).
Proof.
  revert a. induction t1 as [|z t1 IH]; intros [|c a] H; simpl in *.
  - right. exists []. done.
  - left. injection H as -> ->. by exists a.
  - right. exists (z :: t1). by subst.
  - injection H as -> H. destruct (IH a H) as [(k & -> & ->)|(k & -> & ->)]; eauto.
Qed.

Lemma run_uses f t e x : run f t e → Used x ∈ t → x ∈ uses f.
Proof. induction 1; simpl; set_solver. Qed.

Lemma run_points f t e p : run f t e → Passed p ∈ t → p ∈ points f.
Proof. induction 1; simpl; set_solver. Qed.

Lemma demanded_mono f (ex ex' : exit → Live) x :
  (∀ e, ex e ⊆ ex' e) → demanded x f ex → demanded x f ex'.
Proof.
  intros Hex (t & e & Hr & Hx). exists t, e. split; [done|].
  revert Hx. apply exposes_mono. apply Hex.
Qed.

Lemma demanded_bound f ex (U : Live) x :
  uses f ⊆ U → (∀ e, ex e ⊆ U) → demanded x f ex → x ∈ U.
Proof.
  intros Hu Hex (t & e & Hr & [Hx|Hx]%exposes_inv); [|by apply (Hex e)].
  apply Hu. by eapply run_uses.
Qed.

Lemma safe_weaken bad bad' f ex :
  safe bad' f ex → (∀ p x, p ∈ points f → bad p x → bad' p x) → safe bad f ex.
Proof.
  intros Hs Hb t1 p t2 e x Hr Hx. eapply Hs; [done|]. apply Hb; [|done].
  eapply run_points; [done|]. set_solver.
Qed.

Lemma exits_mono L L' tg e : L ⊆ L' → exits L tg e ⊆ exits L' tg e.
Proof. by destruct e. Qed.

Lemma exits_bound L (U : Live) tg e :
  L ⊆ U → (∀ A H, tg = Some (A, H) → A ⊆ U ∧ H ⊆ U) → exits L tg e ⊆ U.
Proof. destruct e, tg as [[A' H']|]; simpl; intros HL Ht; set_solver. Qed.

Lemma run_exists f : ∃ t e, run f t e.
Proof.
  induction f as [| | | |a (t1 & e1 & Ha) b (t2 & e2 & Hb)|a (t & e & Ha) b _
    |c (t & e & Hc) b _|]; eauto using run.
  - destruct (decide (e1 = Normal)) as [->|]; eauto using run.
  - destruct (decide (e = Normal)) as [->|]; eauto using run.
Qed.

(** ** Composition *)

(** [L] is live before [f], and no point of [f] excludes a variable that is live there. *)
Definition sound (bad : Point → N → Prop) (f : flow) (ex : exit → Live) (L : Live) : Prop :=
  is_live f ex L ∧ safe bad f ex.

Section compose.
Context (bad : Point → N → Prop).
#[local] Hint Constructors run : core.
Implicit Types (L M A H B : Live) (tg : option (Live * Live)).

#[local] Ltac no_point := intros [|? [|??]] ???? Hrun; inversion Hrun.

Lemma sound_nop L tg : sound bad Nop (exits L tg) L.
Proof.
  split; [|no_point]. intros x. split.
  - intros. exists [], Normal. by split; [apply run_nop|].
  - intros (t & e & Hr & Hx). by inversion Hr; subst.
Qed.

Lemma sound_leave e L tg : sound bad (Leave e) (exits L tg) (exits L tg e).
Proof.
  split; [|no_point]. intros x. split.
  - intros. exists [], e. by split; [apply run_leave|].
  - intros (t & e' & Hr & Hx). by inversion Hr; subst.
Qed.

Lemma sound_use x L tg : sound bad (Use x) (exits L tg) ({[x]} ∪ L).
Proof.
  split; [|no_point]. intros y. rewrite elem_of_union, elem_of_singleton. split.
  - intros. exists [Used x], Normal. by split; [apply run_use|].
  - intros (t & e & Hr & Hx). by inversion Hr; subst.
Qed.

Lemma sound_def x L tg : sound bad (Def x) (exits L tg) (L ∖ {[x]}).
Proof.
  split; [|no_point]. intros y. rewrite elem_of_difference, elem_of_singleton. split.
  - intros []. exists [Defined x], Normal. by split; [apply run_def|].
  - intros (t & e & Hr & Hx). inversion Hr; subst. by destruct Hx.
Qed.

Lemma sound_at p L tg : (∀ x, bad p x → x ∉ L) → sound bad (At p) (exits L tg) L.
Proof.
  intros Hp. split.
  - intros y. split.
    + intros. exists [Passed p], Normal. by split; [apply run_at|].
    + intros (t & e & Hr & Hx). by inversion Hr; subst.
  - intros [|? [|??]] q t2 e1 x Hr Hx; inversion Hr; subst. by apply Hp.
Qed.

(** What is wanted after a part of a run is wanted after all of it. *)
Lemma run_wanted b t L M tg x :
  (x ∈ M → demanded x b (exits L tg)) → exposes x t (x ∈ M) →
  ∃ t2 e, run b t2 e ∧ exposes x (t ++ t2) (x ∈ exits L tg e).
Proof.
  intros Hb Hx. destruct (decide (x ∈ M)) as [Hm|Hm].
  - apply Hb in Hm as (t2 & e & Hr & Hx2).
    exists t2, e. split; [done|]. apply exposes_app. revert Hx. by apply exposes_mono.
  - destruct (run_exists b) as (t2 & e & Hr). exists t2, e. split; [done|].
    apply exposes_app. revert Hx. by apply exposes_mono.
Qed.

Lemma live_wanted b L M tg t e x :
  is_live b (exits L tg) M → run b t e → exposes x t (x ∈ exits L tg e) → x ∈ M.
Proof. intros Hb ??. apply Hb. by exists t, e. Qed.

Lemma run_seq_inv a b t e :
  run (Seq a b) t e →
  (∃ t1 t2, t = t1 ++ t2 ∧ run a t1 Normal ∧ run b t2 e) ∨ (run a t e ∧ e ≠ Normal).
Proof. inversion 1; subst; eauto 10. Qed.

Lemma sound_seq a b L M K tg :
  sound bad b (exits L tg) M → sound bad a (exits M tg) K →
  sound bad (Seq a b) (exits L tg) K.
Proof.
  intros [Hb Sb] [Ha Sa]. split.
  - intros x. rewrite (Ha x). split.
    + intros (t & e1 & Hr & Hx). destruct (decide (e1 = Normal)) as [->|Hne].
      * destruct (run_wanted b t L M tg x (proj1 (Hb x)) Hx) as (t2 & e & Hr2 & Hx2).
        exists (t ++ t2), e. eauto using run.
      * exists t, e1. split; [by apply run_seq_exit|]. by destruct e1.
    + intros (t & e1 & Hr & Hx). inversion Hr; subst.
      * eexists _, Normal. split; [done|]. apply exposes_app in Hx. revert Hx.
        apply exposes_mono. by eapply live_wanted.
      * exists t, e1. split; [done|]. by destruct e1.
  - intros t1 p t2 e x [(ta & tb & Ht & Hra & Hrb)|[Hra Hne]]%run_seq_inv Hp Hx.
    + apply split_trace in Ht as [(k & -> & ->)|(k & -> & ->)].
      * eapply Sa; [exact Hra|exact Hp|]. apply exposes_app in Hx. revert Hx.
        apply exposes_mono. by eapply live_wanted.
      * by eapply Sb.
    + eapply Sa; [exact Hra|exact Hp|]. by destruct e.
Qed.

Lemma sound_alt a b L M K tg :
  sound bad a (exits L tg) M → sound bad b (exits L tg) K →
  sound bad (Alt a b) (exits L tg) (M ∪ K).
Proof.
  intros [Ha Sa] [Hb Sb]. split.
  - intros x. rewrite elem_of_union, (Ha x), (Hb x). split.
    + intros [(t & e & ? & ?)|(t & e & ? & ?)]; exists t, e; eauto using run.
    + intros (t & e & Hr & Hx). inversion Hr; subst; [left|right]; by exists t, e.
  - intros t1 p t2 e x Hr. inversion Hr; subst; eauto.
Qed.

(** *** Loops *)

Section loop.
Context (c b : flow) (L H B : Live) (tg : option (Live * Live)).
Context (Hb : is_live b (exits H (Some (L, H))) B) (Hc : is_live c (exits (L ∪ B) tg) H).

Lemma loop_wanted t e x : run (Loop c b) t e → exposes x t (x ∈ exits L tg e) → x ∈ H.
Proof using Hb Hc.
  intros Hr. remember (Loop c b) as f eqn:Hf. revert Hf.
  induction Hr as [| | | | | | | |c' b' t e Hrc Hne|c' b' t Hrc|c' b' t1 t2 Hrc _ Hrb _
    |c' b' t1 t2 Hrc _ Hrb _|c' b' t1 t2 t3 e e' Hrc _ Hrb _ He _ IH|]; intros Hf Hx;
    inversion Hf; subst; apply Hc.
  - exists t, e. split; [done|]. by destruct e.
  - exists t, Normal. split; [done|]. revert Hx. apply exposes_mono. set_solver.
  - exists t1, Normal. split; [done|]. apply exposes_app in Hx. revert Hx. apply exposes_mono.
    intros Hx. apply elem_of_union_r, Hb. by exists t2, Broke.
  - exists t1, Normal. split; [done|]. apply exposes_app in Hx. revert Hx. apply exposes_mono.
    intros Hx. apply elem_of_union_r, Hb. by exists t2, Returned.
  - exists t1, Normal. split; [done|]. apply exposes_app in Hx. revert Hx. apply exposes_mono.
    intros Hx. apply elem_of_union_r, Hb. exists t2, e. split; [done|].
    apply exposes_app in Hx. revert Hx. apply exposes_mono. intros Hx%IH; [|done].
    by destruct He as [-> | ->].
Qed.

Lemma loop_safe :
  safe bad c (exits (L ∪ B) tg) → safe bad b (exits H (Some (L, H))) →
  safe bad (Loop c b) (exits L tg).
Proof using Hb Hc.
  intros Sc Sb t1 p t2 e x Hr Hp. remember (Loop c b) as f eqn:Hf.
  remember (t1 ++ Passed p :: t2) as t eqn:Ht. revert t1 Hf Ht.
  assert (Htest : ∀ t1 k r (W : Prop), run c (t1 ++ Passed p :: k) Normal →
            (exposes x r W → x ∈ L ∪ B) → ¬ exposes x (k ++ r) W).
  { intros t1 k r W Hrc Hw Hx%exposes_app. eapply Sc; [exact Hrc|exact Hp|].
    revert Hx. by apply exposes_mono. }
  assert (Hbody : ∀ t e, run b t e → exposes x t (x ∈ exits H (Some (L, H)) e) → x ∈ L ∪ B).
  { intros t' e' ??. apply elem_of_union_r, Hb. by exists t', e'. }
  induction Hr as [| | | | | | | |c' b' t e Hrc Hne|c' b' t Hrc|c' b' ta tb Hrc _ Hrb _
    |c' b' ta tb Hrc _ Hrb _|c' b' ta tb tc e e' Hrc _ Hrb _ He Hrl IH|]; intros ts Hf Ht;
    inversion Hf; subst.
  - intros Hx. eapply Sc; [exact Hrc|exact Hp|]. by destruct e.
  - rewrite <-(app_nil_r t2). eapply Htest; [done|]. simpl. set_solver.
  - symmetry in Ht. apply split_trace in Ht as [(k & -> & ->)|(k & -> & ->)].
    + eapply Htest; [done|]. by apply (Hbody _ Broke).
    + by eapply (Sb _ _ _ Broke).
  - symmetry in Ht. apply split_trace in Ht as [(k & -> & ->)|(k & -> & ->)].
    + eapply Htest; [done|]. by apply (Hbody _ Returned).
    + by eapply (Sb _ _ _ Returned).
  - assert (Hnext : exposes x tc (x ∈ exits L tg e') → x ∈ exits H (Some (L, H)) e).
    { intros Hx. assert (x ∈ H) by (by eapply loop_wanted). by destruct He as [-> | ->]. }
    symmetry in Ht. apply split_trace in Ht as [(k & -> & ->)|(k & -> & Ht)].
    + eapply Htest; [done|]. intros Hx%exposes_app. eapply Hbody; [done|].
      revert Hx. by apply exposes_mono.
    + symmetry in Ht. apply split_trace in Ht as [(k' & -> & ->)|(k' & -> & ->)].
      * intros Hx%exposes_app. eapply Sb; [exact Hrb|exact Hp|]. revert Hx.
        by apply exposes_mono.
      * by apply (IH k').
Qed.
End loop.

(** One more round keeps the head below what the loop demands. *)
Lemma loop_grows c b L H0 H1 B tg :
  (∀ x, x ∈ H0 → demanded x (Loop c b) (exits L tg)) →
  is_live b (exits H0 (Some (L, H0))) B → is_live c (exits (L ∪ B) tg) H1 →
  ∀ x, x ∈ H1 → demanded x (Loop c b) (exits L tg).
Proof.
  intros Hh Hb Hc x Hx. apply Hc in Hx as (t & e & Hr & Hx).
  destruct (decide (e = Normal)) as [->|Hne].
  2: { exists t, e. split; [by apply run_loop_exit|]. by destruct e. }
  simpl in Hx. destruct (decide (x ∈ B)) as [HB|HB].
  2: { exists t, Normal. split; [by apply run_loop_done|]. revert Hx. apply exposes_mono.
       set_solver. }
  apply Hb in HB as (t2 & e & Hr2 & Hx2).
  assert (Happ : ∀ t' W, exposes x t' W → exposes x (t ++ t') W).
  { intros t' W HW. apply exposes_app. revert Hx. by apply exposes_mono. }
  assert (Hnext : e = Normal ∨ e = Continued → demanded x (Loop c b) (exits L tg)).
  { intros He. destruct (run_wanted (Loop c b) t2 L H0 tg x) as (t3 & e' & Hr3 & Hx3).
    - apply Hh.
    - revert Hx2. apply exposes_mono. by destruct He as [-> | ->].
    - exists (t ++ t2 ++ t3), e'. eauto using run_loop_next. }
  destruct e; auto.
  - exists (t ++ t2), Normal. eauto using run_loop_break.
  - exists (t ++ t2), Returned. eauto using run_loop_return.
Qed.

Lemma sound_loop c b L H B tg :
  sound bad b (exits H (Some (L, H))) B → sound bad c (exits (L ∪ B) tg) H →
  (∀ x, x ∈ H → demanded x (Loop c b) (exits L tg)) →
  sound bad (Loop c b) (exits L tg) H.
Proof.
  intros [Hb Sb] [Hc Sc] Hleast. split; [|by eapply loop_safe].
  intros x. split; [apply Hleast|]. intros (t & e & ? & ?). by eapply loop_wanted.
Qed.
End compose.
End flow.
