(* ===== verification/Effects.v ===== *)
(** Passes with a state that may panic: the monad of the code generator's analyses, and the
    weakest preconditions that their proofs compute. *)

From S2P Require Import Prelude.

Definition St (S A : Type) : Type := S → outcome (A * S).

#[export] Instance St_ret {S} : MRet (St S) := λ A a s, Ok (a, s).
#[export] Instance St_bind {S} : MBind (St S) := λ A B k m s, '(a, s) ← m s; k a s.

Definition stuck {S A} : St S A := λ _, Stuck.

(** The steps of a state: reading it, changing it, and what may panic. *)
Definition reads {S A} (f : S → A) : St S A := λ s, Ok (f s, s).
Definition edits {S} (f : S → S) : St S () := λ s, Ok (tt, f s).
Definition lift {S A} (m : outcome A) : St S A := λ s, a ← m; Ok (a, s).

Section wp.
Context {S : Type}.

Definition wp {A} (m : St S A) (s : S) (Q : A → S → Prop) : Prop :=
  match m s with Ok (a, s') => Q a s' | _ => False end.

Lemma st_ret {A} (a : A) s (Q : A → S → Prop) : Q a s → wp (mret a) s Q.
Proof. done. Qed.

Lemma st_bind {A B} (m : St S A) (k : A → St S B) s Q :
  wp m s (λ a s', wp (k a) s' Q) → wp (m ≫= k) s Q.
Proof. unfold wp, mbind, St_bind. destruct (m s) as [[a s']| | |]; simpl; done. Qed.

Lemma st_mono {A} (m : St S A) s (Q Q' : A → S → Prop) :
  wp m s Q → (∀ a s', Q a s' → Q' a s') → wp m s Q'.
Proof. unfold wp. destruct (m s) as [[a s']| | |]; simpl; auto. Qed.

Lemma st_reads {A} (f : S → A) s (Q : A → S → Prop) : Q (f s) s → wp (reads f) s Q.
Proof. done. Qed.

Lemma st_edits (f : S → S) s (Q : () → S → Prop) : Q tt (f s) → wp (edits f) s Q.
Proof. done. Qed.

Lemma st_lift {A} (a : A) m s (Q : A → S → Prop) : m = Ok a → Q a s → wp (lift m) s Q.
Proof. unfold wp, lift. by intros ->. Qed.

Lemma st_result {A} (m : St S A) s Q : wp m s Q → ∃ a s', m s = Ok (a, s') ∧ Q a s'.
Proof. unfold wp. destruct (m s) as [[a s']| | |]; naive_solver. Qed.
End wp.
