(* ===== verification/RootSlots.v ===== *)
(** The analyses of [compiler/src/codegen/llvm_gc.rs] that decide where collections can
    happen and which values must be rooted: the walk over the tree of a function, the
    allocating runtime operations, the functions that may allocate, the memoised query
    [may_allocate], and the managed types. Emission of LLVM code is not modelled. *)

From S2P Require Import Prelude Model Nodes.

(** ** Walks *)

(** The nodes that [walk_expression] and [walk_block] hand to their two callbacks, in
    order: [NExpr e] for [expression(e)], [NStmt s] for [statement(s)]. *)
Definition walk_list {A} (walk : A → list Node) : list A → list Node :=
  fix go l := match l with [] => [] | x :: l => walk x ++ go l end.

Fixpoint walk_expression (e : C.Expr) : list Node :=
  NExpr e ::
  match e with C.mkExpr kind _ _ =>
  match kind with
  | C.UnaryOp _ value | C.Field value _ | C.Closure _ value | C.Coerce value
  | C.DynBox _ value => walk_expression value
  | C.DynCall receiver _ arguments | C.IndirectCall receiver arguments =>
      walk_expression receiver ++ walk_list walk_expression arguments
  | C.BinaryOp _ l r => walk_expression l ++ walk_expression r
  | C.Call _ args | C.PrimitiveOp _ args | C.ListNew args | C.Variant _ args =>
      walk_list walk_expression args
  | C.RecordNew fields | C.FrameNew fields =>
      walk_list (λ '(_, field), walk_expression field) fields
  | C.FrameStore frame _ value => walk_expression frame ++ walk_expression value
  | C.BlockExpr body => walk_block body
  | C.Match value arms =>
      walk_expression value ++ walk_list (λ '(C.mkArm _ _ _ body), walk_block body) arms
  | C.If condition then_body else_body =>
      walk_expression condition ++ walk_block then_body ++
      match else_body with Some body => walk_block body | None => [] end
  | C.Int _ | C.Float _ | C.Bool _ | C.Text _ | C.Bytes _ | C.Local _ | C.FunctionRef _ => []
  end end
with walk_statement (s : C.Stmt) : list Node :=
  NStmt s ::
  match s with C.mkStmt kind _ =>
  match kind with
  | C.Let _ value | C.Assign _ value | C.Assert value _ | C.Discard value
  | C.ExprStmt value | C.Return (Some value) => walk_expression value
  | C.While condition body => walk_expression condition ++ walk_block body
  | C.Defer _ body | C.Cleanup _ body => walk_block body
  | C.Return None | C.Break | C.Continue => []
  end end
with walk_block (b : C.Block) : list Node :=
  match b with C.mkBlock statements tail _ =>
  walk_list walk_statement statements ++
  match tail with Some e => walk_expression e | None => [] end end.

Definition only_expressions (l : list Node) : list C.Expr :=
  omap (λ n, match n with NExpr e => Some e | _ => None end) l.

Definition expressions (e : C.Expr) : list C.Expr := only_expressions (walk_expression e).
Definition block_expressions (b : C.Block) : list C.Expr := only_expressions (walk_block b).

(** ** Operations that may allocate *)

Definition allocates (operation : Primitive.Primitive) : bool :=
  match operation with
  | Primitive.FloatFormat | Primitive.TaskRun | Primitive.TaskBytesResult
  | Primitive.TaskProcessCaptureResult | Primitive.TextConcat | Primitive.TextSlice
  | Primitive.ArgText | Primitive.ProcessCaptureConfigured
  | Primitive.ProcessCaptureInputConfigured | Primitive.EnvGet | Primitive.BytesNew
  | Primitive.BytesPush | Primitive.BytesTextCopy | Primitive.ListNew
  | Primitive.ListNewCapacity | Primitive.ListPush | Primitive.ListPop | Primitive.CleanupEach
  | Primitive.Read | Primitive.SocketRead | Primitive.SocketReceiveFrom
  | Primitive.SocketAddress | Primitive.TlsRead | Primitive.TlsOutput | Primitive.TlsProtocol
  | Primitive.TlsPeerCertificate | Primitive.DirectoryRead | Primitive.PathCanonical
  | Primitive.MutexLock => true
  | Primitive.TaskWorkerResult | Primitive.TaskWaitWorker => true
  | Primitive.TaskFailure | Primitive.TaskNextTerminalFailure | Primitive.TaskCancelBegin
  | Primitive.TaskDrain | Primitive.FaultText => true
  | Primitive.FloatFromInt | Primitive.TaskCreate | Primitive.TaskAdopt | Primitive.TaskReturn
  | Primitive.TaskCleanupPush | Primitive.TaskCleanupPop | Primitive.TaskResultCleanupPush
  | Primitive.TaskWaitTimer | Primitive.TaskWaitSocket | Primitive.TaskWaitTls
  | Primitive.TaskWaitFileRead | Primitive.TaskWaitResolve | Primitive.TaskWaitProcessCapture
  | Primitive.TaskWaitFileWrite | Primitive.TaskWaitFileWriteBytes | Primitive.TaskFileResult
  | Primitive.TaskWaitFileOpen | Primitive.TaskWaitFileClose | Primitive.TaskFileOpenResult
  | Primitive.FileAbort | Primitive.MonotonicNs | Primitive.TaskAwait | Primitive.TaskObserve
  | Primitive.TaskWaitNext | Primitive.TaskNextResult | Primitive.TaskNextTerminalResult
  | Primitive.TaskNextTerminalIndex | Primitive.TaskStatus | Primitive.TaskResult
  | Primitive.TaskResultCase | Primitive.TaskRelease | Primitive.FloatToInt
  | Primitive.FloatParse | Primitive.TextLen | Primitive.UnicodeAlphabetic
  | Primitive.UnicodeAlphanumeric | Primitive.UnicodeWhitespace | Primitive.ArgCount
  | Primitive.ProcessRun | Primitive.ProcessRunInput | Primitive.Exit | Primitive.TextByte
  | Primitive.TextEqual | Primitive.BytesLen | Primitive.BytesGet | Primitive.BytesSet
  | Primitive.BytesUtf8 | Primitive.ListLen | Primitive.ListGet | Primitive.ListSet
  | Primitive.ListRetainRange | Primitive.Open | Primitive.Create | Primitive.Write
  | Primitive.WriteBytes | Primitive.Close | Primitive.SocketListen
  | Primitive.SocketBindDatagram | Primitive.SocketConnectDatagram
  | Primitive.SocketDatagramBroadcast | Primitive.SocketMembershipV4
  | Primitive.SocketMembershipV6 | Primitive.SocketMulticastV4 | Primitive.SocketMulticastV6
  | Primitive.SocketConnect | Primitive.SocketConnectStatus | Primitive.SocketAccept
  | Primitive.SocketWriteBytes | Primitive.SocketSendTo | Primitive.SocketSendDatagram
  | Primitive.SocketClose | Primitive.SocketLocalPort | Primitive.SocketSetNodelay
  | Primitive.SocketSetKeepalive | Primitive.SocketBuffer | Primitive.SocketShutdownWrite
  | Primitive.SocketAbort | Primitive.TlsClient | Primitive.TlsServer | Primitive.TlsReceive
  | Primitive.TlsWrite | Primitive.TlsStatus | Primitive.TlsShutdown | Primitive.TlsRelease
  | Primitive.TlsGeneration | Primitive.TlsNotify | Primitive.PathKind
  | Primitive.DirectoryCreate | Primitive.PathRename | Primitive.FileRemove
  | Primitive.DirectoryRemove | Primitive.PathEntryKind | Primitive.MutexUnlock => false
  end.

(** ** Functions that may allocate *)

#[export] Instance Ty_countable : Countable Ty.Ty.
Proof.
  refine (inj_countable'
    (λ t, match t with
          | Ty.Int => (0, 0) | Ty.Float => (1, 0) | Ty.Bool => (2, 0) | Ty.Text => (3, 0)
          | Ty.Bytes => (4, 0) | Ty.List i => (5, i) | Ty.Dyn i => (6, i)
          | Ty.Function i => (7, i) | Ty.Unit => (8, 0) | Ty.Data i => (9, i)
          | Ty.Param i => (10, i)
          end)
    (λ '(k, i), if k =? 0 then Ty.Int else if k =? 1 then Ty.Float else if k =? 2 then Ty.Bool
      else if k =? 3 then Ty.Text else if k =? 4 then Ty.Bytes else if k =? 5 then Ty.List i
      else if k =? 6 then Ty.Dyn i else if k =? 7 then Ty.Function i else if k =? 8 then Ty.Unit
      else if k =? 9 then Ty.Data i else Ty.Param i) _).
  by intros [].
Defined.

(** What the first pass over the reachable functions gathers: functions with an allocating
    operation of their own, direct calls, function references by type, and the types of
    indirect callees. *)
Record Calls := mkCalls {
  allocating : gset N;
  calls : gmap N (list N);
  references : gmap Ty.Ty (gset N);
  indirect : list (N * Ty.Ty);
}.

Definition no_calls : Calls := mkCalls ∅ ∅ ∅ [].

(** [map.entry(key).or_default()], updated by [f]. *)
Definition at_entry `{Countable K} {A} (default : A) (f : A → A) (key : K) (m : gmap K A)
    : gmap K A :=
  <[key := f (match m !! key with Some v => v | None => default end)]> m.

Definition inspect (library : bool) (id : N) (value : C.Expr) (c : Calls) : Calls :=
  let insert c := mkCalls ({[id]} ∪ allocating c) (calls c) (references c) (indirect c) in
  match C.e_kind value with
  | C.DynBox _ _ | C.DynCall _ _ _ | C.ListNew _ | C.Bytes _ | C.FrameNew _ => insert c
  | C.FunctionRef target | C.Closure target _ =>
      mkCalls (allocating c) (calls c)
        (at_entry ∅ (λ s, {[target]} ∪ s) (C.e_ty value) (references c)) (indirect c)
  | C.IndirectCall callee _ =>
      if library then insert c
      else mkCalls (allocating c) (calls c) (references c)
             (indirect c ++ [(id, C.e_ty callee)])
  | C.PrimitiveOp operation _ => if allocates operation then insert c else c
  | C.Call target _ =>
      mkCalls (allocating c) (at_entry [] (λ l, l ++ [target]) id (calls c))
        (references c) (indirect c)
  | _ => c
  end.

(** The expressions of a function: its guards, then its body. *)
Definition function_expressions (f : C.Function) : list C.Expr :=
  concat (expressions <$> C.f_requires f) ++ block_expressions (C.f_body f).

Fixpoint gather (program : C.Program) (library : bool) (reachable : list N) (c : Calls)
    : outcome Calls :=
  match reachable with
  | [] => Ok c
  | id :: rest =>
      source ← index_or_panic (C.functions program) id;
      gather program library rest
        (foldl (λ c value, inspect library id value c) c (function_expressions source))
  end.

(** An indirect call may reach every reachable reference of its callee's type. *)
Definition link (references : gmap Ty.Ty (gset N)) (calls : gmap N (list N))
    (indirect : list (N * Ty.Ty)) : gmap N (list N) :=
  foldl (λ calls '(caller, ty),
    match references !! ty with
    | Some targets => at_entry [] (λ l, l ++ elements targets) caller calls
    | None => calls
    end) calls indirect.

(** One pass over [calls], in the order of [iterate]. *)
Definition spread_round (iterate : list (N * list N)) (allocating : gset N) : gset N :=
  foldl (λ allocating '(id, targets),
    if existsb (λ target, bool_decide (target ∈ allocating)) targets
    then {[id]} ∪ allocating else allocating) allocating iterate.

Fixpoint spread (fuel : nat) (iterate : list (N * list N)) (allocating : gset N)
    : outcome (gset N) :=
  match fuel with
  | O => Stuck
  | S fuel =>
      let next := spread_round iterate allocating in
      if bool_decide (size next = size allocating) then Ok next
      else spread fuel iterate next
  end.

(** [iterate] is the order in which the hash map is walked; a pass that adds nothing ends
    the loop, and every other pass adds a key, so that one pass more than there are keys
    is enough. *)
Definition allocating_functions (iterate : gmap N (list N) → list (N * list N))
    (program : C.Program) (reachable : list N) (library : bool) : outcome (gset N) :=
  c ← gather program library reachable no_calls;
  let calls := link (references c) (calls c) (indirect c) in
  spread (S (length (iterate calls))) (iterate calls) (allocating c).

(** ** Managed types *)

(** Whether values of a type hold references that the collector follows. The recursion
    follows inline fields only, so that it ends on every table that [Layout] accepts. *)
Definition any_of {A} (test : A → outcome bool) : list A → outcome bool :=
  fix go l :=
    match l with
    | [] => Ok false
    | x :: l => r ← test x; if (r : bool) then Ok true else go l
    end.

Fixpoint managed (fuel : nat) (types : list C.Data) (ty : Ty.Ty) : outcome bool :=
  match ty with
  | Ty.Text | Ty.Bytes | Ty.List _ | Ty.Dyn _ | Ty.Function _ => Ok true
  | Ty.Data id =>
      match fuel with
      | O => Stuck
      | S fuel =>
          d ← index_or_panic types id;
          match C.d_kind d with
          | C.Task _ => Ok false
          | C.Frame _ => Ok true
          | C.Refined base => managed fuel types base
          | C.Record fields => any_of (managed fuel types) fields.*2
          | C.Enum variants =>
              any_of (managed fuel types) (concat variants.*2)
          end
      end
  | Ty.Int | Ty.Float | Ty.Bool | Ty.Unit | Ty.Param _ => Ok false
  end.

(** ** Temporary slots *)

(** [TemporarySlots]; expressions and statements are keyed by their addresses. *)
Record TemporarySlots := mkTemporarySlots {
  ts_shared : bool;
  ts_types : list Ty.Ty;
  ts_pools : gmap Ty.Ty (list N);
  ts_used : gmap Ty.Ty N;
  ts_expressions : gmap Path N;
  ts_retired : gmap Path (list N);
  ts_exits : gmap Path (list N);
  ts_loop_bases : list (gmap Ty.Ty N);
  ts_allocation : gmap Path bool;
}.

Definition allocation_query (shared : bool) : TemporarySlots :=
  mkTemporarySlots shared [] ∅ ∅ ∅ ∅ ∅ [] ∅.

Definition set_allocation (a : gmap Path bool) (s : TemporarySlots) : TemporarySlots :=
  mkTemporarySlots (ts_shared s) (ts_types s) (ts_pools s) (ts_used s) (ts_expressions s)
    (ts_retired s) (ts_exits s) (ts_loop_bases s) a.

(** Computations that use the table of answers of [may_allocate]. *)
Definition Query (A : Type) : Type := TemporarySlots → A * TemporarySlots.

#[export] Instance query_ret : MRet Query := λ A a s, (a, s).
#[export] Instance query_bind : MBind Query := λ A B k m s, let '(a, s) := m s in k a s.

(** [a || b] *)
Definition orelse (a b : Query bool) : Query bool :=
  r ← a; if (r : bool) then mret true else b.

(** [iter().any(visit)]; the items are the children of a node from step [i] on. *)
Definition any_item {A} (visit : nat → A → Query bool) : nat → list A → Query bool :=
  fix go i l := match l with [] => mret false | x :: l => orelse (visit i x) (go (S i) l) end.

(** The answer for a node is computed once. *)
Definition memoised (p : Path) (answer : Query bool) : Query bool := λ s,
  if ts_shared s then (true, s)
  else match ts_allocation s !! p with
       | Some result => (result, s)
       | None =>
           let '(result, s) := answer s in
           (result, set_allocation (<[p := result]> (ts_allocation s)) s)
       end.

Section query.
Context (allocating : gset N).

Fixpoint may_allocate (e : C.Expr) (p : Path) {struct e} : Query bool :=
  memoised p
    match e with C.mkExpr kind _ _ =>
    match kind with
    | C.DynBox _ _ | C.DynCall _ _ _ | C.ListNew _ | C.Bytes _ | C.IndirectCall _ _ => mret true
    | C.UnaryOp _ value | C.Field value _ | C.Closure _ value | C.Coerce value =>
        may_allocate value (0%nat :: p)
    | C.BinaryOp _ l r => orelse (may_allocate l (0%nat :: p)) (may_allocate r (1%nat :: p))
    | C.Call target args =>
        orelse (mret (bool_decide (target ∈ allocating)))
          (any_item (λ i arg, may_allocate arg (i :: p)) 0 args)
    | C.PrimitiveOp operation args =>
        orelse (mret (allocates operation))
          (any_item (λ i arg, may_allocate arg (i :: p)) 0 args)
    | C.Variant _ fields => any_item (λ i field, may_allocate field (i :: p)) 0 fields
    | C.FrameNew _ => mret true
    | C.FrameStore frame _ value =>
        orelse (may_allocate frame (0%nat :: p)) (may_allocate value (1%nat :: p))
    | C.RecordNew fields =>
        any_item (λ i '(_, field), may_allocate field (i :: p)) 0 fields
    | C.BlockExpr body => block_allocates body (0%nat :: p)
    | C.Match value arms =>
        orelse (may_allocate value (0%nat :: p))
          (any_item (λ i '(C.mkArm _ _ _ body), block_allocates body (i :: p)) 1 arms)
    | C.If condition then_body else_body =>
        orelse (may_allocate condition (0%nat :: p))
          (orelse (block_allocates then_body (1%nat :: p))
             match else_body with
             | Some body => block_allocates body (2%nat :: p)
             | None => mret false
             end)
    | C.Int _ | C.Float _ | C.Bool _ | C.Text _ | C.Local _ | C.FunctionRef _ => mret false
    end end
with statement_allocates (s : C.Stmt) (p : Path) {struct s} : Query bool :=
  match s with C.mkStmt kind _ =>
  match kind with
  | C.Let _ value | C.Assign _ value | C.Assert value _ | C.Discard value
  | C.ExprStmt value | C.Return (Some value) => may_allocate value (0%nat :: p)
  | C.While condition body =>
      orelse (may_allocate condition (0%nat :: p)) (block_allocates body (1%nat :: p))
  | C.Cleanup _ body => block_allocates body (0%nat :: p)
  | C.Defer _ _ | C.Return None | C.Break | C.Continue => mret false
  end end
with block_allocates (b : C.Block) (p : Path) {struct b} : Query bool :=
  match b with C.mkBlock statements tail _ =>
  orelse (any_item (λ i s, statement_allocates s (i :: p)) 0 statements)
    match tail with
    | Some e => may_allocate e (length statements :: p)
    | None => mret false
    end end.
End query.
