(* ===== verification/RootFacts.v ===== *)
(** The memoised allocation query of [RootSlots] answers whether a node contains an
    allocating operation that evaluating the node can reach, whatever was asked before. In a
    program with a shared heap every expression counts as one. *)

From S2P Require Import Prelude Model Nodes RootSlots.

(** ** What the query asks *)

Section collects.
Context (is_shared : bool) (allocating : gset N).

(** Nodes that allocate by themselves. *)
Definition allocates_here (n : Node) : bool :=
  match n with
  | NExpr e =>
      is_shared ||
      match C.e_kind e with
      | C.DynBox _ _ | C.DynCall _ _ _ | C.ListNew _ | C.Bytes _ | C.IndirectCall _ _
      | C.FrameNew _ => true
      | C.Call target _ => bool_decide (target ∈ allocating)
      | C.PrimitiveOp operation _ => allocates operation
      | _ => false
      end
  | _ => false
  end.

(** The body of a registration runs elsewhere. *)
Definition is_defer (n : Node) : bool :=
  match n with NStmt (C.mkStmt (C.Defer _ _) _) => true | _ => false end.

Inductive collects : Node → Prop :=
  | collects_here n : allocates_here n = true → collects n
  | collects_child n c : is_defer n = false → c ∈ children n → collects c → collects n.

Lemma collects_iff n :
  collects n ↔ allocates_here n = true ∨ (is_defer n = false ∧ ∃ c, c ∈ children n ∧ collects c).
Proof.
  split; [inversion 1; subst; eauto|]. intros [|(? & c & ? & ?)]; [by constructor|].
  by apply (collects_child _ c).
Qed.

(** ** The memo *)

Context (root : Node).

Definition memo_ok (s : TemporarySlots) : Prop :=
  ∀ q r, ts_allocation s !! q = Some r → ∃ n, node_at root q = Some n ∧ (r = true ↔ collects n).

(** [m] answers [P], and changes nothing but the memo. *)
Definition asks (P : Prop) (m : Query bool) : Prop :=
  ∀ s, ts_shared s = is_shared → memo_ok s →
  ((m s).1 = true ↔ P) ∧ memo_ok (m s).2 ∧ ∃ a, (m s).2 = set_allocation a s.

Lemma set_allocation_self s : set_allocation (ts_allocation s) s = s.
Proof. by destruct s. Qed.

Lemma asks_ret (b : bool) P : (b = true ↔ P) → asks P (mret b).
Proof. intros Hb s Hs Hm. split_and!; [done..|]. exists (ts_allocation s). by rewrite set_allocation_self. Qed.

Lemma asks_iff P P' m : (P ↔ P') → asks P m → asks P' m.
Proof. intros HP Hm s Hs Hok. rewrite <-HP. by apply Hm. Qed.

Lemma asks_orelse P P' m m' : asks P m → asks P' m' → asks (P ∨ P') (orelse m m').
Proof.
  intros Hm Hm' s Hs Hok. destruct (Hm s Hs Hok) as (Hr & Hok1 & a & Ha).
  unfold orelse, mbind, query_bind. destruct (m s) as [r s1] eqn:E. simpl in *. subst s1.
  destruct r; simpl.
  - split_and!; [split; [intros _; left; tauto|done]|done|eauto].
  - destruct (Hm' (set_allocation a s) Hs Hok1) as (Hr' & Hok2 & a' & Ha').
    split_and!; [rewrite Hr'; naive_solver|done|]. exists a'. by rewrite Ha'.
Qed.

Lemma asks_any {A} (P : A → Prop) (visit : nat → A → Query bool) i l :
  (∀ k x, l !! k = Some x → asks (P x) (visit (i + k)%nat x)) →
  asks (∃ x, x ∈ l ∧ P x) (any_item visit i l).
Proof.
  revert i. induction l as [|x l IH]; intros i Hv.
  - apply asks_ret. split; [done|]. by intros (? & ?%elem_of_nil & _).
  - apply (asks_iff (P x ∨ ∃ y, y ∈ l ∧ P y)).
    + split; [intros [?|(y & ? & ?)]; [exists x|exists y]; split; set_solver|].
      intros (y & [->|Hy]%elem_of_cons & HP); eauto.
    + simpl. apply asks_orelse.
      * specialize (Hv 0%nat x eq_refl). by rewrite Nat.add_0_r in Hv.
      * apply IH. intros k y Hy. specialize (Hv (S k) y Hy).
        by rewrite Nat.add_succ_r in Hv.
Qed.

Lemma asks_memoised p e m :
  node_at root p = Some (NExpr e) → (is_shared = false → asks (collects (NExpr e)) m) →
  asks (collects (NExpr e)) (memoised p m).
Proof.
  intros Hp Hm s Hs Hok. unfold memoised. rewrite Hs. destruct is_shared eqn:Esh.
  { split_and!; [split; [intros _; by apply collects_here; simpl; rewrite Esh|done]|done|].
    exists (ts_allocation s). by rewrite set_allocation_self. }
  destruct (ts_allocation s !! p) as [r|] eqn:E.
  - destruct (Hok p r E) as (n' & Hn' & Hr). simplify_eq.
    split_and!; [done..|]. exists (ts_allocation s). by rewrite set_allocation_self.
  - destruct (Hm eq_refl s) as (Hr & Hok1 & a & Ha); [by rewrite Esh|done|].
    destruct (m s) as [r s1] eqn:Es.
    simpl in *. subst s1. split_and!; [done| |by eexists].
    intros q r'. simpl. intros [[<- <-]|[_ Hq]]%lookup_insert_Some; [eauto|]. by apply Hok1.
Qed.

Definition node_answers (n : Node) : Prop :=
  ∀ p, node_at root p = Some n →
  match n with
  | NExpr e => asks (collects n) (may_allocate allocating e p)
  | NBlock b => asks (collects n) (block_allocates allocating b p)
  | NStmt s => asks (collects n) (statement_allocates allocating s p)
  | NFunction _ => True
  end.

Lemma child_answers n p i c :
  Forall node_answers (children n) → node_at root p = Some n → children n !! i = Some c →
  match c with
  | NExpr e => asks (collects c) (may_allocate allocating e (i :: p))
  | NBlock b => asks (collects c) (block_allocates allocating b (i :: p))
  | NStmt s => asks (collects c) (statement_allocates allocating s (i :: p))
  | NFunction _ => True
  end.
Proof.
  intros HF Hp Hi. eapply Forall_lookup_1 in HF; [|done]. apply HF.
  by apply (node_at_child _ _ n).
Qed.

(** A list of children from step [i] on. *)
Lemma asks_children {A} (f : A → Node) visit n p i l :
  Forall node_answers (children n) → node_at root p = Some n →
  (∀ k x, l !! k = Some x → children n !! (i + k)%nat = Some (f x)) →
  (∀ j x, visit j x = match f x with
                      | NExpr e => may_allocate allocating e (j :: p)
                      | NBlock b => block_allocates allocating b (j :: p)
                      | NStmt s => statement_allocates allocating s (j :: p)
                      | NFunction _ => visit j x
                      end) →
  (∀ x g, f x ≠ NFunction g) →
  asks (∃ c, c ∈ f <$> l ∧ collects c) (any_item visit i l).
Proof.
  intros HF Hp Hl Hv Hf. apply (asks_iff (∃ x, x ∈ l ∧ collects (f x))).
  - setoid_rewrite list_elem_of_fmap. split; [|naive_solver].
    intros (x & ? & ?). exists (f x). eauto.
  - apply asks_any. intros k x Hx. rewrite Hv.
    specialize (child_answers n p _ _ HF Hp (Hl k x Hx)). specialize (Hf x).
    destruct (f x); [done..|]. by destruct (Hf f0).
Qed.

Lemma exists_nil : (∃ c, c ∈ @nil Node ∧ collects c) ↔ False.
Proof. split; [|done]. by intros (? & ?%elem_of_nil & _). Qed.

Lemma exists_cons n l :
  (∃ c, c ∈ n :: l ∧ collects c) ↔ collects n ∨ ∃ c, c ∈ l ∧ collects c.
Proof. set_solver. Qed.

Lemma exists_app l k :
  (∃ c, c ∈ l ++ k ∧ collects c) ↔
  (∃ c, c ∈ l ∧ collects c) ∨ ∃ c, c ∈ k ∧ collects c.
Proof. set_solver. Qed.

Lemma or_nothing (P : Prop) : (P ∨ False) ↔ P.
Proof. tauto. Qed.

Lemma or_here (P : Prop) : (false = true ∨ (false = false ∧ P)) ↔ P.
Proof. naive_solver. Qed.

Lemma or_there (b : bool) (P : Prop) : (b = true ∨ (false = false ∧ P)) ↔ (b = true ∨ P).
Proof. naive_solver. Qed.

Lemma or_elsewhere (P : Prop) : (false = true ∨ (true = false ∧ P)) ↔ False.
Proof. naive_solver. Qed.

#[local] Ltac here :=
  apply asks_ret; split; [intros _; apply collects_here; simpl; by rewrite ?orb_true_r|done].
#[local] Ltac open_children :=
  eapply asks_iff; [symmetry; apply collects_iff|];
  cbn -[allocates bool_decide]; unfold expr_children; cbn -[allocates bool_decide];
  try match goal with H : is_shared = false |- _ => rewrite H end; cbn -[allocates bool_decide];
  rewrite <-?list_fmap_compose;
  eapply asks_iff; [symmetry; first [exact (or_here _) | exact (or_there _ _)
                                | exact (or_elsewhere _)]|];
  eapply asks_iff; [symmetry; rewrite ?exists_app, ?exists_cons, ?exists_nil; reflexivity|].
#[local] Ltac item k x Hx := simpl; unfold expr_children; simpl;
  rewrite <-?list_fmap_compose, ?list_lookup_fmap; rewrite ?Hx; reflexivity.
#[local] Ltac ask HF Hp Hc :=
  first
    [ apply asks_orelse; [ask HF Hp Hc|ask HF Hp Hc]
    | eapply asks_iff; [symmetry; exact (or_nothing _)|]; ask HF Hp Hc
    | apply asks_ret; clear; intuition congruence
    | match goal with |- asks (collects ?c) (_ (?i :: _)) => apply (Hc i c); reflexivity end
    | match goal with |- asks (∃ c, c ∈ ?f <$> ?l ∧ _) (any_item _ ?i _) =>
        eapply (asks_children f);
          [exact HF|exact Hp|intros k x Hx; item k x Hx|by intros j []|by intros []]
      end
    | idtac ].

Lemma expression_answers e : Forall node_answers (children (NExpr e)) → node_answers (NExpr e).
Proof.
  intros HF p Hp. pose proof (λ i c, child_answers (NExpr e) p i c HF Hp) as Hc.
  destruct e as [kind ty span].
  destruct kind as [| | | | | | | | | | | | | | | | | | | | | | | |? ? [else_body|]];
    cbn [may_allocate]; (apply asks_memoised; [exact Hp|intros Hsh]);
    first [here|open_children; ask HF Hp Hc].
Qed.

Lemma statement_answers s : Forall node_answers (children (NStmt s)) → node_answers (NStmt s).
Proof.
  intros HF p Hp. pose proof (λ i c, child_answers (NStmt s) p i c HF Hp) as Hc.
  destruct s as [kind span].
  destruct kind as [| |[value|]| | | | | | | |]; cbn [statement_allocates]; open_children; ask HF Hp Hc.
Qed.

Lemma block_answers b : Forall node_answers (children (NBlock b)) → node_answers (NBlock b).
Proof.
  intros HF p Hp. pose proof (λ i c, child_answers (NBlock b) p i c HF Hp) as Hc.
  destruct b as [statements tail falls]. cbn [block_allocates]. open_children.
  apply asks_orelse.
  - eapply (asks_children NStmt); [exact HF|exact Hp| |done|done].
    intros k x Hx. simpl. apply lookup_app_l_Some. by rewrite list_lookup_fmap, Hx.
  - destruct tail as [tail|];
      (eapply asks_iff; [symmetry; rewrite ?exists_cons, exists_nil; reflexivity|]); ask HF Hp Hc.
    apply (Hc _ (NExpr tail)). simpl. by rewrite list_lookup_middle by by rewrite length_fmap.
Qed.

Lemma all_answer n : node_answers n.
Proof.
  induction n as [[e|b|s|f] HF] using node_ind;
    [by apply expression_answers|by apply block_answers|by apply statement_answers|done].
Qed.
End collects.

(** ** The answer as a function *)

Section collecting.
Context (is_shared : bool) (allocating : gset N).

Definition collecting (e : C.Expr) : bool :=
  (may_allocate allocating e [] (allocation_query is_shared)).1.

Lemma collecting_spec e : collecting e = true ↔ collects is_shared allocating (NExpr e).
Proof.
  apply (all_answer is_shared allocating (NExpr e) (NExpr e) []); [done..|].
  intros q r. simpl. by rewrite lookup_empty.
Qed.
End collecting.

(** The functions that may allocate: [allocating_functions] of [RootSlots] computes the least
    set that holds every function with an allocating operation of its own and every caller of
    a function in the set. *)

(** ** What a function does by itself *)

(** Operations that allocate whatever they call. In a library an unknown callee may. *)
Definition allocates_alone (library : bool) (value : C.Expr) : bool :=
  match C.e_kind value with
  | C.DynBox _ _ | C.DynCall _ _ _ | C.ListNew _ | C.Bytes _ | C.FrameNew _ => true
  | C.IndirectCall _ _ => library
  | C.PrimitiveOp operation _ => allocates operation
  | _ => false
  end.

Definition calls_directly (value : C.Expr) (target : N) : Prop :=
  ∃ args, C.e_kind value = C.Call target args.

Definition refers (value : C.Expr) (target : N) : Prop :=
  C.e_kind value = C.FunctionRef target ∨ ∃ env, C.e_kind value = C.Closure target env.

Definition calls_through (library : bool) (value : C.Expr) (ty : Ty.Ty) : Prop :=
  library = false ∧ ∃ callee args, C.e_kind value = C.IndirectCall callee args ∧ C.e_ty callee = ty.

(** ** The content of the gathered tables *)

Definition has_call (calls : gmap N (list N)) (caller target : N) : Prop :=
  ∃ l, calls !! caller = Some l ∧ target ∈ l.

Definition has_reference (references : gmap Ty.Ty (gset N)) (ty : Ty.Ty) (target : N) : Prop :=
  ∃ s, references !! ty = Some s ∧ target ∈ s.

Lemma has_call_at_entry f caller calls c t (new : N → Prop) :
  (∀ l x, x ∈ f l ↔ x ∈ l ∨ new x) →
  has_call (at_entry [] f caller calls) c t ↔ has_call calls c t ∨ (c = caller ∧ new t).
Proof.
  intros Hf. unfold has_call, at_entry. destruct (decide (c = caller)) as [->|Hne].
  - rewrite lookup_insert_eq. split.
    + intros (l & [= <-] & Ht%Hf). destruct (calls !! caller) as [l|]; [|set_solver].
      destruct Ht; [left; eauto|by right].
    + intros [(l & Hl & Ht)|[_ Ht]].
      * rewrite Hl. eexists. split; [done|]. apply Hf. by left.
      * eexists. split; [done|]. apply Hf. by right.
  - rewrite lookup_insert_ne by done. naive_solver.
Qed.

Lemma has_reference_at_entry target ty references ty' t :
  has_reference (at_entry ∅ (λ s, {[target]} ∪ s) ty references) ty' t ↔
  has_reference references ty' t ∨ (ty' = ty ∧ t = target).
Proof.
  unfold has_reference, at_entry. destruct (decide (ty' = ty)) as [->|Hne].
  - rewrite lookup_insert_eq. split.
    + intros (l & [= <-] & [->%elem_of_singleton|Ht]%elem_of_union); [by right|].
      destruct (references !! ty) as [s|]; [left; eauto|set_solver].
    + intros [(s & Hs & Ht)|[_ ->]].
      * rewrite Hs. eexists. split; [done|]. set_solver.
      * eexists. split; [done|]. set_solver.
  - rewrite lookup_insert_ne by done. naive_solver.
Qed.

Section inspect.
Context (library : bool) (id : N) (value : C.Expr) (c : Calls).
#[local] Abbreviation c' := (inspect library id value c).

#[local] Ltac by_kind :=
  unfold inspect, allocates_alone, calls_directly, refers, calls_through;
  destruct value as [kind vty vspan]; destruct kind; simpl; repeat case_match; simpl.

Lemma inspect_allocating x :
  x ∈ allocating c' ↔ x ∈ allocating c ∨ (x = id ∧ allocates_alone library value = true).
Proof. by_kind; set_solver. Qed.

Lemma inspect_calls caller target :
  has_call (calls c') caller target ↔
  has_call (calls c) caller target ∨ (caller = id ∧ calls_directly value target).
Proof.
  by_kind; try naive_solver.
  rewrite (has_call_at_entry _ _ _ _ _ (λ x, x = function)) by set_solver. naive_solver.
Qed.

Lemma inspect_references ty target :
  has_reference (references c') ty target ↔
  has_reference (references c) ty target ∨ (ty = C.e_ty value ∧ refers value target).
Proof.
  by_kind; try naive_solver; rewrite has_reference_at_entry; naive_solver.
Qed.

Lemma inspect_indirect caller ty :
  (caller, ty) ∈ indirect c' ↔
  (caller, ty) ∈ indirect c ∨ (caller = id ∧ calls_through library value ty).
Proof.
  by_kind; try naive_solver.
  rewrite elem_of_app, list_elem_of_singleton. naive_solver.
Qed.
End inspect.

(** A property that each inspected expression can only add to. *)
Lemma foldl_adds {A B} (f : A → B → A) (P : A → Prop) (Q : B → Prop) l a :
  (∀ a b, P (f a b) ↔ P a ∨ Q b) → P (foldl f a l) ↔ P a ∨ ∃ b, b ∈ l ∧ Q b.
Proof.
  intros Hf. revert a. induction l as [|b l IH]; intros a; simpl; [set_solver|].
  rewrite IH, Hf. setoid_rewrite elem_of_cons. naive_solver.
Qed.

(** ** Gathering *)

Section program.
Context (program : C.Program) (library : bool).

(** [value] is an expression of the function [id]. *)
Definition in_function (id : N) (value : C.Expr) : Prop :=
  ∃ source, get (C.functions program) id = Some source ∧ value ∈ function_expressions source.

Context (reachable : list N).
Context (Hreachable : ∀ id, id ∈ reachable → id < lengthN (C.functions program)).

Lemma gather_adds (P : Calls → Prop) (Q : N → C.Expr → Prop) c :
  (∀ c id value, P (inspect library id value c) ↔ P c ∨ Q id value) →
  ∃ c', gather program library reachable c = Ok c' ∧
    (P c' ↔ P c ∨ ∃ id value, id ∈ reachable ∧ in_function id value ∧ Q id value).
Proof using Hreachable.
  intros HP. revert c. induction reachable as [|id rest IH]; intros c; simpl.
  { exists c. split; [done|]. set_solver. }
  destruct (get_lt (C.functions program) id) as [source Hsource]; [set_solver|].
  unfold index_or_panic. rewrite Hsource. simpl.
  destruct (IH ltac:(set_solver) (foldl (λ c value, inspect library id value c) c
              (function_expressions source))) as (c' & Hc' & HPc').
  exists c'. split; [done|]. rewrite HPc'.
  rewrite (foldl_adds _ P (Q id)) by done. split.
  - intros [[?|(v & ? & ?)]|(id' & v & ? & ? & ?)]; [by left|right|right].
    + exists id, v. split; [left|]. split; [by exists source|done].
    + exists id', v. split; [by right|done].
  - intros [?|(id' & v & [->|?]%elem_of_cons & Hin & ?)]; [by left; left|left; right|right].
    + destruct Hin as (source' & ? & ?). simplify_eq. eauto.
    + eauto.
Qed.
End program.

(** ** Linking indirect calls *)

Lemma link_calls references indirect calls caller target :
  has_call (link references calls indirect) caller target ↔
  has_call calls caller target ∨
  ∃ ty, (caller, ty) ∈ indirect ∧ has_reference references ty target.
Proof.
  unfold link. rewrite (foldl_adds _ (λ calls, has_call calls caller target)
    (λ '(c, ty), c = caller ∧ has_reference references ty target)).
  - split; (intros [?|H]; [by left|right]).
    + destruct H as ([c ty] & Hin & -> & ?). eauto.
    + destruct H as (ty & ? & ?). by exists (caller, ty).
  - intros m [c ty]. destruct (references !! ty) as [targets|] eqn:E.
    + rewrite (has_call_at_entry _ _ _ _ _ (λ x, x ∈ targets)).
      * unfold has_reference. rewrite E. naive_solver.
      * intros l x. by rewrite elem_of_app, elem_of_elements.
    + unfold has_reference. rewrite E. naive_solver.
Qed.

(** ** Spreading *)

Definition edge (entries : list (N * list N)) (caller target : N) : Prop :=
  ∃ targets, (caller, targets) ∈ entries ∧ target ∈ targets.

Lemma some_target A targets :
  existsb (λ target, bool_decide (target ∈ A)) targets = true ↔
  ∃ target : N, target ∈ targets ∧ target ∈ (A : gset N).
Proof.
  rewrite existsb_exists. setoid_rewrite list_elem_of_In. by setoid_rewrite bool_decide_eq_true.
Qed.

Lemma spread_round_grows entries A : A ⊆ spread_round entries A.
Proof.
  unfold spread_round. revert A. induction entries as [|[id ts] l IH]; intros A; simpl; [done|].
  etrans; [|apply IH]. case_match; set_solver.
Qed.

Lemma spread_round_step entries A caller target :
  target ∈ A → edge entries caller target → caller ∈ spread_round entries A.
Proof.
  intros Ht (ts & Hin & Hts). revert A Ht.
  induction entries as [|[id ts'] l IH]; intros A Ht; [by apply elem_of_nil in Hin|].
  apply elem_of_cons in Hin as [[= <- <-]|Hin].
  - apply (spread_round_grows l). rewrite (proj2 (some_target A ts)) by eauto. set_solver.
  - apply (IH Hin). case_match; set_solver.
Qed.

(** What a round adds is a caller of what was there. *)
Lemma spread_round_sound entries A (S : N → Prop) :
  (∀ caller target, edge entries caller target → S target → S caller) →
  (∀ x, x ∈ A → S x) → ∀ x, x ∈ spread_round entries A → S x.
Proof.
  intros Hs. assert (Hall : ∀ l, l ⊆ entries → ∀ A, (∀ x, x ∈ A → S x) →
    ∀ x, x ∈ spread_round l A → S x); [|intros HA; by apply Hall].
  clear A. induction l as [|[id ts] l IH]; intros Hl A HA; [done|].
  apply IH; [set_solver|]. case_match eqn:E; [|done].
  apply some_target in E as (t & Ht & HtA).
  intros x [->%elem_of_singleton|Hx]%elem_of_union; [|by apply HA].
  apply (Hs id t); [|by apply HA]. exists ts. split; [set_solver|done].
Qed.

Lemma spread_round_keys entries A x :
  x ∈ spread_round entries A → x ∈ A ∨ x ∈ entries.*1.
Proof.
  unfold spread_round. revert A. induction entries as [|[id ts] l IH]; intros A; simpl; [auto|].
  intros [H|H]%IH; [|right; by right]. case_match; set_solver.
Qed.

(** The keys that are still missing; every round but the last finds one of them. *)
Definition missing (entries : list (N * list N)) (A : gset N) : nat :=
  length (filter (λ id, id ∉ A) entries.*1).

Lemma missing_decreases entries A A' x :
  A ⊆ A' → x ∈ entries.*1 → x ∉ A → x ∈ A' → (missing entries A' < missing entries A)%nat.
Proof.
  intros Hs Hx Hn Hx'. unfold missing. induction (entries.*1) as [|y l IH]; [by apply elem_of_nil in Hx|].
  assert (Hle : (length (filter (λ id, id ∉ A') l) ≤ length (filter (λ id, id ∉ A) l))%nat).
  { clear IH Hx. induction l as [|z l IHl]; [done|]. rewrite !filter_cons.
    repeat case_decide; simpl; [lia|set_solver|lia|lia]. }
  rewrite !filter_cons. apply elem_of_cons in Hx as [->|Hx].
  - rewrite decide_False by auto. rewrite decide_True by done. simpl. lia.
  - specialize (IH Hx). repeat case_decide; simpl; [lia|set_solver|lia|lia].
Qed.

Lemma spread_spec fuel entries A (S : N → Prop) :
  (missing entries A < fuel)%nat →
  (∀ caller target, edge entries caller target → S target → S caller) → (∀ x, x ∈ A → S x) →
  ∃ R, spread fuel entries A = Ok R ∧ A ⊆ R ∧ (∀ x, x ∈ R → S x) ∧
    ∀ caller target, edge entries caller target → target ∈ R → caller ∈ R.
Proof.
  intros Hfuel Hs. revert A Hfuel. induction fuel as [|fuel IH]; intros A Hfuel HA; [lia|].
  simpl. pose proof (spread_round_grows entries A) as Hg.
  case_bool_decide as Hsize.
  - assert (spread_round entries A = A) as HR.
    { symmetry. apply leibniz_equiv. by apply set_subseteq_size_equiv; [|rewrite Hsize]. }
    rewrite HR. exists A. split_and!; [done..|]. intros caller target He Ht.
    rewrite <-HR. by eapply spread_round_step.
  - destruct (set_choose_or_empty (spread_round entries A ∖ A)) as [[x [Hx Hn]%elem_of_difference]|He].
    2: { destruct Hsize. f_equal. apply set_eq. intros x. split; [|apply Hg]. set_solver. }
    destruct (IH (spread_round entries A)) as (R & HR & Hle & HRS & Hc).
    + destruct (spread_round_keys entries A x Hx) as [|Hk]; [done|].
      pose proof (missing_decreases entries A _ x Hg Hk Hn Hx). lia.
    + by apply spread_round_sound.
    + exists R. split_and!; [done|set_solver|done|done].
Qed.

(** ** The least set *)

Section least.
Context (program : C.Program) (library : bool) (reachable : list N).
Context (iterate : gmap N (list N) → list (N * list N)).

(** The function [id] has an allocating operation of its own. *)
Definition allocates_itself (id : N) : Prop :=
  id ∈ reachable ∧ ∃ value, in_function program id value ∧ allocates_alone library value = true.

(** [target] is referred to, as a value of type [ty], by a function that can run. *)
Definition referenced (ty : Ty.Ty) (target : N) : Prop :=
  ∃ id value, id ∈ reachable ∧ in_function program id value ∧ C.e_ty value = ty ∧
    refers value target.

(** [caller] may call [target], directly or, in a closed program, through a value. *)
Definition may_call (caller target : N) : Prop :=
  caller ∈ reachable ∧ ∃ value, in_function program caller value ∧
    (calls_directly value target ∨
     ∃ ty, calls_through library value ty ∧ referenced ty target).

Lemma gathered :
  (∀ id, id ∈ reachable → id < lengthN (C.functions program)) →
  ∃ c, gather program library reachable no_calls = Ok c ∧
    (∀ x, x ∈ allocating c ↔ allocates_itself x) ∧
    (∀ ty t, has_reference (references c) ty t ↔ referenced ty t) ∧
    (∀ caller ty, (caller, ty) ∈ indirect c ↔
       caller ∈ reachable ∧ ∃ value, in_function program caller value ∧ calls_through library value ty) ∧
    (∀ caller t, has_call (calls c) caller t ↔
       caller ∈ reachable ∧ ∃ value, in_function program caller value ∧ calls_directly value t).
Proof.
  intros Hr. destruct (gather_adds program library reachable Hr (λ _, False) (λ _ _, False)
    no_calls) as (c & Hc & _); [tauto|].
  assert (Hadds : ∀ (P : Calls → Prop) (Q : N → C.Expr → Prop),
    (∀ c id value, P (inspect library id value c) ↔ P c ∨ Q id value) → ¬ P no_calls →
    P c ↔ ∃ id value, id ∈ reachable ∧ in_function program id value ∧ Q id value).
  { intros P Q HP Hno.
    destruct (gather_adds program library reachable Hr P Q no_calls HP) as (c' & Hc' & H).
    rewrite Hc in Hc'. injection Hc' as <-. rewrite H. tauto. }
  exists c. split; [done|]. split_and!.
  - intros x. rewrite (Hadds (λ c, x ∈ allocating c) (λ id v, x = id ∧ allocates_alone library v = true));
      [|intros; apply inspect_allocating|simpl; set_solver]. unfold allocates_itself. naive_solver.
  - intros ty t. rewrite (Hadds (λ c, has_reference (references c) ty t)
      (λ id v, ty = C.e_ty v ∧ refers v t)); [|intros; apply inspect_references|].
    + unfold referenced. naive_solver.
    + intros (? & ? & ?). simpl in *. by simplify_map_eq.
  - intros caller ty. rewrite (Hadds (λ c, (caller, ty) ∈ indirect c)
      (λ id v, caller = id ∧ calls_through library v ty));
      [|intros; apply inspect_indirect|simpl; set_solver]. naive_solver.
  - intros caller t. rewrite (Hadds (λ c, has_call (calls c) caller t)
      (λ id v, caller = id ∧ calls_directly v t)); [|intros; apply inspect_calls|].
    + naive_solver.
    + intros (? & ? & ?). simpl in *. by simplify_map_eq.
Qed.

Lemma allocating_functions_spec :
  (∀ id, id ∈ reachable → id < lengthN (C.functions program)) →
  (∀ m, iterate m ≡ₚ map_to_list m) →
  ∃ R, allocating_functions iterate program reachable library = Ok R ∧
    ∀ id, id ∈ R ↔ ∃ id', rtc may_call id id' ∧ allocates_itself id'.
Proof.
  intros Hr Hit. destruct (gathered Hr) as (c & Hc & Ha & Href & Hind & Hcalls).
  unfold allocating_functions. rewrite Hc. simpl.
  set (cs := link (references c) (calls c) (indirect c)).
  assert (Hedge : ∀ caller t, edge (iterate cs) caller t ↔ may_call caller t).
  { intros caller t. trans (has_call cs caller t).
    - unfold edge, has_call. setoid_rewrite Hit. by setoid_rewrite elem_of_map_to_list.
    - unfold cs. rewrite link_calls, Hcalls. setoid_rewrite Hind. setoid_rewrite Href.
      unfold may_call. naive_solver. }
  set (Reach := λ id, ∃ id', rtc may_call id id' ∧ allocates_itself id').
  destruct (spread_spec (S (length (iterate cs))) (iterate cs) (allocating c) Reach)
    as (R & HR & Hle & Hsound & Hclosed).
  - apply Nat.lt_succ_r. unfold missing. etrans; [apply length_filter|]. by rewrite length_fmap.
  - intros caller t He%Hedge (id' & Hrtc & Hid'). exists id'. split; [by eapply rtc_l|done].
  - intros x Hx%Ha. exists x. by split.
  - exists R. split; [done|]. intros id. split; [apply Hsound|].
    intros (id' & Hrtc & Hid'). induction Hrtc as [x|x y z Hxy _ IH].
    + by apply Hle, Ha.
    + eapply Hclosed; [by apply Hedge|by apply IH].
Qed.
End least.
