(* ===== verification/Liveness.v ===== *)
(** The liveness plan of [compiler/src/codegen/llvm_gc_liveness.rs]: a backward pass over a
    checked body that records, for every block, statement and expression, which locals die
    there, so that their root slots can be cleared before a later collection. *)

From S2P Require Import Prelude Model Nodes Flow Effects RootSlots.

Module Plan.

Record Plan := mkPlan {
  entries : gmap Path Live;
  retired : gmap Path Live;
  expressions : gmap Path Live;
  restores : gmap Path Live;
  pinned : Live;
}.

Definition default (pinned : Live) : Plan := mkPlan ∅ ∅ ∅ ∅ pinned.

(** ** The state of the pass *)

Record State := mkState { plan : Plan; query : TemporarySlots }.

Abbreviation M := (St State).

Definition ask (q : Query bool) : M bool := λ s,
  let '(r, query) := q (query s) in Ok (r, mkState (plan s) query).
Definition edit (f : Plan → Plan) : M () := λ s, Ok (tt, mkState (f (plan s)) (query s)).

Definition insert_entry (p : Path) (l : Live) : M () :=
  edit (λ pl, mkPlan (<[p := l]> (entries pl)) (retired pl) (expressions pl) (restores pl)
                (pinned pl)).
Definition insert_retired (p : Path) (l : Live) : M () :=
  edit (λ pl, mkPlan (entries pl) (<[p := l]> (retired pl)) (expressions pl) (restores pl)
                (pinned pl)).
Definition insert_restore (p : Path) (l : Live) : M () :=
  edit (λ pl, mkPlan (entries pl) (retired pl) (expressions pl) (<[p := l]> (restores pl))
                (pinned pl)).

(** Loop fixed points can make an earlier candidate live again. *)
Definition expression_retirement (p : Path) (retired_here : Live) : M () :=
  edit (λ pl, mkPlan (entries pl) (retired pl)
                (if bool_decide (retired_here = ∅) then delete p (expressions pl)
                 else <[p := retired_here]> (expressions pl))
                (restores pl) (pinned pl)).

(** ** Pieces of the pass *)

Abbreviation Targets := (option (Live * Live)).

Fixpoint field_local (e : C.Expr) : option N :=
  match e with C.mkExpr kind _ _ =>
  match kind with C.Local id => Some id | C.Field value _ => field_local value | _ => None end
  end.

(** Scalars have no root slot. *)
Definition scalar (ty : Ty.Ty) : bool :=
  match ty with Ty.Unit | Ty.Int | Ty.Bool | Ty.Float => true | _ => false end.

(** [set.filter(|_| condition)] *)
Definition when (condition : bool) (l : Live) : Live := if condition then l else ∅.

Definition short_circuit (operation : Binary.Binary) : bool :=
  match operation with Binary.And | Binary.Or => true | _ => false end.

(** The locals that an arm binds: [arm.bindings.iter().chain([&arm.whole]).flatten()]. *)
Definition bound (bindings : list (option N)) (whole : option N) : list N :=
  omap id (bindings ++ [whole]).

(** [future || question] *)
Definition or_ask (future : bool) (question : M bool) : M bool :=
  if future then mret true else question.

(** [for item in items.iter().rev()]: the last item first; the items are the children of a
    node from step [i] on. *)
Definition each_rev {A} (visit : nat → A → Live → Live → bool → M (Live * Live * bool))
    : nat → list A → Live → Live → bool → M (Live * Live * bool) :=
  fix go i items live definitions future :=
    match items with
    | [] => mret (live, definitions, future)
    | item :: items =>
        '(live, definitions, future) ← go (S i) items live definitions future;
        visit i item live definitions future
    end.

(** Operands in reverse order; [later] says how [future] grows past each of them. *)
Definition each_value {A} (visit : nat → A → Live → Live → bool → M (Live * Live))
    (later : nat → A → bool → M bool)
    : nat → list A → Live → Live → bool → M (Live * Live * bool) :=
  each_rev (λ i value live definitions future,
    '(live, definitions) ← visit i value live definitions future;
    future ← later i value future;
    mret (live, definitions, future)).

(** One arm after the other: what they need together, what each needs on entry, and whether
    it may collect. *)
Definition each_arm
    (visit : nat → C.Block → Live → M (Live * Live)) (collects : nat → C.Block → M bool)
    (future : bool)
    : nat → list C.MatchArm → Live → list (nat * Live * bool) → Live → bool →
      M (Live * list (nat * Live * bool) * Live * bool) :=
  fix go i arms branches incoming definitions collecting :=
    match arms with
    | [] => mret (branches, incoming, definitions, collecting)
    | C.mkArm _ bindings whole body :: arms =>
        '(before, definitions) ← visit i body definitions;
        let ids := list_to_set (bound bindings whole) in
        c ← or_ask future (collects i body);
        go (S i) arms (branches ∪ before ∖ ids) (incoming ++ [(i, before, c)])
          (definitions ∪ ids) (collecting || c)
    end.

Fixpoint insert_entries (p : Path) (branches : Live) (incoming : list (nat * Live * bool))
    : M () :=
  match incoming with
  | [] => mret tt
  | (i, before, c) :: incoming =>
      insert_entry (i :: p) (when c (branches ∖ before)) ;;
      insert_entries p branches incoming
  end.

(** The loop that looks for the head of a [while]: [round] visits the body and the condition
    for a candidate head, and answers what the body and the condition need. *)
Definition find_head (round : Live → Live → M (Live * Live * Live))
    : nat → Live → Live → M (Live * Live * Live) :=
  fix go fuel head written :=
    match fuel with
    | O => stuck
    | S fuel =>
        '(before, next, written) ← round head written;
        if bool_decide (next = head) then mret (before, head, written)
        else go fuel next written
    end.

(** The end of the visit of a statement: what it needed or wrote, and what follows does not
    need, dies here. *)
Definition retire (p : Path) (after definitions : Live) (after_collection : bool)
    (visit : M (Live * Live * bool)) : M (Live * Live * bool) :=
  '(live, written, future) ← visit;
  insert_retired p (when after_collection ((live ∪ written) ∖ after)) ;;
  mret (live, definitions ∪ written, future).

(** ** The pass *)

Section pass.
Context (allocating : gset N).

Definition ask_expression (e : C.Expr) (p : Path) : M bool := ask (may_allocate allocating e p).
Definition ask_block (b : C.Block) (p : Path) : M bool := ask (block_allocates allocating b p).

(** [future |= collections.expression(value)] *)
Definition or_expression (p : Path) (i : nat) (value : C.Expr) (future : bool) : M bool :=
  c ← ask_expression value (i :: p); mret (future || c).

(** What an operation does once its operands are evaluated. *)
Definition operation_collects (kind : C.ExprKind) : bool :=
  match kind with
  | C.Call target _ => bool_decide (target ∈ allocating)
  | C.PrimitiveOp operation _ => allocates operation
  | C.ListNew _ => true
  | C.FrameNew _ => true
  | _ => false
  end.

Context (rounds : nat).

Fixpoint expression (e : C.Expr) (p : Path) (live : Live) (targets : Targets)
    (definitions : Live) (future : bool) {struct e} : M (Live * Live) :=
  c ← ask_expression e p;
  (if (c : bool) then insert_restore p live else mret tt) ;;
  match e with C.mkExpr kind ty _ =>
  match kind with
  | C.Local id =>
      expression_retirement p
        (when (future && negb (bool_decide (id ∈ live)) && negb (scalar ty)) {[id]}) ;;
      mret ({[id]} ∪ live, definitions)
  | C.Field receiver _ =>
      expression_retirement p
        match field_local receiver with
        | Some id => when (future && negb (bool_decide (id ∈ live))) {[id]}
        | None => ∅
        end ;;
      expression receiver (0%nat :: p) live targets definitions future
  | C.UnaryOp _ value | C.Coerce value | C.Closure _ value =>
      expression value (0%nat :: p) live targets definitions future
  | C.DynBox _ value => expression value (0%nat :: p) live targets definitions true
  | C.BinaryOp operation l r =>
      let after := live in
      '(live, definitions) ← expression r (1%nat :: p) live targets definitions future;
      live ← (if short_circuit operation
              then expression_retirement p (when future (live ∖ after)) ;; mret (live ∪ after)
              else mret live);
      future ← or_ask future (ask_expression r (1%nat :: p));
      expression l (0%nat :: p) live targets definitions future
  | C.Call _ values | C.PrimitiveOp _ values | C.ListNew values | C.Variant _ values =>
      '(live, definitions, _) ←
        each_value (λ i value live definitions future,
                      expression value (i :: p) live targets definitions future)
          (or_expression p) 0 values live definitions (future || operation_collects kind);
      mret (live, definitions)
  | C.IndirectCall callee arguments | C.DynCall callee _ arguments =>
      '(live, definitions, _) ←
        each_value (λ i value live definitions future,
                      expression value (i :: p) live targets definitions future)
          (λ _ _, mret) 1 arguments live definitions true;
      expression callee (0%nat :: p) live targets definitions true
  | C.RecordNew fields | C.FrameNew fields =>
      '(live, definitions, _) ←
        each_value (λ i field live definitions future,
                      expression field.2 (i :: p) live targets definitions future)
          (λ i field, or_expression p i field.2) 0 fields live definitions
          (future || operation_collects kind);
      mret (live, definitions)
  | C.FrameStore frame _ value =>
      '(live, definitions) ← expression value (1%nat :: p) live targets definitions future;
      future ← or_ask future (ask_expression value (1%nat :: p));
      expression frame (0%nat :: p) live targets definitions future
  | C.BlockExpr body => block body (0%nat :: p) live targets definitions future
  | C.If condition then_body else_body =>
      let after := live in
      '(yes, definitions) ← block then_body (1%nat :: p) live targets definitions future;
      '(no, definitions) ←
        match else_body with
        | Some body => block body (2%nat :: p) live targets definitions future
        | None => mret (live, definitions)
        end;
      let branches := yes ∪ no in
      expression_retirement p (when future (branches ∖ after)) ;;
      then_collects ← or_ask future (ask_block then_body (1%nat :: p));
      insert_entry (1%nat :: p) (when then_collects (branches ∖ yes)) ;;
      match else_body with
      | Some body =>
          c ← or_ask future (ask_block body (2%nat :: p));
          insert_entry (2%nat :: p) (when c (branches ∖ no))
      | None => mret tt
      end ;;
      future ← or_ask then_collects
                 match else_body with
                 | Some body => ask_block body (2%nat :: p)
                 | None => mret false
                 end;
      expression condition (0%nat :: p) branches targets definitions future
  | C.Match value arms =>
      '(branches, incoming, definitions, collecting) ←
        each_arm (λ i body definitions, block body (i :: p) live targets definitions future)
          (λ i body, ask_block body (i :: p)) future 1 arms ∅ [] definitions future;
      insert_entries p branches incoming ;;
      expression value (0%nat :: p) branches targets definitions collecting
  | C.Int _ | C.Float _ | C.Bool _ | C.Text _ | C.Bytes _ | C.FunctionRef _ =>
      mret (live, definitions)
  end end
with statement (s : C.Stmt) (p : Path) (live : Live) (targets : Targets)
    (definitions : Live) (future : bool) {struct s} : M (Live * Live * bool) :=
  let after := live in
  retire p after definitions future
    match s with C.mkStmt kind _ =>
    match kind with
    | C.Let local value | C.Assign local value =>
        '(live, written) ←
          expression value (0%nat :: p) (live ∖ {[local]}) targets {[local]} future;
        future ← or_expression p 0 value future;
        mret (live, written, future)
    | C.Return None => mret (∅, ∅, false)
    | C.Return (Some value) =>
        '(live, written) ← expression value (0%nat :: p) ∅ targets ∅ false;
        future ← ask_expression value (0%nat :: p);
        mret (live, written, future)
    | C.Assert condition _ | C.Discard condition | C.ExprStmt condition =>
        '(live, written) ← expression condition (0%nat :: p) live targets ∅ future;
        future ← or_expression p 0 condition future;
        mret (live, written, future)
    | C.While condition body =>
        c ← ask_expression condition (0%nat :: p);
        c ← or_ask c (ask_block body (1%nat :: p));
        let future := future || c in
        '(before, head, written) ←
          find_head (λ head written,
            '(before, written) ←
              block body (1%nat :: p) head (Some (after, head)) written future;
            '(next, written) ←
              expression condition (0%nat :: p) (after ∪ before) targets written future;
            mret (before, next, written)) rounds ∅ ∅;
        insert_entry (1%nat :: p) (when future (head ∖ before)) ;;
        mret (head, written, future)
    | C.Break => mret (exits ∅ targets Broke, ∅, true)
    | C.Continue => mret (exits ∅ targets Continued, ∅, true)
    | C.Cleanup _ body =>
        c ← ask_block body (0%nat :: p);
        mret (live, ∅, future || c)
    | C.Defer _ _ => mret (live, ∅, future)
    end end
with block (b : C.Block) (p : Path) (live : Live) (targets : Targets)
    (definitions : Live) (future : bool) {struct b} : M (Live * Live) :=
  match b with C.mkBlock statements tail _ =>
  '(live, definitions, future) ←
    match tail with
    | Some tail =>
        let q := length statements in
        '(live, definitions) ← expression tail (q :: p) live targets definitions future;
        future ← or_expression p q tail future;
        mret (live, definitions, future)
    | None => mret (live, definitions, future)
    end;
  '(live, definitions, _) ←
    each_rev (λ i s live definitions future,
                statement s (i :: p) live targets definitions future)
      0 statements live definitions future;
  mret (live, definitions)
  end.
End pass.

(** ** Plans of functions *)

(** The locals that a body reads. *)
Definition locals_read (body : C.Block) : Live :=
  list_to_set (omap (λ e, match C.e_kind e with C.Local id => Some id | _ => None end)
                 (block_expressions body)).

(** Heads grow from the empty set within the locals that the body reads, so that one round
    more than there are such locals settles every loop. *)
Definition plan_body (rounds : nat) (body : C.Block) (parameters : N) (allocating : gset N)
    (is_shared : bool) : M () :=
  '(before, _) ← block allocating rounds body [] ∅ None ∅ is_shared;
  collects ← ask_block allocating body [];
  let ids : Live := list_to_set (N.of_nat <$> seq 0 (N.to_nat parameters)) in
  insert_entry [] (when collects (ids ∖ before)).

Definition new (body : C.Block) (parameters : N) (pinned_locals : Live)
    (allocating : gset N) (is_shared : bool) : outcome Plan :=
  '(_, s) ← plan_body (S (size (locals_read body))) body parameters allocating is_shared
              (mkState (default pinned_locals) (allocation_query is_shared));
  Ok (plan s).

(** [clear_dead_local] of the emitter: captured locals keep their roots. *)
Definition cleared (pl : Plan) (retired_here : option Live) : Live :=
  match retired_here with Some l => l ∖ pinned pl | None => ∅ end.
End Plan.
