(* ===== verification/PlanLogic.v ===== *)
(** The control flow of checked bodies, at the granularity of the liveness plan: the order in
    which the emitter evaluates operands, reads and writes locals, and takes branches, and
    the points where it consults the plan. Bodies of cleanups run as separate functions,
    through locals that the plan pins. *)

From S2P Require Import Prelude Model Nodes Flow Effects RootSlots RootFacts Liveness.

(** The entry of a block, the end of a statement, the moment when the value of an expression
    is at hand, and the collecting operation of an expression, just before. *)
Inductive Point : Type :=
  | Entry (p : Path)
  | After (p : Path)
  | Value (p : Path)
  | Operation (p : Path).

Definition path_of (pt : Point) : Path :=
  match pt with Entry p | After p | Value p | Operation p => p end.

Abbreviation Flow := (flow (Point := Point)).

(** Items in order, the children of a node from step [i] on. *)
Definition flow_list {A} (visit : nat → A → Flow) : nat → list A → Flow :=
  fix go i l := match l with [] => Nop | x :: l => Seq (visit i x) (go (S i) l) end.

(** One of several ways on; with none of them, control goes nowhere. *)
Definition flow_choice {A} (visit : nat → A → Flow) : nat → list A → Flow :=
  fix go i l := match l with [] => Leave Returned | x :: l => Alt (visit i x) (go (S i) l) end.

Definition flow_defs : list N → Flow := foldr (λ x f, Seq (Def x) f) Nop.

(** A block whose parent has recorded what dies on entering it. *)
Definition entered (p : Path) (f : Flow) : Flow := Seq (At (Entry p)) f.

Section tree.
(** Which expressions the plan takes to collect. *)
Context (collecting : C.Expr → bool).

Definition operated (e : C.Expr) (p : Path) (f : Flow) : Flow :=
  if collecting e then Seq f (At (Operation p)) else f.

Fixpoint flow_expression (e : C.Expr) (p : Path) {struct e} : Flow :=
  operated e p
    match e with C.mkExpr kind _ _ =>
    match kind with
    | C.Local id => Seq (Use id) (At (Value p))
    | C.Field receiver _ => Seq (flow_expression receiver (0%nat :: p)) (At (Value p))
    | C.UnaryOp _ value | C.Coerce value | C.Closure _ value | C.DynBox _ value =>
        flow_expression value (0%nat :: p)
    | C.BinaryOp operation l r =>
        Seq (flow_expression l (0%nat :: p))
          (if Plan.short_circuit operation
           then Seq (Alt (flow_expression r (1%nat :: p)) Nop) (At (Value p))
           else flow_expression r (1%nat :: p))
    | C.Call _ values | C.PrimitiveOp _ values | C.ListNew values | C.Variant _ values =>
        flow_list (λ i value, flow_expression value (i :: p)) 0 values
    | C.IndirectCall callee arguments | C.DynCall callee _ arguments =>
        Seq (flow_expression callee (0%nat :: p))
          (flow_list (λ i value, flow_expression value (i :: p)) 1 arguments)
    | C.RecordNew fields | C.FrameNew fields =>
        flow_list (λ i field, flow_expression field.2 (i :: p)) 0 fields
    | C.FrameStore frame _ value =>
        Seq (flow_expression frame (0%nat :: p)) (flow_expression value (1%nat :: p))
    | C.BlockExpr body => flow_block body (0%nat :: p)
    | C.If condition then_body else_body =>
        Seq (flow_expression condition (0%nat :: p))
          (Seq
            (Alt (entered (1%nat :: p) (flow_block then_body (1%nat :: p)))
               match else_body with
               | Some body => entered (2%nat :: p) (flow_block body (2%nat :: p))
               | None => Nop
               end)
            (At (Value p)))
    | C.Match value arms =>
        Seq (flow_expression value (0%nat :: p))
          (flow_choice (λ i '(C.mkArm _ bindings whole body),
             Seq (flow_defs (Plan.bound bindings whole))
               (entered (i :: p) (flow_block body (i :: p)))) 1 arms)
    | C.Int _ | C.Float _ | C.Bool _ | C.Text _ | C.Bytes _ | C.FunctionRef _ => Nop
    end end
with flow_statement (s : C.Stmt) (p : Path) {struct s} : Flow :=
  Seq
    match s with C.mkStmt kind _ =>
    match kind with
    | C.Let local value | C.Assign local value =>
        Seq (flow_expression value (0%nat :: p)) (Def local)
    | C.Return None => Leave Returned
    | C.Return (Some value) => Seq (flow_expression value (0%nat :: p)) (Leave Returned)
    | C.Assert value _ | C.Discard value | C.ExprStmt value =>
        flow_expression value (0%nat :: p)
    | C.While condition body =>
        Loop (flow_expression condition (0%nat :: p))
          (entered (1%nat :: p) (flow_block body (1%nat :: p)))
    | C.Break => Leave Broke
    | C.Continue => Leave Continued
    | C.Cleanup _ _ | C.Defer _ _ => Nop
    end end
    (At (After p))
with flow_block (b : C.Block) (p : Path) {struct b} : Flow :=
  match b with C.mkBlock statements tail _ =>
  Seq (flow_list (λ i s, flow_statement s (i :: p)) 0 statements)
    match tail with
    | Some tail => flow_expression tail (length statements :: p)
    | None => Nop
    end end.

(** A function body; the plan records which parameters die at its entry. *)
Definition flow_body (body : C.Block) : Flow := entered [] (flow_block body []).
End tree.

(** Reasoning about the liveness pass: what a plan forbids at each point, the places of the
    points of a tree, and what visiting a part of a tree establishes. *)

(** ** What a plan says at a point *)

Definition at_plan (pl : Plan.Plan) (pt : Point) : option Live :=
  match pt with
  | Entry p => Plan.entries pl !! p
  | After p => Plan.retired pl !! p
  | Value p => Plan.expressions pl !! p
  | Operation p => Plan.restores pl !! p
  end.

(** A cleared local must not be needed any more; a local that a collecting operation does not
    restore must not be needed either. *)
Definition forbidden (pl : Plan.Plan) (pt : Point) (x : N) : Prop :=
  match pt with
  | Operation _ => ∃ l, at_plan pl pt = Some l ∧ x ∉ l
  | _ => ∃ l, at_plan pl pt = Some l ∧ x ∈ l
  end.

Lemma forbidden_eq pl pl' pt x :
  at_plan pl pt = at_plan pl' pt → forbidden pl pt x → forbidden pl' pt x.
Proof. destruct pt; simpl; by intros ->. Qed.

Lemma sound_agree pl pl' (f : Flow) ex L :
  sound (forbidden pl) f ex L → (∀ pt, pt ∈ points f → at_plan pl' pt = at_plan pl pt) →
  sound (forbidden pl') f ex L.
Proof.
  intros [Hl Hs] He. split; [done|]. eapply safe_weaken; [exact Hs|].
  intros pt x Hpt. apply forbidden_eq. by apply He.
Qed.

(** ** Visits *)

(** Between two plans, [f] has been visited with [L] needed after it and the loop [targets]
    around it, and [K] has been found to be needed before it. *)
Definition frame (f : Flow) (pl pl' : Plan.Plan) : Prop :=
  Plan.pinned pl' = Plan.pinned pl ∧
  ∀ pt, pt ∉ points f → at_plan pl' pt = at_plan pl pt.

Definition visited (f : Flow) (L : Live) (tg : Plan.Targets) (K : Live) (pl pl' : Plan.Plan)
    : Prop :=
  frame f pl pl' ∧ sound (forbidden pl') f (exits L tg) K.

Definition disjoint_points (f g : Flow) : Prop := ∀ pt, pt ∈ points f → pt ∈ points g → False.

Lemma disjoint_points_sym f g : disjoint_points f g → disjoint_points g f.
Proof. intros H pt ??. by apply (H pt). Qed.

Lemma disjoint_points_seq f a b :
  disjoint_points f a → disjoint_points f b → disjoint_points f (Seq a b).
Proof. intros Ha Hb pt Hf [?|?]%elem_of_app; [by apply (Ha pt)|by apply (Hb pt)]. Qed.

Lemma disjoint_points_alt f a b :
  disjoint_points f a → disjoint_points f b → disjoint_points f (Alt a b).
Proof. apply disjoint_points_seq. Qed.

Lemma frame_refl f pl : frame f pl pl.
Proof. done. Qed.

Lemma frame_trans f g h pl1 pl2 pl3 :
  frame f pl1 pl2 → frame g pl2 pl3 → points f ⊆ points h → points g ⊆ points h →
  frame h pl1 pl3.
Proof.
  intros [P1 F1] [P2 F2] Hf Hg. split; [by rewrite P2|].
  intros pt Hpt. rewrite F2, F1; set_solver.
Qed.

Lemma sound_frame f g ex L pl pl' :
  sound (forbidden pl) f ex L → frame g pl pl' → disjoint_points f g →
  sound (forbidden pl') f ex L.
Proof.
  intros Hs [_ Hf] Hd. eapply sound_agree; [exact Hs|]. intros pt Hpt. apply Hf.
  intros Hg. by apply (Hd pt).
Qed.

Lemma visited_nop L tg pl : visited Nop L tg L pl pl.
Proof. split; [done|apply sound_nop]. Qed.

Lemma visited_leave e L tg pl : visited (Leave e) L tg (exits L tg e) pl pl.
Proof. split; [done|apply sound_leave]. Qed.

Lemma visited_use x L tg pl : visited (Use x) L tg ({[x]} ∪ L) pl pl.
Proof. split; [done|apply sound_use]. Qed.

Lemma visited_def x L tg pl : visited (Def x) L tg (L ∖ {[x]}) pl pl.
Proof. split; [done|apply sound_def]. Qed.

Lemma visited_at pt L tg pl pl' :
  frame (At pt) pl pl' → (∀ x, forbidden pl' pt x → x ∉ L) → visited (At pt) L tg L pl pl'.
Proof. intros Hf Hpt. split; [done|by apply sound_at]. Qed.

(** The parts of a sequence may be visited in either order. *)
Lemma visited_seq a b L M K tg pl1 pl2 pl3 :
  visited b L tg M pl1 pl2 → visited a M tg K pl2 pl3 → disjoint_points a b →
  visited (Seq a b) L tg K pl1 pl3.
Proof.
  intros [F1 S1] [F2 S2] Hd. split.
  - eapply frame_trans; [exact F1|exact F2|simpl; set_solver..].
  - eapply sound_seq; [|exact S2]. eapply sound_frame; [exact S1|exact F2|].
    by apply disjoint_points_sym.
Qed.

Lemma visited_seq_late a b L M K tg pl1 pl2 pl3 :
  visited a M tg K pl1 pl2 → visited b L tg M pl2 pl3 → disjoint_points a b →
  visited (Seq a b) L tg K pl1 pl3.
Proof.
  intros [F1 S1] [F2 S2] Hd. split.
  - eapply frame_trans; [exact F1|exact F2|simpl; set_solver..].
  - eapply sound_seq; [exact S2|]. by eapply sound_frame.
Qed.

Lemma visited_alt a b L M K tg pl1 pl2 pl3 :
  visited a L tg M pl1 pl2 → visited b L tg K pl2 pl3 → disjoint_points a b →
  visited (Alt a b) L tg (M ∪ K) pl1 pl3.
Proof.
  intros [F1 S1] [F2 S2] Hd. split.
  - eapply frame_trans; [exact F1|exact F2|simpl; set_solver..].
  - apply sound_alt; [|done]. by eapply sound_frame.
Qed.

(** A chain of visits of other flows. *)
Inductive frames : list Flow → Plan.Plan → Plan.Plan → Prop :=
  | frames_nil pl : frames [] pl pl
  | frames_cons g gs pl1 pl2 pl3 :
      frame g pl1 pl2 → frames gs pl2 pl3 → frames (g :: gs) pl1 pl3.

Lemma frames_frame gs h pl pl' :
  frames gs pl pl' → Forall (λ g, points g ⊆ points h) gs → frame h pl pl'.
Proof.
  induction 1 as [|g gs pl1 pl2 pl3 Hg _ IH]; intros HF; [done|].
  inversion HF; subst. eapply frame_trans; [exact Hg|by apply IH|done|done].
Qed.

Lemma sound_frames f gs ex L pl pl' :
  sound (forbidden pl) f ex L → frames gs pl pl' → Forall (disjoint_points f) gs →
  sound (forbidden pl') f ex L.
Proof.
  intros Hs Hf. revert Hs. induction Hf as [|g gs pl1 pl2 pl3 Hg _ IH]; intros Hs HF; [done|].
  inversion HF; subst. apply IH; [|done]. by eapply sound_frame.
Qed.

(** ** Edits of the plan *)

Lemma frame_entry p (l : Live) pl :
  frame (At (Entry p)) pl
    (Plan.mkPlan (<[p := l]> (Plan.entries pl)) (Plan.retired pl) (Plan.expressions pl)
       (Plan.restores pl) (Plan.pinned pl)).
Proof.
  split; [done|]. intros [q|q|q|q] Hq; simpl; try done. rewrite lookup_insert_ne; [done|].
  intros ->. set_solver.
Qed.

Lemma frame_retired p (l : Live) pl :
  frame (At (After p)) pl
    (Plan.mkPlan (Plan.entries pl) (<[p := l]> (Plan.retired pl)) (Plan.expressions pl)
       (Plan.restores pl) (Plan.pinned pl)).
Proof.
  split; [done|]. intros [q|q|q|q] Hq; simpl; try done. rewrite lookup_insert_ne; [done|].
  intros ->. set_solver.
Qed.

Lemma frame_restore p (l : Live) pl :
  frame (At (Operation p)) pl
    (Plan.mkPlan (Plan.entries pl) (Plan.retired pl) (Plan.expressions pl)
       (<[p := l]> (Plan.restores pl)) (Plan.pinned pl)).
Proof.
  split; [done|]. intros [q|q|q|q] Hq; simpl; try done. rewrite lookup_insert_ne; [done|].
  intros ->. set_solver.
Qed.

Lemma frame_value p (l : Live) pl :
  frame (At (Value p)) pl
    (Plan.mkPlan (Plan.entries pl) (Plan.retired pl)
       (if bool_decide (l = ∅) then delete p (Plan.expressions pl)
        else <[p := l]> (Plan.expressions pl))
       (Plan.restores pl) (Plan.pinned pl)).
Proof.
  split; [done|]. intros [q|q|q|q] Hq; simpl; try done.
  assert (p ≠ q) by (intros ->; set_solver).
  case_bool_decide; [by rewrite lookup_delete_ne|by rewrite lookup_insert_ne].
Qed.

(** ** Weakest preconditions of the pass *)

Section edits.
Context (L : Live) (tg : Plan.Targets) (s : Plan.State) (Q : () → Plan.State → Prop).

Let result (pt : Point) (m : Plan.M ()) : Prop :=
  (∀ s', Plan.query s' = Plan.query s →
     visited (At pt) L tg L (Plan.plan s) (Plan.plan s') → Q tt s') → wp m s Q.

Lemma wp_insert_restore p : result (Operation p) (Plan.insert_restore p L).
Proof.
  intros H. apply H; [done|]. apply visited_at; [apply frame_restore|].
  intros x (l & Hl & Hx). simpl in Hl. rewrite lookup_insert_eq in Hl. by simplify_eq.
Qed.

Lemma wp_insert_entry p l : (∀ x, x ∈ l → x ∉ L) → result (Entry p) (Plan.insert_entry p l).
Proof.
  intros Hd H. apply H; [done|]. apply visited_at; [apply frame_entry|].
  intros x (l' & Hl & Hx). simpl in Hl. rewrite lookup_insert_eq in Hl. simplify_eq. auto.
Qed.

Lemma wp_insert_retired p l : (∀ x, x ∈ l → x ∉ L) → result (After p) (Plan.insert_retired p l).
Proof.
  intros Hd H. apply H; [done|]. apply visited_at; [apply frame_retired|].
  intros x (l' & Hl & Hx). simpl in Hl. rewrite lookup_insert_eq in Hl. simplify_eq. auto.
Qed.

Lemma wp_retirement p l :
  (∀ x, x ∈ l → x ∉ L) → result (Value p) (Plan.expression_retirement p l).
Proof.
  intros Hd H. apply H; [done|]. apply visited_at; [apply frame_value|].
  intros x (l' & Hl & Hx). simpl in Hl. case_bool_decide.
  - by rewrite lookup_delete_eq in Hl.
  - rewrite lookup_insert_eq in Hl. simplify_eq. auto.
Qed.
End edits.

(** ** The memo along the pass *)

Section state.
Context (is_shared : bool) (allocating : gset N) (root : Node).
#[local] Abbreviation collecting := (RootFacts.collecting is_shared allocating).

Definition state_ok (s : Plan.State) : Prop :=
  ts_shared (Plan.query s) = is_shared ∧ memo_ok is_shared allocating root (Plan.query s).

Lemma state_ok_query s s' : state_ok s → Plan.query s' = Plan.query s → state_ok s'.
Proof. unfold state_ok. by intros ? ->. Qed.

Lemma wp_ask P q s Q :
  asks is_shared allocating root P q → state_ok s →
  (∀ c s', state_ok s' → Plan.plan s' = Plan.plan s → (c = true ↔ P) → Q c s') →
  wp (Plan.ask q) s Q.
Proof.
  intros Hq [Hs Hm] HQ. destruct (Hq (Plan.query s) Hs Hm) as (Hr & Hok & a & Ha).
  unfold wp, Plan.ask. destruct (q (Plan.query s)) as [r s1]. simpl in *. subst s1.
  by apply HQ.
Qed.

Lemma wp_ask_expression e p s Q :
  node_at root p = Some (NExpr e) → state_ok s →
  (∀ s', state_ok s' → Plan.plan s' = Plan.plan s → Q (collecting e) s') →
  wp (Plan.ask_expression allocating e p) s Q.
Proof.
  intros Hp Hs HQ. eapply wp_ask; [by apply (all_answer is_shared allocating root (NExpr e))|done|].
  intros c s' Hs' Hpl Hc. replace c with (collecting e); [by apply HQ|].
  apply eq_bool_prop_intro. rewrite !Is_true_true, Hc. apply collecting_spec.
Qed.

Lemma wp_ask_block b p s Q :
  node_at root p = Some (NBlock b) → state_ok s →
  (∀ c s', state_ok s' → Plan.plan s' = Plan.plan s → Q c s') →
  wp (Plan.ask_block allocating b p) s Q.
Proof.
  intros Hp Hs HQ. eapply wp_ask; [by apply (all_answer is_shared allocating root (NBlock b))|done|].
  eauto.
Qed.

Lemma wp_or_ask future m s Q :
  state_ok s → (∀ s', state_ok s' → Plan.plan s' = Plan.plan s → ∀ c, Q c s') →
  (state_ok s → wp m s (λ _ s', state_ok s' ∧ Plan.plan s' = Plan.plan s)) →
  wp (Plan.or_ask future m) s Q.
Proof.
  intros Hs HQ Hm. destruct future; simpl; [by apply HQ|].
  eapply st_mono; [by apply Hm|]. intros c s' []. by apply HQ.
Qed.
End state.

(** ** Places of points *)

Lemma points_list {A} (visit : nat → A → Flow) i l pt :
  pt ∈ points (flow_list visit i l) →
  ∃ k x, l !! k = Some x ∧ pt ∈ points (visit (i + k)%nat x).
Proof.
  revert i. induction l as [|x l IH]; simpl; intros i; [by intros ?%elem_of_nil|].
  intros [H|(k & y & Hk & H)%IH]%elem_of_app.
  - exists 0%nat, x. by rewrite Nat.add_0_r.
  - exists (S k), y. by rewrite Nat.add_succ_r.
Qed.

Lemma points_choice {A} (visit : nat → A → Flow) i l pt :
  pt ∈ points (flow_choice visit i l) →
  ∃ k x, l !! k = Some x ∧ pt ∈ points (visit (i + k)%nat x).
Proof.
  revert i. induction l as [|x l IH]; simpl; intros i; [by intros ?%elem_of_nil|].
  intros [H|(k & y & Hk & H)%IH]%elem_of_app.
  - exists 0%nat, x. by rewrite Nat.add_0_r.
  - exists (S k), y. by rewrite Nat.add_succ_r.
Qed.

Lemma points_defs ids : points (flow_defs ids : Flow) = [].
Proof. by induction ids. Qed.

Lemma points_operated collecting e p (f : Flow) pt :
  pt ∈ points (operated collecting e p f) → pt = Operation p ∨ pt ∈ points f.
Proof. unfold operated. case_match; simpl; set_solver. Qed.

(** Opens a membership in the points of a compound flow. *)
Ltac in_points :=
  repeat match goal with
    | H : _ ∈ points (operated _ _ _ _) |- _ => apply points_operated in H as [->|H]
    | H : _ ∈ points (Seq _ _) |- _ => simpl in H
    | H : _ ∈ points (Alt _ _) |- _ => simpl in H
    | H : _ ∈ points (At _) |- _ => simpl in H
    | H : _ ∈ points (Loop _ _) |- _ => simpl in H
    | H : _ ∈ points (entered _ _) |- _ => simpl in H
    | H : _ ∈ points Nop |- _ => by apply elem_of_nil in H
    | H : _ ∈ points (Use _) |- _ => by apply elem_of_nil in H
    | H : _ ∈ points (Def _) |- _ => by apply elem_of_nil in H
    | H : _ ∈ points (Leave _) |- _ => by apply elem_of_nil in H
    | H : _ ∈ points (let '(_, _) := ?x in _) |- _ => destruct x
    | H : _ ∈ points (if ?b then _ else _) |- _ => destruct b
    | H : _ ∈ points (match ?o with Some _ => _ | None => _ end) |- _ => destruct o
    | H : _ ∈ _ ++ _ |- _ => apply elem_of_app in H as [H|H]
    | H : _ ∈ _ :: _ |- _ => apply elem_of_cons in H as [H|H];
        [first [discriminate H | injection H as H; subst | subst]|]
    | H : _ ∈ [] |- _ => by apply elem_of_nil in H
    | H : _ ∈ points (flow_list _ _ _) |- _ => apply points_list in H as (? & ? & ? & H)
    | H : _ ∈ points (flow_choice _ _ _) |- _ => apply points_choice in H as (? & [] & ? & H)
    | H : _ ∈ points (flow_defs _) |- _ => rewrite points_defs in H
    end.

Section places.
Context (collecting : C.Expr → bool).

Definition strictly_below (p q : Path) : Prop := ∃ i, below (i :: p) q.

Definition node_flow (n : Node) (p : Path) : Flow :=
  match n with
  | NExpr e => flow_expression collecting e p
  | NStmt s => flow_statement collecting s p
  | NBlock b => flow_block collecting b p
  | NFunction _ => Nop
  end.

(** The points of a node are below it; those of a block, below its items. *)
Definition node_points (n : Node) : Prop :=
  ∀ p pt, pt ∈ points (node_flow n p) →
  match n with NBlock _ => strictly_below p (path_of pt) | _ => below p (path_of pt) end.

Lemma strictly_below_below p q : strictly_below p q → below p q.
Proof. intros [i H]. by apply below_step in H as []. Qed.

Lemma child_points n p i c pt :
  Forall node_points (children n) → children n !! i = Some c →
  pt ∈ points (node_flow c (i :: p)) → below (i :: p) (path_of pt).
Proof.
  intros HF Hi Hpt. eapply Forall_lookup_1 in HF; [|done]. apply HF in Hpt.
  destruct c; [done|by apply strictly_below_below|done|done].
Qed.

#[local] Ltac by_child Hb :=
  match goal with
  | H : ?l !! ?k = Some _, Hpt : _ ∈ points ?f |- _ =>
      match f with
      | flow_expression _ ?e (?i :: _) => apply (Hb i (NExpr e))
      | flow_block _ ?b (?i :: _) => apply (Hb i (NBlock b))
      | flow_statement _ ?s (?i :: _) => apply (Hb i (NStmt s))
      end; [|exact Hpt]; simpl; unfold expr_children; simpl;
      rewrite <-?list_fmap_compose, ?list_lookup_fmap; rewrite ?H; reflexivity
  | Hpt : _ ∈ points _ |- _ =>
      first [exact (Hb 0%nat _ eq_refl Hpt) | exact (Hb 1%nat _ eq_refl Hpt)
            | exact (Hb 2%nat _ eq_refl Hpt)]
  end.

Lemma expression_points e : Forall node_points (children (NExpr e)) → node_points (NExpr e).
Proof.
  intros HF p pt Hpt.
  assert (Hb : ∀ i c, children (NExpr e) !! i = Some c →
            pt ∈ points (node_flow c (i :: p)) → below p (path_of pt)).
  { intros i c Hi H. eapply below_step. by eapply child_points. }
  simpl in Hpt. destruct e as [kind ty span]; destruct kind; cbn [flow_expression] in Hpt;
    in_points;
    first [reflexivity|apply below_child|by_child Hb].
Qed.

Lemma statement_points s : Forall node_points (children (NStmt s)) → node_points (NStmt s).
Proof.
  intros HF p pt Hpt.
  assert (Hb : ∀ i c, children (NStmt s) !! i = Some c →
            pt ∈ points (node_flow c (i :: p)) → below p (path_of pt)).
  { intros i c Hi H. eapply below_step. by eapply child_points. }
  simpl in Hpt. destruct s as [kind span]; destruct kind as [| |[]| | | | | | | |];
    cbn [flow_statement] in Hpt; in_points; first [reflexivity|apply below_child|by_child Hb].
Qed.

Lemma block_points b : Forall node_points (children (NBlock b)) → node_points (NBlock b).
Proof.
  intros HF p pt Hpt.
  assert (Hb : ∀ i c, children (NBlock b) !! i = Some c →
            pt ∈ points (node_flow c (i :: p)) → strictly_below p (path_of pt)).
  { intros i c Hi H. exists i. by eapply child_points. }
  destruct b as [statements tail falls]. cbn [node_flow flow_block] in Hpt. in_points.
  - apply (Hb (0 + x)%nat (NStmt x0)); [|exact Hpt]. simpl. apply lookup_app_l_Some.
    by rewrite list_lookup_fmap, H.
  - apply (Hb (length statements) (NExpr e)); [|exact Hpt]. simpl.
    by rewrite list_lookup_middle by by rewrite length_fmap.
Qed.

Lemma all_points n : node_points n.
Proof.
  induction n as [[e|b|s|f] HF] using node_ind;
    [by apply expression_points|by apply block_points|by apply statement_points|].
  by intros p pt ?%elem_of_nil.
Qed.

Lemma points_expression_below e p pt :
  pt ∈ points (flow_expression collecting e p) → below p (path_of pt).
Proof. apply (all_points (NExpr e)). Qed.

Lemma points_statement_below s p pt :
  pt ∈ points (flow_statement collecting s p) → below p (path_of pt).
Proof. apply (all_points (NStmt s)). Qed.

Lemma points_block_below b p pt :
  pt ∈ points (flow_block collecting b p) → strictly_below p (path_of pt).
Proof. apply (all_points (NBlock b)). Qed.
End places.

(** ** Disjointness *)

Lemma not_below_self i (p : Path) : ¬ below (i :: p) p.
Proof. by intros [_ []]%below_step. Qed.

(** Two flows of different children of a node, or a child and the node itself, share no
    point. *)
Ltac apart :=
  let pt := fresh "pt" in
  intros pt ? ?; in_points;
  repeat match goal with
    | H : _ ∈ points (flow_expression _ _ _) |- _ => apply points_expression_below in H
    | H : _ ∈ points (flow_statement _ _ _) |- _ => apply points_statement_below in H
    | H : _ ∈ points (flow_block _ _ _) |- _ => apply points_block_below in H as [? H]
    end; simpl in *;
  repeat match goal with
    | H : below (?i :: ?j :: ?p) ?q, H' : below ?p ?q |- _ => fail 1
    | H : below (?i :: ?j :: ?p) ?q |- _ =>
        pose proof (proj1 (below_step _ _ _ H)); revert H
    end; intros;
  first
    [ done | lia
    | match goal with H : below (_ :: ?p) ?p |- _ => by apply not_below_self in H end
    | match goal with
      | H : below (?i :: ?p) ?q, H' : below (?j :: ?p) ?q |- _ =>
          pose proof (below_siblings i j p q H H'); lia
      end
    | match goal with
      | H : below (?i :: ?p) (?j :: ?p) |- _ =>
          pose proof (below_siblings i j p (j :: p) H ltac:(reflexivity)); lia
      end ].
