(* ===== verification/LivenessFacts.v ===== *)
(** The liveness pass is exact and its plan is sound: for every node it finds the locals that
    some run from there on needs, no point of its plan clears a local that is needed, and
    every loop settles within the rounds allowed. *)

From S2P Require Import Prelude Model Nodes Flow Effects RootSlots RootFacts Liveness PlanLogic.

Lemma elem_of_when c (l : Live) x : x ∈ Plan.when c l ↔ c = true ∧ x ∈ l.
Proof. destruct c; simpl; set_solver. Qed.

Section pass.
Context (is_shared : bool) (allocating : gset N) (root : Node).
Context (U : Live) (rounds : nat) (Hrounds : (size U < rounds)%nat).

#[local] Abbreviation ok := (state_ok is_shared allocating root).
#[local] Abbreviation collecting := (collecting is_shared allocating).
#[local] Abbreviation flow_of := (node_flow collecting).
#[local] Abbreviation visit_expression := (Plan.expression allocating rounds).
#[local] Abbreviation visit_statement := (Plan.statement allocating rounds).
#[local] Abbreviation visit_block := (Plan.block allocating rounds).

(** Only the locals of [U] are read, and wanted, around [f]. *)
Definition ready (f : Flow) (L : Live) (tg : Plan.Targets) : Prop :=
  uses f ⊆ U ∧ ∀ e, exits L tg e ⊆ U.

Definition finished (f : Flow) (L : Live) (tg : Plan.Targets) (K : Live)
    (s s' : Plan.State) : Prop :=
  ok s' ∧ visited f L tg K (Plan.plan s) (Plan.plan s').

(** What visiting a node establishes. *)
Definition visits (n : Node) : Prop :=
  ∀ p L tg D future s, node_at root p = Some n → ok s → ready (flow_of n p) L tg →
  match n with
  | NExpr e =>
      wp (visit_expression e p L tg D future) s
        (λ '(K, _) s', finished (flow_expression collecting e p) L tg K s s')
  | NStmt st =>
      wp (visit_statement st p L tg D future) s
        (λ '(K, _, _) s', finished (flow_statement collecting st p) L tg K s s')
  | NBlock b =>
      wp (visit_block b p L tg D future) s
        (λ '(K, _) s', finished (flow_block collecting b p) L tg K s s')
  | NFunction _ => True
  end.

Lemma visited_bound f L tg K pl pl' : visited f L tg K pl pl' → ready f L tg → K ⊆ U.
Proof.
  intros [_ [Hl _]] [Hu He] x Hx. apply Hl in Hx. by eapply demanded_bound.
Qed.

Lemma ready_exits f f' L tg : ready f L tg → uses f' ⊆ uses f → ready f' L tg.
Proof. intros [Hu He] Hs. split; [set_solver|done]. Qed.

Lemma ready_bound f f' L K tg : ready f L tg → uses f' ⊆ uses f → K ⊆ U → ready f' K tg.
Proof.
  intros [Hu He] Hs HK. split; [set_solver|]. intros e. specialize (He e). by destruct e.
Qed.

(** ** Children *)

Section children.
Context (n : Node) (p : Path) (HF : Forall visits (children n)) (Hp : node_at root p = Some n).
Context (tg : Plan.Targets).

Lemma wp_expression i e L D future s Q :
  children n !! i = Some (NExpr e) → ok s → ready (flow_expression collecting e (i :: p)) L tg →
  (∀ K D' s', ok s' → K ⊆ U →
     visited (flow_expression collecting e (i :: p)) L tg K (Plan.plan s) (Plan.plan s') →
     Q (K, D') s') →
  wp (visit_expression e (i :: p) L tg D future) s Q.
Proof.
  intros Hi Hs Hr HQ. eapply Forall_lookup_1 in HF; [|done].
  eapply st_mono; [apply HF; [by apply (node_at_child _ _ n)|done..]|].
  intros [K D'] s' [Hs' Hv]. apply HQ; [done| |done]. by eapply visited_bound.
Qed.

Lemma wp_block i b L tg' D future s Q :
  children n !! i = Some (NBlock b) → ok s → ready (flow_block collecting b (i :: p)) L tg' →
  (∀ K D' s', ok s' → K ⊆ U →
     visited (flow_block collecting b (i :: p)) L tg' K (Plan.plan s) (Plan.plan s') →
     Q (K, D') s') →
  wp (visit_block b (i :: p) L tg' D future) s Q.
Proof.
  intros Hi Hs Hr HQ. eapply Forall_lookup_1 in HF; [|done].
  eapply st_mono; [apply HF; [by apply (node_at_child _ _ n)|done..]|].
  intros [K D'] s' [Hs' Hv]. apply HQ; [done| |done]. by eapply visited_bound.
Qed.

Lemma wp_statement i st L D future s Q :
  children n !! i = Some (NStmt st) → ok s → ready (flow_statement collecting st (i :: p)) L tg →
  (∀ K D' fut' s', ok s' → K ⊆ U →
     visited (flow_statement collecting st (i :: p)) L tg K (Plan.plan s) (Plan.plan s') →
     Q (K, D', fut') s') →
  wp (visit_statement st (i :: p) L tg D future) s Q.
Proof.
  intros Hi Hs Hr HQ. eapply Forall_lookup_1 in HF; [|done].
  eapply st_mono; [apply HF; [by apply (node_at_child _ _ n)|done..]|].
  intros [[K D'] fut'] s' [Hs' Hv]. apply HQ; [done| |done]. by eapply visited_bound.
Qed.

Lemma wp_ask_child i e s Q :
  children n !! i = Some (NExpr e) → ok s →
  (∀ c s', ok s' → Plan.plan s' = Plan.plan s → Q c s') →
  wp (Plan.ask_expression allocating e (i :: p)) s Q.
Proof.
  intros Hi Hs HQ. eapply wp_ask_expression; [by apply (node_at_child _ _ n)|done|]. eauto.
Qed.

Lemma wp_ask_child_block i b s Q :
  children n !! i = Some (NBlock b) → ok s →
  (∀ c s', ok s' → Plan.plan s' = Plan.plan s → Q c s') →
  wp (Plan.ask_block allocating b (i :: p)) s Q.
Proof.
  intros Hi Hs HQ. eapply wp_ask_block; [by apply (node_at_child _ _ n)|done|]. eauto.
Qed.

Lemma wp_or_expression i e future s Q :
  children n !! i = Some (NExpr e) → ok s →
  (∀ c s', ok s' → Plan.plan s' = Plan.plan s → Q c s') →
  wp (Plan.or_expression allocating p i e future) s Q.
Proof.
  intros Hi Hs HQ. apply st_bind. eapply wp_ask_child; [done..|]. intros c s' ??. by apply HQ.
Qed.
End children.

(** ** Lists of children *)

Lemma wp_each_rev {A} (fv : nat → A → Flow) visit tg i l L D future s :
  (∀ k x L' D' future' s', l !! k = Some x → ok s' → ready (fv (i + k)%nat x) L' tg →
     wp (visit (i + k)%nat x L' D' future') s'
       (λ '(K, _, _) s'', finished (fv (i + k)%nat x) L' tg K s' s'')) →
  (∀ j x k y, j < k → disjoint_points (fv j x) (fv k y))%nat →
  ok s → ready (flow_list fv i l) L tg →
  wp (Plan.each_rev visit i l L D future) s
    (λ '(K, _, _) s', finished (flow_list fv i l) L tg K s s').
Proof.
  intros Hv Hd. revert i Hv L D future s.
  induction l as [|x l IH]; intros i Hv L D future s Hs Hr.
  { apply st_ret. split; [done|apply visited_nop]. }
  simpl. apply st_bind. eapply st_mono.
  { apply (IH (S i)); [|done|eapply ready_exits; [exact Hr|simpl; set_solver]].
    intros k y L' D' future' s' Hk. specialize (Hv (S k) y L' D' future' s' Hk).
    by rewrite Nat.add_succ_r in Hv. }
  intros [[M D1] future1] s1 [Hs1 Hv1]. eapply st_mono.
  { specialize (Hv 0%nat x M D1 future1 s1 eq_refl). rewrite Nat.add_0_r in Hv. apply Hv; [done|].
    eapply ready_bound; [exact Hr|simpl; set_solver|]. eapply visited_bound; [exact Hv1|].
    eapply ready_exits; [exact Hr|simpl; set_solver]. }
  intros [[K D2] future2] s2 [Hs2 Hv2]. split; [done|].
  eapply visited_seq; [exact Hv1|exact Hv2|].
  intros pt H1 (k & y & _ & H2)%points_list. eapply (Hd i x (S i + k)%nat y); [lia|done..].
Qed.

Lemma wp_each_value {A} (fv : nat → A → Flow) visit later tg i l L D future s :
  (∀ k x L' D' future' s', l !! k = Some x → ok s' → ready (fv (i + k)%nat x) L' tg →
     wp (visit (i + k)%nat x L' D' future') s'
       (λ '(K, _) s'', finished (fv (i + k)%nat x) L' tg K s' s'')) →
  (∀ k x future' s', l !! k = Some x → ok s' →
     wp (later (i + k)%nat x future') s' (λ _ s'', ok s'' ∧ Plan.plan s'' = Plan.plan s')) →
  (∀ j x k y, j < k → disjoint_points (fv j x) (fv k y))%nat →
  ok s → ready (flow_list fv i l) L tg →
  wp (Plan.each_value visit later i l L D future) s
    (λ '(K, _, _) s', finished (flow_list fv i l) L tg K s s').
Proof.
  intros Hv Hl. apply wp_each_rev. intros k x L' D' future' s' Hk Hs Hr.
  apply st_bind. eapply st_mono; [by apply Hv|]. intros [K D1] s1 [Hs1 Hv1].
  apply st_bind. eapply st_mono; [by apply Hl|]. intros future2 s2 [Hs2 Hpl].
  apply st_ret. split; [done|]. by rewrite Hpl.
Qed.

(** ** Expressions *)

(** The restore point of an expression, around the rest of its visit. *)
Lemma wp_operated e p (core : Plan.M (Live * Live)) f L tg s :
  node_at root p = Some (NExpr e) → ok s → disjoint_points f (At (Operation p)) →
  (∀ s', ok s' → wp core s' (λ '(K, _) s'', finished f L tg K s' s'')) →
  wp (c ← Plan.ask_expression allocating e p;
      (if (c : bool) then Plan.insert_restore p L else mret tt) ;; core) s
    (λ '(K, _) s', finished (operated collecting e p f) L tg K s s').
Proof.
  intros Hp Hs Hd Hcore. apply st_bind. eapply wp_ask_expression; [exact Hp|exact Hs|].
  intros s1 Hs1 Hpl. unfold operated. destruct (collecting e); apply st_bind.
  - apply wp_insert_restore with (tg := tg). intros s2 Hq Hv. eapply st_mono.
    { apply Hcore. by eapply state_ok_query. }
    intros [K D'] s3 [Hs3 Hv3]. split; [done|]. rewrite <-Hpl. by eapply visited_seq.
  - apply st_ret. eapply st_mono; [by apply Hcore|].
    intros [K D'] s3 [Hs3 Hv3]. split; [done|]. by rewrite <-Hpl.
Qed.

(** Operands: the children of a node from step [i] on. *)
Lemma wp_values {A} (value : A → C.Expr) n p i l later L tg D future s :
  Forall visits (children n) → node_at root p = Some n →
  (∀ k x, l !! k = Some x → children n !! (i + k)%nat = Some (NExpr (value x))) →
  (∀ k x future' s', l !! k = Some x → ok s' →
     wp (later (i + k)%nat x future') s' (λ _ s'', ok s'' ∧ Plan.plan s'' = Plan.plan s')) →
  ok s → ready (flow_list (λ j x, flow_expression collecting (value x) (j :: p)) i l) L tg →
  wp (Plan.each_value
        (λ j x live definitions future,
           visit_expression (value x) (j :: p) live tg definitions future)
        later i l L D future) s
    (λ '(K, _, _) s',
       finished (flow_list (λ j x, flow_expression collecting (value x) (j :: p)) i l) L tg K s s').
Proof.
  intros HF Hp Hi Hl Hs Hr. apply wp_each_value; [|done| |done|done].
  - intros k x L' D' future' s' Hk Hs' Hr'. eapply wp_expression; [exact HF|exact Hp|by apply Hi|done..|].
    intros K D1 s1 Hs1 _ Hv. by split.
  - intros j x k y Hjk. apart.
Qed.

Lemma wp_operands {A} (value : A → C.Expr) n p l L tg D future s :
  Forall visits (children n) → node_at root p = Some n →
  (∀ k x, l !! k = Some x → children n !! k = Some (NExpr (value x))) →
  ok s → ready (flow_list (λ j x, flow_expression collecting (value x) (j :: p)) 0 l) L tg →
  wp ('(live, definitions, _) ← Plan.each_value
        (λ j x live definitions future,
           visit_expression (value x) (j :: p) live tg definitions future)
        (λ j x, Plan.or_expression allocating p j (value x)) 0 l L D future;
      mret (live, definitions)) s
    (λ '(K, _) s',
       finished (flow_list (λ j x, flow_expression collecting (value x) (j :: p)) 0 l) L tg K s s').
Proof.
  intros HF Hp Hi Hs Hr. apply st_bind. eapply st_mono.
  { eapply (wp_values value n); [done..| |done|done]. intros k x future' s' Hk Hs'.
    eapply wp_or_expression; [exact Hp|by apply Hi|done|]. done. }
  intros [[K D'] ?] s' Hf. by apply st_ret.
Qed.

Lemma wp_callee n p callee l L tg D s :
  Forall visits (children n) → node_at root p = Some n →
  children n = NExpr callee :: (NExpr <$> l) → ok s →
  ready (Seq (flow_expression collecting callee (0%nat :: p))
           (flow_list (λ j x, flow_expression collecting x (j :: p)) 1 l)) L tg →
  wp ('(live, definitions, _) ← Plan.each_value
        (λ j x live definitions future,
           visit_expression x (j :: p) live tg definitions future)
        (λ _ _, mret) 1 l L D true;
      visit_expression callee (0%nat :: p) live tg definitions true) s
    (λ '(K, _) s', finished
       (Seq (flow_expression collecting callee (0%nat :: p))
          (flow_list (λ j x, flow_expression collecting x (j :: p)) 1 l)) L tg K s s').
Proof.
  intros HF Hp Hc Hs Hr.
  assert (Hr' : ready (flow_list (λ j x, flow_expression collecting x (j :: p)) 1 l) L tg)
    by (eapply ready_exits; [exact Hr|simpl; set_solver]).
  apply st_bind. eapply st_mono.
  { eapply (wp_values (λ x, x) n); [done..| | |done|exact Hr'].
    - intros k x Hk. rewrite Hc. simpl. by rewrite list_lookup_fmap, Hk.
    - intros k x future' s' _ ?. by apply st_ret. }
  intros [[M D1] ?] s1 [Hs1 Hv1]. eapply (wp_expression n p HF Hp); [by rewrite Hc|done| |].
  { eapply ready_bound; [exact Hr|simpl; set_solver|]. by eapply visited_bound. }
  intros K D2 s2 Hs2 _ Hv2. split; [done|]. eapply visited_seq; [done..|]. apart.
Qed.

#[local] Ltac sub := first [assumption | simpl; set_solver].
#[local] Ltac is_ready :=
  match goal with Hr : ready ?f _ _ |- ready _ _ _ =>
    first [ eapply ready_exits; [exact Hr|sub] | eapply ready_bound; [exact Hr|sub|sub] ] end.

Lemma wp_or_ask_child n p i e future s Q :
  node_at root p = Some n → children n !! i = Some (NExpr e) → ok s →
  (∀ c s', ok s' → Plan.plan s' = Plan.plan s → Q c s') →
  wp (Plan.or_ask future (Plan.ask_expression allocating e (i :: p))) s Q.
Proof.
  intros Hp Hi Hs HQ. destruct future; simpl; [by apply HQ|].
  by eapply (wp_ask_child n).
Qed.
Definition simple (kind : C.ExprKind) : bool :=
  match kind with C.BinaryOp _ _ _ | C.If _ _ _ | C.Match _ _ => false | _ => true end.

Lemma ready_operated e p f L tg : ready (operated collecting e p f) L tg → ready f L tg.
Proof. intros Hr. eapply ready_exits; [exact Hr|]. unfold operated. case_match; simpl; set_solver. Qed.

#[local] Ltac open_expression Hp Hr :=
  cbn [node_flow flow_expression flow_block flow_statement] in *;
  apply ready_operated in Hr; cbn [Plan.expression Plan.statement Plan.block];
  apply wp_operated; [exact Hp|assumption|apart|].

(** A leaf, an operand in the place of its parent, and a list of operands. *)
#[local] Ltac by_leaf := apply st_ret; split; [assumption|apply visited_nop].
#[local] Ltac by_value HF Hp :=
  eapply (wp_expression _ _ HF Hp); [reflexivity|assumption|is_ready|];
  let Hv := fresh in intros ??? ? _ Hv; split; [assumption|exact Hv].
#[local] Ltac by_block HF Hp :=
  eapply (wp_block _ _ HF Hp); [reflexivity|assumption|is_ready|];
  let Hv := fresh in intros ??? ? _ Hv; split; [assumption|exact Hv].
#[local] Ltac by_lookup :=
  let H := fresh in intros ?? H; simpl; unfold expr_children; simpl;
  rewrite <-?list_fmap_compose, list_lookup_fmap, H; reflexivity.
#[local] Ltac by_operands HF Hp :=
  first
    [ eapply (wp_operands (λ x : C.Expr, x) _ _ _ _ _ _ _ _ HF Hp); [by_lookup|assumption|assumption]
    | eapply (wp_operands snd _ _ _ _ _ _ _ _ HF Hp); [by_lookup|assumption|assumption]
    | eapply (wp_callee _ _ _ _ _ _ _ _ HF Hp); [reflexivity|assumption|assumption] ].

Lemma simple_visits kind ty span :
  simple kind = true → Forall visits (children (NExpr (C.mkExpr kind ty span))) →
  visits (NExpr (C.mkExpr kind ty span)).
Proof.
  intros Hk HF p L tg D future s Hp Hs Hr.
  destruct kind; try done; open_expression Hp Hr; clear s Hs; intros s Hs.
  all: first
    [ by_leaf | by_value HF Hp | by_operands HF Hp
    | by_block HF Hp | idtac ].
  - apply st_bind. apply wp_retirement with (L := L) (tg := tg).
    { intros x [[[_ Hx%negb_true_iff%bool_decide_eq_false]%andb_true_iff _]%andb_true_iff
        ->%elem_of_singleton]%elem_of_when. done. }
    intros s1 Hq Hv. apply st_ret. split; [by eapply state_ok_query|].
    eapply visited_seq; [exact Hv|apply visited_use|apart].
  - apply st_bind. eapply (wp_expression _ _ HF Hp); [reflexivity|done|is_ready|].
    intros M D1 s1 Hs1 HM Hv1. apply st_bind.
    eapply wp_or_ask_child; [exact Hp|reflexivity|done|]. intros c s2 Hs2 Hpl.
    eapply (wp_expression _ _ HF Hp); [reflexivity|done|is_ready|].
    intros K D2 s3 Hs3 _ Hv3. rewrite Hpl in Hv3. split; [done|].
    eapply visited_seq; [exact Hv1|exact Hv3|apart].
  - apply st_bind. apply wp_retirement with (L := L) (tg := tg).
    { destruct (Plan.field_local value); [|set_solver].
      intros x [[_ Hx%negb_true_iff%bool_decide_eq_false]%andb_true_iff
        ->%elem_of_singleton]%elem_of_when. done. }
    intros s1 Hq Hv. eapply (wp_expression _ _ HF Hp); [reflexivity|by eapply state_ok_query|is_ready|].
    intros K D' s2 Hs2 _ Hv2. split; [done|]. eapply visited_seq; [exact Hv|exact Hv2|apart].
Qed.


Lemma binary_visits operation l r ty span :
  Forall visits (children (NExpr (C.mkExpr (C.BinaryOp operation l r) ty span))) →
  visits (NExpr (C.mkExpr (C.BinaryOp operation l r) ty span)).
Proof.
  intros HF p L tg D future s Hp Hs Hr. open_expression Hp Hr; clear s Hs; intros s Hs.
  destruct (Plan.short_circuit operation); apply st_bind;
    (eapply (wp_expression _ _ HF Hp); [reflexivity|done|is_ready|]);
    intros M D1 s1 Hs1 HM Hv1; apply st_bind.
  - apply st_bind. apply wp_retirement with (L := L) (tg := tg).
    { intros x [_ [_ Hx]%elem_of_difference]%elem_of_when. done. }
    intros s2 Hq Hv2. apply st_ret. apply st_bind.
    eapply wp_or_ask_child; [exact Hp|reflexivity|by eapply state_ok_query|]. intros c s3 Hs3 Hpl.
    eapply (wp_expression _ _ HF Hp); [reflexivity|done| |].
    { eapply ready_bound; [exact Hr|simpl; set_solver|]. destruct Hr as [_ Hr].
      specialize (Hr Normal). simpl in Hr. set_solver. }
    intros K D2 s4 Hs4 _ Hv4. rewrite Hpl in Hv4. split; [done|].
    eapply visited_seq; [|exact Hv4|apart].
    eapply visited_seq_late; [|exact Hv2|apart].
    eapply visited_alt; [exact Hv1|apply visited_nop|apart].
  - apply st_ret. apply st_bind.
    eapply wp_or_ask_child; [exact Hp|reflexivity|done|]. intros c s2 Hs2 Hpl.
    eapply (wp_expression _ _ HF Hp); [reflexivity|done|is_ready|].
    intros K D2 s3 Hs3 _ Hv3. rewrite Hpl in Hv3. split; [done|].
    eapply visited_seq; [exact Hv1|exact Hv3|apart].
Qed.

(** *** Branches *)

Lemma wp_or_ask_block n p i b future s Q :
  node_at root p = Some n → children n !! i = Some (NBlock b) → ok s →
  (∀ c s', ok s' → Plan.plan s' = Plan.plan s → Q c s') →
  wp (Plan.or_ask future (Plan.ask_block allocating b (i :: p))) s Q.
Proof.
  intros Hp Hi Hs HQ. destruct future; simpl; [by apply HQ|].
  by eapply (wp_ask_child_block n).
Qed.

(** The chain of visits from a plan on; what was found at its start still holds at its end. *)
#[local] Ltac chain := repeat (eapply frames_cons; [eassumption|]); apply frames_nil.
#[local] Ltac by_frames :=
  eapply frames_frame; [chain|repeat constructor; simpl; set_solver].
#[local] Ltac later S := eapply sound_frames; [exact S|chain|repeat constructor; apart].

Lemma if_visits condition then_body else_body ty span :
  Forall visits (children (NExpr (C.mkExpr (C.If condition then_body else_body) ty span))) →
  visits (NExpr (C.mkExpr (C.If condition then_body else_body) ty span)).
Proof.
  intros HF p L tg D future s Hp Hs Hr. open_expression Hp Hr; clear s Hs; intros s Hs.
  apply st_bind. eapply (wp_block _ _ HF Hp); [reflexivity|done|is_ready|].
  intros Y D1 s1 Hs1 HY [F1 S1]. apply st_bind.
  destruct else_body as [else_body|].
  - eapply (wp_block _ _ HF Hp); [reflexivity|done|is_ready|].
    intros N D2 s2 Hs2 HN [F2 S2]. apply st_bind.
    apply wp_retirement with (L := L) (tg := tg).
    { intros x [_ [_ Hx]%elem_of_difference]%elem_of_when. done. }
    intros s3 Hq3 [F3 S3]. apply st_bind.
    eapply wp_or_ask_block; [exact Hp|reflexivity|by eapply state_ok_query|].
    intros c1 s3' Hs3 Hpl3. apply st_bind. apply wp_insert_entry with (L := Y) (tg := tg).
    { intros x [_ [_ Hx]%elem_of_difference]%elem_of_when. done. }
    rewrite Hpl3. intros s4 Hq4 [F4 S4]. apply st_bind. apply st_bind.
    eapply wp_or_ask_block; [exact Hp|reflexivity|by eapply state_ok_query|].
    intros c2 s4' Hs4 Hpl4. apply wp_insert_entry with (L := N) (tg := tg).
    { intros x [_ [_ Hx]%elem_of_difference]%elem_of_when. done. }
    rewrite Hpl4. intros s5 Hq5 [F5 S5]. apply st_bind.
    eapply wp_or_ask_block; [exact Hp|reflexivity|by eapply state_ok_query|].
    intros c3 s5' Hs5 Hpl5.
    eapply (wp_expression _ _ HF Hp); [reflexivity|done|is_ready|].
    rewrite Hpl5. intros K D6 s6 Hs6 _ [F6 S6]. split; [done|]. split.
    + by_frames.
    + eapply sound_seq; [|exact S6]. eapply sound_seq; [later S3|].
      apply sound_alt; (eapply sound_seq; [later S1 || later S2|later S4 || later S5]).
  - apply st_ret. apply st_bind. apply wp_retirement with (L := L) (tg := tg).
    { intros x [_ [_ Hx]%elem_of_difference]%elem_of_when. done. }
    intros s3 Hq3 [F3 S3]. apply st_bind.
    eapply wp_or_ask_block; [exact Hp|reflexivity|by eapply state_ok_query|].
    intros c1 s3' Hs3 Hpl3. apply st_bind. apply wp_insert_entry with (L := Y) (tg := tg).
    { intros x [_ [_ Hx]%elem_of_difference]%elem_of_when. done. }
    rewrite Hpl3. intros s4 Hq4 [F4 S4]. apply st_bind. apply st_ret. apply st_bind.
    apply wp_or_ask with (s := s4) (is_shared := is_shared) (allocating := allocating) (root := root);
      [by eapply state_ok_query| |by intros; apply st_ret].
    intros s5 Hs5 Hpl5 c3.
    assert (HL : L ⊆ U) by (destruct Hr as [_ Hr]; apply (Hr Normal)).
    eapply (wp_expression _ _ HF Hp); [reflexivity|done|is_ready|].
    rewrite Hpl5. intros K D6 s6 Hs6 _ [F6 S6]. split; [done|]. split; [by_frames|].
    eapply sound_seq; [|exact S6]. eapply sound_seq; [later S3|].
    apply sound_alt; [|apply sound_nop]. eapply sound_seq; [later S1|later S4].
Qed.

(** *** Matches *)

Lemma sound_defs bad ids L tg :
  sound bad (flow_defs ids : Flow) (exits L tg) (L ∖ list_to_set ids).
Proof.
  induction ids as [|x ids IH]; simpl.
  - replace (L ∖ ∅) with L by set_solver. apply sound_nop.
  - replace (L ∖ ({[x]} ∪ list_to_set ids)) with ((L ∖ list_to_set ids) ∖ {[x]}) by set_solver.
    eapply sound_seq; [exact IH|apply sound_def].
Qed.

Section arms.
Context (p : Path) (L : Live) (tg : Plan.Targets).

Definition arm_flow (i : nat) '(C.mkArm _ bindings whole body) : Flow :=
  Seq (flow_defs (Plan.bound bindings whole))
    (entered (i :: p) (flow_block collecting body (i :: p))).

Definition arms_blocks : nat → list C.MatchArm → Flow :=
  flow_choice (λ i '(C.mkArm _ _ _ body), flow_block collecting body (i :: p)).

Definition arms_entries : nat → list C.MatchArm → Flow :=
  flow_choice (λ i _, At (Entry (i :: p))).

(** What the first loop over the arms has found: the needs of each body, and, together, those
    of the arms once their bindings are made. *)
Inductive arms_visited (pl : Plan.Plan)
    : nat → list C.MatchArm → list (nat * Live * bool) → Live → Prop :=
  | arms_visited_nil i : arms_visited pl i [] [] ∅
  | arms_visited_cons i v bindings whole body arms before c inc B :
      sound (forbidden pl) (flow_block collecting body (i :: p)) (exits L tg) before →
      arms_visited pl (S i) arms inc B →
      arms_visited pl i (C.mkArm v bindings whole body :: arms) ((i, before, c) :: inc)
        (before ∖ list_to_set (Plan.bound bindings whole) ∪ B).

Lemma arms_visited_frame pl pl' g i arms inc B :
  arms_visited pl i arms inc B → frame g pl pl' →
  (∀ j body, i ≤ j → disjoint_points (flow_block collecting body (j :: p)) g)%nat →
  arms_visited pl' i arms inc B.
Proof.
  intros Ha Hf. induction Ha as [|i v bindings whole body arms before c inc B Hb _ IH];
    intros Hd; constructor.
  - eapply sound_frame; [exact Hb|exact Hf|]. by apply Hd.
  - apply IH. intros j b Hj. apply Hd. lia.
Qed.

Lemma wp_each_arm n future i arms branches inc0 D collecting0 s :
  Forall visits (children n) → node_at root p = Some n →
  (∀ k a, arms !! k = Some a → children n !! (i + k)%nat = Some (NBlock (arm_body a))) →
  ok s → ready (arms_blocks i arms) L tg →
  wp (Plan.each_arm
        (λ j body definitions, visit_block body (j :: p) L tg definitions future)
        (λ j body, Plan.ask_block allocating body (j :: p)) future i arms branches inc0 D
        collecting0) s
    (λ '(branches', inc', _, _) s',
       ok s' ∧ frame (arms_blocks i arms) (Plan.plan s) (Plan.plan s') ∧
       ∃ inc B, inc' = inc0 ++ inc ∧ branches' = branches ∪ B ∧ B ⊆ U ∧
         arms_visited (Plan.plan s') i arms inc B).
Proof.
  intros HF Hp. revert i branches inc0 D collecting0 s.
  induction arms as [|[v bindings whole body] arms IH];
    intros i branches inc0 D collecting0 s Hi Hs Hr.
  { apply st_ret. split_and!; [done|done|]. exists [], ∅.
    rewrite app_nil_r, union_empty_r_L. split_and!; [done..|set_solver|constructor]. }
  cbn [Plan.each_arm]. apply st_bind.
  eapply (wp_block n p HF Hp); [|done| |].
  { specialize (Hi 0%nat _ eq_refl). by rewrite Nat.add_0_r in Hi. }
  { eapply ready_exits; [exact Hr|simpl; set_solver]. }
  intros before D1 s1 Hs1 Hb [F1 S1]. apply st_bind. eapply wp_or_ask_block; [exact Hp| |done|].
  { specialize (Hi 0%nat _ eq_refl). by rewrite Nat.add_0_r in Hi. }
  intros c s2 Hs2 Hpl. eapply st_mono.
  { apply (IH (S i)); [|done|eapply ready_exits; [exact Hr|simpl; set_solver]].
    intros k a Hk. specialize (Hi (S k) a Hk). by rewrite Nat.add_succ_r in Hi. }
  intros [[[branches' inc'] ?] ?] s3 (Hs3 & F3 & inc & B & -> & -> & HB & Ha). rewrite Hpl in F3.
  split; [done|]. split; [eapply frame_trans; [exact F1|exact F3|simpl; set_solver..]|].
  exists ((i, before, c) :: inc), (before ∖ list_to_set (Plan.bound bindings whole) ∪ B).
  split_and!.
  - by rewrite <-(assoc_L (++)).
  - set_solver.
  - set_solver.
  - constructor; [|done]. eapply sound_frame; [exact S1|exact F3|]. unfold arms_blocks. apart.
Qed.

Lemma wp_insert_entries branches i arms inc B s :
  arms_visited (Plan.plan s) i arms inc B → ok s →
  wp (Plan.insert_entries p branches inc) s
    (λ _ s', ok s' ∧ frame (arms_entries i arms) (Plan.plan s) (Plan.plan s') ∧
       sound (forbidden (Plan.plan s')) (flow_choice arm_flow i arms) (exits L tg) B).
Proof.
  revert i arms B s. induction inc as [|[[j bf] c] inc IH]; intros i arms B s Ha Hs;
    inversion Ha as [|? v bindings whole body arms' ? ? ? B' Hb Ha']; subst.
  { apply st_ret. split_and!; [done|done|]. apply (sound_leave _ Returned). }
  simpl. apply st_bind. apply wp_insert_entry with (L := bf) (tg := tg).
  { intros x [_ [_ Hx]%elem_of_difference]%elem_of_when. done. }
  intros s1 Hq [F1 S1]. eapply st_mono.
  { apply (IH (S j) arms'); [|by eapply state_ok_query].
    eapply arms_visited_frame; [exact Ha'|exact F1|]. intros k b Hk. apart. }
  intros _ s2 (Hs2 & F2 & S2). split; [done|].
  split; [eapply frame_trans; [exact F1|exact F2|simpl; set_solver..]|].
  apply sound_alt; [|exact S2]. eapply sound_seq; [|apply sound_defs].
  eapply sound_seq.
  - eapply sound_frames; [exact Hb|chain|repeat constructor; unfold arms_entries; apart].
  - eapply sound_frames; [exact S1|chain|repeat constructor; unfold arms_entries; apart].
Qed.

Lemma arms_parts i arms :
  uses (arms_blocks i arms) ⊆ uses (flow_choice arm_flow i arms) ∧
  points (arms_blocks i arms) ⊆ points (flow_choice arm_flow i arms) ∧
  points (arms_entries i arms) ⊆ points (flow_choice arm_flow i arms).
Proof.
  revert i. induction arms as [|[v bindings whole body] arms IH]; intros i; [done|].
  destruct (IH (S i)) as (? & ? & ?). simpl. set_solver.
Qed.
End arms.

Lemma match_visits value arms ty span :
  Forall visits (children (NExpr (C.mkExpr (C.Match value arms) ty span))) →
  visits (NExpr (C.mkExpr (C.Match value arms) ty span)).
Proof.
  intros HF p L tg D future s Hp Hs Hr. open_expression Hp Hr; clear s Hs; intros s Hs.
  change (flow_choice _ 1 arms) with (flow_choice (arm_flow p) 1 arms) in *.
  apply st_bind. eapply st_mono.
  { eapply (wp_each_arm p L tg _ future 1 arms ∅ [] D future s HF Hp); [|done|].
    - intros k a Hk. simpl. unfold expr_children. simpl.
      by rewrite <-list_fmap_compose, list_lookup_fmap, Hk.
    - eapply ready_exits; [exact Hr|]. destruct (arms_parts p 1 arms) as [? _]. simpl. set_solver. }
  intros [[[branches inc] D1] collecting1] s1 (Hs1 & F1 & inc' & B & -> & -> & HB & Ha).
  apply st_bind. eapply st_mono; [by eapply wp_insert_entries|].
  intros _ s2 (Hs2 & F2 & S2). rewrite union_empty_l_L.
  eapply (wp_expression _ _ HF Hp); [reflexivity|done|is_ready|].
  intros K D2 s3 Hs3 _ [F3 S3]. split; [done|]. split.
  - destruct (arms_parts p 1 arms) as (_ & ? & ?).
    eapply frames_frame; [chain|repeat constructor; simpl; set_solver].
  - eapply sound_seq; [|exact S3]. eapply sound_frame; [exact S2|exact F3|].
    unfold arm_flow. apart.
Qed.

(** *** Loops *)

Lemma exits_grow (L head next : Live) :
  head ⊆ next → ∀ e, exits head (Some (L, head)) e ⊆ exits next (Some (L, next)) e.
Proof. by intros ? []. Qed.

Lemma is_live_entered (f : Flow) q L tg K :
  is_live f (exits L tg) K → is_live (entered q f) (exits L tg) K.
Proof.
  intros Hf. apply (sound_seq (λ _ _, False) (At (Entry q)) f L K K tg).
  - split; [done|]. intros ??????. done.
  - by apply sound_at.
Qed.

Section heads.
Context (c body : Flow) (q : Path) (L : Live) (tg : Plan.Targets).

Let b : Flow := entered q body.

Definition round_found (head before next : Live) (s s' : Plan.State) : Prop :=
  ok s' ∧ frame (Loop c b) (Plan.plan s) (Plan.plan s') ∧
  sound (forbidden (Plan.plan s')) body (exits head (Some (L, head))) before ∧
  sound (forbidden (Plan.plan s')) c (exits (L ∪ before) tg) next ∧ next ⊆ U.

(** A further round can only add to the candidate. *)
Definition ascending (head : Live) : Prop :=
  ∀ before next, is_live b (exits head (Some (L, head))) before →
  is_live c (exits (L ∪ before) tg) next → head ⊆ next.

Lemma ascending_next head before next :
  ascending head → is_live b (exits head (Some (L, head))) before →
  is_live c (exits (L ∪ before) tg) next → ascending next.
Proof.
  intros Ha Hb Hc before' next' Hb' Hc' x Hx. apply Hc in Hx. apply Hc'.
  revert Hx. apply demanded_mono. intros e. apply exits_mono.
  assert (before ⊆ before'); [|set_solver]. intros y Hy. apply Hb in Hy. apply Hb'.
  revert Hy. apply demanded_mono. apply exits_grow. by eapply Ha.
Qed.

Lemma wp_find_head round fuel head written s :
  (∀ head written s, ok s → head ⊆ U →
     wp (round head written) s (λ '(before, next, _) s', round_found head before next s s')) →
  ok s → head ⊆ U → (∀ x, x ∈ head → demanded x (Loop c b) (exits L tg)) → ascending head →
  (size U - size head < fuel)%nat →
  wp (Plan.find_head round fuel head written) s
    (λ '(before, head', _) s', round_found head' before head' s s' ∧
       ∀ x, x ∈ head' → demanded x (Loop c b) (exits L tg)).
Proof.
  intros Hround. revert head written s.
  induction fuel as [|fuel IH]; intros head written s Hs HU Hdem Hasc Hfuel; [lia|].
  simpl. apply st_bind. eapply st_mono; [by apply Hround|].
  intros [[before next] written'] s1 (Hs1 & F1 & Sb & Sc & Hn).
  assert (Lb : is_live b (exits head (Some (L, head))) before) by apply is_live_entered, Sb.
  assert (Hle : head ⊆ next) by (eapply Hasc; [exact Lb|apply Sc]).
  case_bool_decide as Heq.
  - apply st_ret. subst next. split; [|done]. by split_and!.
  - eapply st_mono.
    { apply IH; [done|done| | |].
      - eapply loop_grows; [exact Hdem|exact Lb|apply Sc].
      - eapply ascending_next; [exact Hasc|exact Lb|apply Sc].
      - assert (size head < size next)%nat by (apply subset_size; set_solver).
        assert (size next ≤ size U)%nat by by apply subseteq_size.
        lia. }
    intros [[before' head'] w] s2 [(Hs2 & F2 & Hfound) Hd]. split; [|done].
    split; [done|]. split; [|done]. eapply frame_trans; [exact F1|exact F2|done|done].
Qed.
End heads.


(** *** Statements *)

Lemma while_visits n condition body p L tg s :
  Forall visits (children n) → node_at root p = Some n →
  children n = [NExpr condition; NBlock body] → ok s →
  ready (Loop (flow_expression collecting condition (0%nat :: p))
           (entered (1%nat :: p) (flow_block collecting body (1%nat :: p)))) L tg →
  ∀ future,
  wp ('(before, head, written) ←
        Plan.find_head (λ head written,
          '(before, written) ←
            visit_block body (1%nat :: p) head (Some (L, head)) written future;
          '(next, written) ←
            visit_expression condition (0%nat :: p) (L ∪ before) tg written future;
          mret (before, next, written)) rounds ∅ ∅;
      Plan.insert_entry (1%nat :: p) (Plan.when future (head ∖ before)) ;;
      mret (head, written, future)) s
    (λ '(K, _, _) s', finished
       (Loop (flow_expression collecting condition (0%nat :: p))
          (entered (1%nat :: p) (flow_block collecting body (1%nat :: p)))) L tg K s s').
Proof.
  intros HF Hp Hn Hs Hr future. apply st_bind. eapply st_mono.
  { apply (wp_find_head (flow_expression collecting condition (0%nat :: p))
             (flow_block collecting body (1%nat :: p)) (1%nat :: p) L tg);
      [|done|set_solver|set_solver|intros ????; set_solver|rewrite size_empty; lia].
    intros head written s0 Hs0 HU. apply st_bind.
    eapply (wp_block n p HF Hp); [by rewrite Hn|done| |].
    { destruct Hr as [Hr1 Hr2]. split; [simpl in *; set_solver|].
      intros []; simpl; [done|apply (Hr2 Normal)|done|set_solver]. }
    intros before D1 s1 Hs1 HB [F1 S1]. apply st_bind.
    eapply (wp_expression n p HF Hp); [by rewrite Hn|done| |].
    { eapply ready_bound; [exact Hr|simpl; set_solver|]. destruct Hr as [_ Hr].
      specialize (Hr Normal). simpl in Hr. set_solver. }
    intros next D2 s2 Hs2 HN [F2 S2]. apply st_ret. split_and!; [done|by_frames| |done|done].
    eapply sound_frame; [exact S1|exact F2|apart]. }
  intros [[before head] written] s1 [(Hs1 & F1 & Sb & Sc & HU) Hdem]. apply st_bind.
  apply wp_insert_entry with (L := before) (tg := Some (L, head)).
  { intros x [_ [_ Hx]%elem_of_difference]%elem_of_when. done. }
  intros s2 Hq [F2 S2]. apply st_ret. split; [by eapply state_ok_query|].
  split; [eapply frame_trans; [exact F1|exact F2|done|simpl; set_solver]|].
  eapply sound_loop; [| |exact Hdem].
  - eapply sound_seq; [|exact S2]. eapply sound_frame; [exact Sb|exact F2|apart].
  - eapply sound_frame; [exact Sc|exact F2|apart].
Qed.

Lemma wp_retire p L tg D future visit f s :
  disjoint_points f (At (After p)) →
  wp visit s (λ '(K, _, _) s', finished f L tg K s s') →
  wp (Plan.retire p L D future visit) s
    (λ '(K, _, _) s', finished (Seq f (At (After p))) L tg K s s').
Proof.
  intros Hd Hcore. apply st_bind. eapply st_mono; [exact Hcore|].
  intros [[K W] fut'] s1 [Hs1 Hv1]. apply st_bind.
  apply wp_insert_retired with (L := L) (tg := tg).
  { intros x [_ [_ Hx]%elem_of_difference]%elem_of_when. done. }
  intros s2 Hq Hv2. apply st_ret. split; [by eapply state_ok_query|].
  by eapply visited_seq_late.
Qed.

#[local] Ltac by_let HF Hp Hr :=
  apply st_bind; eapply (wp_expression _ _ HF Hp);
    [reflexivity|done
    |eapply ready_bound; [exact Hr|simpl; set_solver|];
       pose proof (proj2 Hr Normal) as HL; simpl in HL; set_solver|];
  intros K D1 s1 Hs1 _ Hv1; apply st_bind;
  eapply (wp_or_expression _ _ Hp); [reflexivity|done|]; intros c s2 Hs2 Hpl; apply st_ret;
  split; [done|]; rewrite Hpl; eapply visited_seq; [apply visited_def|exact Hv1|apart].
#[local] Ltac by_condition HF Hp :=
  apply st_bind; eapply (wp_expression _ _ HF Hp); [reflexivity|done|is_ready|];
  intros K D1 s1 Hs1 _ Hv1; apply st_bind;
  eapply (wp_or_expression _ _ Hp); [reflexivity|done|]; intros c s2 Hs2 Hpl; apply st_ret;
  split; [done|]; by rewrite Hpl.

Lemma statement_visits st : Forall visits (children (NStmt st)) → visits (NStmt st).
Proof.
  intros HF p L tg D future s Hp Hs Hr.
  destruct st as [kind span].
  destruct kind as [local value|local value|[value|]|value ?|value|value|condition body| | | |? body];
    cbn [Plan.statement node_flow flow_statement] in *; (apply wp_retire; [apart|]).
  - by_let HF Hp Hr.
  - by_let HF Hp Hr.
  - apply st_bind. eapply (wp_expression _ _ HF Hp); [reflexivity|done|is_ready|].
    intros K D1 s1 Hs1 _ Hv1. apply st_bind.
    eapply (wp_ask_child _ _ Hp); [reflexivity|done|]. intros c s2 Hs2 Hpl. apply st_ret.
    split; [done|]. rewrite Hpl. eapply visited_seq; [apply visited_leave|exact Hv1|apart].
  - apply st_ret. split; [done|apply (visited_leave Returned)].
  - by_condition HF Hp.
  - by_condition HF Hp.
  - by_condition HF Hp.
  - apply st_bind. eapply (wp_ask_child _ _ Hp); [reflexivity|done|]. intros c s1 Hs1 Hpl1.
    apply st_bind. eapply wp_or_ask_block; [exact Hp|reflexivity|done|]. intros c2 s2 Hs2 Hpl2.
    eapply st_mono.
    { eapply (while_visits (NStmt (C.mkStmt (C.While condition body) span)));
        [exact HF|exact Hp|reflexivity|done|is_ready]. }
    intros [[K W] fut'] s3 [Hs3 Hv3]. split; [done|]. by rewrite <-Hpl1, <-Hpl2.
  - apply st_ret. split; [done|apply (visited_leave Broke L)].
  - apply st_ret. split; [done|apply (visited_leave Continued L)].
  - apply st_ret. split; [done|apply visited_nop].
  - apply st_bind. eapply (wp_ask_child_block _ _ Hp); [reflexivity|done|].
    intros c s1 Hs1 Hpl. apply st_ret. split; [done|]. rewrite Hpl. apply visited_nop.
Qed.

Lemma block_visits b : Forall visits (children (NBlock b)) → visits (NBlock b).
Proof.
  intros HF p L tg D future s Hp Hs Hr. destruct b as [statements tail falls].
  cbn [Plan.block node_flow flow_block] in *.
  assert (Hst : ∀ M D' future' s', ok s' → M ⊆ U →
    wp ('(live, definitions, _) ← Plan.each_rev (λ i st live definitions future,
           visit_statement st (i :: p) live tg definitions future) 0 statements M D' future';
        mret (live, definitions)) s'
      (λ '(K, _) s'', finished (flow_list (λ i st, flow_statement collecting st (i :: p)) 0
                                  statements) M tg K s' s'')).
  { intros M D' future' s' Hs' HM. apply st_bind. eapply st_mono.
    { eapply (wp_each_rev (λ i st, flow_statement collecting st (i :: p))); [| |done|is_ready].
      - intros k st L1 D1 f1 s1 Hk Hs1 Hr1.
        eapply (wp_statement _ _ HF Hp); [|done|done|].
        + simpl. apply lookup_app_l_Some. by rewrite list_lookup_fmap, Hk.
        + intros K D2 f2 s2 Hs2 _ Hv2. by split.
      - intros j x k y Hjk. apart. }
    intros [[K D2] f2] s2 Hf. by apply st_ret. }
  apply st_bind. destruct tail as [tail|].
  - assert (Htail : children (NBlock (C.mkBlock statements (Some tail) falls))
                      !! length statements = Some (NExpr tail)).
    { simpl. by rewrite list_lookup_middle by by rewrite length_fmap. }
    apply st_bind. eapply (wp_expression _ _ HF Hp); [exact Htail|done|is_ready|].
    intros M D1 s1 Hs1 HM Hv1. apply st_bind.
    eapply (wp_or_expression _ _ Hp); [exact Htail|done|]. intros c s2 Hs2 Hpl.
    apply st_ret. eapply st_mono; [by apply Hst|]. intros [K D3] s3 [Hs3 Hv3].
    split; [done|]. rewrite Hpl in Hv3. eapply visited_seq; [exact Hv1|exact Hv3|].
    intros pt (k & st & Hk%lookup_lt_Some & H1%points_statement_below)%points_list
      H2%points_expression_below.
    pose proof (below_siblings _ _ _ _ H1 H2). lia.
  - apply st_ret. eapply st_mono; [apply Hst; [done|]|].
    { destruct Hr as [_ Hr]. apply (Hr Normal). }
    intros [K D3] s3 [Hs3 Hv3]. split; [done|].
    eapply visited_seq; [apply visited_nop|exact Hv3|apart].
Qed.

Lemma all_visits n : visits n.
Proof.
  induction n as [[[kind ty span]|b|st|f] HF] using node_ind;
    [|by apply block_visits|by apply statement_visits|done].
  destruct kind; try by apply simple_visits.
  - by apply binary_visits.
  - by apply match_visits.
  - by apply if_visits.
Qed.
End pass.

(** ** The locals a tree reads *)

Definition walk (n : Node) : list Node :=
  match n with
  | NExpr e => walk_expression e
  | NStmt s => walk_statement s
  | NBlock b => walk_block b
  | NFunction f => walk_list walk_expression (C.f_requires f) ++ walk_block (C.f_body f)
  end.

Lemma elem_of_walk_list {A} (f : A → list Node) l n :
  n ∈ walk_list f l ↔ ∃ x, x ∈ l ∧ n ∈ f x.
Proof.
  induction l as [|x l IH]; simpl; [set_solver|].
  rewrite elem_of_app, IH. setoid_rewrite elem_of_cons. naive_solver.
Qed.

Lemma walk_self e : NExpr e ∈ walk_expression e.
Proof. destruct e. left. Qed.

#[local] Ltac open_member :=
  repeat match goal with
    | H : _ ∈ [] |- _ => by apply elem_of_nil in H
    | H : _ ∈ _ :: _ |- _ => apply elem_of_cons in H as [H|H]
    | H : _ ∈ _ ++ _ |- _ => apply elem_of_app in H as [H|H]
    | H : _ ∈ match ?o with Some _ => _ | None => _ end |- _ => destruct o
    | H : _ ∈ _ <$> _ |- _ => apply list_elem_of_fmap in H as (? & -> & H)
    end; subst.

Lemma walk_child n c : c ∈ children n → walk c ⊆ walk n.
Proof.
  intros Hc m Hm. destruct n as [[kind ty span]|[statements tail falls]|[kind span]|f].
  - destruct kind; simpl in Hc; unfold expr_children in Hc; simpl in Hc; open_member; simpl in *;
      apply elem_of_cons; right; rewrite ?elem_of_app, ?elem_of_walk_list; eauto 6.
    all: match goal with H : ?x ∈ _, Hm : _ ∈ _ |- _ => destruct x; simpl in *; eauto 8 end.
  - simpl in *. rewrite elem_of_app, elem_of_walk_list. open_member; eauto.
  - destruct kind as [| |[]| | | | | | | |]; simpl in *; open_member; apply elem_of_cons; right;
      rewrite ?elem_of_app; eauto.
  - simpl in *. rewrite elem_of_app, elem_of_walk_list. open_member; eauto.
Qed.

Lemma uses_list {A} (visit : nat → A → Flow) i l x :
  x ∈ uses (flow_list visit i l) → ∃ k y, l !! k = Some y ∧ x ∈ uses (visit (i + k)%nat y).
Proof.
  revert i. induction l as [|y l IH]; simpl; intros i; [set_solver|].
  intros [H|(k & z & Hk & H)%IH]%elem_of_union.
  - exists 0%nat, y. by rewrite Nat.add_0_r.
  - exists (S k), z. by rewrite Nat.add_succ_r.
Qed.

Lemma uses_choice {A} (visit : nat → A → Flow) i l x :
  x ∈ uses (flow_choice visit i l) → ∃ k y, l !! k = Some y ∧ x ∈ uses (visit (i + k)%nat y).
Proof.
  revert i. induction l as [|y l IH]; simpl; intros i; [set_solver|].
  intros [H|(k & z & Hk & H)%IH]%elem_of_union.
  - exists 0%nat, y. by rewrite Nat.add_0_r.
  - exists (S k), z. by rewrite Nat.add_succ_r.
Qed.

Lemma uses_defs ids : uses (flow_defs ids : Flow) = ∅.
Proof. induction ids as [|x ids IH]; simpl; [done|]. rewrite IH. set_solver. Qed.

(** Opens a membership in the uses of a compound flow. *)
#[local] Ltac in_uses :=
  repeat match goal with
    | H : _ ∈ uses (operated _ _ _ _) |- _ => unfold operated in H; case_match
    | H : _ ∈ uses (Seq _ _) |- _ => simpl in H
    | H : _ ∈ uses (Alt _ _) |- _ => simpl in H
    | H : _ ∈ uses (Loop _ _) |- _ => simpl in H
    | H : _ ∈ uses (entered _ _) |- _ => simpl in H
    | H : _ ∈ uses (Use _) |- _ => simpl in H
    | H : _ ∈ {[_]} |- _ => apply elem_of_singleton in H; subst
    | H : _ ∈ uses (At _) |- _ => by apply elem_of_empty in H
    | H : _ ∈ uses Nop |- _ => by apply elem_of_empty in H
    | H : _ ∈ uses (Def _) |- _ => by apply elem_of_empty in H
    | H : _ ∈ uses (Leave _) |- _ => by apply elem_of_empty in H
    | H : _ ∈ ∅ |- _ => by apply elem_of_empty in H
    | H : _ ∈ uses (if ?b then _ else _) |- _ => destruct b
    | H : _ ∈ uses (match ?o with Some _ => _ | None => _ end) |- _ => destruct o
    | H : _ ∈ _ ∪ _ |- _ => apply elem_of_union in H as [H|H]
    | H : _ ∈ uses (flow_list _ _ _) |- _ => apply uses_list in H as (? & ? & ? & H)
    | H : _ ∈ uses (flow_choice _ _ _) |- _ => apply uses_choice in H as (? & [] & ? & H)
    | H : _ ∈ uses (flow_defs _) |- _ => rewrite uses_defs in H
    end.

#[local] Ltac by_child Hc :=
  match goal with
  | H : ?l !! ?k = Some _, Hx : _ ∈ uses ?f |- _ =>
      match f with
      | flow_expression _ ?e (?i :: _) => apply (Hc i (NExpr e))
      | flow_block _ ?b (?i :: _) => apply (Hc i (NBlock b))
      | flow_statement _ ?s (?i :: _) => apply (Hc i (NStmt s))
      end; [|exact Hx]; simpl; unfold expr_children; simpl;
      rewrite <-?list_fmap_compose, ?list_lookup_fmap; rewrite ?H; reflexivity
  | Hx : _ ∈ uses _ |- _ =>
      first [exact (Hc 0%nat _ eq_refl Hx) | exact (Hc 1%nat _ eq_refl Hx)
            | exact (Hc 2%nat _ eq_refl Hx)]
  end.

Definition reads_walked (collecting : C.Expr → bool) (n : Node) : Prop :=
  ∀ p x, x ∈ uses (node_flow collecting n p) →
  ∃ e, NExpr e ∈ walk n ∧ C.e_kind e = C.Local x.

Lemma all_reads_walked collecting n : reads_walked collecting n.
Proof.
  induction n as [n HF] using node_ind. intros p x Hx.
  assert (Hc : ∀ i c, children n !! i = Some c → x ∈ uses (node_flow collecting c (i :: p)) →
            ∃ e, NExpr e ∈ walk n ∧ C.e_kind e = C.Local x).
  { intros i c Hi H. eapply Forall_lookup_1 in HF; [|done].
    destruct (HF _ _ H) as (e & He & Hk). exists e. split; [|done].
    eapply walk_child; [by eapply list_elem_of_lookup_2|done]. }
  destruct n as [[kind ty span]|[statements tail falls]|[kind span]|f].
  - destruct kind; cbn [node_flow flow_expression] in Hx; in_uses; try by_child Hc.
    all: exists (C.mkExpr (C.Local local) ty span); split; [apply walk_self|done].
  - cbn [node_flow flow_block] in Hx. in_uses.
    + apply (Hc (0 + x0)%nat (NStmt x1)); [|exact Hx]. simpl. apply lookup_app_l_Some.
      by rewrite list_lookup_fmap, H.
    + apply (Hc (length statements) (NExpr e)); [|exact Hx]. simpl.
      by rewrite list_lookup_middle by by rewrite length_fmap.
  - destruct kind as [| |[]| | | | | | | |]; cbn [node_flow flow_statement] in Hx; in_uses;
      by_child Hc.
  - by apply elem_of_empty in Hx.
Qed.

Lemma flow_reads collecting body :
  uses (flow_block collecting body []) ⊆ Plan.locals_read body.
Proof.
  intros x (e & He & Hk)%(all_reads_walked collecting (NBlock body)).
  apply elem_of_list_to_set, list_elem_of_omap. exists e. split; [|by rewrite Hk].
  apply list_elem_of_omap. by exists (NExpr e).
Qed.
