(* ===== verification/LivenessGuarantees.v ===== *)
(** What the collector's root slots rely on: the liveness plan is always made, never clears a
    local that some way on still reads, restores every local that is read after a collection,
    and clears exactly the parameters that no way through the body reads. *)

From S2P Require Import Prelude Model Nodes Flow Effects RootSlots RootFacts Liveness PlanLogic LivenessFacts.

(** [x] is read in [t] before anything is stored to it. *)
Definition read_first (x : N) (t : list (event (Point := Point))) : Prop :=
  ∃ ta tb, t = ta ++ Used x :: tb ∧ Defined x ∉ ta.

Lemma read_first_exposes x t : read_first x t ↔ exposes x t False.
Proof.
  split.
  - intros (ta & tb & -> & Hd). induction ta as [|[y|y|p] ta IH]; simpl.
    + by left.
    + right. apply IH. set_solver.
    + split; [set_solver|]. apply IH. set_solver.
    + apply IH. set_solver.
  - induction t as [|[y|y|p] t IH]; simpl; [done|intros [->|H]|intros [Hne H]|intros H].
    + exists [], t. split; [done|set_solver].
    + destruct (IH H) as (ta & tb & -> & Hd). exists (Used y :: ta), tb. split; [done|set_solver].
    + destruct (IH H) as (ta & tb & -> & Hd). exists (Defined y :: ta), tb. split; [done|set_solver].
    + destruct (IH H) as (ta & tb & -> & Hd). exists (Passed p :: ta), tb. split; [done|set_solver].
Qed.

Lemma read_first_wanted x t e : exposes x t (x ∈ exits ∅ None e) ↔ read_first x t.
Proof.
  rewrite read_first_exposes.
  split; apply exposes_mono; [destruct e; set_solver|done].
Qed.

Section body.
Context (body : C.Block) (parameters : N) (pinned allocating : gset N) (is_shared : bool).

Definition body_flow : Flow := flow_body (collecting is_shared allocating) body.

(** The ways through the body. *)
Definition way : list (event (Point := Point)) → exit → Prop := run body_flow.

Definition made (pl : Plan.Plan) : Prop :=
  Plan.new body parameters pinned allocating is_shared = Ok pl.

Definition ids : Live := list_to_set (N.of_nat <$> seq 0 (N.to_nat parameters)).

(** What the pass establishes for a body, before it is read as guarantees below. *)
Definition planned (pl : Plan.Plan) : Prop :=
  frame body_flow (Plan.default pinned) pl ∧
  ∃ before c, sound (forbidden pl) body_flow (exits ∅ None) before ∧
    (c = true ↔ collects is_shared allocating (NBlock body)) ∧
    Plan.entries pl !! [] = Some (Plan.when c (ids ∖ before)).

Lemma plan_body_planned :
  wp (Plan.plan_body (S (size (Plan.locals_read body))) body parameters allocating is_shared)
    (Plan.mkState (Plan.default pinned) (allocation_query is_shared))
    (λ _ s', planned (Plan.plan s')).
Proof.
  set (s0 := Plan.mkState _ _). set (U := Plan.locals_read body).
  assert (Hok : state_ok is_shared allocating (NBlock body) s0).
  { split; [done|]. intros q r. simpl. by rewrite lookup_empty. }
  apply st_bind. eapply st_mono.
  { apply (all_visits is_shared allocating (NBlock body) U (S (size U)) ltac:(lia) (NBlock body)
             [] ∅ None); [done|done|].
    split; [apply flow_reads|]. by intros []. }
  intros [before D] s1 [Hs1 [F1 S1]]. apply st_bind.
  eapply wp_ask; [by apply (all_answer is_shared allocating (NBlock body) (NBlock body))|done|].
  intros c s2 Hs2 Hpl Hc.
  pose proof (frame_entry [] (Plan.when c (ids ∖ before)) (Plan.plan s2)) as F2.
  rewrite Hpl in F2 at 1. split.
  - eapply frame_trans; [exact F1|exact F2|simpl; set_solver..].
  - exists before, c. split_and!; [|done|apply lookup_insert_eq].
    eapply sound_seq; [eapply sound_frame; [exact S1|exact F2|apart]|].
    apply sound_at. intros x (l & Hl & Hx). simpl in Hl. rewrite lookup_insert_eq in Hl.
    simplify_eq. by apply elem_of_when in Hx as [_ [_ ?]%elem_of_difference].
Qed.

Lemma made_planned : ∃ pl, made pl ∧ planned pl.
Proof.
  pose proof plan_body_planned as H. unfold wp in H. unfold made, Plan.new.
  destruct (Plan.plan_body _ _ _ _ _ _) as [[[] s']| | |]; try done. by exists (Plan.plan s').
Qed.

Lemma planned_made pl : made pl → planned pl.
Proof.
  destruct made_planned as (pl' & Hm & Hp). unfold made in *. intros H.
  rewrite H in Hm. by injection Hm as ->.
Qed.
End body.

(** C35: planning ends for every body, with a plan: no loop of the body keeps the search for
    its head from settling, whatever the calls, the captures and the parameters are. *)
Theorem plans_are_made body parameters pinned allocating is_shared :
  ∃ pl, Plan.new body parameters pinned allocating is_shared = Ok pl.
Proof.
  destruct (made_planned body parameters pinned allocating is_shared) as (pl & H & _). by exists pl.
Qed.

(** C36: whenever control passes a point of a function where its plan clears the root slot of
    a local, that local is not read again on the way from there on before it is assigned. *)
Theorem cleared_locals_are_dead body parameters pinned allocating is_shared pl :
  Plan.new body parameters pinned allocating is_shared = Ok pl →
  ∀ t1 pt t2 e x,
  way body allocating is_shared (t1 ++ Passed pt :: t2) e → (∀ p, pt ≠ Operation p) →
  x ∈ Plan.cleared pl (at_plan pl pt) → ¬ read_first x t2.
Proof.
  intros Hm t1 pt t2 e x Hw Hpt Hx.
  destruct (planned_made _ _ _ _ _ _ Hm) as (_ & before & c & [_ Hs] & _).
  rewrite <-(read_first_wanted x t2 e). eapply Hs; [exact Hw|].
  unfold Plan.cleared in Hx. destruct (at_plan pl pt) as [l|] eqn:E; [|set_solver].
  destruct pt; [..|by edestruct Hpt]; exists l; (split; [done|set_solver]).
Qed.

(** C37: a local that is read after a collecting operation before it is assigned is among the
    locals that the operation restores from their root slots. *)
Theorem read_locals_are_restored body parameters pinned allocating is_shared pl :
  Plan.new body parameters pinned allocating is_shared = Ok pl →
  ∀ t1 p t2 e x restored,
  way body allocating is_shared (t1 ++ Passed (Operation p) :: t2) e →
  Plan.restores pl !! p = Some restored → read_first x t2 → x ∈ restored.
Proof.
  intros Hm t1 p t2 e x l Hw Hl Hr.
  destruct (planned_made _ _ _ _ _ _ Hm) as (_ & before & c & [_ Hs] & _).
  destruct (decide (x ∈ l)) as [|Hx]; [done|]. exfalso.
  eapply (Hs t1 _ t2 e x Hw); [by exists l|]. by apply read_first_wanted.
Qed.

(** at the entry of a function that may collect, the plan clears exactly the parameters
    that no way through the body reads before assigning them; otherwise it clears none. *)
Theorem dead_parameters_cleared body parameters pinned allocating is_shared pl :
  Plan.new body parameters pinned allocating is_shared = Ok pl →
  ∃ dead, Plan.entries pl !! [] = Some dead ∧
  ∀ x, x ∈ dead ↔
    x < parameters ∧ collects is_shared allocating (NBlock body) ∧
    ¬ ∃ t e, way body allocating is_shared t e ∧ read_first x t.
Proof.
  intros Hm. destruct (planned_made _ _ _ _ _ _ Hm) as (_ & before & c & [Hl _] & Hc & He).
  exists (Plan.when c (ids parameters ∖ before)). split; [done|]. intros x.
  rewrite elem_of_when, Hc, elem_of_difference.
  assert (x ∈ ids parameters ↔ x < parameters) as ->.
  { unfold ids. rewrite elem_of_list_to_set, list_elem_of_fmap. setoid_rewrite elem_of_seq.
    split; [intros (k & -> & ?); lia|]. intros. exists (N.to_nat x). lia. }
  assert (x ∈ before ↔ ∃ t e, way body allocating is_shared t e ∧ read_first x t) as ->.
  { rewrite (Hl x). unfold demanded. by setoid_rewrite read_first_wanted. }
  tauto.
Qed.

(** Questions about the expressions of a tree, asked one after the other. *)
Fixpoint answers (allocating : gset N) (questions : list (C.Expr * Path)) : Query (list bool) :=
  match questions with
  | [] => mret []
  | (e, p) :: questions =>
      a ← may_allocate allocating e p;
      rest ← answers allocating questions;
      mret (a :: rest)
  end.

(** C38: however many questions are asked, about whichever expressions of a tree and in
    whichever order, every answer says whether the expression contains an allocating
    operation: the table of earlier answers never misleads. *)
Theorem allocation_answers_exact root allocating is_shared questions :
  Forall (λ '(e, p), node_at root p = Some (NExpr e)) questions →
  Forall2 (λ '(e, p) a, a = true ↔ collects is_shared allocating (NExpr e)) questions
    (answers allocating questions (allocation_query is_shared)).1.
Proof.
  intros Hq.
  enough (H : ∀ s, ts_shared s = is_shared → memo_ok is_shared allocating root s →
    Forall2 (λ '(e, p) a, a = true ↔ collects is_shared allocating (NExpr e)) questions
      (answers allocating questions s).1).
  { apply H; [done|]. intros q r. simpl. by rewrite lookup_empty. }
  induction Hq as [|[e p] questions Hp _ IH]; intros s Hs Hm; [constructor|].
  destruct (all_answer is_shared allocating root (NExpr e) p Hp s Hs Hm) as (Ha & Hm' & a & Hsa).
  simpl. unfold mbind, query_bind. destruct (may_allocate allocating e p s) as [r s1].
  simpl in *. subst s1. specialize (IH (set_allocation a s) Hs Hm').
  destruct (answers _ _ _) as [rest s2]. by constructor.
Qed.

(** for a closed program or a library, and in whichever order its hash map of calls is
    walked, the search for the functions that may allocate ends, and it finds exactly the
    functions from which some chain of calls, direct or through function values of the
    callee's type, leads to a function with an allocating operation of its own. *)
Theorem allocating_functions_exact iterate program reachable library :
  (∀ id, id ∈ reachable → id < lengthN (C.functions program)) →
  (∀ m, iterate m ≡ₚ map_to_list m) →
  ∃ R, allocating_functions iterate program reachable library = Ok R ∧
    ∀ id, id ∈ R ↔ ∃ id', rtc (may_call program library reachable) id id' ∧
      allocates_itself program library reachable id'.
Proof. apply allocating_functions_spec. Qed.

(** ** Samples *)

(** One way through a flow: the first branch each time, and no round of a loop. *)
Fixpoint first_way (f : Flow) : list (event (Point := Point)) * exit :=
  match f with
  | Nop => ([], Normal)
  | Use x => ([Used x], Normal)
  | Def x => ([Defined x], Normal)
  | At p => ([Passed p], Normal)
  | Seq a b =>
      match first_way a with
      | (t, Normal) => let '(t', e) := first_way b in (t ++ t', e)
      | r => r
      end
  | Alt a _ => first_way a
  | Loop c _ => first_way c
  | Leave e => ([], e)
  end.

Lemma first_way_run f : run f (first_way f).1 (first_way f).2.
Proof.
  induction f as [| | | |a Ha b Hb|a Ha b Hb|c Hc b _|]; simpl; eauto using run.
  - destruct (first_way a) as [t []] eqn:E; simpl in *;
      [|by apply run_seq_exit..]. destruct (first_way b) as [t' e]. by apply run_seq.
  - destruct (first_way c) as [t []] eqn:E; simpl in *;
      [by apply run_loop_done|by apply run_loop_exit..].
Qed.

Section samples.
#[local] Definition expr (kind : C.ExprKind) (ty : Ty.Ty) : C.Expr :=
  C.mkExpr kind ty (mkSpan 0 0).
#[local] Definition stmt (kind : C.StmtKind) : C.Stmt := C.mkStmt kind (mkSpan 0 0).

(** [let 2 = text_len(local 0); let 3 = concat(local 1, local 1); while true { let 3 = concat(local
    1, local 1) } concat(local 1, local 1)] with three parameters: local 0 dies with its only
    read, local 2 is never read. *)
Definition concatenation : C.Expr :=
  expr (C.PrimitiveOp Primitive.TextConcat
    [expr (C.Local 1) Ty.Text; expr (C.Local 1) Ty.Text]) Ty.Text.

Definition sample_body : C.Block :=
  C.mkBlock
    [stmt (C.Let 2 (expr (C.PrimitiveOp Primitive.TextLen [expr (C.Local 0) Ty.Text]) Ty.Int));
     stmt (C.Let 3 concatenation);
     stmt (C.While (expr (C.Bool true) Ty.Bool)
             (C.mkBlock [stmt (C.Let 3 concatenation)] None true))]
    (Some concatenation) true.

Definition sample_plan : Plan.Plan :=
  Eval vm_compute in
  match Plan.new sample_body 3 ∅ ∅ false with Ok pl => pl | _ => Plan.default ∅ end.

Lemma sample_made : Plan.new sample_body 3 ∅ ∅ false = Ok sample_plan.
Proof. vm_compute. reflexivity. Qed.

#[local] Abbreviation sample_flow := (flow_body (collecting false ∅) sample_body).

(** A way through the sample, cut after a given number of events. *)
Lemma sample_way n pt :
  (first_way sample_flow).1 !! n = Some (Passed pt) →
  way sample_body ∅ false
    (take n (first_way sample_flow).1 ++ Passed pt :: drop (S n) (first_way sample_flow).1)
    (first_way sample_flow).2.
Proof. intros H. rewrite take_drop_middle by done. apply first_way_run. Qed.

Lemma sample_cleared :
  bool_decide (0 ∈ Plan.cleared sample_plan
                     (at_plan sample_plan (Value [0%nat; 0%nat; 0%nat]))) = true.
Proof. vm_compute. reflexivity. Qed.

Lemma cleared_locals_are_dead_witness :
  ¬ read_first 0 (drop 3 (first_way sample_flow).1).
Proof.
  apply (cleared_locals_are_dead sample_body 3 ∅ ∅ false sample_plan sample_made _
           (Value [0%nat; 0%nat; 0%nat]) _ _ 0 (sample_way 2 _ ltac:(vm_compute; reflexivity))).
  - intros p. discriminate.
  - exact (bool_decide_eq_true_1 _ sample_cleared).
Defined.

Lemma read_locals_are_restored_witness :
  ∃ restored, Plan.restores sample_plan !! [0%nat; 1%nat] = Some restored ∧ 1 ∈ restored.
Proof.
  eexists. split; [vm_compute; reflexivity|].
  eapply (read_locals_are_restored sample_body 3 ∅ ∅ false sample_plan sample_made _
           [0%nat; 1%nat] _ _ 1 _ (sample_way 9 _ ltac:(vm_compute; reflexivity))).
  - vm_compute. reflexivity.
  - exists [Defined 3; Passed (After [1%nat]); Passed (After [2%nat])].
    eexists. split; [vm_compute; reflexivity|]. set_solver.
Defined.

Lemma dead_parameters_cleared_witness :
  ∃ dead, Plan.entries sample_plan !! [] = Some dead ∧ 2 ∈ dead ∧ 1 ∉ dead ∧
  ∀ x, x ∈ dead ↔
    x < 3 ∧ collects false ∅ (NBlock sample_body) ∧
    ¬ ∃ t e, way sample_body ∅ false t e ∧ read_first x t.
Proof.
  destruct (dead_parameters_cleared sample_body 3 ∅ ∅ false sample_plan sample_made)
    as (dead & Hd & H).
  exists dead. split; [done|].
  assert (dead = {[2]}) as -> by (vm_compute in Hd; injection Hd as <-; reflexivity).
  split; [set_solver|]. split; [|done]. set_solver.
Defined.

Lemma allocation_answers_exact_witness :
  let questions := [(concatenation, [3%nat]); (expr (C.Local 1) Ty.Text, [1%nat; 3%nat]);
                    (concatenation, [3%nat])] in
  (answers ∅ questions (allocation_query false)).1 = [true; false; true] ∧
  Forall2 (λ '(e, p) a, a = true ↔ collects false ∅ (NExpr e)) questions
    (answers ∅ questions (allocation_query false)).1.
Proof.
  split; [vm_compute; reflexivity|].
  apply (allocation_answers_exact (NBlock sample_body)). by repeat constructor.
Defined.

(** Three functions: the first calls the second, which concatenates; the third calls a value
    of the type of a reference to the first; the fourth reads a constant. *)
#[local] Definition function (body : C.Expr) : C.Function :=
  C.mkFunction [] [] Ty.Text [] [] (C.mkBlock [] (Some body) true) (mkSpan 0 0).

#[local] Definition calling : C.Program :=
  C.mkProgram [] []
    [function (expr (C.Call 1 []) Ty.Text);
     function concatenation;
     function (expr (C.IndirectCall (expr (C.Local 0) (Ty.Function 0)) []) Ty.Text);
     function (expr (C.Text []) Ty.Text);
     function (expr (C.FunctionRef 0) (Ty.Function 0))]
    [] [] [] None [] [] [] (C.mkSourceMap [] ∅) [].

Lemma allocating_functions_exact_witness :
  ∃ R, allocating_functions map_to_list calling [0; 1; 2; 3; 4] false = Ok R ∧
    R = {[0; 1; 2]} ∧
    ∀ id, id ∈ R ↔ ∃ id', rtc (may_call calling false [0; 1; 2; 3; 4]) id id' ∧
      allocates_itself calling false [0; 1; 2; 3; 4] id'.
Proof.
  destruct (allocating_functions_exact map_to_list calling [0; 1; 2; 3; 4] false)
    as (R & HR & H).
  - intros id Hid. repeat (apply elem_of_cons in Hid as [->|Hid]; [done|]).
    by apply elem_of_nil in Hid.
  - done.
  - exists R. split; [done|]. split; [|done]. vm_compute in HR. injection HR as <-. reflexivity.
Defined.
End samples.
