(* ===== verification/Temporaries.v ===== *)
(** The temporary root slots of [compiler/src/codegen/llvm_gc.rs]: which results of a
    function are copied into a slot because a collection can happen before they are used,
    which slot each takes, and where the slots are given back. A function is walked once, its
    guards before its body; the slots in use are counted per type. *)

From stdpp Require Import sorting.
From S2P Require Import Prelude Model Nodes Effects RootSlots.

(** Text literals are module constants, and so is what is built from them inline. *)
Fixpoint needs_snapshot (fuel : nat) (types : list C.Data) (value : C.Expr) : outcome bool :=
  match value with C.mkExpr kind ty _ =>
  match kind with
  | C.Text _ => Ok false
  | C.RecordNew fields => any_of (λ '(_, field), needs_snapshot fuel types field) fields
  | C.Variant _ fields => any_of (needs_snapshot fuel types) fields
  | C.Coerce value => needs_snapshot fuel types value
  | _ => managed fuel types ty
  end end.

(** ** The state of the pass *)

Abbreviation Pass := (St TemporarySlots).

Definition set_used (used : gmap Ty.Ty N) (s : TemporarySlots) : TemporarySlots :=
  mkTemporarySlots (ts_shared s) (ts_types s) (ts_pools s) used (ts_expressions s)
    (ts_retired s) (ts_exits s) (ts_loop_bases s) (ts_allocation s).
Definition set_loop_bases (bases : list (gmap Ty.Ty N)) (s : TemporarySlots) : TemporarySlots :=
  mkTemporarySlots (ts_shared s) (ts_types s) (ts_pools s) (ts_used s) (ts_expressions s)
    (ts_retired s) (ts_exits s) bases (ts_allocation s).
Definition set_retired (retired : gmap Path (list N)) (s : TemporarySlots) : TemporarySlots :=
  mkTemporarySlots (ts_shared s) (ts_types s) (ts_pools s) (ts_used s) (ts_expressions s)
    retired (ts_exits s) (ts_loop_bases s) (ts_allocation s).
Definition set_exits (exits : gmap Path (list N)) (s : TemporarySlots) : TemporarySlots :=
  mkTemporarySlots (ts_shared s) (ts_types s) (ts_pools s) (ts_used s) (ts_expressions s)
    (ts_retired s) exits (ts_loop_bases s) (ts_allocation s).

Definition question (q : Query bool) : Pass bool := λ s, let '(r, s) := q s in Ok (r, s).

(** [map.get(&ty).copied().unwrap_or(0)] *)
Definition count (ty : Ty.Ty) (used : gmap Ty.Ty N) : N := default 0 (used !! ty).

Definition pool (ty : Ty.Ty) (s : TemporarySlots) : list N := default [] (ts_pools s !! ty).

(** A pool grows by a new slot of its type. *)
Definition grow_pool (ty : Ty.Ty) (s : TemporarySlots) : TemporarySlots :=
  mkTemporarySlots (ts_shared s) (ts_types s ++ [ty])
    (<[ty := pool ty s ++ [lengthN (ts_types s)]]> (ts_pools s)) (ts_used s)
    (ts_expressions s) (ts_retired s) (ts_exits s) (ts_loop_bases s) (ts_allocation s).

Definition use_slot (ty : Ty.Ty) (p : Path) (slot : N) (s : TemporarySlots) : TemporarySlots :=
  mkTemporarySlots (ts_shared s) (ts_types s) (ts_pools s)
    (<[ty := count ty (ts_used s) + 1]> (ts_used s)) (<[p := slot]> (ts_expressions s))
    (ts_retired s) (ts_exits s) (ts_loop_bases s) (ts_allocation s).

Definition reserve (ty : Ty.Ty) (p : Path) : Pass () :=
  used ← reads (λ s, count ty (ts_used s));
  free ← reads (pool ty);
  (if used =? lengthN free then edits (grow_pool ty) else mret tt) ;;
  free ← reads (pool ty);
  slot ← lift (index_or_panic free used);
  edits (use_slot ty p slot).

(** [values[first..last]]: panics out of range. *)
Definition range_or_panic {A} (l : list A) (first last : N) : outcome (list A) :=
  if (first <=? last) && (last <=? lengthN l)
  then Ok (take (N.to_nat (last - first)) (drop (N.to_nat first) l))
  else Panic "range out of bounds".

(** The slots in use that are not counted by [base]; their order is restored by the sort. *)
Fixpoint slots_since (base : gmap Ty.Ty N) (pools : gmap Ty.Ty (list N))
    (used : list (Ty.Ty * N)) : outcome (list N) :=
  match used with
  | [] => Ok []
  | (ty, last) :: used =>
      slots ← or_panic (pools !! ty) "missing pool";
      slots ← range_or_panic slots (count ty base) last;
      rest ← slots_since base pools used;
      Ok (slots ++ rest)
  end.

Definition retired_since (base : gmap Ty.Ty N) : Pass (list N) := λ s,
  slots ← slots_since base (ts_pools s) (map_to_list (ts_used s));
  Ok (merge_sort N.le slots, s).

(** ** Operands *)

Record Operand := mkOperand {
  o_value : C.Expr;
  o_path : Path;
  o_visit : bool → Pass ();
}.

(** The children of a node from step [i] on, as operands. *)
Definition operands {A} (operand : nat → A → Operand) : nat → list A → list Operand :=
  fix go i l := match l with [] => [] | x :: l => operand i x :: go (S i) l end.

Section pass.
Context (allocating : gset N).

(** Which operands must survive a later allocation: the backward loop of [siblings]. *)
Fixpoint protections (values : list Operand) (later_allocation : bool)
    : Pass (list bool * bool) :=
  match values with
  | [] => mret ([], later_allocation)
  | o :: values =>
      '(protect, later_allocation) ← protections values later_allocation;
      c ← question (may_allocate allocating (o_value o) (o_path o));
      mret (later_allocation :: protect, later_allocation || c)
  end.

Fixpoint visit_each (values : list Operand) (protect : list bool) : Pass () :=
  match values, protect with
  | o :: values, protected :: protect => o_visit o protected ;; visit_each values protect
  | _, _ => mret tt
  end.

Definition siblings (values : list Operand) (later_allocation : bool) : Pass () :=
  '(protect, _) ← protections values later_allocation;
  visit_each values protect.

(** The branches start from the same slots in use; the peak of all of them stays in use. *)
Fixpoint each_branch (base peak : gmap Ty.Ty N) (bodies : list (Pass ()))
    : Pass (gmap Ty.Ty N) :=
  match bodies with
  | [] => mret peak
  | body :: bodies =>
      edits (set_used base) ;;
      body ;;
      used ← reads ts_used;
      each_branch base (union_with (λ a b, Some (N.max a b)) peak used) bodies
  end.

Definition branches (bodies : list (Pass ())) : Pass () :=
  base ← reads ts_used;
  peak ← each_branch base base bodies;
  edits (set_used peak).

(** One statement after the other, from step [i] on. *)
Definition each_statement (visit : nat → C.Stmt → Pass ()) : nat → list C.Stmt → Pass () :=
  fix go i l := match l with [] => mret tt | s :: l => visit i s ;; go (S i) l end.

(** The arms of a match from step [i] on. *)
Definition arm_visits (visit : nat → C.Block → Pass ()) : nat → list C.MatchArm → list (Pass ()) :=
  fix go i l :=
    match l with
    | [] => []
    | C.mkArm _ _ _ body :: l => visit i body :: go (S i) l
    end.

Definition insert_retired (p : Path) (slots : list N) : Pass () :=
  match slots with
  | [] => mret tt
  | _ => edits (λ s, set_retired (<[p := slots]> (ts_retired s)) s)
  end.

Definition insert_exit (p : Path) (slots : list N) : Pass () :=
  match slots with
  | [] => mret tt
  | _ => edits (λ s, set_exits (<[p := slots]> (ts_exits s)) s)
  end.

Context (fuel : nat) (types : list C.Data).

Fixpoint expression (value : C.Expr) (p : Path) (protect : bool) {struct value} : Pass () :=
  snapshot ← (if protect then lift (needs_snapshot fuel types value) else mret false);
  (if (snapshot : bool) then reserve (C.e_ty value) p else mret tt) ;;
  base ← reads ts_used;
  shared ← reads ts_shared;
  match value with C.mkExpr kind _ _ =>
  let operand i value := mkOperand value (i :: p) (expression value (i :: p)) in
  match kind with
  | C.UnaryOp _ value | C.Field value _ | C.Closure _ value | C.Coerce value =>
      expression value (0%nat :: p) shared
  | C.DynBox _ value => expression value (0%nat :: p) true
  | C.DynCall receiver _ arguments | C.IndirectCall receiver arguments =>
      siblings (operand 0%nat receiver ::
                operands (λ i a, mkOperand a (i :: p) (expression a (i :: p))) 1 arguments) true
  | C.BinaryOp _ l r => siblings [operand 0%nat l; operand 1%nat r] false
  | C.Call target args =>
      siblings (operands (λ i a, mkOperand a (i :: p) (expression a (i :: p))) 0 args)
        (bool_decide (target ∈ allocating))
  | C.PrimitiveOp operation args =>
      siblings (operands (λ i a, mkOperand a (i :: p) (expression a (i :: p))) 0 args)
        (shared || allocates operation)
  | C.Variant _ fields =>
      siblings (operands (λ i a, mkOperand a (i :: p) (expression a (i :: p))) 0 fields) false
  | C.ListNew elements =>
      siblings (operands (λ i a, mkOperand a (i :: p) (expression a (i :: p))) 0 elements) true
  | C.RecordNew fields =>
      siblings (operands (λ i '(_, a), mkOperand a (i :: p) (expression a (i :: p))) 0 fields)
        false
  | C.FrameNew fields =>
      siblings (operands (λ i '(_, a), mkOperand a (i :: p) (expression a (i :: p))) 0 fields)
        true
  | C.FrameStore frame _ value =>
      siblings [operand 0%nat frame; operand 1%nat value] shared
  | C.BlockExpr body => block body (0%nat :: p)
  | C.Match value arms =>
      expression value (0%nat :: p) false ;;
      branches (arm_visits (λ i body, block body (i :: p)) 1 arms)
  | C.If condition then_body else_body =>
      expression condition (0%nat :: p) false ;;
      branches (block then_body (1%nat :: p) ::
                match else_body with Some body => [block body (2%nat :: p)] | None => [] end)
  | C.Int _ | C.Float _ | C.Bool _ | C.Text _ | C.Bytes _ | C.Local _ | C.FunctionRef _ =>
      mret tt
  end end ;;
  retired ← retired_since base;
  insert_retired p retired ;;
  edits (set_used base)
with statement (s : C.Stmt) (p : Path) {struct s} : Pass () :=
  match s with C.mkStmt kind _ =>
  match kind with
  | C.Let _ value | C.Assign _ value | C.Assert value _ | C.Discard value
  | C.ExprStmt value | C.Return (Some value) => expression value (0%nat :: p) false
  | C.While condition body =>
      expression condition (0%nat :: p) false ;;
      edits (λ s, set_loop_bases (ts_used s :: ts_loop_bases s) s) ;;
      block body (1%nat :: p) ;;
      edits (λ s, set_loop_bases (tail (ts_loop_bases s)) s)
  | C.Break | C.Continue =>
      bases ← reads ts_loop_bases;
      match bases with
      | base :: _ => retired ← retired_since base; insert_exit p retired
      | [] => mret tt
      end
  | C.Return None | C.Defer _ _ | C.Cleanup _ _ => mret tt
  end end
with block (b : C.Block) (p : Path) {struct b} : Pass () :=
  match b with C.mkBlock statements tail _ =>
  base ← reads ts_used;
  each_statement (λ i s, statement s (i :: p) ;; edits (set_used base)) 0 statements ;;
  match tail with
  | Some tail => expression tail (length statements :: p) false
  | None => mret tt
  end end.

(** The guards of a function leave nothing in use. *)
Definition each_guard : nat → list C.Expr → Pass () :=
  fix go i l :=
    match l with
    | [] => mret tt
    | value :: l =>
        expression value [i] false ;; edits (set_used ∅) ;; go (S i) l
    end.

(** A function, or the body of one of its callbacks. *)
Definition function_slots (source : C.Function) (callback_body : option C.Block) : Pass () :=
  match callback_body with
  | None =>
      each_guard 0 (C.f_requires source) ;;
      block (C.f_body source) [length (C.f_requires source)]
  | Some body => block body []
  end.
End pass.

Definition temporaries (program : C.Program) (is_shared : bool) (allocating : gset N)
    (source : C.Function) (callback_body : option C.Block) : outcome TemporarySlots :=
  let types := C.types program in
  '(_, s) ← function_slots allocating (length types) types source callback_body
              (allocation_query is_shared);
  Ok s.
