(* ===== verification/Held.v ===== *)
(** What [Temporaries] is to compute, stated on the tree alone: the operands that can be
    followed by a collection before they are used, the stack of those held at a place, and
    what is given back where. *)

From S2P Require Import Prelude Model Nodes Effects RootSlots RootFacts Temporaries.

(** ** Operands that cross a collection *)

Section held.
Context (is_shared : bool) (allocating : gset N) (fuel : nat) (types : list C.Data).
Context (root : Node).

(** The value of a block, a branch or a match is not an operand: nothing happens between
    its evaluation and its use. *)
Definition takes_operands (kind : C.ExprKind) : bool :=
  match kind with C.BlockExpr _ | C.Match _ _ | C.If _ _ _ => false | _ => true end.

(** The operation itself can collect while it holds its operands. *)
Definition operation_may_collect (e : C.Expr) : bool :=
  match C.e_kind e with
  | C.DynBox _ _ | C.DynCall _ _ _ | C.IndirectCall _ _ | C.ListNew _ | C.FrameNew _ => true
  | C.Call target _ => bool_decide (target ∈ allocating)
  | C.PrimitiveOp operation _ => is_shared || allocates operation
  | C.UnaryOp _ _ | C.Field _ _ | C.Closure _ _ | C.Coerce _ | C.FrameStore _ _ _ => is_shared
  | _ => false
  end.

Definition node_collects (n : Node) : bool :=
  match n with NExpr e => collecting is_shared allocating e | _ => false end.

(** After operand [i] of [e] something can collect before [e] is done with it. *)
Definition crosses (e : C.Expr) (i : nat) : bool :=
  takes_operands (C.e_kind e) &&
  (operation_may_collect e || existsb node_collects (drop (S i) (children (NExpr e)))).

Definition snapshot (v : C.Expr) : bool :=
  match needs_snapshot fuel types v with Ok b => b | _ => false end.

(** The expression at [q] is an operand that needs a slot. *)
Definition rooted (q : Path) : bool :=
  match q with
  | [] => false
  | i :: p =>
      match node_at root p, node_at root q with
      | Some (NExpr e), Some (NExpr v) => crosses e i && snapshot v
      | _, _ => false
      end
  end.

Definition type_at (q : Path) : Ty.Ty :=
  match node_at root q with Some (NExpr v) => C.e_ty v | _ => Ty.Unit end.

(** ** The stack of slots *)

Definition own (q : Path) : list Path := if rooted q then [q] else [].

Definition owns (p : Path) (n : nat) : list Path := concat ((λ j, own (j :: p)) <$> seq 0 n).

(** The operands that have a slot when the evaluation of [q] starts, the oldest first: those
    held around its parent, its parent, and its older siblings. *)
Fixpoint held (q : Path) : list Path :=
  match q with
  | [] => []
  | i :: p => held p ++ own p ++ owns p i
  end.

(** The operands of the expression at [p]. *)
Definition operand_paths (p : Path) : list Path :=
  match node_at root p with Some n => owns p (length (children n)) | None => [] end.

(** What is held at the loops around [q], the innermost first. *)
Fixpoint loops (q : Path) : list (list Path) :=
  match q with
  | [] => []
  | i :: p =>
      match node_at root p with
      | Some (NStmt (C.mkStmt (C.While _ _) _)) => if (i =? 1)%nat then [held q] else []
      | _ => []
      end ++ loops p
  end.

(** Bodies that run elsewhere have slots of their own. *)
Definition is_callback (n : Node) : bool :=
  match n with
  | NStmt (C.mkStmt (C.Defer _ _) _) | NStmt (C.mkStmt (C.Cleanup _ _) _) => true
  | _ => false
  end.

(** [q] is not in such a body. *)
Fixpoint seen (q : Path) : Prop :=
  match q with
  | [] => True
  | _ :: p => seen p ∧ ∀ n, node_at root p = Some n → is_callback n = false
  end.

(** ** Facts about the stack *)

Lemma owns_S p n : owns p (S n) = owns p n ++ own (n :: p).
Proof.
  unfold owns. rewrite seq_S, fmap_app, concat_app. simpl. by rewrite app_nil_r.
Qed.

Lemma held_first p : held (0%nat :: p) = held p ++ own p.
Proof. simpl. by rewrite app_nil_r. Qed.

Lemma held_next i p : held (S i :: p) = held (i :: p) ++ own (i :: p).
Proof. cbn [held]. rewrite owns_S. by rewrite <-!(assoc_L (++)). Qed.

Lemma elem_of_own q x : x ∈ own q ↔ x = q ∧ rooted q = true.
Proof. unfold own. destruct (rooted q); set_solver. Qed.

Lemma elem_of_owns p n x : x ∈ owns p n ↔ ∃ j, (j < n)%nat ∧ x = j :: p ∧ rooted (j :: p) = true.
Proof.
  induction n as [|n IH]; [split; [by intros ?%elem_of_nil|intros (? & ? & _); lia]|].
  rewrite owns_S, elem_of_app, IH, elem_of_own. split.
  - intros [(j & ? & ? & ?)|[-> ?]]; [exists j|exists n]; (split; [lia|done]).
  - intros (j & ? & -> & ?). destruct (decide (j = n)) as [->|]; [by right|left].
    exists j. split; [lia|done].
Qed.

(** Each element was pushed on the stack that was held when its evaluation started. *)
Definition stacked (l : list Path) : Prop :=
  ∀ k q, l !! k = Some q → rooted q = true ∧ held q = take k l.

Lemma stacked_own l q : stacked l → held q = l → stacked (l ++ own q).
Proof.
  intros Hl Hq k x Hk. unfold own in *. destruct (rooted q) eqn:E; [|by rewrite app_nil_r in *; apply Hl].
  apply lookup_app_Some in Hk as [Hk|[Hle Hk]].
  - destruct (Hl k x Hk) as [? ->]. split; [done|]. rewrite take_app_le; [done|].
    apply lookup_lt_Some in Hk. lia.
  - apply list_lookup_singleton_Some in Hk as [Hn <-]. split; [done|].
    rewrite Hq. replace k with (length l) by lia. by rewrite take_app_length.
Qed.

Lemma held_stacked q : stacked (held q).
Proof.
  induction q as [|i p IH]; [by intros k q ?|].
  induction i as [|i IHi]; [rewrite held_first|rewrite held_next]; by apply stacked_own.
Qed.

(** ** Counting *)

Definition total (ty : Ty.Ty) (l : list Path) : N := lengthN (filter (λ q, type_at q = ty) l).

Lemma total_app ty l k : total ty (l ++ k) = total ty l + total ty k.
Proof. unfold total. rewrite filter_app, length_app. lia. Qed.

Lemma total_one ty q : total ty [q] = if decide (type_at q = ty) then 1 else 0.
Proof. unfold total. rewrite filter_cons. by case_decide. Qed.

(** The levels of a type above [b] are those of the operands pushed after [b]. *)
Lemma levels b r ty n :
  stacked (b ++ r) →
  (∃ q, q ∈ r ∧ type_at q = ty ∧ total ty (held q) = n) ↔ total ty b ≤ n < total ty (b ++ r).
Proof.
  induction r as [|q r IH] using rev_ind; intros Hs.
  { rewrite app_nil_r. split; [|lia]. by intros (? & ?%elem_of_nil & _). }
  rewrite (assoc_L (++)) in *.
  assert (Hh : held q = b ++ r).
  { destruct (Hs (length (b ++ r)) q) as [_ ->]; [by apply list_lookup_middle|].
    by rewrite take_app_length. }
  assert (Hs' : stacked (b ++ r)).
  { intros k x Hk. destruct (Hs k x) as [? ->]; [by apply lookup_app_l_Some|]. split; [done|].
    rewrite take_app_le; [done|]. apply lookup_lt_Some in Hk. lia. }
  specialize (IH Hs'). rewrite total_app, total_one. split.
  - intros (x & [Hx| ->%list_elem_of_singleton]%elem_of_app & Hty & Hn).
    + assert (total ty b ≤ n < total ty (b ++ r)) by (apply IH; eauto). case_decide; lia.
    + rewrite decide_True by done. rewrite Hh in Hn. rewrite total_app in *. lia.
  - intros Hn. destruct (decide (n < total ty (b ++ r))) as [Hlt|Hge].
    + destruct (proj2 IH) as (x & ? & ? & ?); [lia|]. exists x. set_solver.
    + case_decide as Hty; [|lia]. exists q. split; [set_solver|]. split; [done|].
      rewrite Hh. lia.
Qed.

(** ** Loops and places *)

Lemma held_below p q : below p q → held p `prefix_of` held q.
Proof.
  intros [k ->]. induction k as [|i k IH]; [done|]. simpl. by apply prefix_app_r.
Qed.

Lemma loops_prefix q b : b ∈ loops q → b `prefix_of` held q.
Proof.
  induction q as [|i p IH]; simpl; [by intros ?%elem_of_nil|].
  intros [Hb|Hb]%elem_of_app; [|by apply prefix_app_r, IH].
  repeat case_match; try (by apply elem_of_nil in Hb). apply list_elem_of_singleton in Hb as ->.
  simpl. done.
Qed.

Lemma seen_below p q : below p q → seen q → seen p.
Proof. intros [k ->]. induction k as [|i k IH]; [done|]. intros [? _]. by apply IH. Qed.

(** A node below [p] is [p], or is below one of its children. *)
Lemma below_cases p q m n :
  node_at root p = Some n → below p q → node_at root q = Some m →
  q = p ∨ ∃ i c, children n !! i = Some c ∧ below (i :: p) q.
Proof.
  intros Hp [k ->]. revert m. induction k as [|i k IH]; intros m Hm; [by left|right].
  simpl in Hm. destruct (node_at root (k ++ p)) as [m'|] eqn:E; [|done].
  destruct (IH m' eq_refl) as [Hk|(j & c & Hj & Hb)].
  - assert (k = []) as -> by (destruct k; [done|]; apply (f_equal length) in Hk;
      simpl in Hk; rewrite length_app in Hk; lia). simpl in *. simplify_eq.
    exists i, m. split; [done|]. by exists [].
  - exists j, c. split; [done|]. etrans; [exact Hb|]. apply below_child.
Qed.

Lemma rooted_node q : rooted q = true → ∃ v, node_at root q = Some (NExpr v).
Proof.
  destruct q as [|i p]; [done|]. unfold rooted. destruct (node_at root p) as [[]|]; try done.
  destruct (node_at root (i :: p)) as [[]|]; try done. eauto.
Qed.

(** Only operators hold operands. *)
Lemma own_other p i n :
  node_at root p = Some n →
  match n with NExpr e => takes_operands (C.e_kind e) = false | _ => True end →
  own (i :: p) = [].
Proof.
  intros Hp Hn. unfold own, rooted. rewrite Hp. destruct n as [e| | |]; try done.
  destruct (node_at root (i :: p)) as [[]|]; try done. unfold crosses. by rewrite Hn.
Qed.

Lemma owns_other p k n :
  node_at root p = Some n →
  match n with NExpr e => takes_operands (C.e_kind e) = false | _ => True end →
  owns p k = [].
Proof.
  intros Hp Hn. induction k as [|k IH]; [done|]. rewrite owns_S, IH. by eapply own_other.
Qed.

Lemma own_node p n :
  node_at root p = Some n → match n with NExpr _ => False | _ => True end → own p = [].
Proof.
  intros Hp Hn. unfold own. destruct (rooted p) eqn:E; [|done].
  apply rooted_node in E as [v Hv]. by simplify_eq.
Qed.
(** ** Places around a place *)

(** The expression at [q'] has been evaluated, or is being evaluated, when the evaluation of
    [q] starts, and its parent is not done: [q] is below it or below a younger sibling. *)
Definition around (q' q : Path) : Prop :=
  ∃ i j p, q' = i :: p ∧ (i ≤ j)%nat ∧ below (j :: p) q ∧ q' ≠ q.

Lemma around_child q' p i : around q' p → around q' (i :: p).
Proof.
  intros (k & j & p0 & -> & Hle & Hb & Hne). exists k, j, p0. split_and!; [done|done| |].
  - etrans; [exact Hb|apply below_child].
  - intros [= -> ->]. by destruct (below_step _ _ _ Hb) as [_ []].
Qed.

Lemma elem_of_held q' q : q' ∈ held q ↔ around q' q ∧ rooted q' = true.
Proof.
  split.
  - induction q as [|i p IH]; [by intros ?%elem_of_nil|]. cbn [held].
    intros [H|[[-> Hr]%elem_of_own|(j & Hj & -> & Hr)%elem_of_owns]%elem_of_app]%elem_of_app.
    + destruct (IH H). split; [by apply around_child|done].
    + split; [|done]. destruct p as [|k p0]; [done|]. exists k, k, p0.
      split_and!; [done|done|apply below_child|]. intros H%(f_equal length). simpl in H. lia.
    + split; [|done]. exists j, i, p. split_and!; [done|lia|done|]. intros [=]. lia.
  - intros [(i & j & p & -> & Hle & Hb & Hne) Hr]. destruct (decide (i = j)) as [<-|Hij].
    + destruct Hb as [k ->]. induction k as [|x k IH] using rev_ind; [done|].
      rewrite <-(assoc_L (++)). simpl.
      apply (elem_of_prefix (held (x :: i :: p))); [|by apply held_below; exists k].
      cbn [held]. apply elem_of_app. right. apply elem_of_app. left. by apply elem_of_own.
    + apply (elem_of_prefix (held (j :: p))); [|by apply held_below].
      cbn [held]. rewrite !elem_of_app, !elem_of_owns. right. right. exists i. split; [lia|done].
Qed.

Lemma stacked_NoDup l : stacked l → NoDup l.
Proof.
  intros Hl. apply NoDup_alt. intros i j x Hi Hj.
  destruct (Hl i x Hi) as [_ H1], (Hl j x Hj) as [_ H2]. rewrite H1 in H2.
  apply (f_equal length) in H2. rewrite !length_take in H2.
  apply lookup_lt_Some in Hi, Hj. lia.
Qed.

(** ** The innermost loop *)

Definition loop_at (w : Path) : Prop :=
  ∃ condition body span, node_at root w = Some (NStmt (C.mkStmt (C.While condition body) span)).

(** [q] is in the body of the loop at [w], and the other loops around [q] are around [w]. *)
Definition inner_loop (w q : Path) : Prop :=
  loop_at w ∧ below (1%nat :: w) q ∧
  ∀ w', loop_at w' → below (1%nat :: w') q → below (1%nat :: w') (1%nat :: w).

Lemma below_antisym (p q : Path) : below p q → below q p → p = q.
Proof.
  intros [k ->] [k' H]. apply (f_equal length) in H as Hl. rewrite !length_app in Hl.
  destruct k; [done|simpl in Hl; lia].
Qed.

Lemma below_or_child (p : Path) i q : below p (i :: q) → p = i :: q ∨ below p q.
Proof. intros [[|x k] H]; [by left|right]. injection H as -> ->. by exists k. Qed.

Lemma loops_inner w q : inner_loop w q → head (loops q) = Some (held (1%nat :: w)).
Proof.
  intros (Hw & Hb & Hin). revert Hb Hin. induction q as [|i p IH]; intros Hb Hin.
  { destruct Hb as [k H]. by destruct k. }
  assert (Hcase : (i = 1%nat ∧ loop_at p) ∨ ¬ (i = 1%nat ∧ loop_at p)).
  { destruct (decide (i = 1%nat)); [|right; tauto]. unfold loop_at.
    destruct (node_at root p) as [[| |[[] ?]|]|]; naive_solver. }
  destruct Hcase as [[-> Hp]|Hp].
  - assert (1%nat :: w = 1%nat :: p) as [= ->].
    { apply below_antisym; [done|]. by apply Hin. }
    destruct Hp as (c & b & sp & Hp). cbn [loops]. by rewrite Hp.
  - assert (Hb' : below (1%nat :: w) p).
    { destruct (below_or_child _ _ _ Hb) as [[= <- <-]|]; [|done]. by destruct Hp. }
    assert (IH' : head (loops p) = Some (held (1%nat :: w))).
    { apply IH; [done|]. intros w' Hw' Hbw'. apply Hin; [done|].
      etrans; [exact Hbw'|apply below_child]. }
    cbn [loops]. destruct (node_at root p) as [[| |[kind sp]|]|] eqn:E; try exact IH'.
    destruct kind; try exact IH'. destruct (Nat.eqb_spec i 1) as [->|]; [|exact IH'].
    destruct Hp. split; [done|]. by repeat eexists.
Qed.

(** No loop is around [q]. *)
Lemma loops_none q : (∀ w, loop_at w → ¬ below (1%nat :: w) q) → loops q = [].
Proof.
  induction q as [|i p IH]; intros Hno; [done|]. cbn [loops].
  rewrite IH, app_nil_r; [|intros w Hw Hb; eapply Hno; [exact Hw|etrans; [exact Hb|apply below_child]]].
  repeat case_match; try done. subst. destruct (Nat.eqb_spec i 1) as [->|]; [|done].
  exfalso. eapply (Hno p); [by repeat eexists|done].
Qed.

(** What is held in a loop, and was not when its body started, is below the body. *)
Lemma held_in_loop w q r x :
  loop_at w → below (1%nat :: w) q → held q = held (1%nat :: w) ++ r →
  x ∈ r ↔ x ∈ held q ∧ below (1%nat :: w) x.
Proof.
  intros (c & bd & sp & Hw) Hb Hr. pose proof (stacked_NoDup _ (held_stacked q)) as Hnd.
  rewrite Hr in Hnd. apply NoDup_app in Hnd as (_ & Hnd & _). split.
  - intros Hx. assert (Hq : x ∈ held q) by (rewrite Hr; apply elem_of_app; by right).
    split; [done|]. apply elem_of_held in Hq as [(i & j & p & -> & Hle & Hbj & Hne) Hroot].
    assert (Hpw : p ≠ w).
    { intros ->. assert (own (i :: w) = []) as Hown by by eapply own_other.
      apply (not_elem_of_nil (i :: w)). rewrite <-Hown. by apply elem_of_own. }
    destruct (suffix_weak_total (1%nat :: w) (j :: p) q Hb Hbj) as [Hin|Hin].
    + destruct (below_or_child _ _ _ Hin) as [[= _ ->]|Hin']; [done|].
      etrans; [exact Hin'|apply below_child].
    + destruct (Hnd (i :: p)); [|done]. apply elem_of_held. split; [|done].
      exists i, j, p. split_and!; [done..|]. by intros [= _ ->].
  - intros [Hx Hbx]. rewrite Hr in Hx. apply elem_of_app in Hx as [Hx|]; [|done].
    apply elem_of_held in Hx as [(i & j & p & -> & Hle & Hbj & Hne) _].
    destruct Hne. assert (Hji : below (j :: p) (i :: p)) by by etrans.
    assert (j = i) as -> by by eapply below_siblings.
    by apply below_antisym.
Qed.
End held.
