(* ===== verification/TemporaryFacts.v ===== *)
(** The pass of [Temporaries] computes what [Held] says: the slots in use are those of the
    operands held, each slot is the level of its operand on the stack of its type, and what an
    expression or a loop exit gives back are the slots of the operands it drops. At the end,
    the managed types, whose search has enough fuel. *)

From stdpp Require Import sorting.
From S2P Require Import Prelude Model Layout Typing DecodeFacts Nodes Effects RootSlots RootFacts Temporaries Held.

Section pass.
Context (is_shared : bool) (allocating : gset N) (fuel : nat) (types : list C.Data).
Context (root : Node).

#[local] Abbreviation rooted := (rooted is_shared allocating fuel types root).
#[local] Abbreviation own := (own is_shared allocating fuel types root).
#[local] Abbreviation owns := (owns is_shared allocating fuel types root).
#[local] Abbreviation held := (held is_shared allocating fuel types root).
#[local] Abbreviation loops := (loops is_shared allocating fuel types root).
#[local] Abbreviation stacked := (stacked is_shared allocating fuel types root).
#[local] Abbreviation operand_paths := (operand_paths is_shared allocating fuel types root).
#[local] Abbreviation type_at := (type_at root).
#[local] Abbreviation total := (total root).
#[local] Abbreviation seen := (seen root).
#[local] Abbreviation snapshot := (snapshot fuel types).
#[local] Abbreviation crosses := (crosses is_shared allocating).
#[local] Abbreviation visit_expression := (expression allocating fuel types).
#[local] Abbreviation visit_statement := (statement allocating fuel types).
#[local] Abbreviation visit_block := (block allocating fuel types).

(** ** The invariant *)

(** The slot of the operand at [q]: its level in the pool of its type. *)
Definition slot_of (s : TemporarySlots) (q : Path) (k : N) : Prop :=
  get (pool (type_at q) s) (total (type_at q) (held q)) = Some k.

Definition slots_of (s : TemporarySlots) (qs : list Path) (l : list N) : Prop :=
  Sorted N.le l ∧ (∀ q, q ∈ qs → ∃ k, slot_of s q k) ∧
  ∀ k, k ∈ l ↔ ∃ q, q ∈ qs ∧ slot_of s q k.

Record Inv (s : TemporarySlots) : Prop := {
  inv_shared : ts_shared s = is_shared;
  inv_memo : memo_ok is_shared allocating root s;
  inv_typed : ∀ ty k, k ∈ pool ty s → get (ts_types s) k = Some ty;
  inv_distinct : ∀ ty, NoDup (pool ty s);
  inv_expressions : ∀ q k, ts_expressions s !! q = Some k → rooted q = true ∧ slot_of s q k;
  inv_retired : ∀ q l, ts_retired s !! q = Some l → slots_of s (operand_paths q) l;
  inv_exits : ∀ q l, ts_exits s !! q = Some l →
    ∃ b r, head (loops q) = Some b ∧ held q = b ++ r ∧ slots_of s r l;
}.

(** [used] counts the operands [l]. *)
Definition counts (used : gmap Ty.Ty N) (l : list Path) : Prop :=
  ∀ ty, count ty used = total ty l.

Definition fits (s : TemporarySlots) (used : gmap Ty.Ty N) (l : list Path) : Prop :=
  counts used l ∧ ∀ ty u, used !! ty = Some u →
    is_Some (ts_pools s !! ty) ∧ u ≤ lengthN (pool ty s).

Definition at_stack (s : TemporarySlots) (l : list Path) : Prop := fits s (ts_used s) l.

Definition at_loops (s : TemporarySlots) (bs : list (list Path)) : Prop :=
  Forall2 counts (ts_loop_bases s) bs.

(** Between two states of the pass. *)
Record grows (s s' : TemporarySlots) : Prop := {
  grows_pools : ∀ ty, pool ty s `prefix_of` pool ty s';
  grows_pool : ∀ ty, is_Some (ts_pools s !! ty) → is_Some (ts_pools s' !! ty);
  grows_loops : ts_loop_bases s' = ts_loop_bases s;
  grows_expressions : dom (ts_expressions s) ⊆ dom (ts_expressions s');
  grows_retired : dom (ts_retired s) ⊆ dom (ts_retired s');
  grows_exits : dom (ts_exits s) ⊆ dom (ts_exits s');
}.

(** Everything at [q] has been recorded. *)
Record recorded (s : TemporarySlots) (q : Path) : Prop := {
  recorded_slot : rooted q = true → q ∈ dom (ts_expressions s);
  recorded_retired e : node_at root q = Some (NExpr e) → operand_paths q ≠ [] →
    q ∈ dom (ts_retired s);
  recorded_exit kind span b : node_at root q = Some (NStmt (C.mkStmt kind span)) →
    kind = C.Break ∨ kind = C.Continue → head (loops q) = Some b → held q ≠ b →
    q ∈ dom (ts_exits s);
}.

Definition covered (s : TemporarySlots) (p : Path) : Prop :=
  ∀ q m, node_at root q = Some m → below p q → seen q → recorded s q.

Definition assigned (p : Path) (s s' : TemporarySlots) : Prop :=
  Inv s' ∧ grows s s' ∧ at_stack s' (held p ++ own p) ∧ covered s' p.

Lemma pass_grows_refl s : grows s s.
Proof. by split. Qed.

Lemma pass_grows_trans s1 s2 s3 : grows s1 s2 → grows s2 s3 → grows s1 s3.
Proof.
  intros [P1 Q1 L1 E1 R1 X1] [P2 Q2 L2 E2 R2 X2]. split; [|intros; by apply Q2, Q1|congruence|set_solver..].
  intros ty. trans (pool ty s2); [apply P1|apply P2].
Qed.

Lemma grows_slot s s' q k : grows s s' → slot_of s q k → slot_of s' q k.
Proof.
  unfold slot_of. intros Hg Hk. destruct (grows_pools _ _ Hg (type_at q)) as [l ->].
  by apply get_app_l.
Qed.

Lemma recorded_grows s s' q : grows s s' → recorded s q → recorded s' q.
Proof.
  intros [_ _ _ He Hr Hx] [R1 R2 R3]. split; intros.
  - by apply He, R1.
  - apply Hr. by eapply R2.
  - apply Hx. by eapply R3.
Qed.

Lemma covered_grows s s' p : grows s s' → covered s p → covered s' p.
Proof. intros Hg Hc q m Hq Hb Hs. eapply recorded_grows; [exact Hg|by eapply Hc]. Qed.

(** A node is covered when it is recorded and its children are covered. *)
Lemma covered_node s p n :
  node_at root p = Some n → recorded s p →
  (is_callback n = false → ∀ i c, children n !! i = Some c → covered s (i :: p)) →
  covered s p.
Proof.
  intros Hp Hr Hc q m Hq Hb Hs. destruct (below_cases _ _ _ _ _ Hp Hb Hq) as [->|(i & c & Hi & Hi')].
  - done.
  - eapply Hc; [|exact Hi|exact Hq|exact Hi'|exact Hs].
    eapply (seen_below root) in Hs; [|exact Hi']. destruct Hs as [_ Hs]. by apply Hs.
Qed.
(** ** Steps of the state *)

Lemma slots_of_grows s s' qs l : grows s s' → slots_of s qs l → slots_of s' qs l.
Proof.
  intros Hg (Hl & Hall & Hk). split; [done|]. split.
  - intros q Hq. destruct (Hall q Hq) as [k ?]. exists k. by eapply grows_slot.
  - intros k. rewrite Hk. split; intros (q & Hq & Hs); (exists q; split; [done|]).
    + by eapply grows_slot.
    + destruct (Hall q Hq) as [k' Hk']. pose proof (grows_slot _ _ _ _ Hg Hk') as Hs'.
      unfold slot_of in *. by rewrite Hs in Hs'; simplify_eq.
Qed.

Lemma grows_allocation a s : grows s (set_allocation a s).
Proof. by split. Qed.

Lemma grows_used u s : grows s (set_used u s).
Proof. by split. Qed.

Lemma inv_used u s : Inv s → Inv (set_used u s).
Proof. by intros [? ? ? ? ? ? ?]. Qed.

Lemma inv_loops bs s : Inv s → Inv (set_loop_bases bs s).
Proof. by intros [? ? ? ? ? ? ?]. Qed.

Lemma wp_question e p s (Q : bool → TemporarySlots → Prop) :
  node_at root p = Some (NExpr e) → Inv s →
  (∀ a, Inv (set_allocation a s) → Q (collecting is_shared allocating e) (set_allocation a s)) →
  wp (question (may_allocate allocating e p)) s Q.
Proof.
  intros Hp Hi HQ.
  destruct (all_answer is_shared allocating root (NExpr e) p Hp s) as (Hr & Hm & a & Ha);
    [by apply inv_shared|by apply inv_memo|].
  unfold wp, question. destruct (may_allocate allocating e p s) as [r s1]. simpl in *. subst s1.
  replace r with (collecting is_shared allocating e).
  - apply HQ. by destruct Hi.
  - apply eq_bool_prop_intro. by rewrite !Is_true_true, Hr, collecting_spec.
Qed.

Lemma pool_grow ty ty' s :
  pool ty' (grow_pool ty s) =
  if decide (ty' = ty) then pool ty s ++ [lengthN (ts_types s)] else pool ty' s.
Proof.
  unfold pool at 1. simpl. case_decide as E; [subst; by rewrite lookup_insert_eq|].
  by rewrite lookup_insert_ne.
Qed.

Lemma grows_grow_pool ty s : grows s (grow_pool ty s).
Proof.
  split; try done.
  - intros ty'. rewrite pool_grow. case_decide; [subst; by apply prefix_app_r|done].
  - intros ty' Ht. simpl. destruct (decide (ty' = ty)) as [->|]; [by rewrite lookup_insert_eq|].
    by rewrite lookup_insert_ne.
Qed.

Lemma inv_grow_pool ty s : Inv s → Inv (grow_pool ty s).
Proof.
  intros Hi. pose proof (grows_grow_pool ty s) as Hg. destruct Hi as [? ? Ht Hd He Hr Hx]. split.
  - done.
  - done.
  - intros ty' k. rewrite pool_grow. simpl. case_decide; [subst|].
    + intros [Hk| ->%list_elem_of_singleton]%elem_of_app; [by apply get_app_l, Ht|].
      apply get_Some. rewrite Nat2N.id. by apply list_lookup_middle.
    + intros Hk. by apply get_app_l, Ht.
  - intros ty'. rewrite pool_grow. case_decide; [subst|done]. apply NoDup_app.
    split; [done|]. split; [|apply NoDup_singleton].
    intros k Hk ->%list_elem_of_singleton. apply Ht, get_Some_lt in Hk. lia.
  - intros q k Hq. destruct (He q k Hq). split; [done|]. by eapply grows_slot.
  - intros q l Hq. eapply slots_of_grows; [exact Hg|]. by apply Hr.
  - intros q l Hq. destruct (Hx q l Hq) as (b & r & ? & ? & ?). exists b, r. split; [done|].
    split; [done|]. by eapply slots_of_grows.
Qed.

Lemma fits_grows s s' used l : grows s s' → fits s used l → fits s' used l.
Proof.
  intros Hg [Hc Hp]. split; [done|].
  intros ty u Hty. destruct (Hp ty u Hty) as [? Hle]. split; [by eapply grows_pool|].
  pose proof (prefix_length _ _ (grows_pools _ _ Hg ty)). lia.
Qed.

Lemma at_stack_grows s s' l : grows s s' → ts_used s' = ts_used s → at_stack s l → at_stack s' l.
Proof. unfold at_stack. intros Hg ->. by apply fits_grows. Qed.

(** Using the slot of the next level. *)
Lemma use_next s p k :
  Inv s → at_stack s (held p) → rooted p = true → slot_of s p k →
  total (type_at p) (held p) < lengthN (pool (type_at p) s) →
  is_Some (ts_pools s !! type_at p) →
  let s' := use_slot (type_at p) p k s in
  Inv s' ∧ grows s s' ∧ at_stack s' (held p ++ [p]) ∧ p ∈ dom (ts_expressions s').
Proof.
  intros Hi [Hc Hp] Hr Hk Hlt Hpool s'. split_and!.
  - destruct Hi as [? ? ? ? He ? ?]. split; try done. intros q k'. simpl.
    intros [[<- <-]|[_ Hq]]%lookup_insert_Some; [done|by apply He].
  - split; try done; simpl; set_solver.
  - split.
    + intros ty. unfold count. simpl. rewrite total_app, total_one, <-(Hc ty). unfold count.
      case_decide as E; [subst; rewrite lookup_insert_eq; simpl; lia|].
      rewrite lookup_insert_ne by done. lia.
    + intros ty u. simpl. intros [[<- <-]|[Hne Hu]]%lookup_insert_Some.
      * split; [done|]. rewrite (Hc (type_at p)). change (pool _ s') with (pool (type_at p) s). lia.
      * by apply Hp.
  - simpl. set_solver.
Qed.

Lemma wp_reserve p ty s Q :
  Inv s → at_stack s (held p) → rooted p = true → ty = type_at p →
  (∀ s', Inv s' → grows s s' → at_stack s' (held p ++ [p]) → p ∈ dom (ts_expressions s') →
     Q tt s') →
  wp (reserve ty p) s Q.
Proof.
  intros Hi Hs Hr -> HQ. set (ty := type_at p). unfold reserve.
  apply st_bind, st_reads, st_bind, st_reads.
  set (u := count ty (ts_used s)).
  assert (Hu : u = total ty (held p)) by apply Hs.
  assert (Hle : u ≤ lengthN (pool ty s)).
  { destruct Hs as [_ Hs]. unfold u, count. destruct (ts_used s !! ty) as [v|] eqn:E; simpl; [|lia].
    by apply (Hs ty v). }
  assert (Hnext : ∀ s', Inv s' → grows s s' → at_stack s' (held p) → u < lengthN (pool ty s') →
            is_Some (ts_pools s' !! ty) →
            wp (free ← reads (pool ty); slot ← lift (index_or_panic free u);
                edits (use_slot ty p slot)) s' Q).
  { intros s' Hi' Hg' Hs' Hlt Hpool. apply st_bind, st_reads, st_bind.
    destruct (get_lt _ _ Hlt) as [k Hk].
    eapply st_lift; [by unfold index_or_panic; rewrite Hk|]. apply st_edits.
    rewrite Hu in Hk, Hlt. destruct (use_next s' p k) as (? & ? & ? & ?); [done..|].
    apply HQ; [done| |done|done]. by eapply pass_grows_trans. }
  apply st_bind. destruct (N.eqb_spec u (lengthN (pool ty s))) as [E|E].
  - apply st_edits, Hnext.
    + by apply inv_grow_pool.
    + apply grows_grow_pool.
    + eapply at_stack_grows; [apply grows_grow_pool|done|exact Hs].
    + rewrite pool_grow, decide_True by done. rewrite length_app. simpl. lia.
    + simpl. by rewrite lookup_insert_eq.
  - apply st_ret, Hnext; [done|apply pass_grows_refl|done|lia|].
    unfold pool in E, Hle. destruct (ts_pools s !! ty); [done|]. simpl in *. lia.
Qed.
(** ** Giving slots back *)

Lemma range_elem {A} (l : list A) first last :
  first ≤ last → last ≤ lengthN l →
  ∃ r, range_or_panic l first last = Ok r ∧
    ∀ x, x ∈ r ↔ ∃ n, first ≤ n < last ∧ get l n = Some x.
Proof.
  intros Hf Hl. eexists. split.
  { unfold range_or_panic. by rewrite (proj2 (N.leb_le _ _) Hf), (proj2 (N.leb_le _ _) Hl). }
  intros x. rewrite list_elem_of_lookup. setoid_rewrite get_Some. split.
  - intros (i & Hi). apply lookup_take_Some in Hi as [Hi Hlt]. rewrite lookup_drop in Hi.
    exists (first + N.of_nat i). split; [lia|]. rewrite <-Hi. f_equal. lia.
  - intros (n & Hn & Hx). exists (N.to_nat (n - first)). apply lookup_take_Some.
    split; [|lia]. rewrite lookup_drop, <-Hx. f_equal. lia.
Qed.

Lemma slots_since_elem base s used :
  (∀ ty u, (ty, u) ∈ used →
     is_Some (ts_pools s !! ty) ∧ count ty base ≤ u ∧ u ≤ lengthN (pool ty s)) →
  ∃ l, slots_since base (ts_pools s) used = Ok l ∧
    ∀ k, k ∈ l ↔ ∃ ty u n, (ty, u) ∈ used ∧ count ty base ≤ n < u ∧ get (pool ty s) n = Some k.
Proof.
  induction used as [|[ty u] used IH]; intros Hu.
  { exists []. split; [done|]. intros k. split; [by intros ?%elem_of_nil|].
    by intros (? & ? & ? & ?%elem_of_nil & _). }
  destruct (Hu ty u) as ([slots Hpool] & Hle & Hlen); [left|].
  unfold pool in Hlen. rewrite Hpool in Hlen. simpl in Hlen.
  destruct (range_elem slots _ _ Hle Hlen) as (r & Hr & Hin).
  destruct IH as (l & Hl & Hinl); [intros; apply Hu; by right|].
  exists (r ++ l). split.
  { simpl. rewrite Hpool. simpl. rewrite Hr. simpl. by rewrite Hl. }
  assert (Hslots : pool ty s = slots) by (unfold pool; by rewrite Hpool).
  intros k. rewrite elem_of_app, Hin, Hinl. split.
  - intros [(n & Hn & Hk)|(ty' & u' & n & ? & ? & ?)].
    + exists ty, u, n. rewrite Hslots. split; [left|done].
    + exists ty', u', n. split; [by right|done].
  - intros (ty' & u' & n & [[= -> ->]|Hin']%elem_of_cons & Hn & Hk).
    + left. exists n. rewrite <-Hslots. done.
    + right. by exists ty', u', n.
Qed.

Lemma level_of b r q :
  stacked (b ++ r) → q ∈ r →
  total (type_at q) b ≤ total (type_at q) (held q) < total (type_at q) (b ++ r).
Proof.
  intros Hst Hq. apply (levels is_shared allocating fuel types root b r (type_at q)); [done|]. eauto.
Qed.

Lemma slot_exists s l q : at_stack s l → q ∈ l → stacked l → ∃ k, slot_of s q k.
Proof.
  intros [Hc Hp] Hq Hst. unfold slot_of. apply get_lt.
  assert (Hlt : total (type_at q) (held q) < total (type_at q) l).
  { by apply (level_of [] l). }
  rewrite <-(Hc (type_at q)) in Hlt. unfold count in Hlt.
  destruct (ts_used s !! type_at q) as [u|] eqn:E; simpl in *; [|lia].
  destruct (Hp _ _ E). lia.
Qed.

Lemma wp_retired_since base b r s Q :
  at_stack s (b ++ r) → stacked (b ++ r) → counts base b →
  (∀ l, slots_of s r l → Q l s) → wp (retired_since base) s Q.
Proof.
  intros Hs Hst Hb HQ. destruct Hs as [Hc Hp].
  destruct (slots_since_elem base s (map_to_list (ts_used s))) as (l & Hl & Hin).
  { intros ty u Hu%elem_of_map_to_list. destruct (Hp ty u Hu) as [? Hle]. split_and!; [done| |done].
    specialize (Hc ty). unfold count in Hc. rewrite Hu in Hc. simpl in Hc. subst u.
    rewrite (Hb ty), total_app. lia. }
  unfold wp, retired_since. rewrite Hl. simpl. apply HQ. split; [|split].
  - apply Sorted_merge_sort. intros x y. lia.
  - intros q Hq. eapply slot_exists; [by split|by apply elem_of_app; right|done].
  - intros k. rewrite merge_sort_Permutation, Hin. split.
    + intros (ty & u & n & Hu%elem_of_map_to_list & Hn & Hk).
      specialize (Hc ty). unfold count in Hc. rewrite Hu in Hc. simpl in Hc. subst u.
      rewrite (Hb ty) in Hn.
      apply (levels is_shared allocating fuel types root b r ty n Hst) in Hn as (q & Hq & Hty & Hn).
      exists q. split; [done|]. unfold slot_of. by rewrite Hty, Hn.
    + intros (q & Hq & Hk). set (ty := type_at q). set (n := total ty (held q)).
      assert (Hn : total ty b ≤ n < total ty (b ++ r)) by by apply level_of.
      specialize (Hc ty). unfold count in Hc.
      destruct (ts_used s !! ty) as [u|] eqn:Hu; simpl in Hc; [|lia].
      exists ty, u, n. split_and!; [by apply elem_of_map_to_list|rewrite (Hb ty); lia|lia|done].
Qed.

Lemma slots_of_nil s r l : slots_of s r l → l = [] ↔ r = [].
Proof.
  intros (_ & Hall & Hk). split; intros ->.
  - destruct r as [|q r]; [done|]. destruct (Hall q) as [k ?]; [left|].
    exfalso. eapply elem_of_nil, Hk. exists q. split; [left|done].
  - destruct l as [|k l]; [done|]. destruct (proj1 (Hk k)) as (q & ?%elem_of_nil & _); [left|done].
Qed.

Lemma wp_record_retired p l s Q :
  Inv s → slots_of s (operand_paths p) l →
  (∀ s', Inv s' → grows s s' → ts_used s' = ts_used s →
     (operand_paths p ≠ [] → p ∈ dom (ts_retired s')) → Q tt s') →
  wp (insert_retired p l) s Q.
Proof.
  intros Hi Hl HQ. pose proof (slots_of_nil _ _ _ Hl) as Hnil. unfold insert_retired.
  destruct l as [|k l].
  - apply st_ret, HQ; [done|apply pass_grows_refl|done|]. intros H. destruct H. by apply Hnil.
  - apply st_edits, HQ; [|split; simpl; first [done|set_solver]|done|simpl; set_solver].
    destruct Hi as [? ? ? ? ? Hr ?]. split; try done. simpl.
    intros q l' [[<- <-]|[_ Hq]]%lookup_insert_Some; [done|by apply Hr].
Qed.

Lemma wp_record_exit p b r l s Q :
  Inv s → head (loops p) = Some b → held p = b ++ r → slots_of s r l →
  (∀ s', Inv s' → grows s s' → ts_used s' = ts_used s →
     (r ≠ [] → p ∈ dom (ts_exits s')) → Q tt s') →
  wp (insert_exit p l) s Q.
Proof.
  intros Hi Hb Hr Hl HQ. pose proof (slots_of_nil _ _ _ Hl) as Hnil. unfold insert_exit.
  destruct l as [|k l].
  - apply st_ret, HQ; [done|apply pass_grows_refl|done|]. intros H. destruct H. by apply Hnil.
  - apply st_edits, HQ; [|split; simpl; first [done|set_solver]|done|simpl; set_solver].
    destruct Hi as [? ? ? ? ? ? Hx]. split; try done. simpl.
    intros q l' [[<- <-]|[_ Hq]]%lookup_insert_Some; [by exists b, r|by apply Hx].
Qed.
(** ** Visits of nodes *)

Context (Hsnapshot : ∀ q e, node_at root q = Some (NExpr e) →
           ∃ b, needs_snapshot fuel types e = Ok b).

Definition assigns (n : Node) : Prop :=
  ∀ p s, node_at root p = Some n → Inv s → at_stack s (held p) → at_loops s (loops p) →
  match n with
  | NExpr e =>
      ∀ protect, rooted p = protect && snapshot e →
      wp (visit_expression e p protect) s (λ _ s', assigned p s s')
  | NBlock b => wp (visit_block b p) s (λ _ s', assigned p s s')
  | NStmt st => wp (visit_statement st p) s (λ _ s', assigned p s s')
  | NFunction _ => True
  end.

Lemma at_loops_grows s s' bs : grows s s' → at_loops s bs → at_loops s' bs.
Proof. unfold at_loops. intros Hg. by rewrite (grows_loops _ _ Hg). Qed.

(** The children of [p] up to step [i] have been visited, from [s0] on. *)
Definition upto (p : Path) (i : nat) (s0 s : TemporarySlots) : Prop :=
  Inv s ∧ grows s0 s ∧ at_stack s (held (i :: p)) ∧ ∀ j, (j < i)%nat → covered s (j :: p).

Lemma upto_step p i s0 s s' : upto p i s0 s → assigned (i :: p) s s' → upto p (S i) s0 s'.
Proof.
  intros (Hi & Hg & Hs & Hc) (Hi' & Hg' & Hs' & Hc'). split_and!.
  - done.
  - by eapply pass_grows_trans.
  - by rewrite held_next.
  - intros j Hj. destruct (decide (j = i)) as [->|]; [done|].
    eapply covered_grows; [exact Hg'|]. apply Hc. lia.
Qed.

Lemma upto_allocation p i s0 s a :
  upto p i s0 s → Inv (set_allocation a s) → upto p i s0 (set_allocation a s).
Proof.
  intros (Hi & Hg & Hs & Hc) Hi'. split_and!; [done|..|done|].
  - eapply pass_grows_trans; [exact Hg|apply grows_allocation].
  - intros j Hj. eapply covered_grows; [apply grows_allocation|by apply Hc].
Qed.

Lemma upto_used p i s0 s used :
  upto p i s0 s → fits s used (held (i :: p)) → upto p i s0 (set_used used s).
Proof.
  intros (Hi & Hg & Hs & Hc) Hf. split_and!; [by apply inv_used|by eapply pass_grows_trans|done|].
  intros j Hj. eapply covered_grows; [apply grows_used|by apply Hc].
Qed.

Section children.
Context (n : Node) (p : Path) (HF : Forall assigns (children n)) (Hp : node_at root p = Some n).

Lemma wp_child_expression i v protect s0 s Q :
  children n !! i = Some (NExpr v) → upto p i s0 s → at_loops s0 (loops (i :: p)) →
  rooted (i :: p) = protect && snapshot v → (∀ s', upto p (S i) s0 s' → Q tt s') →
  wp (visit_expression v (i :: p) protect) s Q.
Proof.
  intros Hi Hu Hl Hr HQ. eapply Forall_lookup_1 in HF; [|done]. destruct (Hu) as (? & ? & ? & ?).
  eapply st_mono; [apply HF; [by apply (node_at_child _ _ n)|done|done| |done]|].
  - by eapply at_loops_grows.
  - intros [] s' Ha. apply HQ. by eapply upto_step.
Qed.

Lemma wp_child_block i b s0 s Q :
  children n !! i = Some (NBlock b) → upto p i s0 s → at_loops s0 (loops (i :: p)) →
  (∀ s', upto p (S i) s0 s' → grows s s' → Q tt s') → wp (visit_block b (i :: p)) s Q.
Proof.
  intros Hi Hu Hl HQ. eapply Forall_lookup_1 in HF; [|done]. destruct (Hu) as (? & ? & ? & ?).
  eapply st_mono; [apply HF; [by apply (node_at_child _ _ n)|done|done|]|].
  - by eapply at_loops_grows.
  - intros [] s' Ha. apply HQ; [by eapply upto_step|apply Ha].
Qed.

Lemma wp_child_statement i st s0 s Q :
  children n !! i = Some (NStmt st) → upto p i s0 s → at_loops s0 (loops (i :: p)) →
  (∀ s', upto p (S i) s0 s' → Q tt s') → wp (visit_statement st (i :: p)) s Q.
Proof.
  intros Hi Hu Hl HQ. eapply Forall_lookup_1 in HF; [|done]. destruct (Hu) as (? & ? & ? & ?).
  eapply st_mono; [apply HF; [by apply (node_at_child _ _ n)|done|done|]|].
  - by eapply at_loops_grows.
  - intros [] s' Ha. apply HQ. by eapply upto_step.
Qed.
End children.

(** ** Operands *)

#[local] Arguments children : simpl never.

Section operator.
Context (e : C.Expr) (p : Path).
#[local] Abbreviation nodes := (children (NExpr e)).
#[local] Abbreviation node_collects := (node_collects is_shared allocating).
Context (HF : Forall assigns nodes) (Hp : node_at root p = Some (NExpr e)).
Context (Htakes : takes_operands (C.e_kind e) = true).

(** [ops] are the children of [e] from step [i] on. *)
Definition are_operands (i : nat) (ops : list Operand) : Prop :=
  length nodes = (i + length ops)%nat ∧
  ∀ k o, ops !! k = Some o →
    o_path o = (i + k)%nat :: p ∧ nodes !! (i + k)%nat = Some (NExpr (o_value o)) ∧
    o_visit o = visit_expression (o_value o) (o_path o).

Lemma are_operands_cons i o ops :
  are_operands i (o :: ops) →
  (o_path o = i :: p ∧ nodes !! i = Some (NExpr (o_value o)) ∧
   o_visit o = visit_expression (o_value o) (o_path o)) ∧ are_operands (S i) ops.
Proof.
  intros [Hl Ho]. split; [|split].
  - specialize (Ho 0%nat o eq_refl). by rewrite Nat.add_0_r in Ho.
  - simpl in Hl. lia.
  - intros k o' Hk. specialize (Ho (S k) o' Hk). by rewrite Nat.add_succ_r in Ho.
Qed.

Lemma wp_protections later ops i s Q :
  are_operands i ops → Inv s →
  (∀ l a, Inv (set_allocation a s) → length l = length ops →
     (∀ k b, l !! k = Some b →
        b = later || existsb node_collects (drop (S (i + k)) nodes)) →
     Q (l, later || existsb node_collects (drop i nodes)) (set_allocation a s)) →
  wp (protections allocating ops later) s Q.
Proof.
  revert i s Q. induction ops as [|o ops IH]; intros i s Q Ho Hi HQ.
  - destruct Ho as [Hl _]. simpl in Hl. apply st_ret.
    specialize (HQ [] (ts_allocation s)). rewrite set_allocation_self in HQ.
    rewrite drop_ge in HQ by lia. simpl in HQ. rewrite orb_false_r in HQ. by apply HQ.
  - destruct (are_operands_cons _ _ _ Ho) as [(Hpath & Hnode & _) Ho'].
    simpl. apply st_bind. apply (IH (S i)); [done|done|]. intros l a Hi1 Hl Hb.
    apply st_bind. rewrite Hpath.
    eapply wp_question; [by apply (node_at_child _ _ (NExpr e))|done|]. intros a' Hi2.
    apply st_ret. erewrite (drop_S nodes _ i Hnode) in HQ. simpl in HQ.
    rewrite (orb_comm (collecting _ _ _)), orb_assoc in HQ. apply HQ; [done|simpl; lia|].
    intros [|k] b Hk; simpl in Hk.
    + injection Hk as <-. by rewrite Nat.add_0_r.
    + rewrite Nat.add_succ_r. by apply (Hb k).
Qed.

Lemma wp_visit_each ops l i s0 s Q :
  are_operands i ops → length l = length ops →
  (∀ k b, l !! k = Some b → b = crosses e (i + k)) →
  upto p i s0 s → at_loops s0 (loops p) →
  (∀ s', upto p (length nodes) s0 s' → Q tt s') →
  wp (visit_each ops l) s Q.
Proof.
  revert l i s. induction ops as [|o ops IH]; intros [|b l] i s Ho Hl Hb Hu Hloops HQ; try done.
  - destruct Ho as [Hn _]. apply st_ret, HQ. rewrite Hn. simpl. by rewrite Nat.add_0_r.
  - destruct (are_operands_cons _ _ _ Ho) as [(Hpath & Hnode & Hv) Ho']. simpl.
    apply st_bind. rewrite Hv, Hpath.
    eapply (wp_child_expression (NExpr e) p HF Hp); [exact Hnode|exact Hu| | |].
    + simpl. by rewrite Hp.
    + pose proof (Hb 0%nat b eq_refl) as E. rewrite Nat.add_0_r in E. unfold Held.rooted.
      by rewrite (node_at_child root p (NExpr e) i (NExpr (o_value o))), Hp, E.
    + intros s' Hu'. apply (IH l (S i)); [done|by injection Hl| |done|done|done].
      intros k b' Hk. specialize (Hb (S k) b' Hk). by rewrite Nat.add_succ_r in Hb.
Qed.

Lemma wp_siblings ops later i s0 s Q :
  are_operands 0 ops → later = operation_may_collect is_shared allocating e → i = 0%nat →
  upto p i s0 s → at_loops s0 (loops p) →
  (∀ s', upto p (length nodes) s0 s' → Q tt s') →
  wp (siblings allocating ops later) s Q.
Proof.
  intros Ho -> -> Hu Hl HQ. apply st_bind.
  eapply wp_protections; [exact Ho|apply Hu|]. intros l a Hi Hlen Hb.
  eapply wp_visit_each; [exact Ho|exact Hlen| |by apply upto_allocation|done|done].
  intros k b Hk. rewrite (Hb k b Hk). unfold Held.crosses. by rewrite Htakes.
Qed.
End operator.
(** ** Branches *)

Section branches.
Context (n : Node) (p : Path) (HF : Forall assigns (children n)) (Hp : node_at root p = Some n).
Context (Hn : match n with NExpr e => takes_operands (C.e_kind e) = false | _ => True end).
Context (Hloops : ∀ i, loops (i :: p) = loops p).

Lemma held_child i j : held (i :: p) = held (j :: p).
Proof using Hp Hn. cbn [Held.held]. by rewrite !(owns_other _ _ _ _ _ _ _ n Hp Hn). Qed.

Lemma upto_reset i s0 s used :
  upto p i s0 s → fits s0 used (held (0%nat :: p)) → upto p i s0 (set_used used s).
Proof using Hp Hn.
  intros Hu Hf. apply upto_used; [done|]. rewrite (held_child i 0).
  destruct Hu as (_ & Hg & _). by eapply fits_grows.
Qed.

(** [bodies] are the blocks of the node from step [i] on. *)
Definition are_blocks (i : nat) (bodies : list (Pass ())) : Prop :=
  ∀ k body, bodies !! k = Some body →
  ∃ b, children n !! (i + k)%nat = Some (NBlock b) ∧ body = visit_block b ((i + k)%nat :: p).

Lemma are_blocks_cons i body bodies :
  are_blocks i (body :: bodies) →
  (∃ b, children n !! i = Some (NBlock b) ∧ body = visit_block b (i :: p)) ∧
  are_blocks (S i) bodies.
Proof.
  intros H. split; [|intros k x Hk].
  - specialize (H 0%nat body eq_refl). by rewrite Nat.add_0_r in H.
  - specialize (H (S k) x Hk). by rewrite Nat.add_succ_r in H.
Qed.

Lemma fits_peak s peak used l :
  fits s peak l → fits s used l → fits s (union_with (λ a b, Some (N.max a b)) peak used) l.
Proof.
  intros [Hc1 Hp1] [Hc2 Hp2]. split.
  - intros ty. specialize (Hc1 ty). specialize (Hc2 ty). unfold count in *.
    rewrite lookup_union_with. destruct (peak !! ty), (used !! ty); simpl in *; lia.
  - intros ty u. rewrite lookup_union_with.
    destruct (peak !! ty) as [a|] eqn:E1, (used !! ty) as [b|] eqn:E2; simpl; intros [= <-].
    + destruct (Hp1 ty a E1), (Hp2 ty b E2). split; [done|lia].
    + by apply Hp1.
    + by apply Hp2.
Qed.

Lemma wp_each_branch bodies i s0 s base peak Q :
  are_blocks i bodies → upto p i s0 s → at_loops s0 (loops p) →
  fits s0 base (held (0%nat :: p)) → fits s peak (held (0%nat :: p)) →
  (∀ peak' s', upto p (i + length bodies) s0 s' → fits s' peak' (held (0%nat :: p)) →
     Q peak' s') →
  wp (each_branch base peak bodies) s Q.
Proof.
  revert i s peak. induction bodies as [|body bodies IH]; intros i s peak Hb Hu Hl Hbase Hpeak HQ.
  { apply st_ret, HQ; [|done]. simpl. by rewrite Nat.add_0_r. }
  destruct (are_blocks_cons _ _ _ Hb) as [(b & Hi & ->) Hb'].
  simpl. apply st_bind, st_edits, st_bind.
  eapply (wp_child_block n p HF Hp); [exact Hi|by apply upto_reset|by rewrite Hloops|].
  intros s' Hu' Hg. apply st_bind, st_reads. destruct (Hu') as (_ & _ & Hs' & _).
  apply (IH (S i)); [done..| |].
  - apply fits_peak; [|by rewrite (held_child 0 (S i))].
    eapply fits_grows; [exact Hg|done].
  - intros peak' s''. simpl in HQ. rewrite Nat.add_succ_r in HQ. apply HQ.
Qed.
Lemma wp_branches bodies i s0 s Q :
  are_blocks i bodies → upto p i s0 s → at_loops s0 (loops p) →
  length (children n) = (i + length bodies)%nat →
  (∀ s', upto p (length (children n)) s0 s' → Q tt s') →
  wp (branches bodies) s Q.
Proof.
  intros Hb Hu Hl Hlen HQ. apply st_bind, st_reads, st_bind.
  assert (Hf : fits s (ts_used s) (held (0%nat :: p))).
  { rewrite (held_child 0 i). apply Hu. }
  destruct (Hu) as (Hi & Hg & Hs & Hc).
  assert (Hu0 : upto p i s s) by (split_and!; [done|apply pass_grows_refl|done|done]).
  eapply (wp_each_branch bodies i s s); [done|done|by eapply at_loops_grows|done|done|].
  intros peak s' (Hi' & Hg' & Hs' & Hc') Hp'. apply st_edits, HQ. rewrite Hlen.
  apply upto_used; [|by rewrite (held_child _ 0)].
  split_and!; [done|by eapply pass_grows_trans|done|done].
Qed.
End branches.

(** ** Expressions *)

(** The part of the visit that depends on the kind. *)
Lemma wp_shell e p protect (core : bool → Pass ()) s :
  node_at root p = Some (NExpr e) → Inv s → at_stack s (held p) → at_loops s (loops p) →
  rooted p = protect && snapshot e →
  (∀ s1 Q, upto p 0 s1 s1 → at_loops s1 (loops p) →
     (∀ s2, upto p (length (children (NExpr e))) s1 s2 → Q tt s2) → wp (core is_shared) s1 Q) →
  wp (snapshot ← (if protect then lift (needs_snapshot fuel types e) else mret false);
      (if (snapshot : bool) then reserve (C.e_ty e) p else mret tt) ;;
      base ← reads ts_used;
      shared ← reads ts_shared;
      core shared ;;
      retired ← retired_since base;
      insert_retired p retired ;;
      edits (set_used base)) s (λ _ s', assigned p s s').
Proof.
  intros Hp Hi Hs Hl Hr Hcore. apply st_bind. eapply st_mono with (Q := λ b s', b = rooted p ∧ s' = s).
  { destruct protect; [|by apply st_ret; rewrite Hr].
    destruct (Hsnapshot p e Hp) as [b Hb]. eapply st_lift; [exact Hb|]. split; [|done].
    rewrite Hr. unfold Held.snapshot. by rewrite Hb. }
  intros b s' [-> ->]. apply st_bind. eapply st_mono with (Q := λ _ s1,
    Inv s1 ∧ grows s s1 ∧ at_stack s1 (held p ++ own p) ∧
    (rooted p = true → p ∈ dom (ts_expressions s1))).
  { unfold Held.own. destruct (rooted p) eqn:E.
    - eapply wp_reserve; [done|done|done| |done]. unfold Held.type_at. by rewrite Hp.
    - apply st_ret. split_and!; [done|apply pass_grows_refl|by rewrite app_nil_r|done]. }
  intros [] s1 (Hi1 & Hg1 & Hs1 & Hd1). apply st_bind, st_reads, st_bind, st_reads.
  rewrite (inv_shared _ Hi1). apply st_bind. apply Hcore.
  { split_and!; [done|apply pass_grows_refl|by rewrite held_first|lia]. }
  { by eapply at_loops_grows. }
  intros s2 (Hi2 & Hg2 & Hs2 & Hc2). apply st_bind.
  assert (Hops : held (length (children (NExpr e)) :: p) = (held p ++ own p) ++ operand_paths p).
  { cbn [Held.held]. unfold Held.operand_paths. by rewrite Hp, (assoc_L (++)). }
  rewrite Hops in Hs2. eapply wp_retired_since; [exact Hs2| |apply Hs1|].
  { rewrite <-Hops. apply held_stacked. }
  intros l Hl2. apply st_bind. eapply wp_record_retired; [done|exact Hl2|].
  intros s3 Hi3 Hg3 Hu3 Hd3. apply st_edits.
  assert (Hg13 : grows s1 s3) by by eapply pass_grows_trans.
  split_and!.
  - by apply inv_used.
  - eapply pass_grows_trans; [exact Hg1|]. eapply pass_grows_trans; [exact Hg13|apply grows_used].
  - change (fits s3 (ts_used s1) (held p ++ own p)). by eapply fits_grows.
  - apply (covered_node _ p (NExpr e)); [done| |].
    + split; [|done|by intros ?? ? ?; simplify_eq].
      intros Hr'. apply (grows_expressions _ _ Hg13). by apply Hd1.
    + intros _ i c Hc. apply lookup_lt_Some in Hc.
      eapply covered_grows; [|by apply Hc2]. eapply pass_grows_trans; [exact Hg3|apply grows_used].
Qed.
(** The lists of operands that the visits build. *)
Lemma are_operands_list {A} (value : A → C.Expr) (operand : nat → A → Operand) e p i l :
  length (children (NExpr e)) = (i + length l)%nat →
  (∀ k x, l !! k = Some x → children (NExpr e) !! (i + k)%nat = Some (NExpr (value x))) →
  (∀ j x, operand j x = mkOperand (value x) (j :: p) (visit_expression (value x) (j :: p))) →
  are_operands e p i (operands operand i l).
Proof.
  intros Hn Hc Ho. revert i Hn Hc. induction l as [|x l IH]; intros i Hn Hc.
  { split; [done|]. by intros k o ?. }
  destruct (IH (S i)) as [IHn IHc].
  - simpl in Hn. lia.
  - intros k y Hk. specialize (Hc (S k) y Hk). by rewrite Nat.add_succ_r in Hc.
  - split; [simpl; lia|]. intros [|k] o Hk; simpl in Hk.
    + injection Hk as <-. rewrite Ho. simpl. rewrite Nat.add_0_r. split; [done|]. split; [|done].
      specialize (Hc 0%nat x eq_refl). by rewrite Nat.add_0_r in Hc.
    + rewrite Nat.add_succ_r. by apply IHc.
Qed.
Lemma rooted_child e p i v :
  node_at root p = Some (NExpr e) → children (NExpr e) !! i = Some (NExpr v) →
  rooted (i :: p) = crosses e i && snapshot v.
Proof.
  intros Hp Hi. unfold Held.rooted. by rewrite (node_at_child root p (NExpr e) i (NExpr v)), Hp.
Qed.

Lemma are_operands_nil e p i : length (children (NExpr e)) = i → are_operands e p i [].
Proof. intros <-. split; [by rewrite Nat.add_0_r|]. by intros k o ?. Qed.

Lemma are_operands_first e p i v ops :
  children (NExpr e) !! i = Some (NExpr v) → are_operands e p (S i) ops →
  are_operands e p i (mkOperand v (i :: p) (visit_expression v (i :: p)) :: ops).
Proof.
  intros Hi [Hn Ho]. split; [simpl; lia|]. intros [|k] o Hk; simpl in Hk.
  - injection Hk as <-. by rewrite Nat.add_0_r.
  - rewrite Nat.add_succ_r. by apply Ho.
Qed.

Lemma are_blocks_arms n p visit i l :
  (∀ j b, visit j b = visit_block b (j :: p)) →
  (∀ k arm, l !! k = Some arm → children n !! (i + k)%nat = Some (NBlock (arm_body arm))) →
  are_blocks n p i (arm_visits visit i l).
Proof.
  intros Hv. revert i. induction l as [|[v bs w b] l IH]; intros i Hc k body Hk; [done|].
  destruct k as [|k]; simpl in Hk.
  - injection Hk as <-. exists b. rewrite Nat.add_0_r, Hv. split; [|done].
    specialize (Hc 0%nat _ eq_refl). by rewrite Nat.add_0_r in Hc.
  - rewrite Nat.add_succ_r. apply (IH (S i)); [|done].
    intros k' arm Hk'. specialize (Hc (S k') arm Hk'). by rewrite Nat.add_succ_r in Hc.
Qed.

Lemma arm_visits_length visit i l : length (arm_visits visit i l) = length l.
Proof. revert i. induction l as [|[] l IH]; intros i; simpl; [done|]. by rewrite IH. Qed.

#[local] Ltac child_at Hp HF i :=
  eapply (wp_child_expression _ _ HF Hp i); [reflexivity|eassumption|by simpl; rewrite Hp| |].
#[local] Ltac operand_list :=
  simpl; unfold children, expr_children; simpl; rewrite <-?list_fmap_compose;
  first [by rewrite !length_fmap
        |let k := fresh in let x := fresh in let Hk := fresh in
         intros k x Hk; rewrite list_lookup_fmap, Hk; reflexivity
        |by intros ? []].

Lemma expression_assigns e : Forall assigns (children (NExpr e)) → assigns (NExpr e).
Proof.
  intros HF p s Hp Hi Hs Hl protect Hr.
  assert (Hroot : ∀ i v, children (NExpr e) !! i = Some (NExpr v) →
            rooted (i :: p) = crosses e i && snapshot v) by (intros; by apply rooted_child).
  destruct e as [kind ty span].
  cbn [expression]. refine (wp_shell _ p protect _ s Hp Hi Hs Hl Hr _).
  intros s1 Q Hu Hl1 HQ.
  destruct kind; try (by apply st_ret, HQ).
  all: try (child_at Hp HF 0%nat; [by erewrite (Hroot 0%nat) by reflexivity;
     unfold Held.crosses; simpl; rewrite ?orb_false_r|exact HQ]).
  all: try (eapply (wp_siblings _ _ HF Hp eq_refl);
    [|reflexivity|reflexivity|exact Hu|exact Hl1|exact HQ];
    repeat (apply are_operands_first; [reflexivity|]);
    first [by apply are_operands_nil
          |eapply (are_operands_list (λ x, x)); operand_list
          |eapply (are_operands_list (λ x, x.2)); operand_list]).
  - apply st_bind. child_at Hp HF 0%nat; [by rewrite (Hroot 0%nat _ eq_refl)|].
    intros s2 Hu2. eapply (wp_branches _ p HF Hp eq_refl) with (i := 1%nat).
    + intros i. simpl. by rewrite Hp.
    + eapply are_blocks_arms; [done|]. intros k arm Hk. unfold children, expr_children. simpl.
      by rewrite <-list_fmap_compose, list_lookup_fmap, Hk.
    + exact Hu2.
    + exact Hl1.
    + unfold children, expr_children. simpl. by rewrite !length_fmap, arm_visits_length.
    + exact HQ.
  - eapply (wp_child_block _ p HF Hp 0%nat); [reflexivity|exact Hu|by simpl; rewrite Hp|].
    intros s2 Hu2 _. by apply HQ.
  - apply st_bind. child_at Hp HF 0%nat; [by rewrite (Hroot 0%nat _ eq_refl)|].
    intros s2 Hu2. eapply (wp_branches _ p HF Hp eq_refl) with (i := 1%nat);
      [intros i; by simpl; rewrite Hp| |exact Hu2|exact Hl1| |exact HQ].
    + intros k b Hk. destruct else_body as [no|].
      * destruct k as [|[|k]]; simpl in Hk; [exists then_body|exists no|done];
          (split; [reflexivity|by injection Hk as <-]).
      * destruct k as [|k]; simpl in Hk; [exists then_body|done].
        split; [reflexivity|by injection Hk as <-].
    + by destruct else_body.
Qed.
(** ** Statements and blocks *)

Section items.
Context (n : Node) (p : Path) (Hp : node_at root p = Some n).
Context (Hn : match n with NExpr _ => False | _ => True end).

Lemma items_other : match n with NExpr e => takes_operands (C.e_kind e) = false | _ => True end.
Proof using Hp Hn. by destruct n. Qed.

Lemma upto_start s : Inv s → at_stack s (held p) → upto p 0 s s.
Proof using Hp Hn.
  intros Hi Hs. split_and!; [done|apply pass_grows_refl| |lia].
  rewrite held_first. by rewrite (own_node _ _ _ _ _ p n Hp Hn), app_nil_r.
Qed.

Lemma assigned_upto s s' :
  upto p (length (children n)) s s' → recorded s' p → assigned p s s'.
Proof using Hp Hn.
  intros (Hi & Hg & Hs & Hc) Hr. split_and!; [done..| |].
  - rewrite <-held_first. by rewrite <-(held_child n p Hp items_other (length (children n)) 0).
  - eapply covered_node; [done..|]. intros _ i c Hi'. apply Hc. by eapply lookup_lt_Some.
Qed.

Lemma assigned_skipped s : Inv s → at_stack s (held p) → recorded s p →
  is_callback n = true ∨ children n = [] → assigned p s s.
Proof using Hp Hn.
  intros Hi Hs Hr Hskip. split_and!; [done|apply pass_grows_refl| |].
  - by rewrite (own_node _ _ _ _ _ p n Hp Hn), app_nil_r.
  - eapply covered_node; [done..|]. intros Hcall i c Hc.
    destruct Hskip as [?|Hnil]; [congruence|]. by rewrite Hnil in Hc.
Qed.

Lemma recorded_other s :
  match n with NStmt (C.mkStmt C.Break _) | NStmt (C.mkStmt C.Continue _) => False | _ => True end →
  recorded s p.
Proof using Hp Hn.
  intros Hk. split.
  - intros [v Hv]%rooted_node. by simplify_eq.
  - intros e He. by simplify_eq.
  - intros kind span b Hst [->| ->]; by simplify_eq.
Qed.
End items.

Lemma grows_loop s0 s u s3 :
  grows s0 s → grows (set_loop_bases (u :: ts_loop_bases s) s) s3 →
  grows s0 (set_loop_bases (tail (ts_loop_bases s3)) s3).
Proof.
  intros Hg Hg'. eapply pass_grows_trans; [exact Hg|]. destruct Hg' as [P1 Q1 L1 E1 R1 X1].
  split; [done|done| |done|done|done]. simpl. by rewrite L1.
Qed.

Lemma covered_loops bs s p : covered s p → covered (set_loop_bases bs s) p.
Proof. intros Hc q m Hq Hb Hs. destruct (Hc q m Hq Hb Hs) as [R1 R2 R3]. by split. Qed.

(** A jump gives back what is held since the innermost loop. *)
Lemma wp_jump p s st :
  node_at root p = Some (NStmt st) → Inv s → at_stack s (held p) → at_loops s (loops p) →
  is_callback (NStmt st) = false → children (NStmt st) = [] →
  wp (bases ← reads ts_loop_bases;
      match bases with
      | base :: _ => retired ← retired_since base; insert_exit p retired
      | [] => mret tt
      end) s (λ _ s', assigned p s s').
Proof.
  intros Hp Hi Hs Hl Hcall Hch. apply st_bind, st_reads. unfold at_loops in Hl.
  assert (Hrec : ∀ s', (∀ b, head (loops p) = Some b → held p ≠ b → p ∈ dom (ts_exits s')) →
            recorded s' p).
  { intros s' Hx. split.
    - intros [v Hv]%rooted_node. by simplify_eq.
    - intros e He. by simplify_eq.
    - intros kind span b _ _. apply Hx. }
  destruct (ts_loop_bases s) as [|base bases] eqn:E.
  - apply Forall2_nil_inv_l in Hl. apply st_ret. eapply assigned_skipped; [done..| |by right].
    apply Hrec. intros b Hb. by rewrite Hl in Hb.
  - apply Forall2_cons_inv_l in Hl as (b & bs & Hb & _ & Hbs). apply st_bind.
    destruct (loops_prefix is_shared allocating fuel types root p b) as [r Hr];
      [rewrite Hbs; left|].
    rewrite Hr in Hs. eapply wp_retired_since; [exact Hs| |exact Hb|].
    { rewrite <-Hr. apply held_stacked. }
    intros l Hl'. eapply wp_record_exit; [done|by rewrite Hbs|exact Hr|exact Hl'|].
    intros s' Hi' Hg' Hu' Hd'. rewrite <-Hr in Hs. split_and!.
    + done.
    + done.
    + rewrite (own_node _ _ _ _ _ p _ Hp I), app_nil_r. by eapply at_stack_grows.
    + eapply covered_node; [done| |by rewrite Hch]. apply Hrec.
      rewrite Hbs. simpl. intros b' [= <-] Hne. apply Hd'. intros ->.
      by rewrite app_nil_r in Hr.
Qed.

Lemma statement_assigns st : Forall assigns (children (NStmt st)) → assigns (NStmt st).
Proof.
  intros HF p s Hp Hi Hs Hl. pose proof (upto_start _ _ Hp I s Hi Hs) as Hu.
  assert (Hroot : ∀ i, rooted (i :: p) = false).
  { intros i. unfold Held.rooted. by rewrite Hp. }
  destruct st as [kind span]. destruct kind as [| |[]| | | | | | | |]; cbn [statement];
    try (by apply wp_jump with (st := C.mkStmt C.Break span));
    try (by apply wp_jump with (st := C.mkStmt C.Continue span)).
  all: try (apply st_ret; eapply assigned_skipped; [done..|by eapply recorded_other|by auto]).
  all: try (eapply (wp_child_expression _ p HF Hp 0%nat);
    [reflexivity|exact Hu|by simpl; rewrite Hp|by rewrite Hroot|];
    intros s' Hu'; eapply assigned_upto; [done|done|exact Hu'|by eapply recorded_other]).
  apply st_bind. eapply (wp_child_expression _ p HF Hp 0%nat);
    [reflexivity|exact Hu|by simpl; rewrite Hp|by rewrite Hroot|].
  intros s1 (Hi1 & Hg1 & Hs1 & Hc1). apply st_bind, st_edits, st_bind.
  set (s2 := set_loop_bases _ _).
  assert (Hu2 : upto p 1 s2 s2).
  { split_and!; [by apply inv_loops|apply pass_grows_refl|done|]. intros j Hj. by apply covered_loops, Hc1. }
  eapply (wp_child_block _ p HF Hp 1%nat); [reflexivity|exact Hu2| |].
  { simpl. rewrite Hp. simpl. constructor; [apply Hs1|]. by eapply at_loops_grows. }
  intros s3 Hu3 _. apply st_edits. destruct Hu3 as (Hi3 & Hg3 & Hs3 & Hc3).
  eapply assigned_upto; [done|done| |by eapply recorded_other].
  split_and!; [by apply inv_loops|by eapply grows_loop|done|].
  intros j Hj. by apply covered_loops, Hc3.
Qed.
Lemma wp_each_statement n p visit l i s0 s Q :
  Forall assigns (children n) → node_at root p = Some n →
  match n with NBlock _ => True | _ => False end →
  (∀ k st, l !! k = Some st → children n !! (i + k)%nat = Some (NStmt st)) →
  upto p i s0 s → at_loops s0 (loops p) → fits s0 visit (held (0%nat :: p)) →
  (∀ s', upto p (i + length l) s0 s' → Q tt s') →
  wp (each_statement (λ i st, visit_statement st (i :: p) ;; edits (set_used visit)) i l) s Q.
Proof.
  intros HF Hp Hn. assert (Hother : match n with
    NExpr e => takes_operands (C.e_kind e) = false | _ => True end) by by destruct n.
  revert i s. induction l as [|st l IH]; intros i s Hc Hu Hl Hf HQ.
  { apply st_ret, HQ. simpl. by rewrite Nat.add_0_r. }
  simpl. apply st_bind, st_bind.
  eapply (wp_child_statement n p HF Hp i).
  - specialize (Hc 0%nat st eq_refl). by rewrite Nat.add_0_r in Hc.
  - exact Hu.
  - simpl. rewrite Hp. by destruct n.
  - intros s' Hu'. apply st_edits. apply (IH (S i)).
    + intros k st' Hk. specialize (Hc (S k) st' Hk). by rewrite Nat.add_succ_r in Hc.
    + by eapply upto_reset.
    + done.
    + done.
    + intros s''. simpl in HQ. rewrite Nat.add_succ_r in HQ. apply HQ.
Qed.

Lemma block_assigns b : Forall assigns (children (NBlock b)) → assigns (NBlock b).
Proof.
  intros HF p s Hp Hi Hs Hl. pose proof (upto_start _ _ Hp I s Hi Hs) as Hu.
  assert (Hrec : ∀ s', recorded s' p) by (intros; by eapply recorded_other).
  destruct b as [statements tail falls]. cbn [block].
  apply st_bind, st_reads, st_bind.
  eapply (wp_each_statement _ p _ statements 0 s); [exact HF|exact Hp|done| |exact Hu|done|apply Hu|].
  { intros k st Hk. unfold children, block_children. apply lookup_app_l_Some.
    by rewrite Nat.add_0_l, list_lookup_fmap, Hk. }
  intros s1 Hu1. simpl in Hu1. destruct tail as [tail|].
  - eapply (wp_child_expression _ p HF Hp (length statements));
      [|exact Hu1|by simpl; rewrite Hp|by unfold Held.rooted; rewrite Hp|].
    + unfold children, block_children. by rewrite list_lookup_middle by by rewrite length_fmap.
    + intros s2 Hu2. eapply assigned_upto; [done|done| |apply Hrec].
      unfold children, block_children. rewrite length_app, length_fmap. simpl.
      by rewrite Nat.add_1_r.
  - apply st_ret. eapply assigned_upto; [done|done| |apply Hrec].
    unfold children, block_children. by rewrite app_nil_r, length_fmap.
Qed.

Lemma all_assign n : assigns n.
Proof.
  induction n as [[e|b|st|f] HF] using node_ind;
    [by apply expression_assigns|by apply block_assigns|by apply statement_assigns|done].
Qed.

(** ** Functions *)

Lemma pass_start : Inv (allocation_query is_shared).
Proof.
  split; try done.
  - intros ty k Hk. by apply elem_of_nil in Hk.
  - intros ty. constructor.
Qed.

Lemma fits_empty s : fits s ∅ [].
Proof. split; [done|]. by intros ty u. Qed.

Definition made (s : TemporarySlots) : Prop := Inv s ∧ covered s [].

Lemma body_made body :
  root = NBlock body → wp (visit_block body []) (allocation_query is_shared) (λ _ s', made s').
Proof.
  intros Hroot. eapply st_mono.
  - apply (all_assign (NBlock body)); [by rewrite Hroot|apply pass_start|apply fits_empty|constructor].
  - intros [] s' (Hi & _ & _ & Hc). by split.
Qed.

Lemma drop_next {A} i (l k : list A) x : drop i l = x :: k → drop (S i) l = k.
Proof.
  revert l. induction i as [|i IH]; intros [|y l]; simpl; try done; [by intros [= _ ->]|by apply IH].
Qed.

Lemma wp_each_guard source i l s Q :
  root = NFunction source → drop i (C.f_requires source) = l → upto [] i (allocation_query is_shared) s →
  (∀ s', upto [] (i + length l) (allocation_query is_shared) s' → Q tt s') →
  wp (each_guard allocating fuel types i l) s Q.
Proof.
  intros Hroot. revert i s. induction l as [|value l IH]; intros i s Hd Hu HQ.
  { apply st_ret, HQ. simpl. by rewrite Nat.add_0_r. }
  assert (Hp : node_at root [] = Some (NFunction source)) by by rewrite Hroot.
  assert (Hi : C.f_requires source !! i = Some value).
  { rewrite <-(Nat.add_0_r i), <-lookup_drop, Hd. done. }
  simpl. apply st_bind.
  eapply (wp_child_expression (NFunction source) []); [|exact Hp| |exact Hu| | |].
  - apply Forall_forall. intros n _. apply all_assign.
  - unfold children. apply lookup_app_l_Some. by rewrite list_lookup_fmap, Hi.
  - simpl. rewrite Hroot. constructor.
  - unfold Held.rooted. by rewrite Hp.
  - intros s' Hu'. apply st_bind, st_edits, (IH (S i)).
    + by eapply drop_next.
    + apply upto_used; [done|]. cbn [Held.held]. rewrite (owns_other _ _ _ _ _ _ _ _ Hp I).
      apply fits_empty.
    + intros s''. simpl in HQ. rewrite Nat.add_succ_r in HQ. apply HQ.
Qed.
Lemma function_made source :
  root = NFunction source →
  wp (function_slots allocating fuel types source None) (allocation_query is_shared)
    (λ _ s', made s').
Proof.
  intros Hroot. assert (Hp : node_at root [] = Some (NFunction source)) by by rewrite Hroot.
  set (s0 := allocation_query is_shared).
  assert (Hu0 : upto [] 0 s0 s0).
  { split_and!; [apply pass_start|apply pass_grows_refl|apply fits_empty|lia]. }
  apply st_bind. eapply wp_each_guard; [exact Hroot|done|exact Hu0|]. intros s1 Hu1. simpl in Hu1.
  eapply (wp_child_block (NFunction source) []); [|exact Hp| |exact Hu1| |].
  - apply Forall_forall. intros n _. apply all_assign.
  - unfold children. by rewrite list_lookup_middle by by rewrite length_fmap.
  - simpl. rewrite Hroot. constructor.
  - intros s2 (Hi & _ & _ & Hc) _. split; [done|].
    eapply covered_node; [exact Hp|by eapply recorded_other|]. intros _ i c Hi'.
    apply Hc. apply lookup_lt_Some in Hi'. unfold children in Hi'.
    rewrite length_app, length_fmap in Hi'. simpl in Hi'. lia.
Qed.
End pass.

(** [managed] and [needs_snapshot] of the code generator recurse through the inline fields
    of data types without a check of their own: on every program that the reader accepts they
    end, because its layout check refuses types that contain themselves. *)

Lemma any_of_total {A} (test : A → outcome bool) l :
  (∀ x, x ∈ l → ∃ b, test x = Ok b) → ∃ b, any_of test l = Ok b.
Proof.
  induction l as [|x l IH]; intros Hl; simpl; [eauto|].
  destruct (Hl x) as [b ->]; [left|]. simpl. destruct b; [eauto|].
  apply IH. intros y Hy. apply Hl. by right.
Qed.

(** ** Managed types *)

Section types.
Context (types : list C.Data).
Context (Hrefs : data_refs_ok types) (Hfinite : ∀ id, id < lengthN types → finite_data types id).

(** The data types on the path to a type are distinct, and it contains none of them. *)
Definition leads (path : list N) (ty : Ty.Ty) : Prop :=
  ∀ x id, x ∈ path → ty = Ty.Data id → tc (contains types) x id.

Lemma leads_fresh path id : leads path (Ty.Data id) → id < lengthN types → id ∉ path.
Proof using Hfinite.
  intros Hl Hid Hin. specialize (Hl id id Hin eq_refl).
  inversion Hl as [? ? Hc|? c ? Hc Ht]; subst.
  - by apply (finite_acyclic types id id (Hfinite id Hid) Hc).
  - apply (finite_acyclic types id c (Hfinite id Hid) Hc). by apply tc_rtc.
Qed.

Lemma managed_path fuel path ty :
  NoDup path → (∀ x, x ∈ path → x < lengthN types) → leads path ty → data_ref_ok types ty →
  (length types ≤ length path + fuel)%nat → ∃ b, managed fuel types ty = Ok b.
Proof using Hrefs Hfinite.
  revert path ty. induction fuel as [|fuel IH]; intros path ty Hnd Hin Hl Hty Hlen.
  all: destruct ty as [| | | | | | | | |id|]; try by eexists.
  all: simpl in Hty; pose proof (leads_fresh _ _ Hl Hty) as Hfresh.
  all: assert (Hnd' : NoDup (id :: path)) by by constructor.
  all: assert (Hin' : ∀ x, x ∈ id :: path → x < lengthN types) by
         (intros x [->|]%elem_of_cons; auto).
  - exfalso. assert (Hsub : id :: path ⊆+ (N.of_nat <$> seq 0 (length types))).
    { apply NoDup_submseteq; [done|]. intros x Hx%Hin'. apply list_elem_of_fmap.
      exists (N.to_nat x). rewrite elem_of_seq. lia. }
    apply submseteq_length in Hsub. rewrite length_fmap, length_seq in Hsub. simpl in Hsub. lia.
  - destruct (get_lt types id Hty) as [d Hd]. simpl. unfold index_or_panic. rewrite Hd. simpl.
    assert (Hnext : ∀ t, t ∈ inline_types (C.d_kind d) → ∃ b, managed fuel types t = Ok b).
    { intros t Ht. apply (IH (id :: path)); [done|done| |
        |simpl; lia].
      - intros x c Hx ->. assert (contains types id c) by (by exists d).
        apply elem_of_cons in Hx as [->|Hx]; [by apply tc_once|].
        eapply tc_r; [by apply (Hl x id)|done].
      - eapply get_Forall in Hrefs as [Hi _]; [|exact Hd]. rewrite Forall_forall in Hi. by apply Hi. }
    destruct (C.d_kind d) as [fields|variants|base|result|fields] eqn:E; simpl in Hnext;
      [by apply any_of_total..| |by eexists|by eexists].
    apply Hnext. by left.
Qed.

Lemma managed_total ty :
  data_ref_ok types ty → ∃ b, managed (length types) types ty = Ok b.
Proof using Hrefs Hfinite.
  intros Hty. apply (managed_path _ []); [constructor| | |done|simpl; lia].
  - by intros x ?%elem_of_nil.
  - by intros x id ?%elem_of_nil.
Qed.

(** ** Snapshots *)

(** The expressions of a tree have existing types. *)
Definition typed_tree (root : Node) : Prop :=
  ∀ q e, node_at root q = Some (NExpr e) → data_ref_ok types (C.e_ty e).
Lemma typed_child root i c : typed_tree root → children root !! i = Some c → typed_tree c.
Proof.
  intros Ht Hi q e Hq. apply (Ht (q ++ [i])). clear Ht. revert e Hq.
  enough (H : ∀ n, node_at c q = Some n → node_at root (q ++ [i]) = Some n) by eauto.
  induction q as [|j q IH]; intros n Hq; simpl in *.
  - by simplify_eq.
  - destruct (node_at c q) as [m|]; [|done]. by rewrite (IH m eq_refl).
Qed.

Lemma typed_expr e i v :
  typed_tree (NExpr e) → children (NExpr e) !! i = Some (NExpr v) → typed_tree (NExpr v).
Proof. apply typed_child. Qed.

Lemma snapshot_total n :
  match n with
  | NExpr e => typed_tree (NExpr e) → ∃ b, needs_snapshot (length types) types e = Ok b
  | _ => True
  end.
Proof using Hrefs Hfinite.
  induction n as [n HF] using node_ind. destruct n as [e| | |]; [|done..]. intros Ht.
  assert (Hchild : ∀ i v, children (NExpr e) !! i = Some (NExpr v) →
            ∃ b, needs_snapshot (length types) types v = Ok b).
  { intros i v Hi. eapply Forall_lookup_1 in HF; [|exact Hi]. apply HF. by eapply typed_child. }
  pose proof (managed_total _ (Ht [] e eq_refl)) as Hm.
  destruct e as [kind ty span]. unfold children, expr_children in Hchild.
  destruct kind; simpl in *; try exact Hm; try by eexists.
  - by apply (Hchild 0%nat).
  - apply any_of_total. intros [f v] Hv. apply list_elem_of_lookup in Hv as [i Hi].
    apply (Hchild i). by rewrite !list_lookup_fmap, Hi.
  - apply any_of_total. intros v Hv. apply list_elem_of_lookup in Hv as [i Hi].
    apply (Hchild i). by rewrite list_lookup_fmap, Hi.
Qed.

Lemma snapshots_total root q e :
  typed_tree root → node_at root q = Some (NExpr e) →
  ∃ b, needs_snapshot (length types) types e = Ok b.
Proof using Hrefs Hfinite.
  intros Ht Hq. apply (snapshot_total (NExpr e)). revert e Hq.
  enough (H : ∀ n, node_at root q = Some n → typed_tree n) by eauto.
  induction q as [|i q IH]; intros n Hq; simpl in Hq; [by simplify_eq|].
  destruct (node_at root q) as [m|]; [|done]. by eapply typed_child; [apply IH|].
Qed.
End types.

(** ** Programs that the reader accepts *)

(** What the typing rules say of a node. *)
Definition node_ok (E : Env) (n : Node) : Prop :=
  match n with
  | NExpr e => ∃ loop, expr_ok E loop e
  | NBlock b => ∃ loop, block_ok E loop b
  | NStmt s => ∃ loop, statement_ok E loop s
  | NFunction f => function_ok E f
  end.

#[local] Ltac open_member :=
  repeat match goal with
    | H : _ ∈ [] |- _ => by apply elem_of_nil in H
    | H : _ ∈ _ :: _ |- _ => apply elem_of_cons in H as [H|H]
    | H : _ ∈ _ ++ _ |- _ => apply elem_of_app in H as [H|H]
    | H : _ ∈ match ?o with Some _ => _ | None => _ end |- _ => destruct o
    | H : _ ∈ _ <$> _ |- _ => apply list_elem_of_fmap in H as (? & -> & H)
    end; subst.

Lemma child_ok E n i c : node_ok E n → children n !! i = Some c → node_ok E c.
Proof.
  intros Hn Hc. apply list_elem_of_lookup_2 in Hc. destruct n as [e|b|s|f].
  - destruct Hn as [loop He]. inversion He as [kind t sp Ht Hk]; subst.
    unfold children, expr_children in Hc. simpl in Hc.
    inversion Hk; subst; simpl in Hc; open_member; exists loop;
      rewrite ?Forall_forall in *; eauto.
    match goal with H : ∀ x, x ∈ arms → _, Ha : _ ∈ arms |- _ => by destruct (H _ Ha) end.
  - destruct Hn as [loop Hb]. inversion Hb; subst. simpl in Hc. open_member; exists loop;
      rewrite ?Forall_forall in *; eauto.
  - destruct Hn as [loop Hs]. inversion Hs as [kind sp Hk]; subst. simpl in Hc.
    inversion Hk; subst; simpl in Hc; open_member; eexists; eauto.
  - destruct Hn as [_ _ _ Hr Hb]. simpl in Hc. open_member; exists false; [|done].
    rewrite Forall_forall in Hr. by apply Hr.
Qed.

Lemma node_ok_at E root q n : node_ok E root → node_at root q = Some n → node_ok E n.
Proof.
  intros Hr. revert n. induction q as [|i q IH]; intros n Hq; simpl in Hq; [by simplify_eq|].
  destruct (node_at root q) as [m|]; [|done]. by eapply child_ok; [apply IH|].
Qed.

Lemma function_typed p f q root :
  program_ok p → f ∈ C.functions p → node_at (NFunction f) q = Some root →
  typed_tree (C.types p) root.
Proof.
  intros Hp Hf Hq. pose proof (program_functions _ Hp) as HF. rewrite Forall_forall in HF.
  assert (Hroot : node_ok (env_of p f) root).
  { eapply node_ok_at; [|exact Hq]. by apply (HF f). }
  intros q' e He. destruct (node_ok_at _ _ _ _ Hroot He) as [loop Hok].
  inversion Hok; subst. by apply (type_ok_data_ref (tables (env_of p f))).
Qed.

Lemma function_snapshots p f q root q' e :
  program_ok p → f ∈ C.functions p → node_at (NFunction f) q = Some root →
  node_at root q' = Some (NExpr e) →
  ∃ b, needs_snapshot (length (C.types p)) (C.types p) e = Ok b.
Proof.
  intros Hp Hf Hq. apply snapshots_total.
  - by apply tables_data_refs, program_tables.
  - by apply program_finite.
  - by eapply function_typed.
Qed.
