(* ===== verification/SlotGuarantees.v ===== *)
(** What the temporary root slots of a function guarantee: they are found for every function
    that the reader accepts, results that are held at the same time have different slots, an
    operand has a slot exactly when a collection can happen before it is used, and slots are
    given back exactly where their operands are dropped. *)

From stdpp Require Import sorting.
From S2P Require Import Prelude Text Model Nodes Effects RootSlots RootFacts Temporaries Held.
From S2P Require Import TemporaryFacts Typing Decode DecodeFacts ReaderFacts Reader Samples.

(** A function is compiled with its guards; a block of it that runs as a callback is compiled
    alone. *)
Definition compiled (f : C.Function) (callback_body : option C.Block) : Node :=
  match callback_body with None => NFunction f | Some body => NBlock body end.

Definition part_of (f : C.Function) (root : Node) : Prop :=
  ∃ q, node_at (NFunction f) q = Some root.

Section results.
Context (p : C.Program) (f : C.Function) (callback_body : option C.Block).
Context (is_shared : bool) (allocating : gset N).
Context (Hp : program_ok p) (Hf : f ∈ C.functions p).

#[local] Abbreviation root := (compiled f callback_body).
#[local] Abbreviation fuel := (length (C.types p)).
#[local] Abbreviation types := (C.types p).

Context (Hpart : part_of f root).

Lemma temporaries_made :
  ∃ s, temporaries p is_shared allocating f callback_body = Ok s ∧
    made is_shared allocating fuel types root s.
Proof using Hp Hf Hpart.
  destruct Hpart as [q Hq].
  assert (Hsnap : ∀ q' e, node_at root q' = Some (NExpr e) →
            ∃ b, needs_snapshot fuel types e = Ok b) by (intros; by eapply function_snapshots).
  assert (Hw : wp (function_slots allocating fuel types f callback_body)
                 (allocation_query is_shared) (λ _ s, made is_shared allocating fuel types root s)).
  { destruct callback_body as [body|]; [by apply body_made|by apply function_made]. }
  apply st_result in Hw as ([] & s & Hs & Hm). exists s. split; [|done].
  unfold temporaries. by rewrite Hs.
Qed.

Section state.
Context (s : TemporarySlots) (Hm : made is_shared allocating fuel types root s).

Lemma slot_at q k :
  ts_expressions s !! q = Some k →
  rooted is_shared allocating fuel types root q = true ∧
  slot_of is_shared allocating fuel types root s q k.
Proof using Hm. destruct Hm as [Hi _]. by apply inv_expressions. Qed.

Lemma slot_recorded q :
  seen root q → rooted is_shared allocating fuel types root q = true →
  is_Some (ts_expressions s !! q).
Proof using Hm.
  intros Hs Hr. destruct Hm as [_ Hc]. apply elem_of_dom.
  destruct (rooted_node _ _ _ _ _ _ Hr) as [v Hv].
  eapply recorded_slot; [|exact Hr]. eapply (Hc q); [exact Hv| |exact Hs]. by apply suffix_nil.
Qed.

(** The slots of places that have one are those of the recorded expressions. *)
Lemma slots_recorded qs l k :
  slots_of is_shared allocating fuel types root s qs l →
  (∀ q, q ∈ qs → seen root q ∧ rooted is_shared allocating fuel types root q = true) →
  k ∈ l ↔ ∃ q, q ∈ qs ∧ ts_expressions s !! q = Some k.
Proof using Hm.
  intros (_ & _ & Hk) Hq. rewrite Hk. split; intros (q & Hin & H); exists q; (split; [done|]).
  - destruct (Hq q Hin). destruct (slot_recorded q) as [k' Hk']; [done..|].
    apply slot_at in Hk' as Hs'. destruct Hs' as [_ Hs']. unfold slot_of in *.
    rewrite H in Hs'. by simplify_eq.
  - by apply slot_at.
Qed.
Lemma operand_paths_elem q e x :
  node_at root q = Some (NExpr e) →
  x ∈ operand_paths is_shared allocating fuel types root q ↔
  ∃ i, x = i :: q ∧ rooted is_shared allocating fuel types root x = true.
Proof using Type.
  intros Hq. unfold operand_paths. rewrite Hq, elem_of_owns. split.
  - intros (i & _ & -> & Hr). by exists i.
  - intros (i & -> & Hr). exists i. split; [|done].
    destruct (rooted_node _ _ _ _ _ _ Hr) as [v Hv]. cbn [node_at] in Hv. rewrite Hq in Hv.
    by eapply lookup_lt_Some.
Qed.

Lemma retired_exact q e k :
  node_at root q = Some (NExpr e) → seen root q →
  k ∈ default [] (ts_retired s !! q) ↔ ∃ i, ts_expressions s !! (i :: q) = Some k.
Proof using Hm.
  intros Hq Hs. destruct Hm as [Hi Hc].
  assert (Hseen : ∀ x, x ∈ operand_paths is_shared allocating fuel types root q →
            seen root x ∧ rooted is_shared allocating fuel types root x = true).
  { intros x Hx. apply (operand_paths_elem q e x Hq) in Hx as (i & -> & Hr). split; [|done].
    split; [done|]. intros n Hn. by simplify_eq. }
  assert (Hops : (∃ x, x ∈ operand_paths is_shared allocating fuel types root q ∧
                       ts_expressions s !! x = Some k) ↔
                 ∃ i, ts_expressions s !! (i :: q) = Some k).
  { split.
    - intros (x & Hx & Hk). apply (operand_paths_elem q e x Hq) in Hx as (i & -> & _). by exists i.
    - intros (i & Hk). exists (i :: q). split; [|done]. apply (operand_paths_elem q e _ Hq).
      exists i. split; [done|]. by apply slot_at in Hk as []. }
  rewrite <-Hops. destruct (ts_retired s !! q) as [l|] eqn:E; simpl.
  - apply slots_recorded; [by apply (inv_retired _ _ _ _ _ _ Hi)|done].
  - split; [by intros ?%elem_of_nil|]. intros (x & Hx & _). exfalso.
    assert (Hd : q ∈ dom (ts_retired s)).
    { eapply recorded_retired; [|exact Hq|by intros Hnil; rewrite Hnil in Hx; apply elem_of_nil in Hx].
      eapply (Hc q); [exact Hq|by apply suffix_nil|exact Hs]. }
    apply elem_of_dom in Hd as [l Hl]. congruence.
Qed.

Lemma around_seen x q : around x q → seen root q → seen root x.
Proof using Type.
  intros (i & j & p0 & -> & _ & Hb & _) Hs. apply (seen_below root _ _ Hb) in Hs. exact Hs.
Qed.

Lemma exits_exact w q kind span k :
  node_at root q = Some (NStmt (C.mkStmt kind span)) → kind = C.Break ∨ kind = C.Continue →
  seen root q → inner_loop root w q →
  k ∈ default [] (ts_exits s !! q) ↔
  ∃ x, around x q ∧ below (1%nat :: w) x ∧ ts_expressions s !! x = Some k.
Proof using Hm.
  intros Hq Hkind Hs Hw. destruct Hm as [Hi Hc].
  pose proof (loops_inner is_shared allocating fuel types root w q Hw) as Hl.
  assert (Hin : ∀ r, held is_shared allocating fuel types root q =
                     held is_shared allocating fuel types root (1%nat :: w) ++ r →
            (∃ x, x ∈ r ∧ ts_expressions s !! x = Some k) ↔
            ∃ x, around x q ∧ below (1%nat :: w) x ∧ ts_expressions s !! x = Some k).
  { intros r Hr. destruct Hw as (Hw & Hb & _). f_equiv. intros x.
    rewrite (held_in_loop _ _ _ _ _ w q r x Hw Hb Hr), elem_of_held.
    split; [tauto|]. intros (? & ? & Hk). destruct (slot_at _ _ Hk). tauto. }
  destruct (ts_exits s !! q) as [l|] eqn:E; simpl.
  - destruct (inv_exits _ _ _ _ _ _ Hi q l E) as (b & r & Hb & Hr & Hsl).
    rewrite Hl in Hb. injection Hb as <-. rewrite <-(Hin r Hr). apply slots_recorded; [done|].
    intros x Hx. assert (Hx' : x ∈ held is_shared allocating fuel types root q).
    { rewrite Hr. apply elem_of_app. by right. }
    apply elem_of_held in Hx' as [Ha Hroot]. split; [|done]. by eapply around_seen.
  - destruct (loops_prefix is_shared allocating fuel types root q
                (held is_shared allocating fuel types root (1%nat :: w))) as [r Hr].
    { by apply head_Some_elem_of. }
    rewrite <-(Hin r Hr). split; [by intros ?%elem_of_nil|]. intros (x & Hx & _). exfalso.
    assert (Hd : q ∈ dom (ts_exits s)).
    { eapply recorded_exit; [|exact Hq|exact Hkind|exact Hl|].
      - eapply (Hc q); [exact Hq|by apply suffix_nil|exact Hs].
      - rewrite Hr. intros Hnil. apply (f_equal length) in Hnil. rewrite length_app in Hnil.
        destruct r; [by apply elem_of_nil in Hx|simpl in Hnil; lia]. }
    apply elem_of_dom in Hd as [l Hl']. congruence.
Qed.

Lemma operand_slot_iff q i e v :
  node_at root q = Some (NExpr e) → children (NExpr e) !! i = Some (NExpr v) →
  seen root q →
  is_Some (ts_expressions s !! (i :: q)) ↔
  takes_operands (C.e_kind e) = true ∧ needs_snapshot fuel types v = Ok true ∧
  (operation_may_collect is_shared allocating e = true ∨
   ∃ j c, (i < j)%nat ∧ children (NExpr e) !! j = Some (NExpr c) ∧
     collects is_shared allocating (NExpr c)).
Proof using Hm.
  intros Hq Hv Hs.
  trans (rooted is_shared allocating fuel types root (i :: q) = true).
  { split; [intros [k Hk]; by apply slot_at in Hk as []|]. apply slot_recorded. split; [done|].
    intros n Hn. by simplify_eq. }
  rewrite (rooted_child _ _ _ _ _ e q i v Hq Hv). unfold crosses.
  rewrite !andb_true_iff, orb_true_iff.
  assert (snapshot fuel types v = true ↔ needs_snapshot fuel types v = Ok true) as ->.
  { unfold snapshot. destruct (needs_snapshot fuel types v) as [[]| | |]; naive_solver. }
  assert (existsb (node_collects is_shared allocating) (drop (S i) (children (NExpr e))) = true ↔
          ∃ j c, (i < j)%nat ∧ children (NExpr e) !! j = Some (NExpr c) ∧
            collects is_shared allocating (NExpr c)) as ->; [|tauto].
  rewrite existsb_exists. split.
  - intros (n & Hn & Hc). apply list_elem_of_In, list_elem_of_lookup in Hn as [j Hj].
    rewrite lookup_drop in Hj. destruct n as [c| | |]; try done.
    exists (S i + j)%nat, c. split_and!; [lia|done|by apply collecting_spec].
  - intros (j & c & Hlt & Hj & Hc). exists (NExpr c). split; [|by apply collecting_spec].
    apply list_elem_of_In, list_elem_of_lookup. exists (j - S i)%nat. rewrite lookup_drop.
    rewrite <-Hj. f_equal. lia.
Qed.

(** The levels of a place and of a place around it differ. *)
Lemma around_distinct x q k k' :
  around x q → ts_expressions s !! x = Some k → ts_expressions s !! q = Some k' → k ≠ k'.
Proof using Hm.
  intros Ha Hx Hq <-. destruct (slot_at _ _ Hx) as [Hrx Hsx], (slot_at _ _ Hq) as [Hrq Hsq].
  destruct Hm as [Hi _]. unfold slot_of in *.
  assert (Hty : type_at root x = type_at root q).
  { apply get_Some, list_elem_of_lookup_2 in Hsx as H1. apply get_Some, list_elem_of_lookup_2 in Hsq as H2.
    apply (inv_typed _ _ _ _ _ _ Hi) in H1, H2. congruence. }
  assert (Hh : x ∈ held is_shared allocating fuel types root q) by (by apply elem_of_held).
  pose proof (level_of is_shared allocating fuel types root [] _ x
                (held_stacked is_shared allocating fuel types root q) Hh) as [_ Hlt].
  rewrite Hty in *. apply get_Some in Hsx, Hsq.
  pose proof (NoDup_lookup _ _ _ _ (inv_distinct _ _ _ _ _ _ Hi _) Hsx Hsq). simpl in Hlt. lia.
Qed.
End state.
End results.

Section guarantees.
Context (p : C.Program) (f : C.Function) (callback_body : option C.Block).
Context (is_shared : bool) (allocating : gset N).

#[local] Abbreviation root := (compiled f callback_body).

(** C39: for every function of a program that the reader accepts, and every block of it that
    runs as a callback, the slots are found without a panic and without running out of stack,
    each slot has the type of the results it takes, and a result that is held while another
    expression is evaluated never shares the slot of that expression. *)
Theorem held_slots_differ :
  program_ok p → f ∈ C.functions p → part_of f root →
  ∃ s, temporaries p is_shared allocating f callback_body = Ok s ∧
    (∀ q k v, node_at root q = Some (NExpr v) → ts_expressions s !! q = Some k →
       get (ts_types s) k = Some (C.e_ty v)) ∧
    (∀ x q k k', around x q → ts_expressions s !! x = Some k →
       ts_expressions s !! q = Some k' → k ≠ k').
Proof.
  intros Hp Hf Hpart.
  destruct (temporaries_made p f callback_body is_shared allocating Hp Hf Hpart) as (s & Hs & Hm).
  exists s. split; [done|]. split; [|by intros x q k k'; eapply (around_distinct p f callback_body)].
  intros q k v Hv Hk. destruct (slot_at p f callback_body _ _ _ Hm _ _ Hk) as [_ Hsl]. destruct Hm as [Hi _].
  apply get_Some, list_elem_of_lookup_2, (inv_typed _ _ _ _ _ _ Hi) in Hsl.
  unfold type_at in Hsl. by rewrite Hv in Hsl.
Qed.

(** C40: the results that are copied into a slot are exactly the operands that must survive a
    collection: their type is managed and not built from constants alone, and the operation,
    or the evaluation of a later operand, may collect before the operation is done. *)
Theorem crossing_operands_have_slots :
  program_ok p → f ∈ C.functions p → part_of f root →
  ∃ s, temporaries p is_shared allocating f callback_body = Ok s ∧
  ∀ q i e v, node_at root q = Some (NExpr e) → children (NExpr e) !! i = Some (NExpr v) →
    seen root q →
    is_Some (ts_expressions s !! (i :: q)) ↔
    takes_operands (C.e_kind e) = true ∧
    needs_snapshot (length (C.types p)) (C.types p) v = Ok true ∧
    (operation_may_collect is_shared allocating e = true ∨
     ∃ j c, (i < j)%nat ∧ children (NExpr e) !! j = Some (NExpr c) ∧
       collects is_shared allocating (NExpr c)).
Proof.
  intros Hp Hf Hpart.
  destruct (temporaries_made p f callback_body is_shared allocating Hp Hf Hpart) as (s & Hs & Hm).
  exists s. split; [done|]. intros. by apply (operand_slot_iff p f callback_body).
Qed.

(** an expression gives back exactly the slots of its own operands, and a [break] or
    [continue] exactly those of the results that are held around it inside its loop. *)
Theorem slots_given_back :
  program_ok p → f ∈ C.functions p → part_of f root →
  ∃ s, temporaries p is_shared allocating f callback_body = Ok s ∧
    (∀ q e k, node_at root q = Some (NExpr e) → seen root q →
       k ∈ default [] (ts_retired s !! q) ↔ ∃ i, ts_expressions s !! (i :: q) = Some k) ∧
    (∀ w q kind span k, node_at root q = Some (NStmt (C.mkStmt kind span)) →
       kind = C.Break ∨ kind = C.Continue → seen root q → inner_loop root w q →
       k ∈ default [] (ts_exits s !! q) ↔
       ∃ x, around x q ∧ below (1%nat :: w) x ∧ ts_expressions s !! x = Some k).
Proof.
  intros Hp Hf Hpart.
  destruct (temporaries_made p f callback_body is_shared allocating Hp Hf Hpart) as (s & Hs & Hm).
  exists s. split; [done|]. split; intros; [by eapply (retired_exact p f callback_body)|by eapply (exits_exact p f callback_body)].
Qed.
End guarantees.

(** ** Samples *)

Definition read_local : bytes := node 3 0 "" 0 [].
Definition concat_of (l r : bytes) : bytes := node 7 0 "text_concat" (-1) [l; r].
Definition break_out : bytes :=
  lines [26; 2; 0; 0]%Z ++ sized "" ++ lines [-1; 0; 0]%Z ++ line 0.

(** [while true { _ = (a + a) + { break; a } } (a + a) + (a + a)], with one parameter [a]. *)
Definition concat_stream : bytes :=
  b "loom-checked-1" ++ [nl] ++
  lines [3; 3; -1; 2; -1; 0; -1]%Z ++
  lines [1; 0; 0; 0; 1; 0; 0; 1; 0; 0]%Z ++
  node 11 0 "" (-1)
    [node 17 2 "" (-1)
       [node 1 1 "true" (-1) [];
        node 11 2 "" (-1)
          [node 16 2 "" (-1)
             [concat_of (concat_of read_local read_local)
                (node 11 0 "" (-1) [break_out; read_local])]]];
     concat_of (concat_of read_local read_local) (concat_of read_local read_local)] ++
  lines [-1; 0; 0]%Z.

Definition concat_program : C.Program :=
  Eval vm_compute in
  match decode concat_stream with
  | Ok p => p
  | _ => C.mkProgram [] [] [] [] [] [] None [] [] [] (C.mkSourceMap [] ∅) []
  end.

Lemma concat_decoded : decode concat_stream = Ok concat_program.
Proof. vm_compute. reflexivity. Qed.

Lemma concat_program_ok : program_ok concat_program.
Proof.
  apply (decoded_ok concat_stream); [vm_compute; reflexivity|vm_compute; discriminate|].
  exact concat_decoded.
Qed.

Definition concat_function : C.Function :=
  Eval vm_compute in
  match C.functions concat_program with
  | f :: _ => f
  | [] => C.mkFunction [] [] Ty.Unit [] [] (C.mkBlock [] None true) (mkSpan 0 0)
  end.

Lemma concat_function_in : concat_function ∈ C.functions concat_program.
Proof. left. Qed.

Lemma concat_whole : part_of concat_function (compiled concat_function None).
Proof. by exists []. Qed.

Definition concat_slots : TemporarySlots :=
  Eval vm_compute in
  match temporaries concat_program false ∅ concat_function None with
  | Ok s => s
  | _ => allocation_query false
  end.

Lemma concat_assigned : temporaries concat_program false ∅ concat_function None = Ok concat_slots.
Proof. vm_compute. reflexivity. Qed.

(** [seen], evaluated. *)
#[local] Definition sees (root : Node) : Path → bool :=
  fix go q :=
    match q with
    | [] => true
    | _ :: p => go p && match node_at root p with Some n => negb (is_callback n) | None => true end
    end.

Lemma sees_seen root q : sees root q = true → seen root q.
Proof.
  induction q as [|i p IH]; [done|]. intros [Hp Hn]%andb_true_iff. split; [by apply IH|].
  intros n Hn'. rewrite Hn' in Hn. by apply negb_true_iff.
Qed.

(** The two operands of the addition in the loop. *)
#[local] Definition first_operand : Path := [0; 0; 0; 1; 0; 0]%nat.
#[local] Definition second_operand : Path := [1; 0; 0; 1; 0; 0]%nat.
#[local] Definition jump : Path := [0; 0; 1; 0; 0; 1; 0; 0]%nat.

Lemma held_slots_differ_witness :
  ∃ s k k', temporaries concat_program false ∅ concat_function None = Ok s ∧
    ts_expressions s !! first_operand = Some k ∧ ts_expressions s !! second_operand = Some k' ∧
    k ≠ k'.
Proof.
  destruct (held_slots_differ concat_program concat_function None false ∅ concat_program_ok
              concat_function_in concat_whole) as (s & Hs & _ & H).
  rewrite concat_assigned in Hs. injection Hs as <-.
  exists concat_slots, 0, 1. split; [exact concat_assigned|].
  assert (H0 : ts_expressions concat_slots !! first_operand = Some 0) by (vm_compute; reflexivity).
  assert (H1 : ts_expressions concat_slots !! second_operand = Some 1) by (vm_compute; reflexivity).
  split; [exact H0|]. split; [exact H1|]. refine (H first_operand second_operand 0 1 _ H0 H1).
  exists 0%nat, 1%nat, [0; 0; 1; 0; 0]%nat. split_and!; [done|lia|by exists []|done].
Defined.

Lemma crossing_operands_have_slots_witness :
  ∃ s, temporaries concat_program false ∅ concat_function None = Ok s ∧
    is_Some (ts_expressions s !! first_operand).
Proof.
  destruct (crossing_operands_have_slots concat_program concat_function None false ∅
              concat_program_ok concat_function_in concat_whole) as (s & Hs & H).
  exists s. split; [exact Hs|]. eapply (H [0; 0; 1; 0; 0]%nat 0%nat); [reflexivity..| |].
  - apply sees_seen. vm_compute. reflexivity.
  - split; [reflexivity|]. split; [vm_compute; reflexivity|]. left. reflexivity.
Defined.

Lemma slots_given_back_witness :
  ∃ s, temporaries concat_program false ∅ concat_function None = Ok s ∧
    ts_exits s !! jump = Some [0; 1] ∧
    ∃ x, around x jump ∧ below [1; 0; 0]%nat x ∧ ts_expressions s !! x = Some 1.
Proof.
  destruct (slots_given_back concat_program concat_function None false ∅ concat_program_ok
              concat_function_in concat_whole) as (s & Hs & _ & H).
  rewrite concat_assigned in Hs. injection Hs as <-.
  exists concat_slots. split; [exact concat_assigned|].
  assert (Hx : ts_exits concat_slots !! jump = Some [0; 1]) by (vm_compute; reflexivity).
  split; [exact Hx|]. eapply (H [0; 0]%nat jump C.Break); [reflexivity|by left| | |].
  - apply sees_seen. vm_compute. reflexivity.
  - split; [by repeat eexists|]. split; [by exists [0; 0; 1; 0; 0]%nat|].
    intros w' (c & b & sp & Hw) [k Hk]. unfold jump in Hk.
    do 8 (destruct k as [|? k]; [try discriminate Hk; injection Hk as <-;
      first [vm_compute in Hw; discriminate Hw|by exists []]|injection Hk as _ Hk]).
    by destruct k.
  - rewrite Hx. right. left.
Defined.
