(* ===== verification/Memory.v ===== *)
(** Byte-addressed memory, with the little-endian words of the supported hosts: what the
    runtime's raw pointers read and write. *)

From S2P Require Import Prelude.

Definition Memory : Type := N → byte.

Definition byte_at (v k : N) : byte := default x00 (Byte.of_N (v / 2 ^ (8 * k) mod 256)).

Fixpoint load_bytes (m : Memory) (a : N) (n : nat) : N :=
  match n with
  | O => 0
  | S n => Byte.to_N (m a) + 256 * load_bytes m (a + 1) n
  end.

(** [*address] and [*address = v] for an address of a word. *)
Definition load (m : Memory) (a : N) : N := load_bytes m a 8.

Definition store (a v : N) (m : Memory) : Memory := λ x,
  if (a <=? x) && (x <? a + 8) then byte_at v (x - a) else m x.

(** [ptr::copy_nonoverlapping] and [ptr::write_bytes]. *)
Definition copy (source target size : N) (m : Memory) : Memory := λ x,
  if (target <=? x) && (x <? target + size) then m (source + (x - target)) else m x.

Definition fill (target size : N) (v : byte) (m : Memory) : Memory := λ x,
  if (target <=? x) && (x <? target + size) then v else m x.

(** [x] is one of the [n] bytes at [a]. *)
Definition within (a n x : N) : Prop := a ≤ x < a + n.

#[export] Instance within_dec a n x : Decision (within a n x).
Proof. unfold within. apply _. Defined.

Lemma within_test a n x : (a <=? x) && (x <? a + n) = bool_decide (within a n x).
Proof.
  unfold within. case_bool_decide as E.
  - apply andb_true_iff. by rewrite N.leb_le, N.ltb_lt.
  - apply andb_false_iff. rewrite N.leb_gt, N.ltb_ge. lia.
Qed.

Lemma store_in a v m x : within a 8 x → store a v m x = byte_at v (x - a).
Proof. intros H. unfold store. by rewrite within_test, bool_decide_eq_true_2. Qed.

Lemma store_out a v m x : ¬ within a 8 x → store a v m x = m x.
Proof. intros H. unfold store. by rewrite within_test, bool_decide_eq_false_2. Qed.

Lemma copy_in a b n m x : within b n x → copy a b n m x = m (a + (x - b)).
Proof. intros H. unfold copy. by rewrite within_test, bool_decide_eq_true_2. Qed.

Lemma copy_out a b n m x : ¬ within b n x → copy a b n m x = m x.
Proof. intros H. unfold copy. by rewrite within_test, bool_decide_eq_false_2. Qed.

Lemma fill_in b n v m x : within b n x → fill b n v m x = v.
Proof. intros H. unfold fill. by rewrite within_test, bool_decide_eq_true_2. Qed.

Lemma fill_out b n v m x : ¬ within b n x → fill b n v m x = m x.
Proof. intros H. unfold fill. by rewrite within_test, bool_decide_eq_false_2. Qed.

Lemma load_bytes_eq m m' a b n :
  (∀ i, i < N.of_nat n → m (a + i) = m' (b + i)) → load_bytes m a n = load_bytes m' b n.
Proof.
  revert a b. induction n as [|n IH]; intros a b H; [done|]. simpl. f_equal.
  - specialize (H 0). rewrite !N.add_0_r in H. by rewrite H by lia.
  - f_equal. apply IH. intros i Hi. replace (a + 1 + i) with (a + (1 + i)) by lia.
    replace (b + 1 + i) with (b + (1 + i)) by lia. apply H. lia.
Qed.

(** A word is its eight bytes. *)
Lemma load_eq m m' a b : (∀ i, i < 8 → m (a + i) = m' (b + i)) → load m a = load m' b.
Proof. apply (load_bytes_eq m m' a b 8). Qed.

Lemma load_same m m' a : (∀ x, within a 8 x → m x = m' x) → load m a = load m' a.
Proof. intros H. apply load_eq. intros i Hi. apply H. split; lia. Qed.

Lemma byte_at_N v k : Byte.to_N (byte_at v k) = v / 2 ^ (8 * k) mod 256.
Proof.
  unfold byte_at. destruct (Byte.of_N _) as [b|] eqn:E; [by apply Byte.to_of_N|].
  apply Byte.of_N_None_iff in E. pose proof (N.mod_lt (v / 2 ^ (8 * k)) 256 ltac:(done)).
  lia.
Qed.

Lemma load_store a v m : v < 2 ^ 64 → load (store a v m) a = v.
Proof.
  intros Hv.
  assert (E : ∀ n k, k + N.of_nat n = 8 →
    load_bytes (store a v m) (a + k) n = v / 2 ^ (8 * k) mod 2 ^ (8 * N.of_nat n)).
  { intros n. induction n as [|n IH]; intros k Hk; [simpl; by rewrite N.mod_1_r|].
    cbn [load_bytes]. rewrite store_in by (split; lia). replace (a + k - a) with k by lia.
    rewrite byte_at_N. replace (a + k + 1) with (a + (k + 1)) by lia. rewrite IH by lia.
    replace (8 * (k + 1)) with (8 * k + 8) by lia.
    replace (8 * N.of_nat (S n)) with (8 + 8 * N.of_nat n) by lia.
    rewrite !N.pow_add_r, <- N.Div0.div_div. change (2 ^ 8) with 256.
    rewrite N.Div0.mod_mul_r. lia. }
  specialize (E 8%nat 0 eq_refl). rewrite N.add_0_r in E. unfold load. rewrite E.
  change (2 ^ (8 * 0)) with 1. rewrite N.div_1_r. by apply N.mod_small.
Qed.

Lemma byte_bound b : Byte.to_N b < 256.
Proof. pose proof (Byte.to_N_bounded b). lia. Qed.

Lemma load_bound m a : load m a < 2 ^ 64.
Proof.
  assert (E : ∀ n a, load_bytes m a n < 2 ^ (8 * N.of_nat n)).
  { intros n. induction n as [|n IH]; intros b; [done|]. cbn [load_bytes].
    replace (8 * N.of_nat (S n)) with (8 + 8 * N.of_nat n) by lia. rewrite N.pow_add_r.
    change (2 ^ 8) with 256. pose proof (byte_bound (m b)). specialize (IH (b + 1)). nia. }
  exact (E 8%nat a).
Qed.

(** Aligned words are equal or apart. *)
Lemma words_apart s s' x :
  s mod 8 = 0 → s' mod 8 = 0 → within s 8 x → within s' 8 x → s = s'.
Proof.
  intros H H'. apply N.Div0.mod_divides in H as [k ->]. apply N.Div0.mod_divides in H' as [j ->].
  unfold within. lia.
Qed.
