(* ===== verification/Arena.v ===== *)
(** The object table of a heap: [Allocation], [Arena] and [Objects] of
    [compiler/runtime/src/lib.rs] over the mappings of [pages.rs]. Small objects live in
    pages of an arena, which finds their private headers by a bitmap of base addresses; large
    objects are blocks of their own with an entry in a hash map. *)

From S2P Require Import Prelude Effects Memory.

(** ** Constants *)

Definition PAGES_PER_MAPPING : N := 16.
Definition PAGE_SIZE : N := 256 * 1024.
Definition SIZE : N := PAGES_PER_MAPPING * PAGE_SIZE.
Definition PAGE_WORDS : N := PAGE_SIZE / 16 / 64.
Definition MIN_THRESHOLD : N := 64 * 1024.
Definition LARGE_OBJECT_THRESHOLD : N := 64 * 1024.

(** [size_of::<Allocation>()]: a size, an optional function and a pointer. *)
Definition HEADER_SIZE : N := N.ldiff (24 + 15) 15.

Definition out_of_memory : string := "out of memory".

(** ** The operating system and the allocator *)

(** What the heap asks for: aligned page groups ([Mapping::new] and its [Drop]) and blocks of
    the global allocator. [None] is exhaustion. *)
Class System := {
  Sys : Type;
  map_pages : Sys → option (N * Sys);
  unmap_pages : N → Sys → Sys;
  alloc : N → Sys → option (N * Sys);
  dealloc : N → N → Sys → Sys;
}.

(** Blocks that are given out lie outside everything that is in use. *)
Class SystemSpec `{System} := {
  in_use : Sys → N → Prop;
  in_use_word s x : in_use s x → x < 2 ^ 64;
  map_fresh s p s' : map_pages s = Some (p, s') →
    p mod PAGE_SIZE = 0 ∧ p ≠ 0 ∧ (∀ x, within p SIZE x → ¬ in_use s x) ∧
    ∀ x, in_use s' x ↔ in_use s x ∨ within p SIZE x;
  alloc_fresh n s p s' : alloc n s = Some (p, s') →
    p mod 16 = 0 ∧ p ≠ 0 ∧ (∀ x, within p n x → ¬ in_use s x) ∧
    ∀ x, in_use s' x ↔ in_use s x ∨ within p n x;
  unmap_frees p s x : in_use (unmap_pages p s) x ↔ in_use s x ∧ ¬ within p SIZE x;
  dealloc_frees p n s x : in_use (dealloc p n s) x ↔ in_use s x ∧ ¬ within p n x;
}.

Section heap.
Context `{System}.

(** ** Allocations *)

(** A tracer is the address of its code; addresses that are 0 are null. *)
Record Allocation := mkAllocation {
  al_size : N;
  al_trace : option N;
  al_forwarded : N;
}.

(** A layout is its size: every block is aligned to 16. *)
Definition pad_to_align (layout : N) : N := N.ldiff (layout + 15) 15.

Definition occupied (layout : N) : N :=
  if layout <? LARGE_OBJECT_THRESHOLD then HEADER_SIZE + pad_to_align layout else layout.

Definition individually_owned (a : Allocation) : bool := LARGE_OBJECT_THRESHOLD <=? al_size a.

Definition growth_cost (a : Allocation) (layout : N) : outcome N :=
  if individually_owned a then sub_checked layout (al_size a) else Ok (occupied layout).

(** ** Arenas *)

Record Page := mkPage { pointer : N; bases : list N }.

Record Arena := mkArena {
  pages : list Page;
  mappings : list N;
  indices : gmap N N;
  used : N;
  count : N;
}.

Definition empty_arena : Arena := mkArena [] [] ∅ 0 0.

Definition page_base (address : N) : N := N.ldiff address (PAGE_SIZE - 1).

Definition set_bit (page : Page) (bit : N) : outcome Page :=
  word ← index_or_panic (bases page) (bit / 64);
  bases ← set_or_panic (bases page) (bit / 64) (N.lor word (N.shiftl 1 (bit mod 64)));
  Ok (mkPage (pointer page) bases).

Definition clear_bit (page : Page) (bit : N) : outcome Page :=
  word ← index_or_panic (bases page) (bit / 64);
  bases ← set_or_panic (bases page) (bit / 64) (N.ldiff word (N.shiftl 1 (bit mod 64)));
  Ok (mkPage (pointer page) bases).

(** A new page; every sixteenth starts a mapping. *)
Definition add_page (a : Arena) : St Sys Arena := λ sys,
  let page := lengthN (pages a) mod PAGES_PER_MAPPING in
  '(mappings, sys) ←
    (if page =? 0
     then '(p, sys) ← or_panic (map_pages sys) out_of_memory; Ok (mappings a ++ [p], sys)
     else Ok (mappings a, sys));
  m ← or_panic (last mappings) "unwrap of None";
  let p := m + page * PAGE_SIZE in
  Ok (mkArena (pages a ++ [mkPage p (replicate (N.to_nat PAGE_WORDS) 0)]) mappings
        (<[p := lengthN (pages a)]> (indices a)) 0 (count a), sys).

Definition allocate (layout : N) (a : Arena) : St Sys (N * Arena) :=
  let size := occupied layout in
  a ← (if (length (pages a) =? 0)%nat || (PAGE_SIZE <? used a + size) then add_page a else mret a);
  page ← lift (or_panic (last (pages a)) "unwrap of None");
  let offset := used a + HEADER_SIZE in
  page ← lift (set_bit page (offset / 16));
  pages ← lift (set_or_panic (pages a) (lengthN (pages a) - 1) page);
  mret (pointer page + offset,
        mkArena pages (mappings a) (indices a) (used a + size) (count a + 1)).

(** The address of the private header of the object at [address]. *)
Definition header (a : Arena) (address : N) : outcome (option N) :=
  match indices a !! page_base address with
  | None => Ok None
  | Some index =>
      page ← index_or_panic (pages a) index;
      let offset := address - page_base address in
      let bit := offset / 16 in
      if negb (offset mod 16 =? 0) then Ok None
      else
        word ← index_or_panic (bases page) (bit / 64);
        if N.land word (N.shiftl 1 (bit mod 64)) =? 0 then Ok None
        else Ok (Some (address - HEADER_SIZE))
  end.

Definition unregister (address : N) (a : Arena) : outcome Arena :=
  let base := page_base address in
  index ← or_panic (indices a !! base) "missing page";
  page ← index_or_panic (pages a) index;
  page ← clear_bit page ((address - base) / 16);
  pages ← set_or_panic (pages a) index page;
  count ← sub_checked (count a) 1;
  Ok (mkArena pages (mappings a) (indices a) (used a) count).

(** Dropping the mappings returns them to the operating system. *)
Definition clear_arena (a : Arena) : St Sys Arena :=
  edits (λ sys, foldl (λ sys p, unmap_pages p sys) sys (mappings a)) ;;
  mret empty_arena.

(** ** Object tables *)

(** [headers] is the memory of the private headers, by their addresses. *)
Record Objects := mkObjects {
  large : gmap N Allocation;
  arena : Arena;
  headers : gmap N Allocation;
}.

Definition no_objects : Objects := mkObjects ∅ empty_arena ∅.

Definition get_object (o : Objects) (address : N) : outcome (option Allocation) :=
  h ← header (arena o) address;
  Ok match h with
     | Some h => headers o !! h
     | None => large o !! address
     end.

Definition contains_key (o : Objects) (address : N) : outcome bool :=
  h ← header (arena o) address;
  Ok match h with
     | Some _ => true
     | None => bool_decide (is_Some (large o !! address))
     end.

Definition insert_object (address : N) (allocation : Allocation) (o : Objects)
    : outcome Objects :=
  h ← header (arena o) address;
  Ok match h with
     | Some h => mkObjects (large o) (arena o) (<[h := allocation]> (headers o))
     | None => mkObjects (<[address := allocation]> (large o)) (arena o) (headers o)
     end.

(** [get_mut], with the change that is made through the reference. *)
Definition update_object (address : N) (f : Allocation → Allocation) (o : Objects)
    : outcome Objects :=
  h ← header (arena o) address;
  Ok match h with
     | Some h => mkObjects (large o) (arena o) (alter f h (headers o))
     | None => mkObjects (alter f address (large o)) (arena o) (headers o)
     end.

Definition remove_object (address : N) (o : Objects) : outcome (option Allocation * Objects) :=
  h ← header (arena o) address;
  match h with
  | Some h =>
      arena ← unregister address (arena o);
      Ok (headers o !! h, mkObjects (large o) arena (headers o))
  | None => Ok (large o !! address, mkObjects (delete address (large o)) (arena o) (headers o))
  end.

Definition is_empty (o : Objects) : bool :=
  bool_decide (large o = ∅) && (count (arena o) =? 0).

Definition clear_objects (o : Objects) : St Sys Objects :=
  arena ← clear_arena (arena o);
  mret (mkObjects ∅ arena ∅).
End heap.
