(* ===== verification/ArenaFacts.v ===== *)
(** The object table is a finite map from base addresses to allocations, and storage for a
    new object overlaps nothing: what [Arena] promises to the collector. *)

From S2P Require Import Prelude Effects Memory Arena.

(** ** Aligned addresses *)

Lemma ldiff_multiple k x : N.ldiff x (N.ones k) = x / 2 ^ k * 2 ^ k.
Proof. by rewrite N.ldiff_ones_r, N.shiftl_mul_pow2, N.shiftr_div_pow2. Qed.

Lemma division x k : k ≠ 0 → ∃ q r, x / k = q ∧ x mod k = r ∧ x = k * q + r ∧ r < k.
Proof.
  intros Hk. exists (x / k), (x mod k). split; [done|]. split; [done|].
  split; [by apply N.div_mod|by apply N.mod_lt].
Qed.

Lemma page_base_eq x : page_base x = x / PAGE_SIZE * PAGE_SIZE.
Proof. exact (ldiff_multiple 18 x). Qed.

Lemma pad_to_align_eq l : pad_to_align l = (l + 15) / 16 * 16.
Proof. exact (ldiff_multiple 4 (l + 15)). Qed.

Lemma pad_bounds l : l ≤ pad_to_align l < l + 16.
Proof.
  rewrite pad_to_align_eq. destruct (division (l + 15) 16) as (q & r & -> & _ & E & Hr); [done|].
  lia.
Qed.

Lemma page_base_offset p o :
  p mod PAGE_SIZE = 0 → o < PAGE_SIZE → page_base (p + o) = p.
Proof.
  intros Hp Ho. rewrite page_base_eq. apply N.Div0.mod_divides in Hp as [k ->].
  rewrite (N.mul_comm PAGE_SIZE k), N.div_add_l by done. rewrite (N.div_small o) by done. lia.
Qed.

Lemma page_base_le x : page_base x ≤ x < page_base x + PAGE_SIZE.
Proof.
  rewrite page_base_eq. destruct (division x PAGE_SIZE) as (q & r & -> & _ & -> & Hr); [done|].
  lia.
Qed.

Lemma page_base_mod x : page_base x mod PAGE_SIZE = 0.
Proof. rewrite page_base_eq. by apply N.Div0.mod_mul. Qed.

Lemma land_bit word k : (N.land word (N.shiftl 1 k) =? 0) = negb (N.testbit word k).
Proof.
  destruct (N.testbit word k) eqn:E; simpl.
  - apply N.eqb_neq. intros H. apply (f_equal (λ w, N.testbit w k)) in H.
    rewrite N.land_spec, E, N.shiftl_spec_high', N.sub_diag, N.bits_0 in H by lia. done.
  - apply N.eqb_eq, N.bits_inj. intros j. rewrite N.land_spec, N.bits_0.
    destruct (decide (j = k)) as [->|Hne]; [by rewrite E|].
    destruct (N.lt_ge_cases j k) as [Hlt|Hge].
    + by rewrite N.shiftl_spec_low, andb_false_r.
    + rewrite N.shiftl_spec_high' by done. rewrite (N.bits_above_log2 1) by (simpl; lia).
      by rewrite andb_false_r.
Qed.

Lemma testbit_set word k j :
  N.testbit (N.lor word (N.shiftl 1 k)) j = N.testbit word j || (j =? k).
Proof.
  rewrite N.lor_spec. f_equal. destruct (N.eqb_spec j k) as [->|Hne].
  - by rewrite N.shiftl_spec_high', N.sub_diag by lia.
  - destruct (N.lt_ge_cases j k) as [Hlt|Hge]; [by apply N.shiftl_spec_low|].
    rewrite N.shiftl_spec_high' by done. apply N.bits_above_log2. simpl. lia.
Qed.

Lemma testbit_clear word k j :
  N.testbit (N.ldiff word (N.shiftl 1 k)) j = N.testbit word j && negb (j =? k).
Proof.
  rewrite N.ldiff_spec. f_equal. f_equal. destruct (N.eqb_spec j k) as [->|Hne].
  - by rewrite N.shiftl_spec_high', N.sub_diag by lia.
  - destruct (N.lt_ge_cases j k) as [Hlt|Hge]; [by apply N.shiftl_spec_low|].
    rewrite N.shiftl_spec_high' by done. apply N.bits_above_log2. simpl. lia.
Qed.

(** ** Bitmaps *)

(** Bit [k] of a page is set. *)
Definition has_bit (page : Page) (k : N) : Prop :=
  ∃ word, get (bases page) (k / 64) = Some word ∧ N.testbit word (k mod 64) = true.

Definition page_ok (page : Page) : Prop :=
  lengthN (bases page) = PAGE_WORDS ∧ pointer page mod PAGE_SIZE = 0 ∧ pointer page ≠ 0.

Lemma same_word k j : k / 64 = j / 64 → k mod 64 = j mod 64 → k = j.
Proof. intros Hd Hm. rewrite (N.div_mod k 64), (N.div_mod j 64), Hd, Hm by done. done. Qed.

Lemma set_bit_spec page k :
  page_ok page → k < PAGE_SIZE / 16 →
  ∃ page', set_bit page k = Ok page' ∧ page_ok page' ∧ pointer page' = pointer page ∧
    ∀ j, has_bit page' j ↔ has_bit page j ∨ j = k.
Proof.
  intros [Hl Hp] Hk. assert (Hw : k / 64 < lengthN (bases page)).
  { rewrite Hl. by apply N.Div0.div_lt_upper_bound. }
  destruct (get_lt _ _ Hw) as [word Hword]. unfold set_bit, index_or_panic. rewrite Hword. simpl.
  unfold set_or_panic. rewrite (proj2 (N.ltb_lt _ _) Hw). simpl. eexists. split; [done|].
  split; [|split; [done|]].
  { split; [by simpl; rewrite length_insert|done]. }
  intros j. unfold has_bit. simpl. destruct (decide (j / 64 = k / 64)) as [E|E].
  - rewrite E, get_insert_eq by done. split.
    + intros (w & [= <-] & Ht). rewrite testbit_set in Ht. apply orb_true_iff in Ht as [Ht|Ht].
      * left. eauto.
      * right. apply N.eqb_eq in Ht. by apply same_word.
    + intros [(w & Hw' & Ht)| ->]; (eexists; split; [done|]); rewrite testbit_set.
      * rewrite Hword in Hw'. injection Hw' as <-. by rewrite Ht.
      * by rewrite N.eqb_refl, orb_true_r.
  - rewrite get_insert_ne by done. split; [by left|]. by intros [| ->].
Qed.

Lemma clear_bit_spec page k :
  page_ok page → k < PAGE_SIZE / 16 →
  ∃ page', clear_bit page k = Ok page' ∧ page_ok page' ∧ pointer page' = pointer page ∧
    ∀ j, has_bit page' j ↔ has_bit page j ∧ j ≠ k.
Proof.
  intros [Hl Hp] Hk. assert (Hw : k / 64 < lengthN (bases page)).
  { rewrite Hl. by apply N.Div0.div_lt_upper_bound. }
  destruct (get_lt _ _ Hw) as [word Hword]. unfold clear_bit, index_or_panic. rewrite Hword. simpl.
  unfold set_or_panic. rewrite (proj2 (N.ltb_lt _ _) Hw). simpl. eexists. split; [done|].
  split; [|split; [done|]].
  { split; [by simpl; rewrite length_insert|done]. }
  intros j. unfold has_bit. simpl. destruct (decide (j / 64 = k / 64)) as [E|E].
  - rewrite E, get_insert_eq by done. split.
    + intros (w & [= <-] & Ht). rewrite testbit_clear in Ht.
      apply andb_true_iff in Ht as [Ht Hne]. split; [by exists word|].
      intros ->. by rewrite N.eqb_refl in Hne.
    + intros [(w & Hw' & Ht) Hne]. eexists. split; [done|]. rewrite testbit_clear.
      rewrite Hword in Hw'. injection Hw' as <-. rewrite Ht. simpl.
      apply negb_true_iff, N.eqb_neq. intros Hm. by apply Hne, same_word.
  - rewrite get_insert_ne by done. split; [|by intros []]. intros H. split; [done|]. by intros ->.
Qed.

Lemma empty_page_bits p j : ¬ has_bit (mkPage p (replicate (N.to_nat PAGE_WORDS) 0)) j.
Proof.
  intros (w & Hw & Ht). apply get_Some in Hw. cbn [bases] in Hw.
  apply lookup_replicate in Hw as [-> _]. by rewrite N.bits_0 in Ht.
Qed.

(** ** Running out of memory *)

(** [m] answers with [Q], or memory is exhausted; nothing else goes wrong. *)
Definition runs {S A} (m : St S A) (s : S) (Q : A → S → Prop) : Prop :=
  match m s with
  | Ok (a, s') => Q a s'
  | Panic why => why = out_of_memory
  | _ => False
  end.

Section runs.
Context {S : Type}.

Lemma runs_ret {A} (a : A) s (Q : A → S → Prop) : Q a s → runs (mret a) s Q.
Proof. done. Qed.

Lemma runs_bind {A B} (m : St S A) (k : A → St S B) s Q :
  runs m s (λ a s', runs (k a) s' Q) → runs (m ≫= k) s Q.
Proof. unfold runs, mbind, St_bind. destruct (m s) as [[a s']| | |]; simpl; done. Qed.

Lemma runs_mono {A} (m : St S A) s (Q Q' : A → S → Prop) :
  runs m s Q → (∀ a s', Q a s' → Q' a s') → runs m s Q'.
Proof. unfold runs. destruct (m s) as [[a s']| | |]; simpl; auto. Qed.

Lemma runs_reads {A} (f : S → A) s (Q : A → S → Prop) : Q (f s) s → runs (reads f) s Q.
Proof. done. Qed.

Lemma runs_edits (f : S → S) s (Q : () → S → Prop) : Q tt (f s) → runs (edits f) s Q.
Proof. done. Qed.

Lemma runs_lift {A} (a : A) m s (Q : A → S → Prop) : m = Ok a → Q a s → runs (lift m) s Q.
Proof. unfold runs, lift. by intros ->. Qed.
End runs.

(** ** Arenas *)

Lemma get_snoc_iff {A} (l : list A) v i w :
  get (l ++ [v]) i = Some w ↔ get l i = Some w ∨ i = lengthN l ∧ w = v.
Proof.
  rewrite !get_Some. split.
  - intros H. apply lookup_app_Some in H as [?|[Hle H]]; [by left|].
    apply list_lookup_singleton_Some in H as [? <-]. right. split; [lia|done].
  - intros [H|[-> ->]]; [by apply lookup_app_l_Some|].
    rewrite Nat2N.id. apply list_lookup_middle. done.
Qed.

Lemma last_get {A} (l : list A) :
  l ≠ [] → ∃ v, last l = Some v ∧ get l (lengthN l - 1) = Some v.
Proof.
  intros Hl. destruct (last l) as [v|] eqn:E; [|by apply last_None in E].
  exists v. split; [done|]. apply get_Some. rewrite last_lookup in E. rewrite <- E. f_equal. lia.
Qed.

Lemma pages_apart p q :
  p mod PAGE_SIZE = 0 → q mod PAGE_SIZE = 0 → p ≠ q → p + PAGE_SIZE ≤ q ∨ q + PAGE_SIZE ≤ p.
Proof.
  intros H H'. apply N.Div0.mod_divides in H as [k ->]. apply N.Div0.mod_divides in H' as [j ->].
  change PAGE_SIZE with 262144. lia.
Qed.

(** Where the pages of a list of mappings lie. *)
Definition page_at (ms : list N) (i b : N) : Prop :=
  ∃ m, get ms (i / PAGES_PER_MAPPING) = Some m ∧ b = m + i mod PAGES_PER_MAPPING * PAGE_SIZE.

Record mappings_ok (ms : list N) : Prop := {
  mapping_base k m : get ms k = Some m → m mod PAGE_SIZE = 0 ∧ m ≠ 0;
  mapping_apart k j m m' : get ms k = Some m → get ms j = Some m' → k ≠ j →
    m + SIZE ≤ m' ∨ m' + SIZE ≤ m;
}.

Definition mapped (ms : list N) (x : N) : Prop := ∃ m, m ∈ ms ∧ within m SIZE x.

Lemma page_in_mapping ms i b x : page_at ms i b → within b PAGE_SIZE x → mapped ms x.
Proof.
  intros (m & Hm & ->) Hx. exists m. split; [by eapply get_elem_of|].
  destruct (division i PAGES_PER_MAPPING) as (q & r & _ & Hr & _ & Hlt); [done|].
  rewrite Hr in Hx. unfold within in *. change PAGES_PER_MAPPING with 16 in *.
  change SIZE with (16 * 262144). change PAGE_SIZE with 262144 in *. lia.
Qed.

Lemma page_at_base ms i b : mappings_ok ms → page_at ms i b → b mod PAGE_SIZE = 0 ∧ b ≠ 0.
Proof.
  intros Hms (m & Hm & ->). destruct (mapping_base _ Hms _ _ Hm) as [Hb Hne].
  split; [by rewrite N.Div0.mod_add|]. intros [E _]%N.eq_add_0. done.
Qed.

Lemma page_at_inj ms i j b : mappings_ok ms → page_at ms i b → page_at ms j b → i = j.
Proof.
  intros Hms (m & Hm & Hb) (m' & Hm' & Hb').
  destruct (division i PAGES_PER_MAPPING) as (q & r & Hq & Hr & Hi & Hlt); [done|].
  destruct (division j PAGES_PER_MAPPING) as (q' & r' & Hq' & Hr' & Hj & Hlt'); [done|].
  rewrite Hq in Hm. rewrite Hq' in Hm'. rewrite Hr in Hb. rewrite Hr' in Hb'.
  change PAGES_PER_MAPPING with 16 in *. change PAGE_SIZE with 262144 in *.
  destruct (decide (q = q')) as [<-|Hne].
  - rewrite Hm in Hm'. injection Hm' as <-. lia.
  - pose proof (mapping_apart _ Hms _ _ _ _ Hm Hm' Hne) as H'.
    change SIZE with (16 * 262144) in H'. lia.
Qed.

(** What is filled of page [i]. *)
Definition limit (a : Arena) (i : N) : N :=
  if i + 1 =? lengthN (pages a) then used a else PAGE_SIZE.

(** The pages of an arena, whatever they hold. *)
Record arena_shape (a : Arena) : Prop := {
  mappings_are : mappings_ok (mappings a);
  mapping_count : lengthN (mappings a) = (lengthN (pages a) + 15) / PAGES_PER_MAPPING;
  page_shape i pg : get (pages a) i = Some pg → page_ok pg ∧ page_at (mappings a) i (pointer pg);
  index_page b i : indices a !! b = Some i ↔ ∃ pg, get (pages a) i = Some pg ∧ pointer pg = b;
  used_bound : used a ≤ PAGE_SIZE ∧ used a mod 16 = 0;
}.

(** [x] is registered as the base of an object. *)
Definition is_base (a : Arena) (x : N) : Prop :=
  ∃ i pg, get (pages a) i = Some pg ∧ page_base x = pointer pg ∧ x mod 16 = 0 ∧
    has_bit pg ((x - pointer pg) / 16).

(** The arena holds the small objects [L], by their addresses with their layouts. *)
Record arena_ok (a : Arena) (L : gmap N N) : Prop := {
  shape : arena_shape a;
  registered x : is_Some (L !! x) ↔ is_base a x;
  placed x n i pg : L !! x = Some n → get (pages a) i = Some pg → page_base x = pointer pg →
    HEADER_SIZE ≤ x - pointer pg ∧ x - pointer pg + pad_to_align n ≤ limit a i;
  apart x y n k : L !! x = Some n → L !! y = Some k → x ≠ y →
    x + pad_to_align n + HEADER_SIZE ≤ y ∨ y + pad_to_align k + HEADER_SIZE ≤ x;
  counted : count a = N.of_nat (size L);
}.

Lemma page_unique a i j pg pg' :
  arena_shape a → get (pages a) i = Some pg → get (pages a) j = Some pg' →
  pointer pg = pointer pg' → i = j ∧ pg = pg'.
Proof.
  intros Ha Hi Hj E. destruct (page_shape _ Ha _ _ Hi) as [_ Hpi].
  destruct (page_shape _ Ha _ _ Hj) as [_ Hpj]. rewrite E in Hpi.
  pose proof (page_at_inj _ _ _ _ (mappings_are _ Ha) Hpi Hpj) as ->.
  rewrite Hi in Hj. by injection Hj as <-.
Qed.

Lemma limit_bound a i : arena_shape a → limit a i ≤ PAGE_SIZE.
Proof.
  intros Ha. unfold limit. case_match; [|done]. by apply (used_bound _ Ha).
Qed.

Lemma base_pointer a i pg x :
  arena_shape a → get (pages a) i = Some pg → page_base x = pointer pg →
  is_base a x ↔ x mod 16 = 0 ∧ has_bit pg ((x - pointer pg) / 16).
Proof.
  intros Ha Hi Hp. split; [|by intros []; exists i, pg].
  intros (j & pg' & Hj & Hp' & H). assert (pointer pg = pointer pg') as Ep by congruence.
  by destruct (page_unique _ _ _ _ _ Ha Hi Hj Ep) as [_ ->].
Qed.

Lemma bit_in_range x : (x - page_base x) / 16 < PAGE_SIZE / 16.
Proof.
  destruct (page_base_le x). apply N.Div0.div_lt_upper_bound.
  change (16 * (PAGE_SIZE / 16)) with PAGE_SIZE. lia.
Qed.

(** Offsets in pages are aligned as addresses are. *)
Lemma offset_aligned b x : b mod PAGE_SIZE = 0 → b ≤ x → (x - b) mod 16 = x mod 16.
Proof.
  intros Hb Hle. apply N.Div0.mod_divides in Hb as [c ->].
  replace x with ((x - PAGE_SIZE * c) + (c * 16384) * 16) at 2.
  - by rewrite N.Div0.mod_add.
  - change PAGE_SIZE with 262144 in *. lia.
Qed.

(** Aligned addresses of one page have the same bit only if they are the same. *)
Lemma same_bit b x y :
  b mod PAGE_SIZE = 0 → b ≤ x → b ≤ y → x mod 16 = 0 → y mod 16 = 0 →
  (x - b) / 16 = (y - b) / 16 → x = y.
Proof.
  intros Hb Hx Hy Hmx Hmy E. rewrite <- (offset_aligned b) in Hmx, Hmy by done.
  destruct (division (x - b) 16) as (q & r & Hq & Hr & Hxb & _); [done|].
  destruct (division (y - b) 16) as (q' & r' & Hq' & Hr' & Hyb & _); [done|].
  lia.
Qed.

(** Changing the bits of a page, and how much of the last one is used. *)
Lemma shape_replace a i pg pg' u c :
  arena_shape a → get (pages a) i = Some pg → page_ok pg' → pointer pg' = pointer pg →
  u ≤ PAGE_SIZE → u mod 16 = 0 →
  arena_shape (mkArena (<[N.to_nat i := pg']> (pages a)) (mappings a) (indices a) u c).
Proof.
  intros Ha Hi Hok Hp Hu Hm. pose proof (get_Some_lt _ _ _ Hi) as Hlt.
  assert (Hget : ∀ j pg2, get (<[N.to_nat i:=pg']> (pages a)) j = Some pg2 →
    ∃ pg1, get (pages a) j = Some pg1 ∧ pointer pg2 = pointer pg1 ∧ (pg2 = pg1 ∨ pg2 = pg')).
  { intros j pg2 Hj. destruct (decide (i = j)) as [<-|Hne].
    - rewrite get_insert_eq in Hj by done. injection Hj as <-. exists pg. auto.
    - rewrite get_insert_ne in Hj by done. exists pg2. auto. }
  split; simpl.
  - apply Ha.
  - rewrite length_insert. apply Ha.
  - intros j pg2 Hj. destruct (Hget _ _ Hj) as (pg1 & Hj1 & E & H).
    destruct (page_shape _ Ha _ _ Hj1). rewrite E. by destruct H as [->| ->].
  - intros b j. rewrite (index_page _ Ha). split.
    + intros (pg1 & Hj & <-). destruct (decide (i = j)) as [<-|Hne].
      * exists pg'. rewrite get_insert_eq by done. split; [done|]. congruence.
      * exists pg1. by rewrite get_insert_ne.
    + intros (pg2 & Hj & <-). destruct (Hget _ _ Hj) as (pg1 & Hj1 & E & _). by exists pg1.
  - done.
Qed.

Lemma is_base_replace a i pg pg' u c y :
  arena_shape a → get (pages a) i = Some pg → page_ok pg' → pointer pg' = pointer pg →
  u ≤ PAGE_SIZE → u mod 16 = 0 →
  is_base (mkArena (<[N.to_nat i := pg']> (pages a)) (mappings a) (indices a) u c) y ↔
  (page_base y = pointer pg ∧ y mod 16 = 0 ∧ has_bit pg' ((y - pointer pg) / 16)) ∨
  (page_base y ≠ pointer pg ∧ is_base a y).
Proof.
  intros Hs Hi Hok Hp' Hu Hum. pose proof (get_Some_lt _ _ _ Hi) as Hlt.
  pose proof (shape_replace a i pg pg' u c Hs Hi Hok Hp' Hu Hum) as Hs'.
  destruct (decide (page_base y = pointer pg)) as [E|E].
  - rewrite (base_pointer _ i pg' _ Hs'); [|by simpl; rewrite get_insert_eq|congruence].
    rewrite Hp'. naive_solver.
  - split.
    + intros (j & pgj & Hj & Hpj & ?). simpl in Hj. destruct (decide (i = j)) as [<-|Hne].
      { rewrite get_insert_eq in Hj by done. congruence. }
      rewrite get_insert_ne in Hj by done. right. split; [done|]. by exists j, pgj.
    + intros [[? _]|[_ (j & pgj & Hj & Hpj & ?)]]; [done|]. exists j, pgj. simpl.
      rewrite get_insert_ne; [done|]. intros ->. congruence.
Qed.

(** What was placed stays placed. *)
Lemma placed_replace a L i pg pg' u c y n j pgj :
  arena_ok a L → get (pages a) i = Some pg → pointer pg' = pointer pg → used a ≤ u →
  L !! y = Some n →
  get (<[N.to_nat i := pg']> (pages a)) j = Some pgj → page_base y = pointer pgj →
  HEADER_SIZE ≤ y - pointer pgj ∧ y - pointer pgj + pad_to_align n ≤
    limit (mkArena (<[N.to_nat i := pg']> (pages a)) (mappings a) (indices a) u c) j.
Proof.
  intros Ha Hi Hp' Hu Hy Hj Hpj. pose proof (get_Some_lt _ _ _ Hi) as Hlt.
  assert (∃ pg1, get (pages a) j = Some pg1 ∧ pointer pgj = pointer pg1) as (pg1 & Hj1 & E).
  { destruct (decide (i = j)) as [<-|Hne].
    - rewrite get_insert_eq in Hj by done. injection Hj as <-. by exists pg.
    - rewrite get_insert_ne in Hj by done. by exists pgj. }
  rewrite E in *. destruct (placed _ _ Ha _ _ _ _ Hy Hj1 Hpj) as [H1 H2]. split; [done|].
  unfold limit in *. simpl. rewrite length_insert. case_match; [lia|done].
Qed.

Lemma empty_arena_ok : arena_ok empty_arena ∅.
Proof.
  split; try done; [split; try done|].
  - split; intros; simplify_eq/=; by rewrite get_Some in *.
  - intros i pg H. by rewrite get_Some in H.
  - intros b i. split; [done|]. intros (pg & H & _). by rewrite get_Some in H.
  - intros x. rewrite lookup_empty. split; [by intros []|].
    intros (i & pg & H & _). by rewrite get_Some in H.
Qed.

(** The header of an address is there exactly when an object is. *)
Lemma header_spec a L x :
  arena_ok a L →
  header a x = Ok (if decide (is_Some (L !! x)) then Some (x - HEADER_SIZE) else None).
Proof.
  intros Ha. pose proof (shape _ _ Ha) as Hs. unfold header. destruct (page_base_le x) as [Hle Hlt].
  destruct (indices a !! page_base x) as [i|] eqn:Ei.
  - apply (index_page _ Hs) in Ei as (pg & Hi & Hp). unfold index_or_panic. rewrite Hi. simpl.
    pose proof (registered _ _ Ha x) as Hx. rewrite (base_pointer _ _ _ _ Hs Hi) in Hx by done.
    rewrite offset_aligned by (try done; apply page_base_mod).
    rewrite <- Hp. destruct (N.eqb_spec (x mod 16) 0) as [E|E]; simpl.
    + destruct (page_shape _ Hs _ _ Hi) as [(Hl & _) _].
      assert (Hw : (x - pointer pg) / 16 / 64 < lengthN (bases pg)).
      { rewrite Hl, Hp. apply N.Div0.div_lt_upper_bound, bit_in_range. }
      destruct (get_lt _ _ Hw) as [w Hword]. rewrite Hword. simpl.
      rewrite land_bit. unfold has_bit in Hx. rewrite Hword in Hx.
      destruct (N.testbit w _) eqn:Et; case_decide as Ed; simpl; try done.
      * exfalso. apply Ed, Hx. eauto.
      * apply Hx in Ed as [_ (w' & [= <-] & Et')]. congruence.
    + rewrite decide_False; [done|]. rewrite Hx. by intros [].
  - rewrite decide_False; [done|]. rewrite (registered _ _ Ha). intros (i & pg & Hi & Hp & _).
    assert (indices a !! page_base x = Some i); [|congruence].
    apply (index_page _ Hs). by exists pg.
Qed.

Lemma size_delete (L : gmap N N) x n : L !! x = Some n → size L = S (size (delete x L)).
Proof.
  intros Hx. rewrite <- (insert_delete_id L x n Hx) at 1. apply map_size_insert_None.
  apply lookup_delete_eq.
Qed.

Lemma unregister_spec a L x n :
  arena_ok a L → L !! x = Some n →
  ∃ a', unregister x a = Ok a' ∧ arena_ok a' (delete x L) ∧ mappings a' = mappings a.
Proof.
  intros Ha Hx. pose proof (shape _ _ Ha) as Hs.
  destruct (proj1 (registered _ _ Ha x) ltac:(by eexists)) as (i & pg & Hi & Hp & Hm & Hb).
  assert (Ei : indices a !! page_base x = Some i) by (apply (index_page _ Hs); by exists pg).
  unfold unregister. rewrite Ei. simpl. unfold index_or_panic. rewrite Hi. simpl.
  destruct (page_shape _ Hs _ _ Hi) as [Hpg _].
  destruct (clear_bit_spec pg _ Hpg (bit_in_range x)) as (pg' & -> & Hpg' & Hp' & Hbits). simpl.
  pose proof (get_Some_lt _ _ _ Hi) as Hlt.
  unfold set_or_panic. rewrite (proj2 (N.ltb_lt _ _) Hlt). simpl.
  unfold sub_checked. rewrite (counted _ _ Ha), (size_delete _ _ _ Hx).
  rewrite (proj2 (N.leb_le _ _)) by lia. simpl. eexists. split; [done|]. split; [|done].
  destruct (used_bound _ Hs) as [Hu Hum].
  assert (Hs' := shape_replace a i pg pg' (used a) (N.of_nat (S (size (delete x L))) - 1)
    Hs Hi Hpg' Hp' Hu Hum).
  split; [done| | | |simpl; lia].
  - intros y. rewrite lookup_delete_is_Some, (registered _ _ Ha), (is_base_replace _ _ pg) by done.
    destruct (decide (page_base y = pointer pg)) as [E|E].
    + rewrite (base_pointer _ i pg _ Hs Hi E), Hbits, <- Hp.
      split; [|by intros [(_ & ? & ? & Hne)|[? _]]; [split; [intros ->|]|congruence]].
      intros (Hne & Hy & Hyb). left. split; [congruence|]. split; [done|]. split; [done|].
      intros Eb. apply Hne. pose proof (page_base_le x). pose proof (page_base_le y).
      apply (same_bit (page_base x)); try done; [apply page_base_mod|lia|rewrite Hp, <- E; lia].
    + split; [by intros [_ ?]; right|]. intros [[? _]|[_ ?]]; [done|].
      split; [intros ->; congruence|done].
  - intros y k j pgj [_ Hy]%lookup_delete_Some Hj Hpj.
    by apply (placed_replace a L i pg pg').
  - intros y z k j [_ Hy]%lookup_delete_Some [_ Hz]%lookup_delete_Some. by apply (apart _ _ Ha).
Qed.

Lemma shape_add a ms p :
  arena_shape a → mappings_ok ms →
  (∀ i b, page_at (mappings a) i b → page_at ms i b) →
  page_at ms (lengthN (pages a)) p → lengthN ms = (lengthN (pages a) + 16) / PAGES_PER_MAPPING →
  arena_shape (mkArena (pages a ++ [mkPage p (replicate (N.to_nat PAGE_WORDS) 0)]) ms
    (<[p := lengthN (pages a)]> (indices a)) 0 (count a)).
Proof.
  intros Hs Hms Hat Hp Hn.
  assert (Hnew : ∀ i pg, get (pages a) i = Some pg → pointer pg ≠ p).
  { intros i pg Hi E. destruct (page_shape _ Hs _ _ Hi) as [_ Hi'%Hat]. rewrite E in Hi'.
    pose proof (page_at_inj _ _ _ _ Hms Hi' Hp). apply get_Some_lt in Hi. lia. }
  split; cbn [pages mappings indices used].
  - done.
  - rewrite Hn, length_app. simpl. f_equal. lia.
  - intros i pg [Hi|[-> ->]]%get_snoc_iff.
    + destruct (page_shape _ Hs _ _ Hi) as [? ?%Hat]. done.
    + split; [|done]. split; [done|]. by eapply page_at_base.
  - intros b i. destruct (decide (b = p)) as [->|Hb].
    + rewrite lookup_insert_eq. split.
      * intros [= <-]. eexists. rewrite get_snoc_iff. split; [by right|done].
      * intros (pg & [Hi|[-> ->]]%get_snoc_iff & E); [by destruct (Hnew _ _ Hi)|done].
    + rewrite lookup_insert_ne, (index_page _ Hs) by done. split.
      * intros (pg & Hi & E). exists pg. rewrite get_snoc_iff. auto.
      * intros (pg & [Hi|[-> ->]]%get_snoc_iff & E); [by exists pg|done].
  - done.
Qed.

Lemma arena_add a L ms p :
  arena_ok a L → mappings_ok ms →
  (∀ i b, page_at (mappings a) i b → page_at ms i b) →
  page_at ms (lengthN (pages a)) p → lengthN ms = (lengthN (pages a) + 16) / PAGES_PER_MAPPING →
  arena_ok (mkArena (pages a ++ [mkPage p (replicate (N.to_nat PAGE_WORDS) 0)]) ms
    (<[p := lengthN (pages a)]> (indices a)) 0 (count a)) L.
Proof.
  intros Ha Hms Hat Hp Hn. pose proof (shape _ _ Ha) as Hs. split; cbn [pages mappings count].
  - by apply shape_add.
  - intros x. rewrite (registered _ _ Ha). unfold is_base. simpl. split.
    + intros (i & pg & Hi & ?). exists i, pg. rewrite get_snoc_iff. auto.
    + intros (i & pg & [Hi|[-> ->]]%get_snoc_iff & ? & ? & Hb); [by exists i, pg|].
      by apply empty_page_bits in Hb.
  - intros x n i pg Hx [Hi|[-> ->]]%get_snoc_iff Hpx.
    + destruct (placed _ _ Ha _ _ _ _ Hx Hi Hpx) as [H1 H2]. split; [done|].
      pose proof (limit_bound a i Hs). unfold limit at 1. simpl. rewrite length_app. simpl.
      apply get_Some_lt in Hi. destruct (N.eqb_spec (i + 1) (N.of_nat (length (pages a) + 1))); lia.
    + destruct (proj1 (registered _ _ Ha x) ltac:(by eexists)) as (i & pg & Hi & Hpi & _).
      destruct (page_shape _ Hs _ _ Hi) as [_ Hi'%Hat]. simpl in Hpx. rewrite <- Hpi, Hpx in Hi'.
      pose proof (page_at_inj _ _ _ _ Hms Hi' Hp). apply get_Some_lt in Hi. lia.
  - apply Ha.
  - apply Ha.
Qed.

Lemma count_mappings n :
  ∃ q, n / 16 = q ∧ (n + 16) / 16 = q + 1 ∧
    (n mod 16 = 0 ∧ (n + 15) / 16 = q ∨ n mod 16 ≠ 0 ∧ (n + 15) / 16 = q + 1).
Proof.
  destruct (division n 16) as (q & r & -> & -> & E & Hr); [done|].
  destruct (division (n + 15) 16) as (q' & r' & -> & _ & E' & Hr'); [done|].
  destruct (division (n + 16) 16) as (q2 & r2 & -> & _ & E2 & Hr2); [done|].
  exists q. split; [done|]. split; [lia|]. destruct (decide (r = 0)); [left|right]; lia.
Qed.

(** The room that a small object takes, with its header. *)
Definition room (x n y : N) : Prop := within (x - HEADER_SIZE) (HEADER_SIZE + pad_to_align n) y.

(** The next slot of the last page, as [allocate] computes it. *)
Definition bump (layout : N) (a : Arena) : outcome (N * Arena) :=
  page ← or_panic (last (pages a)) "unwrap of None";
  let offset := used a + HEADER_SIZE in
  page ← set_bit page (offset / 16);
  pages ← set_or_panic (pages a) (lengthN (pages a) - 1) page;
  Ok (pointer page + offset,
      mkArena pages (mappings a) (indices a) (used a + occupied layout) (count a + 1)).

Lemma bump_spec layout a L :
  arena_ok a L → pages a ≠ [] → used a + occupied layout ≤ PAGE_SIZE →
  0 < layout → layout < LARGE_OBJECT_THRESHOLD →
  ∃ p a', bump layout a = Ok (p, a') ∧ arena_ok a' (<[p := layout]> L) ∧ L !! p = None ∧
    mappings a' = mappings a ∧ p mod 16 = 0 ∧ p ≠ 0 ∧ HEADER_SIZE ≤ p ∧
    ∀ y, room p layout y → mapped (mappings a') y.
Proof.
  intros Ha Hne Hroom Hpos Hsmall. pose proof (shape _ _ Ha) as Hs.
  destruct (last_get _ Hne) as (pg & Hlast & Hi). set (i := lengthN (pages a) - 1) in *.
  destruct (page_shape _ Hs _ _ Hi) as [Hpg Hat]. pose proof Hpg as (_ & Hb & Hpne).
  destruct (used_bound _ Hs) as [Hu Hum]. unfold occupied in Hroom.
  rewrite (proj2 (N.ltb_lt _ _) Hsmall) in Hroom.
  pose proof (pad_bounds layout) as Hpad. change HEADER_SIZE with 32 in *.
  set (o := used a + 32) in *. set (x := pointer pg + o).
  assert (Hbase : page_base x = pointer pg) by (apply page_base_offset; [done|lia]).
  assert (Hxo : x - pointer pg = o) by lia.
  assert (Hmx : x mod 16 = 0).
  { rewrite <- (offset_aligned (pointer pg)), Hxo by (done || lia). unfold o.
    change 32 with (2 * 16). by rewrite N.Div0.mod_add. }
  assert (Hpm : pad_to_align layout mod 16 = 0) by (rewrite pad_to_align_eq; apply N.Div0.mod_mul).
  destruct (set_bit_spec pg (o / 16)) as (pg' & Hset & Hpg' & Hp' & Hbits); [done| |].
  { rewrite <- Hxo, <- Hbase. apply bit_in_range. }
  unfold bump. rewrite Hlast. simpl. change HEADER_SIZE with 32. fold o. rewrite Hset. simpl.
  unfold set_or_panic. fold i. rewrite (proj2 (N.ltb_lt _ _) (get_Some_lt _ _ _ Hi)). simpl.
  rewrite Hp'. fold x. do 2 eexists. split; [done|].
  assert (Hnew : L !! x = None).
  { destruct (L !! x) as [n|] eqn:E; [|done]. destruct (placed _ _ Ha _ _ _ _ E Hi Hbase) as [_ H].
    unfold limit in H. pose proof (get_Some_lt _ _ _ Hi) as Hlt.
    rewrite (proj2 (N.eqb_eq _ _)) in H by lia. pose proof (pad_bounds n). lia. }
  assert (Hocc : occupied layout = 32 + pad_to_align layout).
  { unfold occupied. by rewrite (proj2 (N.ltb_lt _ _) Hsmall). }
  assert (Hum' : (used a + occupied layout) mod 16 = 0).
  { rewrite Hocc, N.Div0.add_mod, Hum. rewrite (N.Div0.add_mod 32), Hpm. done. }
  split_and!; try done; [|lia|lia|].
  2:{ intros y Hy. eapply page_in_mapping; [done|]. unfold room, within in *.
      change HEADER_SIZE with 32 in Hy. lia. }
  split; cbn [pages mappings indices used count].
  - apply (shape_replace a i pg); try done. rewrite Hocc. lia.
  - intros y. rewrite (is_base_replace _ _ pg) by (done || rewrite Hocc; lia).
    rewrite lookup_insert_is_Some', (registered _ _ Ha).
    destruct (decide (page_base y = pointer pg)) as [E|E].
    + rewrite (base_pointer _ i pg _ Hs Hi E), Hbits. split.
      * intros [<-|[? ?]]; left; [|auto]. split; [done|]. split; [done|]. right. by rewrite Hxo.
      * intros [(_ & Hm & [Hy|Hy])|[? _]]; [by right| |done]. left.
        pose proof (page_base_le y). apply (same_bit (pointer pg)); try done; [lia|lia|].
        by rewrite Hxo.
    + split; [intros [<-|?]; [done|by right]|]. intros [[? _]|[_ ?]]; [done|by right].
  - intros y n j pgj Hy Hj Hpj. destruct (decide (x = y)) as [<-|Hxy].
    + rewrite lookup_insert_eq in Hy. injection Hy as <-.
      assert (j = i ∧ pgj = pg') as [-> ->].
      { destruct (decide (i = j)) as [<-|Hij].
        - rewrite get_insert_eq in Hj by (by eapply get_Some_lt). by injection Hj as <-.
        - rewrite get_insert_ne in Hj by done. rewrite Hbase in Hpj.
          by destruct (page_unique _ _ _ _ _ Hs Hi Hj Hpj). }
      rewrite Hp', Hxo. unfold limit. simpl. rewrite length_insert.
      rewrite (proj2 (N.eqb_eq _ _)) by (pose proof (get_Some_lt _ _ _ Hi); lia).
      change HEADER_SIZE with 32. rewrite Hocc. lia.
    + rewrite lookup_insert_ne in Hy by done. eapply (placed_replace a L i pg pg'); try done. lia.
  - intros y z n k Hy Hz Hyz. assert (Hfar : ∀ w m, L !! w = Some m →
      x + pad_to_align layout + 32 ≤ w ∨ w + pad_to_align m + 32 ≤ x).
    { intros w m Hw. destruct (proj1 (registered _ _ Ha w) ltac:(by eexists)) as (j & pgj & Hj & Hpj & _).
      destruct (placed _ _ Ha _ _ _ _ Hw Hj Hpj) as [H1 H2]. change HEADER_SIZE with 32 in H1.
      pose proof (page_base_le w) as Hwb. pose proof (limit_bound a j Hs).
      destruct (decide (pointer pgj = pointer pg)) as [E|E].
      - destruct (page_unique _ _ _ _ _ Hs Hj Hi E) as [-> ->]. unfold limit in H2.
        pose proof (get_Some_lt _ _ _ Hi) as Hlt. rewrite (proj2 (N.eqb_eq _ _)) in H2 by lia. lia.
      - destruct (page_shape _ Hs _ _ Hj) as [(_ & Hbj & _) _].
        destruct (pages_apart _ _ Hbj Hb E); lia. }
    change HEADER_SIZE with 32. rewrite !lookup_insert_Some in *.
    destruct Hy as [[<- <-]|[_ Hy]], Hz as [[<- <-]|[_ Hz]]; [done|by apply Hfar| |by apply (apart _ _ Ha)].
    destruct (Hfar _ _ Hy); lia.
  - rewrite (counted _ _ Ha), map_size_insert_None by done. lia.
Qed.

Section arena.
Context `{SystemSpec}.

(** What an arena may take: fresh mappings only. *)
Definition grows (ms ms' : list N) (s s' : Sys) : Prop :=
  (∀ x, mapped ms x → mapped ms' x) ∧
  (∀ x, mapped ms' x → mapped ms x ∨ ¬ in_use s x) ∧
  ∀ x, in_use s' x ↔ in_use s x ∨ mapped ms' x.

Lemma mappings_grow_refl ms s : (∀ x, mapped ms x → in_use s x) → grows ms ms s s.
Proof. intros Hin. split; [done|]. split; [by left|]. intros x. naive_solver. Qed.

Lemma mapped_snoc ms p x : mapped (ms ++ [p]) x ↔ mapped ms x ∨ within p SIZE x.
Proof.
  unfold mapped. split.
  - intros (m & [Hm|Hm%list_elem_of_singleton]%elem_of_app & Hx); [left; eauto|]. subst. by right.
  - intros [(m & Hm & Hx)|Hx]; [exists m|exists p]; rewrite elem_of_app, list_elem_of_singleton; auto.
Qed.

Lemma page_at_snoc ms p i b : page_at ms i b → page_at (ms ++ [p]) i b.
Proof. intros (m & Hm & ->). exists m. split; [by apply get_app_l|done]. Qed.

Lemma mappings_snoc ms p s s' :
  mappings_ok ms → (∀ x, mapped ms x → in_use s x) → map_pages s = Some (p, s') →
  mappings_ok (ms ++ [p]) ∧ grows ms (ms ++ [p]) s s'.
Proof.
  intros Hms Hin E. destruct (map_fresh _ _ _ E) as (Hm & Hne & Hfree & Huse).
  assert (Hap : ∀ k m, get ms k = Some m → m + SIZE ≤ p ∨ p + SIZE ≤ m).
  { intros k m Hk. destruct (decide (m + SIZE ≤ p)) as [?|H1]; [by left|]. right.
    destruct (decide (p + SIZE ≤ m)) as [?|H2]; [done|]. exfalso.
    apply (Hfree (N.max m p)); unfold within; [lia|]. apply Hin. exists m.
    split; [by eapply get_elem_of|]. unfold within. lia. }
  split; [split|split; [|split]].
  - intros k m [Hk|[-> ->]]%get_snoc_iff; [by eapply mapping_base|done].
  - intros k j m m' [Hk|[-> ->]]%get_snoc_iff [Hj|[-> ->]]%get_snoc_iff Hkj; [by eapply mapping_apart|..].
    + by eapply Hap.
    + specialize (Hap _ _ Hj). lia.
    + done.
  - intros x ?. apply mapped_snoc. by left.
  - intros x [?|?]%mapped_snoc; [by left|]. right. by apply Hfree.
  - intros x. rewrite Huse, mapped_snoc. naive_solver.
Qed.

Lemma add_page_spec a L s :
  arena_ok a L → (∀ x, mapped (mappings a) x → in_use s x) →
  runs (add_page a) s (λ a' s', arena_ok a' L ∧ pages a' ≠ [] ∧ used a' = 0 ∧
    grows (mappings a) (mappings a') s s').
Proof.
  intros Ha Hin. pose proof (shape _ _ Ha) as Hs. unfold runs, add_page.
  pose proof (mapping_count _ Hs) as Hc. unfold PAGES_PER_MAPPING in *.
  destruct (count_mappings (lengthN (pages a))) as (q & Hq & Hc' & [(Hm & Hc2)|(Hm & Hc2)]);
    rewrite Hc2 in Hc.
  - rewrite Hm. simpl. destruct (map_pages s) as [[p s']|] eqn:E; [|done]. simpl.
    rewrite last_snoc. simpl. rewrite N.mul_0_l, N.add_0_r.
    destruct (mappings_snoc _ _ _ _ (mappings_are _ Hs) Hin E) as [Hms Hg].
    split; [|split; [|done]]; [|simpl; by destruct (pages a)].
    apply arena_add; try done.
    + intros i b. apply page_at_snoc.
    + exists p. unfold PAGES_PER_MAPPING. rewrite Hm, Hq, get_snoc_iff, Hc.
      split; [by right|lia].
    + rewrite length_app. simpl. unfold PAGES_PER_MAPPING. rewrite Hc', <- Hc. lia.
  - rewrite (proj2 (N.eqb_neq _ _) Hm). simpl.
    destruct (last_get (mappings a)) as (m & -> & Hlast); [by intros E; rewrite E in Hc; simpl in Hc; lia|].
    simpl. split; [|split; [|split; [done|by apply mappings_grow_refl]]]; [|simpl; by destruct (pages a)].
    apply arena_add; try done; [apply Hs| |].
    + exists m. unfold PAGES_PER_MAPPING. split; [|done]. rewrite <- Hlast. f_equal. lia.
    + unfold PAGES_PER_MAPPING. lia.
Qed.

Lemma arena_allocate_spec layout a L s :
  arena_ok a L → (∀ x, mapped (mappings a) x → in_use s x) →
  0 < layout → layout < LARGE_OBJECT_THRESHOLD →
  runs (allocate layout a) s (λ '(p, a') s',
    arena_ok a' (<[p := layout]> L) ∧ L !! p = None ∧ grows (mappings a) (mappings a') s s' ∧
    p mod 16 = 0 ∧ p ≠ 0 ∧ HEADER_SIZE ≤ p ∧ ∀ y, room p layout y → mapped (mappings a') y).
Proof.
  intros Ha Hin Hpos Hsmall. unfold allocate. apply runs_bind.
  apply (runs_mono _ _ (λ a' s', arena_ok a' L ∧ pages a' ≠ [] ∧
    used a' + occupied layout ≤ PAGE_SIZE ∧ grows (mappings a) (mappings a') s s')).
  - assert (Hocc : occupied layout ≤ PAGE_SIZE).
    { unfold occupied. rewrite (proj2 (N.ltb_lt _ _) Hsmall). pose proof (pad_bounds layout).
      change LARGE_OBJECT_THRESHOLD with 65536 in *. change HEADER_SIZE with 32.
      change PAGE_SIZE with 262144. lia. }
    destruct (_ || _) eqn:E.
    + eapply runs_mono; [by apply add_page_spec|]. intros a' s' (? & ? & -> & ?). by split_and!.
    + apply orb_false_iff in E as [E1 E2]. apply Nat.eqb_neq in E1. apply N.ltb_ge in E2.
      apply runs_ret. split_and!; [done| |done|by apply mappings_grow_refl]. by destruct (pages a).
  - intros a' s' (Ha' & Hne & Hroom & Hg). clear Ha.
    destruct (bump_spec layout a' L) as (p & a2 & Hb & ? & ? & Em & ? & ? & ? & ?); [done..|].
    rewrite Em in *. unfold runs, lift, mbind, St_bind. simpl. revert Hb. unfold bump.
    destruct (or_panic _ _) as [pg| | |]; simpl; try done.
    destruct (set_bit _ _) as [pg2| | |]; simpl; try done.
    destruct (set_or_panic _ _ _) as [pgs| | |]; simpl; try done.
    intros [= <- <-]. by split_and!.
Qed.
End arena.
