(* ===== verification/ObjectFacts.v ===== *)
(** The object table is a finite map from base addresses to allocations whose storage is
    apart. *)

From S2P Require Import Prelude Effects Memory Arena ArenaFacts.

(** ** Small and large objects *)

Definition is_small (al : Allocation) : Prop := al_size al < LARGE_OBJECT_THRESHOLD.

#[export] Instance is_small_dec al : Decision (is_small al).
Proof. unfold is_small. apply _. Defined.

(** The addresses and layouts of the objects that the arena holds. *)
Definition small_objects (M : gmap N Allocation) : gmap N N :=
  al_size <$> filter (λ p, is_small p.2) M.

Lemma small_lookup M x n :
  small_objects M !! x = Some n ↔ ∃ al, M !! x = Some al ∧ is_small al ∧ al_size al = n.
Proof.
  unfold small_objects. rewrite lookup_fmap_Some. split.
  - intros (al & <- & [? ?]%map_lookup_filter_Some). by exists al.
  - intros (al & ? & ? & <-). exists al. split; [done|]. by apply map_lookup_filter_Some.
Qed.

Lemma small_insert M x al :
  is_small al → small_objects (<[x := al]> M) = <[x := al_size al]> (small_objects M).
Proof. intros Hs. unfold small_objects. by rewrite map_filter_insert_True, fmap_insert. Qed.

Lemma small_insert_large M x al :
  ¬ is_small al → M !! x = None → small_objects (<[x := al]> M) = small_objects M.
Proof.
  intros Hs Hx. unfold small_objects. by rewrite map_filter_insert_not' by naive_solver.
Qed.

Lemma small_delete M x : small_objects (delete x M) = delete x (small_objects M).
Proof. unfold small_objects. by rewrite map_filter_delete, fmap_delete. Qed.

Lemma small_alter M x f :
  (∀ al, al_size (f al) = al_size al) → small_objects (alter f x M) = small_objects M.
Proof.
  intros Hf. apply map_eq. intros y. apply option_eq. intros n. rewrite !small_lookup.
  destruct (decide (x = y)) as [<-|Hne].
  - rewrite lookup_alter_eq. split.
    + intros (al & (al' & Hal & ->)%fmap_Some & Hs & <-). exists al'. unfold is_small in *.
      by rewrite Hf in *.
    + intros (al & Hal & Hs & <-). exists (f al). unfold is_small in *. rewrite Hf, Hal. done.
  - by rewrite lookup_alter_ne.
Qed.

(** The bytes of an object. *)
Definition extent (x : N) (al : Allocation) (y : N) : Prop := within x (al_size al) y.

(** The table holds the objects [M]. *)
Record objects_ok (o : Objects) (M : gmap N Allocation) : Prop := {
  o_arena : arena_ok (arena o) (small_objects M);
  o_large x al : large o !! x = Some al ↔ M !! x = Some al ∧ ¬ is_small al;
  o_header x al : M !! x = Some al → is_small al → headers o !! (x - HEADER_SIZE) = Some al;
  o_block x al : M !! x = Some al → x mod 16 = 0 ∧ x ≠ 0 ∧ 0 < al_size al;
  o_outside x al y : M !! x = Some al → ¬ is_small al → extent x al y →
    ¬ mapped (mappings (arena o)) y;
  o_apart x y al al' z : M !! x = Some al → M !! y = Some al' → ¬ is_small al → ¬ is_small al' →
    extent x al z → extent y al' z → x = y;
}.

(** The addresses that belong to a table. *)
Definition owned (o : Objects) (M : gmap N Allocation) (y : N) : Prop :=
  mapped (mappings (arena o)) y ∨ ∃ x al, M !! x = Some al ∧ ¬ is_small al ∧ extent x al y.

Section table.
Context {o : Objects} {M : gmap N Allocation} (Ho : objects_ok o M).

Lemma small_place x al :
  M !! x = Some al → is_small al →
  HEADER_SIZE ≤ x ∧ ∀ y, room x (al_size al) y → mapped (mappings (arena o)) y.
Proof.
  intros Hx Hs. pose proof (o_arena _ _ Ho) as Ha. pose proof (shape _ _ Ha) as Hsh.
  assert (Hl : small_objects M !! x = Some (al_size al)) by (apply small_lookup; eauto).
  destruct (proj1 (registered _ _ Ha x) ltac:(by eexists)) as (i & pg & Hi & Hp & _).
  destruct (placed _ _ Ha _ _ _ _ Hl Hi Hp) as [H1 H2].
  pose proof (limit_bound _ i Hsh). split; [lia|]. intros y Hy.
  destruct (page_shape _ Hsh _ _ Hi) as [_ Hat]. eapply page_in_mapping; [done|].
  unfold room, within in *. pose proof (page_base_le x). lia.
Qed.

Lemma small_extent x al y :
  M !! x = Some al → is_small al → extent x al y → mapped (mappings (arena o)) y.
Proof.
  intros Hx Hs Hy. destruct (small_place _ _ Hx Hs) as [Hle Hr]. apply Hr.
  unfold room, extent, within in *. pose proof (pad_bounds (al_size al)). lia.
Qed.

Lemma extent_owned x al y : M !! x = Some al → extent x al y → owned o M y.
Proof.
  intros Hx Hy. destruct (decide (is_small al)) as [Hs|Hs]; [left; by eapply small_extent|].
  right. eauto.
Qed.

(** No two objects share a byte. *)
Lemma extents_apart x y al al' z :
  M !! x = Some al → M !! y = Some al' → extent x al z → extent y al' z → x = y.
Proof.
  intros Hx Hy Hzx Hzy. destruct (decide (is_small al)) as [Hs|Hs], (decide (is_small al')) as [Hs'|Hs'].
  - destruct (decide (x = y)) as [?|Hne]; [done|]. exfalso.
    assert (Hlx : small_objects M !! x = Some (al_size al)) by (apply small_lookup; eauto).
    assert (Hly : small_objects M !! y = Some (al_size al')) by (apply small_lookup; eauto).
    pose proof (apart _ _ (o_arena _ _ Ho) _ _ _ _ Hlx Hly Hne) as Hap.
    pose proof (pad_bounds (al_size al)). pose proof (pad_bounds (al_size al')).
    unfold extent, within in *. lia.
  - exfalso. by eapply (o_outside _ _ Ho y al' z), (small_extent x al z).
  - exfalso. by eapply (o_outside _ _ Ho x al z), (small_extent y al' z).
  - by eapply (o_apart _ _ Ho).
Qed.

Lemma header_test x :
  header (arena o) x =
  Ok (al ← M !! x; if decide (is_small al) then Some (x - HEADER_SIZE) else None).
Proof.
  rewrite (header_spec _ _ _ (o_arena _ _ Ho)). f_equal.
  destruct (M !! x) as [al|] eqn:Hx; simpl.
  - apply decide_ext. split.
    + intros [n (al' & ? & ? & _)%small_lookup]. congruence.
    + intros Hs. exists (al_size al). apply small_lookup. eauto.
  - rewrite decide_False; [done|]. intros [n (al' & ? & _)%small_lookup]. congruence.
Qed.

Lemma large_lookup x : large o !! x = (al ← M !! x; if decide (is_small al) then None else Some al).
Proof.
  apply option_eq. intros al. rewrite (o_large _ _ Ho).
  destruct (M !! x) as [al'|]; simpl; [|naive_solver]. case_decide; naive_solver.
Qed.

Lemma get_object_spec x : get_object o x = Ok (M !! x).
Proof.
  unfold get_object. rewrite header_test. destruct (M !! x) as [al|] eqn:Hx; simpl.
  - case_decide as Hs; [by rewrite (o_header _ _ Ho _ _ Hx Hs)|].
    f_equal. by apply (o_large _ _ Ho).
  - f_equal. rewrite large_lookup, Hx. done.
Qed.

Lemma contains_key_spec x : contains_key o x = Ok (bool_decide (is_Some (M !! x))).
Proof.
  unfold contains_key. rewrite header_test. destruct (M !! x) as [al|] eqn:Hx; simpl.
  - case_decide as Hs; simpl; [done|]. rewrite large_lookup, Hx. simpl.
    by rewrite decide_False.
  - rewrite large_lookup, Hx. done.
Qed.

Lemma is_empty_spec : is_empty o = bool_decide (M = ∅).
Proof.
  unfold is_empty. rewrite (counted _ _ (o_arena _ _ Ho)). apply eq_true_iff_eq.
  rewrite andb_true_iff, !bool_decide_eq_true, N.eqb_eq. split.
  - intros [Hl Hs]. apply map_empty. intros x. destruct (M !! x) as [al|] eqn:Hx; [|done].
    destruct (decide (is_small al)) as [Hsm|Hsm].
    + assert (small_objects M !! x = Some (al_size al)) as E by (apply small_lookup; eauto).
      assert (size (small_objects M) = 0%nat) as E0 by lia.
      apply map_size_empty_inv in E0. by rewrite E0 in E.
    + assert (large o !! x = Some al) as E by (by apply (o_large _ _ Ho)). by rewrite Hl in E.
  - intros HM. split; [|by rewrite HM]. apply map_empty. intros x. by rewrite large_lookup, HM.
Qed.

(** Distinct small objects have distinct headers. *)
Lemma header_ne x y al al' :
  M !! x = Some al → is_small al → M !! y = Some al' → is_small al' → x ≠ y →
  x - HEADER_SIZE ≠ y - HEADER_SIZE.
Proof.
  intros Hx Hs Hy Hs' Hne. destruct (small_place _ _ Hx Hs), (small_place _ _ Hy Hs'). lia.
Qed.

(** What holds of a table after a change of one entry that keeps its layout. *)
Lemma objects_alter o' x f :
  (∀ al, al_size (f al) = al_size al) → arena o' = arena o →
  (∀ y al, large o' !! y = Some al ↔ alter f x M !! y = Some al ∧ ¬ is_small al) →
  (∀ y al, alter f x M !! y = Some al → is_small al →
    headers o' !! (y - HEADER_SIZE) = Some al) →
  objects_ok o' (alter f x M).
Proof.
  intros Hf Ea Hl Hh.
  assert (Hal : ∀ y al, alter f x M !! y = Some al → ∃ al', M !! y = Some al' ∧
    al_size al' = al_size al ∧ (is_small al' ↔ is_small al)).
  { intros y al [[<- (al' & -> & ?)]|[? ?]]%lookup_alter_Some; [|eauto]. subst.
    exists al'. unfold is_small. by rewrite Hf. }
  split; [|done|done|..]; rewrite ?Ea.
  - rewrite small_alter by done. apply Ho.
  - intros y al (al' & Hy & <- & _)%Hal. by eapply (o_block _ _ Ho).
  - intros y al z (al' & Hy & E & Hs)%Hal Hl' Hz. eapply (o_outside _ _ Ho y al'); [done|naive_solver|].
    unfold extent in *. by rewrite E.
  - intros y y2 al al2 z (al' & Hy & E & Hs)%Hal (al2' & Hy2 & E2 & Hs2)%Hal ? ? Hz Hz2.
    unfold extent in *. rewrite <- E in Hz. rewrite <- E2 in Hz2.
    eapply (o_apart _ _ Ho y y2 al' al2' z); naive_solver.
Qed.

(** A change through [get_mut]. *)
Lemma update_object_spec x f :
  (∀ al, al_size (f al) = al_size al) →
  ∃ o', update_object x f o = Ok o' ∧ objects_ok o' (alter f x M) ∧ arena o' = arena o.
Proof.
  intros Hf. unfold update_object. rewrite header_test. simpl. eexists. split; [done|].
  assert (Hsm : ∀ al, is_small (f al) ↔ is_small al) by (intros al; unfold is_small; by rewrite Hf).
  assert ((∃ al, M !! x = Some al ∧ is_small al) ∨ ∀ al, M !! x = Some al → ¬ is_small al)
    as [(al & Hx & Hs)|Hlarge].
  { destruct (M !! x) as [al|]; [|by right]. destruct (decide (is_small al)); [left; eauto|].
    right. by intros al' [= <-]. }
  - rewrite Hx. simpl. rewrite decide_True by done. split; [|done].
    apply objects_alter; try done; simpl.
    + intros y al'. rewrite large_lookup. destruct (decide (x = y)) as [<-|Hne].
      * rewrite lookup_alter_eq, Hx. simpl. rewrite decide_True by done.
        split; [done|]. intros [[= <-] Hns]. by rewrite Hsm in Hns.
      * rewrite lookup_alter_ne by done. rewrite <- large_lookup. apply (o_large _ _ Ho).
    + intros y al' [[<- (al2 & Hy & ->)]|[Hne Hy]]%lookup_alter_Some Hs'.
      * rewrite lookup_alter_eq, (o_header _ _ Ho _ _ Hy) by by rewrite <- Hsm. done.
      * rewrite lookup_alter_ne by by eapply header_ne. by apply (o_header _ _ Ho).
  - assert ((al ← M !! x; if decide (is_small al) then Some (x - HEADER_SIZE) else None) = None) as ->.
    { destruct (M !! x) as [al|] eqn:Hx; simpl; [|done]. rewrite decide_False; naive_solver. }
    split; [|done]. apply objects_alter; try done; simpl.
    + intros y al'. destruct (decide (x = y)) as [<-|Hne].
      * rewrite !lookup_alter_eq, large_lookup.
        destruct (M !! x) as [al|] eqn:Hx; simpl; [|naive_solver].
        rewrite decide_False by naive_solver. simpl. split; [|naive_solver].
        intros [= <-]. split; [done|]. rewrite Hsm. naive_solver.
      * rewrite !lookup_alter_ne by done. apply (o_large _ _ Ho).
    + intros y al' [[<- (al2 & Hy & ->)]|[Hne Hy]]%lookup_alter_Some Hs'.
      * rewrite Hsm in Hs'. naive_solver.
      * by apply (o_header _ _ Ho).
Qed.

(** The storage of a removed small object stays mapped; a large block is the caller's. *)
Lemma remove_object_spec x al :
  M !! x = Some al →
  ∃ o', remove_object x o = Ok (Some al, o') ∧ objects_ok o' (delete x M) ∧
    mappings (arena o') = mappings (arena o).
Proof.
  intros Hx. unfold remove_object. rewrite header_test, Hx. simpl.
  assert (Hok : ∀ o', mappings (arena o') = mappings (arena o) →
    arena_ok (arena o') (delete x (small_objects M)) → headers o' = headers o →
    (∀ y al', large o' !! y = Some al' ↔ delete x M !! y = Some al' ∧ ¬ is_small al') →
    objects_ok o' (delete x M)).
  { intros o' Em Ha Eh Hl. split; [|done|..]; rewrite ?Em, ?Eh.
    - by rewrite small_delete.
    - intros y al' [_ Hy]%lookup_delete_Some. by apply (o_header _ _ Ho).
    - intros y al' [_ Hy]%lookup_delete_Some. by apply (o_block _ _ Ho).
    - intros y al' z [_ Hy]%lookup_delete_Some. by apply (o_outside _ _ Ho).
    - intros y y' al1 al2 z [_ Hy]%lookup_delete_Some [_ Hy']%lookup_delete_Some.
      by apply (o_apart _ _ Ho). }
  case_decide as Hs.
  - destruct (unregister_spec _ _ x (al_size al) (o_arena _ _ Ho)) as (a' & -> & Ha' & Em).
    { apply small_lookup. eauto. }
    simpl. rewrite (o_header _ _ Ho _ _ Hx Hs). eexists. split; [done|]. split; [|done].
    apply Hok; try done. simpl. intros y al'. rewrite (o_large _ _ Ho), lookup_delete_Some.
    naive_solver.
  - assert (Hl : large o !! x = Some al) by by apply (o_large _ _ Ho). rewrite Hl.
    eexists. split; [done|]. split; [|done]. apply Hok; try done; simpl.
    + rewrite delete_id; [apply Ho|]. apply eq_None_not_Some.
      intros [n (al' & ? & ? & _)%small_lookup]. congruence.
    + intros y al'. rewrite !lookup_delete_Some, (o_large _ _ Ho). naive_solver.
Qed.
End table.

(** ** New objects *)

Section insert.
Context {o : Objects} {M : gmap N Allocation} (Ho : objects_ok o M).

(** Publishing what the arena just gave out. *)
Lemma insert_small a' p al :
  is_small al → 0 < al_size al → M !! p = None → p mod 16 = 0 → p ≠ 0 → HEADER_SIZE ≤ p →
  arena_ok a' (<[p := al_size al]> (small_objects M)) →
  (∀ x, mapped (mappings (arena o)) x → mapped (mappings a') x) →
  (∀ x, mapped (mappings a') x → mapped (mappings (arena o)) x ∨ ¬ owned o M x) →
  ∃ o', insert_object p al (mkObjects (large o) a' (headers o)) = Ok o' ∧
    objects_ok o' (<[p := al]> M) ∧ arena o' = a'.
Proof.
  intros Hs Hpos Hp Hm Hne Hle Ha Hgrow Hfresh. unfold insert_object. simpl.
  rewrite (header_spec _ _ _ Ha). rewrite decide_True by (rewrite lookup_insert_eq; eauto). simpl.
  eexists. split; [done|]. split; [|done]. split; simpl.
  - by rewrite small_insert.
  - intros x al'. rewrite (o_large _ _ Ho), lookup_insert_Some. naive_solver.
  - intros x al' [[<- <-]|[Hx Hx']]%lookup_insert_Some Hs'; [by rewrite lookup_insert_eq|].
    destruct (small_place Ho _ _ Hx' Hs'). rewrite lookup_insert_ne by lia.
    by apply (o_header _ _ Ho).
  - intros x al' [[<- <-]|[_ Hx']]%lookup_insert_Some; [done|]. by apply (o_block _ _ Ho).
  - intros x al' y [[<- <-]|[_ Hx']]%lookup_insert_Some Hl Hy Hmap; [done|].
    destruct (Hfresh _ Hmap) as [Hold|Hold]; [by eapply (o_outside _ _ Ho)|].
    by apply Hold, (extent_owned Ho x al').
  - intros x y al1 al2 z [[<- <-]|[_ Hx]]%lookup_insert_Some [[<- <-]|[_ Hy]]%lookup_insert_Some;
      try done. by apply (o_apart _ _ Ho).
Qed.

(** Publishing a block of its own. *)
Lemma insert_large p al :
  ¬ is_small al → M !! p = None → p mod 16 = 0 → p ≠ 0 →
  (∀ x, extent p al x → ¬ owned o M x) →
  ∃ o', insert_object p al o = Ok o' ∧ objects_ok o' (<[p := al]> M) ∧ arena o' = arena o.
Proof.
  intros Hs Hp Hm Hne Hfresh. unfold insert_object.
  rewrite (header_test Ho), Hp. simpl. eexists. split; [done|]. split; [|done]. split; simpl.
  - rewrite small_insert_large by done. apply Ho.
  - intros x al'. rewrite !lookup_insert_Some, (o_large _ _ Ho). naive_solver.
  - intros x al' [[<- <-]|[_ Hx']]%lookup_insert_Some Hs'; [done|]. by apply (o_header _ _ Ho).
  - intros x al' [[<- <-]|[_ Hx']]%lookup_insert_Some; [|by apply (o_block _ _ Ho)].
    split_and!; try done. unfold is_small in Hs. change LARGE_OBJECT_THRESHOLD with 65536 in Hs. lia.
  - intros x al' y [[<- <-]|[_ Hx']]%lookup_insert_Some Hl Hy Hmap.
    + apply (Hfresh _ Hy). by left.
    + by eapply (o_outside _ _ Ho).
  - assert (Hnew : ∀ y al2 z, M !! y = Some al2 → ¬ is_small al2 → extent p al z → ¬ extent y al2 z).
    { intros y al2 z Hy Hs2 Hz Hz2. apply (Hfresh _ Hz). right. eauto. }
    intros x y al1 al2 z [[<- <-]|[_ Hx]]%lookup_insert_Some [[<- <-]|[_ Hy]]%lookup_insert_Some
      Hs1 Hs2 Hz1 Hz2; [done| | |by eapply (o_apart _ _ Ho)]; exfalso; by eapply Hnew.
Qed.
End insert.

Lemma no_objects_ok : objects_ok no_objects ∅.
Proof.
  assert (small_objects ∅ = ∅) as E by (unfold small_objects; by rewrite map_filter_empty, fmap_empty).
  split; simpl.
  - rewrite E. apply empty_arena_ok.
  - intros x al. rewrite !lookup_empty. naive_solver.
  - intros x al. by rewrite lookup_empty.
  - intros x al. by rewrite lookup_empty.
  - intros x al y. by rewrite lookup_empty.
  - intros x y al al' z. by rewrite lookup_empty.
Qed.
