(* ===== verification/Heap.v ===== *)
(** The garbage-collected heap of [compiler/runtime/src/lib.rs]: storage, root frames,
    tracing and collection, over byte-addressed memory. Registrations of other parts that do
    not keep objects alive (list views and locks) are relocated at the end of a collection. *)

From S2P Require Import Prelude Effects Memory Arena.

(** ** Code of tracers *)

(** [trace_pointer], [trace_bytes], [trace_list], or a tracer of generated code: the fields
    that it visits, by their offsets, as the value at its argument says. *)
Inductive Tracer :=
  | trace_pointer_code
  | trace_bytes_code
  | trace_list_code
  | generated (width : N) (offsets : (N → byte) → list N).

(** What the linker put at an address. *)
Class Code := tracer_at : N → option Tracer.

(** The [Locks] of [shared_access.rs]; a lock is its identity. *)
Abbreviation Locks := (gmap N N) (only parsing).

Section heap.
Context `{System} `{Code}.

Record ListView := mkListView { source : N; removed : N; start : N; end_ : N }.

(** The intrusive list of root frames is a list, its head first. *)
Record RootFrame := mkRootFrame { frame : N; roots : N; root_count : N }.

(** [bytes] is a number without a bound here: the heap's blocks are disjoint pieces of the
    address space, whose sizes add up to less than [2 ^ 64], so that neither the sum of an
    allocation nor the saturating one of its threshold test overflows. *)
Record Heap := mkHeap {
  objects : Objects;
  previous : Objects;
  collecting : bool;
  work : list (N * N);
  bytes : N;
  threshold : N;
  stress : bool;
  list_views : list ListView;
  access : Locks;
  mutexes : Locks;
}.

Definition default_heap (stress : bool) : Heap :=
  mkHeap no_objects no_objects false [] 0 MIN_THRESHOLD stress [] ∅ ∅.

Record World := mkWorld {
  heap : Heap;
  memory : Memory;
  sys : Sys;
  ROOTS : list RootFrame;
}.

(** ** Access to the state *)

Definition set_heap (f : Heap → Heap) (w : World) : World :=
  mkWorld (f (heap w)) (memory w) (sys w) (ROOTS w).
Definition set_memory (f : Memory → Memory) (w : World) : World :=
  mkWorld (heap w) (f (memory w)) (sys w) (ROOTS w).

Definition with_objects (o : Objects) (h : Heap) : Heap :=
  mkHeap o (previous h) (collecting h) (work h) (bytes h) (threshold h) (stress h)
    (list_views h) (access h) (mutexes h).
Definition with_previous (o : Objects) (h : Heap) : Heap :=
  mkHeap (objects h) o (collecting h) (work h) (bytes h) (threshold h) (stress h)
    (list_views h) (access h) (mutexes h).
Definition with_work (l : list (N * N)) (h : Heap) : Heap :=
  mkHeap (objects h) (previous h) (collecting h) l (bytes h) (threshold h) (stress h)
    (list_views h) (access h) (mutexes h).
Definition with_bytes (n : N) (h : Heap) : Heap :=
  mkHeap (objects h) (previous h) (collecting h) (work h) n (threshold h) (stress h)
    (list_views h) (access h) (mutexes h).
Definition with_weak (views : list ListView) (a m : Locks) (h : Heap) : Heap :=
  mkHeap (objects h) (previous h) (collecting h) (work h) (bytes h) (threshold h) (stress h)
    views a m.

Definition on_sys {A} (m : St Sys A) : St World A := λ w,
  '(a, s) ← m (sys w); Ok (a, mkWorld (heap w) (memory w) s (ROOTS w)).

Definition fatal {A} (message : string) : St World A := λ _, Panic message.

Definition read_word (a : N) : St World N := reads (λ w, load (memory w) a).
Definition write_word (a v : N) : St World () := edits (set_memory (store a v)).

Definition saturating_add (a b : N) : N := N.min (a + b) usize_max.
Definition saturating_mul (a b : N) : N := N.min (a * b) usize_max.

(** ** Storage *)

Definition storage (layout : N) (zeroed : bool) : St World N :=
  pointer ←
    (if layout <? LARGE_OBJECT_THRESHOLD
     then
       o ← reads (λ w, objects (heap w));
       '(pointer, arena) ← on_sys (allocate layout (arena o));
       edits (set_heap (with_objects (mkObjects (large o) arena (headers o)))) ;;
       mret pointer
     else on_sys (λ s, or_panic (alloc layout s) out_of_memory));
  (if zeroed then edits (set_memory (fill pointer layout x00)) else mret tt) ;;
  mret pointer.

(** [Layout::from_size_align(size.max(1), 16)]; a size that overflows a layout is a fault of
    the program, which it can catch, and nothing has changed by then. *)
Definition layout_of (size : N) : outcome N :=
  if isize_max - 15 <? N.max size 1 then Err "allocation size overflow" else Ok (N.max size 1).

(** What follows [storage]: the accounting and the entry of the new object. *)
Definition publish (pointer layout : N) (trace : option N) : St World () :=
  edits (set_heap (λ h, with_bytes (bytes h + occupied layout) h)) ;;
  o ← reads (λ w, objects (heap w));
  o ← lift (insert_object pointer (mkAllocation layout trace 0) o);
  edits (set_heap (with_objects o)).

(** ** Root frames *)

Definition loom_rt_roots_enter (f entries count : N) : St World () :=
  edits (λ w, mkWorld (heap w) (memory w) (sys w) (mkRootFrame f entries count :: ROOTS w)).

Definition loom_rt_roots_leave (f : N) : St World () :=
  frames ← reads ROOTS;
  match frames with
  | top :: rest =>
      if frame top =? f
      then edits (λ w, mkWorld (heap w) (memory w) (sys w) rest)
      else fatal "invalid GC root frame order"
  | [] => fatal "invalid GC root frame order"
  end.

(** ** Relocation *)

Definition loom_rt_visit (pointer : N) : St World N :=
  h ← reads heap;
  let retain_large := negb (stress h) in
  object ← lift (get_object (previous h) pointer);
  match object with
  | None => mret pointer
  | Some object =>
      if negb (al_forwarded object =? 0) then mret (al_forwarded object)
      else
        let layout := al_size object in
        let trace := al_trace object in
        moved ←
          (if retain_large && (LARGE_OBJECT_THRESHOLD <=? layout) then mret pointer
           else
             moved ← storage layout false;
             edits (set_memory (copy pointer moved layout)) ;;
             mret moved);
        o ← reads (λ w, previous (heap w));
        o ← lift (update_object pointer
              (λ al, mkAllocation (al_size al) (al_trace al) moved) o);
        edits (set_heap (with_previous o)) ;;
        publish moved layout trace ;;
        match trace with
        | Some trace => edits (set_heap (λ h, with_work ((moved, trace) :: work h) h))
        | None => mret tt
        end ;;
        mret moved
  end.

(** ** Tracing *)

Definition trace_pointer (address : N) : St World () :=
  pointer ← read_word address;
  moved ← loom_rt_visit pointer;
  write_word address moved.

Fixpoint trace_pointers (addresses : list N) : St World () :=
  match addresses with
  | [] => mret tt
  | address :: addresses => trace_pointer address ;; trace_pointers addresses
  end.

(** The fields of [Buffer] and [List] by their offsets. *)
Definition buffer_len : N := 0.
Definition buffer_cap : N := 8.
Definition buffer_data : N := 16.
Definition list_stride : N := 24.
Definition list_trace_element : N := 32.
Definition list_watched : N := 40.
Definition BUFFER_SIZE : N := 24.
Definition LIST_SIZE : N := 48.

Definition trace_bytes (pointer : N) : St World () := trace_pointer (pointer + buffer_data).

(** [for index in i..i + n] *)
Fixpoint for_range (n : nat) (i : N) (body : N → St World ()) : St World () :=
  match n with
  | O => mret tt
  | S n => body i ;; for_range n (i + 1) body
  end.

Definition trace_list (call : N → N → St World ()) (list : N) : St World () :=
  trace_pointer (list + buffer_data) ;;
  trace ← read_word (list + list_trace_element);
  if trace =? 0 then mret tt
  else
    len ← read_word (list + buffer_len);
    for_range (N.to_nat len) 0 (λ index,
      data ← read_word (list + buffer_data);
      stride ← read_word (list + list_stride);
      call trace (data + index * stride)).

(** A call through a function pointer. Lists call the tracer of their elements, which are
    values: the calls nest twice. *)
Fixpoint call_tracer (depth : nat) (trace address : N) : St World () :=
  match depth with
  | O => stuck
  | S depth =>
      match tracer_at trace with
      | Some trace_pointer_code => trace_pointer address
      | Some trace_bytes_code => trace_bytes address
      | Some trace_list_code => trace_list (call_tracer depth) address
      | Some (generated _ offsets) =>
          m ← reads memory;
          trace_pointers (map (N.add address) (offsets (λ i, m (address + i))))
      | None => fatal "call of no function"
      end
  end.

Definition call : N → N → St World () := call_tracer 2.

(** ** Collection *)

(** The active entries of a frame; each is an address and a tracer. *)
Definition trace_root (entries index : N) : St World () :=
  address ← read_word (entries + index * 16);
  trace ← read_word (entries + index * 16 + 8);
  if address =? 0 then mret tt else call trace address.

Fixpoint trace_frames (frames : list RootFrame) : St World () :=
  match frames with
  | [] => mret tt
  | active :: frames =>
      for_range (N.to_nat (root_count active)) 0 (trace_root (roots active)) ;;
      trace_frames frames
  end.

Fixpoint trace_chains (chains : list (list RootFrame)) : St World () :=
  match chains with
  | [] => mret tt
  | frames :: chains => trace_frames frames ;; trace_chains chains
  end.

(** Every object is pushed once: the fuel is their number and one more. *)
Fixpoint trace_work (fuel : nat) : St World () :=
  match fuel with
  | O => stuck
  | S fuel =>
      items ← reads (λ w, work (heap w));
      match items with
      | [] => mret tt
      | (pointer, trace) :: items =>
          edits (set_heap (with_work items)) ;;
          call trace pointer ;;
          trace_work fuel
      end
  end.

Definition object_count (o : Objects) : nat := size (large o) + N.to_nat (count (arena o)).

(** [shared_access::relocate] *)
Definition forwarded (previous : Objects) (address : N) : outcome N :=
  object ← get_object previous address;
  Ok (match object with Some object => al_forwarded object | None => 0 end).

Fixpoint relocate_entries (previous : Objects) (old : list (N * N)) (locks : Locks)
    : outcome Locks :=
  match old with
  | [] => Ok locks
  | (address, lock) :: old =>
      moved ← forwarded previous address;
      relocate_entries previous old (if moved =? 0 then locks else <[moved := lock]> locks)
  end.

Definition relocate (previous : Objects) (locks : Locks) : outcome Locks :=
  relocate_entries previous (map_to_list locks) ∅.

(** Views lose their mark, and get it back with their new addresses. *)
Fixpoint unwatch (previous : Objects) (views : list ListView) : St World () :=
  match views with
  | [] => mret tt
  | view :: views =>
      moved ← lift (forwarded previous (source view));
      (if moved =? 0 then mret tt else write_word (moved + list_watched) 0) ;;
      unwatch previous views
  end.

Fixpoint retain_views (previous : Objects) (views : list ListView) : St World (list ListView) :=
  match views with
  | [] => mret []
  | view :: views =>
      source ← lift (forwarded previous (source view));
      removed ← lift (forwarded previous (removed view));
      if (source =? 0) || (removed =? 0) then retain_views previous views
      else
        write_word (source + list_watched) 1 ;;
        views ← retain_views previous views;
        mret (mkListView source removed (start view) (end_ view) :: views)
  end.

(** Large blocks that were not kept in place. *)
Definition free_large (o : Objects) (s : Sys) : Sys :=
  foldl (λ s p, if individually_owned p.2 && negb (al_forwarded p.2 =? p.1)
                then dealloc p.1 (al_size p.2) s else s) s (map_to_list (large o)).

Definition begin_collection : St World () :=
  h ← reads heap;
  if collecting h then fatal "recursive GC collection"
  else edits (set_heap (λ h, mkHeap (previous h) (objects h) true [] 0 (threshold h) (stress h)
         (list_views h) (access h) (mutexes h))).

Definition end_collection : St World () :=
  h ← reads heap;
  let o := previous h in
  locks ← lift (relocate o (access h));
  held ← lift (relocate o (mutexes h));
  unwatch o (list_views h) ;;
  views ← retain_views o (list_views h);
  edits (set_heap (with_weak views locks held)) ;;
  on_sys (edits (free_large o)) ;;
  o ← on_sys (clear_objects o);
  edits (set_heap (λ h, mkHeap (objects h) o false (work h) (bytes h)
    (N.max (saturating_mul (bytes h) 2) MIN_THRESHOLD) (stress h)
    (list_views h) (access h) (mutexes h))).

Definition collect_roots (chains : list (list RootFrame)) : St World () :=
  begin_collection ;;
  trace_chains chains ;;
  o ← reads (λ w, previous (heap w));
  trace_work (S (object_count o)) ;;
  end_collection.

(** [shared_heap::collect] without a shared heap. *)
Definition loom_rt_collect : St World () :=
  frames ← reads ROOTS;
  collect_roots [frames].

(** ** Allocation *)

Definition allocate_storage (size : N) (trace : option N) (zeroed : bool) : St World N :=
  layout ← lift (layout_of size);
  h ← reads heap;
  if collecting h then fatal "allocation during GC tracing"
  else
    (if stress h || (threshold h <=? saturating_add (bytes h) (occupied layout))
     then loom_rt_collect else mret tt) ;;
    pointer ← storage layout zeroed;
    publish pointer layout trace ;;
    mret pointer.

Definition loom_rt_box_new (size : N) (trace : option N) : St World N :=
  allocate_storage size trace true.

(** [Drop for Heap]: large blocks of both tables, but not the old entries that were kept;
    then the mappings of both arenas are dropped. *)
Definition drop_heap (h : Heap) (s : Sys) : Sys :=
  let s := foldl (λ s p, if individually_owned p.2 then dealloc p.1 (al_size p.2) s else s) s
             (map_to_list (large (objects h))) in
  let s := free_large (previous h) s in
  let s := foldl (λ s p, unmap_pages p s) s (mappings (arena (objects h))) in
  foldl (λ s p, unmap_pages p s) s (mappings (arena (previous h))).
End heap.
