(* ===== verification/Reach.v ===== *)
(** What a collection is about, stated apart from it: the windows of memory that tracers
    look at and the slots in them, reachability, and heaps that are well formed. *)

From S2P Require Import Prelude Effects Memory Arena ArenaFacts ObjectFacts Heap.

(** Generated tracers visit aligned fields of their value, each once, and choose them without
    looking at the pointers. *)
Class CodeSpec `{Code} := {
  width_positive t w offsets : tracer_at t = Some (generated w offsets) → 0 < w;
  offsets_inside t w offsets v : tracer_at t = Some (generated w offsets) →
    NoDup (offsets v) ∧ Forall (λ o, o mod 8 = 0 ∧ o + 8 ≤ w) (offsets v);
  offsets_stable t w offsets v v' : tracer_at t = Some (generated w offsets) →
    (∀ i, i < w → (∀ o, o ∈ offsets v → ¬ within o 8 i) → v i = v' i) →
    offsets v' = offsets v;
}.

(** The bytes that one tracing step looks at, and the slots it rewrites. *)
Record Window := mkWindow { w_at : N; w_len : N; w_slots : list N }.

Section reach.
Context `{Code}.

Definition value_window (m : Memory) (t a : N) : option Window :=
  match tracer_at t with
  | Some trace_pointer_code => Some (mkWindow a 8 [a])
  | Some (generated w offsets) =>
      Some (mkWindow a w (map (N.add a) (offsets (λ i, m (a + i)))))
  | _ => None
  end.

(** The elements of the list at [p]. *)
Definition element_at (m : Memory) (p : N) (i : nat) : N :=
  load m (p + buffer_data) + N.of_nat i * load m (p + list_stride).

Definition elements (m : Memory) (p : N) : list Window :=
  let t := load m (p + list_trace_element) in
  if t =? 0 then []
  else omap (λ i, value_window m t (element_at m p i)) (seq 0 (N.to_nat (load m (p + buffer_len)))).

Definition windows (m : Memory) (t p : N) : list Window :=
  match tracer_at t with
  | Some trace_bytes_code => [mkWindow p BUFFER_SIZE [p + buffer_data]]
  | Some trace_list_code => mkWindow p LIST_SIZE [p + buffer_data] :: elements m p
  | _ => option_list (value_window m t p)
  end.

(** Tracing starts at objects and at root entries. *)
Definition source_windows (m : Memory) (M : gmap N Allocation) (entries : list (N * N))
    (g : N + nat) : list Window :=
  match g with
  | inl p =>
      match M !! p with
      | Some al => match al_trace al with Some t => windows m t p | None => [] end
      | None => []
      end
  | inr k => match entries !! k with Some (a, t) => option_list (value_window m t a) | None => [] end
  end.

Definition is_slot m M entries (g : N + nat) (s : N) : Prop :=
  ∃ wd, wd ∈ source_windows m M entries g ∧ s ∈ w_slots wd.

(** Objects that the program can still get at: through the slots of root entries and of
    reachable objects. Words that are no base of an object lead nowhere. *)
Inductive reachable (m : Memory) (M : gmap N Allocation) (entries : list (N * N)) : N → Prop :=
  | reach_root k s :
      is_slot m M entries (inr k) s → is_Some (M !! load m s) →
      reachable m M entries (load m s)
  | reach_slot p s :
      reachable m M entries p → is_slot m M entries (inl p) s → is_Some (M !! load m s) →
      reachable m M entries (load m s).

(** A relocation, applied to a word that may be a pointer. *)
Definition relocated (F : gmap N N) (v : N) : N := default v (F !! v).

Definition overlap (wd wd' : Window) : Prop :=
  ∃ x, within (w_at wd) (w_len wd) x ∧ within (w_at wd') (w_len wd') x.

Context `{SystemSpec}.

(** Memory that is in use for other things than objects. *)
Definition outside (s : Sys) (o : Objects) (M : gmap N Allocation) (x : N) : Prop :=
  in_use s x ∧ ¬ owned o M x.

Definition inside (M : gmap N Allocation) (b : N) (wd : Window) : Prop :=
  ∃ al, M !! b = Some al ∧ b ≤ w_at wd ∧ w_at wd + w_len wd ≤ b + al_size al.

Definition started_at (g : N + nat) (M : gmap N Allocation) m (entries : list (N * N)) : Prop :=
  match g with inl p => reachable m M entries p | inr _ => True end.

(** The heap [o] with its objects [M] and the memory [m], as a collection from the root
    entries finds them. *)
Record heap_wf (s : Sys) (o : Objects) (M : gmap N Allocation) (m : Memory)
    (entries : list (N * N)) : Prop := {
  wf_table : objects_ok o M;
  wf_owned x : owned o M x → in_use s x;
  wf_unmoved p al : M !! p = Some al → al_forwarded al = 0;
  (** Values lie in their object, and so do headers of buffers and lists. *)
  wf_value p al t : reachable m M entries p → M !! p = Some al → al_trace al = Some t →
    is_Some (tracer_at t) ∧ ∀ wd, head (windows m t p) = Some wd → inside M p wd;
  (** The elements of a list are values in an object that holds the list's storage. *)
  wf_list p al t : reachable m M entries p → M !! p = Some al → al_trace al = Some t →
    tracer_at t = Some trace_list_code →
    load m (p + list_trace_element) ≠ 0 → ∀ i, N.of_nat i < load m (p + buffer_len) →
    element_at m p i mod 8 = 0 ∧
    ∃ wd, value_window m (load m (p + list_trace_element)) (element_at m p i) = Some wd ∧
      inside M (load m (p + buffer_data)) wd;
  wf_root k a t : entries !! k = Some (a, t) → a mod 8 = 0 ∧ a ≠ 0 ∧
    ∃ wd, value_window m t a = Some wd ∧ ∀ x, within (w_at wd) (w_len wd) x → outside s o M x;
  (** Words in slots are bases of objects, null, or addresses outside the heap. *)
  wf_word g p : started_at g M m entries → is_slot m M entries g p →
    is_Some (M !! load m p) ∨ load m p = 0 ∨ outside s o M (load m p);
  (** No two tracing steps look at the same byte. *)
  wf_apart g g' i j wd wd' :
    started_at g M m entries → started_at g' M m entries →
    source_windows m M entries g !! i = Some wd →
    source_windows m M entries g' !! j = Some wd' → overlap wd wd' → g = g' ∧ i = j;
}.

(** The cells of the root arrays, and the entries in them that are active. *)
Definition frame_cells (f : RootFrame) : list N :=
  map (λ i, roots f + N.of_nat i * 16) (seq 0 (N.to_nat (root_count f))).

Definition root_cells (chains : list (list RootFrame)) : list N :=
  concat (map (λ frames, concat (map frame_cells frames)) chains).

Definition active (m : Memory) (cell : N) : option (N * N) :=
  if load m cell =? 0 then None else Some (load m cell, load m (cell + 8)).

Definition root_entries (m : Memory) (chains : list (list RootFrame)) : list (N * N) :=
  omap (active m) (root_cells chains).

(** No tracer looks at the root arrays. *)
Definition cells_apart (s : Sys) (o : Objects) (M : gmap N Allocation) (m : Memory)
    (chains : list (list RootFrame)) : Prop :=
  ∀ cell x, cell ∈ root_cells chains → within cell 16 x → outside s o M x ∧
    ∀ g wd, started_at g M m (root_entries m chains) →
      wd ∈ source_windows m M (root_entries m chains) g → ¬ within (w_at wd) (w_len wd) x.
End reach.
