(* ===== verification/CollectInv.v ===== *)
(** The invariant of a collection: what has been forwarded, which slots hold relocated words,
    and where the bytes of the old heap are to be found. *)

From S2P Require Import Prelude Effects Memory Arena ArenaFacts ObjectFacts Heap Reach.

(** An old object's entry while [F] says where it went, and the entry of its new place. *)
Definition forward (F : gmap N N) (M : gmap N Allocation) : gmap N Allocation :=
  map_imap (λ p al, Some (mkAllocation (al_size al) (al_trace al) (default 0 (F !! p)))) M.

Definition renew (al : Allocation) : Allocation := mkAllocation (al_size al) (al_trace al) 0.

Definition total (M : gmap N Allocation) : N :=
  map_fold (λ _ al n, occupied (al_size al) + n) 0 M.

Lemma total_insert M x al : M !! x = None → total (<[x := al]> M) = occupied (al_size al) + total M.
Proof. intros Hx. unfold total. rewrite map_fold_insert_L; [done| |done]. intros. lia. Qed.

Lemma forward_lookup F M p :
  forward F M !! p =
  (λ al, mkAllocation (al_size al) (al_trace al) (default 0 (F !! p))) <$> M !! p.
Proof. unfold forward. rewrite map_lookup_imap. by destruct (M !! p). Qed.

Lemma forward_insert F M p q :
  forward (<[p := q]> F) M =
  alter (λ al, mkAllocation (al_size al) (al_trace al) q) p (forward F M).
Proof.
  apply map_eq. intros x. rewrite forward_lookup. destruct (decide (p = x)) as [<-|Hne].
  - rewrite lookup_alter_eq, forward_lookup, lookup_insert_eq. by destruct (M !! p).
  - by rewrite lookup_alter_ne, forward_lookup, lookup_insert_ne by done.
Qed.

(** What a collection has done so far. *)
Record Progress := mkProgress {
  moves : gmap N N; (* where objects went *)
  table : gmap N Allocation; (* the new objects *)
  done_ : gset N; (* old addresses of the slots that are finished *)
  queue : list N; (* old addresses of the objects that are to be traced *)
}.

Section inv.
Context `{CodeSpec} `{SystemSpec}.
Context (s0 : Sys) (o0 : Objects) (M : gmap N Allocation) (m0 : Memory) (entries : list (N * N)).

Implicit Types (G : Progress) (F : gmap N N).

Abbreviation win := (source_windows m0 M entries).
Abbreviation slot := (is_slot m0 M entries).
Abbreviation reach := (reachable m0 M entries).
Abbreviation off := (outside s0 o0 M).
Definition live (g : N + nat) : Prop := started_at g M m0 entries.

(** The [n] bytes that were at [a] are at [c]. *)
Definition place F (a n c : N) : Prop :=
  (∃ p q al, F !! p = Some q ∧ M !! p = Some al ∧ p ≤ a ∧ a + n ≤ p + al_size al ∧ c = q + (a - p)) ∨
  ((∀ x, within a n x → off x) ∧ c = a).

Definition untouched (D : gset N) (a n : N) : Prop :=
  ∀ s x, s ∈ D → within s 8 x → ¬ within a n x.

Record Inv G (started busy : N + nat → Prop) (w : World) : Prop := {
  i_prev : objects_ok (previous (heap w)) (forward (moves G) M);
  i_arena : arena (previous (heap w)) = arena o0;
  i_new : objects_ok (objects (heap w)) (table G);
  i_image y al' : table G !! y = Some al' ↔
    ∃ p al, moves G !! p = Some y ∧ M !! p = Some al ∧ al' = renew al;
  i_from p q : moves G !! p = Some q → reach p ∧ is_Some (M !! p);
  i_inj p p' q : moves G !! p = Some q → moves G !! p' = Some q → p = p';
  i_use y : in_use (sys w) y ↔ in_use s0 y ∨ owned (objects (heap w)) (table G) y;
  i_outside y : owned (objects (heap w)) (table G) y → ¬ off y;
  i_apart y : owned (objects (heap w)) (table G) y → owned o0 M y →
    ∃ p al, M !! p = Some al ∧ ¬ is_small al ∧ extent p al y ∧ moves G !! p = Some p;
  i_keep p q al : moves G !! p = Some q → M !! p = Some al →
    q = p ↔ stress (heap w) = false ∧ ¬ is_small al;
  i_clear x y : place (moves G) x 1 y → untouched (done_ G) x 1 → memory w y = m0 x;
  i_done s : s ∈ done_ G → s mod 8 = 0 ∧ (∃ g, live g ∧ slot g s) ∧
    (is_Some (M !! load m0 s) → is_Some (moves G !! load m0 s)) ∧
    ∃ c, place (moves G) s 8 c ∧ load (memory w) c = relocated (moves G) (load m0 s);
  i_unmoved p al x : M !! p = Some al → moves G !! p = None → extent p al x → memory w x = m0 x;
  i_bytes : bytes (heap w) = total (table G);
  i_work : Forall2 (λ p item, ∃ al, M !! p = Some al ∧ moves G !! p = Some item.1 ∧
    al_trace al = Some item.2) (queue G) (work (heap w));
  i_queue : NoDup (queue G);
  i_waiting p : p ∈ queue G → ¬ started (inl p);
  i_traced p al : is_Some (moves G !! p) → M !! p = Some al → al_trace al ≠ None →
    p ∈ queue G ∨ started (inl p);
  i_started p : started (inl p) → is_Some (moves G !! p);
  i_fresh g wd : ¬ started g → live g → wd ∈ win g → untouched (done_ G) (w_at wd) (w_len wd);
  i_complete g s : started g → ¬ busy g → slot g s → s ∈ done_ G;
}.

(** ** Places *)

Lemma place_sub F a n c i k : place F a n c → i + k ≤ n → place F (a + i) k (c + i).
Proof.
  intros [(p & q & al & ? & ? & ? & ? & ->)|[Ho ->]] Hi; [left|right].
  - exists p, q, al. split_and!; try done; lia.
  - split; [|done]. intros x Hx. apply Ho. unfold within in *. lia.
Qed.

Lemma place_byte F a n c i : place F a n c → i < n → place F (a + i) 1 (c + i).
Proof. intros Hp Hi. apply (place_sub _ _ n); [done|lia]. Qed.

Lemma place_mono F F' a n c : F ⊆ F' → place F a n c → place F' a n c.
Proof.
  intros HF [(p & q & al & ? & ?)|?]; [left|by right]. exists p, q, al.
  split; [by eapply lookup_weaken|done].
Qed.

(** Different bytes have different places, if new objects do not meet what lies outside. *)
Lemma places_differ F N o x x' y :
  objects_ok o N →
  (∀ p q al, F !! p = Some q → M !! p = Some al → N !! q = Some (renew al)) →
  (∀ p p' q, F !! p = Some q → F !! p' = Some q → p = p') →
  (∀ z, owned o N z → ¬ off z) →
  place F x 1 y → place F x' 1 y → x = x'.
Proof.
  intros Ho Him Hinj Hoff.
  assert (Hown : ∀ p q al i, F !! p = Some q → M !! p = Some al → i < al_size al →
    owned o N (q + i)).
  { intros p q al i Hp Hal Hlt. apply (extent_owned Ho q (renew al)); [by eapply Him|].
    unfold extent, within. simpl. lia. }
  intros [(p & q & al & Hp & Hal & Hle & Hlt & ->)|[Hx ->]]
    [(p' & q' & al' & Hp' & Hal' & Hle' & Hlt' & E)|[Hx' E]].
  - assert (q = q') as <-.
    { eapply (extents_apart Ho q q' _ _ (q + (x - p))); [by eapply Him..| |];
        unfold extent, within; simpl; lia. }
    assert (p = p') as <- by by eapply Hinj. lia.
  - exfalso. eapply (Hoff (q + (x - p))); [eapply Hown; [done..|lia]|].
    rewrite E. apply Hx'. unfold within. lia.
  - exfalso. eapply (Hoff (q' + (x' - p'))); [eapply Hown; [done..|lia]|].
    rewrite <- E. apply Hx. unfold within. lia.
  - congruence.
Qed.

Section facts.
Context {G : Progress} {started busy : N + nat → Prop} {w : World} (Hi : Inv G started busy w).

Lemma moved_object p q :
  moves G !! p = Some q → ∃ al, M !! p = Some al ∧ table G !! q = Some (renew al) ∧ q ≠ 0.
Proof.
  intros Hp. destruct (i_from _ _ _ _ Hi _ _ Hp) as [_ [al Hal]]. exists al. split; [done|].
  assert (table G !! q = Some (renew al)) as Hq by (apply (i_image _ _ _ _ Hi); eauto).
  split; [done|]. by apply (o_block _ _ (i_new _ _ _ _ Hi) _ _ Hq).
Qed.

Lemma moved_owned p q al i :
  moves G !! p = Some q → M !! p = Some al → i < al_size al →
  owned (objects (heap w)) (table G) (q + i).
Proof.
  intros Hp Hal Hlt. destruct (moved_object _ _ Hp) as (al' & Hal' & Hq & _).
  rewrite Hal in Hal'. injection Hal' as <-.
  apply (extent_owned (i_new _ _ _ _ Hi) q (renew al)); [done|]. unfold extent, within. simpl. lia.
Qed.

(** The new table shares with the old one the objects that were kept. *)
Lemma kept y p al :
  objects_ok o0 M → owned (objects (heap w)) (table G) y → M !! p = Some al → extent p al y →
  moves G !! p = Some p.
Proof.
  intros Ho Hy Hp Hpy. destruct (i_apart _ _ _ _ Hi y Hy) as (p' & al' & Hp' & _ & Hpy' & Hm).
  { by eapply extent_owned. }
  by rewrite (extents_apart Ho p p' al al' y).
Qed.

(** Different bytes have different places. *)
Lemma place_inj x x' y : place (moves G) x 1 y → place (moves G) x' 1 y → x = x'.
Proof.
  apply (places_differ _ (table G) (objects (heap w))); try apply Hi.
  intros p q al Hp Hal. destruct (moved_object _ _ Hp) as (al' & Hal' & Hq & _). by simplify_eq.
Qed.

(** Memory that no finished slot touches is as it was. *)
Lemma clear_bytes a n c i :
  place (moves G) a n c → untouched (done_ G) a n → i < n → memory w (c + i) = m0 (a + i).
Proof.
  intros Hp Hu Hlt. apply (i_clear _ _ _ _ Hi); [by eapply place_byte|].
  intros s x Hs Hx Hx'. apply (Hu s x Hs Hx). unfold within in *. lia.
Qed.

Lemma clear_load a n c i :
  place (moves G) a n c → untouched (done_ G) (a + i) 8 → i + 8 ≤ n →
  load (memory w) (c + i) = load m0 (a + i).
Proof.
  intros Hp Hu Hlt. apply load_eq. intros j Hj. rewrite <- !N.add_assoc.
  apply (i_clear _ _ _ _ Hi); [eapply place_byte; [done|lia]|].
  intros s x Hs Hx Hx'. apply (Hu s x Hs Hx). unfold within in *. lia.
Qed.
End facts.
End inv.

(** The two steps of a collection: an object gets its new place, and a slot gets its new
    word. *)

Section moves.
Context `{CodeSpec} `{SystemSpec}.
Context (s0 : Sys) (o0 : Objects) (M : gmap N Allocation) (m0 : Memory) (entries : list (N * N)).

Abbreviation slot := (is_slot m0 M entries).
Abbreviation reach := (reachable m0 M entries).
Abbreviation off := (outside s0 o0 M).
Abbreviation Inv := (Inv s0 o0 M m0 entries).
Abbreviation place := (place s0 o0 M).

(** What a visit has done to the state when the object at [v] went to [q]. *)
Record moved_to (G : Progress) (w w' : World) (v q : N) (al : Allocation) : Prop := {
  m_prev : objects_ok (previous (heap w')) (forward (<[v := q]> (moves G)) M);
  m_arena : arena (previous (heap w')) = arena (previous (heap w));
  m_new : objects_ok (objects (heap w')) (<[q := renew al]> (table G));
  m_free : table G !! q = None;
  m_use y : in_use (sys w') y ↔
    in_use (sys w) y ∨ owned (objects (heap w')) (<[q := renew al]> (table G)) y;
  m_owned y : owned (objects (heap w')) (<[q := renew al]> (table G)) y →
    owned (objects (heap w)) (table G) y ∨
    (q = v ∧ ¬ is_small al ∧ extent v al y) ∨ ¬ in_use (sys w) y;
  m_keep : q = v ↔ stress (heap w) = false ∧ ¬ is_small al;
  m_stress : stress (heap w') = stress (heap w);
  m_grow y : owned (objects (heap w)) (table G) y →
    owned (objects (heap w')) (<[q := renew al]> (table G)) y;
  m_copy i : i < al_size al → memory w' (q + i) = memory w (v + i);
  m_rest y : ¬ within q (al_size al) y → memory w' y = memory w y;
  m_bytes : bytes (heap w') = bytes (heap w) + occupied (al_size al);
  m_work : work (heap w') =
    match al_trace al with Some t => (q, t) :: work (heap w) | None => work (heap w) end;
}.

Definition add_move (v q : N) (al : Allocation) (G : Progress) : Progress :=
  mkProgress (<[v := q]> (moves G)) (<[q := renew al]> (table G)) (done_ G)
    (match al_trace al with Some _ => v :: queue G | None => queue G end).

Context (Hwf : heap_wf s0 o0 M m0 entries).

Section facts.
Context {G : Progress} {started busy : N + nat → Prop} {w : World}.
Context (Hi : Inv G started busy w).
Context {w' : World} {v q : N} {al : Allocation}.
Context (Hm : moved_to G w w' v q al) (Hv : M !! v = Some al) (Hnew : moves G !! v = None).

Lemma old_in_use p al' y : M !! p = Some al' → extent p al' y → owned o0 M y ∧ in_use s0 y.
Proof.
  intros Hp Hy. assert (owned o0 M y) by (by eapply extent_owned; [apply Hwf|..]).
  split; [done|]. by eapply wf_owned.
Qed.

Lemma move_owned y :
  owned (objects (heap w')) (<[q := renew al]> (table G)) y →
  ¬ off y ∧ (owned o0 M y → ∃ p al', M !! p = Some al' ∧ ¬ is_small al' ∧ extent p al' y ∧
    <[v := q]> (moves G) !! p = Some p).
Proof.
  intros Hy. destruct (m_owned _ _ _ _ _ _ Hm _ Hy) as [Ho|[(-> & Hs & Ho)|Ho]].
  - split; [by eapply (i_outside _ _ _ _ _ _ _ _ _ Hi)|]. intros Hold.
    destruct (i_apart _ _ _ _ _ _ _ _ _ Hi _ Ho Hold) as (p & al' & Hp & Hs & Hpy & E).
    exists p, al'. split_and!; try done. rewrite lookup_insert_ne; [done|]. intros ->. congruence.
  - split; [intros [_ Hno]; by eapply Hno, old_in_use|]. intros _. exists v, al.
    by rewrite lookup_insert_eq.
  - assert (¬ in_use s0 y) as Hno.
    { intros Hu. apply Ho, (i_use _ _ _ _ _ _ _ _ _ Hi). by left. }
    split; [by intros [? _]|]. intros Hold. by apply (wf_owned _ _ _ _ _ Hwf) in Hold.
Qed.

Lemma move_kept y p al' :
  owned (objects (heap w')) (<[q := renew al]> (table G)) y → M !! p = Some al' → extent p al' y →
  <[v := q]> (moves G) !! p = Some p.
Proof.
  intros Hy Hp Hpy. destruct (proj2 (move_owned y Hy)) as (p' & al2 & Hp' & _ & Hpy' & E).
  { by eapply old_in_use. }
  by rewrite (extents_apart (wf_table _ _ _ _ _ Hwf) p p' al' al2 y).
Qed.

Lemma move_mono : moves G ⊆ <[v := q]> (moves G).
Proof. by apply insert_subseteq. Qed.

(** Places other than the new one keep their bytes. *)
Lemma move_keeps x y : place (moves G) x 1 y → memory w' y = memory w y.
Proof.
  intros Hp. apply (m_rest _ _ _ _ _ _ Hm). intros Hy.
  assert (Hex : extent q (renew al) y) by done.
  assert (Hq : <[q := renew al]> (table G) !! q = Some (renew al)) by apply lookup_insert_eq.
  destruct Hp as [(p & r & alp & Hp & Halp & Hle & Hlt & ->)|[Ho ->]].
  - destruct (moved_object _ _ _ _ _ Hi _ _ Hp) as (al2 & Hal2 & Hr & _).
    rewrite Halp in Hal2. injection Hal2 as <-.
    assert (q ≠ r) as Hne by (intros ->; by rewrite (m_free _ _ _ _ _ _ Hm) in Hr).
    apply Hne, (extents_apart (m_new _ _ _ _ _ _ Hm) _ _ (renew al) (renew alp) (r + (x - p)));
      [done|by rewrite lookup_insert_ne|done|]. unfold extent, within. simpl. lia.
  - assert (owned (objects (heap w')) (<[q := renew al]> (table G)) x) as Hown.
    { by eapply extent_owned; [apply (m_new _ _ _ _ _ _ Hm)|..]. }
    apply (proj1 (move_owned _ Hown)). apply Ho. unfold within. lia.
Qed.

Lemma move_unmoved p al' x :
  M !! p = Some al' → <[v := q]> (moves G) !! p = None → extent p al' x → memory w' x = memory w x.
Proof.
  intros Hp HF Hx. apply (m_rest _ _ _ _ _ _ Hm). intros Hy.
  assert (owned (objects (heap w')) (<[q := renew al]> (table G)) x) as Hown.
  { eapply extent_owned; [apply (m_new _ _ _ _ _ _ Hm)|apply lookup_insert_eq|done]. }
  by rewrite (move_kept _ _ _ Hown Hp Hx) in HF.
Qed.

Lemma move_place x y :
  place (<[v := q]> (moves G)) x 1 y →
  place (moves G) x 1 y ∨ (extent v al x ∧ y = q + (x - v)).
Proof.
  intros [(p & r & alp & Hp & Halp & Hle & Hlt & ->)|?]; [|left; by right].
  apply lookup_insert_Some in Hp as [[<- <-]|[_ Hp]].
  - right. rewrite Hv in Halp. injection Halp as <-. split; [|done]. unfold extent, within. lia.
  - left. left. by exists p, r, alp.
Qed.

Lemma move_clear x y :
  place (<[v := q]> (moves G)) x 1 y → untouched (done_ G) x 1 → memory w' y = m0 x.
Proof.
  intros [Hp|[Hx ->]]%move_place Hu.
  - rewrite (move_keeps x) by done. by apply (i_clear _ _ _ _ _ _ _ _ _ Hi).
  - rewrite (m_copy _ _ _ _ _ _ Hm) by (unfold extent, within in Hx; lia).
    replace (v + (x - v)) with x by (unfold extent, within in Hx; lia).
    by apply (i_unmoved _ _ _ _ _ _ _ _ _ Hi v al).
Qed.

Lemma move_image y al' :
  <[q := renew al]> (table G) !! y = Some al' ↔
  ∃ p alp, <[v := q]> (moves G) !! p = Some y ∧ M !! p = Some alp ∧ al' = renew alp.
Proof.
  assert (Hq : ∀ p alp, moves G !! p = Some q → M !! p = Some alp → False).
  { intros p alp Hp Halp. assert (table G !! q = Some (renew alp)) as E.
    { apply (i_image _ _ _ _ _ _ _ _ _ Hi). eauto. }
    by rewrite (m_free _ _ _ _ _ _ Hm) in E. }
  rewrite lookup_insert_Some, (i_image _ _ _ _ _ _ _ _ _ Hi). split.
  - intros [[<- <-]|[Hne (p & alp & Hp & Halp & ->)]].
    + exists v, al. by rewrite lookup_insert_eq.
    + exists p, alp. rewrite lookup_insert_ne; [done|]. intros ->. congruence.
  - intros (p & alp & [[<- <-]|[Hne Hp]]%lookup_insert_Some & Halp & ->).
    + left. split; [done|]. congruence.
    + right. split; [|by exists p, alp]. intros <-. by eapply Hq.
Qed.

Lemma move_inv : reach v → Inv (add_move v q al G) started busy w'.
Proof.
  intros Hr. split; simpl.
  - apply Hm.
  - rewrite (m_arena _ _ _ _ _ _ Hm). apply Hi.
  - apply Hm.
  - apply move_image.
  - intros p r [[<- <-]|[_ Hp]]%lookup_insert_Some; [by eauto|]. by eapply (i_from _ _ _ _ _ _ _ _ _ Hi).
  - assert (Hq : ∀ p, moves G !! p ≠ Some q).
    { intros p Hp. destruct (moved_object _ _ _ _ _ Hi _ _ Hp) as (al2 & _ & E & _).
      by rewrite (m_free _ _ _ _ _ _ Hm) in E. }
    intros p p' r [[<- <-]|[_ Hp]]%lookup_insert_Some [[<- E]|[_ Hp']]%lookup_insert_Some;
      [done|by destruct (Hq p')| |by eapply (i_inj _ _ _ _ _ _ _ _ _ Hi)].
    subst. by destruct (Hq p).
  - intros y. rewrite (m_use _ _ _ _ _ _ Hm), (i_use _ _ _ _ _ _ _ _ _ Hi). pose proof (m_grow _ _ _ _ _ _ Hm y). naive_solver.
  - intros y Hy. by apply move_owned.
  - intros y Hy. by apply move_owned.
  - intros p r alp [[<- <-]|[_ Hp]]%lookup_insert_Some Halp; rewrite (m_stress _ _ _ _ _ _ Hm).
    + rewrite Hv in Halp. injection Halp as <-. apply Hm.
    + by apply (i_keep _ _ _ _ _ _ _ _ _ Hi).
  - apply move_clear.
  - intros s Hs. destruct (i_done _ _ _ _ _ _ _ _ _ Hi _ Hs) as (Hal & Hg & Hc & c & Hp & Hl).
    split; [done|]. split; [done|]. split.
    + intros Hsome. specialize (Hc Hsome) as [r Hr']. exists r. by eapply lookup_weaken, move_mono.
    + exists c. split; [by eapply place_mono; [apply move_mono|]|].
      rewrite (load_same _ (memory w)).
      * rewrite Hl. unfold relocated. destruct (decide (v = load m0 s)) as [Hvs|Hne].
        { rewrite <- Hvs in Hc. destruct Hc as [r Hr']; [by eexists|]. congruence. }
        by rewrite lookup_insert_ne.
      * intros x Hx. apply (move_keeps (s + (x - c))). replace x with (c + (x - c)) at 2.
        -- eapply place_byte; [done|]. unfold within in Hx. lia.
        -- unfold within in Hx. lia.
  - intros p al' x Hp HF Hx. rewrite (move_unmoved p al') by done.
    apply (i_unmoved _ _ _ _ _ _ _ _ _ Hi p al'); try done.
    by apply lookup_insert_None in HF as [? _].
  - rewrite (m_bytes _ _ _ _ _ _ Hm), total_insert by apply Hm.
    rewrite (i_bytes _ _ _ _ _ _ _ _ _ Hi). simpl. lia.
  - assert (Hold : Forall2 (λ p item, ∃ alp, M !! p = Some alp ∧
      <[v := q]> (moves G) !! p = Some item.1 ∧ al_trace alp = Some item.2)
      (queue G) (work (heap w))).
    { eapply Forall2_impl; [apply (i_work _ _ _ _ _ _ _ _ _ Hi)|].
      intros p item (alp & ? & ? & ?). exists alp. split; [done|]. split; [|done].
      by eapply lookup_weaken, move_mono. }
    rewrite (m_work _ _ _ _ _ _ Hm). destruct (al_trace al) eqn:Et; [|done].
    constructor; [|done]. exists al. by rewrite lookup_insert_eq.
  - pose proof (i_queue _ _ _ _ _ _ _ _ _ Hi) as Hn. destruct (al_trace al); [|done].
    constructor; [|done]. intros Hin.
    apply list_elem_of_lookup in Hin as [j Hj].
    destruct (Forall2_lookup_l _ _ _ _ _ (i_work _ _ _ _ _ _ _ _ _ Hi) Hj) as (it & _ & a2 & _ & E & _).
    congruence.
  - intros p Hp Hst. destruct (al_trace al); [|by eapply (i_waiting _ _ _ _ _ _ _ _ _ Hi)].
    apply elem_of_cons in Hp as [->|Hp]; [|by eapply (i_waiting _ _ _ _ _ _ _ _ _ Hi)].
    destruct (i_started _ _ _ _ _ _ _ _ _ Hi _ Hst). congruence.
  - intros p alp [r [[<- <-]|[_ Hp]]%lookup_insert_Some] Halp Ht.
    + rewrite Hv in Halp. injection Halp as <-. destruct (al_trace al); [|done]. left. left.
    + destruct (i_traced _ _ _ _ _ _ _ _ _ Hi p alp) as [?|?]; [eauto|done|done| |by right].
      left. destruct (al_trace al); [by right|done].
  - intros p Hp. destruct (i_started _ _ _ _ _ _ _ _ _ Hi _ Hp) as [r Hr'].
    exists r. by eapply lookup_weaken, move_mono.
  - apply Hi.
  - apply Hi.
Qed.
End facts.
End moves.
