(* ===== verification/CollectVisit.v ===== *)
(** What the operations of the heap do to its tables: storage is fresh, and a visit moves an
    object to fresh storage or keeps it. *)

From S2P Require Import Prelude Effects Memory Arena ArenaFacts ObjectFacts Heap Reach CollectInv.

Lemma runs_on_sys `{System} {A} (m : St Sys A) a s w (Q : A → World → Prop) :
  m (sys w) = Ok (a, s) → Q a (mkWorld (heap w) (memory w) s (ROOTS w)) → runs (on_sys m) w Q.
Proof. unfold runs, on_sys. by intros ->. Qed.

Section facts.
Context `{SystemSpec}.

(** [o'] is the table after the entry [al] at [p] was published in storage that was taken
    from the system in state [s], which left it in state [s']. *)
Record published (o : Objects) (M : gmap N Allocation) (s : Sys) (p : N) (al : Allocation)
    (o' : Objects) (s' : Sys) : Prop := {
  p_table : objects_ok o' (<[p := al]> M);
  p_use y : in_use s' y ↔ in_use s y ∨ owned o' (<[p := al]> M) y;
  p_grow y : owned o M y → owned o' (<[p := al]> M) y;
  p_owned y : owned o' (<[p := al]> M) y → owned o M y ∨ ¬ in_use s y;
}.

Lemma owned_insert o M p al y :
  M !! p = None →
  owned o (<[p := al]> M) y ↔ owned o M y ∨ ¬ is_small al ∧ extent p al y.
Proof.
  intros Hp. unfold owned. split.
  - intros [?|(x & alx & [[<- <-]|[_ Hx]]%lookup_insert_Some & ? & ?)]; [by left; left|by right|].
    left. right. eauto.
  - intros [[?|(x & alx & Hx & ? & ?)]|[? ?]]; [by left| |].
    + right. exists x, alx. split; [|done]. rewrite lookup_insert_ne; [done|]. intros ->. congruence.
    + right. exists p, al. by rewrite lookup_insert_eq.
Qed.

Lemma storage_small layout o M s :
  objects_ok o M → (∀ y, owned o M y → in_use s y) →
  0 < layout → layout < LARGE_OBJECT_THRESHOLD →
  runs (allocate layout (arena o)) s (λ '(p, a) s', M !! p = None ∧ p ≠ 0 ∧
    ∀ al, al_size al = layout → ∃ o',
      insert_object p al (mkObjects (large o) a (headers o)) = Ok o' ∧ published o M s p al o' s').
Proof.
  intros Ho Huse Hpos Hsmall.
  eapply runs_mono; [apply arena_allocate_spec; [apply Ho| |done..]|].
  { intros x Hx. apply Huse. by left. }
  intros [p a] s' (Ha & Hfree & (Hg1 & Hg2 & Hg3) & Hm & Hne & Hle & Hroom).
  assert (Hp : M !! p = None).
  { destruct (M !! p) as [al|] eqn:Hp; [|done]. exfalso.
    destruct (decide (is_small al)) as [Hs|Hs].
    - assert (small_objects M !! p = Some (al_size al)) by (apply small_lookup; eauto). congruence.
    - assert (extent p al p) as Hex.
      { unfold extent, within. pose proof (o_block _ _ Ho _ _ Hp). lia. }
      assert (mapped (mappings a) p) as Hmp.
      { apply Hroom. unfold room, within. pose proof (pad_bounds layout).
        change HEADER_SIZE with 32 in *. lia. }
      destruct (Hg2 _ Hmp) as [Hold|Hold]; [by eapply (o_outside _ _ Ho)|].
      apply Hold, Huse. by eapply extent_owned. }
  split; [done|]. split; [done|]. intros al <-.
  destruct (insert_small Ho a p al) as (o' & Hins & Ho' & Ea); try done.
  { intros x Hx. destruct (Hg2 _ Hx) as [?|Hf]; [by left|]. right. intros Hown. by apply Hf, Huse. }
  exists o'. split; [done|].
  assert (Hown : ∀ y, owned o' (<[p:=al]> M) y ↔ mapped (mappings a) y ∨
    ∃ x alx, M !! x = Some alx ∧ ¬ is_small alx ∧ extent x alx y).
  { intros y. rewrite owned_insert by done. unfold owned. rewrite Ea. unfold is_small at 2. naive_solver. }
  split; [done|..].
  - intros y. rewrite Hg3, Hown. split; [naive_solver|]. intros [?|[?|Hl]]; [by left|by right|].
    left. apply Huse. by right.
  - intros y. rewrite Hown. intros [?|?]; [left; by apply Hg1|by right].
  - intros y. rewrite Hown. intros [Hy|?]; [|by left; right].
    destruct (Hg2 _ Hy); [by left; left|by right].
Qed.

Lemma storage_large layout o M s p s' :
  objects_ok o M → (∀ y, owned o M y → in_use s y) →
  LARGE_OBJECT_THRESHOLD ≤ layout → alloc layout s = Some (p, s') →
  M !! p = None ∧ p ≠ 0 ∧
  ∀ al, al_size al = layout → ∃ o', insert_object p al o = Ok o' ∧ published o M s p al o' s'.
Proof.
  intros Ho Huse Hlarge Hal. destruct (alloc_fresh _ _ _ _ Hal) as (Hm & Hne & Hfree & Hg).
  assert (Hp : M !! p = None).
  { destruct (M !! p) as [al|] eqn:Hp; [|done]. exfalso.
    apply (Hfree p); [unfold within; change LARGE_OBJECT_THRESHOLD with 65536 in *; lia|].
    apply Huse. eapply extent_owned; [done..|]. unfold extent, within.
    pose proof (o_block _ _ Ho _ _ Hp). lia. }
  split; [done|]. split; [done|]. intros al <-.
  assert (Hs : ¬ is_small al) by (unfold is_small; lia).
  destruct (insert_large Ho p al) as (o' & Hins & Ho' & Ea); try done.
  { intros x Hx Hown. by eapply Hfree, Huse. }
  exists o'. split; [done|].
  assert (Hown : ∀ y, owned o' (<[p:=al]> M) y ↔ owned o M y ∨ extent p al y).
  { intros y. rewrite owned_insert by done. unfold owned. rewrite Ea. naive_solver. }
  split; [done|..].
  - intros y. rewrite Hg, Hown. unfold extent. pose proof (Huse y). naive_solver.
  - intros y. rewrite Hown. by left.
  - intros y. rewrite Hown. intros [?|Hy]; [by left|]. right. by apply Hfree.
Qed.

(** The storage of a new object, before it is published. *)
Lemma storage_spec layout zeroed w M :
  objects_ok (objects (heap w)) M → (∀ y, owned (objects (heap w)) M y → in_use (sys w) y) →
  0 < layout →
  runs (storage layout zeroed) w (λ p w', M !! p = None ∧ p ≠ 0 ∧ ∃ o s,
    w' = mkWorld (with_objects o (heap w))
      (if zeroed then fill p layout x00 (memory w) else memory w) s (ROOTS w) ∧
    ∀ al, al_size al = layout → ∃ o',
      insert_object p al o = Ok o' ∧ published (objects (heap w)) M (sys w) p al o' s).
Proof.
  intros Ho Huse Hpos. unfold storage. apply runs_bind.
  apply (runs_mono _ _ (λ p w', M !! p = None ∧ p ≠ 0 ∧ ∃ o s,
    w' = mkWorld (with_objects o (heap w)) (memory w) s (ROOTS w) ∧
    ∀ al, al_size al = layout → ∃ o',
      insert_object p al o = Ok o' ∧ published (objects (heap w)) M (sys w) p al o' s)).
  - destruct (N.ltb_spec layout LARGE_OBJECT_THRESHOLD) as [Hs|Hl].
    + pose proof (storage_small layout _ _ _ Ho Huse Hpos Hs) as Hr. unfold runs in *.
      unfold reads, edits, mbind, St_bind, on_sys. simpl.
      destruct (allocate _ _ _) as [[[p a] s']| | |]; simpl; try done.
      destruct Hr as (? & ? & Hr). split; [done|]. split; [done|]. do 2 eexists. split; [done|]. done.
    + unfold runs, on_sys. destruct (alloc layout (sys w)) as [[p s']|] eqn:E; simpl; [|done].
      destruct (storage_large _ _ _ _ _ _ Ho Huse Hl E) as (? & ? & Hr).
      split; [done|]. split; [done|]. exists (objects (heap w)), s'. split; [|done].
      by destruct w as [[] ? ? ?].
  - intros p w' (Hp & Hne & o & s & -> & Hr). destruct zeroed; by split_and!; eauto.
Qed.
End facts.

(** [loom_rt_visit] and [trace_pointer] keep the invariant of a collection. *)

(** What tracing leaves alone. *)
Definition settings `{System} (w : World) :=
  (collecting (heap w), stress (heap w), threshold (heap w), list_views (heap w),
   access (heap w), mutexes (heap w), ROOTS w).

Section visit.
Context `{CodeSpec} `{SystemSpec}.
Context (s0 : Sys) (o0 : Objects) (M : gmap N Allocation) (m0 : Memory) (entries : list (N * N)).
Context (Hwf : heap_wf s0 o0 M m0 entries).

Abbreviation slot := (is_slot m0 M entries).
Abbreviation reach := (reachable m0 M entries).
Abbreviation Inv := (Inv s0 o0 M m0 entries).
Abbreviation place := (place s0 o0 M).

(** How a step of tracing extends what was done. *)
Record extends (G G' : Progress) (w w' : World) : Prop := {
  e_moves : moves G ⊆ moves G';
  e_settings : settings w' = settings w;
}.

Lemma extends_refl G w : extends G G w w.
Proof. by split. Qed.

Lemma extends_trans G1 G2 G3 w1 w2 w3 :
  extends G1 G2 w1 w2 → extends G2 G3 w2 w3 → extends G1 G3 w1 w3.
Proof. intros [Hm He] [Hm' He']. split; [by etrans|congruence]. Qed.

(** The end of a visit, once there is storage at [moved]. *)
Definition finish (pointer moved layout : N) (trace : option N) : St World N :=
  o ← reads (λ w, previous (heap w));
  o ← lift (update_object pointer (λ al, mkAllocation (al_size al) (al_trace al) moved) o);
  edits (set_heap (with_previous o)) ;;
  publish moved layout trace ;;
  match trace with
  | Some trace => edits (set_heap (λ h, with_work ((moved, trace) :: work h) h))
  | None => mret tt
  end ;;
  mret moved.

Lemma visit_finish_spec v q layout trace w o' p' :
  update_object v (λ al, mkAllocation (al_size al) (al_trace al) q) (previous (heap w)) = Ok p' →
  insert_object q (mkAllocation layout trace 0) (objects (heap w)) = Ok o' →
  ∃ w', finish v q layout trace w = Ok (q, w') ∧
    previous (heap w') = p' ∧ objects (heap w') = o' ∧ memory w' = memory w ∧ sys w' = sys w ∧
    bytes (heap w') = bytes (heap w) + occupied layout ∧
    work (heap w') = match trace with Some t => (q, t) :: work (heap w) | None => work (heap w) end ∧
    settings w' = settings w.
Proof.
  intros Hu Hins. destruct w as [[] m s R]. unfold finish, publish. simpl in *.
  unfold mbind, St_bind, reads, edits, lift. simpl. rewrite Hu. simpl. rewrite Hins. simpl.
  destruct trace; simpl; (eexists; split; [done|]); by split_and!.
Qed.

Section step.
Context {G : Progress} {started busy : N + nat → Prop} {w : World}.
Context (Hi : Inv G started busy w).

Lemma new_owned_in_use y : owned (objects (heap w)) (table G) y → in_use (sys w) y.
Proof. intros Hy. apply (i_use _ _ _ _ _ _ _ _ _ Hi). by right. Qed.

(** A large object that is kept where it is. *)
Lemma keep_spec v al :
  M !! v = Some al → moves G !! v = None → stress (heap w) = false → ¬ is_small al →
  runs (finish v v (al_size al) (al_trace al)) w (λ r w', r = v ∧ moved_to M G w w' v v al ∧
    settings w' = settings w).
Proof.
  intros Hv Hnew Hstress Hs. pose proof (i_new _ _ _ _ _ _ _ _ _ Hi) as Ho.
  assert (Hex : ∀ y, extent v al y → ¬ owned (objects (heap w)) (table G) y).
  { intros y Hy Hown. 
    pose proof (kept _ _ _ _ _ Hi _ _ _ (wf_table _ _ _ _ _ Hwf) Hown Hv Hy). congruence. }
  destruct (o_block _ _ (wf_table _ _ _ _ _ Hwf) _ _ Hv) as (Hm & Hne & Hpos).
  assert (Hfree : table G !! v = None).
  { destruct (table G !! v) as [al2|] eqn:E; [|done]. exfalso.
    apply (Hex v); [unfold extent, within; lia|]. eapply extent_owned; [done..|].
    unfold extent, within. destruct (o_block _ _ Ho _ _ E) as (_ & _ & ?). lia. }
  destruct (insert_large Ho v (renew al)) as (o' & Hins & Ho' & Ea); [done..|].
  destruct (update_object_spec (i_prev _ _ _ _ _ _ _ _ _ Hi) v
    (λ al, mkAllocation (al_size al) (al_trace al) v)) as (p' & Hu & Hp' & Eap); [done|].
  destruct (visit_finish_spec _ _ _ _ _ _ _ Hu Hins) as (w' & Hw' & Ep & Eo & Em & Es & Eb & Ew & Est).
  unfold runs. rewrite Hw'. split; [done|]. split; [|done].
  assert (Hown : ∀ y, owned o' (<[v:=renew al]> (table G)) y ↔
    owned (objects (heap w)) (table G) y ∨ extent v al y).
  { intros y. rewrite owned_insert by done. unfold owned. rewrite Ea. unfold extent, is_small.
    simpl. naive_solver. }
  split; rewrite ?Ep, ?Eo, ?Em, ?Es; try done.
  - by rewrite forward_insert.
  - intros y. rewrite Hown. pose proof (new_owned_in_use y). split; [by left|].
    intros [?|[?|Hy]]; [done|auto|]. apply (i_use _ _ _ _ _ _ _ _ _ Hi). left.
    by eapply (old_in_use s0 o0 M m0 entries).
  - intros y. rewrite Hown. intros [?|?]; [by left|]. by right; left.
  - by injection Est.
  - intros y. rewrite Hown. by left.
Qed.

(** An object that is copied to fresh storage. *)
Lemma copy_spec v al :
  M !! v = Some al → moves G !! v = None → ¬ (stress (heap w) = false ∧ ¬ is_small al) →
  runs (moved ← (moved ← storage (al_size al) false;
                 edits (set_memory (copy v moved (al_size al))) ;; mret moved);
        finish v moved (al_size al) (al_trace al)) w (λ r w',
    moved_to M G w w' v r al ∧ settings w' = settings w).
Proof.
  intros Hv Hnew Hmove. pose proof (i_new _ _ _ _ _ _ _ _ _ Hi) as Ho.
  destruct (o_block _ _ (wf_table _ _ _ _ _ Hwf) _ _ Hv) as (Hm & Hne & Hpos).
  do 2 apply runs_bind. eapply runs_mono; [exact (storage_spec _ false w _ Ho new_owned_in_use Hpos)|].
  intros q w1 (Hfree & Hqne & o & s & -> & Hpub). destruct (Hpub (renew al) eq_refl) as (o' & Hins & Hp).
  apply runs_bind, runs_edits, runs_ret.
  destruct (update_object_spec (i_prev _ _ _ _ _ _ _ _ _ Hi) v
    (λ al, mkAllocation (al_size al) (al_trace al) q)) as (p' & Hu & Hp' & Eap); [done|].
  set (w1 := set_memory _ _).
  destruct (visit_finish_spec v q (al_size al) (al_trace al) w1 o' p')
    as (w' & Hw' & Ep & Eo & Em & Es & Eb & Ew & Est); [done|done|].
  unfold runs. rewrite Hw'. split; [|done].
  split; rewrite ?Ep, ?Eo, ?Es, ?Em; try done; simpl.
  - by rewrite forward_insert.
  - apply Hp.
  - apply Hp.
  - intros y Hy. destruct (p_owned _ _ _ _ _ _ _ Hp _ Hy); [by left|by right; right].
  - split; [|by intros ?]. intros ->. exfalso.
    assert (Hvv : extent v al v) by (unfold extent, within; lia).
    destruct (old_in_use s0 o0 M m0 entries Hwf _ _ _ Hv Hvv) as [_ Huse].
    destruct (p_owned _ _ _ _ _ _ _ Hp v) as [Hown|Hno].
    + eapply (extent_owned (p_table _ _ _ _ _ _ _ Hp) v (renew al)); [apply lookup_insert_eq|done].
    + rewrite (kept _ _ _ _ _ Hi v v al (wf_table _ _ _ _ _ Hwf)) in Hnew by done. done.
    + apply Hno, (i_use _ _ _ _ _ _ _ _ _ Hi). by left.
  - by injection Est.
  - apply Hp.
  - intros i Hlt. rewrite copy_in by (unfold within; lia). f_equal. lia.
  - intros y Hy. by rewrite copy_out.
Qed.

Lemma visit_spec v :
  (is_Some (M !! v) → reach v) →
  runs (loom_rt_visit v) w (λ r w', ∃ G', Inv G' started busy w' ∧ extends G G' w w' ∧
    done_ G' = done_ G ∧ r = relocated (moves G') v ∧ (is_Some (M !! v) → is_Some (moves G' !! v))).
Proof.
  intros Hr. unfold loom_rt_visit. apply runs_bind, runs_reads, runs_bind.
  eapply runs_lift; [apply (get_object_spec (i_prev _ _ _ _ _ _ _ _ _ Hi))|].
  rewrite forward_lookup. destruct (M !! v) as [al|] eqn:Hv; simpl.
  2:{ apply runs_ret. exists G. split_and!; try done.
      unfold relocated. destruct (moves G !! v) as [q|] eqn:E; [|done].
      destruct (i_from _ _ _ _ _ _ _ _ _ Hi _ _ E) as [_ [? ?]]. congruence. }
  destruct (moves G !! v) as [q|] eqn:Hq; simpl.
  { destruct (moved_object _ _ _ _ _ Hi _ _ Hq) as (_ & _ & _ & Hne).
    rewrite (proj2 (N.eqb_neq _ _) Hne). simpl. apply runs_ret. exists G.
    split_and!; try done. unfold relocated. by rewrite Hq. }
  assert (Hend : ∀ r w', moved_to M G w w' v r al → settings w' = settings w →
    ∃ G', Inv G' started busy w' ∧ extends G G' w w' ∧ done_ G' = done_ G ∧
      r = relocated (moves G') v ∧ (is_Some (Some al) → is_Some (moves G' !! v))).
  { intros r w' Hm Hst. exists (add_move v r al G). split.
    - eapply move_inv; eauto.
    - split; [split; [by apply insert_subseteq|done]|]. split; [done|].
      unfold relocated. simpl. rewrite lookup_insert_eq. by eauto. }
  destruct (negb (stress (heap w)) && _) eqn:E.
  - apply andb_true_iff in E as [Hns%negb_true_iff Hl%N.leb_le].
    apply (runs_mono _ _ _ _ (keep_spec v al Hv Hq Hns ltac:(unfold is_small; lia))).
    intros r w' (-> & ? & ?). by apply Hend.
  - assert (Hmove : ¬ (stress (heap w) = false ∧ ¬ is_small al)).
    { intros [Hns Hl]. rewrite Hns in E. unfold is_small in Hl. simpl in E.
      apply N.leb_gt in E. lia. }
    apply (runs_mono _ _ _ _ (copy_spec v al Hv Hq Hmove)). intros r w' (? & ?). by apply Hend.
Qed.
End step.
End visit.
