(* ===== verification/CollectTrace.v ===== *)
(** Rewriting the slots of a window keeps the invariant of a collection, and so does tracing
    from the roots through the work list. *)

From S2P Require Import Prelude Effects Memory Arena ArenaFacts ObjectFacts Heap Reach CollectInv CollectVisit.

Section windows.
Context `{CodeSpec} `{SystemSpec}.

Definition slots_inside (wd : Window) : Prop :=
  NoDup (w_slots wd) ∧
  ∀ s, s ∈ w_slots wd → s mod 8 = 0 ∧ w_at wd ≤ s ∧ s + 8 ≤ w_at wd + w_len wd.

Lemma aligned_add a o k : a mod k = 0 → o mod k = 0 → (a + o) mod k = 0.
Proof. intros Ha Ho. by rewrite N.Div0.add_mod, Ha, Ho, N.add_0_l, N.Div0.mod_0_l. Qed.

Lemma aligned_16 a : a mod 16 = 0 → a mod 8 = 0.
Proof.
  intros Ha. apply N.Div0.mod_divides in Ha as [k ->].
  replace (16 * k) with (2 * k * 8) by lia. apply N.Div0.mod_mul.
Qed.

Lemma value_window_inside m t a wd :
  a mod 8 = 0 → value_window m t a = Some wd → w_at wd = a ∧ slots_inside wd.
Proof.
  intros Ha. unfold value_window. destruct (tracer_at t) as [[]|] eqn:E; try done; intros [= <-].
  - split; [done|]. split; [apply NoDup_singleton|]. intros s ->%list_elem_of_singleton. simpl.
    split; [done|lia].
  - split; [done|]. destruct (offsets_inside _ _ _ (λ i, m (a + i)) E) as [Hn Hf].
    split; simpl.
    + apply NoDup_fmap; [|done]. intros x y. lia.
    + intros s (o & -> & Ho)%list_elem_of_fmap. rewrite Forall_forall in Hf.
      destruct (Hf _ Ho). split; [by apply aligned_add|lia].
Qed.

Lemma header_window_inside p n : p mod 16 = 0 → 24 ≤ n → slots_inside (mkWindow p n [p + buffer_data]).
Proof.
  intros Hp Hn. split; [apply NoDup_singleton|]. intros s ->%list_elem_of_singleton. simpl.
  unfold buffer_data. split; [|lia]. apply aligned_add; [by apply aligned_16|done].
Qed.

Context (s0 : Sys) (o0 : Objects) (M : gmap N Allocation) (m0 : Memory) (entries : list (N * N)).
Context (Hwf : heap_wf s0 o0 M m0 entries).

Abbreviation win := (source_windows m0 M entries).
Abbreviation slot := (is_slot m0 M entries).
Abbreviation reach := (reachable m0 M entries).
Abbreviation Inv := (Inv s0 o0 M m0 entries).
Abbreviation place := (place s0 o0 M).
Abbreviation off := (outside s0 o0 M).
Abbreviation live := (live M m0 entries).

(** Every window lies in one object or outside. *)
Lemma window_ok g wd :
  live g → wd ∈ win g → slots_inside wd ∧
  ((∃ b, inside M b wd) ∨ ∀ x, within (w_at wd) (w_len wd) x → off x).
Proof.
  destruct g as [p|k]; simpl; intros Hg Hin.
  - destruct (M !! p) as [al|] eqn:Hp; [|by apply not_elem_of_nil in Hin].
    destruct (al_trace al) as [t|] eqn:Ht; [|by apply not_elem_of_nil in Hin].
    destruct (o_block _ _ (wf_table _ _ _ _ _ Hwf) _ _ Hp) as (Hp16 & _).
    destruct (wf_value _ _ _ _ _ Hwf _ _ _ Hg Hp Ht) as [_ Hhead].
    assert (Hv : ∀ wd', windows m0 t p = option_list (value_window m0 t p) → wd' ∈ windows m0 t p →
      slots_inside wd' ∧ ∃ b, inside M b wd').
    { intros wd' E Hwd. rewrite E in Hwd, Hhead. destruct (value_window m0 t p) as [wd2|] eqn:Ew;
        simpl in *; [|by apply not_elem_of_nil in Hwd].
      apply list_elem_of_singleton in Hwd as ->. split; [|eauto].
      eapply value_window_inside; [by apply aligned_16|done]. }
    unfold windows in *. destruct (tracer_at t) as [[]|] eqn:Ec.
    + destruct (Hv wd eq_refl Hin). auto.
    + apply list_elem_of_singleton in Hin as ->. split; [by apply header_window_inside|eauto].
    + apply elem_of_cons in Hin as [->|Hin]; [split; [by apply header_window_inside|eauto]|].
      unfold elements in Hin. destruct (N.eqb_spec (load m0 (p + list_trace_element)) 0) as [|He];
        [by apply not_elem_of_nil in Hin|].
      apply list_elem_of_omap in Hin as (i & Hi & Hw). apply elem_of_seq in Hi.
      destruct (wf_list _ _ _ _ _ Hwf _ _ _ Hg Hp Ht Ec He i) as (Ha & wd' & Hw' & Hin'); [lia|].
      rewrite Hw in Hw'. injection Hw' as <-. split; [by eapply value_window_inside|eauto].
    + destruct (Hv wd eq_refl Hin). auto.
    + destruct (Hv wd eq_refl Hin). auto.
  - destruct (entries !! k) as [[a t]|] eqn:Hk; [|by apply not_elem_of_nil in Hin].
    destruct (wf_root _ _ _ _ _ Hwf _ _ _ Hk) as (Ha & _ & wd' & Hw & Ho). rewrite Hw in Hin.
    apply list_elem_of_singleton in Hin as ->. split; [by eapply value_window_inside|]. by right.
Qed.

Lemma windows_apart g g' wd wd' x :
  live g → live g' → wd ∈ win g → wd' ∈ win g' → g ≠ g' →
  within (w_at wd) (w_len wd) x → ¬ within (w_at wd') (w_len wd') x.
Proof.
  intros Hg Hg' [i Hi]%list_elem_of_lookup [j Hj]%list_elem_of_lookup Hne Hx Hx'.
  destruct (wf_apart _ _ _ _ _ Hwf _ _ _ _ _ _ Hg Hg' Hi Hj); [|done]. by exists x.
Qed.

Lemma slot_reach g s : live g → slot g s → is_Some (M !! load m0 s) → reach (load m0 s).
Proof.
  destruct g as [p|k]; intros Hg Hs Hsome; [by eapply reach_slot|by eapply reach_root].
Qed.

Section step.
Context {G : Progress} {started busy : N + nat → Prop} {w : World}.
Context (Hi : Inv G started busy w).

Definition finish_slot (s : N) : Progress :=
  mkProgress (moves G) (table G) ({[s]} ∪ done_ G) (queue G).

Lemma relocated_word v : v < 2 ^ 64 → relocated (moves G) v < 2 ^ 64.
Proof.
  intros Hv. unfold relocated. destruct (moves G !! v) as [q|] eqn:E; [|done].
  destruct (moved_object _ _ _ _ _ Hi _ _ E) as (al & Hal & _ & _).
  apply (in_use_word (sys w)), (i_use _ _ _ _ _ _ _ _ _ Hi). right.
  rewrite <- (N.add_0_r q). eapply (moved_owned _ _ _ _ _ Hi); [done..|].
  by apply (o_block _ _ (wf_table _ _ _ _ _ Hwf) _ _ Hal).
Qed.

(** A byte of the slot at [c] is a byte of the old slot. *)
Lemma slot_byte s c x y :
  place (moves G) s 8 c → place (moves G) x 1 y → within c 8 y → within s 8 x.
Proof.
  intros Hs Hx Hy. replace x with (s + (y - c)); [unfold within in *; lia|].
  eapply (place_inj _ _ _ _ _ Hi); [|done]. replace y with (c + (y - c)) at 2.
  - eapply place_byte; [done|]. unfold within in Hy. lia.
  - unfold within in Hy. lia.
Qed.

Lemma store_inv g s c wd :
  place (moves G) s 8 c → live g → started g → wd ∈ win g → s ∈ w_slots wd → busy g →
  (is_Some (M !! load m0 s) → is_Some (moves G !! load m0 s)) →
  Inv (finish_slot s) started busy
    (set_memory (store c (relocated (moves G) (load m0 s))) w).
Proof.
  intros Hp Hg Hst Hwd Hs Hbusy Hsome.
  destruct (window_ok _ _ Hg Hwd) as [[Hn Hins] _]. destruct (Hins _ Hs) as (Hal & Hle & Hlt).
  pose proof Hi as Hi'. destruct Hi'. split; simpl; try done.
  - intros x y Hx Hu. rewrite store_out.
    + apply i_clear; [done|]. intros s' z Hs'. apply Hu. set_solver.
    + intros Hy. eapply (Hu s x); [set_solver|by eapply slot_byte|unfold within; lia].
  - intros s' [->%elem_of_singleton|Hs']%elem_of_union.
    + split; [done|]. split; [by exists g; split; [|exists wd]|]. split; [done|].
      exists c. split; [done|]. apply load_store, relocated_word, load_bound.
    + destruct (i_done _ Hs') as (Hal' & Hg' & Hsome' & c' & Hp' & Hl).
      split; [done|]. split; [done|]. split; [done|]. destruct (decide (s = s')) as [<-|Hne].
      * exists c. split; [done|]. apply load_store, relocated_word, load_bound.
      * exists c'. split; [done|]. rewrite <- Hl. apply load_same. intros y Hy.
        apply store_out. intros Hy'. apply Hne.
        apply (words_apart s s' (s' + (y - c'))); try done.
        -- eapply slot_byte; [done| |done]. replace y with (c' + (y - c')) at 2.
           ++ eapply place_byte; [done|]. unfold within in Hy. lia.
           ++ unfold within in Hy. lia.
        -- unfold within in *. lia.
  - intros p al x Hpal HF Hx. rewrite store_out; [by eapply i_unmoved|]. intros Hy.
    assert (Hpl : place (moves G) (s + (x - c)) 1 x).
    { replace x with (c + (x - c)) at 2; [eapply place_byte; [done|]|];
        unfold within in Hy; lia. }
    destruct Hpl as [(p' & q & al' & Hp' & Hal' & Hle' & Hlt' & E)|[Ho E]].
    + assert (moves G !! p = Some p); [|congruence].
      eapply (kept s0 o0 M m0 entries Hi x p al); [apply Hwf| |done..]. rewrite E.
      eapply (moved_owned s0 o0 M m0 entries Hi); [done..|lia].
    + destruct (Ho x) as [_ Hno]; [unfold within; lia|].
      apply Hno. eapply extent_owned; [apply Hwf|done..].
  - intros g' wd' Hng Hg' Hwd' s' x [->%elem_of_singleton|Hs']%elem_of_union Hx; [|by eapply i_fresh].
    eapply (windows_apart g g'); try done; [by intros <-|]. unfold within in *. lia.
  - intros g' s' Hg' Hb Hs'. apply elem_of_union. right. by eapply i_complete.
Qed.
End step.

Lemma trace_pointer_spec G started busy w g s c wd :
  Inv G started busy w → place (moves G) s 8 c → untouched (done_ G) s 8 →
  live g → started g → busy g → wd ∈ win g → s ∈ w_slots wd →
  runs (trace_pointer c) w (λ _ w', ∃ G', Inv G' started busy w' ∧ extends G G' w w' ∧
    done_ G' = {[s]} ∪ done_ G).
Proof.
  intros Hi Hp Hu Hg Hst Hb Hwd Hs. unfold trace_pointer.
  apply runs_bind, runs_reads, runs_bind.
  assert (load (memory w) c = load m0 s) as ->.
  { pose proof (clear_load _ _ _ _ _ Hi s 8 c 0 Hp) as E. rewrite !N.add_0_r in E.
    by apply E. }
  assert (Hr : is_Some (M !! load m0 s) → reach (load m0 s)).
  { apply (slot_reach g); [done|]. by exists wd. }
  eapply runs_mono; [exact (visit_spec _ _ _ _ _ Hwf Hi _ Hr)|].
  intros r w1 (G1 & Hi1 & He & Hd & -> & Hsome). apply runs_edits.
  exists (mkProgress (moves G1) (table G1) ({[s]} ∪ done_ G1) (queue G1)).
  split; [|split; [split; apply He|simpl; by rewrite Hd]].
  eapply store_inv; try done. by eapply place_mono; [apply He|].
Qed.
End windows.

(** A tracer rewrites exactly the slots of its object. *)

Lemma omap_lookup {A B} (f : A → option B) (l : list A) (k : nat) x :
  (∀ y, y ∈ l → is_Some (f y)) → l !! k = Some x → omap f l !! k = f x.
Proof.
  revert k. induction l as [|y l IH]; intros k Hf Hk; [done|]. simpl.
  destruct (Hf y) as [z Hz]; [left|]. rewrite Hz. destruct k as [|k]; simpl in *.
  - injection Hk as ->. done.
  - apply IH; [|done]. intros y' Hy'. apply Hf. by right.
Qed.

Lemma length_omap_le {A B} (f : A → option B) (l : list A) : (length (omap f l) ≤ length l)%nat.
Proof. induction l as [|x l IH]; simpl; [done|]. destruct (f x); [by apply le_n_S|by apply le_S]. Qed.

Section trace.
Context `{CodeSpec} `{SystemSpec}.
Context (s0 : Sys) (o0 : Objects) (M : gmap N Allocation) (m0 : Memory) (entries : list (N * N)).
Context (Hwf : heap_wf s0 o0 M m0 entries).

Abbreviation win := (source_windows m0 M entries).
Abbreviation slot := (is_slot m0 M entries).
Abbreviation reach := (reachable m0 M entries).
Abbreviation Inv := (Inv s0 o0 M m0 entries).
Abbreviation place := (place s0 o0 M).
Abbreviation off := (outside s0 o0 M).
Abbreviation live := (live M m0 entries).

(** Old memory has one place. *)
Lemma place_fun F a n c c' : 0 < n → place F a n c → place F a n c' → c = c'.
Proof.
  assert (Hoff : ∀ p al, M !! p = Some al → 0 < n → p ≤ a → a + n ≤ p + al_size al →
    (∀ x, within a n x → off x) → False).
  { intros p al Hp Hn Hle Hlt Ho. destruct (Ho a) as [_ Hno]; [unfold within; lia|].
    apply Hno. eapply extent_owned; [apply Hwf|done|]. unfold extent, within. lia. }
  intros Hn [(p & q & al & Hp & Hal & ? & ? & ->)|[Ho ->]]
    [(p' & q' & al' & Hp' & Hal' & ? & ? & ->)|[Ho' ->]]; [|exfalso; by eapply Hoff..|done].
  assert (p = p') as <-; [|congruence].
  apply (extents_apart (wf_table _ _ _ _ _ Hwf) _ _ _ _ a Hal Hal'); unfold extent, within; lia.
Qed.

Lemma untouched_sub D a n b k : untouched D a n → a ≤ b → b + k ≤ a + n → untouched D b k.
Proof. intros Hu ? ? s x Hs Hx Hx'. apply (Hu s x Hs Hx). unfold within in *. lia. Qed.

Lemma untouched_union D D' a n : untouched D a n → untouched D' a n → untouched (D ∪ D') a n.
Proof. intros Hu Hu' s x [Hs|Hs]%elem_of_union; [by apply Hu|by apply Hu']. Qed.

(** Finished slots of another window. *)
Lemma untouched_window wd wd' :
  slots_inside wd → ¬ overlap wd wd' → untouched (list_to_set (w_slots wd)) (w_at wd') (w_len wd').
Proof.
  intros [_ Hin] Hno s x Hs%elem_of_list_to_set Hx Hx'. apply Hno. exists x. split; [|done].
  destruct (Hin _ Hs). unfold within in *. lia.
Qed.

(** What tracing one step of a source gives. *)
Definition traced (started busy : N + nat → Prop) (G : Progress) (w : World) (D : gset N)
    (w' : World) : Prop :=
  ∃ G', Inv G' started busy w' ∧ extends G G' w w' ∧ done_ G' = D ∪ done_ G.

Section source.
Context {started busy : N + nat → Prop} {g : N + nat}.
Context (Hg : live g) (Hst : started g) (Hb : busy g).

Lemma trace_slots_spec wd ss G w c :
  Inv G started busy w → wd ∈ win g → place (moves G) (w_at wd) (w_len wd) c →
  NoDup ss → (∀ s, s ∈ ss → s ∈ w_slots wd ∧ untouched (done_ G) s 8) →
  runs (trace_pointers (map (λ s, c + (s - w_at wd)) ss)) w
    (λ _ w', traced started busy G w (list_to_set ss) w').
Proof.
  intros Hi Hwd. destruct (window_ok _ _ _ _ _ Hwf _ _ Hg Hwd) as [[_ Hins] _].
  revert G w Hi. induction ss as [|s ss IH]; intros G w Hi Hp Hn Hs; simpl.
  { apply runs_ret. exists G. split; [done|]. split; [apply extends_refl|]. set_solver. }
  apply NoDup_cons in Hn as [Hni Hn]. destruct (Hs s) as [Hsw Hu]; [left|].
  destruct (Hins _ Hsw) as (Hal & Hle & Hlt).
  apply runs_bind. eapply runs_mono.
  { eapply (trace_pointer_spec _ _ _ _ _ Hwf G started busy w g s); try done.
    replace s with (w_at wd + (s - w_at wd)) at 1 by lia. by apply (place_sub _ _ _ _ _ (w_len wd)); [|lia]. }
  intros _ w1 (G1 & Hi1 & He1 & Hd1). eapply runs_mono.
  { apply (IH G1 w1 Hi1); [by eapply place_mono; [apply He1|]|done|].
    intros s' Hs'. destruct (Hs s') as [Hs'w Hu']; [by right|]. split; [done|].
    rewrite Hd1. apply untouched_union; [|done]. intros z x ->%elem_of_singleton Hx Hx'.
    destruct (Hins _ Hs'w) as (Hal' & _). by rewrite (words_apart s s' x) in Hni. }
  intros _ w2 (G2 & Hi2 & He2 & Hd2). exists G2. split; [done|]. split; [by eapply extends_trans|].
  rewrite Hd2, Hd1. set_solver.
Qed.

Lemma trace_value_spec n t wd G w c :
  Inv G started busy w → wd ∈ win g → value_window m0 t (w_at wd) = Some wd →
  place (moves G) (w_at wd) (w_len wd) c → untouched (done_ G) (w_at wd) (w_len wd) →
  runs (call_tracer (S n) t c) w (λ _ w', traced started busy G w (list_to_set (w_slots wd)) w').
Proof.
  intros Hi Hwd Hv Hp Hu. destruct (window_ok _ _ _ _ _ Hwf _ _ Hg Hwd) as [[Hn Hins] _].
  assert (Hss : ∀ s, s ∈ w_slots wd → s ∈ w_slots wd ∧ untouched (done_ G) s 8).
  { intros s Hs. split; [done|]. destruct (Hins _ Hs) as (_ & ? & ?). by eapply untouched_sub. }
  pose proof (trace_slots_spec wd (w_slots wd) G w c Hi Hwd Hp Hn Hss) as Hr.
  unfold value_window in Hv. simpl. destruct (tracer_at t) as [[]|] eqn:Et; try done;
    injection Hv as Hv; pose proof (f_equal w_slots Hv) as Hsl; pose proof (f_equal w_len Hv) as Hl;
    simpl in Hsl, Hl; clear Hv; rewrite <- Hsl in Hr |- *; simpl in Hr.
  - rewrite N.sub_diag, N.add_0_r in Hr. revert Hr. unfold runs, mbind, St_bind.
    destruct (trace_pointer c w) as [[[] w']| | |]; done.
  - apply runs_bind, runs_reads.
    rewrite (offsets_stable _ _ _ (λ i, m0 (w_at wd + i)) (λ i, memory w (c + i)) Et).
    + assert (map (λ s, c + (s - w_at wd)) (map (N.add (w_at wd))
        (offsets (λ i, m0 (w_at wd + i)))) =
        map (N.add c) (offsets (λ i, m0 (w_at wd + i)))) as E; [|by rewrite E in Hr].
      rewrite map_map. apply map_ext. intros o. lia.
    + intros i Hlt _. symmetry. eapply (clear_bytes _ _ _ _ _ Hi); [done..|]. by rewrite <- Hl.
Qed.
End source.

(** ** Lists *)

#[local] Arguments source_windows : simpl never.

Section list.
Context {p t : N} {al : Allocation}.
Context (Hp : M !! p = Some al) (Ht : al_trace al = Some t) (Hr : reach p).
Context (Hcode : tracer_at t = Some trace_list_code).
Context {started busy : N + nat → Prop} (Hst : started (inl p)) (Hb : busy (inl p)).

Abbreviation header_window := (mkWindow p LIST_SIZE [p + buffer_data]).

Lemma list_windows : win (inl p) = header_window :: elements m0 p.
Proof. unfold source_windows. rewrite Hp, Ht. unfold windows. by rewrite Hcode. Qed.

Lemma element_lookup i :
  load m0 (p + list_trace_element) ≠ 0 → N.of_nat i < load m0 (p + buffer_len) →
  ∃ wd, win (inl p) !! S i = Some wd ∧ wd ∈ win (inl p) ∧ w_at wd = element_at m0 p i ∧
    value_window m0 (load m0 (p + list_trace_element)) (element_at m0 p i) = Some wd ∧
    inside M (load m0 (p + buffer_data)) wd.
Proof.
  intros He Hi. destruct (wf_list _ _ _ _ _ Hwf _ _ _ Hr Hp Ht Hcode He i Hi) as (Ha & wd & Hv & Hin).
  exists wd. assert (win (inl p) !! S i = Some wd) as Hl.
  { rewrite list_windows. simpl. unfold elements. rewrite (proj2 (N.eqb_neq _ _) He).
    rewrite <- Hv. apply (omap_lookup (λ i, value_window m0 _ (element_at m0 p i))).
    - intros j [_ Hj]%elem_of_seq. destruct (wf_list _ _ _ _ _ Hwf _ _ _ Hr Hp Ht Hcode He j)
        as (_ & wd' & Hv' & _); [lia|]. by eexists.
    - apply lookup_seq. lia. }
  split; [done|]. split; [by eapply list_elem_of_lookup_2|]. split; [|done].
  by eapply value_window_inside.
Qed.

Lemma list_header : inside M p header_window.
Proof.
  destruct (wf_value _ _ _ _ _ Hwf _ _ _ Hr Hp Ht) as [_ Hh]. apply Hh. unfold windows.
  by rewrite Hcode.
Qed.

(** The words of the header that are read keep their values. *)
Definition header_clear (D : gset N) : Prop :=
  ∀ i, i + 8 ≤ 16 ∨ 24 ≤ i ∧ i + 8 ≤ 48 → untouched D (p + i) 8.

Lemma header_word G w q i :
  Inv G started busy w → moves G !! p = Some q → header_clear (done_ G) →
  i + 8 ≤ 16 ∨ 24 ≤ i ∧ i + 8 ≤ 48 → load (memory w) (q + i) = load m0 (p + i).
Proof.
  intros Hi Hq Hc Hw. destruct list_header as (al' & Hal' & Hle & Hlt). simpl in *.
  eapply (clear_load _ _ _ _ _ Hi p 48); [|by apply Hc|unfold LIST_SIZE in *; lia].
  left. exists p, q, al'. unfold LIST_SIZE in *. split_and!; try done; lia.
Qed.

Lemma header_clear_other D wd :
  header_clear D → slots_inside wd → ¬ overlap wd header_window →
  header_clear (list_to_set (w_slots wd) ∪ D).
Proof.
  intros Hc Hin Hno i Hi. apply untouched_union; [|by apply Hc].
  eapply untouched_sub; [by apply untouched_window|..]; simpl; unfold LIST_SIZE; lia.
Qed.

(** The backing storage, after its slot was rewritten. *)
Lemma data_word G w q :
  Inv G started busy w → moves G !! p = Some q → p + buffer_data ∈ done_ G →
  is_Some (M !! load m0 (p + buffer_data)) →
  ∃ b, moves G !! load m0 (p + buffer_data) = Some b ∧ load (memory w) (q + buffer_data) = b.
Proof.
  intros Hi Hq Hd Hsome. destruct (i_done _ _ _ _ _ _ _ _ _ Hi _ Hd) as (_ & _ & Hm & c & Hpl & Hl).
  destruct (Hm Hsome) as [b Hmb]. exists b. split; [done|].
  destruct list_header as (al' & Hal' & Hle & Hlt). unfold LIST_SIZE, buffer_data in *. simpl in *.
  assert (c = q + 16) as <-.
  { eapply place_fun; [|exact Hpl|]; [lia|]. left. exists p, q, al'. split_and!; try done; lia. }
  rewrite Hl. unfold relocated. by rewrite Hmb.
Qed.

Lemma list_apart i j wd wd' :
  win (inl p) !! i = Some wd → win (inl p) !! j = Some wd' → i ≠ j → ¬ overlap wd wd'.
Proof.
  intros Hi Hj Hne Ho.
  by destruct (wf_apart _ _ _ _ _ Hwf (inl p) (inl p) i j wd wd' Hr Hr Hi Hj Ho).
Qed.

Definition element_call (q index : N) : St World () :=
  data ← read_word (q + buffer_data);
  stride ← read_word (q + list_stride);
  call_tracer 1 (load m0 (p + list_trace_element)) (data + index * stride).

Lemma elements_spec q n i G w :
  load m0 (p + list_trace_element) ≠ 0 →
  Inv G started busy w → moves G !! p = Some q → p + buffer_data ∈ done_ G →
  header_clear (done_ G) →
  (i + n = N.to_nat (load m0 (p + buffer_len)))%nat →
  (∀ j wd, (i ≤ j)%nat → win (inl p) !! S j = Some wd → untouched (done_ G) (w_at wd) (w_len wd)) →
  runs (for_range n (N.of_nat i) (element_call q)) w (λ _ w', ∃ D, traced started busy G w D w' ∧
    ∀ j wd s, (i ≤ j)%nat → win (inl p) !! S j = Some wd → s ∈ w_slots wd → s ∈ D).
Proof.
  intros He. revert i G w. induction n as [|n IH]; intros i G w Hi Hq Hd Hc Hn Hu; simpl.
  - apply runs_ret. exists ∅. split.
    + exists G. split; [done|]. split; [apply extends_refl|]. set_solver.
    + intros j wd s Hj Hwd. exfalso. apply lookup_lt_Some in Hwd. rewrite list_windows in Hwd.
      simpl in Hwd. unfold elements in Hwd. rewrite (proj2 (N.eqb_neq _ _) He) in Hwd.
      pose proof (length_omap_le (λ i, value_window m0 (load m0 (p + list_trace_element))
        (element_at m0 p i)) (seq 0 (N.to_nat (load m0 (p + buffer_len))))) as Hle.
      rewrite length_seq in Hle. lia.
  - destruct (element_lookup i He) as (wd & Hl & Hin & Hat & Hv & (ald & Hald & Hle & Hlt)); [lia|].
    destruct (data_word G w q Hi Hq Hd) as (b & Hmb & Hlb); [by eexists|].
    apply runs_bind. unfold element_call at 1. apply runs_bind, runs_reads, runs_bind, runs_reads.
    rewrite Hlb, (header_word G w q list_stride Hi Hq Hc) by (unfold list_stride; lia).
    set (data := load m0 (p + buffer_data)) in *.
    assert (Hpl : place (moves G) (w_at wd) (w_len wd)
      (b + N.of_nat i * load m0 (p + list_stride))).
    { left. exists data, b, ald. split_and!; try done. rewrite Hat. unfold element_at. fold data. lia. }
    eapply runs_mono.
    { eapply (trace_value_spec (g := inl p) Hr Hst Hb 0 _ wd); try done; [by rewrite Hat|].
      by apply (Hu i). }
    intros _ w1 (G1 & Hi1 & He1 & Hd1).
    destruct (window_ok _ _ _ _ _ Hwf (inl p) wd Hr Hin) as [Hwin _].
    replace (N.of_nat i + 1) with (N.of_nat (S i)) by lia.
    eapply runs_mono; [apply (IH (S i) G1 w1 Hi1)|].
    + eapply lookup_weaken; [done|apply He1].
    + rewrite Hd1. set_solver.
    + rewrite Hd1. apply header_clear_other; [done..|].
      apply (list_apart (S i) 0); [done|by rewrite list_windows|done].
    + lia.
    + intros j wd' Hj Hl'. rewrite Hd1. apply untouched_union.
      * apply untouched_window; [done|]. apply (list_apart (S i) (S j)); [done..|lia].
      * apply (Hu j); [lia|done].
    + intros _ w2 (D & (G2 & Hi2 & He2 & Hd2) & HD). exists (D ∪ list_to_set (w_slots wd)). split.
      * exists G2. split; [done|]. split; [by eapply extends_trans|]. rewrite Hd2, Hd1. set_solver.
      * intros j wd' s Hj Hl' Hs. destruct (decide (j = i)) as [->|Hne].
        -- rewrite Hl in Hl'. injection Hl' as <-. set_solver.
        -- apply elem_of_union. left. by eapply (HD j); [lia|..].
Qed.

Lemma trace_list_spec G w q :
  Inv G started busy w → moves G !! p = Some q →
  (∀ wd, wd ∈ win (inl p) → untouched (done_ G) (w_at wd) (w_len wd)) →
  runs (trace_list (call_tracer 1) q) w (λ _ w', ∃ D, traced started busy G w D w' ∧
    ∀ s, slot (inl p) s → s ∈ D).
Proof.
  intros Hi Hq Hu. unfold trace_list.
  assert (Hhd : header_window ∈ win (inl p)) by (rewrite list_windows; left).
  destruct list_header as (al' & Hal' & Hle & Hlt). simpl in Hle, Hlt.
  assert (Hpl : place (moves G) (p + buffer_data) 8 (q + buffer_data)).
  { left. exists p, q, al'. unfold LIST_SIZE, buffer_data in *. split_and!; try done; lia. }
  apply runs_bind. eapply runs_mono.
  { eapply (trace_pointer_spec _ _ _ _ _ Hwf G started busy w (inl p) (p + buffer_data));
      try done; [|left].
    eapply untouched_sub; [by apply Hu|..]; simpl; unfold LIST_SIZE, buffer_data; lia. }
  intros _ w1 (G1 & Hi1 & He1 & Hd1).
  assert (Hq1 : moves G1 !! p = Some q) by (eapply lookup_weaken; [done|apply He1]).
  assert (Hc1 : header_clear (done_ G1)).
  { intros i Hw. rewrite Hd1. apply untouched_union.
    - intros s x ->%elem_of_singleton. unfold buffer_data, within. lia.
    - eapply untouched_sub; [by apply Hu|..]; simpl; unfold LIST_SIZE; lia. }
  apply runs_bind, runs_reads.
  rewrite (header_word G1 w1 q list_trace_element Hi1 Hq1 Hc1) by (unfold list_trace_element; lia).
  destruct (N.eqb_spec (load m0 (p + list_trace_element)) 0) as [E|E].
  { apply runs_ret. exists {[p + buffer_data]}. split; [by exists G1|].
    intros s (wd & Hwd & Hs). rewrite list_windows in Hwd. unfold elements in Hwd.
    rewrite E in Hwd. apply list_elem_of_singleton in Hwd as ->. simpl in Hs. set_solver. }
  apply runs_bind, runs_reads.
  rewrite (header_word G1 w1 q buffer_len Hi1 Hq1 Hc1) by (unfold buffer_len; lia).
  eapply runs_mono.
  { eapply (elements_spec q _ 0 G1 w1); try done; [rewrite Hd1; set_solver|].
    intros j wd Hj Hl. rewrite Hd1. apply untouched_union.
    - pose proof (untouched_window header_window wd) as Hw. simpl in Hw.
      rewrite union_empty_r_L in Hw. apply Hw.
      + by apply (window_ok _ _ _ _ _ Hwf (inl p) _ Hr Hhd).
      + apply (list_apart 0 (S j)); [by rewrite list_windows|done|done].
    - apply Hu. by eapply list_elem_of_lookup_2. }
  intros _ w2 (D & (G2 & Hi2 & He2 & Hd2) & HD). exists (D ∪ {[p + buffer_data]}). split.
  { exists G2. split; [done|]. split; [by eapply extends_trans|]. rewrite Hd2, Hd1. set_solver. }
  intros s (wd & [j Hl]%list_elem_of_lookup & Hs). destruct j as [|j].
  - rewrite list_windows in Hl. injection Hl as <-. simpl in Hs. set_solver.
  - apply elem_of_union. left. by eapply (HD j); [lia|..].
Qed.
End list.

(** A call of an object's tracer at its new place. *)
Lemma trace_object_spec p al t q started busy G w :
  Inv G started busy w → M !! p = Some al → al_trace al = Some t → moves G !! p = Some q →
  started (inl p) → busy (inl p) →
  (∀ wd, wd ∈ win (inl p) → untouched (done_ G) (w_at wd) (w_len wd)) →
  runs (call t q) w (λ _ w', ∃ D, traced started busy G w D w' ∧ ∀ s, slot (inl p) s → s ∈ D).
Proof.
  intros Hi Hp Ht Hq Hst Hb Hu. destruct (i_from _ _ _ _ _ _ _ _ _ Hi _ _ Hq) as [Hr _].
  destruct (wf_value _ _ _ _ _ Hwf _ _ _ Hr Hp Ht) as [[code Hcode] Hh].
  assert (Hwin : win (inl p) = windows m0 t p) by (unfold source_windows; by rewrite Hp, Ht).
  assert (Hhead : ∀ wd rest, windows m0 t p = wd :: rest → place (moves G) (w_at wd) (w_len wd)
    (q + (w_at wd - p))).
  { intros wd rest E. rewrite E in Hh. destruct (Hh wd eq_refl) as (al' & Hal' & ? & ?).
    left. exists p, q, al'. by split_and!. }
  assert (Hvalue : ∀ wd, windows m0 t p = [wd] → value_window m0 t p = Some wd → w_at wd = p →
    runs (call t q) w (λ _ w', ∃ D, traced started busy G w D w' ∧ ∀ s, slot (inl p) s → s ∈ D)).
  { intros wd E Hv Hat. assert (Hin : wd ∈ win (inl p)) by (rewrite Hwin, E; left).
    eapply runs_mono.
    - eapply (trace_value_spec (g := inl p) Hr Hst Hb 1 t wd); try done; [by rewrite Hat| |by apply Hu].
      specialize (Hhead _ _ E). rewrite Hat in Hhead |- *. by rewrite N.sub_diag, N.add_0_r in Hhead.
    - intros u w' Htr. exists (list_to_set (w_slots wd)). split; [exact Htr|]. intros s (wd' & Hwd' & Hs).
      rewrite Hwin, E in Hwd'. apply list_elem_of_singleton in Hwd' as ->. set_solver. }
  unfold call. destruct code as [| | |width offsets].
  - apply (Hvalue (mkWindow p 8 [p])); unfold windows, value_window; by rewrite ?Hcode.
  - assert (E : windows m0 t p = [mkWindow p BUFFER_SIZE [p + buffer_data]]).
    { unfold windows. by rewrite Hcode. }
    simpl. rewrite Hcode. unfold trace_bytes. eapply runs_mono.
    + eapply (trace_pointer_spec _ _ _ _ _ Hwf G started busy w (inl p) (p + buffer_data));
        try done; [| |rewrite Hwin, E; left|left].
      * specialize (Hhead _ _ E). simpl in Hhead. rewrite N.sub_diag, N.add_0_r in Hhead.
        apply (place_sub _ _ _ _ _ 24); [done|unfold buffer_data; lia].
      * eapply untouched_sub; [apply Hu; rewrite Hwin, E; left|..]; simpl;
          unfold BUFFER_SIZE, buffer_data; lia.
    + intros _ w' (G' & ? & ? & ?). exists {[p + buffer_data]}. split; [by exists G'|].
      intros s (wd & Hwd & Hs). rewrite Hwin, E in Hwd. apply list_elem_of_singleton in Hwd as ->.
      simpl in Hs. set_solver.
  - simpl. rewrite Hcode. by eapply trace_list_spec.
  - apply (Hvalue (mkWindow p width (map (N.add p) (offsets (λ i, m0 (p + i))))));
      unfold windows, value_window; by rewrite ?Hcode.
Qed.
End trace.

(** From the roots through the work list: a collection moves exactly what is reachable. *)

Lemma object_count_spec o M : objects_ok o M → object_count o = size M.
Proof.
  intros Ho. unfold object_count. rewrite (counted _ _ (o_arena _ _ Ho)), Nat2N.id.
  assert (large o = filter (λ p, ¬ is_small p.2) M) as ->.
  { apply map_eq. intros x. apply option_eq. intros al.
    by rewrite (o_large _ _ Ho), map_lookup_filter_Some. }
  unfold small_objects. rewrite map_size_fmap, Nat.add_comm.
  rewrite <- map_size_disj_union by apply map_disjoint_filter_complement.
  by rewrite map_filter_union_complement.
Qed.

Lemma forward_size F M : size (forward F M) = size M.
Proof.
  rewrite <- !size_dom. f_equal. apply set_eq. intros x. rewrite !elem_of_dom, forward_lookup.
  apply fmap_is_Some.
Qed.

Definition nothing (_ : N + nat) : Prop := False.

Lemma not_nothing g : ¬ nothing g.
Proof. by intros []. Qed.

Section run.
Context `{CodeSpec} `{SystemSpec}.
Context (s0 : Sys) (o0 : Objects) (M : gmap N Allocation) (m0 : Memory) (chains : list (list RootFrame)).
Abbreviation entries := (root_entries m0 chains).
Context (Hwf : heap_wf s0 o0 M m0 entries) (Hcells : cells_apart s0 o0 M m0 chains).

Abbreviation win := (source_windows m0 M entries).
Abbreviation slot := (is_slot m0 M entries).
Abbreviation reach := (reachable m0 M entries).
Abbreviation Inv := (Inv s0 o0 M m0 entries).
Abbreviation place := (place s0 o0 M).
Abbreviation live := (live M m0 entries).

#[local] Arguments source_windows : simpl never.

(** ** Starting and finishing a source *)

Lemma start_root k G started w :
  Inv G started nothing w → Inv G (λ g, started g ∨ g = inr k) (λ g, g = inr k) w.
Proof.
  intros Hi. destruct Hi. split; try done.
  - intros p Hp [?|?]; [by eapply i_waiting|done].
  - intros p al ? ? ?. destruct (i_traced p al); auto.
  - intros p [?|?]; [auto|done].
  - intros g wd Hg. apply i_fresh. naive_solver.
  - intros g s [Hg|Hg] Hn; [|done]. apply i_complete; [done|apply not_nothing].
Qed.

Definition pop (G : Progress) : Progress := mkProgress (moves G) (table G) (done_ G) (tail (queue G)).

Lemma start_object p P item items G started w :
  Inv G started nothing w → queue G = p :: P → work (heap w) = item :: items →
  Inv (pop G) (λ g, started g ∨ g = inl p) (λ g, g = inl p) (set_heap (with_work items) w).
Proof.
  intros Hi Hq Hw. destruct Hi. rewrite Hq in *. rewrite Hw in i_work.
  apply Forall2_cons in i_work as [(al & Hal & Hp & _) Hrest].
  apply NoDup_cons in i_queue as [Hni Hn].
  split; simpl; rewrite ?Hq; try done.
  - intros p' Hp' [?|[= ->]]; [eapply i_waiting; [by right|done]|done].
  - intros p' al' ? ? ?. destruct (i_traced p' al') as [Hin|?]; [done..| |by right; left].
    apply elem_of_cons in Hin as [->|?]; [by right; right|by left].
  - intros p' [?|[= ->]]; [auto|]. by eexists.
  - intros g wd Hg. apply i_fresh. naive_solver.
  - intros g s [Hg|Hg] Hnb; [|done]. apply i_complete; [done|apply not_nothing].
Qed.

Lemma finish_source g G started w :
  Inv G started (λ g', g' = g) w → (∀ s, slot g s → s ∈ done_ G) → Inv G started nothing w.
Proof.
  intros Hi Hs. destruct Hi. split; try done.
  intros g' s Hg _. destruct (decide (g' = g)) as [->|Hne]; [apply Hs|by apply i_complete].
Qed.

(** The same sources, said differently. *)
Lemma same_started G started started' w :
  Inv G started nothing w → (∀ g, live g → started g ↔ started' g) →
  (∀ g, started' g → live g) → (∀ p, started (inl p) ↔ started' (inl p)) →
  Inv G started' nothing w.
Proof.
  intros Hi Hsame Hlive Hinl. destruct Hi. split; try done.
  - intros p Hp Hs. by apply (i_waiting _ Hp), Hinl.
  - intros p al ? ? ?. rewrite <- Hinl. eauto.
  - intros p Hp. apply i_started. by rewrite Hinl.
  - intros g wd Hg Hl. apply i_fresh; [|done]. by rewrite Hsame.
  - intros g s Hg Hn. apply i_complete; [|done]. rewrite Hsame; auto.
Qed.

(** ** Roots *)

(** The first [k] root entries are traced. *)
Definition roots_below (k : nat) (g : N + nat) : Prop :=
  match g with inl _ => False | inr j => (j < k)%nat end.

Definition roots_done (k : nat) (w0 w : World) : Prop :=
  ∃ G, Inv G (roots_below k) nothing w ∧ settings w = settings w0.

Lemma done_outside G started busy w s x cell :
  Inv G started busy w → s ∈ done_ G → cell ∈ root_cells chains → within cell 16 x →
  ¬ within s 8 x.
Proof.
  intros Hi Hs Hc Hx Hx'. destruct (i_done _ _ _ _ _ _ _ _ _ Hi _ Hs) as (_ & (g & Hg & wd & Hwd & Hsw) & _).
  destruct (Hcells _ _ Hc Hx) as [_ Hno]. apply (Hno g wd Hg Hwd).
  destruct (window_ok _ _ _ _ _ Hwf _ _ Hg Hwd) as [[_ Hin] _].
  destruct (Hin _ Hsw). unfold within in *. lia.
Qed.

Lemma cell_word G started busy w cell i :
  Inv G started busy w → cell ∈ root_cells chains → i + 8 ≤ 16 →
  load (memory w) (cell + i) = load m0 (cell + i).
Proof.
  intros Hi Hc Hle. eapply (clear_load _ _ _ _ _ Hi cell 16); [| |done].
  - right. split; [|done]. intros x Hx. by apply (Hcells cell x).
  - intros s x Hs Hx Hx'. eapply (done_outside _ _ _ _ s x cell); try done.
    unfold within in *. lia.
Qed.

Lemma start_below k G w :
  Inv G (λ g, roots_below k g ∨ g = inr k) nothing w → Inv G (roots_below (S k)) nothing w.
Proof.
  intros Hi. eapply same_started; [done|..].
  - intros [p|j] _; simpl; [naive_solver|]. split; [intros [?|[= ->]]; lia|].
    intros ?. destruct (decide (j = k)) as [->|]; [by right|left; lia].
  - intros [p|j]; done.
  - intros p. simpl. naive_solver.
Qed.

Lemma trace_root_spec k base i w0 w :
  base + i * 16 ∈ root_cells chains → roots_done k w0 w →
  match active m0 (base + i * 16) with
  | Some e => entries !! k = Some e → runs (trace_root base i) w (λ _ w', roots_done (S k) w0 w')
  | None => runs (trace_root base i) w (λ _ w', roots_done k w0 w')
  end.
Proof.
  intros Hc (G & Hi & Hst). set (cell := base + i * 16) in *.
  pose proof (cell_word _ _ _ _ cell 0 Hi Hc ltac:(lia)) as E0. rewrite !N.add_0_r in E0.
  pose proof (cell_word _ _ _ _ cell 8 Hi Hc ltac:(lia)) as E8.
  unfold active. destruct (N.eqb_spec (load m0 cell) 0) as [Ez|Ez].
  - unfold trace_root. apply runs_bind, runs_reads, runs_bind, runs_reads. fold cell.
    rewrite E0, Ez. apply runs_ret. by exists G.
  - intros Hk. unfold trace_root. apply runs_bind, runs_reads, runs_bind, runs_reads. fold cell.
    rewrite E0, E8, (proj2 (N.eqb_neq _ _) Ez).
    destruct (wf_root _ _ _ _ _ Hwf _ _ _ Hk) as (Ha & _ & wd & Hv & Hoff).
    destruct (value_window_inside _ _ _ _ Ha Hv) as [Hat _].
    assert (Hwin : win (inr k) = [wd]) by (unfold source_windows; by rewrite Hk, Hv).
    assert (Hin : wd ∈ win (inr k)) by (rewrite Hwin; left).
    assert (Hlive : live (inr k)) by done.
    assert (Hns : ¬ roots_below k (inr k)) by (simpl; lia).
    pose proof (i_fresh _ _ _ _ _ _ _ _ _ Hi _ _ Hns Hlive Hin) as Hu.
    eapply runs_mono.
    + eapply (trace_value_spec _ _ _ _ _ Hwf (g := inr k) Hlive) with (n := 1%nat) (wd := wd);
        [| |by apply start_root|done| | |exact Hu]; [by right|done|by rewrite Hat|].
      right. split; [done|]. by rewrite Hat.
    + intros u w1 (G1 & Hi1 & He1 & Hd1). exists G1. split; [|by rewrite (e_settings _ _ _ _ He1)].
      apply start_below. apply (finish_source (inr k)); [done|].
      intros s (wd' & Hwd' & Hs). rewrite Hwin in Hwd'. apply list_elem_of_singleton in Hwd' as ->.
      rewrite Hd1. set_solver.
Qed.

(** A stretch of the root arrays: what is in [pre] is traced, then [cells] are. *)
Definition stretch (cells : list N) (m : St World ()) : Prop :=
  ∀ w0 w pre post, entries = pre ++ omap (active m0) cells ++ post →
    (∀ cell, cell ∈ cells → cell ∈ root_cells chains) → roots_done (length pre) w0 w →
    runs m w (λ _ w', roots_done (length (pre ++ omap (active m0) cells)) w0 w').

Lemma stretch_nil : stretch [] (mret tt).
Proof. intros w0 w pre post _ _ Hd. apply runs_ret. simpl. by rewrite app_nil_r. Qed.

Lemma stretch_app cells cells' m m' :
  stretch cells m → stretch cells' m' → stretch (cells ++ cells') (m ;; m').
Proof.
  intros Hm Hm' w0 w pre post E Hc Hd. rewrite omap_app in *. apply runs_bind.
  eapply runs_mono.
  - apply (Hm w0 w pre (omap (active m0) cells' ++ post)); [by rewrite E, <- app_assoc| |done].
    intros cell ?. apply Hc, elem_of_app. by left.
  - intros u w1 Hd1. rewrite app_assoc. apply (Hm' w0 w1 _ post); [by rewrite E, <- !app_assoc| |done].
    intros cell ?. apply Hc, elem_of_app. by right.
Qed.

Lemma stretch_cell base i : stretch [base + i * 16] (trace_root base i).
Proof.
  intros w0 w pre post E Hc Hd. pose proof (trace_root_spec (length pre) base i w0 w) as Hs.
  assert (Hin : base + i * 16 ∈ root_cells chains) by (apply Hc; left).
  specialize (Hs Hin Hd). simpl in *. destruct (active m0 (base + i * 16)) as [e|]; simpl in *.
  - rewrite length_app. simpl. rewrite Nat.add_1_r. apply Hs. rewrite E.
    by rewrite lookup_app_r, Nat.sub_diag by done.
  - by rewrite app_nil_r.
Qed.

Lemma stretch_range base n i :
  stretch (map (λ j, base + N.of_nat j * 16) (seq i n)) (for_range n (N.of_nat i) (trace_root base)).
Proof.
  revert i. induction n as [|n IH]; intros i; simpl; [apply stretch_nil|].
  replace (N.of_nat i + 1) with (N.of_nat (S i)) by lia.
  apply (stretch_app [_]); [apply stretch_cell|apply IH].
Qed.

Lemma stretch_frames frames : stretch (concat (map frame_cells frames)) (trace_frames frames).
Proof.
  induction frames as [|f frames IH]; simpl; [apply stretch_nil|].
  apply stretch_app; [apply (stretch_range _ _ 0)|apply IH].
Qed.

Lemma stretch_chains cs :
  stretch (concat (map (λ frames, concat (map frame_cells frames)) cs)) (trace_chains cs).
Proof.
  induction cs as [|c cs IH]; simpl; [apply stretch_nil|].
  apply stretch_app; [apply stretch_frames|apply IH].
Qed.

Lemma trace_chains_spec w0 w :
  roots_done 0 w0 w → runs (trace_chains chains) w (λ _ w', roots_done (length entries) w0 w').
Proof.
  intros Hd. apply (stretch_chains chains w0 w [] []); [|done|done].
  by rewrite app_nil_r.
Qed.

(** ** The work list *)

Definition with_roots (X : gset N) (g : N + nat) : Prop :=
  match g with inl p => p ∈ X | inr _ => True end.

Lemma roots_complete G w :
  Inv G (roots_below (length entries)) nothing w → Inv G (with_roots ∅) nothing w.
Proof.
  intros Hi. destruct Hi. split; try done.
  - intros p al ? ? ?. destruct (i_traced p al) as [?|[]]; [done..|by left].
  - intros [p|k] wd Hg; [apply i_fresh; by intros []|by destruct Hg].
  - intros [p|k] s Hg _ Hs; simpl in Hg; [by apply not_elem_of_empty in Hg|].
    apply (i_complete (inr k)); [|apply not_nothing|done]. simpl.
    destruct Hs as (wd & Hwd & _). unfold source_windows in Hwd.
    destruct (entries !! k) eqn:E; [by eapply lookup_lt_Some|by apply not_elem_of_nil in Hwd].
Qed.

Lemma trace_work_spec fuel X G w0 w :
  Inv G (with_roots X) nothing w → X ⊆ dom M → (size M < fuel + size X)%nat →
  settings w = settings w0 →
  runs (trace_work fuel) w (λ _ w', ∃ G' X', Inv G' (with_roots X') nothing w' ∧ queue G' = [] ∧
    settings w' = settings w0).
Proof.
  revert X G w. induction fuel as [|fuel IH]; intros X G w Hi HX Hf Hst.
  { exfalso. apply subseteq_size in HX. rewrite size_dom in HX. lia. }
  simpl. apply runs_bind, runs_reads. pose proof (i_work _ _ _ _ _ _ _ _ _ Hi) as Hw.
  destruct (work (heap w)) as [|[q t] items] eqn:Ew.
  { apply Forall2_nil_inv_r in Hw. apply runs_ret. by exists G, X. }
  apply Forall2_cons_inv_r in Hw as (p & P & (al & Hal & Hq & Ht) & _ & Hqueue). simpl in *.
  apply runs_bind, runs_edits, runs_bind.
  assert (Hns : ¬ with_roots X (inl p)).
  { apply (i_waiting _ _ _ _ _ _ _ _ _ Hi). rewrite Hqueue. left. }
  destruct (i_from _ _ _ _ _ _ _ _ _ Hi _ _ Hq) as [Hr _].
  eapply runs_mono.
  { eapply (trace_object_spec _ _ _ _ _ Hwf p al t q); [by eapply start_object|done..| | |].
    - by right.
    - done.
    - intros wd Hwd. by apply (i_fresh _ _ _ _ _ _ _ _ _ Hi (inl p)). }
  intros u w1 (D & (G1 & Hi1 & He1 & Hd1) & HD).
  assert (HpM : p ∈ dom M) by (apply elem_of_dom; eauto).
  eapply (IH ({[p]} ∪ X) G1 w1).
  - eapply same_started; [apply (finish_source (inl p)); [done|]|..].
    + intros s Hs. rewrite Hd1. apply elem_of_union. left. by apply HD.
    + intros [p'|k] _; simpl; [rewrite elem_of_union, elem_of_singleton|]; naive_solver.
    + intros [p'|k]; simpl; [|done]. intros [->%elem_of_singleton|Hp']%elem_of_union; [done|].
      destruct (i_started _ _ _ _ _ _ _ _ _ Hi p' Hp') as [r Hr'].
      by destruct (i_from _ _ _ _ _ _ _ _ _ Hi _ _ Hr').
    + intros p'. simpl. rewrite elem_of_union, elem_of_singleton. naive_solver.
  - by apply union_subseteq; split; [apply singleton_subseteq_l|].
  - rewrite size_union by (by apply disjoint_singleton_l). rewrite size_singleton. lia.
  - by rewrite (e_settings _ _ _ _ He1).
Qed.

(** ** What is moved at the end *)

Lemma moved_reachable G X w p :
  Inv G (with_roots X) nothing w → queue G = [] → is_Some (moves G !! p) ↔ reach p.
Proof.
  intros Hi Hq. split; [intros [q Hp]; by eapply (i_from _ _ _ _ _ _ _ _ _ Hi)|].
  assert (Hdone : ∀ s, s ∈ done_ G → is_Some (M !! load m0 s) → is_Some (moves G !! load m0 s)).
  { intros s Hs. by apply (i_done _ _ _ _ _ _ _ _ _ Hi). }
  induction 1 as [k s Hs Hsome|p s Hp IH Hs Hsome]; apply Hdone; try done.
  - by apply (i_complete _ _ _ _ _ _ _ _ _ Hi (inr k)); [|apply not_nothing|].
  - apply (i_complete _ _ _ _ _ _ _ _ _ Hi (inl p)); [|apply not_nothing|done].
    destruct Hs as (wd & Hwd & _). unfold source_windows in Hwd.
    destruct (M !! p) as [al|] eqn:Hal; [|by apply not_elem_of_nil in Hwd].
    destruct (al_trace al) as [t|] eqn:Ht; [|by apply not_elem_of_nil in Hwd].
    destruct (i_traced _ _ _ _ _ _ _ _ _ Hi p al) as [Hin|?]; [done|done|by rewrite Ht| |done].
    rewrite Hq in Hin. by apply not_elem_of_nil in Hin.
Qed.
End run.
