(* ===== verification/Collect.v ===== *)
(** The end of a collection: registrations that do not keep objects alive follow them or are
    dropped, and the old storage is given back. *)

From S2P Require Import Prelude Effects Memory Arena ArenaFacts ObjectFacts Heap Reach CollectInv CollectVisit CollectTrace.

Lemma unmap_all `{SystemSpec} ms s y :
  in_use (foldl (λ s p, unmap_pages p s) s ms) y ↔ in_use s y ∧ ¬ mapped ms y.
Proof.
  unfold mapped. revert s. induction ms as [|m ms IH]; intros s; simpl.
  - split; [intros ?; split; [done|]|by intros []]. by intros (m & ?%not_elem_of_nil & _).
  - rewrite IH, unmap_frees. setoid_rewrite elem_of_cons. naive_solver.
Qed.

Section weak.
Context `{SystemSpec}.
Context {o : Objects} {M : gmap N Allocation} {F : gmap N N}.
Context (Ho : objects_ok o (forward F M)) (Hdom : ∀ p, is_Some (F !! p) → is_Some (M !! p)).
Context (Hinj : ∀ p p' q, F !! p = Some q → F !! p' = Some q → p = p').
Context (Hzero : ∀ p, F !! p ≠ Some 0).

Lemma forwarded_spec p : forwarded o p = Ok (default 0 (F !! p)).
Proof.
  unfold forwarded. rewrite (get_object_spec Ho). simpl. f_equal. rewrite forward_lookup.
  destruct (M !! p) eqn:Hp; simpl; [done|].
  destruct (F !! p) eqn:E; [|done]. destruct (Hdom p); [eauto|congruence].
Qed.

(** ** Locks *)

Lemma relocate_entries_spec l acc :
  NoDup l.*1 →
  ∃ locks, relocate_entries o l acc = Ok locks ∧ ∀ q x, locks !! q = Some x ↔
    (∃ p, (p, x) ∈ l ∧ F !! p = Some q) ∨
    (acc !! q = Some x ∧ ∀ p, p ∈ l.*1 → F !! p ≠ Some q).
Proof.
  revert acc. induction l as [|[p x] l IH]; intros acc; simpl.
  { intros _. exists acc. split; [done|]. intros q y. split.
    - intros Hy. right. split; [done|]. by intros p ?%not_elem_of_nil.
    - intros [(p & ?%not_elem_of_nil & _)|[? _]]; done. }
  intros [Hni Hn]%NoDup_cons. rewrite forwarded_spec. simpl.
  destruct (F !! p) as [q0|] eqn:Hp; simpl.
  - destruct (N.eqb_spec q0 0) as [->|Hne]; [by destruct (Hzero p)|].
    destruct (IH (<[q0:=x]> acc) Hn) as (locks & -> & Hl). exists locks. split; [done|].
    intros q y. rewrite Hl, lookup_insert_Some. setoid_rewrite elem_of_cons. split.
    + intros [(p' & ? & ?)|[[[<- <-]|[? ?]] Hno]]; [left; eauto|left; eauto|].
      right. split; [done|]. intros p' [->|Hp']; [congruence|by apply Hno].
    + intros [(p' & [[= -> ->]|Hin] & Hq)|[Ha Hno]].
      * rewrite Hp in Hq. injection Hq as ->. right. split; [by left|]. intros p' Hp' Hq'.
        by rewrite (Hinj p p' q) in Hni.
      * left. eauto.
      * right. split; [right; split; [intros <-; eapply Hno; [by left|done]|done]|]. eauto.
  - destruct (IH acc Hn) as (locks & -> & Hl). exists locks. split; [done|].
    intros q y. rewrite Hl. setoid_rewrite elem_of_cons. split.
    + intros [(p' & ? & ?)|[? Hno]]; [left; eauto|].
      right. split; [done|]. intros p' [->|Hp']; [congruence|by apply Hno].
    + intros [(p' & [[= -> ->]|Hin] & Hq)|[Ha Hno]]; [congruence|left; eauto|right; eauto].
Qed.

Lemma relocate_spec locks :
  ∃ locks', relocate o locks = Ok locks' ∧
    ∀ q x, locks' !! q = Some x ↔ ∃ p, locks !! p = Some x ∧ F !! p = Some q.
Proof.
  destruct (relocate_entries_spec (map_to_list locks) ∅) as (locks' & E & Hl).
  { apply NoDup_fst_map_to_list. }
  exists locks'. split; [done|]. intros q x. rewrite Hl. setoid_rewrite elem_of_map_to_list.
  split; [intros [?|[? _]]; [done|by rewrite lookup_empty in *]|by left].
Qed.

(** ** Views *)

(** A view whose lists are both alive. *)
Definition keep_view (F : gmap N N) (v : ListView) : option ListView :=
  s ← F !! source v; r ← F !! removed v; Some (mkListView s r (start v) (end_ v)).

(** The marks of lists are words of their own. *)
Definition marks_apart (views : list ListView) : Prop :=
  ∀ v v' q q' y, v ∈ views → v' ∈ views → F !! source v = Some q → F !! source v' = Some q' →
    within (q + list_watched) 8 y → within (q' + list_watched) 8 y → q = q'.

Definition off_marks (views : list ListView) (y : N) : Prop :=
  ∀ v q, v ∈ views → F !! source v = Some q → ¬ within (q + list_watched) 8 y.

Lemma marks_tail v views : marks_apart (v :: views) → marks_apart views.
Proof. intros Hap v1 v2 q1 q2 y ? ?. apply (Hap v1 v2); by right. Qed.

Lemma off_tail v views y : off_marks (v :: views) y → off_marks views y.
Proof. intros Hy v' q' Hv'. apply Hy. by right. Qed.

(** The mark of the first view is that of another one or is left alone by the others. *)
Lemma mark_cases v views q m m' :
  marks_apart (v :: views) → F !! source v = Some q →
  (∀ y, off_marks views y → m y = m' y) →
  (∃ v', v' ∈ views ∧ F !! source v' = Some q) ∨
  (q ∉ omap (λ v, F !! source v) views) ∧ load m (q + list_watched) = load m' (q + list_watched).
Proof.
  intros Hap Hq Hm. destruct (decide (q ∈ omap (λ v, F !! source v) views)) as [Hin|Hnin].
  - left. by apply list_elem_of_omap in Hin as (v2 & Hv2 & Hq2); eauto.
  - right. split; [done|]. apply load_same. intros x Hx. apply Hm. intros v2 q2 Hv2 Hq2 Hx2.
    apply Hnin, list_elem_of_omap. exists v2. split; [done|]. rewrite Hq2. f_equal. symmetry.
    eapply (Hap v v2); [left|by right|done..].
Qed.

Lemma kept_source views q :
  q ∈ map source (omap (keep_view F) views) → ∃ v, v ∈ views ∧ F !! source v = Some q.
Proof.
  intros (k & -> & (v & Hv & Hk)%list_elem_of_omap)%list_elem_of_fmap. exists v. split; [done|].
  unfold keep_view in Hk. destruct (F !! source v), (F !! removed v); simpl in Hk; try done.
  by injection Hk as <-.
Qed.

Lemma unwatch_spec views w :
  marks_apart views →
  runs (unwatch o views) w (λ _ w', ∃ m, w' = set_memory (λ _, m) w ∧
    (∀ y, off_marks views y → m y = memory w y) ∧
    ∀ v q, v ∈ views → F !! source v = Some q → load m (q + list_watched) = 0).
Proof.
  revert w. induction views as [|v views IH]; intros w Hap; simpl.
  { apply runs_ret. exists (memory w). split; [by destruct w|]. split; [done|].
    by intros v q ?%not_elem_of_nil. }
  pose proof (marks_tail _ _ Hap) as Hap'.
  apply runs_bind. eapply runs_lift; [apply forwarded_spec|].
  destruct (F !! source v) as [q|] eqn:Hq; simpl.
  - destruct (N.eqb_spec q 0) as [->|Hne]; [by destruct (Hzero (source v))|].
    apply runs_bind, runs_edits. eapply runs_mono; [by apply IH|].
    intros _ w' (m & -> & Hm & Hz). exists m. split; [done|]. simpl in *. split.
    + intros y Hy. rewrite Hm by by eapply off_tail.
      apply store_out. apply (Hy v q); [left|done].
    + intros v' q' [->|Hv']%elem_of_cons Hq'; [|by apply (Hz v')].
      rewrite Hq in Hq'. injection Hq' as <-.
      destruct (mark_cases _ _ _ _ _ Hap Hq Hm) as [(v2 & Hv2 & Hq2)|[_ ->]]; [by apply (Hz v2)|].
      by apply load_store.
  - apply runs_bind, runs_ret. eapply runs_mono; [by apply IH|].
    intros _ w' (m & -> & Hm & Hz). exists m. split; [done|]. split.
    + intros y Hy. by eapply Hm, off_tail.
    + intros v' q' [->|Hv']%elem_of_cons Hq'; [congruence|by apply (Hz v')].
Qed.

Lemma retain_views_spec views w :
  marks_apart views →
  runs (retain_views o views) w (λ kept w', kept = omap (keep_view F) views ∧
    ∃ m, w' = set_memory (λ _, m) w ∧ (∀ y, off_marks views y → m y = memory w y) ∧
    ∀ v q, v ∈ views → F !! source v = Some q → load m (q + list_watched) =
      if decide (q ∈ map source kept) then 1 else load (memory w) (q + list_watched)).
Proof.
  revert w. induction views as [|v views IH]; intros w Hap; simpl.
  { apply runs_ret. split; [done|]. exists (memory w). split; [by destruct w|]. split; [done|].
    by intros v q ?%not_elem_of_nil. }
  pose proof (marks_tail _ _ Hap) as Hap'.
  apply runs_bind. eapply runs_lift; [apply forwarded_spec|].
  apply runs_bind. eapply runs_lift; [apply forwarded_spec|].
  assert (Hdrop : keep_view F v = None →
    runs (retain_views o views) w (λ kept w', kept = omap (keep_view F) (v :: views) ∧
    ∃ m, w' = set_memory (λ _, m) w ∧ (∀ y, off_marks (v :: views) y → m y = memory w y) ∧
    ∀ v' q, v' ∈ v :: views → F !! source v' = Some q → load m (q + list_watched) =
      if decide (q ∈ map source kept) then 1 else load (memory w) (q + list_watched))).
  { intros Hk. eapply runs_mono; [by apply IH|]. intros kept w' (-> & m & -> & Hm & Hl).
    simpl. rewrite Hk. split; [done|]. exists m. split; [done|]. split.
    - intros y Hy. by eapply Hm, off_tail.
    - intros v' q [->|Hv']%elem_of_cons Hq; [|by apply (Hl v')].
      destruct (mark_cases _ _ _ _ _ Hap Hq Hm) as [(v2 & Hv2 & Hq2)|[Hno Hm']]; [by apply (Hl v2)|].
      rewrite decide_False; [done|]. intros (v2 & Hv2 & Hq2)%kept_source.
      apply Hno, list_elem_of_omap. by exists v2. }
  destruct (F !! source v) as [q|] eqn:Hq, (F !! removed v) as [r|] eqn:Hr; simpl;
    rewrite ?orb_true_r; try (apply Hdrop; unfold keep_view; by rewrite Hq, ?Hr).
  destruct (N.eqb_spec q 0) as [->|Hne]; [by destruct (Hzero (source v))|].
  destruct (N.eqb_spec r 0) as [->|Hne']; [by destruct (Hzero (removed v))|]. simpl. clear Hdrop.
  apply runs_bind, runs_edits, runs_bind. eapply runs_mono; [by apply IH|].
  intros kept w' (-> & m & -> & Hm & Hl). apply runs_ret. unfold keep_view at 2. rewrite Hq, Hr.
  simpl in *. split; [done|]. exists m. split; [done|]. split.
  { intros y Hy. rewrite Hm by by eapply off_tail. apply store_out. apply (Hy v q); [left|done]. }
  assert (H1 : load (store (q + list_watched) 1 (memory w)) (q + list_watched) = 1) by by apply load_store.
  intros v' q' Hv' Hq'. destruct (decide (q' = q)) as [->|Hqq].
  - rewrite decide_True by left.
    destruct (mark_cases _ _ _ _ _ Hap Hq Hm) as [(v2 & Hv2 & Hq2)|[_ ->]]; [|done].
    rewrite (Hl v2 q Hv2 Hq2). by case_decide.
  - apply elem_of_cons in Hv' as [->|Hv']; [congruence|]. rewrite (Hl v' q' Hv' Hq').
    rewrite (decide_ext _ (q' ∈ q :: map source (omap (keep_view F) views))).
    + case_decide; [done|]. apply load_same. intros x Hx. apply store_out. intros Hx'.
      apply Hqq. symmetry. eapply (Hap v v'); [left|by right|done..].
    + rewrite elem_of_cons. naive_solver.
Qed.

(** ** Storage *)

Lemma free_large_spec s y :
  in_use (free_large o s) y ↔
  in_use s y ∧ ¬ ∃ p al, M !! p = Some al ∧ ¬ is_small al ∧ extent p al y ∧ F !! p ≠ Some p.
Proof.
  assert (Hl : ∀ p al, (p, al) ∈ map_to_list (large o) →
    ∃ al', M !! p = Some al' ∧ ¬ is_small al' ∧ al_size al = al_size al' ∧
      al_forwarded al = default 0 (F !! p)).
  { intros p al Hin%elem_of_map_to_list%(o_large _ _ Ho). rewrite forward_lookup in Hin.
    destruct Hin as [(al' & Hal' & ->)%fmap_Some Hs]. by exists al'. }
  assert (Hl' : ∀ p al', M !! p = Some al' → ¬ is_small al' →
    ∃ al, (p, al) ∈ map_to_list (large o) ∧ al_size al = al_size al').
  { intros p al' Hp Hs. eexists. rewrite elem_of_map_to_list, (o_large _ _ Ho), forward_lookup, Hp.
    simpl. split; [split; [done|]|done]. done. }
  assert (Hz : ∀ p al, (p, al) ∈ map_to_list (large o) → p ≠ 0).
  { intros p al [Hin _]%elem_of_map_to_list%(o_large _ _ Ho). by apply (o_block _ _ Ho p al). }
  unfold free_large. 
  assert (Hfold : ∀ l s, (∀ p al, (p, al) ∈ l → (p, al) ∈ map_to_list (large o)) →
    in_use (foldl (λ s p, if individually_owned p.2 && negb (al_forwarded p.2 =? p.1)
      then dealloc p.1 (al_size p.2) s else s) s l) y ↔
    in_use s y ∧ ¬ ∃ p al, (p, al) ∈ l ∧ within p (al_size al) y ∧ F !! p ≠ Some p).
  { clear s. intros l. induction l as [|[p al] l IH]; intros s Hin; simpl.
    - split; [intros ?; split; [done|]|by intros []]. by intros (p & al & ?%not_elem_of_nil & _).
    - rewrite IH by (intros; apply Hin; by right).
      destruct (Hl p al) as (al' & Hal' & Hs & Hsz & Hf); [apply Hin; left|].
      assert (individually_owned al = true) as ->.
      { unfold individually_owned. apply N.leb_le. unfold is_small in Hs. rewrite Hsz. lia. }
      assert (Hpz : p ≠ 0) by (eapply Hz, Hin; left).
      assert (Hkeep : (al_forwarded al =? p) = bool_decide (F !! p = Some p)).
      { rewrite Hf. apply eq_true_iff_eq. rewrite N.eqb_eq, bool_decide_eq_true.
        destruct (F !! p); simpl; naive_solver. }
      rewrite Hkeep. setoid_rewrite elem_of_cons. case_bool_decide as E; simpl.
      + split; [|naive_solver]. intros [? Hno]. split; [done|].
        intros (p' & al2 & [[= -> ->]|?] & ? & ?); [done|]. apply Hno. eauto.
      + rewrite dealloc_frees. naive_solver. }
  rewrite Hfold by done. split; intros [? Hno]; (split; [done|]).
  - intros (p & al & Hp & Hs & Hy & Hk). destruct (Hl' p al Hp Hs) as (al2 & Hin & Hsz).
    apply Hno. exists p, al2. rewrite Hsz. done.
  - intros (p & al & Hin & Hy & Hk). destruct (Hl p al Hin) as (al' & Hp & Hs & Hsz & _).
    apply Hno. exists p, al'. unfold extent. rewrite <- Hsz. done.
Qed.

Lemma clear_objects_spec s :
  ∃ s', clear_objects o s = Ok (no_objects, s') ∧
    ∀ y, in_use s' y ↔ in_use s y ∧ ¬ mapped (mappings (arena o)) y.
Proof.
  unfold clear_objects, clear_arena, mbind, St_bind, edits. simpl. eexists. split; [done|].
  intros y. apply unmap_all.
Qed.
End weak.

(** ** The end of a heap *)

Section drop.
Context `{SystemSpec}.

Lemma drop_large o M s y :
  objects_ok o M →
  in_use (foldl (λ s p, if individually_owned p.2 then dealloc p.1 (al_size p.2) s else s) s
    (map_to_list (large o))) y ↔
  in_use s y ∧ ¬ ∃ p al, M !! p = Some al ∧ ¬ is_small al ∧ extent p al y.
Proof.
  intros Ho.
  assert (Hfold : ∀ l s, (∀ p al, (p, al) ∈ l → ¬ is_small al) →
    in_use (foldl (λ s p, if individually_owned p.2 then dealloc p.1 (al_size p.2) s else s) s l) y ↔
    in_use s y ∧ ¬ ∃ p al, (p, al) ∈ l ∧ extent p al y).
  { clear s. intros l. induction l as [|[p al] l IH]; intros s Hl; simpl.
    - split; [intros ?; split; [done|]|by intros []]. by intros (p & al & ?%not_elem_of_nil & _).
    - rewrite IH by (intros p' al' ?; apply (Hl p'); by right).
      assert (individually_owned al = true) as ->.
      { unfold individually_owned. apply N.leb_le. pose proof (Hl p al ltac:(left)) as Hs.
        unfold is_small in Hs. lia. }
      rewrite dealloc_frees. setoid_rewrite elem_of_cons. unfold extent. naive_solver. }
  rewrite Hfold.
  - setoid_rewrite elem_of_map_to_list. setoid_rewrite (o_large _ _ Ho). naive_solver.
  - by intros p al [_ ?]%elem_of_map_to_list%(o_large _ _ Ho).
Qed.

Lemma drop_heap_spec h M s y :
  objects_ok (objects h) M → previous h = no_objects →
  in_use (drop_heap h s) y ↔ in_use s y ∧ ¬ owned (objects h) M y.
Proof.
  intros Ho Hp. unfold drop_heap, owned. rewrite Hp.
  assert (∀ s : Sys, free_large no_objects s = s) as -> by (intros; unfold free_large; simpl; by rewrite map_to_list_empty).
  simpl. rewrite unmap_all, (drop_large _ _ _ _ Ho). naive_solver.
Qed.
End drop.

(** [collect_roots] as a whole: what is reachable is moved, with its bytes and its references,
    and everything else is given back. *)

Section collect.
Context `{CodeSpec} `{SystemSpec}.

(** A heap at the beginning of a collection from [chains]. *)
Record ready (w : World) (M : gmap N Allocation) (chains : list (list RootFrame)) : Prop := {
  r_idle : collecting (heap w) = false;
  r_previous : previous (heap w) = no_objects;
  r_heap : heap_wf (sys w) (objects (heap w)) M (memory w) (root_entries (memory w) chains);
  r_cells : cells_apart (sys w) (objects (heap w)) M (memory w) chains;
  r_views v : v ∈ list_views (heap w) →
    ∃ al t, M !! source v = Some al ∧ al_trace al = Some t ∧ tracer_at t = Some trace_list_code;
}.

(** The outcome: [F] says where every reachable object went, [N] are the objects now. *)
Record collected (w w' : World) (M : gmap N Allocation) (chains : list (list RootFrame))
    (F : gmap N N) (N : gmap N Allocation) : Prop := {
  (** Exactly the reachable objects are kept, apart from each other. *)
  c_moved p : is_Some (F !! p) ↔ reachable (memory w) M (root_entries (memory w) chains) p;
  c_injective p p' q : F !! p = Some q → F !! p' = Some q → p = p';
  c_table : objects_ok (objects (heap w')) N;
  c_image q al' : N !! q = Some al' ↔ ∃ p al, F !! p = Some q ∧ M !! p = Some al ∧ al' = renew al;
  (** Large objects stay where they are, but not under stress. *)
  c_keep p q al : F !! p = Some q → M !! p = Some al →
    q = p ↔ stress (heap w) = false ∧ ¬ is_small al;
  (** Every slot of a root or a reachable object holds its old word, relocated. *)
  c_slots g s : live M (memory w) (root_entries (memory w) chains) g →
    is_slot (memory w) M (root_entries (memory w) chains) g s →
    ∃ c, place (sys w) (objects (heap w)) M F s 8 c ∧
      load (memory w') c = relocated F (load (memory w) s) ∧
      (is_Some (M !! load (memory w) s) → is_Some (F !! load (memory w) s));
  (** All other bytes, of moved objects and outside the heap, are as they were. *)
  c_bytes x y : place (sys w) (objects (heap w)) M F x 1 y →
    (∀ g s, live M (memory w) (root_entries (memory w) chains) g →
      is_slot (memory w) M (root_entries (memory w) chains) g s → ¬ within s 8 x) →
    (∀ v, v ∈ list_views (heap w) → is_Some (F !! source v) →
      ¬ within (source v + list_watched) 8 x) →
    memory w' y = memory w x;
  (** Nothing else stays in use. *)
  c_use y : in_use (sys w') y ↔
    outside (sys w) (objects (heap w)) M y ∨ owned (objects (heap w')) N y;
  c_outside y : owned (objects (heap w')) N y → ¬ outside (sys w) (objects (heap w)) M y;
  (** The accounts, and what tracing leaves alone. *)
  c_bytes_live : bytes (heap w') = total N;
  c_threshold : threshold (heap w') = N.max (saturating_mul (total N) 2) MIN_THRESHOLD;
  c_idle : collecting (heap w') = false ∧ previous (heap w') = no_objects;
  c_same : stress (heap w') = stress (heap w) ∧ ROOTS w' = ROOTS w;
  (** Registrations follow the objects that are alive. *)
  c_views : list_views (heap w') = omap (keep_view F) (list_views (heap w));
  c_watched v q : v ∈ list_views (heap w) → F !! source v = Some q →
    load (memory w') (q + list_watched) =
    if decide (q ∈ map source (list_views (heap w'))) then 1 else 0;
  c_access q l : access (heap w') !! q = Some l ↔
    ∃ p, access (heap w) !! p = Some l ∧ F !! p = Some q;
  c_mutexes q l : mutexes (heap w') !! q = Some l ↔
    ∃ p, mutexes (heap w) !! p = Some l ∧ F !! p = Some q;
}.

Section proof.
Context {w : World} {M : gmap N Allocation} {chains : list (list RootFrame)}.
Context (Hr : ready w M chains).

Abbreviation m0 := (memory w).
Abbreviation entries := (root_entries (memory w) chains).
Abbreviation o0 := (objects (heap w)).
Abbreviation Inv := (Inv (sys w) (objects (heap w)) M (memory w) entries).

Definition begun : World :=
  set_heap (λ h, mkHeap (previous h) (objects h) true [] 0 (threshold h) (stress h)
         (list_views h) (access h) (mutexes h)) w.

Lemma begin_spec : begin_collection w = Ok (tt, begun).
Proof.
  unfold begin_collection, mbind, St_bind, reads. simpl. by rewrite (r_idle _ _ _ Hr).
Qed.

Lemma nothing_owned y : ¬ owned no_objects ∅ y.
Proof.
  intros [(m & Hm & _)|(x & al & Hx & _)]; [by apply not_elem_of_nil in Hm|].
  by rewrite lookup_empty in Hx.
Qed.

Lemma nothing_placed x y : place (sys w) o0 M ∅ x 1 y → y = x.
Proof. intros [(p & q & al & Hp & _)|[_ ->]]; [by rewrite lookup_empty in Hp|done]. Qed.

Lemma begun_inv : Inv (mkProgress ∅ ∅ ∅ []) (roots_below 0) nothing begun.
Proof.
  pose proof (r_heap _ _ _ Hr) as Hwf.
  assert (forward ∅ M = M) as EM.
  { apply map_eq. intros p. rewrite forward_lookup, lookup_empty. destruct (M !! p) as [al|] eqn:Hp; [|done].
    simpl. pose proof (wf_unmoved _ _ _ _ _ Hwf _ _ Hp). by destruct al; simpl in *; subst. }
  split; simpl; rewrite ?(r_previous _ _ _ Hr), ?EM.
  - apply Hwf.
  - done.
  - apply no_objects_ok.
  - intros y al. rewrite lookup_empty. split; [done|]. intros (p & al' & Hp & _).
    by rewrite lookup_empty in Hp.
  - intros p q. by rewrite lookup_empty.
  - intros p p' q. by rewrite lookup_empty.
  - intros y. pose proof (nothing_owned y). naive_solver.
  - intros y Hy. by apply nothing_owned in Hy.
  - intros y Hy. by apply nothing_owned in Hy.
  - intros p q al. by rewrite lookup_empty.
  - by intros x y ->%nothing_placed _.
  - intros s Hs. by apply not_elem_of_empty in Hs.
  - done.
  - done.
  - constructor.
  - constructor.
  - intros p Hp. by apply not_elem_of_nil in Hp.
  - intros p al [q Hq]. by rewrite lookup_empty in Hq.
  - done.
  - intros g wd _ _ _ s x Hs. by apply not_elem_of_empty in Hs.
  - intros [p|k] s Hg; simpl in Hg; [done|lia].
Qed.

(** ** The end *)

Section finish.
Context {G : Progress} {X : gset N} {w1 : World}.
Context (Hi : Inv G (with_roots X) nothing w1) (Hq : queue G = []).
Context (Hst : settings w1 = settings begun).

Abbreviation F := (moves G).
Abbreviation views := (list_views (heap w)).

(** The header of a list that is observed, before and after. *)
Lemma view_header v q :
  v ∈ views → F !! source v = Some q →
  live M m0 entries (inl (source v)) ∧
  source_windows m0 M entries (inl (source v)) !! 0%nat =
    Some (mkWindow (source v) LIST_SIZE [source v + buffer_data]) ∧
  ∃ al, M !! source v = Some al ∧ LIST_SIZE ≤ al_size al.
Proof.
  intros Hv Hm. destruct (i_from _ _ _ _ _ _ _ _ _ Hi _ _ Hm) as [Hreach _].
  destruct (r_views _ _ _ Hr _ Hv) as (al & t & Hal & Ht & Hcode). split; [done|].
  split; [by rewrite (list_windows M m0 entries Hal Ht Hcode)|].
  destruct (list_header _ _ _ _ _ (r_heap _ _ _ Hr) Hal Ht Hreach Hcode) as (al' & Hal' & Hle & Hlt).
  exists al'. simpl in *. split; [done|lia].
Qed.

Lemma view_place v q :
  v ∈ views → F !! source v = Some q →
  place (sys w) o0 M F (source v + list_watched) 8 (q + list_watched).
Proof.
  intros Hv Hm. destruct (view_header v q Hv Hm) as (_ & _ & al & Hal & Hsz). left.
  exists (source v), q, al. unfold LIST_SIZE, list_watched in *. split_and!; try done; lia.
Qed.

Lemma views_apart : marks_apart (F := F) views.
Proof.
  intros v v' q q' y Hv Hv' Hm Hm' Hy Hy'.
  destruct (view_header v q Hv Hm) as (_ & _ & al & Hal & Hsz).
  destruct (view_header v' q' Hv' Hm') as (_ & _ & al' & Hal' & Hsz').
  destruct (moved_object _ _ _ _ _ Hi _ _ Hm) as (al2 & Hal2 & Ht & _).
  destruct (moved_object _ _ _ _ _ Hi _ _ Hm') as (al2' & Hal2' & Ht' & _). simplify_eq.
  eapply (extents_apart (i_new _ _ _ _ _ _ _ _ _ Hi) _ _ _ _ y Ht Ht');
    unfold extent, within, LIST_SIZE, list_watched in *; simpl; lia.
Qed.

(** Bytes whose old place is no mark are no marks. *)
Lemma unmarked x y :
  place (sys w) o0 M F x 1 y →
  (∀ v, v ∈ views → is_Some (F !! source v) → ¬ within (source v + list_watched) 8 x) →
  off_marks (F := F) views y.
Proof.
  intros Hp Hx v q Hv Hm Hy. apply (Hx v Hv); [by eexists|].
  eapply (slot_byte _ _ _ _ _ Hi); [by apply view_place|done|done].
Qed.

(** Marks are not slots. *)
Lemma slot_unmarked g s c y :
  live M m0 entries g → is_slot m0 M entries g s → place (sys w) o0 M F s 8 c → within c 8 y →
  off_marks (F := F) views y.
Proof.
  intros Hg (wd & Hwd & Hs) Hp Hy. pose proof (r_heap _ _ _ Hr) as Hwf.
  set (x := s + (y - c)).
  assert (Hpx : place (sys w) o0 M F x 1 y).
  { replace y with (c + (y - c)); [eapply place_byte; [done|]|]; unfold within in Hy; lia. }
  apply (unmarked x); [done|]. intros v Hv [q Hm] Hx.
  destruct (view_header v q Hv Hm) as (Hlive & Hhead & _).
  destruct (window_ok _ _ _ _ _ Hwf _ _ Hg Hwd) as [[_ Hin] _]. destruct (Hin _ Hs) as (_ & Hle & Hlt).
  assert (Hxs : within s 8 x) by (unfold x, within in *; lia).
  apply list_elem_of_lookup in Hwd as [i Hwd].
  destruct (wf_apart _ _ _ _ _ Hwf _ _ _ _ _ _ Hg Hlive Hwd Hhead) as [-> ->].
  - exists x. simpl. unfold within, list_watched, LIST_SIZE in *. lia.
  - rewrite Hhead in Hwd. injection Hwd as <-. simpl in Hs. apply list_elem_of_singleton in Hs as ->.
    unfold within, list_watched, buffer_data in *. lia.
Qed.

(** What stays in use when the old storage is gone. *)
Lemma left_in_use y :
  (in_use (sys w1) y ∧
    ¬ (∃ p al, M !! p = Some al ∧ ¬ is_small al ∧ extent p al y ∧ F !! p ≠ Some p)) ∧
    ¬ mapped (mappings (arena o0)) y ↔
  outside (sys w) o0 M y ∨ owned (objects (heap w1)) (table G) y.
Proof.
  pose proof (wf_table _ _ _ _ _ (r_heap _ _ _ Hr)) as Ho. rewrite (i_use _ _ _ _ _ _ _ _ _ Hi). split.
  - intros [[[Hu|Hu] Hfree] Hmap]; [|by right].
    destruct (decide (map_Exists (λ p al, ¬ is_small al ∧ within p (al_size al) y) M)) as [Hex|Hno].
    + apply map_Exists_lookup in Hex as (p & al & Hal & Hs & Hp). right.
      destruct (decide (F !! p = Some p)) as [Hm|Hm]; [|by destruct Hfree; exists p, al].
      replace y with (p + (y - p)) by (unfold within in Hp; lia).
      eapply (moved_owned _ _ _ _ _ Hi); [done..|]. unfold within in Hp. lia.
    + left. split; [done|]. intros [?|(p & al & Hp & Hs & Hy)]; [done|]. apply Hno.
      apply map_Exists_lookup. by exists p, al.
  - intros Hy. split; [split|].
    + destruct Hy as [[? _]|?]; auto.
    + intros (p & al & Hp & Hs & Hpy & Hm). destruct Hy as [[_ Hno]|Hy].
      * apply Hno. right. eauto.
      * apply Hm. by eapply (kept _ _ _ _ _ Hi).
    + intros Hmap. destruct Hy as [[_ Hno]|Hy]; [apply Hno; by left|].
      destruct (i_apart _ _ _ _ _ _ _ _ _ Hi y Hy) as (p & al & Hp & Hs & Hpy & _); [by left|].
      by eapply (o_outside _ _ Ho).
Qed.

Lemma moves_facts :
  (∀ p, is_Some (F !! p) → is_Some (M !! p)) ∧
  (∀ p p' q, F !! p = Some q → F !! p' = Some q → p = p') ∧ (∀ p, F !! p ≠ Some 0).
Proof.
  split_and!.
  - intros p [q Hp]. by apply (i_from _ _ _ _ _ _ _ _ _ Hi _ _ Hp).
  - apply (i_inj _ _ _ _ _ _ _ _ _ Hi).
  - intros p Hp. by destruct (moved_object _ _ _ _ _ Hi _ _ Hp) as (_ & _ & _ & ?).
Qed.

(** The effect of the end on the state. *)
Lemma end_effect :
  runs end_collection w1 (λ _ w', ∃ locks held m s,
    w' = mkWorld (mkHeap (objects (heap w1)) no_objects false (work (heap w1)) (bytes (heap w1))
           (N.max (saturating_mul (bytes (heap w1)) 2) MIN_THRESHOLD) (stress (heap w1))
           (omap (keep_view F) views) locks held) m s (ROOTS w1) ∧
    (∀ q l, locks !! q = Some l ↔ ∃ p, access (heap w) !! p = Some l ∧ F !! p = Some q) ∧
    (∀ q l, held !! q = Some l ↔ ∃ p, mutexes (heap w) !! p = Some l ∧ F !! p = Some q) ∧
    (∀ y, off_marks (F := F) views y → m y = memory w1 y) ∧
    (∀ v q, v ∈ views → F !! source v = Some q → load m (q + list_watched) =
      if decide (q ∈ map source (omap (keep_view F) views)) then 1 else 0) ∧
    ∀ y, in_use s y ↔ outside (sys w) o0 M y ∨ owned (objects (heap w1)) (table G) y).
Proof.
  destruct moves_facts as (Hdom & Hinj & Hzero). pose proof (i_prev _ _ _ _ _ _ _ _ _ Hi) as Ho.
  pose proof Hst as E. injection E as Hc Hs Hth Hv Ha Hm HR. unfold end_collection. apply runs_bind, runs_reads.
  destruct (relocate_spec Ho Hdom Hinj Hzero (access (heap w1))) as (locks & El & Hl).
  destruct (relocate_spec Ho Hdom Hinj Hzero (mutexes (heap w1))) as (held & Eh & Hh).
  rewrite Ha in Hl. rewrite Hm in Hh.
  apply runs_bind. eapply runs_lift; [exact El|]. apply runs_bind. eapply runs_lift; [exact Eh|].
  rewrite Hv. apply runs_bind. eapply runs_mono; [exact (unwatch_spec Ho Hdom Hzero _ _ views_apart)|].
  intros _ w2 (m & -> & Hm1 & Hz). apply runs_bind. eapply runs_mono; [exact (retain_views_spec Ho Hdom Hzero _ _ views_apart)|].
  intros kept w3 (-> & m' & -> & Hm2 & Hk). simpl in *.
  apply runs_bind, runs_edits, runs_bind. eapply runs_on_sys; [done|].
  destruct (clear_objects_spec (o := previous (heap w1)) (free_large (previous (heap w1)) (sys w1)))
    as (s' & Ec & Huse). apply runs_bind. eapply runs_on_sys; [exact Ec|]. apply runs_edits. simpl.
  exists locks, held, m', s'. split; [done|]. split; [done|]. split; [done|]. split; [|split].
  - intros y Hy. by rewrite Hm2, Hm1.
  - intros v q Hv' Hq'. rewrite (Hk _ _ Hv' Hq'), (Hz _ _ Hv' Hq'). done.
  - intros y. rewrite Huse, (free_large_spec Ho), (i_arena _ _ _ _ _ _ _ _ _ Hi). apply left_in_use.
Qed.

Lemma end_spec :
  runs end_collection w1 (λ _ w', collected w w' M chains F (table G)).
Proof.
  pose proof Hst as E. injection E as Hc Hs Hth Hv Ha Hm HR. pose proof (r_heap _ _ _ Hr) as Hwf.
  eapply runs_mono; [apply end_effect|].
  intros _ w' (locks & held & m & s & -> & Hl & Hh & Hoff & Hmark & Huse).
  assert (Hdone : ∀ g p, live M m0 entries g → is_slot m0 M entries g p → p ∈ done_ G).
  { intros g p Hg Hsl. apply (i_complete _ _ _ _ _ _ _ _ _ Hi g); [|apply not_nothing|done].
    destruct g as [p'|k]; [|done]. simpl.
    apply (moved_reachable _ _ _ _ _ _ _ _ p' Hi Hq) in Hg as Hsome.
    destruct Hsl as (wd & Hwd & _). unfold source_windows in Hwd.
    destruct (M !! p') as [al|] eqn:Hal; [|by apply not_elem_of_nil in Hwd].
    destruct (al_trace al) eqn:Ht; [|by apply not_elem_of_nil in Hwd].
    destruct (i_traced _ _ _ _ _ _ _ _ _ Hi p' al Hsome Hal) as [Hin|?]; [by rewrite Ht| |done].
    rewrite Hq in Hin. by apply not_elem_of_nil in Hin. }
  split; simpl; try done.
  - intros p. by apply (moved_reachable _ _ _ _ _ _ _ _ p Hi Hq).
  - apply Hi.
  - apply Hi.
  - apply Hi.
  - intros p q al Hp Hal. rewrite <- Hs. by apply (i_keep _ _ _ _ _ _ _ _ _ Hi).
  - intros g p Hg Hsl.
    destruct (i_done _ _ _ _ _ _ _ _ _ Hi p (Hdone _ _ Hg Hsl)) as (_ & _ & Hsome & c & Hp & Hld).
    exists c. split; [done|]. split; [|done]. rewrite <- Hld. apply load_same. intros y Hy.
    apply Hoff. by eapply slot_unmarked.
  - intros x y Hp Hns Hnm. rewrite Hoff.
    + apply (i_clear _ _ _ _ _ _ _ _ _ Hi); [done|]. intros p z Hp' Hz Hz'.
      destruct (i_done _ _ _ _ _ _ _ _ _ Hi p Hp') as (_ & (g & Hg & Hsl) & _).
      apply (Hns g p Hg Hsl). unfold within in *. assert (z = x) as <- by lia. done.
    + by apply (unmarked x).
  - apply (i_outside _ _ _ _ _ _ _ _ _ Hi).
  - apply (i_bytes _ _ _ _ _ _ _ _ _ Hi).
  - by rewrite (i_bytes _ _ _ _ _ _ _ _ _ Hi).
Qed.
End finish.

Lemma collect_spec :
  runs (collect_roots chains) w (λ _ w', ∃ F N, collected w w' M chains F N).
Proof.
  pose proof (r_heap _ _ _ Hr) as Hwf. pose proof (r_cells _ _ _ Hr) as Hc.
  unfold collect_roots. apply runs_bind. unfold runs at 1. rewrite begin_spec.
  apply runs_bind. eapply runs_mono.
  { apply (trace_chains_spec _ _ _ _ _ Hwf Hc begun begun). exists (mkProgress ∅ ∅ ∅ []).
    split; [apply begun_inv|done]. }
  intros _ w1 (G & Hi & Hst). apply runs_bind, runs_reads, runs_bind.
  rewrite (object_count_spec _ _ (i_prev _ _ _ _ _ _ _ _ _ Hi)), forward_size.
  eapply runs_mono.
  { apply (trace_work_spec _ _ _ _ _ Hwf _ ∅ G begun); [by apply roots_complete|set_solver|lia|done]. }
  intros _ w2 (G2 & X & Hi2 & Hq & Hst2). eapply runs_mono; [exact (end_spec Hi2 Hq Hst2)|].
  intros u w' Hcol. exists (moves G2), (table G2). exact Hcol.
Qed.
End proof.
End collect.
