(* ===== verification/CollectStable.v ===== *)
(** After a collection the heap is well formed again, and everything in it is reachable. *)

From S2P Require Import Prelude Effects Memory Arena ArenaFacts ObjectFacts Heap Reach CollectInv CollectVisit CollectTrace Collect.

Section stable.
Context `{CodeSpec} `{SystemSpec}.
Context {w w' : World} {M M' : gmap N Allocation} {chains : list (list RootFrame)} {F : gmap N N}.
Context (Hr : ready w M chains) (Hc : collected w w' M chains F M').

#[local] Arguments source_windows : simpl never.

Abbreviation m0 := (memory w).
Abbreviation m1 := (memory w').
Abbreviation o0 := (objects (heap w)).
Abbreviation o1 := (objects (heap w')).
Abbreviation entries := (root_entries (memory w) chains).
Abbreviation entries' := (root_entries (memory w') chains).
Abbreviation win := (source_windows m0 M entries).
Abbreviation win' := (source_windows m1 M' entries').
Abbreviation place := (place (sys w) o0 M F).
Abbreviation off := (outside (sys w) o0 M).
Abbreviation live := (live M m0 entries).
Abbreviation views := (list_views (heap w)).

Lemma old_wf : heap_wf (sys w) o0 M m0 entries.
Proof. apply (r_heap _ _ _ Hr). Qed.

Lemma reach_object p : reachable m0 M entries p → is_Some (M !! p).
Proof. by destruct 1. Qed.

Lemma moved_reach p q :
  F !! p = Some q → reachable m0 M entries p ∧ ∃ al, M !! p = Some al ∧ M' !! q = Some (renew al).
Proof.
  intros Hp. assert (Hre : reachable m0 M entries p) by (apply (c_moved _ _ _ _ _ _ Hc); by eexists).
  split; [done|]. destruct (reach_object _ Hre) as [al Hal]. exists al. split; [done|].
  apply (c_image _ _ _ _ _ _ Hc). eauto.
Qed.

Lemma places_inj x x' y : place x 1 y → place x' 1 y → x = x'.
Proof.
  apply (places_differ _ _ _ _ M' o1); try apply Hc.
  intros p q al Hp Hal. destruct (moved_reach _ _ Hp) as (_ & al' & ? & ?). by simplify_eq.
Qed.

Lemma off_kept x : off x → outside (sys w') o1 M' x.
Proof.
  intros Hx. split; [apply (c_use _ _ _ _ _ _ Hc); by left|].
  intros Hown. by apply (c_outside _ _ _ _ _ _ Hc) in Hown.
Qed.

Lemma off_place x : off x → place x 1 x.
Proof. intros Hx. right. split; [|done]. intros z Hz. by assert (z = x) as -> by (unfold within in Hz; lia). Qed.

(** The window that the mark of a view lies in. *)
Lemma mark_window v g i wd x :
  v ∈ views → is_Some (F !! source v) → live g → win g !! i = Some wd →
  within (w_at wd) (w_len wd) x → within (source v + list_watched) 8 x →
  g = inl (source v) ∧ i = 0%nat ∧ w_slots wd = [source v + buffer_data] ∧
  ∃ al t, M !! source v = Some al ∧ al_trace al = Some t ∧ tracer_at t = Some trace_list_code.
Proof.
  intros Hv [q Hm] Hg Hwd Hx Hx'. destruct (moved_reach _ _ Hm) as [Hre _].
  destruct (r_views _ _ _ Hr _ Hv) as (al & t & Hal & Ht & Hcode).
  assert (Hhead : win (inl (source v)) !! 0%nat =
    Some (mkWindow (source v) LIST_SIZE [source v + buffer_data])).
  { by rewrite (list_windows M m0 entries Hal Ht Hcode). }
  destruct (wf_apart _ _ _ _ _ old_wf g (inl (source v)) _ _ _ _ Hg Hre Hwd Hhead) as [-> ->].
  { exists x. simpl. unfold within, list_watched, LIST_SIZE in *. lia. }
  rewrite Hhead in Hwd. injection Hwd as <-. split_and!; try done. by exists al, t.
Qed.

(** Bytes of a window that are in no slot and in no mark keep their values. *)
Lemma window_byte g i wd x y :
  live g → win g !! i = Some wd → within (w_at wd) (w_len wd) x →
  (∀ s, s ∈ w_slots wd → ¬ within s 8 x) →
  (∀ v, v ∈ views → is_Some (F !! source v) → ¬ within (source v + list_watched) 8 x) →
  place x 1 y → m1 y = m0 x.
Proof.
  intros Hg Hwd Hx Hs Hm Hp. apply (c_bytes _ _ _ _ _ _ Hc); [done| |done].
  intros g' s Hg' (wd' & [j Hwd']%list_elem_of_lookup & Hs') Hxs.
  destruct (window_ok _ _ _ _ _ old_wf g' wd' Hg') as [[_ Hin] _]; [by eapply list_elem_of_lookup_2|].
  destruct (Hin _ Hs') as (_ & ? & ?).
  destruct (wf_apart _ _ _ _ _ old_wf _ _ _ _ _ _ Hg Hg' Hwd Hwd') as [<- <-].
  - exists x. split; [done|]. unfold within in *. lia.
  - rewrite Hwd in Hwd'. injection Hwd' as <-. by apply (Hs s).
Qed.

Definition shift_window (c : N) (wd : Window) : Window :=
  mkWindow c (w_len wd) (map (λ s, c + (s - w_at wd)) (w_slots wd)).

(** Values are traced at their new place as they were at the old one. *)
Lemma value_moved t g i wd c :
  live g → win g !! i = Some wd → value_window m0 t (w_at wd) = Some wd →
  (∀ v x, v ∈ views → is_Some (F !! source v) → within (w_at wd) (w_len wd) x →
    ¬ within (source v + list_watched) 8 x) →
  place (w_at wd) (w_len wd) c → value_window m1 t c = Some (shift_window c wd).
Proof.
  intros Hg Hwd Hv Hm Hp. unfold value_window, shift_window in *.
  destruct (tracer_at t) as [[]|] eqn:Et; try done; injection Hv as Hv;
    pose proof (f_equal w_slots Hv) as Hsl; pose proof (f_equal w_len Hv) as Hl; simpl in Hsl, Hl;
    rewrite <- Hsl, <- Hl; simpl.
  - by rewrite N.sub_diag, N.add_0_r.
  - rewrite (offsets_stable _ _ _ (λ i, m0 (w_at wd + i)) (λ i, m1 (c + i)) Et).
    + do 2 f_equal. rewrite map_map. apply map_ext. intros o. lia.
    + intros k Hk Hno. symmetry. rewrite Hl in Hk.
      eapply (window_byte g i wd); try done; [unfold within; lia| |by intros v' ? ?; apply Hm; [..|unfold within; lia]|].
      * intros s Hs Hx. rewrite <- Hsl in Hs. apply list_elem_of_fmap in Hs as (o & -> & Ho).
        apply (Hno o Ho). unfold within in *. lia.
      * by eapply place_byte.
Qed.

(** ** Root entries *)

Lemma cell_byte cell x : cell ∈ root_cells chains → within cell 16 x → m1 x = m0 x.
Proof.
  intros Hcell Hx. destruct (r_cells _ _ _ Hr cell x Hcell Hx) as [Ho Hno].
  apply (c_bytes _ _ _ _ _ _ Hc); [by apply off_place|..].
  - intros g s Hg (wd & Hwd & Hs) Hx'. apply (Hno g wd Hg Hwd).
    destruct (window_ok _ _ _ _ _ old_wf g wd Hg Hwd) as [[_ Hin] _].
    destruct (Hin _ Hs) as (_ & ? & ?). unfold within in *. lia.
  - intros v Hv [q Hm] Hx'. destruct (moved_reach _ _ Hm) as [Hre _].
    destruct (r_views _ _ _ Hr _ Hv) as (al & t & Hal & Ht & Hcode).
    eapply (Hno (inl (source v))); [done| |].
    + rewrite (list_windows M m0 entries Hal Ht Hcode). left.
    + simpl. unfold within, list_watched, LIST_SIZE in *. lia.
Qed.

Lemma entries_same : entries' = entries.
Proof.
  unfold root_entries. apply list_omap_ext, Forall2_same_length_lookup.
  split; [done|]. intros i cell cell' Hi Hi'. rewrite Hi in Hi'. injection Hi' as <-.
  apply list_elem_of_lookup_2 in Hi. unfold active.
  assert (E : ∀ j, j + 8 ≤ 16 → load m1 (cell + j) = load m0 (cell + j)).
  { intros j Hj. apply load_same. intros x Hx. eapply cell_byte; [done|]. unfold within in *. lia. }
  pose proof (E 0) as E0. rewrite N.add_0_r in E0. by rewrite E0, E by lia.
Qed.

(** ** Windows at their new places *)

Definition follows (g g' : N + nat) : Prop :=
  match g, g' with
  | inl p, inl q => F !! p = Some q
  | inr k, inr j => k = j
  | _, _ => False
  end.

Definition moved_window (wd wd' : Window) : Prop :=
  place (w_at wd) (w_len wd) (w_at wd') ∧ wd' = shift_window (w_at wd') wd.

Lemma inside_place p q al a n :
  F !! p = Some q → M !! p = Some al → p ≤ a → a + n ≤ p + al_size al → place a n (q + (a - p)).
Proof. intros. left. exists p, q, al. by split_and!. Qed.

Lemma omap_Forall2 {A} (f f' : A → option Window) (R : Window → Window → Prop) (l : list A) :
  (∀ x, x ∈ l → ∃ a b, f x = Some a ∧ f' x = Some b ∧ R a b) → Forall2 R (omap f l) (omap f' l).
Proof.
  induction l as [|x l IH]; intros Hl; simpl; [constructor|].
  destruct (Hl x) as (a & b & -> & -> & ?); [left|]. constructor; [done|].
  apply IH. intros y Hy. apply Hl. by right.
Qed.

Section lists.
Context {p q t : N} {al : Allocation}.
Context (Hp : F !! p = Some q) (Hal : M !! p = Some al) (Ht : al_trace al = Some t).
Context (Hcode : tracer_at t = Some trace_list_code).

Lemma list_inside : p + LIST_SIZE ≤ p + al_size al.
Proof.
  destruct (list_header _ _ _ _ _ old_wf Hal Ht (proj1 (moved_reach _ _ Hp)) Hcode)
    as (al' & Hal' & _ & Hle). simpl in *. by simplify_eq.
Qed.

Lemma list_place i : i + 8 ≤ LIST_SIZE → place (p + i) 8 (q + i).
Proof.
  intros Hi. pose proof list_inside. replace (q + i) with (q + (p + i - p)) by lia.
  eapply inside_place; [done..| |]; lia.
Qed.

(** The header says the same of the elements. *)
Lemma header_same i : i + 8 ≤ 16 ∨ 24 ≤ i ∧ i + 8 ≤ 40 → load m1 (q + i) = load m0 (p + i).
Proof.
  intros Hi. apply load_eq. intros j Hj. rewrite <- !N.add_assoc. pose proof list_inside.
  assert (Hlive : live (inl p)) by apply (moved_reach _ _ Hp).
  assert (Hhead : win (inl p) !! 0%nat = Some (mkWindow p LIST_SIZE [p + buffer_data])).
  { by rewrite (list_windows M m0 entries Hal Ht Hcode). }
  eapply (window_byte (inl p) 0); [done..| | | |].
  - simpl. unfold within, LIST_SIZE. lia.
  - simpl. intros s ->%list_elem_of_singleton. unfold within, buffer_data. lia.
  - intros v Hv Hm Hx. destruct (mark_window v (inl p) 0 _ (p + (i + j)) Hv Hm Hlive Hhead) as (E & _);
      [simpl; unfold within, LIST_SIZE; lia|done|]. injection E as E.
    unfold within, list_watched in *. lia.
  - replace (q + (i + j)) with (q + (p + (i + j) - p)) by lia.
    eapply inside_place; [done..| |]; unfold LIST_SIZE in *; lia.
Qed.

Lemma data_same b :
  F !! load m0 (p + buffer_data) = Some b → load m1 (q + buffer_data) = b.
Proof.
  intros Hb. destruct (c_slots _ _ _ _ _ _ Hc (inl p) (p + buffer_data)) as (c & Hpl & Hl & _).
  - apply (moved_reach _ _ Hp).
  - exists (mkWindow p LIST_SIZE [p + buffer_data]).
    rewrite (list_windows M m0 entries Hal Ht Hcode). split; [left|simpl; left].
  - rewrite (place_fun _ _ _ _ _ old_wf F (p + buffer_data) 8 (q + buffer_data) c) by
      (done || apply list_place; done). rewrite Hl. unfold relocated. by rewrite Hb.
Qed.

(** An element and its storage, before and after. *)
Lemma element_moved i :
  load m0 (p + list_trace_element) ≠ 0 → N.of_nat i < load m0 (p + buffer_len) →
  ∃ wd wd' b, F !! load m0 (p + buffer_data) = Some b ∧ load m1 (q + buffer_data) = b ∧
    inside M (load m0 (p + buffer_data)) wd ∧
    value_window m0 (load m0 (p + list_trace_element)) (element_at m0 p i) = Some wd ∧
    value_window m1 (load m0 (p + list_trace_element)) (element_at m1 q i) = Some wd' ∧
    w_at wd = element_at m0 p i ∧ w_at wd' = element_at m1 q i ∧
    element_at m1 q i = b + (element_at m0 p i - load m0 (p + buffer_data)) ∧
    moved_window wd wd'.
Proof.
  intros He Hi. assert (Hre : reachable m0 M entries p) by apply (moved_reach _ _ Hp).
  destruct (element_lookup _ _ _ _ _ old_wf Hal Ht Hre Hcode i He Hi)
    as (wd & Hl & Hin & Hat & Hv & Hins).
  destruct Hins as (ald & Hald & Hle & Hlt).
  assert (is_Some (F !! load m0 (p + buffer_data))) as [b Hb].
  { destruct (c_slots _ _ _ _ _ _ Hc (inl p) (p + buffer_data)) as (c & _ & _ & Hsome).
    - done.
    - exists (mkWindow p LIST_SIZE [p + buffer_data]).
      rewrite (list_windows M m0 entries Hal Ht Hcode). split; [left|simpl; left].
    - apply Hsome. by eexists. }
  pose proof (data_same b Hb) as Hd.
  assert (Hst : load m1 (q + list_stride) = load m0 (p + list_stride)).
  { apply header_same. unfold list_stride. lia. }
  assert (Hel : element_at m1 q i = b + (element_at m0 p i - load m0 (p + buffer_data))).
  { unfold element_at. rewrite Hd, Hst. lia. }
  assert (Hpl : place (w_at wd) (w_len wd) (element_at m1 q i)).
  { rewrite Hel, <- Hat. by eapply inside_place. }
  exists wd, (shift_window (element_at m1 q i) wd), b.
  split_and!; try done; [by exists ald|].
  eapply (value_moved _ (inl p) (S i)); [done|done|by rewrite Hat| |done].
  intros v x Hv' Hm Hx Hx'.
  by destruct (mark_window v (inl p) (S i) wd x Hv' Hm Hre Hl Hx Hx') as (_ & ? & _).
Qed.

Lemma elements_moved : Forall2 moved_window (elements m0 p) (elements m1 q).
Proof.
  unfold elements. rewrite (header_same list_trace_element) by (unfold list_trace_element; lia).
  destruct (N.eqb_spec (load m0 (p + list_trace_element)) 0) as [E|E]; [constructor|].
  rewrite (header_same buffer_len) by (unfold buffer_len; lia).
  apply omap_Forall2. intros i [_ Hi]%elem_of_seq.
  destruct (element_moved i E) as (wd & wd' & b & ? & ? & ? & ? & ? & ? & ? & ? & ?); [lia|].
  by exists wd, wd'.
Qed.
End lists.

Lemma slot_shift wd wd' s :
  moved_window wd wd' → slots_inside wd → s ∈ w_slots wd →
  w_at wd' + (s - w_at wd) ∈ w_slots wd' ∧ place s 8 (w_at wd' + (s - w_at wd)).
Proof.
  intros [Hp E] [_ Hin] Hs. destruct (Hin _ Hs) as (_ & ? & ?). split.
  - rewrite E. simpl. apply list_elem_of_fmap. by exists s.
  - replace s with (w_at wd + (s - w_at wd)) at 1 by lia. eapply place_sub; [done|lia].
Qed.

Lemma windows_moved g g' : live g → follows g g' → Forall2 moved_window (win g) (win' g').
Proof.
  intros Hg Hf. destruct g as [p|k], g' as [q|j]; simpl in Hf; try done.
  - destruct (moved_reach _ _ Hf) as (_ & al & Hal & Hal'). unfold source_windows.
    rewrite Hal, Hal'. simpl. destruct (al_trace al) as [t|] eqn:Ht; [|constructor].
    destruct (wf_value _ _ _ _ _ old_wf _ _ _ Hg Hal Ht) as [_ Hhead].
    assert (Hwin : win (inl p) = windows m0 t p) by (unfold source_windows; by rewrite Hal, Ht).
    assert (Hone : ∀ wd, windows m0 t p = [wd] → value_window m0 t p = Some wd → w_at wd = p →
      Forall2 moved_window (option_list (value_window m0 t p)) (option_list (value_window m1 t q))).
    { intros wd E Hv Hat. rewrite E in Hhead. destruct (Hhead wd eq_refl) as (al2 & Hal2 & Hle & Hlt).
      assert (Hpl : place (w_at wd) (w_len wd) q).
      { replace q with (q + (w_at wd - p)) by lia. by eapply inside_place. }
      rewrite (value_moved t (inl p) 0 wd q), Hv; try done; simpl.
      - constructor; [|constructor]. by split.
      - by rewrite Hwin, E.
      - by rewrite Hat.
      - intros v x Hv' Hm Hx Hx'.
        destruct (mark_window v (inl p) 0 wd x Hv' Hm Hg) as (E' & _ & _ & al3 & t3 & Hal3 & Ht3 & Hc3);
          [by rewrite Hwin, E|done|done|]. injection E' as E'.
        rewrite <- E', Hal in Hal3. injection Hal3 as <-. rewrite Ht in Ht3. injection Ht3 as <-.
        unfold value_window in Hv. by rewrite Hc3 in Hv. }
    assert (Hhd : ∀ n rest, windows m0 t p = mkWindow p n [p + buffer_data] :: rest → 24 ≤ n →
      moved_window (mkWindow p n [p + buffer_data]) (mkWindow q n [q + buffer_data])).
    { intros n rest E Hn. rewrite E in Hhead. destruct (Hhead _ eq_refl) as (al2 & Hal2 & Hle & Hlt).
      simpl in *. split; simpl.
      - replace q with (q + (p - p)) by lia. by eapply inside_place.
      - unfold shift_window. simpl. do 2 f_equal. unfold buffer_data. lia. }
    destruct (wf_value _ _ _ _ _ old_wf _ _ _ Hg Hal Ht) as [[code Hcode] _].
    unfold windows. rewrite Hcode. destruct code as [| | |n offs].
    + apply (Hone (mkWindow p 8 [p])); unfold windows, value_window; by rewrite ?Hcode.
    + constructor; [|constructor]. eapply Hhd; [|by unfold BUFFER_SIZE]. unfold windows. by rewrite Hcode.
    + constructor; [eapply Hhd; [unfold windows; by rewrite Hcode|by unfold LIST_SIZE]|].
      by eapply elements_moved.
    + apply (Hone (mkWindow p n (map (N.add p) (offs (λ i, m0 (p + i))))));
        unfold windows, value_window; by rewrite ?Hcode.
  - subst j. unfold source_windows. rewrite entries_same.
    destruct (entries !! k) as [[a t]|] eqn:Hk; [|constructor].
    destruct (wf_root _ _ _ _ _ old_wf _ _ _ Hk) as (Ha & _ & wd & Hv & Hoff).
    destruct (value_window_inside _ _ _ _ Ha Hv) as [Hat _]. rewrite Hv.
    assert (Hpl : place (w_at wd) (w_len wd) a) by (right; split; [exact Hoff|by rewrite Hat]).
    assert (Hwin : win (inr k) !! 0%nat = Some wd) by (unfold source_windows; by rewrite Hk, Hv).
    rewrite (value_moved t (inr k) 0 wd a); try done; simpl.
    + constructor; [|constructor]. by split.
    + by rewrite Hat.
    + intros v x Hv' Hm Hx Hx'. by destruct (mark_window v (inr k) 0 wd x Hv' Hm Hg Hwin Hx Hx').
Qed.

(** ** Reachability *)

Lemma window_lookup g g' i wd' :
  live g → follows g g' → win' g' !! i = Some wd' →
  ∃ wd, win g !! i = Some wd ∧ moved_window wd wd' ∧ slots_inside wd.
Proof.
  intros Hg Hf Hwd'. destruct (Forall2_lookup_r _ _ _ _ _ (windows_moved g g' Hg Hf) Hwd') as (wd & Hwd & Hm).
  exists wd. split; [done|]. split; [done|].
  by apply (window_ok _ _ _ _ _ old_wf g wd Hg), (list_elem_of_lookup_2 _ i).
Qed.

(** The slots of the new heap are the relocated slots of the old one. *)
Lemma slot_moved g g' s' :
  live g → follows g g' → is_slot m1 M' entries' g' s' →
  ∃ s, is_slot m0 M entries g s ∧ place s 8 s' ∧ load m1 s' = relocated F (load m0 s) ∧
    (is_Some (M !! load m0 s) → is_Some (F !! load m0 s)).
Proof.
  intros Hg Hf (wd' & [i Hwd']%list_elem_of_lookup & Hs').
  destruct (window_lookup _ _ _ _ Hg Hf Hwd') as (wd & Hwd & Hm & Hin).
  pose proof Hm as [_ E]. rewrite E in Hs'. simpl in Hs'.
  apply list_elem_of_fmap in Hs' as (s & Es & Hs). destruct (slot_shift _ _ _ Hm Hin Hs) as [_ Hp].
  assert (Hsl : is_slot m0 M entries g s) by (exists wd; split; [by eapply list_elem_of_lookup_2|done]).
  destruct (c_slots _ _ _ _ _ _ Hc g s Hg Hsl) as (c & Hpc & Hl & Hsome).
  exists s. rewrite <- Es in Hp. split; [done|]. split; [done|]. split; [|done].
  by rewrite (place_fun _ _ _ _ _ old_wf F s 8 s' c).
Qed.

Lemma slot_moved_back g g' s :
  live g → follows g g' → is_slot m0 M entries g s →
  ∃ s', is_slot m1 M' entries' g' s' ∧ load m1 s' = relocated F (load m0 s).
Proof.
  intros Hg Hf (wd & [i Hwd]%list_elem_of_lookup & Hs).
  destruct (Forall2_lookup_l _ _ _ _ _ (windows_moved g g' Hg Hf) Hwd) as (wd' & Hwd' & Hm).
  destruct (window_ok _ _ _ _ _ old_wf g wd Hg (list_elem_of_lookup_2 _ _ _ Hwd)) as [Hin _].
  destruct (slot_shift _ _ _ Hm Hin Hs) as [Hs' Hp]. eexists. split.
  - exists wd'. split; [by eapply list_elem_of_lookup_2|exact Hs'].
  - destruct (c_slots _ _ _ _ _ _ Hc g s Hg) as (c & Hpc & Hl & _).
    { exists wd. split; [by eapply list_elem_of_lookup_2|done]. }
    by rewrite (place_fun _ _ _ _ _ old_wf F s 8 _ c ltac:(done) Hp Hpc).
Qed.

(** A relocated word is an object of the new heap only if it was one of the old heap. *)
Lemma word_moved g s :
  live g → is_slot m0 M entries g s →
  (is_Some (M !! load m0 s) → is_Some (F !! load m0 s)) →
  (∃ q, F !! load m0 s = Some q ∧ relocated F (load m0 s) = q ∧ is_Some (M' !! q)) ∨
  (relocated F (load m0 s) = load m0 s ∧ M' !! load m0 s = None ∧
    (load m0 s = 0 ∨ off (load m0 s))).
Proof.
  intros Hg Hs Hsome. set (v := load m0 s) in *. unfold relocated.
  destruct (F !! v) as [q|] eqn:E; simpl.
  { left. exists q. destruct (moved_reach _ _ E) as (_ & al & _ & Hq). by eauto. }
  right. split; [done|].
  destruct (wf_word _ _ _ _ _ old_wf g s Hg Hs) as [Hv|[Hv|Hv]]; fold v in Hv.
  - by destruct (Hsome Hv).
  - split; [|by left]. destruct (M' !! v) as [al|] eqn:Hal; [|done]. exfalso.
    by destruct (o_block _ _ (c_table _ _ _ _ _ _ Hc) _ _ Hal) as (_ & ? & _).
  - split; [|by right]. destruct (M' !! v) as [al|] eqn:Hal; [|done]. exfalso.
    destruct (o_block _ _ (c_table _ _ _ _ _ _ Hc) _ _ Hal) as (_ & _ & Hpos).
    eapply (c_outside _ _ _ _ _ _ Hc v); [|done].
    eapply extent_owned; [apply Hc|done|]. unfold extent, within. lia.
Qed.

Lemma reach_moved q :
  reachable m1 M' entries' q ↔ ∃ p, reachable m0 M entries p ∧ F !! p = Some q.
Proof.
  assert (Hstep : ∀ g g' s', live g → follows g g' → is_slot m1 M' entries' g' s' →
    is_Some (M' !! load m1 s') → ∃ p, reachable m0 M entries p ∧ F !! p = Some (load m1 s')).
  { intros g g' s' Hg Hf Hs' Hsome. destruct (slot_moved g g' s' Hg Hf Hs') as (s & Hs & _ & Hl & Hm).
    rewrite Hl in Hsome |- *. destruct (word_moved g s Hg Hs Hm) as [(q' & Hq & -> & _)|(E & Hno & _)].
    - exists (load m0 s). split; [by apply (moved_reach _ _ Hq)|done].
    - rewrite E, Hno in Hsome. by destruct Hsome. }
  split.
  - induction 1 as [k s Hs Hsome|q' s Hq' (p & Hp & Hm) Hs Hsome].
    + by apply (Hstep (inr k) (inr k)).
    + by apply (Hstep (inl p) (inl q')).
  - intros (p & Hp & Hm). revert q Hm.
    assert (Hback : ∀ g g' s q, live g → follows g g' → is_slot m0 M entries g s →
      F !! load m0 s = Some q → ∃ s', is_slot m1 M' entries' g' s' ∧ load m1 s' = q ∧
        is_Some (M' !! load m1 s')).
    { intros g g' s q Hg Hf Hs Hq. destruct (slot_moved_back g g' s Hg Hf Hs) as (s' & Hs' & Hl).
      exists s'. split; [done|]. unfold relocated in Hl. rewrite Hq in Hl. simpl in Hl.
      split; [done|]. rewrite Hl. destruct (moved_reach _ _ Hq) as (_ & al & _ & ?). by eexists. }
    induction Hp as [k s Hs Hsome|p s Hp IH Hs Hsome]; intros q Hq.
    + destruct (Hback (inr k) (inr k) s q) as (s' & Hs' & <- & ?); [done..|]. by eapply reach_root.
    + destruct (proj2 (c_moved _ _ _ _ _ _ Hc p) Hp) as [r Hpr].
      destruct (Hback (inl p) (inl r) s q) as (s' & Hs' & <- & ?); [done..|].
      by eapply reach_slot; [apply IH|..].
Qed.

(** Sources of the new heap, and where they come from. *)
Lemma source_moved g' : started_at g' M' m1 entries' → ∃ g, live g ∧ follows g g'.
Proof.
  destruct g' as [q|k]; simpl; [|intros _; by exists (inr k)].
  intros (p & Hp & Hm)%reach_moved. by exists (inl p).
Qed.

Lemma follows_inj g g1 g2 : follows g g1 → follows g g2 → g1 = g2.
Proof. destruct g, g1, g2; simpl; try done; congruence. Qed.

Lemma inside_moved b b' wd wd' :
  0 < w_len wd → F !! b = Some b' → inside M b wd → moved_window wd wd' → inside M' b' wd'.
Proof.
  intros Hpos Hb (al & Hal & Hle & Hlt) [Hp E].
  destruct (moved_reach _ _ Hb) as (_ & al' & Hal' & Hb'). simplify_eq.
  assert (w_at wd' = b' + (w_at wd - b)) as Hat.
  { eapply (place_fun _ _ _ _ _ old_wf F (w_at wd) (w_len wd)); [done|done|]. by eapply inside_place. }
  exists (renew al). split; [done|]. rewrite E. simpl. rewrite Hat. lia.
Qed.

Lemma windows_apart_moved g1 g2 i j wd1 wd2 :
  started_at g1 M' m1 entries' → started_at g2 M' m1 entries' →
  win' g1 !! i = Some wd1 → win' g2 !! j = Some wd2 → overlap wd1 wd2 → g1 = g2 ∧ i = j.
Proof.
  intros (h1 & Hl1 & Hf1)%source_moved (h2 & Hl2 & Hf2)%source_moved Hw1 Hw2 (x & Hx1 & Hx2).
  destruct (window_lookup _ _ _ _ Hl1 Hf1 Hw1) as (o1 & Ho1 & [Hp1 E1] & _).
  destruct (window_lookup _ _ _ _ Hl2 Hf2 Hw2) as (o2 & Ho2 & [Hp2 E2] & _).
  rewrite E1 in Hx1. rewrite E2 in Hx2. simpl in Hx1, Hx2.
  assert (Hb : ∀ wd c, place (w_at wd) (w_len wd) c → within c (w_len wd) x →
    place (w_at wd + (x - c)) 1 x ∧ within (w_at wd) (w_len wd) (w_at wd + (x - c))).
  { intros wd c Hp Hx. split; [|unfold within in *; lia].
    replace x with (c + (x - c)) at 2 by (unfold within in Hx; lia).
    eapply place_byte; [done|]. unfold within in Hx. lia. }
  destruct (Hb _ _ Hp1 Hx1) as [Hq1 Hy1]. destruct (Hb _ _ Hp2 Hx2) as [Hq2 Hy2].
  rewrite (places_inj _ _ _ Hq1 Hq2) in Hy1.
  destruct (wf_apart _ _ _ _ _ old_wf _ _ _ _ _ _ Hl1 Hl2 Ho1 Ho2) as [<- <-]; [by eexists|].
  split; [by eapply follows_inj|done].
Qed.

(** ** The new heap is well formed *)

Lemma value_positive m t a wd : value_window m t a = Some wd → 0 < w_len wd.
Proof.
  unfold value_window. destruct (tracer_at t) as [[]|] eqn:E; try done; intros [= <-]; simpl; [lia|].
  by eapply width_positive.
Qed.

Lemma window_positive g wd : wd ∈ win g → 0 < w_len wd.
Proof.
  assert (Hv : ∀ t a, wd ∈ option_list (value_window m0 t a) → 0 < w_len wd).
  { intros t a Hin. destruct (value_window m0 t a) as [wd2|] eqn:E; simpl in Hin;
      [|by apply not_elem_of_nil in Hin].
    apply list_elem_of_singleton in Hin as ->. by eapply value_positive. }
  unfold source_windows. destruct g as [p|k].
  - destruct (M !! p) as [al|]; [|by intros ?%not_elem_of_nil].
    destruct (al_trace al) as [t|]; [|by intros ?%not_elem_of_nil].
    unfold windows. destruct (tracer_at t) as [[]|]; try apply Hv.
    + intros ->%list_elem_of_singleton. simpl. unfold BUFFER_SIZE. lia.
    + intros [->|Hin]%elem_of_cons; [simpl; unfold LIST_SIZE; lia|]. unfold elements in Hin.
      destruct (_ =? 0); [by apply not_elem_of_nil in Hin|].
      apply list_elem_of_omap in Hin as (i & _ & Hi). by eapply value_positive.
  - destruct (entries !! k) as [[a t]|]; [apply Hv|by intros ?%not_elem_of_nil].
Qed.

Lemma stable_value q al t :
  reachable m1 M' entries' q → M' !! q = Some al → al_trace al = Some t →
  is_Some (tracer_at t) ∧ ∀ wd, head (windows m1 t q) = Some wd → inside M' q wd.
Proof.
  intros (p & Hp & Hm)%reach_moved Hq Ht. destruct (moved_reach _ _ Hm) as (_ & al0 & Hal & Hq').
  rewrite Hq in Hq'. injection Hq' as ->. simpl in Ht.
  destruct (wf_value _ _ _ _ _ old_wf _ _ _ Hp Hal Ht) as [Hcode Hhead]. split; [done|].
  intros wd' Hh'. assert (Hw' : win' (inl q) !! 0%nat = Some wd').
  { unfold source_windows. rewrite Hq. simpl. rewrite Ht, <- Hh'. by destruct (windows m1 t q). }
  destruct (window_lookup (inl p) (inl q) _ _ Hp Hm Hw') as (wd & Hwd & Hmw & _).
  assert (Hin : wd ∈ win (inl p)) by by eapply list_elem_of_lookup_2.
  eapply (inside_moved p q wd); [by eapply window_positive|done| |done]. apply Hhead.
  unfold source_windows in Hwd. rewrite Hal, Ht in Hwd. by destruct (windows m0 t p).
Qed.

Lemma stable_list q al t :
  reachable m1 M' entries' q → M' !! q = Some al → al_trace al = Some t →
  tracer_at t = Some trace_list_code → load m1 (q + list_trace_element) ≠ 0 →
  ∀ i, N.of_nat i < load m1 (q + buffer_len) →
  element_at m1 q i mod 8 = 0 ∧
  ∃ wd, value_window m1 (load m1 (q + list_trace_element)) (element_at m1 q i) = Some wd ∧
    inside M' (load m1 (q + buffer_data)) wd.
Proof.
  intros (p & Hp & Hm)%reach_moved Hq Ht Hcode He i Hi.
  destruct (moved_reach _ _ Hm) as (_ & al0 & Hal & Hq').
  rewrite Hq in Hq'. injection Hq' as ->. simpl in Ht.
  assert (E1 := header_same Hm Hal Ht Hcode list_trace_element ltac:(unfold list_trace_element; lia)).
  assert (E2 := header_same Hm Hal Ht Hcode buffer_len ltac:(unfold buffer_len; lia)).
  rewrite E1 in He |- *. rewrite E2 in Hi.
  destruct (element_moved Hm Hal Ht Hcode i He Hi)
    as (wd & wd' & b & Hb & Hd & Hin & Hv & Hv' & Hat & Hat' & Hel & Hmw).
  destruct (wf_list _ _ _ _ _ old_wf _ _ _ Hp Hal Ht Hcode He i Hi) as (Ha & _).
  assert (Hpos : 0 < w_len wd) by by eapply value_positive. split.
  - rewrite Hel. destruct (moved_reach _ _ Hb) as (_ & ald & Hald & Hb').
    destruct (o_block _ _ (c_table _ _ _ _ _ _ Hc) _ _ Hb') as (Hb16 & _).
    destruct (o_block _ _ (wf_table _ _ _ _ _ old_wf) _ _ Hald) as (Hd16 & _).
    apply aligned_add; [by apply aligned_16|].
    apply aligned_16 in Hd16. apply N.Div0.mod_divides in Hd16 as [k Hk].
    apply N.Div0.mod_divides in Ha as [j Hj]. rewrite Hk, Hj, <- N.mul_sub_distr_l, N.mul_comm.
    apply N.Div0.mod_mul.
  - exists wd'. split; [done|]. rewrite Hd. by eapply inside_moved.
Qed.

Lemma collected_wf : heap_wf (sys w') o1 M' m1 entries'.
Proof.
  split.
  - apply Hc.
  - intros x Hx. apply (c_use _ _ _ _ _ _ Hc). by right.
  - intros q al Hq. apply (c_image _ _ _ _ _ _ Hc) in Hq as (p & al0 & _ & _ & ->). done.
  - apply stable_value.
  - apply stable_list.
  - intros k a t Hk. rewrite entries_same in Hk.
    destruct (wf_root _ _ _ _ _ old_wf _ _ _ Hk) as (Ha & Hne & wd & Hv & Hoff).
    destruct (value_window_inside _ _ _ _ Ha Hv) as [Hat _].
    assert (Hw : win (inr k) = [wd]) by (unfold source_windows; by rewrite Hk, Hv).
    pose proof (windows_moved (inr k) (inr k) I eq_refl) as Hwm. rewrite Hw in Hwm.
    apply Forall2_cons_inv_l in Hwm as (wd' & rest & [Hp E] & Hrest & Hw').
    apply Forall2_nil_inv_l in Hrest as ->.
    assert (Hat' : w_at wd' = w_at wd).
    { eapply (place_fun _ _ _ _ _ old_wf F (w_at wd) (w_len wd)); [|exact Hp|by right].
      eapply (window_positive (inr k)). rewrite Hw. left. }
    split; [done|]. split; [done|]. exists wd'. split.
    + unfold source_windows in Hw'. rewrite entries_same, Hk in Hw'.
      destruct (value_window m1 t a); simpl in Hw'; [by injection Hw' as ->|done].
    + intros x Hx. apply off_kept, Hoff. rewrite E in Hx. simpl in Hx. by rewrite Hat' in Hx.
  - intros g' s' (g & Hg & Hf)%source_moved Hs'.
    destruct (slot_moved g g' s' Hg Hf Hs') as (s & Hs & _ & -> & Hsome).
    destruct (word_moved g s Hg Hs Hsome) as [(q & _ & -> & ?)|(-> & _ & [?|?])]; [by left|..].
    + right. by left.
    + right. right. by apply off_kept.
  - apply windows_apart_moved.
Qed.

(** A collection leaves a heap that the next one can start from. *)
Lemma collected_ready : ready w' M' chains.
Proof.
  destruct (c_idle _ _ _ _ _ _ Hc) as [Hi Hp]. split; [done|done|apply collected_wf|..].
  - intros cell x Hcell Hx. destruct (r_cells _ _ _ Hr cell x Hcell Hx) as [Ho Hno].
    split; [by apply off_kept|]. intros g' wd' (g & Hg & Hf)%source_moved [i Hwd']%list_elem_of_lookup Hx'.
    destruct (window_lookup _ _ _ _ Hg Hf Hwd') as (wd & Hwd & [Hpl E] & _).
    rewrite E in Hx'. simpl in Hx'. apply (Hno g wd Hg); [by eapply list_elem_of_lookup_2|].
    assert (place (w_at wd + (x - w_at wd')) 1 x) as Hpx.
    { replace x with (w_at wd' + (x - w_at wd')) at 2 by (unfold within in Hx'; lia).
      eapply place_byte; [done|]. unfold within in Hx'. lia. }
    rewrite (places_inj _ _ _ (off_place x Ho) Hpx). unfold within in *. lia.
  - intros v' Hv'. rewrite (c_views _ _ _ _ _ _ Hc) in Hv'.
    apply list_elem_of_omap in Hv' as (v & Hv & Hk). unfold keep_view in Hk.
    destruct (F !! source v) as [q|] eqn:Hq; [|done]. destruct (F !! removed v); [|done].
    simpl in Hk. injection Hk as <-. simpl.
    destruct (moved_reach _ _ Hq) as (_ & al0 & Hal0 & Hq'). exists (renew al0).
    destruct (r_views _ _ _ Hr v Hv) as (al & t & Hal & Ht & Hcode).
    rewrite Hal0 in Hal. injection Hal as ->. by exists t.
Qed.

Lemma collected_reachable q : is_Some (M' !! q) → reachable m1 M' entries' q.
Proof.
  intros [al (p & al0 & Hp & _ & _)%(c_image _ _ _ _ _ _ Hc)]. apply reach_moved.
  exists p. split; [by apply (moved_reach _ _ Hp)|done].
Qed.
End stable.
