(* ===== verification/Allocate.v ===== *)
(** [allocate_storage]: a collection when the threshold is reached, and then fresh storage;
    the heap stays ready for the next collection. *)

From S2P Require Import Prelude Effects Memory Arena ArenaFacts ObjectFacts Heap Reach CollectInv CollectVisit CollectTrace Collect CollectStable.

Section fresh.
Context `{CodeSpec} `{SystemSpec}.

(** [w'] is [w] with a new object [al] at [p], whose bytes are arbitrary. *)
Record grown (w w' : World) (M : gmap N Allocation) (p : N) (al : Allocation) : Prop := {
  g_free : M !! p = None;
  g_published : published (objects (heap w)) M (sys w) p al (objects (heap w')) (sys w');
  g_memory y : ¬ extent p al y → memory w' y = memory w y;
  g_bytes : bytes (heap w') = bytes (heap w) + occupied (al_size al);
  g_previous : previous (heap w') = previous (heap w);
  g_settings : settings w' = settings w;
}.

Section step.
Context {w w' : World} {M : gmap N Allocation} {p : N} {al : Allocation}.
Context {chains : list (list RootFrame)}.
Context (Hr : ready w M chains) (Hg : grown w w' M p al) (Hal : al_forwarded al = 0).

Abbreviation m0 := (memory w).
Abbreviation m1 := (memory w').
Abbreviation M' := (<[p := al]> M).
Abbreviation o0 := (objects (heap w)).
Abbreviation o1 := (objects (heap w')).
Abbreviation entries := (root_entries (memory w) chains).
Abbreviation entries' := (root_entries (memory w') chains).

#[local] Arguments source_windows : simpl never.

Lemma grown_table : objects_ok o1 M'.
Proof. apply (p_table _ _ _ _ _ _ _ (g_published _ _ _ _ _ Hg)). Qed.

(** The new bytes belong to nobody else. *)
Lemma grown_extent y :
  extent p al y → ¬ outside (sys w) o0 M y ∧ ∀ q al', M !! q = Some al' → ¬ extent q al' y.
Proof.
  intros Hy. assert (Hp : M' !! p = Some al) by apply lookup_insert_eq. split.
  - intros [Hu Hno]. assert (owned o1 M' y) as Ho by (by eapply extent_owned; [apply grown_table|..]).
    destruct (p_owned _ _ _ _ _ _ _ (g_published _ _ _ _ _ Hg) _ Ho); auto.
  - intros q al' Hq Hqy. assert (p ≠ q) as Hne.
    { intros ->. by rewrite (g_free _ _ _ _ _ Hg) in Hq. }
    apply Hne. apply (extents_apart grown_table p q al al' y); try done.
    by rewrite lookup_insert_ne.
Qed.

Lemma grown_outside x : outside (sys w') o1 M' x ↔ outside (sys w) o0 M x.
Proof.
  pose proof (g_published _ _ _ _ _ Hg) as Hpub. unfold outside.
  rewrite (p_use _ _ _ _ _ _ _ Hpub). pose proof (p_grow _ _ _ _ _ _ _ Hpub x).
  pose proof (p_owned _ _ _ _ _ _ _ Hpub x). naive_solver.
Qed.

(** What lies in an old object or outside the heap is as it was. *)
Lemma grown_bytes b wd x :
  inside M b wd ∨ (∀ y, within (w_at wd) (w_len wd) y → outside (sys w) o0 M y) →
  within (w_at wd) (w_len wd) x → m1 x = m0 x.
Proof.
  intros Hin Hx. apply (g_memory _ _ _ _ _ Hg). intros Hpx.
  destruct (grown_extent _ Hpx) as [Hno Hno']. destruct Hin as [(al' & Hb & Hle & Hlt)|Hout].
  - apply (Hno' b al' Hb). unfold extent, within in *. lia.
  - by apply Hno, Hout.
Qed.

Lemma grown_word b wd i :
  inside M b wd → w_at wd ≤ i → i + 8 ≤ w_at wd + w_len wd → load m1 i = load m0 i.
Proof.
  intros Hin Hle Hlt. apply load_same. intros x Hx. eapply grown_bytes; [by left|].
  unfold within in *. lia.
Qed.

Lemma grown_entries : entries' = entries.
Proof.
  unfold root_entries. apply list_omap_ext, Forall2_same_length_lookup.
  split; [done|]. intros i cell cell' Hi Hi'. rewrite Hi in Hi'. injection Hi' as <-.
  apply list_elem_of_lookup_2 in Hi. unfold active.
  assert (E : ∀ j, j + 8 ≤ 16 → load m1 (cell + j) = load m0 (cell + j)).
  { intros j Hj. apply load_same. intros x Hx.
    eapply (grown_bytes 0 (mkWindow cell 16 [])); simpl.
    - right. intros y Hy. by apply (r_cells _ _ _ Hr cell y).
    - unfold within in *. lia. }
  pose proof (E 0) as E0. rewrite N.add_0_r in E0. by rewrite E0, E by lia.
Qed.

Lemma grown_value t a wd b :
  value_window m0 t a = Some wd →
  inside M b wd ∨ (∀ y, within (w_at wd) (w_len wd) y → outside (sys w) o0 M y) →
  value_window m1 t a = Some wd.
Proof.
  intros Hv Hin. pose proof (grown_bytes b wd) as Hb. unfold value_window in *.
  destruct (tracer_at t) as [[]|] eqn:Et; try done. rewrite <- Hv. do 3 f_equal.
  injection Hv as Hv. apply (offsets_stable _ _ _ _ _ Et). intros i Hi _. symmetry.
  apply Hb; [done|]. rewrite <- Hv. simpl. unfold within. lia.
Qed.

Lemma grown_elements q t al' :
  reachable m0 M entries q → M !! q = Some al' → al_trace al' = Some t →
  tracer_at t = Some trace_list_code →
  (∀ i, i + 8 ≤ LIST_SIZE → load m1 (q + i) = load m0 (q + i)) ∧
  elements m1 q = elements m0 q ∧ ∀ i, element_at m1 q i = element_at m0 q i.
Proof.
  intros Hq Hq' Ht Hc. pose proof (r_heap _ _ _ Hr) as Hwf.
  assert (Hw : ∀ i, i + 8 ≤ LIST_SIZE → load m1 (q + i) = load m0 (q + i)).
  { intros i Hi. apply (grown_word q (mkWindow q LIST_SIZE [q + buffer_data])); simpl; try lia.
    by eapply (list_header _ _ _ _ _ Hwf). }
  assert (Ha : ∀ i, element_at m1 q i = element_at m0 q i).
  { intros i. unfold element_at, buffer_data, list_stride. by rewrite !Hw by (unfold LIST_SIZE; lia). }
  split; [done|]. split; [|done]. unfold elements, list_trace_element, buffer_len.
  rewrite !Hw by (unfold LIST_SIZE; lia). destruct (N.eqb_spec (load m0 (q + 32)) 0) as [E|E]; [done|].
  apply list_omap_ext, Forall2_same_length_lookup. split; [done|]. intros k i j Hk Hk'.
  rewrite Hk in Hk'. injection Hk' as <-. apply lookup_seq in Hk as [-> Hk]. simpl.
  destruct (wf_list _ _ _ _ _ Hwf _ _ _ Hq Hq' Ht Hc E k) as (_ & wd & Hv & Hin);
    [unfold buffer_len; lia|]. rewrite Ha. unfold list_trace_element in Hv. rewrite Hv.
  eapply grown_value; [done|by left].
Qed.

(** Live sources are traced as before. *)
Lemma grown_windows g :
  started_at g M m0 entries → source_windows m1 M' entries' g = source_windows m0 M entries g.
Proof.
  intros Hl. rewrite grown_entries. pose proof (r_heap _ _ _ Hr) as Hwf.
  unfold source_windows. destruct g as [q|k]; simpl in Hl.
  - destruct (reach_object q Hl) as [al' Hq]. rewrite lookup_insert_ne, Hq.
    2:{ intros ->. by rewrite (g_free _ _ _ _ _ Hg) in Hq. }
    destruct (al_trace al') as [t|] eqn:Ht; [|done].
    destruct (wf_value _ _ _ _ _ Hwf _ _ _ Hl Hq Ht) as [[code Hc] Hhead].
    unfold windows in *. rewrite Hc in *.
    assert (Hv : value_window m0 t q ≠ None → (∀ wd, head (option_list (value_window m0 t q)) = Some wd →
      inside M q wd) → value_window m1 t q = value_window m0 t q).
    { intros Hne Hh. destruct (value_window m0 t q) as [wd|] eqn:Ev; [|done].
      eapply grown_value; [done|]. left. by apply Hh. }
    destruct code; [|done| |].
    + rewrite Hv; [done|unfold value_window; by rewrite Hc|done].
    + destruct (grown_elements q t al' Hl Hq Ht Hc) as (_ & -> & _). done.
    + rewrite Hv; [done|unfold value_window; by rewrite Hc|done].
  - destruct (entries !! k) as [[a t]|] eqn:Hk; [|done].
    destruct (wf_root _ _ _ _ _ Hwf _ _ _ Hk) as (_ & _ & wd & Hv & Ho).
    rewrite Hv. rewrite (grown_value t a wd 0 Hv); [done|by right].
Qed.

Lemma grown_slot g s :
  started_at g M m0 entries → is_slot m0 M entries g s → load m1 s = load m0 s.
Proof.
  intros Hl (wd & Hwd & Hs).
  destruct (window_ok _ _ _ _ _ (r_heap _ _ _ Hr) g wd Hl Hwd) as [[_ Hin] Hpl].
  destruct (Hin _ Hs) as (_ & Hle & Hlt). apply load_same. intros x Hx.
  assert (Hxw : within (w_at wd) (w_len wd) x) by (unfold within in *; lia).
  destruct Hpl as [(b & Hb)|Ho]; [by eapply grown_bytes; [left|]|].
  by eapply (grown_bytes 0); [right|].
Qed.

(** The words in slots do not lead to the new object. *)
Lemma grown_unknown g s :
  started_at g M m0 entries → is_slot m0 M entries g s → load m0 s ≠ p.
Proof.
  intros Hl Hs E. destruct (o_block _ _ grown_table p al) as (_ & Hne & Hpos);
    [apply lookup_insert_eq|].
  destruct (wf_word _ _ _ _ _ (r_heap _ _ _ Hr) g s Hl Hs) as [[al' Hv]|[Hv|Hv]]; rewrite E in Hv.
  - by rewrite (g_free _ _ _ _ _ Hg) in Hv.
  - done.
  - apply (proj1 (grown_extent p ltac:(unfold extent, within; lia))). done.
Qed.

Lemma grown_reach q : reachable m1 M' entries' q ↔ reachable m0 M entries q.
Proof.
  assert (Hs : ∀ g s, started_at g M m0 entries → is_slot m1 M' entries' g s ↔ is_slot m0 M entries g s).
  { intros g s Hl. unfold is_slot. by rewrite grown_windows. }
  assert (Hw : ∀ g s, started_at g M m0 entries → is_slot m0 M entries g s →
    is_Some (M' !! load m1 s) ↔ is_Some (M !! load m0 s)).
  { intros g s Hl Hsl. rewrite (grown_slot g s Hl Hsl), lookup_insert_ne; [done|].
    intros E. by apply (grown_unknown g s Hl Hsl). }
  split.
  - induction 1 as [k s Hsl Hsome|q s Hq IH Hsl Hsome].
    + apply (Hs (inr k)) in Hsl; [|done]. rewrite (Hw (inr k)) in Hsome by done.
      rewrite (grown_slot (inr k)) by done. by eapply reach_root.
    + apply (Hs (inl q)) in Hsl; [|done]. rewrite (Hw (inl q)) in Hsome by done.
      rewrite (grown_slot (inl q)) by done. by eapply reach_slot.
  - induction 1 as [k s Hsl Hsome|q s Hq IH Hsl Hsome].
    + rewrite <- (grown_slot (inr k)) by done. apply (reach_root _ _ _ k).
      * by apply Hs.
      * by rewrite (Hw (inr k)).
    + rewrite <- (grown_slot (inl q)) by done. eapply reach_slot; [done| |].
      * by apply Hs.
      * by rewrite (Hw (inl q)).
Qed.

Lemma grown_started g : started_at g M' m1 entries' ↔ started_at g M m0 entries.
Proof. destruct g; simpl; [apply grown_reach|done]. Qed.

Lemma grown_inside b wd : inside M b wd → inside M' b wd.
Proof.
  intros (al' & Hb & ?). exists al'. rewrite lookup_insert_ne; [done|].
  intros ->. by rewrite (g_free _ _ _ _ _ Hg) in Hb.
Qed.

Lemma grown_old q al' : reachable m0 M entries q → M' !! q = Some al' → M !! q = Some al'.
Proof.
  intros Hq [[-> _]|[_ ?]]%lookup_insert_Some; [|done]. destruct (reach_object q Hq).
  by rewrite (g_free _ _ _ _ _ Hg) in *.
Qed.

Lemma grown_wf : heap_wf (sys w') o1 M' m1 entries'.
Proof.
  pose proof (r_heap _ _ _ Hr) as Hwf. pose proof (g_published _ _ _ _ _ Hg) as Hpub. split.
  - apply grown_table.
  - intros x Hx. apply (p_use _ _ _ _ _ _ _ Hpub). by right.
  - intros q al' [[<- <-]|[_ Hq]]%lookup_insert_Some; [done|by eapply wf_unmoved].
  - intros q al' t Hq%grown_reach Hq' Ht. pose proof (grown_old _ _ Hq Hq') as Hold.
    destruct (wf_value _ _ _ _ _ Hwf _ _ _ Hq Hold Ht) as [Hc Hh]. split; [done|].
    intros wd Hwd. apply grown_inside, Hh. pose proof (grown_windows (inl q) Hq) as E.
    unfold source_windows in E. rewrite Hq', Hold, Ht in E. by rewrite <- E.
  - intros q al' t Hq%grown_reach Hq' Ht Hc He i Hi. pose proof (grown_old _ _ Hq Hq') as Hold.
    destruct (grown_elements q t al' Hq Hold Ht Hc) as (Hw & _ & Ha).
    unfold list_trace_element, buffer_len, buffer_data in *. rewrite Ha.
    rewrite !Hw in * by (unfold LIST_SIZE; lia).
    destruct (wf_list _ _ _ _ _ Hwf _ _ _ Hq Hold Ht Hc He i Hi) as (? & wd & Hv & Hin).
    split; [done|]. exists wd. split; [eapply grown_value; [done|by left]|by apply grown_inside].
  - intros k a t. rewrite grown_entries. intros Hk.
    destruct (wf_root _ _ _ _ _ Hwf _ _ _ Hk) as (? & ? & wd & Hv & Ho). split; [done|].
    split; [done|]. exists wd. split; [by eapply (grown_value _ _ _ 0); [|right]|].
    intros x Hx. by apply grown_outside, Ho.
  - intros g s Hl%grown_started Hs. assert (Hs' : is_slot m0 M entries g s).
    { unfold is_slot in *. by rewrite grown_windows in Hs. }
    rewrite (grown_slot g s Hl Hs'). destruct (wf_word _ _ _ _ _ Hwf g s Hl Hs') as [[al' Hv]|[?|?]].
    + left. exists al'. rewrite lookup_insert_ne; [done|]. intros E. by apply (grown_unknown g s Hl Hs').
    + right. by left.
    + right. right. by apply grown_outside.
  - intros g g' i j wd wd' Hl%grown_started Hl'%grown_started. rewrite !grown_windows by done.
    by apply (wf_apart _ _ _ _ _ Hwf).
Qed.

(** The views of the heap are not touched. *)
Lemma grown_ready : ready w' M' chains.
Proof.
  pose proof (g_settings _ _ _ _ _ Hg) as E. injection E as Ec Es Et Ev Ea Em ER.
  split.
  - rewrite Ec. apply Hr.
  - rewrite (g_previous _ _ _ _ _ Hg). apply Hr.
  - apply grown_wf.
  - intros cell x Hc Hx. destruct (r_cells _ _ _ Hr cell x Hc Hx) as [Ho Hno].
    split; [by apply grown_outside|]. intros g wd Hl%grown_started. rewrite grown_windows by done.
    by apply Hno.
  - intros v. rewrite Ev. intros Hv. destruct (r_views _ _ _ Hr v Hv) as (al' & t & Hal' & ?).
    exists al', t. rewrite lookup_insert_ne; [done|]. intros E'.
    by rewrite <- E', (g_free _ _ _ _ _ Hg) in Hal'.
Qed.
End step.

(** ** The operation *)

(** Publishing the storage that was just taken. *)
Lemma storage_publish layout trace zeroed w M :
  objects_ok (objects (heap w)) M → (∀ y, owned (objects (heap w)) M y → in_use (sys w) y) →
  0 < layout →
  runs (pointer ← storage layout zeroed; publish pointer layout trace ;; mret pointer) w
    (λ p w', grown w w' M p (mkAllocation layout trace 0) ∧
      (zeroed = true → ∀ y, within p layout y → memory w' y = x00)).
Proof.
  intros Ho Huse Hpos. apply runs_bind.
  eapply runs_mono; [exact (storage_spec layout zeroed w M Ho Huse Hpos)|].
  intros p w1 (Hfree & Hne & o & s & -> & Hpub).
  destruct (Hpub (mkAllocation layout trace 0) eq_refl) as (o' & Hins & Hp).
  unfold publish. do 2 apply runs_bind. apply runs_edits, runs_bind, runs_reads, runs_bind. simpl.
  eapply runs_lift; [exact Hins|]. apply runs_edits, runs_ret. split.
  - split; simpl; try done. intros y Hy. destruct zeroed; [|done]. by rewrite fill_out.
  - intros -> y Hy. simpl. by apply fill_in.
Qed.

(** Whether an allocation of [layout] collects first. *)
Definition collects (w : World) (layout : N) : bool :=
  stress (heap w) || (threshold (heap w) <=? saturating_add (bytes (heap w)) (occupied layout)).

Lemma layout_of_spec size :
  layout_of size = if bool_decide (size ≤ isize_max - 15) then Ok (N.max size 1)
                   else Err "allocation size overflow".
Proof.
  unfold layout_of. case_bool_decide as E; [rewrite (proj2 (N.ltb_ge _ _))|rewrite (proj2 (N.ltb_lt _ _))];
    try done; unfold isize_max in *; lia.
Qed.

Lemma allocate_storage_spec size trace zeroed w M :
  ready w M [ROOTS w] → size ≤ isize_max - 15 →
  runs (allocate_storage size trace zeroed) w (λ p w', ∃ w1 M1,
    (if collects w (N.max size 1) then ∃ F, collected w w1 M [ROOTS w] F M1 else w1 = w ∧ M1 = M) ∧
    ready w1 M1 [ROOTS w] ∧
    grown w1 w' M1 p (mkAllocation (N.max size 1) trace 0) ∧
    (zeroed = true → ∀ y, within p (N.max size 1) y → memory w' y = x00)).
Proof.
  intros Hr Hsize. unfold allocate_storage. apply runs_bind.
  eapply runs_lift; [rewrite layout_of_spec; by rewrite bool_decide_eq_true_2|].
  apply runs_bind, runs_reads. rewrite (r_idle _ _ _ Hr). apply runs_bind.
  apply (runs_mono _ _ (λ _ w1, ∃ M1, (if collects w (N.max size 1)
    then ∃ F, collected w w1 M [ROOTS w] F M1 else w1 = w ∧ M1 = M) ∧ ready w1 M1 [ROOTS w])).
  - unfold collects. destruct (_ || _).
    + unfold loom_rt_collect. apply runs_bind, runs_reads.
      eapply runs_mono; [exact (collect_spec Hr)|].
      intros u w1 (F & M1 & Hc). exists M1. split; [by exists F|]. by eapply collected_ready.
    + apply runs_ret. by exists M.
  - intros u w1 (M1 & Hc & Hr1). pose proof (r_heap _ _ _ Hr1) as Hwf.
    eapply runs_mono; [apply (storage_publish (N.max size 1) trace zeroed w1 M1); [apply Hwf|apply Hwf|lia]|].
    intros p w' [Hgr Hz]. by exists w1, M1.
Qed.
End fresh.
