(* ===== verification/HeapSamples.v ===== *)
(** An operating system that never gives an address twice, code with every kind of tracer,
    and a heap to collect: a list that holds itself, its storage, and garbage. *)

From S2P Require Import Prelude Effects Memory Arena ArenaFacts ObjectFacts Heap Reach CollectInv CollectVisit Collect Allocate.

(** ** Storage *)

(** What was mapped and unmapped, the latest first. *)
Definition Log : Type := list (bool * N * N).

Fixpoint covered (l : Log) (x : N) : bool :=
  match l with
  | [] => false
  | (b, a, n) :: l => if (a <=? x) && (x <? a + n) then b else covered l x
  end.

Definition top (l : Log) : N := foldr (λ e t, N.max (e.1.2 + e.2) t) 0 l.

Definition take_block (unit n : N) (l : Log) : option (N * Log) :=
  let p := (top l / unit + 1) * unit in
  if p + n <=? 2 ^ 64 then Some (p, (true, p, n) :: l) else None.

#[export] Instance log_system : System := {|
  Sys := Log;
  map_pages := take_block PAGE_SIZE SIZE;
  unmap_pages p l := (false, p, SIZE) :: l;
  alloc := take_block 16;
  dealloc p n l := (false, p, n) :: l;
|}.

Lemma covered_top l x : covered l x = true → x < top l.
Proof.
  induction l as [|[[b a] n] l IH]; simpl; [done|]. rewrite within_test.
  case_bool_decide as E; unfold within in *; [lia|]. intros ?%IH. lia.
Qed.

Definition log_in_use (l : Log) (x : N) : Prop := covered l x = true ∧ x < 2 ^ 64.

Lemma covered_cons b a n l x :
  log_in_use ((b, a, n) :: l) x ↔
  (within a n x ∧ b = true ∧ x < 2 ^ 64) ∨ (¬ within a n x ∧ log_in_use l x).
Proof.
  unfold log_in_use. simpl. rewrite within_test. case_bool_decide; naive_solver.
Qed.

Lemma take_block_spec unit n l p l' :
  unit ≠ 0 → take_block unit n l = Some (p, l') →
  p mod unit = 0 ∧ p ≠ 0 ∧ (∀ x, within p n x → ¬ log_in_use l x) ∧
  ∀ x, log_in_use l' x ↔ log_in_use l x ∨ within p n x.
Proof.
  intros Hu. unfold take_block. destruct (N.leb_spec ((top l / unit + 1) * unit + n) (2 ^ 64)) as [Hle|]; [|done].
  intros [= <- <-]. destruct (division (top l) unit Hu) as (q & r & Hq & _ & Ht & Hr).
  rewrite Hq in *. assert (Hnew : ∀ x, within ((q + 1) * unit) n x → ¬ log_in_use l x).
  { intros x Hx [Hc%covered_top _]. unfold within in Hx. nia. }
  split; [by apply N.Div0.mod_mul|]. split; [nia|]. split; [done|].
  intros x. rewrite covered_cons. split.
  - intros [(? & _ & _)|[_ ?]]; auto.
  - intros [Hx|Hx]; [right; split; [|done]; intros Hw; by apply (Hnew x)|].
    left. split; [done|]. split; [done|]. unfold within in Hx. lia.
Qed.

#[export] Instance log_spec : SystemSpec.
Proof.
  unshelve refine {| in_use := log_in_use |}.
  - by intros s x [_ ?].
  - intros s p s'. by apply take_block_spec.
  - intros n s p s'. by apply take_block_spec.
  - intros p s x. simpl. rewrite covered_cons. split; [|by intros [? ?]; right].
    intros [(_ & ? & _)|[? ?]]; done.
  - intros p n s x. simpl. rewrite covered_cons. split; [|by intros [? ?]; right].
    intros [(_ & ? & _)|[? ?]]; done.
Defined.

(** ** Code *)

(** The tracer of a variant: a tag, a field that is always a pointer, and one that is a
    pointer when the tag is 1. *)
Definition variant_offsets (v : N → byte) : list N :=
  if Byte.eqb (v 0) x01 then [8; 16] else [8].

#[export] Instance sample_code : Code := λ t,
  if t =? 1024 then Some trace_pointer_code
  else if t =? 1040 then Some trace_bytes_code
  else if t =? 1056 then Some trace_list_code
  else if t =? 1072 then Some (generated 24 variant_offsets)
  else None.

Lemma sample_generated t w offsets :
  tracer_at t = Some (generated w offsets) → w = 24 ∧ offsets = variant_offsets.
Proof. unfold tracer_at, sample_code. repeat case_match; naive_solver. Qed.

#[export] Instance sample_spec : CodeSpec.
Proof.
  split.
  - intros t w offsets [-> _]%sample_generated. done.
  - intros t w offsets v [-> ->]%sample_generated. unfold variant_offsets.
    destruct (Byte.eqb _ _); (split; [apply (bool_decide_unpack _); by vm_compute|by repeat constructor]).
  - intros t w offsets v v' [-> ->]%sample_generated Hv. unfold variant_offsets in *.
    rewrite (Hv 0); [done|lia|]. intros o Ho. unfold within.
    destruct (Byte.eqb (v 0) x01); rewrite !elem_of_cons in Ho; set_solver by lia.
Qed.

(** ** A heap *)

Definition place_object (layout : N) (trace : option N) : St World N :=
  pointer ← storage layout true; publish pointer layout trace ;; mret pointer.

Definition empty_world : World :=
  mkWorld (default_heap false) (λ _, x00) [(true, 4096, 4096)] [mkRootFrame 4096 4096 2].

(** A list, its storage and an object that nobody refers to. *)
Definition build : St World (N * N * N) :=
  l ← place_object LIST_SIZE (Some 1056);
  d ← place_object 16 None;
  j ← place_object 8 (Some 1024);
  mret (l, d, j).

Definition built : World := match build empty_world with Ok (_, w) => w | _ => empty_world end.

Definition the_list : N := 262176.
Definition the_data : N := 262256.
Definition the_junk : N := 262304.

Example built_at : fst <$> build empty_world = Ok (the_list, the_data, the_junk).
Proof. by vm_compute. Qed.

Definition the_root : N := 4224.

Definition sample_writes : Memory → Memory :=
  store 4096 the_root ∘ store 4104 1024 ∘ store the_root the_list ∘
  store (the_list + buffer_len) 2 ∘ store (the_list + buffer_cap) 2 ∘
  store (the_list + buffer_data) the_data ∘ store (the_list + list_stride) 8 ∘
  store (the_list + list_trace_element) 1024 ∘ store (the_list + list_watched) 1 ∘
  store the_data the_list ∘ store the_junk the_list.

(** The root refers to the list; a view of it has lost its other list, and both have locks. *)
Definition sample : World :=
  set_heap (with_weak [mkListView the_list the_junk 0 2] {[ the_list := 7; the_junk := 8 ]} ∅)
    (set_memory sample_writes built).

Definition sample_objects : gmap N Allocation :=
  <[the_junk := mkAllocation 8 (Some 1024) 0]> (<[the_data := mkAllocation 16 None 0]>
    (<[the_list := mkAllocation LIST_SIZE (Some 1056) 0]> ∅)).

(** The table of a heap that was built by publishing objects. *)
Definition built_ok (w : World) (M : gmap N Allocation) : Prop :=
  objects_ok (objects (heap w)) M ∧ ∀ y, owned (objects (heap w)) M y → in_use (sys w) y.

Lemma place_object_ok w M layout trace p w' :
  built_ok w M → 0 < layout → place_object layout trace w = Ok (p, w') →
  built_ok w' (<[p := mkAllocation layout trace 0]> M).
Proof.
  intros [Ho Hu] Hpos E. pose proof (storage_publish layout trace true w M Ho Hu Hpos) as Hr.
  unfold runs in Hr. change (place_object layout trace w = Ok (p, w')) in E.
  unfold place_object in E. rewrite E in Hr. destruct Hr as [Hg _].
  pose proof (g_published _ _ _ _ _ Hg) as Hp. split; [apply Hp|].
  intros y Hy. apply (p_use _ _ _ _ _ _ _ Hp). by right.
Qed.

Lemma build_ok w0 l d j w :
  built_ok w0 ∅ → build w0 = Ok (l, d, j, w) →
  built_ok w (<[j := mkAllocation 8 (Some 1024) 0]> (<[d := mkAllocation 16 None 0]>
    (<[l := mkAllocation LIST_SIZE (Some 1056) 0]> ∅))).
Proof.
  intros H0. unfold build, mbind, St_bind.
  destruct (place_object LIST_SIZE (Some 1056) w0) as [[l' w1]| | |] eqn:E1; simpl; try done.
  destruct (place_object 16 None w1) as [[d' w2]| | |] eqn:E2; simpl; try done.
  destruct (place_object 8 (Some 1024) w2) as [[j' w3]| | |] eqn:E3; simpl; try done.
  intros [= -> -> -> ->].
  pose proof (place_object_ok _ _ LIST_SIZE _ _ _ H0 eq_refl E1) as H1.
  pose proof (place_object_ok _ _ 16 _ _ _ H1 eq_refl E2) as H2.
  exact (place_object_ok _ _ 8 _ _ _ H2 eq_refl E3).
Qed.

Lemma built_objects : built_ok built sample_objects.
Proof.
  assert (∃ w, build empty_world = Ok (the_list, the_data, the_junk, w)) as [w E].
  { pose proof built_at as E. destruct (build empty_world) as [[a w]| | |]; try done.
    injection E as ->. by exists w. }
  unfold built. rewrite E. apply (build_ok empty_world); [|done].
  split; [apply no_objects_ok|]. intros y Hy. by apply nothing_owned in Hy.
Qed.

Lemma sample_lookup p al :
  sample_objects !! p = Some al →
  (p = the_list ∧ al = mkAllocation LIST_SIZE (Some 1056) 0) ∨
  (p = the_data ∧ al = mkAllocation 16 None 0) ∨
  (p = the_junk ∧ al = mkAllocation 8 (Some 1024) 0).
Proof.
  unfold sample_objects. rewrite !lookup_insert_Some, lookup_empty. naive_solver.
Qed.

Definition sample_entries : list (N * N) := [(the_root, 1024)].

Lemma sample_entries_eq : root_entries (memory sample) [ROOTS sample] = sample_entries.
Proof. by vm_compute. Qed.

(** All the windows there are. *)
Definition sample_windows (g : N + nat) : list Window :=
  match g with
  | inl p =>
      if p =? the_list then
        [mkWindow the_list 48 [the_list + 16]; mkWindow the_data 8 [the_data];
         mkWindow (the_data + 8) 8 [the_data + 8]]
      else if p =? the_junk then [mkWindow the_junk 8 [the_junk]] else []
  | inr O => [mkWindow the_root 8 [the_root]]
  | inr (S _) => []
  end.

Lemma windows_of_list : windows (memory sample) 1056 the_list = sample_windows (inl the_list).
Proof. by vm_compute. Qed.

Lemma sample_windows_eq g :
  source_windows (memory sample) sample_objects sample_entries g = sample_windows g.
Proof.
  destruct g as [p|[|k]]; [|by vm_compute|done]. unfold source_windows.
  destruct (sample_objects !! p) as [al|] eqn:E.
  - apply sample_lookup in E as [[-> ->]|[[-> ->]|[-> ->]]]; [apply windows_of_list|done|by vm_compute].
  - simpl. destruct (N.eqb_spec p the_list) as [->|_]; [by vm_compute in E|].
    by destruct (N.eqb_spec p the_junk) as [->|_]; [vm_compute in E|].
Qed.

(** The blocks that the windows come from are apart. *)
Definition bounds (g : N + nat) (i : nat) : N * N :=
  match g, i with
  | inl p, O => (p, if p =? the_list then 48 else 8)
  | inl p, S O => (the_data, 8)
  | inl p, S _ => (the_data + 8, 8)
  | inr _, _ => (the_root, 8)
  end.

Lemma sample_window g i wd :
  sample_windows g !! i = Some wd →
  (g = inl the_list ∧ (i < 3)%nat ∨ g = inl the_junk ∧ i = 0%nat ∨ g = inr 0%nat ∧ i = 0%nat) ∧
  w_at wd = (bounds g i).1 ∧ w_len wd = (bounds g i).2.
Proof.
  destruct g as [p|[|k]]; simpl; [| |done].
  - destruct (N.eqb_spec p the_list) as [->|_].
    + destruct i as [|[|[|i]]]; simpl; [..|done]; intros [= <-]; (split; [left; split; [done|lia]|done]).
    + destruct (N.eqb_spec p the_junk) as [->|_]; [|done].
      destruct i as [|i]; simpl; [|done]. intros [= <-]. split; [by right; left|done].
  - destruct i as [|i]; simpl; [|done]. intros [= <-]. split; [by right; right|done].
Qed.

Lemma sample_apart g g' i j wd wd' :
  sample_windows g !! i = Some wd → sample_windows g' !! j = Some wd' → overlap wd wd' →
  g = g' ∧ i = j.
Proof.
  intros (Hg & Ea & El)%sample_window (Hg' & Ea' & El')%sample_window (x & Hx & Hx').
  rewrite Ea, El in Hx. rewrite Ea', El' in Hx'.
  unfold within in *.
  destruct Hg as [[-> Hi]|[[-> ->]|[-> ->]]], Hg' as [[-> Hj]|[[-> ->]|[-> ->]]]; simpl in *;
    try (destruct i as [|[|[|i]]]; [..|lia]); try (destruct j as [|[|[|j]]]; [..|lia]); simpl in *;
    try done; unfold the_list, the_data, the_junk, the_root in *; lia.
Qed.

Lemma sample_owned y :
  owned (objects (heap sample)) sample_objects y → within 262144 SIZE y.
Proof.
  intros [(m & Hm & Hy)|(x & al & Hx & Hl & _)].
  - assert (mappings (arena (objects (heap sample))) = [262144]) as E by by vm_compute.
    rewrite E in Hm. apply list_elem_of_singleton in Hm as ->. done.
  - exfalso. apply Hl. unfold is_small.
    apply sample_lookup in Hx as [[_ ->]|[[_ ->]|[_ ->]]]; by vm_compute.
Qed.

Lemma sample_sys : sys sample = [(true, 262144, SIZE); (true, 4096, 4096)].
Proof. by vm_compute. Qed.

Lemma stack_outside x :
  within 4096 4096 x → outside (sys sample) (objects (heap sample)) sample_objects x.
Proof.
  intros Hx. split; [|intros Ho%sample_owned; unfold within in *; lia].
  rewrite sample_sys. change (log_in_use [(true, 262144, SIZE); (true, 4096, 4096)] x).
  rewrite !covered_cons. unfold within, SIZE, PAGES_PER_MAPPING, PAGE_SIZE in *.
  right. split; [lia|]. left. split; [lia|]. split; [done|lia].
Qed.

Lemma sample_inside p wd :
  (p = the_list ∨ p = the_junk) → head (sample_windows (inl p)) = Some wd → inside sample_objects p wd.
Proof.
  intros [-> | ->] [= <-].
  - exists (mkAllocation LIST_SIZE (Some 1056) 0). split; [by vm_compute|by vm_compute].
  - exists (mkAllocation 8 (Some 1024) 0). split; [by vm_compute|by vm_compute].
Qed.

Lemma sample_wf :
  heap_wf (sys sample) (objects (heap sample)) sample_objects (memory sample) sample_entries.
Proof.
  destruct built_objects as [Hok Huse]. split.
  - exact Hok.
  - exact Huse.
  - intros p al [[_ ->]|[[_ ->]|[_ ->]]]%sample_lookup; done.
  - intros p al t _ [[-> ->]|[[-> ->]|[-> ->]]]%sample_lookup Ht; [|done|]; injection Ht as <-.
    + split; [by eexists|]. rewrite windows_of_list. intros wd. apply sample_inside. by left.
    + split; [by eexists|]. intros wd Hwd. apply sample_inside; [by right|].
      rewrite <- Hwd. by vm_compute.
  - intros p al t _ [[-> ->]|[[-> ->]|[-> ->]]]%sample_lookup Ht; [|done|]; injection Ht as <-; [|done].
    intros _ _ i Hi. assert (load (memory sample) (the_list + buffer_len) = 2) as E by by vm_compute.
    rewrite E in Hi. destruct i as [|[|i]]; [..|lia]; (split; [by vm_compute|]);
      (eexists; split; [by vm_compute|]); exists (mkAllocation 16 None 0); (split; [by vm_compute|by vm_compute]).
  - intros k a t. destruct k as [|k]; [|done]. intros [= <- <-]. split; [done|]. split; [done|].
    exists (mkWindow the_root 8 [the_root]). split; [done|]. intros x Hx. apply stack_outside.
    simpl in Hx. unfold within, the_root in *. lia.
  - intros g p _ (wd & Hwd & Hp). rewrite sample_windows_eq in Hwd.
    assert (Hw : load (memory sample) p = the_list ∨ load (memory sample) p = the_data ∨
      load (memory sample) p = 0).
    { destruct g as [q|[|k]]; simpl in Hwd.
      - destruct (q =? the_list).
        + rewrite !elem_of_cons in Hwd. destruct Hwd as [->|[->|[->|Hwd]]];
            [..|by apply not_elem_of_nil in Hwd]; apply list_elem_of_singleton in Hp as ->; vm_compute; auto.
        + destruct (q =? the_junk); [|by apply not_elem_of_nil in Hwd].
          apply list_elem_of_singleton in Hwd as ->. apply list_elem_of_singleton in Hp as ->.
          vm_compute. auto.
      - apply list_elem_of_singleton in Hwd as ->. apply list_elem_of_singleton in Hp as ->.
        vm_compute. auto.
      - by apply not_elem_of_nil in Hwd. }
    destruct Hw as [-> |[-> | ->]]; [left|left|right; by left]; by eexists.
  - intros g g' i j wd wd' _ _. rewrite !sample_windows_eq. apply sample_apart.
Qed.

Lemma sample_ready : ready sample sample_objects [ROOTS sample].
Proof.
  split; rewrite ?sample_entries_eq; [by vm_compute|by vm_compute|apply sample_wf|..].
  - intros cell x Hcell Hx. rewrite sample_entries_eq.
    assert (Hc : cell = 4096 ∨ cell = 4112).
    { assert (root_cells [ROOTS sample] = [4096; 4112]) as E by by vm_compute. rewrite E in Hcell.
      rewrite !elem_of_cons in Hcell. destruct Hcell as [?|[?|?%not_elem_of_nil]]; auto. done. }
    assert (Hxs : within 4096 32 x) by (unfold within in *; lia). split.
    + apply stack_outside. unfold within in *. lia.
    + intros g wd _ [i Hwd]%list_elem_of_lookup Hx'. rewrite sample_windows_eq in Hwd.
      apply sample_window in Hwd as (Hg & Ea & El). rewrite Ea, El in Hx'.
      unfold within in *.
      destruct Hg as [[-> Hi]|[[-> ->]|[-> ->]]]; simpl in *;
        try (destruct i as [|[|[|i]]]; [..|lia]); simpl in *;
        unfold the_list, the_data, the_junk, the_root in *; lia.
  - intros v Hv. assert (list_views (heap sample) = [mkListView the_list the_junk 0 2]) as E by by vm_compute.
    rewrite E in Hv. apply list_elem_of_singleton in Hv as ->.
    exists (mkAllocation LIST_SIZE (Some 1056) 0), 1056. split; [by vm_compute|done].
Qed.
