(* ===== verification/HeapGuarantees.v ===== *)
(** What the garbage-collected heap guarantees, as theorems over the library:
    [compiler/runtime/src/lib.rs], [pages.rs] and [shared_access.rs]. Each theorem is followed
    by an instance at the heap of [HeapSamples]. *)

From S2P Require Import Prelude Effects Memory Arena ArenaFacts ObjectFacts Heap Reach CollectInv Collect CollectStable Allocate HeapSamples.

Section heap.
Context `{CodeSpec} `{SystemSpec}.

(** C1: A collection from the root frames [chains] of a well-formed heap ends, and aborts only
    when memory is exhausted. Exactly the reachable objects survive, each at one new place;
    every slot of a root or a surviving object holds its old word relocated, every other byte
    is the old one; all other storage of the heap has been returned; views, watch marks and
    locks follow their objects, and the accounts are exact. *)
Theorem collection_is_exact w M chains :
  ready w M chains →
  runs (collect_roots chains) w (λ _ w', ∃ F N, collected w w' M chains F N).
Proof. apply collect_spec. Qed.

(** C2: A collection leaves a heap that the next one can start from, in which everything is
    reachable: a second collection keeps every object. *)
Theorem collection_keeps_heap_ready w M chains :
  ready w M chains →
  runs (collect_roots chains ;; collect_roots chains) w (λ _ w2, ∃ w1 N1 F N2,
    ready w1 N1 chains ∧
    (∀ q, is_Some (N1 !! q) → reachable (memory w1) N1 (root_entries (memory w1) chains) q) ∧
    collected w1 w2 N1 chains F N2 ∧ ready w2 N2 chains ∧
    ∀ q, is_Some (F !! q) ↔ is_Some (N1 !! q)).
Proof.
  intros Hr. apply runs_bind. eapply runs_mono; [exact (collect_spec Hr)|].
  intros u w1 (F1 & N1 & Hc1). pose proof (collected_ready Hr Hc1) as Hr1.
  eapply runs_mono; [exact (collect_spec Hr1)|]. intros u2 w2 (F & N2 & Hc2).
  exists w1, N1, F, N2. pose proof (collected_reachable Hr Hc1) as Hre.
  split_and!; [done|done|done|by eapply collected_ready|]. intros q.
  rewrite (c_moved _ _ _ _ _ _ Hc2). split; [by destruct 1|apply Hre].
Qed.

(** C3: An allocation is refused while tracing and when its size overflows a layout.
    Otherwise it collects first exactly under stress or at the threshold, and then returns a
    block that no object has, zeroed on request: nothing else in memory or in the table
    changes, it is accounted for, and the heap is ready for the next collection. *)
Theorem allocation_is_fresh size trace zeroed w M :
  (isize_max - 15 < size →
    allocate_storage size trace zeroed w = Err "allocation size overflow") ∧
  (size ≤ isize_max - 15 → collecting (heap w) = true →
    allocate_storage size trace zeroed w = Panic "allocation during GC tracing") ∧
  (size ≤ isize_max - 15 → ready w M [ROOTS w] →
    runs (allocate_storage size trace zeroed) w (λ p w', ∃ w1 M1,
      let al := mkAllocation (N.max size 1) trace 0 in
      (if collects w (N.max size 1) then ∃ F, collected w w1 M [ROOTS w] F M1 else w1 = w ∧ M1 = M) ∧
      grown w1 w' M1 p al ∧ (zeroed = true → ∀ y, within p (al_size al) y → memory w' y = x00) ∧
      ready w' (<[p := al]> M1) [ROOTS w])).
Proof.
  split_and!.
  - intros Hs. unfold allocate_storage, mbind, St_bind, lift. rewrite layout_of_spec.
    by rewrite bool_decide_eq_false_2 by lia.
  - intros Hs Hc. unfold allocate_storage, mbind, St_bind, lift. rewrite layout_of_spec.
    rewrite bool_decide_eq_true_2 by lia. unfold reads. simpl. by rewrite Hc.
  - intros Hs Hr. eapply runs_mono; [by apply allocate_storage_spec|].
    intros p w' (w1 & M1 & Hc & Hr1 & Hg & Hz). exists w1, M1. split_and!; try done.
    by eapply grown_ready.
Qed.

(** C4: The object table, pages with bitmaps for small objects and a hash map for large ones,
    is a finite map of disjoint blocks: lookup, update and removal act on it as on a map, and
    publishing storage that was just taken adds one entry under a free address. No operation
    panics, but on exhaustion. *)
Theorem object_table_is_a_map o M :
  objects_ok o M →
  (∀ x, get_object o x = Ok (M !! x)) ∧
  (∀ x, contains_key o x = Ok (bool_decide (is_Some (M !! x)))) ∧
  is_empty o = bool_decide (M = ∅) ∧
  (∀ x f, (∀ al, al_size (f al) = al_size al) →
    ∃ o', update_object x f o = Ok o' ∧ objects_ok o' (alter f x M)) ∧
  (∀ x al, M !! x = Some al →
    ∃ o', remove_object x o = Ok (Some al, o') ∧ objects_ok o' (delete x M)) ∧
  (∀ w layout trace zeroed, objects (heap w) = o → (∀ y, owned o M y → in_use (sys w) y) →
    0 < layout →
    runs (pointer ← storage layout zeroed; publish pointer layout trace ;; mret pointer) w
      (λ p w', M !! p = None ∧
        objects_ok (objects (heap w')) (<[p := mkAllocation layout trace 0]> M))) ∧
  (∀ x y al al' z, M !! x = Some al → M !! y = Some al' → extent x al z → extent y al' z → x = y).
Proof.
  intros Ho. split_and!.
  - apply (get_object_spec Ho).
  - apply (contains_key_spec Ho).
  - apply (is_empty_spec Ho).
  - intros x f Hf. destruct (update_object_spec Ho x f Hf) as (o' & ? & ? & _). by exists o'.
  - intros x al Hx. destruct (remove_object_spec Ho x al Hx) as (o' & ? & ? & _). by exists o'.
  - intros w layout trace zeroed <- Hu Hpos.
    eapply runs_mono; [by apply (storage_publish layout trace zeroed w M)|].
    intros p w' [Hg _]. split; [apply Hg|by eapply grown_table].
  - apply (extents_apart Ho).
Qed.

(** A heap that is dropped gives back all of its storage and nothing else: every page
    group of its arena and every large block, and no byte that others use. *)
Theorem dropped_heap_leaves_nothing w M chains y :
  ready w M chains →
  in_use (drop_heap (heap w) (sys w)) y ↔ outside (sys w) (objects (heap w)) M y.
Proof.
  intros Hr. apply drop_heap_spec; [apply (wf_table _ _ _ _ _ (r_heap _ _ _ Hr))|apply Hr].
Qed.
End heap.

(** ** Instances *)

Lemma collection_is_exact_witness :
  ready sample sample_objects [ROOTS sample] ∧
  runs (collect_roots [ROOTS sample]) sample
    (λ _ w', ∃ F N, collected sample w' sample_objects [ROOTS sample] F N) ∧
  (λ r, load (memory r.2) the_root) <$> collect_roots [ROOTS sample] sample = Ok 4718624.
Proof.
  split; [exact sample_ready|]. split; [|by vm_compute].
  exact (collection_is_exact sample sample_objects [ROOTS sample] sample_ready).
Defined.

Lemma collection_keeps_heap_ready_witness :
  runs (collect_roots [ROOTS sample] ;; collect_roots [ROOTS sample]) sample (λ _ w2, ∃ w1 N1 F N2,
    ready w1 N1 [ROOTS sample] ∧
    (∀ q, is_Some (N1 !! q) →
      reachable (memory w1) N1 (root_entries (memory w1) [ROOTS sample]) q) ∧
    collected w1 w2 N1 [ROOTS sample] F N2 ∧ ready w2 N2 [ROOTS sample] ∧
    ∀ q, is_Some (F !! q) ↔ is_Some (N1 !! q)).
Proof. exact (collection_keeps_heap_ready sample sample_objects _ sample_ready). Defined.

Lemma allocation_is_fresh_witness :
  ready sample sample_objects [ROOTS sample] ∧ collects sample 70000 = true ∧
  allocate_storage usize_max None true sample = Err "allocation size overflow" ∧
  runs (allocate_storage 70000 None true) sample (λ p w', ∃ w1 M1,
    let al := mkAllocation 70000 None 0 in
    (if collects sample 70000 then ∃ F, collected sample w1 sample_objects [ROOTS sample] F M1
     else w1 = sample ∧ M1 = sample_objects) ∧
    grown w1 w' M1 p al ∧ (true = true → ∀ y, within p (al_size al) y → memory w' y = x00) ∧
    ready w' (<[p := al]> M1) [ROOTS sample]).
Proof.
  split; [exact sample_ready|]. split; [by vm_compute|]. split.
  - apply (proj1 (allocation_is_fresh usize_max None true sample sample_objects)). by vm_compute.
  - apply (proj2 (proj2 (allocation_is_fresh 70000 None true sample sample_objects)));
      [by vm_compute|exact sample_ready].
Defined.

Lemma object_table_is_a_map_witness :
  objects_ok (objects (heap sample)) sample_objects ∧
  get_object (objects (heap sample)) the_list = Ok (Some (mkAllocation LIST_SIZE (Some 1056) 0)) ∧
  get_object (objects (heap sample)) (the_list + 8) = Ok None.
Proof.
  split; [exact (proj1 built_objects)|].
  split; exact (proj1 (object_table_is_a_map _ _ (proj1 built_objects)) _).
Defined.

Lemma dropped_heap_leaves_nothing_witness :
  in_use (drop_heap (heap sample) (sys sample)) the_list ↔
  outside (sys sample) (objects (heap sample)) sample_objects the_list.
Proof. exact (dropped_heap_leaves_nothing sample sample_objects _ the_list sample_ready). Defined.
