(* ===== verification/SharedHeap.v ===== *)
(** The shared heap of [compiler/runtime/src/shared_heap.rs]: threads attach to one heap, and
    a collection is a rendezvous at which all of them are parked. The control mutex is held
    for whole turns, so a turn of one thread is one function; between turns a thread may sleep
    on the condition variable. *)

From S2P Require Import Prelude Effects.
From S2P Require Heap.

Abbreviation RootFrame := Heap.RootFrame (only parsing).

(** What a heap is to this file: a thread's private heap to begin with, and a collector that
    is given the root chains of all threads and the values of the slots, which it updates
    ([trace_slots]). *)
Class Storage := {
  Store : Type;
  default_store : Store;
  objects_empty : Store → bool;
  run_collection : list (list RootFrame) → list N → Store → outcome (list N * Store);
}.

(** The pointer that [ROOTS] is: the address of the first frame. *)
Definition head_frame (roots : list RootFrame) : option N := Heap.frame <$> head roots.

(** ** State *)

Inductive State := Running | Parked | Collecting.

#[export] Instance State_eq_dec : EqDecision State.
Proof. solve_decision. Defined.

Record Participant := mkParticipant {
  id : N;
  state : State;
  entry_roots : list RootFrame;
  entry_mutexes : Z;
}.

Record Control := mkControl {
  next : N;
  participants : gmap N (option (list RootFrame));
  slots : gmap N N;
}.

(** Where a thread is between two turns: in code that holds no lock of this file, in one of
    the three waiting loops, in a native callback, or between the test and the lock of a
    checkpoint. *)
Inductive Position :=
  | Executing
  | Attaching
  | Rendezvous
  | Resuming
  | Native
  | Testing.

#[export] Instance Position_eq_dec : EqDecision Position.
Proof. solve_decision. Defined.

Section shared.
Context `{Storage}.

(** [ROOTS], [MEMORY], and what [HELD] and [GUARDS] say of the guards of the thread. *)
Record Thread := mkThread {
  ROOTS : list RootFrame;
  private : Store;
  participant : option Participant;
  HELD : list N;
  GUARDS : list (Z * N);
  position : Position;
  asleep : bool;
}.

Record SharedHeap := mkSharedHeap {
  storage : Store;
  control : Control;
  requested : bool;
}.

(** ** Turns *)

(** A turn of one thread: the shared heap, the thread, and whether it has notified. *)
Record Turn := mkTurn { heap : SharedHeap; self : Thread; notified : bool }.

Definition fatal {A} (message : string) : St Turn A := λ _, Panic message.

Definition on_heap (f : SharedHeap → SharedHeap) : St Turn () :=
  edits (λ s, mkTurn (f (heap s)) (self s) (notified s)).
Definition on_self (f : Thread → Thread) : St Turn () :=
  edits (λ s, mkTurn (heap s) (f (self s)) (notified s)).

Definition set_position (p : Position) (sleep : bool) : St Turn () :=
  on_self (λ t, mkThread (ROOTS t) (private t) (participant t) (HELD t) (GUARDS t) p sleep).
Definition set_participant (p : option Participant) : St Turn () :=
  on_self (λ t, mkThread (ROOTS t) (private t) p (HELD t) (GUARDS t) (position t) (asleep t)).
Definition set_private (m : Store) : St Turn () :=
  on_self (λ t, mkThread (ROOTS t) m (participant t) (HELD t) (GUARDS t) (position t) (asleep t)).

Definition set_state (p : Participant) (s : State) : St Turn () :=
  set_participant (Some (mkParticipant (id p) s (entry_roots p) (entry_mutexes p))).

Definition set_requested (b : bool) : St Turn () :=
  on_heap (λ h, mkSharedHeap (storage h) (control h) b).
Definition set_storage (m : Store) : St Turn () :=
  on_heap (λ h, mkSharedHeap m (control h) (requested h)).
Definition on_control (f : Control → Control) : St Turn () :=
  on_heap (λ h, mkSharedHeap (storage h) (f (control h)) (requested h)).

Definition get_requested : St Turn bool := reads (λ s, requested (heap s)).
Definition get_control : St Turn Control := reads (λ s, control (heap s)).
Definition current : St Turn (option Participant) := reads (λ s, participant (self s)).

Definition notify_all : St Turn () := edits (λ s, mkTurn (heap s) (self s) true).

(** [changed.wait] in a loop: the thread sleeps there until it is notified. *)
Definition wait (p : Position) : St Turn () := set_position p true.

(** [*participants.get_mut(&id).unwrap() = head] *)
Definition set_head (i : N) (head : option (list RootFrame)) : St Turn () :=
  c ← get_control;
  match participants c !! i with
  | None => fatal "unwrap of None"
  | Some _ => on_control (λ c, mkControl (next c) (<[i := head]> (participants c)) (slots c))
  end.

(** [Participant::control] *)
Definition lock_control (p : Participant) : St Turn () :=
  if bool_decide (state p = Running) then mret tt else fatal "nested mutator safe point".

(** A fresh identity, of a participant or of a slot. *)
Definition next_identity (exhausted : string) : St Turn N :=
  c ← get_control;
  n ← lift (or_panic (checked_add (next c) 1) exhausted);
  on_control (λ c, mkControl n (participants c) (slots c)) ;;
  mret (next c).

Definition park (p : Participant) : St Turn () :=
  (if bool_decide (state p = Running) then mret tt else fatal "nested mutator safe point") ;;
  set_state p Parked ;;
  roots ← reads (λ s, ROOTS (self s));
  set_head (id p) (Some roots) ;;
  notify_all.

(** [resume], one round of its loop. *)
Definition resume (p : Participant) : St Turn () :=
  requested ← get_requested;
  if (requested : bool) then wait Resuming
  else
    set_head (id p) None ;;
    set_state p Running ;;
    set_position Executing false.

(** ** Attachment *)

(** One round of the loop of [attach]; the thread goes on with the callback. *)
Definition attach_round (watermark : Z) : St Turn () :=
  requested ← get_requested;
  if (requested : bool) then wait Attaching
  else
    i ← next_identity "mutator identities exhausted";
    on_control (λ c, mkControl (next c) (<[i := None]> (participants c)) (slots c)) ;;
    roots ← reads (λ s, ROOTS (self s));
    set_participant (Some (mkParticipant i Running roots watermark)) ;;
    set_position Executing false.

Definition attach (watermark : Z) : St Turn () :=
  p ← current;
  if bool_decide (is_Some p) then fatal "nested shared heap attachment"
  else attach_round watermark.

(** [loom_rt_shared_enter], and [SharedSlot::enter] up to the load of the value. *)
Definition loom_rt_shared_enter (watermark : Z) : St Turn () :=
  t ← reads self;
  if negb (bool_decide (head_frame (ROOTS t) = None)) || negb (objects_empty (private t))
  then fatal "worker entered with a different live heap"
  else attach watermark.

(** [mutex::acquired_since] *)
Definition acquired_since (t : Thread) (mark : Z) : bool :=
  existsb (λ g, (mark <=? g.1)%Z) (GUARDS t).

(** [Drop for Participant]: the end of the callback. *)
Definition drop_participant (p : Participant) : St Turn () :=
  t ← reads self;
  if negb (bool_decide (state p = Running)) || negb (bool_decide (head_frame (ROOTS t) = head_frame (entry_roots p)))
     || negb (bool_decide (HELD t = [])) || acquired_since t (entry_mutexes p)
  then fatal "unbalanced mutator exit"
  else
    on_control (λ c, mkControl (next c) (delete (id p) (participants c)) (slots c)) ;;
    set_participant None ;;
    notify_all.

(** ** Slots *)

Definition publish (value : N) : St Turn N :=
  p ← current;
  match p with
  | None => fatal "worker requires a shared heap"
  | Some p =>
      lock_control p ;;
      i ← next_identity "worker identities exhausted";
      on_control (λ c, mkControl (next c) (participants c) (<[i := value]> (slots c))) ;;
      mret i
  end.

(** [Drop for SharedSlot], on any thread. *)
Definition drop_slot (i : N) : St Turn () :=
  on_control (λ c, mkControl (next c) (participants c) (delete i (slots c))).

(** ** Collection *)

(** The values of the slots in the order of the map's iterator, and their update. *)
Definition slot_values (c : Control) : list N := (map_to_list (slots c)).*2.
Definition store_slots (values : list N) (c : Control) : Control :=
  mkControl (next c) (participants c) (list_to_map (zip (map_to_list (slots c)).*1 values)).

(** [head.unwrap()] for every participant. *)
Fixpoint heads (l : list (option (list RootFrame))) : outcome (list (list RootFrame)) :=
  match l with
  | [] => Ok []
  | Some roots :: l => rest ← heads l; Ok (roots :: rest)
  | None :: _ => Panic "unwrap of None"
  end.

Definition waits_for_mutators (c : Control) : bool :=
  existsb (λ head, bool_decide (head = None)) (map_to_list (participants c)).*2.

(** One round of the loop of [collect], and what follows it. *)
Definition collect_round (p : Participant) : St Turn () :=
  c ← get_control;
  if waits_for_mutators c then wait Rendezvous
  else
    roots ← lift (heads (map_to_list (participants c)).*2);
    m ← reads (λ s, storage (heap s));
    '(values, m) ← lift (run_collection roots (slot_values c) m);
    on_control (store_slots values) ;;
    set_storage m ;;
    set_requested false ;;
    set_head (id p) None ;;
    set_state p Running ;;
    set_position Executing false ;;
    notify_all.

Definition collect : St Turn () :=
  p ← current;
  match p with
  | None =>
      t ← reads self;
      '(_, m) ← lift (run_collection [ROOTS t] [] (private t));
      set_private m
  | Some p =>
      lock_control p ;;
      park p ;;
      requested ← get_requested;
      if (requested : bool) then resume p
      else
        set_requested true ;;
        set_state p Collecting ;;
        collect_round p
  end.

(** ** Safe points *)

(** The flag is read without the lock. *)
Definition loom_rt_shared_checkpoint : St Turn () :=
  p ← current;
  match p with
  | None => mret tt
  | Some _ =>
      requested ← get_requested;
      if (requested : bool) then set_position Testing false else mret tt
  end.

Definition checkpoint_locked (p : Participant) : St Turn () :=
  lock_control p ;;
  park p ;;
  resume p.

(** [park_native] up to its callback. *)
Definition park_native : St Turn () :=
  p ← current;
  match p with
  | None => mret tt
  | Some p => lock_control p ;; park p ;; set_position Native false
  end.

(** [with_heap] *)
Definition with_heap (f : Store → Store) : St Turn () :=
  p ← current;
  match p with
  | None => t ← reads self; set_private (f (private t))
  | Some p =>
      if bool_decide (state p = Parked) then fatal "managed heap access while mutator is parked"
      else m ← reads (λ s, storage (heap s)); set_storage (f m)
  end.

(** The next turn of a thread that is inside one of the functions above. *)
Definition continue (watermark : Z) : St Turn () :=
  t ← reads self;
  match position t, participant t with
  | Executing, _ => mret tt
  | Attaching, _ => attach_round watermark
  | Rendezvous, Some p => collect_round p
  | Resuming, Some p => resume p
  | Native, Some p => resume p
  | Testing, Some p => checkpoint_locked p
  | _, None => fatal "no participant"
  end.

(** ** The machine *)

(** [owner] is the thread whose [with_shared] call made the heap. *)
Record Machine := mkMachine { shared : option (N * SharedHeap); threads : gmap N Thread }.

Definition wake (t : Thread) : Thread :=
  mkThread (ROOTS t) (private t) (participant t) (HELD t) (GUARDS t) (position t) false.

(** One turn of the thread [i] on the shared heap [h]. *)
Definition take_turn (turn : St Turn ()) (i : N) (h : SharedHeap) (ths : gmap N Thread)
    : outcome (SharedHeap * gmap N Thread) :=
  t ← or_panic (ths !! i) "no thread";
  '(_, s) ← turn (mkTurn h t false);
  Ok (heap s, <[i := self s]> (if notified s then wake <$> ths else ths)).

(** [with_shared] on a thread that is not attached: a new heap, and its first participant. *)
Definition with_shared (watermark : Z) (t : Thread) : outcome (SharedHeap * Thread) :=
  let h := mkSharedHeap (private t) (mkControl 0 ∅ ∅) false in
  let t := mkThread (ROOTS t) default_store (participant t) (HELD t) (GUARDS t) (position t)
             (asleep t) in
  '(_, s) ← attach watermark (mkTurn h t false);
  Ok (heap s, self s).

(** The end of [with_shared], after its participant was dropped. *)
Definition end_shared (h : SharedHeap) (t : Thread) : outcome Thread :=
  if negb (bool_decide (participants (control h) = ∅)) || negb (bool_decide (slots (control h) = ∅))
  then Panic "shared heap scope returned before its workers"
  else Ok (mkThread (ROOTS t) (storage h) (participant t) (HELD t) (GUARDS t) (position t)
             (asleep t)).

(** What running code may call. *)
Inductive Call :=
  | Enter
  | Exit
  | Publish (value : N)
  | Drop_slot (i : N)
  | Collect
  | Checkpoint
  | Park_native
  | With_heap (f : Store → Store).

Definition call (c : Call) (watermark : Z) : St Turn () :=
  match c with
  | Enter => loom_rt_shared_enter watermark
  | Exit => p ← current; match p with None => fatal "no participant" | Some p => drop_participant p end
  | Publish value => publish value ;; mret tt
  | Drop_slot i => drop_slot i
  | Collect => collect
  | Checkpoint => loom_rt_shared_checkpoint
  | Park_native => park_native
  | With_heap f => with_heap f
  end.

(** What the thread [t] does to itself between turns: it enters and leaves root frames and
    takes and releases guards. *)
Definition same_but_own (t t' : Thread) : Prop :=
  private t' = private t ∧ participant t' = participant t ∧ position t' = position t ∧
  asleep t' = asleep t.

(** Interleavings. A notified thread goes on with the test of its loop; a sleeping one may
    wake up spuriously, and a native callback may drop slots. The owner's callback joins all
    threads before it returns, so that nobody is attaching then. *)
Inductive step : Machine → Machine → Prop :=
  | step_open i t mark h t' ths :
      ths !! i = Some t → position t = Executing → participant t = None →
      with_shared mark t = Ok (h, t') →
      step (mkMachine None ths) (mkMachine (Some (i, h)) (<[i := t']> ths))
  | step_close i t h t' ths :
      ths !! i = Some t → position t = Executing → participant t = None →
      (∀ j u, ths !! j = Some u → position u ≠ Attaching) →
      end_shared h t = Ok t' →
      step (mkMachine (Some (i, h)) ths) (mkMachine None (<[i := t']> ths))
  | step_call i t c mark o h h' ths ths' :
      ths !! i = Some t → position t = Executing →
      take_turn (call c mark) i h ths = Ok (h', ths') →
      step (mkMachine (Some (o, h)) ths) (mkMachine (Some (o, h')) ths')
  | step_drop i t s o h h' ths ths' :
      ths !! i = Some t → position t = Native →
      take_turn (drop_slot s) i h ths = Ok (h', ths') →
      step (mkMachine (Some (o, h)) ths) (mkMachine (Some (o, h')) ths')
  | step_continue i t mark o h h' ths ths' :
      ths !! i = Some t → asleep t = false →
      take_turn (continue mark) i h ths = Ok (h', ths') →
      step (mkMachine (Some (o, h)) ths) (mkMachine (Some (o, h')) ths')
  | step_own i t t' s ths :
      ths !! i = Some t → position t = Executing → same_but_own t t' →
      step (mkMachine s ths) (mkMachine s (<[i := t']> ths))
  | step_wake i t s ths :
      ths !! i = Some t →
      step (mkMachine s ths) (mkMachine s (<[i := wake t]> ths)).
End shared.
