(* ===== verification/SharedInv.v ===== *)
(** The invariant of the rendezvous: what the shared heap knows of its participants, and that
    whoever sleeps has a reason to. *)

From S2P Require Import Prelude Effects SharedHeap.

(** A collector ends, and gives every slot a value. *)
Class StorageSpec `{Storage} :=
  run_ends roots values m :
    match run_collection roots values m with
    | Ok (values', _) => length values' = length values
    | Panic _ => True
    | _ => False
    end.

Section inv.
Context `{StorageSpec}.

(** ** The invariant *)

Definition state_of (t : Thread) : option State := state <$> participant t.

Definition place_ok (t : Thread) : Prop :=
  match position t with
  | Executing => state_of t = None ∨ state_of t = Some Running
  | Testing => state_of t = Some Running
  | Attaching => state_of t = None
  | Rendezvous => state_of t = Some Collecting
  | Resuming | Native => state_of t = Some Parked
  end.

Abbreviation parts h := (participants (control h)).

(** The root chain that a thread has published. *)
Definition published (t : Thread) (p : Participant) : option (list RootFrame) :=
  if bool_decide (state p = Running) then None else Some (ROOTS t).

Definition running (h : SharedHeap) : Prop := ∃ j, parts h !! j = Some None.

Definition sleep_ok (h : SharedHeap) (t : Thread) : Prop :=
  match position t with
  | Attaching | Resuming => requested h = true
  | Rendezvous => running h
  | _ => False
  end.

Record inv (h : SharedHeap) (ths : gmap N Thread) : Prop := {
  i_place i t : ths !! i = Some t → place_ok t;
  i_heads i t p : ths !! i = Some t → participant t = Some p →
    parts h !! id p = Some (published t p);
  i_distinct i i' t t' p p' : ths !! i = Some t → ths !! i' = Some t' →
    participant t = Some p → participant t' = Some p' → id p = id p' → i = i';
  i_known j : is_Some (parts h !! j) →
    ∃ i t p, ths !! i = Some t ∧ participant t = Some p ∧ id p = j;
  i_below j : is_Some (parts h !! j) → j < next (control h);
  i_slots j : is_Some (slots (control h) !! j) → j < next (control h);
  i_request : requested h = true ↔ ∃ i t, ths !! i = Some t ∧ position t = Rendezvous;
  i_one i i' t t' : ths !! i = Some t → ths !! i' = Some t' →
    position t = Rendezvous → position t' = Rendezvous → i = i';
  i_sleep i t : ths !! i = Some t → asleep t = true → sleep_ok h t;
}.

(** What a turn of [t] on [h] may do. *)
Record turned (h : SharedHeap) (t : Thread) (h' : SharedHeap) (t' : Thread) (b : bool) : Prop := {
  t_place : place_ok t';
  t_heads p : participant t' = Some p → parts h' !! id p = Some (published t' p);
  t_others j : (∀ p, participant t = Some p → j ≠ id p) →
    (∀ p, participant t' = Some p → j ≠ id p) → parts h' !! j = parts h !! j;
  t_id : match participant t, participant t' with
         | Some p, Some p' => id p = id p'
         | None, Some p' => id p' = next (control h) ∧ next (control h) < next (control h')
         | Some p, None => parts h' !! id p = None
         | None, None => True
         end;
  t_next : next (control h) ≤ next (control h');
  t_slots j : is_Some (slots (control h') !! j) → j < next (control h');
  t_request :
    requested h' = requested h ∧ (position t' = Rendezvous ↔ position t = Rendezvous) ∨
    requested h = false ∧ requested h' = true ∧ position t' = Rendezvous ∨
    position t = Rendezvous ∧ requested h' = false ∧ position t' ≠ Rendezvous;
  t_sleep : asleep t' = true → sleep_ok h' t';
  t_wake : b = true ∨
    ((requested h = true → requested h' = true) ∧ (running h → running h'));
}.

(** Only what decides about sleeping differs in a thread that was woken. *)
Lemma woken (b : bool) (ths : gmap N Thread) i t :
  (if b then wake <$> ths else ths) !! i = Some t →
  ∃ u, ths !! i = Some u ∧ ROOTS t = ROOTS u ∧ participant t = participant u ∧
    position t = position u ∧ (asleep t = true → b = false ∧ t = u).
Proof.
  destruct b; [|intros ?; by exists t].
  rewrite lookup_fmap_Some. intros (u & <- & Hu). by exists u.
Qed.

Lemma woken_back (b : bool) (ths : gmap N Thread) i u :
  ths !! i = Some u → ∃ t, (if b then wake <$> ths else ths) !! i = Some t ∧
    position t = position u ∧ participant t = participant u.
Proof. intros Hu. destruct b; [exists (wake u); by rewrite lookup_fmap, Hu|by exists u]. Qed.

Section turn.
Context {h h' : SharedHeap} {ths : gmap N Thread} {i : N} {t t' : Thread} {b : bool}.
Context (Hi : inv h ths) (Ht : ths !! i = Some t) (Hturn : turned h t h' t' b).

Abbreviation ths' := (<[i := t']> (if b then wake <$> ths else ths)).

(** Threads after the turn: the one whose turn it was, and the others. *)
Lemma turn_lookup k u :
  ths' !! k = Some u →
  k = i ∧ u = t' ∨
  k ≠ i ∧ ∃ v, ths !! k = Some v ∧ ROOTS u = ROOTS v ∧ participant u = participant v ∧
    position u = position v ∧ (asleep u = true → b = false ∧ u = v).
Proof. intros [[<- <-]|[Hne (v & ?)%woken]]%lookup_insert_Some; [by left|right; eauto]. Qed.

Lemma other_id k u p p' :
  k ≠ i → ths !! k = Some u → participant u = Some p → participant t' = Some p' → id p ≠ id p'.
Proof.
  intros Hk Hu Hp Hp' E. pose proof (t_id _ _ _ _ _ Hturn) as Hid. rewrite Hp' in Hid.
  destruct (participant t) as [q|] eqn:Hq.
  - apply Hk. eapply (i_distinct _ _ Hi); [exact Hu|exact Ht|done|done|congruence].
  - destruct Hid as [Hid _]. assert (id p < next (control h)); [|lia].
    apply (i_below _ _ Hi). rewrite (i_heads _ _ Hi _ _ _ Hu Hp). by eexists.
Qed.

Lemma other_head k u p :
  k ≠ i → ths !! k = Some u → participant u = Some p → parts h' !! id p = parts h !! id p.
Proof.
  intros Hk Hu Hp. apply (t_others _ _ _ _ _ Hturn).
  - intros q Hq E. apply Hk. by eapply (i_distinct _ _ Hi).
  - intros q Hq. by apply (other_id k u p q).
Qed.

Lemma turn_known j :
  is_Some (parts h' !! j) → ∃ k u p, ths' !! k = Some u ∧ participant u = Some p ∧ id p = j.
Proof.
  intros Hj. destruct (participant t') as [p'|] eqn:Hp'.
  { destruct (decide (j = id p')) as [->|Hne].
    - exists i, t', p'. by rewrite lookup_insert_eq.
    - assert (E : parts h' !! j = parts h !! j).
      { apply (t_others _ _ _ _ _ Hturn).
        - intros p Hp. pose proof (t_id _ _ _ _ _ Hturn) as Hid. rewrite Hp, Hp' in Hid. congruence.
        - intros p. rewrite Hp'. congruence. }
      rewrite E in Hj. destruct (i_known _ _ Hi _ Hj) as (k & u & p & Hu & Hp & Hid).
      destruct (decide (k = i)) as [->|Hk].
      + pose proof (t_id _ _ _ _ _ Hturn) as Hid'. rewrite Ht in Hu. injection Hu as ->.
        rewrite Hp, Hp' in Hid'. congruence.
      + destruct (woken_back b _ _ _ Hu) as (v & Hv & _ & Hpv). exists k, v, p.
        by rewrite lookup_insert_ne, Hpv. }
  pose proof (t_id _ _ _ _ _ Hturn) as Hid. rewrite Hp' in Hid.
  assert (Hne : ∀ p, participant t = Some p → j ≠ id p).
  { intros p Hp ->. rewrite Hp in Hid. by rewrite Hid in Hj; destruct Hj. }
  rewrite (t_others _ _ _ _ _ Hturn j Hne) in Hj by (intros p; by rewrite Hp').
  destruct (i_known _ _ Hi _ Hj) as (k & u & p & Hu & Hp & <-).
  destruct (decide (k = i)) as [->|Hk].
  - rewrite Ht in Hu. injection Hu as ->. by destruct (Hne p Hp).
  - destruct (woken_back b _ _ _ Hu) as (v & Hv & _ & Hpv). exists k, v, p.
    by rewrite lookup_insert_ne, Hpv.
Qed.

Lemma turn_below j : is_Some (parts h' !! j) → j < next (control h').
Proof.
  intros Hj. pose proof (t_next _ _ _ _ _ Hturn). pose proof (t_id _ _ _ _ _ Hturn) as Hid.
  destruct (turn_known j Hj) as (k & u & p & Hu & Hp & <-).
  destruct (turn_lookup k u Hu) as [[-> ->]|(Hk & v & Hv & _ & Ep & _)].
  - rewrite Hp in Hid. destruct (participant t) as [q|] eqn:Hq; [|lia].
    assert (id q < next (control h)); [|rewrite <- Hid; lia].
    apply (i_below _ _ Hi). rewrite (i_heads _ _ Hi _ _ _ Ht Hq). by eexists.
  - assert (id p < next (control h)); [|lia]. rewrite Ep in Hp.
    apply (i_below _ _ Hi). rewrite (i_heads _ _ Hi _ _ _ Hv Hp). by eexists.
Qed.

Lemma turn_request : requested h' = true ↔ ∃ k u, ths' !! k = Some u ∧ position u = Rendezvous.
Proof.
  pose proof (i_request _ _ Hi) as Hr.
  assert (Hself : position t' = Rendezvous → ∃ k u, ths' !! k = Some u ∧ position u = Rendezvous).
  { intros Hp. exists i, t'. by rewrite lookup_insert_eq. }
  assert (Hback : ∀ k u, k ≠ i → ths' !! k = Some u → position u = Rendezvous → requested h = true).
  { intros k u Hk Hu Hp. apply Hr. destruct (turn_lookup k u Hu) as [[-> _]|(_ & v & Hv & _ & _ & Ep & _)];
      [done|]. exists k, v. by rewrite <- Ep. }
  destruct (t_request _ _ _ _ _ Hturn) as [[E Hp]|[(E & E' & Hp)|(Hp & E & Hp')]].
  - rewrite E. split.
    + intros (k & u & Hu & Hpu)%Hr. destruct (decide (k = i)) as [->|Hk].
      * rewrite Ht in Hu. injection Hu as <-. by apply Hself, Hp.
      * destruct (woken_back b _ _ _ Hu) as (v & Hv & Epv & _). exists k, v.
        by rewrite lookup_insert_ne, Epv.
    + intros (k & u & Hu & Hpu). destruct (decide (k = i)) as [->|Hk]; [|by eapply Hback].
      rewrite lookup_insert_eq in Hu. injection Hu as <-. apply Hr. exists i, t. by rewrite Ht, <- Hp.
  - rewrite E'. split; [intros _; by apply Hself|done].
  - rewrite E. split; [done|]. intros (k & u & Hu & Hpu). exfalso.
    destruct (turn_lookup k u Hu) as [[-> ->]|(Hk & v & Hv & _ & _ & Ep & _)]; [done|].
    apply Hk. eapply (i_one _ _ Hi); [exact Hv|exact Ht|congruence|done].
Qed.

(** Who waits for all others is alone, before and after. *)
Lemma turn_alone k u :
  k ≠ i → ths !! k = Some u → position u = Rendezvous → position t' ≠ Rendezvous.
Proof.
  intros Hk Hu Hp Hp'. destruct (t_request _ _ _ _ _ Hturn) as [[_ E]|[(E & _ & _)|(_ & _ & ?)]]; [..|done].
  - apply Hk. eapply (i_one _ _ Hi); [exact Hu|exact Ht|done|by apply E].
  - assert (requested h = true) by (apply (i_request _ _ Hi); eauto). congruence.
Qed.

Lemma inv_turned : inv h' ths'.
Proof.
  split.
  - intros k u [[-> ->]|(_ & v & Hv & _ & Ep & Eq & _)]%turn_lookup; [apply Hturn|].
    pose proof (i_place _ _ Hi _ _ Hv) as Hpl. unfold place_ok, state_of in *. by rewrite Ep, Eq.
  - intros k u p [[-> ->]|(Hk & v & Hv & Er & Ep & _)]%turn_lookup Hp; [by apply Hturn|].
    rewrite Ep in Hp. rewrite (other_head k v p Hk Hv Hp), (i_heads _ _ Hi _ _ _ Hv Hp).
    unfold published. by rewrite Er.
  - intros k k' u u' p p' Hu Hu' Hp Hp' E.
    destruct (turn_lookup _ _ Hu) as [[-> ->]|(Hk & v & Hv & _ & Ev & _)],
      (turn_lookup _ _ Hu') as [[-> ->]|(Hk' & v' & Hv' & _ & Ev' & _)]; [done|..].
    + rewrite Ev' in Hp'. by destruct (other_id k' v' p' p Hk' Hv' Hp' Hp).
    + rewrite Ev in Hp. by destruct (other_id k v p p' Hk Hv Hp Hp').
    + rewrite Ev in Hp. rewrite Ev' in Hp'. by eapply (i_distinct _ _ Hi).
  - apply turn_known.
  - apply turn_below.
  - apply (t_slots _ _ _ _ _ Hturn).
  - apply turn_request.
  - intros k k' u u' Hu Hu' Hp Hp'.
    destruct (turn_lookup _ _ Hu) as [[-> ->]|(Hk & v & Hv & _ & _ & Ev & _)],
      (turn_lookup _ _ Hu') as [[-> ->]|(Hk' & v' & Hv' & _ & _ & Ev' & _)]; [done|..].
    + rewrite Ev' in Hp'. by destruct (turn_alone k' v' Hk' Hv' Hp').
    + rewrite Ev in Hp. by destruct (turn_alone k v Hk Hv Hp).
    + rewrite Ev in Hp. rewrite Ev' in Hp'. by eapply (i_one _ _ Hi).
  - intros k u [[-> ->]|(Hk & v & Hv & _ & _ & _ & Hsame)]%turn_lookup Hs; [by apply Hturn|].
    destruct (Hsame Hs) as [Hb <-]. pose proof (i_sleep _ _ Hi _ _ Hv Hs) as Hok.
    destruct (t_wake _ _ _ _ _ Hturn) as [?|[Hreq Hrun]]; [congruence|].
    unfold sleep_ok in *. destruct (position u); auto.
Qed.
End turn.
End inv.

(** Every turn keeps the invariant of the rendezvous, and every run. *)

Section turns.
Context `{StorageSpec}.

Abbreviation parts h := (participants (control h)).

(** ** What a turn ends with *)

(** The aborts that the code announces, and those of the collector. *)
Definition announced (why : string) : Prop :=
  why ∈ ["nested mutator safe point"; "mutator identities exhausted";
         "nested shared heap attachment"; "worker entered with a different live heap";
         "unbalanced mutator exit"; "worker requires a shared heap";
         "worker identities exhausted"; "managed heap access while mutator is parked";
         "no participant"] ∨
  ∃ roots values m, run_collection roots values m = Panic why.

Definition ends {A} (m : St Turn A) (s : Turn) (Q : A → Turn → Prop) : Prop :=
  match m s with
  | Ok (a, s') => Q a s'
  | Panic why => announced why
  | _ => False
  end.

Lemma ends_ret {A} (a : A) s (Q : A → Turn → Prop) : Q a s → ends (mret a) s Q.
Proof. done. Qed.

Lemma ends_bind {A B} (m : St Turn A) (k : A → St Turn B) s Q :
  ends m s (λ a s', ends (k a) s' Q) → ends (m ≫= k) s Q.
Proof. unfold ends, mbind, St_bind. destruct (m s) as [[a s']| | |]; simpl; done. Qed.

Lemma ends_mono {A} (m : St Turn A) s (Q Q' : A → Turn → Prop) :
  ends m s Q → (∀ a s', Q a s' → Q' a s') → ends m s Q'.
Proof. unfold ends. destruct (m s) as [[a s']| | |]; simpl; auto. Qed.

Lemma ends_reads {A} (f : Turn → A) s (Q : A → Turn → Prop) : Q (f s) s → ends (reads f) s Q.
Proof. done. Qed.

Lemma ends_edits (f : Turn → Turn) s (Q : () → Turn → Prop) : Q tt (f s) → ends (edits f) s Q.
Proof. done. Qed.

Lemma ends_fatal {A} why s (Q : A → Turn → Prop) : announced why → ends (fatal why) s Q.
Proof. done. Qed.

Lemma ends_lift {A} (m : outcome A) s (Q : A → Turn → Prop) :
  match m with Ok a => Q a s | Panic why => announced why | _ => False end → ends (lift m) s Q.
Proof. unfold ends, lift. by destruct m. Qed.

Lemma ends_head i head s (Q : () → Turn → Prop) :
  is_Some (parts (heap s) !! i) →
  Q tt (mkTurn (mkSharedHeap (storage (heap s))
    (mkControl (next (control (heap s))) (<[i := head]> (parts (heap s)))
      (slots (control (heap s)))) (requested (heap s))) (self s) (notified s)) →
  ends (set_head i head) s Q.
Proof.
  intros [v Hv] HQ. unfold set_head. apply ends_bind, ends_reads. rewrite Hv. by apply ends_edits.
Qed.

Lemma ends_identity why s (Q : N → Turn → Prop) :
  announced why →
  (next (control (heap s)) < usize_max →
   Q (next (control (heap s))) (mkTurn (mkSharedHeap (storage (heap s))
     (mkControl (next (control (heap s)) + 1) (parts (heap s)) (slots (control (heap s))))
     (requested (heap s))) (self s) (notified s))) →
  ends (next_identity why) s Q.
Proof.
  intros Hw HQ. unfold next_identity. apply ends_bind, ends_reads.
  unfold ends, mbind, St_bind, lift, checked_add.
  destruct (N.leb_spec (next (control (heap s)) + 1) usize_max); simpl; [apply HQ; lia|done].
Qed.

(** ** The parts of turns *)

(** A thread and its heap at the beginning of a turn. *)
Record before (h : SharedHeap) (t : Thread) : Prop := {
  b_place : place_ok t;
  b_heads p : participant t = Some p → parts h !! id p = Some (published t p);
  b_slots j : is_Some (slots (control h) !! j) → j < next (control h);
  b_rendezvous : position t = Rendezvous → requested h = true;
  b_sleep : asleep t = true → sleep_ok h t;
}.

Definition does {A} (m : St Turn A) (h : SharedHeap) (t : Thread) : Prop :=
  ends m (mkTurn h t false) (λ _ s, turned h t (heap s) (self s) (notified s)).

(** Nothing happens to the rendezvous. *)
Lemma turned_same h t t' m b :
  before h t → place_ok t' → participant t' = participant t → position t' = position t →
  (∀ p, participant t = Some p → published t' p = published t p) →
  (asleep t' = true → asleep t = true) →
  turned h t (mkSharedHeap m (control h) (requested h)) t' b.
Proof.
  intros [Hpl Hh Hs Hr Hsl] Hpl' Ep Eq Epub Ea. split; simpl; try done.
  - intros p Hp. rewrite Ep in Hp. rewrite (Hh p Hp). by rewrite Epub.
  - rewrite Ep. destruct (participant t); done.
  - left. by rewrite Eq.
  - intros Has. specialize (Hsl (Ea Has)). unfold sleep_ok, running in *. rewrite Eq. done.
  - by right.
Qed.

Lemma self_same h t : before h t → turned h t h t false.
Proof. intros Hb. pose proof (turned_same h t t (storage h) false Hb) as Hs. destruct h. apply Hs; auto; apply Hb. Qed.

Lemma position_of h t p :
  before h t → participant t = Some p →
  match position t with
  | Executing | Testing => state p = Running
  | Attaching => False
  | Rendezvous => state p = Collecting
  | Resuming | Native => state p = Parked
  end.
Proof.
  intros Hb Hp. pose proof (b_place _ _ Hb) as Hpl. unfold place_ok, state_of in Hpl.
  rewrite Hp in Hpl. simpl in Hpl. destruct (position t); naive_solver.
Qed.

(** The participant in another state, and the thread elsewhere. *)
Definition moved (t : Thread) (p : Participant) (s : State) (q : Position) (sleep : bool) : Thread :=
  mkThread (ROOTS t) (private t)
    (Some (mkParticipant (id p) s (entry_roots p) (entry_mutexes p))) (HELD t) (GUARDS t) q sleep.

(** What most turns come to: the head of the participant changes with its state. *)
Lemma turned_moved h t p s q sleep m r b sl :
  before h t → participant t = Some p →
  (∀ j, is_Some (sl !! j) → is_Some (slots (control h) !! j)) →
  place_ok (moved t p s q sleep) →
  (r = requested h ∧ (q = Rendezvous ↔ position t = Rendezvous) ∨
   requested h = false ∧ r = true ∧ q = Rendezvous ∨
   position t = Rendezvous ∧ r = false ∧ q ≠ Rendezvous) →
  let h' := mkSharedHeap m (mkControl (next (control h))
    (<[id p := published (moved t p s q sleep) (mkParticipant (id p) s (entry_roots p) (entry_mutexes p))]>
      (parts h)) sl) r in
  (sleep = true → sleep_ok h' (moved t p s q sleep)) →
  (b = true ∨ ((requested h = true → r = true) ∧ (s = Running ∨ state p ≠ Running))) →
  turned h t h' (moved t p s q sleep) b.
Proof.
  intros Hb Hp Hsl Hpl Hr h' Hsleep Hw. split; simpl; try done.
  - intros p' [= <-]. simpl. by rewrite lookup_insert_eq.
  - intros j _ Hj. rewrite lookup_insert_ne; [done|]. intros E. by apply (Hj _ eq_refl).
  - by rewrite Hp.
  - intros j Hj. by apply (b_slots _ _ Hb), Hsl.
  - destruct Hw as [->|[Hw Hs]]; [by left|]. right. split; [done|]. intros [j Hj].
    unfold running. simpl. destruct (decide (j = id p)) as [->|Hne].
    + exists (id p). rewrite lookup_insert_eq. destruct Hs as [->|Hs]; [done|].
      rewrite (b_heads _ _ Hb _ Hp) in Hj. unfold published in Hj.
      by rewrite bool_decide_eq_false_2 in Hj.
    + exists j. by rewrite lookup_insert_ne.
Qed.

Lemma head_registered h t p : before h t → participant t = Some p → is_Some (parts h !! id p).
Proof. intros Hb Hp. rewrite (b_heads _ _ Hb _ Hp). by eexists. Qed.

(** [resume] after the thread has parked or while it is parked; [h0] and [t0] are what its
    turn began with. *)
Lemma resume_does h t p b :
  before h t → participant t = Some p → position t ≠ Rendezvous →
  let p' := mkParticipant (id p) Parked (entry_roots p) (entry_mutexes p) in
  ends (resume p) (mkTurn (mkSharedHeap (storage h) (mkControl (next (control h))
      (<[id p := Some (ROOTS t)]> (parts h)) (slots (control h))) (requested h))
      (moved t p Parked (position t) (asleep t)) b)
    (λ _ s, b = true ∨ state p = Parked → turned h t (heap s) (self s) (notified s)).
Proof.
  intros Hb Hp Hpos p'. unfold resume. apply ends_bind, ends_reads. simpl.
  destruct (requested h) eqn:Er.
  - apply ends_edits. simpl. intros Hor.
    apply (turned_moved h t p Parked Resuming true (storage h) true b (slots (control h)));
      try done; [left; by rewrite Er|]. destruct Hor as [->|Hst]; [by left|]. right.
    split; [done|]. right. by rewrite Hst.
  - apply ends_bind, ends_head; [simpl; rewrite lookup_insert_eq; by eexists|].
    apply ends_bind, ends_edits, ends_edits. simpl. intros _.
    rewrite insert_insert_eq.
    apply (turned_moved h t p Running Executing false (storage h) false b (slots (control h)));
      try done; [by right|left; by rewrite Er|]. right. rewrite Er. split; [done|by left].
Qed.

(** ** Calls *)

Lemma announce why : why ∈ ["nested mutator safe point"; "mutator identities exhausted";
         "nested shared heap attachment"; "worker entered with a different live heap";
         "unbalanced mutator exit"; "worker requires a shared heap";
         "worker identities exhausted"; "managed heap access while mutator is parked";
         "no participant"] → announced why.
Proof. by left. Qed.

Ltac announce := apply ends_fatal, announce, (bool_decide_unpack _); by vm_compute.

(** [park] of a running participant. *)
Lemma park_ends h t p (Q : () → Turn → Prop) :
  before h t → participant t = Some p → state p = Running →
  Q tt (mkTurn (mkSharedHeap (storage h) (mkControl (next (control h))
      (<[id p := Some (ROOTS t)]> (parts h)) (slots (control h))) (requested h))
      (moved t p Parked (position t) (asleep t)) true) →
  ends (park p) (mkTurn h t false) Q.
Proof.
  intros Hb Hp Hst HQ. unfold park. rewrite bool_decide_eq_true_2 by done.
  apply ends_bind, ends_ret, ends_bind, ends_edits, ends_bind, ends_reads, ends_bind. simpl.
  apply ends_head; [by eapply head_registered|]. by apply ends_edits.
Qed.

Lemma lock_ends p s (Q : () → Turn → Prop) :
  state p = Running → Q tt s → ends (lock_control p) s Q.
Proof. intros Hst HQ. unfold lock_control. rewrite bool_decide_eq_true_2 by done. by apply ends_ret. Qed.

Lemma attach_round_does mark h t :
  before h t → participant t = None → position t ≠ Rendezvous → does (attach_round mark) h t.
Proof.
  intros Hb Hp Hpos. unfold attach_round. apply ends_bind, ends_reads. simpl.
  destruct (requested h) eqn:Er.
  - apply ends_edits. simpl. split; simpl; try done.
    + unfold place_ok, state_of. simpl. by rewrite Hp.
    + apply (b_heads _ _ Hb).
    + by rewrite Hp.
    + apply (b_slots _ _ Hb).
    + left. split; [done|]. split; [done|]. by intros ?%Hpos.
    + by right.
  - apply ends_bind, ends_identity; [apply announce, (bool_decide_unpack _); by vm_compute|].
    simpl. intros _. apply ends_bind, ends_edits, ends_bind, ends_reads, ends_bind, ends_edits,
      ends_edits. split; simpl; try done.
    + by right.
    + intros p [= <-]. simpl. by rewrite lookup_insert_eq.
    + intros j _ Hj. rewrite lookup_insert_ne; [done|]. intros E. by apply (Hj _ eq_refl).
    + rewrite Hp. simpl. lia.
    + lia.
    + intros j Hj%(b_slots _ _ Hb). lia.
    + left. split; [done|]. split; [done|]. by intros ?%Hpos.
    + right. split; [done|]. intros _. exists (next (control h)). simpl. by rewrite lookup_insert_eq.
Qed.

Lemma attach_does mark h t : before h t → position t ≠ Rendezvous → does (attach mark) h t.
Proof.
  intros Hb Hpos. unfold attach. apply ends_bind, ends_reads. simpl.
  case_bool_decide as Hsome; [announce|]. apply attach_round_does; [done|by apply eq_None_not_Some|done].
Qed.

Lemma enter_does mark h t :
  before h t → position t = Executing → does (loom_rt_shared_enter mark) h t.
Proof.
  intros Hb Hpos. unfold loom_rt_shared_enter. apply ends_bind, ends_reads. simpl.
  destruct (_ || _); [announce|]. apply attach_does; [done|by rewrite Hpos].
Qed.

Lemma exit_does p h t :
  before h t → position t = Executing → participant t = Some p → does (drop_participant p) h t.
Proof.
  intros Hb Hpos Hp. unfold drop_participant. apply ends_bind, ends_reads. simpl.
  destruct (_ || _); [announce|]. apply ends_bind, ends_edits, ends_bind, ends_edits, ends_edits.
  split; simpl; try done.
  - unfold place_ok. simpl. rewrite Hpos. by left.
  - intros j Hj _. rewrite lookup_delete_ne; [done|]. intros E. by apply (Hj p).
  - rewrite Hp. apply lookup_delete_eq.
  - apply (b_slots _ _ Hb).
  - by left.
  - intros Ha%(b_sleep _ _ Hb). unfold sleep_ok in *. by rewrite Hpos in Ha.
  - by left.
Qed.

Lemma publish_does value h t :
  before h t → position t = Executing → does (publish value ;; mret tt) h t.
Proof.
  intros Hb Hpos. unfold publish. apply ends_bind, ends_bind, ends_reads. simpl.
  destruct (participant t) as [p|] eqn:Hp; [|announce].
  pose proof (position_of _ _ _ Hb Hp) as Hst. rewrite Hpos in Hst.
  apply ends_bind, lock_ends, ends_bind, ends_identity; [done|apply announce, (bool_decide_unpack _); by vm_compute|].
  simpl. intros _. apply ends_bind, ends_edits, ends_ret, ends_ret. simpl.
  destruct (self_same h t Hb). split; simpl in *; try done.
  - by rewrite Hp.
  - lia.
  - intros j Hj. destruct (decide (j = next (control h))) as [->|Hne]; [lia|].
    rewrite lookup_insert_ne in Hj by done. pose proof (b_slots _ _ Hb j Hj). lia.
Qed.

Lemma drop_slot_does i h t : before h t → does (drop_slot i) h t.
Proof.
  intros Hb. apply ends_edits. destruct (self_same h t Hb). split; simpl in *; try done.
  intros j [_ Hj]%lookup_delete_is_Some. by apply (b_slots _ _ Hb).
Qed.

Lemma checkpoint_does h t :
  before h t → position t = Executing → does loom_rt_shared_checkpoint h t.
Proof.
  intros Hb Hpos. unfold loom_rt_shared_checkpoint. apply ends_bind, ends_reads. simpl.
  destruct (participant t) as [p|] eqn:Hp; [|by apply ends_ret, self_same].
  pose proof (position_of _ _ _ Hb Hp) as Hst. rewrite Hpos in Hst.
  apply ends_bind, ends_reads. simpl. destruct (requested h) eqn:Er; [|by apply ends_ret, self_same].
  apply ends_edits. simpl. destruct (self_same h t Hb). split; simpl in *; try done.
  - unfold place_ok, state_of. simpl. by rewrite Hp, <- Hst.
  - left. split; [done|]. by rewrite Hpos.
Qed.

Lemma checkpoint_locked_does p h t :
  before h t → participant t = Some p → position t = Testing → does (checkpoint_locked p) h t.
Proof.
  intros Hb Hp Hpos. pose proof (position_of _ _ _ Hb Hp) as Hst. rewrite Hpos in Hst.
  unfold checkpoint_locked. apply ends_bind, lock_ends, ends_bind, park_ends; [done..|].
  eapply ends_mono; [by apply resume_does; rewrite ?Hpos|]. simpl. intros _ s Hs. apply Hs. by left.
Qed.

Lemma native_does h t : before h t → position t = Executing → does park_native h t.
Proof.
  intros Hb Hpos. unfold park_native. apply ends_bind, ends_reads. simpl.
  destruct (participant t) as [p|] eqn:Hp; [|by apply ends_ret, self_same].
  pose proof (position_of _ _ _ Hb Hp) as Hst. rewrite Hpos in Hst.
  apply ends_bind, lock_ends, ends_bind, park_ends; [done..|]. apply ends_edits. simpl.
  apply (turned_moved h t p Parked Native false (storage h) (requested h) true (slots (control h)));
    try done; [|by left]. left. by rewrite Hpos.
Qed.

Lemma with_heap_does f h t : before h t → position t = Executing → does (with_heap f) h t.
Proof.
  intros Hb Hpos. unfold with_heap. apply ends_bind, ends_reads. simpl.
  assert (Hno : asleep t = true → False).
  { intros Ha%(b_sleep _ _ Hb). unfold sleep_ok in Ha. by rewrite Hpos in Ha. }
  destruct (participant t) as [p|] eqn:Hp.
  - pose proof (position_of _ _ _ Hb Hp) as Hst. rewrite Hpos in Hst.
    rewrite bool_decide_eq_false_2 by by rewrite Hst.
    apply ends_bind, ends_reads, ends_edits. simpl. apply turned_same; try done. by apply Hb.
  - apply ends_bind, ends_reads, ends_edits. simpl.
    pose proof (turned_same h t (mkThread (ROOTS t) (f (private t)) (participant t) (HELD t)
      (GUARDS t) (position t) (asleep t)) (storage h) false Hb) as Hs.
    destruct h. apply Hs; try done. apply (b_place _ _ Hb).
Qed.
End turns.
