(* ===== verification/SharedRuns.v ===== *)
(** Collections of the shared heap, and its machine: every run keeps the invariant. *)

From S2P Require Import Prelude Effects SharedHeap SharedInv.

Section runs.
Context `{StorageSpec}.

Abbreviation parts h := (participants (control h)).

(** ** Collections *)

Lemma waits_spec c :
  waits_for_mutators c = true ↔ ∃ j, participants c !! j = Some None.
Proof.
  unfold waits_for_mutators. rewrite existsb_exists. split.
  - intros (v & Hv & E%bool_decide_eq_true). subst. apply list_elem_of_In in Hv.
    apply list_elem_of_fmap in Hv as ([j v] & E & Hin). simpl in E. subst.
    exists j. by apply elem_of_map_to_list.
  - intros [j Hj]. exists None. split; [|done]. apply list_elem_of_In, list_elem_of_fmap.
    exists (j, None). split; [done|]. by apply elem_of_map_to_list.
Qed.

(** The chains of all participants. *)
Definition chains (c : Control) : list (list RootFrame) :=
  omap (λ head, head) (map_to_list (participants c)).*2.

Lemma heads_spec l : Forall (λ v, v ≠ None) l → heads l = Ok (omap (λ head, head) l).
Proof.
  induction 1 as [|v l Hv _ IH]; [done|]. destruct v as [roots|]; [|done]. simpl. by rewrite IH.
Qed.

Lemma heads_ready c :
  waits_for_mutators c = false → heads (map_to_list (participants c)).*2 = Ok (chains c).
Proof.
  intros Hw. apply heads_spec, Forall_forall. intros v Hv ->.
  assert (waits_for_mutators c = true); [|congruence]. apply waits_spec.
  apply list_elem_of_fmap in Hv as ([j v] & E & Hin). simpl in E. subst. exists j.
  by apply elem_of_map_to_list.
Qed.

Lemma stored_slots c values j :
  is_Some (slots (store_slots values c) !! j) → is_Some (slots c !! j).
Proof.
  simpl. intros [v Hv%elem_of_list_to_map_2]. apply elem_of_zip_l in Hv.
  apply list_elem_of_fmap in Hv as ([k x] & -> & Hin%elem_of_map_to_list). simpl. by eexists.
Qed.

(** A round of the waiting collector; [h] and [t] are what its turn began with. *)
Lemma round_does h t p b :
  before h t → participant t = Some p →
  position t = Rendezvous ∧ b = false ∨ position t = Executing ∧ requested h = false ∧ b = true →
  ends (collect_round p) (mkTurn (mkSharedHeap (storage h) (mkControl (next (control h))
      (<[id p := Some (ROOTS t)]> (parts h)) (slots (control h))) true)
      (moved t p Collecting (position t) (asleep t)) b)
    (λ _ s, turned h t (heap s) (self s) (notified s)).
Proof.
  intros Hb Hp Hpos. pose proof (position_of _ _ _ Hb Hp) as Hst.
  unfold collect_round. apply ends_bind, ends_reads. simpl.
  destruct (waits_for_mutators _) eqn:Ew.
  - apply ends_edits. simpl.
    apply (turned_moved h t p Collecting Rendezvous true (storage h) true b (slots (control h)));
      try done.
    + destruct Hpos as [[Hpos ->]|(Hpos & Hr & ->)]; [|right; by left].
      left. by rewrite (b_rendezvous _ _ Hb Hpos).
    + intros _. by apply waits_spec in Ew.
    + destruct Hpos as [[Hpos ->]|(_ & _ & ->)]; [|by left]. right. split; [done|].
      right. rewrite Hpos in Hst. by rewrite Hst.
  - apply ends_bind, ends_lift. pose proof (heads_ready _ Ew) as Eh. simpl in Eh. rewrite Eh.
    apply ends_bind, ends_reads, ends_bind, ends_lift. simpl.
    match goal with |- context [run_collection ?r ?v ?m] => pose proof (run_ends r v m) as Hrun end.
    destruct (run_collection _ _ _) as [[values m]| |why|] eqn:Erun; try done.
    2:{ right. eauto. }
    apply ends_bind, ends_edits, ends_bind, ends_edits, ends_bind, ends_edits, ends_bind, ends_head;
      [simpl; rewrite lookup_insert_eq; by eexists|].
    apply ends_bind, ends_edits, ends_bind, ends_edits, ends_edits. simpl. rewrite insert_insert_eq.
    apply (turned_moved h t p Running Executing false m false true); try done.
    + intros j. apply (stored_slots (control h) values).
    + by right.
    + destruct Hpos as [[Hpos ->]|(Hpos & Hr & ->)]; [by right; right|].
      left. by rewrite Hpos, Hr.
    + by left.
Qed.

Lemma resume_continues h t p :
  before h t → participant t = Some p → position t = Resuming ∨ position t = Native →
  does (resume p) h t.
Proof.
  intros Hb Hp Hpos. pose proof (position_of _ _ _ Hb Hp) as Hst.
  assert (state p = Parked) as Hpk by by destruct Hpos as [E|E]; rewrite E in Hst.
  pose proof (resume_does h t p false Hb Hp ltac:(by destruct Hpos as [->| ->])) as Hr.
  simpl in Hr. rewrite insert_id in Hr.
  2:{ rewrite (b_heads _ _ Hb _ Hp). unfold published. by rewrite bool_decide_eq_false_2 by by rewrite Hpk. }
  unfold does. replace (mkTurn h t false) with (mkTurn (mkSharedHeap (storage h)
    (mkControl (next (control h)) (parts h) (slots (control h))) (requested h))
    (moved t p Parked (position t) (asleep t)) false).
  - eapply ends_mono; [exact Hr|]. simpl. auto.
  - destruct h as [? [] ?], t, p. simpl in *. by subst.
Qed.

Lemma round_continues h t p :
  before h t → participant t = Some p → position t = Rendezvous → does (collect_round p) h t.
Proof.
  intros Hb Hp Hpos. pose proof (position_of _ _ _ Hb Hp) as Hst. rewrite Hpos in Hst.
  pose proof (round_does h t p false Hb Hp ltac:(by left)) as Hr. simpl in Hr. rewrite insert_id in Hr.
  2:{ rewrite (b_heads _ _ Hb _ Hp). unfold published. by rewrite bool_decide_eq_false_2 by by rewrite Hst. }
  unfold does. replace (mkTurn h t false) with (mkTurn (mkSharedHeap (storage h)
    (mkControl (next (control h)) (parts h) (slots (control h))) true)
    (moved t p Collecting (position t) (asleep t)) false); [exact Hr|].
  pose proof (b_rendezvous _ _ Hb Hpos). destruct h as [? [] ?], t, p. simpl in *. by subst.
Qed.

Lemma collect_does h t : before h t → position t = Executing → does collect h t.
Proof.
  intros Hb Hpos. unfold collect. apply ends_bind, ends_reads. simpl.
  destruct (participant t) as [p|] eqn:Hp.
  - pose proof (position_of _ _ _ Hb Hp) as Hst. rewrite Hpos in Hst.
    apply ends_bind, lock_ends, ends_bind, park_ends; [done..|]. apply ends_bind, ends_reads. simpl.
    destruct (requested h) eqn:Er.
    + rewrite <- Er. eapply ends_mono; [by apply resume_does; rewrite ?Hpos|]. simpl.
      intros _ s Hs. apply Hs. by left.
    + apply ends_bind, ends_edits, ends_bind, ends_edits. simpl. apply (round_does h t p true); auto.
  - apply ends_bind, ends_reads, ends_bind, ends_lift. simpl.
    pose proof (run_ends [ROOTS t] [] (private t)) as Hrun.
    destruct (run_collection _ _ _) as [[values m]| |why|] eqn:Erun; try done; [|right; eauto].
    apply ends_edits. simpl.
    pose proof (turned_same h t (mkThread (ROOTS t) m (participant t) (HELD t)
      (GUARDS t) (position t) (asleep t)) (storage h) false Hb) as Hs.
    destruct h. apply Hs; try done. apply (b_place _ _ Hb).
Qed.

Lemma call_does c mark h t : before h t → position t = Executing → does (call c mark) h t.
Proof.
  intros Hb Hpos. destruct c; simpl.
  - by apply enter_does.
  - apply ends_bind, ends_reads. simpl. destruct (participant t) as [p|] eqn:Hp; [by apply exit_does|].
    apply ends_fatal, announce, (bool_decide_unpack _). by vm_compute.
  - by apply publish_does.
  - by apply drop_slot_does.
  - by apply collect_does.
  - by apply checkpoint_does.
  - by apply native_does.
  - by apply with_heap_does.
Qed.

Lemma continue_does mark h t : before h t → does (continue mark) h t.
Proof.
  intros Hb. unfold continue. apply ends_bind, ends_reads. simpl.
  pose proof (b_place _ _ Hb) as Hpl. unfold place_ok, state_of in Hpl.
  destruct (position t) eqn:Hpos.
  - by apply ends_ret, self_same.
  - apply attach_round_does; [done| |by rewrite Hpos]. by destruct (participant t).
  - destruct (participant t) as [p|] eqn:Hp; [|done]. by apply round_continues.
  - destruct (participant t) as [p|] eqn:Hp; [|done]. apply resume_continues; auto.
  - destruct (participant t) as [p|] eqn:Hp; [|done]. apply resume_continues; auto.
  - destruct (participant t) as [p|] eqn:Hp; [|done]. by apply checkpoint_locked_does.
Qed.

(** ** The machine *)

Lemma inv_before h ths i t : inv h ths → ths !! i = Some t → before h t.
Proof.
  intros Hi Ht. split.
  - by eapply i_place.
  - intros p Hp. by eapply i_heads.
  - apply (i_slots _ _ Hi).
  - intros Hp. apply (i_request _ _ Hi). eauto.
  - intros Ha. by eapply i_sleep.
Qed.

Lemma turn_result turn i h ths t :
  inv h ths → ths !! i = Some t → does turn h t →
  match take_turn turn i h ths with
  | Ok (h', ths') => inv h' ths'
  | Panic why => announced why
  | _ => False
  end.
Proof.
  intros Hi Ht Hd. unfold take_turn. rewrite Ht. simpl. unfold does, ends in Hd.
  destruct (turn _) as [[a s]| |why|]; try done. simpl. by eapply inv_turned.
Qed.

Definition unattached (t : Thread) : Prop :=
  participant t = None ∧ position t = Executing ∧ asleep t = false.

Definition machine_ok (m : Machine) : Prop :=
  match shared m with
  | Some (_, h) => inv h (threads m)
  | None => ∀ i t, threads m !! i = Some t → unattached t
  end.

(** A heap that nobody has attached to. *)
Lemma empty_inv m ths :
  (∀ i t, ths !! i = Some t → unattached t) →
  inv (mkSharedHeap m (mkControl 0 ∅ ∅) false) ths.
Proof.
  intros Hun. split; simpl.
  - intros i t (Hp & Hq & _)%Hun. unfold place_ok, state_of. rewrite Hp, Hq. by left.
  - intros i t p (Hp & _)%Hun. by rewrite Hp.
  - intros i i' t t' p p' (Hp & _)%Hun _. by rewrite Hp.
  - intros j [v Hv]. by rewrite lookup_empty in Hv.
  - intros j [v Hv]. by rewrite lookup_empty in Hv.
  - intros j [v Hv]. by rewrite lookup_empty in Hv.
  - split; [done|]. intros (i & t & (_ & Hq & _)%Hun & Hq'). by rewrite Hq in Hq'.
  - intros i i' t t' (_ & Hq & _)%Hun _ Hq'. by rewrite Hq in Hq'.
  - intros i t (_ & _ & Ha)%Hun. by rewrite Ha.
Qed.

Lemma open_ok i t mark h t' ths :
  (∀ i t, ths !! i = Some t → unattached t) → ths !! i = Some t →
  with_shared mark t = Ok (h, t') → inv h (<[i := t']> ths).
Proof.
  intros Hun Ht. unfold with_shared.
  set (h0 := mkSharedHeap (private t) (mkControl 0 ∅ ∅) false).
  set (t0 := mkThread (ROOTS t) default_store (participant t) (HELD t) (GUARDS t) (position t) (asleep t)).
  assert (Hun0 : ∀ j u, <[i:=t0]> ths !! j = Some u → unattached u).
  { intros j u [[<- <-]|[_ Hu]]%lookup_insert_Some; [exact (Hun i t Ht)|by eapply Hun]. }
  pose proof (empty_inv (private t) _ Hun0) as Hi.
  assert (Ht0 : <[i:=t0]> ths !! i = Some t0) by apply lookup_insert_eq.
  destruct (Hun i t Ht) as (Hp & Hq & Ha).
  pose proof (attach_does mark h0 t0 (inv_before _ _ _ _ Hi Ht0) ltac:(unfold t0; simpl; by rewrite Hq)) as Hd.
  unfold does, ends in Hd. destruct (attach mark _) as [[a s]| | |]; simpl; try done.
  intros [= <- <-]. pose proof (inv_turned Hi Ht0 Hd) as Hi'.
  destruct (notified s); rewrite ?fmap_insert, insert_insert_eq in Hi'; [|done].
  assert (wake <$> ths = ths) as E; [|by rewrite E in Hi'].
  apply map_eq. intros j. rewrite lookup_fmap. destruct (ths !! j) as [u|] eqn:Hu; [|done].
  destruct (Hun _ _ Hu) as (_ & _ & Hs). simpl. f_equal. destruct u. simpl in *. by subst.
Qed.

Lemma close_ok i h t t' ths :
  inv h ths → ths !! i = Some t → (∀ j u, ths !! j = Some u → position u ≠ Attaching) →
  position t = Executing → participant t = None → end_shared h t = Ok t' →
  ∀ j u, <[i := t']> ths !! j = Some u → unattached u.
Proof.
  intros Hi Ht Hno Hq Hp. unfold end_shared. case_bool_decide as E1; [|done].
  case_bool_decide as E2; [|done]. simpl. intros [= <-].
  assert (Hall : ∀ j u, ths !! j = Some u → unattached u).
  { intros j u Hu. assert (participant u = None) as Hn.
    { destruct (participant u) as [p|] eqn:Hpu; [|done].
      pose proof (i_heads _ _ Hi _ _ _ Hu Hpu) as Hh. rewrite E1, lookup_empty in Hh. done. }
    pose proof (i_place _ _ Hi _ _ Hu) as Hpl. unfold place_ok, state_of in Hpl. rewrite Hn in Hpl.
    pose proof (Hno _ _ Hu). assert (position u = Executing) as Hx by by destruct (position u).
    split; [done|]. split; [done|]. destruct (asleep u) eqn:Ha; [|done].
    pose proof (i_sleep _ _ Hi _ _ Hu Ha) as Hs. unfold sleep_ok in Hs. by rewrite Hx in Hs. }
  intros j u [[<- <-]|[_ Hu]]%lookup_insert_Some; [|by eapply Hall]. exact (Hall _ _ Ht).
Qed.

(** What a thread does to itself is a turn in which nothing happens. *)
Lemma own_ok h ths i t t' :
  inv h ths → ths !! i = Some t →
  participant t' = participant t → position t' = position t →
  (asleep t' = true → asleep t = true) →
  (∀ p, participant t = Some p → published t' p = published t p) →
  inv h (<[i := t']> ths).
Proof.
  intros Hi Ht Ep Eq Ea Hpub. pose proof (inv_before _ _ _ _ Hi Ht) as Hb.
  apply (inv_turned (b := false) Hi Ht).
  pose proof (turned_same h t t' (storage h) false Hb) as Hs. destruct h. apply Hs; try done.
  pose proof (b_place _ _ Hb) as Hpl. unfold place_ok, state_of in *. by rewrite Ep, Eq.
Qed.

Lemma step_ok m m' : machine_ok m → step m m' → machine_ok m'.
Proof.
  intros Hm. destruct 1 as [i t mark h t' ths Ht Hq Hp Hw|i t h t' ths Ht Hq Hp Hno He
    |i t c mark o h h' ths ths' Ht Hq Hturn|i t s o h h' ths ths' Ht Hq Hturn
    |i t mark o h h' ths ths' Ht Ha Hturn|i t t' s ths Ht Hq (Em & Ep & Eq & Ea)|i t s ths Ht];
    unfold machine_ok in *; simpl in *.
  - by eapply open_ok.
  - by eapply close_ok.
  - pose proof (turn_result _ _ _ _ _ Hm Ht (call_does c mark h t (inv_before _ _ _ _ Hm Ht) Hq)) as Hr.
    by rewrite Hturn in Hr.
  - pose proof (turn_result _ _ _ _ _ Hm Ht (drop_slot_does s h t (inv_before _ _ _ _ Hm Ht))) as Hr.
    by rewrite Hturn in Hr.
  - pose proof (turn_result _ _ _ _ _ Hm Ht (continue_does mark h t (inv_before _ _ _ _ Hm Ht))) as Hr.
    by rewrite Hturn in Hr.
  - destruct s as [[o h]|].
    + eapply own_ok; [done|done|done|done|by rewrite Ea|]. intros p Hp. unfold published.
      pose proof (position_of _ _ _ (inv_before _ _ _ _ Hm Ht) Hp) as Hst. rewrite Hq in Hst.
      by rewrite bool_decide_eq_true_2.
    + intros j u [[<- <-]|[_ Hu]]%lookup_insert_Some; [|by eapply Hm]. unfold unattached.
      rewrite Ep, Eq, Ea. by eapply Hm.
  - destruct s as [[o h]|].
    + by eapply own_ok.
    + intros j u [[<- <-]|[_ Hu]]%lookup_insert_Some; [|by eapply Hm].
      destruct (Hm _ _ Ht) as (? & ? & ?). done.
Qed.

Lemma run_ok m m' : machine_ok m → rtc step m m' → machine_ok m'.
Proof. intros Hm. induction 1; eauto using step_ok. Qed.
End runs.

(** What a collection of the shared heap sees, and why nobody sleeps in vain. *)

Section world.
Context `{StorageSpec}.

Abbreviation parts h := (participants (control h)).

(** Nobody else runs code that may look at the heap. *)
Definition others_parked (ths : gmap N Thread) (i : N) : Prop :=
  ∀ j u, j ≠ i → ths !! j = Some u → state_of u ≠ Some Running.

(** The collector has run, on the chains of all attached threads and on the slots. *)
Record ran (h : SharedHeap) (ths : gmap N Thread) (i : N) (h' : SharedHeap) (ths' : gmap N Thread)
    : Prop := {
  ran_on : ∃ roots values,
    run_collection roots (slot_values (control h)) (storage h) = Ok (values, storage h') ∧
    slots (control h') = slots (store_slots values (control h)) ∧
    length roots = size (parts h) ∧
    ∀ r, r ∈ roots ↔ ∃ j u, ths !! j = Some u ∧ is_Some (participant u) ∧ ROOTS u = r;
  ran_over : requested h' = false;
  ran_awake j u : ths' !! j = Some u → asleep u = false;
  ran_runs : ∃ u, ths' !! i = Some u ∧ position u = Executing ∧ state_of u = Some Running;
}.

(** The collector waits. *)
Definition waited (h : SharedHeap) (ths : gmap N Thread) (i : N) (h' : SharedHeap)
    (ths' : gmap N Thread) : Prop :=
  storage h' = storage h ∧ slots (control h') = slots (control h) ∧ requested h' = true ∧
  ∃ u, ths' !! i = Some u ∧ asleep u = true ∧
    (position u = Rendezvous ∨ position u = Resuming).

Section round.
Context {h : SharedHeap} {ths : gmap N Thread} {i : N} {t : Thread} {p : Participant}.
Context (Hi : inv h ths) (Ht : ths !! i = Some t) (Hp : participant t = Some p).

(** The control block when the thread has published its chain. *)
Abbreviation c := (mkControl (next (control h)) (<[id p := Some (ROOTS t)]> (parts h))
  (slots (control h))).

Lemma parked_head j v :
  participants c !! j = Some v ↔
  ∃ k u q, ths !! k = Some u ∧ participant u = Some q ∧ id q = j ∧
    v = if decide (k = i) then Some (ROOTS u) else published u q.
Proof.
  simpl. rewrite lookup_insert_Some. split.
  - intros [[<- <-]|[Hne Hj]].
    + exists i, t, p. by rewrite decide_True.
    + destruct (i_known _ _ Hi j) as (k & u & q & Hu & Hq & E); [by eexists|]. exists k, u, q.
      rewrite decide_False.
      2:{ intros ->. rewrite Ht in Hu. injection Hu as <-. rewrite Hp in Hq. by injection Hq as <-. }
      split_and!; try done. subst. rewrite (i_heads _ _ Hi _ _ _ Hu Hq) in Hj. by injection Hj.
  - intros (k & u & q & Hu & Hq & <- & ->). case_decide as E.
    + subst. rewrite Ht in Hu. injection Hu as <-. rewrite Hp in Hq. injection Hq as <-. by left.
    + right. split; [|by eapply i_heads]. intros E'. apply E. symmetry.
      by apply (i_distinct _ _ Hi i k t u p q).
Qed.

Lemma waits_others : waits_for_mutators c = false ↔ others_parked ths i.
Proof.
  rewrite <- not_true_iff_false, waits_spec. setoid_rewrite parked_head. split.
  - intros Hno j u Hj Hu Hs. apply Hno. unfold state_of in Hs.
    destruct (participant u) as [q|] eqn:Hq; [|done]. injection Hs as Hs. exists (id q), j, u, q.
    rewrite decide_False by done. unfold published. by rewrite bool_decide_eq_true_2.
  - intros Hall (j & k & u & q & Hu & Hq & _ & E). case_decide as Ek; [done|].
    apply (Hall k u Ek Hu). unfold state_of. rewrite Hq. simpl. f_equal. unfold published in E.
    by case_bool_decide.
Qed.

Lemma chains_all r :
  others_parked ths i →
  r ∈ chains c ↔ ∃ j u, ths !! j = Some u ∧ is_Some (participant u) ∧ ROOTS u = r.
Proof.
  intros Hall. unfold chains. rewrite list_elem_of_omap. split.
  - intros (v & Hv & Hr). subst. apply list_elem_of_fmap in Hv as ([j v] & E & Hin). simpl in E. subst.
    apply elem_of_map_to_list, parked_head in Hin as (k & u & q & Hu & Hq & _ & E). exists k, u.
    split; [done|]. split; [by eexists|]. unfold published in E. case_decide; [by injection E|].
    by case_bool_decide; [|injection E].
  - intros (k & u & Hu & [q Hq] & <-). exists (Some (ROOTS u)). split; [|done].
    apply list_elem_of_fmap. exists (id q, Some (ROOTS u)). split; [done|].
    apply elem_of_map_to_list, parked_head. exists k, u, q. split_and!; try done.
    case_decide as Ek; [done|]. unfold published. rewrite bool_decide_eq_false_2; [done|].
    intros E. apply (Hall k u Ek Hu). unfold state_of. by rewrite Hq, <- E.
Qed.

Lemma chains_length : waits_for_mutators c = false → length (chains c) = size (parts h).
Proof.
  intros Hw. assert (E : size (participants c) = size (parts h)).
  { simpl. apply map_size_insert_Some. rewrite (i_heads _ _ Hi _ _ _ Ht Hp). by eexists. }
  rewrite <- E, <- length_map_to_list. unfold chains.
  assert (Hall : Forall (λ v, v ≠ None) (map_to_list (participants c)).*2).
  { apply Forall_forall. intros v Hv Ev. subst. assert (waits_for_mutators c = true); [|congruence].
    apply waits_spec. apply list_elem_of_fmap in Hv as ([j v] & Ev & Hin). simpl in Ev. subst.
    exists j. by apply elem_of_map_to_list. }
  rewrite <- (length_fmap snd). induction Hall as [|v l Hv _ IH]; [done|].
  destruct v; [|done]. simpl. by f_equal.
Qed.

(** What a turn of [i] may come to when it reaches the rendezvous. *)
Definition met (s : Turn) : Prop :=
  let ths' := <[i := self s]> (if notified s then wake <$> ths else ths) in
  (others_parked ths i ∧ ran h ths i (heap s) ths') ∨
  (¬ others_parked ths i ∧ waited h ths i (heap s) ths').

Lemma round_effect b :
  ends (collect_round p) (mkTurn (mkSharedHeap (storage h) c true)
    (moved t p Collecting (position t) (asleep t)) b) (λ _ s, met s).
Proof.
  unfold collect_round. apply ends_bind, ends_reads. simpl.
  destruct (waits_for_mutators _) eqn:Ew.
  - apply ends_edits. right. split; [intros Hall%waits_others; congruence|].
    split; [done|]. split; [done|]. split; [done|]. simpl. eexists. rewrite lookup_insert_eq.
    split; [done|]. simpl. auto.
  - pose proof (proj1 waits_others Ew) as Hall. pose proof (heads_ready _ Ew) as Eh. simpl in Eh.
    apply ends_bind, ends_lift. rewrite Eh. apply ends_bind, ends_reads, ends_bind, ends_lift. simpl.
    match goal with |- context [run_collection ?r ?v ?m] => pose proof (run_ends r v m) as Hrun end.
    destruct (run_collection _ _ _) as [[values m]| |why|] eqn:Erun; try done; [|right; eauto].
    apply ends_bind, ends_edits, ends_bind, ends_edits, ends_bind, ends_edits, ends_bind, ends_head;
      [simpl; rewrite lookup_insert_eq; by eexists|].
    apply ends_bind, ends_edits, ends_bind, ends_edits, ends_edits. left. split; [done|].
    split; simpl.
    + exists (chains c), values. split; [exact Erun|]. split; [done|]. split; [by apply chains_length|].
      intros r. by apply chains_all.
    + done.
    + intros j u [[<- <-]|[_ (v & <- & _)%lookup_fmap_Some]]%lookup_insert_Some; done.
    + eexists. rewrite lookup_insert_eq. split; [done|]. unfold state_of. simpl. done.
Qed.

(** A collection that is asked for while another one is, is left to it. *)
Lemma collect_effect :
  position t = Executing →
  ends collect (mkTurn h t false) (λ _ s,
    if requested h
    then waited h ths i (heap s) (<[i := self s]> (if notified s then wake <$> ths else ths))
    else met s).
Proof.
  intros Hpos. pose proof (inv_before _ _ _ _ Hi Ht) as Hb.
  pose proof (position_of _ _ _ Hb Hp) as Hst. rewrite Hpos in Hst.
  unfold collect. apply ends_bind, ends_reads. simpl. rewrite Hp.
  apply ends_bind, lock_ends, ends_bind, park_ends; [done..|]. apply ends_bind, ends_reads. simpl.
  destruct (requested h) eqn:Er.
  - unfold resume. apply ends_bind, ends_reads. apply ends_edits. split; [done|]. split; [done|].
    split; [done|]. eexists. rewrite lookup_insert_eq. split; [done|]. simpl. auto.
  - apply ends_bind, ends_edits, ends_bind, ends_edits. simpl. apply round_effect.
Qed.

Lemma rendezvous_effect mark :
  position t = Rendezvous → ends (continue mark) (mkTurn h t false) (λ _ s, met s).
Proof.
  intros Hpos. pose proof (inv_before _ _ _ _ Hi Ht) as Hb.
  pose proof (position_of _ _ _ Hb Hp) as Hst. rewrite Hpos in Hst.
  unfold continue. apply ends_bind, ends_reads. simpl. rewrite Hpos, Hp.
  pose proof (round_effect false) as Hr. rewrite insert_id in Hr.
  2:{ rewrite (b_heads _ _ Hb _ Hp). unfold published. by rewrite bool_decide_eq_false_2 by by rewrite Hst. }
  replace (mkTurn h t false) with (mkTurn (mkSharedHeap (storage h)
    (mkControl (next (control h)) (parts h) (slots (control h))) true)
    (moved t p Collecting (position t) (asleep t)) false); [exact Hr|].
  pose proof (b_rendezvous _ _ Hb Hpos) as Hreq. clear -Hp Hst Hreq.
  destruct h as [? [] ?], t, p. simpl in *. by subst.
Qed.
End round.

(** ** Sleep *)

(** Threads that can take a turn that brings the rendezvous nearer. *)
Definition can_help (t : Thread) : Prop :=
  asleep t = false ∧
  (state_of t = Some Running ∧ (position t = Executing ∨ position t = Testing) ∨
   position t = Rendezvous).

(** Nobody else can get at the heap then. *)
Lemma parked_refused h ths i t j u f :
  inv h ths → ths !! i = Some t → position t = Rendezvous ∨ requested h = false →
  others_parked ths i → j ≠ i → ths !! j = Some u → is_Some (participant u) →
  with_heap f (mkTurn h u false) = Panic "managed heap access while mutator is parked".
Proof.
  intros Hi Ht Hc Hall Hj Hu [q Hq]. pose proof (Hall j u Hj Hu) as Hno.
  pose proof (position_of _ _ _ (inv_before _ _ _ _ Hi Hu) Hq) as Hst.
  unfold state_of in Hno. rewrite Hq in Hno. simpl in Hno.
  assert (Hpk : state q = Parked).
  { destruct (position u) eqn:Hpos; rewrite ?Hst in *; try done. exfalso. destruct Hc as [Hc|Hc].
    - apply Hj. by apply (i_one _ _ Hi j i u t).
    - assert (requested h = true); [|congruence]. apply (i_request _ _ Hi). eauto. }
  unfold with_heap, mbind, St_bind, current, reads. simpl. rewrite Hq.
  by rewrite bool_decide_eq_true_2.
Qed.

Lemma sleeper_helped h ths i t :
  inv h ths → ths !! i = Some t → asleep t = true →
  requested h = true ∧ ∃ j u, ths !! j = Some u ∧ can_help u.
Proof.
  intros Hi Ht Ha. pose proof (i_sleep _ _ Hi _ _ Ht Ha) as Hs.
  assert (Hr : requested h = true).
  { unfold sleep_ok in Hs. destruct (position t) eqn:Hq; try done. apply (i_request _ _ Hi). eauto. }
  split; [done|]. apply (i_request _ _ Hi) in Hr as (k & u & Hu & Hq).
  destruct (asleep u) eqn:Hau; [|exists k, u; split; [done|]; split; [done|by right]].
  pose proof (i_sleep _ _ Hi _ _ Hu Hau) as Hsu. unfold sleep_ok in Hsu. rewrite Hq in Hsu.
  destruct Hsu as [j Hj]. destruct (i_known _ _ Hi j) as (l & v & q & Hv & Hq' & <-); [by eexists|].
  rewrite (i_heads _ _ Hi _ _ _ Hv Hq') in Hj. unfold published in Hj.
  case_bool_decide as Est; [|done]. exists l, v. split; [done|].
  pose proof (position_of _ _ _ (inv_before _ _ _ _ Hi Hv) Hq') as Hpl. rewrite Est in Hpl.
  assert (Hpos : position v = Executing ∨ position v = Testing) by (destruct (position v); auto; done).
  split; [|left; split; [unfold state_of; by rewrite Hq', <- Est|done]].
  destruct (asleep v) eqn:Hav; [|done]. pose proof (i_sleep _ _ Hi _ _ Hv Hav) as Hsv.
  unfold sleep_ok in Hsv. by destruct Hpos as [E|E]; rewrite E in Hsv.
Qed.
End world.
