(* ===== verification/SharedGuarantees.v ===== *)
(** What the shared heap guarantees, over every interleaving of threads:
    [compiler/runtime/src/shared_heap.rs]. Each theorem is followed by an instance: an owner
    that collects while a worker is attached. *)

From S2P Require Import Prelude Effects SharedHeap SharedInv SharedRuns.
From S2P Require Heap.

Section guarantees.
Context `{StorageSpec}.

(** Threads of which none is attached to a shared heap. *)
Definition start (m : Machine) : Prop :=
  shared m = None ∧ ∀ i t, threads m !! i = Some t → unattached t.

Definition answered {A} (r : outcome A) : Prop :=
  match r with Ok _ => True | Panic why => announced why | _ => False end.

Lemma start_run m m' : start m → rtc step m m' → machine_ok m'.
Proof. intros [Hs Hun]. apply run_ok. unfold machine_ok. by rewrite Hs. Qed.

(** C5: In every interleaving of attaching, leaving, collecting, parking and publishing, the
    shared heap's registrations are exact, and every turn ends: it answers, or aborts for one
    of the announced reasons; no lookup of a registration ever fails. *)
Theorem registrations_are_exact m o h ths :
  start m → rtc step m (mkMachine (Some (o, h)) ths) →
  (∀ j v, participants (control h) !! j = Some v ↔
    ∃ i t p, ths !! i = Some t ∧ participant t = Some p ∧ id p = j ∧ v = published t p) ∧
  ∀ i t, ths !! i = Some t →
    (∀ c mark, position t = Executing → answered (take_turn (call c mark) i h ths)) ∧
    (∀ mark, answered (take_turn (continue mark) i h ths)).
Proof.
  intros Hs Hrun. pose proof (start_run _ _ Hs Hrun) as Hi. unfold machine_ok in Hi. simpl in Hi.
  split.
  - intros j v. split.
    + intros Hj. destruct (i_known _ _ Hi j) as (i & t & p & Ht & Hp & E); [by eexists|].
      exists i, t, p. subst. rewrite (i_heads _ _ Hi _ _ _ Ht Hp) in Hj. by injection Hj.
    + intros (i & t & p & Ht & Hp & <- & ->). by eapply i_heads.
  - intros i t Ht. pose proof (inv_before _ _ _ _ Hi Ht) as Hb. split.
    + intros c mark Hq. pose proof (turn_result _ _ _ _ _ Hi Ht (call_does c mark h t Hb Hq)) as Hr.
      unfold answered. by destruct (take_turn _ _ _ _) as [[]| | |].
    + intros mark. pose proof (turn_result _ _ _ _ _ Hi Ht (continue_does mark h t Hb)) as Hr.
      unfold answered. by destruct (take_turn _ _ _ _) as [[]| | |].
Qed.

(** C6: A collection stops the world: it runs exactly when every other attached thread is
    parked, none of which can get at the heap then; it is given the current root chain of
    every attached thread and every slot, and afterwards everybody is awake and the collector
    goes on. Otherwise the collector waits, and a thread that asks while another one collects
    parks; the heap is not touched. *)
Theorem collection_stops_the_world m o h ths i t p h' ths' :
  start m → rtc step m (mkMachine (Some (o, h)) ths) →
  ths !! i = Some t → participant t = Some p →
  (position t = Rendezvous → ∀ mark, take_turn (continue mark) i h ths = Ok (h', ths') →
    others_parked ths i ∧ ran h ths i h' ths' ∨ ¬ others_parked ths i ∧ waited h ths i h' ths') ∧
  (position t = Executing → take_turn collect i h ths = Ok (h', ths') →
    if requested h then waited h ths i h' ths'
    else others_parked ths i ∧ ran h ths i h' ths' ∨ ¬ others_parked ths i ∧ waited h ths i h' ths') ∧
  (position t = Rendezvous ∨ requested h = false → others_parked ths i →
    ∀ j u f, j ≠ i → ths !! j = Some u → is_Some (participant u) →
    with_heap f (mkTurn h u false) = Panic "managed heap access while mutator is parked").
Proof.
  intros Hs Hrun Ht Hp. pose proof (start_run _ _ Hs Hrun) as Hi. unfold machine_ok in Hi. simpl in Hi.
  split_and!.
  - intros Hq mark Hturn. pose proof (rendezvous_effect Hi Ht Hp mark Hq) as He.
    unfold take_turn in Hturn. rewrite Ht in Hturn. simpl in Hturn. unfold ends in He.
    destruct (continue mark _) as [[a s]| | |]; try done. by injection Hturn as <- <-.
  - intros Hq Hturn. pose proof (collect_effect Hi Ht Hp Hq) as He.
    unfold take_turn in Hturn. rewrite Ht in Hturn. simpl in Hturn. unfold ends in He.
    destruct (collect _) as [[a s]| | |]; try done. by injection Hturn as <- <-.
  - intros Hc Hall j u f. by apply (parked_refused h ths i t).
Qed.

(** C7: No wake-up is lost: a thread sleeps only while a collection is requested, and then some
    thread is awake that brings it nearer, the collector itself or one that it waits for. *)
Theorem nobody_sleeps_in_vain m o h ths i t :
  start m → rtc step m (mkMachine (Some (o, h)) ths) → ths !! i = Some t → asleep t = true →
  requested h = true ∧ ∃ j u, ths !! j = Some u ∧ can_help u.
Proof.
  intros Hs Hrun. pose proof (start_run _ _ Hs Hrun) as Hi. unfold machine_ok in Hi. simpl in Hi.
  by apply sleeper_helped.
Qed.
End guarantees.

(** ** An owner and a worker *)

(** A heap that counts its collections; a collection moves every slot by 100. *)
#[export] Instance counting : Storage := {|
  Store := N;
  default_store := 0;
  objects_empty n := n =? 0;
  run_collection _ values n := Ok (map (N.add 100) values, n + 1);
|}.

#[export] Instance counting_spec : StorageSpec.
Proof. intros roots values m. simpl. apply length_map. Defined.

Definition fresh (roots : list RootFrame) (m : N) : Thread :=
  mkThread roots (m : Store) None [] [] Executing false.

Definition a_frame : RootFrame := Heap.mkRootFrame 4096 4096 2.

Definition two_threads : Machine :=
  mkMachine None (<[0 := fresh [a_frame] 7]> (<[1 := fresh [] 0]> ∅)).

Lemma two_threads_start : start two_threads.
Proof.
  split; [done|]. unfold two_threads. simpl. intros i t.
  rewrite !lookup_insert_Some, lookup_empty. intros [[_ <-]|[_ [[_ <-]|[_ ?]]]]; done.
Qed.

(** A turn of the machine, when it has one. *)
Definition turn_of (turn : St Turn ()) (i : N) (m : Machine) : option Machine :=
  '(o, h) ← shared m;
  match take_turn turn i h (threads m) with
  | Ok (h, ths) => Some (mkMachine (Some (o, h)) ths)
  | _ => None
  end.

Definition opened : Machine :=
  match threads two_threads !! 0 with
  | Some t => match with_shared 1 t with
              | Ok (h, t) => mkMachine (Some (0, h)) (<[0 := t]> (threads two_threads))
              | _ => two_threads
              end
  | None => two_threads
  end.

(** Turns one after the other: a call, or the continuation of one. *)
Definition play_turn (m : Machine) (turn : N * option Call) : option Machine :=
  '(o, h) ← shared m;
  t ← threads m !! turn.1;
  match turn.2 with
  | Some c => if bool_decide (position t = Executing) then turn_of (call c 1) turn.1 m else None
  | None => if asleep t then None else turn_of (continue 1) turn.1 m
  end.

Fixpoint play (turns : list (N * option Call)) (m : Machine) : option Machine :=
  match turns with
  | [] => Some m
  | turn :: turns => m ← play_turn m turn; play turns m
  end.

Lemma play_run turns m m' : play turns m = Some m' → rtc step m m'.
Proof.
  revert m. induction turns as [|[i c] turns IH]; intros m; simpl; [intros [= <-]; apply rtc_refl|].
  destruct (play_turn m (i, c)) as [m1|] eqn:E; [|done]. simpl. intros Hp.
  apply (rtc_l _ _ m1); [|by apply IH]. unfold play_turn, turn_of in E.
  destruct m as [[[o h]|] ths]; [|done]. simpl in E. destruct (ths !! i) as [t|] eqn:Ht; [|done].
  simpl in E. destruct c as [c|].
  - case_bool_decide as Hq; [|done]. destruct (take_turn _ _ _ _) as [[h' ths']| | |] eqn:Et; try done.
    injection E as <-. by eapply step_call.
  - destruct (asleep t) eqn:Ha; [done|].
    destruct (take_turn _ _ _ _) as [[h' ths']| | |] eqn:Et; try done.
    injection E as <-. by eapply step_continue.
Qed.

(** The worker enters, the owner publishes a slot and asks for a collection. *)
Definition asking : list (N * option Call) :=
  [(1, Some Enter); (0, Some (Publish 5)); (0, Some Collect)].

(** The worker comes to its checkpoint and parks. *)
Definition parking : list (N * option Call) := asking ++ [(1, Some Checkpoint); (1, None)].

Definition asked : Machine := default opened (play asking opened).
Definition parked : Machine := default opened (play parking opened).

Lemma opened_step : step two_threads opened.
Proof. by apply (step_open 0 (fresh [a_frame] 7) 1). Qed.

Lemma asked_run : rtc step two_threads asked.
Proof. apply (rtc_l _ _ opened); [exact opened_step|]. apply (play_run asking). by vm_compute. Qed.

Lemma parked_run : rtc step two_threads parked.
Proof. apply (rtc_l _ _ opened); [exact opened_step|]. apply (play_run parking). by vm_compute. Qed.

(** ** Instances *)

(** The threads of a machine, where they are and whether they sleep. *)
Definition places (m : Machine) : list (N * Position * bool) :=
  map (λ p, (p.1, position p.2, asleep p.2)) (map_to_list (threads m)).

Lemma registrations_are_exact_witness :
  ∃ h, shared asked = Some (0, h) ∧ places asked = [(1, Executing, false); (0, Rendezvous, true)] ∧
  ∀ j v, participants (control h) !! j = Some v ↔
    ∃ i t p, threads asked !! i = Some t ∧ participant t = Some p ∧ id p = j ∧ v = published t p.
Proof.
  eexists. split; [by vm_compute|]. split; [by vm_compute|].
  refine (proj1 (registrations_are_exact two_threads 0 _ _ two_threads_start _)).
  exact asked_run.
Defined.

Lemma collection_stops_the_world_witness :
  ∃ h t p, shared parked = Some (0, h) ∧ threads parked !! 0 = Some t ∧ participant t = Some p ∧
  storage <$> (fst <$> take_turn (continue 1) 0 h (threads parked)) = Ok 8 ∧
  (slots ∘ control) <$> (fst <$> take_turn (continue 1) 0 h (threads parked)) = Ok {[ 2 := 105 ]} ∧
  (∀ mark h' ths', take_turn (continue mark) 0 h (threads parked) = Ok (h', ths') →
    others_parked (threads parked) 0 ∧ ran h (threads parked) 0 h' ths' ∨
    ¬ others_parked (threads parked) 0 ∧ waited h (threads parked) 0 h' ths').
Proof.
  do 3 eexists. split; [by vm_compute|]. split; [by vm_compute|]. split; [by vm_compute|].
  split; [by vm_compute|]. split; [by vm_compute|]. intros mark h' ths'.
  refine (proj1 (collection_stops_the_world two_threads 0 _ _ 0 _ _ h' ths' two_threads_start _ _ _) _ mark).
  - exact parked_run.
  - by vm_compute.
  - by vm_compute.
  - by vm_compute.
Defined.

Lemma nobody_sleeps_in_vain_witness :
  ∃ h t, shared asked = Some (0, h) ∧ threads asked !! 0 = Some t ∧ asleep t = true ∧
  requested h = true ∧ ∃ j u, threads asked !! j = Some u ∧ can_help u.
Proof.
  do 2 eexists. split; [by vm_compute|]. split; [by vm_compute|]. split; [by vm_compute|].
  refine (nobody_sleeps_in_vain two_threads 0 _ _ 0 _ two_threads_start _ _ _).
  - exact asked_run.
  - by vm_compute.
  - by vm_compute.
Defined.
