(* ===== verification/SharedAccess.v ===== *)
(** The access guards of [compiler/runtime/src/shared_access.rs], the mutexes of [mutex.rs] and
    their cancellation by [worker_control.rs]: locks whose identity is native, and which
    relocation carries along with the objects. Parking for a collection during a wait is the
    matter of [SharedHeap]; here a waiting thread is one that sleeps on the condition variable
    of a lock. *)

From stdpp Require Import sorting.
From S2P Require Import Prelude Effects.

(** An [Arc<Access>] is its address. *)
Abbreviation Access := N (only parsing).
Abbreviation Locks := (gmap N N) (only parsing).

Record Control := mkControl { requested : bool; waiting : option Access }.

(** What follows the acquisition of a lock: the other guards of the call, or the push of a
    mutex guard. *)
Inductive After :=
  | Then_take (rest : list Access)
  | Then_guard (token : Z).

(** Where a thread is between two turns: in other code; between two acquisitions; in the loop
    of [acquire]; in [acquire_cancellable] before [wait_on(Some)], in its loop, and before
    [wait_on(None)]; between the two statements of [release]; between those of [cancel], and
    before its wake-up. *)
Inductive Position :=
  | Executing
  | Taking (rest : list Access)
  | Blocked (a : Access) (after : After)
  | Registering (a : Access) (token : Z) (c : N)
  | Waiting (a : Access) (token : Z) (c : N)
  | Unregistering (a : Access) (token : Z) (c : N) (acquired : bool)
  | Releasing (a : Access)
  | Cancelling (c : N)
  | Waking (a : Access).

(** [current] is the control of the worker that the thread runs, unless it is masked. *)
Record Thread := mkThread {
  HELD : list Access;
  GUARDS : list (Z * Access);
  current : option N;
  attached : bool;
  position : Position;
  asleep : bool;
}.

(** [held] are the locks whose flag is set, [accesses] all that were ever made. *)
Record Shared := mkShared {
  held : gset Access;
  accesses : gset Access;
  objects : gset N;
  access : Locks;
  mutexes : Locks;
  NEXT : Z;
  controls : gmap N Control;
}.

Inductive Notice := Nobody | One (a : Access) | All (a : Access).

Record Turn := mkTurn { shared : Shared; self : Thread; notice : Notice }.

(** ** Access to the state *)

Definition fatal {A} (message : string) : St Turn A := λ _, Panic message.
Definition fault {A} (message : string) : St Turn A := λ _, Err message.

Definition on_shared (f : Shared → Shared) : St Turn () :=
  edits (λ s, mkTurn (f (shared s)) (self s) (notice s)).
Definition on_self (f : Thread → Thread) : St Turn () :=
  edits (λ s, mkTurn (shared s) (f (self s)) (notice s)).

Definition goto (p : Position) : St Turn () :=
  on_self (λ t, mkThread (HELD t) (GUARDS t) (current t) (attached t) p false).
Definition sleep : St Turn () :=
  on_self (λ t, mkThread (HELD t) (GUARDS t) (current t) (attached t) (position t) true).
Definition set_HELD (l : list Access) : St Turn () :=
  on_self (λ t, mkThread l (GUARDS t) (current t) (attached t) (position t) (asleep t)).
Definition set_GUARDS (l : list (Z * Access)) : St Turn () :=
  on_self (λ t, mkThread (HELD t) l (current t) (attached t) (position t) (asleep t)).
Definition notify (n : Notice) : St Turn () := edits (λ s, mkTurn (shared s) (self s) n).

Definition set_held (f : gset Access → gset Access) : St Turn () :=
  on_shared (λ s, mkShared (f (held s)) (accesses s) (objects s) (access s) (mutexes s) (NEXT s)
    (controls s)).

Definition get_control (c : N) : St Turn Control :=
  s ← reads shared;
  match controls s !! c with Some control => mret control | None => fatal "no control" end.
Definition set_control (c : N) (control : Control) : St Turn () :=
  on_shared (λ s, mkShared (held s) (accesses s) (objects s) (access s) (mutexes s) (NEXT s)
    (<[c := control]> (controls s))).

(** [locks.entry(target).or_default()] *)
Definition entry (locks : Shared → Locks) (set : Locks → Shared → Shared) (target : N)
    : St Turn Access :=
  s ← reads shared;
  match locks s !! target with
  | Some a => mret a
  | None =>
      let a := fresh (accesses s) in
      on_shared (λ s, set (<[target := a]> (locks s))
        (mkShared (held s) ({[a]} ∪ accesses s) (objects s) (access s) (mutexes s) (NEXT s)
           (controls s))) ;;
      mret a
  end.

Definition set_access (l : Locks) (s : Shared) : Shared :=
  mkShared (held s) (accesses s) (objects s) l (mutexes s) (NEXT s) (controls s).
Definition set_mutexes (l : Locks) (s : Shared) : Shared :=
  mkShared (held s) (accesses s) (objects s) (access s) l (NEXT s) (controls s).

(** ** Locks *)

Definition is_held (a : Access) : St Turn bool := reads (λ s, bool_decide (a ∈ held (shared s))).

Definition push_held (a : Access) : St Turn () := l ← reads (λ s, HELD (self s)); set_HELD (l ++ [a]).
Definition push_guard (token : Z) (a : Access) : St Turn () :=
  l ← reads (λ s, GUARDS (self s)); set_GUARDS (l ++ [(token, a)]).

Definition acquired (a : Access) (after : After) : St Turn () :=
  match after with
  | Then_take rest => push_held a ;; goto (Taking rest)
  | Then_guard token => push_guard token a ;; goto Executing
  end.

(** [try_acquire] tests the flag without waiting for the mutex that guards it: when another
    thread is at that mutex just then, it gives up on a lock that may be free. Whether it is
    [contended] is an input of the turn. *)
Definition try_acquire (contended : bool) (a : Access) : St Turn bool :=
  h ← is_held a;
  if contended || h then mret false else set_held (λ l, {[a]} ∪ l) ;; mret true.

(** [acquire], up to the loop of its wait. *)
Definition acquire (contended : bool) (a : Access) (after : After) : St Turn () :=
  got ← try_acquire contended a;
  if (got : bool) then acquired a after else goto (Blocked a after).

(** One round of that loop. *)
Definition blocked_round (a : Access) (after : After) : St Turn () :=
  h ← is_held a;
  if (h : bool) then sleep
  else set_held (λ l, {[a]} ∪ l) ;; acquired a after.

(** [release], up to its notification. *)
Definition release (a : Access) : St Turn () :=
  set_held (λ l, l ∖ {[a]}) ;; goto (Releasing a).

(** ** Access guards *)

(** One guard of a call, reentrant. *)
Definition take (contended : bool) (rest : list Access) : St Turn () :=
  match rest with
  | [] => goto Executing
  | a :: rest =>
      l ← reads (λ s, HELD (self s));
      if bool_decide (a ∈ l) then push_held a ;; goto (Taking rest)
      else acquire contended a (Then_take rest)
  end.

Definition identity (target : N) : St Turn Access :=
  s ← reads shared;
  if bool_decide (target ∈ objects s) then entry access set_access target
  else fatal "storage access requires a managed allocation base".

Definition loom_rt_shared_access_begin (target : N) : St Turn () :=
  t ← reads self;
  if attached t then a ← identity target; goto (Taking [a]) else mret tt.

Fixpoint identities (targets : list N) : St Turn (list Access) :=
  match targets with
  | [] => mret []
  | target :: targets => a ← identity target; l ← identities targets; mret (a :: l)
  end.

Definition loom_rt_shared_access_many (targets : list N) : St Turn () :=
  t ← reads self;
  if attached t then l ← identities targets; goto (Taking (merge_sort N.le l)) else mret tt.

Definition loom_rt_shared_access_end : St Turn () :=
  t ← reads self;
  if attached t then
    match last (HELD t) with
    | None => fatal "unbalanced storage access"
    | Some a =>
        let l := removelast (HELD t) in
        set_HELD l ;;
        if bool_decide (a ∈ l) then mret tt else release a
    end
  else mret tt.

(** ** Mutexes *)

(** [acquire_cancellable] up to [wait_on(Some)]; [false] is followed by [cleanup::cancel]. *)
Definition acquire_cancellable (contended : bool) (a : Access) (token : Z) (c : N) : St Turn () :=
  control ← get_control c;
  if requested control then mret tt
  else
    got ← try_acquire contended a;
    if (got : bool) then acquired a (Then_guard token) else goto (Registering a token c).

Definition registering (a : Access) (token : Z) (c : N) : St Turn () :=
  control ← get_control c;
  set_control c (mkControl (requested control) (Some a)) ;;
  goto (Waiting a token c).

(** One round of its loop. *)
Definition waiting_round (a : Access) (token : Z) (c : N) : St Turn () :=
  control ← get_control c;
  h ← is_held a;
  if h && negb (requested control) then sleep
  else if requested control then goto (Unregistering a token c false)
  else set_held (λ l, {[a]} ∪ l) ;; goto (Unregistering a token c true).

Definition unregistering (a : Access) (token : Z) (c : N) (got : bool) : St Turn () :=
  control ← get_control c;
  set_control c (mkControl (requested control) None) ;;
  if got then push_guard token a ;; goto Executing else goto Executing.

(** [loom_rt_mutex_lock]; a requested cancellation unwinds instead. *)
Definition lock_mutex (contended : bool) (key : N) : St Turn () :=
  s ← reads shared;
  t ← reads self;
  if bool_decide (key ∉ objects s) then fatal "mutex requires a managed identity"
  else
    a ← entry mutexes set_mutexes key;
    if bool_decide (a ∈ (GUARDS t).*2) then fault "mutex already locked by this thread"
    else if (i64_max <=? NEXT s)%Z then fatal "mutex guard identities exhausted"
    else
      on_shared (λ s, mkShared (held s) (accesses s) (objects s) (access s) (mutexes s)
        (NEXT s + 1)%Z (controls s)) ;;
      match current t with
      | Some c => acquire_cancellable contended a (NEXT s) c
      | None => acquire contended a (Then_guard (NEXT s))
      end.

Definition loom_rt_mutex_lock (contended : bool) (key : N) : St Turn () :=
  t ← reads self;
  match current t with
  | Some c =>
      control ← get_control c;
      if requested control then mret tt else lock_mutex contended key
  | None => lock_mutex contended key
  end.

Definition loom_rt_mutex_unlock (token : Z) : St Turn bool :=
  l ← reads (λ s, GUARDS (self s));
  match list_find (λ g, g.1 = token) l with
  | None => mret false
  | Some (i, (_, a)) =>
      set_GUARDS (swap_remove l i) ;;
      release a ;;
      mret true
  end.

(** ** Cancellation *)

(** [Control::cancel] up to the read of [waiting]. *)
Definition cancel (c : N) : St Turn () :=
  control ← get_control c;
  set_control c (mkControl true (waiting control)) ;;
  goto (Cancelling c).

Definition cancelling (c : N) : St Turn () :=
  control ← get_control c;
  match waiting control with
  | Some a => goto (Waking a)
  | None => goto Executing
  end.

(** The next turn of a thread that is inside one of the functions above. *)
Definition continue (contended : bool) : St Turn () :=
  t ← reads self;
  match position t with
  | Executing => mret tt
  | Taking rest => take contended rest
  | Blocked a after => blocked_round a after
  | Registering a token c => registering a token c
  | Waiting a token c => waiting_round a token c
  | Unregistering a token c got => unregistering a token c got
  | Releasing a => notify (One a) ;; goto Executing
  | Cancelling c => cancelling c
  | Waking a => notify (All a) ;; goto Executing
  end.

(** ** The machine *)

Inductive Call :=
  | Access_begin (target : N)
  | Access_many (targets : list N)
  | Access_end
  | Mutex_lock (key : N)
  | Mutex_unlock (token : Z)
  | Cancel (c : N).

Definition call (contended : bool) (c : Call) : St Turn () :=
  match c with
  | Access_begin target => loom_rt_shared_access_begin target
  | Access_many targets => loom_rt_shared_access_many targets
  | Access_end => loom_rt_shared_access_end
  | Mutex_lock key => loom_rt_mutex_lock contended key
  | Mutex_unlock token => loom_rt_mutex_unlock token ;; mret tt
  | Cancel c => cancel c
  end.

Record Machine := mkMachine { store : Shared; threads : gmap N Thread }.

Definition waits_for (t : Thread) : option Access :=
  match position t with
  | Blocked a _ => Some a
  | Waiting a _ _ => Some a
  | _ => None
  end.

Definition wake (t : Thread) : Thread :=
  mkThread (HELD t) (GUARDS t) (current t) (attached t) (position t) false.

(** [notify_one] wakes one of the threads that sleep on the lock, if there are any. *)
Inductive notified : Notice → gmap N Thread → gmap N Thread → Prop :=
  | notified_nobody ths : notified Nobody ths ths
  | notified_one a i t ths :
      ths !! i = Some t → asleep t = true → waits_for t = Some a →
      notified (One a) ths (<[i := wake t]> ths)
  | notified_none a ths :
      (∀ i t, ths !! i = Some t → asleep t = true → waits_for t ≠ Some a) →
      notified (One a) ths ths
  | notified_all a ths :
      notified (All a) ths
        ((λ t, if bool_decide (waits_for t = Some a) then wake t else t) <$> ths).

(** A collection relocates both tables, as [Collect] proves of [shared_access::relocate]. *)
Definition relocated (F : gmap N N) (locks locks' : Locks) : Prop :=
  ∀ q a, locks' !! q = Some a ↔ ∃ p, locks !! p = Some a ∧ F !! p = Some q.

Inductive step : Machine → Machine → Prop :=
  | step_call i t c contended s s' ths ths' :
      ths !! i = Some t → position t = Executing →
      call contended c (mkTurn s t Nobody) = Ok (tt, s') →
      notified (notice s') (<[i := self s']> ths) ths' →
      step (mkMachine s ths) (mkMachine (shared s') ths')
  | step_continue i t contended s s' ths ths' :
      ths !! i = Some t → asleep t = false →
      continue contended (mkTurn s t Nobody) = Ok (tt, s') →
      notified (notice s') (<[i := self s']> ths) ths' →
      step (mkMachine s ths) (mkMachine (shared s') ths')
  | step_own i t c b s ths :
      ths !! i = Some t → position t = Executing → (b = true ∨ HELD t = []) →
      step (mkMachine s ths)
        (mkMachine s (<[i := mkThread (HELD t) (GUARDS t) c b Executing (asleep t)]> ths))
  | step_wake i t s ths :
      ths !! i = Some t → step (mkMachine s ths) (mkMachine s (<[i := wake t]> ths))
  | step_control c s ths :
      controls s !! c = None →
      step (mkMachine s ths)
        (mkMachine (mkShared (held s) (accesses s) (objects s) (access s) (mutexes s) (NEXT s)
           (<[c := mkControl false None]> (controls s))) ths)
  | step_heap F objects' access' mutexes' s ths :
      (∀ p p' q, F !! p = Some q → F !! p' = Some q → p = p') →
      relocated F (access s) access' → relocated F (mutexes s) mutexes' →
      step (mkMachine s ths)
        (mkMachine (mkShared (held s) (accesses s) objects' access' mutexes' (NEXT s)
           (controls s)) ths).

Definition start (m : Machine) : Prop :=
  held (store m) = ∅ ∧ accesses (store m) = ∅ ∧ access (store m) = ∅ ∧ mutexes (store m) = ∅ ∧
  controls (store m) = ∅ ∧
  ∀ i t, threads m !! i = Some t →
    HELD t = [] ∧ GUARDS t = [] ∧ position t = Executing ∧ asleep t = false.
