(* ===== verification/AccessRuns.v ===== *)
(** The invariant of access guards and mutexes: every lock has at most one owner, every object
    its own lock, and a sleeper whose lock is free has somebody who will wake it, unless a
    worker was cancelled; and that every turn and every run keeps it. *)

From stdpp Require Import sorting.
From S2P Require Import Prelude Effects SharedAccess.

(** ** What a thread has and wants *)

Definition got (t : Thread) : option N :=
  match position t with Unregistering a _ _ true => Some a | _ => None end.

Definition owns (t : Thread) (a : N) : Prop :=
  a ∈ HELD t ∨ a ∈ (GUARDS t).*2 ∨ got t = Some a.

(** The guards that a call is going to take, and the mutex. *)
Definition taking (t : Thread) : list N :=
  match position t with
  | Taking rest => rest
  | Blocked a (Then_take rest) => a :: rest
  | _ => []
  end.

Definition wants (t : Thread) : option (N * Z) :=
  match position t with
  | Blocked a (Then_guard token) => Some (a, token)
  | Registering a token _ | Waiting a token _ | Unregistering a token _ _ => Some (a, token)
  | _ => None
  end.

Definition tokens (t : Thread) : list Z :=
  (GUARDS t).*1 ++ option_list (snd <$> wants t).

(** [G] are the identities of access guards; those of mutexes are the others. *)
Record local_ok (G : gset N) (s : Shared) (t : Thread) : Prop := {
  l_held a : a ∈ HELD t → a ∈ G;
  l_taking a : a ∈ taking t → a ∈ G;
  l_blocked a rest : position t = Blocked a (Then_take rest) → a ∉ HELD t;
  l_guards a : a ∈ (GUARDS t).*2 → a ∉ G ∧ a ∈ accesses s;
  l_guards_once : NoDup (GUARDS t).*2;
  l_wants a token : wants t = Some (a, token) → a ∉ G ∧ a ∈ accesses s ∧ a ∉ (GUARDS t).*2;
  l_tokens token : token ∈ tokens t → (token < NEXT s)%Z;
  l_tokens_once : NoDup (tokens t);
  l_asleep : asleep t = true → is_Some (waits_for t);
}.

Definition cancelled (s : Shared) : Prop :=
  ∃ c control, controls s !! c = Some control ∧ requested control = true.

(** Threads that will see to it that a sleeper on [a] is woken, or are themselves up. *)
Definition helps (t : Thread) (a : N) : Prop :=
  (asleep t = false ∧ waits_for t = Some a) ∨ position t = Releasing a.

Definition sleeps_on (t : Thread) (a : N) : Prop := asleep t = true ∧ waits_for t = Some a.

Record tables_ok (s : Shared) (G : gset N) : Prop := {
  k_made : G ⊆ accesses s;
  k_access p a : access s !! p = Some a → a ∈ G;
  k_mutexes p a : mutexes s !! p = Some a → a ∉ G ∧ a ∈ accesses s;
  k_access_inj p q a : access s !! p = Some a → access s !! q = Some a → p = q;
  k_mutexes_inj p q a : mutexes s !! p = Some a → mutexes s !! q = Some a → p = q;
}.

Record owners_ok (s : Shared) (ths : gmap N Thread) (G : gset N) : Prop := {
  k_tables : tables_ok s G;
  k_local i t : ths !! i = Some t → local_ok G s t;
  k_held a : a ∈ held s ↔ ∃ i t, ths !! i = Some t ∧ owns t a;
  k_one i j t u a : ths !! i = Some t → ths !! j = Some u → owns t a → owns u a → i = j;
  k_tokens i j t u token : ths !! i = Some t → ths !! j = Some u →
    token ∈ tokens t → token ∈ tokens u → i = j;
}.

Definition wakeful (s : Shared) (ths : gmap N Thread) : Prop :=
  ∀ a i t, a ∉ held s → ths !! i = Some t → sleeps_on t a →
    cancelled s ∨ ∃ j u, ths !! j = Some u ∧ helps u a.

Definition inv (s : Shared) (ths : gmap N Thread) (G : gset N) : Prop :=
  owners_ok s ths G ∧ wakeful s ths.

(** ** Waking *)

(** [u] is [t], or [t] after it was woken. *)
Definition woke (t u : Thread) : Prop := u = t ∨ u = wake t.

Lemma woke_facts t u :
  woke t u → HELD u = HELD t ∧ GUARDS u = GUARDS t ∧ position u = position t ∧
  (asleep u = true → asleep t = true).
Proof. by intros [->| ->]. Qed.

Lemma woke_owns t u a : woke t u → owns u a ↔ owns t a.
Proof. by intros [->| ->]. Qed.

Lemma woke_tokens t u : woke t u → tokens u = tokens t.
Proof. by intros [->| ->]. Qed.

Lemma woke_local G s t u : woke t u → local_ok G s t → local_ok G s u.
Proof. intros [->| ->] Hl; [done|]. destruct Hl. by split. Qed.

Lemma woke_helps t u a : woke t u → helps t a → helps u a.
Proof. intros [->| ->]; [done|]. intros [[_ ?]|?]; [by left|by right]. Qed.

Lemma notified_woke n ths ths' i :
  notified n ths ths' → option_Forall2 woke (ths !! i) (ths' !! i).
Proof.
  assert (Hrefl : ∀ ths : gmap N Thread, option_Forall2 woke (ths !! i) (ths !! i)).
  { intros m. destruct (m !! i); constructor. by left. }
  destruct 1 as [ths|a j t ths Hj Ha Hw|a ths Hno|a ths]; auto.
  - destruct (decide (j = i)) as [->|Hne].
    + rewrite Hj, lookup_insert_eq. constructor. by right.
    + by rewrite lookup_insert_ne.
  - rewrite lookup_fmap. destruct (ths !! i) as [t|]; constructor.
    case_bool_decide; [by right|by left].
Qed.

Lemma notified_lookup n ths ths' i u :
  notified n ths ths' → ths' !! i = Some u → ∃ t, ths !! i = Some t ∧ woke t u.
Proof.
  intros Hn Hu. pose proof (notified_woke _ _ _ i Hn) as Hw. rewrite Hu in Hw.
  inversion Hw as [t u' Htu Et Eu|]; subst. eauto.
Qed.

Lemma notified_lookup_back n ths ths' i t :
  notified n ths ths' → ths !! i = Some t → ∃ u, ths' !! i = Some u ∧ woke t u.
Proof.
  intros Hn Ht. pose proof (notified_woke _ _ _ i Hn) as Hw. rewrite Ht in Hw.
  inversion Hw as [t' u Htu Et Eu|]; subst. eauto.
Qed.

Lemma notified_owners n s ths ths' G :
  notified n ths ths' → owners_ok s ths G → owners_ok s ths' G.
Proof.
  intros Hn [Ht Hl Hh Ho Htok]. split; [done|..].
  - intros i u Hu. destruct (notified_lookup _ _ _ _ _ Hn Hu) as (t & Hi & Hw).
    eapply woke_local; [done|]. by eapply Hl.
  - intros a. rewrite Hh. split; intros (i & t & Hi & Ha).
    + destruct (notified_lookup_back _ _ _ _ _ Hn Hi) as (u & Hu & Hw). exists i, u.
      by rewrite (woke_owns _ _ _ Hw).
    + destruct (notified_lookup _ _ _ _ _ Hn Hi) as (u & Hu & Hw). exists i, u.
      by rewrite <- (woke_owns _ _ _ Hw).
  - intros i j u v a Hu Hv Ha Ha'.
    destruct (notified_lookup _ _ _ _ _ Hn Hu) as (t & Hi & Hw).
    destruct (notified_lookup _ _ _ _ _ Hn Hv) as (t' & Hi' & Hw').
    rewrite (woke_owns _ _ _ Hw) in Ha. rewrite (woke_owns _ _ _ Hw') in Ha'. by eapply Ho.
  - intros i j u v token Hu Hv Ha Ha'.
    destruct (notified_lookup _ _ _ _ _ Hn Hu) as (t & Hi & Hw).
    destruct (notified_lookup _ _ _ _ _ Hn Hv) as (t' & Hi' & Hw').
    rewrite (woke_tokens _ _ Hw) in Ha. rewrite (woke_tokens _ _ Hw') in Ha'. by eapply Htok.
Qed.

(** A notification of [a] leaves no sleeper on [a] without an awake one. *)
Lemma notified_helps n ths ths' a i u :
  notified n ths ths' → n = One a ∨ n = All a → ths' !! i = Some u → sleeps_on u a →
  ∃ j v, ths' !! j = Some v ∧ helps v a.
Proof.
  intros Hn Ha Hu [Hs Hw]. destruct Hn as [ths|b j t ths Hj Hsl Hwt|b ths Hno|b ths].
  - by destruct Ha.
  - assert (b = a) as -> by (destruct Ha as [[= ->]|?]; done).
    exists j, (wake t). rewrite lookup_insert_eq. split; [done|]. left. by split.
  - assert (b = a) as -> by (destruct Ha as [[= ->]|?]; done). by destruct (Hno i u Hu Hs).
  - assert (b = a) as -> by (destruct Ha as [?|[= ->]]; done).
    rewrite lookup_fmap in Hu. destruct (ths !! i) as [t|]; [|done]. injection Hu as Hu.
    case_bool_decide as E; subst; [done|]. done.
Qed.

(** ** Turns *)

(** What a turn of [t] may do that makes no identity. *)
Record turned (G : gset N) (ths : gmap N Thread) (s : Shared) (t : Thread) (s' : Shared)
    (t' : Thread) (n : Notice) : Prop := {
  r_same : accesses s' = accesses s ∧ access s' = access s ∧ mutexes s' = mutexes s ∧
    NEXT s' = NEXT s;
  r_local : local_ok G s t';
  r_tokens token : token ∈ tokens t' →
    token ∈ tokens t ∨ ∀ j u, ths !! j = Some u → token ∉ tokens u;
  r_held b : b ∈ held s' ↔ (b ∈ held s ∧ ¬ owns t b) ∨ owns t' b;
  r_owns b : owns t' b → owns t b ∨ b ∉ held s;
  r_cancelled : cancelled s → cancelled s';
  r_sleep a : sleeps_on t' a → a ∈ held s';
  r_freed a : a ∉ held s' → a ∈ held s → helps t' a;
  r_helps a : a ∉ held s' → helps t a →
    helps t' a ∨ cancelled s' ∨ n = One a ∨ n = All a;
}.

Section turn.
Context {G : gset N} {s s' : Shared} {ths ths' : gmap N Thread} {i : N} {t t' : Thread} {n : Notice}.
Context (Hi : inv s ths G) (Ht : ths !! i = Some t) (Hturn : turned G ths s t s' t' n).
Context (Hn : notified n (<[i := t']> ths) ths').

Lemma turn_owners : owners_ok s' (<[i := t']> ths) G.
Proof.
  destruct Hi as [[Htab Hl Hh Ho Htok] _]. destruct (r_same _ _ _ _ _ _ _ Hturn) as (Ea & Eg & Em & En).
  assert (Hloc : ∀ u, local_ok G s u → local_ok G s' u).
  { intros u []. split; rewrite ?Ea, ?En; auto. }
  split.
  - destruct Htab. split; rewrite ?Ea, ?Eg, ?Em; auto.
  - intros j u [[<- <-]|[_ Hu]]%lookup_insert_Some; apply Hloc; [apply Hturn|by eapply Hl].
  - intros a. rewrite (r_held _ _ _ _ _ _ _ Hturn). split.
    + intros [[(j & u & Hu & Ha)%Hh Hno]|Ha].
      * exists j, u. rewrite lookup_insert_ne; [done|]. intros ->. rewrite Ht in Hu. by injection Hu as ->.
      * exists i, t'. by rewrite lookup_insert_eq.
    + intros (j & u & [[<- <-]|[Hne Hu]]%lookup_insert_Some & Ha); [by right|]. left.
      split; [apply Hh; eauto|]. intros Ha'. apply Hne. by apply (Ho i j t u a).
  - assert (Hx : ∀ j u a, j ≠ i → ths !! j = Some u → owns u a → owns t' a → False).
    { intros j u a Hne Hu Ha Ha'. destruct (r_owns _ _ _ _ _ _ _ Hturn _ Ha') as [Hat|Hfree].
      - apply Hne. by apply (Ho j i u t a).
      - apply Hfree, Hh. eauto. }
    intros j k u v a [[<- <-]|[Hj Hu]]%lookup_insert_Some [[<- <-]|[Hk Hv]]%lookup_insert_Some Ha Ha';
      [done|by destruct (Hx k v a)|by destruct (Hx j u a)|by eapply Ho].
  - assert (Hx : ∀ j u token, j ≠ i → ths !! j = Some u → token ∈ tokens u → token ∈ tokens t' → False).
    { intros j u token Hne Hu Ha Ha'. destruct (r_tokens _ _ _ _ _ _ _ Hturn _ Ha') as [Hat|Hfree].
      - apply Hne. by apply (Htok j i u t token).
      - by apply (Hfree j u Hu). }
    intros j k u v a [[<- <-]|[Hj Hu]]%lookup_insert_Some [[<- <-]|[Hk Hv]]%lookup_insert_Some Ha Ha';
      [done|by destruct (Hx k v a)|by destruct (Hx j u a)|by eapply Htok].
Qed.

Lemma turn_wakeful : wakeful s' ths'.
Proof.
  destruct Hi as [Hown Hwake]. intros a j u Hfree Hu Hs.
  destruct (notified_lookup _ _ _ _ _ Hn Hu) as (v & Hv & Hwv).
  destruct (woke_facts _ _ Hwv) as (_ & _ & Epos & Esl). destruct Hs as [Hsl Hwt].
  assert (Hsv : sleeps_on v a).
  { split; [auto|]. unfold waits_for in *. by rewrite <- Epos. }
  assert (Hkeep : ∀ k x, (<[i:=t']> ths) !! k = Some x → helps x a →
    ∃ j u, ths' !! j = Some u ∧ helps u a).
  { intros k x Hx Hh. destruct (notified_lookup_back _ _ _ _ _ Hn Hx) as (y & Hy & Hw).
    exists k, y. split; [done|]. by eapply woke_helps. }
  assert (Hself : helps t' a → ∃ j u, ths' !! j = Some u ∧ helps u a).
  { apply (Hkeep i). by rewrite lookup_insert_eq. }
  apply lookup_insert_Some in Hv as [[<- <-]|[Hne Hv]].
  { by destruct Hfree; apply (r_sleep _ _ _ _ _ _ _ Hturn). }
  destruct (decide (a ∈ held s)) as [Hin|Hout].
  { right. by apply Hself, (r_freed _ _ _ _ _ _ _ Hturn). }
  destruct (Hwake a j v Hout Hv Hsv) as [Hc|(k & x & Hx & Hh)].
  { left. by apply (r_cancelled _ _ _ _ _ _ _ Hturn). }
  destruct (decide (k = i)) as [->|Hk].
  - rewrite Ht in Hx. injection Hx as <-.
    destruct (r_helps _ _ _ _ _ _ _ Hturn a Hfree Hh) as [Hh'|[Hc|Hno]]; [right; auto|by left|].
    right. eapply (notified_helps n _ ths' a j u); [exact Hn|done|done|by split].
  - right. apply (Hkeep k x); [by rewrite lookup_insert_ne|done].
Qed.

Lemma locks_turned : inv s' ths' G.
Proof. split; [by eapply notified_owners, turn_owners|apply turn_wakeful]. Qed.
End turn.

(** Every turn keeps the invariant of access guards and mutexes, and every run. *)

#[export] Instance owns_dec t a : Decision (owns t a).
Proof. unfold owns. apply _. Defined.

(** ** What holds when a turn ends well *)

Definition post {A} (m : St Turn A) (s : Turn) (Q : A → Turn → Prop) : Prop :=
  match m s with Ok (a, s') => Q a s' | Stuck => False | _ => True end.

Lemma post_ret {A} (a : A) s (Q : A → Turn → Prop) : Q a s → post (mret a) s Q.
Proof. done. Qed.

Lemma post_bind {A B} (m : St Turn A) (k : A → St Turn B) s Q :
  post m s (λ a s', post (k a) s' Q) → post (m ≫= k) s Q.
Proof. unfold post, mbind, St_bind. destruct (m s) as [[a s']| | |]; simpl; done. Qed.

Lemma post_mono {A} (m : St Turn A) s (Q Q' : A → Turn → Prop) :
  post m s Q → (∀ a s', Q a s' → Q' a s') → post m s Q'.
Proof. unfold post. destruct (m s) as [[a s']| | |]; simpl; auto. Qed.

Lemma post_reads {A} (f : Turn → A) s (Q : A → Turn → Prop) : Q (f s) s → post (reads f) s Q.
Proof. done. Qed.

Lemma post_edits (f : Turn → Turn) s (Q : () → Turn → Prop) : Q tt (f s) → post (edits f) s Q.
Proof. done. Qed.

Lemma post_control c s (Q : Control → Turn → Prop) :
  (∀ control, controls (shared s) !! c = Some control → Q control s) → post (get_control c) s Q.
Proof.
  intros HQ. unfold get_control. apply post_bind, post_reads.
  destruct (controls (shared s) !! c) as [control|] eqn:E; [|done]. by apply HQ.
Qed.

Lemma post_try_acquire contended a s t n (Q : bool → Turn → Prop) :
  Q false (mkTurn s t n) →
  (a ∉ held s → Q true (mkTurn (mkShared ({[a]} ∪ held s) (accesses s) (objects s) (access s)
    (mutexes s) (NEXT s) (controls s)) t n)) →
  post (try_acquire contended a) (mkTurn s t n) Q.
Proof.
  intros Hf Ht. apply post_bind, post_reads. simpl. destruct contended; [by apply post_ret|].
  case_bool_decide as Hin; [by apply post_ret|]. by apply post_bind, post_edits, post_ret, Ht.
Qed.

Section turns.
Context {G : gset N} {ths : gmap N Thread} {i : N}.

(** ** Kinds of turns *)

Definition same_tables (s s' : Shared) : Prop :=
  accesses s' = accesses s ∧ access s' = access s ∧ mutexes s' = mutexes s ∧ NEXT s' = NEXT s.

Section kinds.
Context {s s' : Shared} {t t' : Thread} {n : Notice}.
Context (Hi : inv s ths G) (Ht : ths !! i = Some t) (Hsame : same_tables s s').
Context (Hl : local_ok G s t').
Context (Htok : ∀ token, token ∈ tokens t' →
  token ∈ tokens t ∨ ∀ j u, ths !! j = Some u → token ∉ tokens u).
Context (Hc : cancelled s → cancelled s').

Lemma owned_held b : owns t b → b ∈ held s.
Proof. intros Hb. apply (k_held _ _ _ (proj1 Hi)). eauto. Qed.

(** The locks stay with their owners. *)
Lemma turned_quiet :
  held s' = held s → (∀ b, owns t' b ↔ owns t b) → (∀ a, sleeps_on t' a → a ∈ held s) →
  (∀ a, a ∉ held s → helps t a → helps t' a ∨ cancelled s' ∨ n = One a ∨ n = All a) →
  turned G ths s t s' t' n.
Proof.
  intros Eh Ho Hs Hh. split; rewrite ?Eh; try done.
  - intros b. rewrite Ho. pose proof (owned_held b). destruct (decide (owns t b)); intuition congruence.
  - intros b ?%Ho. by left.
Qed.

Lemma turned_acquires a :
  a ∉ held s → held s' = {[a]} ∪ held s → (∀ b, owns t' b ↔ owns t b ∨ b = a) →
  (∀ b, helps t b → b = a) → asleep t' = false → turned G ths s t s' t' n.
Proof.
  intros Ha Eh Ho Hh Hs. split; rewrite ?Eh; try done.
  - intros b. rewrite Ho, elem_of_union, elem_of_singleton. pose proof (owned_held b).
    destruct (decide (owns t b)); intuition congruence.
  - intros b [?| ->]%Ho; auto.
  - intros b [E _]. congruence.
  - intros b Hno Hin. destruct Hno. apply elem_of_union. by right.
  - intros b Hno Hb. destruct Hno. apply elem_of_union. left. by apply elem_of_singleton, Hh.
Qed.

Lemma turned_releases a :
  owns t a → held s' = held s ∖ {[a]} → (∀ b, owns t' b ↔ owns t b ∧ b ≠ a) →
  position t' = Releasing a → asleep t' = false → (∀ b, ¬ helps t b) → turned G ths s t s' t' n.
Proof.
  intros Ha Eh Ho Hp Hs Hh. split; rewrite ?Eh; try done.
  - intros b. rewrite Ho, elem_of_difference, elem_of_singleton. pose proof (owned_held b).
    destruct (decide (owns t b)); intuition congruence.
  - intros b [? _]%Ho. by left.
  - intros b [E _]. congruence.
  - intros b Hno Hin. destruct (decide (b = a)) as [->|Hne]; [by right|]. destruct Hno.
    apply elem_of_difference. by rewrite elem_of_singleton.
  - intros b _ Hb. by destruct (Hh b).
Qed.
End kinds.

(** ** Turns of one thread *)

Definition does (m : St Turn ()) (s : Shared) (t : Thread) : Prop :=
  post m (mkTurn s t Nobody) (λ _ S, turned G ths s t (shared S) (self S) (notice S)).

Section thread.
Context {s : Shared} {t : Thread} (Hi : inv s ths G) (Ht : ths !! i = Some t).

Lemma local_here : local_ok G s t.
Proof. by eapply (k_local _ _ _ (proj1 Hi)). Qed.

Lemma same_refl s' h c :
  s' = mkShared h (accesses s) (objects s) (access s) (mutexes s) (NEXT s) c → same_tables s s'.
Proof. by intros ->. Qed.

(** Nothing but the position changes, to one that wants no more. *)
Lemma turned_goto p :
  got t = None →
  (∀ a, match p with Taking rest => a ∈ rest → a ∈ G | Executing | Releasing _ | Cancelling _ | Waking _ => True | _ => False end) →
  (∀ a, a ∉ held s → helps t a → position t = Releasing a) →
  ∀ n c, (∀ a, position t = Releasing a → n = One a) →
  (cancelled s → cancelled (mkShared (held s) (accesses s) (objects s) (access s) (mutexes s) (NEXT s) c)) →
  turned G ths s t (mkShared (held s) (accesses s) (objects s) (access s) (mutexes s) (NEXT s) c)
    (mkThread (HELD t) (GUARDS t) (current t) (attached t) p false) n.
Proof.
  intros Hg Hp Hh n c Hn Hc. pose proof local_here as Hl.
  assert (Etok : ∀ token, token ∈ (GUARDS t).*1 → token ∈ tokens t).
  { intros token Htok. unfold tokens. apply elem_of_app. by left. }
  assert (Hw : wants (mkThread (HELD t) (GUARDS t) (current t) (attached t) p false) = None).
  { specialize (Hp 0%N). by destruct p. }
  apply (turned_quiet Hi Ht); try done.
  - pose proof (l_tokens_once _ _ _ Hl) as Hnd. destruct Hl. split; simpl; try done.
    + intros a Ha. specialize (Hp a). destruct p; simpl in Ha; try (by apply not_elem_of_nil in Ha); auto. done.
    + intros a rest ->. by destruct (Hp 0%N).
    + intros a token. unfold wants in *. simpl in *. by rewrite Hw.
    + intros token. unfold tokens. rewrite Hw. simpl. rewrite app_nil_r. auto.
    + unfold tokens. rewrite Hw. simpl. rewrite app_nil_r.
      unfold tokens in Hnd. by apply NoDup_app in Hnd as [? _].
  - intros token. unfold tokens at 1. rewrite Hw. simpl. rewrite app_nil_r. auto.
  - intros b. unfold owns. rewrite Hg. unfold got. simpl. specialize (Hp 0%N). by destruct p.
  - intros a [? _]. done.
  - intros a Ha Hb. right. right. left. apply Hn. by apply Hh.
Qed.

(** *** Acquisition *)

(** A lock of a mutex that the thread may have, and the token of its guard. *)
Record guard_ok (a : N) (token : Z) : Prop := {
  m_access : a ∉ G;
  m_made : a ∈ accesses s;
  m_new : a ∉ (GUARDS t).*2;
  m_token : (token < NEXT s)%Z;
  m_unused : token ∉ (GUARDS t).*1;
  m_fresh : token ∈ tokens t ∨ ∀ j u, ths !! j = Some u → token ∉ tokens u;
}.

Lemma wanted_ok a token : wants t = Some (a, token) → guard_ok a token.
Proof.
  intros Hw. pose proof local_here as Hl. destruct (l_wants _ _ _ Hl _ _ Hw) as (Ha & Hm & Hn).
  assert (Hin : token ∈ tokens t).
  { unfold tokens. rewrite Hw. simpl. apply elem_of_app. right. by left. }
  split; try done.
  - by apply (l_tokens _ _ _ Hl).
  - pose proof (l_tokens_once _ _ _ Hl) as Hnd. unfold tokens in Hnd. rewrite Hw in Hnd. simpl in Hnd.
    apply NoDup_app in Hnd as (_ & Hd & _). intros Hg. apply (Hd _ Hg). by left.
  - by left.
Qed.

Definition after_ok (a : N) (after : After) : Prop :=
  match after with
  | Then_take rest => a ∈ G ∧ a ∉ HELD t ∧ ∀ b, b ∈ rest → b ∈ G
  | Then_guard token => guard_ok a token
  end.

Abbreviation placed p b := (mkThread (HELD t) (GUARDS t) (current t) (attached t) p b).
Abbreviation with_held h := (mkShared h (accesses s) (objects s) (access s) (mutexes s) (NEXT s) (controls s)).

Lemma guard_token token : token ∈ (GUARDS t).*1 → token ∈ tokens t.
Proof. intros Hin. unfold tokens. apply elem_of_app. by left. Qed.

Lemma guards_once : NoDup (GUARDS t).*1.
Proof.
  pose proof (l_tokens_once _ _ _ local_here) as Hnd. unfold tokens in Hnd.
  by apply NoDup_app in Hnd as [? _].
Qed.

(** A thread that wants the mutex [a]. *)
Lemma local_wanting p b a token :
  guard_ok a token → wants (placed p b) = Some (a, token) → taking (placed p b) = [] →
  (∀ a rest, p ≠ Blocked a (Then_take rest)) → (b = true → is_Some (waits_for (placed p b))) →
  local_ok G s (placed p b).
Proof.
  intros Hg Hw Htk Hp Hb. pose proof local_here as Hl. destruct Hg. split; simpl; try apply Hl.
  - rewrite Htk. by intros c ?%not_elem_of_nil.
  - intros c rest E. by destruct (Hp c rest).
  - rewrite Hw. intros c token' [= <- <-]. done.
  - intros token'. unfold tokens. rewrite Hw. simpl. rewrite elem_of_app, list_elem_of_singleton.
    intros [Hin| ->]; [|done]. by apply (l_tokens _ _ _ Hl), guard_token.
  - unfold tokens. rewrite Hw. simpl. apply NoDup_app. split; [apply guards_once|].
    split; [|apply NoDup_singleton]. intros x Hx ->%list_elem_of_singleton. done.
  - done.
Qed.

Lemma tokens_wanting p b a token :
  guard_ok a token → wants (placed p b) = Some (a, token) →
  ∀ x, x ∈ tokens (placed p b) → x ∈ tokens t ∨ ∀ j u, ths !! j = Some u → x ∉ tokens u.
Proof.
  intros Hg Hw x. unfold tokens at 1. rewrite Hw. simpl.
  rewrite elem_of_app, list_elem_of_singleton. intros [Hin| ->]; [left; by apply guard_token|apply Hg].
Qed.

(** Going where a lock is awaited. *)
Lemma blocked_goto a after n :
  after_ok a after → got t = None →
  (∀ b, b ∉ held s → helps t b → b = a) →
  turned G ths s t s (placed (Blocked a after) false) n.
Proof.
  intros Ha Hg Hh. pose proof local_here as Hl. apply (turned_quiet Hi Ht); try done.
  - destruct after as [rest|token].
    + destruct Ha as (HaG & Hnew & Hrest). split; simpl; try apply Hl; try done.
      * intros b [->|Hb]%elem_of_cons; auto.
      * intros b r [= <- <-]. done.
      * unfold tokens. simpl. intros token. rewrite app_nil_r. intros Htk.
        by apply (l_tokens _ _ _ Hl), guard_token.
      * unfold tokens. simpl. rewrite app_nil_r. apply guards_once.
    + by apply (local_wanting _ _ a token).
  - destruct after as [rest|token]; [|by apply (tokens_wanting _ _ a token)].
    intros x. unfold tokens at 1. simpl. rewrite app_nil_r. left. by apply guard_token.
  - intros b. unfold owns. by rewrite Hg.
  - by intros b [? _].
  - intros b Hno Hb. left. left. split; [done|]. simpl. by rewrite (Hh b Hno Hb).
Qed.

Lemma acquired_does a after :
  after_ok a after → got t = None → a ∉ held s → (∀ b, helps t b → b = a) →
  post (acquired a after) (mkTurn (with_held ({[a]} ∪ held s)) t Nobody)
    (λ _ S, turned G ths s t (shared S) (self S) (notice S)).
Proof.
  intros Ha Hg Hfree Hh. pose proof local_here as Hl.
  destruct after as [rest|token]; simpl.
  - destruct Ha as (HaG & Hnew & Hrest).
    apply post_bind, post_bind, post_reads, post_edits, post_edits. simpl.
    apply (turned_acquires Hi Ht) with (a := a); try done.
    + split; simpl; try apply Hl; try done.
      * intros b [?| ->%list_elem_of_singleton]%elem_of_app; [by apply Hl|done].
      * unfold tokens. simpl. intros token. rewrite app_nil_r. intros Htk.
        by apply (l_tokens _ _ _ Hl), guard_token.
      * unfold tokens. simpl. rewrite app_nil_r. apply guards_once.
    + intros x. unfold tokens at 1. simpl. rewrite app_nil_r. left. by apply guard_token.
    + intros b. unfold owns. rewrite Hg. simpl. rewrite elem_of_app, list_elem_of_singleton. naive_solver.
  - apply post_bind, post_bind, post_reads, post_edits, post_edits. simpl. destruct Ha.
    apply (turned_acquires Hi Ht) with (a := a); try done.
    + split; simpl; try apply Hl; try done.
      * by intros b ?%not_elem_of_nil.
      * intros b. rewrite fmap_app, elem_of_app. simpl. rewrite list_elem_of_singleton.
        intros [?| ->]; [by apply Hl|done].
      * rewrite fmap_app. apply NoDup_app. split; [apply Hl|]. split; [|apply NoDup_singleton].
        simpl. intros b Hb ->%list_elem_of_singleton. done.
      * unfold tokens. simpl. intros x. rewrite app_nil_r, fmap_app, elem_of_app. simpl.
        rewrite list_elem_of_singleton. intros [Hx| ->]; [by apply (l_tokens _ _ _ Hl), guard_token|done].
      * unfold tokens. simpl. rewrite app_nil_r, fmap_app. apply NoDup_app.
        split; [apply guards_once|]. split; [|apply NoDup_singleton].
        simpl. intros b Hb ->%list_elem_of_singleton. done.
    + intros x. unfold tokens at 1. simpl. rewrite app_nil_r, fmap_app, elem_of_app. simpl.
      rewrite list_elem_of_singleton. intros [Hx| ->]; [left; by apply guard_token|done].
    + intros b. unfold owns. rewrite Hg. simpl. rewrite fmap_app, elem_of_app. simpl.
      rewrite list_elem_of_singleton. naive_solver.
Qed.

Lemma acquire_does contended a after :
  after_ok a after → got t = None → (∀ b, helps t b → b = a) → does (acquire contended a after) s t.
Proof.
  intros Ha Hg Hh. apply post_bind, post_try_acquire; [|by intros; apply acquired_does].
  apply post_edits. apply blocked_goto; auto.
Qed.

Lemma blocked_does a after : position t = Blocked a after → asleep t = false → does (blocked_round a after) s t.
Proof.
  intros Hp Hs. pose proof local_here as Hl. assert (Hg : got t = None) by (unfold got; by rewrite Hp).
  assert (Ha : after_ok a after).
  { destruct after as [rest|token].
    - assert (Htk : taking t = a :: rest) by (unfold taking; by rewrite Hp).
      split; [apply (l_taking _ _ _ Hl); rewrite Htk; by left|]. split; [by eapply l_blocked|].
      intros b Hb. apply (l_taking _ _ _ Hl). rewrite Htk. by right.
    - apply wanted_ok. unfold wants. by rewrite Hp. }
  assert (Hh : ∀ b, helps t b → b = a).
  { intros b [[_ E]|E]; [|congruence]. unfold waits_for in E. rewrite Hp in E. congruence. }
  unfold blocked_round. apply post_bind, post_reads. simpl. case_bool_decide as Hin.
  - apply post_edits. simpl. apply (turned_quiet Hi Ht); try done.
    + split; try apply Hl. intros _. unfold waits_for. simpl. rewrite Hp. by eexists.
    + intros x Hx. by left.
    + intros b [_ E]. unfold waits_for in E. simpl in E. rewrite Hp in E. by injection E as <-.
    + intros b Hno Hb. by rewrite (Hh b Hb) in Hno.
  - apply post_bind, post_edits. by apply acquired_does.
Qed.

Lemma take_does contended rest : position t = Taking rest → does (take contended rest) s t.
Proof.
  intros Hp. pose proof local_here as Hl. assert (Hg : got t = None) by (unfold got; by rewrite Hp).
  assert (Hh : ∀ b, ¬ helps t b).
  { intros b [[_ E]|E]; [|congruence]. unfold waits_for in E. by rewrite Hp in E. }
  assert (Htk : taking t = rest) by (unfold taking; by rewrite Hp).
  destruct rest as [|a rest]; simpl.
  - apply post_edits. pose proof (turned_goto Executing Hg (λ _, I)) as H.
    specialize (H ltac:(intros b _ Hb; by destruct (Hh b)) Nobody (controls s)).
    destruct s. apply H; [intros b E; congruence|done].
  - apply post_bind, post_reads. simpl. case_bool_decide as Hin.
    + apply post_bind, post_bind, post_reads, post_edits, post_edits. simpl.
      apply (turned_quiet Hi Ht); try done.
      * split; simpl; try apply Hl; try done.
        -- intros b [?| ->%list_elem_of_singleton]%elem_of_app; by apply Hl.
        -- intros b Hb. apply (l_taking _ _ _ Hl). rewrite Htk. by right.
        -- unfold tokens. simpl. intros token. rewrite app_nil_r. intros Hx.
           by apply (l_tokens _ _ _ Hl), guard_token.
        -- unfold tokens. simpl. rewrite app_nil_r. apply guards_once.
      * intros x. unfold tokens at 1. simpl. rewrite app_nil_r. left. by apply guard_token.
      * intros b. unfold owns. rewrite Hg. simpl. rewrite elem_of_app, list_elem_of_singleton.
        naive_solver.
      * by intros b [? _].
      * intros b _ Hb. by destruct (Hh b).
    + apply acquire_does; [|done|intros b Hb; by destruct (Hh b)].
      split; [apply (l_taking _ _ _ Hl); rewrite Htk; by left|]. split; [done|].
      intros b Hb. apply (l_taking _ _ _ Hl). rewrite Htk. by right.
Qed.

(** *** Cancellable acquisition *)

Abbreviation with_controls c :=
  (mkShared (held s) (accesses s) (objects s) (access s) (mutexes s) (NEXT s) c).

Lemma cancelled_insert c control control' h :
  controls s !! c = Some control → (requested control = true → requested control' = true) →
  cancelled s →
  cancelled (mkShared h (accesses s) (objects s) (access s) (mutexes s) (NEXT s)
    (<[c := control']> (controls s))).
Proof.
  intros Hc Hr (d & other & Hd & Ho). unfold cancelled. simpl. destruct (decide (c = d)) as [<-|Hne].
  - exists c, control'. rewrite lookup_insert_eq. split; [done|]. apply Hr. by simplify_eq.
  - exists d, other. by rewrite lookup_insert_ne.
Qed.

(** A thread that goes on wanting the mutex. *)
Lemma turned_wanting p b a token c n :
  guard_ok a token → got t = None → wants (placed p b) = Some (a, token) →
  taking (placed p b) = [] → got (placed p b) = None → (∀ a rest, p ≠ Blocked a (Then_take rest)) →
  (b = true → waits_for (placed p b) = Some a ∧ a ∈ held s) →
  (∀ d, d ∉ held s → helps t d → helps (placed p b) d ∨ cancelled (with_controls c)) →
  (cancelled s → cancelled (with_controls c)) →
  turned G ths s t (with_controls c) (placed p b) n.
Proof.
  intros Hok Hg Hw Htk Hg' Hp Hb Hh Hc. apply (turned_quiet Hi Ht); try done.
  - apply (local_wanting _ _ a token); try done. intros E. destruct (Hb E) as [-> _]. by eexists.
  - by apply (tokens_wanting _ _ a token).
  - intros d. unfold owns. by rewrite Hg, Hg'.
  - intros d [E Ew]. simpl in E. destruct (Hb E) as [Ew' Hin]. congruence.
  - intros d Hd Hx. destruct (Hh d Hd Hx); auto.
Qed.

Lemma registering_does a token c : position t = Registering a token c → does (registering a token c) s t.
Proof.
  intros Hp. assert (Hg : got t = None) by (unfold got; by rewrite Hp).
  assert (Hw : wants t = Some (a, token)) by (unfold wants; by rewrite Hp).
  unfold registering. apply post_bind, post_control. simpl. intros control Hc.
  apply post_bind, post_edits, post_edits. simpl.
  apply (turned_wanting _ _ a token); try done; [by apply wanted_ok| |by apply (cancelled_insert _ control)].
  intros d _ [[_ E]|E]; [|congruence]. unfold waits_for in E. by rewrite Hp in E.
Qed.

Lemma waiting_does a token c :
  position t = Waiting a token c → asleep t = false → does (waiting_round a token c) s t.
Proof.
  intros Hp Hs. pose proof local_here as Hl. assert (Hg : got t = None) by (unfold got; by rewrite Hp).
  assert (Hw : wants t = Some (a, token)) by (unfold wants; by rewrite Hp).
  assert (Hh : ∀ b, helps t b → b = a).
  { intros b [[_ E]|E]; [|congruence]. unfold waits_for in E. rewrite Hp in E. by injection E. }
  assert (Hok : guard_ok a token) by by apply wanted_ok.
  assert (Hsame : with_controls (controls s) = s) by by destruct s.
  unfold waiting_round. apply post_bind, post_control. simpl. intros control Hc.
  apply post_bind, post_reads. simpl. case_bool_decide as Hin; simpl.
  - destruct (requested control) eqn:Er; simpl.
    + apply post_edits. simpl. rewrite <- Hsame at 2.
      apply (turned_wanting _ _ a token); try done.
      intros d _ _. right. rewrite Hsame. by exists c, control.
    + apply post_edits. simpl. rewrite <- Hsame at 2.
      apply (turned_wanting _ _ a token); try done; rewrite ?Hp; try done.
      intros d Hd Hx. by rewrite (Hh d Hx) in Hd.
  - destruct (requested control) eqn:Er; simpl.
    + apply post_edits. simpl. rewrite <- Hsame at 2.
      apply (turned_wanting _ _ a token); try done.
      intros d _ _. right. rewrite Hsame. by exists c, control.
    + apply post_bind, post_edits, post_edits. simpl.
      apply (turned_acquires Hi Ht) with (a := a); try done.
      * by apply (local_wanting _ _ a token).
      * by apply (tokens_wanting _ _ a token).
      * intros b. unfold owns. rewrite Hg. unfold got. simpl. naive_solver.
Qed.

Lemma unregistering_does a token c b :
  position t = Unregistering a token c b → does (unregistering a token c b) s t.
Proof.
  intros Hp. pose proof local_here as Hl.
  assert (Hw : wants t = Some (a, token)) by (unfold wants; by rewrite Hp).
  assert (Hh : ∀ d, ¬ helps t d).
  { intros d [[_ E]|E]; [|congruence]. unfold waits_for in E. by rewrite Hp in E. }
  pose proof (wanted_ok _ _ Hw) as Hok.
  unfold unregistering. apply post_bind, post_control. simpl. intros control Hc.
  apply post_bind, post_edits. simpl.
  assert (Hcan := cancelled_insert c control (mkControl (requested control) None) (held s) Hc ltac:(done)).
  destruct b.
  - assert (Hg : got t = Some a) by (unfold got; by rewrite Hp).
    apply post_bind, post_bind, post_reads, post_edits, post_edits. simpl. destruct Hok.
    apply (turned_quiet Hi Ht); try done.
    + split; simpl; try apply Hl; try done.
      * by intros d ?%not_elem_of_nil.
      * intros d. rewrite fmap_app, elem_of_app. simpl. rewrite list_elem_of_singleton.
        intros [?| ->]; [by apply Hl|done].
      * rewrite fmap_app. apply NoDup_app. split; [apply Hl|]. split; [|apply NoDup_singleton].
        simpl. intros d Hd ->%list_elem_of_singleton. done.
      * unfold tokens. simpl. intros x. rewrite app_nil_r, fmap_app, elem_of_app. simpl.
        rewrite list_elem_of_singleton. intros [Hx| ->]; [by apply (l_tokens _ _ _ Hl), guard_token|done].
      * unfold tokens. simpl. rewrite app_nil_r, fmap_app. apply NoDup_app.
        split; [apply guards_once|]. split; [|apply NoDup_singleton].
        simpl. intros d Hd ->%list_elem_of_singleton. done.
    + intros x. unfold tokens at 1. simpl. rewrite app_nil_r, fmap_app, elem_of_app. simpl.
      rewrite list_elem_of_singleton. intros [Hx| ->]; [left; by apply guard_token|done].
    + intros d. unfold owns. rewrite Hg. simpl. rewrite fmap_app, elem_of_app. simpl.
      rewrite list_elem_of_singleton. naive_solver.
    + by intros d [? _].
    + intros d _ Hd. by destruct (Hh d).
  - assert (Hg : got t = None) by (unfold got; by rewrite Hp).
    apply post_edits. simpl. apply turned_goto; try done.
    + intros d _ Hd. by destruct (Hh d).
    + intros d E. congruence.
Qed.

(** *** Release and cancellation *)

Lemma notify_does n p :
  (∃ a, position t = Releasing a ∧ n = One a) ∨ (∃ a, position t = Waking a ∧ n = All a) →
  p = Executing → does (notify n ;; goto p) s t.
Proof.
  intros Hn ->. apply post_bind, post_edits, post_edits. simpl.
  assert (Hg : got t = None) by (unfold got; by destruct Hn as [(a & -> & _)|(a & -> & _)]).
  pose proof (turned_goto Executing Hg (λ _, I)) as H.
  assert (Hh : ∀ b, b ∉ held s → helps t b → position t = Releasing b).
  { intros b _ [[_ E]|E]; [|done]. unfold waits_for in E. by destruct Hn as [(a & E' & _)|(a & E' & _)]; rewrite E' in E. }
  specialize (H Hh n (controls s)). destruct s. apply H; [|done].
  intros b E. destruct Hn as [(a & E' & ->)|(a & E' & ->)]; rewrite E' in E; congruence.
Qed.

Lemma cancelling_does c : position t = Cancelling c → does (cancelling c) s t.
Proof.
  intros Hp. assert (Hg : got t = None) by (unfold got; by rewrite Hp).
  assert (Hh : ∀ b, b ∉ held s → helps t b → position t = Releasing b).
  { intros b _ [[_ E]|E]; [|done]. unfold waits_for in E. by rewrite Hp in E. }
  unfold cancelling. apply post_bind, post_control. simpl. intros control Hc.
  pose proof (turned_goto Executing Hg (λ _, I) Hh Nobody (controls s)) as H1.
  destruct (waiting control) as [a|].
  - pose proof (turned_goto (Waking a) Hg (λ _, I) Hh Nobody (controls s)) as H2.
    apply post_edits. simpl. destruct s. apply H2; [intros b E; congruence|done].
  - apply post_edits. simpl. destruct s. apply H1; [intros b E; congruence|done].
Qed.

Lemma locks_continue contended : asleep t = false → position t ≠ Executing → does (continue contended) s t.
Proof.
  intros Hs Hne. unfold continue. apply post_bind, post_reads. simpl.
  destruct (position t) eqn:Hp; try done.
  - by apply take_does.
  - by apply blocked_does.
  - by apply registering_does.
  - by apply waiting_does.
  - by apply unregistering_does.
  - apply notify_does; [left; by eexists|done].
  - by apply cancelling_does.
  - apply notify_does; [right; by eexists|done].
Qed.

(** *** Calls *)

Lemma executing_facts :
  position t = Executing → got t = None ∧ wants t = None ∧ (∀ b, ¬ helps t b) ∧ asleep t = false.
Proof.
  intros Hp. split; [unfold got; by rewrite Hp|]. split; [unfold wants; by rewrite Hp|]. split.
  - intros b [[_ E]|E]; [|congruence]. unfold waits_for in E. by rewrite Hp in E.
  - destruct (asleep t) eqn:E; [|done]. destruct (l_asleep _ _ _ local_here E) as [a Ha].
    unfold waits_for in Ha. by rewrite Hp in Ha.
Qed.

Lemma turned_nothing : position t = Executing → turned G ths s t s t Nobody.
Proof.
  intros Hp. destruct (executing_facts Hp) as (_ & _ & Hh & Hs). apply (turned_quiet Hi Ht); try done.
  - apply local_here.
  - intros x Hx. by left.
  - intros a [E _]. by rewrite Hs in E.
  - intros a _ Ha. by destruct (Hh a).
Qed.

Lemma executing_goto p :
  position t = Executing →
  (∀ a, match p with Taking rest => a ∈ rest → a ∈ G | Executing | Releasing _ | Cancelling _ | Waking _ => True | _ => False end) →
  ∀ n c, (cancelled s → cancelled (with_controls c)) →
  turned G ths s t (with_controls c) (placed p false) n.
Proof.
  intros Hx Hp n c Hc. destruct (executing_facts Hx) as (Hg & _ & Hh & _).
  apply turned_goto; try done; [intros a _ Ha; by destruct (Hh a)|congruence].
Qed.

(** A thread that executes, with other locks. *)
Lemma local_executing h g p :
  (∀ a, a ∈ h → a ∈ HELD t) → (∀ x, x ∈ g → x ∈ GUARDS t) → NoDup g.*1 → NoDup g.*2 →
  p = Executing ∨ (∃ a, p = Releasing a) →
  local_ok G s (mkThread h g (current t) (attached t) p false).
Proof.
  intros Hh Hg H1 H2 Hp. pose proof local_here as Hl.
  assert (E1 : taking (mkThread h g (current t) (attached t) p false) = []) by by destruct Hp as [->|[a ->]].
  assert (E2 : wants (mkThread h g (current t) (attached t) p false) = None) by by destruct Hp as [->|[a ->]].
  split; simpl; try done.
  - intros a Ha. by apply Hl, Hh.
  - rewrite E1. by intros a ?%not_elem_of_nil.
  - intros a rest E. by destruct Hp as [->|[b ->]].
  - intros a ([tok b] & -> & Hb)%list_elem_of_fmap. simpl. apply (l_guards _ _ _ Hl).
    apply list_elem_of_fmap. exists (tok, b). auto.
  - by rewrite E2.
  - unfold tokens. rewrite E2. simpl. rewrite app_nil_r.
    intros tok ([tok' b] & -> & Hb)%list_elem_of_fmap. simpl.
    apply (l_tokens _ _ _ Hl), guard_token, list_elem_of_fmap. exists (tok', b). auto.
  - unfold tokens. rewrite E2. simpl. by rewrite app_nil_r.
Qed.

Lemma tokens_executing h g p x :
  (∀ x, x ∈ g → x ∈ GUARDS t) → p = Executing ∨ (∃ a, p = Releasing a) →
  x ∈ tokens (mkThread h g (current t) (attached t) p false) → x ∈ tokens t.
Proof.
  intros Hg Hp. unfold tokens at 1.
  assert (E2 : wants (mkThread h g (current t) (attached t) p false) = None) by by destruct Hp as [->|[a ->]].
  rewrite E2. simpl. rewrite app_nil_r. intros ([tok b] & -> & Hb)%list_elem_of_fmap.
  apply guard_token, list_elem_of_fmap. exists (tok, b). auto.
Qed.

Lemma end_does : position t = Executing → does loom_rt_shared_access_end s t.
Proof.
  intros Hp. pose proof local_here as Hl. destruct (executing_facts Hp) as (Hg & Hw & Hh & Hs).
  unfold loom_rt_shared_access_end. apply post_bind, post_reads. simpl.
  destruct (attached t); [|by apply post_ret, turned_nothing].
  destruct (last (HELD t)) as [a|] eqn:El; [|done].
  assert (Eh : HELD t = removelast (HELD t) ++ [a]).
  { apply last_Some in El as [l El]. rewrite El. by rewrite removelast_last. }
  assert (Hin : ∀ b, b ∈ HELD t ↔ b ∈ removelast (HELD t) ∨ b = a).
  { intros b. rewrite Eh at 1. by rewrite elem_of_app, list_elem_of_singleton. }
  assert (HaG : a ∈ G) by (apply Hl, Hin; by right).
  apply post_bind, post_edits. simpl. case_bool_decide as Hmore.
  - apply post_ret. simpl. rewrite Hp, Hs. apply (turned_quiet Hi Ht); try done.
    + apply local_executing; try done; [|apply guards_once|apply Hl|by left]. intros b Hb. apply Hin. by left.
    + intros x Hx. left. by eapply tokens_executing; [| |exact Hx]; [|left].
    + intros b. unfold owns. rewrite Hg, (Hin b). simpl. naive_solver.
    + by intros b [? _].
    + intros b _ Hb. by destruct (Hh b).
  - apply post_bind, post_edits, post_edits. simpl.
    apply (turned_releases Hi Ht) with (a := a); try done.
    + apply local_executing; try done; [|apply guards_once|apply Hl|right; by eexists].
      intros b Hb. apply Hin. by left.
    + intros x Hx. left. by eapply tokens_executing; [| |exact Hx]; [|right; eexists].
    + left. apply Hin. by right.
    + intros b. unfold owns. rewrite Hg, (Hin b). simpl. split.
      * intros [Hb|[Hb|?]]; [|split; [auto|]|done].
        -- split; [auto|]. by intros ->.
        -- intros ->. by destruct (proj1 (l_guards _ _ _ Hl a Hb)).
      * intros [[[?|?]|[?|?]] ?]; auto; done.
Qed.

Lemma swap_remove_perm {A} (l : list A) k x : l !! k = Some x → l ≡ₚ x :: swap_remove l k.
Proof.
  intros Hk. pose proof (lookup_lt_Some _ _ _ Hk) as Hlt.
  destruct (exists_last (l := l)) as (l' & y & ->); [by intros ->|].
  rewrite length_app in Hlt. simpl in Hlt. rewrite swap_remove_snoc by lia. case_decide as E.
  - subst. rewrite lookup_app_r, Nat.sub_diag in Hk by lia. simpl in Hk. injection Hk as ->.
    by rewrite Permutation_app_comm.
  - assert (Hy : (l' ++ [y]) !! length l' = Some y) by by rewrite lookup_app_r, Nat.sub_diag by lia.
    rewrite <- (Permutation_insert_swap _ _ _ _ _ Hk Hy).
    rewrite insert_app_l by lia. rewrite insert_app_r_alt by (rewrite length_insert; lia).
    rewrite length_insert, Nat.sub_diag. simpl. by rewrite Permutation_app_comm.
Qed.

Lemma unlock_does token :
  position t = Executing → does (loom_rt_mutex_unlock token ;; mret tt) s t.
Proof.
  intros Hp. pose proof local_here as Hl. destruct (executing_facts Hp) as (Hg & Hw & Hh & Hs).
  unfold loom_rt_mutex_unlock. apply post_bind, post_bind, post_reads. simpl.
  destruct (list_find _ _) as [[k [token' a]]|] eqn:Ef.
  - apply list_find_Some in Ef as (Hk & _ & _).
    pose proof (swap_remove_perm _ _ _ Hk) as Hperm.
    pose proof (fmap_Permutation snd _ _ Hperm) as Hp2. simpl in Hp2.
    pose proof (fmap_Permutation fst _ _ Hperm) as Hp1. simpl in Hp1.
    pose proof guards_once as Hn1. rewrite Hp1 in Hn1. apply NoDup_cons in Hn1 as [_ Hn1].
    pose proof (l_guards_once _ _ _ Hl) as Hn2. rewrite Hp2 in Hn2. apply NoDup_cons in Hn2 as [Ha Hn2].
    assert (Hsub : ∀ x, x ∈ swap_remove (GUARDS t) k → x ∈ GUARDS t).
    { intros x Hx. rewrite Hperm. by right. }
    apply post_bind, post_edits, post_bind, post_bind, post_edits, post_edits, post_ret, post_ret. simpl.
    apply (turned_releases Hi Ht) with (a := a); try done.
    + apply local_executing; try done. right. by eexists.
    + intros x Hx. left. by eapply tokens_executing; [| |exact Hx]; [|right; eexists].
    + right. left. rewrite Hp2. by left.
    + assert (HaG : a ∉ HELD t).
      { intros HaG%(l_held _ _ _ Hl). destruct (l_guards _ _ _ Hl a) as [? _]; [|done]. rewrite Hp2. by left. }
      intros b. unfold owns. rewrite Hg. simpl. rewrite Hp2, elem_of_cons. split.
      * intros [Hb|[Hb|?]]; [|split; [auto|]|done].
        -- split; [auto|]. by intros ->.
        -- by intros ->.
      * intros [[?|[[?|?]|?]] ?]; auto; done.
  - by apply post_ret, post_ret, turned_nothing.
Qed.

Lemma cancel_does c : position t = Executing → does (cancel c) s t.
Proof.
  intros Hp. unfold cancel. apply post_bind, post_control. simpl. intros control Hc.
  apply post_bind, post_edits, post_edits. simpl. apply executing_goto; try done.
  by apply (cancelled_insert _ control).
Qed.
End thread.
End turns.

(** ** New identities *)

Section entries.
Context {ths : gmap N Thread}.

(** What a thread has stays in order when identities and tokens are made. *)
Lemma local_grow G G' s s' t :
  G ⊆ accesses s → accesses s ⊆ accesses s' → (NEXT s ≤ NEXT s')%Z →
  G ⊆ G' → (∀ a, a ∈ G' → a ∈ G ∨ a ∉ accesses s) → local_ok G s t → local_ok G' s' t.
Proof.
  intros _ Ha Hn HG Hnew Hl.
  assert (Hx : ∀ a, a ∉ G ∧ a ∈ accesses s → a ∉ G' ∧ a ∈ accesses s').
  { intros a [H1 H2]. split; [|by apply Ha]. intros [?|?]%Hnew; done. }
  destruct Hl. split; try done; try (intros; by auto).
  - intros a token Hw. destruct (l_wants0 _ _ Hw) as (H1 & H2 & H3). split; [|split; [|done]]; by apply Hx.
  - intros token Htok. specialize (l_tokens0 _ Htok). lia.
Qed.

Lemma inv_grow G G' s s' :
  inv s ths G → tables_ok s' G' → held s' = held s → (cancelled s → cancelled s') →
  accesses s ⊆ accesses s' → (NEXT s ≤ NEXT s')%Z →
  G ⊆ G' → (∀ a, a ∈ G' → a ∈ G ∨ a ∉ accesses s) → inv s' ths G'.
Proof.
  intros [Ho Hw] Ht Eh Hc Ha Hn HG Hnew. split.
  - split; [done|..].
    + intros i t Hi. eapply local_grow; [|done..|by eapply (k_local _ _ _ Ho)].
      apply (k_made _ _ (k_tables _ _ _ Ho)).
    + intros a. rewrite Eh. apply (k_held _ _ _ Ho).
    + apply (k_one _ _ _ Ho).
    + apply (k_tokens _ _ _ Ho).
  - intros a i t Hfree Hi Hs. rewrite Eh in Hfree.
    destruct (Hw a i t Hfree Hi Hs) as [?|?]; auto.
Qed.

(** What a lookup that may make an identity leaves. *)
Definition entered (s : Shared) (t : Thread) (n : Notice) (G : gset N) (S : Turn) (G' : gset N) : Prop :=
  self S = t ∧ notice S = n ∧ inv (shared S) ths G' ∧ G ⊆ G' ∧ held (shared S) = held s ∧
  NEXT (shared S) = NEXT s ∧ controls (shared S) = controls s ∧ objects (shared S) = objects s.

Lemma access_entry target s t n G :
  inv s ths G →
  post (entry access set_access target) (mkTurn s t n)
    (λ a S, ∃ G', entered s t n G S G' ∧ a ∈ G').
Proof.
  intros Hi. destruct (k_tables _ _ _ (proj1 Hi)) as [Hm Ha Hmu Hai Hmi].
  unfold entry. apply post_bind, post_reads. simpl.
  destruct (access s !! target) as [a|] eqn:E.
  - apply post_ret. exists G. split; [done|]. by eapply Ha.
  - pose proof (is_fresh (accesses s)) as Hf. apply post_bind, post_edits, post_ret. simpl.
    generalize dependent (fresh (accesses s)). intros a Hf. exists ({[a]} ∪ G). split; [|by apply elem_of_union_l, elem_of_singleton].
    split; [done|]. split; [done|]. split; [|split; [by apply union_subseteq_r|done]].
    apply (inv_grow G _ s); simpl; try done.
    + split; simpl.
      * by apply union_mono_l.
      * intros p b [[_ <-]|[_ Hp]]%lookup_insert_Some; apply elem_of_union;
          [left; by apply elem_of_singleton|right; by eapply Ha].
      * intros p b Hp. destruct (Hmu _ _ Hp) as [H1 H2]. split; [|by apply elem_of_union_r].
        intros [->%elem_of_singleton|?]%elem_of_union; done.
      * assert (Hx : ∀ p, access s !! p ≠ Some a) by (intros p Hp; by apply Hf, Hm, (Ha p)).
        intros p q b [[<- E1]|[? Hp]]%lookup_insert_Some [[<- E2]|[? Hq]]%lookup_insert_Some; subst;
          [done|by destruct (Hx q)|by destruct (Hx p)|by eapply Hai].
      * apply Hmi.
    + by apply union_subseteq_r.
    + by apply union_subseteq_r.
    + intros b [->%elem_of_singleton|?]%elem_of_union; auto.
Qed.

Lemma mutex_entry target s t n G :
  inv s ths G →
  post (entry mutexes set_mutexes target) (mkTurn s t n)
    (λ a S, entered s t n G S G ∧ a ∉ G ∧ a ∈ accesses (shared S)).
Proof.
  intros Hi. destruct (k_tables _ _ _ (proj1 Hi)) as [Hm Ha Hmu Hai Hmi].
  unfold entry. apply post_bind, post_reads. simpl.
  destruct (mutexes s !! target) as [a|] eqn:E.
  - apply post_ret. split; [done|]. by eapply Hmu.
  - pose proof (is_fresh (accesses s)) as Hf. apply post_bind, post_edits, post_ret. simpl.
    generalize dependent (fresh (accesses s)). intros a Hf.
    split; [|split; [by intros ?%Hm|by apply elem_of_union_l, elem_of_singleton]].
    split; [done|]. split; [done|]. split; [|done].
    apply (inv_grow G _ s); simpl; try done.
    + split; simpl; try done.
      * etrans; [exact Hm|]. by apply union_subseteq_r.
      * intros p b [[_ <-]|[_ Hp]]%lookup_insert_Some.
        -- split; [by intros ?%Hm|by apply elem_of_union_l, elem_of_singleton].
        -- destruct (Hmu _ _ Hp). split; [done|]. by apply elem_of_union_r.
      * assert (Hx : ∀ p, mutexes s !! p ≠ Some a) by (intros p Hp; by apply Hf, (Hmu p)).
        intros p q b [[<- E1]|[? Hp]]%lookup_insert_Some [[<- E2]|[? Hq]]%lookup_insert_Some; subst;
          [done|by destruct (Hx q)|by destruct (Hx p)|by eapply Hmi].
    + by apply union_subseteq_r.
    + auto.
Qed.

Lemma identity_post target s t n G :
  inv s ths G →
  post (identity target) (mkTurn s t n) (λ a S, ∃ G', entered s t n G S G' ∧ a ∈ G').
Proof.
  intros Hi. unfold identity. apply post_bind, post_reads. simpl.
  case_bool_decide; [by apply access_entry|done].
Qed.

Lemma identities_post targets s t n G :
  inv s ths G →
  post (identities targets) (mkTurn s t n)
    (λ l S, ∃ G', entered s t n G S G' ∧ ∀ a, a ∈ l → a ∈ G').
Proof.
  revert s G. induction targets as [|target targets IH]; intros s G Hi; simpl.
  { apply post_ret. exists G. split; [done|]. by intros a ?%not_elem_of_nil. }
  apply post_bind. eapply post_mono; [by apply identity_post|].
  intros a [s1 t1 n1] (G1 & (Et & En & Hi1 & HG1 & Eh & Ex & Ec & Eo) & Ha). simpl in *. subst.
  apply post_bind. eapply post_mono; [by apply (IH s1 G1)|].
  intros l [s2 t2 n2] (G2 & (Et & En & Hi2 & HG2 & Eh2 & Ex2 & Ec2 & Eo2) & Hl). simpl in *. subst.
  apply post_ret. exists G2. split.
  - unfold entered. simpl. split_and!; try done; [by etrans|by rewrite Eh2|by rewrite Ex2|by rewrite Ec2|by rewrite Eo2].
  - intros b [->|Hb]%elem_of_cons; auto.
Qed.

(** ** Calls and runs *)

(** A turn that may make identities first. *)
Definition moves (m : St Turn ()) (s : Shared) (t : Thread) : Prop :=
  post m (mkTurn s t Nobody) (λ _ S, ∃ G s1,
    inv s1 ths G ∧ turned G ths s1 t (shared S) (self S) (notice S)).

Context {i : N}.

Lemma does_moves G m s t : inv s ths G → does (G := G) (ths := ths) m s t → moves m s t.
Proof. intros Hi Hd. eapply post_mono; [exact Hd|]. intros [] S Ht. by exists G, s. Qed.

Lemma begin_moves target s t G :
  inv s ths G → ths !! i = Some t → position t = Executing → moves (loom_rt_shared_access_begin target) s t.
Proof.
  intros Hi Ht Hp. unfold loom_rt_shared_access_begin. apply post_bind, post_reads. simpl.
  destruct (attached t); [|apply post_ret; exists G, s; split; [done|by eapply turned_nothing]].
  apply post_bind. eapply post_mono; [by apply identity_post|].
  intros a [s1 t1 n1] (G1 & (Et & En & Hi1 & _) & Ha). simpl in *. subst.
  apply post_edits. simpl. exists G1, s1. split; [done|].
  pose proof (executing_goto Hi1 Ht (Taking [a]) Hp) as H.
  destruct s1. apply (H ltac:(by intros b ->%list_elem_of_singleton) Nobody controls). done.
Qed.

Lemma many_moves targets s t G :
  inv s ths G → ths !! i = Some t → position t = Executing → moves (loom_rt_shared_access_many targets) s t.
Proof.
  intros Hi Ht Hp. unfold loom_rt_shared_access_many. apply post_bind, post_reads. simpl.
  destruct (attached t); [|apply post_ret; exists G, s; split; [done|by eapply turned_nothing]].
  apply post_bind. eapply post_mono; [by apply identities_post|].
  intros l [s1 t1 n1] (G1 & (Et & En & Hi1 & _) & Ha). simpl in *. subst.
  apply post_edits. simpl. exists G1, s1. split; [done|].
  pose proof (executing_goto Hi1 Ht (Taking (merge_sort N.le l)) Hp) as H.
  destruct s1. apply (H ltac:(intros b Hb; apply Ha; by rewrite (merge_sort_Permutation N.le l) in Hb) Nobody controls).
  done.
Qed.

Lemma lock_moves contended key s t G :
  inv s ths G → ths !! i = Some t → position t = Executing → moves (lock_mutex contended key) s t.
Proof.
  intros Hi Ht Hp. unfold lock_mutex. apply post_bind, post_reads, post_bind, post_reads. simpl.
  case_bool_decide; [done|]. apply post_bind. eapply post_mono; [by apply mutex_entry|].
  intros a [s1 t1 n1] ((Et & En & Hi1 & _ & _ & Ex & Ec & _) & Ha & Hmade). simpl in *. subst.
  case_bool_decide as Hnew; [done|]. destruct (i64_max <=? NEXT s)%Z; [done|].
  apply post_bind, post_edits. simpl. rewrite <- Ex.
  set (s2 := mkShared (held s1) (accesses s1) (objects s1) (access s1) (mutexes s1) (NEXT s1 + 1)
    (controls s1)).
  assert (Hi2 : inv s2 ths G).
  { apply (inv_grow G _ s1); simpl; try done; [|lia|auto].
    destruct (k_tables _ _ _ (proj1 Hi1)). by split. }
  assert (Hfresh : ∀ j u, ths !! j = Some u → NEXT s1 ∉ tokens u).
  { intros j u Hu Hin. pose proof (l_tokens _ _ _ (k_local _ _ _ (proj1 Hi1) _ _ Hu) _ Hin). lia. }
  assert (Hok : guard_ok (G := G) (ths := ths) (s := s2) (t := t) a (NEXT s1)).
  { split; simpl; try done; [lia| |by right]. intros Hin. apply (Hfresh i t Ht). by apply guard_token. }
  destruct (executing_facts Hi2 Ht Hp) as (Hg & Hw & Hh & Hs).
  destruct (current t) as [c|].
  - unfold acquire_cancellable. apply post_bind, post_control. simpl. intros control Hc.
    destruct (requested control).
    { apply post_ret. simpl. exists G, s2. split; [done|]. by eapply turned_nothing. }
    apply post_bind, post_try_acquire.
    + apply post_edits. simpl. exists G, s2. split; [done|].
      apply (turned_wanting Hi2 Ht (Registering a (NEXT s1) c) false a (NEXT s1) (controls s1)); try done.
      intros d _ Hd. by destruct (Hh d).
    + intros Hin.
      eapply post_mono; [apply (acquired_does Hi2 Ht a (Then_guard (NEXT s1))); try done; intros b Hb; by destruct (Hh b)|].
      intros [] S HS. by exists G, s2.
  - eapply post_mono; [apply (acquire_does Hi2 Ht contended a (Then_guard (NEXT s1))); try done; intros b Hb; by destruct (Hh b)|].
    intros [] S HS. by exists G, s2.
Qed.

Lemma call_moves contended c s t G :
  inv s ths G → ths !! i = Some t → position t = Executing → moves (call contended c) s t.
Proof.
  intros Hi Ht Hp. destruct c as [target|targets| |key|token|c]; simpl.
  - by eapply begin_moves.
  - by eapply many_moves.
  - by eapply does_moves, end_does.
  - unfold loom_rt_mutex_lock. apply post_bind, post_reads. simpl.
    destruct (current t) as [c|] eqn:E; [|by eapply lock_moves].
    apply post_bind, post_control. simpl. intros control Hc.
    destruct (requested control); [|by eapply lock_moves].
    apply post_ret. exists G, s. split; [done|]. by eapply turned_nothing.
  - by eapply does_moves, unlock_does.
  - by eapply does_moves, cancel_does.
Qed.
End entries.

(** ** The machine *)

Definition machine_ok (m : Machine) : Prop := ∃ G, inv (store m) (threads m) G.

Lemma start_ok m : start m → machine_ok m.
Proof.
  intros (Eh & Ea & Eg & Em & Ec & Hth). exists ∅. split.
  - split.
    + split; rewrite ?Ea, ?Eg, ?Em; try done; intros; by rewrite ?lookup_empty in *.
    + intros i t Ht. destruct (Hth _ _ Ht) as (E1 & E2 & E3 & E4).
      split; unfold taking, wants, tokens, wants; rewrite ?E1, ?E2, ?E3, ?E4; simpl; try done;
        try (by intros ? ?%not_elem_of_nil); constructor.
    + intros a. rewrite Eh. split; [by intros ?%not_elem_of_empty|].
      intros (i & t & Ht & Ho). destruct (Hth _ _ Ht) as (E1 & E2 & E3 & _).
      unfold owns, got in Ho. rewrite E1, E2, E3 in Ho. simpl in Ho.
      destruct Ho as [?%not_elem_of_nil|[?%not_elem_of_nil|?]]; done.
    + intros i j t u a Ht _ Ho. destruct (Hth _ _ Ht) as (E1 & E2 & E3 & _).
      unfold owns, got in Ho. rewrite E1, E2, E3 in Ho. simpl in Ho.
      destruct Ho as [?%not_elem_of_nil|[?%not_elem_of_nil|?]]; done.
    + intros i j t u token Ht _ Ho. destruct (Hth _ _ Ht) as (_ & E2 & E3 & _).
      unfold tokens, wants in Ho. rewrite E2, E3 in Ho. by apply not_elem_of_nil in Ho.
  - intros a i t _ Ht [Hs _]. destruct (Hth _ _ Ht) as (_ & _ & _ & E). congruence.
Qed.

Lemma relocated_inj F locks locks' :
  (∀ p q a, locks !! p = Some a → locks !! q = Some a → p = q) → relocated F locks locks' →
  ∀ p q a, locks' !! p = Some a → locks' !! q = Some a → p = q.
Proof.
  intros Hi Hr p q a (p0 & Hp & Fp)%Hr (q0 & Hq & Fq)%Hr. rewrite (Hi _ _ _ Hp Hq) in Fp. congruence.
Qed.

Lemma locks_step m m' : machine_ok m → step m m' → machine_ok m'.
Proof.
  intros [G Hm]. destruct 1 as [i t c b s s' ths ths' Ht Hp Hc Hn|i t b s s' ths ths' Ht Ha Hc Hn
    |i t c b s ths Ht Hp Hb|i t s ths Ht|c s ths Hc|F os ac mu s ths HF Hac Hmu];
    unfold machine_ok in *; simpl in *.
  - pose proof (call_moves b c _ _ _ Hm Ht Hp) as Hmv. unfold moves, post in Hmv. rewrite Hc in Hmv.
    destruct Hmv as (G1 & s1 & Hi1 & Hturn). exists G1. by eapply locks_turned.
  - assert (position t = Executing ∨ position t ≠ Executing) as [Hp|Hp]
      by (destruct (position t); auto; by right).
    + unfold continue, mbind, St_bind, reads in Hc. simpl in Hc. rewrite Hp in Hc.
      injection Hc as <-. exists G. eapply locks_turned; [exact Hm|exact Ht| |exact Hn].
      by eapply turned_nothing.
    + pose proof (locks_continue Hm Ht b Ha Hp) as Hd. unfold does, post in Hd. rewrite Hc in Hd.
      exists G. by eapply locks_turned.
  - exists G. pose proof (executing_facts Hm Ht Hp) as (Hg & Hw & Hh & Hs).
    pose proof (local_here Hm Ht) as Hl.
    eapply locks_turned; [exact Hm|exact Ht| |apply notified_nobody].
    apply (turned_quiet Hm Ht); try done.
    + destruct Hl. split; try done; simpl; try (by intros ? ?%not_elem_of_nil); try (by rewrite Hs).
      * intros token. unfold tokens, wants. simpl. rewrite app_nil_r. intros Hin.
        apply l_tokens0. by apply guard_token.
      * unfold tokens, wants. simpl. rewrite app_nil_r. by apply (guards_once Hm Ht).
    + intros x. unfold tokens at 1, wants. simpl. rewrite app_nil_r. left. by apply guard_token.
    + intros a. unfold owns. by rewrite Hg.
    + intros a [E _]. simpl in E. congruence.
    + intros a _ Hx. by destruct (Hh a).
  - exists G. eapply locks_turned; [exact Hm|exact Ht| |apply notified_nobody].
    pose proof (local_here Hm Ht) as Hl. apply (turned_quiet Hm Ht); try done.
    + destruct Hl. by split.
    + intros x Hx. by left.
    + by intros a [? _].
    + intros a _ Hx. left. eapply woke_helps; [by right|done].
  - exists G. apply (inv_grow G _ s); simpl; try done; [|..|auto].
    + destruct (k_tables _ _ _ (proj1 Hm)). by split.
    + intros (d & control & Hd & Hr). exists d, control. simpl. rewrite lookup_insert_ne; [done|].
      intros ->. by rewrite Hc in Hd.
  - exists G. apply (inv_grow G _ s); simpl; try done; [|auto].
    destruct (k_tables _ _ _ (proj1 Hm)) as [H1 H2 H3 H4 H5]. split; simpl; [done|..].
    + intros q a (p & Hp & _)%Hac. by eapply H2.
    + intros q a (p & Hp & _)%Hmu. by eapply H3.
    + exact (relocated_inj F _ _ H4 Hac).
    + exact (relocated_inj F _ _ H5 Hmu).
Qed.

Lemma locks_run m m' : machine_ok m → rtc step m m' → machine_ok m'.
Proof. intros Hm. induction 1; eauto using locks_step. Qed.
