(* ===== verification/AccessGuarantees.v ===== *)
(** What access guards and mutexes guarantee, over every interleaving of threads:
    [compiler/runtime/src/shared_access.rs], [mutex.rs] and [worker_control.rs], and what
    cancellation takes from them. *)

From S2P Require Import Prelude Effects SharedAccess AccessRuns.

(** C8: In every interleaving, with collections that relocate the objects, a lock is set exactly
    while a thread owns it, and never two threads do; every object keeps a lock of its own, and
    another one as a mutex. Unlocking with the token of a guard of the thread frees that lock
    and drops that guard; with any other token, stale or of another thread, it does nothing. *)
Theorem locks_exclude m m' :
  start m → rtc step m m' →
  (∀ a, a ∈ held (store m') ↔ ∃ i t, threads m' !! i = Some t ∧ owns t a) ∧
  (∀ i j t u a, threads m' !! i = Some t → threads m' !! j = Some u → owns t a → owns u a → i = j) ∧
  (∀ p q a, access (store m') !! p = Some a →
    (access (store m') !! q = Some a → p = q) ∧ mutexes (store m') !! q ≠ Some a) ∧
  (∀ p q a, mutexes (store m') !! p = Some a → mutexes (store m') !! q = Some a → p = q) ∧
  (∀ i j t u token, threads m' !! i = Some t → threads m' !! j = Some u →
    token ∈ (GUARDS t).*1 → token ∈ (GUARDS u).*1 → i = j) ∧
  ∀ i t token, threads m' !! i = Some t →
    (token ∉ (GUARDS t).*1 →
      loom_rt_mutex_unlock token (mkTurn (store m') t Nobody) = Ok (false, mkTurn (store m') t Nobody)) ∧
    (∀ a, (token, a) ∈ GUARDS t → ∃ S,
      loom_rt_mutex_unlock token (mkTurn (store m') t Nobody) = Ok (true, S) ∧
      held (shared S) = held (store m') ∖ {[a]} ∧ a ∈ held (store m') ∧
      GUARDS t ≡ₚ (token, a) :: GUARDS (self S) ∧ token ∉ (GUARDS (self S)).*1).
Proof.
  intros Hs Hrun. destruct (locks_run _ _ (start_ok _ Hs) Hrun) as [G [[Htab Hl Hh Ho Htok] Hw]].
  destruct Htab as [Hmade Hac Hmu Hai Hmi]. split_and!; try done.
  - intros p q a Hp. split; [intros Hq; by eapply Hai|]. intros Hq. apply (Hmu q a Hq). by eapply Hac.
  - intros i j t u token Hi Hj Ht Hu. apply (Htok i j t u token Hi Hj); by apply guard_token.
  - intros i t token Hi. split.
    + intros Hno. unfold loom_rt_mutex_unlock, mbind, St_bind, reads. simpl.
      destruct (list_find _ _) as [[k [token' a]]|] eqn:Ef; [|done]. exfalso. apply Hno.
      apply list_find_Some in Ef as (Hk & E & _). simpl in E. subst. apply list_elem_of_fmap.
      exists (token, a). split; [done|]. by eapply list_elem_of_lookup_2.
    + intros a Ha. unfold loom_rt_mutex_unlock, mbind, St_bind, reads. simpl.
      destruct (list_find _ _) as [[k [token' a']]|] eqn:Ef.
      2:{ apply list_find_None in Ef. rewrite Forall_forall in Ef. by destruct (Ef _ Ha). }
      apply list_find_Some in Ef as (Hk & E & _). simpl in E. subst.
      pose proof (swap_remove_perm _ _ _ Hk) as Hperm.
      assert (Hnd : NoDup (GUARDS t).*1).
      { pose proof (l_tokens_once _ _ _ (Hl _ _ Hi)) as Hnd. unfold tokens in Hnd.
        by apply NoDup_app in Hnd as [? _]. }
      rewrite (fmap_Permutation fst _ _ Hperm) in Hnd. apply NoDup_cons in Hnd as [Hn _].
      assert (a' = a) as ->.
      { rewrite Hperm in Ha. apply elem_of_cons in Ha as [[= ->]|Ha]; [done|]. destruct Hn.
        apply list_elem_of_fmap. by exists (token, a). }
      eexists. split; [done|]. simpl. split_and!; try done.
      apply Hh. exists i, t. split; [done|]. right. left. apply list_elem_of_fmap.
      by exists (token, a).
Qed.

(** C9: As long as no worker is cancelled, no wake-up of a lock is lost: whenever a lock is free
    and a thread sleeps on it, another thread is awake in the loop of that lock or about to
    notify it. *)
Theorem wake_ups_are_kept m m' a i t :
  start m → rtc step m m' → a ∉ held (store m') → threads m' !! i = Some t → sleeps_on t a →
  (∀ c control, controls (store m') !! c = Some control → requested control = false) →
  ∃ j u, threads m' !! j = Some u ∧ helps u a.
Proof.
  intros Hs Hrun Ha Hi Hsl Hc. destruct (locks_run _ _ (start_ok _ Hs) Hrun) as [G [_ Hw]].
  destruct (Hw a i t Ha Hi Hsl) as [(c & control & Hcc & Hr)|?]; [|done].
  by rewrite (Hc c control Hcc) in Hr.
Qed.

(** ** Runs *)

(** A turn: its thread, the call or the continuation of one, and the thread that [notify_one]
    picks; no other thread is at the mutex of a lock that it tries. *)
Definition Move : Type := N * option Call * option N.

Definition picked (n : Notice) (w : option N) (ths : gmap N Thread) : option (gmap N Thread) :=
  match n, w with
  | Nobody, None => Some ths
  | One a, Some j =>
      t ← ths !! j;
      if asleep t && bool_decide (waits_for t = Some a) then Some (<[j := wake t]> ths) else None
  | _, _ => None
  end.

Definition play_move (m : Machine) (v : Move) : option Machine :=
  t ← threads m !! v.1.1;
  match v.1.2 with
  | Some c =>
      if bool_decide (waits_for t = None ∧ got t = None ∧ wants t = None ∧ taking t = []) then
        match position t, call false c (mkTurn (store m) t Nobody) with
        | Executing, Ok (_, s) =>
            mkMachine (shared s) <$> picked (notice s) v.2 (<[v.1.1 := self s]> (threads m))
        | _, _ => None
        end
      else None
  | None =>
      if asleep t then None
      else match continue false (mkTurn (store m) t Nobody) with
           | Ok (_, s) =>
               mkMachine (shared s) <$> picked (notice s) v.2 (<[v.1.1 := self s]> (threads m))
           | _ => None
           end
  end.

Fixpoint play (l : list Move) (m : Machine) : option Machine :=
  match l with
  | [] => Some m
  | v :: l => m ← play_move m v; play l m
  end.

Lemma picked_notified n w ths ths' : picked n w ths = Some ths' → notified n ths ths'.
Proof.
  destruct n as [|a|a], w as [j|]; simpl; try done; [intros [= <-]; constructor|].
  destruct (ths !! j) as [t|] eqn:Hj; [|done]. simpl.
  destruct (asleep t) eqn:Ha; [|done]. case_bool_decide as Hw; [|done]. intros [= <-].
  by constructor.
Qed.

Lemma play_move_step m v m' : play_move m v = Some m' → step m m'.
Proof.
  destruct m as [s ths], v as [[i c] w]. unfold play_move. simpl.
  destruct (ths !! i) as [t|] eqn:Ht; [|done]. simpl. destruct c as [c|].
  - case_bool_decide; [|done]. destruct (position t) eqn:Hp; try done.
    destruct (call false c _) as [[[] s']| | |] eqn:Ec; try done.
    destruct (picked _ _ _) as [ths'|] eqn:Ep; [|done]. intros [= <-].
    eapply step_call; [done|done|done|]. by eapply picked_notified.
  - destruct (asleep t) eqn:Ha; [done|]. destruct (continue false _) as [[[] s']| | |] eqn:Ec; try done.
    destruct (picked _ _ _) as [ths'|] eqn:Ep; [|done]. intros [= <-].
    eapply step_continue; [done|done|done|]. by eapply picked_notified.
Qed.

Lemma play_moves l m m' : play l m = Some m' → rtc step m m'.
Proof.
  revert m. induction l as [|v l IH]; intros m; simpl; [intros [= <-]; apply rtc_refl|].
  destruct (play_move m v) as [m1|] eqn:E; [|done]. intros Hp.
  apply (rtc_l _ _ m1); [by eapply play_move_step|by apply IH].
Qed.

(** Four threads: an owner of a mutex, a worker with a control, another one without, and the
    thread that will cancel the worker. *)
Definition idle (c : option N) : Thread := mkThread [] [] c true Executing false.

Definition four : gmap N Thread :=
  <[0 := idle None]> (<[1 := idle (Some 7)]> (<[2 := idle None]> (<[3 := idle None]> ∅))).

Definition key : N := 4096.

Definition before : Machine := mkMachine (mkShared ∅ ∅ {[ key ]} ∅ ∅ 1 ∅) four.
Definition ready : Machine :=
  mkMachine (mkShared ∅ ∅ {[ key ]} ∅ ∅ 1 {[ 7 := SharedAccess.mkControl false None ]}) four.

(** The owner locks; the worker and the other one wait; the owner unlocks. *)
Definition contend : list Move :=
  [(0, Some (Mutex_lock key), None); (1, Some (Mutex_lock key), None); (1, None, None);
   (1, None, None); (2, Some (Mutex_lock key), None); (2, None, None);
   (0, Some (Mutex_unlock 1), None)].

(** The canceller has set the flag; the notification goes to the worker, which gives up and
    withdraws from the lock, and then the canceller finds nobody to wake. *)
Definition lose : list Move :=
  [(3, Some (Cancel 7), None); (0, None, Some 1); (1, None, None); (1, None, None);
   (3, None, None)].

Definition contended : Machine := default ready (play contend ready).
Definition lost : Machine := default ready (play (contend ++ lose) ready).

Definition places (m : Machine) : list (N * Position * bool) :=
  map (λ p, (p.1, position p.2, asleep p.2)) (map_to_list (threads m)).

Lemma before_start : start before.
Proof.
  split_and!; try done. intros i t. simpl. unfold four. rewrite !lookup_insert_Some, lookup_empty.
  intros H. assert (∃ c, t = idle c) as [c ->] by naive_solver. done.
Qed.

Lemma ready_step : step before ready.
Proof. by apply (step_control 7 (store before) four). Qed.

Lemma contended_run : rtc step before contended.
Proof. apply (rtc_l _ _ ready); [exact ready_step|]. apply (play_moves contend). by vm_compute. Qed.

Lemma lost_run : rtc step before lost.
Proof.
  apply (rtc_l _ _ ready); [exact ready_step|]. apply (play_moves (contend ++ lose)). by vm_compute.
Qed.

(** C10: A cancelled worker can take a wake-up with it. [acquire_cancellable] gives up without
    passing on the notification that woke it, and when it has withdrawn from the lock before
    [cancel] looks there, [cancel] wakes nobody: a run from a start ends with a mutex that is
    free, a thread that sleeps on it, and every other thread back in its own code. *)
Theorem cancellation_loses_a_wake_up :
  ∃ m m' a i t, start m ∧ rtc step m m' ∧ a ∉ held (store m') ∧
    threads m' !! i = Some t ∧ sleeps_on t a ∧
    ∀ j u, threads m' !! j = Some u → j ≠ i → position u = Executing ∧ ¬ helps u a ∧ ¬ owns u a.
Proof.
  exists before, lost, 0, 2. eexists. split; [exact before_start|]. split; [exact lost_run|].
  split; [apply (bool_decide_unpack _); by vm_compute|]. split; [by vm_compute|]. split; [done|].
  intros j u Hj Hne.
  assert (Hall : Forall (λ p, p.1 = 2 ∨ (position p.2 = Executing ∧ HELD p.2 = [] ∧ GUARDS p.2 = []))
    (map_to_list (threads lost))).
  { vm_compute. repeat (apply Forall_cons; split); auto. }
  revert Hj Hall. generalize (threads lost). intros ths Hj Hall. rewrite Forall_forall in Hall.
  apply elem_of_map_to_list, Hall in Hj as [E|(Hp & Hh & Hg)]; simpl in *; [done|]. split; [done|]. unfold helps, owns, got, waits_for. rewrite Hp, Hh, Hg. simpl. split.
  - by intros [[_ ?]|?].
  - intros [?%not_elem_of_nil|[?%not_elem_of_nil|?]]; done.
Qed.

(** ** Instances *)

Lemma locks_exclude_witness :
  start before ∧ rtc step before contended ∧
  ∀ a, a ∈ held (store contended) ↔ ∃ i t, threads contended !! i = Some t ∧ owns t a.
Proof.
  split; [exact before_start|]. split; [exact contended_run|].
  exact (proj1 (locks_exclude before contended before_start contended_run)).
Defined.

Lemma wake_ups_are_kept_witness :
  ∃ t, threads contended !! 2 = Some t ∧ sleeps_on t 0 ∧
  ∃ j u, threads contended !! j = Some u ∧ helps u 0.
Proof.
  eexists. split; [by vm_compute|]. split; [done|].
  refine (wake_ups_are_kept before contended 0 2 _ before_start contended_run _ _ _ _).
  - apply (bool_decide_unpack _). by vm_compute.
  - by vm_compute.
  - done.
  - intros c control Hc. assert (Hall : map_Forall (λ _ x, requested x = false) (controls (store contended))).
    { apply (bool_decide_unpack _). by vm_compute. }
    exact (Hall c control Hc).
Defined.
