(* ===== verification/Cleanup.v ===== *)
(** Faults, cancellation and lexical cleanup: [compiler/runtime/src/cleanup.rs], with the
    activations of [worker_control.rs]. Generated code is a script of the runtime operations
    that it calls; unwinding, which leaves every activation up to a catcher, is a way to
    complete. *)

From S2P Require Import Prelude Effects.

(** [Fault] and [OwnedFault]: a diagnostic, and the test that it happened in. *)
Record OwnedFault := mkFault { message : list byte; test_name : option (list byte) }.

Inductive Failure := Fault (fault : OwnedFault) | Cancelled.

(** An address on the native stack: an activation of generated code and a slot of it. *)
Abbreviation Address := (N * N)%type (only parsing).

(** ** Generated code *)

(** What a function, a callback or a closure of generated code does with the runtime, to the
    end of its activation. [Emit] is anything else that can be observed; [Interrupt] is the
    point at which another thread requests the cancellation of the worker. A [Catch] stands for
    [catch_fault_before_drain], or [catch_fault] without a hook, and what follows it. *)
Inductive Code :=
  | Return
  | Emit (n : N) (next : Code)
  | Call (callee next : Code)
  | Cleanup_push (record : N) (callback next : Code)
  | Cleanup_pop (record : N) (next : Code)
  | Roots_enter (frame : N) (next : Code)
  | Roots_leave (frame : N) (next : Code)
  | Access_begin (a : N) (next : Code)
  | Access_end (next : Code)
  | Test_enter (name : list byte) (next : Code)
  | Test_leave (next : Code)
  | Worker_checkpoint (next : Code)
  | Interrupt (next : Code)
  | Raise (message : list byte)
  | Raise_owned (failure : OwnedFault)
  | Catch (hook : option Code) (body done : Code) (failed : OwnedFault → Code)
  | Cleanup_each (count steps : Z) (callback : Z → Z → Code) (next : Code).

(** ** State *)

Inductive Event := Emitted (n : N) | Released (a : N).

(** What generated code and other threads share with the runtime: [requested] of the worker's
    control, the storage guards of the thread, the name of the test, and the past. *)
Record World := mkWorld {
  requested : bool;
  HELD : list N;
  TEST_NAME : option (list byte);
  events : list Event;
}.

Record Cleanup := mkCleanup { record : Address; callback : Code }.

(** [cleanup] and [roots] are the heads of their chains when the boundary was made. *)
Record Boundary := mkBoundary {
  cleanup : option Address;
  roots : list Address;
  first : option OwnedFault;
  cancelled : bool;
  before_drain : option Code;
}.

(** The thread: the chains through its stack are lists, their heads first. [CURRENT] says
    whether it runs a worker, [started] whether the worker's control has been used, and
    [collecting] is the flag of the heap. *)
Record State := mkState {
  world : World;
  HEAD : list Cleanup;
  FIRST_FAULT : option OwnedFault;
  BOUNDARY : list Boundary;
  ROOTS : list Address;
  CURRENT : bool;
  MASKED : bool;
  started : bool;
  collecting : bool;
  activations : N;
}.

(** How generated code leaves a call: it returns, it unwinds to the innermost boundary, or the
    process ends with a report on its standard error. *)
Inductive Completion := Returned | Unwinding | Exited (report : list byte).

Definition fatal {A} (message : string) : St State A := λ _, Panic message.

Definition set_requested (w : World) : World := mkWorld true (HELD w) (TEST_NAME w) (events w).
Definition set_HELD (l : list N) (w : World) : World :=
  mkWorld (requested w) l (TEST_NAME w) (events w).
Definition set_TEST_NAME (name : option (list byte)) (w : World) : World :=
  mkWorld (requested w) (HELD w) name (events w).
Definition log (e : Event) (w : World) : World :=
  mkWorld (requested w) (HELD w) (TEST_NAME w) (events w ++ [e]).

Definition on_world (f : World → World) (s : State) : State :=
  mkState (f (world s)) (HEAD s) (FIRST_FAULT s) (BOUNDARY s) (ROOTS s) (CURRENT s) (MASKED s)
    (started s) (collecting s) (activations s).
Definition set_HEAD (l : list Cleanup) (s : State) : State :=
  mkState (world s) l (FIRST_FAULT s) (BOUNDARY s) (ROOTS s) (CURRENT s) (MASKED s)
    (started s) (collecting s) (activations s).
Definition set_FIRST_FAULT (f : option OwnedFault) (s : State) : State :=
  mkState (world s) (HEAD s) f (BOUNDARY s) (ROOTS s) (CURRENT s) (MASKED s)
    (started s) (collecting s) (activations s).
Definition set_BOUNDARY (l : list Boundary) (s : State) : State :=
  mkState (world s) (HEAD s) (FIRST_FAULT s) l (ROOTS s) (CURRENT s) (MASKED s)
    (started s) (collecting s) (activations s).
Definition set_ROOTS (l : list Address) (s : State) : State :=
  mkState (world s) (HEAD s) (FIRST_FAULT s) (BOUNDARY s) l (CURRENT s) (MASKED s)
    (started s) (collecting s) (activations s).
Definition set_CURRENT (b : bool) (s : State) : State :=
  mkState (world s) (HEAD s) (FIRST_FAULT s) (BOUNDARY s) (ROOTS s) b (MASKED s)
    (started s) (collecting s) (activations s).
Definition set_MASKED (b : bool) (s : State) : State :=
  mkState (world s) (HEAD s) (FIRST_FAULT s) (BOUNDARY s) (ROOTS s) (CURRENT s) b
    (started s) (collecting s) (activations s).
Definition set_started (s : State) : State :=
  mkState (world s) (HEAD s) (FIRST_FAULT s) (BOUNDARY s) (ROOTS s) (CURRENT s) (MASKED s)
    true (collecting s) (activations s).

(** A new activation on the stack. *)
Definition activate : St State N := λ s,
  Ok (activations s, mkState (world s) (HEAD s) (FIRST_FAULT s) (BOUNDARY s) (ROOTS s)
    (CURRENT s) (MASKED s) (started s) (collecting s) (activations s + 1)).

(** The head of a chain, as an address or null. *)
Definition head_record (l : list Cleanup) : option Address := record <$> head l.

(** The code that follows a call runs if the call returns. *)
Definition and_then (m k : St State Completion) : St State Completion :=
  r ← m; match r with Returned => k | _ => mret r end.
Notation "m ⊳ k" := (and_then m k) (at level 60, right associativity) : loom_scope.

(** ** Storage guards: [shared_access.rs] *)

Definition shared_access_end (w : World) : outcome World :=
  match last (HELD w) with
  | None => Panic "unbalanced storage access"
  | Some a =>
      let l := removelast (HELD w) in
      Ok (if bool_decide (a ∈ l) then set_HELD l w else log (Released a) (set_HELD l w))
  end.

Fixpoint release_guards (n : nat) (w : World) : World :=
  match n with
  | O => w
  | S n => match shared_access_end w with Ok w => release_guards n w | _ => w end
  end.

Definition release_all (w : World) : World := release_guards (length (HELD w)) w.

(** ** Masks: [worker_control.rs] *)

(** [mask] and the drop of the mask, also by unwinding. *)
Definition mask (m : St State Completion) : St State Completion :=
  previous ← reads MASKED;
  edits (set_MASKED true) ;;
  r ← m;
  edits (set_MASKED previous) ;;
  mret r.

(** ** Registrations *)

Definition loom_rt_cleanup_push (a : Address) (f : Code) : St State () :=
  edits (λ s, set_HEAD (mkCleanup a f :: HEAD s) s).

Fixpoint unlink (a : Address) (l : list Cleanup) : option (list Cleanup) :=
  match l with
  | [] => None
  | c :: l => if bool_decide (record c = a) then Some l else cons c <$> unlink a l
  end.

Definition loom_rt_cleanup_pop (a : Address) : St State () :=
  l ← reads HEAD;
  match unlink a l with
  | Some l => edits (set_HEAD l)
  | None => fatal "invalid cleanup registration order"
  end.

Definition loom_rt_roots_leave (a : Address) : St State () :=
  l ← reads ROOTS;
  match l with
  | top :: l => if bool_decide (top = a) then edits (set_ROOTS l) else fatal "invalid GC root frame order"
  | [] => fatal "invalid GC root frame order"
  end.

(** ** Diagnostics *)

Definition line (parts : list (list byte)) : list byte := concat parts ++ ["010"%byte].

(** The end of [fault] when nothing catches it. *)
Definition diagnostic (f : OwnedFault) : list byte :=
  match test_name f with
  | Some name => line [String.list_byte_of_string "FAIL "; name]
  | None => []
  end ++ line [String.list_byte_of_string "RuntimeFault: "; message f].

(** ** Faults *)

Section generated.
(** A call of generated code; loops through callbacks have fuel. *)
Context (call : Code → St State Completion).

Fixpoint drain_to (fuel : nat) (boundary : option Address) : St State Completion :=
  match fuel with
  | O => stuck
  | S fuel =>
      l ← reads HEAD;
      if bool_decide (head_record l = boundary) then mret Returned
      else
        match l with
        | [] => fatal "missing cleanup boundary"
        | c :: l => edits (set_HEAD l) ;; call (callback c) ⊳ drain_to fuel boundary
        end
  end.

(** The boundary that [BOUNDARY] points at, and changes to it. *)
Definition boundary : St State (option Boundary) := reads (λ s, head (BOUNDARY s)).
Definition on_boundary (f : Boundary → Boundary) : St State () :=
  edits (λ s, set_BOUNDARY (match BOUNDARY s with b :: l => f b :: l | [] => [] end) s).

Definition take_hook (b : Boundary) : Boundary :=
  mkBoundary (cleanup b) (roots b) (first b) (cancelled b) None.
Definition set_cancelled (b : Boundary) : Boundary :=
  mkBoundary (cleanup b) (roots b) (first b) true (before_drain b).
Definition record_fault (f : OwnedFault) (b : Boundary) : Boundary :=
  mkBoundary (cleanup b) (roots b) (Some (default f (first b))) (cancelled b) (before_drain b).

Definition unwind_boundary (fuel : nat) (b : Boundary) : St State Completion :=
  match before_drain b with
  | Some hook => on_boundary take_hook ;; call hook
  | None => mret Returned
  end ⊳
  drain_to fuel (cleanup b) ⊳
  (tracing ← reads collecting;
   if (tracing : bool) then fatal "runtime fault during GC tracing"
   else edits (set_ROOTS (roots b)) ;; mret Unwinding).

Definition cancel (fuel : nat) : St State Completion :=
  mask (
    edits (on_world release_all) ;;
    b ← boundary;
    match b with
    | None => fatal "worker cancellation without a boundary"
    | Some b => on_boundary set_cancelled ;; unwind_boundary fuel (set_cancelled b)
    end).

Definition fault (fuel : nat) (message : list byte) : St State Completion :=
  mask (
    edits (on_world release_all) ;;
    b ← boundary;
    name ← reads (λ s, TEST_NAME (world s));
    let failure := mkFault message name in
    match b with
    | Some b => on_boundary (record_fault failure) ;; unwind_boundary fuel (record_fault failure b)
    | None =>
        edits (λ s, set_FIRST_FAULT (Some (default failure (FIRST_FAULT s))) s) ;;
        first ← reads FIRST_FAULT;
        drain_to fuel None ⊳ mret (Exited (diagnostic (default failure first)))
    end).

Definition raise_owned (fuel : nat) (failure : OwnedFault) : St State Completion :=
  edits (on_world (set_TEST_NAME (test_name failure))) ;;
  fault fuel (message failure).

(** [checkpoint], of a worker that is not masked. *)
Definition checkpoint (fuel : nat) : St State Completion :=
  s ← reads id;
  if CURRENT s && negb (MASKED s) && requested (world s) then cancel fuel else mret Returned.

(** ** Boundaries *)

Inductive Caught := Finished | Failed (f : Failure) | Ended (report : list byte).

(** What follows [catch_unwind]: [s] is the thread as it was before. *)
Definition leave_boundary (s : State) (unwound : bool) : St State Caught :=
  b ← boundary;
  match b with
  | None => fatal "no boundary"
  | Some b =>
      edits (λ s', set_BOUNDARY (tail (BOUNDARY s')) s') ;;
      edits (on_world (set_TEST_NAME (TEST_NAME (world s)))) ;;
      edits (set_FIRST_FAULT (FIRST_FAULT s)) ;;
      s' ← reads id;
      let failed := match first b with Some _ => true | None => cancelled b end in
      if unwound && negb failed then fatal "unexpected Rust panic at fault boundary"
      else if bool_decide (head_record (HEAD s') ≠ cleanup b)
              || bool_decide (head (ROOTS s') ≠ head (roots b))
      then fatal "unbalanced fault boundary registrations"
      else if unwound
      then mret (Failed (match first b with Some f => Fault f | None => Cancelled end))
      else if failed then fatal "fault escaped its resume boundary"
      else mret Finished
  end.

(** [body] may have captured variables that it changes before it unwinds: an [A]. *)
Definition catch_fault_inner {A} (body : St State (Completion * A)) (hook : option Code)
    : St State (Caught * A) :=
  s ← reads id;
  if collecting s then fatal "fault boundary during GC tracing"
  else
    edits (set_FIRST_FAULT None) ;;
    edits (set_BOUNDARY (mkBoundary (head_record (HEAD s)) (ROOTS s) None false hook :: BOUNDARY s)) ;;
    '(r, a) ← body;
    match r with
    | Exited report => mret (Ended report, a)
    | Returned => outcome ← leave_boundary s false; mret (outcome, a)
    | Unwinding => outcome ← leave_boundary s true; mret (outcome, a)
    end.

(** ** The cleanup of collections *)

(** The inner loop, over counters that it shares with the outer one. *)
Fixpoint each_calls (rounds : nat) (steps : Z) (callback : Z → Z → Code) (element step : Z)
    : St State (Completion * (Z * Z)) :=
  match rounds with
  | O => stuck
  | S rounds =>
      if (0 <? element)%Z || (0 <? step)%Z then
        let element := if (step =? 0)%Z then (element - 1)%Z else element in
        let step := ((if step =? 0 then steps else step) - 1)%Z in
        r ← call (callback element step);
        match r with
        | Returned => each_calls rounds steps callback element step
        | _ => mret (r, (element, step))
        end
      else mret (Returned, (element, step))
  end.

(** The number of steps that remain: the loops run one round more at most. *)
Definition remaining (steps element step : Z) : nat := Z.to_nat (element * steps + step).

(** Every round but the last makes a step. *)
Fixpoint each_rounds (fuel rounds : nat) (steps : Z) (callback : Z → Z → Code) (element step : Z)
    (first : option OwnedFault) : St State Completion :=
  match rounds with
  | O => stuck
  | S rounds =>
      if (0 <? element)%Z || (0 <? step)%Z then
        '(outcome, (element, step)) ←
          catch_fault_inner
            (each_calls (S (remaining steps element step)) steps callback element step) None;
        match outcome with
        | Finished => each_rounds fuel rounds steps callback element step first
        | Failed (Fault f) =>
            each_rounds fuel rounds steps callback element step (Some (default f first))
        | Failed Cancelled => cancel fuel
        | Ended report => mret (Exited report)
        end
      else
        match first with
        | Some failure => raise_owned fuel failure
        | None => mret Returned
        end
  end.

Definition loom_rt_cleanup_each (fuel : nat) (count steps : Z) (callback : Z → Z → Code)
    : St State Completion :=
  if (count <? 0)%Z || (steps <=? 0)%Z then fatal "invalid collection cleanup bounds"
  else each_rounds fuel (S (remaining steps count 0)) steps callback count 0 None.

(** A closure over generated code, which captures nothing that it changes. *)
Definition closure (m : St State Completion) : St State (Completion * ()) := r ← m; mret (r, tt).
End generated.

(** ** Execution *)

(** The code of the activation [frame], from here to its end. *)
Fixpoint exec (fuel : nat) (frame : N) (code : Code) : St State Completion :=
  match fuel with
  | O => stuck
  | S fuel =>
      let call c := f ← activate; exec fuel f c in
      match code with
      | Return => mret Returned
      | Emit n k => edits (on_world (log (Emitted n))) ;; exec fuel frame k
      | Call c k => call c ⊳ exec fuel frame k
      | Cleanup_push r f k => loom_rt_cleanup_push (frame, r) f ;; exec fuel frame k
      | Cleanup_pop r k => loom_rt_cleanup_pop (frame, r) ;; exec fuel frame k
      | Roots_enter r k => edits (λ s, set_ROOTS ((frame, r) :: ROOTS s) s) ;; exec fuel frame k
      | Roots_leave r k => loom_rt_roots_leave (frame, r) ;; exec fuel frame k
      | Access_begin a k => edits (on_world (λ w, set_HELD (HELD w ++ [a]) w)) ;; exec fuel frame k
      | Access_end k =>
          w ← reads world;
          w ← lift (shared_access_end w);
          edits (on_world (λ _, w)) ;; exec fuel frame k
      | Test_enter name k => edits (on_world (set_TEST_NAME (Some name))) ;; exec fuel frame k
      | Test_leave k => edits (on_world (set_TEST_NAME None)) ;; exec fuel frame k
      | Worker_checkpoint k => checkpoint call fuel ⊳ exec fuel frame k
      | Interrupt k => edits (on_world set_requested) ;; exec fuel frame k
      | Raise m => fault call fuel m
      | Raise_owned f => raise_owned call fuel f
      | Catch hook body done failed =>
          '(outcome, _) ← catch_fault_inner (closure (call body)) hook;
          match outcome with
          | Finished => exec fuel frame done
          | Failed (Fault f) => exec fuel frame (failed f)
          | Failed Cancelled => cancel call fuel
          | Ended report => mret (Exited report)
          end
      | Cleanup_each count steps f k =>
          loom_rt_cleanup_each call fuel count steps f ⊳ exec fuel frame k
      end
  end.

Definition call (fuel : nat) (code : Code) : St State Completion :=
  f ← activate; exec fuel f code.

(** ** Threads *)

(** Activation 0 is that of the caller, which is not generated code. *)
Definition thread (w : World) : State := mkState w [] None [] [] false false false false 1.

(** [Control::run] *)
Definition run (fuel : nat) (code : Code) : St State Caught :=
  s ← reads id;
  if started s || CURRENT s then fatal "worker control requires one unnested activation"
  else
    edits set_started ;;
    edits (set_CURRENT true) ;;
    '(outcome, _) ← catch_fault_inner (closure (checkpoint (call fuel) fuel ⊳ call fuel code)) None;
    edits (set_CURRENT false) ;;
    mret outcome.
