(* ===== verification/Structured.v ===== *)
(** What faults, cancellation and cleanup mean, apart from how [Cleanup] does it: an activation
    owns the cleanups that it has registered and not yet popped, and when it completes
    abruptly they run, the last one first, before its caller goes on. There are no chains, no
    boundaries and no fuel. *)

From S2P Require Import Prelude Effects Cleanup.

Inductive Flow := Ends | Throws (f : Failure).

Definition Meaning : Type := World → World * Flow.

(** A fault replaces a cancellation; otherwise the first failure stays. *)
Definition combine (f g : Failure) : Failure := match f with Cancelled => g | Fault _ => f end.

Definition combined (f : Failure) (r : Flow) : Failure :=
  match r with Ends => f | Throws g => combine f g end.

(** The guards are released and the hook of the boundary runs first. *)
Definition throw (hook : option Meaning) (f : Failure) (w : World) : World * Failure :=
  match hook with
  | None => (release_all w, f)
  | Some h => let '(w, r) := h (release_all w) in (w, combined f r)
  end.

Fixpoint finalize (own : list (N * Meaning)) (f : Failure) (w : World) : World * Flow :=
  match own with
  | [] => (w, Throws f)
  | (_, m) :: own => let '(w, r) := m w in finalize own (combined f r) w
  end.

Definition fail (hook : option Meaning) (own : list (N * Meaning)) (f : Failure) : Meaning := λ w,
  let '(w, f) := throw hook f w in finalize own f w.

Fixpoint unregister {A} (r : N) (own : list (N * A)) : list (N * A) :=
  match own with
  | [] => []
  | x :: own => if bool_decide (x.1 = r) then own else x :: unregister r own
  end.

Definition guards_end (w : World) : World :=
  match shared_access_end w with Ok w => w | _ => w end.

(** The elements and the steps of a collection, from the last to the first. *)
Definition pairs (count steps : Z) : list (Z * Z) :=
  e ← reverse (seqZ 0 count); s ← reverse (seqZ 0 steps); mret (e, s).

(** Every callback runs, whatever faults; the first fault comes out at the end. *)
Section each.
Context (run : Z → Z → Meaning) (restore : World → World).
Context (finish : option OwnedFault → Meaning) (abandon : Meaning).

Fixpoint each (l : list (Z * Z)) (first : option OwnedFault) (w : World) : World * Flow :=
  match l with
  | [] => finish first (restore w)
  | (element, step) :: l =>
      match run element step w with
      | (w, Ends) => each l first w
      | (w, Throws (Fault f)) => each l (Some (default f first)) (restore w)
      | (w, Throws Cancelled) => abandon (restore w)
      end
  end.
End each.

Section structured.
Context (worker : bool).

Fixpoint structured (code : Code) (masked : bool) (hook : option Meaning)
    (own : list (N * Meaning)) (w : World) : World * Flow :=
  match code with
  | Return => (w, Ends)
  | Emit n k => structured k masked hook own (log (Emitted n) w)
  | Call c k =>
      match structured c masked hook [] w with
      | (w, Ends) => structured k masked hook own w
      | (w, Throws f) => finalize own f w
      end
  | Cleanup_push r f k => structured k masked hook ((r, structured f true None []) :: own) w
  | Cleanup_pop r k => structured k masked hook (unregister r own) w
  | Roots_enter _ k | Roots_leave _ k => structured k masked hook own w
  | Access_begin a k => structured k masked hook own (set_HELD (HELD w ++ [a]) w)
  | Access_end k => structured k masked hook own (guards_end w)
  | Test_enter name k => structured k masked hook own (set_TEST_NAME (Some name) w)
  | Test_leave k => structured k masked hook own (set_TEST_NAME None w)
  | Worker_checkpoint k =>
      if worker && negb masked && requested w then fail hook own Cancelled w
      else structured k masked hook own w
  | Interrupt k => structured k masked hook own (set_requested w)
  | Raise m => fail hook own (Fault (mkFault m (TEST_NAME w))) w
  | Raise_owned f => fail hook own (Fault f) (set_TEST_NAME (test_name f) w)
  | Catch h body done failed =>
      let h := match h with Some h => Some (structured h true None []) | None => None end in
      let '(w', r) := structured body masked h [] w in
      let w' := set_TEST_NAME (TEST_NAME w) w' in
      match r with
      | Ends => structured done masked hook own w'
      | Throws (Fault f) => structured (failed f) masked hook own w'
      | Throws Cancelled => fail hook own Cancelled w'
      end
  | Cleanup_each count steps f k =>
      each (λ e s, structured (f e s) masked None []) (set_TEST_NAME (TEST_NAME w))
        (λ first, match first with
           | None => structured k masked hook own
           | Some g => λ w, fail hook own (Fault g) (set_TEST_NAME (test_name g) w)
           end)
        (fail hook own Cancelled) (pairs count steps) None w
  end.
End structured.

(** Generated code that keeps the contract: an activation pops what it has registered, it
    ends with nothing left, registers no record twice at a time, and calls nothing while it
    holds a storage guard. *)
Fixpoint balanced (own frames : list N) (guards : nat) (code : Code) : Prop :=
  match code with
  | Return => own = [] ∧ frames = [] ∧ guards = O
  | Emit _ k | Interrupt k | Test_enter _ k | Test_leave k => balanced own frames guards k
  | Call c k => guards = O ∧ balanced [] [] 0 c ∧ balanced own frames 0 k
  | Cleanup_push r f k => r ∉ own ∧ balanced [] [] 0 f ∧ balanced (r :: own) frames guards k
  | Cleanup_pop r k => r ∈ own ∧ balanced (filter (.≠ r) own) frames guards k
  | Roots_enter r k => balanced own (r :: frames) guards k
  | Roots_leave r k =>
      match frames with f :: frames => f = r ∧ balanced own frames guards k | [] => False end
  | Access_begin _ k => balanced own frames (S guards) k
  | Access_end k => match guards with S guards => balanced own frames guards k | O => False end
  | Worker_checkpoint k => guards = O ∧ balanced own frames 0 k
  | Raise _ | Raise_owned _ => True
  | Catch hook body done failed =>
      guards = O ∧
      match hook with Some h => balanced [] [] 0 h | None => True end ∧
      balanced [] [] 0 body ∧ balanced own frames 0 done ∧ ∀ f, balanced own frames 0 (failed f)
  | Cleanup_each count steps f k =>
      guards = O ∧ (0 ≤ count)%Z ∧ (0 < steps)%Z ∧ (∀ e s, balanced [] [] 0 (f e s)) ∧
      balanced own frames 0 k
  end.

(** ** Threads *)

(** A program, whose faults end the process. *)
Definition program_meaning (code : Code) (w : World) : World * Completion :=
  match structured false code false None [] w with
  | (w, Throws (Fault f)) => (w, Exited (diagnostic f))
  | (w, _) => (w, Returned)
  end.

(** A call under a boundary, in code that is masked or not. *)
Definition boundary_meaning (worker masked : bool) (hook : option Code) (body : Code) (w : World)
    : World * Caught :=
  let h := match hook with Some h => Some (structured worker h true None []) | None => None end in
  let '(w', r) := structured worker body masked h [] w in
  (set_TEST_NAME (TEST_NAME w) w', match r with Ends => Finished | Throws f => Failed f end).

(** A worker, which a request before its start keeps from starting. *)
Definition worker_meaning : Code → World → World * Caught := λ code,
  boundary_meaning true false None (Worker_checkpoint (Call code Return)).
