(* ===== verification/CleanupFacts.v ===== *)
(** Faults, cancellation and cleanup do what [Structured] says: the simulation of its meaning
    by the chains and boundaries of [Cleanup]. *)

From S2P Require Import Prelude Effects Cleanup Structured.

(** ** Enough fuel *)

Section yields.
Context {S : Type}.

(** With enough fuel, [c] answers [a] and leaves [s']. *)
Definition yields {A} (c : nat → St S A) (s : S) (a : A) (s' : S) : Prop :=
  ∃ n, ∀ m, (n ≤ m)%nat → c m s = Ok (a, s').

Lemma yields_ret {A} (a : A) s : yields (λ _, mret a) s a s.
Proof. by exists O. Qed.

Lemma yields_bind {A B} (c : nat → St S A) (k : nat → A → St S B) s a s1 b s2 :
  yields c s a s1 → yields (λ m, k m a) s1 b s2 → yields (λ m, c m ≫= k m) s b s2.
Proof.
  intros [n Hn] [n' Hn']. exists (n + n')%nat. intros m Hm. unfold mbind, St_bind.
  rewrite Hn by lia. apply Hn'. lia.
Qed.

Lemma yields_step {A} (c d : nat → St S A) s s1 a s' :
  (∀ m, c (Datatypes.S m) s = d m s1) → yields d s1 a s' → yields c s a s'.
Proof.
  intros Hc [n Hn]. exists (Datatypes.S n). intros [|m] Hm; [lia|]. rewrite Hc. apply Hn. lia.
Qed.

Lemma yields_eq {A} (c d : nat → St S A) s s1 a s' :
  (∀ m, c m s = d m s1) → yields d s1 a s' → yields c s a s'.
Proof. intros Hc [n Hn]. exists n. intros m Hm. rewrite Hc. by apply Hn. Qed.
End yields.

Lemma yields_then (c k : nat → St State Completion) s s1 r s2 :
  yields c s Returned s1 → yields k s1 r s2 → yields (λ m, c m ⊳ k m) s r s2.
Proof. intros Hc Hk. unfold and_then. by eapply yields_bind. Qed.

Lemma yields_stop (c k : nat → St State Completion) s r s1 :
  r ≠ Returned → yields c s r s1 → yields (λ m, c m ⊳ k m) s r s1.
Proof.
  intros Hr Hc. unfold and_then. eapply yields_bind; [done|].
  destruct r; [done|apply yields_ret..].
Qed.

(** ** Guards *)

Lemma release_all_held w : HELD (release_all w) = [].
Proof.
  unfold release_all. remember (length (HELD w)) as n eqn:Hn. revert w Hn.
  induction n as [|n IH]; intros w Hn; simpl; [by apply nil_length_inv|].
  unfold shared_access_end. destruct (HELD w) as [|a l] eqn:E using rev_ind; [done|].
  rewrite last_snoc, removelast_last. clear IHl. rewrite length_app in Hn. simpl in Hn.
  apply IH. destruct (bool_decide _); simpl; lia.
Qed.

Lemma release_all_name w : TEST_NAME (release_all w) = TEST_NAME w.
Proof.
  unfold release_all. generalize (length (HELD w)). intros n. revert w.
  induction n as [|n IH]; intros w; simpl; [done|]. unfold shared_access_end.
  destruct (last (HELD w)); [|done]. rewrite IH. by destruct (bool_decide _).
Qed.

Lemma guards_end_held w n : length (HELD w) = S n →
  shared_access_end w = Ok (guards_end w) ∧ length (HELD (guards_end w)) = n.
Proof.
  intros Hn. unfold guards_end, shared_access_end.
  destruct (HELD w) as [|a l] eqn:E using rev_ind; [done|]. clear IHl.
  rewrite last_snoc, removelast_last. rewrite length_app in Hn. simpl in Hn.
  split; [done|]. destruct (bool_decide _); simpl; lia.
Qed.

(** ** Contexts *)

(** What an activation finds: [outer] are the registrations of others. *)
Record Context := mkContext {
  outer : list Cleanup;
  saved : option OwnedFault;
  bounds : list Boundary;
  frames : list Address;
  masking : bool;
  used : bool;
}.

Definition with_outer (l : list Cleanup) (x : Context) : Context :=
  mkContext l (saved x) (bounds x) (frames x) (masking x) (used x).
Definition with_frames (l : list Address) (x : Context) : Context :=
  mkContext (outer x) (saved x) (bounds x) l (masking x) (used x).

Definition target (l : list Boundary) : option Address :=
  match l with b :: _ => cleanup b | [] => None end.
Definition hook_of (l : list Boundary) : option Code :=
  match l with b :: _ => before_drain b | [] => None end.

Definition records (f : N) (own : list (N * Code)) : list Cleanup :=
  map (λ c, mkCleanup (f, c.1) c.2) own.

Definition fault_of (g : Failure) : option OwnedFault :=
  match g with Fault f => Some f | Cancelled => None end.

(** The boundary knows of the failure. *)
Record adds (g : Failure) (b b' : Boundary) : Prop := {
  a_cleanup : cleanup b' = cleanup b;
  a_roots : roots b' = roots b;
  a_first : first b' = match first b with Some f => Some f | None => fault_of g end;
  a_cancelled : cancelled b = true ∨ g = Cancelled → cancelled b' = true;
}.

(** [x'] is [x] after [g] has been raised in it. *)
Record raised (g : Failure) (x x' : Context) : Prop := {
  r_masked : masking x' = true;
  r_used : used x' = used x;
  r_bounds :
    match bounds x with
    | b :: l => saved x' = saved x ∧ ∃ b', bounds x' = b' :: l ∧ adds g b b'
    | [] => bounds x' = [] ∧ ∃ f, g = Fault f ∧ saved x' = Some (default f (saved x))
    end;
}.

Lemma adds_trans g g' b b1 b2 : adds g b b1 → adds g' b1 b2 → adds (combine g g') b b2.
Proof.
  intros [H1 H2 H3 H4] [H1' H2' H3' H4']. split; [congruence|congruence| |].
  - rewrite H3', H3. destruct (first b); [done|]. by destruct g.
  - intros H. apply H4'. destruct g; simpl in H; [left|]; intuition.
Qed.

Lemma raised_trans g g' x x1 x2 : raised g x x1 → raised g' x1 x2 → raised (combine g g') x x2.
Proof.
  intros [M1 U1 B1] [M2 U2 B2]. split; [done|congruence|].
  destruct (bounds x) as [|b l].
  - destruct B1 as (E & f & -> & Hf). rewrite E in B2. destruct B2 as (E2 & f' & -> & Hf').
    split; [done|]. exists f. split; [done|]. by rewrite Hf', Hf.
  - destruct B1 as (E1 & b1 & E & A1). rewrite E in B2. destruct B2 as (E2 & b2 & E' & A2).
    split; [congruence|]. exists b2. split; [done|]. by eapply adds_trans.
Qed.

Lemma raised_outer g x x' l l' : raised g x x' → raised g (with_outer l x) (with_outer l' x').
Proof. by intros [M U B]; split. Qed.

(** ** Counting down *)

(** The next [n] pairs of counters of [loom_rt_cleanup_each]. *)
Fixpoint countdown (n : nat) (steps element step : Z) : list (Z * Z) :=
  match n with
  | O => []
  | S n =>
      let element := if (step =? 0)%Z then (element - 1)%Z else element in
      let step := ((if step =? 0 then steps else step) - 1)%Z in
      (element, step) :: countdown n steps element step
  end.

Lemma countdown_steps n steps e a :
  countdown (a + n) steps e (Z.of_nat a) =
  map (pair e) (reverse (seqZ 0 (Z.of_nat a))) ++ countdown n steps e 0.
Proof.
  induction a as [|a IH]; [done|]. rewrite seqZ_S, reverse_app. cbn [countdown Nat.add].
  rewrite (proj2 (Z.eqb_neq _ _)) by lia. replace (Z.of_nat (S a) - 1)%Z with (Z.of_nat a) by lia.
  by rewrite IH.
Qed.

Lemma countdown_pairs count steps :
  (0 ≤ count)%Z → (0 < steps)%Z → countdown (remaining steps count 0) steps count 0 = pairs count steps.
Proof.
  intros Hc Hs. rewrite <- (Z2Nat.id count), <- (Z2Nat.id steps) in * by lia.
  generalize dependent (Z.to_nat steps). intros b Hb. clear Hc. unfold pairs.
  induction (Z.to_nat count) as [|c IH]; [done|]. rewrite seqZ_S, reverse_app. simpl.
  replace (remaining (Z.of_nat b) (Z.of_nat (S c)) 0) with (b + remaining (Z.of_nat b) (Z.of_nat c) 0)%nat
    by (unfold remaining; nia).
  assert (E : ∀ n, countdown (b + n) (Z.of_nat b) (Z.of_nat (S c)) 0 =
    countdown (b + n) (Z.of_nat b) (Z.of_nat c) (Z.of_nat b)).
  { intros n. destruct b as [|b]; [lia|]. cbn [countdown Nat.add].
    rewrite Z.eqb_refl, (proj2 (Z.eqb_neq _ 0)) by lia.
    by replace (Z.of_nat (S c) - 1)%Z with (Z.of_nat c) by lia. }
  rewrite E, countdown_steps, IH. f_equal.
Qed.

Section simulation.
Context (worker : bool).

Abbreviation structured := (structured worker).

Definition meaning (c : Code) : Meaning := structured c true None [].
Definition hook_meaning (h : option Code) : option Meaning :=
  match h with Some h => Some (meaning h) | None => None end.
Definition meanings (own : list (N * Code)) : list (N * Meaning) :=
  map (λ c, (c.1, meaning c.2)) own.

Definition state (x : Context) (w : World) (acts : N) : State :=
  mkState w (outer x) (saved x) (bounds x) (frames x) worker (masking x) (used x) false acts.

(** The context [x] of an activation that has registered [own] itself. *)
Definition inside (f : N) (own : list (N * Code)) (rs : list N) (x : Context) : Context :=
  with_outer (records f own ++ outer x) (with_frames (map (pair f) rs ++ frames x) x).

Record valid (x : Context) (acts : N) : Prop := {
  v_worker : worker = true → bounds x ≠ [];
  v_target : target (bounds x) = None ∨ ∃ c, c ∈ outer x ∧ target (bounds x) = Some (record c);
  v_fresh c : c ∈ outer x → fst (record c) < acts;
}.

(** The rest of an unwinding, after its hook. *)
Definition finish (call : Code → St State Completion) (fuel : nat) : St State Completion :=
  b ← boundary;
  match b with
  | Some b =>
      drain_to call fuel (cleanup b) ⊳
      (tracing ← reads collecting;
       if (tracing : bool) then fatal "runtime fault during GC tracing"
       else edits (set_ROOTS (roots b)) ;; mret Unwinding)
  | None =>
      first ← reads FIRST_FAULT;
      drain_to call fuel None ⊳ mret (Exited (diagnostic (default (mkFault [] None) first)))
  end.

Record finishes (s : State) (r : Completion) (s' : State) : Prop := {
  f_result : r ≠ Returned;
  f_masked : MASKED s' = true;
  f_finish : ∃ n, ∀ m k, (n ≤ m)%nat → (n ≤ k)%nat → finish (call m) k s = Ok (r, s');
}.

(** [c], started in the context [x] with the registrations of [s], does what [p] says: it
    leaves the context as it was, or it continues an unwinding of it. *)
Definition meets (c : nat → St State Completion) (s : State) (x : Context) (acts : N)
    (p : World * Flow) : Prop :=
  HELD p.1 = [] ∧
  match p.2 with
  | Ends => ∃ acts', acts ≤ acts' ∧ yields c s Returned (state x p.1 acts')
  | Throws g =>
      (g = Cancelled → worker = true) ∧
      ∃ x' acts', acts ≤ acts' ∧ outer x' = outer x ∧ hook_of (bounds x') = None ∧ raised g x x' ∧
        ∀ r s', finishes (state x' p.1 acts') r s' → yields c s r (set_MASKED (masking x) s')
  end.

(** A call of [code] in any context of the kind. *)
Definition call_ok (masked : bool) (hook : option Code) (code : Code) : Prop :=
  ∀ x w acts, valid x acts → HELD w = [] → masking x = masked → hook_of (bounds x) = hook →
    meets (λ m, call m code) (state x w acts) x acts (structured code masked (hook_meaning hook) [] w).

Definition callback_ok (c : Code) : Prop := call_ok true None c.

(** ** The rest of an unwinding *)

Lemma drain_pop call k t s c l :
  HEAD s = c :: l → t ≠ Some (record c) →
  drain_to call (S k) t s = (call (callback c) ⊳ drain_to call k t) (set_HEAD l s).
Proof.
  intros E Ht. cbn [drain_to]. unfold reads, mbind at 1, St_bind at 1. simpl.
  rewrite E, bool_decide_eq_false_2 by (unfold head_record; simpl; congruence). done.
Qed.

Lemma drain_end call k t s : head_record (HEAD s) = t → drain_to call (S k) t s = Ok (Returned, s).
Proof.
  intros E. cbn [drain_to]. unfold reads, mbind at 1, St_bind at 1. simpl.
  by rewrite bool_decide_eq_true_2.
Qed.

#[local] Arguments drain_to : simpl never.

Lemma finish_pop m k x c l w acts :
  target (bounds x) ≠ Some (record c) →
  finish (call m) (S k) (state (with_outer (c :: l) x) w acts) =
    match call m (callback c) (state (with_outer l x) w acts) with
    | Ok (Returned, s) =>
        match bounds x with
        | b :: _ =>
            (drain_to (call m) k (cleanup b) ⊳
             (tracing ← reads collecting;
              if (tracing : bool) then fatal "runtime fault during GC tracing"
              else edits (set_ROOTS (roots b)) ;; mret Unwinding)) s
        | [] =>
            (drain_to (call m) k None ⊳
             mret (Exited (diagnostic (default (mkFault [] None) (saved x))))) s
        end
    | r => r
    end.
Proof.
  intros Ht. set (s := state (with_outer (c :: l) x) w acts).
  assert (E : drain_to (call m) (S k) (target (bounds x)) s =
    (call m (callback c) ⊳ drain_to (call m) k (target (bounds x))) (state (with_outer l x) w acts)).
  { by apply drain_pop. }
  unfold finish, boundary, and_then, mbind, St_bind in *. unfold reads at 1. simpl.
  destruct x as [o f [|b bs] fr mk u]; simpl in *; rewrite E;
    by destruct (call m (callback c) _) as [[[] s1]| | |].
Qed.

Lemma finishes_returned x c l w w1 acts acts1 r s' :
  target (bounds x) ≠ Some (record c) →
  yields (λ m, call m (callback c)) (state (with_outer l x) w acts) Returned
    (state (with_outer l x) w1 acts1) →
  finishes (state (with_outer l x) w1 acts1) r s' →
  finishes (state (with_outer (c :: l) x) w acts) r s'.
Proof.
  intros Ht [n Hn] [Hr Hm [n' Hn']]. split; [done|done|]. exists (S (n + n')). intros m [|k] Hm' Hk; [lia|].
  rewrite finish_pop, Hn by (done || lia). rewrite <- (Hn' m k) by lia.
  unfold finish, boundary. destruct x as [o f [|b bs] fr mk u]; done.
Qed.

Lemma finishes_thrown x c l w acts r s' :
  target (bounds x) ≠ Some (record c) → r ≠ Returned → MASKED s' = true →
  yields (λ m, call m (callback c)) (state (with_outer l x) w acts) r s' →
  finishes (state (with_outer (c :: l) x) w acts) r s'.
Proof.
  intros Ht Hr Hm [n Hn]. split; [done|done|]. exists (S n). intros m [|k] Hm' Hk; [lia|].
  rewrite finish_pop, Hn by (done || lia). by destruct r.
Qed.

(** An unwinding ends where its boundary stands, or with the process. *)
Lemma finishes_boundary x b l w acts :
  bounds x = b :: l → head_record (outer x) = cleanup b → masking x = true →
  finishes (state x w acts) Unwinding (state (with_frames (roots b) x) w acts).
Proof.
  intros Hb Hh Hm. split; [done|done|]. exists 1%nat. intros m [|k] _ Hk; [lia|].
  destruct x as [o f bs fr mk u]. simpl in *. subst bs. unfold finish, and_then, boundary, mbind, St_bind.
  unfold reads at 1. simpl. by rewrite drain_end.
Qed.

Lemma finishes_process x w acts :
  bounds x = [] → outer x = [] → masking x = true →
  finishes (state x w acts) (Exited (diagnostic (default (mkFault [] None) (saved x)))) (state x w acts).
Proof.
  intros Hb Ho Hm. split; [done|done|]. exists 1%nat. intros m [|k] _ Hk; [lia|].
  destruct x as [o f bs fr mk u]. simpl in *. subst. done.
Qed.

Lemma target_raised g x x' : raised g x x' → target (bounds x') = target (bounds x).
Proof.
  intros [_ _ B]. destruct (bounds x) as [|b l]; [by destruct B as [-> _]|].
  destruct B as (_ & b' & -> & A). apply A.
Qed.

Lemma valid_raised g x x' acts acts' :
  valid x acts → raised g x x' → outer x' = outer x → acts ≤ acts' → valid x' acts'.
Proof.
  intros [V1 V2 V3] R Ho Ha. split.
  - intros Hw. specialize (V1 Hw). destruct R as [_ _ B]. destruct (bounds x) as [|b l]; [done|].
    destruct B as (_ & b' & -> & _). done.
  - rewrite (target_raised _ _ _ R), Ho. done.
  - rewrite Ho. intros c Hc. specialize (V3 c Hc). lia.
Qed.

Lemma records_valid f own x acts :
  valid x f → f < acts → valid (with_outer (records f own ++ outer x) x) acts.
Proof.
  intros [V1 V2 V3] Hf. split; [done| |]; simpl.
  - destruct V2 as [?|(c & Hc & ?)]; [by left|]. right. exists c. split; [|done].
    apply elem_of_app. by right.
  - intros c [Hc|Hc]%elem_of_app; [|specialize (V3 c Hc); lia].
    unfold records in Hc. apply list_elem_of_fmap in Hc as (y & -> & _). done.
Qed.

Lemma records_target f x c : valid x f → fst (record c) = f → target (bounds x) ≠ Some (record c).
Proof.
  intros [_ V2 V3] Hc E. destruct V2 as [V2|(c' & Hc' & V2)]; [congruence|].
  assert (record c = record c') as E' by congruence. specialize (V3 c' Hc'). rewrite <- E', Hc in V3. lia.
Qed.

(** An unwinding of [x0] that has reached the activation [f] goes on below it, in [x']. *)
Definition proceeds (x0 : Context) (acts : N) (p : World * Flow)
    (through : Completion → State → Prop) : Prop :=
  ∃ g x' acts', p.2 = Throws g ∧ HELD p.1 = [] ∧ (g = Cancelled → worker = true) ∧
    acts ≤ acts' ∧ outer x' = outer x0 ∧ hook_of (bounds x') = None ∧ raised g x0 x' ∧
    ∀ r s', finishes (state x' p.1 acts') r s' → through r s'.

Lemma proceeds_mono x0 acts acts' p (Q Q' : Completion → State → Prop) :
  proceeds x0 acts' p Q → acts ≤ acts' → (∀ r s', Q r s' → Q' r s') → proceeds x0 acts p Q'.
Proof.
  intros (g & x' & a & ? & ? & ? & ? & ? & ? & ? & H) Ha HQ. exists g, x', a. split_and!; auto. lia.
Qed.

Lemma meets_throws c s x acts p :
  proceeds x acts p (λ r s', yields c s r (set_MASKED (masking x) s')) → meets c s x acts p.
Proof.
  intros (g & x' & a & E & ? & ? & ? & ? & ? & ? & ?). split; [done|]. rewrite E.
  split; [done|]. by exists x', a.
Qed.

Lemma set_MASKED_id s b : MASKED s = b → set_MASKED b s = s.
Proof. intros <-. by destruct s. Qed.

Lemma finalize_proceeds x0 f own :
  valid x0 f → Forall (λ c, callback_ok c.2) own → ∀ g x w acts,
  f < acts → raised g x0 x → outer x = outer x0 → hook_of (bounds x) = None → HELD w = [] →
  (g = Cancelled → worker = true) →
  proceeds x0 acts (finalize (meanings own) g w)
    (finishes (state (with_outer (records f own ++ outer x0) x) w acts)).
Proof.
  intros Hv. induction 1 as [|[i c] own Hc Hown IH]; intros g x w acts Hf Hr Ho Hh Hw Hg; simpl.
  { exists g, x, acts. split_and!; try done; simpl. intros r s'. by destruct x; simpl in *; subst. }
  set (l := records f own ++ outer x0). set (y := with_outer l x).
  assert (Hx : valid x f) by (by eapply valid_raised).
  assert (Hy : valid y acts).
  { unfold y, l. rewrite <- Ho. by apply records_valid. }
  assert (Ht : target (bounds x) ≠ Some (record (mkCleanup (f, i) c))) by (by apply records_target with f).
  destruct (Hc y w acts Hy Hw (r_masked _ _ _ Hr) Hh) as [Hw1 Hm]. simpl in *.
  change (structured c true None [] w) with (meaning c w) in *.
  destruct (meaning c w) as [w1 [|g1]]; simpl in *.
  - destruct Hm as (acts1 & Ha1 & Hm). eapply proceeds_mono; [by apply (IH g x w1 acts1); try done; lia|done|].
    intros r s' Hfin. by eapply finishes_returned.
  - destruct Hm as (Hg1 & y' & acts1 & Ha1 & Ho1 & Hh1 & Hr1 & Hm).
    set (z := with_outer (outer x0) y').
    assert (Hz : raised (combine g g1) x0 z).
    { unfold z. eapply raised_trans; [exact Hr|]. unfold y in Hr1.
      apply (raised_outer _ _ _ (outer x) (outer x0)) in Hr1. by destruct x, y'. }
    eapply proceeds_mono; [apply (IH (combine g g1) z w1 acts1); try done; try lia|done|].
    + intros E. destruct g; simpl in E; auto.
    + intros r s' Hfin. assert (Hz' : with_outer l z = y').
      { unfold z. destruct y'. simpl in *. by subst. }
      fold l in Hfin. rewrite Hz' in Hfin. pose proof (Hm _ _ Hfin) as Hy1.
      rewrite set_MASKED_id in Hy1.
      2:{ rewrite (f_masked _ _ _ Hfin). symmetry. apply Hr. }
      eapply finishes_thrown; [exact Ht|apply Hfin|apply Hfin|exact Hy1].
Qed.

(** What [cancel] and [fault] have in common, once they have told the boundary. *)
Definition unwind (call : Code → St State Completion) (fuel : nat) : St State Completion :=
  b ← boundary;
  match b with Some b => unwind_boundary call fuel b | None => finish call fuel end.

Lemma finishes_yields c s r s' :
  (∀ m, c m s = finish (call m) m s) → finishes s r s' → yields c s r s'.
Proof. intros Hc [_ _ [n Hn]]. exists n. intros m Hm. rewrite Hc. by apply Hn. Qed.

Section raise.
Context {x0 x : Context} {f acts : N} {own : list (N * Code)} {hook : option Code}.
Context (Hv : valid x0 f) (Hf : f < acts) (Hown : Forall (λ c, callback_ok c.2) own).
Context (Hhook : ∀ h, hook = Some h → callback_ok h) (Hx : hook_of (bounds x) = hook).
Context (Ho : outer x = outer x0).

Abbreviation here := (with_outer (records f own ++ outer x0)).

Lemma unwind_proceeds g w :
  raised g x0 x → HELD w = [] → (g = Cancelled → worker = true) →
  proceeds x0 acts
    match hook_meaning hook with
    | None => finalize (meanings own) g w
    | Some h => let '(w, r) := h w in finalize (meanings own) (combined g r) w
    end (λ r s', yields (λ m, unwind (call m) m) (state (here x) w acts) r s' ∧ MASKED s' = true).
Proof.
  intros Hr Hw Hg. destruct hook as [h|]; simpl.
  2:{ eapply proceeds_mono; [by apply (finalize_proceeds x0 f own Hv Hown g x w acts)|done|].
      intros r s' Hfin. split; [|apply Hfin]. eapply finishes_yields; [|exact Hfin]. intros m.
      destruct x as [o sv [|b l] fr mk u]; [done|]. simpl in Hx. unfold unwind, unwind_boundary, finish.
      unfold boundary, mbind, St_bind, reads. simpl. by rewrite Hx. }
  destruct (bounds x) as [|b l] eqn:Eb; [done|]. simpl in Hx.
  set (x2 := mkContext (outer x) (saved x) (take_hook b :: l) (frames x) (masking x) (used x)).
  assert (Hr2 : raised g x0 x2).
  { destruct Hr as [M U B]. split; [done|done|]. destruct (bounds x0) as [|b0 l0].
    - destruct B as [B _]. by rewrite Eb in B.
    - destruct B as (S & b' & E & [A1 A2 A3 A4]). split; [done|]. rewrite Eb in E. injection E as <- <-.
      exists (take_hook b). by split. }
  assert (Hy : valid (here x2) acts).
  { rewrite <- Ho. apply (records_valid f own x2); [|done]. by eapply valid_raised. }
  set (rest := λ m, drain_to (call m) m (cleanup b) ⊳
    (tracing ← reads collecting;
     if (tracing : bool) then fatal "runtime fault during GC tracing"
     else edits (set_ROOTS (roots b)) ;; mret Unwinding)).
  assert (Hstart : ∀ m, unwind (call m) m (state (here x) w acts) =
    (call m h ⊳ rest m) (state (here x2) w acts)).
  { intros m. destruct x as [o sv bs fr mk u]. simpl in *. subst bs.
    unfold unwind, unwind_boundary, and_then at 1 2, boundary, on_boundary, mbind, St_bind, reads, edits.
    simpl. by rewrite Hx. }
  assert (Hrest : ∀ w1 acts1 r s', finishes (state (here x2) w1 acts1) r s' →
    yields rest (state (here x2) w1 acts1) r s').
  { intros w1 acts1 r s' [_ _ [n Hn]]. exists n. intros m Hm. by rewrite <- (Hn m m). }
  destruct (Hhook h eq_refl (here x2) w acts Hy Hw (r_masked _ _ _ Hr2) eq_refl) as [Hw1 Hm]. simpl in *.
  change (structured h true None [] w) with (meaning h w) in *.
  destruct (meaning h w) as [w1 [|g1]]; simpl in *.
  - destruct Hm as (acts1 & Ha1 & Hm).
    eapply proceeds_mono; [apply (finalize_proceeds x0 f own Hv Hown g x2 w1 acts1); try done; lia|done|].
    intros r s' Hfin. split; [|apply Hfin]. apply (yields_eq _ (λ m, call m h ⊳ rest m) _ _ _ _ Hstart).
    eapply yields_then; [exact Hm|]. by apply Hrest.
  - destruct Hm as (Hg1 & y' & acts1 & Ha1 & Ho1 & Hh1 & Hr1 & Hm). simpl in Ho1.
    set (z := with_outer (outer x0) y').
    assert (Hz : raised (combine g g1) x0 z).
    { eapply raised_trans; [exact Hr2|]. apply (raised_outer _ _ _ (outer x) (outer x0)) in Hr1. exact Hr1. }
    eapply proceeds_mono; [apply (finalize_proceeds x0 f own Hv Hown (combine g g1) z w1 acts1); try done; try lia|done|].
    + intros E. destruct g; simpl in E; auto.
    + intros r s' Hfin. split; [|apply Hfin]. apply (yields_eq _ (λ m, call m h ⊳ rest m) _ _ _ _ Hstart).
      apply yields_stop; [apply Hfin|]. assert (Hz' : here z = y').
      { unfold z. destruct y'. simpl in *. by subst. }
      rewrite Hz' in Hfin. pose proof (Hm _ _ Hfin) as Hy1. rewrite set_MASKED_id in Hy1; [done|].
      rewrite (f_masked _ _ _ Hfin). symmetry. apply Hr.
Qed.
End raise.

(** ** Raising *)

(** The context in which [g] has just been raised. *)
Definition raising (g : Failure) (x : Context) : Context :=
  match bounds x with
  | b :: l =>
      mkContext (outer x) (saved x)
        (match g with Fault f => record_fault f b | Cancelled => set_cancelled b end :: l)
        (frames x) true (used x)
  | [] =>
      mkContext (outer x)
        (match g with Fault f => Some (default f (saved x)) | Cancelled => saved x end)
        [] (frames x) true (used x)
  end.

Lemma raising_raised g x acts :
  valid x acts → (g = Cancelled → worker = true) → raised g x (raising g x).
Proof.
  intros [V _ _] Hg. unfold raising. destruct (bounds x) as [|b l] eqn:E.
  - split; rewrite ?E; [done|done|]. split; [done|]. destruct g as [f|]; [by exists f|].
    by destruct (V (Hg eq_refl)).
  - split; rewrite ?E; [done|done|]. split; [done|]. eexists. split; [done|].
    destruct g as [f|]; split; simpl; try done.
    + by destruct (first b).
    + intros [?|?]; done.
    + by destruct (first b).
Qed.

Lemma raising_hook g x : hook_of (bounds (raising g x)) = hook_of (bounds x).
Proof. unfold raising. destruct (bounds x); [done|]. by destruct g. Qed.

Section raises.
Context {x : Context} {f acts : N} {own : list (N * Code)} {rs : list N}.
Context (Hv : valid x f) (Hf : f < acts) (Hown : Forall (λ c, callback_ok c.2) own).
Context (Hhook : ∀ h, hook_of (bounds x) = Some h → callback_ok h).

Abbreviation y := (inside f own rs x).

Lemma raise_meets c g w :
  (g = Cancelled → worker = true) →
  (∀ m, c m (state y w acts) = mask (λ _, unwind (call m) m (state (raising g y) (release_all w) acts))
    (state y w acts)) →
  meets c (state y w acts) x acts (fail (hook_meaning (hook_of (bounds x))) (meanings own) g w).
Proof.
  intros Hg Hc. apply meets_throws.
  set (x1 := with_outer (outer x) (raising g y)).
  assert (Hr : raised g x x1).
  { assert (Hy : valid y acts).
    { apply (records_valid f own (with_frames (map (pair f) rs ++ frames x) x)); [|done].
      by destruct Hv as [? ? ?]; split. }
    by destruct (raising_raised g y acts Hy Hg) as [M U B]; split. }
  assert (Hh : hook_of (bounds x1) = hook_of (bounds x)) by exact (raising_hook g y).
  eapply proceeds_mono.
  - pose proof (unwind_proceeds (hook := hook_of (bounds x)) Hv Hf Hown Hhook Hh eq_refl g
      (release_all w) Hr (release_all_held w) Hg) as Hp.
    unfold fail, throw. destruct (hook_meaning _) as [h|]; [|exact Hp].
    by destruct (h (release_all w)).
  - done.
  - intros r s' [[n Hn] Hm]. exists n. intros m Hm'. rewrite Hc. unfold mask, mbind, St_bind, reads, edits.
    assert (E : state (raising g y) (release_all w) acts =
      state (with_outer (records f own ++ outer x) x1) (release_all w) acts).
    { unfold x1, raising, inside. simpl. by destruct (bounds x). }
    rewrite E, Hn by done. done.
Qed.

Lemma fault_meets w msg :
  meets (λ m, fault (call m) m msg) (state y w acts) x acts
    (fail (hook_meaning (hook_of (bounds x))) (meanings own) (Fault (mkFault msg (TEST_NAME w))) w).
Proof.
  apply raise_meets; [done|]. intros m. unfold fault, mask, mbind, St_bind, reads, edits. simpl.
  rewrite <- (release_all_name w). unfold raising, inside, unwind, boundary, on_boundary, reads, edits.
  destruct x as [o sv [|b l] fr mk u]; done.
Qed.

Lemma raise_owned_meets w failure :
  meets (λ m, raise_owned (call m) m failure) (state y w acts) x acts
    (fail (hook_meaning (hook_of (bounds x))) (meanings own) (Fault failure)
       (set_TEST_NAME (test_name failure) w)).
Proof.
  pose proof (fault_meets (set_TEST_NAME (test_name failure) w) (message failure)) as H.
  destruct failure as [msg name]. exact H.
Qed.

Lemma cancel_meets w :
  worker = true →
  meets (λ m, cancel (call m) m) (state y w acts) x acts
    (fail (hook_meaning (hook_of (bounds x))) (meanings own) Cancelled w).
Proof.
  intros Hw. apply raise_meets; [done|]. intros m. pose proof (v_worker _ _ Hv Hw) as Hb.
  unfold cancel, mask, mbind, St_bind, reads, edits. simpl.
  unfold raising, inside, unwind, boundary, on_boundary, reads, edits.
  destruct x as [o sv [|b l] fr mk u]; done.
Qed.

(** A call, and the code of the activation that follows it. *)
Lemma meets_sequence c k w p K :
  meets c (state y w acts) y acts p →
  (∀ w1 acts1, acts ≤ acts1 → HELD w1 = [] → meets k (state y w1 acts1) x acts1 (K w1)) →
  meets (λ m, c m ⊳ k m) (state y w acts) x acts
    match p with (w1, Ends) => K w1 | (w1, Throws g) => finalize (meanings own) g w1 end.
Proof.
  intros [Hw Hc] Hk. destruct p as [w1 [|g]]; simpl in *.
  - destruct Hc as (acts1 & Ha & Hc). destruct (Hk w1 acts1 Ha Hw) as [Hw2 Hk1]. split; [done|].
    destruct (K w1) as [w2 [|g]]; simpl in *.
    + destruct Hk1 as (acts2 & Ha2 & Hk1). exists acts2. split; [lia|]. by eapply yields_then.
    + destruct Hk1 as (Hg & x' & acts2 & Ha2 & Ho & Hh & Hr & Hk1). split; [done|].
      exists x', acts2. split_and!; try done; [lia|]. intros r s' Hfin. eapply yields_then; [done|auto].
  - destruct Hc as (Hg & x' & acts1 & Ha & Ho & Hh & Hr & Hc). apply meets_throws.
    set (z := with_outer (outer x) x').
    assert (Hz : raised g x z) by (by destruct Hr as [M U B]; split).
    eapply proceeds_mono; [apply (finalize_proceeds x f own Hv Hown g z w1 acts1); try done; lia|done|].
    assert (E : with_outer (records f own ++ outer x) z = x').
    { unfold z. destruct x'. simpl in *. by subst. }
    rewrite E. intros r s' Hfin. apply yields_stop; [apply Hfin|]. exact (Hc r s' Hfin).
Qed.
End raises.

(** ** Boundaries *)

Definition caught_in (hook : option Code) (x : Context) : Context :=
  mkContext (outer x) None (mkBoundary (head_record (outer x)) (frames x) None false hook :: bounds x)
    (frames x) (masking x) (used x).

Lemma caught_valid hook x acts : valid x acts → valid (caught_in hook x) acts.
Proof.
  intros [V1 V2 V3]. split; [done| |done]. simpl. destruct (outer x) as [|c l]; [by left|].
  right. exists c. split; [left|done].
Qed.

Section catch.
Context {A : Type} (body : nat → St State (Completion * A)) (hook : option Code) (x : Context).
Context (w w1 : World) (acts acts1 : N) (a : A).

Abbreviation restored := (state x (set_TEST_NAME (TEST_NAME w) w1) acts1).

Lemma catch_returns :
  yields body (state (caught_in hook x) w acts) (Returned, a) (state (caught_in hook x) w1 acts1) →
  yields (λ m, catch_fault_inner (body m) hook) (state x w acts) (Finished, a) restored.
Proof.
  intros [n Hn]. exists n. intros m Hm. unfold catch_fault_inner, mbind, St_bind, reads, edits. simpl.
  change (set_BOUNDARY _ _) with (state (caught_in hook x) w acts). rewrite (Hn m Hm). simpl.
  unfold leave_boundary, mbind, St_bind, boundary, reads, edits. simpl.
  by rewrite !bool_decide_eq_false_2 by auto.
Qed.

Lemma catch_throws g x' :
  raised g (caught_in hook x) x' → outer x' = outer x →
  (∀ r s', finishes (state x' w1 acts1) r s' →
    yields body (state (caught_in hook x) w acts) (r, a) (set_MASKED (masking x) s')) →
  yields (λ m, catch_fault_inner (body m) hook) (state x w acts) (Failed g, a) restored.
Proof.
  intros [M U B] Ho Hb. simpl in B. destruct B as (Hs & b & Eb & [B1 B2 B3 B4]). simpl in *.
  destruct (Hb _ _ (finishes_boundary x' b (bounds x) w1 acts1 Eb ltac:(by rewrite Ho, B1) M)) as [n Hn].
  exists n. intros m Hm. unfold catch_fault_inner, mbind, St_bind, reads, edits. simpl.
  change (set_BOUNDARY _ _) with (state (caught_in hook x) w acts). rewrite (Hn m Hm). simpl.
  unfold leave_boundary, mbind, St_bind, boundary, reads, edits. simpl. rewrite Eb. simpl.
  rewrite B1, B2, B3, Ho. rewrite !bool_decide_eq_false_2 by auto. simpl.
  set (s := set_FIRST_FAULT _ _).
  assert (s = restored) as -> by (unfold s, state; simpl; by rewrite Eb, Ho, U).
  destruct g as [g|]; simpl; [done|]. by rewrite B4 by auto.
Qed.
End catch.

(** ** Sequences *)

Lemma meets_mono c s x acts acts' p : meets c s x acts' p → acts ≤ acts' → meets c s x acts p.
Proof.
  intros [Hw H] Ha. split; [done|]. destruct p as [w [|g]]; simpl in *.
  - destruct H as (a & ? & ?). exists a. split; [lia|done].
  - destruct H as (? & x' & a & ? & ?). split; [done|]. exists x', a. split; [lia|done].
Qed.

Lemma meets_eq c d s s1 x acts p : (∀ m, c m s = d m s1) → meets d s1 x acts p → meets c s x acts p.
Proof.
  intros Hc [Hw H]. split; [done|]. destruct p as [w [|g]]; simpl in *.
  - destruct H as (a & ? & ?). exists a. split; [done|]. by eapply yields_eq.
  - destruct H as (? & x' & a & ? & ? & ? & ? & H). split; [done|]. exists x', a.
    split_and!; try done. intros r s' Hf. eapply yields_eq; [done|]. by apply H.
Qed.

Lemma meets_step c d s s1 x acts p :
  (∀ m, c (S m) s = d m s1) → meets d s1 x acts p → meets c s x acts p.
Proof.
  intros Hc [Hw H]. split; [done|]. destruct p as [w [|g]]; simpl in *.
  - destruct H as (a & ? & ?). exists a. split; [done|]. by eapply yields_step.
  - destruct H as (? & x' & a & ? & ? & ? & ? & H). split; [done|]. exists x', a.
    split_and!; try done. intros r s' Hf. eapply yields_step; [done|]. by apply H.
Qed.

(** What runs before, and returns. *)
Lemma meets_bind {A} (c : nat → St State A) (k : nat → A → St State Completion) s a s1 x acts p :
  yields c s a s1 → meets (λ m, k m a) s1 x acts p → meets (λ m, c m ≫= k m) s x acts p.
Proof.
  intros Hc [Hw H]. split; [done|]. destruct p as [w [|g]]; simpl in *.
  - destruct H as (a' & ? & ?). exists a'. split; [done|]. by eapply yields_bind.
  - destruct H as (? & x' & a' & ? & ? & ? & ? & H). split; [done|]. exists x', a'.
    split_and!; try done. intros r s' Hf. eapply yields_bind; [done|]. by apply H.
Qed.

(** What would run after. *)
Lemma meets_stop c k s x acts hook own g w :
  meets c s x acts (fail hook own g w) → meets (λ m, c m ⊳ k m) s x acts (fail hook own g w).
Proof.
  assert (E : ∃ w' g', fail hook own g w = (w', Throws g')).
  { unfold fail. destruct (throw hook g w) as [w0 g0]. revert w0 g0.
    induction own as [|[i m] own IH]; intros w0 g0; simpl; [by eauto|]. destruct (m w0). apply IH. }
  destruct E as (w' & g' & ->). intros (Hw & Hg & x' & a & ? & ? & ? & ? & H). split; [done|].
  split; [done|]. exists x', a. split_and!; try done. intros r s' Hf. apply yields_stop; [apply Hf|auto].
Qed.

(** ** The cleanup of collections *)

Section each.
Context (steps : Z) (callback : Z → Z → Code) (x : Context) (finish : option OwnedFault → Meaning).
Context (abandon : Meaning) (name : option (list byte)).
Context (Hsteps : (0 < steps)%Z).
Context (Hcallback : ∀ e s, call_ok (masking x) None (callback e s)).

Abbreviation run := (λ e s, structured (callback e s) (masking x) None []).
Abbreviation restore := (set_TEST_NAME name).

Record counters (n : nat) (e s : Z) : Prop := {
  k_left : remaining steps e s = n;
  k_element : (0 ≤ e)%Z;
  k_step : (0 ≤ s < steps)%Z;
}.

Lemma counters_next n e s :
  counters (S n) e s →
  counters n (if (s =? 0)%Z then (e - 1)%Z else e) ((if (s =? 0)%Z then steps else s) - 1)%Z.
Proof.
  intros [H1 H2 H3]. unfold remaining in *. destruct (Z.eqb_spec s 0) as [->|Hs].
  - assert (0 < e)%Z by nia. split; unfold remaining; nia.
  - split; unfold remaining; nia.
Qed.

Lemma counters_zero e s : counters 0 e s → e = 0%Z ∧ s = 0%Z.
Proof. intros [H1 H2 H3]. unfold remaining in *. nia. Qed.

Lemma counters_more n e s : counters (S n) e s → (0 <? e)%Z || (0 <? s)%Z = true.
Proof.
  intros [H1 H2 H3]. unfold remaining in *. destruct (Z.ltb_spec 0 e), (Z.ltb_spec 0 s); try done.
  assert (e = 0 ∧ s = 0)%Z as [-> ->] by lia. simpl in H1. lia.
Qed.

(** One round of the outer loop: it ends, or a callback has thrown. *)
Lemma each_calls_round n e s first w acts :
  counters n e s → valid x acts → HELD w = [] →
  (∃ w1 acts1, acts ≤ acts1 ∧ HELD w1 = [] ∧
    each run restore finish abandon (countdown n steps e s) first w = finish first (restore w1) ∧
    yields (λ m, each_calls (call m) (S n) steps callback e s) (state (caught_in None x) w acts)
      (Returned, (0, 0)%Z) (state (caught_in None x) w1 acts1)) ∨
  (∃ g w1 acts1 x' n' e' s', acts ≤ acts1 ∧ HELD w1 = [] ∧ (n' < n)%nat ∧ counters n' e' s' ∧
    (g = Cancelled → worker = true) ∧ raised g (caught_in None x) x' ∧ outer x' = outer x ∧
    each run restore finish abandon (countdown n steps e s) first w =
      match g with
      | Fault f => each run restore finish abandon (countdown n' steps e' s') (Some (default f first)) (restore w1)
      | Cancelled => abandon (restore w1)
      end ∧
    ∀ r s1, finishes (state x' w1 acts1) r s1 →
      yields (λ m, each_calls (call m) (S n) steps callback e s) (state (caught_in None x) w acts)
        (r, (e', s')) (set_MASKED (masking x) s1)).
Proof.
  revert e s w acts. induction n as [|n IH]; intros e s w acts Hk Hv Hw.
  { left. exists w, acts. destruct (counters_zero _ _ Hk) as [-> ->]. split_and!; try done.
    apply yields_ret. }
  cbn [each_calls]. rewrite (counters_more _ _ _ Hk). cbn [countdown each].
  pose proof (counters_next _ _ _ Hk) as Hk1.
  set (e1 := if (s =? 0)%Z then (e - 1)%Z else e) in *.
  set (s1 := ((if (s =? 0)%Z then steps else s) - 1)%Z) in *.
  destruct (Hcallback e1 s1 (caught_in None x) w acts) as [Hw1 Hm]; [by apply caught_valid|done..|].
  simpl in Hm. destruct (structured (callback e1 s1) _ _ _ w) as [w1 [|g]]; simpl in *.
  - destruct Hm as (acts1 & Ha & Hm).
    assert (Hv1 : valid x acts1).
    { destruct Hv as [V1 V2 V3]. split; [done|done|]. intros c Hc. specialize (V3 c Hc). lia. }
    destruct (IH e1 s1 w1 acts1 Hk1 Hv1 Hw1) as [(w2 & acts2 & ? & ? & ? & Hy)|H].
    + left. exists w2, acts2. split_and!; try done; [lia|]. by eapply yields_bind.
    + right. destruct H as (g & w2 & acts2 & x' & n' & e' & s' & ? & ? & ? & ? & ? & ? & ? & ? & Hy).
      exists g, w2, acts2, x', n', e', s'. split_and!; try done; [lia|lia|].
      intros r s2 Hf. eapply yields_bind; [done|]. by apply Hy.
  - right. destruct Hm as (Hg & x' & acts1 & Ha & Ho & Hh & Hr & Hm).
    exists g, w1, acts1, x', n, e1, s1. split_and!; try done; [lia|].
    intros r s2 Hf. eapply yields_bind; [by apply Hm|]. pose proof (f_result _ _ _ Hf).
    destruct r; [done|apply yields_ret..].
Qed.
End each.

Lemma valid_later x acts acts' : valid x acts → acts ≤ acts' → valid x acts'.
Proof. intros [V1 V2 V3] Ha. split; [done|done|]. intros c Hc. specialize (V3 c Hc). lia. Qed.

Lemma and_then_assoc {A} (c : St State A) (k : A → St State Completion) j s :
  ((c ≫= k) ⊳ j) s = (c ≫= λ a, k a ⊳ j) s.
Proof. unfold and_then, mbind, St_bind. by destruct (c s) as [[a s1]| | |]. Qed.

Section rounds.
Context (x : Context) (f : N) (own : list (N * Code)) (rs : list N) (name : option (list byte)).
Context (Hv : valid x f) (Hown : Forall (λ c, callback_ok c.2) own).
Context (Hhook : ∀ h, hook_of (bounds x) = Some h → callback_ok h).
Context (steps : Z) (callback : Z → Z → Code) (Hsteps : (0 < steps)%Z).
Context (Hcallback : ∀ e s, call_ok (masking x) None (callback e s)).
Context (k : nat → St State Completion) (K : Meaning).

Abbreviation y := (inside f own rs x).

Context (Hk : ∀ w acts, f < acts → HELD w = [] → meets k (state y w acts) x acts (K w)).

Definition finished (first : option OwnedFault) : Meaning :=
  match first with
  | None => K
  | Some g => λ w,
      fail (hook_meaning (hook_of (bounds x))) (meanings own) (Fault g) (set_TEST_NAME (test_name g) w)
  end.

Lemma rounds_end rounds first w acts :
  f < acts → HELD w = [] →
  meets (λ m, each_rounds (call m) m (S rounds) steps callback 0 0 first ⊳ k m)
    (state y w acts) x acts (finished first w).
Proof.
  intros Hf Hw. destruct first as [g|].
  - apply meets_stop. simpl. by apply raise_owned_meets.
  - eapply meets_eq; [|by apply Hk]. done.
Qed.

Lemma each_rounds_meets n rounds e s first w acts :
  counters steps n e s → (n < rounds)%nat → f < acts → HELD w = [] → TEST_NAME w = name →
  meets (λ m, each_rounds (call m) m rounds steps callback e s first ⊳ k m) (state y w acts) x acts
    (each (λ e s, structured (callback e s) (masking x) None []) (set_TEST_NAME name) finished
       (fail (hook_meaning (hook_of (bounds x))) (meanings own) Cancelled)
       (countdown n steps e s) first w).
Proof.
  revert rounds e s first w acts. induction (lt_wf n) as [n _ IH].
  intros rounds e s first w acts Hc Hr Hf Hw Hn. destruct rounds as [|rounds]; [lia|].
  assert (Hy : valid y acts).
  { apply (records_valid f own (with_frames (map (pair f) rs ++ frames x) x)); [|done].
    by destruct Hv as [? ? ?]; split. }
  destruct n as [|n'].
  { destruct (counters_zero _ Hsteps _ _ Hc) as [-> ->]. simpl. replace (set_TEST_NAME name w) with w by (rewrite <- Hn; by destruct w).
    by apply (rounds_end rounds). }
  set (n := S n') in *.
  set (after := λ (m : nat) (p : Caught * (Z * Z)), match p with (outcome, (element, step)) =>
    match outcome with
    | Finished => each_rounds (call m) m rounds steps callback element step first
    | Failed (Fault f) => each_rounds (call m) m rounds steps callback element step (Some (default f first))
    | Failed Cancelled => cancel (call m) m
    | Ended report => mret (Exited report)
    end end).
  apply (meets_eq _ (λ m, catch_fault_inner (each_calls (call m) (S (remaining steps e s)) steps callback e s) None
    ≫= λ p, after m p ⊳ k m) _ (state y w acts)).
  { intros m. cbn [each_rounds]. rewrite (counters_more _ _ _ _ Hc), and_then_assoc.
    unfold mbind, St_bind. destruct (catch_fault_inner _ None _) as [[[o [e' s']] s1]| | |]; done. }
  rewrite (k_left _ _ _ _ Hc).
  destruct (each_calls_round steps callback y finished
    (fail (hook_meaning (hook_of (bounds x))) (meanings own) Cancelled) name Hsteps Hcallback n e s first w acts
    Hc Hy Hw) as [(w1 & acts1 & Ha & Hw1 & E & Hcalls)|H]; simpl in *.
  - rewrite E. pose proof (catch_returns _ _ _ _ _ _ _ _ Hcalls) as Hcatch. rewrite Hn in Hcatch.
    eapply meets_mono; [|exact Ha]. eapply meets_bind; [exact Hcatch|]. simpl.
    destruct rounds as [|rounds]; [lia|]. apply rounds_end; [lia|done].
  - destruct H as (g & w1 & acts1 & x' & n2 & e2 & s2 & Ha & Hw1 & Hlt & Hc2 & Hg & Hra & Ho & E & Hcalls).
    rewrite E. pose proof (catch_throws _ _ _ _ _ _ _ _ g x' Hra Ho Hcalls) as Hcatch. rewrite Hn in Hcatch.
    eapply meets_mono; [|exact Ha]. eapply meets_bind; [exact Hcatch|]. simpl. destruct g as [g|].
    + apply IH; try done; lia.
    + apply meets_stop. apply cancel_meets; auto. lia.
Qed.
End rounds.

(** ** Code *)

Definition code_ok (code : Code) : Prop := ∀ own rs guards x f w acts,
  balanced own.*1 rs guards code → NoDup own.*1 → valid x f → f < acts → length (HELD w) = guards →
  Forall (λ c, callback_ok c.2) own → (∀ h, hook_of (bounds x) = Some h → callback_ok h) →
  meets (λ m, exec m f code) (state (inside f own rs x) w acts) x acts
    (structured code (masking x) (hook_meaning (hook_of (bounds x))) (meanings own) w).

Lemma code_call masked hook code :
  code_ok code → balanced [] [] 0 code → (∀ h, hook = Some h → callback_ok h) →
  call_ok masked hook code.
Proof.
  intros Hc Hb Hh x w acts Hv Hw Hm Hx. subst masked hook.
  eapply meets_mono; [|apply N.le_add_r with (m := 1)].
  eapply (meets_eq _ (λ m, exec m acts code)); [done|].
  apply (Hc [] [] O x acts w (acts + 1)); try done; [by apply NoDup_nil|lia|by rewrite Hw].
Qed.

Lemma code_callback code : code_ok code → balanced [] [] 0 code → callback_ok code.
Proof. intros Hc Hb. by apply code_call. Qed.

Lemma unlink_records f r own l :
  r ∈ own.*1 → unlink (f, r) (records f own ++ l) = Some (records f (unregister r own) ++ l).
Proof.
  induction own as [|[i c] own IH]; simpl; intros Hr; [by apply not_elem_of_nil in Hr|].
  destruct (decide (i = r)) as [->|Hne].
  - by rewrite !bool_decide_eq_true_2.
  - rewrite !bool_decide_eq_false_2 by congruence. rewrite IH; [done|]. set_solver.
Qed.

Lemma unregister_meanings r own : unregister r (meanings own) = meanings (unregister r own).
Proof. induction own as [|[i c] own IH]; simpl; [done|]. rewrite IH. by destruct (bool_decide _). Qed.

Lemma unregister_names r (own : list (N * Code)) :
  NoDup own.*1 → (unregister r own).*1 = filter (.≠ r) own.*1.
Proof.
  induction own as [|[i c] own IH]; simpl; [done|]. intros [Hi Hn]%NoDup_cons.
  rewrite filter_cons. destruct (decide (i = r)) as [->|Hne]; simpl.
  - rewrite bool_decide_eq_true_2, decide_False by naive_solver. symmetry.
    clear -Hi. change (list_fmap _ _ fst own) with own.*1 in *. induction own.*1 as [|j l IHl]; [done|]. apply not_elem_of_cons in Hi as [? ?].
    by rewrite filter_cons, decide_True, IHl by done.
  - rewrite bool_decide_eq_false_2, decide_True by done. exact (f_equal (cons i) (IH Hn)).
Qed.

Lemma unregister_Forall P r (own : list (N * Code)) : Forall P own → Forall P (unregister r own).
Proof. induction 1; simpl; [constructor|]. destruct (bool_decide _); [done|by constructor]. Qed.

Lemma code_step f code k s s1 x acts p :
  (∀ m, exec (S m) f code s = exec m f k s1) → meets (λ m, exec m f k) s1 x acts p →
  meets (λ m, exec m f code) s x acts p.
Proof. intros Hc. exact (meets_step (λ m, exec m f code) (λ m, exec m f k) _ _ _ _ _ Hc). Qed.

Lemma pop_step f r k own rs x w acts m :
  r ∈ own.*1 →
  exec (S m) f (Cleanup_pop r k) (state (inside f own rs x) w acts) =
  exec m f k (state (inside f (unregister r own) rs x) w acts).
Proof.
  intros Hr. cbn [exec]. unfold loom_rt_cleanup_pop, mbind, St_bind, reads, edits. simpl.
  by rewrite unlink_records.
Qed.

Lemma leave_step f r k own rs x w acts m :
  exec (S m) f (Roots_leave r k) (state (inside f own (r :: rs) x) w acts) =
  exec m f k (state (inside f own rs x) w acts).
Proof.
  cbn [exec]. unfold loom_rt_roots_leave, mbind, St_bind, reads, edits. simpl.
  by rewrite bool_decide_eq_true_2.
Qed.

Lemma guard_step f k y w acts m n :
  length (HELD w) = S n →
  exec (S m) f (Access_end k) (state y w acts) = exec m f k (state y (guards_end w) acts).
Proof.
  intros Hn. destruct (guards_end_held w n Hn) as [E _].
  cbn [exec]. unfold mbind, St_bind, reads, edits, lift. simpl. by rewrite E.
Qed.

(** The operations that continue in the same activation. *)
Definition simple (code : Code) : option Code :=
  match code with
  | Emit _ k | Cleanup_push _ _ k | Cleanup_pop _ k | Roots_enter _ k | Roots_leave _ k
  | Access_begin _ k | Access_end k | Test_enter _ k | Test_leave k | Interrupt k => Some k
  | _ => None
  end.

Lemma simple_ok code k :
  simple code = Some k → code_ok k →
  match code with Cleanup_push _ c _ => balanced [] [] 0 c → code_ok c | _ => True end → code_ok code.
Proof.
  intros Es Hk Hc own rs guards x f w acts Hb Hnd Hv Hf Hg Hown Hhook.
  destruct code as [|n k'|c k'|r c k'|r k'|r k'|r k'|a k'|k'|name k'|k'|k'|k'|msg|failure|h body d fl|count steps cb k'];
    try done; injection Es as ->; simpl in Hb.
  - eapply code_step; [|apply (Hk own rs guards x f (log (Emitted n) w) acts); try done]. done.
  - destruct Hb as (Hr & Hb & Hbk).
    eapply code_step; [|apply (Hk ((r, c) :: own) rs guards x f w acts); try done]; [done|by constructor|].
    constructor; [|done]. apply code_callback; [by apply Hc|done].
  - destruct Hb as (Hr & Hbk). rewrite <- (unregister_names _ own Hnd) in Hbk.
    eapply code_step; [intros m; by apply pop_step|]. simpl. rewrite unregister_meanings.
    apply (Hk (unregister r own) rs guards x f w acts); try done.
    + rewrite unregister_names by done. by apply NoDup_filter.
    + by apply unregister_Forall.
  - eapply code_step; [|apply (Hk own (r :: rs) guards x f w acts); try done]. done.
  - destruct rs as [|r' rs]; [done|]. destruct Hb as [-> Hbk].
    eapply code_step; [intros m; by apply leave_step|]. by apply (Hk own rs guards x f w acts).
  - eapply code_step; [|apply (Hk own rs (S guards) x f (set_HELD (HELD w ++ [a]) w) acts); try done]; [done|].
    simpl. rewrite length_app. simpl. lia.
  - destruct guards as [|guards]; [done|]. eapply code_step; [intros m; by eapply guard_step|].
    apply (Hk own rs guards x f (guards_end w) acts); try done. by apply guards_end_held.
  - eapply code_step; [|apply (Hk own rs guards x f (set_TEST_NAME (Some name) w) acts); try done]. done.
  - eapply code_step; [|apply (Hk own rs guards x f (set_TEST_NAME None w) acts); try done]. done.
  - eapply code_step; [|apply (Hk own rs guards x f (set_requested w) acts); try done]. done.
Qed.

Lemma frame_valid f own rs x acts : valid x f → f < acts → valid (inside f own rs x) acts.
Proof.
  intros Hv Hf. apply (records_valid f own (with_frames (map (pair f) rs ++ frames x) x)); [|done].
  by destruct Hv as [? ? ?]; split.
Qed.

Lemma call_code_ok c k : (balanced [] [] 0 c → code_ok c) → code_ok k → code_ok (Call c k).
Proof.
  intros Hc Hk own rs guards x f w acts (-> & Hbc & Hbk) Hnd Hv Hf Hg Hown Hhook.
  apply nil_length_inv in Hg.
  pose proof (code_call (masking x) (hook_of (bounds x)) c (Hc Hbc) Hbc Hhook
    (inside f own rs x) w acts (frame_valid f own rs x acts Hv Hf) Hg eq_refl eq_refl) as Hcall.
  apply (meets_step _ (λ m, call m c ⊳ exec m f k) _ (state (inside f own rs x) w acts)); [done|].
  apply (meets_sequence Hv Hf Hown _ (λ m, exec m f k) w _
    (structured k (masking x) (hook_meaning (hook_of (bounds x))) (meanings own)) Hcall).
  intros w1 acts1 Ha Hw1. apply (Hk own rs O); try done; [lia|by rewrite Hw1].
Qed.

Lemma checkpoint_ok k : code_ok k → code_ok (Worker_checkpoint k).
Proof.
  intros Hk own rs guards x f w acts (-> & Hbk) Hnd Hv Hf Hg Hown Hhook. simpl.
  destruct (worker && negb (masking x) && requested w) eqn:E.
  - assert (Hw : worker = true) by (by destruct worker).
    apply (meets_step _ (λ m, cancel (call m) m ⊳ exec m f k) _ (state (inside f own rs x) w acts)).
    { intros m. cbn [exec]. unfold checkpoint, and_then, mbind, St_bind, reads. simpl. by rewrite E. }
    apply meets_stop. by apply cancel_meets.
  - eapply code_step; [|by apply (Hk own rs O x f w acts)].
    intros m. cbn [exec]. unfold checkpoint, and_then, mbind, St_bind, reads. simpl. by rewrite E.
Qed.

Lemma closure_yields c s r s' : yields c s r s' → yields (λ m, closure (c m)) s (r, tt) s'.
Proof. intros [n Hn]. exists n. intros m Hm. unfold closure, mbind, St_bind. by rewrite Hn. Qed.

Lemma catch_code_ok h body d fl :
  match h with Some c => balanced [] [] 0 c → code_ok c | None => True end →
  (balanced [] [] 0 body → code_ok body) →
  code_ok d → (∀ f, code_ok (fl f)) → code_ok (Catch h body d fl).
Proof.
  intros Hh Hb Hd Hfl own rs guards x f w acts (-> & Hbh & Hbb & Hbd & Hbf) Hnd Hv Hf Hg Hown Hhook.
  pose proof Hg as Hg0. apply nil_length_inv in Hg0.
  set (y := inside f own rs x). assert (Hy : valid y acts) by (by apply frame_valid).
  assert (Hch : ∀ c, h = Some c → callback_ok c).
  { intros c ->. by apply code_callback; [apply Hh|]. }
  pose proof (code_call (masking x) h body (Hb Hbb) Hbb Hch (caught_in h y) w acts
    (caught_valid h y acts Hy) Hg0 eq_refl eq_refl) as [Hw1 Hm].
  set (after := λ (m : nat) (p : Caught * ()), match p with (outcome, _) =>
    match outcome with
    | Finished => exec m f d
    | Failed (Fault g) => exec m f (fl g)
    | Failed Cancelled => cancel (call m) m
    | Ended report => mret (Exited report)
    end end).
  apply (meets_step _ (λ m, catch_fault_inner (closure (call m body)) h ≫= after m) _ (state y w acts)); [done|].
  simpl. change (match h with Some h => Some (structured h true None []) | None => None end) with (hook_meaning h).
  destruct (structured body (masking x) (hook_meaning h) [] w) as [w1 [|g]]; simpl in *.
  - destruct Hm as (acts1 & Ha & Hm). eapply meets_mono; [|exact Ha].
    apply (meets_bind (λ m, catch_fault_inner (closure (call m body)) h) after _ (Finished, tt)
      (state y (set_TEST_NAME (TEST_NAME w) w1) acts1)).
    { apply (catch_returns (λ m, closure (call m body))), (closure_yields (λ m, call m body)), Hm. }
    apply (Hd own rs O); try done; [lia|by simpl; rewrite Hw1].
  - destruct Hm as (Hgw & x' & acts1 & Ha & Ho & Hhk & Hr & Hm). eapply meets_mono; [|exact Ha].
    apply (meets_bind (λ m, catch_fault_inner (closure (call m body)) h) after _ (Failed g, tt)
      (state y (set_TEST_NAME (TEST_NAME w) w1) acts1)).
    { apply (catch_throws (λ m, closure (call m body)) _ _ _ _ _ _ _ g x' Hr Ho). intros r s' Hfin.
      by apply (closure_yields (λ m, call m body)), Hm. }
    destruct g as [g|]; simpl.
    + apply (Hfl g own rs O); try done; [lia|by simpl; rewrite Hw1].
    + apply cancel_meets; try done; [lia|by apply Hgw].
Qed.

Lemma each_code_ok count steps cb k :
  (∀ e s, balanced [] [] 0 (cb e s) → code_ok (cb e s)) → code_ok k → code_ok (Cleanup_each count steps cb k).
Proof.
  intros Hcb Hk own rs guards x f w acts (-> & Hc & Hs & Hbc & Hbk) Hnd Hv Hf Hg Hown Hhook.
  pose proof Hg as Hg0. apply nil_length_inv in Hg0.
  set (y := inside f own rs x).
  set (rounds := S (remaining steps count 0)).
  apply (meets_step _ (λ m, each_rounds (call m) m rounds steps cb count 0 None ⊳ exec m f k) _ (state y w acts)).
  { intros m. cbn [exec]. unfold loom_rt_cleanup_each.
    rewrite (proj2 (Z.ltb_ge count 0)), (proj2 (Z.leb_gt steps 0)) by lia. done. }
  assert (Hcall : ∀ e s, call_ok (masking x) None (cb e s)).
  { intros e s. apply code_call; [by apply Hcb|done|done]. }
  simpl. rewrite <- countdown_pairs by lia.
  refine (each_rounds_meets x f own rs (TEST_NAME w) Hv Hown Hhook steps cb Hs Hcall (λ m, exec m f k)
    (structured k (masking x) (hook_meaning (hook_of (bounds x))) (meanings own)) _
    (remaining steps count 0) rounds count 0 None w acts _ _ Hf Hg0 eq_refl).
  - intros w1 acts1 Hf1 Hw1. apply (Hk own rs O); try done. by rewrite Hw1.
  - split; [done|lia|lia].
  - unfold rounds. lia.
Qed.

(** Every balanced activation does what it means, in every context. *)
Theorem code_meets code : code_ok code.
Proof.
  revert code. fix IH 1.
  intros [|n k|c k|r c k|r k|r k|r k|a k|k|name k|k|k|k|msg|failure|h body d fl|count steps cb k].
  - intros own rs guards x f w acts (Hn & -> & ->) Hnd Hv Hf Hg Hown Hhook. destruct own; [|done].
    apply nil_length_inv in Hg. split; [done|]. exists acts. split; [done|]. exists 1%nat.
    intros [|m] ?; [lia|done].
  - exact (simple_ok (Emit n k) k eq_refl (IH k) I).
  - apply call_code_ok; [intros _; apply IH|apply IH].
  - exact (simple_ok (Cleanup_push r c k) k eq_refl (IH k) (λ _, IH c)).
  - exact (simple_ok (Cleanup_pop r k) k eq_refl (IH k) I).
  - exact (simple_ok (Roots_enter r k) k eq_refl (IH k) I).
  - exact (simple_ok (Roots_leave r k) k eq_refl (IH k) I).
  - exact (simple_ok (Access_begin a k) k eq_refl (IH k) I).
  - exact (simple_ok (Access_end k) k eq_refl (IH k) I).
  - exact (simple_ok (Test_enter name k) k eq_refl (IH k) I).
  - exact (simple_ok (Test_leave k) k eq_refl (IH k) I).
  - apply checkpoint_ok, IH.
  - exact (simple_ok (Interrupt k) k eq_refl (IH k) I).
  - intros own rs guards x f w acts _ Hnd Hv Hf Hg Hown Hhook.
    eapply meets_step; [|by apply (fault_meets (own := own) (rs := rs) Hv Hf Hown Hhook w msg)]. done.
  - intros own rs guards x f w acts _ Hnd Hv Hf Hg Hown Hhook.
    eapply meets_step; [|by apply (raise_owned_meets (own := own) (rs := rs) Hv Hf Hown Hhook w failure)]. done.
  - apply catch_code_ok; [|intros _; apply IH|apply IH|intros g; apply IH].
    destruct h as [h|]; [intros _; apply IH|exact I].
  - apply each_code_ok; [intros e s _; apply IH|apply IH].
Qed.
End simulation.
