(* ===== verification/CleanupGuarantees.v ===== *)
(** What faults, cancellation and cleanup guarantee: [compiler/runtime/src/cleanup.rs] and the
    activations of [worker_control.rs]. *)

From S2P Require Import Prelude Effects Cleanup Structured CleanupFacts.

(** ** Boundaries *)

(** C11: A fault boundary, in any thread and under any other boundaries, does what the structured
    meaning of its body says: the cleanups of every activation that is left run once, in the
    opposite order of their registration and after the hook, whatever faults among them, and the
    first fault comes out, or the cancellation. The thread is left as it was found: chains,
    boundaries, mask and test name. *)
Theorem boundaries_restore_threads worker hook body x w acts :
  valid worker x acts → HELD w = [] → balanced [] [] 0 body →
  match hook with Some h => balanced [] [] 0 h | None => True end →
  ∃ acts' n, ∀ m, (n ≤ m)%nat →
    catch_fault_inner (closure (call m body)) hook (state worker x w acts) =
      let '(w', outcome) := boundary_meaning worker (masking x) hook body w in
      Ok ((outcome, tt), state worker x w' acts').
Proof.
  intros Hv Hw Hb Hh.
  assert (Hhook : ∀ h, hook = Some h → callback_ok worker h).
  { intros h ->. apply code_callback; [apply code_meets|done]. }
  destruct (code_call worker (masking x) hook body (code_meets worker body) Hb Hhook
    (caught_in hook x) w acts (caught_valid worker hook x acts Hv) Hw eq_refl eq_refl) as [_ Hm].
  unfold boundary_meaning. change (match hook with Some h => Some _ | None => None end)
    with (hook_meaning worker hook).
  destruct (structured worker body (masking x) _ [] w) as [w1 [|g]]; simpl in *.
  - destruct Hm as (acts1 & _ & Hm).
    destruct (catch_returns worker (λ m, closure (call m body)) hook x w w1 acts acts1 tt
      (closure_yields (λ m, call m body) _ _ _ Hm)) as [n Hn]. by exists acts1, n.
  - destruct Hm as (_ & x' & acts1 & _ & Ho & _ & Hr & Hm).
    destruct (catch_throws worker (λ m, closure (call m body)) hook x w w1 acts acts1 tt g x' Hr Ho) as [n Hn];
      [|by exists acts1, n].
    intros r s' Hf. apply (closure_yields (λ m, call m body)). by apply Hm.
Qed.

(** ** Threads *)

(** The context of the first activation. *)
Definition alone (used : bool) : Context := mkContext [] None [] [] false used.

Lemma alone_valid used : valid false (alone used) 1.
Proof. split; [done|by left|]. intros c Hc. by apply not_elem_of_nil in Hc. Qed.

(** A thread between two pieces of generated code. *)
Definition quiet (s : State) : Prop :=
  HEAD s = [] ∧ BOUNDARY s = [] ∧ ROOTS s = [] ∧ FIRST_FAULT s = None ∧
  CURRENT s = false ∧ MASKED s = false.

Section thread.
Context (code : Code) (w : World) (Hb : balanced [] [] 0 code) (Hw : HELD w = []).

Lemma program_ends :
  ∃ s n, world s = (program_meaning code w).1 ∧
    ((program_meaning code w).2 = Returned → quiet s) ∧
    ∀ m, (n ≤ m)%nat → call m code (thread w) = Ok ((program_meaning code w).2, s).
Proof.
  destruct (code_call false false None code (code_meets false code) Hb ltac:(done) (alone false) w 1
    (alone_valid false) Hw eq_refl eq_refl) as [_ Hm]. unfold program_meaning.
  change (hook_meaning false None) with (@None Meaning) in Hm.
  destruct (structured false code false None [] w) as [w1 [|g]]; simpl in *.
  - destruct Hm as (acts1 & _ & n & Hn). exists (state false (alone false) w1 acts1), n.
    split_and!; [done| |done]. intros _. by unfold quiet; split_and!.
  - destruct Hm as (_ & x' & acts1 & _ & Ho & _ & [M _ (Eb & f & -> & Hf)] & Hm).
    destruct (Hm _ _ (finishes_process false x' w1 acts1 Eb Ho M)) as [n Hn].
    exists (set_MASKED false (state false x' w1 acts1)), n. split_and!; [done|done|].
    intros m Hm'. change (thread w) with (state false (alone false) w 1). rewrite (Hn m Hm').
    by rewrite Hf.
Qed.

Lemma worker_ends :
  ∃ s n, world s = (worker_meaning code w).1 ∧ quiet s ∧ started s = true ∧
    ∀ m, (n ≤ m)%nat → run m code (thread w) = Ok ((worker_meaning code w).2, s).
Proof.
  set (x := alone true). set (y := caught_in None x).
  assert (Hy : valid true y 0) by (split; [done|by left|intros c Hc; by apply not_elem_of_nil in Hc]).
  assert (Hbody : meets true (λ m, checkpoint (call m) m ⊳ call m code) (state true y w 1) y 1
    (structured true (Worker_checkpoint (Call code Return)) false None [] w)).
  { simpl. destruct (requested w) eqn:E.
    - apply (meets_eq true _ (λ m, cancel (call m) m ⊳ call m code) _ (state true y w 1)).
      { intros m. unfold checkpoint, and_then, mbind, St_bind, reads. simpl. by rewrite E. }
      apply meets_stop. by apply (cancel_meets true (x := y) (f := 0) (own := []) (rs := []) Hy).
    - apply (meets_eq true _ (λ m, call m code) _ (state true y w 1)).
      { intros m. unfold checkpoint, and_then, mbind, St_bind, reads. simpl. by rewrite E. }
      pose proof (code_call true false None code (code_meets true code) Hb ltac:(done) y w 1
        (valid_later true y 0 1 Hy ltac:(done)) Hw eq_refl eq_refl) as H.
      simpl in H. by destruct (structured true code false None [] w) as [w1 [|g]]. }
  set (p := structured true (Worker_checkpoint (Call code Return)) false None [] w) in *.
  change (worker_meaning code w) with (let '(w', r) := p in
    (set_TEST_NAME (TEST_NAME w) w', match r with Ends => Finished | Throws f => Failed f end)).
  clearbody p. destruct Hbody as [_ Hm]. destruct p as [w1 [|g]]; simpl in *.
  - destruct Hm as (acts1 & _ & Hm).
    destruct (catch_returns true (λ m, closure (checkpoint (call m) m ⊳ call m code)) None x w w1 1 acts1 tt
      (closure_yields _ _ _ _ Hm)) as [n Hn].
    exists (set_CURRENT false (state true x (set_TEST_NAME (TEST_NAME w) w1) acts1)), n.
    split_and!; [done|by unfold quiet; split_and!|done|]. intros m Hm'.
    unfold run, mbind, St_bind, reads, edits. simpl.
    change (set_CURRENT true _) with (state true x w 1). by rewrite (Hn m Hm').
  - destruct Hm as (_ & x' & acts1 & _ & Ho & _ & Hr & Hm).
    destruct (catch_throws true (λ m, closure (checkpoint (call m) m ⊳ call m code)) None x w w1 1 acts1 tt
      g x' Hr Ho) as [n Hn].
    { intros r s' Hf. apply (closure_yields (λ m, checkpoint (call m) m ⊳ call m code)). by apply Hm. }
    exists (set_CURRENT false (state true x (set_TEST_NAME (TEST_NAME w) w1) acts1)), n.
    split_and!; [done|by unfold quiet; split_and!|done|]. intros m Hm'.
    unfold run, mbind, St_bind, reads, edits. simpl.
    change (set_CURRENT true _) with (state true x w 1). by rewrite (Hn m Hm').
Qed.
End thread.

(** C12: A program and a worker come to the end that their structured meaning says, with the
    events that it says: a program returns, or it exits and reports its first fault after all
    cleanups; a worker finishes or fails by its first fault or, without one, by cancellation. A
    thread that goes on has no registrations left. *)
Theorem threads_end_as_meant code w :
  balanced [] [] 0 code → HELD w = [] →
  (∃ s n, world s = (program_meaning code w).1 ∧
    ((program_meaning code w).2 = Returned → quiet s) ∧
    ∀ m, (n ≤ m)%nat → call m code (thread w) = Ok ((program_meaning code w).2, s)) ∧
  (∃ s n, world s = (worker_meaning code w).1 ∧ quiet s ∧ started s = true ∧
    ∀ m, (n ≤ m)%nat → run m code (thread w) = Ok ((worker_meaning code w).2, s)).
Proof. intros Hb Hw. split; [by apply program_ends|by apply worker_ends]. Qed.

(** ** Cancellation of cleanup *)

(** What generated code calls to dispose of something: in a shared program, every function
    starts with a checkpoint. *)
Definition disposal (n : N) : Code := Worker_checkpoint (Emit n Return).

(** A scope that is left normally: [run_cleanup] of [llvm_cleanup.rs] pops the registration and
    then calls the callback. *)
Definition scope : Code :=
  Cleanup_push 0 (disposal 1) (Interrupt (Cleanup_pop 0 (Call (disposal 1) Return))).

(** A list of two elements, the last of which faults when it is disposed of. *)
Definition elements (message : list byte) : Code :=
  Cleanup_each 2 1 (λ e _, if (e =? 1)%Z then Emit 1 (Interrupt (Raise message)) else disposal 0) Return.

(** C13: Cancellation can interrupt mandatory cleanup, and replace its fault. Cleanup is masked
    only when it runs because of an unwinding: a worker that leaves a scope normally and is
    cancelled there never runs the cleanup of that scope, and a collection whose last element
    has faulted is abandoned with its other elements, and the fault is lost. *)
Theorem cancellation_skips_cleanup w message :
  requested w = false → HELD w = [] →
  (∃ s n, events (world s) = events w ∧
    ∀ m, (n ≤ m)%nat → run m scope (thread w) = Ok (Failed Cancelled, s)) ∧
  (∃ s n, events (world s) = events w ++ [Emitted 1] ∧
    ∀ m, (n ≤ m)%nat → run m (elements message) (thread w) = Ok (Failed Cancelled, s)).
Proof.
  destruct w as [r l name e]. simpl. intros -> ->. split.
  - destruct (worker_ends scope (mkWorld false [] name e)) as (s & n & Es & _ & _ & H);
      [simpl; set_solver|done|]. exists s, n. by rewrite Es.
  - destruct (worker_ends (elements message) (mkWorld false [] name e)) as (s & n & Es & _ & _ & H); [|done|].
    { simpl. split_and!; try done. intros e' s'. by destruct (e' =? 1)%Z. }
    exists s, n. by rewrite Es.
Qed.

(** ** Instances *)

(** A body that faults with two cleanups, the younger of which faults too, under a hook. *)
Definition faulting : Code :=
  Cleanup_push 0 (Emit 3 Return) (Cleanup_push 1 (Emit 2 (Raise [x08])) (Raise [x07])).

Lemma boundaries_restore_threads_witness :
  ∃ acts n, ∀ m, (n ≤ m)%nat →
    catch_fault_inner (closure (call m faulting)) (Some (Emit 1 Return))
      (state false (alone false) (mkWorld false [] None []) 1) =
    Ok ((Failed (Fault (mkFault [x07] None)), tt),
        state false (alone false) (mkWorld false [] None [Emitted 1; Emitted 2; Emitted 3]) acts).
Proof.
  refine (boundaries_restore_threads false (Some (Emit 1 Return)) faulting (alone false)
    (mkWorld false [] None []) 1 (alone_valid false) eq_refl _ _).
  - simpl. set_solver.
  - done.
Defined.

Lemma threads_end_as_meant_witness :
  ∃ s n, events (world s) = [Emitted 2; Emitted 3] ∧
    ∀ m, (n ≤ m)%nat → run m faulting (thread (mkWorld false [] None [])) =
      Ok (Failed (Fault (mkFault [x07] None)), s).
Proof.
  destruct (proj2 (threads_end_as_meant faulting (mkWorld false [] None []) ltac:(simpl; set_solver) eq_refl))
    as (s & n & Es & _ & _ & H).
  exists s, n. split; [by rewrite Es|exact H].
Defined.

Lemma cancellation_skips_cleanup_witness :
  ∃ s n, events (world s) = [] ∧
    ∀ m, (n ≤ m)%nat → run m scope (thread (mkWorld false [] None [])) = Ok (Failed Cancelled, s).
Proof. exact (proj1 (cancellation_skips_cleanup (mkWorld false [] None []) [x07] eq_refl eq_refl)). Defined.
